(* ===== verification/_CoqProject ===== *)
-Q . S2P
Prelude.v
Order.v
Text.v
Lsn.v
Externals.v
Frame.v
Bloom.v
LayerKey.v
Layer.v
LayerBuild.v
LayerRead.v
LayerLookup.v
LayerCursor.v
LayerMap.v
Memtable.v
Cas.v
Layout.v
PageRead.v
PageReadProofs.v
Prog.v
Manifest.v
Lease.v
LeaseProofs.v
LeaseFence.v
Heartbeat.v
ShardManifest.v
Shards.v
ShardsProofs.v
Segment.v
Media.v
MediaProofs.v
Chain.v
ChainHead.v
ChainProofs.v
ChainRuns.v
Backpressure.v
Tee.v
Sequencer.v
SequencerProofs.v
SequencerChain.v
SequencerSpec.v
Sealed.v
SealedBuild.v
Consolidate.v
ConsolidateRound.v
ConsolidateRun.v
CatchUp.v
CatchUpProofs.v
ConsolidateRuns.v
Utf8.v
RestScan.v
RestScanProofs.v
RestFilter.v
RestFilterProofs.v
RestFilterRound.v
RestOrder.v
RestSelect.v
RestSelectProofs.v
RestSql.v
RestSqlProofs.v
RestSqlSafety.v
RestCsv.v
Branch.v
BranchReads.v
BranchProofs.v
BranchHistory.v
Placement.v
Gc.v
GcProofs.v
GcExact.v
GcLock.v
ForkSize.v
Pending.v
Registry.v
RtFrame.v
RtLimit.v
RtSession.v
RtSessionProofs.v
RtHub.v
RtRuns.v
