(* ===== verification/Prelude.v ===== *)
(** * zou: a verified model of the storage engine, the landing log, and the REST and realtime front ends

    zou keeps Postgres databases on object storage and serves them over
    REST and realtime sockets.  This library models the crates of the
    repository that carry its own logic and proves what the rest of the
    program relies on: the storage engine (crates/zou-store/src), the landing
    log (crates/zou-log/src), garbage collection (crates/zou-pg/src/gc.rs),
    the query grammars with the SQL compiler behind them
    (crates/zou-rest/src), and the realtime protocol with the hub behind it
    (crates/zou-realtime/src).

    ** The program and its parts

    A tenant is one database.  Its root of truth is one JSON document, the
    manifest, changed only by compare-and-swap; a writer holds the tenant's
    lease, which lives in the manifest.  Page history is cut into immutable
    layer objects: delta layers of (key, lsn, record) and image layers of
    whole pages.  A shard manifest lists the layers of one shard of the
    tenant.  A read plans which listed layers can hold a page, fetches their
    footers and the few blocks that can hold the key, and stacks the records
    above the newest image.  New records wait in a memtable and are flushed
    as a delta layer.  Everything goes through one trait, [CasStore].
    A branch is a new tenant whose manifests list its parent's layers, cut
    at the branch point; a map of the fleet says which node serves which
    shard of which tenant.

    Before that, WAL frames of many tenants land together.  The sequencer
    gathers appends into windows, builds a segment of each window, puts
    segments in parallel and acknowledges them in order; admission asks the
    gauges of the backpressure board, and a tee hands durable windows to
    local readers.  A segment takes a position of a chain by a put that must
    not overwrite, on one bucket or on two of three; a new writer finds the
    head of the chain, seals it against its predecessor and goes on from
    there.  Consolidation folds runs of the chain into sealed segments sorted
    by tenant, publishes an index per round, and later deletes the landing
    segments it folded.  A reader that fell behind catches up from the rounds
    and then from the tail of the chain.

    A REST request carries its query in the parameters of its URL.  Three
    grammars over one cursor parse filters, orders and selections into
    trees, and render trees back in a canonical form; filters become one
    WHERE fragment with numbered placeholders and the list of parameters
    they stand for.  Csv bodies and ranges have readers of their own.

    A realtime socket carries many channels.  A session turns every message
    of the client, the hub and the database into a list of actions; the loop
    of the connection carries them out and comes back with the answers of
    the policies (for a private channel) and of the reader of changes.  The
    hub hands broadcasts to everybody on a topic and keeps who is present,
    sent to a client once as a state and from then on as diffs.  Meters and
    windows count what a project and a client are allowed.

    ** Files, and the code they model

    Shared:
    - [Prelude]: outcomes of Rust code ([res]: a value, an error, a panic),
      checked machine arithmetic, slices, bytes, little endian integers, and
      the automation for them.
    - [Order]: Rust's [Ord], stable sorting, [BTreeMap] as a sorted list.
    - [Text]: printing and parsing of numbers, cutting of strings.
    - [Utf8]: what a Rust [str] is, its slices and [String::from_utf8].
    - [Externals]: the crates crc32c, lz4_flex and sha2 as classes of
      operations with separate classes of laws, and concrete instances.

    crates/zou-store/src:
    - [Lsn]: lsn.rs.  [Bloom]: bloom.rs.  [Memtable]: memtable.rs.
    - [Frame]: frame.rs, the frame codec, the walk over a segment, and the
      placement hash.
    - [LayerKey], [Layer]: layer.rs, keys, builders, footers and decoders.
      [LayerBuild], [LayerRead] and [LayerLookup] prove them: the invariant
      of the builders, the two round trips, reads of a suffix and of single
      blocks, arbitrary bytes.
      [LayerCursor] has the streaming cursors.
    - [LayerMap]: layermap.rs, layer names, the interval tree, read plans.
    - [Cas]: the trait of cas.rs and its default methods, with its contract
      as classes of laws ([CasOk], [CasSnap]); mem.rs as an instance.
    - [Layout]: layout.rs and guard.rs.
    - [PageRead], [PageReadProofs]: pageread.rs.
    - [Prog]: functions that talk to the store, as finite trees of calls;
      how a tree runs alone, while others meddle, and one call at a time.
    - [Manifest]: manifest.rs.  [Lease]: lease.rs, proved in [LeaseProofs]
      and [LeaseFence].  [Heartbeat]: heartbeat.rs, the thread that renews.
    - [ShardManifest]: shardmanifest.rs.  [Shards]: shards.rs, proved in
      [ShardsProofs].
    - [Branch]: branch.rs, as computations on a store others act on, proved
      in [BranchReads] (what a child reads), [BranchProofs] (what a branch
      writes) and [BranchHistory] (refusals, snapshots, lineage).
    - [Placement]: placement.rs.  [ForkSize]: forksize.rs.
      [Registry]: registry.rs.

    crates/zou-log/src:
    - [Segment]: segment.rs, the builder and the decoders.
    - [Media]: functions that talk to several media from several threads, as
      trees of calls, and the systems they run in; the modes and the quorum
      of media.rs, proved in [MediaProofs].
    - [Chain]: chain.rs and the sink of media.rs.  [ChainHead] proves the
      search for the head, [ChainProofs] reading and takeover; [ChainRuns]
      has concrete chains.
    - [Backpressure]: backpressure.rs.  [Tee]: the fan out of tee.rs.
    - [Sequencer]: sequencer.rs as a step function over labels, proved in
      [SequencerProofs] (the invariant), [SequencerChain] (what was written),
      [SequencerSpec] (the promises, rest, and concrete schedules).
    - [Sealed]: sealed.rs, proved there and in [SealedBuild].
    - [Consolidate]: consolidate.rs, proved in [ConsolidateRound] and
      [ConsolidateRun].
    - [CatchUp]: the catch up of tee.rs, proved in [CatchUpProofs];
      [ConsolidateRuns] takes one shard through its life.

    crates/zou-pg/src and crates/zou/src:
    - [Gc]: gc.rs of zou-pg, the collection of what no manifest names.
      [GcProofs] says what the scan finds, [GcExact] what a pass does and
      what it keeps; [GcLock] has the lock and the arguments of the command
      (gc.rs of zou), on a concrete store.
    - [Pending]: pending.rs, the write buffer, with the drain of lib.rs.

    crates/zou-rest/src:
    - [RestScan]: scan.rs, proved in [RestScanProofs].
    - [RestFilter]: filter.rs, proved in [RestFilterProofs] and
      [RestFilterRound].  [RestOrder]: order.rs.  [RestSelect]: select.rs,
      proved in [RestSelectProofs].
    - [RestSql]: the filter compiler of sql.rs.  It also reads SQL
      text as tokens and says which tokens a tree stands for; [RestSqlProofs]
      and [RestSqlSafety] prove the compiler against it.
    - [RestCsv]: csv.rs and page.rs.

    crates/zou-realtime/src and crates/zou-server/src:
    - [RtFrame]: frame.rs, frames in two JSON shapes and binary broadcasts.
    - [RtLimit]: limit.rs, the limits, the meter and the window of calls.
    - [RtSession]: session.rs as computations that carry the session and an
      environment, and the loop of realtime.rs ([turn], [act]); proved in
      [RtSessionProofs].
    - [RtHub]: hub.rs, with the client of its tests and the interleavings of
      sockets as a step relation.  [RtRuns] has concrete connections.

    A Rust function is a definition of the same name where the name is
    free; methods carry a short prefix of their type ([mem_insert] is
    [Memtable::insert]).  Structs are records, enums inductive types, [?]
    is the bind of [res] or of [prog].

    ** What the theorems show

    - Codecs: what is encoded decodes to itself ([lsn_round_trip],
      [frame_round_trip], [delta_round_trip], [image_round_trip],
      [layer_names_lossless], [segment_round_trip], [sealed_round_trip]),
      streaming gives what decoding gives ([cursors_stream_decode]), and no
      input makes a decoder panic ([decode_never_panics],
      [layer_decoders_never_panic], [segment_decoders_never_panic]).
    - Lookup structures lose nothing: [bloom_never_denies],
      [key_hex_sorts_like_key], [segment_walk], [footer_from_suffix],
      [locate_finds_key], [plan_exact], [above_keeps_every_record].
    - In-memory state is exact: [memtable_exact], [subset_reads_alike],
      [flush_lossless], [block_cache_true].
    - A page read returns the newest image and exactly the records above
      it, over any lawful store: [reconstruct_exact].
    - The store: [stale_swap_conflicts], [put_always_lands],
      [tenant_prefixes_disjoint], [guard_keeps_write_once].
    - The lease, under every interleaving of store calls: [one_writer],
      [epochs_unique]; and [take_fences], [takeover_returns].
      The renewal thread keeps the lease on a store at rest
      ([heartbeat_keeps_lease]); [retry_too_late] shows how it loses one.
    - Shards, under interference: [shard_edits_atomic],
      [shard_retries_safe], [serving_shards_complete], [resize_atomic].
    - Branches: a child reads its parent's past up to the branch point and
      nothing else ([branch_reads_parent]), a branch writes the child's
      manifests alone ([branch_exact]), an early refusal writes nothing
      ([branch_refuses_clean]), the newest snapshot is taken
      ([snapshot_newest]) and the walk through ancestors ends
      ([lineage_exact]).  Two runs show what goes wrong otherwise:
      [refused_branch_overwrites_destination] and
      [horizon_moves_after_the_check].
    - Placement: a roster change moves only what it must
      ([placement_minimal]), publishing lands under interference
      ([publish_lands]), and stale caches are found in one redirect
      ([routing_settles]).
    - Fork sizes: a marker never claims a page it cannot vouch for
      ([dense_honest]) and keeps up with pages written in any order
      ([run_caught_up]); [unnoticed_growth_claims] shows why a fork is grown
      first.
    - The write buffer: a drain changes nothing a read sees and leaves
      markers that cover what it wrote ([drain_keeps_reads]).
    - The registry: at rest it is two tables that agree, whatever is done to
      it ([registry_refines]); [deploy_undone] shows a deploy lost to an
      unconditional write beside it.
    - The media, under every interleaving of calls, threads, lost replies
      and timeouts: a chain position has one owner ([one_owner_per_seq]) and
      everybody who asks gets an answer ([claims_settle]).
    - The chain: the head search finds the first hole ([chain_head_exact]),
      recovery reads the linked prefix ([chain_read_exact]), a takeover seals
      and sweeps ([takeover_exact]).
    - The sequencer, on every schedule: what was acknowledged is recovered
      ([acked_is_recoverable]), what a crash strands is bounded
      ([stragglers_bounded]), frames of a stale epoch never follow newer ones
      ([epochs_never_regress]), every ticket is resolved
      ([sequencer_drains]); with [admission_exact] and [tee_delivers].
    - Consolidation: rounds continue each other ([rounds_continuous]), a
      round keeps exactly the frames it should ([consolidate_exact]) also
      after a death at any call ([consolidate_survives_crash]), collection
      deletes exactly what it may ([gc_exact]), and catching up misses
      nothing and repeats nothing in one call or in many ([catch_up_exact],
      [catch_up_resumes]).
    - Garbage collection: a pass deletes exactly the garbage whose stamp
      came of age ([gc_pass_exact]) and nothing a reader needs
      ([gc_keeps_reads]), one sweep at a time ([gc_lock_exclusive]); two
      runs show what a holder name with a space and one unreadable manifest
      do ([spaced_holder_excludes_nobody], [one_bad_manifest_stops_all]).
    - The grammars: no string makes a parser panic, and the canonical text
      of what was parsed parses to the same tree ([filter_round_trip],
      [order_round_trip], [select_round_trip]).
    - The SQL compiler: its text lexes to the tokens the tree stands for
      ([where_clause_reads]), whose structure no name or value can change
      ([where_clause_structure]), with placeholders dense and in order
      ([where_clause_dense]); what the parser accepts compiles
      ([parsed_filters_compile]).
    - Bodies and ranges: [csv_round_trip], [csv_last_empty_lost],
      [range_round_trip], [range_window].
    - Realtime: on every sequence of messages what a connection does in a
      private room the policies allow ([private_rooms_guarded]), what it
      keeps is in order ([session_in_order]), heartbeats, joins and leaves
      are answered once ([frames_answered]), frames survive the wire
      ([rt_frame_round_trip]), a client's copy of presence stays level with
      the hub under every interleaving ([presence_stays_level]), and meters
      and windows count what happened ([meter_exact], [calls_exact]).  Runs
      show a join that keeps the rights of the old identity, a refused join
      that gates a public channel, a broadcast whose lengths wrap and a meter
      that is stricter after an idle minute ([join_keeps_old_rights],
      [refused_join_gates_public], [long_topic_wraps],
      [idle_minute_is_stricter]).

    ** Interfaces

    [CasOk] is what a backend promises and [CasSnap] adds that a version
    pins the bytes it was read with; readers, the guard, leases, shards and
    the log are proved against them and [MemStore] discharges them.
    [CrcOk], [Lz4Ok], [ShaOk] and the serde classes [SerdeManifestOk],
    [SerdeShardOk], [SerdeMapOk], [SerdeLogOk] and [SerdeRoundOk] state documented
    behaviour of crates outside the repository.  [Handler] and [ClockOk] are
    the world a takeover runs in.  The SQL compiler is given text by its
    caller, the casts of the catalog and the tests for embedded relations;
    [compiler_ok] says that this text is SQL of its own.  [JsonOk] is the
    crate serde_json on values, [HashOrder] the unknown order of a
    [HashMap], [PipeOk] tokio's broadcast channel; [Env] is what a session
    asks of the world, and [EnvOk] that its answers about private topics are
    those of the [Policies].

    ** Fuel and bounds

    - [build] of the interval tree recurses on fewer layers each time when
      bounds are not inverted; its fuel is the number of layers plus one,
      and [plan_exact] shows that it never runs out on an accepted list.
      Running out is the source's stack overflow, a panic.
    - The stream over a segment consumes at least a header per frame, so its
      fuel is the length of the buffer.
    - [cas_put] is given what others do in each of its rounds; it always
      ends after them.
    - Retry loops on the store ([edit_loop], [advance_consistent], [change],
      [prune_lineage]) are given a number of rounds and are [Stuck] after
      them.  A round fails only if somebody else acted, so one round more
      than there are acts of others is enough; the theorems prove it.
    - [put_loop] and [publish] are retried in the same way; [lineage] is
      given one turn more than there are objects ([lineage_exact]).
    - [takeover_loop] needs one round per second of its limit, five for lost
      races and one more: [takeover_returns].
    - A quorum hears from three threads and two timeouts at most, so
      [QUORUM_FUEL] is 5; the head search doubles a [u64] and halves it
      again, so [HEAD_FUEL] is 66; [chain_head_exact] and [claims_settle]
      show that neither runs out.
    - Walks of the chain are given one round more than there are segments.
    - The actions of a session ask questions whose answers are actions
      again, at most twice deep: [ACT_FUEL] is 2, and
      [private_rooms_guarded] shows that a turn never runs out of it.
    - Parsers consume at least a byte per turn of each loop; [tree_fuel] and
      [select_fuel] are linear in the input, and the round trips and the
      totality lemmas show that they do not run out.  The call stack of the
      recursive parsers is not modelled.
    - Footer lengths are [u32] casts: up to 2^26 frames they cannot wrap,
      whatever the frames hold ([MAX_SEG_FRAMES], [MAX_SEALED_FRAMES]).
    - Sums of [u64] that the code does not bound are checked ([uadd],
      [usub]) and panic on overflow, as checked builds do.

    ** What is not modelled, and why

    Mutexes where one caller at a time is what they achieve, allocation,
    logging and statistics; the wrap-around of the in-memory store's 64-bit
    counter; the filesystem, S3 and sqlite backends, which are I/O behind the
    modelled trait.  Of crates/zou-rest, the resolution of embeds against the
    catalog and the planner, writes and calls built on it; the integration
    with a running Postgres in the rest of crates/zou-pg.  Of realtime.rs, the
    handshake, the end of a connection and the reader of changes; a node
    that relays the hub of another one keeps no presence and is not
    modelled.  HTTP handlers, the function runtime, the command line and the
    language bindings are glue around third-party code. *)
From stdpp Require Export base tactics list list_numbers gmap strings sorting.
From Stdlib Require Export ZArith Lia.
From Stdlib Require Import Strings.Byte.

#[global] Open Scope Z_scope.

(** ** Outcomes

    A Rust computation returns a value, returns an error, or panics (a
    slice out of range, an arithmetic underflow, a failed [expect]). *)
Inductive res (E A : Type) : Type :=
  | Ok (a : A)
  | Err (e : E)
  | Panic.
Arguments Ok {E A} a.
Arguments Err {E A} e.
Arguments Panic {E A}.

#[global] Instance Ok_inj {E A} : Inj (=) (=) (@Ok E A).
Proof. by intros ? ? [= ->]. Qed.

#[global] Instance res_ret {E} : MRet (res E) := λ A a, Ok a.
#[global] Instance res_bind {E} : MBind (res E) := λ A B f r,
  match r with Ok a => f a | Err e => Err e | Panic => Panic end.

(** [Option::ok_or] and [Option::expect]. *)
Definition ok_or {E A} (o : option A) (e : E) : res E A :=
  match o with Some a => Ok a | None => Err e end.
Definition expect {E A} (o : option A) : res E A :=
  match o with Some a => Ok a | None => Panic end.

(** [Result::map_err]. *)
Definition map_err {E F A} (f : E → F) (r : res E A) : res F A :=
  match r with Ok a => Ok a | Err e => Err (f e) | Panic => Panic end.

(** An early return: [if c { return Err(e) }]. *)
Definition guard_err {E} (c : bool) (e : E) : res E () :=
  if c then Err e else Ok ().
(** [assert!(c)]. *)
Definition assert {E} (c : bool) : res E () :=
  if c then Ok () else Panic.

(** Unsigned subtraction panics on underflow. *)
Definition usub {E} (a b : Z) : res E Z :=
  if b <=? a then Ok (a - b) else Panic.

(** Addition of two [u64] panics on overflow, as checked builds do. *)
Definition uadd {E} (a b : Z) : res E Z :=
  if a + b <=? 2 ^ 64 - 1 then Ok (a + b) else Panic.

(** [x.saturating_sub(y)] *)
Definition sat_sub (a b : Z) : Z := Z.max 0 (a - b).

Definition u8_max : Z := 2 ^ 8 - 1.
Definition u16_max : Z := 2 ^ 16 - 1.
Definition u32_max : Z := 2 ^ 32 - 1.
Definition u64_max : Z := 2 ^ 64 - 1.

(** [z as u32] *)
Definition as_u32 (z : Z) : Z := z mod 2 ^ 32.

(** [z] fits an unsigned integer of [n] bytes. *)
Definition fits (n : nat) (z : Z) : Prop := 0 ≤ z < 2 ^ (8 * Z.of_nat n).
#[global] Instance fits_dec n z : Decision (fits n z).
Proof. unfold fits. apply _. Defined.

(** ** Lengths and slices with machine indices *)
Definition zlen {A} (l : list A) : Z := Z.of_nat (length l).

(** The range [a..b] of a list, total. *)
Definition sub {A} (l : list A) (a b : Z) : list A :=
  take (Z.to_nat (b - a)) (drop (Z.to_nat a) l).

(** [&l[a..b]]: panics when the range is not inside the list. *)
Definition slice {E A} (l : list A) (a b : Z) : res E (list A) :=
  if (0 <=? a) && (a <=? b) && (b <=? zlen l) then Ok (sub l a b) else Panic.

(** [l[i]] *)
Definition index {E A} (l : list A) (i : Z) : res E A :=
  if 0 <=? i then expect (l !! Z.to_nat i) else Panic.

(** [l.get(a..b)] *)
Definition get_range {A} (l : list A) (a b : Z) : option (list A) :=
  if (0 <=? a) && (a <=? b) && (b <=? zlen l) then Some (sub l a b) else None.

(** ** Bytes *)
Abbreviation byte := Byte.byte.
Abbreviation bytes := (list Byte.byte).

Definition bval (b : byte) : Z := Z.of_N (Byte.to_N b).
(** [z as u8] *)
Definition byte_of_Z (z : Z) : byte :=
  match Byte.of_N (Z.to_N (z mod 256)) with Some b => b | None => Byte.x00 end.

#[global] Instance byte_eq_dec : EqDecision byte := Byte.byte_eq_dec.
#[global] Program Instance byte_countable : Countable byte :=
  inj_countable Byte.to_N Byte.of_N _.
Next Obligation. apply Byte.of_to_N. Qed.

(** A string literal as its UTF-8 bytes, which is what a Rust [str] is. *)
Definition str (s : string) : bytes := String.list_byte_of_string s.

(** [x.to_le_bytes()] of an [n]-byte integer, and [from_le_bytes]. *)
Fixpoint le_bytes (n : nat) (z : Z) : bytes :=
  match n with
  | O => []
  | S n => byte_of_Z z :: le_bytes n (z / 256)
  end.
Fixpoint le_val (l : bytes) : Z :=
  match l with
  | [] => 0
  | b :: l => bval b + 256 * le_val l
  end.

(** An [n]-byte little endian integer read at offset [a]. *)
Definition le_at {E} (n : nat) (l : bytes) (a : Z) : res E Z :=
  s ← slice l a (a + Z.of_nat n); mret (le_val s).

(** A cursor over a byte slice is the part not read yet: [take(&mut at, n)]
    of the decoders returns the next [n] bytes and advances. *)
Definition take_n {E} (e : E) (n : Z) (rest : bytes) : res E (bytes * bytes) :=
  if (0 <=? n) && (n <=? zlen rest)
  then Ok (take (Z.to_nat n) rest, drop (Z.to_nat n) rest) else Err e.

(** ** Hint databases *)
Create HintDb zou discriminated.

(** ** Facts about lists *)
Lemma elem_of_concat {A} (x : A) ls : x ∈ concat ls ↔ ∃ l, x ∈ l ∧ l ∈ ls.
Proof.
  induction ls as [|l ls IH]; simpl; [set_solver|].
  rewrite elem_of_app, IH. set_solver.
Qed.

(** ** Facts about bytes and little endian integers *)
Lemma bval_range b : 0 ≤ bval b < 256.
Proof. unfold bval. pose proof (Byte.to_N_bounded b). lia. Qed.

Lemma bval_byte_of_Z z : bval (byte_of_Z z) = z mod 256.
Proof.
  unfold bval, byte_of_Z.
  pose proof (Z.mod_pos_bound z 256 ltac:(lia)).
  destruct (Byte.of_N _) as [b|] eqn:E.
  - apply Byte.to_of_N in E. rewrite E. lia.
  - apply Byte.of_N_None_iff in E. lia.
Qed.

Lemma byte_of_Z_bval b : byte_of_Z (bval b) = b.
Proof.
  unfold byte_of_Z, bval. pose proof (Byte.to_N_bounded b).
  rewrite Z.mod_small by lia. rewrite N2Z.id, Byte.of_to_N. done.
Qed.

Lemma bval_inj b c : bval b = bval c → b = c.
Proof. intros H. rewrite <-(byte_of_Z_bval b), H. apply byte_of_Z_bval. Qed.

Lemma length_le_bytes n z : length (le_bytes n z) = n.
Proof. revert z; induction n; intros; simpl; auto. Qed.

Lemma zlen_le_bytes n z : zlen (le_bytes n z) = Z.of_nat n.
Proof. unfold zlen. by rewrite length_le_bytes. Qed.

Lemma pow256_succ n : 2 ^ (8 * Z.of_nat (S n)) = 256 * 2 ^ (8 * Z.of_nat n).
Proof.
  replace (8 * Z.of_nat (S n)) with (8 + 8 * Z.of_nat n) by lia.
  rewrite Z.pow_add_r by lia. done.
Qed.

Lemma le_val_bytes_mod n z : le_val (le_bytes n z) = z mod 2 ^ (8 * Z.of_nat n).
Proof.
  revert z; induction n as [|n IH]; intros z.
  - by rewrite Z.mod_1_r.
  - cbn [le_bytes le_val]. rewrite IH, bval_byte_of_Z, pow256_succ.
    rewrite Z.rem_mul_r; [done|lia|apply Z.pow_pos_nonneg; lia].
Qed.

Lemma le_val_bytes n z : fits n z → le_val (le_bytes n z) = z.
Proof. intros H. rewrite le_val_bytes_mod. by apply Z.mod_small. Qed.

Lemma le_val_fits l : fits (length l) (le_val l).
Proof.
  unfold fits. induction l as [|b l IH]; [simpl; lia|].
  cbn [le_val length]. rewrite pow256_succ. pose proof (bval_range b). lia.
Qed.

Lemma le_bytes_val l : le_bytes (length l) (le_val l) = l.
Proof.
  induction l as [|b l IH]; [done|]. cbn [le_val length le_bytes].
  pose proof (bval_range b). f_equal.
  - apply bval_inj. rewrite bval_byte_of_Z.
    rewrite Z.mul_comm, Z.mod_add, Z.mod_small; lia.
  - etransitivity; [|exact IH]. f_equal.
    rewrite (Z.mul_comm 256), Z.div_add, Z.div_small; lia.
Qed.

Lemma le_val_inj l k : length l = length k → le_val l = le_val k → l = k.
Proof.
  intros Hl Hv. rewrite <-(le_bytes_val l), <-(le_bytes_val k). congruence.
Qed.

(** ** Facts about lengths and slices *)
Lemma zlen_nonneg {A} (l : list A) : 0 ≤ zlen l.
Proof. unfold zlen. lia. Qed.
Lemma zlen_nil {A} : zlen (@nil A) = 0.
Proof. done. Qed.
Lemma zlen_cons {A} (x : A) l : zlen (x :: l) = 1 + zlen l.
Proof. unfold zlen. simpl length. lia. Qed.
Lemma zlen_app {A} (l k : list A) : zlen (l ++ k) = zlen l + zlen k.
Proof. unfold zlen. rewrite length_app. lia. Qed.
Lemma zlen_replicate {A} n (x : A) : zlen (replicate n x) = Z.of_nat n.
Proof. unfold zlen. by rewrite length_replicate. Qed.
Lemma foldl_cons {A B} (f : A → B → A) a x l : foldl f a (x :: l) = foldl f (f a x) l.
Proof. done. Qed.
Lemma as_u32_small z : fits 4 z → as_u32 z = z.
Proof. apply Z.mod_small. Qed.
Lemma to_nat_zlen {A} (l : list A) : Z.to_nat (zlen l) = length l.
Proof. apply Nat2Z.id. Qed.
Lemma zlen_0_inv {A} (l : list A) : zlen l = 0 → l = [].
Proof. unfold zlen. destruct l; simpl; [done|lia]. Qed.

Create Rewrite HintDb len.
#[export] Hint Rewrite @zlen_nil @zlen_cons @zlen_app zlen_le_bytes @zlen_replicate : len.

(** Normalise every length in the context and call [lia]. *)
Ltac zlen_lia :=
  unfold fits in *; autorewrite with len in *;
  repeat match goal with
  | |- context [zlen ?l] =>
      lazymatch goal with _ : 0 ≤ zlen l |- _ => fail | _ => pose proof (zlen_nonneg l) end
  | _ : context [zlen ?l] |- _ =>
      lazymatch goal with _ : 0 ≤ zlen l |- _ => fail | _ => pose proof (zlen_nonneg l) end
  end; lia.

Lemma zlen_take {A} n (l : list A) : 0 ≤ n ≤ zlen l → zlen (take (Z.to_nat n) l) = n.
Proof. unfold zlen. rewrite length_take. lia. Qed.
Lemma zlen_drop {A} n (l : list A) : 0 ≤ n ≤ zlen l → zlen (drop (Z.to_nat n) l) = zlen l - n.
Proof. unfold zlen. rewrite length_drop. lia. Qed.
Lemma zlen_sub {A} (l : list A) a b : 0 ≤ a ≤ b → b ≤ zlen l → zlen (sub l a b) = b - a.
Proof. unfold zlen, sub. rewrite length_take, length_drop. lia. Qed.

Lemma slice_ok {E A} (l : list A) a b :
  0 ≤ a ≤ b → b ≤ zlen l → @slice E A l a b = Ok (sub l a b).
Proof.
  intros. unfold slice.
  by rewrite !(proj2 (Z.leb_le _ _)) by lia.
Qed.

Lemma slice_inv {E A} (l : list A) a b s :
  @slice E A l a b = Ok s → 0 ≤ a ≤ b ∧ b ≤ zlen l ∧ s = sub l a b.
Proof.
  unfold slice. intros H.
  destruct (_ && _) eqn:C in H; [|done]. injection H as <-.
  rewrite !andb_true_iff, !Z.leb_le in C. destruct C as [[? ?] ?]. repeat split; lia.
Qed.

(** Skipping over a prefix, and stopping inside it. *)
Lemma sub_app_r {A} (l k : list A) a b :
  zlen l ≤ a → sub (l ++ k) a b = sub k (a - zlen l) (b - zlen l).
Proof.
  unfold zlen, sub. intros. rewrite drop_app_ge by lia.
  f_equal; [lia|]. f_equal. lia.
Qed.
Lemma sub_app_l {A} (l k : list A) a b :
  0 ≤ a → b ≤ zlen l → sub (l ++ k) a b = sub l a b.
Proof.
  unfold zlen, sub. intros.
  destruct (decide (a ≤ b)) as [|]; cycle 1.
  { replace (Z.to_nat (b - a)) with 0%nat by lia. done. }
  rewrite drop_app_le by lia. rewrite take_app_le; [done|].
  rewrite length_drop. lia.
Qed.
Lemma sub_all {A} (l : list A) b : b = zlen l → sub l 0 b = l.
Proof.
  unfold zlen, sub. intros ->. rewrite drop_0. apply take_ge. lia.
Qed.
Lemma sub_prefix {A} (l k : list A) b : b = zlen l → sub (l ++ k) 0 b = l.
Proof. intros ->. rewrite sub_app_l by lia. by apply sub_all. Qed.
Lemma sub_suffix {A} (l k : list A) a b :
  a = zlen l → b = zlen l + zlen k → sub (l ++ k) a b = k.
Proof.
  intros -> ->. rewrite sub_app_r by lia. rewrite Z.sub_diag. apply sub_all. lia.
Qed.
Lemma sub_mid {A} (l m k : list A) a b :
  a = zlen l → b = zlen l + zlen m → sub (l ++ m ++ k) a b = m.
Proof.
  intros -> ->. rewrite sub_app_r by lia.
  replace (zlen l - zlen l) with 0 by lia.
  apply sub_prefix. lia.
Qed.
Lemma sub_sub {A} (l : list A) a b c d :
  0 ≤ a → 0 ≤ c → c ≤ d → a + d ≤ b → sub (sub l a b) c d = sub l (a + c) (a + d).
Proof.
  intros. unfold sub. rewrite skipn_firstn_comm, take_take, drop_drop.
  f_equal; [lia|]. f_equal; lia.
Qed.
Lemma sub_split {A} (l : list A) a b c :
  0 ≤ a ≤ b → b ≤ c → sub l a c = sub l a b ++ sub l b c.
Proof.
  intros. unfold sub.
  replace (Z.to_nat (c - a)) with (Z.to_nat (b - a) + Z.to_nat (c - b))%nat by lia.
  rewrite <-take_take_drop, drop_drop. do 3 f_equal. lia.
Qed.

(** Reading an integer that was written at the offset the writer left it. *)
Lemma le_at_skip {E} n (l k : bytes) a :
  zlen l ≤ a → @le_at E n (l ++ k) a = le_at n k (a - zlen l).
Proof.
  intros H. unfold le_at, slice. rewrite zlen_app, sub_app_r by lia.
  replace (a + Z.of_nat n - zlen l) with (a - zlen l + Z.of_nat n) by lia.
  destruct (0 <=? a) eqn:?; destruct (0 <=? a - zlen l) eqn:?;
    destruct (a <=? a + Z.of_nat n) eqn:?;
    destruct (a - zlen l <=? a - zlen l + Z.of_nat n) eqn:?;
    destruct (a + Z.of_nat n <=? zlen l + zlen k) eqn:?;
    destruct (a - zlen l + Z.of_nat n <=? zlen k) eqn:?; simpl; try done; zlen_lia.
Qed.
Lemma le_at_here {E} n z (k : bytes) :
  fits n z → @le_at E n (le_bytes n z ++ k) 0 = Ok z.
Proof.
  intros. unfold le_at. rewrite slice_ok by zlen_lia. simpl.
  rewrite sub_prefix by zlen_lia. by rewrite le_val_bytes.
Qed.
Lemma le_at_end {E} n z : fits n z → @le_at E n (le_bytes n z) 0 = Ok z.
Proof. intros. rewrite <-(app_nil_r (le_bytes n z)). by apply le_at_here. Qed.

Lemma le_at_in_range {E} n l a :
  0 ≤ a → a + Z.of_nat n ≤ zlen l → ∃ z, @le_at E n l a = Ok z ∧ fits n z.
Proof.
  intros. unfold le_at. rewrite slice_ok by lia. eexists; split; [done|].
  replace n with (length (sub l a (a + Z.of_nat n))) at 1; [apply le_val_fits|].
  pose proof (zlen_sub l a (a + Z.of_nat n)). unfold zlen in *. lia.
Qed.

Lemma le_at_fits {E} n (l : bytes) a z : @le_at E n l a = Ok z → fits n z.
Proof.
  unfold le_at. destruct (slice l a (a + Z.of_nat n)) as [b| |] eqn:Sl; [|done..]. cbn. intros [= <-].
  apply slice_inv in Sl as (A & B & ->). replace n with (length (sub l a (a + Z.of_nat n))) at 1; [apply le_val_fits|].
  pose proof (zlen_sub l a (a + Z.of_nat n)). unfold zlen in *. lia.
Qed.

(** Walk [le_at] over a right-nested concatenation of fixed-size fields. *)
Ltac le_at_step :=
  first
    [ rewrite le_at_here by (assumption || zlen_lia)
    | rewrite le_at_end by (assumption || zlen_lia)
    | rewrite le_at_skip by zlen_lia; autorewrite with len;
      match goal with |- context [le_at _ _ ?a] =>
        let b := eval vm_compute in a in change a with b end ].

Lemma take_n_app {E} (e : E) n (l k : bytes) :
  n = zlen l → take_n e n (l ++ k) = Ok (l, k).
Proof.
  intros ->. unfold take_n. rewrite zlen_app.
  rewrite !(proj2 (Z.leb_le _ _)) by zlen_lia. simpl.
  unfold zlen. rewrite Nat2Z.id, take_app_length, drop_app_length. done.
Qed.

Lemma take_n_inv {E} (e : E) n rest s k :
  take_n e n rest = Ok (s, k) → 0 ≤ n ∧ zlen s = n ∧ rest = s ++ k.
Proof.
  unfold take_n. destruct (_ && _) eqn:C; [|done]. intros [= <- <-].
  rewrite andb_true_iff, !Z.leb_le in C.
  rewrite zlen_take by lia. rewrite take_drop. split_and!; [lia|done|done].
Qed.

(** ** Absence of panics *)
Definition no_panic {E A} (r : res E A) : Prop := r ≠ Panic.

Lemma no_panic_ok {E A} (a : A) : no_panic (@Ok E A a).
Proof. done. Qed.
Lemma no_panic_err {E A} (e : E) : no_panic (@Err E A e).
Proof. done. Qed.
Lemma no_panic_bind {E A B} (r : res E A) (f : A → res E B) :
  no_panic r → (∀ a, r = Ok a → no_panic (f a)) → no_panic (r ≫= f).
Proof. unfold no_panic. destruct r; simpl; auto. Qed.
Lemma no_panic_guard {E} c (e : E) : no_panic (guard_err c e).
Proof. by destruct c. Qed.
Lemma no_panic_ok_or {E A} (o : option A) (e : E) : no_panic (ok_or o e).
Proof. by destruct o. Qed.
Lemma no_panic_map_err {E F A} (f : E → F) (r : res E A) :
  no_panic r → no_panic (map_err f r).
Proof. unfold no_panic. destruct r; simpl; congruence. Qed.
Lemma no_panic_slice {E A} (l : list A) a b :
  0 ≤ a ≤ b → b ≤ zlen l → no_panic (@slice E A l a b).
Proof. intros. by rewrite slice_ok. Qed.
Lemma no_panic_le_at {E} n l a :
  0 ≤ a → a + Z.of_nat n ≤ zlen l → no_panic (@le_at E n l a).
Proof. intros. destruct (@le_at_in_range E n l a) as (z & -> & _); [lia|lia|done]. Qed.
Lemma no_panic_take_n {E} (e : E) n rest : no_panic (take_n e n rest).
Proof. unfold take_n. by destruct (_ && _). Qed.
Lemma no_panic_usub {E} a b : b ≤ a → no_panic (@usub E a b).
Proof. intros. unfold usub. by rewrite (proj2 (Z.leb_le _ _)). Qed.
Lemma no_panic_index {E A} (l : list A) i :
  0 ≤ i < zlen l → no_panic (@index E A l i).
Proof.
  unfold index, zlen. intros. rewrite (proj2 (Z.leb_le _ _)) by lia.
  destruct (lookup_lt_is_Some_2 l (Z.to_nat i)) as [x ->]; [lia|done].
Qed.

#[export] Hint Resolve no_panic_ok no_panic_err no_panic_guard no_panic_ok_or
  no_panic_map_err no_panic_take_n : zou.

(** Inversion of the early returns of a computation that went through. *)
Lemma bind_ok {E A B} (r : res E A) (f : A → res E B) b :
  r ≫= f = Ok b → ∃ a, r = Ok a ∧ f a = Ok b.
Proof. destruct r; simpl; [eauto|done|done]. Qed.
Lemma guard_ok {E} c (e : E) u : guard_err c e = Ok u → c = false.
Proof. by destruct c. Qed.
Lemma ok_or_ok {E A} (o : option A) (e : E) a : ok_or o e = Ok a → o = Some a.
Proof. destruct o; [by intros [= ->]|done]. Qed.
Lemma uadd_ok {E} a b c : @uadd E a b = Ok c → c = a + b ∧ a + b < 2 ^ 64.
Proof. unfold uadd. destruct (a + b <=? 2 ^ 64 - 1) eqn:L; [|done]. intros [= <-]. lia. Qed.
Lemma uadd_cases {E} a b : @uadd E a b = Ok (a + b) ∨ @uadd E a b = Panic.
Proof. unfold uadd. destruct (_ <=? _); auto. Qed.
Lemma usub_ok {E} a b c : @usub E a b = Ok c → b ≤ a ∧ c = a - b.
Proof. unfold usub. destruct (b <=? a) eqn:?; [|done]. intros [= <-]. lia. Qed.
Lemma map_err_ok {E F A} (f : E → F) (r : res E A) a :
  map_err f r = Ok a → r = Ok a.
Proof. destruct r; simpl; congruence. Qed.

Ltac bind_inv H :=
  let a := fresh "a" in let H1 := fresh "Hb" in
  apply bind_ok in H as (a & H1 & H);
  try (apply guard_ok in H1); try (apply usub_ok in H1 as [? ->]).
Ltac bind_all H :=
  repeat first
    [ bind_inv H
    | match type of H with (let '(_, _) := ?a in _) = _ => destruct a as [? ?] end ].

(** Running a computation forwards, one statement at a time. *)
Lemma bind_run {E A B} (a : A) (f : A → res E B) : (Ok a ≫= f) = f a.
Proof. done. Qed.
Lemma ret_run {E A B} (a : A) (f : A → res E B) : (mret a ≫= f) = f a.
Proof. done. Qed.
Lemma guard_run {E B} c (e : E) (f : () → res E B) :
  c = false → (guard_err c e ≫= f) = f ().
Proof. by intros ->. Qed.
Lemma guard_stop {E B} c (e : E) (f : () → res E B) :
  c = true → (guard_err c e ≫= f) = Err e.
Proof. by intros ->. Qed.
Lemma assert_run {E B} c (f : () → res E B) : c = true → (assert c ≫= f) = f ().
Proof. by intros ->. Qed.
Lemma slice_run {E A B} (l : list A) a b (f : list A → res E B) :
  0 ≤ a ≤ b → b ≤ zlen l → (slice l a b ≫= f) = f (sub l a b).
Proof. intros. by rewrite slice_ok. Qed.
Lemma usub_run {E B} a b (f : Z → res E B) : b ≤ a → (usub a b ≫= f) = f (a - b).
Proof. intros. unfold usub. by rewrite (proj2 (Z.leb_le _ _)). Qed.
Lemma index_run {E A B} (l : list A) i x (f : A → res E B) :
  0 ≤ i → l !! Z.to_nat i = Some x → (index l i ≫= f) = f x.
Proof. intros ? E1. unfold index. rewrite (proj2 (Z.leb_le _ _)) by done. by rewrite E1. Qed.

Lemma lookup_skip {A} (l k : list A) i :
  zlen l ≤ i → (l ++ k) !! Z.to_nat i = k !! Z.to_nat (i - zlen l).
Proof.
  unfold zlen. intros. rewrite lookup_app_r by lia. f_equal. lia.
Qed.

(** Reading the field [le_bytes n z] that sits behind the prefix [pre]. *)
Lemma le_at_field {E} n z (pre post : bytes) a :
  a = zlen pre → fits n z → @le_at E n (pre ++ le_bytes n z ++ post) a = Ok z.
Proof. intros -> F. rewrite le_at_skip, Z.sub_diag by lia. by apply le_at_here. Qed.
Lemma lookup_field {A} (x : A) (pre post : list A) a :
  a = zlen pre → (pre ++ [x] ++ post) !! Z.to_nat a = Some x.
Proof. intros ->. rewrite lookup_skip, Z.sub_diag by lia. done. Qed.

Lemma take_zlen {A} k (l : list A) : (k ≤ length l)%nat → zlen (take k l) = Z.of_nat k.
Proof. unfold zlen. rewrite length_take. lia. Qed.
Lemma le_at_take {E} n k (l : bytes) a :
  0 ≤ a → a + Z.of_nat n ≤ Z.of_nat k → (k ≤ length l)%nat →
  @le_at E n (take k l) a = le_at n l a.
Proof.
  intros. unfold le_at. rewrite <-(take_drop k l) at 2.
  rewrite !slice_ok by (unfold zlen; rewrite ?length_app, ?length_take, ?length_drop; lia).
  simpl. do 2 f_equal. symmetry. apply sub_app_l; [lia|]. rewrite take_zlen; lia.
Qed.

Lemma sub_field (pre post : bytes) n z a b :
  a = zlen pre → b = zlen pre + Z.of_nat n → fits n z →
  le_val (sub (pre ++ le_bytes n z ++ post) a b) = z.
Proof. intros. rewrite sub_mid by zlen_lia. by apply le_val_bytes. Qed.

Lemma sub_field_0 (post : bytes) n z b :
  b = Z.of_nat n → fits n z → le_val (sub (le_bytes n z ++ post) 0 b) = z.
Proof. intros. rewrite sub_prefix by zlen_lia. by apply le_val_bytes. Qed.
(** The same for the decoders that read fixed rows. *)
Ltac vfield :=
  first
    [ apply sub_field_0; [zlen_lia|assumption || zlen_lia]
    | apply sub_field; [zlen_lia|zlen_lia|assumption || zlen_lia]
    | rewrite app_assoc; vfield ].

Arguments le_at : simpl never.
Arguments slice : simpl never.
Arguments index : simpl never.
Arguments take_n : simpl never.
Arguments usub : simpl never.
Arguments le_bytes : simpl never.
Arguments sub : simpl never.
Arguments zlen : simpl never.

(** Boolean comparisons on integers as propositions, either way round. *)
Ltac zbool :=
  repeat match goal with
  | H : _ && _ = true |- _ => apply andb_true_iff in H as [? ?]
  | H : _ || _ = false |- _ => apply orb_false_iff in H as [? ?]
  | H : negb _ = true |- _ => apply negb_true_iff in H
  | H : negb _ = false |- _ => apply negb_false_iff in H
  | H : (_ <? _) = true |- _ => apply Z.ltb_lt in H
  | H : (_ <? _) = false |- _ => apply Z.ltb_ge in H
  | H : (_ <=? _) = true |- _ => apply Z.leb_le in H
  | H : (_ <=? _) = false |- _ => apply Z.leb_gt in H
  | H : (_ =? _) = true |- _ => apply Z.eqb_eq in H
  | H : (_ =? _) = false |- _ => apply Z.eqb_neq in H
  | |- _ && _ = true => apply andb_true_iff; split
  | |- _ || _ = false => apply orb_false_iff; split
  | |- negb _ = true => apply negb_true_iff
  | |- negb _ = false => apply negb_false_iff
  | |- (_ <? _) = true => apply Z.ltb_lt
  | |- (_ <? _) = false => apply Z.ltb_ge
  | |- (_ <=? _) = true => apply Z.leb_le
  | |- (_ <=? _) = false => apply Z.leb_gt
  | |- (_ =? _) = true => apply Z.eqb_eq
  | |- (_ =? _) = false => apply Z.eqb_neq
  end.
(** Pass the next early return because its condition is false. *)
Ltac pass := rewrite guard_run by (zbool; zlen_lia).

(** Solve [le_at n buf a = Ok z] and [buf !! a = Some x] when [buf] is a
    right-nested concatenation that has the field at [a]. *)
Ltac field :=
  first
    [ apply le_at_here; (assumption || zlen_lia)
    | apply le_at_field; [zlen_lia | assumption || zlen_lia]
    | apply lookup_field; zlen_lia
    | rewrite app_assoc; field ].

(** Step over one statement of a computation shown not to panic. *)
Lemma np_guard {E B} c (e : E) (f : () → res E B) :
  (c = false → no_panic (f ())) → no_panic (guard_err c e ≫= f).
Proof. destruct c; simpl; [done|auto]. Qed.
Lemma np_le_at {E B} n l a (f : Z → res E B) :
  0 ≤ a → a + Z.of_nat n ≤ zlen l → (∀ z, fits n z → le_at n l a = @Ok E Z z → no_panic (f z)) →
  no_panic (le_at n l a ≫= f).
Proof. intros A1 A2 A3. destruct (@le_at_in_range E n l a A1 A2) as (z & Ez & ?). rewrite Ez. simpl. auto. Qed.
Lemma np_slice {E A B} (l : list A) a b (f : list A → res E B) :
  0 ≤ a ≤ b → b ≤ zlen l → no_panic (f (sub l a b)) → no_panic (slice l a b ≫= f).
Proof. intros. by rewrite slice_run. Qed.
Lemma np_usub {E B} a b (f : Z → res E B) :
  b ≤ a → no_panic (f (a - b)) → no_panic (usub a b ≫= f).
Proof. intros. by rewrite usub_run. Qed.
Lemma np_index {E A B} (l : list A) i (f : A → res E B) :
  0 ≤ i < zlen l → (∀ x, no_panic (f x)) → no_panic (index l i ≫= f).
Proof.
  unfold zlen. intros A1 A2. destruct (lookup_lt_is_Some_2 l (Z.to_nat i)) as [x Ex]; [lia|].
  by erewrite index_run by (done || lia).
Qed.
Lemma np_take_n {E B} (e : E) n rest (f : bytes * bytes → res E B) :
  (∀ s k, rest = s ++ k → zlen s = n → no_panic (f (s, k))) → no_panic (take_n e n rest ≫= f).
Proof.
  intros A1. destruct (take_n e n rest) as [[s k]| |] eqn:T; simpl; [|done|].
  - apply take_n_inv in T as (? & ? & ?). auto.
  - by apply no_panic_take_n in T.
Qed.
Ltac np_step :=
  first
    [ apply no_panic_ok | apply no_panic_err
    | apply np_guard; let C := fresh "C" in intros C; zbool
    | apply np_slice; [zlen_lia|zlen_lia|]
    | apply np_usub; [zlen_lia|]
    | apply np_index; [zlen_lia|let x := fresh "x" in intros x]
    | apply np_le_at; [zlen_lia|zlen_lia|let z := fresh "z" in let F := fresh "F" in intros z F _]
    | apply np_take_n; let s := fresh "s" in let k := fresh "k" in intros s k ? ?; subst ].
