(* ===== verification/Order.v ===== *)
(** * Ordered keys, stable sorting and ordered maps

    Rust's [Ord] as a class of comparison functions with its laws, the
    derived lexicographic orders, [sort_by_key] as a stable sort, and
    [BTreeMap] as a strictly sorted association list with the operations
    the storage engine uses. *)
From S2P Require Import Prelude.

Class Ord (A : Type) := ocmp : A → A → comparison.

Class OrdOk (A : Type) `{Ord A} : Prop := {
  ocmp_eq : ∀ x y : A, ocmp x y = Eq ↔ x = y;
  ocmp_flip : ∀ x y : A, ocmp y x = CompOpp (ocmp x y);
  ocmp_trans : ∀ x y z : A, ocmp x y = Lt → ocmp y z = Lt → ocmp x z = Lt
}.

Definition oltb {A} `{Ord A} (x y : A) : bool :=
  match ocmp x y with Lt => true | _ => false end.
Definition oleb {A} `{Ord A} (x y : A) : bool :=
  match ocmp x y with Gt => false | _ => true end.
Definition oeqb {A} `{Ord A} (x y : A) : bool :=
  match ocmp x y with Eq => true | _ => false end.
Definition olt {A} `{Ord A} (x y : A) : Prop := oltb x y = true.
Definition ole {A} `{Ord A} (x y : A) : Prop := oleb x y = true.
(** [x.min(y)] and [x.max(y)]. *)
Definition omin {A} `{Ord A} (x y : A) : A := if oleb x y then x else y.
Definition omax {A} `{Ord A} (x y : A) : A := if oltb y x then x else y.

Declare Scope ord_scope.
Delimit Scope ord_scope with ord.
Infix "<" := olt : ord_scope.
Infix "<=" := ole : ord_scope.
Infix "≤" := ole : ord_scope.
Infix "<?" := oltb : ord_scope.
Infix "<=?" := oleb : ord_scope.
Infix "=?" := oeqb : ord_scope.

(** ** Derived orders *)
#[global] Instance Z_ord : Ord Z := Z.compare.
#[global] Instance byte_ord : Ord byte := λ a b, Z.compare (bval a) (bval b).

(** Lexicographic composition of two comparisons. *)
Definition lexc (a b : comparison) : comparison :=
  match a with Eq => b | _ => a end.
#[global] Instance prod_ord {A B} `{Ord A, Ord B} : Ord (A * B) :=
  λ x y, lexc (ocmp x.1 y.1) (ocmp x.2 y.2).
Fixpoint list_cmp {A} `{Ord A} (x y : list A) : comparison :=
  match x, y with
  | [], [] => Eq
  | [], _ => Lt
  | _, [] => Gt
  | a :: x, b :: y => lexc (ocmp a b) (list_cmp x y)
  end.
#[global] Instance list_ord {A} `{Ord A} : Ord (list A) := list_cmp.

(** ** Stable sorting *)
Fixpoint insert_by {A} (leb : A → A → bool) (x : A) (l : list A) : list A :=
  match l with
  | [] => [x]
  | y :: l => if leb x y then x :: y :: l else y :: insert_by leb x l
  end.
(** [l.sort_by_key(f)]: stable, [leb] compares the keys. *)
Definition sort_by {A} (leb : A → A → bool) (l : list A) : list A :=
  foldr (insert_by leb) [] l.

(** ** BTreeMap *)
Section btree.
Context {K V : Type} `{Ord K}.

Fixpoint bt_get (k : K) (m : list (K * V)) : option V :=
  match m with
  | [] => None
  | (k', v) :: m => if oeqb k k' then Some v else bt_get k m
  end.
Fixpoint bt_insert (k : K) (v : V) (m : list (K * V)) : list (K * V) :=
  match m with
  | [] => [(k, v)]
  | (k', v') :: m' =>
      match ocmp k k' with
      | Lt => (k, v) :: m
      | Eq => (k, v) :: m'
      | Gt => (k', v') :: bt_insert k v m'
      end
  end.
Fixpoint bt_remove (k : K) (m : list (K * V)) : list (K * V) :=
  match m with
  | [] => []
  | (k', v') :: m' => if oeqb k k' then m' else (k', v') :: bt_remove k m'
  end.
(** The entries with key in the range whose lower bound is excluded and
    whose upper bound is included, in key order. *)
Definition bt_range_oc (lo hi : K) (m : list (K * V)) : list (K * V) :=
  filter (λ e, Is_true (oltb lo e.1 && oleb e.1 hi)) m.

(** The representation invariant: keys strictly ascend. *)
Fixpoint bt_wf (m : list (K * V)) : Prop :=
  match m with
  | [] => True
  | e :: m' => (∀ e', e' ∈ m' → olt e.1 e'.1) ∧ bt_wf m'
  end.
End btree.

(** ** Laws *)
Section laws.
Context {A : Type} `{OrdOk A}.
Implicit Types x y z : A.

Lemma oltb_spec x y : oltb x y = true ↔ ocmp x y = Lt.
Proof. unfold oltb. destruct (ocmp x y); split; congruence. Qed.
Lemma oleb_spec x y : oleb x y = true ↔ ocmp x y ≠ Gt.
Proof. unfold oleb. destruct (ocmp x y); split; congruence. Qed.
Lemma oeqb_spec x y : oeqb x y = true ↔ x = y.
Proof. unfold oeqb. rewrite <-ocmp_eq. destruct (ocmp x y); split; congruence. Qed.
Lemma ocmp_refl x : ocmp x x = Eq.
Proof. by apply ocmp_eq. Qed.
Lemma oeqb_refl x : oeqb x x = true.
Proof. by apply oeqb_spec. Qed.
Lemma oeqb_ne x y : x ≠ y → oeqb x y = false.
Proof. intros N. destruct (oeqb x y) eqn:E; [|done]. by apply oeqb_spec in E. Qed.

Lemma olt_irrefl x : ¬ olt x x.
Proof. unfold olt. rewrite oltb_spec, ocmp_refl. done. Qed.
Lemma olt_trans x y z : olt x y → olt y z → olt x z.
Proof. unfold olt. rewrite !oltb_spec. apply ocmp_trans. Qed.
Lemma ole_refl x : ole x x.
Proof. unfold ole. by rewrite oleb_spec, ocmp_refl. Qed.
Lemma olt_ole x y : olt x y → ole x y.
Proof. unfold olt, ole. rewrite oltb_spec, oleb_spec. congruence. Qed.
Lemma ole_lteq x y : ole x y ↔ olt x y ∨ x = y.
Proof.
  unfold olt, ole. rewrite oltb_spec, oleb_spec, <-ocmp_eq.
  destruct (ocmp x y); naive_solver.
Qed.
Lemma not_olt x y : ¬ olt x y ↔ ole y x.
Proof.
  unfold olt, ole. rewrite oltb_spec, oleb_spec, (ocmp_flip x y).
  destruct (ocmp x y); naive_solver.
Qed.
Lemma not_ole x y : ¬ ole x y ↔ olt y x.
Proof.
  unfold olt, ole. rewrite oltb_spec, oleb_spec, (ocmp_flip x y).
  destruct (ocmp x y); naive_solver.
Qed.
Lemma oltb_false x y : oltb x y = false ↔ ole y x.
Proof. rewrite <-not_olt. unfold olt. destruct (oltb x y); naive_solver. Qed.
Lemma oleb_false x y : oleb x y = false ↔ olt y x.
Proof. rewrite <-not_ole. unfold ole. destruct (oleb x y); naive_solver. Qed.
Lemma ole_antisym x y : ole x y → ole y x → x = y.
Proof.
  rewrite (ole_lteq x y). intros [L|]; [|done].
  intros G. by apply not_olt in G.
Qed.
Lemma ole_trans x y z : ole x y → ole y z → ole x z.
Proof.
  rewrite !ole_lteq. intros [?| ->] [?| ->]; eauto using olt_trans.
Qed.
Lemma olt_ole_trans x y z : olt x y → ole y z → olt x z.
Proof. rewrite ole_lteq. intros ? [?| <-]; eauto using olt_trans. Qed.
Lemma ole_olt_trans x y z : ole x y → olt y z → olt x z.
Proof. rewrite ole_lteq. intros [?| ->] ?; eauto using olt_trans. Qed.
Lemma ole_total x y : ole x y ∨ ole y x.
Proof.
  destruct (oltb x y) eqn:E; [left; by apply olt_ole|right; by apply oltb_false].
Qed.
Lemma olt_ne x y : olt x y → x ≠ y.
Proof. intros L ->. by apply olt_irrefl in L. Qed.

#[global] Instance olt_dec x y : Decision (olt x y).
Proof. unfold olt. apply _. Defined.
#[global] Instance ole_dec x y : Decision (ole x y).
Proof. unfold ole. apply _. Defined.
End laws.

#[export] Hint Resolve ole_refl olt_ole : zou.

(** Turn boolean comparisons of the context into [olt] and [ole], and
    close order contradictions by transitivity. *)
Ltac ord_norm :=
  repeat match goal with
  | H : oltb _ _ = true |- _ => change (oltb ?x ?y = true) with (olt x y) in H
  | H : oleb _ _ = true |- _ => change (oleb ?x ?y = true) with (ole x y) in H
  | H : oltb _ _ = false |- _ => apply oltb_false in H
  | H : oleb _ _ = false |- _ => apply oleb_false in H
  | H : ¬ olt _ _ |- _ => apply not_olt in H
  | H : ¬ ole _ _ |- _ => apply not_ole in H
  | H : oeqb _ _ = true |- _ => apply oeqb_spec in H; subst
  | H : olt ?x ?x |- _ => by apply olt_irrefl in H
  | |- oltb _ _ = true => change (oltb ?x ?y = true) with (olt x y)
  | |- oleb _ _ = true => change (oleb ?x ?y = true) with (ole x y)
  | |- oltb _ _ = false => apply oltb_false
  | |- oleb _ _ = false => apply oleb_false
  end.
Ltac ord_solve :=
  ord_norm;
  first
    [ assumption
    | solve [eauto 4 using olt_trans, ole_trans, olt_ole_trans, ole_olt_trans, olt_ole, ole_refl]
    | exfalso; match goal with
      | H : olt ?x ?y |- _ =>
          apply (olt_irrefl x);
          solve [eauto 5 using olt_trans, ole_trans, olt_ole_trans, ole_olt_trans, olt_ole]
      end ].

(** ** Instances are lawful *)
#[global] Instance Z_ord_ok : OrdOk Z.
Proof.
  split; unfold ocmp, Z_ord.
  - intros. apply Z.compare_eq_iff.
  - intros. apply Z.compare_antisym.
  - intros x y z. rewrite !Z.compare_lt_iff. lia.
Qed.
#[global] Instance byte_ord_ok : OrdOk byte.
Proof.
  split; unfold ocmp, byte_ord.
  - intros x y. rewrite Z.compare_eq_iff. split; [apply bval_inj|congruence].
  - intros. apply Z.compare_antisym.
  - intros x y z. rewrite !Z.compare_lt_iff. lia.
Qed.

Lemma lexc_eq a b : lexc a b = Eq ↔ a = Eq ∧ b = Eq.
Proof. destruct a, b; naive_solver. Qed.
Lemma lexc_lt a b : lexc a b = Lt ↔ a = Lt ∨ a = Eq ∧ b = Lt.
Proof. destruct a, b; naive_solver. Qed.
Lemma lexc_opp a b : CompOpp (lexc a b) = lexc (CompOpp a) (CompOpp b).
Proof. by destruct a, b. Qed.

Lemma ocmp_pair {A B} `{Ord A, Ord B} (a a' : A) (b b' : B) :
  ocmp (a, b) (a', b') = lexc (ocmp a a') (ocmp b b').
Proof. done. Qed.

#[global] Instance prod_ord_ok {A B} `{OrdOk A, OrdOk B} : OrdOk (A * B).
Proof.
  split.
  - intros [a b] [a' b']. rewrite ocmp_pair, lexc_eq, !ocmp_eq. naive_solver.
  - intros [a b] [a' b']. rewrite !ocmp_pair, (ocmp_flip a), (ocmp_flip b).
    by rewrite <-lexc_opp.
  - intros [a b] [a' b'] [a'' b'']. rewrite !ocmp_pair, !lexc_lt, !ocmp_eq.
    intros [?|[<- ?]] [?|[<- ?]]; eauto using ocmp_trans.
Qed.

#[global] Instance list_ord_ok {A} `{OrdOk A} : OrdOk (list A).
Proof.
  split; unfold ocmp, list_ord.
  - induction x as [|a x IH]; intros [|b y]; simpl; try naive_solver.
    rewrite lexc_eq, IH, ocmp_eq. naive_solver.
  - induction x as [|a x IH]; intros [|b y]; simpl; try done.
    by rewrite IH, (ocmp_flip a), <-lexc_opp.
  - induction x as [|a x IH]; intros [|b y] [|c z]; simpl; try done.
    rewrite !lexc_lt, !ocmp_eq.
    intros [?|[<- ?]] [?|[<- ?]]; eauto using ocmp_trans.
Qed.

(** An order pulled back along an injection. *)
Lemma inj_ord_ok {A B} `{OrdOk B} (f : A → B) `{!Inj (=) (=) f} :
  @OrdOk A (λ x y, ocmp (f x) (f y)).
Proof.
  split.
  - intros x y. unfold ocmp at 1. rewrite ocmp_eq. split; [apply (inj f)|congruence].
  - intros x y. apply (ocmp_flip (f x)).
  - intros x y z. apply (ocmp_trans (f x)).
Qed.

Lemma olt_Z (x y : Z) : olt x y ↔ x < y.
Proof. unfold olt. rewrite oltb_spec. apply Z.compare_lt_iff. Qed.
Lemma ole_Z (x y : Z) : ole x y ↔ x ≤ y.
Proof. unfold ole. rewrite oleb_spec. apply Z.compare_le_iff. Qed.
Lemma olt_pair {A B} `{OrdOk A, OrdOk B} (a a' : A) (b b' : B) :
  olt (a, b) (a', b') ↔ olt a a' ∨ a = a' ∧ olt b b'.
Proof.
  unfold olt. rewrite !oltb_spec, ocmp_pair.
  by rewrite lexc_lt, ocmp_eq.
Qed.

(** ** BTreeMap laws *)
Section btree_laws.
Context {K V : Type} `{OrdOk K}.
Implicit Types m : list (K * V).

Lemma bt_wf_tail e m : bt_wf (e :: m) → bt_wf m.
Proof. by intros []. Qed.

Lemma bt_insert_elem k v m e :
  e ∈ bt_insert k v m → e = (k, v) ∨ e ∈ m.
Proof.
  induction m as [|[k' v'] m IH]; simpl; [set_solver|].
  destruct (ocmp k k'); set_solver.
Qed.

Lemma bt_insert_wf k v m : bt_wf m → bt_wf (bt_insert k v m).
Proof.
  induction m as [|[k' v'] m IH]; simpl; intros W; [split; [set_solver|done]|].
  destruct W as [W1 W2]. destruct (ocmp k k') eqn:C; simpl.
  - apply ocmp_eq in C as <-. done.
  - apply oltb_spec in C. split; [|done].
    intros e [->|He]%elem_of_cons; [done|].
    apply W1 in He. simpl in *. by eapply olt_trans.
  - split; [|auto]. intros e [->|He]%bt_insert_elem; [|auto]. simpl.
    apply oltb_spec. by rewrite ocmp_flip, C.
Qed.

Lemma bt_get_head_lt k m : (∀ e, e ∈ m → olt k e.1) → bt_get k m = None.
Proof.
  induction m as [|[k' v'] m IH]; simpl; intros W; [done|].
  rewrite oeqb_ne.
  - apply IH. set_solver.
  - apply olt_ne. apply (W (k', v')). set_solver.
Qed.

Lemma bt_get_insert k v m k' :
  bt_wf m → bt_get k' (bt_insert k v m) = if oeqb k' k then Some v else bt_get k' m.
Proof.
  induction m as [|[k1 v1] m IH]; simpl; intros W; [done|].
  destruct W as [W1 W2]. destruct (ocmp k k1) eqn:C; simpl.
  - apply ocmp_eq in C as <-. by destruct (oeqb k' k).
  - done.
  - rewrite IH by done. destruct (oeqb k' k1) eqn:E1, (oeqb k' k) eqn:E2; try done.
    apply oeqb_spec in E1, E2. subst. by rewrite ocmp_refl in C.
Qed.

Lemma bt_get_elem k v m : bt_wf m → bt_get k m = Some v ↔ (k, v) ∈ m.
Proof.
  induction m as [|[k1 v1] m IH]; simpl; intros W; [set_solver|].
  destruct W as [W1 W2]. destruct (oeqb k k1) eqn:E.
  - apply oeqb_spec in E as <-. rewrite elem_of_cons. split; [naive_solver|].
    intros [?|He]; [congruence|]. apply W1 in He. simpl in He.
    by apply olt_irrefl in He.
  - rewrite IH, elem_of_cons by done. split; [auto|]. intros [?|?]; [|done].
    simplify_eq. by rewrite oeqb_refl in E.
Qed.

Lemma bt_remove_elem k m e : e ∈ bt_remove k m → e ∈ m.
Proof.
  induction m as [|[k' v'] m IH]; simpl; [done|].
  destruct (oeqb k k'); set_solver.
Qed.
Lemma bt_remove_wf k m : bt_wf m → bt_wf (bt_remove k m).
Proof.
  induction m as [|[k' v'] m IH]; simpl; intros W; [done|].
  destruct W as [W1 W2]. destruct (oeqb k k'); [done|]. simpl.
  split; [|auto]. intros e He%bt_remove_elem. auto.
Qed.
Lemma bt_get_remove k m k' :
  bt_wf m → bt_get k' (bt_remove k m) = if oeqb k' k then None else bt_get k' m.
Proof.
  induction m as [|[k1 v1] m IH]; simpl; intros W; [by destruct (oeqb k' k)|].
  destruct W as [W1 W2]. destruct (oeqb k k1) eqn:C; simpl.
  - apply oeqb_spec in C as <-. destruct (oeqb k' k) eqn:E; [|done].
    apply oeqb_spec in E as ->. by apply bt_get_head_lt.
  - rewrite IH by done. destruct (oeqb k' k1) eqn:E1, (oeqb k' k) eqn:E2; try done.
    apply oeqb_spec in E1, E2. subst. by rewrite oeqb_refl in C.
Qed.

(** Two ordered maps with the same lookups are the same map. *)
Lemma bt_ext m m' :
  bt_wf m → bt_wf m' → (∀ k, bt_get k m = bt_get k m') → m = m'.
Proof.
  revert m'. induction m as [|[k v] m IH]; intros [|[k' v'] m']; simpl; intros W W' E.
  - done.
  - specialize (E k'). by rewrite oeqb_refl in E.
  - specialize (E k). by rewrite oeqb_refl in E.
  - destruct W as [W1 W2], W' as [W1' W2'].
    assert (k = k' ∧ v = v') as [-> ->].
    { pose proof (E k) as Ek. pose proof (E k') as Ek'.
      rewrite oeqb_refl in Ek. rewrite oeqb_refl in Ek'.
      destruct (oeqb k k') eqn:C.
      - apply oeqb_spec in C. naive_solver.
      - destruct (oeqb k' k) eqn:C'.
        { apply oeqb_spec in C' as ->. by rewrite oeqb_refl in C. }
        symmetry in Ek. apply bt_get_elem in Ek, Ek'; [|done..].
        apply W1' in Ek. apply W1 in Ek'. simpl in *.
        destruct (olt_irrefl k). by eapply olt_trans. }
    f_equal. apply IH; [done..|]. intros k.
    specialize (E k). destruct (oeqb k k') eqn:C; [|done].
    apply oeqb_spec in C as ->. by rewrite !bt_get_head_lt.
Qed.

Lemma bt_range_elem lo hi m e :
  e ∈ bt_range_oc lo hi m ↔ olt lo e.1 ∧ ole e.1 hi ∧ e ∈ m.
Proof.
  unfold bt_range_oc. rewrite list_elem_of_filter. unfold olt, ole.
  rewrite Is_true_true, andb_true_iff. naive_solver.
Qed.
Lemma bt_filter_wf (P : K * V → Prop) `{∀ e, Decision (P e)} m :
  bt_wf m → bt_wf (filter P m).
Proof.
  induction m as [|e m IH]; intros W; [done|]. destruct W as [W1 W2].
  rewrite filter_cons. case_decide; [|auto]. split; [|auto].
  intros e' [_ He]%list_elem_of_filter. auto.
Qed.
Lemma bt_range_wf lo hi m : bt_wf m → bt_wf (bt_range_oc lo hi m).
Proof. apply bt_filter_wf. Qed.
End btree_laws.

#[export] Hint Resolve bt_insert_wf bt_remove_wf bt_range_wf : zou.

(** ** Sorting laws *)
Section sort_laws.
Context {A : Type} (leb : A → A → bool).

Lemma insert_by_perm x l : insert_by leb x l ≡ₚ x :: l.
Proof.
  induction l as [|y l IH]; simpl; [done|].
  destruct (leb x y); [done|]. rewrite IH. apply perm_swap.
Qed.
Lemma sort_by_perm l : sort_by leb l ≡ₚ l.
Proof. induction l as [|x l IH]; simpl; [done|]. by rewrite insert_by_perm, IH. Qed.
Lemma sort_by_elem x l : x ∈ sort_by leb l ↔ x ∈ l.
Proof. by rewrite sort_by_perm. Qed.
Lemma sort_by_length l : length (sort_by leb l) = length l.
Proof. by rewrite sort_by_perm. Qed.

(** Every element compares below all the ones after it. *)
Fixpoint sorted_by (l : list A) : Prop :=
  match l with
  | [] => True
  | x :: l => (∀ y, y ∈ l → leb x y = true) ∧ sorted_by l
  end.

Context (total : ∀ x y, leb x y = true ∨ leb y x = true).
Context (trans : ∀ x y z, leb x y = true → leb y z = true → leb x z = true).

Lemma insert_by_sorted x l : sorted_by l → sorted_by (insert_by leb x l).
Proof using total trans.
  induction l as [|y l IH]; simpl; intros S; [split; [set_solver|done]|].
  destruct S as [S1 S2]. destruct (leb x y) eqn:C; simpl.
  - split; [|done]. intros z [->|Hz]%elem_of_cons; [done|]. eauto.
  - split; [|auto]. intros z Hz. rewrite insert_by_perm in Hz.
    apply elem_of_cons in Hz as [->|Hz]; [|auto].
    destruct (total x y); congruence.
Qed.
Lemma sort_by_sorted l : sorted_by (sort_by leb l).
Proof using total trans.
  induction l as [|x l IH]; simpl; [done|]. by apply insert_by_sorted.
Qed.
End sort_laws.

Lemma sorted_snoc {A} (R : relation A) `{!Transitive R} l e :
  StronglySorted R l → (∀ p, last l = Some p → R p e) → StronglySorted R (l ++ [e]).
Proof.
  intros S P. apply StronglySorted_app_2; [|done|repeat constructor].
  intros x y Hx ->%list_elem_of_singleton.
  destruct l as [|p l _] using rev_ind; [set_solver|].
  specialize (P p ltac:(by rewrite last_snoc)).
  apply elem_of_app in Hx as [Hx|Hx%list_elem_of_singleton]; [|by subst].
  trans p; [|done]. eapply StronglySorted_app_1_elem_of; [done|done|]. by left.
Qed.
