(* ===== verification/Text.v ===== *)
(** * Text: the string operations of the standard library

    A Rust [str] is its UTF-8 bytes.  This file holds the formatting and
    parsing the source uses: [format!] with [{:0wx}], [{:X}] and [{:0w}],
    [from_str_radix], [strip_prefix], [strip_suffix], [split_once] and
    [split], with the round trips and the order they preserve. *)
From S2P Require Import Prelude Order.

(** ** Formatting *)
Definition digit_lower (d : Z) : byte :=
  byte_of_Z (if d <? 10 then 48 + d else 87 + d).
Definition digit_upper (d : Z) : byte :=
  byte_of_Z (if d <? 10 then 48 + d else 55 + d).

(** The last [w] digits of [z]. *)
Fixpoint fix_digits (dig : Z → byte) (base : Z) (w : nat) (z : Z) : bytes :=
  match w with
  | O => []
  | S w => fix_digits dig base w (z / base) ++ [dig (z mod base)]
  end.

(** How many digits [z] needs, at least one. *)
Fixpoint ndigits_fuel (fuel : nat) (base z : Z) : nat :=
  match fuel with
  | O => 1%nat
  | S fuel => if z <? base then 1%nat else S (ndigits_fuel fuel base (z / base))
  end.
Definition ndigits (base z : Z) : nat := ndigits_fuel (S (Z.to_nat (Z.log2 z))) base z.

(** [format!("{z:0wb}")]: at least [w] digits, zero padded. *)
Definition fmt_radix (dig : Z → byte) (base : Z) (w : nat) (z : Z) : bytes :=
  fix_digits dig base (w `max` ndigits base z) z.
Definition fmt_hex (w : nat) (z : Z) : bytes := fmt_radix digit_lower 16 w z.
Definition fmt_HEX (w : nat) (z : Z) : bytes := fmt_radix digit_upper 16 w z.
Definition fmt_dec (w : nat) (z : Z) : bytes := fmt_radix digit_lower 10 w z.

(** ** Parsing *)
(** [char::to_digit(base)]. *)
Definition to_digit (base : Z) (b : byte) : option Z :=
  let c := bval b in
  let d := if (48 <=? c) && (c <=? 57) then c - 48
           else if (97 <=? c) && (c <=? 122) then c - 87
           else if (65 <=? c) && (c <=? 90) then c - 55 else 255 in
  if d <? base then Some d else None.

Fixpoint parse_digits (base max acc : Z) (s : bytes) : option Z :=
  match s with
  | [] => Some acc
  | b :: s =>
      d ← to_digit base b;
      let acc' := acc * base + d in
      if acc' <=? max then parse_digits base max acc' s else None
  end.

(** [uN::from_str_radix(s, base)] with [max] the largest value of the
    type: one leading plus is allowed, a lone sign or an empty string is
    an error, and so is an overflow. *)
Definition from_str_radix (base max : Z) (s : bytes) : option Z :=
  match s with
  | [] => None
  | b :: s' =>
      if bval b =? 43
      then match s' with [] => None | _ => parse_digits base max 0 s' end
      else parse_digits base max 0 s
  end.

(** ** Cutting *)
Fixpoint strip_prefix (p s : bytes) : option bytes :=
  match p, s with
  | [], _ => Some s
  | a :: p, b :: s => if decide (a = b) then strip_prefix p s else None
  | _, [] => None
  end.
Definition starts_with (s p : bytes) : bool :=
  match strip_prefix p s with Some _ => true | None => false end.
Definition strip_suffix (p s : bytes) : option bytes :=
  match strip_prefix (rev p) (rev s) with Some r => Some (rev r) | None => None end.
Definition ends_with (s p : bytes) : bool :=
  match strip_suffix p s with Some _ => true | None => false end.

(** [s.split_once(c)] *)
Fixpoint split_once (c : byte) (s : bytes) : option (bytes * bytes) :=
  match s with
  | [] => None
  | b :: s =>
      if decide (b = c) then Some ([], s)
      else '(l, r) ← split_once c s; Some (b :: l, r)
  end.
(** [s.split(c).collect()] *)
Fixpoint split (c : byte) (s : bytes) : list bytes :=
  match s with
  | [] => [[]]
  | b :: s =>
      if decide (b = c) then [] :: split c s
      else match split c s with [] => [[b]] | w :: ws => (b :: w) :: ws end
  end.

(** [s.is_ascii()] *)
Definition is_ascii (s : bytes) : bool := forallb (λ b, bval b <? 128) s.

(** ** Lengths *)
Lemma length_fix_digits dig base w z : length (fix_digits dig base w z) = w.
Proof.
  revert z; induction w; intros; simpl; [done|]. rewrite length_app, IHw. simpl. lia.
Qed.
Lemma zlen_fix_digits dig base w z : zlen (fix_digits dig base w z) = Z.of_nat w.
Proof. unfold zlen. by rewrite length_fix_digits. Qed.
#[export] Hint Rewrite zlen_fix_digits : len.

(** ** Digits are recognised *)
Definition good_digits (dig : Z → byte) (base : Z) : Prop :=
  ∀ d, 0 ≤ d < base → to_digit base (dig d) = Some d ∧ bval (dig d) ≠ 43.

Lemma small_digits base P : (∀ n, (n < Z.to_nat base)%nat → P (Z.of_nat n)) →
  ∀ d, 0 ≤ d < base → P d.
Proof. intros H d Hd. rewrite <-(Z2Nat.id d) by lia. apply H. lia. Qed.

Ltac digit_cases :=
  apply small_digits; intros n Hn;
  do 16 (destruct n as [|n]; [split; vm_compute; congruence|]);
  exfalso; vm_compute in Hn; lia.
Lemma good_hex : good_digits digit_lower 16.
Proof. unfold good_digits. digit_cases. Qed.
Lemma good_HEX : good_digits digit_upper 16.
Proof. unfold good_digits. digit_cases. Qed.
Lemma good_dec : good_digits digit_lower 10.
Proof. 
  unfold good_digits. apply small_digits; intros n Hn.
  do 10 (destruct n as [|n]; [split; vm_compute; congruence|]).
  exfalso; vm_compute in Hn; lia.
Qed.

(** ** Round trips *)
Lemma parse_digits_app base max acc s k :
  parse_digits base max acc (s ++ k) =
  (a ← parse_digits base max acc s; parse_digits base max a k).
Proof.
  revert acc; induction s as [|b s IH]; intros acc; [done|]. simpl.
  destruct (to_digit base b); [|done]. simpl. destruct (_ <=? _); [apply IH|done].
Qed.

Section radix.
Context (dig : Z → byte) (base : Z) (Hbase : 1 < base) (Hdig : good_digits dig base).

Lemma parse_fix_digits max w z :
  0 ≤ z < base ^ Z.of_nat w → z ≤ max →
  parse_digits base max 0 (fix_digits dig base w z) = Some z.
Proof using Hbase Hdig.
  revert z. induction w as [|w IH]; intros z Hz Hm.
  - simpl in *. f_equal. lia.
  - rewrite Nat2Z.inj_succ, Z.pow_succ_r in Hz by lia.
    pose proof (Z.mod_pos_bound z base ltac:(lia)).
    pose proof (Z.div_mod z base ltac:(lia)).
    assert (0 ≤ z / base) by (apply Z.div_pos; lia).
    simpl. rewrite parse_digits_app, IH.
    + simpl. rewrite (proj1 (Hdig (z mod base) ltac:(lia))). simpl.
      replace (z / base * base + z mod base) with z by lia.
      by rewrite (proj2 (Z.leb_le _ _)).
    + split; [lia|]. apply Z.div_lt_upper_bound; lia.
    + nia.
Qed.

Lemma fix_digits_head w z :
  0 ≤ z → (0 < w)%nat → ∃ d s, 0 ≤ d < base ∧ fix_digits dig base w z = dig d :: s.
Proof using Hbase.
  revert z. induction w as [|w IH]; intros z Hz Hw; [lia|].
  pose proof (Z.mod_pos_bound z base ltac:(lia)).
  destruct w as [|w].
  - simpl. eauto.
  - destruct (IH (z / base)) as (d & s & Hd & E); [apply Z.div_pos; lia|lia|].
    change (fix_digits dig base (S (S w)) z) with
      (fix_digits dig base (S w) (z / base) ++ [dig (z mod base)]).
    rewrite E. simpl. eauto.
Qed.

Lemma from_str_fix_digits max w z :
  0 ≤ z < base ^ Z.of_nat w → z ≤ max → (0 < w)%nat →
  from_str_radix base max (fix_digits dig base w z) = Some z.
Proof using Hbase Hdig.
  intros Hz Hm Hw. destruct (fix_digits_head w z) as (d & s & Hd & E); [lia|done|].
  pose proof (parse_fix_digits max w z Hz Hm) as P. rewrite E in *.
  unfold from_str_radix. rewrite (proj2 (Z.eqb_neq _ _)); [done|].
  by apply Hdig.
Qed.

Lemma ndigits_fuel_ok fuel z :
  0 ≤ z < 2 ^ Z.of_nat fuel → z < base ^ Z.of_nat (ndigits_fuel fuel base z) ∧
    (0 < ndigits_fuel fuel base z)%nat.
Proof using Hbase.
  revert z. induction fuel as [|fuel IH]; intros z Hz.
  - simpl in *. lia.
  - cbn [ndigits_fuel]. destruct (z <? base) eqn:C; [simpl; lia|].
    rewrite Nat2Z.inj_succ, Z.pow_succ_r in Hz by lia.
    destruct (IH (z / base)) as [IH1 IH2].
    { split; [apply Z.div_pos; lia|]. apply Z.div_lt_upper_bound; [lia|].
      assert (0 < 2 ^ Z.of_nat fuel) by (apply Z.pow_pos_nonneg; lia). nia. }
    split; [|lia]. rewrite Nat2Z.inj_succ, Z.pow_succ_r by lia.
    pose proof (Z.div_mod z base ltac:(lia)).
    pose proof (Z.mod_pos_bound z base ltac:(lia)). nia.
Qed.
Lemma ndigits_ok z :
  0 ≤ z → z < base ^ Z.of_nat (ndigits base z) ∧ (0 < ndigits base z)%nat.
Proof using Hbase.
  intros. apply ndigits_fuel_ok. split; [done|].
  rewrite Nat2Z.inj_succ, Z2Nat.id by apply Z.log2_nonneg.
  destruct (decide (z = 0)) as [->|]; [done|].
  by apply Z.log2_spec; lia.
Qed.

(** Printing then parsing any value of the type gives it back. *)
Lemma from_str_fmt max w z :
  0 ≤ z ≤ max → from_str_radix base max (fmt_radix dig base w z) = Some z.
Proof using Hbase Hdig.
  intros Hz. destruct (ndigits_ok z) as [H1 H2]; [lia|].
  apply from_str_fix_digits; [|lia|lia]. split; [lia|].
  eapply Z.lt_le_trans; [exact H1|]. apply Z.pow_le_mono_r; lia.
Qed.

Lemma fmt_radix_inj w a b : 0 ≤ a → 0 ≤ b → fmt_radix dig base w a = fmt_radix dig base w b → a = b.
Proof using Hbase Hdig.
  intros A B E. pose proof (from_str_fmt (Z.max a b) w a ltac:(lia)) as Pa.
  pose proof (from_str_fmt (Z.max a b) w b ltac:(lia)) as Pb. rewrite E in Pa. congruence.
Qed.

(** A width wide enough for the value is the width printed. *)
Lemma ndigits_fuel_le fuel w z :
  0 ≤ z < base ^ Z.of_nat w → (0 < w)%nat → (ndigits_fuel fuel base z ≤ w)%nat.
Proof using Hbase.
  revert w z. induction fuel as [|fuel IH]; intros w z Hz Hw; cbn [ndigits_fuel]; [lia|].
  destruct (z <? base) eqn:C; [lia|]. destruct w as [|w]; [lia|].
  rewrite Nat2Z.inj_succ, Z.pow_succ_r in Hz by lia.
  destruct w as [|w]; [simpl in *; lia|].
  apply le_n_S, IH; [|lia].
  split; [apply Z.div_pos; lia|]. apply Z.div_lt_upper_bound; lia.
Qed.
Lemma fmt_fixed w z :
  0 ≤ z < base ^ Z.of_nat w → (0 < w)%nat →
  fmt_radix dig base w z = fix_digits dig base w z.
Proof using Hbase.
  intros. unfold fmt_radix. f_equal.
  pose proof (ndigits_fuel_le (S (Z.to_nat (Z.log2 z))) w z). unfold ndigits. lia.
Qed.
End radix.
Lemma fmt_hex_inj w a b : 0 ≤ a → 0 ≤ b → fmt_hex w a = fmt_hex w b → a = b.
Proof. apply (fmt_radix_inj _ 16 ltac:(lia) good_hex). Qed.
Lemma fmt_dec_inj w a b : 0 ≤ a → 0 ≤ b → fmt_dec w a = fmt_dec w b → a = b.
Proof. apply (fmt_radix_inj _ 10 ltac:(lia) good_dec). Qed.

(** ** Zero padded hex sorts like the number *)
Lemma list_cmp_app_eq {A} `{OrdOk A} (a b c d : list A) :
  length a = length b →
  list_cmp (a ++ c) (b ++ d) = lexc (list_cmp a b) (list_cmp c d).
Proof.
  revert b. induction a as [|x a IH]; intros [|y b] L; simpl in *; try lia; [done|].
  rewrite IH by lia. by destruct (ocmp x y).
Qed.

Lemma digit_lower_cmp x y :
  0 ≤ x < 16 → 0 ≤ y < 16 → ocmp (digit_lower x) (digit_lower y) = (x ?= y).
Proof.
  intros Hx Hy. unfold ocmp, byte_ord, digit_lower. rewrite !bval_byte_of_Z.
  destruct (x <? 10) eqn:?, (y <? 10) eqn:?; rewrite !Z.mod_small by lia;
    destruct (x ?= y) eqn:C; rewrite ?Z.compare_eq_iff, ?Z.compare_lt_iff,
      ?Z.compare_gt_iff in *; lia.
Qed.

Lemma hex_cmp w x y :
  0 ≤ x < 16 ^ Z.of_nat w → 0 ≤ y < 16 ^ Z.of_nat w →
  list_cmp (fix_digits digit_lower 16 w x) (fix_digits digit_lower 16 w y) = (x ?= y).
Proof.
  revert x y. induction w as [|w IH]; intros x y Hx Hy.
  - simpl in *. symmetry. apply Z.compare_eq_iff. lia.
  - rewrite Nat2Z.inj_succ, Z.pow_succ_r in Hx, Hy by lia.
    pose proof (Z.div_mod x 16 ltac:(lia)). pose proof (Z.div_mod y 16 ltac:(lia)).
    pose proof (Z.mod_pos_bound x 16 ltac:(lia)).
    pose proof (Z.mod_pos_bound y 16 ltac:(lia)).
    cbn [fix_digits]. rewrite list_cmp_app_eq by by rewrite !length_fix_digits.
    rewrite IH by lia. cbn [list_cmp].
    rewrite digit_lower_cmp by done.
    destruct (x / 16 ?= y / 16) eqn:C1; simpl;
      [destruct (x mod 16 ?= y mod 16) eqn:C2; simpl|..];
      symmetry; rewrite ?Z.compare_eq_iff, ?Z.compare_lt_iff, ?Z.compare_gt_iff in *; lia.
Qed.

(** ** Cutting what was put together *)
Lemma strip_prefix_app p s : strip_prefix p (p ++ s) = Some s.
Proof. induction p as [|b p IH]; simpl; [by destruct s|]. by rewrite decide_True. Qed.
Lemma strip_prefix_inv p s r : strip_prefix p s = Some r → s = p ++ r.
Proof.
  revert s. induction p as [|a p IH]; intros [|b s]; simpl; try congruence.
  case_decide; [|done]. subst. intros ?%IH. by subst.
Qed.
Lemma starts_with_spec k p : starts_with k p = true ↔ ∃ r, k = p ++ r.
Proof.
  unfold starts_with. split.
  - destruct (strip_prefix p k) eqn:E; [|done]. intros _. apply strip_prefix_inv in E. eauto.
  - intros [r ->]. by rewrite strip_prefix_app.
Qed.
Lemma strip_suffix_app p s : strip_suffix p (s ++ p) = Some s.
Proof.
  unfold strip_suffix. rewrite rev_app_distr, strip_prefix_app. by rewrite rev_involutive.
Qed.
Lemma strip_suffix_inv p s r : strip_suffix p s = Some r → s = r ++ p.
Proof.
  unfold strip_suffix. destruct (strip_prefix _ _) eqn:E; [|done].
  intros [= <-]. apply strip_prefix_inv in E.
  apply (f_equal (@rev _)) in E. rewrite rev_involutive in E.
  by rewrite E, rev_app_distr, rev_involutive.
Qed.
Lemma starts_with_app p s : starts_with (p ++ s) p = true.
Proof. unfold starts_with. by rewrite strip_prefix_app. Qed.

Lemma split_once_app c l r : c ∉ l → split_once c (l ++ c :: r) = Some (l, r).
Proof.
  induction l as [|b l IH]; intros N; simpl; [by rewrite decide_True|].
  rewrite decide_False by set_solver. rewrite IH by set_solver. done.
Qed.
Lemma split_none c s : c ∉ s → split c s = [s].
Proof.
  induction s as [|b s IH]; intros N; simpl; [done|].
  rewrite decide_False by set_solver. by rewrite IH by set_solver.
Qed.
Lemma split_cons c w s : c ∉ w → split c (w ++ c :: s) = w :: split c s.
Proof.
  induction w as [|b w IH]; intros N; simpl; [by rewrite decide_True|].
  rewrite decide_False by set_solver. by rewrite IH by set_solver.
Qed.

(** No digit is a separator. *)
Lemma fix_digits_forall (P : byte → Prop) dig base w z :
  0 < base → (∀ d, 0 ≤ d < base → P (dig d)) → Forall P (fix_digits dig base w z).
Proof.
  intros Hb HP. revert z. induction w as [|w IH]; intros z; simpl; [done|].
  apply Forall_app. split; [apply IH|]. constructor; [|done].
  apply HP. apply Z.mod_pos_bound. lia.
Qed.
Lemma fix_digits_no_sep c base w z dig :
  0 < base → (∀ d, 0 ≤ d < base → dig d ≠ c) → c ∉ fix_digits dig base w z.
Proof.
  intros Hb Hd Hc. assert (F := fix_digits_forall (λ b, b ≠ c) dig base w z Hb Hd).
  rewrite Forall_forall in F. by apply F in Hc.
Qed.
