(* ===== verification/Lsn.v ===== *)
(** * Lsn: log sequence numbers (crates/zou-store/src/lsn.rs)

    A Postgres log sequence number, printed and parsed in the [X/XXXXXXXX]
    form. *)
From S2P Require Import Prelude Order Text.

(** [pub struct Lsn(pub u64)], ordered as the number. *)
Abbreviation Lsn := Z (only parsing).

Definition slash : byte := byte_of_Z 47.

(** [write!(f, "{:X}/{:X}", self.0 >> 32, self.0 & 0xFFFF_FFFF)] *)
Definition lsn_display (l : Lsn) : bytes :=
  fmt_HEX 0 (Z.shiftr l 32) ++ [slash] ++ fmt_HEX 0 (Z.land l 0xFFFFFFFF).

Inductive ParseLsnError := ParseLsnErr (s : bytes).

Definition lsn_from_str (s : bytes) : res ParseLsnError Lsn :=
  '(hi, lo) ← ok_or (split_once slash s) (ParseLsnErr s);
  hi ← ok_or (from_str_radix 16 u64_max hi) (ParseLsnErr s);
  lo ← ok_or (from_str_radix 16 u64_max lo) (ParseLsnErr s);
  _ ← guard_err ((u32_max <? hi) || (u32_max <? lo)) (ParseLsnErr s);
  mret (Z.lor (Z.shiftl hi 32) lo).

Lemma digit_upper_not_slash d : 0 ≤ d < 16 → digit_upper d ≠ slash.
Proof.
  intros Hd E. apply (f_equal bval) in E. unfold slash, digit_upper in E.
  rewrite !bval_byte_of_Z in E. destruct (d <? 10) eqn:?;
    rewrite !Z.mod_small in E; lia.
Qed.

(** The two 32-bit halves, put back together. *)
Lemma lsn_halves l :
  fits 8 l →
  0 ≤ Z.shiftr l 32 ≤ u32_max ∧ 0 ≤ Z.land l 0xFFFFFFFF ≤ u32_max ∧
  Z.lor (Z.shiftl (Z.shiftr l 32) 32) (Z.land l 0xFFFFFFFF) = l.
Proof.
  unfold fits, u32_max. intros H.
  rewrite Z.shiftr_div_pow2 by lia.
  change 0xFFFFFFFF with (Z.ones 32). rewrite Z.land_ones by lia.
  pose proof (Z.mod_pos_bound l (2 ^ 32) ltac:(lia)).
  pose proof (Z.div_mod l (2 ^ 32) ltac:(lia)).
  split_and!; try lia.
  rewrite <-Z.shiftr_div_pow2, <-Z.land_ones by lia.
  apply Z.bits_inj'. intros n Hn.
  rewrite Z.lor_spec, Z.land_spec.
  destruct (decide (n < 32)).
  - rewrite Z.shiftl_spec_low, Z.ones_spec_low by lia. by rewrite andb_true_r.
  - rewrite Z.shiftl_spec, Z.shiftr_spec, Z.ones_spec_high by lia.
    rewrite andb_false_r, orb_false_r. f_equal. lia.
Qed.

Lemma lsn_display_halves hi lo :
  0 ≤ hi ≤ u32_max → 0 ≤ lo ≤ u32_max →
  lsn_from_str (fmt_HEX 0 hi ++ [slash] ++ fmt_HEX 0 lo) = Ok (Z.lor (Z.shiftl hi 32) lo).
Proof.
  unfold u32_max. intros Hhi Hlo. unfold lsn_from_str, fmt_HEX. cbn [app].
  rewrite split_once_app by (apply fix_digits_no_sep; [lia|apply digit_upper_not_slash]).
  simpl. rewrite !(from_str_fmt digit_upper 16 ltac:(lia) good_HEX) by (unfold u64_max; lia).
  simpl. unfold guard_err, u32_max.
  destruct (_ || _) eqn:C; [|done].
  apply orb_true_iff in C. rewrite !Z.ltb_lt in C. lia.
Qed.

(** Every 64-bit log sequence number survives being printed in the
    [X/X] form and parsed back, so manifests, layer names and operator
    output can never turn one position into another. *)
Theorem lsn_round_trip (l : Lsn) : fits 8 l → lsn_from_str (lsn_display l) = Ok l.
Proof.
  intros (Hhi & Hlo & E)%lsn_halves. unfold lsn_display.
  rewrite lsn_display_halves by done. by rewrite E.
Qed.

Lemma lsn_round_trip_witness :
  lsn_display 0x38B000000 = str "3/8B000000" ∧
  lsn_from_str (lsn_display 0x38B000000) = Ok 0x38B000000.
Proof. split; [by vm_compute|apply lsn_round_trip; by vm_compute]. Defined.

Lemma to_digit_nonneg base b d : to_digit base b = Some d → 0 ≤ d.
Proof.
  unfold to_digit. pose proof (bval_range b).
  destruct (_ && _) eqn:C1 in |- *; [|destruct (_ && _) eqn:C2 in |- *;
    [|destruct (_ && _) eqn:C3 in |- *]];
    (destruct (_ <? base); [intros [= <-]|done]); lia.
Qed.
Lemma parse_digits_range base max acc s z :
  0 < base → 0 ≤ acc ≤ max → parse_digits base max acc s = Some z → 0 ≤ z ≤ max.
Proof.
  intros Hb. revert acc. induction s as [|b s IH]; intros acc Ha; simpl.
  - intros [= <-]. done.
  - destruct (to_digit base b) eqn:E; [|done]. simpl.
    destruct (_ <=? _) eqn:C; [|done]. apply IH.
    apply to_digit_nonneg in E. nia.
Qed.
Lemma from_str_radix_range base max s z :
  0 < base → 0 ≤ max → from_str_radix base max s = Some z → 0 ≤ z ≤ max.
Proof.
  intros Hb Hm. unfold from_str_radix. destruct s as [|b s]; [done|].
  destruct (_ =? _); [destruct s; [done|]|];
    intros H; eapply parse_digits_range; try exact H; lia.
Qed.

(** What parses is a 64-bit position whatever the input was. *)
Lemma lsn_from_str_fits s l : lsn_from_str s = Ok l → fits 8 l.
Proof.
  unfold lsn_from_str. intros H. bind_inv H. destruct a as [hi lo]. bind_inv H. bind_inv H.
  bind_inv H. injection H as <-.
  apply ok_or_ok in Hb0, Hb1. apply from_str_radix_range in Hb0, Hb1; try (unfold u64_max; lia).
  apply orb_false_iff in Hb2. rewrite !Z.ltb_ge in Hb2. unfold u32_max in *.
  unfold fits. rewrite Z.shiftl_mul_pow2 by lia.
  split.
  - apply Z.lor_nonneg. lia.
  - destruct (decide (Z.lor (a * 2 ^ 32) a0 = 0)) as [->|N]; [lia|].
    apply Z.log2_lt_pow2; [assert (0 ≤ Z.lor (a * 2 ^ 32) a0) by (apply Z.lor_nonneg; lia); lia|].
    rewrite Z.log2_lor by lia. apply Z.max_lub_lt.
    + destruct (decide (a = 0)) as [->|]; [simpl; lia|].
      apply Z.log2_lt_pow2; lia.
    + destruct (decide (a0 = 0)) as [->|]; [simpl; lia|].
      apply Z.log2_lt_pow2; lia.
Qed.
