(* ===== verification/Externals.v ===== *)
(** * Externals: third-party crates the engine calls

    [crc32c], [lz4_flex] and [sha2] are not part of the repository, so each
    is a class of operations, and what the engine relies on is a separate
    class of laws.  At the end each class has a concrete instance, which
    shows that the laws can hold together and lets witnesses evaluate. *)
From S2P Require Import Prelude.

(** The [crc32c] crate: the checksum of a buffer, and of a buffer appended
    to what a checksum already covers. *)
Class Crc := {
  crc32c : bytes → Z;
  crc32c_append : Z → bytes → Z
}.
(** Both return a [u32]. *)
Class CrcOk `{Crc} : Prop := {
  crc32c_fits : ∀ l, fits 4 (crc32c l);
  crc32c_append_fits : ∀ c l, fits 4 (crc32c_append c l)
}.

(** The [lz4_flex] crate: block compression, decompression into a stated
    length, and the documented bound on the compressed size. *)
Class Lz4 := {
  lz4_compress : bytes → bytes;
  lz4_decompress : bytes → Z → option bytes;
  lz4_get_maximum_output_size : Z → Z
}.
Class Lz4Ok `{Lz4} : Prop := {
  lz4_round_trip : ∀ l, lz4_decompress (lz4_compress l) (zlen l) = Some l;
  (** An lz4 block has at least its token byte. *)
  lz4_nonempty : ∀ l, lz4_compress l ≠ [];
  lz4_max_ge : ∀ n, 0 ≤ n → n ≤ lz4_get_maximum_output_size n;
  lz4_max_fits : fits 4 (lz4_get_maximum_output_size (64 * 1024 * 1024) + 49 + 2 + 4096 * 9)
}.

(** [sha2]: 32 bytes. *)
Class Sha := { sha256 : bytes → bytes }.
Class ShaOk `{Sha} : Prop := { sha256_len : ∀ l, length (sha256 l) = 32%nat }.

(** ** Concrete instances *)
Module Concrete.
(** CRC-32C, reflected polynomial 0x82F63B78, one bit at a time. *)
Fixpoint crc_bits (n : nat) (c : Z) : Z :=
  match n with
  | O => c
  | S n => crc_bits n (if Z.odd c then Z.lxor (Z.shiftr c 1) 0x82F63B78 else Z.shiftr c 1)
  end.
Definition crc_update (c : Z) (l : bytes) : Z :=
  foldl (λ c b, crc_bits 8 (Z.lxor c (bval b))) c l.
Definition crc_append (c : Z) (l : bytes) : Z :=
  Z.lxor (crc_update (Z.lxor c 0xFFFFFFFF) l) 0xFFFFFFFF mod 2 ^ 32.
#[export] Instance crc : Crc := {
  crc32c := crc_append 0;
  crc32c_append := crc_append
}.
#[export] Instance crc_ok : CrcOk.
Proof. split; intros; apply Z.mod_pos_bound; lia. Qed.

(** A run-length code: a constant block is one byte, anything else is
    itself behind a marker byte. *)
Definition rle_compress (l : bytes) : bytes :=
  match l with
  | [] => [Byte.x00]
  | b :: _ => if decide (l = replicate (length l) b) then [b] else Byte.x00 :: l
  end.
Definition rle_decompress (s : bytes) (n : Z) : option bytes :=
  match s with
  | [] => None
  | [b] => Some (replicate (Z.to_nat n) b)
  | _ :: l => Some l
  end.
#[export] Instance lz4 : Lz4 := {
  lz4_compress := rle_compress;
  lz4_decompress := rle_decompress;
  lz4_get_maximum_output_size n := 20 + n * 110 / 100
}.
#[export] Instance lz4_ok : Lz4Ok.
Proof.
  split; simpl.
  - intros [|b l]; [done|]. unfold rle_compress. case_decide as D.
    + unfold rle_decompress, zlen. rewrite Nat2Z.id. by rewrite <-D.
    + by destruct l.
  - intros [|b l]; [done|]. unfold rle_compress. by case_decide.
  - intros n Hn. assert (n ≤ n * 110 / 100); [|lia].
    apply Z.div_le_lower_bound; lia.
  - by vm_compute.
Qed.

(** Any 32-byte function will do for [sha256]. *)
#[export] Instance sha : Sha := { sha256 l := le_bytes 32 (le_val l) }.
#[export] Instance sha_ok : ShaOk.
Proof. split. intros. apply length_le_bytes. Qed.
End Concrete.
