(* ===== verification/Frame.v ===== *)
(** * Frame: the unit of the shared WAL (crates/zou-store/src/frame.rs)

    The wire codec of one WAL frame and the walk over the frames of a
    segment.  The decoder reads bytes fetched from the network, so the
    properties are: what is encoded decodes to itself, no input makes the
    decoder panic, and a walk over a segment yields its frames in order. *)
From S2P Require Import Prelude Order Text Lsn Externals.

Definition FRAME2_HEADER_LEN : Z := 49.
Definition CRC_END : Z := 8.
Definition MAX_PAYLOAD_LEN : Z := 64 * 1024 * 1024.
Definition MAX_HINTS : Z := 4096.
Definition FLAG_CONTAINS_COMMIT : Z := 1.
Definition FLAG_FIRST_OF_EPOCH : Z := 2.
Definition FLAG_HINTS : Z := 4.
Definition FLAG_UNCOMPRESSED : Z := 8.
Definition FLAG_KNOWN : Z :=
  Z.lor (Z.lor (Z.lor FLAG_CONTAINS_COMMIT FLAG_FIRST_OF_EPOCH) FLAG_HINTS) FLAG_UNCOMPRESSED.
Definition HINT_LEN : Z := 9.

Record BlockRef := mkBlockRef { relfilenode : Z; fork : Z; block : Z }.
#[global] Instance BlockRef_eq_dec : EqDecision BlockRef.
Proof. solve_decision. Defined.

Record Frame2 := mkFrame2 {
  tenant : Z;
  writer_epoch : Z;
  start_lsn : Lsn;
  end_lsn : Lsn;
  contains_commit : bool;
  first_of_epoch : bool;
  hints : list BlockRef;
  payload : bytes
}.
#[global] Instance Frame2_eq_dec : EqDecision Frame2.
Proof. solve_decision. Defined.

Inductive Frame2DecodeError :=
  | Truncated (have need : Z)
  | BadLength (len : Z)
  | UnknownFlags (bits : Z)
  | PayloadTooLarge (len : Z)
  | TooManyHints (count : Z)
  | Corrupt
  | BadCompression.

(** The field widths of the wire form. *)
Definition blockref_ok (h : BlockRef) : Prop :=
  fits 4 (relfilenode h) ∧ fits 1 (fork h) ∧ fits 4 (block h).
Definition frame_ok (f : Frame2) : Prop :=
  fits 16 (tenant f) ∧ fits 4 (writer_epoch f) ∧ fits 8 (start_lsn f) ∧
  fits 8 (end_lsn f) ∧ Forall blockref_ok (hints f) ∧
  zlen (payload f) ≤ MAX_PAYLOAD_LEN ∧ zlen (hints f) ≤ MAX_HINTS.

Section frame.
Context `{Crc, Lz4}.

(** [BlockRef::page_shard] *)
Definition page_shard (b : BlockRef) (shard_count : Z) : Z :=
  let key := le_bytes 4 (relfilenode b) ++ le_bytes 4 (Z.shiftr (block b) 14) in
  crc32c key mod Z.max shard_count 1.

Definition encode_hint (h : BlockRef) : bytes :=
  le_bytes 4 (relfilenode h) ++ [byte_of_Z (fork h)] ++ le_bytes 4 (block h).
Definition encode_hints (hs : list BlockRef) : bytes :=
  if bool_decide (hs = []) then []
  else le_bytes 2 (zlen hs) ++ concat (encode_hint <$> hs).

(** The body as stored: lz4 unless that does not shrink it. *)
Definition pack (p : bytes) : bool * bytes :=
  let compressed := lz4_compress p in
  if zlen compressed <? zlen p then (false, compressed) else (true, p).

Definition frame_flags (f : Frame2) (raw : bool) : Z :=
  let flags := 0 in
  let flags := if contains_commit f then Z.lor flags FLAG_CONTAINS_COMMIT else flags in
  let flags := if first_of_epoch f then Z.lor flags FLAG_FIRST_OF_EPOCH else flags in
  let flags := if bool_decide (hints f = []) then flags else Z.lor flags FLAG_HINTS in
  if raw then Z.lor flags FLAG_UNCOMPRESSED else flags.

(** Everything after the checksum field. *)
Definition encode_tail (f : Frame2) (raw : bool) (body : bytes) : bytes :=
  le_bytes 16 (tenant f) ++ le_bytes 4 (writer_epoch f) ++
  le_bytes 8 (start_lsn f) ++ le_bytes 8 (end_lsn f) ++
  [byte_of_Z (frame_flags f raw)] ++ le_bytes 4 (zlen (payload f)) ++
  encode_hints (hints f) ++ body.

(** [Frame2::encode]; the asserts are the two caps. *)
Definition encode {E} (f : Frame2) : res E bytes :=
  _ ← assert (zlen (payload f) <=? MAX_PAYLOAD_LEN);
  _ ← assert (zlen (hints f) <=? MAX_HINTS);
  let '(raw, body) := pack (payload f) in
  let hints_len := if bool_decide (hints f = []) then 0 else 2 + zlen (hints f) * HINT_LEN in
  let total := FRAME2_HEADER_LEN + hints_len + zlen body in
  let tail := encode_tail f raw body in
  mret (le_bytes 4 total ++ le_bytes 4 (crc32c tail) ++ tail).

Definition max_frame_len : Z :=
  FRAME2_HEADER_LEN + 2 + MAX_HINTS * HINT_LEN +
  lz4_get_maximum_output_size MAX_PAYLOAD_LEN.

(** The hint table: [count] rows of nine bytes from [at_]. *)
Fixpoint decode_hints (buf : bytes) (at_ : Z) (count : nat) : res Frame2DecodeError (list BlockRef) :=
  match count with
  | O => mret []
  | S count =>
      rel ← le_at 4 buf at_;
      fk ← index buf (at_ + 4);
      blk ← le_at 4 buf (at_ + 5);
      rest ← decode_hints buf (at_ + HINT_LEN) count;
      mret (mkBlockRef rel (bval fk) blk :: rest)
  end.

(** The hint section, present when the flag says so: the hints and the
    offset the body starts at. *)
Definition read_hints (buf : bytes) (total : Z) (hinted : bool) :
    res Frame2DecodeError (list BlockRef * Z) :=
  let at_ := FRAME2_HEADER_LEN in
  if hinted then
    _ ← guard_err (total <? at_ + 2) Corrupt;
    count ← le_at 2 buf at_;
    _ ← guard_err (MAX_HINTS <? count) (TooManyHints count);
    let at_ := at_ + 2 in
    _ ← guard_err (total <? at_ + count * HINT_LEN) Corrupt;
    hs ← decode_hints buf at_ (Z.to_nat count);
    mret (hs, at_ + count * HINT_LEN)
  else mret ([], at_).

(** The payload out of the stored body. *)
Definition unpack (raw : bool) (body : bytes) (payload_len : Z) :
    res Frame2DecodeError bytes :=
  if raw then
    _ ← guard_err (negb (zlen body =? payload_len)) BadCompression;
    mret body
  else
    match lz4_decompress body payload_len with
    | Some p => if zlen p =? payload_len then mret p else Err BadCompression
    | None => Err BadCompression
    end.

(** [Frame2::decode]: the frame at the front of [buf] and the bytes it
    takes. *)
Definition decode (buf : bytes) : res Frame2DecodeError (Frame2 * Z) :=
  _ ← guard_err (zlen buf <? FRAME2_HEADER_LEN) (Truncated (zlen buf) FRAME2_HEADER_LEN);
  len ← le_at 4 buf 0;
  _ ← guard_err ((len <? FRAME2_HEADER_LEN) || (max_frame_len <? len)) (BadLength len);
  let total := len in
  _ ← guard_err (zlen buf <? total) (Truncated (zlen buf) total);
  stored_crc ← le_at 4 buf 4;
  covered ← slice buf CRC_END total;
  _ ← guard_err (negb (crc32c covered =? stored_crc)) Corrupt;
  tenant ← le_at 16 buf 8;
  writer_epoch ← le_at 4 buf 24;
  start_lsn ← le_at 8 buf 28;
  end_lsn ← le_at 8 buf 36;
  fb ← index buf 44;
  let flags := bval fb in
  _ ← guard_err (negb (Z.ldiff flags FLAG_KNOWN =? 0)) (UnknownFlags (Z.ldiff flags FLAG_KNOWN));
  payload_len ← le_at 4 buf 45;
  _ ← guard_err (MAX_PAYLOAD_LEN <? payload_len) (PayloadTooLarge payload_len);
  '(hs, at_) ← read_hints buf total (negb (Z.land flags FLAG_HINTS =? 0));
  body ← slice buf at_ total;
  payload ← unpack (negb (Z.land flags FLAG_UNCOMPRESSED =? 0)) body payload_len;
  mret (mkFrame2 tenant writer_epoch start_lsn end_lsn
          (negb (Z.land flags FLAG_CONTAINS_COMMIT =? 0))
          (negb (Z.land flags FLAG_FIRST_OF_EPOCH =? 0)) hs payload, total).

(** [Frame2Stream::next]: an error item empties the buffer, so it is the
    last one. *)
Definition stream_next (buf : bytes) :
    option (res Frame2DecodeError Frame2 * bytes) :=
  if bool_decide (buf = []) then None
  else match decode buf with
       | Ok (f, consumed) => Some (Ok f, drop (Z.to_nat consumed) buf)
       | Err e => Some (Err e, [])
       | Panic => Some (Panic, [])
       end.

(** The whole stream: frames in order, then the error that ended it. *)
Fixpoint stream (fuel : nat) (buf : bytes) : list (res Frame2DecodeError Frame2) :=
  match fuel with
  | O => []
  | S fuel =>
      match stream_next buf with
      | None => []
      | Some (item, rest) => item :: stream fuel rest
      end
  end.
(** Every frame takes at least its header, so the length is fuel enough. *)
Definition frame_stream (buf : bytes) : list (res Frame2DecodeError Frame2) :=
  stream (S (length buf)) buf.
End frame.

(** ** Lengths *)
Section lengths.
Context `{Crc, Lz4}.

Lemma zlen_encode_hint h : zlen (encode_hint h) = 9.
Proof. unfold encode_hint. by autorewrite with len. Qed.
Lemma zlen_concat_hints hs : zlen (concat (encode_hint <$> hs)) = 9 * zlen hs.
Proof.
  induction hs as [|h hs IH]; [done|]. rewrite fmap_cons. cbn [concat].
  rewrite zlen_app, zlen_encode_hint, IH.
  autorewrite with len. lia.
Qed.
Lemma zlen_encode_hints hs :
  zlen (encode_hints hs) = if bool_decide (hs = []) then 0 else 2 + zlen hs * HINT_LEN.
Proof.
  unfold encode_hints, HINT_LEN. case_bool_decide; [done|].
  rewrite zlen_app, zlen_concat_hints, zlen_le_bytes. lia.
Qed.
Lemma pack_len p raw body :
  pack p = (raw, body) → zlen body ≤ zlen p ∧ (raw = true → body = p) ∧
    (raw = false → body = lz4_compress p).
Proof. unfold pack. destruct (_ <? _) eqn:C; intros [= <- <-]; zbool; naive_solver lia. Qed.
Lemma zlen_encode_tail f raw body :
  zlen (encode_tail f raw body) = 41 + zlen (encode_hints (hints f)) + zlen body.
Proof. unfold encode_tail. autorewrite with len. lia. Qed.
End lengths.
#[export] Hint Rewrite @zlen_encode_hint @zlen_encode_tail : len.

(** ** Flag bits *)
Lemma flag_bits f raw :
  let fl := bval (byte_of_Z (frame_flags f raw)) in
  Z.ldiff fl FLAG_KNOWN = 0 ∧
  negb (Z.land fl FLAG_HINTS =? 0) = negb (bool_decide (hints f = [])) ∧
  negb (Z.land fl FLAG_UNCOMPRESSED =? 0) = raw ∧
  negb (Z.land fl FLAG_CONTAINS_COMMIT =? 0) = contains_commit f ∧
  negb (Z.land fl FLAG_FIRST_OF_EPOCH =? 0) = first_of_epoch f.
Proof.
  unfold frame_flags.
  destruct (contains_commit f), (first_of_epoch f), (bool_decide _), raw; by vm_compute.
Qed.

(** ** Round trip *)
Section round_trip.
Context `{CrcOk, Lz4Ok}.

Lemma decode_hints_encoded pre hs post :
  Forall blockref_ok hs →
  decode_hints (pre ++ concat (encode_hint <$> hs) ++ post) (zlen pre) (length hs) = Ok hs.
Proof.
  intros F. revert pre. induction F as [|h hs (F1 & F2 & F3) F IH]; intros pre; [done|].
  rewrite fmap_cons. cbn [decode_hints length concat]. destruct h as [r fk b]; simpl in F1, F2, F3.
  specialize (IH (pre ++ encode_hint (mkBlockRef r fk b))).
  rewrite zlen_app, zlen_encode_hint, <-app_assoc in IH.
  remember (concat (encode_hint <$> hs) ++ post) as more.
  rewrite <-app_assoc, <-Heqmore.
  set (buf := pre ++ encode_hint (mkBlockRef r fk b) ++ more) in *.
  assert (R1 : @le_at Frame2DecodeError 4 buf (zlen pre) = Ok r).
  { unfold buf, encode_hint. rewrite <-!app_assoc. by apply le_at_field. }
  assert (R2 : buf !! Z.to_nat (zlen pre + 4) = Some (byte_of_Z fk)).
  { unfold buf, encode_hint. rewrite <-!app_assoc, app_assoc.
    apply lookup_field. zlen_lia. }
  assert (R3 : @le_at Frame2DecodeError 4 buf (zlen pre + 5) = Ok b).
  { unfold buf, encode_hint. rewrite <-!app_assoc, 2!app_assoc.
    apply le_at_field; [zlen_lia|done]. }
  rewrite R1, bind_run. erewrite index_run; [|zlen_lia|exact R2]. rewrite R3, bind_run.
  unfold HINT_LEN. rewrite IH, bind_run, bval_byte_of_Z, Z.mod_small; [done|].
  unfold fits in *. lia.
Qed.

(** The wire form of a frame, and the facts about it the decoder reads. *)
Lemma encode_ok {E} f :
  frame_ok f →
  ∃ raw body, pack (payload f) = (raw, body) ∧
    let tail := encode_tail f raw body in
    let total := 8 + zlen tail in
    @encode _ _ E f = Ok (le_bytes 4 total ++ le_bytes 4 (crc32c tail) ++ tail) ∧
    FRAME2_HEADER_LEN ≤ total ≤ max_frame_len ∧ fits 4 total.
Proof.
  intros (_ & _ & _ & _ & _ & Hp & Hh).
  destruct (pack (payload f)) as [raw body] eqn:P. exists raw, body. split; [done|].
  apply pack_len in P as L. destruct L as (L & _).
  pose proof (lz4_max_ge MAX_PAYLOAD_LEN ltac:(done)) as M1.
  pose proof lz4_max_fits as M2. fold MAX_PAYLOAD_LEN in M2.
  cbv zeta. unfold encode. rewrite !assert_run by (zbool; done). rewrite P.
  pose proof (zlen_encode_hints (hints f)) as Eh.
  unfold max_frame_len, FRAME2_HEADER_LEN, HINT_LEN, MAX_HINTS in *.
  pose proof (zlen_nonneg (hints f)).
  rewrite !zlen_encode_tail. split_and!.
  - do 3 f_equal. rewrite Eh. lia.
  - rewrite Eh. case_bool_decide; zlen_lia.
  - rewrite Eh. case_bool_decide; zlen_lia.
  - unfold fits in *. rewrite Eh. case_bool_decide; zlen_lia.
Qed.

Lemma unpack_pack p raw body :
  pack p = (raw, body) → unpack raw body (zlen p) = Ok p.
Proof.
  intros (_ & Hr & Hc)%pack_len. unfold unpack. destruct raw.
  - rewrite Hr by done. by rewrite guard_run by (zbool; done).
  - rewrite Hc by done. rewrite lz4_round_trip. by rewrite Z.eqb_refl.
Qed.

Lemma read_hints_encoded pre hs post total :
  Forall blockref_ok hs → zlen hs ≤ MAX_HINTS → zlen pre = FRAME2_HEADER_LEN →
  zlen pre + zlen (encode_hints hs) ≤ total →
  read_hints (pre ++ encode_hints hs ++ post) total (negb (bool_decide (hs = []))) =
  Ok (hs, zlen pre + zlen (encode_hints hs)).
Proof.
  intros F Hm Hp Ht. pose proof (zlen_encode_hints hs) as Eh.
  unfold read_hints. rewrite <-Hp. unfold encode_hints in *.
  case_bool_decide as D; simpl negb; cbv iota zeta.
  - subst hs. by rewrite zlen_nil, Z.add_0_r.
  - unfold HINT_LEN, MAX_HINTS, FRAME2_HEADER_LEN in *.
    rewrite <-app_assoc. rewrite zlen_app, zlen_le_bytes, zlen_concat_hints in Ht.
    pass. rewrite le_at_field by zlen_lia. rewrite bind_run. pass. pass.
    replace (zlen pre + 2) with (zlen (pre ++ le_bytes 2 (zlen hs))) by zlen_lia.
    rewrite (app_assoc pre), to_nat_zlen, decode_hints_encoded, bind_run by done.
    rewrite Eh, zlen_app, zlen_le_bytes. unfold mret, res_ret. do 2 f_equal. lia.
Qed.

Lemma decode_encoded f raw body rest :
  frame_ok f → pack (payload f) = (raw, body) →
  let tail := encode_tail f raw body in
  let total := 8 + zlen tail in
  FRAME2_HEADER_LEN ≤ total ≤ max_frame_len → fits 4 total →
  decode ((le_bytes 4 total ++ le_bytes 4 (crc32c tail) ++ tail) ++ rest) = Ok (f, total).
Proof.
  intros Hok P tail total Ht Hf.
  destruct Hok as (Ft & Fe & Fs & Fn & Fh & Hp & Hh).
  destruct (flag_bits f raw) as (B1 & B2 & B3 & B4 & B5).
  pose proof (crc32c_fits tail) as Fc.
  assert (Fl : fits 4 (zlen (payload f))).
  { pose proof (zlen_nonneg (payload f)). unfold fits, MAX_PAYLOAD_LEN in *. lia. }
  rewrite <-!app_assoc.
  set (buf := le_bytes 4 total ++ le_bytes 4 (crc32c tail) ++ tail ++ rest).
  assert (Lb : zlen buf = total + zlen rest) by (unfold buf, total; zlen_lia).
  pose proof (zlen_nonneg rest) as Lr.
  assert (Eb : buf = le_bytes 4 total ++ le_bytes 4 (crc32c tail) ++
    le_bytes 16 (tenant f) ++ le_bytes 4 (writer_epoch f) ++ le_bytes 8 (start_lsn f) ++
    le_bytes 8 (end_lsn f) ++ [byte_of_Z (frame_flags f raw)] ++
    le_bytes 4 (zlen (payload f)) ++ encode_hints (hints f) ++ body ++ rest).
  { unfold buf, tail, encode_tail. by rewrite <-!app_assoc. }
  assert (Sc : sub buf CRC_END total = tail).
  { unfold buf. rewrite app_assoc. apply sub_mid; unfold CRC_END, total; zlen_lia. }
  unfold decode, FRAME2_HEADER_LEN in *.
  pass.
  assert (R : @le_at Frame2DecodeError 4 buf 0 = Ok total) by (unfold buf; field).
  rewrite R, bind_run; clear R. pass. cbv zeta. pass.
  assert (R : @le_at Frame2DecodeError 4 buf 4 = Ok (crc32c tail)) by (unfold buf; field).
  rewrite R, bind_run; clear R.
  rewrite slice_run by (unfold CRC_END; lia). rewrite Sc. pass.
  rewrite Eb. do 4 (match goal with |- context [le_at ?n ?b ?a] =>
    let R := fresh in eassert (R : @le_at Frame2DecodeError n b a = Ok _) by field;
    rewrite R, bind_run; clear R end).
  erewrite index_run; [|lia|field]. rewrite B1. pass.
  match goal with |- context [le_at 4 ?b 45] =>
    eassert (R : @le_at Frame2DecodeError 4 b 45 = Ok _) by field;
    rewrite R, bind_run; clear R end.
  pass. rewrite B2, B3, B4, B5.
  rewrite 7!app_assoc.
  assert (Ltot : total = 49 + zlen (encode_hints (hints f)) + zlen body).
  { unfold total, tail. rewrite zlen_encode_tail. lia. }
  rewrite read_hints_encoded; [|done|done|by autorewrite with len|zlen_lia].
  rewrite bind_run, app_assoc. rewrite slice_run by zlen_lia.
  rewrite sub_mid by zlen_lia. rewrite (unpack_pack _ _ _ P), bind_run.
  by destruct f.
Qed.

Lemma encode_decode f rest :
  frame_ok f →
  ∃ wire, encode (E := Frame2DecodeError) f = Ok wire ∧
          decode (wire ++ rest) = Ok (f, zlen wire).
Proof.
  intros Hok. destruct (encode_ok (E := Frame2DecodeError) f Hok)
    as (raw & body & P & W & T & F).
  eexists; split; [exact W|]. rewrite (decode_encoded f raw body rest Hok P T F).
  do 2 f_equal. zlen_lia.
Qed.
End round_trip.

(** ** No input makes the decoder panic *)
Section no_panic.
Context `{Crc, Lz4}.

Lemma decode_hints_np buf at_ count :
  0 ≤ at_ → at_ + Z.of_nat count * HINT_LEN ≤ zlen buf → no_panic (decode_hints buf at_ count).
Proof.
  revert at_. unfold HINT_LEN. induction count as [|count IH]; intros at_ A1 A2; [done|].
  cbn [decode_hints]. do 3 np_step.
  apply no_panic_bind; [|by intros]. unfold HINT_LEN. apply IH; lia.
Qed.
Lemma read_hints_np buf total hinted :
  FRAME2_HEADER_LEN ≤ total ≤ zlen buf → no_panic (read_hints buf total hinted).
Proof.
  unfold read_hints, FRAME2_HEADER_LEN, HINT_LEN. intros A. destruct hinted; [|done].
  cbv zeta. np_step. np_step. np_step. np_step. apply no_panic_bind; [|by intros].
  apply decode_hints_np; unfold HINT_LEN; zlen_lia.
Qed.
Lemma read_hints_at buf total hinted hs at_ :
  FRAME2_HEADER_LEN ≤ total ≤ zlen buf → read_hints buf total hinted = Ok (hs, at_) → 
  FRAME2_HEADER_LEN ≤ at_ ≤ total.
Proof.
  unfold read_hints, FRAME2_HEADER_LEN, HINT_LEN. intros A R.
  destruct hinted; [|injection R as <- <-; lia].
  bind_inv R. bind_inv R. bind_inv R. bind_inv R. bind_inv R. injection R as <- <-.
  destruct (@le_at_in_range Frame2DecodeError 2 buf 49) as (z & E1 & E2); [lia|zbool; lia|].
  rewrite E1 in Hb0. injection Hb0 as <-. zbool. unfold fits in *. lia.
Qed.

Lemma decode_np (buf : bytes) : no_panic (decode buf).
Proof.
  unfold decode, FRAME2_HEADER_LEN, CRC_END. cbv zeta. do 15 np_step.
  apply no_panic_bind; [apply read_hints_np; unfold FRAME2_HEADER_LEN; lia|].
  intros [hs at_] R. apply read_hints_at in R; [|unfold FRAME2_HEADER_LEN; lia].
  unfold FRAME2_HEADER_LEN in R. np_step. apply no_panic_bind; [|by intros].
  unfold unpack. destruct (negb _).
  - by np_step.
  - repeat case_match; done.
Qed.

(** The decoder never panics, whatever bytes the network handed it:
    every slice it takes is inside the buffer and every integer it reads is
    there to be read. *)
Theorem decode_never_panics (buf : bytes) : no_panic (decode buf).
Proof. apply decode_np. Qed.

Lemma decode_consumed buf f n :
  decode buf = Ok (f, n) → FRAME2_HEADER_LEN ≤ n ≤ zlen buf.
Proof.
  unfold decode. intros R. bind_all R. injection R as <- <-. zbool. lia.
Qed.
End no_panic.

(** ** The stream *)
Section stream.
Context `{CrcOk, Lz4Ok}.

Lemma stream_cons fuel f n buf :
  decode buf = Ok (f, n) → stream (S fuel) buf = Ok f :: stream fuel (drop (Z.to_nat n) buf).
Proof.
  intros D. pose proof (decode_consumed buf f n D) as L. cbn [stream].
  unfold stream_next. rewrite bool_decide_false, D; [done|].
  intros ->. unfold FRAME2_HEADER_LEN in L. rewrite zlen_nil in L. lia.
Qed.

Lemma encode_length {E} f wire : frame_ok f → @encode _ _ E f = Ok wire → 49 ≤ zlen wire.
Proof.
  intros Hok W. destruct (encode_ok (E := E) f Hok) as (raw & body & P & W' & T & F).
  rewrite W in W'. apply (inj Ok) in W' as ->. unfold FRAME2_HEADER_LEN in T. zlen_lia.
Qed.

Lemma stream_encoded fuel fs wires rest :
  Forall frame_ok fs →
  mapM (encode (E := Frame2DecodeError)) fs = Ok wires →
  (length fs ≤ fuel)%nat →
  stream fuel (concat wires ++ rest) = (Ok <$> fs) ++ stream (fuel - length fs) rest.
Proof.
  intros F. revert fuel wires. induction F as [|f fs Hf F IH]; intros fuel wires W L.
  - injection W as <-. simpl. by rewrite Nat.sub_0_r.
  - cbn [mapM] in W. bind_inv W. bind_inv W. injection W as <-.
    destruct (encode_decode f (concat a0 ++ rest) Hf) as (w & W1 & W2).
    rewrite W1 in Hb. injection Hb as ->.
    cbn [concat length] in *. destruct fuel as [|fuel]; [lia|].
    rewrite <-app_assoc. rewrite (stream_cons _ _ _ _ W2).
    rewrite to_nat_zlen, drop_app_length. rewrite (IH _ _ Hb0) by lia. done.
Qed.

(** A frame cut short anywhere is reported as truncated. *)
Lemma decode_torn f wire k :
  frame_ok f → encode (E := Frame2DecodeError) f = Ok wire →
  (0 < k < length wire)%nat →
  ∃ need, decode (take k wire) = Err (Truncated (Z.of_nat k) need).
Proof.
  intros Hok W K. destruct (encode_ok (E := Frame2DecodeError) f Hok)
    as (raw & body & P & W' & T & F). rewrite W in W'. apply (inj Ok) in W' as ->.
  set (w := le_bytes 4 _ ++ _) in *.
  assert (Lk : zlen (take k w) = Z.of_nat k) by (unfold zlen; rewrite length_take; lia).
  assert (Lw : zlen w = 8 + zlen (encode_tail f raw body)) by (unfold w; zlen_lia).
  unfold decode, FRAME2_HEADER_LEN in *. rewrite Lk.
  destruct (decide (Z.of_nat k < 49)).
  { rewrite guard_stop by (zbool; lia). eauto. }
  rewrite guard_run by (zbool; lia).
  rewrite (le_at_take 4 k w 0) by lia.
  assert (R : @le_at Frame2DecodeError 4 w 0 = Ok (8 + zlen (encode_tail f raw body)))
    by (unfold w; field).
  rewrite R, bind_run. rewrite guard_run by (zbool; lia). cbv zeta.
  rewrite guard_stop; [eauto|]. zbool. unfold zlen in *. lia.
Qed.

(** [torn] is what a crash leaves of one more frame: nothing, or a proper
    prefix of its wire form. *)
Definition torn_tail (torn : bytes) : Prop :=
  torn = [] ∨ ∃ f wire k, frame_ok f ∧ encode (E := Frame2DecodeError) f = Ok wire ∧
    (0 < k < length wire)%nat ∧ torn = take k wire.

Lemma stream_torn fuel torn :
  torn_tail torn → (0 < fuel)%nat →
  ∃ tl, stream fuel torn = tl ∧
    (torn = [] ∧ tl = [] ∨ ∃ need, tl = [Err (Truncated (zlen torn) need)]).
Proof.
  intros [->|(f & wire & k & Hok & W & K & ->)] Hf; (destruct fuel as [|fuel]; [lia|]).
  - eexists; split; [done|]. by left.
  - destruct (decode_torn f wire k Hok W K) as [need D].
    eexists; split; [done|]. right. exists need. cbn [stream]. unfold stream_next.
    rewrite bool_decide_false, D.
    + rewrite take_zlen by lia. by destruct fuel.
    + destruct wire; simpl in K; [lia|]. destruct k; [lia|done].
Qed.

Lemma mapM_encode_length fs wires :
  Forall frame_ok fs → mapM (encode (E := Frame2DecodeError)) fs = Ok wires →
  (length fs ≤ length (concat wires))%nat.
Proof.
  intros F. revert wires. induction F as [|f fs Hf F IH]; intros wires W; [simpl; lia|].
  cbn [mapM] in W. bind_inv W. bind_inv W. injection W as <-.
  cbn [concat length]. rewrite length_app. apply IH in Hb0.
  apply encode_length in Hb; [|done]. unfold zlen in *. lia.
Qed.
End stream.

Section claims.
Context `{CrcOk, Lz4Ok}.

(** Encoding any frame within the wire limits succeeds, and decoding
    the result, whatever bytes follow it in the segment, gives the frame
    back and consumes exactly the bytes that were written, compressed or
    raw, hinted or not. *)
Theorem frame_round_trip (f : Frame2) (rest : bytes) :
  frame_ok f →
  ∃ wire, encode (E := Frame2DecodeError) f = Ok wire ∧
          decode (wire ++ rest) = Ok (f, zlen wire).
Proof. apply encode_decode. Qed.

(** Walking the bytes of a segment yields exactly the frames that were
    written, in order; when a crash tore the last one, one truncation error
    follows them and nothing after it, so a torn tail reads as the end of
    the segment and never as a wrong frame. *)
Theorem segment_walk (fs : list Frame2) (wires : list bytes) (torn : bytes) :
  Forall frame_ok fs → mapM (encode (E := Frame2DecodeError)) fs = Ok wires →
  torn_tail torn →
  ∃ tl, frame_stream (concat wires ++ torn) = (Ok <$> fs) ++ tl ∧
    (torn = [] ∧ tl = [] ∨ ∃ need, tl = [Err (Truncated (zlen torn) need)]).
Proof.
  intros F W T. pose proof (mapM_encode_length fs wires F W) as L.
  unfold frame_stream. rewrite (stream_encoded _ fs wires torn F W);
    [|rewrite length_app; lia].
  destruct (stream_torn (S (length (concat wires ++ torn)) - length fs) torn T)
    as (tl & <- & E); [rewrite length_app; lia|]. eauto.
Qed.
End claims.

(** ** Witnesses *)
Module FrameWitness.
Import Concrete.

#[export] Instance blockref_ok_dec h : Decision (blockref_ok h).
Proof. unfold blockref_ok. apply _. Defined.
#[export] Instance frame_ok_dec f : Decision (frame_ok f).
Proof. unfold frame_ok. apply _. Defined.

(** A hinted commit frame whose payload compresses, and one that does not. *)
Definition f1 : Frame2 :=
  mkFrame2 0xc0ffee 7 0x8B000000 0x8B004000 true false
    [mkBlockRef 16384 0 131; mkBlockRef 16385 2 262] (replicate 40 Byte.x07).
Definition f2 : Frame2 :=
  mkFrame2 3 8 0x8B004000 0x8B004010 false true [] (str "tiny").

Lemma frame_round_trip_witness :
  ∃ wire, encode (E := Frame2DecodeError) f1 = Ok wire ∧
          decode (wire ++ str "rest") = Ok (f1, zlen wire).
Proof. apply frame_round_trip. apply (bool_decide_unpack _). by vm_compute. Defined.

Lemma segment_walk_witness :
  ∃ w1 w2 tl,
    frame_stream (concat [w1; w2] ++ take 60 w1) = (Ok <$> [f1; f2]) ++ tl ∧
    (take 60 w1 = [] ∧ tl = [] ∨
     ∃ need, tl = [Err (Truncated (zlen (take 60 w1)) need)]).
Proof.
  destruct (encode (E := Frame2DecodeError) f1) as [w1| |] eqn:E1;
    [|by vm_compute in E1..].
  destruct (encode (E := Frame2DecodeError) f2) as [w2| |] eqn:E2;
    [|by vm_compute in E2..].
  exists w1, w2. apply (segment_walk [f1; f2] [w1; w2] (take 60 w1)).
  - apply (bool_decide_unpack _). by vm_compute.
  - cbn [mapM]. by rewrite E1, E2.
  - right. exists f1, w1, 60%nat. split_and!; [|done|lia| |done].
    + apply (bool_decide_unpack _). by vm_compute.
    + vm_compute in E1. apply (inj Ok) in E1 as <-. simpl. lia.
Defined.

(** The placement values the source pins in its tests, through the real
    CRC-32C. *)
Example placement_pinned :
  page_shard (mkBlockRef 1663 0 0) 64 = 10 ∧
  page_shard (mkBlockRef 1663 0 16384) 64 = 50 ∧
  page_shard (mkBlockRef 16400 0 123456789) 4 = 3.
Proof. by vm_compute. Qed.
End FrameWitness.
