(* ===== verification/Bloom.v ===== *)
(** * Bloom: the key filter of a layer footer (crates/zou-store/src/bloom.rs)

    Seven double-hashed probes into a power-of-two bit array.  The property
    that makes the filter usable at all is that it has no false negatives,
    however it was built. *)
From S2P Require Import Prelude Externals.

Definition BLOOM_HASHES : nat := 7.
Definition BLOOM_MIN_BYTES : Z := 64.
Definition w64 : Z := 2 ^ 64.

(** [mix]: the splitmix64 finalizer, multiplications wrapping. *)
Definition mix (z : Z) : Z :=
  let z := (Z.lxor z (Z.shiftr z 30) * 0xbf58476d1ce4e5b9) mod w64 in
  let z := (Z.lxor z (Z.shiftr z 27) * 0x94d049bb133111eb) mod w64 in
  Z.lxor z (Z.shiftr z 31).

(** [probes]: where one key's probes land in a filter of [bits] bits. *)
Definition probes (h1 h2 bits : Z) : list Z :=
  (λ i, ((h1 + (Z.of_nat i * h2) mod w64) mod w64) mod bits) <$> seq 0 BLOOM_HASHES.

(** [usize::next_power_of_two] and [is_power_of_two]. *)
Definition next_power_of_two (n : Z) : Z := if n <=? 1 then 1 else 2 ^ Z.log2_up n.
Definition is_power_of_two (n : Z) : bool := (0 <? n) && (2 ^ Z.log2 n =? n).

Record Bloom := mkBloom { bloom_bits : bytes }.
#[global] Instance Bloom_eq_dec : EqDecision Bloom.
Proof. solve_decision. Defined.

(** [Bloom::sized_for] *)
Definition sized_for (keys : Z) : Bloom :=
  let bytes := Z.max (next_power_of_two ((keys * 10 + 7) / 8)) BLOOM_MIN_BYTES in
  mkBloom (replicate (Z.to_nat bytes) Byte.x00).

(** [bits[pos / 8] |= 1 << (pos % 8)] *)
Definition set_bit (bits : bytes) (pos : Z) : bytes :=
  let i := Z.to_nat (pos / 8) in
  match bits !! i with
  | Some b => <[i := byte_of_Z (Z.lor (bval b) (Z.shiftl 1 (pos mod 8)))]> bits
  | None => bits
  end.
(** [bits[pos / 8] & (1 << (pos % 8)) != 0] *)
Definition test_bit (bits : bytes) (pos : Z) : bool :=
  match bits !! Z.to_nat (pos / 8) with
  | Some b => negb (Z.land (bval b) (Z.shiftl 1 (pos mod 8)) =? 0)
  | None => false
  end.

Definition bit_count (b : Bloom) : Z := zlen (bloom_bits b) * 8.

(** [Bloom::from_hashes] *)
Definition from_hashes (hashes : list (Z * Z)) : Bloom :=
  let bloom := sized_for (Z.max (zlen hashes) 1) in
  let bits := bit_count bloom in
  mkBloom (foldl (λ bs h, foldl set_bit bs (probes h.1 h.2 bits)) (bloom_bits bloom) hashes).

(** [Bloom::from_bits]: only sizes the builder can have produced. *)
Definition from_bits (bits : bytes) : option Bloom :=
  if negb (is_power_of_two (zlen bits)) || (zlen bits <? BLOOM_MIN_BYTES)
  then None else Some (mkBloom bits).

Section bloom.
Context `{Crc}.

(** [Bloom::hash] *)
Definition bloom_hash (key : bytes) : Z * Z :=
  (mix (crc32c key), Z.lor (mix (crc32c_append 0x5EED key)) 1).

Definition positions (b : Bloom) (key : bytes) : list Z :=
  let '(h1, h2) := bloom_hash key in probes h1 h2 (bit_count b).

(** [Bloom::insert] *)
Definition bloom_insert (b : Bloom) (key : bytes) : Bloom :=
  mkBloom (foldl set_bit (bloom_bits b) (positions b key)).

(** [Bloom::may_contain] *)
Definition may_contain (b : Bloom) (key : bytes) : bool :=
  forallb (test_bit (bloom_bits b)) (positions b key).
End bloom.

(** ** Bits *)
Lemma length_set_bit bits pos : length (set_bit bits pos) = length bits.
Proof. unfold set_bit. case_match; [apply length_insert|done]. Qed.
Lemma length_set_bits bits ps : length (foldl set_bit bits ps) = length bits.
Proof.
  revert bits. induction ps as [|p ps IH]; intros; simpl; [done|].
  by rewrite IH, length_set_bit.
Qed.

Lemma byte_or b n : 0 ≤ n < 8 →
  bval (byte_of_Z (Z.lor (bval b) (Z.shiftl 1 n))) = Z.lor (bval b) (Z.shiftl 1 n).
Proof.
  intros Hn. rewrite bval_byte_of_Z. change 256 with (2 ^ 8). rewrite <-Z.land_ones by lia.
  apply Z.bits_inj'. intros i Hi. rewrite Z.land_spec, Z.lor_spec.
  destruct (decide (i < 8)).
  - rewrite Z.ones_spec_low by lia. by rewrite andb_true_r.
  - rewrite Z.ones_spec_high, andb_false_r by lia. symmetry. apply orb_false_iff. split.
    + apply Z.bits_above_log2; [apply bval_range|]. pose proof (bval_range b).
      destruct (decide (bval b = 0)) as [->|]; [simpl; lia|].
      apply Z.log2_lt_pow2; [lia|]. pose proof (Z.pow_le_mono_r 2 8 i). lia.
    + rewrite Z.shiftl_spec by lia. apply Z.bits_above_log2; simpl; lia.
Qed.
Lemma land_bit_nonzero z n : 0 ≤ n → negb (Z.land z (Z.shiftl 1 n) =? 0) = Z.testbit z n.
Proof.
  intros Hn. rewrite Z.shiftl_1_l. destruct (Z.testbit z n) eqn:T; simpl.
  - apply negb_true_iff, Z.eqb_neq. intros E.
    apply (f_equal (λ x, Z.testbit x n)) in E.
    rewrite Z.land_spec, T, Z.pow2_bits_true, Z.testbit_0_l in E by lia. done.
  - apply negb_false_iff, Z.eqb_eq. apply Z.bits_inj'. intros i Hi.
    rewrite Z.land_spec, Z.pow2_bits_eqb, Z.testbit_0_l by lia.
    destruct (n =? i) eqn:C; [|apply andb_false_r]. apply Z.eqb_eq in C as <-. by rewrite T.
Qed.

Lemma test_set_bit bits p q :
  0 ≤ p < zlen bits * 8 → 0 ≤ q →
  test_bit (set_bit bits p) q = (p =? q) || test_bit bits q.
Proof.
  intros Hp Hq. unfold test_bit, set_bit.
  pose proof (Z.mod_pos_bound p 8 ltac:(lia)). pose proof (Z.mod_pos_bound q 8 ltac:(lia)).
  assert (p / 8 < zlen bits) by (apply Z.div_lt_upper_bound; lia).
  assert (0 ≤ p / 8) by (apply Z.div_pos; lia).
  assert (0 ≤ q / 8) by (apply Z.div_pos; lia).
  destruct (lookup_lt_is_Some_2 bits (Z.to_nat (p / 8))) as [b Eb]; [unfold zlen in *; lia|].
  rewrite Eb. destruct (decide (Z.to_nat (p / 8) = Z.to_nat (q / 8))) as [Eq|Ne].
  - rewrite <-Eq. rewrite list_lookup_insert_eq by (unfold zlen in *; lia). rewrite Eb.
    rewrite byte_or, !land_bit_nonzero by lia. rewrite Z.lor_spec, Z.shiftl_1_l.
    rewrite Z.pow2_bits_eqb by lia. rewrite orb_comm. f_equal.
    pose proof (Z.div_mod p 8 ltac:(lia)). pose proof (Z.div_mod q 8 ltac:(lia)).
    destruct (p mod 8 =? q mod 8) eqn:C1, (p =? q) eqn:C2; zbool; lia.
  - rewrite list_lookup_insert_ne by done.
    rewrite (proj2 (Z.eqb_neq p q)); [done|]. intros ->. done.
Qed.

Lemma test_set_bits bits ps q :
  (∀ p, p ∈ ps → 0 ≤ p < zlen bits * 8) → 0 ≤ q →
  (q ∈ ps ∨ test_bit bits q = true) → test_bit (foldl set_bit bits ps) q = true.
Proof.
  revert bits. induction ps as [|p ps IH]; intros bits R Hq D; simpl.
  - destruct D as [D|D]; [set_solver|done].
  - apply IH; [|done|].
    + intros p' Hp'. unfold zlen. rewrite length_set_bit. apply R. set_solver.
    + rewrite test_set_bit by (try done; apply R; set_solver).
      destruct D as [[->|D]%elem_of_cons|D].
      * right. by rewrite Z.eqb_refl.
      * by left.
      * right. rewrite D. apply orb_true_r.
Qed.
Lemma test_set_bits_mono bits ps q :
  (∀ p, p ∈ ps → 0 ≤ p < zlen bits * 8) → 0 ≤ q → test_bit bits q = true →
  test_bit (foldl set_bit bits ps) q = true.
Proof. intros. apply test_set_bits; auto. Qed.

Lemma probes_range h1 h2 bits p : 0 < bits → p ∈ probes h1 h2 bits → 0 ≤ p < bits.
Proof.
  intros Hb. unfold probes. rewrite list_elem_of_fmap. intros (i & -> & _).
  by apply Z.mod_pos_bound.
Qed.

(** ** Sizes *)
Lemma next_power_of_two_pow n : ∃ k, 0 ≤ k ∧ next_power_of_two n = 2 ^ k.
Proof.
  unfold next_power_of_two. destruct (_ <=? _); [by exists 0|].
  exists (Z.log2_up n). split; [apply Z.log2_up_nonneg|done].
Qed.
Lemma is_power_of_two_pow k : 0 ≤ k → is_power_of_two (2 ^ k) = true.
Proof.
  intros. unfold is_power_of_two. rewrite Z.log2_pow2, Z.eqb_refl by done.
  rewrite andb_true_r. apply Z.ltb_lt. by apply Z.pow_pos_nonneg.
Qed.
Lemma sized_for_len keys :
  ∃ k, 6 ≤ k ∧ zlen (bloom_bits (sized_for keys)) = 2 ^ k.
Proof.
  unfold sized_for, BLOOM_MIN_BYTES. cbn [bloom_bits]. rewrite zlen_replicate.
  destruct (next_power_of_two_pow ((keys * 10 + 7) / 8)) as (k & Hk & ->).
  destruct (decide (6 ≤ k)).
  - exists k. split; [done|]. pose proof (Z.pow_le_mono_r 2 6 k). rewrite Z2Nat.id; lia.
  - exists 6. split; [lia|]. pose proof (Z.pow_le_mono_r 2 k 6). rewrite Z2Nat.id; lia.
Qed.
Lemma from_hashes_len hs : zlen (bloom_bits (from_hashes hs)) =
  zlen (bloom_bits (sized_for (Z.max (zlen hs) 1))).
Proof.
  unfold from_hashes. cbn [bloom_bits].
  generalize (bit_count (sized_for (Z.max (zlen hs) 1))) as n.
  generalize (bloom_bits (sized_for (Z.max (zlen hs) 1))) as bs. intros bs n.
  revert bs. induction hs as [|h hs IH]; intros bs; [done|].
  rewrite foldl_cons, IH. unfold zlen. by rewrite length_set_bits.
Qed.

(** A filter the builder made is one the reader adopts. *)
Lemma from_bits_from_hashes hs : from_bits (bloom_bits (from_hashes hs)) = Some (from_hashes hs).
Proof.
  unfold from_bits. destruct (sized_for_len (Z.max (zlen hs) 1)) as (k & Hk & E).
  rewrite from_hashes_len, E, is_power_of_two_pow by lia.
  unfold BLOOM_MIN_BYTES. pose proof (Z.pow_le_mono_r 2 6 k).
  rewrite (proj2 (Z.ltb_ge _ _)) by lia. cbn [negb orb].
  by destruct (from_hashes hs).
Qed.

Section no_false_negatives.
Context `{Crc}.

Lemma from_hashes_probes hs h q :
  h ∈ hs → q ∈ probes h.1 h.2 (bit_count (from_hashes hs)) →
  test_bit (bloom_bits (from_hashes hs)) q = true.
Proof.
  intros Hh Hq. unfold bit_count in Hq. rewrite from_hashes_len in Hq.
  fold (bit_count (sized_for (Z.max (zlen hs) 1))) in Hq.
  destruct (sized_for_len (Z.max (zlen hs) 1)) as (k & Hk & E).
  pose proof (Z.pow_pos_nonneg 2 k ltac:(lia) ltac:(lia)) as Pk.
  unfold from_hashes. cbn [bloom_bits].
  set (n := bit_count _) in *.
  assert (Hn : 0 < n ∧ n = zlen (bloom_bits (sized_for (Z.max (zlen hs) 1))) * 8)
    by (unfold n, bit_count; lia).
  clearbody n. revert Hn. generalize (bloom_bits (sized_for (Z.max (zlen hs) 1))).
  clear E. intros bs [Hn En].
  assert (0 ≤ q < n) by (eapply probes_range; eauto).
  assert (mono : ∀ hs' bs', zlen bs' * 8 = n → test_bit bs' q = true →
    test_bit (foldl (λ bs h, foldl set_bit bs (probes h.1 h.2 n)) bs' hs') q = true).
  { clear Hh. induction hs' as [|h' hs' IH]; intros bs' L T; [done|].
    rewrite foldl_cons. apply IH; [unfold zlen; by rewrite length_set_bits|].
    apply test_set_bits_mono; [|lia|done]. intros p Hp. rewrite L. by eapply probes_range. }
  revert bs En. induction hs as [|h' hs IH]; intros bs En; [set_solver|]. rewrite foldl_cons.
  apply elem_of_cons in Hh as [->|Hh].
  - apply mono; [unfold zlen; by rewrite length_set_bits|].
    apply test_set_bits; [|lia|by left]. intros p Hp. rewrite <-En. by eapply probes_range.
  - apply IH; [done|]. unfold zlen. by rewrite length_set_bits.
Qed.

Lemma bloom_no_false_negative keys key :
  key ∈ keys → may_contain (from_hashes (bloom_hash <$> keys)) key = true.
Proof.
  intros Hk. unfold may_contain, positions. destruct (bloom_hash key) as [h1 h2] eqn:E.
  apply forallb_forall. intros q Hq%list_elem_of_In.
  apply (from_hashes_probes _ (h1, h2)); [|done].
  apply list_elem_of_fmap. eauto.
Qed.

Lemma bit_count_insert b key : bit_count (bloom_insert b key) = bit_count b.
Proof. unfold bit_count, bloom_insert, zlen. cbn [bloom_bits]. by rewrite length_set_bits. Qed.

(** The filter never denies a key it was given.  Whether a footer's
    filter was built at the end from the hashes of the keys, or grew one
    insert at a time from any filter, every key that went in is reported as
    possibly present, and an insert never loses a key already in. *)
Theorem bloom_never_denies (keys : list bytes) (b : Bloom) (key other : bytes) :
  0 < bit_count b →
  (key ∈ keys → may_contain (from_hashes (bloom_hash <$> keys)) key = true) ∧
  may_contain (bloom_insert b key) key = true ∧
  (may_contain b other = true → may_contain (bloom_insert b key) other = true).
Proof.
  intros Hb. split; [apply bloom_no_false_negative|].
  unfold may_contain, positions. rewrite bit_count_insert. unfold bloom_insert, positions.
  destruct (bloom_hash key) as [h1 h2], (bloom_hash other) as [o1 o2]. cbn [bloom_bits].
  assert (R : ∀ a1 a2 p, p ∈ probes a1 a2 (bit_count b) → 0 ≤ p < zlen (bloom_bits b) * 8).
  { intros a1 a2 p Hp. eapply probes_range in Hp; [|done]. done. }
  split.
  - apply forallb_forall. intros q Hq%list_elem_of_In.
    apply test_set_bits; [apply R| |by left]. by eapply R.
  - rewrite !forallb_forall. intros F q Hq.
    apply test_set_bits_mono; [apply R| |by apply F].
    apply list_elem_of_In in Hq. by eapply R.
Qed.
End no_false_negatives.

Module BloomWitness.
Import Concrete.
Definition ks : list bytes := [str "alpha"; str "beta"; str "gamma"].
Lemma bloom_never_denies_witness :
  may_contain (from_hashes (bloom_hash <$> ks)) (str "beta") = true ∧
  may_contain (from_hashes (bloom_hash <$> ks)) (str "delta") = false.
Proof.
  split; [|by vm_compute].
  destruct (bloom_never_denies ks (sized_for 3) (str "beta") []) as (W & _);
    [by vm_compute|].
  apply W. apply list_elem_of_further, list_elem_of_here.
Defined.
End BloomWitness.
