(* ===== verification/LayerKey.v ===== *)
(** * LayerKey: the keyspace of the page service (crates/zou-store/src/layer.rs)

    One addressable thing: a relation page or a fork size.  Layers persist
    encoded keys and name themselves by key ranges, so the encoding, the
    hex form and the order are format frozen and have to agree. *)
From S2P Require Import Prelude Order Text.

Definition KEY_PAGE : Z := 0.
Definition KEY_RELSIZE : Z := 1.
Definition KEY_ENCODED_LEN : Z := 1 + 4 + 4 + 4 + 1 + 4.

Record LayerKey := mkKey {
  key_kind : Z;
  key_spc : Z;
  key_db : Z;
  key_rel : Z;
  key_fork : Z;
  key_block : Z
}.
#[global] Instance LayerKey_eq_dec : EqDecision LayerKey.
Proof. solve_decision. Defined.

Definition key_tuple (k : LayerKey) : Z * (Z * (Z * (Z * (Z * Z)))) :=
  (key_kind k, (key_spc k, (key_db k, (key_rel k, (key_fork k, key_block k))))).
#[global] Instance key_tuple_inj : Inj (=) (=) key_tuple.
Proof. intros [] []. unfold key_tuple. simpl. congruence. Qed.
#[global] Instance LayerKey_countable : Countable LayerKey.
Proof.
  apply (inj_countable key_tuple
    (λ t, Some (mkKey t.1 t.2.1 t.2.2.1 t.2.2.2.1 t.2.2.2.2.1 t.2.2.2.2.2))).
  by intros [].
Defined.

(** [#[derive(PartialOrd, Ord)]]: the fields in declaration order. *)
#[global] Instance LayerKey_ord : Ord LayerKey := λ a b, ocmp (key_tuple a) (key_tuple b).
#[global] Instance LayerKey_ord_ok : OrdOk LayerKey.
Proof. apply (inj_ord_ok key_tuple). Qed.

(** The field widths. *)
Definition key_ok (k : LayerKey) : Prop :=
  fits 1 (key_kind k) ∧ fits 4 (key_spc k) ∧ fits 4 (key_db k) ∧
  fits 4 (key_rel k) ∧ fits 1 (key_fork k) ∧ fits 4 (key_block k).
#[global] Instance key_ok_dec k : Decision (key_ok k).
Proof. unfold key_ok. apply _. Defined.

(** [LayerKey::page] and [LayerKey::relsize] *)
Definition key_page (spc db rel fork block : Z) : LayerKey :=
  mkKey KEY_PAGE spc db rel fork block.
Definition key_relsize (spc db rel fork : Z) : LayerKey :=
  mkKey KEY_RELSIZE spc db rel fork 0.

(** [LayerKey::encode] *)
Definition key_encode (k : LayerKey) : bytes :=
  [byte_of_Z (key_kind k)] ++ le_bytes 4 (key_spc k) ++ le_bytes 4 (key_db k) ++
  le_bytes 4 (key_rel k) ++ [byte_of_Z (key_fork k)] ++ le_bytes 4 (key_block k).

(** [LayerKey::decode] of an 18-byte array. *)
Definition key_decode (b : bytes) : LayerKey :=
  mkKey (le_val (sub b 0 1)) (le_val (sub b 1 5)) (le_val (sub b 5 9))
        (le_val (sub b 9 13)) (le_val (sub b 13 14)) (le_val (sub b 14 18)).

(** [LayerKey::hex] *)
Definition key_hex (k : LayerKey) : bytes :=
  fmt_hex 2 (key_kind k) ++ fmt_hex 8 (key_spc k) ++ fmt_hex 8 (key_db k) ++
  fmt_hex 8 (key_rel k) ++ fmt_hex 2 (key_fork k) ++ fmt_hex 8 (key_block k).

Lemma zlen_key_encode k : zlen (key_encode k) = 18.
Proof. unfold key_encode. by autorewrite with len. Qed.
#[export] Hint Rewrite zlen_key_encode : len.

Lemma byte_le_bytes z : [byte_of_Z z] = le_bytes 1 z.
Proof. done. Qed.

Lemma key_decode_encode k post : key_ok k → key_decode (key_encode k ++ post) = k.
Proof.
  intros (F1 & F2 & F3 & F4 & F5 & F6). unfold key_decode, key_encode.
  rewrite !byte_le_bytes, <-!app_assoc. destruct k as [a b c d e g].
  cbn [key_kind key_spc key_db key_rel key_fork key_block] in *.
  f_equal; vfield.
Qed.

Lemma key_decode_ok b : zlen b = 18 → key_ok (key_decode b).
Proof.
  intros L. unfold key_ok, key_decode; cbn [key_kind key_spc key_db key_rel key_fork key_block].
  assert (R : ∀ i j n, 0 ≤ i → i + Z.of_nat n = j → j ≤ 18 → fits n (le_val (sub b i j))).
  { intros i j n Hi Hj Hl. replace n with (length (sub b i j)); [apply le_val_fits|].
    pose proof (zlen_sub b i j). unfold zlen in *. lia. }
  split_and!; apply R; lia.
Qed.

(** ** The hex form *)
Lemma fits_hex n z : fits n z → 0 ≤ z < 16 ^ Z.of_nat (2 * n).
Proof.
  unfold fits. change 16 with (2 ^ 4). rewrite <-Z.pow_mul_r by lia.
  replace (4 * Z.of_nat (2 * n)) with (8 * Z.of_nat n) by lia. done.
Qed.
Lemma fmt_hex_fits n w z :
  w = (2 * n)%nat → (0 < n)%nat → fits n z → fmt_hex w z = fix_digits digit_lower 16 w z.
Proof. intros -> Hn F. apply fmt_fixed; [lia|by apply fits_hex|lia]. Qed.

Definition hexf (w : nat) (z : Z) : bytes := fix_digits digit_lower 16 w z.
Lemma key_hex_fixed k :
  key_ok k →
  key_hex k = hexf 2 (key_kind k) ++ hexf 8 (key_spc k) ++ hexf 8 (key_db k) ++
              hexf 8 (key_rel k) ++ hexf 2 (key_fork k) ++ hexf 8 (key_block k).
Proof.
  intros (F1 & F2 & F3 & F4 & F5 & F6). unfold key_hex.
  rewrite (fmt_hex_fits 1 2 (key_kind k)), (fmt_hex_fits 1 2 (key_fork k)) by (done || lia).
  rewrite (fmt_hex_fits 4 8 (key_spc k)), (fmt_hex_fits 4 8 (key_db k)),
    (fmt_hex_fits 4 8 (key_rel k)), (fmt_hex_fits 4 8 (key_block k)) by (done || lia).
  done.
Qed.
Lemma zlen_hexf w z : zlen (hexf w z) = Z.of_nat w.
Proof. apply zlen_fix_digits. Qed.
#[export] Hint Rewrite zlen_hexf : len.
Lemma zlen_key_hex k : key_ok k → zlen (key_hex k) = 36.
Proof. intros K. rewrite key_hex_fixed by done. by autorewrite with len. Qed.

Lemma hexf_cmp n w x y :
  w = (2 * n)%nat → fits n x → fits n y → list_cmp (hexf w x) (hexf w y) = ocmp x y.
Proof. intros -> ? ?. unfold hexf. rewrite hex_cmp by by apply fits_hex. done. Qed.

(** The hex form of a key, the one layer object names are made of,
    sorts exactly like the key: comparing two names byte by byte gives the
    order of the keyspace, so distinct keys have distinct names and a
    listing of the store is in key order. *)
Theorem key_hex_sorts_like_key (a b : LayerKey) :
  key_ok a → key_ok b → ocmp (key_hex a) (key_hex b) = ocmp a b.
Proof.
  intros Ka Kb. rewrite !key_hex_fixed by done.
  destruct Ka as (A1 & A2 & A3 & A4 & A5 & A6), Kb as (B1 & B2 & B3 & B4 & B5 & B6).
  unfold ocmp at 1, list_ord.
  rewrite !list_cmp_app_eq by (unfold hexf; by rewrite !length_fix_digits).
  rewrite (hexf_cmp 1 2 (key_kind a)), (hexf_cmp 1 2 (key_fork a)), (hexf_cmp 4 8 (key_spc a)),
    (hexf_cmp 4 8 (key_db a)), (hexf_cmp 4 8 (key_rel a)), (hexf_cmp 4 8 (key_block a)) by done.
  done.
Qed.

Lemma key_hex_sorts_like_key_witness :
  let a := key_page 1663 5 16384 0 255 in
  let b := key_page 1663 5 16384 0 256 in
  ocmp (key_hex a) (key_hex b) = Lt ∧ ocmp (key_encode a) (key_encode b) = Gt.
Proof.
  split; [|by vm_compute].
  rewrite key_hex_sorts_like_key; [by vm_compute|apply (bool_decide_unpack _); by vm_compute..].
Defined.
