(* ===== verification/Layer.v ===== *)
(** * Layer: delta and image layer codecs (crates/zou-store/src/layer.rs)

    The immutable objects of the page store.  A layer is a header, blocks of
    sorted entries each stored compressed or raw, a footer with one index
    row per block and a bloom filter, and a tail with the footer's length
    and checksum.  This file holds the builders and the decoders; the round
    trips are in [LayerBuild]. *)
From S2P Require Import Prelude Order Text Lsn Externals Bloom LayerKey.

Definition LAYER_MAGIC : bytes := str "ZLYR".
Definition LAYER_FOOTER_MAGIC : bytes := str "ZLYF".
Definition LAYER_VERSION : Z := 1.
Definition LAYER_BLOCK_TARGET : Z := 256 * 1024.
Definition PAGE_IMAGE_LEN : Z := 8192.
Definition MAX_RECORD_LEN : Z := 64 * 1024 * 1024.
(** key, lsn, record length prefix of one delta entry *)
Definition ENTRY_FIXED_LEN : Z := KEY_ENCODED_LEN + 8 + 4.
Definition MAX_BLOCK_RAW_LEN : Z := LAYER_BLOCK_TARGET + MAX_RECORD_LEN + ENTRY_FIXED_LEN.
Definition HEADER_LEN : Z := 4 + 2 + 1 + 1.
Definition TAIL_LEN : Z := 4 + 4 + 4.
Definition BLOCK_META_LEN : Z := KEY_ENCODED_LEN * 2 + 8 + 4 + 4 + 4 + 4 + 1.
Definition ENC_RAW : Z := 0.
Definition ENC_LZ4 : Z := 1.

Inductive LayerKind := Delta | Image.
#[global] Instance LayerKind_eq_dec : EqDecision LayerKind.
Proof. solve_decision. Defined.

Record DeltaEntry := mkDelta { de_key : LayerKey; de_lsn : Lsn; de_record : bytes }.
Record ImageEntry := mkImage { ie_key : LayerKey; ie_page : bytes }.
#[global] Instance DeltaEntry_eq_dec : EqDecision DeltaEntry.
Proof. solve_decision. Defined.
#[global] Instance ImageEntry_eq_dec : EqDecision ImageEntry.
Proof. solve_decision. Defined.

(** [LayerBlock]: one index row. *)
Record LayerBlock := mkBlock {
  lb_first : LayerKey;
  lb_last : LayerKey;
  lb_offset : Z;
  lb_len : Z;
  lb_raw_len : Z;
  lb_entries : Z;
  lb_crc : Z;
  lb_enc : Z
}.
#[global] Instance LayerBlock_eq_dec : EqDecision LayerBlock.
Proof. solve_decision. Defined.

Record LayerFooter := mkFooter {
  lf_kind : LayerKind;
  lf_min_key : LayerKey;
  lf_max_key : LayerKey;
  lf_min_lsn : Lsn;
  lf_max_lsn : Lsn;
  lf_entry_count : Z;
  lf_blocks : list LayerBlock;
  lf_bloom : Bloom
}.
#[global] Instance LayerFooter_eq_dec : EqDecision LayerFooter.
Proof. solve_decision. Defined.

Inductive LayerBuildError :=
  | BuildEmpty
  | BuildUnsorted
  | BadPageLen (len : Z)
  | RecordTooLarge.

Inductive LayerDecodeError :=
  | LTruncated (have need : Z)
  | LBadMagic
  | LUnsupportedVersion (found : Z)
  | LWrongKind (expected found : LayerKind)
  | LCorrupt
  | LBlock (index : Z).

Definition kind_code (k : LayerKind) : Z := match k with Delta => 0 | Image => 1 end.

(** [header(kind)] *)
Definition header (kind : LayerKind) : bytes :=
  LAYER_MAGIC ++ le_bytes 2 LAYER_VERSION ++ [byte_of_Z (kind_code kind)] ++ [Byte.x00].

(** [LayerFooter::locate]: the run of blocks whose key ranges cover [key]. *)
Fixpoint skip_while {A} (p : A → bool) (l : list A) : list A :=
  match l with
  | [] => []
  | x :: l' => if p x then skip_while p l' else l
  end.
Fixpoint take_while {A} (p : A → bool) (l : list A) : list A :=
  match l with
  | [] => []
  | x :: l' => if p x then x :: take_while p l' else []
  end.
(** [v.partition_point(p)]: binary search for the end of the prefix on
    which [p] holds; on a list partitioned by [p] it is that prefix. *)
Definition locate (f : LayerFooter) (key : LayerKey) : list LayerBlock :=
  take_while (λ b, oleb (lb_first b) key)
    (skip_while (λ b, oltb (lb_last b) key) (lf_blocks f)).

Section codec.
Context `{Crc, Lz4}.

(** [LayerFooter::may_contain] *)
Definition footer_may_contain (f : LayerFooter) (key : LayerKey) : bool :=
  may_contain (lf_bloom f) (key_encode key).

(** A block as stored, with its encoding byte. *)
Definition store_block (raw : bytes) : Z * bytes :=
  let compressed := lz4_compress raw in
  if zlen compressed <? zlen raw then (ENC_LZ4, compressed) else (ENC_RAW, raw).

(** [push_block]: the object so far and its index, one block longer. *)
Definition push_block (buf : bytes) (blocks : list LayerBlock) (raw : bytes)
    (first_key last_key : LayerKey) (entries : Z) : bytes * list LayerBlock :=
  let '(enc, stored) := store_block raw in
  (buf ++ stored,
   blocks ++ [mkBlock first_key last_key (zlen buf) (as_u32 (zlen stored))
                (as_u32 (zlen raw)) entries (crc32c stored) enc]).

Definition encode_block_meta (b : LayerBlock) : bytes :=
  key_encode (lb_first b) ++ key_encode (lb_last b) ++ le_bytes 8 (lb_offset b) ++
  le_bytes 4 (lb_len b) ++ le_bytes 4 (lb_raw_len b) ++ le_bytes 4 (lb_entries b) ++
  le_bytes 4 (lb_crc b) ++ [byte_of_Z (lb_enc b)].

Definition encode_footer (f : LayerFooter) : bytes :=
  key_encode (lf_min_key f) ++ key_encode (lf_max_key f) ++
  le_bytes 8 (lf_min_lsn f) ++ le_bytes 8 (lf_max_lsn f) ++
  le_bytes 8 (lf_entry_count f) ++ le_bytes 4 (zlen (lf_blocks f)) ++
  concat (encode_block_meta <$> lf_blocks f) ++
  le_bytes 4 (zlen (bloom_bits (lf_bloom f))) ++ bloom_bits (lf_bloom f).

(** [finish(buf, kind, blocks, bloom, min_lsn, max_lsn, entry_count)] *)
Definition finish {E} (buf : bytes) (kind : LayerKind) (blocks : list LayerBlock)
    (bloom : Bloom) (min_lsn max_lsn : Lsn) (entry_count : Z) : res E (bytes * LayerFooter) :=
  first ← expect (head blocks);
  final ← expect (last blocks);
  let footer := mkFooter kind (lb_first first) (lb_last final) min_lsn max_lsn
                  entry_count blocks bloom in
  let body := encode_footer footer in
  hdr ← slice buf 0 HEADER_LEN;
  let crc := crc32c_append (crc32c hdr) body in
  mret (buf ++ body ++ le_bytes 4 (zlen body) ++ le_bytes 4 crc ++ LAYER_FOOTER_MAGIC, footer).

(** ** The delta builder *)
Record DeltaBuilder := mkDB {
  db_buf : bytes;
  db_blocks : list LayerBlock;
  db_hashes : list (Z * Z);
  db_raw : bytes;
  db_target : Z;
  db_first : LayerKey;
  db_last : option (LayerKey * Lsn);
  db_count : Z;
  db_total : Z;
  db_min_lsn : Lsn;
  db_max_lsn : Lsn
}.

(** [DeltaBuilder::new] *)
Definition delta_new (block_target : Z) : DeltaBuilder :=
  mkDB (header Delta) [] [] [] block_target (key_page 0 0 0 0 0) None 0 0 u64_max 0.

Definition encode_delta_entry (e : DeltaEntry) : bytes :=
  key_encode (de_key e) ++ le_bytes 8 (de_lsn e) ++
  le_bytes 4 (zlen (de_record e)) ++ de_record e.

(** [DeltaBuilder::push] *)
Definition delta_push (b : DeltaBuilder) (key : LayerKey) (lsn : Lsn) (record : bytes) :
    res LayerBuildError DeltaBuilder :=
  _ ← guard_err (match db_last b with Some p => oleb (key, lsn) p | None => false end)
        BuildUnsorted;
  _ ← guard_err (MAX_RECORD_LEN <? zlen record) RecordTooLarge;
  let first := match db_last b with None => key | Some _ => db_first b end in
  let hashes :=
    if match db_last b with None => true | Some (prev, _) => negb (bool_decide (prev = key)) end
    then db_hashes b ++ [bloom_hash (key_encode key)] else db_hashes b in
  '(buf, blocks, raw, count, first) ←
    (if negb (bool_decide (db_raw b = [])) &&
        (db_target b <? zlen (db_raw b) + ENTRY_FIXED_LEN + zlen record)
     then
       last ← expect (db_last b);
       let '(buf, blocks) :=
         push_block (db_buf b) (db_blocks b) (db_raw b) first last.1 (db_count b) in
       mret (buf, blocks, [], 0, key)
     else mret (db_buf b, db_blocks b, db_raw b, db_count b, first));
  mret (mkDB buf blocks hashes (raw ++ encode_delta_entry (mkDelta key lsn record))
          (db_target b) first (Some (key, lsn)) (count + 1) (db_total b + 1)
          (Z.min (db_min_lsn b) lsn) (Z.max (db_max_lsn b) lsn)).

(** [DeltaBuilder::finish] *)
Definition delta_finish (b : DeltaBuilder) : res LayerBuildError (bytes * LayerFooter) :=
  '(last_key, _) ← ok_or (db_last b) BuildEmpty;
  let '(buf, blocks) :=
    push_block (db_buf b) (db_blocks b) (db_raw b) (db_first b) last_key (db_count b) in
  finish buf Delta blocks (from_hashes (db_hashes b)) (db_min_lsn b) (db_max_lsn b) (db_total b).

Fixpoint delta_push_all (b : DeltaBuilder) (es : list DeltaEntry) : res LayerBuildError DeltaBuilder :=
  match es with
  | [] => mret b
  | e :: es => b ← delta_push b (de_key e) (de_lsn e) (de_record e); delta_push_all b es
  end.
(** [build_delta] *)
Definition build_delta (es : list DeltaEntry) (block_target : Z) :
    res LayerBuildError (bytes * LayerFooter) :=
  b ← delta_push_all (delta_new block_target) es;
  delta_finish b.

(** ** The image builder *)
Record ImageBuilder := mkIB {
  ib_buf : bytes;
  ib_blocks : list LayerBlock;
  ib_hashes : list (Z * Z);
  ib_raw : bytes;
  ib_target : Z;
  ib_lsn : Lsn;
  ib_first : LayerKey;
  ib_last : option LayerKey;
  ib_count : Z;
  ib_total : Z
}.

(** [ImageBuilder::new] *)
Definition image_new (lsn : Lsn) (block_target : Z) : ImageBuilder :=
  mkIB (header Image) [] [] [] block_target lsn (key_page 0 0 0 0 0) None 0 0.

Definition encode_image_entry (e : ImageEntry) : bytes :=
  key_encode (ie_key e) ++ ie_page e.

(** [ImageBuilder::push] *)
Definition image_push (b : ImageBuilder) (key : LayerKey) (page : bytes) :
    res LayerBuildError ImageBuilder :=
  _ ← guard_err (match ib_last b with Some p => oleb key p | None => false end) BuildUnsorted;
  _ ← guard_err (negb (zlen page =? PAGE_IMAGE_LEN)) (BadPageLen (zlen page));
  let first := match ib_last b with None => key | Some _ => ib_first b end in
  let hashes := ib_hashes b ++ [bloom_hash (key_encode key)] in
  '(buf, blocks, raw, count, first) ←
    (if negb (bool_decide (ib_raw b = [])) &&
        (ib_target b <? zlen (ib_raw b) + KEY_ENCODED_LEN + PAGE_IMAGE_LEN)
     then
       last_key ← expect (ib_last b);
       let '(buf, blocks) :=
         push_block (ib_buf b) (ib_blocks b) (ib_raw b) first last_key (ib_count b) in
       mret (buf, blocks, [], 0, key)
     else mret (ib_buf b, ib_blocks b, ib_raw b, ib_count b, first));
  mret (mkIB buf blocks hashes (raw ++ encode_image_entry (mkImage key page))
          (ib_target b) (ib_lsn b) first (Some key) (count + 1) (ib_total b + 1)).

(** [ImageBuilder::bytes] *)
Definition image_bytes (b : ImageBuilder) : Z := zlen (ib_buf b) + zlen (ib_raw b).

(** [ImageBuilder::finish] *)
Definition image_finish (b : ImageBuilder) : res LayerBuildError (bytes * LayerFooter) :=
  last_key ← ok_or (ib_last b) BuildEmpty;
  let '(buf, blocks) :=
    push_block (ib_buf b) (ib_blocks b) (ib_raw b) (ib_first b) last_key (ib_count b) in
  finish buf Image blocks (from_hashes (ib_hashes b)) (ib_lsn b) (ib_lsn b) (ib_total b).

Fixpoint image_push_all (b : ImageBuilder) (es : list ImageEntry) : res LayerBuildError ImageBuilder :=
  match es with
  | [] => mret b
  | e :: es => b ← image_push b (ie_key e) (ie_page e); image_push_all b es
  end.
(** [build_image] *)
Definition build_image (es : list ImageEntry) (lsn : Lsn) (block_target : Z) :
    res LayerBuildError (bytes * LayerFooter) :=
  b ← image_push_all (image_new lsn block_target) es;
  image_finish b.

(** ** Decoding *)
Abbreviation dres := (res LayerDecodeError).

(** [parse_header] *)
Definition parse_header (h : bytes) : dres LayerKind :=
  _ ← guard_err (zlen h <? HEADER_LEN) (LTruncated (zlen h) HEADER_LEN);
  m ← slice h 0 4;
  _ ← guard_err (negb (bool_decide (m = LAYER_MAGIC))) LBadMagic;
  version ← le_at 2 h 4;
  _ ← guard_err (negb (version =? LAYER_VERSION)) (LUnsupportedVersion version);
  k ← index h 6;
  if bval k =? 0 then mret Delta
  else if bval k =? 1 then mret Image
  else Err LCorrupt.

(** One index row off the cursor. *)
Definition read_block_meta (rest : bytes) : dres (LayerBlock * bytes) :=
  '(k1, rest) ← take_n LCorrupt KEY_ENCODED_LEN rest;
  '(k2, rest) ← take_n LCorrupt KEY_ENCODED_LEN rest;
  '(fixed, rest) ← take_n LCorrupt (BLOCK_META_LEN - 2 * KEY_ENCODED_LEN) rest;
  mret (mkBlock (key_decode k1) (key_decode k2)
          (le_val (sub fixed 0 8)) (le_val (sub fixed 8 12)) (le_val (sub fixed 12 16))
          (le_val (sub fixed 16 20)) (le_val (sub fixed 20 24)) (le_val (sub fixed 24 25)),
        rest).

(** Image blocks are disjoint; delta blocks may share a boundary key. *)
Definition overlaps (kind : LayerKind) (p b : LayerBlock) : bool :=
  match kind with
  | Image => oleb (lb_first b) (lb_last p)
  | Delta => oltb (lb_first b) (lb_last p)
  end.

Definition bad_block (kind : LayerKind) (expect_at : Z) (prev : option LayerBlock)
    (b : LayerBlock) : bool :=
  negb (lb_offset b =? expect_at) ||
  (lb_entries b =? 0) ||
  oltb (lb_last b) (lb_first b) ||
  (MAX_BLOCK_RAW_LEN <? lb_raw_len b) ||
  (negb (lb_enc b =? ENC_RAW) && negb (lb_enc b =? ENC_LZ4)) ||
  ((lb_enc b =? ENC_RAW) && negb (lb_len b =? lb_raw_len b)) ||
  match prev with Some p => overlaps kind p b | None => false end.

(** The index loop: the rows, where the last one ends, and the entry sum. *)
Fixpoint read_blocks (kind : LayerKind) (count : nat) (rest : bytes)
    (expect_at entry_sum : Z) (blocks : list LayerBlock) :
    dres (list LayerBlock * Z * Z * bytes) :=
  match count with
  | O => mret (blocks, expect_at, entry_sum, rest)
  | S count =>
      '(b, rest) ← read_block_meta rest;
      _ ← guard_err (bad_block kind expect_at (last blocks) b) LCorrupt;
      _ ← guard_err (u64_max <? expect_at + lb_len b) LCorrupt;
      read_blocks kind count rest (expect_at + lb_len b) (entry_sum + lb_entries b) (blocks ++ [b])
  end.

(** [parse_footer_body] *)
Definition parse_footer_body (kind : LayerKind) (body : bytes) (footer_start : Z) :
    dres LayerFooter :=
  '(k1, rest) ← take_n LCorrupt KEY_ENCODED_LEN body;
  '(k2, rest) ← take_n LCorrupt KEY_ENCODED_LEN rest;
  '(l1, rest) ← take_n LCorrupt 8 rest;
  '(l2, rest) ← take_n LCorrupt 8 rest;
  '(ec, rest) ← take_n LCorrupt 8 rest;
  '(bc, rest) ← take_n LCorrupt 4 rest;
  let min_key := key_decode k1 in
  let max_key := key_decode k2 in
  let min_lsn := le_val l1 in
  let max_lsn := le_val l2 in
  let entry_count := le_val ec in
  let block_count := le_val bc in
  _ ← guard_err ((block_count =? 0) || (zlen rest / BLOCK_META_LEN <? block_count)) LCorrupt;
  '(blocks, expect_at, entry_sum, rest) ←
    read_blocks kind (Z.to_nat block_count) rest HEADER_LEN 0 [];
  _ ← guard_err (negb (expect_at =? footer_start) || negb (entry_sum =? entry_count)) LCorrupt;
  first ← expect (head blocks);
  final ← expect (last blocks);
  _ ← guard_err (negb (bool_decide (min_key = lb_first first)) ||
                 negb (bool_decide (max_key = lb_last final)) ||
                 (max_lsn <? min_lsn)) LCorrupt;
  '(bl, rest) ← take_n LCorrupt 4 rest;
  let bloom_len := le_val bl in
  _ ← guard_err (zlen rest <? bloom_len) LCorrupt;
  '(bits, rest) ← take_n LCorrupt bloom_len rest;
  bloom ← ok_or (from_bits bits) LCorrupt;
  _ ← guard_err (negb (bool_decide (rest = []))) LCorrupt;
  mret (mkFooter kind min_key max_key min_lsn max_lsn entry_count blocks bloom).

(** [parse_shell]: the footer of a whole object and where it starts. *)
Definition parse_shell (buf : bytes) : dres (LayerFooter * Z) :=
  _ ← guard_err (zlen buf <? HEADER_LEN + TAIL_LEN) (LTruncated (zlen buf) (HEADER_LEN + TAIL_LEN));
  hdr ← slice buf 0 HEADER_LEN;
  kind ← parse_header hdr;
  magic ← slice buf (zlen buf - 4) (zlen buf);
  _ ← guard_err (negb (bool_decide (magic = LAYER_FOOTER_MAGIC))) LBadMagic;
  tail_at ← usub (zlen buf) TAIL_LEN;
  footer_len ← le_at 4 buf tail_at;
  stored_crc ← le_at 4 buf (tail_at + 4);
  room ← usub tail_at HEADER_LEN;
  _ ← guard_err (room <? footer_len) LCorrupt;
  footer_start ← usub tail_at footer_len;
  body ← slice buf footer_start tail_at;
  let crc := crc32c_append (crc32c hdr) body in
  _ ← guard_err (negb (crc =? stored_crc)) LCorrupt;
  footer ← parse_footer_body kind body footer_start;
  mret (footer, footer_start).

(** [read_layer_footer] *)
Definition read_layer_footer (buf : bytes) : dres LayerFooter :=
  '(footer, _) ← parse_shell buf; mret footer.

(** [read_layer_footer_suffix]: the footer from the last bytes of an object
    of length [object_len], the header named by [kind]. *)
Definition read_layer_footer_suffix (kind : LayerKind) (suffix : bytes) (object_len : Z) :
    dres LayerFooter :=
  let hdr := header kind in
  _ ← guard_err ((zlen suffix <? TAIL_LEN) || (object_len <? zlen suffix))
        (LTruncated (zlen suffix) TAIL_LEN);
  magic ← slice suffix (zlen suffix - 4) (zlen suffix);
  _ ← guard_err (negb (bool_decide (magic = LAYER_FOOTER_MAGIC))) LBadMagic;
  tail_at ← usub (zlen suffix) TAIL_LEN;
  footer_len ← le_at 4 suffix tail_at;
  stored_crc ← le_at 4 suffix (tail_at + 4);
  let need := footer_len + TAIL_LEN in
  room ← usub object_len HEADER_LEN;
  _ ← guard_err (room <? need) LCorrupt;
  _ ← guard_err (zlen suffix <? need) (LTruncated (zlen suffix) need);
  body_at ← usub (zlen suffix) need;
  body ← slice suffix body_at tail_at;
  h ← slice hdr 0 HEADER_LEN;
  let crc := crc32c_append (crc32c h) body in
  _ ← guard_err (negb (crc =? stored_crc)) LCorrupt;
  footer_start ← usub object_len need;
  parse_footer_body kind body footer_start.

(** [block_raw]: one block's bytes, verified and uncompressed. *)
Definition block_raw (b : bytes) (meta : LayerBlock) : dres bytes :=
  _ ← guard_err (negb (zlen b =? lb_len meta) || (MAX_BLOCK_RAW_LEN <? lb_raw_len meta) ||
                 negb (crc32c b =? lb_crc meta)) LCorrupt;
  raw ←
    (if (lb_enc meta =? ENC_RAW) && (lb_len meta =? lb_raw_len meta) then mret b
     else if lb_enc meta =? ENC_LZ4 then ok_or (lz4_decompress b (lb_raw_len meta)) LCorrupt
     else Err LCorrupt);
  _ ← guard_err (negb (zlen raw =? lb_raw_len meta)) LCorrupt;
  mret raw.

Definition read_delta_entry (rest : bytes) : dres (DeltaEntry * bytes) :=
  '(fixed, rest) ← take_n LCorrupt ENTRY_FIXED_LEN rest;
  let len := le_val (sub fixed 26 30) in
  _ ← guard_err (MAX_RECORD_LEN <? len) LCorrupt;
  '(record, rest) ← take_n LCorrupt len rest;
  mret (mkDelta (key_decode (sub fixed 0 KEY_ENCODED_LEN)) (le_val (sub fixed 18 26)) record, rest).

Definition delta_pos (e : DeltaEntry) : LayerKey * Lsn := (de_key e, de_lsn e).

Fixpoint read_delta_entries (n : nat) (rest : bytes) (entries : list DeltaEntry) :
    dres (list DeltaEntry * bytes) :=
  match n with
  | O => mret (entries, rest)
  | S n =>
      '(e, rest) ← read_delta_entry rest;
      _ ← guard_err (match last entries with
                     | Some p => oleb (delta_pos e) (delta_pos p)
                     | None => false end) LCorrupt;
      read_delta_entries n rest (entries ++ [e])
  end.

(** [decode_delta_block] *)
Definition decode_delta_block (b : bytes) (meta : LayerBlock) : dres (list DeltaEntry) :=
  raw ← block_raw b meta;
  '(entries, rest) ← read_delta_entries (Z.to_nat (lb_entries meta)) raw [];
  _ ← guard_err (negb (bool_decide (rest = [])) ||
                 negb (bool_decide (de_key <$> head entries = Some (lb_first meta))) ||
                 negb (bool_decide (de_key <$> last entries = Some (lb_last meta)))) LCorrupt;
  mret entries.

Fixpoint read_image_entries (n : nat) (rest : bytes) (entries : list ImageEntry) :
    dres (list ImageEntry * bytes) :=
  match n with
  | O => mret (entries, rest)
  | S n =>
      '(chunk, rest) ← take_n LCorrupt (KEY_ENCODED_LEN + PAGE_IMAGE_LEN) rest;
      let key := key_decode (sub chunk 0 KEY_ENCODED_LEN) in
      _ ← guard_err (match last entries with Some p => oleb key (ie_key p) | None => false end)
            LCorrupt;
      read_image_entries n rest
        (entries ++ [mkImage key (drop (Z.to_nat KEY_ENCODED_LEN) chunk)])
  end.

(** [decode_image_block] *)
Definition decode_image_block (b : bytes) (meta : LayerBlock) : dres (list ImageEntry) :=
  raw ← block_raw b meta;
  let stride := KEY_ENCODED_LEN + PAGE_IMAGE_LEN in
  _ ← guard_err (negb (zlen raw =? lb_entries meta * stride)) LCorrupt;
  '(entries, _) ← read_image_entries (Z.to_nat (lb_entries meta)) raw [];
  _ ← guard_err (negb (bool_decide (ie_key <$> head entries = Some (lb_first meta))) ||
                 negb (bool_decide (ie_key <$> last entries = Some (lb_last meta)))) LCorrupt;
  mret entries.

Definition check_kind (f : LayerFooter) (expected : LayerKind) : dres () :=
  guard_err (negb (bool_decide (lf_kind f = expected))) (LWrongKind expected (lf_kind f)).

(** The bytes of one block in the whole object. *)
Definition block_bytes (buf : bytes) (meta : LayerBlock) : dres bytes :=
  slice buf (lb_offset meta) (lb_offset meta + lb_len meta).

Fixpoint decode_delta_blocks (buf : bytes) (index : Z) (blocks : list LayerBlock)
    (entries : list DeltaEntry) : dres (list DeltaEntry) :=
  match blocks with
  | [] => mret entries
  | meta :: blocks =>
      b ← block_bytes buf meta;
      block ← map_err (λ _, LBlock index) (decode_delta_block b meta);
      _ ← guard_err (match last entries, head block with
                     | Some prev, Some first => oleb (delta_pos first) (delta_pos prev)
                     | _, _ => false end) (LBlock index);
      decode_delta_blocks buf (index + 1) blocks (entries ++ block)
  end.
(** [decode_delta] *)
Definition decode_delta (buf : bytes) : dres (list DeltaEntry * LayerFooter) :=
  '(footer, _) ← parse_shell buf;
  _ ← check_kind footer Delta;
  entries ← decode_delta_blocks buf 0 (lf_blocks footer) [];
  mret (entries, footer).

Fixpoint decode_image_blocks (buf : bytes) (index : Z) (blocks : list LayerBlock)
    (entries : list ImageEntry) : dres (list ImageEntry) :=
  match blocks with
  | [] => mret entries
  | meta :: blocks =>
      b ← block_bytes buf meta;
      block ← map_err (λ _, LBlock index) (decode_image_block b meta);
      decode_image_blocks buf (index + 1) blocks (entries ++ block)
  end.
(** [decode_image] *)
Definition decode_image (buf : bytes) : dres (list ImageEntry * LayerFooter) :=
  '(footer, _) ← parse_shell buf;
  _ ← check_kind footer Image;
  entries ← decode_image_blocks buf 0 (lf_blocks footer) [];
  mret (entries, footer).
End codec.

#[global] Arguments build_delta : simpl never.
#[global] Arguments build_image : simpl never.
