(* ===== verification/LayerBuild.v ===== *)
(** * LayerBuild: a layer reads back as what was built

    The footer codec, the block codec, the invariant of the builders, and
    the round trips of whole layers.

    A builder that has taken the entries [es] holds them as closed blocks
    [gs] and an open block [cur] with [es = concat gs ++ cur].  The first
    half of the file is about such a grouping for any kind of entry; the
    second gives the invariants of the delta and the image builder and
    shows that every push and finish goes through. *)
From S2P Require Import Prelude Order Text Lsn Externals Bloom LayerKey Layer.

Definition sum_len (bs : list LayerBlock) : Z := foldr (λ b n, lb_len b + n) 0 bs.
Definition sum_entries (bs : list LayerBlock) : Z := foldr (λ b n, lb_entries b + n) 0 bs.

Definition block_ok (b : LayerBlock) : Prop :=
  key_ok (lb_first b) ∧ key_ok (lb_last b) ∧ fits 8 (lb_offset b) ∧ fits 4 (lb_len b) ∧
  fits 4 (lb_raw_len b) ∧ fits 4 (lb_entries b) ∧ fits 4 (lb_crc b) ∧ fits 1 (lb_enc b).

(** The checks of the index loop, row after row. *)
Fixpoint rows_ok (kind : LayerKind) (expect_at : Z) (prev : option LayerBlock)
    (bs : list LayerBlock) : Prop :=
  match bs with
  | [] => True
  | b :: bs => bad_block kind expect_at prev b = false ∧ expect_at + lb_len b ≤ u64_max ∧
               rows_ok kind (expect_at + lb_len b) (Some b) bs
  end.

(** Everything the decoder checks about a footer that starts at [start]. *)
Record footer_ok (f : LayerFooter) (start : Z) : Prop := {
  fo_keys : key_ok (lf_min_key f) ∧ key_ok (lf_max_key f);
  fo_lsns : fits 8 (lf_min_lsn f) ∧ fits 8 (lf_max_lsn f) ∧ lf_min_lsn f ≤ lf_max_lsn f;
  fo_count : fits 8 (lf_entry_count f) ∧ sum_entries (lf_blocks f) = lf_entry_count f;
  fo_blocks : Forall block_ok (lf_blocks f) ∧ fits 4 (zlen (lf_blocks f));
  fo_rows : rows_ok (lf_kind f) HEADER_LEN None (lf_blocks f);
  fo_start : HEADER_LEN + sum_len (lf_blocks f) = start;
  fo_min : lb_first <$> head (lf_blocks f) = Some (lf_min_key f);
  fo_max : lb_last <$> last (lf_blocks f) = Some (lf_max_key f);
  fo_bloom : from_bits (bloom_bits (lf_bloom f)) = Some (lf_bloom f) ∧
             fits 4 (zlen (bloom_bits (lf_bloom f)))
}.

Lemma zlen_encode_block_meta b : zlen (encode_block_meta b) = 61.
Proof. unfold encode_block_meta. by autorewrite with len. Qed.
#[export] Hint Rewrite zlen_encode_block_meta : len.
Lemma zlen_concat_metas bs : zlen (concat (encode_block_meta <$> bs)) = 61 * zlen bs.
Proof.
  induction bs as [|b bs IH]; [done|]. rewrite fmap_cons. cbn [concat]. zlen_lia.
Qed.
#[export] Hint Rewrite zlen_concat_metas : len.

Lemma read_block_meta_encoded b rest :
  block_ok b → read_block_meta (encode_block_meta b ++ rest) = Ok (b, rest).
Proof.
  intros (K1 & K2 & F1 & F2 & F3 & F4 & F5 & F6).
  unfold read_block_meta, encode_block_meta, BLOCK_META_LEN, KEY_ENCODED_LEN.
  rewrite <-!app_assoc. rewrite take_n_app, bind_run by zlen_lia.
  rewrite take_n_app, bind_run by zlen_lia.
  rewrite 5!app_assoc. rewrite take_n_app, bind_run by zlen_lia.
  rewrite <-(app_nil_r (key_encode (lb_first b))), <-(app_nil_r (key_encode (lb_last b))).
  rewrite !key_decode_encode by done. rewrite <-!app_assoc, byte_le_bytes.
  rewrite <-(app_nil_r (le_bytes 1 _)).
  destruct b as [k1 k2 o l r n c e].
  cbn [lb_first lb_last lb_offset lb_len lb_raw_len lb_entries lb_crc lb_enc] in *.
  unfold mret, res_ret. do 2 f_equal. f_equal; vfield.
Qed.

Lemma read_blocks_encoded kind bs rest expect_at sum acc :
  Forall block_ok bs → rows_ok kind expect_at (last acc) bs →
  read_blocks kind (length bs) (concat (encode_block_meta <$> bs) ++ rest) expect_at sum acc =
  Ok (acc ++ bs, expect_at + sum_len bs, sum + sum_entries bs, rest).
Proof.
  intros F. revert expect_at sum acc. induction F as [|b bs Hb F IH]; intros at_ sum acc R.
  - simpl. by rewrite app_nil_r, !Z.add_0_r.
  - destruct R as (R1 & R2 & R3). rewrite fmap_cons. cbn [length read_blocks concat].
    rewrite <-app_assoc, read_block_meta_encoded, bind_run by done.
    rewrite guard_run by done. rewrite guard_run by (zbool; done).
    rewrite IH by (rewrite last_snoc; done).
    rewrite <-app_assoc. cbn [app].
    change (sum_len (b :: bs)) with (lb_len b + sum_len bs).
    change (sum_entries (b :: bs)) with (lb_entries b + sum_entries bs).
    by rewrite !Z.add_assoc.
Qed.

Lemma parse_footer_encoded f start :
  footer_ok f start → parse_footer_body (lf_kind f) (encode_footer f) start = Ok f.
Proof.
  intros [[K1 K2] (L1 & L2 & L3) [C1 C2] [B1 B2] R S Mn Mx [W1 W2]].
  unfold parse_footer_body, encode_footer, KEY_ENCODED_LEN.
  do 6 (rewrite take_n_app, bind_run by zlen_lia).
  cbv zeta. rewrite !le_val_bytes by done.
  destruct (head (lf_blocks f)) as [b0|] eqn:E0; [|done].
  destruct (last (lf_blocks f)) as [b1|] eqn:E1; [|done].
  assert (0 < zlen (lf_blocks f)).
  { destruct (lf_blocks f); [done|]. rewrite zlen_cons. zlen_lia. }
  rewrite guard_run; cycle 1.
  { zbool; [lia|]. unfold BLOCK_META_LEN, KEY_ENCODED_LEN.
    apply Z.div_le_lower_bound; zlen_lia. }
  rewrite to_nat_zlen, read_blocks_encoded, bind_run by done.
  cbv iota beta. cbn [app].
  rewrite guard_run by (zbool; lia).
  rewrite E0, E1. cbn [expect]. rewrite !bind_run.
  rewrite <-(app_nil_r (key_encode (lf_min_key f))), <-(app_nil_r (key_encode (lf_max_key f))).
  rewrite !key_decode_encode by done.
  cbn in Mn, Mx. rewrite guard_run; cycle 1.
  { rewrite !bool_decide_true by congruence. simpl. zbool. lia. }
  rewrite take_n_app, bind_run by zlen_lia. rewrite le_val_bytes by done.
  rewrite guard_run by (zbool; lia).
  rewrite <-(app_nil_r (bloom_bits (lf_bloom f))) at 2.
  rewrite take_n_app, bind_run by done. rewrite W1. cbn [ok_or]. rewrite bind_run.
  rewrite guard_run by done. by destruct f.
Qed.

(** ** The shell: header, footer and tail *)
Section shell.
Context `{CrcOk, Lz4Ok}.

Lemma zlen_header kind : zlen (header kind) = 8.
Proof. by destruct kind. Qed.
Lemma parse_header_header kind : parse_header (header kind) = Ok kind.
Proof. by destruct kind; vm_compute. Qed.
Lemma zlen_footer_magic : zlen LAYER_FOOTER_MAGIC = 4.
Proof. done. Qed.
Hint Rewrite zlen_header zlen_footer_magic : len.

(** The footer body, its length, the checksum over header and body, magic. *)
Definition footer_tail (f : LayerFooter) : bytes :=
  let body := encode_footer f in
  body ++ le_bytes 4 (zlen body) ++
  le_bytes 4 (crc32c_append (crc32c (header (lf_kind f))) body) ++ LAYER_FOOTER_MAGIC.
Lemma zlen_footer_tail f : zlen (footer_tail f) = zlen (encode_footer f) + 12.
Proof. unfold footer_tail. zlen_lia. Qed.
Hint Rewrite zlen_footer_tail : len.

(** The tail of any object that ends in a footer tail. *)
Lemma tail_fields pre f :
  fits 4 (zlen (encode_footer f)) →
  let obj := pre ++ footer_tail f in
  let tail_at := zlen obj - TAIL_LEN in
  sub obj (zlen obj - 4) (zlen obj) = LAYER_FOOTER_MAGIC ∧
  @le_at LayerDecodeError 4 obj tail_at = Ok (zlen (encode_footer f)) ∧
  @le_at LayerDecodeError 4 obj (tail_at + 4) =
    Ok (crc32c_append (crc32c (header (lf_kind f))) (encode_footer f)) ∧
  sub obj (zlen pre) tail_at = encode_footer f.
Proof.
  intros F obj tail_at.
  pose proof (crc32c_append_fits (crc32c (header (lf_kind f))) (encode_footer f)) as Fc.
  assert (L : zlen obj = zlen pre + zlen (encode_footer f) + 12) by (unfold obj; zlen_lia).
  unfold tail_at, TAIL_LEN. rewrite L. clear tail_at L. unfold obj, footer_tail. split_and!.
  - rewrite !app_assoc. apply sub_suffix; zlen_lia.
  - rewrite app_assoc. apply le_at_field; [zlen_lia|done].
  - rewrite 2!app_assoc. apply le_at_field; [zlen_lia|done].
  - apply sub_mid; zlen_lia.
Qed.

Lemma parse_shell_encoded mid f :
  let start := 8 + zlen mid in
  footer_ok f start → fits 4 (zlen (encode_footer f)) →
  parse_shell (header (lf_kind f) ++ mid ++ footer_tail f) = Ok (f, start).
Proof.
  intros start Fo F. rewrite app_assoc.
  set (pre := header (lf_kind f) ++ mid).
  assert (Lp : zlen pre = start) by (unfold pre, start; zlen_lia).
  destruct (tail_fields pre f F) as (T1 & T2 & T3 & T4).
  set (obj := pre ++ footer_tail f) in *.
  assert (L : zlen obj = start + zlen (encode_footer f) + 12) by (unfold obj; zlen_lia).
  assert (0 ≤ zlen mid) by apply zlen_nonneg.
  pose proof (zlen_nonneg (encode_footer f)).
  unfold parse_shell, HEADER_LEN, TAIL_LEN in *.
  rewrite guard_run by (zbool; lia). rewrite slice_run by lia.
  assert (Eh : sub obj 0 (4 + 2 + 1 + 1) = header (lf_kind f)).
  { unfold obj, pre. rewrite <-!app_assoc. apply sub_prefix. by rewrite zlen_header. }
  rewrite Eh, parse_header_header, bind_run.
  rewrite slice_run by lia. rewrite T1. rewrite guard_run by by rewrite bool_decide_true.
  rewrite usub_run by lia. rewrite T2, bind_run, T3, bind_run.
  rewrite usub_run by lia. rewrite guard_run by (zbool; lia).
  rewrite usub_run by lia. rewrite slice_run by lia.
  replace (zlen obj - (4 + 4 + 4) - zlen (encode_footer f)) with start by lia.
  rewrite Lp in T4. rewrite T4. cbv zeta. rewrite guard_run by (zbool; done).
  rewrite (parse_footer_encoded f start Fo). done.
Qed.

(** A suffix read of the same object. *)
Lemma suffix_encoded mid f n :
  let obj := header (lf_kind f) ++ mid ++ footer_tail f in
  footer_ok f (8 + zlen mid) → fits 4 (zlen (encode_footer f)) →
  12 ≤ n ≤ zlen obj →
  let need := zlen (encode_footer f) + 12 in
  read_layer_footer_suffix (lf_kind f) (drop (Z.to_nat (zlen obj - n)) obj) (zlen obj) =
  if n <? need then Err (LTruncated n need) else Ok f.
Proof.
  intros obj Fo F Hn need.
  pose proof (zlen_nonneg mid). pose proof (zlen_nonneg (encode_footer f)).
  assert (L : zlen obj = 8 + zlen mid + need) by (unfold obj, need; zlen_lia).
  set (sfx := drop (Z.to_nat (zlen obj - n)) obj).
  assert (Ls : zlen sfx = n) by (unfold sfx; rewrite zlen_drop; lia).
  destruct (tail_fields (header (lf_kind f) ++ mid) f F) as (T1 & T2 & T3 & T4).
  rewrite <-app_assoc in T1, T2, T3, T4. fold obj in T1, T2, T3, T4.
  assert (Sb : ∀ a b, 0 ≤ a ≤ b → b ≤ n → sub sfx a b = sub obj (zlen obj - n + a) (zlen obj - n + b)).
  { intros a b ? ?. unfold sfx, sub. rewrite drop_drop. f_equal; [lia|]. f_equal. lia. }
  assert (La : ∀ a, 0 ≤ a → a + 4 ≤ n →
    @le_at LayerDecodeError 4 sfx a = le_at 4 obj (zlen obj - n + a)).
  { intros a ? ?. unfold le_at. rewrite !slice_ok by lia. simpl. rewrite Sb by lia.
    do 3 f_equal. lia. }
  unfold read_layer_footer_suffix, TAIL_LEN, HEADER_LEN in *. rewrite Ls.
  rewrite guard_run by (zbool; lia). rewrite slice_run by lia. rewrite Sb by lia.
  replace (zlen obj - n + (n - 4)) with (zlen obj - 4) by lia.
  replace (zlen obj - n + n) with (zlen obj) by lia. rewrite T1.
  rewrite guard_run by by rewrite bool_decide_true.
  rewrite usub_run by lia. rewrite !La by lia.
  replace (zlen obj - n + (n - (4 + 4 + 4))) with (zlen obj - (4 + 4 + 4)) by lia.
  replace (zlen obj - n + (n - (4 + 4 + 4) + 4)) with (zlen obj - (4 + 4 + 4) + 4) by lia.
  rewrite T2, bind_run, T3, bind_run. cbv zeta.
  rewrite usub_run by lia. rewrite guard_run by (zbool; lia).
  change (4 + 4 + 4) with 12. fold need.
  destruct (n <? need) eqn:C; [by rewrite guard_stop|]. rewrite guard_run by done.
  apply Z.ltb_ge in C. rewrite usub_run by lia. rewrite slice_run by lia.
  rewrite Sb by lia.
  replace (zlen obj - n + (n - need)) with (zlen (header (lf_kind f) ++ mid)) by zlen_lia.
  replace (zlen obj - n + (n - 12)) with (zlen obj - (4 + 4 + 4)) by lia.
  rewrite T4. rewrite slice_run by (rewrite ?zlen_header; lia).
  rewrite sub_all by done. rewrite guard_run by (zbool; done).
  rewrite usub_run by lia. replace (zlen obj - need) with (8 + zlen mid) by lia.
  by apply parse_footer_encoded.
Qed.
End shell.
#[export] Hint Rewrite zlen_header zlen_footer_magic @zlen_footer_tail : len.

(** ** Groups of entries as blocks *)
Section groups.
Context `{CrcOk, Lz4Ok} {E : Type}.
Variable enc : E → bytes.
Variable ekey : E → LayerKey.
Variable kind : LayerKind.

Definition raw_of (g : list E) : bytes := concat (enc <$> g).
Definition stored_of (g : list E) : bytes := (store_block (raw_of g)).2.
Definition nokey : LayerKey := key_page 0 0 0 0 0.
Definition first_key (g : list E) : LayerKey := from_option ekey nokey (head g).
Definition last_key (g : list E) : LayerKey := from_option ekey nokey (last g).
Definition meta_of (at_ : Z) (g : list E) : LayerBlock :=
  mkBlock (first_key g) (last_key g) at_ (as_u32 (zlen (stored_of g)))
    (as_u32 (zlen (raw_of g))) (zlen g) (crc32c (stored_of g)) (store_block (raw_of g)).1.
Fixpoint layout (at_ : Z) (gs : list (list E)) : list LayerBlock :=
  match gs with
  | [] => []
  | g :: gs => meta_of at_ g :: layout (at_ + zlen (stored_of g)) gs
  end.
Definition body_of (gs : list (list E)) : bytes := concat (stored_of <$> gs).

Lemma raw_of_snoc g e : raw_of (g ++ [e]) = raw_of g ++ enc e.
Proof. unfold raw_of. rewrite fmap_app, concat_app. simpl. by rewrite app_nil_r. Qed.
Lemma body_of_cons g gs : body_of (g :: gs) = stored_of g ++ body_of gs.
Proof. done. Qed.
Lemma body_of_snoc gs g : body_of (gs ++ [g]) = body_of gs ++ stored_of g.
Proof. unfold body_of. rewrite fmap_app, concat_app. simpl. by rewrite app_nil_r. Qed.
Lemma layout_snoc at_ gs g :
  layout at_ (gs ++ [g]) = layout at_ gs ++ [meta_of (at_ + zlen (body_of gs)) g].
Proof.
  revert at_. induction gs as [|g' gs IH]; intros at_; simpl.
  - by rewrite Z.add_0_r.
  - rewrite IH, body_of_cons, zlen_app. do 4 f_equal. lia.
Qed.
Lemma push_block_group buf blocks g last' :
  ekey <$> last g = Some last' →
  push_block buf blocks (raw_of g) (first_key g) last' (zlen g) =
  (buf ++ stored_of g, blocks ++ [meta_of (zlen buf) g]).
Proof.
  intros L. unfold push_block, meta_of, stored_of, last_key.
  destruct (last g); [|done]. simpl in *. simplify_eq. by destruct (store_block _).
Qed.
Lemma store_block_len raw :
  zlen (store_block raw).2 ≤ zlen raw ∧
  ((store_block raw).1 = ENC_RAW ∧ (store_block raw).2 = raw ∨
   (store_block raw).1 = ENC_LZ4 ∧ (store_block raw).2 = lz4_compress raw).
Proof. unfold store_block. destruct (_ <? _) eqn:C; simpl; zbool; (split; [lia|auto]). Qed.

(** What the decoder needs of two neighbouring entries of a layer. *)
Definition apart (a b : LayerKey) : Prop :=
  match kind with Delta => ole a b | Image => olt a b end.
Lemma apart_ole a b : apart a b → ole a b.
Proof. unfold apart. destruct kind; auto with zou. Qed.

(** A closed block: entries of valid keys, in order, small enough. *)
Record group_ok (R : relation E) (g : list E) : Prop := {
  go_ne : g ≠ [];
  go_raw : zlen (raw_of g) ≤ MAX_BLOCK_RAW_LEN;
  go_keys : ∀ e, e ∈ g → key_ok (ekey e)
}.

Variable R : relation E.
Hypothesis R_apart : ∀ x y, R x y → apart (ekey x) (ekey y).
Hypothesis enc_pos : ∀ e, 1 ≤ zlen (enc e).

Lemma group_count g : zlen g ≤ zlen (raw_of g).
Proof.
  induction g as [|e g IH]; [done|]. unfold raw_of in *. rewrite fmap_cons. cbn [concat].
  pose proof (enc_pos e). zlen_lia.
Qed.

Lemma group_ends g :
  group_ok R g → ∃ x y, x ∈ g ∧ y ∈ g ∧ head g = Some x ∧ last g = Some y ∧
                        first_key g = ekey x ∧ last_key g = ekey y.
Proof.
  intros [N _ _]. destruct g as [|x g]; [done|].
  destruct (last (x :: g)) as [y|] eqn:L; [|by apply last_None in L].
  exists x, y. unfold first_key, last_key. rewrite L. split_and!; try done.
  - by left.
  - by apply last_Some_elem_of in L.
Qed.

Lemma meta_lens at_ g :
  group_ok R g →
  lb_len (meta_of at_ g) = zlen (stored_of g) ∧ lb_raw_len (meta_of at_ g) = zlen (raw_of g) ∧
  zlen (stored_of g) ≤ MAX_BLOCK_RAW_LEN ∧ 0 < zlen g ≤ MAX_BLOCK_RAW_LEN.
Proof.
  intros [N G _]. destruct (store_block_len (raw_of g)) as [S _]. fold (stored_of g) in S.
  pose proof (group_count g). pose proof (zlen_nonneg (stored_of g)).
  assert (0 < zlen g) by (destruct g; [done|zlen_lia]).
  assert (MAX_BLOCK_RAW_LEN < 2 ^ 32) by done.
  cbn [lb_len lb_raw_len meta_of]. rewrite !as_u32_small by zlen_lia. lia.
Qed.

Lemma block_ok_meta at_ g : group_ok R g → fits 8 at_ → block_ok (meta_of at_ g).
Proof.
  intros G F. destruct (group_ends g G) as (x & y & Hx & Hy & _ & _ & Ef & El).
  destruct (meta_lens at_ g G) as (L1 & L2 & L3 & L4). destruct G as [_ Gr Gk].
  assert (MAX_BLOCK_RAW_LEN < 2 ^ 32) by done.
  unfold block_ok. rewrite L1, L2. cbn [lb_first lb_last lb_offset lb_entries lb_crc lb_enc meta_of].
  rewrite Ef, El. split_and!; auto; [zlen_lia..|apply crc32c_fits|].
  destruct (store_block_len (raw_of g)) as [_ [[-> _]|[-> _]]]; by vm_compute.
Qed.

Lemma blocks_ok at_ gs :
  Forall (group_ok R) gs → 0 ≤ at_ → at_ + zlen (body_of gs) ≤ u64_max →
  Forall block_ok (layout at_ gs).
Proof.
  intros F. revert at_. induction F as [|g gs G F IH]; intros at_ A B; constructor.
  - rewrite body_of_cons in B. apply block_ok_meta; [done|]. unfold u64_max in B. zlen_lia.
  - rewrite body_of_cons in B. apply IH; zlen_lia.
Qed.

Lemma bad_block_meta at_ prev g :
  group_ok R g → StronglySorted R g →
  (∀ p e, prev = Some p → e ∈ g → apart (lb_last p) (ekey e)) →
  bad_block kind at_ prev (meta_of at_ g) = false.
Proof.
  intros G S P. destruct (group_ends g G) as (x & y & Hx & Hy & Ex & Ey & Ef & El).
  destruct (meta_lens at_ g G) as (L1 & L2 & L3 & L4). pose proof (go_raw _ _ G).
  unfold bad_block. rewrite L1, L2.
  cbn [lb_first lb_last lb_offset lb_entries lb_crc lb_enc meta_of]. rewrite Ef, El.
  rewrite !orb_false_iff. split_and!; [by rewrite Z.eqb_refl|zbool; lia| |zbool; lia| | |].
  - apply oltb_false. destruct g as [|x' g]; [done|]. simpl in Ex. simplify_eq.
    apply StronglySorted_cons in S as [S _]. rewrite Forall_forall in S.
    apply elem_of_cons in Hy as [->|Hy]; [apply ole_refl|].
    apply apart_ole. auto.
  - destruct (store_block_len (raw_of g)) as [_ [[-> _]|[-> _]]]; done.
  - destruct (store_block_len (raw_of g)) as [_ [[-> Hr]|[-> _]]]; [|done].
    unfold stored_of. rewrite Hr. by rewrite !Z.eqb_refl.
  - destruct prev as [p|]; [|done]. specialize (P p x eq_refl Hx).
    unfold overlaps, apart in *. cbn [lb_first meta_of]. rewrite Ef.
    destruct kind; [by apply oltb_false|by apply oleb_false].
Qed.

Lemma rows_ok_layout at_ prev gs :
  Forall (group_ok R) gs → StronglySorted R (concat gs) →
  (∀ p e, prev = Some p → e ∈ concat gs → apart (lb_last p) (ekey e)) →
  at_ + zlen (body_of gs) ≤ u64_max →
  rows_ok kind at_ prev (layout at_ gs).
Proof.
  intros F. revert at_ prev. induction F as [|g gs G F IH]; intros at_ prev S P B; [done|].
  rewrite body_of_cons in B. simpl in S, P. apply StronglySorted_app in S as (S1 & S2 & S3).
  destruct (meta_lens at_ g G) as (L1 & _).
  destruct (group_ends g G) as (x & y & Hx & Hy & _ & _ & _ & El).
  cbn [layout rows_ok]. rewrite L1. split_and!.
  - apply bad_block_meta; [done..|]. intros p e Hp He. apply P; [done|]. set_solver.
  - zlen_lia.
  - apply IH; [done| |zlen_lia]. intros p e [= <-] He. cbn [lb_last meta_of]. rewrite El. auto.
Qed.

Lemma sum_len_layout at_ gs :
  Forall (group_ok R) gs → sum_len (layout at_ gs) = zlen (body_of gs).
Proof.
  intros F. revert at_. induction F as [|g gs G F IH]; intros at_; [done|].
  change (sum_len (layout at_ (g :: gs)))
    with (lb_len (meta_of at_ g) + sum_len (layout (at_ + zlen (stored_of g)) gs)).
  destruct (meta_lens at_ g G) as (-> & _). by rewrite IH, body_of_cons, zlen_app.
Qed.
Lemma sum_entries_layout at_ gs : sum_entries (layout at_ gs) = zlen (concat gs).
Proof.
  revert at_. induction gs as [|g gs IH]; intros at_; [done|].
  change (sum_entries (layout at_ (g :: gs)))
    with (zlen g + sum_entries (layout (at_ + zlen (stored_of g)) gs)).
  rewrite IH. cbn [concat]. zlen_lia.
Qed.
Lemma layout_first at_ gs e es :
  Forall (group_ok R) gs → concat gs = e :: es →
  lb_first <$> head (layout at_ gs) = Some (ekey e).
Proof.
  intros F C. destruct F as [|g gs G F]; [done|]. destruct G as [N _ _].
  destruct g as [|x g]; [done|]. simpl in C. by simplify_eq.
Qed.
Lemma layout_last at_ gs e :
  Forall (group_ok R) gs → last (concat gs) = Some e →
  lb_last <$> last (layout at_ gs) = Some (ekey e).
Proof.
  destruct gs as [|g' gs' _] using rev_ind; [done|]. intros F C.
  rewrite layout_snoc, last_snoc. apply Forall_app in F as [_ F].
  apply Forall_cons in F as [[N _ _] _]. rewrite concat_app in C. cbn [concat] in C.
  rewrite app_nil_r, last_app in C. cbn [fmap option_fmap option_map lb_last meta_of]. unfold last_key.
  destruct (last g') eqn:L; [|by apply last_None in L]. by simplify_eq.
Qed.

(** The finished footer passes every check of the decoder. *)
Lemma groups_footer_ok gs bloom min_lsn max_lsn e z :
  Forall (group_ok R) gs → StronglySorted R (concat gs) →
  head (concat gs) = Some e → last (concat gs) = Some z →
  fits 8 min_lsn → fits 8 max_lsn → min_lsn ≤ max_lsn →
  fits 8 (zlen (concat gs)) → 8 + zlen (body_of gs) ≤ u64_max →
  from_bits (bloom_bits bloom) = Some bloom → 
  let f := mkFooter kind (ekey e) (ekey z) min_lsn max_lsn (zlen (concat gs)) (layout 8 gs) bloom in
  fits 4 (zlen (encode_footer f)) → footer_ok f (8 + zlen (body_of gs)).
Proof.
  intros F S He Hz M1 M2 M3 N B W f Fl.
  assert (Ke : ∀ x, x ∈ concat gs → key_ok (ekey x)).
  { intros x (g & Hx & Hg)%elem_of_concat. rewrite Forall_forall in F. by eapply go_keys; eauto. }
  assert (Le : zlen (encode_footer f) = 68 + 61 * zlen (layout 8 gs) + zlen (bloom_bits bloom)).
  { unfold encode_footer. subst f. cbn [lf_min_key lf_max_key lf_min_lsn lf_max_lsn lf_entry_count lf_blocks lf_bloom].
    autorewrite with len. lia. }
  assert (∃ es, concat gs = e :: es) as [es C].
  { destruct (concat gs); [done|]. simpl in He. simplify_eq. eauto. }
  split; cbn [lf_kind lf_min_key lf_max_key lf_min_lsn lf_max_lsn lf_entry_count lf_blocks lf_bloom f].
  - split; [apply Ke; rewrite C; by left|apply Ke; by apply last_Some_elem_of].
  - done.
  - split; [done|]. by rewrite sum_entries_layout.
  - split; [by apply blocks_ok|]. zlen_lia.
  - by apply rows_ok_layout.
  - by rewrite sum_len_layout.
  - by eapply layout_first.
  - by eapply layout_last.
  - split; [done|]. zlen_lia.
Qed.

(** ** Where a builder stands between two pushes *)
Record blocks_inv (gs : list (list E)) (cur : list E) (buf : bytes) (blocks : list LayerBlock)
    (raw : bytes) (count : Z) (first : LayerKey) : Prop := {
  bi_buf : buf = header kind ++ body_of gs;
  bi_blocks : blocks = layout 8 gs;
  bi_raw : raw = raw_of cur;
  bi_count : count = zlen cur;
  bi_first : cur ≠ [] → first = first_key cur;
  bi_groups : Forall (group_ok R) gs;
  bi_open : cur = [] ∧ gs = [] ∨ group_ok R cur
}.

Lemma blocks_new first : blocks_inv [] [] (header kind) [] [] 0 first.
Proof. split; try done. by left. Qed.

Lemma blocks_extend gs cur buf blocks raw count first e :
  blocks_inv gs cur buf blocks raw count first → key_ok (ekey e) →
  zlen (raw ++ enc e) ≤ MAX_BLOCK_RAW_LEN →
  blocks_inv gs (cur ++ [e]) buf blocks (raw ++ enc e) (count + 1)
    (if decide (cur = []) then ekey e else first).
Proof.
  intros [B1 B2 B3 B4 B5 B6 B7] K L. split; try done.
  - by rewrite raw_of_snoc, B3.
  - rewrite B4. zlen_lia.
  - intros _. case_decide as D; [by rewrite D|]. rewrite (B5 D). unfold first_key.
    rewrite head_app. by destruct (head cur) eqn:Eh; [|apply head_None in Eh].
  - right. split.
    + by destruct cur.
    + by rewrite raw_of_snoc, <-B3.
    + intros x [Hx|Hx%list_elem_of_singleton]%elem_of_app; [|by subst].
      destruct B7 as [[-> _]|G]; [set_solver|]. by eapply go_keys.
Qed.

Lemma blocks_close gs cur buf blocks raw count first lk :
  blocks_inv gs cur buf blocks raw count first → cur ≠ [] → ekey <$> last cur = Some lk →
  push_block buf blocks raw first lk count =
  (header kind ++ body_of (gs ++ [cur]), layout 8 (gs ++ [cur])) ∧
  Forall (group_ok R) (gs ++ [cur]).
Proof.
  intros [B1 B2 B3 B4 B5 B6 B7] N L. split.
  - rewrite B3, B4, (B5 N), (push_block_group _ _ _ lk) by done. subst.
    rewrite body_of_snoc, layout_snoc, app_assoc. do 4 f_equal. zlen_lia.
  - apply Forall_app; split; [done|]. constructor; [|done]. by destruct B7 as [[]|].
Qed.

Lemma blocks_reopen gs cur buf blocks raw count first lk e :
  blocks_inv gs cur buf blocks raw count first → cur ≠ [] → ekey <$> last cur = Some lk →
  key_ok (ekey e) → zlen (enc e) ≤ MAX_BLOCK_RAW_LEN →
  blocks_inv (gs ++ [cur]) [e] (header kind ++ body_of (gs ++ [cur])) (layout 8 (gs ++ [cur]))
    ([] ++ enc e) (0 + 1) (ekey e).
Proof.
  intros B N L K Z. destruct (blocks_close _ _ _ _ _ _ _ _ B N L) as [_ F].
  split; try done.
  - unfold raw_of. simpl. by rewrite app_nil_r.
  - right. split; [done| |].
    + unfold raw_of. simpl. by rewrite app_nil_r.
    + by intros x ->%list_elem_of_singleton.
Qed.

Lemma bi_raw_nil gs cur buf blocks raw count first :
  blocks_inv gs cur buf blocks raw count first → raw = [] ↔ cur = [].
Proof.
  intros [_ _ -> _ _ _ _]. split; [|by intros ->]. destruct cur as [|e cur]; [done|].
  unfold raw_of. rewrite fmap_cons. cbn [concat]. pose proof (enc_pos e).
  destruct (enc e); [|done]. rewrite zlen_nil in *. lia.
Qed.
End groups.

Lemma sorted_snoc_inv {A} (R : relation A) l e p :
  StronglySorted R (l ++ [e]) → last l = Some p → R p e.
Proof.
  intros S P%last_Some_elem_of. eapply StronglySorted_app_1_elem_of; [done|done|]. by left.
Qed.

(** ** The delta builder *)
Definition delta_lt : relation DeltaEntry := λ x y, olt (delta_pos x) (delta_pos y).
#[global] Instance delta_lt_trans : Transitive delta_lt.
Proof. intros x y z. unfold delta_lt. apply olt_trans. Qed.
#[global] Instance delta_lt_dec x y : Decision (delta_lt x y).
Proof. unfold delta_lt. apply _. Defined.

(** The ranges of the fields of a [DeltaEntry]. *)
Definition delta_entry_ok (e : DeltaEntry) : Prop := key_ok (de_key e) ∧ fits 8 (de_lsn e).
#[global] Instance delta_entry_ok_dec e : Decision (delta_entry_ok e).
Proof. unfold delta_entry_ok. apply _. Defined.

Lemma delta_lt_apart x y : delta_lt x y → apart Delta (de_key x) (de_key y).
Proof.
  unfold delta_lt, delta_pos, apart. rewrite olt_pair, ole_lteq. intros [?|[? _]]; auto.
Qed.
Lemma zlen_encode_delta_entry e : zlen (encode_delta_entry e) = 30 + zlen (de_record e).
Proof. unfold encode_delta_entry. zlen_lia. Qed.
#[export] Hint Rewrite zlen_encode_delta_entry : len.
Lemma encode_delta_entry_pos e : 1 ≤ zlen (encode_delta_entry e).
Proof. zlen_lia. Qed.
#[export] Hint Resolve delta_lt_apart encode_delta_entry_pos : zou.

(** The filter has the hash of every key once. *)
Definition hashes_inv `{Crc} (hashes : list (Z * Z)) (keys : list LayerKey) : Prop :=
  ∃ ks, hashes = (λ k, bloom_hash (key_encode k)) <$> ks ∧ NoDup ks ∧ ∀ k, k ∈ ks ↔ k ∈ keys.

Lemma hashes_push `{Crc} hashes keys k :
  hashes_inv hashes keys → k ∉ keys →
  hashes_inv (hashes ++ [bloom_hash (key_encode k)]) (keys ++ [k]).
Proof.
  intros (ks & -> & N & M) K. exists (ks ++ [k]). split; [by rewrite fmap_app|]. split.
  - apply NoDup_app. split; [done|]. split; [set_solver|]. apply NoDup_singleton.
  - intros k'. rewrite !elem_of_app, M. done.
Qed.
Lemma hashes_repeat `{Crc} hashes keys k :
  hashes_inv hashes keys → k ∈ keys → hashes_inv hashes (keys ++ [k]).
Proof. intros (ks & -> & N & M) K. exists ks. split_and!; [done..|]. set_solver. Qed.
Lemma hashes_bloom `{Crc} hashes keys k :
  hashes_inv hashes keys → k ∈ keys → may_contain (from_hashes hashes) (key_encode k) = true.
Proof.
  intros (ks & -> & _ & M) K.
  change (λ k, bloom_hash (key_encode k)) with (bloom_hash ∘ key_encode). rewrite list_fmap_compose.
  apply bloom_no_false_negative. apply list_elem_of_fmap. exists k. split; [done|]. by apply M.
Qed.

Section delta.
Context `{CrcOk, Lz4Ok}.
Notation dgroup_ok := (group_ok encode_delta_entry de_key delta_lt).

Record delta_inv (target : Z) (gs : list (list DeltaEntry)) (cur : list DeltaEntry)
    (b : DeltaBuilder) : Prop := {
  di_blocks : blocks_inv encode_delta_entry de_key Delta delta_lt gs cur
                (db_buf b) (db_blocks b) (db_raw b) (db_count b) (db_first b);
  di_target : db_target b = target;
  di_last : db_last b = delta_pos <$> last (concat gs ++ cur);
  di_total : db_total b = zlen (concat gs ++ cur);
  di_min : db_min_lsn b = foldr Z.min u64_max (de_lsn <$> concat gs ++ cur);
  di_max : db_max_lsn b = foldr Z.max 0 (de_lsn <$> concat gs ++ cur);
  di_hashes : hashes_inv (db_hashes b) (de_key <$> concat gs ++ cur);
  di_sorted : StronglySorted delta_lt (concat gs ++ cur);
  di_lsns : Forall (λ e, fits 8 (de_lsn e)) (concat gs ++ cur)
}.

Lemma delta_new_inv target : delta_inv target [] [] (delta_new target).
Proof.
  split; try done; [apply blocks_new| |constructor].
  exists []. split_and!; [done|constructor|done].
Qed.

Lemma foldr_min_snoc d (l : list Z) x : foldr Z.min d (l ++ [x]) = Z.min (foldr Z.min d l) x.
Proof. induction l as [|y l IH]; simpl; [lia|]. rewrite IH. lia. Qed.
Lemma foldr_max_snoc d (l : list Z) x : foldr Z.max d (l ++ [x]) = Z.max (foldr Z.max d l) x.
Proof. induction l as [|y l IH]; simpl; [lia|]. rewrite IH. lia. Qed.

(** The filter's step: a repeated key repeats the one before it. *)
Lemma delta_hashes_step hashes es e :
  hashes_inv hashes (de_key <$> es) → StronglySorted delta_lt (es ++ [e]) →
  hashes_inv
    (if match delta_pos <$> last es with
        | None => true | Some (prev, _) => negb (bool_decide (prev = de_key e)) end
     then hashes ++ [bloom_hash (key_encode (de_key e))] else hashes)
    (de_key <$> es ++ [e]).
Proof.
  intros I S. rewrite fmap_app.
  destruct (last es) as [p|] eqn:L; simpl; cycle 1.
  { apply hashes_push; [done|]. apply last_None in L as ->. set_solver. }
  case_bool_decide as D; simpl.
  - apply hashes_repeat; [done|]. rewrite <-D.
    apply list_elem_of_fmap. eauto using last_Some_elem_of.
  - apply hashes_push; [done|]. intros (x & Ex & Hx)%list_elem_of_fmap.
    pose proof (sorted_snoc_inv _ _ _ _ S L) as Lp. apply delta_lt_apart in Lp. simpl in Lp.
    apply ole_lteq in Lp as [Lp|]; [|done].
    apply last_Some in L as [es' ->]. apply elem_of_app in Hx as [Hx|Hx%list_elem_of_singleton].
    + assert (delta_lt x p) as Lx%delta_lt_apart.
      { eapply StronglySorted_app_1_elem_of; [by eapply StronglySorted_app_1_l|done|by left]. }
      simpl in Lx. rewrite Ex in Lp. by apply not_olt in Lx.
    + subst. by rewrite Ex in D.
Qed.

(** Everything but the blocks after one more entry. *)
Lemma delta_inv_snoc target gs cur b e gs' cur' b' :
  delta_inv target gs cur b → delta_entry_ok e →
  StronglySorted delta_lt ((concat gs ++ cur) ++ [e]) →
  concat gs' ++ cur' = (concat gs ++ cur) ++ [e] →
  blocks_inv encode_delta_entry de_key Delta delta_lt gs' cur'
    (db_buf b') (db_blocks b') (db_raw b') (db_count b') (db_first b') →
  db_target b' = db_target b → db_last b' = Some (delta_pos e) → db_total b' = db_total b + 1 →
  db_min_lsn b' = Z.min (db_min_lsn b) (de_lsn e) →
  db_max_lsn b' = Z.max (db_max_lsn b) (de_lsn e) →
  hashes_inv (db_hashes b') (de_key <$> (concat gs ++ cur) ++ [e]) →
  delta_inv target gs' cur' b'.
Proof.
  intros [B Tg L Tot Mn Mx Hh S Ls] [K F] Sn Q B' T' L' N' Mn' Mx' H'.
  split; rewrite ?Q; try done.
  - congruence.
  - by rewrite last_snoc.
  - rewrite N', Tot, (zlen_app _ [e]). done.
  - rewrite fmap_app, Mn', Mn. symmetry. apply foldr_min_snoc.
  - rewrite fmap_app, Mx', Mx. symmetry. apply foldr_max_snoc.
  - apply Forall_app; auto.
Qed.

Lemma delta_open_nil target gs cur b :
  delta_inv target gs cur b → last (concat gs ++ cur) = None ↔ cur = [].
Proof.
  intros [B _ _ _ _ _ _ _ _]. rewrite last_None. split; [by intros [_ ?]%app_nil|]. intros ->.
  destruct (bi_open _ _ _ _ _ _ _ _ _ _ _ B) as [[_ ->]|[? _ _]]; done.
Qed.

(** A push of the next entry in order goes through and keeps the invariant. *)
Lemma delta_push_inv target gs cur b e :
  target ≤ MAX_BLOCK_RAW_LEN → delta_inv target gs cur b → delta_entry_ok e →
  zlen (de_record e) ≤ MAX_RECORD_LEN →
  StronglySorted delta_lt ((concat gs ++ cur) ++ [e]) →
  ∃ b' gs' cur', delta_push b (de_key e) (de_lsn e) (de_record e) = Ok b' ∧
    delta_inv target gs' cur' b' ∧ concat gs' ++ cur' = (concat gs ++ cur) ++ [e].
Proof.
  intros T I Oe Rl Sn. pose proof I as [B Tg L _ _ _ Hh _ _]. pose proof (proj1 Oe) as K.
  pose proof (bi_raw_nil _ _ _ _ encode_delta_entry_pos _ _ _ _ _ _ _ B) as Rn.
  pose proof (delta_open_nil _ _ _ _ I) as Cl.
  assert (Zr : zlen (encode_delta_entry e) ≤ MAX_BLOCK_RAW_LEN).
  { unfold MAX_BLOCK_RAW_LEN, ENTRY_FIXED_LEN, KEY_ENCODED_LEN, LAYER_BLOCK_TARGET. zlen_lia. }
  unfold delta_push. rewrite guard_run; cycle 1.
  { rewrite L. destruct (last _) as [p|] eqn:El; [|done]. simpl. apply oleb_false.
    by apply (sorted_snoc_inv _ _ _ _ Sn El). }
  rewrite guard_run by (zbool; done). rewrite L, Tg.
  pose proof (delta_hashes_step _ _ _ Hh Sn) as Hs.
  set (hs := if match delta_pos <$> _ with None => true | _ => _ end then _ else _) in *.
  clearbody hs.
  replace (match delta_pos <$> last (concat gs ++ cur) with
           | None => de_key e | Some _ => db_first b end)
    with (if decide (cur = []) then de_key e else db_first b)
    by (destruct (last _); case_decide; naive_solver).
  replace (mkDelta (de_key e) (de_lsn e) (de_record e)) with e by by destruct e.
  destruct (negb _ && _) eqn:C.
  - apply andb_true_iff in C as [C1 _]. apply negb_true_iff, bool_decide_eq_false in C1.
    rewrite Rn in C1. rewrite decide_False by done.
    destruct (last cur) as [p|] eqn:Lc; [|by apply last_None in Lc].
    destruct (blocks_close _ _ _ _ _ _ _ _ _ _ _ (de_key p) B C1) as [P _]; [by rewrite Lc|].
    rewrite last_app, Lc. cbn [fmap option_fmap option_map expect]. rewrite bind_run.
    cbn [fst delta_pos]. rewrite P. eexists (mkDB _ _ _ _ _ _ _ _ _ _ _), (gs ++ [cur]), [e]. split; [reflexivity|].
    assert (Q : concat (gs ++ [cur]) ++ [e] = (concat gs ++ cur) ++ [e]).
    { rewrite concat_app. simpl. by rewrite app_nil_r. }
    split; [|done]. eapply delta_inv_snoc; try done.
    cbn [db_buf db_blocks db_raw db_count db_first].
    eapply (blocks_reopen _ _ _ _ _ _ _ _ _ _ _ (de_key p)); [done..|by rewrite Lc|done|done].
  - eexists (mkDB _ _ _ _ _ _ _ _ _ _ _), gs, (cur ++ [e]). split; [reflexivity|]. rewrite app_assoc. split; [|done].
    eapply delta_inv_snoc; try done; [by rewrite app_assoc|].
    cbn [db_buf db_blocks db_raw db_count db_first].
    apply blocks_extend; [eauto with zou..|]. apply andb_false_iff in C as [C|C].
    + apply negb_false_iff, bool_decide_eq_true in C. by rewrite C.
    + zbool. unfold ENTRY_FIXED_LEN, KEY_ENCODED_LEN in C. zlen_lia.
Qed.

Lemma delta_push_all_inv target gs cur b es :
  target ≤ MAX_BLOCK_RAW_LEN → delta_inv target gs cur b → Forall delta_entry_ok es →
  Forall (λ e, zlen (de_record e) ≤ MAX_RECORD_LEN) es →
  StronglySorted delta_lt ((concat gs ++ cur) ++ es) →
  ∃ b' gs' cur', delta_push_all b es = Ok b' ∧
    delta_inv target gs' cur' b' ∧ concat gs' ++ cur' = (concat gs ++ cur) ++ es.
Proof.
  intros T I O. revert gs cur b I. induction O as [|e es Oe O IH]; intros gs cur b I R S.
  - exists b, gs, cur. by rewrite app_nil_r.
  - apply Forall_cons in R as [Re R]. rewrite cons_middle, app_assoc in S.
    destruct (delta_push_inv target gs cur b e) as (b1 & gs1 & cur1 & P & I1 & Q);
      [done..|by eapply StronglySorted_app_1_l|].
    rewrite <-Q in S. destruct (IH _ _ _ I1 R S) as (b2 & gs2 & cur2 & P2 & I2 & Q2).
    exists b2, gs2, cur2. cbn [delta_push_all]. rewrite P, bind_run. split_and!; [done..|].
    by rewrite Q2, Q, <-app_assoc.
Qed.
End delta.
