(* ===== verification/LayerRead.v ===== *)
(** * LayerRead: what the builders write is what the decoders read

    The round trips of delta and image layers, the suffix read of a footer,
    the index and the filter as a lookup structure, and the absence of
    panics on arbitrary bytes.

    The same development as for delta layers, for whole pages at one lsn
    sorted strictly by key. *)
From S2P Require Import Prelude Order Text Lsn Externals Bloom LayerKey Layer LayerBuild.

Section blocks.
Context `{CrcOk, Lz4Ok} {E : Type}.
Variable enc : E → bytes.
Variable ekey : E → LayerKey.
Variable R : relation E.
Hypothesis enc_pos : ∀ e, 1 ≤ zlen (enc e).

(** A stored block checks out and unpacks to its entries' bytes. *)
Lemma block_raw_stored at_ g :
  group_ok enc ekey R g →
  block_raw (stored_of enc g) (meta_of enc ekey at_ g) = Ok (raw_of enc g).
Proof.
  intros G. destruct (meta_lens enc ekey R enc_pos at_ g G) as (L1 & L2 & _ & _).
  pose proof (go_raw _ _ _ _ G) as Gr.
  unfold block_raw. rewrite L1, L2, guard_run; cycle 1.
  { cbn [lb_crc meta_of]. rewrite !Z.eqb_refl. cbn. by zbool. }
  assert (Er : (if (lb_enc (meta_of enc ekey at_ g) =? ENC_RAW) &&
                   (zlen (stored_of enc g) =? zlen (raw_of enc g))
                then mret (stored_of enc g)
                else if lb_enc (meta_of enc ekey at_ g) =? ENC_LZ4
                then ok_or (lz4_decompress (stored_of enc g) (zlen (raw_of enc g))) LCorrupt
                else Err LCorrupt) = Ok (raw_of enc g)).
  { cbn [lb_enc meta_of]. unfold stored_of.
    destruct (store_block_len (raw_of enc g)) as [_ [[-> ->]|[-> ->]]]; cbn.
    - by rewrite Z.eqb_refl.
    - by rewrite lz4_round_trip. }
  rewrite Er, bind_run, guard_run by by rewrite Z.eqb_refl. done.
Qed.

Lemma block_bytes_layout pre g post at_ :
  group_ok enc ekey R g → at_ = zlen pre →
  block_bytes (pre ++ stored_of enc g ++ post) (meta_of enc ekey at_ g) = Ok (stored_of enc g).
Proof.
  intros G ->. destruct (meta_lens enc ekey R enc_pos (zlen pre) g G) as (L1 & _).
  unfold block_bytes. rewrite L1. cbn [lb_offset meta_of].
  rewrite slice_ok by zlen_lia. by rewrite sub_mid.
Qed.

(** Closing the object: the footer tail goes behind the blocks. *)
Lemma finish_groups {F} kind gs bloom mn mx n e z :
  Forall (group_ok enc ekey R) gs → head (concat gs) = Some e → last (concat gs) = Some z →
  let f := mkFooter kind (ekey e) (ekey z) mn mx n (layout enc ekey 8 gs) bloom in
  finish (E := F) (header kind ++ body_of enc gs) kind (layout enc ekey 8 gs) bloom mn mx n =
  Ok (header kind ++ body_of enc gs ++ footer_tail f, f).
Proof.
  intros G He Hz f. unfold finish.
  assert (∃ es, concat gs = e :: es) as [es C].
  { destruct (concat gs); [done|]. simpl in He. simplify_eq. eauto. }
  pose proof (layout_first enc ekey R 8 gs e es G C) as P1.
  pose proof (layout_last enc ekey R 8 gs z G Hz) as P2.
  destruct (head (layout _ _ _ _)) as [b0|]; [|done].
  destruct (last (layout _ _ _ _)) as [b1|]; [|done].
  cbn in P1, P2. simplify_eq. cbn [expect]. rewrite !bind_run.
  rewrite slice_run; [|done|unfold HEADER_LEN; zlen_lia].
  rewrite sub_prefix by by rewrite zlen_header. rewrite P1, P2. fold f.
  unfold footer_tail. by rewrite <-!app_assoc.
Qed.
End blocks.

(** ** Delta layers *)
Section delta.
Context `{CrcOk, Lz4Ok}.
Notation dgroup_ok := (group_ok encode_delta_entry de_key delta_lt).
Notation dlayout := (layout encode_delta_entry de_key).

Definition record_fits (e : DeltaEntry) : Prop := zlen (de_record e) ≤ MAX_RECORD_LEN.
#[global] Instance record_fits_dec e : Decision (record_fits e).
Proof. unfold record_fits. apply _. Defined.

Lemma read_delta_entry_encoded e rest :
  delta_entry_ok e → record_fits e →
  read_delta_entry (encode_delta_entry e ++ rest) = Ok (e, rest).
Proof.
  intros [K F] L. unfold read_delta_entry, encode_delta_entry, ENTRY_FIXED_LEN, KEY_ENCODED_LEN.
  assert (fits 4 (zlen (de_record e))).
  { unfold record_fits in L. assert (MAX_RECORD_LEN < 2 ^ 32) by done. zlen_lia. }
  rewrite <-!app_assoc. rewrite (app_assoc (le_bytes 8 _)), (app_assoc (key_encode _)).
  rewrite take_n_app, bind_run by zlen_lia. cbv zeta iota beta.
  assert (E1 : le_val (sub (key_encode (de_key e) ++ le_bytes 8 (de_lsn e) ++
                le_bytes 4 (zlen (de_record e))) 26 30) = zlen (de_record e)).
  { rewrite app_assoc, <-(app_nil_r (le_bytes 4 _)). apply sub_field; zlen_lia. }
  rewrite E1, guard_run by (zbool; done).
  rewrite take_n_app, bind_run by done.
  rewrite (sub_field (key_encode (de_key e))) by zlen_lia.
  rewrite sub_prefix by zlen_lia. rewrite <-(app_nil_r (key_encode (de_key e))).
  rewrite key_decode_encode by done. by destruct e.
Qed.

Lemma read_delta_entries_encoded g rest acc :
  Forall delta_entry_ok g → Forall record_fits g → StronglySorted delta_lt (acc ++ g) →
  read_delta_entries (length g) (raw_of encode_delta_entry g ++ rest) acc = Ok (acc ++ g, rest).
Proof.
  intros O. revert acc. induction O as [|e g Oe O IH]; intros acc F S.
  - simpl. by rewrite app_nil_r.
  - apply Forall_cons in F as [Fe F]. unfold raw_of in *. rewrite fmap_cons.
    cbn [length read_delta_entries concat]. rewrite <-app_assoc.
    rewrite read_delta_entry_encoded, bind_run by done.
    rewrite cons_middle, app_assoc in S. rewrite guard_run.
    { rewrite IH by done. by rewrite <-app_assoc. }
    destruct (last acc) as [p|] eqn:L; [|done]. apply oleb_false.
    apply StronglySorted_app_1_l in S. by apply (sorted_snoc_inv _ _ _ _ S L).
Qed.

(** One block decodes on its own, from its byte range and index row. *)
Lemma decode_delta_block_stored at_ g :
  dgroup_ok g → Forall delta_entry_ok g → Forall record_fits g → StronglySorted delta_lt g →
  decode_delta_block (stored_of encode_delta_entry g) (meta_of encode_delta_entry de_key at_ g) = Ok g.
Proof.
  intros G O F S. unfold decode_delta_block.
  rewrite (block_raw_stored _ _ delta_lt), bind_run by eauto with zou.
  cbn [lb_entries meta_of]. rewrite to_nat_zlen, <-(app_nil_r (raw_of _ g)).
  rewrite (read_delta_entries_encoded g [] []), bind_run by done. cbn [app].
  destruct (group_ends _ _ _ _ G) as (x & y & _ & _ & Ex & Ey & Kx & Ky).
  rewrite guard_run; [done|]. cbn [lb_first lb_last meta_of].
  rewrite Ex, Ey, Kx, Ky. cbn. by rewrite !bool_decide_true.
Qed.

Lemma decode_delta_blocks_stored pre gs post at_ i acc :
  at_ = zlen pre → Forall dgroup_ok gs → Forall delta_entry_ok (concat gs) →
  Forall record_fits (concat gs) → StronglySorted delta_lt (acc ++ concat gs) →
  decode_delta_blocks (pre ++ body_of encode_delta_entry gs ++ post) i (dlayout at_ gs) acc =
  Ok (acc ++ concat gs).
Proof.
  intros -> G. revert pre i acc. induction G as [|g gs Gg G IH]; intros pre i acc O F S.
  - simpl. by rewrite app_nil_r.
  - simpl in O, F, S. apply Forall_app in O as [Og O], F as [Fg F].
    rewrite app_assoc in S. cbn [layout decode_delta_blocks concat].
    rewrite body_of_cons, <-app_assoc, (block_bytes_layout _ _ delta_lt), bind_run by eauto with zou.
    pose proof (StronglySorted_app_1_l _ _ _ S) as Sg.
    rewrite decode_delta_block_stored by eauto using StronglySorted_app_1_r.
    cbn [map_err]. rewrite bind_run, guard_run; cycle 1.
    { destruct (last acc) as [p|] eqn:L; [|done]. destruct (head g) as [x|] eqn:Eh; [|done].
      apply oleb_false. apply last_Some_elem_of in L. apply head_Some_elem_of in Eh.
      by eapply (StronglySorted_app_1_elem_of delta_lt). }
    rewrite (app_assoc pre), <-zlen_app, IH, app_assoc by done. done.
Qed.

(** ** The whole build *)
Definition delta_footer_of (gs : list (list DeltaEntry)) (hashes : list (Z * Z)) (e z : DeltaEntry) :
    LayerFooter :=
  mkFooter Delta (de_key e) (de_key z)
    (foldr Z.min u64_max (de_lsn <$> concat gs)) (foldr Z.max 0 (de_lsn <$> concat gs))
    (zlen (concat gs)) (dlayout 8 gs) (from_hashes hashes).

(** Everything known of a built delta layer. *)
Record delta_built (es : list DeltaEntry) (obj : bytes) (f : LayerFooter)
    (gs : list (list DeltaEntry)) (hashes : list (Z * Z)) (e z : DeltaEntry) : Prop := {
  dt_concat : concat gs = es;
  dt_ok : Forall dgroup_ok gs;
  dt_head : head es = Some e;
  dt_tail : last es = Some z;
  dt_hash : hashes_inv hashes (de_key <$> es);
  dt_footer : f = delta_footer_of gs hashes e z;
  dt_obj : obj = header Delta ++ body_of encode_delta_entry gs ++ footer_tail f
}.

Lemma build_delta_ok es target :
  target ≤ MAX_BLOCK_RAW_LEN → es ≠ [] → Forall delta_entry_ok es → Forall record_fits es →
  StronglySorted delta_lt es →
  ∃ obj f gs hashes e z, build_delta es target = Ok (obj, f) ∧ delta_built es obj f gs hashes e z.
Proof.
  intros T N O F S. unfold build_delta.
  destruct (delta_push_all_inv target [] [] (delta_new target) es) as (b & gs & cur & P & I & Q);
    [done|apply delta_new_inv|done..|].
  rewrite P, bind_run. pose proof (delta_open_nil _ _ _ _ I) as Cl.
  destruct I as [B Tg L Tot Mn Mx Hh Ss Ls]. cbn [concat app] in Q.
  rewrite Q in L, Tot, Mn, Mx, Hh, Ss, Ls, Cl.
  destruct (last es) as [z|] eqn:Ez; [|by apply last_None in Ez].
  destruct (head es) as [e|] eqn:Ee; [|by apply head_None in Ee].
  assert (Nc : cur ≠ []) by by intros ?%Cl.
  destruct (last cur) as [p|] eqn:Lc; [|by apply last_None in Lc].
  assert (p = z) as -> by (rewrite <-Q, last_app, Lc in Ez; congruence).
  destruct (blocks_close _ _ _ _ _ _ _ _ _ _ _ (de_key z) B Nc) as [Pb G]; [by rewrite Lc|].
  assert (Qg : concat (gs ++ [cur]) = es) by (rewrite concat_app; simpl; by rewrite app_nil_r).
  unfold delta_finish. rewrite L. cbn [fmap option_fmap option_map ok_or]. rewrite bind_run.
  cbn [delta_pos]. rewrite Pb.
  erewrite (finish_groups _ _ delta_lt); [|done|by rewrite Qg|by rewrite Qg].
  eexists _, _, (gs ++ [cur]), (db_hashes b), e, z. split; [done|].
  split; try done.
  unfold delta_footer_of. rewrite Qg, Mn, Mx, Tot. done.
Qed.

(** The object and its footer have lengths the format can record. *)
Definition layer_sized (obj : bytes) (f : LayerFooter) (es : Z) : Prop :=
  zlen obj ≤ u64_max ∧ zlen (encode_footer f) ≤ u32_max ∧ es ≤ u64_max.

Lemma lsn_bounds (es : list DeltaEntry) e :
  head es = Some e → Forall delta_entry_ok es →
  let mn := foldr Z.min u64_max (de_lsn <$> es) in
  let mx := foldr Z.max 0 (de_lsn <$> es) in
  fits 8 mn ∧ fits 8 mx ∧ mn ≤ mx.
Proof.
  intros He O mn mx.
  assert (G : ∀ l, Forall delta_entry_ok l →
    0 ≤ foldr Z.min u64_max (de_lsn <$> l) ≤ u64_max ∧ 0 ≤ foldr Z.max 0 (de_lsn <$> l) ≤ u64_max).
  { induction 1 as [|x l [_ Fx] _ IH]; [by vm_compute|].
    change (0 ≤ de_lsn x < 2 ^ 64) in Fx. unfold u64_max in *. cbn [fmap list_fmap foldr] in *. lia. }
  destruct es as [|x es]; [done|]. simpl in He. simplify_eq.
  specialize (G _ O). subst mn mx. unfold fits, u64_max in *.
  cbn [fmap list_fmap foldr] in *. change (2 ^ (8 * Z.of_nat 8)) with (2 ^ 64). lia.
Qed.

Lemma delta_built_footer es obj f gs hashes e z :
  delta_built es obj f gs hashes e z → Forall delta_entry_ok es → StronglySorted delta_lt es →
  layer_sized obj f (zlen es) →
  footer_ok f (8 + zlen (body_of encode_delta_entry gs)) ∧ fits 4 (zlen (encode_footer f)).
Proof.
  intros [Q G He Hz _ Ef Eo] O S (Z1 & Z2 & Z3).
  assert (Ff : fits 4 (zlen (encode_footer f))) by (unfold u32_max in Z2; zlen_lia).
  split; [|done]. destruct (lsn_bounds es e He O) as (M1 & M2 & M3).
  subst es. rewrite Eo in Z1. clear Eo obj. subst f. unfold u64_max in Z1, Z3.
  apply (groups_footer_ok _ _ Delta delta_lt); eauto with zou; [zlen_lia|unfold u64_max; zlen_lia|].
  apply from_bits_from_hashes.
Qed.

Lemma delta_built_decodes es obj f gs hashes e z :
  delta_built es obj f gs hashes e z → Forall delta_entry_ok es → Forall record_fits es →
  StronglySorted delta_lt es → layer_sized obj f (zlen es) → decode_delta obj = Ok (es, f).
Proof.
  intros B O F S Z. destruct (delta_built_footer _ _ _ _ _ _ _ B O S Z) as [Fo Ff].
  destruct B as [Q G He Hz _ Ef Eo].
  assert (Kf : lf_kind f = Delta) by by rewrite Ef.
  assert (Bf : lf_blocks f = dlayout 8 gs) by by rewrite Ef.
  unfold decode_delta.
  assert (P : parse_shell obj = Ok (f, 8 + zlen (body_of encode_delta_entry gs))).
  { rewrite Eo, <-Kf. by apply parse_shell_encoded. }
  rewrite P, bind_run. unfold check_kind. rewrite guard_run by by rewrite bool_decide_true.
  rewrite Bf, Eo. subst es. by rewrite (decode_delta_blocks_stored (header Delta) gs _ 8 0 []).
Qed.

(** ** What the builder refuses *)
Fixpoint delta_verdict (prev : option DeltaEntry) (es : list DeltaEntry) : option LayerBuildError :=
  match es with
  | [] => match prev with None => Some BuildEmpty | Some _ => None end
  | e :: es =>
      if match prev with Some p => bool_decide (delta_lt p e) | None => true end then
        if bool_decide (record_fits e) then delta_verdict (Some e) es else Some RecordTooLarge
      else Some BuildUnsorted
  end.

Lemma delta_push_refused target gs cur b e :
  delta_inv target gs cur b →
  (∀ p, last (concat gs ++ cur) = Some p → ¬ delta_lt p e →
    delta_push b (de_key e) (de_lsn e) (de_record e) = Err BuildUnsorted) ∧
  ((∀ p, last (concat gs ++ cur) = Some p → delta_lt p e) → ¬ record_fits e →
    delta_push b (de_key e) (de_lsn e) (de_record e) = Err RecordTooLarge).
Proof.
  intros [B Tg L Tot Mn Mx Hh Ss Ls]. unfold delta_push. split.
  - intros p Lp N. rewrite guard_stop; [done|]. rewrite L, Lp. by apply (not_olt (delta_pos p) (delta_pos e)) in N.
  - intros P N. rewrite guard_run; cycle 1.
    { rewrite L. destruct (last _) as [p|]; [|done]. apply oleb_false. by apply P. }
    rewrite guard_stop; [done|]. zbool. unfold record_fits in N. lia.
Qed.

Lemma delta_push_all_verdict target es : ∀ gs cur b,
  target ≤ MAX_BLOCK_RAW_LEN → delta_inv target gs cur b → Forall delta_entry_ok es →
  match delta_verdict (last (concat gs ++ cur)) es with
  | Some BuildEmpty => es = [] ∧ concat gs ++ cur = []
  | Some err => delta_push_all b es = Err err
  | None => es ++ concat gs ++ cur ≠ [] ∧ StronglySorted delta_lt ((concat gs ++ cur) ++ es) ∧
            Forall record_fits es
  end.
Proof.
  induction es as [|e es IH]; intros gs cur b T I O; simpl.
  - destruct (last _) as [p|] eqn:L.
    + rewrite app_nil_r. split_and!; [|by destruct I|done]. by intros N; rewrite N in L.
    + by apply last_None in L.
  - apply Forall_cons in O as [Oe O]. destruct (delta_push_refused _ _ _ _ e I) as [R1 R2].
    destruct (match last (concat gs ++ cur) with Some p => bool_decide (delta_lt p e)
      | None => true end) eqn:C; cycle 1.
    { destruct (last _) as [p|]; [|done]. apply bool_decide_eq_false in C. by erewrite R1. }
    assert (Lt : ∀ p, last (concat gs ++ cur) = Some p → delta_lt p e).
    { intros p Lp. rewrite Lp in C. by apply bool_decide_eq_true in C. }
    case_bool_decide as Rf; [|by rewrite (R2 Lt Rf)].
    assert (Sn : StronglySorted delta_lt ((concat gs ++ cur) ++ [e]))
      by (apply sorted_snoc; [apply _|apply I|done]).
    destruct (delta_push_inv target gs cur b e T I Oe Rf Sn) as (b1 & gs1 & cur1 & P & I1 & Q).
    specialize (IH gs1 cur1 b1 T I1 O). rewrite Q, last_snoc in IH. rewrite P, bind_run.
    destruct (delta_verdict (Some e) es) as [[]|]; try done.
    + by destruct IH as [_ [_ ?]%app_nil].
    + destruct IH as (_ & Si & Fi). rewrite <-app_assoc in Si. split_and!; [done|done|].
      by constructor.
Qed.

Lemma delta_verdict_build es target :
  Forall delta_entry_ok es → target ≤ MAX_BLOCK_RAW_LEN →
  match delta_verdict None es with
  | Some err => build_delta es target = Err err
  | None => es ≠ [] ∧ StronglySorted delta_lt es ∧ Forall record_fits es
  end.
Proof.
  intros O T. pose proof (delta_push_all_verdict target es [] [] _ T (delta_new_inv target) O) as V.
  simpl in V. unfold build_delta. rewrite app_nil_r in V.
  destruct (delta_verdict None es) as [[]|]; try (by rewrite V); [|done].
  by destruct V as [-> _].
Qed.
End delta.

Definition image_lt : relation ImageEntry := λ x y, olt (ie_key x) (ie_key y).
#[global] Instance image_lt_trans : Transitive image_lt.
Proof. intros x y z. unfold image_lt. apply olt_trans. Qed.
#[global] Instance image_lt_dec x y : Decision (image_lt x y).
Proof. unfold image_lt. apply _. Defined.

Definition image_entry_ok (e : ImageEntry) : Prop := key_ok (ie_key e).
Definition page_fits (e : ImageEntry) : Prop := zlen (ie_page e) = PAGE_IMAGE_LEN.
#[global] Instance image_entry_ok_dec e : Decision (image_entry_ok e).
Proof. unfold image_entry_ok. apply _. Defined.
#[global] Instance page_fits_dec e : Decision (page_fits e).
Proof. unfold page_fits. apply _. Defined.

Lemma image_lt_apart x y : image_lt x y → apart Image (ie_key x) (ie_key y).
Proof. done. Qed.
Lemma zlen_encode_image_entry e : zlen (encode_image_entry e) = 18 + zlen (ie_page e).
Proof. unfold encode_image_entry. zlen_lia. Qed.
#[export] Hint Rewrite zlen_encode_image_entry : len.
Lemma encode_image_entry_pos e : 1 ≤ zlen (encode_image_entry e).
Proof. zlen_lia. Qed.
#[export] Hint Resolve image_lt_apart encode_image_entry_pos : zou.

Section image.
Context `{CrcOk, Lz4Ok}.
Notation igroup_ok := (group_ok encode_image_entry ie_key image_lt).
Notation ilayout := (layout encode_image_entry ie_key).

Record image_inv (lsn target : Z) (gs : list (list ImageEntry)) (cur : list ImageEntry)
    (b : ImageBuilder) : Prop := {
  ii_blocks : blocks_inv encode_image_entry ie_key Image image_lt gs cur
                (ib_buf b) (ib_blocks b) (ib_raw b) (ib_count b) (ib_first b);
  ii_target : ib_target b = target;
  ii_lsn : ib_lsn b = lsn;
  ii_last : ib_last b = ie_key <$> last (concat gs ++ cur);
  ii_total : ib_total b = zlen (concat gs ++ cur);
  ii_hashes : hashes_inv (ib_hashes b) (ie_key <$> concat gs ++ cur);
  ii_sorted : StronglySorted image_lt (concat gs ++ cur)
}.

Lemma image_new_inv lsn target : image_inv lsn target [] [] (image_new lsn target).
Proof.
  split; try done; [apply blocks_new| |constructor].
  exists []. split_and!; [done|constructor|done].
Qed.

Lemma image_hashes_step hashes es e :
  hashes_inv hashes (ie_key <$> es) → StronglySorted image_lt (es ++ [e]) →
  hashes_inv (hashes ++ [bloom_hash (key_encode (ie_key e))]) (ie_key <$> es ++ [e]).
Proof.
  intros I S. rewrite fmap_app. apply hashes_push; [done|].
  intros (x & Ex & Hx)%list_elem_of_fmap.
  assert (image_lt x e) as L by (eapply StronglySorted_app_1_elem_of; [done|done|by left]).
  unfold image_lt in L. rewrite Ex in L. by apply olt_irrefl in L.
Qed.

Lemma image_inv_snoc lsn target gs cur b e gs' cur' b' :
  image_inv lsn target gs cur b →
  StronglySorted image_lt ((concat gs ++ cur) ++ [e]) →
  concat gs' ++ cur' = (concat gs ++ cur) ++ [e] →
  blocks_inv encode_image_entry ie_key Image image_lt gs' cur'
    (ib_buf b') (ib_blocks b') (ib_raw b') (ib_count b') (ib_first b') →
  ib_target b' = ib_target b → ib_lsn b' = ib_lsn b → ib_last b' = Some (ie_key e) →
  ib_total b' = ib_total b + 1 →
  hashes_inv (ib_hashes b') (ie_key <$> (concat gs ++ cur) ++ [e]) →
  image_inv lsn target gs' cur' b'.
Proof.
  intros [B Tg Li L Tot Hh S] Sn Q B' T' Li' L' N' H'.
  split; rewrite ?Q; try done; [congruence..| |].
  - by rewrite last_snoc.
  - rewrite N', Tot, (zlen_app _ [e]). done.
Qed.

Lemma image_open_nil lsn target gs cur b :
  image_inv lsn target gs cur b → last (concat gs ++ cur) = None ↔ cur = [].
Proof.
  intros [B _ _ _ _ _ _]. rewrite last_None. split; [by intros [_ ?]%app_nil|]. intros ->.
  destruct (bi_open _ _ _ _ _ _ _ _ _ _ _ B) as [[_ ->]|[? _ _]]; done.
Qed.

Lemma image_push_inv lsn target gs cur b e :
  target ≤ MAX_BLOCK_RAW_LEN → image_inv lsn target gs cur b → image_entry_ok e → page_fits e →
  StronglySorted image_lt ((concat gs ++ cur) ++ [e]) →
  ∃ b' gs' cur', image_push b (ie_key e) (ie_page e) = Ok b' ∧
    image_inv lsn target gs' cur' b' ∧ concat gs' ++ cur' = (concat gs ++ cur) ++ [e].
Proof.
  intros T I Oe Pf Sn. pose proof I as [B Tg _ L _ Hh _]. unfold page_fits in Pf.
  pose proof (bi_raw_nil _ _ _ _ encode_image_entry_pos _ _ _ _ _ _ _ B) as Rn.
  pose proof (image_open_nil _ _ _ _ _ I) as Cl.
  assert (Zr : zlen (encode_image_entry e) ≤ MAX_BLOCK_RAW_LEN).
  { rewrite zlen_encode_image_entry, Pf. done. }
  unfold image_push. rewrite guard_run; cycle 1.
  { rewrite L. destruct (last _) as [p|] eqn:El; [|done]. simpl. apply oleb_false.
    by apply (sorted_snoc_inv _ _ _ _ Sn El). }
  rewrite guard_run by (rewrite Pf; done). rewrite L, Tg.
  pose proof (image_hashes_step _ _ _ Hh Sn) as Hs.
  replace (match ie_key <$> last (concat gs ++ cur) with
           | None => ie_key e | Some _ => ib_first b end)
    with (if decide (cur = []) then ie_key e else ib_first b)
    by (destruct (last _); case_decide; naive_solver).
  replace (mkImage (ie_key e) (ie_page e)) with e by by destruct e.
  destruct (negb _ && _) eqn:C.
  - apply andb_true_iff in C as [C1 _]. apply negb_true_iff, bool_decide_eq_false in C1.
    rewrite Rn in C1. rewrite decide_False by done.
    destruct (last cur) as [p|] eqn:Lc; [|by apply last_None in Lc].
    destruct (blocks_close _ _ _ _ _ _ _ _ _ _ _ (ie_key p) B C1) as [P _]; [by rewrite Lc|].
    rewrite last_app, Lc. cbn [fmap option_fmap option_map expect]. rewrite bind_run.
    rewrite P. eexists (mkIB _ _ _ _ _ _ _ _ _ _), (gs ++ [cur]), [e]. split; [reflexivity|].
    assert (Q : concat (gs ++ [cur]) ++ [e] = (concat gs ++ cur) ++ [e]).
    { rewrite concat_app. simpl. by rewrite app_nil_r. }
    split; [|done]. eapply image_inv_snoc; try done.
    cbn [ib_buf ib_blocks ib_raw ib_count ib_first].
    eapply (blocks_reopen _ _ _ _ _ _ _ _ _ _ _ (ie_key p)); [done..|by rewrite Lc|done|done].
  - eexists (mkIB _ _ _ _ _ _ _ _ _ _), gs, (cur ++ [e]). split; [reflexivity|].
    rewrite app_assoc. split; [|done]. eapply image_inv_snoc; try done; [by rewrite app_assoc|].
    cbn [ib_buf ib_blocks ib_raw ib_count ib_first].
    apply blocks_extend; [eauto with zou..|]. apply andb_false_iff in C as [C|C].
    + apply negb_false_iff, bool_decide_eq_true in C. by rewrite C.
    + zbool. unfold KEY_ENCODED_LEN in C. zlen_lia.
Qed.

Lemma image_push_all_inv lsn target gs cur b es :
  target ≤ MAX_BLOCK_RAW_LEN → image_inv lsn target gs cur b → Forall image_entry_ok es →
  Forall page_fits es → StronglySorted image_lt ((concat gs ++ cur) ++ es) →
  ∃ b' gs' cur', image_push_all b es = Ok b' ∧
    image_inv lsn target gs' cur' b' ∧ concat gs' ++ cur' = (concat gs ++ cur) ++ es.
Proof.
  intros T I O. revert gs cur b I. induction O as [|e es Oe O IH]; intros gs cur b I R S.
  - exists b, gs, cur. by rewrite app_nil_r.
  - apply Forall_cons in R as [Re R]. rewrite cons_middle, app_assoc in S.
    destruct (image_push_inv lsn target gs cur b e) as (b1 & gs1 & cur1 & P & I1 & Q);
      [done..|by eapply StronglySorted_app_1_l|].
    rewrite <-Q in S. destruct (IH _ _ _ I1 R S) as (b2 & gs2 & cur2 & P2 & I2 & Q2).
    exists b2, gs2, cur2. cbn [image_push_all]. rewrite P, bind_run. split_and!; [done..|].
    by rewrite Q2, Q, <-app_assoc.
Qed.

(** ** Decoding *)
Lemma read_image_entries_encoded g rest acc :
  Forall image_entry_ok g → Forall page_fits g → StronglySorted image_lt (acc ++ g) →
  read_image_entries (length g) (raw_of encode_image_entry g ++ rest) acc = Ok (acc ++ g, rest).
Proof.
  intros O. revert acc. induction O as [|e g Oe O IH]; intros acc F S.
  - simpl. by rewrite app_nil_r.
  - apply Forall_cons in F as [Fe F]. unfold raw_of in *. rewrite fmap_cons.
    cbn [length read_image_entries concat]. rewrite <-app_assoc.
    rewrite take_n_app, bind_run by (rewrite zlen_encode_image_entry, Fe; done). cbv zeta iota beta.
    assert (Ek : key_decode (sub (encode_image_entry e) 0 KEY_ENCODED_LEN) = ie_key e).
    { unfold encode_image_entry. rewrite sub_prefix by by rewrite zlen_key_encode.
      rewrite <-(app_nil_r (key_encode _)). by apply key_decode_encode. }
    assert (Ep : drop (Z.to_nat KEY_ENCODED_LEN) (encode_image_entry e) = ie_page e).
    { unfold encode_image_entry. rewrite drop_app_ge; [|done]. by rewrite drop_0. }
    rewrite Ek, Ep. rewrite cons_middle, app_assoc in S. rewrite guard_run.
    { replace (mkImage (ie_key e) (ie_page e)) with e by by destruct e.
      rewrite IH by done. by rewrite <-app_assoc. }
    destruct (last acc) as [p|] eqn:L; [|done]. apply oleb_false.
    apply StronglySorted_app_1_l in S. by apply (sorted_snoc_inv _ _ _ _ S L).
Qed.

Lemma zlen_raw_image g : Forall page_fits g → zlen (raw_of encode_image_entry g) = zlen g * (18 + 8192).
Proof.
  induction 1 as [|e g Fe F IH]; [done|]. unfold raw_of, page_fits, PAGE_IMAGE_LEN in *.
  rewrite fmap_cons. cbn [concat]. zlen_lia.
Qed.

Lemma decode_image_block_stored at_ g :
  igroup_ok g → Forall image_entry_ok g → Forall page_fits g → StronglySorted image_lt g →
  decode_image_block (stored_of encode_image_entry g) (meta_of encode_image_entry ie_key at_ g) = Ok g.
Proof.
  intros G O F S. unfold decode_image_block.
  rewrite (block_raw_stored _ _ image_lt), bind_run by eauto with zou.
  cbn [lb_entries meta_of]. cbv zeta. rewrite guard_run; cycle 1.
  { rewrite zlen_raw_image by done. unfold KEY_ENCODED_LEN, PAGE_IMAGE_LEN. zbool. lia. }
  rewrite to_nat_zlen, <-(app_nil_r (raw_of _ g)).
  rewrite (read_image_entries_encoded g [] []), bind_run by done. cbn [app].
  destruct (group_ends _ _ _ _ G) as (x & y & _ & _ & Ex & Ey & Kx & Ky).
  rewrite guard_run; [done|]. cbn [lb_first lb_last meta_of].
  rewrite Ex, Ey, Kx, Ky. cbn. by rewrite !bool_decide_true.
Qed.

Lemma decode_image_blocks_stored pre gs post at_ i acc :
  at_ = zlen pre → Forall igroup_ok gs → Forall image_entry_ok (concat gs) →
  Forall page_fits (concat gs) → StronglySorted image_lt (concat gs) →
  decode_image_blocks (pre ++ body_of encode_image_entry gs ++ post) i (ilayout at_ gs) acc =
  Ok (acc ++ concat gs).
Proof.
  intros -> G. revert pre i acc. induction G as [|g gs Gg G IH]; intros pre i acc O F S.
  - simpl. by rewrite app_nil_r.
  - simpl in O, F, S. apply Forall_app in O as [Og O], F as [Fg F].
    cbn [layout decode_image_blocks concat].
    rewrite body_of_cons, <-app_assoc, (block_bytes_layout _ _ image_lt), bind_run by eauto with zou.
    rewrite decode_image_block_stored by eauto using StronglySorted_app_1_l.
    cbn [map_err]. rewrite bind_run.
    rewrite (app_assoc pre), <-zlen_app, IH, app_assoc by eauto using StronglySorted_app_1_r. done.
Qed.

Definition image_footer_of (lsn : Lsn) (gs : list (list ImageEntry)) (hashes : list (Z * Z))
    (e z : ImageEntry) : LayerFooter :=
  mkFooter Image (ie_key e) (ie_key z) lsn lsn (zlen (concat gs)) (ilayout 8 gs) (from_hashes hashes).

(** Everything known of a built image layer. *)
Record image_built (lsn : Lsn) (es : list ImageEntry) (obj : bytes) (f : LayerFooter)
    (gs : list (list ImageEntry)) (hashes : list (Z * Z)) (e z : ImageEntry) : Prop := {
  it_concat : concat gs = es;
  it_ok : Forall igroup_ok gs;
  it_head : head es = Some e;
  it_tail : last es = Some z;
  it_hash : hashes_inv hashes (ie_key <$> es);
  it_footer : f = image_footer_of lsn gs hashes e z;
  it_obj : obj = header Image ++ body_of encode_image_entry gs ++ footer_tail f
}.

Lemma build_image_ok lsn es target :
  target ≤ MAX_BLOCK_RAW_LEN → es ≠ [] → Forall image_entry_ok es → Forall page_fits es →
  StronglySorted image_lt es →
  ∃ obj f gs hashes e z,
    build_image es lsn target = Ok (obj, f) ∧ image_built lsn es obj f gs hashes e z.
Proof.
  intros T N O F S. unfold build_image.
  destruct (image_push_all_inv lsn target [] [] (image_new lsn target) es)
    as (b & gs & cur & P & I & Q); [done|apply image_new_inv|done..|].
  rewrite P, bind_run. pose proof (image_open_nil _ _ _ _ _ I) as Cl.
  destruct I as [B Tg Li L Tot Hh Ss]. cbn [concat app] in Q.
  rewrite Q in L, Tot, Hh, Ss, Cl.
  destruct (last es) as [z|] eqn:Ez; [|by apply last_None in Ez].
  destruct (head es) as [e|] eqn:Ee; [|by apply head_None in Ee].
  assert (Nc : cur ≠ []) by by intros ?%Cl.
  destruct (last cur) as [p|] eqn:Lc; [|by apply last_None in Lc].
  assert (p = z) as -> by (rewrite <-Q, last_app, Lc in Ez; congruence).
  destruct (blocks_close _ _ _ _ _ _ _ _ _ _ _ (ie_key z) B Nc) as [Pb G]; [by rewrite Lc|].
  assert (Qg : concat (gs ++ [cur]) = es) by (rewrite concat_app; simpl; by rewrite app_nil_r).
  unfold image_finish. rewrite L. cbn [fmap option_fmap option_map ok_or]. rewrite bind_run, Pb.
  erewrite (finish_groups _ _ image_lt); [|done|by rewrite Qg|by rewrite Qg].
  eexists _, _, (gs ++ [cur]), (ib_hashes b), e, z. split; [done|].
  split; try done. unfold image_footer_of. rewrite Qg, Li, Tot. done.
Qed.

Lemma image_built_footer lsn es obj f gs hashes e z :
  image_built lsn es obj f gs hashes e z → fits 8 lsn → StronglySorted image_lt es →
  layer_sized obj f (zlen es) →
  footer_ok f (8 + zlen (body_of encode_image_entry gs)) ∧ fits 4 (zlen (encode_footer f)).
Proof.
  intros [Q G He Hz _ Ef Eo] Fl S (Z1 & Z2 & Z3).
  assert (Ff : fits 4 (zlen (encode_footer f))) by (unfold u32_max in Z2; zlen_lia).
  split; [|done].
  subst es. rewrite Eo in Z1. clear Eo obj. subst f. unfold u64_max in Z1, Z3.
  apply (groups_footer_ok _ _ Image image_lt); eauto with zou; [lia|zlen_lia|unfold u64_max; zlen_lia|].
  apply from_bits_from_hashes.
Qed.

Lemma image_built_decodes lsn es obj f gs hashes e z :
  image_built lsn es obj f gs hashes e z → fits 8 lsn → Forall image_entry_ok es →
  Forall page_fits es → StronglySorted image_lt es → layer_sized obj f (zlen es) →
  decode_image obj = Ok (es, f).
Proof.
  intros B Fl O F S Z. destruct (image_built_footer _ _ _ _ _ _ _ _ B Fl S Z) as [Fo Ff].
  destruct B as [Q G He Hz _ Ef Eo].
  assert (Kf : lf_kind f = Image) by by rewrite Ef.
  assert (Bf : lf_blocks f = ilayout 8 gs) by by rewrite Ef.
  unfold decode_image.
  assert (P : parse_shell obj = Ok (f, 8 + zlen (body_of encode_image_entry gs))).
  { rewrite Eo, <-Kf. by apply parse_shell_encoded. }
  rewrite P, bind_run. unfold check_kind. rewrite guard_run by by rewrite bool_decide_true.
  rewrite Bf, Eo. subst es. by rewrite (decode_image_blocks_stored (header Image) gs _ 8 0 []).
Qed.

(** ** What the builder refuses *)
Fixpoint image_verdict (prev : option ImageEntry) (es : list ImageEntry) : option LayerBuildError :=
  match es with
  | [] => match prev with None => Some BuildEmpty | Some _ => None end
  | e :: es =>
      if match prev with Some p => bool_decide (image_lt p e) | None => true end then
        if bool_decide (page_fits e) then image_verdict (Some e) es
        else Some (BadPageLen (zlen (ie_page e)))
      else Some BuildUnsorted
  end.

Lemma image_push_refused lsn target gs cur b e :
  image_inv lsn target gs cur b →
  (∀ p, last (concat gs ++ cur) = Some p → ¬ image_lt p e →
    image_push b (ie_key e) (ie_page e) = Err BuildUnsorted) ∧
  ((∀ p, last (concat gs ++ cur) = Some p → image_lt p e) → ¬ page_fits e →
    image_push b (ie_key e) (ie_page e) = Err (BadPageLen (zlen (ie_page e)))).
Proof.
  intros [B Tg Li L Tot Hh Ss]. unfold image_push. split.
  - intros p Lp N. rewrite guard_stop; [done|]. rewrite L, Lp.
    by apply (not_olt (ie_key p) (ie_key e)) in N.
  - intros P N. rewrite guard_run; cycle 1.
    { rewrite L. destruct (last _) as [p|]; [|done]. apply oleb_false. by apply P. }
    rewrite guard_stop; [done|]. by zbool.
Qed.

Lemma image_push_all_verdict lsn target es : ∀ gs cur b,
  target ≤ MAX_BLOCK_RAW_LEN → image_inv lsn target gs cur b → Forall image_entry_ok es →
  match image_verdict (last (concat gs ++ cur)) es with
  | Some BuildEmpty => es = [] ∧ concat gs ++ cur = []
  | Some err => image_push_all b es = Err err
  | None => es ++ concat gs ++ cur ≠ [] ∧ StronglySorted image_lt ((concat gs ++ cur) ++ es) ∧
            Forall page_fits es
  end.
Proof.
  induction es as [|e es IH]; intros gs cur b T I O; simpl.
  - destruct (last _) as [p|] eqn:L.
    + rewrite app_nil_r. split_and!; [|by destruct I|done]. by intros N; rewrite N in L.
    + by apply last_None in L.
  - apply Forall_cons in O as [Oe O]. destruct (image_push_refused _ _ _ _ _ e I) as [R1 R2].
    destruct (match last (concat gs ++ cur) with Some p => bool_decide (image_lt p e)
      | None => true end) eqn:C; cycle 1.
    { destruct (last _) as [p|]; [|done]. apply bool_decide_eq_false in C. by erewrite R1. }
    assert (Lt : ∀ p, last (concat gs ++ cur) = Some p → image_lt p e).
    { intros p Lp. rewrite Lp in C. by apply bool_decide_eq_true in C. }
    case_bool_decide as Rf; [|by rewrite (R2 Lt Rf)].
    assert (Sn : StronglySorted image_lt ((concat gs ++ cur) ++ [e]))
      by (apply sorted_snoc; [apply _|apply I|done]).
    destruct (image_push_inv lsn target gs cur b e T I Oe Rf Sn) as (b1 & gs1 & cur1 & P & I1 & Q).
    specialize (IH gs1 cur1 b1 T I1 O). rewrite Q, last_snoc in IH. rewrite P, bind_run.
    destruct (image_verdict (Some e) es) as [[]|]; try done.
    + by destruct IH as [_ [_ ?]%app_nil].
    + destruct IH as (_ & Si & Fi). rewrite <-app_assoc in Si. split_and!; [done|done|].
      by constructor.
Qed.

Lemma image_verdict_build es lsn target :
  Forall image_entry_ok es → target ≤ MAX_BLOCK_RAW_LEN →
  match image_verdict None es with
  | Some err => build_image es lsn target = Err err
  | None => es ≠ [] ∧ StronglySorted image_lt es ∧ Forall page_fits es
  end.
Proof.
  intros O T.
  pose proof (image_push_all_verdict lsn target es [] [] _ T (image_new_inv lsn target) O) as V.
  simpl in V. unfold build_image. rewrite app_nil_r in V.
  destruct (image_verdict None es) as [[]|]; try (by rewrite V); [|done].
  by destruct V as [-> _].
Qed.
End image.
