(* ===== verification/LayerLookup.v ===== *)
(** * LayerLookup: theorems about whole layers

    The claims about layer objects: the two round trips, the footer from a
    suffix, the index as a lookup structure, and decoding of arbitrary
    bytes. *)
From S2P Require Import Prelude Order Text Lsn Externals Bloom LayerKey Layer LayerBuild LayerRead.

(** ** The index finds every block that can hold a key *)
Section locate.
Context `{CrcOk, Lz4Ok} {E : Type}.
Variable enc : E → bytes.
Variable ekey : E → LayerKey.
Variable kind : LayerKind.
Variable R : relation E.
Hypothesis R_apart : ∀ x y, R x y → apart kind (ekey x) (ekey y).

Lemma group_before g k x :
  group_ok enc ekey R g → StronglySorted R g → olt (last_key ekey g) k → x ∈ g → olt (ekey x) k.
Proof.
  intros G S L Hx. destruct (group_ends _ _ _ _ G) as (_ & y & _ & _ & _ & Ey & _ & Ly).
  rewrite Ly in L. apply last_Some in Ey as [g' ->].
  apply elem_of_app in Hx as [Hx|Hx%list_elem_of_singleton]; [|by subst].
  eapply ole_olt_trans; [|done]. eapply apart_ole, R_apart.
  eapply StronglySorted_app_1_elem_of; [done|done|by left].
Qed.
Lemma group_after g gs k x :
  group_ok enc ekey R g → StronglySorted R (concat (g :: gs)) → olt k (first_key ekey g) →
  x ∈ concat (g :: gs) → olt k (ekey x).
Proof.
  intros G S L Hx. destruct (group_ends _ _ _ _ G) as (y & _ & _ & _ & Ey & _ & Fy & _).
  rewrite Fy in L. destruct g as [|y' g]; [done|]. simpl in Ey. simplify_eq. simpl in S, Hx.
  apply StronglySorted_cons in S as [S _]. rewrite Forall_forall in S.
  apply elem_of_cons in Hx as [->|Hx]; [done|].
  eapply olt_ole_trans; [done|]. eapply apart_ole, R_apart. by apply S.
Qed.

(** Skipping and taking split the groups in three, and only the middle can
    hold the key. *)
Lemma locate_layout gs k at_ :
  Forall (group_ok enc ekey R) gs → StronglySorted R (concat gs) →
  ∃ pre mid post, gs = pre ++ mid ++ post ∧
    take_while (λ b, oleb (lb_first b) k) (skip_while (λ b, oltb (lb_last b) k) (layout enc ekey at_ gs))
      = layout enc ekey (at_ + zlen (body_of enc pre)) mid ∧
    ∀ x, x ∈ concat pre ++ concat post → ekey x ≠ k.
Proof.
  revert at_. induction gs as [|g gs IH]; intros at_ F S.
  { exists [], [], []. split_and!; [done..|set_solver]. }
  apply Forall_cons in F as [G F]. pose proof S as S0. simpl in S.
  apply StronglySorted_app in S as (S1 & S2 & S3). cbn [layout skip_while lb_last meta_of].
  destruct (oltb (last_key ekey g) k) eqn:C.
  - destruct (IH (at_ + zlen (stored_of enc g)) F S3) as (pre & mid & post & -> & Q & N).
    exists (g :: pre), mid, post. split_and!; [done| |].
    + rewrite Q. rewrite body_of_cons, zlen_app. f_equal. lia.
    + intros x Hx. cbn [concat] in Hx. rewrite <-app_assoc in Hx.
      apply elem_of_app in Hx as [Hx|Hx]; [|by apply N].
      by eapply olt_ne, group_before.
  - clear IH C. exists []. rewrite Z.add_0_r. cbn [concat app].
    change (meta_of enc ekey at_ g :: layout enc ekey (at_ + zlen (stored_of enc g)) gs)
      with (layout enc ekey at_ (g :: gs)).
    assert (F' : Forall (group_ok enc ekey R) (g :: gs)) by by constructor.
    clear G F S1 S2 S3. revert at_ F' S0. generalize (g :: gs) as hs. clear g gs.
    induction hs as [|h hs IH]; intros at_ F S.
    { exists [], []. split_and!; [done..|set_solver]. }
    apply Forall_cons in F as [G F]. cbn [layout take_while lb_first meta_of].
    destruct (oleb (first_key ekey h) k) eqn:C.
    + simpl in S. apply StronglySorted_app in S as (S1 & S2 & S3).
      destruct (IH (at_ + zlen (stored_of enc h)) F S3) as (mid & post & -> & Q & N).
      exists (h :: mid), post. split_and!; [done| |done]. cbn [layout]. by rewrite Q.
    + exists [], (h :: hs). split_and!; [done..|]. intros x Hx E1. apply oleb_false in C.
      pose proof (group_after h hs k x G S C Hx) as L. rewrite E1 in L. by apply olt_irrefl in L.
Qed.
End locate.

(** ** Arbitrary bytes *)
Section garbage.
Context `{Crc, Lz4}.

(** The rows an index loop accepted tile the block region. *)
Fixpoint contig (at_ : Z) (bs : list LayerBlock) (end_ : Z) : Prop :=
  match bs with
  | [] => at_ = end_
  | b :: bs => lb_offset b = at_ ∧ 0 ≤ lb_len b ∧ contig (at_ + lb_len b) bs end_
  end.
Lemma contig_le at_ bs end_ : contig at_ bs end_ → at_ ≤ end_.
Proof.
  revert at_. induction bs as [|b bs IH]; simpl; intros at_ C; [lia|].
  destruct C as (_ & ? & C). apply IH in C. lia.
Qed.
Lemma contig_inside at_ bs end_ b :
  contig at_ bs end_ → b ∈ bs → at_ ≤ lb_offset b ∧ 0 ≤ lb_len b ∧ lb_offset b + lb_len b ≤ end_.
Proof.
  revert at_. induction bs as [|b' bs IH]; simpl; intros at_ C Hb; [set_solver|].
  destruct C as (<- & ? & C). apply elem_of_cons in Hb as [->|Hb].
  - apply contig_le in C. lia.
  - destruct (IH _ C Hb) as (? & ? & ?). lia.
Qed.

Lemma read_block_meta_len rest b rest' :
  read_block_meta rest = Ok (b, rest') → 0 ≤ lb_len b.
Proof.
  unfold read_block_meta. intros E. bind_all E. unfold mret, res_ret in E.
  apply (inj Ok) in E. injection E as <- _. cbn [lb_len]. apply le_val_fits.
Qed.

Lemma read_blocks_contig kind n rest at_ sum acc bs at' sum' rest' :
  read_blocks kind n rest at_ sum acc = Ok (bs, at', sum', rest') →
  ∃ new, bs = acc ++ new ∧ length new = n ∧ contig at_ new at'.
Proof.
  revert rest at_ sum acc. induction n as [|n IH]; intros rest at_ sum acc E.
  - cbn [read_blocks] in E. apply (inj Ok) in E. simplify_eq. exists []. by rewrite app_nil_r.
  - cbn [read_blocks] in E. apply bind_ok in E as ([b rest1] & Eb & E).
    bind_inv E. bind_inv E. apply IH in E as (new & -> & L & C).
    exists (b :: new). rewrite <-app_assoc. split_and!; [done|simpl; lia|].
    apply read_block_meta_len in Eb. unfold bad_block in Hb. zbool. done.
Qed.

Lemma no_panic_read_block_meta rest : no_panic (read_block_meta rest).
Proof. unfold read_block_meta. repeat np_step. Qed.
Lemma no_panic_read_blocks kind n rest at_ sum acc :
  no_panic (read_blocks kind n rest at_ sum acc).
Proof.
  revert rest at_ sum acc. induction n as [|n IH]; intros; cbn [read_blocks]; [done|].
  apply no_panic_bind; [apply no_panic_read_block_meta|]. intros [b r] _.
  do 2 np_step. apply IH.
Qed.

Lemma no_panic_footer kind body start : no_panic (parse_footer_body kind body start).
Proof.
  unfold parse_footer_body. do 6 np_step. np_step.
  apply no_panic_bind; [apply no_panic_read_blocks|]. intros [[[bs at'] sum'] rest'] Eb.
  apply read_blocks_contig in Eb as (new & -> & L & _). cbn [app].
  np_step. destruct new as [|b new].
  { simpl in L. pose proof (le_val_fits s4). unfold fits in *. lia. }
  destruct (last (b :: new)) as [z|] eqn:Lz; [|by apply last_None in Lz].
  cbn [head expect]. rewrite !bind_run. do 4 np_step.
  apply no_panic_bind; [apply no_panic_ok_or|]. intros bl _. repeat np_step.
Qed.

Lemma parse_footer_contig kind body start f :
  parse_footer_body kind body start = Ok f → contig HEADER_LEN (lf_blocks f) start.
Proof.
  unfold parse_footer_body. intros E.
  do 6 (apply bind_ok in E as ([? ?] & _ & E)). bind_inv E.
  apply bind_ok in E as ([[[bs at'] sum'] rest'] & Eb & E).
  apply read_blocks_contig in Eb as (new & -> & _ & C).
  bind_inv E. zbool. subst. do 2 (apply bind_ok in E as (? & _ & E)).
  bind_inv E. apply bind_ok in E as ([? ?] & _ & E). bind_inv E.
  apply bind_ok in E as ([? ?] & _ & E). apply bind_ok in E as (? & _ & E). bind_inv E.
  apply (inj Ok) in E as <-. done.
Qed.

Lemma no_panic_header h : no_panic (parse_header h).
Proof.
  unfold parse_header, HEADER_LEN. np_step. np_step. np_step. np_step. np_step. np_step.
  destruct (_ =? 0); [done|]. by destruct (_ =? 1).
Qed.

Lemma no_panic_shell buf : no_panic (parse_shell buf).
Proof.
  unfold parse_shell, HEADER_LEN, TAIL_LEN. np_step. np_step.
  apply no_panic_bind; [apply no_panic_header|]. intros kind _.
  do 10 np_step. apply no_panic_bind; [apply no_panic_footer|]. done.
Qed.

Lemma parse_shell_contig buf f start :
  parse_shell buf = Ok (f, start) → contig HEADER_LEN (lf_blocks f) start ∧ start ≤ zlen buf.
Proof.
  unfold parse_shell. intros E. bind_inv E. bind_inv E.
  apply bind_ok in E as (kind & _ & E). bind_inv E. bind_inv E. bind_inv E.
  apply bind_ok in E as (fl & Efl & E). apply bind_ok in E as (? & _ & E).
  bind_inv E. bind_inv E. bind_inv E. bind_inv E. bind_inv E.
  apply bind_ok in E as (f' & Ef & E). apply (inj Ok) in E. injection E as <- <-.
  apply parse_footer_contig in Ef. split; [done|].
  unfold le_at in Efl. bind_inv Efl. apply (inj Ok) in Efl as <-.
  match goal with |- context [le_val ?l] => pose proof (le_val_fits l) as F end.
  unfold fits, TAIL_LEN in *. lia.
Qed.

Lemma no_panic_block_raw b meta : no_panic (block_raw b meta).
Proof.
  unfold block_raw. np_step. apply no_panic_bind.
  - destruct (_ && _); [done|]. destruct (_ =? _); auto with zou.
  - intros raw _. repeat np_step.
Qed.
Lemma no_panic_read_delta_entries n rest acc : no_panic (read_delta_entries n rest acc).
Proof.
  revert rest acc. induction n as [|n IH]; intros; cbn [read_delta_entries]; [done|].
  apply no_panic_bind; [unfold read_delta_entry; repeat np_step|]. intros [e r] _. np_step. apply IH.
Qed.
Lemma no_panic_delta_block b meta : no_panic (decode_delta_block b meta).
Proof.
  unfold decode_delta_block. apply no_panic_bind; [apply no_panic_block_raw|]. intros raw _.
  apply no_panic_bind; [apply no_panic_read_delta_entries|]. intros [es r] _. repeat np_step.
Qed.
Lemma no_panic_read_image_entries n rest acc : no_panic (read_image_entries n rest acc).
Proof.
  revert rest acc. induction n as [|n IH]; intros; cbn [read_image_entries]; [done|].
  np_step. np_step. apply IH.
Qed.
Lemma no_panic_image_block b meta : no_panic (decode_image_block b meta).
Proof.
  unfold decode_image_block. apply no_panic_bind; [apply no_panic_block_raw|]. intros raw _.
  np_step. apply no_panic_bind; [apply no_panic_read_image_entries|]. intros [es r] _. repeat np_step.
Qed.

Definition inside (buf : bytes) (b : LayerBlock) : Prop :=
  0 ≤ lb_offset b ∧ 0 ≤ lb_len b ∧ lb_offset b + lb_len b ≤ zlen buf.
Lemma no_panic_delta_blocks buf i bs acc :
  Forall (inside buf) bs → no_panic (decode_delta_blocks buf i bs acc).
Proof.
  intros F. revert i acc. induction F as [|b bs (A1 & A2 & A3) F IH]; intros; cbn; [done|].
  apply no_panic_bind; [apply no_panic_slice; lia|]. intros by_ _.
  apply no_panic_bind; [apply no_panic_map_err, no_panic_delta_block|]. intros es _.
  np_step. apply IH.
Qed.
Lemma no_panic_image_blocks buf i bs acc :
  Forall (inside buf) bs → no_panic (decode_image_blocks buf i bs acc).
Proof.
  intros F. revert i acc. induction F as [|b bs (A1 & A2 & A3) F IH]; intros; cbn; [done|].
  apply no_panic_bind; [apply no_panic_slice; lia|]. intros by_ _.
  apply no_panic_bind; [apply no_panic_map_err, no_panic_image_block|]. intros es _. apply IH.
Qed.
Lemma shell_blocks_inside buf f start :
  parse_shell buf = Ok (f, start) → Forall (inside buf) (lf_blocks f).
Proof.
  intros (C & L)%parse_shell_contig. apply Forall_forall. intros b Hb.
  destruct (contig_inside _ _ _ _ C Hb) as (? & ? & ?). unfold inside, HEADER_LEN in *. lia.
Qed.
End garbage.

(** ** Built layers *)
Section built.
Context `{CrcOk, Lz4Ok}.

Lemma build_delta_built es target obj f :
  Forall delta_entry_ok es → target ≤ MAX_BLOCK_RAW_LEN → build_delta es target = Ok (obj, f) →
  StronglySorted delta_lt es ∧ Forall record_fits es ∧
  ∃ gs hashes e z, delta_built es obj f gs hashes e z.
Proof.
  intros O T Eb. pose proof (delta_verdict_build es target O T) as V.
  destruct (delta_verdict None es); [congruence|]. destruct V as (N & S & F).
  destruct (build_delta_ok es target T N O F S) as (obj' & f' & gs & hs & e & z & Eb' & B).
  rewrite Eb in Eb'. apply (inj Ok) in Eb'. simplify_eq. eauto 10.
Qed.
Lemma build_image_built es lsn target obj f :
  Forall image_entry_ok es → target ≤ MAX_BLOCK_RAW_LEN → build_image es lsn target = Ok (obj, f) →
  StronglySorted image_lt es ∧ Forall page_fits es ∧
  ∃ gs hashes e z, image_built lsn es obj f gs hashes e z.
Proof.
  intros O T Eb. pose proof (image_verdict_build es lsn target O T) as V.
  destruct (image_verdict None es); [congruence|]. destruct V as (N & S & F).
  destruct (build_image_ok lsn es target T N O F S) as (obj' & f' & gs & hs & e & z & Eb' & B).
  rewrite Eb in Eb'. apply (inj Ok) in Eb'. simplify_eq. eauto 10.
Qed.

(** Decoding gives back the entries and the footer, for an object whose
    counts and offsets fit the fields of the format. *)
Definition reads_back {A} (dec : bytes → res LayerDecodeError (list A * LayerFooter))
    (obj : bytes) (f : LayerFooter) (es : list A) : Prop :=
  layer_sized obj f (zlen es) → dec obj = Ok (es, f).
(** The last [n] bytes of an object, what a suffix range read returns. *)
Definition suffix (obj : bytes) (n : Z) : bytes := drop (Z.to_nat (zlen obj - n)) obj.

(** A delta layer reads back.  [build_delta] refuses exactly the inputs
    that are empty, out of order or hold an oversized record, naming the
    first problem; any other input builds, and decoding the object gives
    the same entries in the same order and the footer the builder returned,
    for every block target up to the block limit. *)
Theorem delta_round_trip (es : list DeltaEntry) (target : Z) :
  Forall delta_entry_ok es → target ≤ MAX_BLOCK_RAW_LEN →
  match delta_verdict None es with
  | Some err => build_delta es target = Err err
  | None => ∃ obj f, build_delta es target = Ok (obj, f) ∧
      reads_back decode_delta obj f es
  end.
Proof.
  intros O T. pose proof (delta_verdict_build es target O T) as V.
  destruct (delta_verdict None es); [done|]. destruct V as (N & S & F).
  destruct (build_delta_ok es target T N O F S) as (obj & f & gs & hs & e & z & Eb & B).
  exists obj, f. split; [done|]. intros Z. by eapply delta_built_decodes.
Qed.

(** An image layer reads back: the same statement for whole pages at
    one lsn, where a page of the wrong length is refused with its length. *)
Theorem image_round_trip (es : list ImageEntry) (lsn : Lsn) (target : Z) :
  Forall image_entry_ok es → fits 8 lsn → target ≤ MAX_BLOCK_RAW_LEN →
  match image_verdict None es with
  | Some err => build_image es lsn target = Err err
  | None => ∃ obj f, build_image es lsn target = Ok (obj, f) ∧
      lf_min_lsn f = lsn ∧ lf_max_lsn f = lsn ∧
      reads_back decode_image obj f es
  end.
Proof.
  intros O Fl T. pose proof (image_verdict_build es lsn target O T) as V.
  destruct (image_verdict None es); [done|]. destruct V as (N & S & F).
  destruct (build_image_ok lsn es target T N O F S) as (obj & f & gs & hs & e & z & Eb & B).
  exists obj, f. split; [done|]. split_and!; [by rewrite (it_footer _ _ _ _ _ _ _ _ B)..|].
  intros Z. by eapply image_built_decodes.
Qed.

(** The footer of a built layer can be had from any suffix of the
    object.  A suffix long enough gives the very footer the builder
    returned; a shorter one is refused with the exact number of bytes to
    ask for, so one retry always succeeds. *)
Theorem footer_from_suffix (es : list DeltaEntry) (target n : Z) (obj : bytes) (f : LayerFooter) :
  Forall delta_entry_ok es → target ≤ MAX_BLOCK_RAW_LEN → build_delta es target = Ok (obj, f) →
  layer_sized obj f (zlen es) → TAIL_LEN ≤ n ≤ zlen obj →
  let need := zlen (encode_footer f) + TAIL_LEN in
  need ≤ zlen obj ∧
  read_layer_footer_suffix Delta (suffix obj n) (zlen obj) =
  if n <? need then Err (LTruncated n need) else Ok f.
Proof.
  intros O T Eb Z Hn need.
  destruct (build_delta_built _ _ _ _ O T Eb) as (S & F & gs & hs & e & z & B).
  destruct (delta_built_footer _ _ _ _ _ _ _ B O S Z) as [Fo Ff].
  pose proof (dt_obj _ _ _ _ _ _ _ B) as Eo. pose proof (dt_footer _ _ _ _ _ _ _ B) as Ef.
  assert (Kf : lf_kind f = Delta) by by rewrite Ef.
  split.
  - rewrite Eo. unfold need, TAIL_LEN. zlen_lia.
  - rewrite <-Kf in Eo. rewrite Eo in Hn |- *. rewrite <-Kf at 1. by apply suffix_encoded.
Qed.

(** Fetch and decode the given blocks of an object, one range read each. *)
Definition fetch_delta_blocks (obj : bytes) (bs : list LayerBlock) :
    res LayerDecodeError (list (list DeltaEntry)) :=
  mapM (λ b, raw ← block_bytes obj b; decode_delta_block raw b) bs.

Lemma fetch_delta_layout pre gs post at_ :
  at_ = zlen pre → Forall (group_ok encode_delta_entry de_key delta_lt) gs →
  Forall delta_entry_ok (concat gs) → Forall record_fits (concat gs) →
  StronglySorted delta_lt (concat gs) →
  fetch_delta_blocks (pre ++ body_of encode_delta_entry gs ++ post)
    (layout encode_delta_entry de_key at_ gs) = Ok gs.
Proof.
  intros -> G. revert pre. induction G as [|g gs Gg G IH]; intros pre O F S; [done|].
  simpl in O, F, S. apply Forall_app in O as [Og O], F as [Fg F].
  apply StronglySorted_app in S as (_ & Sg & S).
  rewrite body_of_cons, <-app_assoc. unfold fetch_delta_blocks in *. cbn [layout mapM].
  rewrite (block_bytes_layout _ _ delta_lt) by eauto with zou. rewrite bind_run.
  rewrite decode_delta_block_stored by done. rewrite bind_run.
  rewrite (app_assoc pre), <-zlen_app, IH by done. done.
Qed.

(** Point reads through the index lose nothing.  For a built delta
    layer and any key, fetching only the blocks [locate] names and decoding
    each from its own byte range gives exactly the layer's entries for that
    key, in order; and when there are any, the filter admits the key. *)
Theorem locate_finds_key (es : list DeltaEntry) (target : Z) (obj : bytes) (f : LayerFooter)
    (key : LayerKey) :
  Forall delta_entry_ok es → target ≤ MAX_BLOCK_RAW_LEN → build_delta es target = Ok (obj, f) →
  let of_key := filter (λ e, de_key e = key) in
  (∃ gs, fetch_delta_blocks obj (locate f key) = Ok gs ∧ of_key (concat gs) = of_key es) ∧
  (of_key es ≠ [] → footer_may_contain f key = true).
Proof.
  intros O T Eb of_key.
  destruct (build_delta_built _ _ _ _ O T Eb) as (S & F & gs & hs & e & z & B).
  destruct B as [Q G He Hz Hh Ef Eo]. subst es. split.
  - destruct (locate_layout _ _ Delta _ delta_lt_apart gs key 8 G S) as (pre & mid & post & Eg & El & N).
    exists mid. unfold locate. rewrite Ef at 1. cbn [lf_blocks delta_footer_of]. rewrite El, Eo.
    subst gs. rewrite !concat_app in *. apply Forall_app in G as [_ [G _]%Forall_app].
    apply Forall_app in O as [_ [O _]%Forall_app]. apply Forall_app in F as [_ [F _]%Forall_app].
    apply StronglySorted_app_1_r, StronglySorted_app_1_l in S. split.
    + unfold body_of. rewrite !fmap_app, !concat_app, <-!app_assoc, (app_assoc (header Delta)).
      apply fetch_delta_layout; try done. zlen_lia.
    + unfold of_key. rewrite !filter_app.
      assert (Fn : ∀ l, (∀ x, x ∈ l → de_key x ≠ key) → filter (λ e, de_key e = key) l = []).
      { induction l as [|x l IH]; intros A; [done|]. rewrite filter_cons_False; set_solver. }
      rewrite (Fn (concat pre)), (Fn (concat post)), app_nil_r by set_solver. done.
  - intros Ne. rewrite Ef. unfold footer_may_contain. cbn [lf_bloom delta_footer_of].
    apply (hashes_bloom _ (de_key <$> concat gs)); [done|].
    destruct (of_key (concat gs)) as [|x l] eqn:Ex; [done|].
    assert (Hx : x ∈ of_key (concat gs)) by (rewrite Ex; by left).
    apply list_elem_of_filter in Hx as [<- Hx]. by apply list_elem_of_fmap_2.
Qed.

(** No input makes the layer decoders panic: not the whole-object
    decoders of either kind, not the footer readers, not the decoder of a
    single block with any index row.  Whatever bytes an object store
    returns, the outcome is entries or an error value; and when a footer is
    accepted, every block it lists lies inside the object. *)
Theorem layer_decoders_never_panic (buf : bytes) (kind : LayerKind) (object_len : Z)
    (meta : LayerBlock) :
  no_panic (decode_delta buf) ∧ no_panic (decode_image buf) ∧ no_panic (read_layer_footer buf) ∧
  no_panic (read_layer_footer_suffix kind buf object_len) ∧
  no_panic (decode_delta_block buf meta) ∧ no_panic (decode_image_block buf meta) ∧
  match read_layer_footer buf with Ok f => Forall (inside buf) (lf_blocks f) | _ => True end.
Proof.
  split_and!.
  - unfold decode_delta. apply no_panic_bind; [apply no_panic_shell|]. intros [f start] P.
    unfold check_kind. np_step. apply no_panic_bind; [|done].
    by eapply no_panic_delta_blocks, shell_blocks_inside.
  - unfold decode_image. apply no_panic_bind; [apply no_panic_shell|]. intros [f start] P.
    unfold check_kind. np_step. apply no_panic_bind; [|done].
    by eapply no_panic_image_blocks, shell_blocks_inside.
  - apply no_panic_bind; [apply no_panic_shell|]. by intros [f start] _.
  - unfold read_layer_footer_suffix, TAIL_LEN, HEADER_LEN.
    repeat first [apply no_panic_footer | np_step].
  - apply no_panic_delta_block.
  - apply no_panic_image_block.
  - unfold read_layer_footer. destruct (parse_shell buf) as [[f start]|e|] eqn:P; try done.
    by eapply shell_blocks_inside.
Qed.
End built.

(** ** Concrete layers *)
Module LayerWitness.
Import Concrete.
Definition k (b : Z) : LayerKey := key_page 1663 5 16384 0 b.
Definition des : list DeltaEntry :=
  [mkDelta (k 1) 100 (str "insert"); mkDelta (k 1) 140 (str "update"); mkDelta (k 1) 150 (str "delete");
   mkDelta (k 2) 120 (str "insert"); mkDelta (k 7) 90 (replicate 40 Byte.x2a)].
Definition ies : list ImageEntry :=
  [mkImage (k 1) (replicate 8192 Byte.x00); mkImage (k 2) (replicate 8192 Byte.x2a)].
(** A block target small enough that one key spills over a block boundary. *)
Definition dtarget : Z := 80.
Definition built_obj : bytes := match build_delta des dtarget with Ok (obj, _) => obj | _ => [] end.
Definition built_footer : LayerFooter :=
  match build_delta des dtarget with
  | Ok (_, f) => f | _ => mkFooter Delta (k 0) (k 0) 0 0 0 [] (sized_for 0) end.

Example delta_spills : lb_entries <$> lf_blocks built_footer = [2; 2; 1].
Proof. by vm_compute. Qed.

Lemma built_ok : build_delta des dtarget = Ok (built_obj, built_footer).
Proof. by vm_compute. Qed.

Lemma delta_round_trip_witness :
  decode_delta built_obj = Ok (des, built_footer) ∧
  build_delta [mkDelta (k 1) 100 []; mkDelta (k 1) 100 []] dtarget = Err BuildUnsorted.
Proof.
  split.
  - destruct (delta_round_trip des dtarget) as (obj & f & Eb & D);
      [apply (bool_decide_unpack _); by vm_compute|done|].
    rewrite built_ok in Eb. apply (inj Ok) in Eb. apply pair_equal_spec in Eb as [<- <-].
    apply D. split_and!; by vm_compute.
  - apply (delta_round_trip [mkDelta (k 1) 100 []; mkDelta (k 1) 100 []] dtarget);
      [apply (bool_decide_unpack _); by vm_compute|done].
Defined.

Lemma image_round_trip_witness :
  (∃ obj f, build_image ies 500 LAYER_BLOCK_TARGET = Ok (obj, f) ∧ lf_min_lsn f = 500) ∧
  build_image [mkImage (k 1) (str "short")] 500 LAYER_BLOCK_TARGET = Err (BadPageLen 5).
Proof.
  split.
  - destruct (image_round_trip ies 500 LAYER_BLOCK_TARGET) as (obj & f & Eb & L & _);
      [apply (bool_decide_unpack _); by vm_compute|by vm_compute|done|]. eauto.
  - apply (image_round_trip [mkImage (k 1) (str "short")] 500 LAYER_BLOCK_TARGET);
      [apply (bool_decide_unpack _); by vm_compute|by vm_compute|done].
Defined.

Lemma footer_from_suffix_witness :
  let need := zlen (encode_footer built_footer) + TAIL_LEN in
  read_layer_footer_suffix Delta (suffix built_obj 100) (zlen built_obj) =
    Err (LTruncated 100 need) ∧
  read_layer_footer_suffix Delta (suffix built_obj need) (zlen built_obj) =
    Ok built_footer.
Proof.
  split.
  - rewrite (proj2 (footer_from_suffix des dtarget 100 built_obj built_footer
      ltac:(apply (bool_decide_unpack _); by vm_compute) ltac:(done) ltac:(by vm_compute)
      ltac:(split_and!; by vm_compute) ltac:(split; by vm_compute))). by vm_compute.
  - rewrite (proj2 (footer_from_suffix des dtarget (zlen (encode_footer built_footer) + TAIL_LEN)
      built_obj built_footer
      ltac:(apply (bool_decide_unpack _); by vm_compute) ltac:(done) ltac:(by vm_compute)
      ltac:(split_and!; by vm_compute) ltac:(split; by vm_compute))). by vm_compute.
Defined.

(** The footer checks bound a block's raw length but not its entry count:
    an index row that claims 2^32 - 1 entries in an empty block is accepted,
    and only decoding the block finds that they are not there. *)
Definition lying_block : LayerBlock := mkBlock (k 1) (k 1) 8 0 0 u32_max (crc32c []) ENC_RAW.
Definition lying_footer : LayerFooter :=
  mkFooter Delta (k 1) (k 1) 1 1 u32_max [lying_block] (sized_for 1).
Example entry_count_unbounded :
  read_layer_footer (header Delta ++ footer_tail lying_footer) = Ok lying_footer.
Proof. by vm_compute. Qed.

Lemma locate_finds_key_witness :
  footer_may_contain built_footer (k 1) = true ∧ length (locate built_footer (k 1)) = 2%nat.
Proof.
  split; [|by vm_compute].
  apply (locate_finds_key des dtarget built_obj built_footer (k 1));
    [apply (bool_decide_unpack _); by vm_compute|done|by vm_compute|by vm_compute].
Defined.
End LayerWitness.
