(* ===== verification/LayerCursor.v ===== *)
(** * LayerCursor: streaming a layer (crates/zou-store/src/layer.rs)

    The cursors hold one decoded block at a time.  A cursor is a value that
    [next] passes on; what it gives over its life is proved to be what the
    whole-object decoder gives. *)
From S2P Require Import Prelude Order Text Lsn Externals Bloom LayerKey Layer LayerBuild LayerRead LayerLookup.

Abbreviation dres := (res LayerDecodeError).

Section cursors.
Context `{Crc, Lz4}.

Record DeltaCursor := mkDCursor {
  dc_buf : bytes;
  dc_footer : LayerFooter;
  dc_block : nat;
  dc_entries : list DeltaEntry;
  dc_prev : option (LayerKey * Lsn);
  dc_dead : bool
}.
(** [delta_cursor] *)
Definition delta_cursor (buf : bytes) : dres DeltaCursor :=
  '(footer, _) ← parse_shell buf;
  _ ← check_kind footer Delta;
  mret (mkDCursor buf footer 0 [] None false).

(** The loop of [DeltaCursor::next]: each turn but the last opens a block. *)
Fixpoint delta_next_loop (fuel : nat) (c : DeltaCursor) :
    dres (DeltaCursor * option (dres DeltaEntry)) :=
  match fuel with
  | O => Panic
  | S fuel =>
      match dc_entries c with
      | e :: es =>
          if match dc_prev c with Some p => oleb (delta_pos e) p | None => false end
          then
            index ← usub (Z.of_nat (dc_block c)) 1;
            mret (mkDCursor (dc_buf c) (dc_footer c) (dc_block c) es (dc_prev c) true,
                  Some (Err (LBlock index)))
          else
            mret (mkDCursor (dc_buf c) (dc_footer c) (dc_block c) es (Some (delta_pos e)) false,
                  Some (Ok e))
      | [] =>
          match lf_blocks (dc_footer c) !! dc_block c with
          | None => mret (c, None)
          | Some meta =>
              let index := dc_block c in
              b ← block_bytes (dc_buf c) meta;
              match decode_delta_block b meta with
              | Ok entries =>
                  delta_next_loop fuel
                    (mkDCursor (dc_buf c) (dc_footer c) (S index) entries (dc_prev c) (dc_dead c))
              | Err _ =>
                  mret (mkDCursor (dc_buf c) (dc_footer c) (S index) [] (dc_prev c) true,
                        Some (Err (LBlock (Z.of_nat index))))
              | Panic => Panic
              end
          end
      end
  end.
(** [DeltaCursor::next] *)
Definition delta_next (c : DeltaCursor) : dres (DeltaCursor * option (dres DeltaEntry)) :=
  if dc_dead c then mret (c, None)
  else delta_next_loop (2 + length (lf_blocks (dc_footer c)) - dc_block c) c.

Record ImageCursor := mkICursor {
  ic_buf : bytes;
  ic_footer : LayerFooter;
  ic_block : nat;
  ic_entries : list ImageEntry;
  ic_dead : bool
}.
(** [image_cursor] *)
Definition image_cursor (buf : bytes) : dres ImageCursor :=
  '(footer, _) ← parse_shell buf;
  _ ← check_kind footer Image;
  mret (mkICursor buf footer 0 [] false).
(** [ImageCursor::next] *)
Fixpoint image_next_loop (fuel : nat) (c : ImageCursor) :
    dres (ImageCursor * option (dres ImageEntry)) :=
  match fuel with
  | O => Panic
  | S fuel =>
      match ic_entries c with
      | e :: es => mret (mkICursor (ic_buf c) (ic_footer c) (ic_block c) es (ic_dead c), Some (Ok e))
      | [] =>
          match lf_blocks (ic_footer c) !! ic_block c with
          | None => mret (c, None)
          | Some meta =>
              let index := ic_block c in
              b ← block_bytes (ic_buf c) meta;
              match decode_image_block b meta with
              | Ok entries =>
                  image_next_loop fuel (mkICursor (ic_buf c) (ic_footer c) (S index) entries (ic_dead c))
              | Err _ =>
                  mret (mkICursor (ic_buf c) (ic_footer c) (S index) [] true,
                        Some (Err (LBlock (Z.of_nat index))))
              | Panic => Panic
              end
          end
      end
  end.
Definition image_next (c : ImageCursor) : dres (ImageCursor * option (dres ImageEntry)) :=
  if ic_dead c then mret (c, None)
  else image_next_loop (2 + length (lf_blocks (ic_footer c)) - ic_block c) c.

(** ** What a cursor gives over its life *)
(** Calling [next] until it returns nothing gives these items. *)
Inductive gives {C I : Type} (next : C → dres (C * option I)) : C → list I → Prop :=
  | gives_end c c' : next c = Ok (c', None) → gives next c []
  | gives_item c c' i items : next c = Ok (c', Some i) → gives next c' items → gives next c (i :: items).

(** Positions strictly ascend, above [p]. *)
Fixpoint ascends (p : option (LayerKey * Lsn)) (es : list DeltaEntry) : Prop :=
  match es with
  | [] => True
  | e :: es => match p with Some p => olt p (delta_pos e) | None => True end ∧
               ascends (Some (delta_pos e)) es
  end.
Lemma ascends_snoc p es e :
  ascends p (es ++ [e]) ↔ ascends p es ∧
  match (match last es with Some x => Some (delta_pos x) | None => p end) with
  | Some q => olt q (delta_pos e) | None => True end.
Proof.
  revert p. induction es as [|x es IH]; intros p; cbn [app ascends]; [cbn; tauto|].
  rewrite IH. destruct es as [|y es]; [cbn; tauto|].
  rewrite (last_cons_cons x y es). destruct (last (y :: es)) eqn:L; [cbn; tauto|].
  by apply last_None in L.
Qed.

Lemma read_entries_ascend n rest acc es rest' :
  read_delta_entries n rest acc = Ok (es, rest') → ascends None acc → ascends None es.
Proof.
  revert rest acc. induction n as [|n IH]; intros rest acc E A; cbn [read_delta_entries] in E.
  - apply (inj Ok) in E. by simplify_eq.
  - apply bind_ok in E as ([e r] & _ & E). bind_inv E. apply IH in E; [done|].
    apply ascends_snoc. split; [done|]. destruct (last acc); [|done].
    by apply oleb_false in Hb.
Qed.
(** A block that decodes is not empty and ascends. *)
Lemma delta_block_ascends b meta es :
  decode_delta_block b meta = Ok es → ascends None es ∧ es ≠ [].
Proof.
  unfold decode_delta_block. intros E. apply bind_ok in E as (raw & _ & E).
  apply bind_ok in E as ([es' r] & R & E). bind_inv E. apply (inj Ok) in E as ->.
  split; [by eapply read_entries_ascend|]. intros ->. cbn in Hb.
  rewrite (bool_decide_eq_false_2 (None = Some _)) in Hb by done. by rewrite orb_true_r in Hb.
Qed.
Lemma ascends_weaken p e es :
  ascends None (e :: es) → match p with Some p => olt p (delta_pos e) | None => True end → ascends p (e :: es).
Proof. intros [_ A] L. by split. Qed.

(** The position after a run of entries. *)
Definition pos_after (p : option (LayerKey * Lsn)) (es : list DeltaEntry) : option (LayerKey * Lsn) :=
  match last es with Some x => Some (delta_pos x) | None => p end.

Lemma pos_after_cons p e es : pos_after p (e :: es) = pos_after (Some (delta_pos e)) es.
Proof.
  unfold pos_after. destruct es as [|x es]; [done|]. rewrite last_cons_cons.
  destruct (last (x :: es)) eqn:L; [done|]. by apply last_None in L.
Qed.
(** Entries in hand come first. *)
Lemma delta_in_hand buf f i es p items :
  (i ≤ length (lf_blocks f))%nat → ascends p es →
  gives delta_next (mkDCursor buf f i [] (pos_after p es) false) items →
  gives delta_next (mkDCursor buf f i es p false) ((Ok <$> es) ++ items).
Proof.
  intros Li. revert p. induction es as [|e es IH]; intros p A G; [done|]. destruct A as [Ae A].
  cbn [fmap list_fmap app].
  eapply (gives_item _ _ (mkDCursor buf f i es (Some (delta_pos e)) false)).
  - unfold delta_next. cbn [dc_dead dc_footer dc_block].
    destruct (2 + length (lf_blocks f) - i)%nat as [|fuel] eqn:Ef; [lia|].
    cbn [delta_next_loop dc_entries dc_prev dc_buf dc_footer dc_block].
    destruct p as [p|]; [|done]. by rewrite (proj2 (oleb_false _ _)).
  - apply IH; [done|]. by rewrite <-pos_after_cons with (p := p).
Qed.

(** Opening the next block. *)
Lemma delta_open buf f i p b meta es :
  lf_blocks f !! i = Some meta → block_bytes buf meta = Ok b → decode_delta_block b meta = Ok es →
  delta_next (mkDCursor buf f i [] p false) = delta_next (mkDCursor buf f (S i) es p false).
Proof.
  intros Lk Eb Ed. pose proof (lookup_lt_Some _ _ _ Lk) as Li. unfold delta_next.
  cbn [dc_dead dc_footer dc_block].
  replace (2 + length (lf_blocks f) - i)%nat with (S (2 + length (lf_blocks f) - S i)) by lia.
  cbn [delta_next_loop dc_entries dc_footer dc_block dc_buf dc_prev dc_dead]. rewrite Lk, Eb, bind_run, Ed. done.
Qed.
Lemma gives_same {C I} (next : C → dres (C * option I)) c c' items :
  next c = next c' → gives next c' items → gives next c items.
Proof. intros E G. destruct G; [eapply gives_end|eapply gives_item]; by rewrite ?E. Qed.

(** A dead cursor is at its end. *)
Lemma delta_dead buf f i es p : gives delta_next (mkDCursor buf f i es p true) [].
Proof. by eapply gives_end. Qed.

(** The ways a cursor with nothing in hand comes to its end. *)
Lemma delta_next_run buf f i es p :
  (i ≤ length (lf_blocks f))%nat → ∃ fuel,
  delta_next (mkDCursor buf f i es p false) = delta_next_loop (S fuel) (mkDCursor buf f i es p false).
Proof.
  intros Li. unfold delta_next. cbn [dc_dead dc_footer dc_block].
  exists (1 + length (lf_blocks f) - i)%nat. f_equal. lia.
Qed.
Lemma delta_at_end buf f i p :
  drop i (lf_blocks f) = [] → (i ≤ length (lf_blocks f))%nat →
  gives delta_next (mkDCursor buf f i [] p false) [].
Proof.
  intros Eb Li. eapply gives_end. destruct (delta_next_run buf f i [] p Li) as [fuel ->].
  cbn [delta_next_loop dc_entries dc_footer dc_block]. rewrite lookup_ge_None_2; [done|].
  apply (f_equal length) in Eb. rewrite length_drop in Eb. cbn in Eb. lia.
Qed.
Lemma delta_bad_block buf f i p b meta e :
  lf_blocks f !! i = Some meta → block_bytes buf meta = Ok b → decode_delta_block b meta = Err e →
  gives delta_next (mkDCursor buf f i [] p false) [Err (LBlock (Z.of_nat i))].
Proof.
  intros Lk Eb Ed. eapply (gives_item _ _ (mkDCursor buf f (S i) [] p true)); [|apply delta_dead].
  destruct (delta_next_run buf f i [] p) as [fuel ->]; [by apply lookup_lt_Some in Lk; lia|].
  cbn [delta_next_loop dc_entries dc_footer dc_block dc_buf dc_prev]. by rewrite Lk, Eb, bind_run, Ed.
Qed.
Lemma delta_bad_order buf f i e es p :
  (S i ≤ length (lf_blocks f))%nat → oleb (delta_pos e) p = true →
  gives delta_next (mkDCursor buf f (S i) (e :: es) (Some p) false) [Err (LBlock (Z.of_nat i))].
Proof.
  intros Li Og. eapply (gives_item _ _ (mkDCursor buf f (S i) es (Some p) true)); [|apply delta_dead].
  destruct (delta_next_run buf f (S i) (e :: es) (Some p) Li) as [fuel ->].
  cbn [delta_next_loop dc_entries dc_footer dc_block dc_buf dc_prev]. rewrite Og, usub_run by lia.
  replace (Z.of_nat (S i) - 1) with (Z.of_nat i) by lia. done.
Qed.

Lemma drop_lookup {A} (l : list A) i x xs :
  drop i l = x :: xs → l !! i = Some x ∧ drop (S i) l = xs ∧ (S i ≤ length l)%nat.
Proof.
  intros E. assert (L : l !! i = Some x) by (by rewrite <-(Nat.add_0_r i), <-lookup_drop, E).
  split_and!; [done|by rewrite <-Nat.add_1_r, <-drop_drop, E|]. apply lookup_lt_Some in L. lia.
Qed.
Lemma block_bytes_no_err buf meta e : block_bytes buf meta ≠ Err e.
Proof. unfold block_bytes, slice. by destruct (_ && _). Qed.

(** The rest of the stream is the rest of the decode. *)
Lemma delta_blocks_stream buf f bs i acc :
  drop i (lf_blocks f) = bs → (i ≤ length (lf_blocks f))%nat →
  let c := mkDCursor buf f i [] (pos_after None acc) false in
  match decode_delta_blocks buf (Z.of_nat i) bs acc with
  | Ok all => ∃ new, all = acc ++ new ∧ gives delta_next c (Ok <$> new)
  | Err e => ∃ new, gives delta_next c ((Ok <$> new) ++ [Err e])
  | Panic => True
  end.
Proof.
  revert i acc. induction bs as [|meta bs IH]; intros i acc Eb Li c.
  { exists []. rewrite app_nil_r. split; [done|by apply delta_at_end]. }
  destruct (drop_lookup _ _ _ _ Eb) as (Lk & Eb' & Li'). cbn [decode_delta_blocks].
  destruct (block_bytes buf meta) as [b|e|] eqn:Ebb; cbn; [|by apply block_bytes_no_err in Ebb|done].
  destruct (decode_delta_block b meta) as [es|e|] eqn:Ed; cbn [map_err]; [| |done]; cycle 1.
  { exists []. by eapply delta_bad_block. }
  destruct (delta_block_ascends _ _ _ Ed) as [As Ne]. destruct es as [|e es]; [done|].
  pose proof (delta_open buf f i (pos_after None acc) b meta (e :: es) Lk Ebb Ed) as Eo.
  rewrite bind_run. cbn [head]. destruct (match last acc with Some prev => _ | None => _ end) eqn:Og; cbn [guard_err].
  { exists []. eapply gives_same; [exact Eo|]. unfold pos_after.
    destruct (last acc) as [x|]; [|done]. by apply delta_bad_order. }
  rewrite bind_run. replace (Z.of_nat i + 1) with (Z.of_nat (S i)) by lia.
  assert (Ps : pos_after None (acc ++ e :: es) = pos_after (pos_after None acc) (e :: es)).
  { unfold pos_after. rewrite last_app. by destruct (last (e :: es)) eqn:Ls; [|apply last_None in Ls]. }
  assert (Aw : ascends (pos_after None acc) (e :: es)).
  { apply ascends_weaken; [done|]. unfold pos_after. destruct (last acc); [|done]. by apply oleb_false. }
  specialize (IH (S i) (acc ++ e :: es) Eb' Li'). cbv zeta in IH. rewrite Ps in IH.
  destruct (decode_delta_blocks buf (Z.of_nat (S i)) bs (acc ++ e :: es)) as [all|err|]; [| |done].
  - destruct IH as (new & -> & G). exists ((e :: es) ++ new). rewrite app_assoc. split; [done|].
    rewrite fmap_app. eapply gives_same; [exact Eo|]. by apply delta_in_hand.
  - destruct IH as (new & G). exists ((e :: es) ++ new). rewrite fmap_app, <-app_assoc.
    eapply gives_same; [exact Eo|]. by apply delta_in_hand.
Qed.

(** ** The same for images *)
Lemma image_next_run buf f i es :
  (i ≤ length (lf_blocks f))%nat → ∃ fuel,
  image_next (mkICursor buf f i es false) = image_next_loop (S fuel) (mkICursor buf f i es false).
Proof.
  intros Li. unfold image_next. cbn [ic_dead ic_footer ic_block].
  exists (1 + length (lf_blocks f) - i)%nat. f_equal. lia.
Qed.
Lemma image_in_hand buf f i es items :
  (i ≤ length (lf_blocks f))%nat → gives image_next (mkICursor buf f i [] false) items →
  gives image_next (mkICursor buf f i es false) ((Ok <$> es) ++ items).
Proof.
  intros Li G. induction es as [|e es IH]; [done|].
  eapply (gives_item _ _ (mkICursor buf f i es false)); [|done].
  by destruct (image_next_run buf f i (e :: es) Li) as [fuel ->].
Qed.
Lemma image_open buf f i b meta es :
  lf_blocks f !! i = Some meta → block_bytes buf meta = Ok b → decode_image_block b meta = Ok es →
  image_next (mkICursor buf f i [] false) = image_next (mkICursor buf f (S i) es false).
Proof.
  intros Lk Eb Ed. pose proof (lookup_lt_Some _ _ _ Lk) as Li. unfold image_next.
  cbn [ic_dead ic_footer ic_block].
  replace (2 + length (lf_blocks f) - i)%nat with (S (2 + length (lf_blocks f) - S i)) by lia.
  cbn [image_next_loop ic_entries ic_footer ic_block ic_buf ic_dead]. rewrite Lk, Eb, bind_run, Ed. done.
Qed.
Lemma image_blocks_stream buf f bs i acc :
  drop i (lf_blocks f) = bs → (i ≤ length (lf_blocks f))%nat →
  let c := mkICursor buf f i [] false in
  match decode_image_blocks buf (Z.of_nat i) bs acc with
  | Ok all => ∃ new, all = acc ++ new ∧ gives image_next c (Ok <$> new)
  | Err e => ∃ new, gives image_next c ((Ok <$> new) ++ [Err e])
  | Panic => True
  end.
Proof.
  revert i acc. induction bs as [|meta bs IH]; intros i acc Eb Li c.
  { exists []. rewrite app_nil_r. split; [done|]. eapply (gives_end _ _ c).
    destruct (image_next_run buf f i [] Li) as [fuel E]. unfold c. rewrite E.
    cbn [image_next_loop ic_entries ic_footer ic_block]. rewrite lookup_ge_None_2; [done|].
    apply (f_equal length) in Eb. rewrite length_drop in Eb. cbn in Eb. lia. }
  destruct (drop_lookup _ _ _ _ Eb) as (Lk & Eb' & Li'). cbn [decode_image_blocks].
  destruct (block_bytes buf meta) as [b|e|] eqn:Ebb; cbn; [|by apply block_bytes_no_err in Ebb|done].
  destruct (decode_image_block b meta) as [es|e|] eqn:Ed; cbn [map_err]; [| |done]; cycle 1.
  { exists []. eapply (gives_item _ _ (mkICursor buf f (S i) [] true)); [|by eapply gives_end].
    destruct (image_next_run buf f i [] Li) as [fuel E]. unfold c. rewrite E.
    cbn [image_next_loop ic_entries ic_footer ic_block ic_buf]. by rewrite Lk, Ebb, bind_run, Ed. }
  pose proof (image_open buf f i b meta es Lk Ebb Ed) as Eo. rewrite bind_run.
  replace (Z.of_nat i + 1) with (Z.of_nat (S i)) by lia.
  specialize (IH (S i) (acc ++ es) Eb' Li'). cbv zeta in IH.
  destruct (decode_image_blocks buf (Z.of_nat (S i)) bs (acc ++ es)) as [all|err|]; [| |done].
  - destruct IH as (new & -> & G). exists (es ++ new). rewrite app_assoc. split; [done|].
    rewrite fmap_app. eapply gives_same; [exact Eo|]. by apply image_in_hand.
  - destruct IH as (new & G). exists (es ++ new). rewrite fmap_app, <-app_assoc.
    eapply gives_same; [exact Eo|]. by apply image_in_hand.
Qed.

(** What streaming must give for what decoding gave. *)
Definition streams_like {C A} (whole : dres (list A * LayerFooter)) (open : dres C)
    (footer : C → LayerFooter) (next : C → dres (C * option (dres A))) : Prop :=
  match whole with
  | Ok (es, f) => ∃ c, open = Ok c ∧ footer c = f ∧ gives next c (Ok <$> es)
  | Err e => open = Err e ∨ ∃ c es, open = Ok c ∧ gives next c ((Ok <$> es) ++ [Err e])
  | Panic => False
  end.

(** Streaming a layer is decoding it.  For any bytes, a cursor over
    them gives, one [next] at a time and never panicking, exactly the
    entries the whole-object decoder returns, and then ends; when the
    decoder fails, the cursor refuses to open with the same error, or gives
    entries up to the bad block, reports that block with the same error,
    and ends.  This holds for delta and for image layers. *)
Theorem cursors_stream_decode (buf : bytes) :
  streams_like (decode_delta buf) (delta_cursor buf) dc_footer delta_next ∧
  streams_like (decode_image buf) (image_cursor buf) ic_footer image_next.
Proof.
  split.
  - unfold decode_delta, delta_cursor. destruct (parse_shell buf) as [[f start]|e|] eqn:P;
      [|by left|by pose proof (no_panic_shell buf) as N; rewrite P in N].
    cbn. unfold check_kind. destruct (guard_err _ _) as [[]|e|] eqn:K; [|by left|by unfold guard_err in K; destruct (negb _) in K].
    cbn. pose proof (delta_blocks_stream buf f (lf_blocks f) 0 [] eq_refl (Nat.le_0_l _)) as St.
    pose proof (no_panic_delta_blocks buf 0 (lf_blocks f) [] (shell_blocks_inside _ _ _ P)) as N.
    cbv zeta in St. change (Z.of_nat 0) with 0 in St. destruct (decode_delta_blocks buf 0 (lf_blocks f) []) as [all|e|]; [| |done].
    + destruct St as (new & -> & G). by eexists.
    + destruct St as (new & G). right. by eexists _, new.
  - unfold decode_image, image_cursor. destruct (parse_shell buf) as [[f start]|e|] eqn:P;
      [|by left|by pose proof (no_panic_shell buf) as N; rewrite P in N].
    cbn. unfold check_kind. destruct (guard_err _ _) as [[]|e|] eqn:K; [|by left|by unfold guard_err in K; destruct (negb _) in K].
    cbn. pose proof (image_blocks_stream buf f (lf_blocks f) 0 [] eq_refl (Nat.le_0_l _)) as St.
    pose proof (no_panic_image_blocks buf 0 (lf_blocks f) [] (shell_blocks_inside _ _ _ P)) as N.
    cbv zeta in St. change (Z.of_nat 0) with 0 in St. destruct (decode_image_blocks buf 0 (lf_blocks f) []) as [all|e|]; [| |done].
    + destruct St as (new & -> & G). by eexists.
    + destruct St as (new & G). right. by eexists _, new.
Qed.
End cursors.
