(* ===== verification/LayerMap.v ===== *)
(** * LayerMap: which layers a lookup touches (crates/zou-store/src/layermap.rs)

    Layer descriptors and their frozen names, the centered interval tree
    over the key space, and the read plan of a lookup. *)
From S2P Require Import Prelude Order Text Lsn Externals Bloom LayerKey Layer.

Definition hyphen : byte := Byte.x2d.

Record LayerDesc := mkDesc {
  ld_kind : LayerKind;
  ld_min_key : LayerKey;
  ld_max_key : LayerKey;
  ld_min_lsn : Lsn;
  ld_max_lsn : Lsn;
  ld_size : Z;
  ld_owner : option bytes;
  ld_upto : option Lsn;
  ld_home : option Z
}.
#[global] Instance LayerDesc_eq_dec : EqDecision LayerDesc.
Proof. solve_decision. Defined.
#[global] Instance LayerDesc_inhabited : Inhabited LayerDesc :=
  populate (mkDesc Delta (key_page 0 0 0 0 0) (key_page 0 0 0 0 0) 0 0 0 None None None).

Inductive LayerNameError := Malformed (name : bytes).
Inductive LayerMapError :=
  | Inverted (name : bytes)
  | ImageSpansLsns (name : bytes).

(** [LayerDesc::delta], [LayerDesc::image], [LayerDesc::from_footer] *)
Definition desc_delta (min_key max_key : LayerKey) (min_lsn max_lsn : Lsn) : LayerDesc :=
  mkDesc Delta min_key max_key min_lsn max_lsn 0 None None None.
Definition desc_image (min_key max_key : LayerKey) (lsn : Lsn) : LayerDesc :=
  mkDesc Image min_key max_key lsn lsn 0 None None None.
Definition from_footer (f : LayerFooter) (size : Z) : LayerDesc :=
  mkDesc (lf_kind f) (lf_min_key f) (lf_max_key f) (lf_min_lsn f) (lf_max_lsn f) size None None None.

(** [LayerDesc::covers], [LayerDesc::clamp] *)
Definition covers (l : LayerDesc) (key : LayerKey) : bool :=
  oleb (ld_min_key l) key && oleb key (ld_max_key l).
Definition clamp (l : LayerDesc) (lsn : Lsn) : Lsn :=
  match ld_upto l with None => lsn | Some u => Z.min u lsn end.

(** [LayerDesc::name] *)
Definition desc_name (l : LayerDesc) : bytes :=
  match ld_kind l with
  | Delta =>
      str "d-" ++ key_hex (ld_min_key l) ++ [hyphen] ++ key_hex (ld_max_key l) ++ [hyphen] ++
      fmt_hex 16 (ld_min_lsn l) ++ [hyphen] ++ fmt_hex 16 (ld_max_lsn l) ++ str ".dl"
  | Image =>
      str "i-" ++ key_hex (ld_min_key l) ++ [hyphen] ++ key_hex (ld_max_key l) ++ [hyphen] ++
      fmt_hex 16 (ld_min_lsn l) ++ str ".il"
  end.

(** [LayerDesc::parse], its closures [key] and [lsn] first *)
Definition parse_field (e : LayerNameError) (s : bytes) (lo hi : Z) : res LayerNameError Z :=
  f ← slice s lo hi; ok_or (from_str_radix 16 u32_max f) e.
Definition parse_key (e : LayerNameError) (s : bytes) : res LayerNameError LayerKey :=
  _ ← guard_err (negb (zlen s =? KEY_ENCODED_LEN * 2) || negb (is_ascii s)) e;
  kind ← parse_field e s 0 2;
  spc ← parse_field e s 2 10;
  db ← parse_field e s 10 18;
  rel ← parse_field e s 18 26;
  fork ← parse_field e s 26 28;
  block ← parse_field e s 28 36;
  mret (mkKey (kind mod 256) spc db rel (fork mod 256) block).
Definition parse_lsn (e : LayerNameError) (s : bytes) : res LayerNameError Lsn :=
  _ ← guard_err (negb (zlen s =? 16)) e;
  ok_or (from_str_radix 16 u64_max s) e.
Definition desc_parse (name : bytes) (size : Z) : res LayerNameError LayerDesc :=
  let malformed := Malformed name in
  '(kind, rest) ←
    match strip_prefix (str "d-") name with
    | Some rest => r ← ok_or (strip_suffix (str ".dl") rest) malformed; mret (Delta, r)
    | None =>
        match strip_prefix (str "i-") name with
        | Some rest => r ← ok_or (strip_suffix (str ".il") rest) malformed; mret (Image, r)
        | None => Err malformed
        end
    end;
  match kind, split hyphen rest with
  | Delta, [kmin; kmax; lmin; lmax] =>
      min_key ← parse_key malformed kmin;
      max_key ← parse_key malformed kmax;
      min_lsn ← parse_lsn malformed lmin;
      max_lsn ← parse_lsn malformed lmax;
      mret (mkDesc Delta min_key max_key min_lsn max_lsn size None None None)
  | Image, [kmin; kmax; l] =>
      at_ ← parse_lsn malformed l;
      min_key ← parse_key malformed kmin;
      max_key ← parse_key malformed kmax;
      mret (mkDesc Image min_key max_key at_ at_ size None None None)
  | _, _ => Err malformed
  end.

(** ** The interval tree *)
(** [Option<Box<Node>>]: the layers overlapping the center live in the
    node, as indices, sorted both ways. *)
Inductive Node :=
  | Leaf
  | Center (center : LayerKey) (by_min by_max : list nat) (lt rt : Node).

Section tree.
Variable layers : list LayerDesc.

(** [layers[i]]: every index of a tree is below [layers.len()]. *)
Definition lmin (i : nat) : LayerKey := ld_min_key (layers !!! i).
Definition lmax (i : nat) : LayerKey := ld_max_key (layers !!! i).

(** [build]: the recursion is on a part of [idx] that need not be smaller
    when a layer's bounds are inverted, so it is given fuel, and running
    out of it is the stack overflow of the source. *)
Fixpoint build {E} (fuel : nat) (idx : list nat) : res E Node :=
  match fuel with
  | O => Panic
  | S fuel =>
      match idx with
      | [] => mret Leaf
      | _ :: _ =>
          let idx := sort_by (λ i j, oleb (lmin i) (lmin j)) idx in
          let center := lmin (idx !!! (length idx / 2)%nat) in
          let lefts := filter (λ i, olt (lmax i) center) idx in
          let rights := filter (λ i, ¬ olt (lmax i) center ∧ olt center (lmin i)) idx in
          let here := filter (λ i, ¬ olt (lmax i) center ∧ ¬ olt center (lmin i)) idx in
          let by_min := sort_by (λ i j, oleb (lmin i) (lmin j)) here in
          let by_max := sort_by (λ i j, oleb (lmax j) (lmax i)) here in
          l ← build fuel lefts;
          r ← build fuel rights;
          mret (Center center by_min by_max l r)
      end
  end.

(** [stab]: the indices pushed to [out], in order. *)
Fixpoint stab (node : Node) (key : LayerKey) : list nat :=
  match node with
  | Leaf => []
  | Center center by_min by_max lt rt =>
      match ocmp key center with
      | Lt => take_while (λ i, negb (oltb key (lmin i))) by_min ++ stab lt key
      | Gt => take_while (λ i, negb (oltb (lmax i) key)) by_max ++ stab rt key
      | Eq => by_min
      end
  end.
End tree.

Record LayerMap := mkMap {
  lm_layers : list LayerDesc;
  lm_images : Node;
  lm_deltas : Node
}.

Definition is_kind (kind : LayerKind) (l : LayerDesc) : bool := bool_decide (ld_kind l = kind).
(** [(0..layers.len()).filter(kind)] *)
Definition of_kind (layers : list LayerDesc) (kind : LayerKind) : list nat :=
  filter (λ i, Is_true (is_kind kind (layers !!! i))) (seq 0 (length layers)).

Fixpoint check_layers (ls : list LayerDesc) : res LayerMapError () :=
  match ls with
  | [] => mret ()
  | l :: ls =>
      _ ← guard_err (oltb (ld_max_key l) (ld_min_key l) || (ld_max_lsn l <? ld_min_lsn l))
            (Inverted (desc_name l));
      _ ← guard_err (is_kind Image l && negb (ld_min_lsn l =? ld_max_lsn l))
            (ImageSpansLsns (desc_name l));
      check_layers ls
  end.
(** [LayerMap::new] *)
Definition map_new (layers : list LayerDesc) : res LayerMapError LayerMap :=
  _ ← check_layers layers;
  images ← build layers (S (length layers)) (of_kind layers Image);
  deltas ← build layers (S (length layers)) (of_kind layers Delta);
  mret (mkMap layers images deltas).

Record ReadPlan := mkPlan {
  rp_images : list LayerDesc;
  rp_deltas : list LayerDesc
}.

(** The stabbed layers that start at or below the read, still unsorted. *)
Definition reachable (m : LayerMap) (t : Node) (key : LayerKey) (lsn : Lsn) : list LayerDesc :=
  filter (λ l, ld_min_lsn l ≤ clamp l lsn)
    ((λ i, lm_layers m !!! i) <$> stab (lm_layers m) t key).
Definition newer_first (a b : LayerDesc) : bool := ld_min_lsn b <=? ld_min_lsn a.
Definition older_first (a b : LayerDesc) : bool :=
  oleb (ld_min_lsn a, ld_max_lsn a) (ld_min_lsn b, ld_max_lsn b).
(** [LayerMap::plan] *)
Definition plan (m : LayerMap) (key : LayerKey) (lsn : Lsn) : ReadPlan :=
  mkPlan (sort_by newer_first (reachable m (lm_images m) key lsn))
         (sort_by older_first (reachable m (lm_deltas m) key lsn)).

(** [ReadPlan::above], [ReadPlan::read_amp] *)
Definition above (p : ReadPlan) (floor : Lsn) : list LayerDesc :=
  filter (λ l, Is_true ((floor <? ld_max_lsn l) &&
                        match ld_upto l with None => true | Some u => floor <? u end))
    (rp_deltas p).
Definition read_amp (p : ReadPlan) : Z := zlen (rp_deltas p) + zlen (rp_images p).

(** ** Names *)
Definition desc_ok (l : LayerDesc) : Prop :=
  key_ok (ld_min_key l) ∧ key_ok (ld_max_key l) ∧ fits 8 (ld_min_lsn l) ∧ fits 8 (ld_max_lsn l) ∧
  (ld_kind l = Image → ld_min_lsn l = ld_max_lsn l).
#[global] Instance desc_ok_dec l : Decision (desc_ok l).
Proof. unfold desc_ok. apply _. Defined.

Lemma digit_lower_not_hyphen d : 0 ≤ d < 16 → digit_lower d ≠ hyphen.
Proof.
  intros Hd E. apply (f_equal bval) in E. unfold hyphen, digit_lower in E.
  change (bval Byte.x2d) with 45 in E.
  destruct (d <? 10) eqn:?; rewrite bval_byte_of_Z, Z.mod_small in E; lia.
Qed.
Lemma hexf_no_hyphen w z : hyphen ∉ hexf w z.
Proof. apply fix_digits_no_sep; [lia|]. apply digit_lower_not_hyphen. Qed.
Lemma hex_parts_ascii w z : is_ascii (hexf w z) = true.
Proof.
  unfold is_ascii. apply Is_true_true, forallb_True, fix_digits_forall; [lia|]. intros d Hd.
  unfold digit_lower. destruct (d <? 10) eqn:?; apply Is_true_true; zbool;
    rewrite bval_byte_of_Z, Z.mod_small; lia.
Qed.
Lemma is_ascii_app a b : is_ascii (a ++ b) = is_ascii a && is_ascii b.
Proof. apply forallb_app. Qed.

Lemma key_hex_no_hyphen k : key_ok k → hyphen ∉ key_hex k.
Proof.
  intros K. rewrite key_hex_fixed by done. rewrite !not_elem_of_app.
  split_and!; apply hexf_no_hyphen.
Qed.

Lemma parse_field_hex e s pre w z post lo hi :
  s = pre ++ hexf w z ++ post → lo = zlen pre → hi = lo + Z.of_nat w → (0 < w)%nat → 0 ≤ z < 16 ^ Z.of_nat w → z ≤ u32_max →
  parse_field e s lo hi = Ok z.
Proof.
  intros -> -> -> Hw Hz Hm. unfold parse_field. rewrite slice_run by zlen_lia.
  rewrite sub_mid by zlen_lia. unfold hexf. by rewrite (from_str_fix_digits _ 16 eq_refl good_hex).
Qed.

(** A printed key parses back. *)
Lemma parse_key_hex e k : key_ok k → parse_key e (key_hex k) = Ok k.
Proof.
  intros K. rewrite key_hex_fixed by done. destruct K as (F1 & F2 & F3 & F4 & F5 & F6).
  change (0 ≤ key_kind k < 256) in F1. change (0 ≤ key_spc k < 4294967296) in F2.
  change (0 ≤ key_db k < 4294967296) in F3. change (0 ≤ key_rel k < 4294967296) in F4.
  change (0 ≤ key_fork k < 256) in F5. change (0 ≤ key_block k < 4294967296) in F6.
  unfold parse_key.
  rewrite guard_run; cycle 1.
  { apply orb_false_iff; split; [unfold KEY_ENCODED_LEN; zbool; zlen_lia|].
    by rewrite !is_ascii_app, !hex_parts_ascii. }
  set (h1 := hexf 2 (key_kind k)). set (h2 := hexf 8 (key_spc k)).
  set (h3 := hexf 8 (key_db k)). set (h4 := hexf 8 (key_rel k)).
  set (h5 := hexf 2 (key_fork k)). set (h6 := hexf 8 (key_block k)).
  assert (zlen h1 = 2 ∧ zlen h2 = 8 ∧ zlen h3 = 8 ∧ zlen h4 = 8 ∧ zlen h5 = 2 ∧ zlen h6 = 8)
    by (split_and!; apply zlen_hexf).
  rewrite (parse_field_hex e _ [] 2 (key_kind k) (h2 ++ h3 ++ h4 ++ h5 ++ h6) 0 2)
    by (assumption || (unfold u32_max; lia) || reflexivity). rewrite bind_run.
  rewrite (parse_field_hex e _ h1 8 (key_spc k) (h3 ++ h4 ++ h5 ++ h6) 2 10)
    by (assumption || (unfold u32_max; lia) || reflexivity). rewrite bind_run.
  rewrite (parse_field_hex e _ (h1 ++ h2) 8 (key_db k) (h4 ++ h5 ++ h6) 10 18)
    by (assumption || (unfold u32_max; zlen_lia) || by rewrite <-!app_assoc). rewrite bind_run.
  rewrite (parse_field_hex e _ (h1 ++ h2 ++ h3) 8 (key_rel k) (h5 ++ h6) 18 26)
    by (assumption || (unfold u32_max; zlen_lia) || by rewrite <-!app_assoc). rewrite bind_run.
  rewrite (parse_field_hex e _ (h1 ++ h2 ++ h3 ++ h4) 2 (key_fork k) h6 26 28)
    by (assumption || (unfold u32_max; zlen_lia) || by rewrite <-!app_assoc). rewrite bind_run.
  rewrite (parse_field_hex e _ (h1 ++ h2 ++ h3 ++ h4 ++ h5) 8 (key_block k) [] 28 36)
    by (assumption || (unfold u32_max; zlen_lia) || by rewrite <-!app_assoc, app_nil_r). rewrite bind_run.
  rewrite (Z.mod_small (key_kind k)), (Z.mod_small (key_fork k)) by done. by destruct k.
Qed.

Lemma fmt_hex_16 l : fits 8 l → fmt_hex 16 l = hexf 16 l.
Proof. intros. apply (fmt_hex_fits 8); [done|lia|done]. Qed.
Lemma parse_lsn_hex e l : fits 8 l → parse_lsn e (hexf 16 l) = Ok l.
Proof.
  intros F. unfold parse_lsn. rewrite guard_run by (zbool; zlen_lia).
  unfold hexf. rewrite (from_str_fix_digits _ 16 eq_refl good_hex); [done| |unfold fits, u64_max in *; lia|lia].
  by apply (fits_hex 8).
Qed.

(** What of a descriptor its name carries. *)
Definition named (l : LayerDesc) (size : Z) : LayerDesc :=
  mkDesc (ld_kind l) (ld_min_key l) (ld_max_key l) (ld_min_lsn l) (ld_max_lsn l) size None None None.

Lemma desc_parse_name l size : desc_ok l → desc_parse (desc_name l) size = Ok (named l size).
Proof.
  intros (K1 & K2 & L1 & L2 & I). unfold desc_parse, named, desc_name.
  rewrite !fmt_hex_16 by done. set (m := Malformed _). clearbody m.
  pose proof (key_hex_no_hyphen _ K1). pose proof (key_hex_no_hyphen _ K2).
  pose proof (hexf_no_hyphen 16 (ld_min_lsn l)). pose proof (hexf_no_hyphen 16 (ld_max_lsn l)).
  destruct (ld_kind l).
  - rewrite strip_prefix_app. rewrite !app_assoc, strip_suffix_app, <-!app_assoc.
    cbn [ok_or mbind mret res_bind res_ret app].
    rewrite !split_cons, split_none by done. by rewrite !parse_key_hex, !parse_lsn_hex by done.
  - assert (D : ∀ s, strip_prefix (str "d-") (str "i-" ++ s) = None) by done. rewrite D.
    rewrite strip_prefix_app. rewrite !app_assoc, strip_suffix_app, <-!app_assoc.
    cbn [ok_or mbind mret res_bind res_ret app].
    rewrite !split_cons, split_none by done. rewrite parse_lsn_hex, !parse_key_hex by done.
    by rewrite <-I.
Qed.

(** Layer names are lossless.  A descriptor with valid fields parses
    back from its name, size supplied, with everything the map plans on;
    so two layers of a shard share a name only when kind, key range and lsn
    range are all equal. *)
Theorem layer_names_lossless (l l' : LayerDesc) (size : Z) :
  desc_ok l → desc_ok l' →
  desc_parse (desc_name l) size = Ok (named l size) ∧
  (desc_name l = desc_name l' → named l size = named l' size).
Proof.
  intros O O'. split; [by apply desc_parse_name|]. intros E.
  apply (inj (@Ok LayerNameError _)). rewrite <-!desc_parse_name by done. by rewrite E.
Qed.

Lemma layer_names_lossless_witness :
  let d := desc_delta (key_page 1663 5 16384 0 0) (key_page 1663 5 16384 0 99) 0x100 0x2fff in
  desc_parse (desc_name d) 7 = Ok (named d 7).
Proof.
  apply (layer_names_lossless _ (desc_image (key_page 1 1 1 0 0) (key_page 1 1 1 0 9) 16));
    apply (bool_decide_unpack _); by vm_compute.
Defined.

(** ** The tree indexes exactly the covering layers *)
Lemma take_while_filter {A} (leb : A → A → bool) (p : A → bool) l :
  sorted_by leb l → (∀ x y, leb x y = true → p y = true → p x = true) →
  take_while p l = filter (λ x, Is_true (p x)) l.
Proof.
  intros S D. induction l as [|x l IH]; [done|]. destruct S as [S1 S2]. cbn [take_while].
  rewrite filter_cons. destruct (p x) eqn:Px; simpl.
  - by rewrite IH.
  - symmetry. clear IH. induction l as [|y l IH]; [done|]. rewrite filter_cons.
    rewrite decide_False.
    + apply IH; [intros; apply S1; by right|by destruct S2].
    + intros Py%Is_true_true. rewrite (D x y) in Px; [done|apply S1; by left|done].
Qed.

Lemma filter_none {A} (P : A → Prop) `{!∀ x, Decision (P x)} (l : list A) :
  (∀ i, i ∈ l → ¬ P i) → filter P l = [].
Proof.
  induction l as [|i l IH]; intros N; [done|]. rewrite filter_cons_False; [|apply N; by left].
  apply IH. intros j Hj. apply N. by right.
Qed.
Lemma filter_all {A} (P : A → Prop) `{!∀ x, Decision (P x)} (l : list A) :
  (∀ i, i ∈ l → P i) → filter P l = l.
Proof.
  induction l as [|i l IH]; intros N; [done|]. rewrite filter_cons_True; [|apply N; by left].
  f_equal. apply IH. intros j Hj. apply N. by right.
Qed.
Lemma filter_iff {A} (P Q : A → Prop) `{!∀ x, Decision (P x), !∀ x, Decision (Q x)} (l : list A) :
  (∀ i, i ∈ l → P i ↔ Q i) → filter P l = filter Q l.
Proof.
  induction l as [|i l IH]; intros N; [done|]. rewrite !filter_cons.
  rewrite IH by (intros j Hj; apply N; by right).
  assert (Pi : P i ↔ Q i) by (apply N; by left).
  destruct (decide (P i)), (decide (Q i)); naive_solver.
Qed.

Section tree_proofs.
Variable layers : list LayerDesc.
Notation lo := (lmin layers).
Notation hi := (lmax layers).
Notation covered key := (λ i, Is_true (covers (layers !!! i) key)).

Fixpoint elems (t : Node) : list nat :=
  match t with
  | Leaf => []
  | Center _ bm _ l r => bm ++ elems l ++ elems r
  end.

(** The invariant of the centered tree. *)
Fixpoint tree_ok (t : Node) : Prop :=
  match t with
  | Leaf => True
  | Center c bm bx l r =>
      bm ≡ₚ bx ∧ sorted_by (λ i j, oleb (lo i) (lo j)) bm ∧
      sorted_by (λ i j, oleb (hi j) (hi i)) bx ∧
      (∀ i, i ∈ bm → ole (lo i) c ∧ ole c (hi i)) ∧
      (∀ i, i ∈ elems l → olt (hi i) c) ∧ (∀ i, i ∈ elems r → olt c (lo i)) ∧
      tree_ok l ∧ tree_ok r
  end.

Lemma covered_iff i key : Is_true (covers (layers !!! i) key) ↔ ole (lo i) key ∧ ole key (hi i).
Proof. unfold covers. rewrite Is_true_true, andb_true_iff. done. Qed.

(** A stab of a well-formed tree is the covering set. *)
Lemma stab_ok t key :
  tree_ok t → stab layers t key ≡ₚ filter (covered key) (elems t).
Proof.
  induction t as [|c bm bx l IHl r IHr]; [done|].
  intros (Pm & Sm & Sx & Hc & Hl & Hr & Tl & Tr). cbn [stab elems].
  rewrite !filter_app. destruct (ocmp key c) eqn:C.
  - apply ocmp_eq in C as ->. rewrite filter_all.
    2:{ intros i Hi. apply covered_iff, Hc, Hi. }
    rewrite (filter_none (covered c) (elems l)), (filter_none (covered c) (elems r)).
    + by rewrite !app_nil_r.
    + intros i Hi [A _]%covered_iff. apply Hr in Hi. by apply not_olt in A.
    + intros i Hi [_ A]%covered_iff. apply Hl in Hi. by apply not_olt in A.
  - apply oltb_spec in C. rewrite (filter_none (covered key) (elems r)), app_nil_r.
    2:{ intros i Hi [A _]%covered_iff. apply Hr in Hi. apply not_olt in A.
        apply A. by eapply olt_trans. }
    rewrite IHl by done. f_equiv.
    rewrite (take_while_filter (λ i j, oleb (lo i) (lo j))); [|done|].
    + erewrite filter_iff; [done|]. intros i Hi. rewrite covered_iff, Is_true_true.
      rewrite negb_true_iff, oltb_false. destruct (Hc i Hi) as [_ Hx].
      split; [|by intros []]. intros A. split; [done|]. by eapply olt_ole, olt_ole_trans.
    + intros i j Lij. rewrite !negb_true_iff, !oltb_false. intros A. by eapply ole_trans.
  - assert (olt c key) as C' by (apply oltb_spec; by rewrite (ocmp_flip key c), C).
    rewrite (filter_none (covered key) (elems l)). cbn [app].
    2:{ intros i Hi [_ A]%covered_iff. apply Hl in Hi. apply not_olt in A.
        apply A. by eapply olt_trans. }
    rewrite IHr by done. f_equiv. rewrite Pm.
    rewrite (take_while_filter (λ i j, oleb (hi j) (hi i))); [|done|].
    + erewrite filter_iff; [done|]. intros i Hi. rewrite covered_iff, Is_true_true.
      rewrite negb_true_iff, oltb_false. rewrite <-Pm in Hi. destruct (Hc i Hi) as [Hn _].
      split; [|by intros []]. intros A. split; [|done]. by eapply olt_ole, ole_olt_trans.
    + intros i j Lij. rewrite !negb_true_iff, !oltb_false. intros A. by eapply ole_trans.
Qed.

Lemma sort_min_sorted l : sorted_by (λ i j, oleb (lo i) (lo j)) (sort_by (λ i j, oleb (lo i) (lo j)) l).
Proof.
  apply sort_by_sorted.
  - intros x y. apply (ole_total (lo x) (lo y)).
  - intros x y z. apply (ole_trans (lo x) (lo y) (lo z)).
Qed.
Lemma sort_max_sorted l : sorted_by (λ i j, oleb (hi j) (hi i)) (sort_by (λ i j, oleb (hi j) (hi i)) l).
Proof.
  apply sort_by_sorted.
  - intros x y. apply (ole_total (hi y) (hi x)).
  - intros x y z A B. by apply (ole_trans (hi z) (hi y) (hi x)).
Qed.

(** The three parts are the whole. *)
Lemma parts_perm c (l : list nat) :
  filter (λ i, ¬ olt (hi i) c ∧ ¬ olt c (lo i)) l ++ filter (λ i, olt (hi i) c) l ++
  filter (λ i, ¬ olt (hi i) c ∧ olt c (lo i)) l ≡ₚ l.
Proof.
  induction l as [|i l IH]; [done|]. rewrite !filter_cons.
  revert IH. generalize (filter (λ i, ¬ olt (hi i) c ∧ ¬ olt c (lo i)) l) as x.
  generalize (filter (λ i, olt (hi i) c) l) as y.
  generalize (filter (λ i, ¬ olt (hi i) c ∧ olt c (lo i)) l) as z. intros z y x <-.
  repeat case_decide; try tauto; try done.
  all: first [symmetry; apply (Permutation_middle x (y ++ z) i)
             |rewrite !app_assoc; symmetry; apply Permutation_middle].
Qed.

Definition key_bounds_ok (i : nat) : Prop := ole (lo i) (hi i).

(** With ordered bounds the recursion shrinks: the fuel is enough, the tree
    is well formed and holds every index once. *)
Lemma build_ok {E} fuel idx :
  (length idx < fuel)%nat → Forall key_bounds_ok idx →
  ∃ t, @build layers E fuel idx = Ok t ∧ tree_ok t ∧ elems t ≡ₚ idx.
Proof.
  revert idx. induction fuel as [|fuel IH]; intros idx L B; [lia|].
  destruct idx as [|i0 idx0]; [by exists Leaf|]. cbn [build].
  set (leb := λ i j, oleb (lo i) (lo j)). set (idx := sort_by leb (i0 :: idx0)).
  assert (P : idx ≡ₚ i0 :: idx0) by apply sort_by_perm.
  set (m := idx !!! (length idx / 2)%nat). set (c := lo m).
  set (lefts := filter (λ i, olt (hi i) c) idx).
  set (rights := filter (λ i, ¬ olt (hi i) c ∧ olt c (lo i)) idx).
  set (here := filter (λ i, ¬ olt (hi i) c ∧ ¬ olt c (lo i)) idx).
  assert (Pa : here ++ lefts ++ rights ≡ₚ idx) by apply parts_perm.
  assert (Hm : m ∈ idx).
  { apply list_elem_of_lookup_total_2. rewrite P. cbn [length].
    apply Nat.div_lt_upper_bound; lia. }
  assert (Bi : ∀ i, i ∈ idx → ole (lo i) (hi i)).
  { intros i Hi. rewrite P in Hi. rewrite Forall_forall in B. by apply B. }
  assert (Hh : m ∈ here).
  { apply list_elem_of_filter. split; [|done]. split; [|apply olt_irrefl].
    apply not_olt, Bi, Hm. }
  assert (Len : (length lefts < fuel ∧ length rights < fuel)%nat).
  { assert (0 < length here)%nat by (destruct here; [set_solver|simpl; lia]).
    apply Permutation_length in Pa, P. rewrite !length_app in Pa. simpl in *. lia. }
  assert (Fb : ∀ (Q : nat → Prop) `{!∀ x, Decision (Q x)}, Forall key_bounds_ok (filter Q idx)).
  { intros Q ?. apply Forall_forall. intros i [_ Hi]%list_elem_of_filter. by apply Bi. }
  destruct (IH lefts) as (tl & -> & Tl & El); [apply Len|apply Fb|].
  destruct (IH rights) as (tr & -> & Tr & Er); [apply Len|apply Fb|].
  rewrite !bind_run. eexists. split; [done|]. split.
  - split_and!; [|apply sort_min_sorted|apply sort_max_sorted| | | |done|done].
    + by rewrite !sort_by_perm.
    + intros i Hi. rewrite sort_by_elem in Hi.
      apply list_elem_of_filter in Hi as [[A1%not_olt A2%not_olt] _]. done.
    + intros i Hi. rewrite El in Hi. by apply list_elem_of_filter in Hi as [? _].
    + intros i Hi. rewrite Er in Hi. by apply list_elem_of_filter in Hi as [[_ ?] _].
  - cbn [elems]. by rewrite sort_by_perm, El, Er, Pa.
Qed.
End tree_proofs.

(** ** Plans *)
(** What [LayerMap::new] demands of a layer. *)
Definition layer_good (l : LayerDesc) : Prop :=
  ole (ld_min_key l) (ld_max_key l) ∧ ld_min_lsn l ≤ ld_max_lsn l ∧
  (ld_kind l = Image → ld_min_lsn l = ld_max_lsn l).
#[global] Instance layer_good_dec l : Decision (layer_good l).
Proof. unfold layer_good. apply _. Defined.

Lemma check_layers_spec ls :
  if decide (Forall layer_good ls) then check_layers ls = Ok ()
  else ∃ l, l ∈ ls ∧ ¬ layer_good l ∧
    (check_layers ls = Err (Inverted (desc_name l)) ∨ check_layers ls = Err (ImageSpansLsns (desc_name l))).
Proof.
  induction ls as [|l ls IH]; [done|]. cbn [check_layers]. unfold is_kind.
  destruct (oltb (ld_max_key l) (ld_min_key l) || (ld_max_lsn l <? ld_min_lsn l)) eqn:C1.
  { assert (N : ¬ layer_good l).
    { intros (A & B & _). apply orb_true_iff in C1 as [C|C].
      - by apply not_olt in A. - zbool. lia. }
    rewrite decide_False by by intros [? _]%Forall_cons.
    exists l. split_and!; [by left|done|]. left. done. }
  rewrite guard_run by done. apply orb_false_iff in C1 as [C1%oltb_false C2]. zbool.
  destruct (bool_decide (ld_kind l = Image) && negb (ld_min_lsn l =? ld_max_lsn l)) eqn:C3.
  { assert (N : ¬ layer_good l).
    { intros (_ & _ & I). apply andb_true_iff in C3 as [K%bool_decide_eq_true C]. zbool. auto. }
    rewrite decide_False by by intros [? _]%Forall_cons.
    exists l. split_and!; [by left|done|]. right. done. }
  rewrite guard_run by done.
  assert (G : layer_good l).
  { split_and!; [done|done|]. intros K. rewrite bool_decide_true in C3 by done. simpl in C3. by zbool. }
  destruct (decide (Forall layer_good ls)) as [F|F].
  - rewrite decide_True by by constructor. done.
  - rewrite decide_False by by intros [_ ?]%Forall_cons.
    destruct IH as (l' & ? & ? & ?). exists l'. split; [by right|done].
Qed.

Lemma total_seq (pre ls : list LayerDesc) :
  (λ i, (pre ++ ls) !!! i) <$> seq (length pre) (length ls) = ls.
Proof.
  revert pre. induction ls as [|l ls IH]; intros pre; [done|].
  cbn [length seq]. rewrite fmap_cons. f_equal.
  - rewrite lookup_total_app_r, Nat.sub_diag by done. done.
  - specialize (IH (pre ++ [l])). rewrite length_app, Nat.add_1_r, <-app_assoc in IH. apply IH.
Qed.
Lemma fmap_of_kind ls kind :
  (λ i, ls !!! i) <$> of_kind ls kind = filter (λ l, ld_kind l = kind) ls.
Proof.
  trans (filter (λ l, ld_kind l = kind) ((λ i, ls !!! i) <$> seq 0 (length ls))).
  - unfold of_kind, is_kind. generalize (seq 0 (length ls)) as idx.
    induction idx as [|i idx IH]; [done|]. rewrite fmap_cons, !filter_cons, <-IH.
    destruct (decide (ld_kind (ls !!! i) = kind)) as [D|D].
    + rewrite decide_True; [done|]. by apply bool_decide_pack.
    + rewrite decide_False; [done|]. by intros ?%bool_decide_unpack.
  - by rewrite (total_seq [] ls : (λ i, ls !!! i) <$> seq 0 (length ls) = ls).
Qed.

(** The layers a read of [key] at [lsn] can find something in. *)
Definition relevant (kind : LayerKind) (key : LayerKey) (lsn : Lsn) (l : LayerDesc) : Prop :=
  ld_kind l = kind ∧ covers l key = true ∧ ld_min_lsn l ≤ clamp l lsn.
#[global] Instance relevant_dec kind key lsn l : Decision (relevant kind key lsn l).
Proof. unfold relevant. apply _. Defined.

Lemma build_kind_ok ls kind :
  Forall layer_good ls →
  ∃ t, @build ls LayerMapError (S (length ls)) (of_kind ls kind) = Ok t ∧
       tree_ok ls t ∧ elems t ≡ₚ of_kind ls kind.
Proof.
  intros G. apply build_ok.
  - unfold of_kind. pose proof (length_filter (λ i, Is_true (is_kind kind (ls !!! i))) (seq 0 (length ls))).
    rewrite length_seq in *. lia.
  - apply Forall_forall. intros i [_ Hi]%list_elem_of_filter. apply elem_of_seq in Hi as [_ Hi].
    destruct (lookup_lt_is_Some_2 ls i Hi) as [l El]. unfold key_bounds_ok, lmin, lmax.
    rewrite (list_lookup_total_correct _ _ _ El).
    rewrite Forall_forall in G. by apply (G l), list_elem_of_lookup_2 with i.
Qed.

Lemma reachable_ok ls images deltas t kind key lsn :
  tree_ok ls t → elems t ≡ₚ of_kind ls kind →
  reachable (mkMap ls images deltas) t key lsn ≡ₚ filter (relevant kind key lsn) ls.
Proof.
  intros T E. unfold reachable. cbn [lm_layers]. rewrite (stab_ok ls t key T), E.
  trans (filter (λ l, ld_min_lsn l ≤ clamp l lsn) (filter (λ l, Is_true (covers l key))
    ((λ i, ls !!! i) <$> of_kind ls kind))).
  - f_equiv. generalize (of_kind ls kind) as idx. induction idx as [|i idx IH]; [done|].
    rewrite fmap_cons, !filter_cons. case_decide; [|done]. by rewrite fmap_cons, IH.
  - rewrite fmap_of_kind, !list_filter_filter.
    rewrite (filter_iff _ (relevant kind key lsn)); [done|].
    intros l _. unfold relevant. rewrite Is_true_true. tauto.
Qed.

(** A read plan is exact.  [LayerMap::new] builds a map from any list
    of layers whose bounds are in order (its tree recursion terminates) and
    otherwise refuses, naming an offending layer.  For every key and lsn
    the plan then holds, once each, precisely the layers that cover the key
    and start at or below the read (at or below the branch cut for an
    inherited layer): images newest first, deltas in lsn order. *)
Theorem plan_exact (layers : list LayerDesc) :
  if decide (Forall layer_good layers) then
    ∃ m, map_new layers = Ok m ∧ ∀ key lsn,
      let p := plan m key lsn in
      rp_images p ≡ₚ filter (relevant Image key lsn) layers ∧
      sorted_by newer_first (rp_images p) ∧
      rp_deltas p ≡ₚ filter (relevant Delta key lsn) layers ∧
      sorted_by older_first (rp_deltas p)
  else ∃ l, l ∈ layers ∧ ¬ layer_good l ∧
    (map_new layers = Err (Inverted (desc_name l)) ∨
     map_new layers = Err (ImageSpansLsns (desc_name l))).
Proof.
  pose proof (check_layers_spec layers) as C. unfold map_new.
  destruct (decide (Forall layer_good layers)) as [G|G]; cycle 1.
  { destruct C as (l & H1 & H2 & H3). exists l. split_and!; [done..|].
    destruct H3 as [-> | ->]; [by left|by right]. }
  rewrite C, bind_run.
  destruct (build_kind_ok layers Image G) as (ti & -> & Ti & Ei).
  destruct (build_kind_ok layers Delta G) as (td & -> & Td & Ed).
  rewrite !bind_run. eexists. split; [done|]. intros key lsn. cbn [rp_images rp_deltas plan].
  split_and!.
  - rewrite sort_by_perm. by apply reachable_ok.
  - apply sort_by_sorted; unfold newer_first.
    + intros x y. rewrite !Z.leb_le. lia.
    + intros x y z. rewrite !Z.leb_le. lia.
  - rewrite sort_by_perm. by apply reachable_ok.
  - apply sort_by_sorted; unfold older_first.
    + intros x y. apply ole_total.
    + intros x y z. apply ole_trans.
Qed.

Lemma plan_deltas m layers key lsn l :
  map_new layers = Ok m →
  l ∈ rp_deltas (plan m key lsn) ↔ l ∈ layers ∧ relevant Delta key lsn l.
Proof.
  unfold map_new. intros E. apply bind_ok in E as ([] & C & E).
  pose proof (check_layers_spec layers) as Cs. destruct (decide _) as [G|G]; cycle 1.
  { destruct Cs as (? & _ & _ & [Ce|Ce]); congruence. }
  destruct (build_kind_ok layers Image G) as (ti & Bi & _ & _).
  destruct (build_kind_ok layers Delta G) as (td & Bd & Td & Ed).
  rewrite Bi, Bd, !bind_run in E. apply (inj Ok) in E as <-. cbn [plan rp_deltas].
  rewrite sort_by_elem. cbn [lm_deltas]. rewrite (reachable_ok layers ti td td Delta) by done.
  rewrite list_elem_of_filter. tauto.
Qed.

Lemma plan_images m layers key lsn l :
  map_new layers = Ok m →
  l ∈ rp_images (plan m key lsn) ↔ l ∈ layers ∧ relevant Image key lsn l.
Proof.
  unfold map_new. intros E. apply bind_ok in E as ([] & C & E).
  pose proof (check_layers_spec layers) as Cs. destruct (decide _) as [G|G]; cycle 1.
  { destruct Cs as (? & _ & _ & [Ce|Ce]); congruence. }
  destruct (build_kind_ok layers Image G) as (ti & Bi & Ti & Ei).
  destruct (build_kind_ok layers Delta G) as (td & Bd & _ & _).
  rewrite Bi, Bd, !bind_run in E. apply (inj Ok) in E as <-. cbn [plan rp_images].
  rewrite sort_by_elem. cbn [lm_images]. rewrite (reachable_ok layers ti td ti Image) by done.
  rewrite list_elem_of_filter. tauto.
Qed.
Lemma plan_images_sorted m key lsn : sorted_by newer_first (rp_images (plan m key lsn)).
Proof.
  apply sort_by_sorted; unfold newer_first; intros *; rewrite !Z.leb_le; lia.
Qed.

Lemma above_elem layers m key lsn floor l :
  map_new layers = Ok m →
  l ∈ above (plan m key lsn) floor ↔
    l ∈ layers ∧ relevant Delta key lsn l ∧ floor < clamp l (ld_max_lsn l).
Proof.
  intros E. unfold above. rewrite list_elem_of_filter, (plan_deltas m layers key lsn l E).
  rewrite Is_true_true, andb_true_iff, Z.ltb_lt. unfold clamp.
  destruct (ld_upto l); rewrite ?Z.ltb_lt, ?Z.min_glb_lt_iff; tauto.
Qed.

(** The floor drops nothing a read needs.  Once a base at [floor] is
    chosen, [above] keeps a delta layer exactly when it covers the key,
    starts at or below the read and reaches above the floor; every layer
    that can hold a record for the key with [floor < r <= lsn] (capped by
    the branch cut) is kept. *)
Theorem above_keeps_every_record (layers : list LayerDesc) (m : LayerMap) (key : LayerKey)
    (lsn floor : Lsn) (l : LayerDesc) :
  map_new layers = Ok m →
  (l ∈ above (plan m key lsn) floor ↔
    l ∈ layers ∧ relevant Delta key lsn l ∧ floor < clamp l (ld_max_lsn l)) ∧
  (∀ r, l ∈ layers → ld_kind l = Delta → covers l key = true →
    ld_min_lsn l ≤ r ≤ ld_max_lsn l → floor < r ≤ clamp l lsn →
    l ∈ above (plan m key lsn) floor).
Proof.
  intros E. split; [by apply above_elem|]. intros r Hl K C R F. rewrite (above_elem layers) by done.
  split; [done|]. unfold relevant, clamp in *. destruct (ld_upto l); split_and!; (done || lia).
Qed.

Module LayerMapWitness.
Definition k (b : Z) : LayerKey := key_page 1663 5 16384 0 b.
Definition ls : list LayerDesc :=
  [desc_image (k 0) (k 999) 100; desc_image (k 0) (k 999) 500;
   desc_delta (k 0) (k 999) 101 500; desc_delta (k 0) (k 999) 501 800;
   desc_delta (k 0) (k 999) 801 900; desc_delta (k 2000) (k 2999) 801 900].
Definition m : LayerMap :=
  match map_new ls with Ok m => m | _ => mkMap [] Leaf Leaf end.
Example plan_values :
  let p := plan m (k 5) 850 in
  (ld_min_lsn <$> rp_images p) = [500; 100] ∧ (ld_min_lsn <$> above p 500) = [501; 801] ∧
  read_amp p = 5.
Proof. by vm_compute. Qed.
Lemma above_keeps_every_record_witness :
  desc_delta (k 0) (k 999) 501 800 ∈ above (plan m (k 5) 850) 500.
Proof.
  apply (above_keeps_every_record ls m (k 5) 850 500 (desc_delta (k 0) (k 999) 501 800)) with 600;
    [by vm_compute|apply (bool_decide_unpack _); by vm_compute|done|by vm_compute|done|done].
Defined.
End LayerMapWitness.
