(* ===== verification/Memtable.v ===== *)
(** * Memtable: the mutable top of the layer store (crates/zou-store/src/memtable.rs)

    An ordered map from (key, lsn) to records with its byte budget and lsn
    bounds carried along. *)
From S2P Require Import Prelude Order Text Lsn Externals Bloom LayerKey Layer LayerBuild LayerRead LayerLookup.

Abbreviation MemEntries := (list ((LayerKey * Lsn) * bytes)).
Record Memtable := mkMem {
  mem_entries : MemEntries;
  mem_bytes : Z;
  mem_lsns : option (Lsn * Lsn)
}.

(** [Memtable::new] *)
Definition mem_new : Memtable := mkMem [] 0 None.

(** [Memtable::insert] *)
Definition mem_insert {E} (m : Memtable) (key : LayerKey) (lsn : Lsn) (record : bytes) :
    res E Memtable :=
  let total := mem_bytes m + zlen record in
  let lsns := match mem_lsns m with
              | Some (lo, hi) => (Z.min lo lsn, Z.max hi lsn)
              | None => (lsn, lsn)
              end in
  let old := bt_get (key, lsn) (mem_entries m) in
  total ← match old with Some old => usub total (zlen old) | None => mret total end;
  mret (mkMem (bt_insert (key, lsn) record (mem_entries m)) total (Some lsns)).

(** [Memtable::records_for]: [BTreeMap::range] panics when the range is
    inverted. *)
Definition records_for {E} (m : Memtable) (key : LayerKey) (floor upto : Lsn) :
    res E (list (Lsn * bytes)) :=
  _ ← assert (oleb (key, floor) (key, upto));
  mret ((λ e, (e.1.2, e.2)) <$> bt_range_oc (key, floor) (key, upto) (mem_entries m)).

Fixpoint insert_all {E} (m : Memtable) (key : LayerKey) (rs : list (Lsn * bytes)) : res E Memtable :=
  match rs with
  | [] => mret m
  | (lsn, record) :: rs => m ← mem_insert m key lsn record; insert_all m key rs
  end.
Fixpoint subset_into {E} (m out : Memtable) (keys : list LayerKey) (upto : Lsn) : res E Memtable :=
  match keys with
  | [] => mret out
  | key :: keys =>
      rs ← records_for m key 0 upto;
      out ← insert_all out key rs;
      subset_into m out keys upto
  end.
(** [Memtable::subset] *)
Definition subset {E} (m : Memtable) (keys : list LayerKey) (upto : Lsn) : res E Memtable :=
  subset_into m mem_new keys upto.

Definition as_delta (e : (LayerKey * Lsn) * bytes) : DeltaEntry := mkDelta e.1.1 e.1.2 e.2.
(** [Memtable::drain_sorted] *)
Definition drain_sorted (m : Memtable) : list DeltaEntry * Memtable :=
  (as_delta <$> mem_entries m, mkMem [] 0 None).

(** ** The invariant *)
Definition sum_bytes (es : MemEntries) : Z := foldr (λ e n, zlen e.2 + n) 0 es.

Definition lsns_ok (es : MemEntries) (o : option (Lsn * Lsn)) : Prop :=
  match o with
  | None => es = []
  | Some (lo, hi) =>
      (∃ e, e ∈ es ∧ e.1.2 = lo) ∧ (∃ e, e ∈ es ∧ e.1.2 = hi) ∧ ∀ e, e ∈ es → lo ≤ e.1.2 ≤ hi
  end.

Record mem_ok (m : Memtable) : Prop := {
  mo_wf : bt_wf (mem_entries m);
  mo_bytes : mem_bytes m = sum_bytes (mem_entries m);
  mo_lsns : lsns_ok (mem_entries m) (mem_lsns m)
}.

Lemma mem_new_ok : mem_ok mem_new.
Proof. done. Qed.

Lemma sum_bytes_nonneg es : 0 ≤ sum_bytes es.
Proof. induction es as [|e es IH]; simpl; [done|]. pose proof (zlen_nonneg e.2). lia. Qed.
Lemma sum_bytes_insert k v es :
  bt_wf es →
  sum_bytes (bt_insert k v es) =
  sum_bytes es + zlen v - from_option zlen 0 (bt_get k es).
Proof.
  induction es as [|[k' v'] es IH]; intros W; simpl; [lia|]. destruct W as [W1 W2].
  destruct (ocmp k k') eqn:C; simpl.
  - apply ocmp_eq in C as ->. rewrite oeqb_refl. simpl. lia.
  - apply oltb_spec in C. rewrite oeqb_ne by by apply olt_ne.
    rewrite (bt_get_head_lt k es); [simpl; lia|]. intros e He. apply W1 in He. by eapply olt_trans.
  - rewrite oeqb_ne by (intros ->; by rewrite ocmp_refl in C). rewrite IH by done. lia.
Qed.
Lemma sum_bytes_get k v es : bt_get k es = Some v → zlen v ≤ sum_bytes es.
Proof.
  induction es as [|[k' v'] es IH]; simpl; [done|].
  pose proof (sum_bytes_nonneg es). pose proof (zlen_nonneg v'). pose proof (zlen_nonneg v).
  destruct (oeqb k k'); [intros [= ->]; lia|]. intros ?%IH. lia.
Qed.
Lemma bt_insert_keys (k : LayerKey * Lsn) (v : bytes) es k' :
  (∃ v', (k', v') ∈ bt_insert k v es) ↔ k' = k ∨ ∃ v', (k', v') ∈ es.
Proof.
  induction es as [|[k1 v1] es IH]; simpl.
  - split; [|set_solver]. intros [v' Hv]. apply list_elem_of_singleton in Hv. left. congruence.
  - destruct (ocmp k k1) eqn:C.
    + apply ocmp_eq in C as ->. split.
      * intros [v' [Hv|Hv]%elem_of_cons]; [left; congruence|right; exists v'; by right].
      * intros [->|[v' [Hv|Hv]%elem_of_cons]]; [exists v; by left| |exists v'; by right].
        simplify_eq. exists v. by left.
    + setoid_rewrite elem_of_cons at 1. naive_solver.
    + setoid_rewrite elem_of_cons. split.
      * intros [v' [Hv|Hv]]; [right; eauto|]. destruct (proj1 IH (ex_intro _ v' Hv)) as [?|[? ?]]; eauto.
      * intros [Hk|[v' [Hv|Hv]]]; [|eauto|].
        -- destruct (proj2 IH (or_introl Hk)) as [? ?]. eauto.
        -- destruct (proj2 IH (or_intror (ex_intro _ v' Hv))) as [? ?]. eauto.
Qed.

Lemma lsns_ok_insert (k : LayerKey) (lsn : Lsn) v es o :
  lsns_ok es o →
  lsns_ok (bt_insert (k, lsn) v es)
    (Some match o with Some (lo, hi) => (Z.min lo lsn, Z.max hi lsn) | None => (lsn, lsn) end).
Proof.
  intros L.
  assert (New : ∃ e, e ∈ bt_insert (k, lsn) v es ∧ e.1.2 = lsn).
  { destruct (proj2 (bt_insert_keys (k, lsn) v es (k, lsn)) (or_introl eq_refl)) as [v' ?]. by eexists. }
  assert (Old : ∀ e, e ∈ es → ∃ e', e' ∈ bt_insert (k, lsn) v es ∧ e'.1.2 = e.1.2).
  { intros [k1 v1] He.
    destruct (proj2 (bt_insert_keys (k, lsn) v es k1) (or_intror (ex_intro _ v1 He))) as [v' ?].
    by eexists. }
  destruct o as [[lo hi]|]; cbn [lsns_ok] in *.
  - destruct L as ((e1 & H1 & <-) & (e2 & H2 & <-) & B). split_and!.
    + destruct (Z.min_spec e1.1.2 lsn) as [[_ ->]|[_ ->]]; auto.
    + destruct (Z.max_spec e2.1.2 lsn) as [[_ ->]|[_ ->]]; auto.
    + intros e [->|He]%bt_insert_elem; simpl; [lia|]. apply B in He. lia.
  - subst es. split_and!; [done..|]. intros e [->|He]%bt_insert_elem; [simpl; lia|set_solver].
Qed.

(** Insert goes through, keeps the invariant, and is a map update. *)
Lemma mem_insert_ok {E} m key lsn record :
  mem_ok m →
  ∃ m', @mem_insert E m key lsn record = Ok m' ∧ mem_ok m' ∧
        mem_entries m' = bt_insert (key, lsn) record (mem_entries m).
Proof.
  intros [W B L]. unfold mem_insert. pose proof (zlen_nonneg record).
  pose proof (sum_bytes_insert (key, lsn) record _ W) as S.
  pose proof (lsns_ok_insert key lsn record _ _ L) as L'.
  destruct (bt_get (key, lsn) (mem_entries m)) as [old|] eqn:G; simpl in S.
  - apply sum_bytes_get in G. rewrite usub_run by lia.
    eexists. split; [done|]. split; [|done]. split; simpl; [by apply bt_insert_wf|lia|done].
  - rewrite ret_run. eexists. split; [done|]. split; [|done].
    split; simpl; [by apply bt_insert_wf|lia|done].
Qed.

(** One step of the table's life: a record arrives, or a flush drains it. *)
Inductive mem_op := OpInsert (key : LayerKey) (lsn : Lsn) (record : bytes) | OpDrain.
Definition mem_step {E} (m : Memtable) (op : mem_op) : res E Memtable :=
  match op with
  | OpInsert key lsn record => mem_insert m key lsn record
  | OpDrain => mret (drain_sorted m).2
  end.
Fixpoint mem_run {E} (m : Memtable) (ops : list mem_op) : res E Memtable :=
  match ops with
  | [] => mret m
  | op :: ops => m ← mem_step m op; mem_run m ops
  end.

(** What the table should hold after a history: the last record written at
    each (key, lsn) since the last drain. *)
Fixpoint mem_spec (ops : list mem_op) (found : option bytes) (k : LayerKey * Lsn) : option bytes :=
  match ops with
  | [] => found
  | OpInsert key lsn record :: ops =>
      mem_spec ops (if oeqb k (key, lsn) then Some record else found) k
  | OpDrain :: ops => mem_spec ops None k
  end.

Lemma mem_run_ok {E} ops m :
  mem_ok m →
  ∃ m', @mem_run E m ops = Ok m' ∧ mem_ok m' ∧
        ∀ k, bt_get k (mem_entries m') = mem_spec ops (bt_get k (mem_entries m)) k.
Proof.
  revert m. induction ops as [|op ops IH]; intros m O; [by exists m|].
  destruct op as [key lsn record|]; cbn [mem_run mem_step mem_spec].
  - destruct (@mem_insert_ok E m key lsn record O) as (m1 & -> & O1 & E1). rewrite bind_run.
    destruct (IH m1 O1) as (m2 & -> & O2 & G). exists m2. split_and!; [done..|].
    intros k. rewrite G, E1, bt_get_insert by apply O. done.
  - rewrite ret_run.
    destruct (IH mem_new mem_new_ok) as (m2 & E2 & O2 & G). exists m2. by split_and!.
Qed.

(** The memtable is an exact ordered map with honest accounting.
    After any history of inserts and drains from an empty table, nothing
    has panicked (in particular the byte budget never underflows), the
    table maps each (key, lsn) to the last record written there since the
    last drain, its byte count is the sum of the records it holds, and its
    lsn bounds are attained and tight, absent exactly when it is empty. *)
Theorem memtable_exact (ops : list mem_op) :
  ∃ m, @mem_run Empty_set mem_new ops = Ok m ∧
    (∀ k, bt_get k (mem_entries m) = mem_spec ops None k) ∧
    mem_bytes m = sum_bytes (mem_entries m) ∧
    lsns_ok (mem_entries m) (mem_lsns m) ∧ bt_wf (mem_entries m).
Proof.
  destruct (@mem_run_ok Empty_set ops mem_new mem_new_ok) as (m & R & [W B L] & G).
  exists m. by split_and!.
Qed.

(** ** Windows and subsets *)
Definition window (es : MemEntries) (key : LayerKey) (floor upto : Lsn) : list (Lsn * bytes) :=
  (λ e, (e.1.2, e.2)) <$> bt_range_oc (key, floor) (key, upto) es.

Lemma ole_key_lsn (key : LayerKey) (a b : Lsn) : ole (key, a) (key, b) ↔ a ≤ b.
Proof.
  rewrite ole_lteq, olt_pair, olt_Z. split.
  - intros [[L|[_ ?]]|[= ->]]; [by apply olt_irrefl in L|lia|lia].
  - intros L. apply Z.le_lteq in L as [?| ->]; auto.
Qed.
Lemma olt_key_lsn (key : LayerKey) (a b : Lsn) : olt (key, a) (key, b) ↔ a < b.
Proof. rewrite olt_pair, olt_Z. split; [intros [L|[_ ?]]; [by apply olt_irrefl in L|lia]|auto]. Qed.

Lemma records_for_run {E} m key floor upto :
  @records_for E m key floor upto =
  if floor <=? upto then Ok (window (mem_entries m) key floor upto) else Panic.
Proof.
  unfold records_for, assert. destruct (floor <=? upto) eqn:C; zbool.
  - by rewrite (proj2 (ole_key_lsn key floor upto) C).
  - destruct (oleb _ _) eqn:D; [|done]. apply ole_key_lsn in D. lia.
Qed.

(** The key of a range is pinned by its bounds. *)
Lemma range_key (es : MemEntries) key floor upto e :
  e ∈ bt_range_oc (key, floor) (key, upto) es ↔ e.1.1 = key ∧ floor < e.1.2 ≤ upto ∧ e ∈ es.
Proof.
  rewrite bt_range_elem. destruct e as [[k l] v]. simpl. split.
  - intros (A & B & ?). assert (k = key) as ->.
    { apply ole_antisym.
      - apply ole_lteq in B as [[?|[? _]]%olt_pair|]; [by apply olt_ole| |]; simplify_eq; apply ole_refl.
      - apply olt_pair in A as [?|[-> _]]; [by apply olt_ole|apply ole_refl]. }
    apply olt_key_lsn in A. apply ole_key_lsn in B. split_and!; (done || lia).
  - intros (-> & ? & ?). rewrite olt_key_lsn, ole_key_lsn. split_and!; (done || lia).
Qed.
Lemma window_elem m key floor upto lsn r :
  mem_ok m →
  (lsn, r) ∈ window (mem_entries m) key floor upto ↔
  floor < lsn ≤ upto ∧ bt_get (key, lsn) (mem_entries m) = Some r.
Proof.
  intros [W _ _]. unfold window. rewrite list_elem_of_fmap. split.
  - intros ([[k l] v] & [= -> ->] & (E1 & E2 & E3)%range_key). simpl in *. subst.
    split; [done|]. by apply bt_get_elem.
  - intros [? G]. apply bt_get_elem in G; [|done]. exists ((key, lsn), r). split; [done|].
    by apply range_key.
Qed.

Lemma bt_range_same (es es' : MemEntries) key floor upto :
  bt_wf es → bt_wf es' →
  (∀ lsn, floor < lsn ≤ upto → bt_get (key, lsn) es = bt_get (key, lsn) es') →
  bt_range_oc (key, floor) (key, upto) es = bt_range_oc (key, floor) (key, upto) es'.
Proof.
  intros W W' Same. apply bt_ext; [by apply bt_range_wf..|]. intros [k l].
  apply option_eq. intros v. rewrite !bt_get_elem by by apply bt_range_wf.
  rewrite !range_key. simpl. split; intros (-> & ? & Hv); split_and!; try (done || lia).
  - apply bt_get_elem; [done|]. rewrite <-Same by lia. by apply bt_get_elem.
  - apply bt_get_elem; [done|]. rewrite Same by lia. by apply bt_get_elem.
Qed.

(** Copying records of one key into a table. *)
Lemma insert_all_ok {E} (f : LayerKey * Lsn → option bytes) key rs out :
  mem_ok out → (∀ l r, (l, r) ∈ rs → f (key, l) = Some r) →
  ∃ out', @insert_all E out key rs = Ok out' ∧ mem_ok out' ∧
    ∀ k l, bt_get (k, l) (mem_entries out') =
      if decide (k = key ∧ l ∈ rs.*1) then f (key, l) else bt_get (k, l) (mem_entries out).
Proof.
  revert out. induction rs as [|[l r] rs IH]; intros out O F.
  { exists out. split_and!; [done..|]. intros k l. rewrite decide_False; [done|]. set_solver. }
  cbn [insert_all]. destruct (@mem_insert_ok E out key l r O) as (o1 & -> & O1 & E1).
  rewrite bind_run. destruct (IH o1 O1) as (o2 & -> & O2 & G).
  { intros l' r' ?. apply F. by right. }
  exists o2. split_and!; [done..|]. intros k l'. rewrite G, E1, bt_get_insert by apply O.
  rewrite fmap_cons. cbn [fst]. destruct (decide (k = key ∧ l' ∈ rs.*1)) as [[-> ?]|N].
  - rewrite decide_True; [done|]. split; [done|by right].
  - destruct (oeqb (k, l') (key, l)) eqn:Q.
    + apply oeqb_spec in Q. simplify_eq. rewrite decide_True; [|split; [done|by left]].
      symmetry. apply F. by left.
    + rewrite decide_False; [done|]. intros [-> [->|?]%elem_of_cons]; [|by apply N].
      by rewrite oeqb_refl in Q.
Qed.

Definition carried (m : Memtable) (keys : list LayerKey) (upto : Lsn) (k : LayerKey) (l : Lsn) : Prop :=
  k ∈ keys ∧ 0 < l ≤ upto ∧ is_Some (bt_get (k, l) (mem_entries m)).

Lemma subset_into_ok {E} m out keys upto :
  mem_ok m → mem_ok out → 0 ≤ upto →
  ∃ out', @subset_into E m out keys upto = Ok out' ∧ mem_ok out' ∧
    ∀ k l, bt_get (k, l) (mem_entries out') =
      if decide (carried m keys upto k l) then bt_get (k, l) (mem_entries m)
      else bt_get (k, l) (mem_entries out).
Proof.
  intros O Oo U. revert out Oo. induction keys as [|key keys IH]; intros out Oo.
  { exists out. split_and!; [done..|]. intros k l. rewrite decide_False; [done|]. intros [? _]. set_solver. }
  cbn [subset_into]. rewrite records_for_run, (proj2 (Z.leb_le _ _)), bind_run by done.
  destruct (@insert_all_ok E (λ p, bt_get p (mem_entries m)) key
    (window (mem_entries m) key 0 upto) out Oo) as (o1 & -> & O1 & G1).
  { intros l r Hr. by apply window_elem in Hr as [_ ?]. }
  rewrite bind_run. destruct (IH o1 O1) as (o2 & -> & O2 & G2). exists o2. split_and!; [done..|].
  intros k l. rewrite G2, G1.
  assert (Hw : l ∈ (window (mem_entries m) key 0 upto).*1 ↔
               0 < l ≤ upto ∧ is_Some (bt_get (key, l) (mem_entries m))).
  { rewrite list_elem_of_fmap. split.
    - intros ([l' r] & -> & Hr). apply window_elem in Hr as [? ?]; [|done]. eauto.
    - intros [? [r ?]]. exists (l, r). split; [done|]. by apply window_elem. }
  assert (Hc : carried m (key :: keys) upto k l ↔
    (k = key ∧ l ∈ (window (mem_entries m) key 0 upto).*1) ∨ carried m keys upto k l).
  { unfold carried. rewrite elem_of_cons, Hw. naive_solver. }
  repeat case_decide; naive_solver.
Qed.

(** A subset reads like the table it was taken from: for every key it
    was taken for and every window inside the ceiling, reading the subset
    gives the same records in the same order as reading the table, and it
    holds nothing for other keys. *)
Theorem subset_reads_alike (m : Memtable) (keys : list LayerKey) (upto : Lsn) :
  mem_ok m → 0 ≤ upto →
  ∃ taken, @subset Empty_set m keys upto = Ok taken ∧ mem_ok taken ∧
    (∀ key floor to, key ∈ keys → 0 ≤ floor → to ≤ upto →
      @records_for Empty_set taken key floor to = records_for m key floor to) ∧
    (∀ key lsn, key ∉ keys → bt_get (key, lsn) (mem_entries taken) = None).
Proof.
  intros O U. destruct (@subset_into_ok Empty_set m mem_new keys upto O mem_new_ok U) as (t & R & Ot & G).
  exists t. split_and!; [done..| |].
  - intros key floor to K F T. rewrite !records_for_run. destruct (floor <=? to) eqn:C; [|done].
    unfold window. do 2 f_equal. apply bt_range_same; [apply Ot|apply O|].
    intros lsn L. rewrite G. case_decide as D; [done|]. simpl.
    destruct (bt_get (key, lsn) (mem_entries m)) eqn:Q; [|done]. destruct D.
    split_and!; [done|lia|lia|eauto].
  - intros key lsn N. rewrite G. rewrite decide_False; [done|]. by intros [? _].
Qed.

(** ** Flushing *)
Lemma drain_sorted_lt m : mem_ok m → StronglySorted delta_lt (drain_sorted m).1.
Proof.
  intros [W _ _]. unfold drain_sorted. simpl. induction (mem_entries m) as [|e es IH]; [constructor|].
  destruct W as [W1 W2]. rewrite fmap_cons. constructor; [auto|]. apply Forall_forall.
  intros d (e' & -> & He)%list_elem_of_fmap. apply W1 in He.
  destruct e as [[k l] v], e' as [[k' l'] v']. done.
Qed.

(** The integers of a table's keys are in range, its records small enough. *)
Definition flushable (m : Memtable) : Prop :=
  mem_entries m ≠ [] ∧ Forall delta_entry_ok (drain_sorted m).1 ∧ Forall record_fits (drain_sorted m).1.
#[global] Instance flushable_dec m : Decision (flushable m).
Proof. unfold flushable. apply _. Defined.

Lemma foldr_min_spec d (l : list Z) :
  l ≠ [] → Forall (λ x, x ≤ d) l → foldr Z.min d l ∈ l ∧ ∀ x, x ∈ l → foldr Z.min d l ≤ x.
Proof.
  intros N F. induction F as [|x l Hx F IH]; [done|]. cbn [foldr].
  destruct l as [|y l].
  - cbn [foldr]. rewrite Z.min_l by done. split; [by left|].
    intros z ->%list_elem_of_singleton. done.
  - destruct IH as [IH1 IH2]; [done|]. split.
    + destruct (Z.min_spec x (foldr Z.min d (y :: l))) as [[_ ->]|[_ ->]]; [by left|by right].
    + intros z [->|Hz]%elem_of_cons; [lia|]. apply IH2 in Hz. lia.
Qed.
Lemma foldr_max_spec d (l : list Z) :
  l ≠ [] → Forall (λ x, d ≤ x) l → foldr Z.max d l ∈ l ∧ ∀ x, x ∈ l → x ≤ foldr Z.max d l.
Proof.
  intros N F. induction F as [|x l Hx F IH]; [done|]. cbn [foldr].
  destruct l as [|y l].
  - cbn [foldr]. rewrite Z.max_l by done. split; [by left|].
    intros z ->%list_elem_of_singleton. done.
  - destruct IH as [IH1 IH2]; [done|]. split.
    + destruct (Z.max_spec x (foldr Z.max d (y :: l))) as [[_ ->]|[_ ->]]; [by right|by left].
    + intros z [->|Hz]%elem_of_cons; [lia|]. apply IH2 in Hz. lia.
Qed.

(** The bounds carried along are the ones a layer's footer computes. *)
Lemma mem_lsns_footer m :
  mem_ok m → mem_entries m ≠ [] → Forall delta_entry_ok (drain_sorted m).1 →
  mem_lsns m = Some (foldr Z.min u64_max (de_lsn <$> (drain_sorted m).1),
                     foldr Z.max 0 (de_lsn <$> (drain_sorted m).1)).
Proof.
  intros [_ _ L] N F. set (ls := de_lsn <$> (drain_sorted m).1).
  assert (Els : ∀ x, x ∈ ls ↔ ∃ e, e ∈ mem_entries m ∧ e.1.2 = x).
  { intros x. unfold ls, drain_sorted. cbn [fst]. rewrite list_elem_of_fmap. split.
    - intros (d & -> & (e & -> & He)%list_elem_of_fmap). by exists e.
    - intros (e & He & <-). exists (as_delta e). split; [done|]. by apply list_elem_of_fmap_2. }
  assert (Nl : ls ≠ []).
  { unfold ls, drain_sorted. cbn [fst]. by destruct (mem_entries m). }
  assert (Fl : Forall (λ x, 0 ≤ x ≤ u64_max) ls).
  { apply Forall_fmap. eapply Forall_impl; [exact F|]. intros e [_ Fe].
    change (0 ≤ de_lsn e < 2 ^ 64) in Fe. simpl. unfold u64_max. lia. }
  destruct (foldr_min_spec u64_max ls) as [M1 M2]; [done|eapply Forall_impl; [done|]; intros x Hx; simpl in *; lia|].
  destruct (foldr_max_spec 0 ls) as [X1 X2]; [done|eapply Forall_impl; [done|]; intros x Hx; simpl in *; lia|].
  destruct (mem_lsns m) as [[lo hi]|]; cbn [lsns_ok] in L; [|done].
  destruct L as (Lo & Hi & B). apply Els in Lo, Hi. apply Els in M1 as (e1 & He1 & Q1), X1 as (e2 & He2 & Q2).
  apply M2 in Lo. apply X2 in Hi. apply B in He1, He2. do 2 f_equal; lia.
Qed.

(** A flush loses nothing.  Draining a table and building a delta
    layer succeeds for every block target the format allows, the layer
    decodes to exactly the drained records in (key, lsn) order, its footer
    carries the table's lsn bounds and entry count, and the table left
    behind is empty. *)
Theorem flush_lossless `{CrcOk, Lz4Ok} (m : Memtable) (target : Z) :
  mem_ok m → flushable m → target ≤ MAX_BLOCK_RAW_LEN →
  ∃ obj f, build_delta (drain_sorted m).1 target = Ok (obj, f) ∧
    (layer_sized obj f (zlen (mem_entries m)) →
      decode_delta obj = Ok (as_delta <$> mem_entries m, f)) ∧
    lf_entry_count f = zlen (mem_entries m) ∧
    mem_lsns m = Some (lf_min_lsn f, lf_max_lsn f) ∧
    (drain_sorted m).2 = mem_new.
Proof.
  intros O (N & Ok & Rf) T. pose proof (drain_sorted_lt m O) as S.
  destruct (build_delta_ok (drain_sorted m).1 target T) as (obj & f & gs & hs & e & z & Eb & B); try done.
  { unfold drain_sorted. simpl. by destruct (mem_entries m). }
  exists obj, f. split; [done|].
  assert (Zl : zlen (drain_sorted m).1 = zlen (mem_entries m)).
  { unfold drain_sorted, zlen. simpl. by rewrite length_fmap. }
  split_and!; [|by rewrite <-Zl, <-(dt_concat _ _ _ _ _ _ _ B), (dt_footer _ _ _ _ _ _ _ B)| |done].
  - intros Z. rewrite <-Zl in Z. eapply delta_built_decodes; eauto.
  - by rewrite (mem_lsns_footer m O N Ok), <-(dt_concat _ _ _ _ _ _ _ B), (dt_footer _ _ _ _ _ _ _ B).
Qed.

Module MemtableWitness.
Import Concrete.
Definition k (b : Z) : LayerKey := key_page 1663 5 16384 0 b.
Definition ops : list mem_op :=
  [OpInsert (k 2) 20 (str "old"); OpDrain; OpInsert (k 2) 30 (str "b"); OpInsert (k 1) 50 (str "a");
   OpInsert (k 2) 10 (str "first"); OpInsert (k 2) 30 (str "again")].
Definition m : Memtable :=
  match @mem_run Empty_set mem_new ops with Ok m => m | _ => mem_new end.
Lemma m_ok : mem_ok m.
Proof.
  destruct (@mem_run_ok Empty_set ops mem_new mem_new_ok) as (m' & R & O & _).
  replace m with m'; [done|]. unfold m. by rewrite R.
Qed.
Example m_values : mem_bytes m = 11 ∧ mem_lsns m = Some (10, 50) ∧ length (mem_entries m) = 3%nat.
Proof. by vm_compute. Qed.

Lemma subset_reads_alike_witness :
  ∃ taken, @subset Empty_set m [k 2] 40 = Ok taken ∧
    @records_for Empty_set taken (k 2) 10 40 = Ok [(30, str "again")].
Proof.
  destruct (subset_reads_alike m [k 2] 40 m_ok ltac:(done)) as (t & R & _ & A & _).
  exists t. split; [done|]. rewrite A; [by vm_compute|by left|done|done].
Defined.

Lemma flush_lossless_witness :
  ∃ obj f, build_delta (drain_sorted m).1 LAYER_BLOCK_TARGET = Ok (obj, f) ∧ lf_entry_count f = 3.
Proof.
  destruct (flush_lossless m LAYER_BLOCK_TARGET m_ok) as (obj & f & Eb & _ & C & _);
    [apply (bool_decide_unpack _); by vm_compute|done|]. exists obj, f. split; [done|].
  rewrite C. by vm_compute.
Defined.
End MemtableWitness.
