(* ===== verification/Cas.v ===== *)
(** * Cas: the compare-and-swap store (crates/zou-store/src/cas.rs, mem.rs)

    [CasStore] is the trait every component coordinates through: here a
    class of operations on a store state, with the trait's default methods
    as definitions over it and its contract as a class of laws.  [MemStore]
    is the in-memory backend and an instance of both.  The filesystem and
    remote backends are not modelled; what is proved against the class
    holds of any backend that keeps the contract. *)
From S2P Require Import Prelude Order Text.

(** [Version]: opaque, compared for equality only. *)
Abbreviation Version := bytes.

Inductive CasError :=
  | Conflict (key : bytes)
  | AlreadyExists (key : bytes)
  | ImmutableOverwrite (key : bytes)
  | Io (key : bytes).
#[global] Instance CasError_eq_dec : EqDecision CasError.
Proof. solve_decision. Defined.

Class CasStore (S : Type) := {
  cas_get : S → bytes → res CasError (option (bytes * Version));
  put_if_match : S → bytes → bytes → option Version → S * res CasError Version;
  cas_delete : S → bytes → S * res CasError ();
  cas_list : S → bytes → res CasError (list bytes)
}.

(** ** The trait's default methods *)
Section defaults.
Context {S : Type} `{CasStore S}.

(** [CasStore::put_if_absent] *)
Definition put_if_absent (s : S) (key data : bytes) : S * res CasError Version :=
  let '(s, r) := put_if_match s key data None in
  (s, match r with Err (Conflict key) => Err (AlreadyExists key) | other => other end).

(** [CasStore::put]: the read and the swap are separate calls, so another
    writer may get between them; [env] is what the rest of the world does
    to the store there, once per round of the loop. *)
Fixpoint cas_put (env : list (S → S)) (s : S) (key data : bytes) : S * res CasError Version :=
  match cas_get s key with
  | Err e => (s, Err e)
  | Panic => (s, Panic)
  | Ok cur =>
      match env with
      | [] => put_if_match s key data (snd <$> cur)
      | meddle :: env =>
          match put_if_match (meddle s) key data (snd <$> cur) with
          | (s, Err (Conflict _)) => cas_put env s key data
          | other => other
          end
      end
  end.

(** [CasStore::get_range] *)
Definition cas_get_range (s : S) (key : bytes) (offset len : Z) : res CasError (option bytes) :=
  cur ← cas_get s key;
  match cur with
  | Some (data, _) =>
      let start := Z.min offset (zlen data) in
      let stop := Z.min (Z.min (offset + len) u64_max) (zlen data) in
      part ← slice data start stop;
      mret (Some part)
  | None => mret None
  end.
End defaults.

(** ** The contract *)
Class CasOk (S : Type) `{CasStore S} := {
  (** States the backend can be in, and what such a state holds. *)
  cas_inv : S → Prop;
  cas_view : S → bytes → option (bytes * Version);
  cas_get_ok : ∀ s key, cas_inv s → cas_get s key = Ok (cas_view s key);
  (** A swap goes through exactly when the expected version is the current
      one, [None] meaning absent; it changes that key alone. *)
  put_if_match_ok : ∀ s key data expected, cas_inv s →
    let '(s', r) := put_if_match s key data expected in
    cas_inv s' ∧
    if bool_decide (expected = snd <$> cas_view s key)
    then ∃ v, r = Ok v ∧ cas_view s' key = Some (data, v) ∧
              (∀ key', key' ≠ key → cas_view s' key' = cas_view s key')
    else r = Err (Conflict key) ∧ s' = s;
  cas_delete_ok : ∀ s key, cas_inv s →
    let '(s', r) := cas_delete s key in
    cas_inv s' ∧ r = Ok () ∧ cas_view s' key = None ∧
    (∀ key', key' ≠ key → cas_view s' key' = cas_view s key');
  cas_list_ok : ∀ s prefix, cas_inv s → ∃ keys, cas_list s prefix = Ok keys ∧
    StronglySorted olt keys ∧
    (∀ key, key ∈ keys ↔ is_Some (cas_view s key) ∧ starts_with key prefix = true)
}.

(** Reading pins what was read: as long as a key carries the version it was
    read with, it carries the bytes it was read with.  [cas_snap s key d v]
    says so of the state [s], and no operation undoes it.  A counter and a
    content hash both make good versions. *)
Class CasSnap (S : Type) `{CasOk S} := {
  cas_snap : S → bytes → bytes → Version → Prop;
  cas_snap_get : ∀ s key d v, cas_inv s → cas_view s key = Some (d, v) → cas_snap s key d v;
  cas_snap_use : ∀ s key d d' v, cas_inv s → cas_snap s key d v → cas_view s key = Some (d', v) → d' = d;
  cas_snap_put : ∀ s key d v key' data expected, cas_inv s → cas_snap s key d v →
    cas_snap (put_if_match s key' data expected).1 key d v;
  cas_snap_delete : ∀ s key d v key', cas_inv s → cas_snap s key d v →
    cas_snap (cas_delete s key').1 key d v
}.

(** ** MemStore *)
Record MemStore := mkMemStore {
  ms_objects : list (bytes * (bytes * Version));
  ms_counter : Z
}.
Definition ms_new : MemStore := mkMemStore [] 0.
Definition ms_get (s : MemStore) (key : bytes) : res CasError (option (bytes * Version)) :=
  mret (bt_get key (ms_objects s)).
Definition ms_put_if_match (s : MemStore) (key data : bytes) (expected : option Version) :
    MemStore * res CasError Version :=
  let current := snd <$> bt_get key (ms_objects s) in
  match expected, current with
  | None, Some _ => (s, Err (Conflict key))
  | Some _, None => (s, Err (Conflict key))
  | Some want, Some have =>
      if bool_decide (want ≠ have) then (s, Err (Conflict key))
      else
        let counter := ms_counter s + 1 in
        let version := fmt_dec 1 counter in
        (mkMemStore (bt_insert key (data, version) (ms_objects s)) counter, mret version)
  | None, None =>
      let counter := ms_counter s + 1 in
      let version := fmt_dec 1 counter in
      (mkMemStore (bt_insert key (data, version) (ms_objects s)) counter, mret version)
  end.
Definition ms_delete (s : MemStore) (key : bytes) : MemStore * res CasError () :=
  (mkMemStore (bt_remove key (ms_objects s)) (ms_counter s), mret ()).
Fixpoint take_keys (prefix : bytes) (m : list (bytes * (bytes * Version))) : list bytes :=
  match m with
  | [] => []
  | (k, _) :: m => if starts_with k prefix then k :: take_keys prefix m else []
  end.
Definition ms_list (s : MemStore) (prefix : bytes) : res CasError (list bytes) :=
  mret (take_keys prefix (filter (λ e, ole prefix e.1) (ms_objects s))).

#[global] Instance mem_cas : CasStore MemStore := {
  cas_get := ms_get;
  put_if_match := ms_put_if_match;
  cas_delete := ms_delete;
  cas_list := ms_list
}.


(** ** MemStore keeps the contract *)
Lemma list_cmp_prefix (p r : bytes) : list_cmp p (p ++ r) ≠ Gt.
Proof.
  induction p as [|b p IH]; simpl; [by destruct r|].
  by rewrite (proj2 (ocmp_eq b b) eq_refl).
Qed.
(** Keys between a prefix and a key that starts with it start with it. *)
Lemma prefix_between (p a b : bytes) :
  ole p a → ole a b → starts_with b p = true → starts_with a p = true.
Proof.
  rewrite !starts_with_spec. revert a b.
  induction p as [|c p IH]; intros a b P A [r ->]; [by exists a|].
  unfold ole, oleb, ocmp, list_ord in P, A. destruct a as [|x a]; simpl in P, A; [done|].
  destruct (ocmp c x) eqn:C1; simpl in P; [| |done].
  - apply ocmp_eq in C1 as <-. rewrite (proj2 (ocmp_eq c c) eq_refl) in A. simpl in A.
    destruct (IH a (p ++ r)) as [r' ->]; [done|done|eauto|]. by exists r'.
  - rewrite (ocmp_flip c x), C1 in A. done.
Qed.

Lemma take_keys_elem prefix m key :
  bt_wf m → (∀ e, e ∈ m → ole prefix e.1) →
  key ∈ take_keys prefix m ↔ (∃ v, (key, v) ∈ m) ∧ starts_with key prefix = true.
Proof.
  induction m as [|[k v] m IH]; intros W P; simpl; [set_solver|]. destruct W as [W1 W2].
  destruct (starts_with k prefix) eqn:C.
  - rewrite elem_of_cons, IH by (done || set_solver). split.
    + intros [->|[[v' ?] ?]]; [split; [exists v; by left|done]|split; [exists v'; by right|done]].
    + intros [[v' [Hv|Hv]%elem_of_cons] ?]; [left; congruence|right; eauto].
  - split; [set_solver|]. intros [[v' [Hv|Hv]%elem_of_cons] Hs]; [simplify_eq; congruence|].
    rewrite (prefix_between prefix k key) in C; [done| | |done].
    + apply (P (k, v)). by left.
    + apply W1 in Hv. by apply olt_ole.
Qed.
Lemma take_keys_sorted prefix m : bt_wf m → StronglySorted olt (take_keys prefix m).
Proof.
  induction m as [|[k v] m IH]; intros W; simpl; [constructor|]. destruct W as [W1 W2].
  destruct (starts_with k prefix); constructor; [by apply IH|].
  assert (Sub : ∀ x, x ∈ take_keys prefix m → ∃ v, (x, v) ∈ m).
  { clear. induction m as [|[k v] m IH]; simpl; [set_solver|].
    destruct (starts_with k prefix); [|set_solver].
    intros x [->|Hx]%elem_of_cons; [exists v; by left|]. destruct (IH x Hx) as [v' ?]. exists v'. by right. }
  apply Forall_forall. intros x [v' Hx]%Sub. apply W1 in Hx. done.
Qed.

(** ** Versions of MemStore are never reused *)
Inductive ms_op :=
  | MPut (key data : bytes) (expected : option Version)
  | MDelete (key : bytes).
Definition ms_step (s : MemStore) (op : ms_op) : MemStore :=
  match op with
  | MPut key data expected => (ms_put_if_match s key data expected).1
  | MDelete key => (ms_delete s key).1
  end.
(** The operation changed [key]. *)
Definition wrote (s : MemStore) (key : bytes) (op : ms_op) : bool :=
  match op with
  | MPut k data expected =>
      bool_decide (k = key) && bool_decide (expected = snd <$> bt_get k (ms_objects s))
  | MDelete k => bool_decide (k = key)
  end.
Fixpoint untouched (s : MemStore) (key : bytes) (ops : list ms_op) : bool :=
  match ops with
  | [] => true
  | op :: ops => negb (wrote s key op) && untouched (ms_step s op) key ops
  end.
Definition ms_run (s : MemStore) (ops : list ms_op) : MemStore := foldl ms_step s ops.

(** Every version in the store was issued: it prints a counter value. *)
Definition issued (s : MemStore) : Prop :=
  0 ≤ ms_counter s ∧
  ∀ key d v, bt_get key (ms_objects s) = Some (d, v) → ∃ c, 0 ≤ c ≤ ms_counter s ∧ v = fmt_dec 1 c.
Definition ms_ok (s : MemStore) : Prop := bt_wf (ms_objects s) ∧ issued s.

Lemma ms_put_cases s key data expected :
  ms_put_if_match s key data expected =
  if bool_decide (expected = snd <$> bt_get key (ms_objects s))
  then let version := fmt_dec 1 (ms_counter s + 1) in
       (mkMemStore (bt_insert key (data, version) (ms_objects s)) (ms_counter s + 1), Ok version)
  else (s, Err (Conflict key)).
Proof.
  unfold ms_put_if_match. destruct expected as [want|], (bt_get key (ms_objects s)) as [[d have]|]; simpl; try done.
  destruct (decide (want = have)) as [->|N].
  - by rewrite bool_decide_false, bool_decide_true by (done || by intros []).
  - by rewrite bool_decide_true, bool_decide_false by congruence.
Qed.

Lemma ms_step_ok s op : ms_ok s → ms_ok (ms_step s op) ∧ ms_counter s ≤ ms_counter (ms_step s op).
Proof.
  intros [W [C I]]. destruct op as [key data expected|key]; simpl.
  - rewrite ms_put_cases. case_bool_decide; [|by split]. simpl. split; [|lia].
    split; [by apply bt_insert_wf|]. split; [simpl; lia|]. simpl. intros k d v.
    rewrite bt_get_insert by done. destruct (oeqb k key).
    + intros [= <- <-]. exists (ms_counter s + 1). split; [lia|done].
    + intros (c & ? & ?)%I. exists c. split; [lia|done].
  - split; [|done]. split; [by apply bt_remove_wf|]. split; [done|]. simpl. intros k d v.
    rewrite bt_get_remove by done. destruct (oeqb k key); [done|apply I].
Qed.

Lemma ms_new_ok : ms_ok ms_new.
Proof. split; [done|]. by split. Qed.

#[global, refine] Instance mem_cas_ok : CasOk MemStore := {
  cas_inv := ms_ok;
  cas_view s key := bt_get key (ms_objects s)
}.
Proof.
  - done.
  - intros s key data expected O. pose proof (ms_step_ok s (MPut key data expected) O) as [O' _].
    cbn [put_if_match mem_cas]. simpl in O'. rewrite ms_put_cases in *. destruct O as [W _].
    case_bool_decide; [|done]. simpl in *. split; [done|]. eexists. split; [done|].
    split; [by rewrite bt_get_insert, oeqb_refl|]. intros key' N. by rewrite bt_get_insert, oeqb_ne.
  - intros s key O. pose proof (ms_step_ok s (MDelete key) O) as [O' _]. destruct O as [W _].
    cbn. split_and!; [done|done|by rewrite bt_get_remove, oeqb_refl|].
    intros key' N. by rewrite bt_get_remove, oeqb_ne.
  - intros s prefix [W _]. eexists. split; [done|]. split.
    + apply take_keys_sorted. by apply bt_filter_wf.
    + intros key. rewrite take_keys_elem; [|by apply bt_filter_wf|by intros e [? _]%list_elem_of_filter].
      split; intros [[v Hv] Hs]; split; [|done| |done]; exists v.
      * apply list_elem_of_filter in Hv as [_ Hv]. by apply bt_get_elem.
      * apply list_elem_of_filter. split; [|by apply bt_get_elem].
        apply starts_with_spec in Hs as [r ->]. apply oleb_spec, list_cmp_prefix.
Defined.

Lemma put_if_absent_inv {S} `{CasOk S} (s : S) key data :
  cas_inv s → cas_inv (put_if_absent s key data).1.
Proof.
  intros I. pose proof (put_if_match_ok s key data None I) as P. unfold put_if_absent.
  destruct (put_if_match s key data None). by destruct P.
Qed.

#[global, refine] Instance mem_cas_snap : CasSnap MemStore := {
  cas_snap s key d v := ∃ c, 0 ≤ c ≤ ms_counter s ∧ v = fmt_dec 1 c ∧
    ∀ d', bt_get key (ms_objects s) = Some (d', v) → d' = d
}.
Proof.
  - intros s key d v [_ [_ I]] G. destruct (I key d v G) as (c & C & E).
    cbn [cas_view mem_cas_ok] in G. exists c. split_and!; [lia..|done|congruence].
  - intros s key d d' v _ (c & _ & _ & U). apply U.
  - intros s key d v key' data expected [W _] (c & C & E & U). cbn [put_if_match mem_cas].
    rewrite ms_put_cases. case_bool_decide; [|by exists c]. cbn [fst ms_counter ms_objects].
    exists c. split_and!; [lia..|done|]. intros d'. rewrite bt_get_insert by done.
    destruct (oeqb key key'); [|apply U]. intros Q. simplify_eq. match goal with Q : fmt_dec _ _ = _ |- _ => apply fmt_dec_inj in Q end; lia.
  - intros s key d v key' [W _] (c & C & E & U). exists c. cbn. split_and!; [lia..|done|].
    intros d'. rewrite bt_get_remove by done. by destruct (oeqb key key'); [|apply U].
Defined.

(** A key's version is older than [c] or it has gone. *)
Definition moved_past (s : MemStore) (key : bytes) (c : Z) : Prop :=
  c ≤ ms_counter s ∧
  ∀ d v, bt_get key (ms_objects s) = Some (d, v) → ∃ c', c < c' ∧ v = fmt_dec 1 c'.

Lemma moved_past_step s key c op : ms_ok s → moved_past s key c → moved_past (ms_step s op) key c.
Proof.
  intros O [L M]. destruct (ms_step_ok s op O) as [_ C]. destruct O as [W _]. split; [lia|].
  destruct op as [k data expected|k]; simpl.
  - rewrite ms_put_cases. case_bool_decide; [|done]. simpl. intros d v.
    rewrite bt_get_insert by done. destruct (oeqb key k).
    + intros [= <- <-]. exists (ms_counter s + 1). split; [lia|done].
    + apply M.
  - intros d v. rewrite bt_get_remove by done. destruct (oeqb key k); [done|apply M].
Qed.
Lemma moved_past_run s key c ops : ms_ok s → moved_past s key c → moved_past (ms_run s ops) key c.
Proof.
  revert s. induction ops as [|op ops IH]; intros s O M; [done|]. unfold ms_run. rewrite foldl_cons.
  apply IH; [by apply ms_step_ok|by apply moved_past_step].
Qed.

Lemma wrote_moves s key op : ms_ok s → wrote s key op = true → moved_past (ms_step s op) key (ms_counter s).
Proof.
  intros O Wr. destruct (ms_step_ok s op O) as [_ C]. destruct O as [W _]. split; [done|].
  destruct op as [k data expected|k]; simpl in *.
  - apply andb_true_iff in Wr as [->%bool_decide_eq_true Wr]. rewrite ms_put_cases, Wr. simpl.
    intros d v. rewrite bt_get_insert, oeqb_refl by done. intros [= <- <-].
    exists (ms_counter s + 1). split; [lia|done].
  - apply bool_decide_eq_true in Wr as ->. intros d v. by rewrite bt_get_remove, oeqb_refl by done.
Qed.
Lemma not_wrote_same s key op :
  ms_ok s → wrote s key op = false →
  bt_get key (ms_objects (ms_step s op)) = bt_get key (ms_objects s).
Proof.
  intros [W _] Wr. destruct op as [k data expected|k]; simpl in *.
  - rewrite ms_put_cases.
    destruct (bool_decide (expected = snd <$> bt_get k (ms_objects s))); [|done]. rewrite andb_true_r in Wr.
    apply bool_decide_eq_false in Wr. simpl. by rewrite bt_get_insert, oeqb_ne by done.
  - apply bool_decide_eq_false in Wr. by rewrite bt_get_remove, oeqb_ne by done.
Qed.

Lemma version_tracks s key d v ops :
  ms_ok s → bt_get key (ms_objects s) = Some (d, v) →
  if untouched s key ops then bt_get key (ms_objects (ms_run s ops)) = Some (d, v)
  else snd <$> bt_get key (ms_objects (ms_run s ops)) ≠ Some v.
Proof.
  revert s. induction ops as [|op ops IH]; intros s O G; [done|]. cbn [untouched].
  unfold ms_run. rewrite foldl_cons. destruct (wrote s key op) eqn:Wr; simpl.
  - pose proof (wrote_moves s key op O Wr) as M.
    apply (moved_past_run _ _ _ ops) in M as [_ M]; [|by apply ms_step_ok].
    destruct O as [_ [_ I]]. apply I in G as (c & Hc & ->).
    destruct (bt_get key _) as [[d' v']|] eqn:G'; [|done]. destruct (M d' v' eq_refl) as (c' & ? & ->).
    simpl. intros [= E]. apply fmt_dec_inj in E; lia.
  - apply IH; [by apply ms_step_ok|]. by rewrite not_wrote_same.
Qed.

(** A stale swap never lands.  Read an object of the in-memory store,
    let any sequence of writers and deleters run, then swap on the version
    that was read: the swap succeeds exactly when none of them changed that
    key in between.  Versions are never reused, not even across a delete
    and a recreate with the same bytes. *)
Theorem stale_swap_conflicts (s : MemStore) (key d data : bytes) (v : Version) (ops : list ms_op) :
  ms_ok s → cas_get s key = Ok (Some (d, v)) →
  let s' := ms_run s ops in
  (put_if_match s' key data (Some v)).2 =
  if untouched s key ops then Ok (fmt_dec 1 (ms_counter s' + 1)) else Err (Conflict key).
Proof.
  intros O G s'. cbn [put_if_match mem_cas]. rewrite ms_put_cases.
  cbn [cas_get mem_cas] in G. apply (inj Ok) in G.
  pose proof (version_tracks s key d v ops O G) as T. fold s' in T.
  destruct (untouched s key ops).
  - by rewrite T, bool_decide_true.
  - by rewrite bool_decide_false.
Qed.

(** An unconditional put always lands.  Whatever other writers do
    between its read and its swap, for however many rounds, the retry loop
    of [CasStore::put] ends with the caller's bytes under the key, on any
    backend that keeps the contract. *)
Theorem put_always_lands {S} `{CasOk S} (env : list (S → S)) (s : S) (key data : bytes) :
  cas_inv s → (∀ f x, f ∈ env → cas_inv x → cas_inv (f x)) →
  ∃ s' v, cas_put env s key data = (s', Ok v) ∧ cas_inv s' ∧ cas_view s' key = Some (data, v).
Proof.
  intros I. revert s I. induction env as [|f env IH]; intros s I F; cbn [cas_put]; rewrite cas_get_ok by done.
  - pose proof (put_if_match_ok s key data (snd <$> cas_view s key) I) as P.
    destruct (put_if_match _ _ _ _) as [s' r]. rewrite bool_decide_true in P by done.
    destruct P as (I' & v & -> & V & _). eauto.
  - assert (If : cas_inv (f s)) by (apply F; [by left|done]).
    pose proof (put_if_match_ok (f s) key data (snd <$> cas_view s key) If) as P.
    destruct (put_if_match _ _ _ _) as [s' r]. destruct P as [I' P]. case_bool_decide.
    + destruct P as (v & -> & V & _). eauto.
    + destruct P as [-> ->]. apply IH; [done|]. intros g x Hg. apply F. by right.
Qed.

Module CasWitness.
Definition s1 : MemStore := (put_if_absent ms_new (str "a") (str "one")).1.
Lemma s1_ok : ms_ok s1.
Proof. exact (put_if_absent_inv ms_new _ _ ms_new_ok). Qed.
Lemma stale_swap_conflicts_witness :
  (put_if_match (ms_run s1 [MDelete (str "a"); MPut (str "a") (str "one") None]) (str "a")
     (str "two") (Some (str "1"))).2 = Err (Conflict (str "a")) ∧
  (put_if_match (ms_run s1 [MPut (str "b") (str "x") None]) (str "a")
     (str "two") (Some (str "1"))).2 = Ok (str "3").
Proof.
  split.
  - rewrite (stale_swap_conflicts s1 (str "a") (str "one")); [by vm_compute|apply s1_ok|by vm_compute].
  - rewrite (stale_swap_conflicts s1 (str "a") (str "one")); [by vm_compute|apply s1_ok|by vm_compute].
Defined.
Lemma put_always_lands_witness :
  ∃ s' v, cas_put [λ s, (ms_delete s (str "a")).1; λ s, (put_if_absent s (str "a") (str "x")).1]
            s1 (str "a") (str "mine") = (s', Ok v) ∧ cas_view s' (str "a") = Some (str "mine", v).
Proof.
  destruct (put_always_lands [λ s, (ms_delete s (str "a")).1;
    λ s, (put_if_absent s (str "a") (str "x")).1] s1 (str "a") (str "mine")) as (s' & v & E & _ & V).
  - apply s1_ok.
  - intros f x Hf W. apply elem_of_cons in Hf as [->|Hf%list_elem_of_singleton].
    + by apply (ms_step_ok x (MDelete (str "a"))).
    + subst f. by apply put_if_absent_inv.
  - eauto.
Defined.
End CasWitness.
