(* ===== verification/Layout.v ===== *)
(** * Layout: typed keys and the immutability guard
    (crates/zou-store/src/layout.rs, guard.rs)

    Every object of a tenant lives under [tenants/<ref>/]; the key builders
    below are the ones of [TenantLayout].  The guard wraps a store and
    refuses overwrites of the write-once areas. *)
From S2P Require Import Prelude Order Text Lsn Externals Bloom LayerKey Layer LayerMap Cas.

(** [tenant_id]: the first sixteen bytes of the digest, big endian. *)
Definition tenant_id `{Sha} {E} (tenant_ref : bytes) : res E Z :=
  b ← slice (sha256 tenant_ref) 0 16; mret (le_val (rev b)).

Record TenantLayout := mkLayout { tl_prefix : bytes }.

Definition layout_new (tenant_ref : bytes) : TenantLayout := mkLayout (str "tenants/" ++ tenant_ref).
Definition tenant_ref (t : TenantLayout) : bytes :=
  default (tl_prefix t) (strip_prefix (str "tenants/") (tl_prefix t)).
Definition log_prefix (t : TenantLayout) : bytes := tl_prefix t ++ str "/log".
Definition manifest_key (t : TenantLayout) : bytes := tl_prefix t ++ str "/MANIFEST".
Definition manifest_history (t : TenantLayout) (epoch unix : Z) : bytes :=
  tl_prefix t ++ str "/manifests/" ++ fmt_dec 16 epoch ++ str "-" ++ fmt_dec 16 unix ++ str ".json".
Definition manifests_dir (t : TenantLayout) : bytes := tl_prefix t ++ str "/manifests/".
Definition chk_file (t : TenantLayout) (id relpath : bytes) : bytes :=
  tl_prefix t ++ str "/chk/" ++ id ++ str "/fs/" ++ relpath.
Definition chk_index (t : TenantLayout) (id : bytes) : bytes :=
  tl_prefix t ++ str "/chk/" ++ id ++ str "/INDEX".
Definition chk_waltail (t : TenantLayout) (id : bytes) : bytes :=
  tl_prefix t ++ str "/chk/" ++ id ++ str "/WALTAIL".
Definition pg_fork_prefix (t : TenantLayout) (spc db rel fork : Z) : bytes :=
  tl_prefix t ++ str "/pg/" ++ fmt_dec 1 spc ++ str "/" ++ fmt_dec 1 db ++ str "/" ++
  fmt_dec 1 rel ++ str "/" ++ fmt_dec 1 fork.
Definition pg_block (t : TenantLayout) (spc db rel fork blk : Z) : bytes :=
  pg_fork_prefix t spc db rel fork ++ str "/" ++ fmt_HEX 8 blk.
Definition pg_size (t : TenantLayout) (spc db rel fork : Z) : bytes :=
  pg_fork_prefix t spc db rel fork ++ str "/SIZE".
Definition pg_dir (t : TenantLayout) : bytes := tl_prefix t ++ str "/pg/".
Definition checkpoint_page_index (t : TenantLayout) (chk_id : bytes) : bytes :=
  tl_prefix t ++ str "/chk/" ++ chk_id ++ str "/PAGES".
Definition checkpoint_pages (t : TenantLayout) (chk_id : bytes) (n : Z) : bytes :=
  tl_prefix t ++ str "/chk/" ++ chk_id ++ str "/" ++ fmt_dec 8 n ++ str ".pages".
Definition files_prefix (t : TenantLayout) : bytes := tl_prefix t ++ str "/files/".
Definition functions_manifest (t : TenantLayout) : bytes := tl_prefix t ++ str "/functions/DEPLOYED".
Definition functions_blob (t : TenantLayout) (sha : bytes) : bytes :=
  tl_prefix t ++ str "/functions/blobs/" ++ sha.
Definition functions_prefix (t : TenantLayout) : bytes := tl_prefix t ++ str "/functions/".
Definition functions_secrets (t : TenantLayout) : bytes := tl_prefix t ++ str "/functions/SECRETS".
Definition shard_prefix (t : TenantLayout) (shard : Z) : bytes :=
  tl_prefix t ++ str "/shards/" ++ fmt_hex 4 shard ++ str "/".
Definition shards_dir (t : TenantLayout) : bytes := tl_prefix t ++ str "/shards/".
Definition shard_manifest (t : TenantLayout) (shard : Z) : bytes := shard_prefix t shard ++ str "SHARD".
Definition delta_layer (t : TenantLayout) (shard : Z) (key_min key_max : LayerKey)
    (lsn_min lsn_max : Lsn) : bytes :=
  shard_prefix t shard ++ str "d-" ++ key_hex key_min ++ [hyphen] ++ key_hex key_max ++ [hyphen] ++
  fmt_hex 16 lsn_min ++ [hyphen] ++ fmt_hex 16 lsn_max ++ str ".dl".
Definition image_layer (t : TenantLayout) (shard : Z) (key_min key_max : LayerKey) (lsn : Lsn) : bytes :=
  shard_prefix t shard ++ str "i-" ++ key_hex key_min ++ [hyphen] ++ key_hex key_max ++ [hyphen] ++
  fmt_hex 16 lsn ++ str ".il".
Definition is_immutable (t : TenantLayout) (key : bytes) : bool :=
  starts_with key (tl_prefix t) &&
  negb (bool_decide (key = manifest_key t)) &&
  negb (bool_decide (key = functions_manifest t)) &&
  negb (bool_decide (key = functions_secrets t)) &&
  negb (ends_with key (str "/SHARD") && starts_with key (tl_prefix t ++ str "/shards/")).

(** ** The guard *)
Section guard.
Context {S : Type} `{CasStore S}.

(** [overwrite_forbidden] *)
Definition overwrite_forbidden (key : bytes) : bool :=
  match strip_prefix (str "tenants/") key with
  | None => false
  | Some rest =>
      match split_once Lsn.slash rest with
      | None => false
      | Some (_tenant, rel) =>
          starts_with rel (str "wal/") || starts_with rel (str "chk/") ||
          starts_with rel (str "manifests/")
      end
  end.

Record GuardedStore := mkGuarded { gs_inner : S }.

(** [GuardedStore::put_if_match] and the operations passed through *)
Definition guarded_put_if_match (g : GuardedStore) (key data : bytes) (expected : option Version) :
    GuardedStore * res CasError Version :=
  if bool_decide (is_Some expected) && overwrite_forbidden key
  then (g, Err (ImmutableOverwrite key))
  else let '(s, r) := put_if_match (gs_inner g) key data expected in (mkGuarded s, r).
#[global] Instance guarded_cas : CasStore GuardedStore := {
  cas_get g key := cas_get (gs_inner g) key;
  put_if_match := guarded_put_if_match;
  cas_delete g key := let '(s, r) := cas_delete (gs_inner g) key in (mkGuarded s, r);
  cas_list g prefix := cas_list (gs_inner g) prefix
}.
(** [GuardedStore::put] *)
Definition guarded_put (env : list (S → S)) (g : GuardedStore) (key data : bytes) :
    GuardedStore * res CasError Version :=
  if overwrite_forbidden key then (g, Err (ImmutableOverwrite key))
  else let '(s, r) := cas_put env (gs_inner g) key data in (mkGuarded s, r).
End guard.
Arguments GuardedStore S : clear implicits.

(** ** Keys of different tenants never meet *)
(** Tenants are isolated by their prefix.  A key under the prefixes of
    two tenants, whose refs hold no slash, is a key of one tenant: the refs
    are equal.  So every builder of one tenant's layout gives keys no other
    tenant's builder can give. *)
Theorem tenant_prefixes_disjoint (a b key : bytes) :
  Lsn.slash ∉ a → Lsn.slash ∉ b →
  starts_with key (tl_prefix (layout_new a) ++ str "/") = true →
  starts_with key (tl_prefix (layout_new b) ++ str "/") = true → a = b.
Proof.
  rewrite !starts_with_spec. intros A B [r ->] [r' E]. cbn [tl_prefix layout_new] in E.
  rewrite <-!app_assoc in E. apply app_inv_head in E.
  change (str "/") with [Lsn.slash] in E.
  assert (Q : split_once Lsn.slash (a ++ [Lsn.slash] ++ r) = Some (a, r)) by by apply split_once_app.
  rewrite E in Q. change ([Lsn.slash] ++ r') with (Lsn.slash :: r') in Q.
  rewrite split_once_app in Q by done. congruence.
Qed.
Lemma tenant_prefixes_disjoint_witness : str "acme" = str "acme".
Proof.
  apply (tenant_prefixes_disjoint (str "acme") (str "acme") (manifest_key (layout_new (str "acme"))));
    [apply (bool_decide_unpack _); by vm_compute..|by vm_compute|by vm_compute].
Defined.

(** [is_immutable] looks at the bare prefix, so a layout also claims the
    manifest of a tenant whose ref extends its own. *)
Example sibling_manifest_claimed :
  is_immutable (layout_new (str "acme")) (manifest_key (layout_new (str "acme-prod"))) = true ∧
  is_immutable (layout_new (str "acme")) (manifest_key (layout_new (str "acme"))) = false.
Proof. by vm_compute. Qed.
(** The page and log areas count as immutable. *)
Example pages_claimed_immutable :
  is_immutable (layout_new (str "t")) (pg_block (layout_new (str "t")) 1663 5 16384 0 7) = true.
Proof. by vm_compute. Qed.
(** The guard's list does not name the log or the layers. *)
Example guard_skips_log_and_layers :
  overwrite_forbidden (log_prefix (layout_new (str "t")) ++ str "/cellwal/0000/0000000000000001") = false ∧
  overwrite_forbidden (delta_layer (layout_new (str "t")) 0 (key_page 0 0 0 0 0) (key_page 0 0 0 0 0) 1 2)
    = false.
Proof. by vm_compute. Qed.

(** The layer builders and the descriptor's name agree. *)
Lemma delta_layer_name t shard a b l h :
  delta_layer t shard a b l h = shard_prefix t shard ++ desc_name (desc_delta a b l h).
Proof. done. Qed.
Lemma image_layer_name t shard a b l :
  image_layer t shard a b l = shard_prefix t shard ++ desc_name (desc_image a b l).
Proof. done. Qed.

(** ** The guard protects what is written once *)
Section guard_proofs.
Context {S : Type} `{CasOk S}.
Implicit Types g : GuardedStore S.

Inductive guard_op :=
  | GSwap (key data : bytes) (expected : option Version)
  | GCreate (key data : bytes)
  | GPut (env : list (S → S)) (key data : bytes).
Definition guard_step g (op : guard_op) : GuardedStore S :=
  match op with
  | GSwap key data expected => (put_if_match g key data expected).1
  | GCreate key data => (put_if_absent g key data).1
  | GPut env key data => (guarded_put env g key data).1
  end.
(** What other writers do to the store inside a retry loop also keeps the
    protected object. *)
Definition env_ok (key : bytes) (op : guard_op) : Prop :=
  match op with
  | GPut env _ _ => ∀ f x, f ∈ env → cas_inv x → cas_inv (f x) ∧ cas_view (f x) key = cas_view x key
  | _ => True
  end.

Lemma swap_other s key data expected key' d :
  cas_inv s → cas_view s key' = Some d → (key = key' → expected = None) →
  cas_inv (put_if_match s key data expected).1 ∧
  cas_view (put_if_match s key data expected).1 key' = Some d.
Proof.
  intros I V N. pose proof (put_if_match_ok s key data expected I) as P.
  destruct (put_if_match s key data expected) as [s' r]. destruct P as [I' P]. split; [done|]. simpl.
  case_bool_decide as E; [|by destruct P as [_ ->]].
  destruct P as (v & _ & _ & O). destruct (decide (key' = key)) as [->|D]; [|by rewrite O].
  rewrite N in E by done. by rewrite V in E.
Qed.

Lemma put_other env s key data key' d :
  cas_inv s → cas_view s key' = Some d → key ≠ key' →
  (∀ f x, f ∈ env → cas_inv x → cas_inv (f x) ∧ cas_view (f x) key' = cas_view x key') →
  cas_inv (cas_put env s key data).1 ∧ cas_view (cas_put env s key data).1 key' = Some d.
Proof.
  revert s. induction env as [|f env IH]; intros s I V N F; cbn [cas_put]; rewrite cas_get_ok by done.
  - by apply swap_other.
  - destruct (F f s) as [If Vf]; [by left|done|].
    pose proof (swap_other (f s) key data (snd <$> cas_view s key) key' d If) as P.
    rewrite Vf in P. specialize (P V). destruct (put_if_match _ _ _ _) as [s' r].
    destruct P as [I' V']; [done|]. simpl in *.
    assert (Rec : cas_inv (cas_put env s' key data).1 ∧ cas_view (cas_put env s' key data).1 key' = Some d).
    { apply IH; try done. intros g x Hg. apply F. by right. }
    destruct r as [v|[]|]; done.
Qed.

(** Through the guard, a write-once object keeps its bytes.  Once a
    key of a checkpoint, WAL or manifest-history area exists, no sequence
    of swaps, creates and unconditional puts by guard users, on any keys
    and with any versions, changes it; only a delete could. *)
Theorem guard_keeps_write_once (g : GuardedStore S) (key : bytes) (d : bytes * Version)
    (ops : list guard_op) :
  cas_inv (gs_inner g) → cas_view (gs_inner g) key = Some d → overwrite_forbidden key = true →
  Forall (env_ok key) ops →
  cas_view (gs_inner (foldl guard_step g ops)) key = Some d.
Proof.
  intros I V Of E. revert g I V. induction E as [|op ops Eop E IH]; intros g I V; [done|].
  rewrite foldl_cons.
  assert (cas_inv (gs_inner (guard_step g op)) ∧ cas_view (gs_inner (guard_step g op)) key = Some d)
    as [I' V']; [|by apply IH].
  assert (Sw : ∀ k data expected,
    cas_inv (gs_inner (guarded_put_if_match g k data expected).1) ∧
    cas_view (gs_inner (guarded_put_if_match g k data expected).1) key = Some d).
  { intros k data expected. unfold guarded_put_if_match. destruct (_ && _) eqn:C; [done|].
    pose proof (swap_other (gs_inner g) k data expected key d I V) as P.
    destruct (put_if_match _ _ _ _) as [s' r]. simpl in *. apply P. intros ->.
    rewrite Of, andb_true_r in C. apply bool_decide_eq_false in C. by apply eq_None_not_Some. }
  destruct op as [k data expected|k data|env k data]; cbn [guard_step].
  - apply Sw.
  - unfold put_if_absent. cbn [put_if_match guarded_cas].
    specialize (Sw k data None). by destruct (guarded_put_if_match _ _ _ _).
  - unfold guarded_put. destruct (overwrite_forbidden k) eqn:C; [done|].
    pose proof (put_other env (gs_inner g) k data key d I V) as P.
    destruct (cas_put _ _ _ _) as [s' r]. simpl in *. apply P; [|done]. intros ->. congruence.
Qed.
End guard_proofs.

Module GuardWitness.
Definition key : bytes := chk_index (layout_new (str "t1")) (str "chk-1").
Definition g0 : GuardedStore MemStore := mkGuarded (put_if_absent ms_new key (str "original")).1.
Lemma guard_keeps_write_once_witness :
  cas_view (gs_inner (foldl guard_step g0
    [GSwap key (str "rewrite") (Some (str "1")); GCreate key (str "again"); GPut [] key (str "x")])) key
  = Some (str "original", str "1").
Proof.
  apply guard_keeps_write_once; [apply put_if_absent_inv, ms_new_ok|by vm_compute|by vm_compute|].
  repeat constructor; set_solver.
Defined.
End GuardWitness.
