(* ===== verification/PageRead.v ===== *)
(** * PageRead: the byte-budgeted block cache of a layer reader
    (crates/zou-store/src/pageread.rs)

    Block bodies by layer name and offset, evicted least recently used
    first when the budget is exceeded.

    A layer reader resolves layers to objects, reads footers and blocks by
    range through its caches, and puts together the base image and the
    record chain of a page.  The caches are state, so every read passes the
    reader along, also when it fails. *)
From S2P Require Import Prelude Order Text Lsn Externals Bloom LayerKey Layer LayerMap Memtable Cas Layout.

Definition BLOCK_CACHE_BYTES : Z := 64 * 1024 * 1024.

Record Cached := mkCached { c_bytes : bytes; c_used : Z }.
Record BlockCache := mkCache {
  bc_blocks : gmap (bytes * Z) Cached;
  bc_bytes : Z;
  bc_budget : Z;
  bc_clock : Z
}.

(** [BlockCache::new] *)
Definition cache_new (budget : Z) : BlockCache := mkCache ∅ 0 budget 0.

(** [BlockCache::get] *)
Definition cache_get (c : BlockCache) (name : bytes) (offset : Z) : BlockCache * option bytes :=
  let clock := bc_clock c + 1 in
  match bc_blocks c !! (name, offset) with
  | None => (mkCache (bc_blocks c) (bc_bytes c) (bc_budget c) clock, None)
  | Some e =>
      (mkCache (<[(name, offset) := mkCached (c_bytes e) clock]> (bc_blocks c))
         (bc_bytes c) (bc_budget c) clock, Some (c_bytes e))
  end.

(** [BlockCache::evict]: oldest first, down to three quarters. *)
Fixpoint evict_loop {E : Type} (keys : list (bytes * Z)) (target : Z) (c : BlockCache) : res E BlockCache :=
  match keys with
  | [] => mret c
  | key :: keys =>
      if bc_bytes c <=? target then mret c
      else
        c ← match bc_blocks c !! key with
            | None => mret c
            | Some old =>
                left ← usub (bc_bytes c) (zlen (c_bytes old));
                mret (mkCache (delete key (bc_blocks c)) left (bc_budget c) (bc_clock c))
            end;
        evict_loop keys target c
  end.
Definition by_age (c : BlockCache) : list (bytes * Z) :=
  snd <$> sort_by (λ a b, a.1 <=? b.1)
            ((λ e, (c_used e.2, e.1)) <$> map_to_list (bc_blocks c)).
Definition evict {E : Type} (c : BlockCache) : res E BlockCache :=
  evict_loop (by_age c) (bc_budget c - bc_budget c / 4) c.

(** [BlockCache::put] *)
Definition cache_put {E : Type} (c : BlockCache) (name : bytes) (offset : Z) (b : bytes) : res E BlockCache :=
  if bc_budget c <? zlen b then mret c
  else
    let clock := bc_clock c + 1 in
    let total := bc_bytes c + zlen b in
    total ← match bc_blocks c !! (name, offset) with
            | Some old => usub total (zlen (c_bytes old))
            | None => mret total
            end;
    let c := mkCache (<[(name, offset) := mkCached b clock]> (bc_blocks c)) total (bc_budget c) clock in
    if bc_budget c <? bc_bytes c then evict c else mret c.

(** [BlockCache::retain_named], answering how many blocks are held. *)
Definition sum_blocks (m : gmap (bytes * Z) Cached) : Z :=
  map_fold (λ _ e n, zlen (c_bytes e) + n) 0 m.
Definition retain_named {E : Type} (c : BlockCache) (named : gset bytes) : res E (BlockCache * Z) :=
  let kept := filter (λ e, e.1.1 ∈ named) (bc_blocks c) in
  let freed := sum_blocks (filter (λ e, e.1.1 ∉ named) (bc_blocks c)) in
  left ← usub (bc_bytes c) freed;
  mret (mkCache kept left (bc_budget c) (bc_clock c), Z.of_nat (size kept)).

(** ** Accounting *)
Lemma sum_blocks_insert m k e :
  m !! k = None → sum_blocks (<[k := e]> m) = zlen (c_bytes e) + sum_blocks m.
Proof.
  intros N. unfold sum_blocks. rewrite map_fold_insert_L; [done| |done].
  intros k1 k2 e1 e2 y _ _ _. lia.
Qed.
Lemma sum_blocks_delete m k e :
  m !! k = Some e → sum_blocks m = zlen (c_bytes e) + sum_blocks (delete k m).
Proof.
  intros L. rewrite <-(sum_blocks_insert (delete k m) k e) by apply lookup_delete_eq.
  by rewrite insert_delete_id.
Qed.
Lemma sum_blocks_insert_any m k e :
  sum_blocks (<[k := e]> m) =
  zlen (c_bytes e) + sum_blocks m - from_option (zlen ∘ c_bytes) 0 (m !! k).
Proof.
  destruct (m !! k) as [old|] eqn:L.
  - rewrite (sum_blocks_delete m k old L), <-insert_delete_eq.
    rewrite sum_blocks_insert by apply lookup_delete_eq. simpl. lia.
  - rewrite sum_blocks_insert by done. simpl. lia.
Qed.
Lemma sum_blocks_nonneg m : 0 ≤ sum_blocks m.
Proof.
  induction m as [|k e m N IH] using map_ind; [done|].
  rewrite sum_blocks_insert by done. pose proof (zlen_nonneg (c_bytes e)). lia.
Qed.
Lemma sum_blocks_split m (P Q : (bytes * Z) * Cached → Prop)
    `{!∀ x, Decision (P x), !∀ x, Decision (Q x)} :
  (∀ e, Q e ↔ ¬ P e) → sum_blocks (filter P m) + sum_blocks (filter Q m) = sum_blocks m.
Proof.
  intros PQ. induction m as [|k e m N IH] using map_ind; [by rewrite !map_filter_empty|].
  rewrite sum_blocks_insert by done.
  assert (Nf : ∀ T `{!∀ x, Decision (T x)}, filter T m !! k = None).
  { intros T ?. apply map_lookup_filter_None. by left. }
  destruct (decide (P (k, e))) as [D|D].
  - rewrite map_filter_insert_True by done. rewrite map_filter_insert_False by (rewrite PQ; tauto).
    rewrite sum_blocks_insert by apply Nf. rewrite delete_id by done. lia.
  - rewrite map_filter_insert_False by done. rewrite delete_id by done.
    rewrite map_filter_insert_True by by apply PQ. rewrite sum_blocks_insert by apply Nf. lia.
Qed.

(** The budget is kept and the count is the sum of what is held. *)
Record cache_ok (c : BlockCache) : Prop := {
  co_sum : bc_bytes c = sum_blocks (bc_blocks c);
  co_budget : bc_bytes c ≤ bc_budget c;
  co_room : 0 ≤ bc_budget c
}.

Lemma evict_loop_ok {E : Type} keys target c :
  bc_bytes c = sum_blocks (bc_blocks c) → 0 ≤ target →
  (∀ k, is_Some (bc_blocks c !! k) → k ∈ keys) →
  ∃ c', @evict_loop E keys target c = Ok c' ∧ bc_bytes c' = sum_blocks (bc_blocks c') ∧
    bc_bytes c' ≤ target ∧ bc_budget c' = bc_budget c ∧ bc_blocks c' ⊆ bc_blocks c.
Proof.
  revert c. induction keys as [|k keys IH]; intros c S T K; cbn [evict_loop].
  - exists c. assert (bc_blocks c = ∅) as Em.
    { apply map_empty. intros k. apply eq_None_not_Some. intros ?%K. set_solver. }
    rewrite S, Em. split_and!; try done.
  - destruct (bc_bytes c <=? target) eqn:C; zbool; [by exists c|].
    destruct (bc_blocks c !! k) as [old|] eqn:L.
    + pose proof (sum_blocks_delete _ _ _ L). pose proof (sum_blocks_nonneg (delete k (bc_blocks c))).
      rewrite usub_run by lia. rewrite ret_run.
      destruct (IH (mkCache (delete k (bc_blocks c)) (bc_bytes c - zlen (c_bytes old))
        (bc_budget c) (bc_clock c))) as (c' & -> & S' & T' & B' & Sub); cbn [bc_bytes bc_blocks bc_budget] in *.
      * lia.
      * done.
      * intros k' [e Hk]. apply lookup_delete_Some in Hk as [? Hk].
        assert (Hin : k' ∈ k :: keys) by eauto. apply elem_of_cons in Hin as [->|]; done.
      * exists c'. split_and!; try done. trans (delete k (bc_blocks c)); [done|apply delete_subseteq].
    + rewrite ret_run. apply IH; [done..|]. intros k' [e Hk].
      assert (Hin : k' ∈ k :: keys) by eauto. apply elem_of_cons in Hin as [->|]; congruence.
Qed.

Lemma by_age_complete c k : is_Some (bc_blocks c !! k) → k ∈ by_age c.
Proof.
  intros [e He]. unfold by_age. apply list_elem_of_fmap. exists (c_used e, k). split; [done|].
  rewrite sort_by_elem. apply list_elem_of_fmap. exists (k, e). split; [done|].
  by apply elem_of_map_to_list.
Qed.

Lemma cache_put_ok {E : Type} c name offset b :
  cache_ok c →
  ∃ c', @cache_put E c name offset b = Ok c' ∧ cache_ok c' ∧ bc_budget c' = bc_budget c ∧
    ∀ k e, bc_blocks c' !! k = Some e →
      (k = (name, offset) ∧ c_bytes e = b) ∨ c_bytes <$> bc_blocks c !! k = Some (c_bytes e).
Proof.
  intros [S B R]. unfold cache_put. destruct (bc_budget c <? zlen b) eqn:C; zbool.
  { exists c. split_and!; try done. intros k e He. right. by rewrite He. }
  set (m := <[(name, offset) := mkCached b (bc_clock c + 1)]> (bc_blocks c)).
  assert (Sm : sum_blocks m = bc_bytes c + zlen b - from_option (zlen ∘ c_bytes) 0 (bc_blocks c !! (name, offset))).
  { unfold m. rewrite sum_blocks_insert_any, <-S. cbn [c_bytes]. lia. }
  assert (Lm : ∀ k e, m !! k = Some e →
    (k = (name, offset) ∧ c_bytes e = b) ∨ c_bytes <$> bc_blocks c !! k = Some (c_bytes e)).
  { intros k e. unfold m. rewrite lookup_insert_Some. intros [[<- <-]|[_ Hk]]; [by left|]. right. by rewrite Hk. }
  assert (Run : (match bc_blocks c !! (name, offset) with
    | Some old => usub (bc_bytes c + zlen b) (zlen (c_bytes old))
    | None => mret (bc_bytes c + zlen b) end : res E Z) = Ok (sum_blocks m)).
  { pose proof (sum_blocks_nonneg m). destruct (bc_blocks c !! (name, offset)) as [old|] eqn:L; simpl in Sm.
    - unfold usub. rewrite (proj2 (Z.leb_le _ _)) by (pose proof (sum_blocks_delete _ _ _ L);
        pose proof (sum_blocks_nonneg (delete (name, offset) (bc_blocks c))); pose proof (zlen_nonneg b); lia).
      f_equal. lia.
    - unfold mret, res_ret. f_equal. lia. }
  rewrite Run, bind_run. cbn [bc_budget bc_bytes]. clearbody m.
  destruct (bc_budget c <? sum_blocks m) eqn:D; zbool; cycle 1.
  { eexists. split; [done|]. split_and!; [by split|done|done]. }
  unfold evict. cbn [bc_budget].
  assert (0 ≤ bc_budget c - bc_budget c / 4) by (pose proof (Z.mul_div_le (bc_budget c) 4); lia).
  assert (0 ≤ bc_budget c / 4) by (apply Z.div_pos; lia).
  destruct (@evict_loop_ok E (by_age (mkCache m (sum_blocks m) (bc_budget c) (bc_clock c + 1)))
    (bc_budget c - bc_budget c / 4) (mkCache m (sum_blocks m) (bc_budget c) (bc_clock c + 1)))
    as (c' & -> & S' & T' & B' & Sub); [done|done|apply by_age_complete|].
  exists c'. cbn [bc_budget bc_blocks] in *. split_and!; [done|split; [done|lia|lia]|done|].
  intros k e Hk. apply Lm. by eapply lookup_weaken.
Qed.

Lemma cache_get_ok c name offset :
  cache_ok c →
  let '(c', o) := cache_get c name offset in
  cache_ok c' ∧ o = c_bytes <$> bc_blocks c !! (name, offset) ∧ bc_budget c' = bc_budget c ∧
  ∀ k, c_bytes <$> bc_blocks c' !! k = c_bytes <$> bc_blocks c !! k.
Proof.
  intros [S B R]. unfold cache_get. destruct (bc_blocks c !! (name, offset)) as [e|] eqn:L.
  - split_and!; [split|done|done|]; cbn [bc_bytes bc_blocks bc_budget]; try done.
    + rewrite sum_blocks_insert_any, L. simpl. lia.
    + intros k. destruct (decide (k = (name, offset))) as [->|N].
      * by rewrite lookup_insert_eq, L.
      * by rewrite lookup_insert_ne.
  - split_and!; [by split|done|done|done].
Qed.

Lemma retain_named_ok {E : Type} c named :
  cache_ok c →
  ∃ c' n, @retain_named E c named = Ok (c', n) ∧ cache_ok c' ∧ bc_budget c' = bc_budget c ∧
    bc_blocks c' = filter (λ e, e.1.1 ∈ named) (bc_blocks c) ∧ n = Z.of_nat (size (bc_blocks c')).
Proof.
  intros [S B R]. unfold retain_named.
  set (kept := filter _ (bc_blocks c)). set (gone := filter _ (bc_blocks c)).
  assert (Sp : sum_blocks kept + sum_blocks gone = sum_blocks (bc_blocks c)) by by apply sum_blocks_split.
  pose proof (sum_blocks_nonneg kept). pose proof (sum_blocks_nonneg gone).
  rewrite usub_run by lia. eexists _, _. split; [done|]. split_and!; try done.
  split; cbn [bc_bytes bc_blocks bc_budget]; lia.
Qed.

(** ** Histories of cache operations *)
Inductive cache_op :=
  | CGet (name : bytes) (offset : Z)
  | CPut (name : bytes) (offset : Z) (b : bytes)
  | CRetain (named : gset bytes).
Definition cache_step {E : Type} (c : BlockCache) (op : cache_op) : res E BlockCache :=
  match op with
  | CGet name offset => mret (cache_get c name offset).1
  | CPut name offset b => cache_put c name offset b
  | CRetain named => '(c, _) ← retain_named c named; mret c
  end.
Fixpoint cache_run {E : Type} (c : BlockCache) (ops : list cache_op) : res E BlockCache :=
  match ops with
  | [] => mret c
  | op :: ops => c ← cache_step c op; cache_run c ops
  end.
(** Layers are immutable: a name and an offset name the same bytes forever. *)
Definition put_agrees (truth : bytes * Z → bytes) (op : cache_op) : Prop :=
  match op with CPut name offset b => b = truth (name, offset) | _ => True end.
Definition cache_true (truth : bytes * Z → bytes) (c : BlockCache) : Prop :=
  ∀ k e, bc_blocks c !! k = Some e → c_bytes e = truth k.

Lemma cache_step_ok {E : Type} truth c op :
  cache_ok c → cache_true truth c → put_agrees truth op →
  ∃ c', @cache_step E c op = Ok c' ∧ cache_ok c' ∧ bc_budget c' = bc_budget c ∧ cache_true truth c'.
Proof.
  intros O W A. destruct op as [name offset|name offset b|named]; cbn [cache_step].
  - pose proof (cache_get_ok c name offset O) as G. destruct (cache_get c name offset) as [c1 o].
    destruct G as (O1 & _ & B1 & Sm). exists c1. split_and!; [done..|].
    intros k e He. specialize (Sm k). rewrite He in Sm. simpl in Sm.
    destruct (bc_blocks c !! k) eqn:L; [|done]. simpl in Sm. apply W in L. congruence.
  - destruct (@cache_put_ok E c name offset b O) as (c1 & -> & O1 & B1 & Sm).
    exists c1. split_and!; [done..|]. intros k e He. simpl in A.
    destruct (Sm k e He) as [[-> ->]|Hc]; [done|].
    destruct (bc_blocks c !! k) eqn:L; [|done]. simpl in Hc. apply W in L. congruence.
  - destruct (@retain_named_ok E c named O) as (c1 & n & -> & O1 & B1 & Eb & _).
    exists c1. split_and!; [done..|]. intros k e. rewrite Eb.
    intros [He _]%map_lookup_filter_Some. by apply W.
Qed.

Lemma cache_run_ok {E : Type} truth ops c :
  cache_ok c → cache_true truth c → Forall (put_agrees truth) ops →
  ∃ c', @cache_run E c ops = Ok c' ∧ cache_ok c' ∧ bc_budget c' = bc_budget c ∧ cache_true truth c'.
Proof.
  intros O W A. revert c O W. induction A as [|op ops Aop A IH]; intros c O W; [by exists c|].
  cbn [cache_run]. destruct (@cache_step_ok E truth c op O W Aop) as (c1 & -> & O1 & B1 & W1).
  rewrite bind_run. destruct (IH c1 O1 W1) as (c2 & -> & O2 & B2 & W2).
  exists c2. split_and!; try done. congruence.
Qed.

(** The block cache keeps its budget and never lies.  After any
    sequence of reads, fills and retirements from an empty cache, where
    each fill puts the bytes the layer really has there, nothing has
    panicked (the byte count never underflows), the byte count is the sum
    of the blocks held and within the budget, and a read answers nothing or
    the true bytes. *)
Theorem block_cache_true (truth : bytes * Z → bytes) (budget : Z) (ops : list cache_op) :
  0 ≤ budget → Forall (put_agrees truth) ops →
  ∃ c, @cache_run Empty_set (cache_new budget) ops = Ok c ∧
    bc_bytes c = sum_blocks (bc_blocks c) ∧ bc_bytes c ≤ budget ∧
    ∀ name offset b, (cache_get c name offset).2 = Some b → b = truth (name, offset).
Proof.
  intros B A. destruct (@cache_run_ok Empty_set truth ops (cache_new budget)) as (c & R & O & Bc & W).
  { by split. } { intros k e. unfold cache_new. simpl. by rewrite lookup_empty. } { done. }
  exists c. simpl in Bc. split_and!; [done|apply O|rewrite <-Bc; apply O|].
  intros name offset b G. pose proof (cache_get_ok c name offset O) as Gk.
  destruct (cache_get c name offset) as [c1 o]. destruct Gk as (_ & Eo & _). simpl in G. rewrite Eo in G.
  destruct (bc_blocks c !! (name, offset)) as [e|] eqn:L; [|done]. simpl in G. apply W in L. congruence.
Qed.

Module BlockCacheWitness.
Definition truth (k : bytes * Z) : bytes := replicate (Z.to_nat k.2) Byte.x2a.
Definition ops : list cache_op :=
  [CPut (str "a") 3 (truth (str "a", 3)); CPut (str "b") 4 (truth (str "b", 4)); CGet (str "a") 3;
   CPut (str "c") 2 (truth (str "c", 2)); CPut (str "d") 9 (truth (str "d", 9)); CRetain {[str "a"; str "c"]}].
(** Eviction drops the block touched longest ago. *)
Example oldest_evicted :
  match @cache_run Empty_set (cache_new 8) (take 4 ops) with
  | Ok c => (bc_bytes c, (cache_get c (str "a") 3).2, (cache_get c (str "b") 4).2)
  | _ => (0, None, None)
  end = (5, Some (truth (str "a", 3)), None).
Proof. by vm_compute. Qed.
Lemma block_cache_true_witness :
  ∃ c, @cache_run Empty_set (cache_new 8) ops = Ok c ∧ bc_bytes c ≤ 8.
Proof.
  destruct (block_cache_true truth 8 ops) as (c & R & _ & B & _); [done|repeat constructor|]. eauto.
Defined.
End BlockCacheWitness.

Definition FOOTER_GUESS : Z := 64 * 1024.
Definition FOOTER_GUESS_CAP : Z := 1024 * 1024.

Inductive ReadError :=
  | RStore (e : CasError)
  | RMissing (name : bytes)
  | RLayer (name : bytes) (source : LayerDecodeError)
  | RMismatched (name : bytes)
  | RShortRange (name : bytes) (offset len : Z)
  | RForeignLayer (name owner : bytes).

Record Reconstruction := mkRec {
  rc_base : option bytes;
  rc_base_lsn : option Lsn;
  rc_records : list (Lsn * bytes);
  rc_layers_touched : Z
}.

Record LayerReader := mkReader {
  lr_prefix : bytes;
  lr_tenant : option bytes;
  lr_shard : option Z;
  lr_footers : gmap bytes LayerFooter;
  lr_blocks : BlockCache;
  lr_guess : Z
}.

(** ** Computations that carry the reader *)
Definition rd (A : Type) : Type := LayerReader → LayerReader * res ReadError A.
#[global] Instance rd_ret : MRet rd := λ A a r, (r, Ok a).
#[global] Instance rd_bind : MBind rd := λ A B f m r,
  match m r with
  | (r, Ok a) => f a r
  | (r, Err e) => (r, Err e)
  | (r, Panic) => (r, Panic)
  end.
Definition lift {A} (x : res ReadError A) : rd A := λ r, (r, x).
Definition get_reader : rd LayerReader := λ r, (r, Ok r).
Definition set_footers (m : gmap bytes LayerFooter) : rd () := λ r,
  (mkReader (lr_prefix r) (lr_tenant r) (lr_shard r) m (lr_blocks r) (lr_guess r), Ok ()).
Definition set_blocks (c : BlockCache) : rd () := λ r,
  (mkReader (lr_prefix r) (lr_tenant r) (lr_shard r) (lr_footers r) c (lr_guess r), Ok ()).
Definition set_guess (g : Z) : rd () := λ r,
  (mkReader (lr_prefix r) (lr_tenant r) (lr_shard r) (lr_footers r) (lr_blocks r) g, Ok ()).

(** [LayerReader::new], [LayerReader::for_shard]; the block budget comes
    from the environment. *)
Definition reader_new (prefix : bytes) (budget : Z) : LayerReader :=
  mkReader prefix None None ∅ (cache_new budget) FOOTER_GUESS.
Definition for_shard (tenant : bytes) (shard : Z) (budget : Z) : LayerReader :=
  mkReader (shard_prefix (layout_new tenant) shard) (Some tenant) (Some shard) ∅ (cache_new budget)
    FOOTER_GUESS.
(** [LayerReader::with_block_budget] *)
Definition with_block_budget (r : LayerReader) (budget : Z) : LayerReader :=
  mkReader (lr_prefix r) (lr_tenant r) (lr_shard r) (lr_footers r) (cache_new budget) (lr_guess r).

(** [LayerReader::object_key] *)
Definition object_key (r : LayerReader) (desc : LayerDesc) (name : bytes) : res ReadError bytes :=
  match ld_owner desc, ld_home desc with
  | None, None => mret (lr_prefix r ++ name)
  | _, _ =>
      let foreign := RForeignLayer name (default (str "a split ancestor") (ld_owner desc)) in
      tenant ← match ld_owner desc, lr_tenant r with
               | Some owner, _ => mret owner
               | None, Some own => mret own
               | None, None => Err foreign
               end;
      shard ← match ld_home desc, lr_shard r with
              | Some home, _ => mret home
              | None, Some own => mret own
              | None, None => Err foreign
              end;
      mret (shard_prefix (layout_new tenant) shard ++ name)
  end.

Section reader.
Context {S : Type} `{CasStore S} `{Crc, Lz4}.
Variable store : S.

(** [LayerReader::fetch] *)
Definition fetch (r : LayerReader) (desc : LayerDesc) : res ReadError bytes :=
  let name := desc_name desc in
  object ← object_key r desc name;
  found ← map_err RStore (cas_get store object);
  '(data, _) ← ok_or found (RMissing name);
  mret data.

(** [LayerReader::range] *)
Definition range (r : LayerReader) (desc : LayerDesc) (name : bytes) (offset len : Z) :
    res ReadError bytes :=
  object ← object_key r desc name;
  found ← map_err RStore (cas_get_range store object offset len);
  b ← ok_or found (RMissing name);
  _ ← guard_err (zlen b <? len) (RShortRange name offset len);
  mret b.

(** [LayerReader::block] *)
Definition block (desc : LayerDesc) (name : bytes) (offset len : Z) : rd bytes :=
  r ← get_reader;
  let '(cache, hit) := cache_get (lr_blocks r) name offset in
  _ ← set_blocks cache;
  match hit with
  | Some b => mret b
  | None =>
      r ← get_reader;
      b ← lift (range r desc name offset len);
      cache ← lift (cache_put cache name offset b);
      _ ← set_blocks cache;
      mret b
  end.

(** The cold half of [LayerReader::footer]: one suffix range, and one exact
    range more when the guess was short. *)
Definition footer_cold (desc : LayerDesc) (name : bytes) : rd LayerFooter :=
  r ← get_reader;
  let guess := Z.min (lr_guess r) (ld_size desc) in
  at_ ← lift (usub (ld_size desc) guess);
  suffix ← lift (range r desc name at_ guess);
  match read_layer_footer_suffix (ld_kind desc) suffix (ld_size desc) with
  | Ok f => mret f
  | Panic => lift Panic
  | Err e =>
      match e with
      | LTruncated _ need =>
          if guess <? need then
            at_ ← lift (usub (ld_size desc) need);
            exact ← lift (range r desc name at_ need);
            _ ← set_guess (Z.max (lr_guess r) (Z.min need FOOTER_GUESS_CAP));
            lift (map_err (RLayer name) (read_layer_footer_suffix (ld_kind desc) exact (ld_size desc)))
          else lift (Err (RLayer name e))
      | _ => lift (Err (RLayer name e))
      end
  end.

(** The object is not the layer the map listed. *)
Definition mismatched (f : LayerFooter) (desc : LayerDesc) : bool :=
  negb (bool_decide (lf_kind f = ld_kind desc)) ||
  negb (bool_decide (lf_min_key f = ld_min_key desc)) ||
  negb (bool_decide (lf_max_key f = ld_max_key desc)) ||
  negb (lf_min_lsn f =? ld_min_lsn desc) ||
  negb (lf_max_lsn f =? ld_max_lsn desc).

(** [LayerReader::footer] *)
Definition footer (desc : LayerDesc) : rd LayerFooter :=
  let name := desc_name desc in
  r ← get_reader;
  match lr_footers r !! name with
  | Some f => mret f
  | None =>
      f ← footer_cold desc name;
      _ ← lift (guard_err (mismatched f desc) (RMismatched name));
      r ← get_reader;
      _ ← set_footers (<[name := f]> (lr_footers r));
      mret f
  end.

(** [LayerReader::forget_unnamed], answering how many footers are held. *)
Definition forget_unnamed (layers : list LayerDesc) : rd Z :=
  r ← get_reader;
  if bool_decide (lr_footers r = ∅) && bool_decide (bc_blocks (lr_blocks r) = ∅) then mret 0
  else
    let named : gset bytes := list_to_set (desc_name <$> layers) in
    let kept := filter (λ e, e.1 ∈ named) (lr_footers r) in
    _ ← set_footers kept;
    '(cache, _) ← lift (retain_named (lr_blocks r) named);
    _ ← set_blocks cache;
    mret (Z.of_nat (size kept)).

(** The page under [key] in a decoded block.  The entries of a block are
    strictly sorted, so the binary search finds the only one there is. *)
Definition page_of (key : LayerKey) (entries : list ImageEntry) : option bytes :=
  ie_page <$> head (filter (λ e, ie_key e = key) entries).

(** The search for the base, block by block and image by image. *)
Fixpoint find_page (desc : LayerDesc) (name : bytes) (key : LayerKey) (metas : list LayerBlock) :
    rd (option bytes) :=
  match metas with
  | [] => mret None
  | meta :: metas =>
      b ← block desc name (lb_offset meta) (lb_len meta);
      entries ← lift (map_err (RLayer name) (decode_image_block b meta));
      match page_of key entries with
      | Some page => mret (Some page)
      | None => find_page desc name key metas
      end
  end.
Fixpoint find_base (images : list LayerDesc) (key : LayerKey) : rd (option (bytes * Lsn)) :=
  match images with
  | [] => mret None
  | desc :: images =>
      f ← footer desc;
      if negb (footer_may_contain f key) then find_base images key
      else
        found ← find_page desc (desc_name desc) key (locate f key);
        match found with
        | Some page => mret (Some (page, ld_min_lsn desc))
        | None => find_base images key
        end
  end.

(** The records of one key, merged by lsn. *)
Definition merge_entries (key : LayerKey) (floor ceil : Lsn) (entries : list DeltaEntry)
    (merged : list (Lsn * bytes)) : list (Lsn * bytes) :=
  foldl (λ m e, if bool_decide (de_key e = key) && (floor <? de_lsn e) && (de_lsn e <=? ceil)
                then bt_insert (de_lsn e) (de_record e) m else m) merged entries.
Fixpoint merge_blocks (desc : LayerDesc) (name : bytes) (key : LayerKey) (floor ceil : Lsn)
    (metas : list LayerBlock) (merged : list (Lsn * bytes)) : rd (list (Lsn * bytes)) :=
  match metas with
  | [] => mret merged
  | meta :: metas =>
      b ← block desc name (lb_offset meta) (lb_len meta);
      entries ← lift (map_err (RLayer name) (decode_delta_block b meta));
      merge_blocks desc name key floor ceil metas (merge_entries key floor ceil entries merged)
  end.
Fixpoint merge_layers (deltas : list LayerDesc) (key : LayerKey) (floor lsn : Lsn)
    (touched : Z) (merged : list (Lsn * bytes)) : rd (Z * list (Lsn * bytes)) :=
  match deltas with
  | [] => mret (touched, merged)
  | desc :: deltas =>
      f ← footer desc;
      if negb (footer_may_contain f key) then merge_layers deltas key floor lsn (touched + 1) merged
      else
        merged ← merge_blocks desc (desc_name desc) key floor (clamp desc lsn) (locate f key) merged;
        merge_layers deltas key floor lsn (touched + 1) merged
  end.

(** [LayerReader::reconstruct] *)
Definition reconstruct (m : LayerMap) (mem : Memtable) (key : LayerKey) (lsn : Lsn) :
    rd Reconstruction :=
  let p := plan m key lsn in
  base ← find_base (rp_images p) key;
  let floor := match base with Some (_, l) => l | None => 0 end in
  '(touched, merged) ←
    merge_layers (above p floor) key floor lsn (if base then 1 else 0) [];
  recent ← lift (records_for mem key floor lsn);
  let merged := foldl (λ acc r, bt_insert r.1 r.2 acc) merged recent in
  mret (mkRec (fst <$> base) ((λ _, floor) <$> base) merged touched).
End reader.
