(* ===== verification/PageReadProofs.v ===== *)
(** * PageReadProofs: a reconstruction is the page's history

    [layer_obj] is what the reader needs of a layer object; built delta and
    image layers provide it.  Against it, every read of the reader goes
    through and keeps the caches true, and [reconstruct] returns the newest
    image of the key at the read together with exactly the records above
    it. *)
From S2P Require Import Prelude Order Text Lsn Externals Bloom LayerKey Layer LayerBuild LayerRead LayerLookup LayerMap Memtable Cas Layout PageRead.

(** ** The interface between layer objects and their reader *)
Record layer_obj `{Crc, Lz4} {E} (dec : bytes → LayerBlock → res LayerDecodeError (list E))
    (ekey : E → LayerKey) (d : LayerDesc) (obj : bytes) (f : LayerFooter) (need : Z)
    (es : list E) : Prop := {
  lo_match : mismatched f d = false;
  lo_size : ld_size d = zlen obj;
  lo_need : TAIL_LEN ≤ need ≤ zlen obj;
  lo_suffix : ∀ n, TAIL_LEN ≤ n ≤ zlen obj →
    read_layer_footer_suffix (ld_kind d) (drop (Z.to_nat (zlen obj - n)) obj) (zlen obj) =
    if n <? need then Err (LTruncated n need) else Ok f;
  lo_inside : ∀ b, b ∈ lf_blocks f → 0 ≤ lb_offset b ∧ 0 ≤ lb_len b ∧ lb_offset b + lb_len b ≤ zlen obj;
  lo_offsets : ∀ b b', b ∈ lf_blocks f → b' ∈ lf_blocks f → lb_offset b = lb_offset b' → b = b';
  lo_locate : ∀ key, ∃ gs,
    Forall2 (λ b g, b ∈ lf_blocks f ∧ dec (sub obj (lb_offset b) (lb_offset b + lb_len b)) b = Ok g)
      (locate f key) gs ∧
    filter (λ e, ekey e = key) (concat gs) = filter (λ e, ekey e = key) es;
  lo_bloom : ∀ e, e ∈ es → footer_may_contain f (ekey e) = true;
  lo_covers : ∀ e, e ∈ es → covers d (ekey e) = true
}.

(** ** Groups give layer objects *)
Section groups.
Context `{CrcOk, Lz4Ok} {E : Type}.
Variable enc : E → bytes.
Variable ekey : E → LayerKey.
Variable kind : LayerKind.
Variable R : relation E.
Variable dec : bytes → LayerBlock → res LayerDecodeError (list E).
Hypothesis R_apart : ∀ x y, R x y → apart kind (ekey x) (ekey y).
Hypothesis enc_pos : ∀ e, 1 ≤ zlen (enc e).
Notation gok := (group_ok enc ekey R).
Notation lay := (layout enc ekey).

Lemma stored_nonempty g : gok g → 0 < zlen (stored_of enc g).
Proof.
  intros G. unfold stored_of. destruct (store_block_len (raw_of enc g)) as [_ [[_ ->]|[_ ->]]].
  - pose proof (group_count enc enc_pos g). destruct (meta_lens enc ekey R enc_pos 0 g G). lia.
  - pose proof (lz4_nonempty (raw_of enc g)). destruct (lz4_compress _); [done|]. rewrite zlen_cons.
    pose proof (zlen_nonneg l). lia.
Qed.

Lemma layout_offsets at_ gs b :
  Forall gok gs → b ∈ lay at_ gs → at_ ≤ lb_offset b ∧ 0 < lb_len b ∧
    lb_offset b + lb_len b ≤ at_ + zlen (body_of enc gs).
Proof.
  intros F. revert at_. induction F as [|g gs G F IH]; intros at_ Hb; [set_solver|].
  rewrite body_of_cons. pose proof (stored_nonempty g G). pose proof (zlen_nonneg (body_of enc gs)).
  destruct (meta_lens enc ekey R enc_pos at_ g G) as (L1 & _).
  cbn [layout] in Hb. apply elem_of_cons in Hb as [->|Hb].
  - rewrite L1. cbn [lb_offset meta_of]. zlen_lia.
  - apply IH in Hb. zlen_lia.
Qed.
Lemma layout_offsets_inj at_ gs b b' :
  Forall gok gs → b ∈ lay at_ gs → b' ∈ lay at_ gs → lb_offset b = lb_offset b' → b = b'.
Proof.
  intros F. revert at_. induction F as [|g gs G F IH]; intros at_ Hb Hb' Eo; [set_solver|].
  pose proof (stored_nonempty g G). cbn [layout] in Hb, Hb'.
  apply elem_of_cons in Hb as [->|Hb], Hb' as [->|Hb']; [done| | |by eapply IH].
  - apply layout_offsets in Hb'; [|done]. cbn [lb_offset meta_of] in Eo. lia.
  - apply layout_offsets in Hb; [|done]. cbn [lb_offset meta_of] in Eo. lia.
Qed.

Lemma layout_app at_ gs hs :
  lay at_ (gs ++ hs) = lay at_ gs ++ lay (at_ + zlen (body_of enc gs)) hs.
Proof.
  revert at_. induction gs as [|g gs IH]; intros at_; [by rewrite Z.add_0_r|].
  cbn [layout app]. rewrite IH, body_of_cons, zlen_app. by rewrite Z.add_assoc.
Qed.

Lemma fetch_layout (P : LayerBlock → Prop) pre gs post at_ :
  at_ = zlen pre → Forall gok gs → (∀ b, b ∈ lay at_ gs → P b) →
  (∀ a g, g ∈ gs → dec (stored_of enc g) (meta_of enc ekey a g) = Ok g) →
  Forall2 (λ b g, P b ∧ dec (sub (pre ++ body_of enc gs ++ post) (lb_offset b) (lb_offset b + lb_len b)) b = Ok g)
    (lay at_ gs) gs.
Proof.
  intros -> F. revert pre. induction F as [|g gs G F IH]; intros pre HP D; [constructor|].
  cbn [layout] in *. constructor; [split; [apply HP; by left|]|].
  - destruct (meta_lens enc ekey R enc_pos (zlen pre) g G) as (-> & _).
    cbn [lb_offset meta_of]. rewrite body_of_cons, <-app_assoc, sub_mid by done.
    apply D. by left.
  - rewrite body_of_cons, <-app_assoc, (app_assoc pre), <-zlen_app.
    rewrite <-zlen_app in HP. apply IH; [intros b Hb; apply HP; by right|].
    intros a g' Hg'. apply D. by right.
Qed.

Lemma mismatched_false f d :
  mismatched f d = false →
  lf_kind f = ld_kind d ∧ lf_min_key f = ld_min_key d ∧ lf_max_key f = ld_max_key d ∧
  lf_min_lsn f = ld_min_lsn d ∧ lf_max_lsn f = ld_max_lsn d.
Proof.
  unfold mismatched. rewrite !orb_false_iff, !negb_false_iff, !bool_decide_eq_true, !Z.eqb_eq. tauto.
Qed.

Lemma groups_layer_obj d obj f gs e z hashes :
  Forall gok gs → StronglySorted R (concat gs) →
  head (concat gs) = Some e → last (concat gs) = Some z → hashes_inv hashes (ekey <$> concat gs) →
  lf_kind f = kind → lf_min_key f = ekey e → lf_max_key f = ekey z →
  lf_blocks f = lay 8 gs → lf_bloom f = from_hashes hashes →
  footer_ok f (8 + zlen (body_of enc gs)) → fits 4 (zlen (encode_footer f)) →
  obj = header kind ++ body_of enc gs ++ footer_tail f →
  mismatched f d = false → ld_size d = zlen obj →
  (∀ a g, g ∈ gs → dec (stored_of enc g) (meta_of enc ekey a g) = Ok g) →
  layer_obj dec ekey d obj f (zlen (encode_footer f) + 12) (concat gs).
Proof.
  intros G S He Hz Hh Kf Mn Mx Bf Bl Fo Ff Eo Mm Sz D.
  destruct (mismatched_false _ _ Mm) as (Kd & Mnd & Mxd & _).
  split; try done.
  - unfold TAIL_LEN. rewrite Eo. zlen_lia.
  - intros n Hn. rewrite <-Kd, Eo in *. rewrite Kf in *. rewrite <-Kf at 1 2 3 4.
    rewrite <-Kf in Hn. by apply suffix_encoded.
  - intros b Hb. rewrite Bf in Hb. apply layout_offsets in Hb; [|done]. rewrite Eo. zlen_lia.
  - rewrite Bf. intros b b'. by apply layout_offsets_inj.
  - intros key. destruct (locate_layout enc ekey kind R R_apart gs key 8 G S) as (pre & mid & post & Eg & El & N).
    exists mid. unfold locate. rewrite Bf, El, Eo. subst gs. split.
    + apply Forall_app in G as [_ [G _]%Forall_app].
      pose proof (fetch_layout (λ b, b ∈ lay 8 (pre ++ mid ++ post))
        (header kind ++ body_of enc pre) mid (body_of enc post ++ footer_tail f)
        (8 + zlen (body_of enc pre))) as F2.
      rewrite <-app_assoc in F2. unfold body_of in *. rewrite !fmap_app, !concat_app, <-!app_assoc in *.
      apply F2; [zlen_lia|done| |].
      * intros b Hb. rewrite !layout_app. unfold body_of. set_solver.
      * intros a g Hg. apply D. set_solver.
    + rewrite !concat_app, !filter_app.
      rewrite (filter_none _ (concat pre)), (filter_none _ (concat post)), app_nil_r; [done|set_solver..].
  - intros x Hx. unfold footer_may_contain. rewrite Bl.
    apply (hashes_bloom _ (ekey <$> concat gs)); [done|]. by apply list_elem_of_fmap_2.
  - intros x Hx. unfold covers. rewrite <-Mnd, <-Mxd, Mn, Mx. apply andb_true_iff. split.
    + destruct (concat gs) as [|e' es]; [done|]. simpl in He. injection He as ->.
      apply StronglySorted_cons in S as [S _]. rewrite Forall_forall in S.
      apply elem_of_cons in Hx as [->|Hx]; [apply ole_refl|]. apply (apart_ole kind). by apply R_apart, S.
    + apply last_Some in Hz as [es' Ez]. rewrite Ez in *.
      apply elem_of_app in Hx as [Hx|Hx%list_elem_of_singleton]; [|subst; apply ole_refl].
      apply (apart_ole kind), R_apart. eapply StronglySorted_app_1_elem_of; [done|done|by left].
Qed.
End groups.

(** ** Built layers are layer objects *)
Section built_objects.
Context `{CrcOk, Lz4Ok}.

(** The layer a descriptor names: what was built, and where it is listed. *)
Definition delta_stored (d : LayerDesc) (obj : bytes) (f : LayerFooter) (es : list DeltaEntry) : Prop :=
  ∃ target, target ≤ MAX_BLOCK_RAW_LEN ∧ Forall delta_entry_ok es ∧
    build_delta es target = Ok (obj, f) ∧ layer_sized obj f (zlen es) ∧
    mismatched f d = false ∧ ld_size d = zlen obj.
Definition image_stored (d : LayerDesc) (obj : bytes) (f : LayerFooter) (es : list ImageEntry) : Prop :=
  ∃ target lsn, target ≤ MAX_BLOCK_RAW_LEN ∧ fits 8 lsn ∧ Forall image_entry_ok es ∧
    build_image es lsn target = Ok (obj, f) ∧ layer_sized obj f (zlen es) ∧
    mismatched f d = false ∧ ld_size d = zlen obj.

Lemma Forall_group {A} (P : A → Prop) gs g : Forall P (concat gs) → g ∈ gs → Forall P g.
Proof.
  intros F Hg. apply Forall_forall. intros x Hx. rewrite Forall_forall in F. apply F.
  apply elem_of_concat. eauto.
Qed.
Lemma Sorted_group {A} (R : relation A) gs g : StronglySorted R (concat gs) → g ∈ gs → StronglySorted R g.
Proof.
  induction gs as [|h gs IH]; intros S Hg; [set_solver|]. simpl in S.
  apply elem_of_cons in Hg as [->|Hg]; eauto using StronglySorted_app_1_l, StronglySorted_app_1_r.
Qed.

Lemma delta_layer_obj d obj f es :
  delta_stored d obj f es →
  layer_obj decode_delta_block de_key d obj f (zlen (encode_footer f) + 12) es ∧
  ∀ e, e ∈ es → ld_min_lsn d ≤ de_lsn e ≤ ld_max_lsn d.
Proof.
  intros (target & T & O & Eb & Z & Mm & Sz).
  destruct (build_delta_built _ _ _ _ O T Eb) as (S & F & gs & hs & e & z & B).
  destruct (delta_built_footer _ _ _ _ _ _ _ B O S Z) as [Fo Ff].
  destruct B as [Q G He Hz Hh Ef Eo]. subst es. split.
  - eapply (groups_layer_obj encode_delta_entry de_key Delta delta_lt); eauto with zou; try (by rewrite Ef).
    intros a g Hg. apply decode_delta_block_stored; eauto using Forall_group, Sorted_group.
    rewrite Forall_forall in G. by apply G.
  - destruct (mismatched_false _ _ Mm) as (_ & _ & _ & <- & <-). rewrite Ef.
    cbn [lf_min_lsn lf_max_lsn delta_footer_of]. intros x Hx.
    assert (Hl : de_lsn x ∈ de_lsn <$> concat gs) by by apply list_elem_of_fmap_2.
    assert (Fl : Forall (λ l, 0 ≤ l ≤ u64_max) (de_lsn <$> concat gs)).
    { apply Forall_fmap. eapply Forall_impl; [exact O|]. intros y [_ Fy].
      change (0 ≤ de_lsn y < 2 ^ 64) in Fy. simpl. unfold u64_max. lia. }
    assert (Nl : de_lsn <$> concat gs ≠ []) by (intros N; rewrite N in Hl; set_solver).
    split.
    + apply (foldr_min_spec u64_max); [done| |done]. eapply Forall_impl; [done|]. intros; simpl in *; lia.
    + apply (foldr_max_spec 0); [done| |done]. eapply Forall_impl; [done|]. intros; simpl in *; lia.
Qed.

Lemma image_layer_obj d obj f es :
  image_stored d obj f es →
  layer_obj decode_image_block ie_key d obj f (zlen (encode_footer f) + 12) es.
Proof.
  intros (target & lsn & T & Fl & O & Eb & Z & Mm & Sz).
  destruct (build_image_built _ _ _ _ _ O T Eb) as (S & F & gs & hs & e & z & B).
  destruct (image_built_footer _ _ _ _ _ _ _ _ B Fl S Z) as [Fo Ff].
  destruct B as [Q G He Hz Hh Ef Eo]. subst es.
  eapply (groups_layer_obj encode_image_entry ie_key Image image_lt); eauto with zou; try (by rewrite Ef).
  intros a g Hg. apply decode_image_block_stored; eauto using Forall_group, Sorted_group.
  rewrite Forall_forall in G. by apply G.
Qed.
End built_objects.

(** ** The reader against layer objects *)
Section reads.
Context `{CrcOk, Lz4Ok} {S : Type} `{CasOk S}.
Variable store : S.
Variable layers : list LayerDesc.
Variable obj : LayerDesc → bytes.
Variable ftr : LayerDesc → LayerFooter.
Variable images_of : LayerDesc → list ImageEntry.
Variable deltas_of : LayerDesc → list DeltaEntry.

(** Every listed layer is in the store, where the reader resolves it, and
    layers are told apart by their names. *)
Record world_ok (r : LayerReader) : Prop := {
  wo_inv : cas_inv store;
  wo_object : ∀ d, d ∈ layers → ∃ key v, object_key r d (desc_name d) = Ok key ∧
    cas_view store key = Some (obj d, v) ∧ zlen (obj d) ≤ u64_max;
  wo_names : ∀ d d', d ∈ layers → d' ∈ layers → desc_name d = desc_name d' → d = d';
  wo_delta : ∀ d, d ∈ layers → ld_kind d = Delta → delta_stored d (obj d) (ftr d) (deltas_of d);
  wo_image : ∀ d, d ∈ layers → ld_kind d = Image → image_stored d (obj d) (ftr d) (images_of d)
}.

(** The block of a listed layer an index row names. *)
Definition block_of (d : LayerDesc) (b : LayerBlock) : bytes :=
  sub (obj d) (lb_offset b) (lb_offset b + lb_len b).

(** The reader's caches are true. *)
Record reader_ok (r : LayerReader) : Prop := {
  ro_world : world_ok r;
  ro_cache : PageRead.cache_ok (lr_blocks r);
  ro_guess : TAIL_LEN ≤ lr_guess r;
  ro_footers : ∀ d f, d ∈ layers → lr_footers r !! desc_name d = Some f → f = ftr d;
  ro_blocks : ∀ d b e, d ∈ layers → b ∈ lf_blocks (ftr d) →
    bc_blocks (lr_blocks r) !! (desc_name d, lb_offset b) = Some e → c_bytes e = block_of d b
}.

(** A computation that goes through from a good reader and leaves one. *)
Definition yields {A} (m : rd A) (a : A) : Prop :=
  ∀ r, reader_ok r → ∃ r', m r = (r', Ok a) ∧ reader_ok r'.

Lemma yields_ret {A} (a : A) : yields (mret a) a.
Proof. intros r O. by exists r. Qed.
Lemma yields_bind {A B} (m : rd A) (f : A → rd B) a b :
  yields m a → yields (f a) b → yields (m ≫= f) b.
Proof.
  intros Ym Yf r O. destruct (Ym r O) as (r1 & E1 & O1). destruct (Yf r1 O1) as (r2 & E2 & O2).
  exists r2. split; [|done]. unfold mbind, rd_bind. by rewrite E1.
Qed.
Lemma yields_lift {A} (x : res ReadError A) a : x = Ok a → yields (lift x) a.
Proof. intros -> r O. by exists r. Qed.

(** The common part of the two kinds. *)
Record layer_facts (d : LayerDesc) (need : Z) : Prop := {
  lf_size : ld_size d = zlen (obj d);
  lf_need : TAIL_LEN ≤ need ≤ zlen (obj d);
  lf_suffix : ∀ n, TAIL_LEN ≤ n ≤ zlen (obj d) →
    read_layer_footer_suffix (ld_kind d) (drop (Z.to_nat (zlen (obj d) - n)) (obj d)) (zlen (obj d)) =
    if n <? need then Err (LTruncated n need) else Ok (ftr d);
  lf_match : mismatched (ftr d) d = false;
  lf_inside : ∀ b, b ∈ lf_blocks (ftr d) →
    0 ≤ lb_offset b ∧ 0 ≤ lb_len b ∧ lb_offset b + lb_len b ≤ zlen (obj d);
  lf_offsets : ∀ b b', b ∈ lf_blocks (ftr d) → b' ∈ lf_blocks (ftr d) →
    lb_offset b = lb_offset b' → b = b'
}.
Lemma world_facts r d : world_ok r → d ∈ layers → ∃ need, layer_facts d need.
Proof.
  intros W Hd. exists (zlen (encode_footer (ftr d)) + 12). destruct (ld_kind d) eqn:K.
  - destruct (delta_layer_obj _ _ _ _ (wo_delta _ W d Hd K)) as [[] _]. by split.
  - destruct (image_layer_obj _ _ _ _ (wo_image _ W d Hd K)) as []. by split.
Qed.

Lemma range_ok r d off len :
  world_ok r → d ∈ layers → 0 ≤ off → 0 ≤ len → off + len ≤ zlen (obj d) →
  range store r d (desc_name d) off len = Ok (sub (obj d) off (off + len)).
Proof.
  intros W Hd O1 O2 O3. destruct (wo_object _ W d Hd) as (key & v & Ek & V & Sz).
  unfold range. rewrite Ek, bind_run. unfold cas_get_range. rewrite cas_get_ok, V by apply W.
  rewrite bind_run. cbv zeta iota beta. rewrite !Z.min_l by lia. rewrite slice_run by lia.
  cbn [map_err mret res_ret]. rewrite bind_run. cbn [ok_or]. rewrite bind_run.
  rewrite guard_run; [done|]. zbool. rewrite zlen_sub; lia.
Qed.

Lemma cache_ok_blocks r c :
  reader_ok r → PageRead.cache_ok c →
  (∀ d b e, d ∈ layers → b ∈ lf_blocks (ftr d) →
    bc_blocks c !! (desc_name d, lb_offset b) = Some e → c_bytes e = block_of d b) →
  reader_ok (mkReader (lr_prefix r) (lr_tenant r) (lr_shard r) (lr_footers r) c (lr_guess r)).
Proof. intros [[] Oc Og Of Ob] C B. by split. Qed.

Lemma block_yields d b :
  d ∈ layers → b ∈ lf_blocks (ftr d) →
  yields (block store d (desc_name d) (lb_offset b) (lb_len b)) (block_of d b).
Proof.
  intros Hd Hb r O. unfold block, mbind, rd_bind, get_reader, set_blocks, lift, mret, rd_ret.
  pose proof (cache_get_ok (lr_blocks r) (desc_name d) (lb_offset b) (ro_cache _ O)) as G.
  destruct (cache_get (lr_blocks r) (desc_name d) (lb_offset b)) as [c hit].
  destruct G as (Oc & Eh & _ & Sm).
  assert (Oc' : ∀ d b e, d ∈ layers → b ∈ lf_blocks (ftr d) →
    bc_blocks c !! (desc_name d, lb_offset b) = Some e → c_bytes e = block_of d b).
  { intros d' b' e' Hd' Hb' He'. specialize (Sm (desc_name d', lb_offset b')). rewrite He' in Sm.
    destruct (bc_blocks (lr_blocks r) !! (desc_name d', lb_offset b')) as [e0|] eqn:L; [|done]. simpl in Sm.
    apply (ro_blocks _ O d' b' e0 Hd' Hb') in L. congruence. }
  destruct hit as [x|].
  - destruct (bc_blocks (lr_blocks r) !! (desc_name d, lb_offset b)) as [e0|] eqn:L; [|done].
    simpl in Eh. injection Eh as ->.
    eexists. split; [by rewrite (ro_blocks _ O d b e0 Hd Hb L)|]. by apply cache_ok_blocks.
  - destruct (world_facts r d (ro_world _ O) Hd) as [need Fa].
    destruct (lf_inside _ _ Fa b Hb) as (? & ? & ?).
    rewrite range_ok; [|by apply cache_ok_blocks|done..].
    destruct (@cache_put_ok ReadError c (desc_name d) (lb_offset b) (block_of d b) Oc)
      as (c' & Ec & O' & _ & Sm'). fold (block_of d b). rewrite Ec.
    eexists. split; [done|]. cbn [lr_prefix lr_tenant lr_shard lr_footers lr_guess].
    apply cache_ok_blocks; [done..|]. intros d' b' e' Hd' Hb' He'.
    destruct (Sm' _ _ He') as [[[= En Eo] ->]|Hc].
    + apply (wo_names _ (ro_world _ O)) in En; [|done|done]. subst d'.
      by rewrite (lf_offsets _ _ Fa b b').
    + destruct (bc_blocks c !! (desc_name d', lb_offset b')) as [e0|] eqn:L; [|done]. simpl in Hc.
      apply (Oc' d' b' e0 Hd' Hb') in L. congruence.
Qed.

Lemma suffix_range r d n :
  world_ok r → d ∈ layers → 0 ≤ n ≤ zlen (obj d) →
  range store r d (desc_name d) (zlen (obj d) - n) n = Ok (drop (Z.to_nat (zlen (obj d) - n)) (obj d)).
Proof.
  intros W Hd N. rewrite range_ok by (done || lia). f_equal. unfold sub.
  apply take_ge. rewrite length_drop. unfold zlen. lia.
Qed.

Lemma footer_cold_yields d : d ∈ layers → yields (footer_cold store d (desc_name d)) (ftr d).
Proof.
  intros Hd r O. destruct (world_facts r d (ro_world _ O) Hd) as [need Fa].
  destruct Fa as [Sz Nd Sf Mm _ _]. pose proof (ro_guess _ O) as G. unfold TAIL_LEN in *.
  unfold footer_cold, mbind, rd_bind, get_reader, lift, set_guess, mret, rd_ret. cbv zeta.
  rewrite Sz. set (guess := Z.min (lr_guess r) (zlen (obj d))).
  assert (Hg : 4 + 4 + 4 ≤ guess ≤ zlen (obj d)) by (unfold guess; lia).
  unfold usub at 1. rewrite (proj2 (Z.leb_le guess (zlen (obj d)))) by lia.
  rewrite suffix_range by (apply O || done || lia). rewrite Sf by done.
  destruct (guess <? need) eqn:C; [|by exists r]. rewrite C.
  unfold usub. rewrite (proj2 (Z.leb_le need (zlen (obj d)))) by lia.
  rewrite suffix_range by (apply O || done || lia).
  rewrite Sf by lia. rewrite Z.ltb_irrefl. eexists. split; [done|].
  destruct O as [[] Oc Og Of Ob]. split; try done. simpl. unfold TAIL_LEN. lia.
Qed.

Lemma footer_yields d : d ∈ layers → yields (footer store d) (ftr d).
Proof.
  intros Hd r O. unfold footer. unfold mbind at 1, rd_bind at 1, get_reader at 1.
  destruct (lr_footers r !! desc_name d) as [f|] eqn:L.
  { exists r. split; [|done]. by rewrite (ro_footers _ O d f Hd L). }
  destruct (footer_cold_yields d Hd r O) as (r1 & E1 & O1).
  destruct (world_facts r d (ro_world _ O) Hd) as [need Fa].
  unfold mbind, rd_bind. rewrite E1. rewrite (lf_match _ _ Fa).
  eexists. split; [done|]. destruct O1 as [W1 Oc Og Of Ob]. split; try done; [by destruct W1; split|].
  cbn [lr_footers]. intros d' f' Hd'. rewrite lookup_insert_Some. intros [[En <-]|[_ Hf]]; [|by apply Of].
  apply (wo_names _ W1) in En; [|done|done]. by subst.
Qed.

(** ** The base *)
Lemma page_of_app key es es' :
  page_of key (es ++ es') = match page_of key es with Some p => Some p | None => page_of key es' end.
Proof.
  unfold page_of. rewrite filter_app. by destruct (filter _ es).
Qed.
Lemma page_of_filter key es : page_of key (filter (λ e, ie_key e = key) es) = page_of key es.
Proof.
  unfold page_of. rewrite list_filter_filter. do 2 f_equal. apply filter_iff. tauto.
Qed.
Lemma page_of_some key es p : page_of key es = Some p → mkImage key p ∈ es.
Proof.
  unfold page_of. destruct (filter _ es) as [|[k q] l] eqn:E; [done|]. simpl. intros [= <-].
  assert (Hx : mkImage k q ∈ filter (λ e, ie_key e = key) es) by (rewrite E; by left).
  apply list_elem_of_filter in Hx as [Ek Hx]. simpl in Ek. by subst.
Qed.
Lemma page_of_none key es e : page_of key es = None → e ∈ es → ie_key e ≠ key.
Proof.
  unfold page_of. intros N He Ek. destruct (filter _ es) eqn:E; [|done].
  assert (Hx : e ∈ filter (λ e, ie_key e = key) es) by by apply list_elem_of_filter.
  rewrite E in Hx. set_solver.
Qed.

Lemma find_page_yields d key metas gs :
  d ∈ layers →
  Forall2 (λ b g, b ∈ lf_blocks (ftr d) ∧ decode_image_block (block_of d b) b = Ok g) metas gs →
  yields (find_page store d (desc_name d) key metas) (page_of key (concat gs)).
Proof.
  intros Hd F. induction F as [|b g metas gs [Hb Dg] F IH]; [apply yields_ret|].
  cbn [find_page concat]. eapply yields_bind; [by apply block_yields|].
  eapply yields_bind; [apply yields_lift; by rewrite Dg|]. rewrite page_of_app.
  destruct (page_of key g); [apply yields_ret|done].
Qed.

(** The newest image of the list that has the key. *)
Fixpoint spec_base (images : list LayerDesc) (key : LayerKey) : option (bytes * Lsn) :=
  match images with
  | [] => None
  | d :: images =>
      match page_of key (images_of d) with
      | Some p => Some (p, ld_min_lsn d)
      | None => spec_base images key
      end
  end.

Lemma find_base_yields r0 images key :
  world_ok r0 → (∀ d, d ∈ images → d ∈ layers ∧ ld_kind d = Image) →
  yields (find_base store images key) (spec_base images key).
Proof.
  intros W. induction images as [|d images IH]; intros I; [apply yields_ret|].
  cbn [find_base spec_base]. destruct (I d) as [Hd K]; [by left|].
  specialize (IH ltac:(intros; apply I; by right)).
  pose proof (image_layer_obj _ _ _ _ (wo_image _ W d Hd K)) as L.
  eapply yields_bind; [by apply footer_yields|].
  destruct (footer_may_contain (ftr d) key) eqn:C; cbn [negb].
  - destruct (lo_locate _ _ _ _ _ _ _ L key) as (gs & F & Eg).
    eapply yields_bind; [by apply find_page_yields|].
    assert (Ep : page_of key (concat gs) = page_of key (images_of d)).
    { by rewrite <-(page_of_filter key (concat gs)), Eg, page_of_filter. }
    rewrite Ep. destruct (page_of key (images_of d)); [apply yields_ret|done].
  - destruct (page_of key (images_of d)) eqn:P; [|done]. apply page_of_some in P.
    apply (lo_bloom _ _ _ _ _ _ _ L) in P. simpl in P. congruence.
Qed.

(** ** The records *)
Lemma merge_entries_app key floor ceil es es' m :
  merge_entries key floor ceil (es ++ es') m =
  merge_entries key floor ceil es' (merge_entries key floor ceil es m).
Proof. unfold merge_entries. apply foldl_app. Qed.
Lemma merge_entries_filter key floor ceil es m :
  merge_entries key floor ceil (filter (λ e, de_key e = key) es) m = merge_entries key floor ceil es m.
Proof.
  revert m. induction es as [|e es IH]; intros m; [done|]. rewrite filter_cons.
  unfold merge_entries in *. case_decide as D; rewrite !foldl_cons; [by rewrite IH|].
  by rewrite (bool_decide_false (de_key e = key)), IH.
Qed.

Lemma merge_blocks_yields d key floor ceil metas gs m :
  d ∈ layers →
  Forall2 (λ b g, b ∈ lf_blocks (ftr d) ∧ decode_delta_block (block_of d b) b = Ok g) metas gs →
  yields (merge_blocks store d (desc_name d) key floor ceil metas m)
    (merge_entries key floor ceil (concat gs) m).
Proof.
  intros Hd F. revert m. induction F as [|b g metas gs [Hb Dg] F IH]; intros m; [apply yields_ret|].
  cbn [merge_blocks concat]. eapply yields_bind; [by apply block_yields|].
  eapply yields_bind; [apply yields_lift; by rewrite Dg|]. rewrite merge_entries_app. apply IH.
Qed.

Definition spec_merge (deltas : list LayerDesc) (key : LayerKey) (floor lsn : Lsn)
    (m : list (Lsn * bytes)) : list (Lsn * bytes) :=
  foldl (λ m d, merge_entries key floor (clamp d lsn) (deltas_of d) m) m deltas.

Lemma merge_layers_yields r0 deltas key floor lsn n m :
  world_ok r0 → (∀ d, d ∈ deltas → d ∈ layers ∧ ld_kind d = Delta) →
  yields (merge_layers store deltas key floor lsn n m)
    (n + zlen deltas, spec_merge deltas key floor lsn m).
Proof.
  intros W. revert n m. induction deltas as [|d deltas IH]; intros n m I.
  { rewrite Z.add_0_r. apply yields_ret. }
  cbn [merge_layers]. unfold spec_merge. rewrite foldl_cons. fold (spec_merge deltas key floor lsn).
  destruct (I d) as [Hd K]; [by left|].
  assert (I' : ∀ d, d ∈ deltas → d ∈ layers ∧ ld_kind d = Delta) by (intros; apply I; by right).
  destruct (delta_layer_obj _ _ _ _ (wo_delta _ W d Hd K)) as [L _].
  eapply yields_bind; [by apply footer_yields|].
  replace (n + zlen (d :: deltas)) with (n + 1 + zlen deltas) by (rewrite zlen_cons; lia).
  destruct (footer_may_contain (ftr d) key) eqn:C; cbn [negb].
  - destruct (lo_locate _ _ _ _ _ _ _ L key) as (gs & F & Eg).
    eapply yields_bind; [by apply merge_blocks_yields|].
    rewrite <-(merge_entries_filter key floor (clamp d lsn) (concat gs)), Eg, merge_entries_filter.
    by apply IH.
  - replace (merge_entries key floor (clamp d lsn) (deltas_of d) m) with m; [by apply IH|].
    rewrite <-merge_entries_filter, filter_none; [done|]. intros e He Ek.
    apply (lo_bloom _ _ _ _ _ _ _ L) in He. rewrite Ek in He. congruence.
Qed.

(** ** Merging is a union of histories *)
Section merge.
Variable key : LayerKey.
Variable h : Lsn → option bytes.
Definition agrees (m : list (Lsn * bytes)) : Prop :=
  bt_wf m ∧ ∀ l r, bt_get l m = Some r → h l = Some r.

Lemma insert_agrees m l0 r0 :
  agrees m → h l0 = Some r0 →
  agrees (bt_insert l0 r0 m) ∧
  ∀ l r, bt_get l (bt_insert l0 r0 m) = Some r ↔ bt_get l m = Some r ∨ (l = l0 ∧ r = r0).
Proof.
  intros [W A] E. split; [split; [by apply bt_insert_wf|]|]; intros l r;
    rewrite bt_get_insert by done; destruct (oeqb l l0) eqn:C.
  - apply oeqb_spec in C as ->. by intros [= <-].
  - apply A.
  - apply oeqb_spec in C as ->. split; [intros [= <-]; auto|].
    intros [Hm|[_ ->]]; [|done]. apply A in Hm. congruence.
  - split; [auto|]. intros [?|[-> _]]; [done|]. by rewrite oeqb_refl in C.
Qed.

Lemma merge_entries_get floor ceil es m :
  agrees m → (∀ l r, mkDelta key l r ∈ es → floor < l ≤ ceil → h l = Some r) →
  agrees (merge_entries key floor ceil es m) ∧
  ∀ l r, bt_get l (merge_entries key floor ceil es m) = Some r ↔
    bt_get l m = Some r ∨ (mkDelta key l r ∈ es ∧ floor < l ≤ ceil).
Proof.
  revert m. induction es as [|e es IH]; intros m A C.
  { split; [done|]. intros l r. split; [auto|]. intros [?|[? _]]; [done|set_solver]. }
  unfold merge_entries in *. rewrite foldl_cons.
  assert (C' : ∀ l r, mkDelta key l r ∈ es → floor < l ≤ ceil → h l = Some r)
    by (intros; apply C; [by right|done]).
  destruct (bool_decide (de_key e = key) && (floor <? de_lsn e) && (de_lsn e <=? ceil)) eqn:D.
  - rewrite !andb_true_iff, bool_decide_eq_true in D. destruct D as [[Ek D1] D2]. zbool.
    assert (Ee : e = mkDelta key (de_lsn e) (de_record e)) by (rewrite <-Ek; by destruct e).
    destruct (insert_agrees m (de_lsn e) (de_record e) A) as [A1 G1]; [apply C; [rewrite Ee; by left|lia]|].
    destruct (IH _ A1 C') as [A2 G2]. split; [done|]. intros l r. rewrite G2, G1, elem_of_cons.
    split; [|rewrite Ee; naive_solver]. intros [[?|[-> ->]]|?]; [auto| |tauto].
    right. split; [by left|lia].
  - destruct (IH _ A C') as [A2 G2]. split; [done|]. intros l r. rewrite G2, elem_of_cons.
    split; [tauto|]. intros [?|[[<-|?] ?]]; [auto| |auto]. exfalso. simpl in D.
    rewrite bool_decide_true in D by done. simpl in D.
    rewrite (proj2 (Z.ltb_lt floor l)), (proj2 (Z.leb_le l ceil)) in D by lia. done.
Qed.

Lemma spec_merge_get deltas floor lsn m :
  agrees m → (∀ d l r, d ∈ deltas → mkDelta key l r ∈ deltas_of d → floor < l ≤ clamp d lsn → h l = Some r) →
  agrees (spec_merge deltas key floor lsn m) ∧
  ∀ l r, bt_get l (spec_merge deltas key floor lsn m) = Some r ↔
    bt_get l m = Some r ∨ ∃ d, d ∈ deltas ∧ mkDelta key l r ∈ deltas_of d ∧ floor < l ≤ clamp d lsn.
Proof.
  revert m. induction deltas as [|d deltas IH]; intros m A C.
  { split; [done|]. intros l r. split; [auto|]. intros [?|(? & ? & _)]; [done|set_solver]. }
  unfold spec_merge in *. rewrite foldl_cons.
  destruct (merge_entries_get floor (clamp d lsn) (deltas_of d) m A) as [A1 G1].
  { intros l r. apply C. by left. }
  destruct (IH _ A1) as [A2 G2]; [intros d' l r Hd'; apply C; by right|].
  split; [done|]. intros l r. rewrite G2, G1. split.
  - intros [[?|[? ?]]|(d' & ? & ?)]; [by left|right; exists d; split; [by left|done]|].
    right. exists d'. split; [by right|done].
  - intros [?|(d' & [->|?]%elem_of_cons & ? & ?)]; [by left; left|by left; right|right; eauto].
Qed.

Lemma recent_get rs m :
  agrees m → (∀ l r, (l, r) ∈ rs → h l = Some r) →
  let m' := foldl (λ acc r, bt_insert r.1 r.2 acc) m rs in
  agrees m' ∧ ∀ l r, bt_get l m' = Some r ↔ bt_get l m = Some r ∨ (l, r) ∈ rs.
Proof.
  revert m. induction rs as [|[l0 r0] rs IH]; intros m A C; cbn [foldl fst snd].
  { split; [done|]. intros l r. split; [auto|]. intros [?|?]; [done|set_solver]. }
  destruct (insert_agrees m l0 r0 A) as [A1 G1]; [apply C; by left|].
  destruct (IH _ A1) as [A2 G2]; [intros l r Hr; apply C; by right|].
  split; [done|]. intros l r. rewrite G2, G1, elem_of_cons. naive_solver.
Qed.
End merge.

(** ** What a reconstruction promises *)
(** An image of the key the read may use. *)
Definition has_image (key : LayerKey) (lsn : Lsn) (p : bytes) (l : Lsn) : Prop :=
  ∃ d, d ∈ layers ∧ ld_kind d = Image ∧ ld_min_lsn d = l ∧ l ≤ clamp d lsn ∧
       mkImage key p ∈ images_of d.
(** A record of the key the read may use. *)
Definition has_record (key : LayerKey) (lsn : Lsn) (mem : Memtable) (l : Lsn) (rec : bytes) : Prop :=
  l ≤ lsn ∧
  ((∃ d, d ∈ layers ∧ ld_kind d = Delta ∧ l ≤ clamp d lsn ∧ mkDelta key l rec ∈ deltas_of d) ∨
   bt_get (key, l) (mem_entries mem) = Some rec).
Definition is_base (key : LayerKey) (lsn : Lsn) (base : option (bytes * Lsn)) : Prop :=
  match base with
  | Some (p, l) => has_image key lsn p l ∧ ∀ p' l', has_image key lsn p' l' → l' ≤ l
  | None => ∀ p l, ¬ has_image key lsn p l
  end.

Lemma spec_base_ok r0 m key lsn :
  world_ok r0 → map_new layers = Ok m →
  is_base key lsn (spec_base (rp_images (plan m key lsn)) key).
Proof.
  intros W Em.
  assert (Hp : ∀ d, d ∈ rp_images (plan m key lsn) ↔ d ∈ layers ∧ relevant Image key lsn d)
    by (intros; by apply plan_images).
  assert (Hr : ∀ p l, has_image key lsn p l → ∃ d, d ∈ rp_images (plan m key lsn) ∧
            ld_min_lsn d = l ∧ mkImage key p ∈ images_of d).
  { intros p l (d & Hd & K & El & Lc & Hi). exists d. split_and!; [|done|done]. apply Hp. split; [done|].
    pose proof (image_layer_obj _ _ _ _ (wo_image _ W d Hd K)) as L.
    split_and!; [done| |lia]. by apply (lo_covers _ _ _ _ _ _ _ L) in Hi. }
  assert (Hs : ∀ d p, d ∈ rp_images (plan m key lsn) → mkImage key p ∈ images_of d →
            has_image key lsn p (ld_min_lsn d)).
  { intros d p (Hd & K & _ & Lc)%Hp Hi. exists d. by split_and!. }
  pose proof (plan_images_sorted m key lsn) as Srt. clear Hp.
  revert Hr Hs Srt. generalize (rp_images (plan m key lsn)) as images.
  induction images as [|d images IH]; intros Hr Hs Srt; cbn [spec_base].
  { intros p l (d & Hd & _)%Hr. set_solver. }
  destruct Srt as [Sd Srt]. destruct (page_of key (images_of d)) as [p|] eqn:P.
  - split; [apply Hs; [by left|by apply page_of_some]|].
    intros p' l' (d' & Hd' & <- & _)%Hr. apply elem_of_cons in Hd' as [->|Hd']; [done|].
    apply Sd in Hd'. unfold newer_first in Hd'. by zbool.
  - apply IH; [|intros; apply Hs; [by right|done]|done].
    intros p l (d' & Hd' & El & Hi)%Hr. apply elem_of_cons in Hd' as [->|Hd']; [|eauto].
    by apply (page_of_none _ _ _ P) in Hi.
Qed.
Lemma base_floor key lsn base :
  is_base key lsn base → 0 ≤ lsn → match base with Some (_, l) => l | None => 0 end ≤ lsn.
Proof.
  intros B L. destruct base as [[p l]|]; [|done]. destruct B as [(d & _ & _ & _ & Lc & _) _].
  unfold clamp in Lc. destruct (ld_upto d); lia.
Qed.
Lemma reconstruct_ok r m mem key lsn h :
  reader_ok r → map_new layers = Ok m → mem_ok mem → 0 ≤ lsn →
  (∀ l rec, has_record key lsn mem l rec → h l = Some rec) →
  ∃ r' rec base, reconstruct store m mem key lsn r = (r', Ok rec) ∧ reader_ok r' ∧
    is_base key lsn base ∧
    let floor := match base with Some (_, l) => l | None => 0 end in
    rc_base rec = fst <$> base ∧ rc_base_lsn rec = snd <$> base ∧
    bt_wf (rc_records rec) ∧
    (∀ l b, (l, b) ∈ rc_records rec ↔ floor < l ∧ has_record key lsn mem l b).
Proof.
  intros O Em Om L0 Hh. pose proof (ro_world _ O) as W.
  set (base := spec_base (rp_images (plan m key lsn)) key).
  pose proof (spec_base_ok r m key lsn W Em) as B. fold base in B.
  set (floor := match base with Some (_, l) => l | None => 0 end).
  pose proof (base_floor key lsn base B L0) as Fl. fold floor in Fl.
  set (ds := above (plan m key lsn) floor).
  assert (Hds : ∀ d, d ∈ ds ↔ d ∈ layers ∧ relevant Delta key lsn d ∧ floor < clamp d (ld_max_lsn d))
    by (intros; by apply above_elem).
  assert (Hcl : ∀ d, clamp d lsn ≤ lsn) by (intros d; unfold clamp; destruct (ld_upto d); lia).
  destruct (spec_merge_get key h ds floor lsn []) as [A1 G1].
  { by split. }
  { intros d l rec (Hd & (K & _) & _)%Hds Hi Hl. apply Hh. specialize (Hcl d). split; [lia|].
    left. exists d. split_and!; (done || lia). }
  destruct (recent_get h (window (mem_entries mem) key floor lsn) _ A1) as [A2 G2].
  { intros l rec [Hl Hg]%window_elem; [|done]. apply Hh. split; [lia|by right]. }
  assert (Y : yields (reconstruct store m mem key lsn)
    (mkRec (fst <$> base) ((λ _, floor) <$> base)
       (foldl (λ acc r, bt_insert r.1 r.2 acc) (spec_merge ds key floor lsn [])
          (window (mem_entries mem) key floor lsn)) ((if base then 1 else 0) + zlen ds))).
  { unfold reconstruct. eapply yields_bind; [apply (find_base_yields r); [done|]|].
    - intros d Hd. apply (plan_images _ _ _ _ _ Em) in Hd as (Hd & K & _). done.
    - fold base floor ds. eapply yields_bind; [apply (merge_layers_yields r); [done|]|].
      + intros d (Hd & (K & _) & _)%Hds. done.
      + cbv iota. eapply yields_bind; [apply yields_lift; rewrite records_for_run, (proj2 (Z.leb_le _ _)); done|].
        apply yields_ret. }
  destruct (Y r O) as (r' & Er & O'). eexists r', _, base. split; [exact Er|].
  split; [done|]. split; [done|]. cbv zeta. split_and!; [done| | |].
  - unfold floor. cbn [rc_base_lsn]. by destruct base as [[p l]|].
  - apply A2.
  - cbn [rc_records]. fold floor. intros l b. rewrite <-bt_get_elem by apply A2. rewrite G2, G1, window_elem by done.
    cbn [bt_get]. split.
    + intros [[?|(d & (Hd & (K & _) & _)%Hds & Hi & Hl)]|[Hl Hg]]; [done| |].
      * specialize (Hcl d). split; [lia|]. split; [lia|]. left. exists d. split_and!; (done || lia).
      * split; [lia|]. split; [lia|by right].
    + intros [Hf [Hl [(d & Hd & K & Hc & Hi)|Hg]]]; [left; right|right; split; [lia|done]].
      exists d. split_and!; [|done|lia|lia]. apply Hds. split; [done|].
      destruct (delta_layer_obj _ _ _ _ (wo_delta _ W d Hd K)) as [Lo Lb].
      pose proof (lo_covers _ _ _ _ _ _ _ Lo _ Hi) as Cv. pose proof (Lb _ Hi) as Lr. simpl in Cv, Lr.
      unfold relevant, clamp in *. destruct (ld_upto d); split_and!; (done || lia).
Qed.
End reads.

Lemma fresh_reader_ok `{CrcOk, Lz4Ok} {S} `{CasOk S} (store : S) layers obj ftr images_of deltas_of r :
  world_ok store layers obj ftr images_of deltas_of r →
  lr_footers r = ∅ → PageRead.cache_ok (lr_blocks r) → bc_blocks (lr_blocks r) = ∅ → TAIL_LEN ≤ lr_guess r →
  reader_ok store layers obj ftr images_of deltas_of r.
Proof.
  intros W F C B G. split; try done.
  - intros d f _. by rewrite F, lookup_empty.
  - intros d b e _ _. by rewrite B, lookup_empty.
Qed.

(** C14: a page read is exact.  The layers a shard's map lists are in the
    store as they were built, the reader's caches are true, and the records
    of the key at each lsn agree wherever they are kept ([history]).  Then
    reading the key at any lsn goes through whatever is cached, keeps the
    caches true, and returns as base the newest image of the key at or
    below the read (none exactly when there is none) and, in ascending lsn
    order, exactly the records above that base and at or below the read
    that a delta layer (up to its branch cut) or the memtable holds. *)
Theorem reconstruct_exact `{CrcOk, Lz4Ok} {S} `{CasOk S} (store : S) (layers : list LayerDesc)
    (obj : LayerDesc → bytes) (ftr : LayerDesc → LayerFooter)
    (images_of : LayerDesc → list ImageEntry) (deltas_of : LayerDesc → list DeltaEntry)
    (r : LayerReader) (m : LayerMap) (mem : Memtable) (key : LayerKey) (lsn : Lsn)
    (history : Lsn → option bytes) :
  reader_ok store layers obj ftr images_of deltas_of r →
  map_new layers = Ok m → mem_ok mem → 0 ≤ lsn →
  (∀ l rec, has_record layers deltas_of key lsn mem l rec → history l = Some rec) →
  ∃ r' rec base, reconstruct store m mem key lsn r = (r', Ok rec) ∧
    reader_ok store layers obj ftr images_of deltas_of r' ∧
    is_base layers images_of key lsn base ∧
    let floor := match base with Some (_, l) => l | None => 0 end in
    rc_base rec = fst <$> base ∧ rc_base_lsn rec = snd <$> base ∧ bt_wf (rc_records rec) ∧
    (∀ l b, (l, b) ∈ rc_records rec ↔ floor < l ∧ has_record layers deltas_of key lsn mem l b).
Proof. intros. by eapply reconstruct_ok. Qed.

Module PageReadWitness.
Import Concrete.
Definition k (b : Z) : LayerKey := key_page 1663 5 16384 0 b.
Definition page (b : byte) : bytes := replicate 8192 b.
Definition ies : list ImageEntry := [mkImage (k 1) (page Byte.x01); mkImage (k 2) (page Byte.x02)].
Definition des : list DeltaEntry := [mkDelta (k 1) 90 (str "old"); mkDelta (k 1) 200 (str "mid")].
Definition built {A} (x : res LayerBuildError (bytes * A)) (a : A) : bytes * A :=
  match x with Ok y => y | _ => ([], a) end.
Definition no_footer : LayerFooter := mkFooter Delta (k 0) (k 0) 0 0 0 [] (sized_for 0).
Definition I : bytes * LayerFooter := built (build_image ies 100 LAYER_BLOCK_TARGET) no_footer.
Definition D : bytes * LayerFooter := built (build_delta des LAYER_BLOCK_TARGET) no_footer.
Definition dI : LayerDesc := from_footer I.2 (zlen I.1).
Definition dD : LayerDesc := from_footer D.2 (zlen D.1).
Definition layers : list LayerDesc := [dI; dD].
Definition obj (d : LayerDesc) : bytes := match ld_kind d with Image => I.1 | Delta => D.1 end.
Definition ftr (d : LayerDesc) : LayerFooter := match ld_kind d with Image => I.2 | Delta => D.2 end.
Definition r0 : LayerReader := for_shard (str "t") 0 BLOCK_CACHE_BYTES.
Definition store : MemStore :=
  (put_if_absent (put_if_absent ms_new (lr_prefix r0 ++ desc_name dI) I.1).1
     (lr_prefix r0 ++ desc_name dD) D.1).1.
Definition m : LayerMap := match map_new layers with Ok m => m | _ => mkMap [] Leaf Leaf end.
Definition mem : Memtable := mkMem [((k 1, 600), str "new")] 3 (Some (600, 600)).
Definition history (l : Lsn) : option bytes :=
  if l =? 90 then Some (str "old") else if l =? 200 then Some (str "mid")
  else if l =? 600 then Some (str "new") else None.

Lemma D_ok : delta_stored dD D.1 D.2 des.
Proof.
  exists LAYER_BLOCK_TARGET. split; [done|]. split; [apply (bool_decide_unpack _); by vm_compute|].
  split; [by vm_compute|]. split; [split_and!; by vm_compute|]. split; [by vm_compute|done].
Qed.
Lemma I_ok : image_stored dI I.1 I.2 ies.
Proof.
  exists LAYER_BLOCK_TARGET, 100. split; [done|]. split; [by vm_compute|].
  split; [apply (bool_decide_unpack _); by vm_compute|].
  split; [by vm_compute|]. split; [split_and!; by vm_compute|]. split; [by vm_compute|done].
Qed.
Lemma dI_image : ld_kind dI = Image.
Proof. by vm_compute. Qed.
Lemma dD_delta : ld_kind dD = Delta.
Proof. by vm_compute. Qed.
Lemma names_differ : desc_name dI ≠ desc_name dD.
Proof. apply (bool_decide_unpack _). by vm_compute. Qed.
Lemma in_layers d : d ∈ layers → d = dI ∨ d = dD.
Proof. intros [E|E%list_elem_of_singleton]%elem_of_cons; [left|right]; exact E. Qed.

Lemma world : world_ok store layers obj ftr (λ _, ies) (λ _, des) r0.
Proof.
  split.
  - by apply put_if_absent_inv, put_if_absent_inv.
  - intros d [-> | ->]%in_layers.
    + exists (lr_prefix r0 ++ desc_name dI), (str "1"). split; [done|]. split; by vm_compute.
    + exists (lr_prefix r0 ++ desc_name dD), (str "2"). split; [done|]. split; by vm_compute.
  - intros d d' [-> | ->]%in_layers [-> | ->]%in_layers E;
      [reflexivity|destruct (names_differ E)|destruct (names_differ (eq_sym E))|reflexivity].
  - intros d [-> | ->]%in_layers K; [by rewrite dI_image in K|].
    unfold obj, ftr. rewrite K. apply D_ok.
  - intros d [-> | ->]%in_layers K; [|by rewrite dD_delta in K].
    unfold obj, ftr. rewrite K. apply I_ok.
Qed.
Lemma r0_ok : reader_ok store layers obj ftr (λ _, ies) (λ _, des) r0.
Proof. apply fresh_reader_ok; [apply world|done|by split|done|done]. Qed.
Lemma shard_map_ok : map_new layers = Ok m.
Proof. by vm_compute. Qed.
Lemma mem_is_ok : mem_ok mem.
Proof.
  split; [split; [set_solver|done]|done|]. split_and!; [by eexists; split; [by left|]..|].
  intros e ->%list_elem_of_singleton. simpl. lia.
Qed.
Lemma records_agree l rec :
  has_record layers (λ _, des) (k 1) 700 mem l rec → history l = Some rec.
Proof.
  intros [_ [(d & _ & _ & _ & Hi)|Hg]].
  - unfold des in Hi. rewrite !elem_of_cons in Hi.
    destruct Hi as [E|[E|E]]; [injection E as -> ->; done..|set_solver].
  - apply bt_get_elem in Hg; [|apply mem_is_ok]. apply list_elem_of_singleton in Hg. by simplify_eq.
Qed.

(** The read above the image: one base, two records above it, and the
    record below the image left out. *)
Example read_700 :
  match reconstruct store m mem (k 1) 700 r0 with
  | (_, Ok rec) => (rc_base rec, rc_base_lsn rec, rc_records rec, rc_layers_touched rec)
  | _ => (None, None, [], 0)
  end = (Some (page Byte.x01), Some 100, [(200, str "mid"); (600, str "new")], 2).
Proof. by vm_compute. Qed.

Lemma reconstruct_exact_witness :
  ∃ r' rec, reconstruct store m mem (k 1) 700 r0 = (r', Ok rec) ∧ bt_wf (rc_records rec).
Proof.
  destruct (reconstruct_exact store layers obj ftr (λ _, ies) (λ _, des) r0 m mem (k 1) 700 history
    r0_ok shard_map_ok mem_is_ok ltac:(done) records_agree) as (r' & rec & base & E & _ & _ & _ & _ & W & _).
  exists r', rec. split; [exact E|exact W].
Defined.

(** A walk over two images for the base reports one layer touched. *)
Example probes_not_counted :
  let older := from_footer I.2 (zlen I.1) in
  let gap := built (build_image [mkImage (k 0) (page Byte.x01); mkImage (k 2) (page Byte.x02)] 150
                      LAYER_BLOCK_TARGET) no_footer in
  let newer := from_footer gap.2 (zlen gap.1) in
  let st := (put_if_absent store (lr_prefix r0 ++ desc_name newer) gap.1).1 in
  match map_new [older; newer] with
  | Ok m => match reconstruct st m mem_new (k 1) 700 r0 with
            | (_, Ok rec) => (read_amp (plan m (k 1) 700), rc_base_lsn rec, rc_layers_touched rec)
            | _ => (0, None, 0) end
  | _ => (0, None, 0) end = (2, Some 100, 1).
Proof. by vm_compute. Qed.

(** A listed size below the tail length underflows the footer offset. *)
Example tiny_layer_underflows :
  (footer (put_if_absent ms_new (lr_prefix r0 ++ desc_name dD) (str "tiny")).1
     (mkDesc Delta (k 1) (k 1) 90 200 4 None None None) r0).2 = Panic.
Proof. by vm_compute. Qed.
End PageReadWitness.
