(* ===== verification/Prog.v ===== *)
(** * Prog: code that talks to the store, as trees of calls

    Leases, shard manifests and resizes coordinate through nothing but
    single calls on the compare-and-swap store, and other nodes act between
    any two of them.  A function that makes such calls is modelled as a
    tree: each node is one call, its children the possible replies.  The
    same tree is then executed by one handler (for results), against a
    store others meddle with (for interference), and step by step beside
    other trees (for interleavings). *)
From S2P Require Import Prelude Order Text Cas.

Inductive prog (E A : Type) : Type :=
  | Ret (r : res E A)
  (** The fuel of a retry loop ran out. *)
  | Stuck
  (** [store.get(key)] *)
  | Get (key : bytes) (k : res CasError (option (bytes * Version)) → prog E A)
  (** [store.put_if_match(key, data, expected)] *)
  | Put (key data : bytes) (expected : option Version) (k : res CasError Version → prog E A)
  (** The clock, in unix seconds, and [sleep] in milliseconds. *)
  | Now (k : Z → prog E A)
  | Sleep (ms : Z) (k : prog E A).
Arguments Ret {E A}. Arguments Stuck {E A}. Arguments Get {E A}. Arguments Put {E A}.
Arguments Now {E A}. Arguments Sleep {E A}.

(** [match p { ... }]: run [p], then look at its result, errors included. *)
Fixpoint handle {E F A B} (p : prog E A) (f : res E A → prog F B) : prog F B :=
  match p with
  | Ret r => f r
  | Stuck => Stuck
  | Get key k => Get key (λ r, handle (k r) f)
  | Put key data expected k => Put key data expected (λ r, handle (k r) f)
  | Now k => Now (λ t, handle (k t) f)
  | Sleep ms k => Sleep ms (handle k f)
  end.

(** [p?] *)
#[global] Instance prog_ret {E} : MRet (prog E) := λ A a, Ret (Ok a).
#[global] Instance prog_bind {E} : MBind (prog E) := λ A B f p,
  handle p (λ r, match r with Ok a => f a | Err e => Ret (Err e) | Panic => Ret Panic end).

(** [store.get(key)?] with the error converted. *)
Definition get_ {E} (wrap : CasError → E) (key : bytes) : prog E (option (bytes * Version)) :=
  Get key (λ r, Ret (map_err wrap r)).
(** [match store.put_if_absent(key, data)], the trait's default method. *)
Definition put_absent {E A} (key data : bytes) (k : res CasError Version → prog E A) : prog E A :=
  Put key data None
    (λ r, k match r with Err (Conflict key) => Err (AlreadyExists key) | other => other end).

(** ** Execution *)
(** What answers the calls. *)
Class Handler (W : Type) := {
  on_get : W → bytes → W * res CasError (option (bytes * Version));
  on_put : W → bytes → bytes → option Version → W * res CasError Version;
  on_now : W → W * Z;
  on_sleep : W → Z → W
}.

Section exec.
Context {W : Type} `{Handler W} {E A : Type}.
(** [None] when the fuel ran out. *)
Fixpoint exec (w : W) (p : prog E A) : W * option (res E A) :=
  match p with
  | Ret r => (w, Some r)
  | Stuck => (w, None)
  | Get key k => let '(w, r) := on_get w key in exec w (k r)
  | Put key data expected k => let '(w, r) := on_put w key data expected in exec w (k r)
  | Now k => let '(w, t) := on_now w in exec w (k t)
  | Sleep ms k => exec (on_sleep w ms) k
  end.
End exec.

Lemma exec_handle {W E F A B} `{Handler W} (w : W) (p : prog E A) (f : res E A → prog F B) :
  exec w (handle p f) =
  match exec w p with (w, Some r) => exec w (f r) | (w, None) => (w, None) end.
Proof.
  revert w. induction p as [r| |key k IH|key data expected k IH|k IH|ms k IH]; intros w; cbn; try done.
  - destruct (on_get w key). apply IH.
  - destruct (on_put w key data expected). apply IH.
  - destruct (on_now w). apply IH.
Qed.
Lemma exec_bind {W E A B} `{Handler W} (w : W) (p : prog E A) (f : A → prog E B) :
  exec w (p ≫= f) =
  match exec w p with
  | (w, Some (Ok a)) => exec w (f a)
  | (w, Some (Err e)) => (w, Some (Err e))
  | (w, Some Panic) => (w, Some Panic)
  | (w, None) => (w, None)
  end.
Proof.
  unfold mbind, prog_bind. rewrite exec_handle. by destruct (exec w p) as [? [[]|]].
Qed.

(** ** A store others write to *)
(** The store, the clock in milliseconds, and what the rest of the world
    does to the store before each of the coming calls. *)
Record world (S : Type) := mkWorld { w_store : S; w_ms : Z; w_env : list (S → S) }.
Arguments mkWorld {S}. Arguments w_store {S}. Arguments w_ms {S}. Arguments w_env {S}.
Definition meddle {S} (w : world S) : world S :=
  match w_env w with
  | [] => w
  | f :: env => mkWorld (f (w_store w)) (w_ms w) env
  end.
#[global] Instance world_handler {S} `{CasStore S} : Handler (world S) := {
  on_get w key := let w := meddle w in (w, cas_get (w_store w) key);
  on_put w key data expected :=
    let w := meddle w in
    let '(s, r) := put_if_match (w_store w) key data expected in
    (mkWorld s (w_ms w) (w_env w), r);
  on_now w := (w, w_ms w / 1000);
  on_sleep w ms := mkWorld (w_store w) (w_ms w + ms) (w_env w)
}.
(** Nobody else acts. *)
Definition alone {S} (s : S) (ms : Z) : world S := mkWorld s ms [].

(** ** One call at a time *)
Definition call {S E A} `{CasStore S} (s : S) (now : Z) (p : prog E A) : option (S * prog E A) :=
  match p with
  | Ret _ | Stuck => None
  | Get key k => Some (s, k (cas_get s key))
  | Put key data expected k =>
      let '(s, r) := put_if_match s key data expected in Some (s, k r)
  | Now k => Some (s, k now)
  | Sleep _ k => Some (s, k)
  end.

(** ** Calls on a lawful store *)
Section lawful.
Context {S : Type} `{CasOk S} {E A : Type}.
Implicit Types s : S.

Lemma exec_get s ms env key (k : _ → prog E A) :
  cas_inv (w_store (meddle (mkWorld s ms env))) →
  exec (mkWorld s ms env) (Get key k) =
  exec (meddle (mkWorld s ms env)) (k (Ok (cas_view (w_store (meddle (mkWorld s ms env))) key))).
Proof. intros I. cbn [exec on_get world_handler]. by rewrite cas_get_ok. Qed.

Lemma alone_get s ms key (k : _ → prog E A) :
  cas_inv s → exec (alone s ms) (Get key k) = exec (alone s ms) (k (Ok (cas_view s key))).
Proof. intros I. by apply exec_get. Qed.

(** A swap on the current version lands and changes one key. *)
Lemma alone_put s ms key data expected (k : _ → prog E A) :
  cas_inv s → expected = snd <$> cas_view s key →
  ∃ s' v, s' = (put_if_match s key data expected).1 ∧ cas_inv s' ∧ cas_view s' key = Some (data, v) ∧
    (∀ key', key' ≠ key → cas_view s' key' = cas_view s key') ∧
    exec (alone s ms) (Put key data expected k) = exec (alone s' ms) (k (Ok v)).
Proof.
  intros I Ex. pose proof (put_if_match_ok s key data expected I) as P.
  cbn [exec on_put world_handler alone meddle w_env w_store].
  destruct (put_if_match s key data expected) as [s' r].
  rewrite bool_decide_true in P by done. destruct P as (I' & v & -> & V & O). exists s', v. done.
Qed.
(** Any other is refused and changes nothing. *)
Lemma alone_put_conflict s ms key data expected (k : _ → prog E A) :
  cas_inv s → expected ≠ snd <$> cas_view s key →
  exec (alone s ms) (Put key data expected k) = exec (alone s ms) (k (Err (Conflict key))).
Proof.
  intros I Ex. pose proof (put_if_match_ok s key data expected I) as P.
  cbn [exec on_put world_handler alone meddle w_env w_store].
  destruct (put_if_match s key data expected) as [s' r].
  rewrite bool_decide_false in P by done. destruct P as (I' & -> & ->). done.
Qed.
End lawful.

(** ** Clocks *)
(** The clock reads whole seconds of a time that no call turns back and
    that [sleep] moves by what it was asked for, or more. *)
Class ClockOk (W : Type) `{Handler W} := {
  clock_ms : W → Z;
  clock_get : ∀ w key, clock_ms w ≤ clock_ms (on_get w key).1;
  clock_put : ∀ w key data expected, clock_ms w ≤ clock_ms (on_put w key data expected).1;
  clock_now : ∀ w, clock_ms w ≤ clock_ms (on_now w).1 ∧ (on_now w).2 = clock_ms (on_now w).1 / 1000;
  clock_sleep : ∀ w ms, 0 ≤ ms → clock_ms w + ms ≤ clock_ms (on_sleep w ms)
}.
#[global, refine] Instance world_clock {S} `{CasStore S} : ClockOk (world S) := { clock_ms := w_ms }.
Proof.
  - intros w key. cbn. unfold meddle. destruct (w_env w); cbn; lia.
  - intros w key data expected. cbn. destruct (put_if_match _ _ _ _). unfold meddle.
    destruct (w_env w); cbn; lia.
  - intros w. cbn. lia.
  - intros w ms Hm. cbn. lia.
Defined.

(** Trees that only read and write: they always return. *)
Fixpoint calm {E A} (p : prog E A) : Prop :=
  match p with
  | Ret _ => True
  | Stuck | Sleep _ _ => False
  | Get _ k => ∀ r, calm (k r)
  | Put _ _ _ k => ∀ r, calm (k r)
  | Now k => ∀ t, calm (k t)
  end.
Lemma calm_handle {E F A B} (p : prog E A) (f : res E A → prog F B) :
  calm p → (∀ r, calm (f r)) → calm (handle p f).
Proof. induction p; cbn; eauto. Qed.
Lemma calm_bind {E A B} (p : prog E A) (f : A → prog E B) :
  calm p → (∀ a, calm (f a)) → calm (p ≫= f).
Proof. intros Cp Cf. apply calm_handle; [done|]. by intros []. Qed.
Lemma calm_exec {W E A} `{ClockOk W} (p : prog E A) w :
  calm p → ∃ w' r, exec w p = (w', Some r) ∧ clock_ms w ≤ clock_ms w'.
Proof.
  revert w. induction p as [r| |key k IH|key data expected k IH|k IH|ms k IH]; intros w C; cbn in *.
  - by exists w, r.
  - done.
  - pose proof (clock_get w key) as L. destruct (on_get w key) as [w1 r1].
    destruct (IH r1 w1 (C r1)) as (w' & r & E1 & L'). exists w', r. split; [done|]. cbn in L. lia.
  - pose proof (clock_put w key data expected) as L. destruct (on_put w key data expected) as [w1 r1].
    destruct (IH r1 w1 (C r1)) as (w' & r & E1 & L'). exists w', r. split; [done|]. cbn in L. lia.
  - pose proof (clock_now w) as [L _]. destruct (on_now w) as [w1 r1].
    destruct (IH r1 w1 (C r1)) as (w' & r & E1 & L'). exists w', r. split; [done|]. cbn in L. lia.
  - done.
Qed.
