(* ===== verification/Manifest.v ===== *)
(** * Manifest: the root of truth of one database
    (crates/zou-store/src/manifest.rs)

    The manifest document and its derived facts.  The JSON codec is
    serde_json with derived implementations: a class of operations, with
    what the code relies on as laws, and a concrete instance. *)
From S2P Require Import Prelude Order Text Lsn.

Definition MANIFEST_FORMAT : Z := 3.

Inductive ManifestError :=
  | FormatTooNew (found : Z)
  | V1WalTail
  | ManifestJson.

Record ShardChange := mkChange { sc_from : Z; sc_to : Z; sc_at : Lsn; sc_unix : Z }.
Record Lease := mkLease {
  l_holder : bytes;
  l_expires_unix : Z;
  l_fence : Z;
  l_endpoint : option bytes;
  l_ttl_secs : option Z
}.
Record PgInfo := mkPg { pg_version : Z; pg_timeline : Z }.
Inductive CheckpointKind := CkFull | CkDelta.
Record CheckpointRef := mkCheckpoint {
  cr_id : bytes; cr_lsn : Lsn; cr_kind : CheckpointKind; cr_owner : option bytes
}.
Record BranchOf := mkBranchOf { bo_ref : bytes; bo_at_lsn : Lsn }.

Record Manifest := mkManifest {
  m_format : Z;
  m_tenant_ref : bytes;
  m_epoch : Z;
  m_lease : option Lease;
  m_pg : PgInfo;
  m_checkpoints : list CheckpointRef;
  m_folded_upto : option Lsn;
  m_pages_elided_from : option Lsn;
  m_branch_of : option BranchOf;
  m_shards : Z;
  m_shard_history : list ShardChange;
  m_published_unix : option Z
}.

#[global] Instance ShardChange_eq_dec : EqDecision ShardChange.
Proof. solve_decision. Defined.
#[global] Instance Lease_eq_dec : EqDecision Lease.
Proof. solve_decision. Defined.
#[global] Instance PgInfo_eq_dec : EqDecision PgInfo.
Proof. solve_decision. Defined.
#[global] Instance CheckpointKind_eq_dec : EqDecision CheckpointKind.
Proof. solve_decision. Defined.
#[global] Instance CheckpointRef_eq_dec : EqDecision CheckpointRef.
Proof. solve_decision. Defined.
#[global] Instance BranchOf_eq_dec : EqDecision BranchOf.
Proof. solve_decision. Defined.
#[global] Instance Manifest_eq_dec : EqDecision Manifest.
Proof. solve_decision. Defined.

(** Field assignments. *)
Definition with_lease (l : option Lease) (m : Manifest) : Manifest :=
  mkManifest (m_format m) (m_tenant_ref m) (m_epoch m) l (m_pg m) (m_checkpoints m)
    (m_folded_upto m) (m_pages_elided_from m) (m_branch_of m) (m_shards m) (m_shard_history m)
    (m_published_unix m).
Definition with_epoch (e : Z) (m : Manifest) : Manifest :=
  mkManifest (m_format m) (m_tenant_ref m) e (m_lease m) (m_pg m) (m_checkpoints m)
    (m_folded_upto m) (m_pages_elided_from m) (m_branch_of m) (m_shards m) (m_shard_history m)
    (m_published_unix m).
Definition with_published (p : option Z) (m : Manifest) : Manifest :=
  mkManifest (m_format m) (m_tenant_ref m) (m_epoch m) (m_lease m) (m_pg m) (m_checkpoints m)
    (m_folded_upto m) (m_pages_elided_from m) (m_branch_of m) (m_shards m) (m_shard_history m) p.
Definition with_sharding (format shards : Z) (history : list ShardChange) (m : Manifest) : Manifest :=
  mkManifest format (m_tenant_ref m) (m_epoch m) (m_lease m) (m_pg m) (m_checkpoints m)
    (m_folded_upto m) (m_pages_elided_from m) (m_branch_of m) shards history (m_published_unix m).

(** [Manifest::new] *)
Definition manifest_new (tenant_ref : bytes) (pg_version : Z) : Manifest :=
  mkManifest 2 tenant_ref 0 None (mkPg pg_version 1) [] None None None 1 [] None.

(** [Manifest::captured_upto] *)
Definition captured_upto (m : Manifest) : option Lsn :=
  let newest := cr_lsn <$> last (m_checkpoints m) in
  match newest, m_folded_upto m with
  | Some a, Some b => Some (Z.max a b)
  | some, None | None, some => some
  end.
(** [Manifest::pages_left_behind] *)
Definition pages_left_behind (m : Manifest) : option (Lsn * Lsn) :=
  elided ← m_pages_elided_from m;
  captured ← captured_upto m;
  if elided <? captured then Some (elided, captured) else None.

(** ** JSON *)
Record Peek (Value : Type) := mkPeek {
  pk_format : Z; pk_wal_tail : option Value; pk_parent_tail : list Value
}.
Arguments mkPeek {Value}. Arguments pk_format {Value}. Arguments pk_wal_tail {Value}.
Arguments pk_parent_tail {Value}.

(** [serde_json] on the types of this file. *)
Class SerdeManifest := {
  Value : Type;
  value_is_null : Value → bool;
  peek_from_slice : bytes → option (Peek Value);
  manifest_from_slice : bytes → option Manifest;
  manifest_to_vec_pretty : Manifest → bytes
}.

Definition newline : byte := Byte.x0a.

Section json.
Context `{SerdeManifest}.
(** [Manifest::to_json] *)
Definition to_json (m : Manifest) : bytes := manifest_to_vec_pretty m ++ [newline].
(** [Manifest::from_json] *)
Definition from_json (data : bytes) : res ManifestError Manifest :=
  p ← ok_or (peek_from_slice data) ManifestJson;
  _ ← guard_err (MANIFEST_FORMAT <? pk_format p) (FormatTooNew (pk_format p));
  _ ← guard_err (match pk_wal_tail p with Some v => negb (value_is_null v) | None => false end ||
                 match pk_parent_tail p with [] => false | _ => true end) V1WalTail;
  ok_or (manifest_from_slice data) ManifestJson.
End json.

(** Every integer of the document is in the range of its field's type. *)
Definition opt_all {A} (P : A → Prop) (o : option A) : Prop :=
  match o with Some a => P a | None => True end.
#[global] Instance opt_all_dec {A} (P : A → Prop) `{∀ a, Decision (P a)} o : Decision (opt_all P o).
Proof. destruct o; apply _. Defined.
Definition lease_fits (l : Lease) : Prop :=
  fits 8 (l_expires_unix l) ∧ fits 8 (l_fence l) ∧ opt_all (fits 8) (l_ttl_secs l).
Definition change_fits (c : ShardChange) : Prop :=
  fits 4 (sc_from c) ∧ fits 4 (sc_to c) ∧ fits 8 (sc_at c) ∧ fits 8 (sc_unix c).
Definition manifest_fits (m : Manifest) : Prop :=
  fits 4 (m_format m) ∧ fits 8 (m_epoch m) ∧ opt_all lease_fits (m_lease m) ∧
  fits 4 (pg_version (m_pg m)) ∧ fits 4 (pg_timeline (m_pg m)) ∧
  Forall (λ c, fits 8 (cr_lsn c)) (m_checkpoints m) ∧ opt_all (fits 8) (m_folded_upto m) ∧
  opt_all (fits 8) (m_pages_elided_from m) ∧ opt_all (λ b, fits 8 (bo_at_lsn b)) (m_branch_of m) ∧
  fits 4 (m_shards m) ∧ Forall change_fits (m_shard_history m) ∧ opt_all (fits 8) (m_published_unix m).
#[global] Instance lease_fits_dec l : Decision (lease_fits l).
Proof. unfold lease_fits. apply _. Defined.
#[global] Instance change_fits_dec c : Decision (change_fits c).
Proof. unfold change_fits. apply _. Defined.
#[global] Instance manifest_fits_dec m : Decision (manifest_fits m).
Proof. unfold manifest_fits. apply _. Defined.

(** What is serialized parses back, through the peek as well; what
    parses has its integers in range.  (Strings are taken to be UTF-8, which
    the type [String] guarantees.) *)
Class SerdeManifestOk `{SerdeManifest} : Prop := {
  manifest_parses : ∀ m, manifest_fits m → manifest_from_slice (to_json m) = Some m;
  manifest_peeks : ∀ m, manifest_fits m → peek_from_slice (to_json m) = Some (mkPeek (m_format m) None []);
  manifest_in_range : ∀ d m, manifest_from_slice d = Some m → manifest_fits m;
  (** The peek reads the same [format] field. *)
  manifest_peek_format : ∀ d m p, manifest_from_slice d = Some m → peek_from_slice d = Some p →
    pk_format p = m_format m
}.


(** A document this binary can read and write. *)
Definition readable (m : Manifest) : Prop := manifest_fits m ∧ m_format m ≤ MANIFEST_FORMAT.
#[global] Instance readable_dec m : Decision (readable m).
Proof. unfold readable. apply _. Defined.

Lemma from_json_readable `{SerdeManifestOk} d m : from_json d = Ok m → readable m.
Proof.
  unfold from_json. intros E. apply bind_ok in E as (p & Ep & E). unfold ok_or in Ep.
  destruct (peek_from_slice d) as [p'|] eqn:P; [|done]. apply (inj Ok) in Ep as ->.
  bind_inv E. bind_inv E. unfold ok_or in E. destruct (manifest_from_slice d) as [m'|] eqn:M; [|done].
  apply (inj Ok) in E as ->. split; [by eapply manifest_in_range|].
  rewrite <-(manifest_peek_format _ _ _ M P). lia.
Qed.
Lemma from_to_json `{SerdeManifestOk} m :
  manifest_fits m →
  from_json (to_json m) =
  if MANIFEST_FORMAT <? m_format m then Err (FormatTooNew (m_format m)) else Ok m.
Proof.
  intros F. unfold from_json. rewrite manifest_peeks by done. cbn [ok_or]. rewrite bind_run.
  cbn [pk_format pk_wal_tail pk_parent_tail]. destruct (MANIFEST_FORMAT <? m_format m) eqn:C; [done|].
  cbn. by rewrite manifest_parses.
Qed.
Lemma readable_back `{SerdeManifestOk} m : readable m → from_json (to_json m) = Ok m.
Proof.
  intros [F L]. rewrite from_to_json by done. by rewrite (proj2 (Z.ltb_ge _ _)).
Qed.
(** Equal documents, equal bytes: and back. *)
Lemma to_json_inj `{SerdeManifestOk} m m' : readable m → readable m' → to_json m = to_json m' → m = m'.
Proof.
  intros R R' E. pose proof (readable_back m R) as B. rewrite E, readable_back in B by done. by apply (inj Ok) in B.
Qed.

(** ** A concrete codec *)
Module ManifestConcrete.
Definition lease_tuple (l : Lease) := (l_holder l, l_expires_unix l, l_fence l, l_endpoint l, l_ttl_secs l).
#[export] Instance lease_countable : Countable Lease.
Proof.
  refine (inj_countable' lease_tuple (λ '(a, b, c, d, e), mkLease a b c d e) _). by intros [].
Defined.
#[export] Instance change_countable : Countable ShardChange.
Proof.
  refine (inj_countable' (λ c, (sc_from c, sc_to c, sc_at c, sc_unix c))
    (λ '(a, b, c, d), mkChange a b c d) _). by intros [].
Defined.
#[export] Instance pg_countable : Countable PgInfo.
Proof.
  refine (inj_countable' (λ c, (pg_version c, pg_timeline c)) (λ '(a, b), mkPg a b) _). by intros [].
Defined.
#[export] Instance ckind_countable : Countable CheckpointKind.
Proof.
  refine (inj_countable' (λ c, match c with CkFull => true | CkDelta => false end)
    (λ b : bool, if b then CkFull else CkDelta) _). by intros [].
Defined.
#[export] Instance checkpoint_countable : Countable CheckpointRef.
Proof.
  refine (inj_countable' (λ c, (cr_id c, cr_lsn c, cr_kind c, cr_owner c))
    (λ '(a, b, c, d), mkCheckpoint a b c d) _). by intros [].
Defined.
#[export] Instance branch_countable : Countable BranchOf.
Proof.
  refine (inj_countable' (λ c, (bo_ref c, bo_at_lsn c)) (λ '(a, b), mkBranchOf a b) _). by intros [].
Defined.
(** The fields side by side, so that the code grows with their sizes. *)
#[export] Instance manifest_countable : Countable Manifest.
Proof.
  refine (inj_countable (λ m, [encode (m_format m); encode (m_tenant_ref m); encode (m_epoch m);
      encode (m_lease m); encode (m_pg m); encode (m_checkpoints m); encode (m_folded_upto m);
      encode (m_pages_elided_from m); encode (m_branch_of m); encode (m_shards m);
      encode (m_shard_history m); encode (m_published_unix m)])
    (λ l, match l with
          | [a; b; c; d; e; f; g; h; i; j; k; l] =>
              a ← decode a; b ← decode b; c ← decode c; d ← decode d; e ← decode e; f ← decode f;
              g ← decode g; h ← decode h; i ← decode i; j ← decode j; k ← decode k; l ← decode l;
              Some (mkManifest a b c d e f g h i j k l)
          | _ => None
          end) _).
  intros []. cbn. by rewrite !decode_encode.
Defined.

(** Any countable document as bytes, one bit each. *)
Fixpoint bits_of (p : positive) : bytes :=
  match p with xH => [] | xO p => Byte.x30 :: bits_of p | xI p => Byte.x31 :: bits_of p end.
Fixpoint of_bits (l : bytes) : positive :=
  match l with
  | [] => xH
  | b :: l => if decide (b = newline) then xH
              else if decide (b = Byte.x30) then xO (of_bits l) else xI (of_bits l)
  end.
Lemma of_bits_of p : of_bits (bits_of p ++ [newline]) = p.
Proof. induction p as [p IH|p IH|]; cbn; by rewrite ?IH. Qed.
Lemma of_bits_bare p : of_bits (bits_of p) = p.
Proof. induction p as [p IH|p IH|]; cbn; by rewrite ?IH. Qed.

Definition parse (d : bytes) : option Manifest :=
  m ← decode (of_bits d); if decide (manifest_fits m) then Some m else None.
#[export] Instance serde : SerdeManifest := {
  Value := bool;
  value_is_null := negb;
  manifest_from_slice := parse;
  peek_from_slice d := (λ m, mkPeek (m_format m) None []) <$> parse d;
  manifest_to_vec_pretty m := bits_of (encode m)
}.
Lemma parse_json m : manifest_fits m → parse (to_json m) = Some m.
Proof.
  intros F. unfold parse, to_json. cbn [manifest_to_vec_pretty serde]. rewrite of_bits_of, decode_encode.
  cbn. by rewrite decide_True.
Qed.
#[export] Instance serde_ok : SerdeManifestOk.
Proof.
  split; cbn [manifest_from_slice peek_from_slice serde].
  - apply parse_json.
  - intros m F. by rewrite parse_json.
  - intros d m. unfold parse. destruct (decode (of_bits d)); [|done]. cbn. case_decide; naive_solver.
  - intros d m p ->. by intros [= <-].
Qed.
End ManifestConcrete.
