(* ===== verification/Lease.v ===== *)
(** * Lease: the writer lease protocol (crates/zou-store/src/lease.rs)

    Every function is a tree of store calls ([Prog]); a [HeldLease] passed
    by mutable reference is passed in and returned.  Seconds are [u64] and
    their sums are checked. *)
From S2P Require Import Prelude Order Text Lsn Externals Bloom LayerKey Layer LayerMap Cas Layout Prog Manifest.

Definition DEFAULT_TTL_SECS : Z := 15.
Definition SKEW_GRACE_SECS : Z := 5.

Record HeldLease := mkHeld {
  h_holder : bytes;
  h_epoch : Z;
  h_fence : Z;
  h_expires_unix : Z;
  h_manifest : Manifest;
  h_version : Version;
  h_last_history_unix : Z
}.

Inductive LeaseError :=
  | NoManifest (key : bytes)
  | Held (holder : bytes) (expires_unix : Z)
  | Skew (holder : bytes) (expires_unix ttl_secs ahead_secs : Z)
  | Raced
  | Lost (holder : bytes) (epoch : Z)
  | LeaseManifest (e : ManifestError)
  | LeaseStore (e : CasError).

(** Who is writing a tenant right now. *)
Record Holder := mkHolder {
  ho_node : bytes;
  ho_endpoint : option bytes;
  ho_expires_unix : Z;
  ho_epoch : Z;
  ho_published_unix : option Z
}.

Section lease.
Context `{SerdeManifest}.

(** [swap] *)
Definition swap (key : bytes) (manifest : Manifest) (expected : Version) : prog LeaseError Version :=
  Put key (to_json manifest) (Some expected) (λ r, Ret
    match r with
    | Ok v => Ok v
    | Err (Conflict _) => Err Raced
    | Err e => Err (LeaseStore e)
    | Panic => Panic
    end).

(** The refusal of [take] while somebody else's lease runs. *)
Definition check_held (manifest : Manifest) (holder : bytes) (ttl_secs now_unix : Z) (force : bool) :
    res LeaseError () :=
  match (if force then None else m_lease manifest) with
  | None => Ok ()
  | Some lease =>
      let expired := l_expires_unix lease <=? now_unix in
      if negb expired && negb (bool_decide (l_holder lease = holder)) then
        let their_ttl := Z.max (default ttl_secs (l_ttl_secs lease)) ttl_secs in
        sum ← uadd now_unix their_ttl;
        furthest ← uadd sum SKEW_GRACE_SECS;
        if furthest <? l_expires_unix lease
        then Err (Skew (l_holder lease) (l_expires_unix lease) ttl_secs (l_expires_unix lease - furthest))
        else Err (Held (l_holder lease) (l_expires_unix lease))
      else Ok ()
  end.

(** [take] *)
Definition lease_take (layout : TenantLayout) (holder : bytes) (endpoint : option bytes)
    (ttl_secs now_unix : Z) (force : bool) : prog LeaseError HeldLease :=
  let key := manifest_key layout in
  cur ← get_ LeaseStore key;
  match cur with
  | None => Ret (Err (NoManifest key))
  | Some (data, version) =>
      manifest ← Ret (map_err LeaseManifest (from_json data));
      _ ← Ret (check_held manifest holder ttl_secs now_unix force);
      fence ← Ret (uadd (default 0 (l_fence <$> m_lease manifest)) 1);
      epoch ← Ret (uadd (m_epoch manifest) 1);
      expires ← Ret (uadd now_unix ttl_secs);
      let manifest :=
        with_lease (Some (mkLease holder expires fence endpoint (Some ttl_secs)))
          (with_epoch epoch manifest) in
      version ← swap key manifest version;
      mret (mkHeld holder epoch fence expires manifest version 0)
  end.

Definition acquire (layout : TenantLayout) (holder : bytes) (ttl_secs now_unix : Z) :=
  lease_take layout holder None ttl_secs now_unix false.
Definition acquire_at (layout : TenantLayout) (holder : bytes) (endpoint : option bytes)
    (ttl_secs now_unix : Z) :=
  lease_take layout holder endpoint ttl_secs now_unix false.
Definition steal_at (layout : TenantLayout) (holder : bytes) (endpoint : option bytes)
    (ttl_secs now_unix : Z) :=
  lease_take layout holder endpoint ttl_secs now_unix true.
Definition steal (layout : TenantLayout) (holder : bytes) (ttl_secs now_unix : Z) :=
  lease_take layout holder None ttl_secs now_unix true.

(** [holder] *)
Definition lease_holder (layout : TenantLayout) (now_unix : Z) : prog LeaseError (option Holder) :=
  let key := manifest_key layout in
  cur ← get_ LeaseStore key;
  match cur with
  | None => Ret (Err (NoManifest key))
  | Some (data, _) =>
      manifest ← Ret (map_err LeaseManifest (from_json data));
      mret (lease ← m_lease manifest;
            if now_unix <? l_expires_unix lease
            then Some (mkHolder (l_holder lease) (l_endpoint lease) (l_expires_unix lease)
                         (m_epoch manifest) (m_published_unix manifest))
            else None)
  end.

(** [spread]: 50 to 249 milliseconds, by name. *)
Definition spread (holder : bytes) : Z :=
  50 + foldl (λ acc b, Z.lxor (acc * 31 mod 256) (bval b)) 17 holder mod 200.

Definition RACES : Z := 5.

(** The loop of [takeover_with]. *)
Fixpoint takeover_loop (fuel : nat) (layout : TenantLayout) (holder : bytes) (endpoint : option bytes)
    (ttl_secs deadline races : Z) : prog LeaseError HeldLease :=
  match fuel with
  | O => Stuck
  | S fuel =>
      Now (λ now,
      handle (lease_take layout holder endpoint ttl_secs now false) (λ r,
        match r with
        | Err (Held whose expires_unix) =>
            if deadline <=? expires_unix then Ret (Err (Held whose expires_unix))
            else
              Now (λ now,
              let wait := sat_sub expires_unix now in
              ms ← Ret (uadd (wait * 1000) (spread holder));
              Sleep ms (takeover_loop fuel layout holder endpoint ttl_secs deadline races))
        | Err Raced =>
            let races := races + 1 in
            if RACES <? races then Ret (Err Raced)
            else Sleep (spread holder)
                   (takeover_loop fuel layout holder endpoint ttl_secs deadline races)
        | other => Ret other
        end))
  end.
(** [takeover_with]; [takeover] is this on the system clock. *)
Definition takeover_with (fuel : nat) (layout : TenantLayout) (holder : bytes) (endpoint : option bytes)
    (ttl_secs limit : Z) : prog LeaseError HeldLease :=
  Now (λ now,
  deadline ← Ret (uadd now limit);
  takeover_loop fuel layout holder endpoint ttl_secs deadline 0).

(** [reread_checking_ownership] *)
Definition reread_checking_ownership (key : bytes) (held : HeldLease) :
    prog LeaseError (Manifest * Version) :=
  cur ← get_ LeaseStore key;
  match cur with
  | None => Ret (Err (NoManifest key))
  | Some (data, version) =>
      manifest ← Ret (map_err LeaseManifest (from_json data));
      let ours :=
        match m_lease manifest with
        | Some l => bool_decide (l_holder l = h_holder held) && (l_fence l =? h_fence held)
        | None => false
        end && (m_epoch manifest =? h_epoch held) in
      if negb ours
      then Ret (Err (Lost (default [] (l_holder <$> m_lease manifest)) (m_epoch manifest)))
      else mret (manifest, version)
  end.

(** [lease.expires_unix = ..; lease.ttl_secs = ..] *)
Definition extend (expires ttl_secs : Z) (l : Lease) : Lease :=
  mkLease (l_holder l) expires (l_fence l) (l_endpoint l) (Some ttl_secs).
(** What a renewal leaves in the caller's [HeldLease]. *)
Definition renewed (held : HeldLease) (version : Version) (expires : Z) (manifest : Manifest) : HeldLease :=
  mkHeld (h_holder held) (h_epoch held) (h_fence held) expires manifest version (h_last_history_unix held).

(** [renew_by_reading] *)
Definition renew_by_reading (key : bytes) (held : HeldLease) (ttl_secs now_unix : Z) :
    prog LeaseError HeldLease :=
  '(manifest, version) ← reread_checking_ownership key held;
  lease ← Ret (expect (m_lease manifest));
  expires ← Ret (uadd now_unix ttl_secs);
  let manifest := with_lease (Some (extend expires ttl_secs lease)) manifest in
  version ← swap key manifest version;
  mret (renewed held version expires manifest).

(** [renew] *)
Definition renew (layout : TenantLayout) (held : HeldLease) (ttl_secs now_unix : Z) :
    prog LeaseError HeldLease :=
  let key := manifest_key layout in
  match m_lease (h_manifest held) with
  | None => renew_by_reading key held ttl_secs now_unix
  | Some lease =>
      expires ← Ret (uadd now_unix ttl_secs);
      let manifest := with_lease (Some (extend expires ttl_secs lease)) (h_manifest held) in
      handle (swap key manifest (h_version held)) (λ r,
        match r with
        | Ok version => mret (renewed held version expires manifest)
        | Err Raced => renew_by_reading key held ttl_secs now_unix
        | Err e => Ret (Err e)
        | Panic => Ret Panic
        end)
  end.

(** [release] *)
Definition release (layout : TenantLayout) (held : HeldLease) : prog LeaseError () :=
  let key := manifest_key layout in
  '(manifest, version) ← reread_checking_ownership key held;
  _ ← swap key (with_lease None manifest) version;
  mret ().

(** [update_manifest] *)
Definition update_manifest (layout : TenantLayout) (held : HeldLease) (now_unix : Z)
    (mutate : Manifest → Manifest) : prog LeaseError HeldLease :=
  let key := manifest_key layout in
  '(before, version) ← reread_checking_ownership key held;
  let manifest := mutate before in
  let strip m := with_published None (with_lease None m) in
  let changed := bool_decide (strip before ≠ strip manifest) in
  let manifest := if changed then with_published (Some now_unix) manifest else manifest in
  version ← swap key manifest version;
  let finish last_history :=
    mret (mkHeld (h_holder held) (h_epoch held) (h_fence held) (h_expires_unix held) manifest version
            last_history) in
  if changed && negb (h_last_history_unix held =? now_unix) then
    let snapshot := with_lease None manifest in
    let history := manifest_history layout (m_epoch manifest) now_unix in
    put_absent history (to_json snapshot) (λ r,
      match r with
      | Ok _ | Err (AlreadyExists _) => finish now_unix
      | Err _ => finish (h_last_history_unix held)
      | Panic => Ret Panic
      end)
  else finish (h_last_history_unix held).
End lease.
