(* ===== verification/LeaseProofs.v ===== *)
(** * LeaseProofs: one writer per epoch, under any interleaving

    Any number of nodes take, renew, release and publish under one tenant's
    lease, one store call at a time, in any order, while other parties
    change the manifest without touching epoch or lease.  The invariant
    says what each unfinished function may still write; from it, every
    change of the manifest is a grant of the next epoch or the work of the
    holder it names, and no epoch is granted twice. *)
From S2P Require Import Prelude Order Text Lsn Externals Bloom LayerKey Layer LayerMap Cas Layout Prog Manifest Lease.

(** Who the manifest says is writing. *)
Definition lease_id (m : Manifest) : option (bytes * Z) :=
  (λ l, (l_holder l, l_fence l)) <$> m_lease m.

Lemma history_not_manifest layout epoch unix : manifest_history layout epoch unix ≠ manifest_key layout.
Proof. unfold manifest_history, manifest_key. intros E%app_inv_head. done. Qed.

(** ** The system *)
Section system.
Context {S : Type} `{CasSnap S} `{SerdeManifestOk}.
Variable layout : TenantLayout.
Abbreviation mkey := (manifest_key layout).

Inductive tag := Taking | Holding (h : HeldLease).
Abbreviation thread := (tag * prog LeaseError HeldLease)%type.
Record sys := mkSys { y_store : S; y_threads : list thread }.

(** The manifest the store holds. *)
Definition current (s : S) : option Manifest :=
  match cas_view s mkey with
  | Some (d, _) => match from_json d with Ok m => Some m | _ => None end
  | None => None
  end.

(** What a caller may do to the manifest in [update_manifest]: anything
    but change the epoch or who holds the lease. *)
Definition keeps_lease (mutate : Manifest → Manifest) : Prop :=
  ∀ m, readable m → readable (mutate m) ∧ m_epoch (mutate m) = m_epoch m ∧ lease_id (mutate m) = lease_id m.

(** What a node may start: a take, or an operation on a lease some
    finished operation returned. *)
Inductive starts (ths : list thread) : thread → Prop :=
  | StartTake holder endpoint ttl now force :
      fits 8 ttl → fits 8 now → starts ths (Taking, lease_take layout holder endpoint ttl now force)
  | StartRenew t h ttl now :
      (t, Ret (Ok h)) ∈ ths → fits 8 ttl → fits 8 now → starts ths (Holding h, renew layout h ttl now)
  | StartUpdate t h now mutate :
      (t, Ret (Ok h)) ∈ ths → fits 8 now → keeps_lease mutate →
      starts ths (Holding h, update_manifest layout h now mutate)
  | StartRelease t h :
      (t, Ret (Ok h)) ∈ ths → starts ths (Holding h, _ ← release layout h; mret h).

(** A change by somebody who is no party to the lease: epoch and lease of
    the manifest stay. *)
Definition foreign (s s' : S) : Prop :=
  cas_inv s' ∧ (∀ d v, cas_snap s mkey d v → cas_snap s' mkey d v) ∧
  ∀ m, current s = Some m →
    ∃ m', current s' = Some m' ∧ m_epoch m' = m_epoch m ∧ m_lease m' = m_lease m.

Inductive sys_step : sys → sys → Prop :=
  | StepStart s ths t : starts ths t → sys_step (mkSys s ths) (mkSys s (ths ++ [t]))
  | StepCall s ths i t p now s' p' :
      ths !! i = Some (t, p) → call s now p = Some (s', p') →
      sys_step (mkSys s ths) (mkSys s' (<[i := (t, p')]> ths))
  | StepForeign s ths s' : foreign s s' → sys_step (mkSys s ths) (mkSys s' ths).

(** A system that starts on a store with a readable manifest. *)
Definition initial (m0 : Manifest) (y : sys) : Prop :=
  cas_inv (y_store y) ∧ y_threads y = [] ∧ current (y_store y) = Some m0.
Definition reachable (m0 : Manifest) (y : sys) : Prop :=
  ∃ y0, initial m0 y0 ∧ rtc sys_step y0 y.

(** ** What an unfinished function may still write *)
(** How a thread may change the manifest: a take advances the epoch by
    one; an operation on a held lease finds itself in the manifest it
    replaces, and keeps the epoch. *)
Definition moves (t : tag) (m m' : Manifest) : Prop :=
  match t with
  | Taking => m_epoch m' = m_epoch m + 1
  | Holding h => m_epoch m = h_epoch h ∧ m_epoch m' = h_epoch h ∧
                 lease_id m = Some (h_holder h, h_fence h) ∧
                 (lease_id m' = lease_id m ∨ m_lease m' = None)
  end.

(** What the manifest key was seen to hold, with its versions. *)
Abbreviation seen := (list (bytes * Version)).

Definition held_ok (G : seen) (h : HeldLease) : Prop :=
  (to_json (h_manifest h), h_version h) ∈ G ∧ readable (h_manifest h) ∧
  m_epoch (h_manifest h) = h_epoch h ∧ lease_id (h_manifest h) = Some (h_holder h, h_fence h).

(** The epoch a thread was granted, after a write of [m'] went through. *)
Definition granted (t : tag) (m' : Manifest) (g : option Z) : option Z :=
  match t with Taking => Some (m_epoch m') | Holding _ => g end.

(** [safe G t g p]: having seen [G] and been granted [g], the function with
    code [p] left writes the manifest only as its tag may, on top of
    something it has seen; and a take returns with the epoch it was
    granted, once. *)
Fixpoint safe (G : seen) (t : tag) (g : option Z) (p : prog LeaseError HeldLease) : Prop :=
  match p with
  | Ret (Ok h) => held_ok G h ∧ (t = Taking → g = Some (h_epoch h))
  | Ret _ | Stuck => True
  | Get key k => ∀ G' r, G ⊆ G' →
      (key = mkey → ∀ d v, r = Ok (Some (d, v)) → (d, v) ∈ G') → safe G' t g (k r)
  | Put key data expected k =>
      if decide (key = mkey)
      then ∃ d v m m', expected = Some v ∧ (d, v) ∈ G ∧ from_json d = Ok m ∧ data = to_json m' ∧
        readable m' ∧ moves t m m' ∧ (t = Taking → g = None) ∧
        ∀ G' r, G ⊆ G' →
          match r with
          | Ok v' => (data, v') ∈ G' → safe G' t (granted t m' g) (k r)
          | _ => safe G' t g (k r)
          end
      else ∀ G' r, G ⊆ G' → safe G' t g (k r)
  | Now k => ∀ n, safe G t g (k n)
  | Sleep _ k => safe G t g k
  end.

Lemma held_ok_mono G G' h : G ⊆ G' → held_ok G h → held_ok G' h.
Proof. intros Sub (A & B). split; [by apply Sub|done]. Qed.
Lemma safe_mono G G' t g p : G ⊆ G' → safe G t g p → safe G' t g p.
Proof.
  revert G G'. induction p as [r| |key k IH|key data expected k IH|k IH|ms k IH]; intros G G' Sub; cbn.
  - destruct r; [|done..]. intros [Ho Hg]. split; [by eapply held_ok_mono|done].
  - done.
  - intros A G2 r Sub2. apply A. set_solver.
  - case_decide.
    + intros (d & v & m & m' & E & D & J & Ed & R & M & Hg & A). exists d, v, m, m'.
      split_and!; try done; [by apply Sub|]. intros G2 r Sub2. apply A. set_solver.
    + intros A G2 r Sub2. apply A. set_solver.
  - intros A n. by eapply IH.
  - by apply IH.
Qed.

(** The tree left after a read of the manifest. *)
Lemma safe_get G t g (k : option (bytes * Version) → prog LeaseError HeldLease) :
  (∀ G', G ⊆ G' → safe G' t g (k None)) →
  (∀ G' d v, G ⊆ G' → (d, v) ∈ G' → safe G' t g (k (Some (d, v)))) →
  safe G t g (get_ LeaseStore mkey ≫= k).
Proof.
  intros An As G' r Sub D. destruct r as [[[d v]|]|e|]; cbn; [|by apply An|done..].
  apply As; [done|]. by apply D.
Qed.
(** A swap of the manifest on top of something seen. *)
Lemma safe_swap G t g d v m m' (f : res LeaseError Version → prog LeaseError HeldLease) :
  (d, v) ∈ G → from_json d = Ok m → readable m' → moves t m m' → (t = Taking → g = None) →
  (∀ G' v', G ⊆ G' → (to_json m', v') ∈ G' → safe G' t (granted t m' g) (f (Ok v'))) →
  (∀ G' e, G ⊆ G' → safe G' t g (f (Err e))) → (∀ G', G ⊆ G' → safe G' t g (f Panic)) →
  safe G t g (handle (swap mkey m' v) f).
Proof.
  intros D J R M Hg Ao Ae Ap. cbn [swap handle safe]. rewrite decide_True by done.
  exists d, v, m, m'. split_and!; try done. intros G' r Sub. destruct r as [v'|e|].
  - intros D'. by apply Ao.
  - by destruct e; apply Ae.
  - by apply Ap.
Qed.
Lemma safe_swap_bind G t g d v m m' (f : Version → prog LeaseError HeldLease) :
  (d, v) ∈ G → from_json d = Ok m → readable m' → moves t m m' → (t = Taking → g = None) →
  (∀ G' v', G ⊆ G' → (to_json m', v') ∈ G' → safe G' t (granted t m' g) (f v')) →
  safe G t g (swap mkey m' v ≫= f).
Proof. intros D J R M Hg Ao. by eapply (safe_swap G t g d v m m'). Qed.

(** Pure steps: they go on only when they succeed. *)
Lemma safe_pure {A} G t g (r : res LeaseError A) (f : A → prog LeaseError HeldLease) :
  (∀ a, r = Ok a → safe G t g (f a)) → safe G t g (Ret r ≫= f).
Proof. intros A1. destruct r; [by apply A1|done..]. Qed.

(** The documents the operations write are readable. *)
Lemma readable_leased m l e :
  readable m → lease_fits l → fits 8 e → readable (with_lease (Some l) (with_epoch e m)).
Proof. unfold readable, manifest_fits. cbn. intuition. Qed.
Lemma readable_lease m o : readable m → opt_all lease_fits o → readable (with_lease o m).
Proof. unfold readable, manifest_fits. cbn. intuition. Qed.
Lemma readable_published m n : readable m → fits 8 n → readable (with_published (Some n) m).
Proof. unfold readable, manifest_fits. cbn. intuition. Qed.
Lemma readable_fence m l : readable m → m_lease m = Some l → lease_fits l.
Proof. intros [F _] E. unfold manifest_fits in F. rewrite E in F. cbn in F. tauto. Qed.
Lemma readable_epoch m : readable m → fits 8 (m_epoch m).
Proof. intros [F _]. unfold manifest_fits in F. tauto. Qed.

Lemma safe_take G holder endpoint ttl now force :
  fits 8 ttl → fits 8 now → safe G Taking None (lease_take layout holder endpoint ttl now force).
Proof.
  intros Ft Fn. unfold lease_take. apply safe_get; [done|]. intros G' d v Sub D.
  apply safe_pure. intros m J. unfold map_err in J. destruct (from_json d) as [m1|e|] eqn:J1; try done.
  apply (inj Ok) in J as ->. pose proof (from_json_readable _ _ J1) as R.
  apply safe_pure. intros _ _. apply safe_pure. intros fence [-> Lf]%uadd_ok.
  apply safe_pure. intros epoch [-> Le]%uadd_ok. apply safe_pure. intros expires [-> Lx]%uadd_ok.
  pose proof (readable_epoch m R) as Fe.
  assert (Ff : 0 ≤ default 0 (l_fence <$> m_lease m)).
  { destruct (m_lease m) as [l|] eqn:El; [|done]. destruct (readable_fence m l R El) as (_ & [? _] & _). done. }
  eapply safe_swap_bind; [done|done| |done|done|].
  - apply readable_leased; [done| |unfold fits in *; lia].
    unfold lease_fits, fits in *. cbn [l_expires_unix l_fence l_ttl_secs opt_all]. lia.
  - intros G2 v' Sub2 D2. split; [|done]. split_and!; [done| |done|done].
    apply readable_leased; [done| |unfold fits in *; lia].
    unfold lease_fits, fits in *. cbn [l_expires_unix l_fence l_ttl_secs opt_all]. lia.
Qed.

Lemma safe_reread G t g h (k : Manifest * Version → prog LeaseError HeldLease) :
  (∀ G' d v m, G ⊆ G' → (d, v) ∈ G' → from_json d = Ok m → m_epoch m = h_epoch h →
     lease_id m = Some (h_holder h, h_fence h) → safe G' t g (k (m, v))) →
  safe G t g (reread_checking_ownership mkey h ≫= k).
Proof.
  intros A. intros G' r Sub D. destruct r as [[[d v]|]|e|]; cbn; try done.
  destruct (from_json d) as [m|e|] eqn:J; cbn; try done.
  destruct (m_lease m) as [l|] eqn:El; cbn; [|done].
  destruct (bool_decide (l_holder l = h_holder h) && (l_fence l =? h_fence h) && (m_epoch m =? h_epoch h)) eqn:C;
    cbn; [|done].
  rewrite !andb_true_iff, bool_decide_eq_true, !Z.eqb_eq in C. destruct C as [[Ch Cf] Ce].
  apply (A G' d v m); [done|by apply D|done|done|]. unfold lease_id. rewrite El. cbn. by rewrite Ch, Cf.
Qed.

Lemma lease_id_extend m l expires ttl :
  m_lease m = Some l → lease_id (with_lease (Some (extend expires ttl l)) m) = lease_id m.
Proof. unfold lease_id. by intros ->. Qed.
Lemma readable_extend m l now ttl e :
  readable m → m_lease m = Some l → fits 8 ttl → fits 8 now → e = now + ttl → now + ttl < 2 ^ 64 →
  readable (with_lease (Some (extend e ttl l)) m).
Proof.
  intros R El Ft Fn -> L. apply readable_lease; [done|].
  destruct (readable_fence m l R El) as (_ & ? & _). unfold lease_fits, fits in *. cbn. lia.
Qed.

Lemma safe_renew_by_reading G g h ttl now :
  fits 8 ttl → fits 8 now → safe G (Holding h) g (renew_by_reading mkey h ttl now).
Proof.
  intros Ft Fn. unfold renew_by_reading. apply safe_reread. intros G' d v m Sub D J Ee Ei.
  pose proof (from_json_readable _ _ J) as R. apply safe_pure. intros l El.
  destruct (m_lease m) as [l'|] eqn:Em; [|done]. apply (inj Ok) in El as ->.
  apply safe_pure. intros expires [Ex Lx]%uadd_ok.
  assert (R' : readable (with_lease (Some (extend expires ttl l)) m)) by by eapply readable_extend.
  assert (I' : lease_id (with_lease (Some (extend expires ttl l)) m) = lease_id m) by by apply lease_id_extend.
  eapply safe_swap_bind; [done|done|done| |done|].
  - split_and!; [done|done|done|by left].
  - intros G2 v' Sub2 D2. split; [|done]. split_and!; [done|done|done|]. cbn [h_manifest h_holder h_fence renewed]. by rewrite I'.
Qed.

Lemma safe_renew G g h ttl now :
  held_ok G h → fits 8 ttl → fits 8 now → safe G (Holding h) g (renew layout h ttl now).
Proof.
  intros (D & R & Ee & Ei) Ft Fn. unfold renew.
  destruct (m_lease (h_manifest h)) as [l|] eqn:El; [|by apply safe_renew_by_reading].
  apply safe_pure. intros expires [Ex Lx]%uadd_ok.
  assert (R' : readable (with_lease (Some (extend expires ttl l)) (h_manifest h))) by by eapply readable_extend.
  assert (I' : lease_id (with_lease (Some (extend expires ttl l)) (h_manifest h)) = lease_id (h_manifest h))
    by by apply lease_id_extend.
  eapply safe_swap; [done|by apply readable_back|done| |done| | |done].
  - split_and!; [done|done|done|by left].
  - intros G2 v' Sub2 D2. split; [|done]. split_and!; [done|done|done|]. cbn [h_manifest h_holder h_fence renewed]. by rewrite I'.
  - intros G2 e Sub2. destruct e; try done. by apply safe_renew_by_reading.
Qed.

Lemma safe_release G g h : held_ok G h → safe G (Holding h) g (_ ← release layout h; mret h).
Proof.
  intros Ho G' r Sub D. destruct r as [[[d v]|]|e|]; cbn; try done.
  destruct (from_json d) as [m|e|] eqn:J; cbn; try done.
  destruct (m_lease m) as [l|] eqn:El; cbn; [|done].
  destruct (bool_decide (l_holder l = h_holder h) && (l_fence l =? h_fence h) && (m_epoch m =? h_epoch h)) eqn:C;
    cbn; [|done].
  rewrite !andb_true_iff, bool_decide_eq_true, !Z.eqb_eq in C. destruct C as [[Ch Cf] Ce].
  rewrite decide_True by done. exists d, v, m, (with_lease None m).
  pose proof (from_json_readable _ _ J) as R. split_and!; try done; [by apply D|by apply readable_lease|..].
  - unfold lease_id. rewrite El. cbn. congruence.
  - by right.
  - intros G2 [v'|e|] Sub2; cbn; [|by destruct e|done]. intros _.
    split; [|done]. eapply held_ok_mono; [|done]. set_solver.
Qed.

Lemma safe_update G g h now mutate :
  held_ok G h → fits 8 now → keeps_lease mutate →
  safe G (Holding h) g (update_manifest layout h now mutate).
Proof.
  intros Ho Fn K. unfold update_manifest. apply safe_reread. intros G' d v m Sub D J Ee Ei.
  destruct (K m (from_json_readable _ _ J)) as (R & Ke & Ki). cbv zeta.
  set (changed := bool_decide _). set (m' := if changed then _ else _).
  assert (Q : readable m' ∧ m_epoch m' = m_epoch m ∧ lease_id m' = lease_id m).
  { subst m'. destruct changed; [|done]. split; [by apply readable_published|done]. }
  destruct Q as (R' & Ke' & Ki').
  eapply safe_swap_bind; [done|done|done|split_and!; [done|congruence|done|by left]|done|].
  intros G2 v' Sub2 D2. cbn [granted].
  assert (Fin : ∀ G3 lh, G2 ⊆ G3 →
    held_ok G3 (mkHeld (h_holder h) (h_epoch h) (h_fence h) (h_expires_unix h) m' v' lh)).
  { intros G3 lh Sub3. split_and!; [by apply Sub3|done|cbn; congruence|cbn [h_manifest h_holder h_fence]; congruence]. }
  destruct (changed && _).
  - unfold put_absent. cbn [safe]. rewrite decide_False by apply history_not_manifest.
    intros G3 r Sub3. destruct r as [v3|e|]; cbn; [|by destruct e; (split; [apply Fin|])|done].
    split; [by apply Fin|done].
  - cbn. split; [by apply Fin|done].
Qed.

(** ** The invariant of the system *)
Abbreviation thread_ok G := (λ (g : option Z) (th : thread), safe G th.1 g th.2).
Record sys_inv (m0 : Manifest) (y : sys) (G : seen) (gs : list (option Z)) (m : Manifest) : Prop := {
  si_store : cas_inv (y_store y);
  si_seen : ∀ d v, (d, v) ∈ G → cas_snap (y_store y) mkey d v;
  si_cur : current (y_store y) = Some m;
  si_threads : Forall2 (thread_ok G) gs (y_threads y);
  si_base : m_epoch m0 ≤ m_epoch m;
  si_epochs : ∀ i e, gs !! i = Some (Some e) → m_epoch m0 < e ≤ m_epoch m;
  si_once : ∀ i j e, gs !! i = Some (Some e) → gs !! j = Some (Some e) → i = j
}.

(** How one step changes the manifest. *)
Definition justified (ths : list thread) (m m' : Manifest) : Prop :=
  (m_epoch m' = m_epoch m ∧ m_lease m' = m_lease m) ∨
  ∃ t p, (t, p) ∈ ths ∧ moves t m m'.

Lemma starts_safe m0 s ths G gs m t :
  sys_inv m0 (mkSys s ths) G gs m → starts ths t → safe G t.1 None t.2.
Proof.
  intros I St.
  assert (Ho : ∀ t h, (t, Ret (Ok h)) ∈ ths → held_ok G h).
  { intros t' h [i Hi]%list_elem_of_lookup. pose proof (si_threads _ _ _ _ _ I) as F.
    destruct (Forall2_lookup_r _ _ _ _ _ F Hi) as (g & _ & [A _]). done. }
  destruct St; cbn [fst snd].
  - by apply safe_take.
  - apply safe_renew; eauto.
  - apply safe_update; eauto.
  - apply safe_release; eauto.
Qed.

Lemma threads_mono G G' gs (ths : list thread) :
  G ⊆ G' → Forall2 (thread_ok G) gs ths → Forall2 (thread_ok G') gs ths.
Proof. intros Sub F. eapply Forall2_impl; [exact F|]. intros g th. by apply safe_mono. Qed.
Lemma threads_insert G G' gs (ths : list thread) i t p g :
  G ⊆ G' → Forall2 (thread_ok G) gs ths → safe G' t g p →
  Forall2 (thread_ok G') (<[i := g]> gs) (<[i := (t, p)]> ths).
Proof. intros Sub F Sa. apply Forall2_insert; [by eapply threads_mono|done]. Qed.

(** A step that writes nothing to the manifest. *)
Lemma inv_quiet m0 s ths G gs m i t p g s' p' G' :
  sys_inv m0 (mkSys s ths) G gs m → ths !! i = Some (t, p) → gs !! i = Some g →
  cas_inv s' → (∀ d v, (d, v) ∈ G' → cas_snap s' mkey d v) → cas_view s' mkey = cas_view s mkey →
  G ⊆ G' → safe G' t g p' →
  sys_inv m0 (mkSys s' (<[i := (t, p')]> ths)) G' gs m.
Proof.
  intros [I1 I2 I3 I4 I5 I6 I7] Hi Hg Is Sn V Sub Sa. split; try done; cbn [y_store y_threads] in *.
  - unfold current in *. by rewrite V.
  - rewrite <-(list_insert_id gs i g) by done. by eapply threads_insert.
Qed.

Lemma current_json s m v : readable m → cas_view s mkey = Some (to_json m, v) → current s = Some m.
Proof. intros R V. unfold current. by rewrite V, readable_back. Qed.

(** A write of the manifest that went through. *)
Lemma inv_write m0 s ths G gs m i t p g s' p' m' v' :
  sys_inv m0 (mkSys s ths) G gs m → ths !! i = Some (t, p) → gs !! i = Some g →
  cas_inv s' → (∀ d v, cas_snap s mkey d v → cas_snap s' mkey d v) →
  cas_view s' mkey = Some (to_json m', v') → readable m' → moves t m m' → (t = Taking → g = None) →
  safe ((to_json m', v') :: G) t (granted t m' g) p' →
  sys_inv m0 (mkSys s' (<[i := (t, p')]> ths)) ((to_json m', v') :: G) (<[i := granted t m' g]> gs) m'.
Proof.
  intros [I1 I2 I3 I4 I5 I6 I7] Hi Hg Is Sn V R M Tg Sa. cbn [y_store y_threads] in *.
  assert (Up : m_epoch m ≤ m_epoch m').
  { destruct t as [|h]; cbn in M; [lia|]. destruct M as (-> & -> & _). done. }
  assert (New : ∀ j e, <[i := granted t m' g]> gs !! j = Some (Some e) →
    gs !! j = Some (Some e) ∨ j = i ∧ t = Taking ∧ e = m_epoch m').
  { intros j e. rewrite list_lookup_insert. case_decide as C; [|by left]. destruct C as [<- _]. destruct t as [|h]; cbn.
    - intros [= <-]. by right.
    - intros [= ->]. by left. }
  assert (Fresh : t = Taking → ∀ j, gs !! j ≠ Some (Some (m_epoch m'))).
  { intros -> j Ej. apply I6 in Ej. cbn in M. lia. }
  split; cbn [y_store y_threads].
  - done.
  - intros d v [[= -> ->]|Hd]%elem_of_cons; [by apply cas_snap_get|]. by apply Sn, I2.
  - by eapply current_json.
  - eapply threads_insert; [|done|done]. set_solver.
  - lia.
  - intros j e Ej%New. destruct Ej as [Ej|(-> & -> & ->)]; [apply I6 in Ej; lia|]. cbn in M. lia.
  - intros j k e Ej%New Ek%New.
    destruct Ej as [Ej|(-> & T1 & ->)], Ek as [Ek|(-> & T2 & Ee)]; [by eapply I7| | |done].
    + subst e. by destruct (Fresh T2 j).
    + by destruct (Fresh T1 k).
Qed.

(** What holds after a step: the invariant, and the change accounted for. *)
Definition kept (m0 : Manifest) (y y' : sys) (m : Manifest) : Prop :=
  ∃ G' gs' m', sys_inv m0 y' G' gs' m' ∧ justified (y_threads y) m m'.

Lemma start_inv m0 s ths G gs m t :
  sys_inv m0 (mkSys s ths) G gs m → starts ths t → kept m0 (mkSys s ths) (mkSys s (ths ++ [t])) m.
Proof.
  intros I St. exists G, (gs ++ [None]), m. split; [|by left].
  pose proof (starts_safe _ _ _ _ _ _ _ I St) as Sa.
  destruct I as [I1 I2 I3 I4 I5 I6 I7]. cbn [y_store y_threads] in *.
  assert (Old : ∀ i e, (gs ++ [None]) !! i = Some (Some e) → gs !! i = Some (Some e)).
  { intros i e [?|[_ Q]]%lookup_app_Some; [done|]. by apply list_lookup_singleton_Some in Q as []. }
  split; try done; cbn [y_store y_threads].
  - apply Forall2_app; [done|]. by constructor.
  - intros i e Ei%Old. by eapply I6.
  - intros i j e Ei%Old Ej%Old. by eapply I7.
Qed.

Lemma get_inv m0 s ths G gs m i t g key k :
  sys_inv m0 (mkSys s ths) G gs m → ths !! i = Some (t, Get key k) → gs !! i = Some g →
  safe G t g (Get key k) →
  kept m0 (mkSys s ths) (mkSys s (<[i := (t, k (cas_get s key))]> ths)) m.
Proof.
  intros I Hi Hg Sa. pose proof (si_store _ _ _ _ _ I) as Is. pose proof (si_seen _ _ _ _ _ I) as Sn.
  cbn [y_store] in *. rewrite cas_get_ok by done.
  set (G' := match cas_view s key with Some e => if decide (key = mkey) then e :: G else G | None => G end).
  assert (Sub : G ⊆ G') by (subst G'; destruct (cas_view s key); [case_decide|]; set_solver).
  exists G', gs, m. split; [|by left]. eapply inv_quiet; try done.
  - intros d v Hd. subst G'. destruct (cas_view s key) as [e|] eqn:V; [|by apply Sn].
    destruct (decide (key = mkey)) as [->|]; [|by apply Sn].
    apply elem_of_cons in Hd as [<-|Hd]; [by apply cas_snap_get|by apply Sn].
  - apply Sa; [done|]. intros -> d v [= V]. subst G'. rewrite V, decide_True by done. by left.
Qed.

Lemma put_inv m0 s ths G gs m i t g key data expected k :
  sys_inv m0 (mkSys s ths) G gs m → ths !! i = Some (t, Put key data expected k) → gs !! i = Some g →
  safe G t g (Put key data expected k) →
  let '(s', r) := put_if_match s key data expected in
  kept m0 (mkSys s ths) (mkSys s' (<[i := (t, k r)]> ths)) m.
Proof.
  intros I Hi Hg Sa. pose proof (si_store _ _ _ _ _ I) as Is. pose proof (si_seen _ _ _ _ _ I) as Sn.
  cbn [y_store] in *. pose proof (put_if_match_ok s key data expected Is) as P.
  pose proof (λ d v, cas_snap_put s mkey d v key data expected Is) as Sp.
  destruct (put_if_match s key data expected) as [s' r] eqn:Ep. cbn [fst] in Sp.
  destruct P as [Is1 P]. cbn [safe] in Sa. destruct (decide (key = mkey)) as [->|N]; cycle 1.
  { exists G, gs, m. split; [|by left]. eapply inv_quiet; try done.
    - intros d v Hd. by apply Sp, Sn.
    - case_bool_decide; [|by destruct P as [_ ->]]. destruct P as (v' & _ & _ & O). by apply O.
    - by apply Sa. }
  destruct Sa as (d & v & mr & m' & -> & Hd & J & -> & R & M & Tg & Sa). case_bool_decide as C.
  - destruct P as (v' & -> & V' & _). destruct (cas_view s mkey) as [[d' v2]|] eqn:V; [|done].
    cbn in C. simplify_eq. assert (d' = d) as -> by by eapply cas_snap_use; [| |exact V]; [|apply Sn].
    assert (mr = m) as ->.
    { pose proof (si_cur _ _ _ _ _ I) as Cu. unfold current in Cu. cbn [y_store] in Cu.
      rewrite V, J in Cu. congruence. }
    exists ((to_json m', v') :: G), (<[i := granted t m' g]> gs), m'. split.
    + eapply inv_write; try done. apply (Sa _ (Ok v')); [set_solver|by left].
    + right. eexists t, _. split; [by eapply list_elem_of_lookup_2|done].
  - destruct P as [-> ->]. exists G, gs, m. split; [|by left].
    eapply inv_quiet; try done. by apply (Sa _ (Err (Conflict mkey))).
Qed.

Lemma call_inv m0 s ths G gs m i t p now s' p' :
  sys_inv m0 (mkSys s ths) G gs m → ths !! i = Some (t, p) → call s now p = Some (s', p') →
  kept m0 (mkSys s ths) (mkSys s' (<[i := (t, p')]> ths)) m.
Proof.
  intros I Hi Hc. pose proof (si_threads _ _ _ _ _ I) as F.
  destruct (Forall2_lookup_r _ _ _ _ _ F Hi) as (g & Hg & Sa). cbn [fst snd] in Sa.
  destruct p as [r| |key k|key data expected k|k|ms k]; cbn [call] in Hc; try done.
  - simplify_eq. by eapply get_inv.
  - pose proof (put_inv _ _ _ _ _ _ _ _ _ _ _ _ _ I Hi Hg Sa) as P.
    destruct (put_if_match s key data expected) as [s1 r]. by simplify_eq.
  - simplify_eq. exists G, gs, m. split; [|by left].
    apply (inv_quiet m0 s' ths G gs m i t (Now k) g); try done;
      [apply (si_store _ _ _ _ _ I)|apply (si_seen _ _ _ _ _ I)].
  - simplify_eq. exists G, gs, m. split; [|by left].
    apply (inv_quiet m0 s' ths G gs m i t (Sleep ms p') g); try done;
      [apply (si_store _ _ _ _ _ I)|apply (si_seen _ _ _ _ _ I)].
Qed.

Lemma foreign_inv m0 s ths s' G gs m :
  sys_inv m0 (mkSys s ths) G gs m → foreign s s' → kept m0 (mkSys s ths) (mkSys s' ths) m.
Proof.
  intros I (Is & Sn & Fm). destruct (Fm m (si_cur _ _ _ _ _ I)) as (m' & Cu' & Ee & El).
  exists G, gs, m'. split; [|by left]. destruct I as [I1 I2 I3 I4 I5 I6 I7]. cbn [y_store y_threads] in *.
  split; cbn [y_store y_threads]; try done; [|lia|].
  - intros d v Hd. by apply Sn, I2.
  - intros j e Ej%I6. lia.
Qed.

Lemma step_inv m0 y y' G gs m : sys_inv m0 y G gs m → sys_step y y' → kept m0 y y' m.
Proof.
  intros I St. destruct St; [by eapply start_inv|by eapply call_inv|by eapply foreign_inv].
Qed.

Lemma reachable_inv m0 y : reachable m0 y → ∃ G gs m, sys_inv m0 y G gs m.
Proof.
  intros (y0 & (Is & Et & Cu) & St). assert (I0 : sys_inv m0 y0 [] [] m0).
  { split; try done; [set_solver|by rewrite Et]. }
  assert (∃ G gs m, sys_inv m0 y0 G gs m) as I by eauto. clear Is Et Cu I0.
  induction St as [y|y y1 y2 Hs St IH]; [done|]. apply IH.
  destruct I as (G & gs & m & I). destruct (step_inv _ _ _ _ _ _ I Hs) as (G' & gs' & m' & I' & _). eauto.
Qed.

(** C2: one writer at a time.  However the store calls of any number of
    nodes interleave, every step leaves a readable manifest, and a step that
    changes it is justified: somebody else's change that keeps epoch and
    lease, a take that advances the epoch by exactly one, or an operation on
    a held lease which finds its own holder, fence and epoch in the very
    manifest it replaces and keeps the epoch.  A holder that lost its lease
    therefore changes nothing. *)
Theorem one_writer (m0 : Manifest) (y y' : sys) :
  reachable m0 y → sys_step y y' →
  ∃ m m', current (y_store y) = Some m ∧ current (y_store y') = Some m' ∧
    justified (y_threads y) m m'.
Proof.
  intros (G & gs & m & I)%reachable_inv St.
  destruct (step_inv _ _ _ _ _ _ I St) as (G' & gs' & m' & I' & J).
  exists m, m'. split_and!; [apply (si_cur _ _ _ _ _ I)|apply (si_cur _ _ _ _ _ I')|done].
Qed.

(** C3: no epoch is granted twice.  In any reachable system, two takes
    that succeeded hold different epochs, each above the epoch the system
    started with and at most the one the manifest shows. *)
Theorem epochs_unique (m0 : Manifest) (y : sys) (i j : nat) (h1 h2 : HeldLease) :
  reachable m0 y →
  y_threads y !! i = Some (Taking, Ret (Ok h1)) → y_threads y !! j = Some (Taking, Ret (Ok h2)) →
  (i ≠ j → h_epoch h1 ≠ h_epoch h2) ∧
  ∃ m, current (y_store y) = Some m ∧ m_epoch m0 < h_epoch h1 ≤ m_epoch m.
Proof.
  intros (G & gs & m & I)%reachable_inv Hi Hj.
  destruct (Forall2_lookup_r _ _ _ _ _ (si_threads _ _ _ _ _ I) Hi) as (g1 & G1 & _ & E1).
  destruct (Forall2_lookup_r _ _ _ _ _ (si_threads _ _ _ _ _ I) Hj) as (g2 & G2 & _ & E2).
  rewrite E1 in G1 by done. rewrite E2 in G2 by done. split.
  - intros N E. rewrite <-E in G2. by destruct N; eapply (si_once _ _ _ _ _ I).
  - exists m. split; [apply (si_cur _ _ _ _ _ I)|by eapply (si_epochs _ _ _ _ _ I)].
Qed.
End system.
