(* ===== verification/LeaseFence.v ===== *)
(** * LeaseFence: takes end to end, fencing and takeover

    What a take does on a store nobody else touches, on every branch; what
    the old holder sees afterwards; and that a takeover returns. *)
From S2P Require Import Prelude Order Text Lsn Externals Bloom LayerKey Layer LayerMap Cas Layout Prog Manifest Lease LeaseProofs.

Section fence.
Context {S : Type} `{CasSnap S} `{SerdeManifestOk}.
Variable layout : TenantLayout.
Abbreviation mkey := (manifest_key layout).

(** The verdict of a take on the manifest it reads, as a table: nobody is
    turned away from a free, expired or own lease; a running lease is
    [Held], or [Skew] when no clock within the grace could have written it. *)
Definition refusal (m : Manifest) (holder : bytes) (ttl now : Z) (force : bool) : option LeaseError :=
  match m_lease m with
  | Some l =>
      if force || (l_expires_unix l <=? now) || bool_decide (l_holder l = holder) then None
      else
        let furthest := now + Z.max ttl (default 0 (l_ttl_secs l)) + SKEW_GRACE_SECS in
        Some (if furthest <? l_expires_unix l
              then Skew (l_holder l) (l_expires_unix l) ttl (l_expires_unix l - furthest)
              else Held (l_holder l) (l_expires_unix l))
  | None => None
  end.
(** The manifest a take publishes. *)
Definition taken (m : Manifest) (holder : bytes) (endpoint : option bytes) (ttl now : Z) : Manifest :=
  with_lease (Some (mkLease holder (now + ttl) (default 0 (l_fence <$> m_lease m) + 1) endpoint (Some ttl)))
    (with_epoch (m_epoch m + 1) m).

(** No sum of the take overflows. *)
Definition no_overflow (m : Manifest) (ttl now : Z) : Prop :=
  m_epoch m + 1 < 2 ^ 64 ∧ default 0 (l_fence <$> m_lease m) + 1 < 2 ^ 64 ∧
  0 ≤ ttl ∧ 0 ≤ now ∧ now + Z.max ttl (default 0 (m_lease m ≫= l_ttl_secs)) + SKEW_GRACE_SECS < 2 ^ 64.
#[global] Instance no_overflow_dec m ttl now : Decision (no_overflow m ttl now).
Proof. unfold no_overflow. apply _. Defined.

Lemma uadd_run {E} a b : a + b < 2 ^ 64 → @uadd E a b = Ok (a + b).
Proof. intros L. unfold uadd. by rewrite (proj2 (Z.leb_le _ _)) by lia. Qed.
Lemma check_held_refusal m holder ttl now force :
  no_overflow m ttl now →
  check_held m holder ttl now force =
  match refusal m holder ttl now force with Some e => Err e | None => Ok () end.
Proof.
  intros (_ & _ & Ht & Hn & L). unfold check_held, refusal. destruct force; [by destruct (m_lease m)|].
  destruct (m_lease m) as [l|]; [|done]. cbn [orb]. cbn in L.
  destruct (l_expires_unix l <=? now); [done|]. case_bool_decide; [done|]. cbn [negb andb orb].
  assert (Z.max (default ttl (l_ttl_secs l)) ttl = Z.max ttl (default 0 (l_ttl_secs l))) as ->.
  { destruct (l_ttl_secs l); cbn; lia. }
  unfold SKEW_GRACE_SECS in *. rewrite uadd_run by (cbn in *; lia). rewrite bind_run, uadd_run by (cbn in *; lia).
  rewrite bind_run. by destruct (_ <? _).
Qed.

Lemma exec_take (s : S) ms holder endpoint ttl now force d v m :
  cas_inv s → cas_view s mkey = Some (d, v) → from_json d = Ok m → no_overflow m ttl now →
  match refusal m holder ttl now force with
  | Some e => exec (alone s ms) (lease_take layout holder endpoint ttl now force) = (alone s ms, Some (Err e))
  | None => ∃ s' v',
      exec (alone s ms) (lease_take layout holder endpoint ttl now force) =
        (alone s' ms, Some (Ok (mkHeld holder (m_epoch m + 1) (default 0 (l_fence <$> m_lease m) + 1)
           (now + ttl) (taken m holder endpoint ttl now) v' 0))) ∧
      s' = (put_if_match s mkey (to_json (taken m holder endpoint ttl now)) (Some v)).1 ∧ cas_inv s' ∧
      cas_view s' mkey = Some (to_json (taken m holder endpoint ttl now), v') ∧
      ∀ key, key ≠ mkey → cas_view s' key = cas_view s key
  end.
Proof.
  intros I V J N. pose proof (check_held_refusal m holder ttl now force N) as C.
  destruct N as (L1 & L2 & Ht & Hn & L3).
  assert (E : exec (alone s ms) (lease_take layout holder endpoint ttl now force) =
    match refusal m holder ttl now force with
    | Some e => (alone s ms, Some (Err e))
    | None => exec (alone s ms) (version ← swap mkey (taken m holder endpoint ttl now) v;
        mret (mkHeld holder (m_epoch m + 1) (default 0 (l_fence <$> m_lease m) + 1)
          (now + ttl) (taken m holder endpoint ttl now) version 0))
    end).
  { unfold lease_take. rewrite exec_bind. unfold get_ at 1. rewrite alone_get by done. rewrite V.
    cbn [exec map_err]. rewrite J. rewrite exec_bind. cbn [exec map_err]. rewrite exec_bind. cbn [exec].
    rewrite C. destruct (refusal m holder ttl now force); [done|].
    rewrite exec_bind. cbn [exec]. rewrite uadd_run by done. rewrite exec_bind. cbn [exec].
    rewrite uadd_run by done. rewrite exec_bind. cbn [exec].
    rewrite uadd_run by (unfold SKEW_GRACE_SECS in *; lia). done. }
  destruct (refusal m holder ttl now force); [done|].
  destruct (alone_put s ms mkey (to_json (taken m holder endpoint ttl now)) (Some v)
    (λ r, handle (Ret match r with Ok v => Ok v | Err (Conflict _) => Err Raced
                      | Err e => Err (LeaseStore e) | Panic => Panic end)
      (λ r, match r with
            | Ok version => mret (mkHeld holder (m_epoch m + 1) (default 0 (l_fence <$> m_lease m) + 1)
                (now + ttl) (taken m holder endpoint ttl now) version 0)
            | Err e => Ret (Err e) | Panic => Ret Panic end))) as (s' & v' & Es & I' & V' & O & Ex);
    [done|by rewrite V|].
  exists s', v'. split; [|done]. rewrite E. exact Ex.
Qed.

Lemma exec_reread_lost (s : S) ms old d v m :
  cas_inv s → cas_view s mkey = Some (d, v) → from_json d = Ok m → m_epoch m ≠ h_epoch old →
  exec (alone s ms) (reread_checking_ownership mkey old) =
  (alone s ms, Some (Err (Lost (default [] (l_holder <$> m_lease m)) (m_epoch m)))).
Proof.
  intros I V J N. unfold reread_checking_ownership. rewrite exec_bind. unfold get_. rewrite alone_get by done.
  rewrite V. cbn [exec map_err]. rewrite J, exec_bind. cbn [exec map_err].
  by rewrite (proj2 (Z.eqb_neq _ _)), andb_false_r by done.
Qed.

(** [old] was current at some point: its version pins its manifest, and
    the epoch has not gone back since. *)
Definition held_before (s : S) (old : HeldLease) (m : Manifest) : Prop :=
  cas_snap s mkey (to_json (h_manifest old)) (h_version old) ∧ readable (h_manifest old) ∧
  m_epoch (h_manifest old) = h_epoch old ∧ h_epoch old ≤ m_epoch m.

(** Turned away by the manifest [m], with the store as it was. *)
Definition lost {A} (s : S) (ms : Z) (m : Manifest) : world S * option (res LeaseError A) :=
  (alone s ms, Some (Err (Lost (default [] (l_holder <$> m_lease m)) (m_epoch m)))).

(** Whoever finds a newer epoch in the manifest is told so, whatever it
    tries, and writes nothing. *)
Lemma outdated_is_lost (s : S) ms old d v m ttl now mutate :
  cas_inv s → cas_view s mkey = Some (d, v) → from_json d = Ok m →
  held_before s old m → h_epoch old < m_epoch m → now + ttl < 2 ^ 64 →
  exec (alone s ms) (renew layout old ttl now) = lost s ms m ∧
  exec (alone s ms) (update_manifest layout old now mutate) = lost s ms m ∧
  exec (alone s ms) (release layout old) = lost s ms m.
Proof.
  intros I V J (Sn & R & Ee & _) L Lt.
  assert (RR := exec_reread_lost s ms old d v m I V J ltac:(lia)).
  assert (RB : exec (alone s ms) (renew_by_reading mkey old ttl now) = lost s ms m).
  { unfold renew_by_reading. by rewrite exec_bind, RR. }
  split_and!.
  - unfold renew. destruct (m_lease (h_manifest old)) as [l|]; [|done].
    rewrite exec_bind. cbn [exec]. rewrite uadd_run by done. rewrite exec_handle. unfold swap.
    rewrite alone_put_conflict; [exact RB|done|]. rewrite V. cbn. intros [= <-].
    assert (d = to_json (h_manifest old)) as -> by by eapply cas_snap_use; [exact I|exact Sn|exact V].
    rewrite readable_back in J by done. apply (inj Ok) in J. subst m. lia.
  - unfold update_manifest. by rewrite exec_bind, RR.
  - unfold release. by rewrite exec_bind, RR.
Qed.

(** A take fences the previous holder.  On any lawful store, a take
    ends as the table says, and a refused one writes nothing.  When it goes
    through, the epoch is one higher, and from then on every renewal, every
    manifest update and every release by the previous holder fails with
    [Lost], naming the new holder and epoch, and writes nothing. *)
Theorem take_fences (s : S) (ms : Z) (holder : bytes) (endpoint : option bytes) (ttl now : Z)
    (force : bool) (d : bytes) (v : Version) (m : Manifest) (old : HeldLease) :
  cas_inv s → cas_view s mkey = Some (d, v) → from_json d = Ok m → no_overflow m ttl now →
  held_before s old m →
  match exec (alone s ms) (lease_take layout holder endpoint ttl now force) with
  | (w, Some (Err e)) => refusal m holder ttl now force = Some e ∧ w = alone s ms
  | (w, Some (Ok new)) =>
      refusal m holder ttl now force = None ∧ h_epoch new = m_epoch m + 1 ∧
      ∀ ttl' now' mutate, now' + ttl' < 2 ^ 64 →
        exec w (renew layout old ttl' now') = (w, Some (Err (Lost holder (h_epoch new)))) ∧
        exec w (update_manifest layout old now' mutate) = (w, Some (Err (Lost holder (h_epoch new)))) ∧
        exec w (release layout old) = (w, Some (Err (Lost holder (h_epoch new))))
  | _ => False
  end.
Proof.
  intros I V J N (Sn & Ho & Ee & Le).
  pose proof (exec_take s ms holder endpoint ttl now force d v m I V J N) as T.
  destruct (refusal m holder ttl now force) as [e|]; [by rewrite T|].
  destruct T as (s' & v' & -> & Es & I' & V' & _). split_and!; [done..|]. intros ttl' now' mutate L.
  pose proof (from_json_readable _ _ J) as R.
  assert (Rt : readable (taken m holder endpoint ttl now)).
  { pose proof (readable_epoch m R) as Fe. destruct N as (L1 & L2 & Ht & Hn & L3).
    assert (Ff : 0 ≤ default 0 (l_fence <$> m_lease m)).
    { destruct (m_lease m) as [l|] eqn:El; [|done]. destruct (readable_fence m l R El) as (_ & [? _] & _). done. }
    apply readable_leased; [done| |unfold fits in *; lia].
    unfold lease_fits, fits, SKEW_GRACE_SECS in *. cbn [l_expires_unix l_fence l_ttl_secs opt_all]. lia. }
  refine (outdated_is_lost s' ms old _ v' (taken m holder endpoint ttl now) ttl' now' mutate
    I' V' (readable_back _ Rt) _ _ L); [|cbn; lia].
  split_and!; [|done|done|cbn; lia]. rewrite Es. by apply cas_snap_put.
Qed.
End fence.

(** ** Takeover returns *)
Section takeover.
Context {W : Type} `{ClockOk W} `{SerdeManifest}.

Lemma calm_take layout holder endpoint ttl now force :
  calm (lease_take layout holder endpoint ttl now force).
Proof.
  unfold lease_take. apply calm_bind; [done|]. intros [[d v]|]; [|done].
  by repeat (apply calm_bind; [done|intros ?]).
Qed.

(** A take that finds a running lease names an expiry still ahead. *)
Lemma take_held layout holder endpoint ttl now force (w w' : W) whose expires :
  exec w (lease_take layout holder endpoint ttl now force) = (w', Some (Err (Held whose expires))) →
  now < expires.
Proof.
  unfold lease_take. rewrite exec_bind. unfold get_. cbn [exec].
  destruct (on_get w (manifest_key layout)) as [w1 [[[d v]|]|e|]]; cbn [map_err exec]; try done.
  rewrite exec_bind. destruct (from_json d) as [m|e|]; cbn [map_err exec]; try done.
  rewrite exec_bind. cbn [exec]. destruct (check_held m holder ttl now force) as [[]|e|] eqn:C; try done; cycle 1.
  { intros [= _ ->]. unfold check_held in C. destruct force; [done|].
    destruct (m_lease m) as [l|]; [|done]. destruct (l_expires_unix l <=? now) eqn:X; [done|].
    destruct (bool_decide _); [done|]. cbn [negb andb] in C.
    destruct (@uadd_cases LeaseError now (default ttl (l_ttl_secs l) `max` ttl)) as [Eu|Eu]; rewrite Eu in C; [|done].
    cbn in C. match type of C with context [uadd ?a ?b] => destruct (@uadd_cases LeaseError a b) as [Ev|Ev]; rewrite Ev in C end;
      [|done]. cbn in C. destruct (_ <? _); [done|]. assert (l_expires_unix l = expires) by congruence. lia. }
  do 3 (rewrite exec_bind; cbn [exec]; match goal with |- context [uadd ?a ?b] =>
    destruct (@uadd_cases LeaseError a b) as [->| ->]; [|done] end).
  rewrite exec_bind. unfold swap. cbn [exec].
  destruct (on_put _ _ _ _) as [w2 [v'|e|]]; cbn; try done. by destruct e.
Qed.

Lemma spread_range holder : 0 < spread holder.
Proof. unfold spread. pose proof (Z.mod_pos_bound (foldl (λ acc b, Z.lxor (acc * 31 mod 256) (bval b)) 17 holder) 200). lia. Qed.

(** Every round that waits reads the clock at least a second later than
    the one before, and at most five rounds lose a race. *)
Lemma takeover_loop_returns fuel layout holder endpoint ttl deadline races (w : W) :
  0 ≤ races ≤ RACES →
  Z.max 0 (deadline - clock_ms w / 1000) + (RACES - races) < Z.of_nat fuel →
  (exec w (takeover_loop fuel layout holder endpoint ttl deadline races)).2 ≠ None.
Proof.
  revert races w. induction fuel as [|fuel IH]; intros races w Hr Hf; [unfold RACES in *; lia|].
  cbn [takeover_loop exec]. pose proof (clock_now w) as [N1 N2]. destruct (on_now w) as [w1 now]. cbn in N1, N2.
  rewrite exec_handle.
  destruct (calm_exec (lease_take layout holder endpoint ttl now false) w1) as (w2 & r & E & L2);
    [apply calm_take|]. rewrite E.
  assert (T1 : clock_ms w / 1000 ≤ clock_ms w1 / 1000) by (apply Z.div_le_mono; lia).
  assert (T2 : clock_ms w1 / 1000 ≤ clock_ms w2 / 1000) by (apply Z.div_le_mono; lia).
  pose proof (spread_range holder) as Sp.
  destruct r as [h|[key|whose expires|? ? ? ?| |? ?|?|?]|]; try (cbn; done).
  - apply take_held in E. destruct (deadline <=? expires) eqn:D; [done|]. cbn [exec].
    pose proof (clock_now w2) as [M1 M2]. destruct (on_now w2) as [w3 now3]. cbn in M1, M2. cbv zeta.
    rewrite exec_bind. cbn [exec]. destruct (@uadd_cases LeaseError (sat_sub expires now3 * 1000) (spread holder)) as [->| ->];
      [|done]. cbn [exec].
    set (ms := sat_sub expires now3 * 1000 + spread holder). apply IH; [done|].
    assert (Pm : 0 ≤ ms) by (unfold ms, sat_sub; lia). pose proof (clock_sleep w3 ms Pm) as C.
    assert (X : expires ≤ clock_ms (on_sleep w3 ms) / 1000).
    { apply Z.div_le_lower_bound; [lia|]. unfold ms, sat_sub in *.
      pose proof (Z.mod_pos_bound (clock_ms w3) 1000 ltac:(lia)). pose proof (Z.div_mod (clock_ms w3) 1000 ltac:(lia)). lia. }
    lia.
  - destruct (RACES <? races + 1) eqn:D; [done|]. cbn [exec]. apply IH; [lia|].
    pose proof (clock_sleep w2 (spread holder) ltac:(lia)) as C.
    assert (T3 : clock_ms w2 / 1000 ≤ clock_ms (on_sleep w2 (spread holder)) / 1000) by (apply Z.div_le_mono; lia).
    lia.
Qed.

(** A takeover returns.  Against any store, answering anything at any
    call, and any clock that does not run backwards and that sleeping
    advances, [takeover_with] ends after at most [limit] rounds of waiting
    and five lost races: that many rounds of its loop, and one more, are
    enough fuel. *)
Theorem takeover_returns (w : W) (fuel : nat) (layout : TenantLayout) (holder : bytes)
    (endpoint : option bytes) (ttl limit : Z) :
  0 ≤ limit → limit + RACES < Z.of_nat fuel →
  (exec w (takeover_with fuel layout holder endpoint ttl limit)).2 ≠ None.
Proof.
  intros Hl Hf. unfold takeover_with. cbn [exec]. pose proof (clock_now w) as [N1 N2].
  destruct (on_now w) as [w1 now]. cbn in N1, N2. rewrite exec_bind. cbn [exec].
  destruct (@uadd_cases LeaseError now limit) as [->| ->]; [|done].
  apply takeover_loop_returns; [unfold RACES; lia|]. lia.
Qed.
End takeover.

(** ** Concrete runs *)
Module LeaseWitness.
Import ManifestConcrete.
Definition layout : TenantLayout := layout_new (str "t1").
Definition m0 : Manifest := manifest_new (str "t1") 18.
Definition s0 : MemStore := (put_if_absent ms_new (manifest_key layout) (to_json m0)).1.
Lemma s0_inv : cas_inv s0.
Proof. exact (put_if_absent_inv ms_new _ _ ms_new_ok). Qed.

(** Two nodes race for the lease: [a] reads, [b] reads and swaps, [a]'s
    swap conflicts, [a] steals, and [b] renews too late. *)
Definition spawn (t : tag * prog LeaseError HeldLease) (y : sys (S:=MemStore)) : sys :=
  mkSys (y_store y) (y_threads y ++ [t]).
Definition tick (i : nat) (y : sys (S:=MemStore)) : sys :=
  match y_threads y !! i with
  | Some (t, p) => match call (y_store y) 0 p with
                   | Some (s', p') => mkSys s' (<[i := (t, p')]> (y_threads y))
                   | None => y
                   end
  | None => y
  end.
Definition can_tick (i : nat) (y : sys (S:=MemStore)) : bool :=
  match y_threads y !! i with Some (_, Ret _) | Some (_, Stuck) | None => false | _ => true end.
Lemma tick_step i y : can_tick i y = true → sys_step layout y (tick i y).
Proof.
  destruct y as [s l]. unfold tick, can_tick. cbn [y_threads y_store].
  destruct (l !! i) as [[t p]|] eqn:L; [|done]. intros C.
  destruct (call s 0 p) as [[s' p']|] eqn:E; [by eapply StepCall|].
  destruct p; try done. cbn in E. by destruct (ms_put_if_match _ _ _ _).
Qed.
Lemma tick_steps i y : rtc (sys_step layout) y (tick i y).
Proof.
  destruct y as [s l]. unfold tick. cbn [y_threads y_store]. destruct (l !! i) as [[t p]|] eqn:L; [|done].
  destruct (call s 0 p) as [[s' p']|] eqn:C; [|done]. by eapply rtc_once, StepCall.
Qed.
Definition y0 : sys := mkSys s0 [].
Definition take_a : tag * prog LeaseError HeldLease :=
  (Taking, lease_take layout (str "a") None 15 1000 false).
Definition take_b : tag * prog LeaseError HeldLease :=
  (Taking, lease_take layout (str "b") None 15 1000 false).
Definition steal_a : tag * prog LeaseError HeldLease :=
  (Taking, lease_take layout (str "a") None 15 1002 true).
Definition y1 : sys := tick 1 (tick 0 (spawn take_b (spawn take_a y0))).
(** [b] swapped, [a] lost the race, then stole. *)
Definition y2 : sys := tick 2 (tick 2 (spawn steal_a (tick 0 (tick 1 y1)))).

Lemma start_take_steps holder force now y :
  fits 8 now →
  rtc (sys_step layout) y (spawn (Taking, lease_take layout holder None 15 now force) y).
Proof. intros F. destruct y as [s l]. apply rtc_once, StepStart. constructor; [by vm_compute|done]. Qed.
Lemma y1_reachable : reachable layout m0 y1.
Proof.
  exists y0. split; [split; [apply s0_inv|split; [done|by vm_compute]]|].
  unfold y1. etrans; [apply (start_take_steps (str "a") false 1000); by vm_compute|].
  etrans; [apply (start_take_steps (str "b") false 1000); by vm_compute|].
  etrans; [apply (tick_steps 0)|]. apply (tick_steps 1).
Qed.
Lemma y2_reachable : reachable layout m0 y2.
Proof.
  destruct y1_reachable as (y & I & R). exists y. split; [done|]. etrans; [exact R|].
  unfold y2. etrans; [apply (tick_steps 1)|]. etrans; [apply (tick_steps 0)|].
  etrans; [apply (start_take_steps (str "a") true 1002); by vm_compute|].
  etrans; [apply (tick_steps 2)|]. apply (tick_steps 2).
Qed.

(** The lease a finished thread returned. *)
Definition held_of (i : nat) (y : sys (S:=MemStore)) : option HeldLease :=
  match y_threads y !! i with Some (_, Ret (Ok h)) => Some h | _ => None end.
Definition no_lease : HeldLease := mkHeld [] 0 0 0 m0 [] 0.
Definition hb : HeldLease := default no_lease (held_of 1 y2).
Definition ha : HeldLease := default no_lease (held_of 2 y2).

Lemma one_writer_witness :
  ∃ m m', current layout (y_store y1) = Some m ∧ current layout (y_store (tick 1 y1)) = Some m' ∧
    m_epoch m' = m_epoch m + 1 ∧ justified (y_threads y1) m m'.
Proof.
  destruct (one_writer layout m0 y1 (tick 1 y1)) as (m & m' & C & C' & J); [exact y1_reachable| |].
  - apply tick_step. by vm_compute.
  - exists m, m'. split_and!; [done|done| |done].
    assert (Em : m_epoch <$> current layout (y_store y1) = Some 0) by by vm_compute.
    assert (Em' : m_epoch <$> current layout (y_store (tick 1 y1)) = Some 1) by by vm_compute.
    rewrite C in Em. rewrite C' in Em'. injection Em as Em. injection Em' as Em'. by rewrite Em, Em'.
Defined.

Lemma epochs_unique_witness :
  h_epoch hb ≠ h_epoch ha ∧ h_epoch hb = 1 ∧ h_epoch ha = 2.
Proof.
  split; [|by vm_compute].
  apply (epochs_unique layout m0 y2 1 2 hb ha); [exact y2_reachable|by vm_compute|by vm_compute|done].
Defined.

(** The store once [b] holds the lease. *)
Definition sb : MemStore := y_store (tick 1 y1).
Lemma sb_inv : cas_inv sb.
Proof.
  destruct y1_reachable as (y & I & R). assert (R' : reachable layout m0 (tick 1 y1)).
  { exists y. split; [done|]. etrans; [exact R|apply tick_steps]. }
  destruct (reachable_inv layout m0 _ R') as (G & gs & m & Si). apply (si_store _ _ _ _ _ _ Si).
Qed.
Lemma hb_readable : readable (h_manifest hb).
Proof. apply (bool_decide_unpack _). by vm_compute. Qed.
Lemma hb_current : cas_view sb (manifest_key layout) = Some (to_json (h_manifest hb), h_version hb).
Proof. by vm_compute. Qed.

Lemma take_fences_witness :
  ∃ w, exec w (renew layout hb 15 1003) = (w, Some (Err (Lost (str "a") 2))) ∧
       exec w (release layout hb) = (w, Some (Err (Lost (str "a") 2))).
Proof.
  pose proof (take_fences layout sb 0 (str "a") None 15 1002 true _ _ _ hb sb_inv hb_current
    (readable_back _ hb_readable)) as T.
  destruct (exec (alone sb 0) (lease_take layout (str "a") None 15 1002 true)) as [w r].
  destruct r as [[new|e|]|].
  - destruct T as (_ & En & T).
    + apply (bool_decide_unpack _). by vm_compute.
    + split_and!; [apply cas_snap_get; [apply sb_inv|apply hb_current]|apply hb_readable|by vm_compute|by vm_compute].
    + assert (E2 : m_epoch (h_manifest hb) = 1) by by vm_compute.
      destruct (T 15 1003 id ltac:(lia)) as (T1 & _ & T3).
      rewrite En, E2 in T1, T3. exists w. split; [exact T1|exact T3].
  - destruct T as [T _]; [apply (bool_decide_unpack _); by vm_compute| |by vm_compute in T].
    split_and!; [apply cas_snap_get; [apply sb_inv|apply hb_current]|apply hb_readable|by vm_compute|by vm_compute].
  - destruct T; [apply (bool_decide_unpack _); by vm_compute|].
    split_and!; [apply cas_snap_get; [apply sb_inv|apply hb_current]|apply hb_readable|by vm_compute|by vm_compute].
  - destruct T; [apply (bool_decide_unpack _); by vm_compute|].
    split_and!; [apply cas_snap_get; [apply sb_inv|apply hb_current]|apply hb_readable|by vm_compute|by vm_compute].
Defined.

(** [b] died at 1000; [a] waits out the lease and takes it. *)
Lemma takeover_returns_witness :
  (exec (alone sb 1001000) (takeover_with 36 layout (str "a") None 15 30)).2 ≠ None.
Proof. apply takeover_returns; [done|by vm_compute]. Defined.
Example takeover_waits :
  match exec (alone sb 1001000) (takeover_with 36 layout (str "a") None 15 30) with
  | (w, Some (Ok h)) => (h_epoch h, w_ms w / 1000) | _ => (0, 0)
  end = (2, 1015).
Proof. by vm_compute. Qed.

(** A release drops the lease and the fence with it: the next holder gets
    the same fence again, and only the epoch tells the two apart. *)
Example fence_restarts :
  match exec (alone sb 0) (release layout hb) with
  | (w, Some (Ok ())) => match (exec w (acquire layout (str "c") 15 1004)).2 with
                         | Some (Ok h) => (h_fence hb, h_fence h, h_epoch hb, h_epoch h) | _ => (0, 0, 0, 0) end
  | _ => (0, 0, 0, 0)
  end = (1, 1, 1, 2).
Proof. by vm_compute. Qed.
End LeaseWitness.
