(* ===== verification/Heartbeat.v ===== *)
(** * Heartbeat: background renewal (crates/zou-store/src/heartbeat.rs)

    The renewal thread, one wakeup after another: how long it sleeps, when
    it backs off, what it renews and when it gives up.  The naps it takes
    are inputs, bounded by what the condition variable promises.  On a
    store at rest the lease never lapses; a run at the end shows a retry
    that comes too late. *)
From S2P Require Import Prelude Order Text Lsn Externals Bloom LayerKey Layer LayerMap Cas Layout Prog Manifest Lease LeaseProofs LeaseFence.

Definition QUIET_RENEWALS : Z := 3.
(** [cadence]: a third of the TTL and the spread around it, in milliseconds. *)
Definition cadence (ttl_secs : Z) : Z * Z :=
  let base_ms := Z.max (Z.min (ttl_secs * 1000) u64_max / 3) 1 in
  (base_ms, Z.max (base_ms / 5) 1).

(** ** Jitter: xorshift64 *)
Definition jitter_new (seed : Z) : Z := Z.lor seed 1.
Definition shl64 (x n : Z) : Z := Z.land (Z.shiftl x n) u64_max.
Definition jitter_next (state : Z) : Z :=
  let x := Z.lxor state (shl64 state 13) in
  let x := Z.lxor x (Z.shiftr x 7) in
  Z.lxor x (shl64 x 17).
(** [jittered], with the state it leaves. *)
Definition jittered (base spread rng : Z) : Z * Z :=
  let x := jitter_next rng in (sat_sub base spread + x mod (2 * spread + 1), x).
(** [rotate_left(8)], and the seed [start] takes from the lease. *)
Definition rotate_left8 (x : Z) : Z := Z.lor (shl64 x 8) (Z.shiftr x 56).
Definition hb_seed (held : HeldLease) : Z :=
  foldl (λ acc b, Z.lxor (rotate_left8 acc) (bval b)) (h_fence held) (h_holder held).

(** ** State *)
Record HbShared := mkShared { hs_stop : bool; hs_lost : bool; hs_error : option LeaseError; hs_worked : bool }.
Definition shared_new : HbShared := mkShared false false None false.
Record Ttls := mkTtls { tt_busy : Z; tt_idle : Z }.
(** The locals of [run]. *)
Record Beat := mkBeat { b_ttl : Z; b_wait : Z; b_quiet : Z; b_rng : Z }.
Inductive Thread := Running (b : Beat) | Ended.
(** The TTLs of [start], and the head of [run]. *)
Definition hb_ttls (ttl_secs idle_ttl_secs : Z) : Ttls := mkTtls ttl_secs (Z.max idle_ttl_secs ttl_secs).
Definition hb_start (ttls : Ttls) (held : HeldLease) : Beat :=
  let '(base_ms, spread_ms) := cadence (tt_busy ttls) in
  let '(wait_ms, rng) := jittered base_ms spread_ms (jitter_new (hb_seed held)) in
  mkBeat (tt_busy ttls) wait_ms 0 rng.
(** [working], [stop_and_join] as far as the thread sees it, [fail] *)
Definition hb_working (sh : HbShared) : HbShared :=
  if hs_worked sh then sh else mkShared (hs_stop sh) (hs_lost sh) (hs_error sh) true.
Definition hb_stop (sh : HbShared) : HbShared := mkShared true (hs_lost sh) (hs_error sh) (hs_worked sh).
Definition hb_fail (sh : HbShared) (e : LeaseError) : HbShared := mkShared (hs_stop sh) true (Some e) (hs_worked sh).
(** The end of [wait_timeout_while]: stopped, a write during a long sleep,
    or time. *)
Definition sleeping_idle (ttls : Ttls) (b : Beat) : bool := tt_busy ttls <? b_ttl b.
Definition wakes (ttls : Ttls) (sh : HbShared) (b : Beat) (slept : Z) : bool :=
  hs_stop sh || (sleeping_idle ttls b && hs_worked sh) || (b_wait b <=? slept).

(** ** The loop *)
Section heartbeat.
Context `{SerdeManifest}.
Variable layout : TenantLayout.
(** The body of the loop of [run] after a sleep; [alive] is what the check
    answered, if there is one. *)
Definition beat (ttls : Ttls) (alive : option bool) (sh : HbShared) (b : Beat) (held : HeldLease) :
    prog LeaseError (HbShared * Thread * HeldLease) :=
  if hs_stop sh then mret (sh, Ended, held)
  else if bool_decide (alive = Some false) then mret (sh, Ended, held)
  else
    let quiet := if hs_worked sh then 0 else Z.min (b_quiet b + 1) u32_max in
    let sh := mkShared (hs_stop sh) (hs_lost sh) (hs_error sh) false in
    let ttl_secs := if QUIET_RENEWALS <=? quiet then tt_idle ttls else tt_busy ttls in
    let '(base_ms, spread_ms) := cadence ttl_secs in
    Now (λ now,
    handle (renew layout held ttl_secs now) (λ r,
      match r with
      | Ok held =>
          let '(wait_ms, rng) := jittered base_ms spread_ms (b_rng b) in
          mret (sh, Running (mkBeat ttl_secs wait_ms quiet rng), held)
      | Err (Lost whose epoch) => mret (hb_fail sh (Lost whose epoch), Ended, held)
      | Err e =>
          Now (λ now,
          if h_expires_unix held <=? now then mret (hb_fail sh e, Ended, held)
          else mret (sh, Running (mkBeat ttl_secs (Z.max (base_ms / 4) 10) quiet (b_rng b)), held))
      | Panic => Ret Panic
      end)).
(** One nap: how long it took, whether somebody wrote meanwhile, and what
    the check says after it. *)
Record Nap := mkNap { nap_ms : Z; nap_worked : bool; nap_alive : option bool }.
Definition worked_in (n : Nap) (sh : HbShared) : HbShared := if nap_worked n then hb_working sh else sh.
(** [run], one nap after the other for as long as it goes on. *)
Fixpoint beats (ttls : Ttls) (naps : list Nap) (sh : HbShared) (b : Beat) (held : HeldLease) :
    prog LeaseError (HbShared * Thread * HeldLease) :=
  match naps with
  | [] => mret (sh, Running b, held)
  | n :: naps =>
      Sleep (nap_ms n)
        (next ← beat ttls (nap_alive n) (worked_in n sh) b held;
         match next with
         | (sh, Running b, held) => beats ttls naps sh b held
         | ended => mret ended
         end)
  end.
(** [detach], once the thread has joined. *)
Definition hb_detach (sh : HbShared) (held : HeldLease) : prog LeaseError () :=
  match hs_error sh with Some e => Ret (Err e) | None => release layout held end.
End heartbeat.

(** ** How long it waits *)
Lemma jittered_range base spread rng :
  1 ≤ spread ≤ base → base - spread ≤ (jittered base spread rng).1 ≤ base + spread.
Proof.
  intros L. unfold jittered, sat_sub. cbn [fst]. pose proof (Z.mod_pos_bound (jitter_next rng) (2 * spread + 1) ltac:(lia)). lia.
Qed.
(** Two fifths of the TTL at most. *)
Lemma wait_short ttl rng : 2 ≤ ttl → 0 ≤ (jittered (cadence ttl).1 (cadence ttl).2 rng).1 ≤ 400 * ttl.
Proof.
  intros L. assert (B : 666 ≤ (cadence ttl).1 ∧ 3 * (cadence ttl).1 ≤ 1000 * ttl).
  { cbn [cadence fst]. unfold u64_max. assert (2000 ≤ Z.min (ttl * 1000) (2 ^ 64 - 1)) by lia.
    pose proof (Z.div_mod (Z.min (ttl * 1000) (2 ^ 64 - 1)) 3 ltac:(lia)). pose proof (Z.mod_pos_bound (Z.min (ttl * 1000) (2 ^ 64 - 1)) 3 ltac:(lia)). lia. }
  assert (Sp : 1 ≤ (cadence ttl).2 ∧ 5 * (cadence ttl).2 ≤ (cadence ttl).1).
  { cbn [cadence fst snd] in *. set (base := Z.max (Z.min (ttl * 1000) u64_max / 3) 1) in *.
    pose proof (Z.div_mod base 5 ltac:(lia)). pose proof (Z.mod_pos_bound base 5 ltac:(lia)). lia. }
  pose proof (jittered_range (cadence ttl).1 (cadence ttl).2 rng). lia.
Qed.

(** ** What a renewal that lands leaves *)
Definition beat_next (ttls : Ttls) (worked : bool) (b : Beat) : Beat :=
  let quiet := if worked then 0 else Z.min (b_quiet b + 1) u32_max in
  let ttl_secs := if QUIET_RENEWALS <=? quiet then tt_idle ttls else tt_busy ttls in
  let '(wait_ms, rng) := jittered (cadence ttl_secs).1 (cadence ttl_secs).2 (b_rng b) in
  mkBeat ttl_secs wait_ms quiet rng.
Definition after_naps (ttls : Ttls) (naps : list Nap) (b : Beat) : Beat := foldl (λ b n, beat_next ttls (nap_worked n) b) b naps.
(** Each nap is over [late] after it was due, and the node is there. *)
Fixpoint timely (ttls : Ttls) (late : Z) (naps : list Nap) (b : Beat) : Prop :=
  match naps with
  | [] => True
  | n :: naps => 0 ≤ nap_ms n ≤ b_wait b + late ∧ nap_alive n ≠ Some false ∧ timely ttls late naps (beat_next ttls (nap_worked n) b)
  end.
Definition slept (naps : list Nap) : Z := foldr (λ n t, nap_ms n + t) 0 naps.
(** Renewals in a row without a write. *)
Definition quiet_run (naps : list Nap) : Z := foldl (λ q n, if nap_worked n : bool then 0 else q + 1) 0 naps.
Lemma quiet_run_pos naps : 0 ≤ quiet_run naps.
Proof.
  induction naps as [|n naps IH] using rev_ind; [done|]. unfold quiet_run in *. rewrite foldl_app. cbn. destruct (nap_worked n); lia.
Qed.
Lemma quiet_counted ttls naps b : b_quiet b = 0 → b_quiet (after_naps ttls naps b) = Z.min (quiet_run naps) u32_max.
Proof.
  intros B0. induction naps as [|n naps IH] using rev_ind; [done|]. pose proof (quiet_run_pos naps).
  unfold after_naps, quiet_run in *. rewrite !foldl_app. cbn [foldl]. unfold beat_next at 1.
  match goal with |- context [jittered ?x ?y ?z] => destruct (jittered x y z) end. cbn [b_quiet]. rewrite IH.
  destruct (nap_worked n); unfold u32_max in *; lia.
Qed.
Definition ttl_for (ttls : Ttls) (quiet : Z) : Z := if QUIET_RENEWALS <=? quiet then tt_idle ttls else tt_busy ttls.
Lemma next_ttl ttls worked b : b_ttl (beat_next ttls worked b) = ttl_for ttls (b_quiet (beat_next ttls worked b)).
Proof. unfold beat_next. match goal with |- context [jittered ?x ?y ?z] => by destruct (jittered x y z) end. Qed.
Lemma ttl_chosen ttls naps b :
  b_quiet b = 0 → b_ttl b = tt_busy ttls → b_ttl (after_naps ttls naps b) = ttl_for ttls (quiet_run naps).
Proof.
  intros B0 Bt. transitivity (ttl_for ttls (b_quiet (after_naps ttls naps b))).
  - destruct naps as [|n naps _] using rev_ind; [cbn; by rewrite B0, Bt|]. unfold after_naps. rewrite foldl_app. apply next_ttl.
  - rewrite quiet_counted by done. pose proof (quiet_run_pos naps). unfold ttl_for, QUIET_RENEWALS, u32_max.
    destruct (3 <=? quiet_run naps) eqn:A; destruct (3 <=? Z.min _ _) eqn:B; try done; lia.
Qed.

(** ** On a store at rest *)
Section rest.
Context {S : Type} `{CasSnap S} `{SerdeManifestOk}.
Variable layout : TenantLayout.
Abbreviation mkey := (manifest_key layout).
Implicit Types s : S.
(** The lease of [l] in the manifest [m] is the one [held] speaks of. *)
Definition leased (held : HeldLease) (ttl : Z) : Prop :=
  ∃ endpoint, m_lease (h_manifest held) = Some (mkLease (h_holder held) (h_expires_unix held) (h_fence held) endpoint (Some ttl)).
Definition holding s (held : HeldLease) (ttl : Z) : Prop :=
  cas_inv s ∧ cas_view s mkey = Some (to_json (h_manifest held), h_version held) ∧ readable (h_manifest held) ∧
  m_epoch (h_manifest held) = h_epoch held ∧ leased held ttl.
Definition same_tenure (held held' : HeldLease) : Prop :=
  h_holder held' = h_holder held ∧ h_fence held' = h_fence held ∧ h_epoch held' = h_epoch held.
Definition untouched_but s s' : Prop := ∀ key, key ≠ mkey → cas_view s' key = cas_view s key.

Lemma renew_alone s ms held ttl0 ttl now :
  holding s held ttl0 → 0 ≤ ttl → 0 ≤ now → now + ttl < 2 ^ 64 →
  ∃ s' held', exec (alone s ms) (renew layout held ttl now) = (alone s' ms, Some (Ok held')) ∧
    holding s' held' ttl ∧ same_tenure held held' ∧ h_expires_unix held' = now + ttl ∧ untouched_but s s'.
Proof.
  intros (I & V & R & Ep & endpoint & El) Lt Ln L. unfold renew. rewrite El.
  set (m := with_lease (Some (extend (now + ttl) ttl (mkLease (h_holder held) (h_expires_unix held) (h_fence held) endpoint (Some ttl0)))) (h_manifest held)).
  rewrite exec_bind. cbn [exec]. rewrite uadd_run by done. fold m. rewrite exec_handle. unfold swap.
  match goal with |- context [Put _ _ _ ?k] =>
    destruct (alone_put s ms mkey (to_json m) (Some (h_version held)) k) as (s' & v & _ & I' & V' & O & X); [done|by rewrite V|] end.
  exists s', (renewed held v (now + ttl) m). rewrite X. split; [done|]. split; [|done].
  split; [done|]. split; [done|]. split; [|split; [done|by exists endpoint]]. apply (readable_extend _ _ now); [done|done| | |done|done].
  - change (0 ≤ ttl < 2 ^ 64). lia.
  - change (0 ≤ now < 2 ^ 64). lia.
Qed.
Lemma release_alone s ms held ttl : holding s held ttl →
  ∃ s' v, exec (alone s ms) (release layout held) = (alone s' ms, Some (Ok ())) ∧ cas_inv s' ∧
    cas_view s' mkey = Some (to_json (with_lease None (h_manifest held)), v).
Proof.
  intros (I & V & R & Ep & endpoint & El). unfold release. rewrite exec_bind.
  assert (RR : exec (alone s ms) (reread_checking_ownership mkey held) = (alone s ms, Some (Ok (h_manifest held, h_version held)))).
  { unfold reread_checking_ownership. rewrite exec_bind. unfold get_. rewrite alone_get by done. rewrite V. cbn [exec map_err].
    rewrite readable_back by done. rewrite exec_bind. cbn [exec map_err]. rewrite El, Ep. cbn [l_holder l_fence].
    by rewrite bool_decide_true, !Z.eqb_refl by done. }
  rewrite RR. rewrite exec_bind. unfold swap.
  match goal with |- context [Put _ _ _ ?k] =>
    destruct (alone_put s ms mkey (to_json (with_lease None (h_manifest held))) (Some (h_version held)) k) as (s' & v & _ & I' & V' & O & X); [done|by rewrite V|] end.
  exists s', v. by rewrite X.
Qed.

Lemma beat_alone s ms ttls n b held ttl0 :
  holding s held ttl0 → nap_alive n ≠ Some false → 0 ≤ tt_busy ttls ≤ tt_idle ttls → 0 ≤ ms → ms / 1000 + tt_idle ttls < 2 ^ 64 →
  let b' := beat_next ttls (nap_worked n) b in
  ∃ s' held', exec (alone s ms) (beat layout ttls (nap_alive n) (worked_in n shared_new) b held) =
      (alone s' ms, Some (Ok (shared_new, Running b', held'))) ∧
    holding s' held' (b_ttl b') ∧ same_tenure held held' ∧ h_expires_unix held' = ms / 1000 + b_ttl b' ∧ untouched_but s s'.
Proof.
  intros Hh Al Lt Lm L. cbv zeta. assert (Ln : 0 ≤ ms / 1000) by (apply Z.div_pos; lia).
  assert (Sh : hs_stop (worked_in n shared_new) = false ∧ hs_worked (worked_in n shared_new) = nap_worked n ∧
    mkShared false (hs_lost (worked_in n shared_new)) (hs_error (worked_in n shared_new)) false = shared_new).
  { unfold worked_in. by destruct (nap_worked n). }
  destruct Sh as (S1 & S2 & S3). unfold beat. rewrite S1, S2, S3, bool_decide_false by done. rewrite next_ttl.
  set (ttl := ttl_for ttls (b_quiet (beat_next ttls (nap_worked n) b))).
  assert (Et : (if QUIET_RENEWALS <=? (if nap_worked n then 0 else Z.min (b_quiet b + 1) u32_max) then tt_idle ttls else tt_busy ttls) = ttl).
  { unfold ttl, beat_next. match goal with |- context [jittered ?x ?y ?z] => by destruct (jittered x y z) end. }
  rewrite Et. assert (0 ≤ ttl ≤ tt_idle ttls) by (unfold ttl, ttl_for; destruct (_ <=? _); lia).
  destruct (renew_alone s ms held ttl0 ttl (ms / 1000) Hh) as (s' & held' & X & Hh' & Tn & Ex & U); [lia..|].
  exists s', held'. split; [|done]. rewrite (surjective_pairing (cadence ttl)). cbn [exec on_now world_handler w_ms alone]. rewrite exec_handle.
  change (mkWorld s ms []) with (alone s ms). rewrite X. unfold beat_next. rewrite Et.
  match goal with |- context [jittered ?x ?y ?z] => by destruct (jittered x y z) end.
Qed.

(** Before the naps that follow, the lease was written with the TTL the
    wait was drawn for. *)
Definition in_step (ttls : Ttls) (b : Beat) (held : HeldLease) (ms : Z) : Prop :=
  tt_busy ttls ≤ b_ttl b ∧ 0 ≤ b_wait b ≤ 400 * b_ttl b ∧ h_expires_unix held = ms / 1000 + b_ttl b.
Lemma next_in_step ttls worked b held ms :
  2 ≤ tt_busy ttls ≤ tt_idle ttls → h_expires_unix held = ms / 1000 + b_ttl (beat_next ttls worked b) →
  in_step ttls (beat_next ttls worked b) held ms.
Proof.
  intros Lt Ex. split; [|split; [|done]].
  - rewrite next_ttl. unfold ttl_for. destruct (_ <=? _); lia.
  - unfold beat_next. set (ttl := if QUIET_RENEWALS <=? _ then _ else _). pose proof (wait_short ttl (b_rng b)) as W.
    destruct (jittered _ _ _). cbn [b_wait b_ttl fst] in *. apply W. unfold ttl. destruct (_ <=? _); lia.
Qed.
(** Whoever is in step still holds the lease when the nap is over. *)
Lemma in_step_holds ttls b held ms late d :
  2 ≤ tt_busy ttls → in_step ttls b held ms → late ≤ 600 * tt_busy ttls - 1000 → 0 ≤ d ≤ b_wait b + late →
  (ms + d) / 1000 < h_expires_unix held.
Proof.
  intros Lb (Lt & Lw & ->) Ll Ld. apply Z.div_lt_upper_bound; [lia|].
  pose proof (Z.div_mod ms 1000 ltac:(lia)). pose proof (Z.mod_pos_bound ms 1000 ltac:(lia)). lia.
Qed.
Lemma slept_pos ttls late naps b : timely ttls late naps b → 0 ≤ slept naps.
Proof. revert b. induction naps as [|n naps IH]; intros b; [done|]. cbn. intros (? & _ & T). specialize (IH _ T). unfold slept in IH. lia. Qed.
Lemma beats_run ttls late naps : 2 ≤ tt_busy ttls ≤ tt_idle ttls → ∀ s ms b held,
  0 ≤ ms → (ms + slept naps) / 1000 + tt_idle ttls < 2 ^ 64 → timely ttls late naps b →
  holding s held (b_ttl b) → in_step ttls b held ms →
  let b' := after_naps ttls naps b in let ms' := ms + slept naps in
  ∃ s' held', exec (alone s ms) (beats layout ttls naps shared_new b held) = (alone s' ms', Some (Ok (shared_new, Running b', held'))) ∧
    holding s' held' (b_ttl b') ∧ in_step ttls b' held' ms' ∧ same_tenure held held' ∧ untouched_but s s'.
Proof.
  intros Lt. induction naps as [|n naps IH]; intros s ms b held Lm L T Hh St; cbv zeta.
  - exists s, held. change (slept []) with 0. rewrite Z.add_0_r. done.
  - destruct T as (Ln & Al & T). cbn [beats exec on_sleep world_handler w_store w_ms w_env alone].
    change (mkWorld s (ms + nap_ms n) []) with (alone s (ms + nap_ms n)).
    pose proof (slept_pos _ _ _ _ T) as Sp. change (slept (n :: naps)) with (nap_ms n + slept naps) in *. rewrite Z.add_assoc in L |- *.
    assert ((ms + nap_ms n) / 1000 ≤ (ms + nap_ms n + slept naps) / 1000) by (apply Z.div_le_mono; lia).
    destruct (beat_alone s (ms + nap_ms n) ttls n b held (b_ttl b) Hh Al) as (s1 & held1 & X & Hh1 & Tn1 & Ex1 & U1); [lia..|].
    rewrite exec_bind, X. destruct (IH s1 (ms + nap_ms n) (beat_next ttls (nap_worked n) b) held1) as (s' & held' & Y & Hh' & St' & Tn' & U');
      [lia|done|done|done|by apply next_in_step|].
    exists s', held'. split; [exact Y|]. split; [exact Hh'|]. split; [exact St'|]. split.
    + destruct Tn1 as (? & ? & ?), Tn' as (? & ? & ?). split_and!; congruence.
    + intros key N. by rewrite U', U1.
Qed.
End rest.

(** C4: a heartbeat on a store nobody else writes, started with a fresh
    lease: however its naps are cut short by writes or overslept by up to
    three fifths of the TTL less a second, the lease in the manifest has not
    run out at any moment of a nap; holder, fence and epoch stay; it was
    written with the long TTL exactly after three renewals in a row without
    a write; and [detach] then clears it. *)
Theorem heartbeat_keeps_lease {S} `{CasSnap S} `{SerdeManifestOk} (layout : TenantLayout) (ttls : Ttls) (naps : list Nap) (held : HeldLease)
    (s : S) (ms late : Z) :
  2 ≤ tt_busy ttls ≤ tt_idle ttls → late ≤ 600 * tt_busy ttls - 1000 → 0 ≤ ms → (ms + slept naps) / 1000 + tt_idle ttls < 2 ^ 64 →
  holding layout s held (tt_busy ttls) → h_expires_unix held = ms / 1000 + tt_busy ttls → timely ttls late naps (hb_start ttls held) →
  let ms' := ms + slept naps in
  ∃ s' b held', exec (alone s ms) (beats layout ttls naps shared_new (hb_start ttls held) held) =
      (alone s' ms', Some (Ok (shared_new, Running b, held'))) ∧
    (∀ d, 0 ≤ d ≤ b_wait b + late → (ms' + d) / 1000 < h_expires_unix held') ∧
    holding layout s' held' (if QUIET_RENEWALS <=? quiet_run naps then tt_idle ttls else tt_busy ttls) ∧ same_tenure held held' ∧ untouched_but layout s s' ∧
    ∃ s2 v, exec (alone s' ms') (hb_detach layout (hb_stop shared_new) held') = (alone s2 ms', Some (Ok ())) ∧
      cas_view s2 (manifest_key layout) = Some (to_json (with_lease None (h_manifest held')), v).
Proof.
  intros Lt Ll Lm L Hh Ex T. cbv zeta.
  assert (B : b_quiet (hb_start ttls held) = 0 ∧ b_ttl (hb_start ttls held) = tt_busy ttls ∧ in_step ttls (hb_start ttls held) held ms).
  { unfold hb_start, in_step. rewrite (surjective_pairing (cadence (tt_busy ttls))).
    pose proof (wait_short (tt_busy ttls) (jitter_new (hb_seed held)) ltac:(lia)). destruct (jittered _ _ _). cbn in *. lia. }
  destruct B as (B0 & Bt & St). pose proof (ttl_chosen ttls naps _ B0 Bt) as Tc.
  destruct (beats_run layout ttls late naps Lt s ms (hb_start ttls held) held Lm L T) as (s' & held' & X & Hh' & St' & Tn & U); [by rewrite Bt|done|].
  exists s', (after_naps ttls naps (hb_start ttls held)), held'. split; [exact X|]. split; [intros d Ld; eapply in_step_holds; [|exact St'|exact Ll|exact Ld]; lia|].
  rewrite Tc in Hh'. split; [exact Hh'|]. split; [exact Tn|]. split; [exact U|].
  destruct (release_alone layout s' (ms + slept naps) held' _ Hh') as (s2 & v & Y & _ & V2). by exists s2, v.
Qed.

(** ** Concrete runs *)
Module HeartbeatWitness.
Import ManifestConcrete LeaseWitness.
Definition ttls : Ttls := hb_ttls 15 300.
Definition quiet (ms : Z) : Nap := mkNap ms false (Some true).
Definition naps : list Nap := [quiet 5000; quiet 5000; quiet 5000; mkNap 90000 true None; quiet 4500].
Definition ms0 : Z := (h_expires_unix hb - 15) * 1000.
Lemma hb_holding : holding layout sb hb 15.
Proof.
  split; [apply sb_inv|]. split; [apply hb_current|]. split; [apply hb_readable|]. split; [by vm_compute|]. exists None. by vm_compute.
Qed.
Lemma heartbeat_keeps_lease_witness :
  ∃ s' b held', exec (alone sb ms0) (beats layout ttls naps shared_new (hb_start ttls hb) hb) =
      (alone s' (ms0 + 109500), Some (Ok (shared_new, Running b, held'))) ∧
    (∀ d, 0 ≤ d ≤ b_wait b + 2000 → (ms0 + 109500 + d) / 1000 < h_expires_unix held') ∧ holding layout s' held' 15.
Proof.
  destruct (heartbeat_keeps_lease layout ttls naps hb sb ms0 2000) as (s' & b & held' & X & Sf & Hh & _).
  - by vm_compute.
  - by vm_compute.
  - by vm_compute.
  - by vm_compute.
  - apply hb_holding.
  - by vm_compute.
  - vm_compute. intuition congruence.
  - exists s', b, held'. split; [exact X|]. split; [exact Sf|exact Hh].
Defined.

(** The third quiet renewal loses both its swaps to somebody else's edit.
    The retry is scheduled by the long TTL it was about to write, and the
    short one that is in the manifest runs out long before: another node
    takes the lease while this one sleeps. *)
Definition bump (s : MemStore) : MemStore :=
  match cas_get s (manifest_key layout) with Ok (Some (d, _)) => (cas_put [] s (manifest_key layout) d).1 | _ => s end.
Definition lapse : world MemStore * option (res LeaseError (HbShared * Thread * HeldLease)) :=
  exec (mkWorld sb ms0 [id; id; bump; id; bump]) (beats layout ttls [quiet 5000; quiet 5000; quiet 5000] shared_new (hb_start ttls hb) hb).
Definition other : option (res LeaseError HeldLease) :=
  (exec (alone (w_store lapse.1) (w_ms lapse.1 + 12000)) (lease_take layout (str "a") None 15 (ms0 / 1000 + 27) false)).2.
Example retry_too_late :
  match lapse.2 with
  | Some (Ok (sh, Running b, held)) =>
      hs_lost sh = false ∧ b_wait b = 25000 ∧ h_expires_unix held = ms0 / 1000 + 25 ∧ w_ms lapse.1 = ms0 + 15000 ∧
      wakes ttls sh b 24999 = false
  | _ => False
  end ∧ match other with Some (Ok held) => h_holder held = str "a" | _ => False end.
Proof. vm_compute. by repeat split. Qed.
End HeartbeatWitness.
