(* ===== verification/ShardManifest.v ===== *)
(** * ShardManifest: which layers a shard serves
    (crates/zou-store/src/shardmanifest.rs)

    The shard's one mutable document and the loops that change it.  Each
    loop reads, edits and swaps, and starts over when somebody else got in
    between; the loops are trees of store calls with a bound on the rounds. *)
From S2P Require Import Prelude Order Text Lsn Externals Bloom LayerKey Layer LayerMap Cas Prog Manifest.

Definition PAGE_SHARD_FORMAT : Z := 2.

Inductive PageShardError :=
  | ShardFormatTooNew (found : Z)
  | ShardJson
  | ShardStore (e : CasError)
  | ShardName (e : LayerNameError)
  | ShardMap (e : LayerMapError).

Record LayerEntry := mkEntry {
  le_name : bytes; le_size : Z; le_owner : option bytes; le_upto : option Lsn
}.
#[global] Instance LayerEntry_eq_dec : EqDecision LayerEntry.
Proof. solve_decision. Defined.

Record PageShardManifest := mkShard {
  sm_format : Z;
  sm_shard : Z;
  sm_disk_consistent_lsn : Lsn;
  sm_layers : list LayerEntry;
  sm_covers : option Z;
  sm_horizon : option Lsn
}.
#[global] Instance PageShardManifest_eq_dec : EqDecision PageShardManifest.
Proof. solve_decision. Defined.

(** [PageShardManifest::new] *)
Definition shard_new (shard : Z) : PageShardManifest := mkShard 1 shard 0 [] None None.

(** [serde_json] on the document. *)
Class SerdeShard := {
  shard_from_slice : bytes → option PageShardManifest;
  shard_to_vec_pretty : PageShardManifest → bytes
}.

Definition entry_fits (e : LayerEntry) : Prop := fits 8 (le_size e) ∧ opt_all (fits 8) (le_upto e).
Definition shard_fits (m : PageShardManifest) : Prop :=
  fits 4 (sm_format m) ∧ fits 2 (sm_shard m) ∧ fits 8 (sm_disk_consistent_lsn m) ∧
  Forall entry_fits (sm_layers m) ∧ opt_all (fits 4) (sm_covers m) ∧ opt_all (fits 8) (sm_horizon m).
#[global] Instance entry_fits_dec e : Decision (entry_fits e).
Proof. unfold entry_fits. apply _. Defined.
#[global] Instance shard_fits_dec m : Decision (shard_fits m).
Proof. unfold shard_fits. apply _. Defined.
Class SerdeShardOk `{SerdeShard} : Prop := {
  shard_parses : ∀ m, shard_fits m → shard_from_slice (shard_to_vec_pretty m) = Some m;
  shard_in_range : ∀ d m, shard_from_slice d = Some m → shard_fits m
}.

Section ops.
Context `{SerdeShard}.

(** [PageShardManifest::encode], [decode], [load] *)
Definition shard_encode (m : PageShardManifest) : bytes := shard_to_vec_pretty m.
Definition shard_decode (data : bytes) : res PageShardError PageShardManifest :=
  m ← ok_or (shard_from_slice data) ShardJson;
  _ ← guard_err (PAGE_SHARD_FORMAT <? sm_format m) (ShardFormatTooNew (sm_format m));
  mret m.
Definition shard_load (key : bytes) : prog PageShardError (option (PageShardManifest * Version)) :=
  cur ← get_ ShardStore key;
  match cur with
  | None => mret None
  | Some (data, version) => m ← Ret (shard_decode data); mret (Some (m, version))
  end.

(** One listed layer as a descriptor, owner tag and cut included. *)
Definition entry_desc (l : LayerEntry) : res PageShardError LayerDesc :=
  d ← map_err ShardName (desc_parse (le_name l) (le_size l));
  mret (mkDesc (ld_kind d) (ld_min_key d) (ld_max_key d) (ld_min_lsn d) (ld_max_lsn d) (ld_size d)
          (le_owner l) (le_upto l) (ld_home d)).
(** [PageShardManifest::layer_map] *)
Definition layer_map (m : PageShardManifest) : res PageShardError LayerMap :=
  descs ← mapM entry_desc (sm_layers m);
  map_err ShardMap (map_new descs).

(** [if !m.layers.iter().any(|l| l.name == entry.name) { m.layers.push(..) }] *)
Definition list_entry (ls : list LayerEntry) (entry : LayerEntry) : list LayerEntry :=
  if existsb (λ l, bool_decide (le_name l = le_name entry)) ls then ls else ls ++ [entry].

(** What [publish_layer] and [swap_layers] do to the document they read. *)
Definition publish_edit (entry : LayerEntry) (lsn : Lsn) (m : PageShardManifest) : PageShardManifest :=
  mkShard (sm_format m) (sm_shard m) (Z.max (sm_disk_consistent_lsn m) lsn)
    (list_entry (sm_layers m) entry) (sm_covers m) (sm_horizon m).
Definition swap_edit (retire : list bytes) (add : list LayerEntry) (covers : option Z)
    (horizon : option Lsn) (m : PageShardManifest) : PageShardManifest :=
  let layers := filter (λ l, le_name l ∉ retire) (sm_layers m) in
  mkShard (sm_format m) (sm_shard m) (sm_disk_consistent_lsn m) (foldl list_entry layers add)
    (match covers with Some count => Some count | None => sm_covers m end)
    (match horizon with
     | Some at_ => Some (match sm_horizon m with None => at_ | Some had => Z.max had at_ end)
     | None => sm_horizon m
     end).

(** The loop both share. *)
Fixpoint edit_loop (fuel : nat) (key : bytes) (shard : Z)
    (edit : PageShardManifest → PageShardManifest) : prog PageShardError PageShardManifest :=
  match fuel with
  | O => Stuck
  | S fuel =>
      cur ← shard_load key;
      let '(m, version) :=
        match cur with Some (m, v) => (m, Some v) | None => (shard_new shard, None) end in
      let m := edit m in
      Put key (shard_encode m) version (λ r,
        match r with
        | Ok _ => mret m
        | Err (Conflict _) | Err (AlreadyExists _) => edit_loop fuel key shard edit
        | Err e => Ret (Err (ShardStore e))
        | Panic => Ret Panic
        end)
  end.
(** [publish_layer] *)
Definition publish_layer (fuel : nat) (key : bytes) (shard : Z) (entry : LayerEntry) (lsn : Lsn) :=
  edit_loop fuel key shard (publish_edit entry lsn).
(** [swap_layers] *)
Definition swap_layers (fuel : nat) (key : bytes) (shard : Z) (retire : list bytes)
    (add : list LayerEntry) (covers : option Z) (horizon : option Lsn) :=
  edit_loop fuel key shard (swap_edit retire add covers horizon).

(** [advance_consistent] *)
Fixpoint advance_consistent (fuel : nat) (key : bytes) (lsn : Lsn) :
    prog PageShardError (option PageShardManifest) :=
  match fuel with
  | O => Stuck
  | S fuel =>
      cur ← shard_load key;
      match cur with
      | None => mret None
      | Some (m, version) =>
          if lsn <=? sm_disk_consistent_lsn m then mret (Some m)
          else
            let m := mkShard (sm_format m) (sm_shard m) lsn (sm_layers m) (sm_covers m) (sm_horizon m) in
            Put key (shard_encode m) (Some version) (λ r,
              match r with
              | Ok _ => mret (Some m)
              | Err (Conflict _) | Err (AlreadyExists _) => advance_consistent fuel key lsn
              | Err e => Ret (Err (ShardStore e))
              | Panic => Ret Panic
              end)
      end
  end.
End ops.

(** ** Edits *)
Lemma list_entry_names ls e : le_name e ∈ le_name <$> list_entry ls e.
Proof.
  unfold list_entry. destruct (existsb _ ls) eqn:C.
  - apply existsb_exists in C as (l & Hl & Hn). apply bool_decide_eq_true in Hn.
    apply list_elem_of_fmap. exists l. split; [done|]. by apply list_elem_of_In.
  - rewrite fmap_app. apply elem_of_app. right. by left.
Qed.
Lemma list_entry_known ls e : le_name e ∈ le_name <$> ls → list_entry ls e = ls.
Proof.
  intros (l & El & Hl)%list_elem_of_fmap. unfold list_entry.
  rewrite (proj2 (existsb_exists _ _)); [done|]. exists l. split; [by apply list_elem_of_In|].
  by apply bool_decide_eq_true.
Qed.
Lemma list_entry_sub ls e : ls ⊆ list_entry ls e.
Proof. unfold list_entry. destruct (existsb _ ls); set_solver. Qed.
Lemma list_entries_sub ls add : ls ⊆ foldl list_entry ls add.
Proof.
  revert ls. induction add as [|e add IH]; intros ls; [done|]. rewrite foldl_cons.
  etrans; [apply (list_entry_sub ls e)|apply IH].
Qed.
Lemma fmap_sub {A B} (f : A → B) (l k : list A) : l ⊆ k → f <$> l ⊆ f <$> k.
Proof. intros Sub x (y & -> & Hy)%list_elem_of_fmap. by apply list_elem_of_fmap_2, Sub. Qed.
Lemma list_entries_names ls add : le_name <$> add ⊆ le_name <$> foldl list_entry ls add.
Proof.
  revert ls. induction add as [|e add IH]; intros ls; [set_solver|]. rewrite foldl_cons, fmap_cons.
  intros x [->|Hx]%elem_of_cons; [|by apply IH].
  apply (fmap_sub le_name _ _ (list_entries_sub (list_entry ls e) add)), list_entry_names.
Qed.
Lemma list_entries_known ls add : le_name <$> add ⊆ le_name <$> ls → foldl list_entry ls add = ls.
Proof.
  revert ls. induction add as [|e add IH]; intros ls Sub; [done|]. rewrite foldl_cons.
  rewrite list_entry_known by (apply Sub; by left). apply IH. set_solver.
Qed.
Lemma list_entries_origin ls add l : l ∈ foldl list_entry ls add → l ∈ ls ∨ l ∈ add.
Proof.
  revert ls. induction add as [|e add IH]; intros ls Hl; [by left|]. rewrite foldl_cons in Hl.
  apply IH in Hl as [Hl|Hl]; [|set_solver]. unfold list_entry in Hl. destruct (existsb _ ls); set_solver.
Qed.

Lemma publish_idempotent e l m : publish_edit e l (publish_edit e l m) = publish_edit e l m.
Proof.
  unfold publish_edit. cbn. f_equal; [lia|]. apply list_entry_known, list_entry_names.
Qed.
(** A retired name that is not also added stays away. *)
Lemma swap_idempotent retire add covers horizon m :
  (∀ e, e ∈ add → le_name e ∉ retire) →
  swap_edit retire add covers horizon (swap_edit retire add covers horizon m) =
  swap_edit retire add covers horizon m.
Proof.
  intros N. unfold swap_edit. cbn. f_equal; [|by destruct covers|by destruct horizon, (sm_horizon m); cbn; f_equal; lia].
  set (ls := foldl list_entry (filter _ (sm_layers m)) add).
  assert (filter (λ l, le_name l ∉ retire) ls = ls) as ->.
  { assert (A : Forall (λ l, le_name l ∉ retire) ls); [|by clearbody ls; induction A; [done|rewrite filter_cons_True by done; f_equal]].
    apply Forall_forall. intros l [Hl|Hl]%list_entries_origin; [|by apply N].
    by apply list_elem_of_filter in Hl as [? _]. }
  apply list_entries_known, list_entries_names.
Qed.

(** ** The loops are atomic *)
(** A document this binary reads back. *)
Definition shard_ok (m : PageShardManifest) : Prop := shard_fits m ∧ sm_format m ≤ PAGE_SHARD_FORMAT.
#[global] Instance shard_ok_dec m : Decision (shard_ok m).
Proof. unfold shard_ok. apply _. Defined.

Section atomic.
Context {S : Type} `{CasSnap S} `{SerdeShardOk}.
Variable key : bytes.

Lemma shard_decode_ok d m : shard_decode d = Ok m → shard_ok m.
Proof.
  unfold shard_decode. intros E. apply bind_ok in E as (m' & E1 & E). bind_inv E.
  apply (inj Ok) in E as <-. unfold ok_or in E1. destruct (shard_from_slice d) as [m1|] eqn:P; [|done].
  apply (inj Ok) in E1 as ->. split; [by eapply shard_in_range|lia].
Qed.
Lemma shard_decode_encode m : shard_ok m → shard_decode (shard_encode m) = Ok m.
Proof.
  intros [F L]. unfold shard_decode, shard_encode. rewrite shard_parses by done. cbn [ok_or]. rewrite bind_run.
  by rewrite guard_run by lia.
Qed.

(** What is listed at the key: [None] when nothing is. *)
Definition listed (s : S) : option PageShardManifest :=
  match cas_view s key with
  | Some (d, _) => match shard_decode d with Ok m => Some m | _ => None end
  | None => None
  end.
(** A state in which the key, if present, can be read. *)
Definition served (s : S) : Prop :=
  cas_inv s ∧ ∀ d v, cas_view s key = Some (d, v) → ∃ m, shard_decode d = Ok m.
(** What others may do in between: anything that keeps the store lawful
    and the key readable. *)
Definition civil (f : S → S) : Prop :=
  ∀ s, served s → served (f s) ∧ ∀ d v, cas_snap s key d v → cas_snap (f s) key d v.

Lemma meddle_served (w : world S) : Forall civil (w_env w) → served (w_store w) →
  served (w_store (meddle w)) ∧ Forall civil (w_env (meddle w)) ∧
  (∀ d v, cas_snap (w_store w) key d v → cas_snap (w_store (meddle w)) key d v) ∧
  (length (w_env (meddle w)) ≤ length (w_env w))%nat ∧
  (w_env w ≠ [] → (length (w_env (meddle w)) < length (w_env w))%nat) ∧
  (w_env w = [] → meddle w = w).
Proof.
  destruct w as [s ms [|f env]]; unfold meddle; cbn; intros F Sv; [done|].
  apply Forall_cons in F as [Cf F]. destruct (Cf s Sv) as [Sf Sn]. split_and!; try done; lia.
Qed.

(** What a round reads: the document with its version, or nothing. *)
Definition reading (s : S) : option (PageShardManifest * Version) :=
  match cas_view s key, listed s with Some (_, v), Some m => Some (m, v) | _, _ => None end.
Lemma reading_spec s :
  served s → snd <$> reading s = snd <$> cas_view s key ∧ fst <$> reading s = listed s ∧
  ∀ m v, reading s = Some (m, v) → shard_ok m.
Proof.
  intros [_ R]. unfold reading, listed. destruct (cas_view s key) as [[d v]|] eqn:V; [|done].
  destruct (R d v eq_refl) as [m E]. rewrite E. split_and!; [done..|].
  intros m' v' [= <- <-]. by eapply shard_decode_ok.
Qed.
Lemma exec_load (w : world S) :
  served (w_store (meddle w)) →
  exec w (shard_load key) = (meddle w, Some (Ok (reading (w_store (meddle w))))).
Proof.
  intros [I R]. unfold shard_load. rewrite exec_bind. unfold get_.
  destruct w as [s ms env]. rewrite exec_get by done. cbn [exec map_err]. unfold reading, listed.
  set (w1 := meddle _) in *. destruct (cas_view (w_store w1) key) as [[d v]|] eqn:V; [|done].
  destruct (R d v eq_refl) as [m E]. rewrite exec_bind. cbn [exec]. by rewrite E.
Qed.
Lemma load_round (w : world S) {A} (k : option (PageShardManifest * Version) → prog PageShardError A) :
  served (w_store (meddle w)) →
  exec w (shard_load key ≫= k) = exec (meddle w) (k (reading (w_store (meddle w)))).
Proof. intros Sv. by rewrite exec_bind, exec_load. Qed.

(** A swap on the version that was read: it lands on the very document that
    was read, or somebody acted in between. *)
Lemma swap_round (w : world S) data {A} (k : res CasError Version → prog PageShardError A) :
  Forall civil (w_env w) → served (w_store w) →
  let w' := meddle w in
  (∃ s' v', exec w (Put key data (snd <$> cas_view (w_store w) key) k) =
              exec (mkWorld s' (w_ms w') (w_env w')) (k (Ok v')) ∧
     listed (w_store w') = listed (w_store w) ∧ cas_view s' key = Some (data, v') ∧
     ∀ key', key' ≠ key → cas_view s' key' = cas_view (w_store w') key') ∨
  (w_env w ≠ [] ∧ exec w (Put key data (snd <$> cas_view (w_store w) key) k) =
                    exec w' (k (Err (Conflict key)))).
Proof.
  intros F Sv w'. destruct (meddle_served w F Sv) as (Sv' & _ & Sn & _ & _ & N). fold w' in Sv', Sn, N.
  cbn [exec on_put world_handler]. fold w'.
  pose proof (put_if_match_ok (w_store w') key data (snd <$> cas_view (w_store w) key) (proj1 Sv')) as P.
  destruct (put_if_match _ _ _ _) as [s' r]. destruct P as [I' P]. case_bool_decide as C.
  - destruct P as (v' & -> & V' & O). left. exists s', v'. split_and!; try done.
    unfold listed. destruct (cas_view (w_store w) key) as [[d v]|] eqn:V,
      (cas_view (w_store w') key) as [[d2 v2]|] eqn:V2; try done.
    cbn in C. simplify_eq. assert (d2 = d) as ->; [|done].
    eapply cas_snap_use; [apply Sv'| |exact V2]. apply Sn, cas_snap_get; [apply Sv|done].
  - destruct P as [-> ->]. right. split; [intros Ew; destruct C; by rewrite N|]. by destruct w'.
Qed.

(** The edit was applied to what the store held at the instant of the swap. *)
Definition applied (shard : Z) (edit : PageShardManifest → PageShardManifest) (s s' : S)
    (m : PageShardManifest) : Prop :=
  served s ∧ m = edit (default (shard_new shard) (listed s)) ∧ listed s' = Some m ∧
  ∀ key', key' ≠ key → cas_view s' key' = cas_view s key'.

Lemma edit_loop_atomic fuel shard edit (w : world S) :
  (∀ m, shard_ok m → shard_ok (edit m)) → shard_ok (shard_new shard) →
  Forall civil (w_env w) → served (w_store w) → (length (w_env w) < fuel)%nat →
  ∃ w' m s, exec w (edit_loop fuel key shard edit) = (w', Some (Ok m)) ∧
    applied shard edit s (w_store w') m.
Proof.
  intros Ke Kn. revert w. induction fuel as [|fuel IH]; intros w F Sv L; [lia|].
  destruct (meddle_served w F Sv) as (Sv1 & F1 & _ & L1 & L1' & N1).
  cbn [edit_loop]. rewrite load_round by done. set (w1 := meddle w) in *.
  destruct (meddle_served w1 F1 Sv1) as (Sv2 & F2 & _ & L2 & _). set (w2 := meddle w1) in *.
  destruct (reading_spec _ Sv1) as (Rv & Rm & Ro). 
  assert (E : match reading (w_store w1) with Some (m, v) => (m, Some v) | None => (shard_new shard, None) end =
    (default (shard_new shard) (listed (w_store w1)), snd <$> cas_view (w_store w1) key) ∧
    shard_ok (default (shard_new shard) (listed (w_store w1)))).
  { rewrite <-Rv, <-Rm. destruct (reading (w_store w1)) as [[m v]|] eqn:Er; [|done]. split; [done|by eapply Ro]. }
  destruct E as [-> Om].
  set (m0 := default (shard_new shard) (listed (w_store w1))) in *.
  destruct (swap_round w1 (shard_encode (edit m0)) (λ r, match r with
    | Ok _ => mret (edit m0) | Err (Conflict _) | Err (AlreadyExists _) => edit_loop fuel key shard edit
    | Err e => Ret (Err (ShardStore e)) | Panic => Ret Panic end) F1 Sv1)
    as [(s' & v' & -> & Same & V' & O)|[Ne ->]].
  - eexists _, (edit m0), (w_store w2). split; [done|]. split_and!; [done| | |done].
    + fold w2 in Same. unfold m0. by rewrite Same.
    + unfold listed. cbn [w_store]. by rewrite V', shard_decode_encode by auto.
  - apply IH; [done|done|]. assert (w_env w ≠ []) as Ew%L1'; [|fold w2; lia].
    intros Ew. subst w1. by rewrite N1 in Ne.
Qed.

Lemma publish_edit_ok e l m : entry_fits e → fits 8 l → shard_ok m → shard_ok (publish_edit e l m).
Proof.
  intros Fe Fl [(F1 & F2 & F3 & F4 & F5 & F6) L]. split; [|done].
  split_and!; try done; [unfold fits in *; cbn; lia|]. cbn. unfold list_entry.
  destruct (existsb _ _); [done|]. apply Forall_app. by split; [|constructor].
Qed.
Lemma swap_edit_ok retire add covers horizon m :
  Forall entry_fits add → opt_all (fits 4) covers → opt_all (fits 8) horizon → shard_ok m →
  shard_ok (swap_edit retire add covers horizon m).
Proof.
  intros Fa Fc Fh [(F1 & F2 & F3 & F4 & F5 & F6) L]. split; [|done].
  split_and!; try done; cbn [swap_edit sm_layers sm_covers sm_horizon].
  - apply Forall_forall. intros l [Hl|Hl]%list_entries_origin.
    + apply list_elem_of_filter in Hl as [_ Hl]. by eapply Forall_forall in F4.
    + by eapply Forall_forall in Fa.
  - by destruct covers.
  - destruct horizon; [|done]. cbn in *. destruct (sm_horizon m); cbn in *; unfold fits in *; lia.
Qed.
Lemma shard_new_ok shard : fits 2 shard → shard_ok (shard_new shard).
Proof. intros F. split; [|done]. by split_and!. Qed.


(** What an edit may do to a document that is being served: coverage only
    grows, and only layers named for retirement go. *)
Definition grows (retire : list bytes) (m m' : PageShardManifest) : Prop :=
  sm_disk_consistent_lsn m ≤ sm_disk_consistent_lsn m' ∧
  (∀ l, l ∈ sm_layers m → le_name l ∈ retire ∨ l ∈ sm_layers m') ∧
  match sm_horizon m, sm_horizon m' with
  | Some h, Some h' => h ≤ h' | Some _, None => False | None, _ => True
  end.

Lemma edit_alone (s : S) ms shard edit :
  served s → (∀ m, shard_ok m → shard_ok (edit m)) → shard_ok (shard_new shard) →
  ∃ s' m, exec (alone s ms) (edit_loop 1 key shard edit) = (alone s' ms, Some (Ok m)) ∧
    served s' ∧ m = edit (default (shard_new shard) (listed s)) ∧ listed s' = Some m ∧
    (∀ d v, cas_snap s key d v → cas_snap s' key d v).
Proof.
  intros Sv Ke Kn. cbn [edit_loop]. rewrite load_round by done. cbn [meddle w_env alone w_store].
  destruct (reading_spec _ Sv) as (Rv & Rm & Ro).
  set (m0 := default (shard_new shard) (listed s)).
  assert (E : match reading s with Some (m, v) => (m, Some v) | None => (shard_new shard, None) end =
    (m0, snd <$> cas_view s key) ∧ shard_ok m0).
  { unfold m0. rewrite <-Rv, <-Rm. destruct (reading s) as [[m v]|] eqn:Er; [|done]. split; [done|by eapply Ro]. }
  destruct E as [-> Om]. cbv zeta.
  destruct (alone_put s ms key (shard_encode (edit m0)) (snd <$> cas_view s key) (λ r, match r with
    | Ok _ => mret (edit m0) | Err (Conflict _) | Err (AlreadyExists _) => Stuck
    | Err e => Ret (Err (ShardStore e)) | Panic => Ret Panic end)) as (s' & v & Es & I' & V & _ & ->); [apply Sv|done|].
  assert (D : shard_decode (shard_encode (edit m0)) = Ok (edit m0)) by (apply shard_decode_encode; auto).
  exists s', (edit m0). split_and!; [done| |done|unfold listed; by rewrite V, D|].
  2: { intros d v' Sn. rewrite Es. by apply cas_snap_put; [apply Sv|]. }
  split; [done|]. intros d v' V'. rewrite V in V'. simplify_eq. eauto.
Qed.

(** A crashed flush or compaction can be run again blindly.  On a
    store nobody else touches, publishing lists the layer, raises the
    consistent lsn and drops nothing; a compaction commit drops only what
    it retires and never lowers the horizon; and running either a second
    time returns the very same document. *)
Theorem shard_retries_safe (s : S) (ms shard : Z) (entry : LayerEntry) (lsn : Lsn)
    (retire : list bytes) (add : list LayerEntry) (covers : option Z) (horizon : option Lsn) :
  served s → fits 2 shard → entry_fits entry → fits 8 lsn → Forall entry_fits add →
  opt_all (fits 4) covers → opt_all (fits 8) horizon → (∀ e, e ∈ add → le_name e ∉ retire) →
  let before := default (shard_new shard) (listed s) in
  (∃ s1 s2 m, exec (alone s ms) (publish_layer 1 key shard entry lsn) = (alone s1 ms, Some (Ok m)) ∧
     exec (alone s1 ms) (publish_layer 1 key shard entry lsn) = (alone s2 ms, Some (Ok m)) ∧
     grows [] before m ∧ lsn ≤ sm_disk_consistent_lsn m ∧ le_name entry ∈ le_name <$> sm_layers m) ∧
  (∃ s1 s2 m, exec (alone s ms) (swap_layers 1 key shard retire add covers horizon) = (alone s1 ms, Some (Ok m)) ∧
     exec (alone s1 ms) (swap_layers 1 key shard retire add covers horizon) = (alone s2 ms, Some (Ok m)) ∧
     grows retire before m ∧ (∀ e, e ∈ add → le_name e ∈ le_name <$> sm_layers m) ∧
     (∀ l, l ∈ sm_layers m → le_name l ∉ retire)).
Proof.
  intros Sv Fs Fe Fl Fa Fc Fh N before. pose proof (shard_new_ok shard Fs) as On. split.
  - pose proof (λ m, publish_edit_ok entry lsn m Fe Fl) as Ke.
    destruct (edit_alone s ms shard _ Sv Ke On) as (s1 & m & E1 & Sv1 & Em & L1 & _).
    destruct (edit_alone s1 ms shard _ Sv1 Ke On) as (s2 & m2 & E2 & _ & Em2 & _).
    rewrite L1 in Em2. cbn [default] in Em2. fold before in Em.
    exists s1, s2, m. split_and!; [done| | | |].
    + assert (m2 = m) as <-; [|done]. rewrite Em2. rewrite Em. apply publish_idempotent.
    + subst m. split_and!; [cbn; lia| |cbn; by destruct (sm_horizon before)].
      intros l Hl. right. by apply list_entry_sub.
    + subst m. cbn. lia.
    + subst m. apply list_entry_names.
  - pose proof (λ m, swap_edit_ok retire add covers horizon m Fa Fc Fh) as Ke.
    destruct (edit_alone s ms shard _ Sv Ke On) as (s1 & m & E1 & Sv1 & Em & L1 & _).
    destruct (edit_alone s1 ms shard _ Sv1 Ke On) as (s2 & m2 & E2 & _ & Em2 & _).
    rewrite L1 in Em2. cbn [default] in Em2. fold before in Em.
    exists s1, s2, m. split_and!; [done| | | |].
    + assert (m2 = m) as <-; [|done]. rewrite Em2. rewrite Em. by apply swap_idempotent.
    + subst m. split_and!; [cbn; lia| |cbn; destruct (sm_horizon before), horizon; lia || done].
      intros l Hl. destruct (decide (le_name l ∈ retire)); [by left|right].
      apply list_entries_sub. by apply list_elem_of_filter.
    + subst m. intros e He. apply list_entries_names. by apply list_elem_of_fmap_2.
    + subst m. intros l [Hl|Hl]%list_entries_origin; [|by apply N]. by apply list_elem_of_filter in Hl as [? _].
Qed.
End atomic.

(** ** A concrete codec and concrete runs *)
Module ShardWitness.
Definition entry_tuple (e : LayerEntry) := (le_name e, le_size e, le_owner e, le_upto e).
#[export] Instance entry_countable : Countable LayerEntry.
Proof.
  refine (inj_countable' entry_tuple (λ '(a, b, c, d), mkEntry a b c d) _). by intros [].
Defined.
#[export] Instance shard_countable : Countable PageShardManifest.
Proof.
  refine (inj_countable (λ m, [encode (sm_format m); encode (sm_shard m); encode (sm_disk_consistent_lsn m);
      encode (sm_layers m); encode (sm_covers m); encode (sm_horizon m)])
    (λ l, match l with
          | [a; b; c; d; e; f] =>
              a ← decode a; b ← decode b; c ← decode c; d ← decode d; e ← decode e; f ← decode f;
              Some (mkShard a b c d e f)
          | _ => None
          end) _).
  intros []. cbn. by rewrite !decode_encode.
Defined.
Definition parse (d : bytes) : option PageShardManifest :=
  m ← decode (ManifestConcrete.of_bits d); if decide (shard_fits m) then Some m else None.
#[export] Instance serde : SerdeShard := {
  shard_from_slice := parse;
  shard_to_vec_pretty m := ManifestConcrete.bits_of (encode m)
}.
#[export] Instance serde_ok : SerdeShardOk.
Proof.
  split; cbn [shard_from_slice shard_to_vec_pretty serde]; unfold parse.
  - intros m F. rewrite ManifestConcrete.of_bits_bare, decode_encode. cbn. by rewrite decide_True.
  - intros d m. destruct (decode (ManifestConcrete.of_bits d)); [|done]. cbn. case_decide; naive_solver.
Qed.

Definition key : bytes := str "tenants/t1/shards/0000/SHARD".
Definition e1 : LayerEntry := mkEntry (str "one") 10 None None.
Definition e2 : LayerEntry := mkEntry (str "two") 20 None None.
Lemma empty_served : served key ms_new.
Proof. split; [apply ms_new_ok|done]. Qed.

(** Another flush publishes between the read and the swap. *)
Definition rival (s : MemStore) : MemStore :=
  w_store (exec (alone s 0) (publish_layer 1 key 0 e2 50)).1.
Lemma rival_civil : civil key rival.
Proof.
  intros s Sv. unfold rival, publish_layer.
  destruct (edit_alone key s 0 0 (publish_edit e2 50) Sv) as (s' & m & E & Sv' & _ & _ & Sn).
  - intros m. apply publish_edit_ok; by vm_compute.
  - by apply shard_new_ok; vm_compute.
  - rewrite E. split; [exact Sv'|exact Sn].
Qed.


Lemma shard_retries_safe_witness :
  ∃ s1 s2 m, exec (alone ms_new 0) (publish_layer 1 key 0 e1 40) = (alone s1 0, Some (Ok m)) ∧
    exec (alone s1 0) (publish_layer 1 key 0 e1 40) = (alone s2 0, Some (Ok m)) ∧ 40 ≤ sm_disk_consistent_lsn m.
Proof.
  destruct (shard_retries_safe key ms_new 0 0 e1 40 [str "old"] [e2] None (Some 30))
    as [(s1 & s2 & m & E1 & E2 & _ & L & _) _].
  - apply empty_served.
  - by vm_compute.
  - by vm_compute.
  - by vm_compute.
  - constructor; [by vm_compute|done].
  - done.
  - by vm_compute.
  - intros e ->%list_elem_of_singleton. apply (bool_decide_unpack _). by vm_compute.
  - eauto 10.
Defined.
End ShardWitness.
