(* ===== verification/Shards.v ===== *)
(** * Shards: the shard function, split and merge (crates/zou-store/src/shards.rs)

    Where a key lives at a shard count, which shards may hold its layers
    after any number of resizes, and the resizes themselves, which are one
    swap of the tenant manifest each. *)
From S2P Require Import Prelude Order Text Lsn Externals Frame Bloom LayerKey Layer LayerMap Cas Layout Prog Manifest ShardManifest.

Definition MAX_PAGE_SHARDS : Z := 4096.

Inductive ShardError :=
  | NoTenant (key : bytes)
  | AtCeiling
  | AtFloor
  | SManifest (e : ManifestError)
  | SShard (e : PageShardError)
  | SStore (e : CasError).

(** [z as u16] *)
Definition as_u16 (z : Z) : Z := z mod 2 ^ 16.

(** [shard_of] *)
Definition shard_of `{Crc} (key : LayerKey) (count : Z) : Z :=
  as_u16 (page_shard (mkBlockRef (key_rel key) (key_fork key) (key_block key)) count).

(** [resume_floor] *)
Definition resume_floor (manifest : Manifest) (own_disk_consistent : option Lsn) : Lsn :=
  default 0 (match own_disk_consistent with
             | Some l => Some l
             | None => sc_at <$> last (m_shard_history manifest)
             end).

(** A [BTreeSet] of numbers, as its elements in order. *)
Definition set_of {A} `{Ord A} (xs : list A) : list A := fst <$> foldl (λ m x, bt_insert x () m) [] xs.

(** The shards one era adds to [serving_shards]. *)
Definition era_shards {E} (shard count m : Z) : res E (list Z) :=
  if m <=? count
  then _ ← assert (negb (as_u16 m =? 0)); mret [shard mod as_u16 m]
  else
    _ ← assert (negb (count =? 0));
    mapM (λ i : nat, let n := shard + as_u16 (Z.of_nat i * count) in
                     _ ← assert (n <=? u16_max); mret n)
      (seq 0 (Z.to_nat (m / count))).
(** [serving_shards] *)
Definition serving_shards {E} (shard count : Z) (history : list ShardChange) : res E (list Z) :=
  let counts := set_of ((history ≫= λ c, [sc_from c; sc_to c]) ++ [count]) in
  per_era ← mapM (era_shards shard count) counts;
  mret (set_of (concat per_era)).

(** An error of an inner call, converted by [?]. *)
Definition lift_err {E F A} (f : E → F) (p : prog E A) : prog F A := handle p (λ r, Ret (map_err f r)).

Section shards.
Context `{SerdeManifest, SerdeShard}.

(** [era_floor] *)
Fixpoint floor_loop (layout : TenantLayout) (manifest : Manifest) (shards : list Z) (floor : option Lsn) :
    prog ShardError Lsn :=
  match shards with
  | [] => mret (default 0 floor)
  | shard :: shards =>
      cur ← lift_err SShard (shard_load (shard_manifest layout shard));
      let own := (λ mv, sm_disk_consistent_lsn (fst mv)) <$> cur in
      let f := resume_floor manifest own in
      floor_loop layout manifest shards (Some (match floor with None => f | Some lo => Z.min lo f end))
  end.
Definition era_floor (layout : TenantLayout) (manifest : Manifest) : prog ShardError Lsn :=
  floor_loop layout manifest (seqZ 0 (as_u16 (m_shards manifest))) None.

(** The count a resize goes to. *)
Definition next_count (grow : bool) (from : Z) : res ShardError Z :=
  if grow
  then (if MAX_PAGE_SHARDS <=? from then Err AtCeiling else Ok (from * 2))
  else (if from <? 2 then Err AtFloor else Ok (from / 2)).
(** The manifest it publishes. *)
Definition resized (manifest : Manifest) (to : Z) (at_ : Lsn) (unix : Z) : Manifest :=
  with_published (Some unix)
    (with_sharding (Z.max (m_format manifest) 3) to
       (m_shard_history manifest ++ [mkChange (m_shards manifest) to at_ unix]) manifest).

(** [change] *)
Fixpoint change (fuel : nat) (tenant_ref : bytes) (grow : bool) : prog ShardError Manifest :=
  match fuel with
  | O => Stuck
  | S fuel =>
      let layout := layout_new tenant_ref in
      let key := manifest_key layout in
      cur ← get_ SStore key;
      match cur with
      | None => Ret (Err (NoTenant key))
      | Some (data, version) =>
          manifest ← Ret (map_err SManifest (from_json data));
          to ← Ret (next_count grow (m_shards manifest));
          at_ ← era_floor layout manifest;
          Now (λ unix,
          let manifest := resized manifest to at_ unix in
          Put key (to_json manifest) (Some version) (λ r,
            match r with
            | Ok _ =>
                let history := manifest_history layout (m_epoch manifest) unix in
                put_absent history (to_json (with_lease None manifest)) (λ r,
                  match r with Panic => Ret Panic | _ => mret manifest end)
            | Err (Conflict _) => change fuel tenant_ref grow
            | Err e => Ret (Err (SStore e))
            | Panic => Ret Panic
            end))
      end
  end.
Definition split_shards (fuel : nat) (tenant_ref : bytes) := change fuel tenant_ref true.
Definition merge_shards (fuel : nat) (tenant_ref : bytes) := change fuel tenant_ref false.

(** The listed layers of one shard, foreign ones stamped with their home. *)
Definition serving_descs (m : PageShardManifest) (home : option Z) : res ShardError (list LayerDesc) :=
  mapM (λ l,
    d ← map_err SShard (entry_desc l);
    mret (mkDesc (ld_kind d) (ld_min_key d) (ld_max_key d) (ld_min_lsn d) (ld_max_lsn d) (ld_size d)
            (ld_owner d) (ld_upto d) (match home with Some s => Some s | None => ld_home d end)))
    (sm_layers m).
Fixpoint lineage_loop (layout : TenantLayout) (shard : Z) (shards : list Z) (descs : list LayerDesc)
    (own : option Lsn) : prog ShardError (list LayerDesc * option Lsn) :=
  match shards with
  | [] => mret (descs, own)
  | s :: shards =>
      cur ← lift_err SShard (shard_load (shard_manifest layout s));
      match cur with
      | None => lineage_loop layout shard shards descs own
      | Some (m, _) =>
          let own := if s =? shard then Some (sm_disk_consistent_lsn m) else own in
          ds ← Ret (serving_descs m (if negb (s =? shard) then Some s else None));
          lineage_loop layout shard shards (descs ++ ds) own
      end
  end.
(** [m.covers.is_some_and(|c| c <= manifest.shards)] *)
Definition covers_alone (m : PageShardManifest) (manifest : Manifest) : bool :=
  match sm_covers m with Some c => c <=? m_shards manifest | None => false end.
(** [load_serving_descs] *)
Definition load_serving_descs (tenant_ref : bytes) (manifest : Manifest) (shard : Z) :
    prog ShardError (list LayerDesc * Lsn) :=
  let layout := layout_new tenant_ref in
  cur ← lift_err SShard (shard_load (shard_manifest layout shard));
  match cur with
  | Some (m, _) =>
      if covers_alone m manifest then
        ds ← Ret (serving_descs m None);
        mret (ds, sm_disk_consistent_lsn m)
      else
        ss ← Ret (serving_shards shard (m_shards manifest) (m_shard_history manifest));
        '(descs, own) ← lineage_loop layout shard ss [] None;
        mret (descs, resume_floor manifest own)
  | None =>
      ss ← Ret (serving_shards shard (m_shards manifest) (m_shard_history manifest));
      '(descs, own) ← lineage_loop layout shard ss [] None;
      mret (descs, resume_floor manifest own)
  end.

(** [prune_lineage] *)
Fixpoint covered_loop (layout : TenantLayout) (manifest : Manifest) (shards : list Z) : prog ShardError bool :=
  match shards with
  | [] => mret true
  | shard :: shards =>
      cur ← lift_err SShard (shard_load (shard_manifest layout shard));
      let covered := match cur with Some (m, _) => covers_alone m manifest | None => false end in
      if negb covered then mret false else covered_loop layout manifest shards
  end.
Fixpoint prune_lineage (fuel : nat) (tenant_ref : bytes) : prog ShardError bool :=
  match fuel with
  | O => Stuck
  | S fuel =>
      let layout := layout_new tenant_ref in
      let key := manifest_key layout in
      cur ← get_ SStore key;
      match cur with
      | None => Ret (Err (NoTenant key))
      | Some (data, version) =>
          manifest ← Ret (map_err SManifest (from_json data));
          if bool_decide (m_shard_history manifest = []) then mret true
          else
            covered ← covered_loop layout manifest (seqZ 0 (as_u16 (m_shards manifest)));
            if negb covered then mret false
            else
              let manifest := with_sharding (m_format manifest) (m_shards manifest) [] manifest in
              Put key (to_json manifest) (Some version) (λ r,
                match r with
                | Ok _ => mret true
                | Err (Conflict _) => prune_lineage fuel tenant_ref
                | Err e => Ret (Err (SStore e))
                | Panic => Ret Panic
                end)
      end
  end.
End shards.

(** ** The serving set *)
Lemma set_of_elem {A} `{OrdOk A} (xs : list A) x : x ∈ set_of xs ↔ x ∈ xs.
Proof.
  unfold set_of. rewrite <-(app_nil_l xs) at 2.
  assert (G : ∀ m, bt_wf m → bt_wf (foldl (λ m x, bt_insert x () m) m xs) ∧
    (x ∈ fst <$> foldl (λ m x, bt_insert x () m) m xs ↔ x ∈ (fst <$> m) ++ xs)).
  { induction xs as [|y xs IH]; intros m Wm; [by rewrite app_nil_r|]. rewrite foldl_cons.
    pose proof (bt_insert_wf y () m Wm) as Wi. destruct (IH _ Wi) as [W1 E1]. split; [done|].
    rewrite E1, !elem_of_app, elem_of_cons.
    assert (x ∈ fst <$> bt_insert y () m ↔ x = y ∨ x ∈ fst <$> m); [|tauto].
    rewrite !list_elem_of_fmap. split.
    - intros ([z []] & -> & [[= ->]|Hz]%bt_insert_elem); [by left|right; eauto].
    - intros Hx. exists (x, ()). split; [done|]. apply bt_get_elem; [done|]. rewrite bt_get_insert by done.
      destruct (oeqb x y) eqn:C; [done|]. destruct Hx as [->|([z []] & -> & Hz)]; [by rewrite oeqb_refl in C|].
      by apply bt_get_elem. }
  by apply (G []).
Qed.
Lemma set_of_sorted xs : StronglySorted Z.lt (set_of xs).
Proof.
  unfold set_of. assert (W : bt_wf (foldl (λ m x, bt_insert x () m) [] xs)).
  { assert (G : ∀ m, bt_wf m → bt_wf (foldl (λ m x, bt_insert x () m) m xs)); [|by apply G].
    induction xs as [|y xs IH]; intros m Wm; [done|]. rewrite foldl_cons. by apply IH, bt_insert_wf. }
  induction (foldl _ [] xs) as [|[z []] m IH]; [constructor|]. destruct W as [W1 W2]. cbn.
  constructor; [by apply IH|]. apply Forall_forall. intros y ([y' []] & -> & Hy)%list_elem_of_fmap.
  apply W1 in Hy. by apply olt_Z in Hy.
Qed.

(** Shard counts are powers of two up to the ceiling. *)
Definition count_ok (m : Z) : Prop := ∃ k, (k ≤ 12)%nat ∧ m = 2 ^ Z.of_nat k.
Lemma count_range m : count_ok m → 1 ≤ m ≤ MAX_PAGE_SHARDS.
Proof.
  intros (k & L & ->). unfold MAX_PAGE_SHARDS. change 4096 with (2 ^ 12). split.
  - pose proof (Z.pow_pos_nonneg 2 (Z.of_nat k)). lia.
  - apply Z.pow_le_mono_r; lia.
Qed.
Lemma count_divides m n : count_ok m → count_ok n → m ≤ n → (m | n).
Proof.
  intros (j & Lj & ->) (k & Lk & ->) L. apply Z.pow_le_mono_r_iff in L; [|lia..].
  exists (2 ^ (Z.of_nat k - Z.of_nat j)). rewrite <-Z.pow_add_r by lia. f_equal. lia.
Qed.

Lemma as_u16_count m : count_ok m → as_u16 m = m.
Proof. intros C%count_range. unfold MAX_PAGE_SHARDS in C. apply Z.mod_small. lia. Qed.

Lemma mapM_elem {E A B} (f : A → res E B) l : (∀ x, x ∈ l → ∃ y, f x = Ok y) →
  ∃ k, mapM f l = Ok k ∧ ∀ y, y ∈ k ↔ ∃ x, x ∈ l ∧ f x = Ok y.
Proof.
  induction l as [|x l IH]; intros F; [exists []; split; [done|set_solver]|].
  destruct (F x) as [y Ey]; [by left|]. destruct IH as (k & Ek & Hk); [intros z Hz; apply F; by right|].
  exists (y :: k). cbn. rewrite Ey, bind_run, Ek, bind_run. split; [done|].
  intros z. rewrite elem_of_cons, Hk. split.
  - intros [->|(x' & ? & ?)]; [exists x; split; [by left|done]|exists x'; split; [by right|done]].
  - intros (x' & [->|Hx]%elem_of_cons & E1); [left; congruence|right; eauto].
Qed.

(** One era adds exactly the numbers of that era whose keyspace meets the
    shard's: equal to it modulo the smaller count. *)
Lemma era_shards_spec {E} shard count m :
  count_ok count → count_ok m → 0 ≤ shard < count →
  ∃ l, @era_shards E shard count m = Ok l ∧
    ∀ t, t ∈ l ↔ 0 ≤ t < m ∧ t mod Z.min m count = shard mod Z.min m count.
Proof.
  intros Cc Cm Hs. pose proof (count_range _ Cc) as Rc. pose proof (count_range _ Cm) as Rm.
  unfold MAX_PAGE_SHARDS in *. unfold era_shards. destruct (m <=? count) eqn:L.
  - rewrite as_u16_count by done. rewrite (proj2 (Z.eqb_neq m 0)) by lia. exists [shard mod m]. split; [done|].
    intros t. rewrite Z.min_l, list_elem_of_singleton by lia. split.
    + intros ->. pose proof (Z.mod_pos_bound shard m). split; [lia|]. rewrite Z.mod_mod; lia.
    + intros [Ht <-]. by rewrite Z.mod_small.
  - rewrite (proj2 (Z.eqb_neq count 0)) by lia. cbn [negb assert]. rewrite bind_run.
    destruct (count_divides count m Cc Cm) as [q Eq]; [lia|]. assert (Hq : m / count = q) by (subst m; apply Z.div_mul; lia).
    rewrite Hq. assert (Hq0 : 0 < q) by nia.
    assert (Sm : ∀ i : nat, Z.of_nat i < q → as_u16 (Z.of_nat i * count) = Z.of_nat i * count ∧
      shard + Z.of_nat i * count < m).
    { intros i Hi. split; [apply Z.mod_small; nia|nia]. }
    destruct (mapM_elem (E:=E) (λ i : nat, let n := shard + as_u16 (Z.of_nat i * count) in
                     _ ← assert (n <=? u16_max); mret n) (seq 0 (Z.to_nat q))) as (l & El & Hl).
    { intros i Hi%elem_of_seq. destruct (Sm i) as [-> L2]; [lia|]. cbv zeta.
      rewrite (proj2 (Z.leb_le _ _)) by (unfold u16_max; lia). eexists. done. }
    exists l. split; [done|]. intros t. rewrite Hl, Z.min_r by lia. split.
    + intros (i & Hi%elem_of_seq & E1). destruct (Sm i) as [Ea L2]; [lia|]. cbv zeta in E1. rewrite Ea in E1.
      destruct (_ <=? _) in E1; [|done]. apply (inj Ok) in E1 as <-. split; [nia|]. by rewrite Z.mod_add by lia.
    + intros [Ht Et]. rewrite (Z.mod_small shard) in Et by lia.
      pose proof (Z.div_mod t count ltac:(lia)) as D. assert (0 ≤ t / count < q).
      { split; [apply Z.div_pos; lia|]. apply Z.div_lt_upper_bound; nia. }
      exists (Z.to_nat (t / count)). split; [apply elem_of_seq; lia|]. destruct (Sm (Z.to_nat (t / count))) as [Ea L2]; [lia|].
      rewrite Z2Nat.id in Ea, L2 by lia. cbv zeta. rewrite Z2Nat.id, Ea by lia.
      rewrite (proj2 (Z.leb_le _ _)) by (unfold u16_max; lia).
      unfold assert. rewrite bind_run. unfold mret, res_ret. f_equal. lia.
Qed.

(** Every count the tenant ran at. *)
Definition eras (count : Z) (history : list ShardChange) : list Z :=
  (history ≫= λ c, [sc_from c; sc_to c]) ++ [count].

Lemma eras_present count history : Forall count_ok (eras count history) → count_ok count.
Proof. unfold eras. intros [_ F]%Forall_app. by inversion F. Qed.

Lemma serving_shards_spec {E} shard count history :
  Forall count_ok (eras count history) → 0 ≤ shard < count →
  ∃ l, @serving_shards E shard count history = Ok l ∧ StronglySorted Z.lt l ∧
    ∀ t, t ∈ l ↔ ∃ m, m ∈ eras count history ∧ 0 ≤ t < m ∧ t mod Z.min m count = shard mod Z.min m count.
Proof.
  intros F Hs. assert (Cc : count_ok count) by by eapply eras_present.
  assert (Fs : ∀ m, m ∈ set_of (eras count history) → count_ok m).
  { intros m Hm. rewrite set_of_elem in Hm. rewrite Forall_forall in F. by apply F. }
  destruct (mapM_elem (E:=E) (era_shards shard count) (set_of (eras count history))) as (per & Ep & Hp).
  { intros m Hm. destruct (era_shards_spec (E:=E) shard count m) as (l & El & _); eauto. }
  exists (set_of (concat per)). unfold serving_shards. fold (eras count history). rewrite Ep. split; [done|].
  split; [apply set_of_sorted|]. intros t. rewrite set_of_elem, elem_of_concat. split.
  - intros (l & Ht & (m & Hm & El)%Hp). exists m. split; [by apply set_of_elem|].
    destruct (era_shards_spec (E:=E) shard count m) as (l' & El' & Hl'); [done|by apply Fs|done|].
    rewrite El in El'. simplify_eq. by apply Hl'.
  - intros (m & Hm & Ht). apply set_of_elem in Hm.
    destruct (era_shards_spec (E:=E) shard count m) as (l & El & Hl); [done|by apply Fs|done|].
    exists l. split; [by apply Hl|]. apply Hp. eauto.
Qed.

Lemma shard_of_count `{CrcOk} key m :
  count_ok m → ∃ h, 0 ≤ h ∧ ∀ n, count_ok n → shard_of key n = h mod n.
Proof.
  intros _. unfold shard_of, page_shard. eexists. split; cycle 1.
  - intros n Cn. pose proof (count_range n Cn) as R. unfold MAX_PAGE_SHARDS in R. rewrite Z.max_l by lia.
    apply Z.mod_small. match goal with |- 0 ≤ ?a mod n < _ => pose proof (Z.mod_pos_bound a n ltac:(lia)) end. lia.
  - apply crc32c_fits.
Qed.

(** A resize never hides data.  For a tenant whose counts, past and
    present, are powers of two up to the ceiling, the shards a key's shard
    consults are computed without a panic, in ascending order, and include
    the shard the key lived on in every era of the lineage and its present
    one; and nothing is consulted that could not have held one of the
    shard's keys in some era. *)
Theorem serving_shards_complete `{CrcOk} (key : LayerKey) (count : Z) (history : list ShardChange) :
  Forall count_ok (eras count history) →
  ∃ l, @serving_shards ShardError (shard_of key count) count history = Ok l ∧ StronglySorted Z.lt l ∧
    (∀ m, m ∈ eras count history → shard_of key m ∈ l) ∧
    (∀ t, t ∈ l → ∃ m, m ∈ eras count history ∧ 0 ≤ t < m ∧
       t mod Z.min m count = shard_of key count mod Z.min m count).
Proof.
  intros F. assert (Cc : count_ok count) by by eapply eras_present.
  destruct (shard_of_count key count Cc) as (h & Hh & Sh). pose proof (count_range count Cc) as Rc.
  destruct (serving_shards_spec (E:=ShardError) (shard_of key count) count history F) as (l & El & Sl & Hl).
  { rewrite Sh by done. apply Z.mod_pos_bound. lia. }
  exists l. split_and!; [done|done| |intros t Ht; by apply Hl].
  intros m Hm. apply Hl. exists m. split; [done|]. assert (Cm : count_ok m) by (rewrite Forall_forall in F; by apply F).
  pose proof (count_range m Cm) as Rm. rewrite !Sh by done. split; [apply Z.mod_pos_bound; lia|].
  destruct (Z.min_spec m count) as [[L ->]|[L ->]].
  - rewrite Z.mod_mod by lia. symmetry. apply Z.mod_mod_divide. apply count_divides; [done|done|lia].
  - rewrite Z.mod_mod by lia. apply Z.mod_mod_divide. by apply count_divides.
Qed.
