(* ===== verification/ShardsProofs.v ===== *)
(** * ShardsProofs: a resize is one atomic change with a safe floor

    Flushes, lease traffic and other resizes may run between any two store
    calls of a resize; what it publishes is still computed from the
    manifest it replaces, and the floor it records is covered. *)
From S2P Require Import Prelude Order Text Lsn Externals Frame Bloom LayerKey Layer LayerMap Cas Layout Prog Manifest Lease LeaseProofs ShardManifest Shards.

Section resize.
Context {S : Type} `{CasSnap S} `{SerdeManifestOk} `{SerdeShardOk}.
Variable tenant_ref : bytes.
Abbreviation layout := (layout_new tenant_ref).
Abbreviation mkey := (manifest_key layout).

(** How far a shard has published. *)
Definition own (s : S) (shard : Z) : option Lsn :=
  sm_disk_consistent_lsn <$> listed (shard_manifest layout shard) s.
Definition tenant_ok (s : S) : Prop :=
  cas_inv s ∧ is_Some (current layout s) ∧ ∀ shard, served (shard_manifest layout shard) s.
(** What may happen to a tenant: documents stay readable, versions keep
    their meaning, and no shard's published coverage falls. *)
Definition evolves (s s' : S) : Prop :=
  tenant_ok s' ∧ (∀ d v, cas_snap s mkey d v → cas_snap s' mkey d v) ∧
  ∀ shard l, own s shard = Some l → ∃ l', own s' shard = Some l' ∧ l ≤ l'.
Definition tenant_civil (f : S → S) : Prop := ∀ s, tenant_ok s → evolves s (f s).

Lemma evolves_refl s : tenant_ok s → evolves s s.
Proof. intros T. split_and!; [done..|]. intros shard l E. exists l. split; [done|lia]. Qed.
Lemma evolves_trans s s' s'' : evolves s s' → evolves s' s'' → evolves s s''.
Proof.
  intros (T & Sn & O) (T' & Sn' & O'). split_and!; [done|eauto|].
  intros shard l (l' & E & L)%O. destruct (O' _ _ E) as (l'' & E' & L'). exists l''. split; [done|lia].
Qed.

(** One call's worth of other people's work. *)
Definition onward (w w' : world S) : Prop :=
  evolves (w_store w) (w_store w') ∧ Forall tenant_civil (w_env w') ∧ w_ms w' = w_ms w ∧
  (length (w_env w') ≤ length (w_env w))%nat ∧ (w_env w = [] → w' = w).
Lemma onward_refl w : Forall tenant_civil (w_env w) → tenant_ok (w_store w) → onward w w.
Proof. intros F T. split_and!; [by apply evolves_refl|done|done|lia|done]. Qed.
Lemma onward_trans w w' w'' : onward w w' → onward w' w'' → onward w w''.
Proof.
  intros (E & F & M & L & N) (E' & F' & M' & L' & N'). split_and!; [by eapply evolves_trans|done|congruence|lia|].
  intros Ew. rewrite <-(N Ew). apply N'. by rewrite (N Ew).
Qed.
Lemma meddle_onward w : Forall tenant_civil (w_env w) → tenant_ok (w_store w) →
  onward w (meddle w) ∧ (w_env w ≠ [] → (length (w_env (meddle w)) < length (w_env w))%nat).
Proof.
  destruct w as [s ms [|f env]]; unfold meddle; cbn; intros F T; [split; [by apply onward_refl|done]|].
  apply Forall_cons in F as [Cf F]. split; [|lia]. split_and!; try done; cbn; [by apply Cf|lia].
Qed.
Lemma onward_ok w w' : onward w w' → tenant_ok (w_store w') ∧ Forall tenant_civil (w_env w').
Proof. by intros ((T & _) & F & _). Qed.

(** [at_] does not promise more than the shard has published, or than the
    lineage entry that created it did. *)
Definition floor_covered (m : Manifest) (s : S) (at_ : Lsn) (shard : Z) : Prop :=
  (∃ l, own s shard = Some l ∧ at_ ≤ l) ∨ at_ ≤ resume_floor m None.
Lemma floor_covered_onward m s s' at_ at' shard :
  evolves s s' → at' ≤ at_ → floor_covered m s at_ shard → floor_covered m s' at' shard.
Proof.
  intros (_ & _ & O) L [(l & E & Le)|Le]; [left|right; lia].
  destruct (O _ _ E) as (l' & E' & L'). exists l'. split; [done|lia].
Qed.

(** A shard document has its integers in range. *)
Lemma own_fits s shard l : own s shard = Some l → fits 8 l.
Proof.
  unfold own, listed. destruct (cas_view s _) as [[d v]|]; [|done].
  destruct (shard_decode d) as [m| |] eqn:D; try done. intros [= <-].
  by apply shard_decode_ok in D as [(_ & _ & F & _) _].
Qed.
Lemma resume_floor_fits m o : readable m → opt_all (fits 8) o → fits 8 (resume_floor m o).
Proof.
  intros [F _] Fo. unfold resume_floor. destruct o as [l|]; [done|].
  destruct (last (m_shard_history m)) as [c|] eqn:L; [|by vm_compute].
  unfold manifest_fits in F. destruct F as (_ & _ & _ & _ & _ & _ & _ & _ & _ & _ & F & _).
  apply last_Some in L as [h Eh]. rewrite Eh in F. apply Forall_app in F as [_ F]. inversion F as [|? ? (_ & _ & Fa & _)]. done.
Qed.

Lemma floor_loop_covers m shards floor (w : world S) :
  readable m → opt_all (fits 8) floor →
  Forall tenant_civil (w_env w) → tenant_ok (w_store w) →
  ∃ w' f, exec w (floor_loop layout m shards floor) = (w', Some (Ok f)) ∧ onward w w' ∧ fits 8 f ∧
    (∀ lo, floor = Some lo → f ≤ lo) ∧
    ∀ shard, shard ∈ shards → floor_covered m (w_store w') f shard.
Proof.
  intros R. revert floor w. induction shards as [|shard shards IH]; intros floor w Ff F T.
  { exists w, (default 0 floor). split_and!; [done|by apply onward_refl|by destruct floor|by intros lo ->|set_solver]. }
  destruct (meddle_onward w F T) as [On _]. destruct (onward_ok _ _ On) as [T1 F1].
  cbn [floor_loop]. rewrite exec_bind. unfold lift_err. rewrite exec_handle.
  rewrite (exec_load _ w (proj2 (proj2 T1) shard)). cbn [exec map_err].
  destruct (reading_spec _ _ (proj2 (proj2 T1) shard)) as (_ & Rm & _).
  set (rd := reading _ _) in *. assert (Eo : (λ mv, sm_disk_consistent_lsn mv.1) <$> rd = own (w_store (meddle w)) shard).
  { unfold own. rewrite <-Rm. by destruct rd. }
  rewrite Eo. set (f := resume_floor m (own (w_store (meddle w)) shard)).
  assert (Fo : fits 8 f).
  { apply resume_floor_fits; [done|]. destruct (own _ _) eqn:Eq; [by eapply own_fits|done]. }
  set (lo := match floor with None => f | Some lo => Z.min lo f end).
  destruct (IH (Some lo) (meddle w)) as (w' & g & Ex & On' & Fg & Lg & Cg); [|done|done|].
  { subst lo. destruct floor; cbn in *; [unfold fits in *; lia|done]. }
  exists w', g. specialize (Lg lo eq_refl). split_and!; [done|by eapply onward_trans|done| |].
  - intros lo' ->. subst lo. cbn in Lg. lia.
  - intros shard' [->|Hs]%elem_of_cons; [|by apply Cg].
    assert (g ≤ f) by (subst lo; destruct floor; lia).
    eapply (floor_covered_onward m _ _ f); [apply On'|done|]. subst f. unfold floor_covered.
    destruct (own (w_store (meddle w)) shard) as [l|] eqn:Eq; [left; exists l; split; [done|]|right]; cbn; lia.
Qed.

Lemma next_count_fits grow from to : fits 4 from → next_count grow from = Ok to → fits 4 to.
Proof.
  unfold next_count, fits, MAX_PAGE_SHARDS. intros F. destruct grow.
  - destruct (4096 <=? from) eqn:L; intros [= <-]; lia.
  - destruct (from <? 2) eqn:L; intros [= <-].
    pose proof (Z.div_le_upper_bound from 2 from). pose proof (Z.div_pos from 2). lia.
Qed.
Lemma next_count_no_panic grow from : next_count grow from ≠ Panic.
Proof. unfold next_count. destruct grow; [destruct (_ <=? _)|destruct (_ <? _)]; done. Qed.
Lemma readable_resized m grow to at_ unix :
  readable m → next_count grow (m_shards m) = Ok to → fits 8 at_ → fits 8 unix →
  readable (resized m to at_ unix).
Proof.
  intros [F L] Nc Fa Fu. unfold manifest_fits in F. destruct F as (F1 & F2 & F3 & F4 & F5 & F6 & F7 & F8 & F9 & F10 & F11 & F12).
  pose proof (next_count_fits _ _ _ F10 Nc) as Ft. unfold MANIFEST_FORMAT in *.
  split; [|unfold MANIFEST_FORMAT; cbn; lia]. unfold manifest_fits. cbn. split_and!; try done; [unfold fits in *; lia|].
  apply Forall_app. split; [done|]. constructor; [by split_and!|done].
Qed.

Lemma next_count_ok grow from to : count_ok from → next_count grow from = Ok to → count_ok to.
Proof.
  intros (k & L & ->). unfold next_count, MAX_PAGE_SHARDS. destruct grow.
  - destruct (4096 <=? _) eqn:C; intros [= <-]. exists (Datatypes.S k). rewrite Nat2Z.inj_succ, Z.pow_succ_r by lia.
    split; [|lia]. destruct (decide (k = 12%nat)) as [->|]; [done|lia].
  - destruct (_ <? 2) eqn:C; intros [= <-]. destruct k as [|k]; [done|]. exists k. split; [lia|].
    rewrite Nat2Z.inj_succ, Z.pow_succ_r, Z.mul_comm by lia. apply Z.div_mul. lia.
Qed.
Lemma resized_eras m grow to at_ unix :
  next_count grow (m_shards m) = Ok to → Forall count_ok (eras (m_shards m) (m_shard_history m)) →
  Forall count_ok (eras to (m_shard_history m ++ [mkChange (m_shards m) to at_ unix])).
Proof.
  intros Nc F. pose proof (eras_present _ _ F) as Cm. pose proof (next_count_ok _ _ _ Cm Nc) as Ct.
  unfold eras in *. apply Forall_app in F as [F _]. rewrite bind_app. rewrite !Forall_app. cbn.
  split_and!; [done| |by constructor]. by repeat constructor.
Qed.

(** The resize published [m']: the store [s] held [m], and the swap
    replaced it by [m'], with the count doubled or halved, one more lineage
    entry whose floor every shard of the old count covers, the epoch and the
    lease as they were, and all counts still powers of two. *)
Definition resize_published (grow : bool) (unix : Z) (m' : Manifest) : Prop :=
  ∃ s m to at_, tenant_ok s ∧ current layout s = Some m ∧
    next_count grow (m_shards m) = Ok to ∧ m' = resized m to at_ unix ∧
    m_epoch m' = m_epoch m ∧ m_lease m' = m_lease m ∧
    (Forall count_ok (eras (m_shards m) (m_shard_history m)) →
     Forall count_ok (eras (m_shards m') (m_shard_history m'))) ∧
    (∀ shard, 0 ≤ shard < as_u16 (m_shards m) → floor_covered m s at_ shard) ∧
    ∃ v v', cas_view s mkey = v ∧
      let '(s', r) := put_if_match s mkey (to_json m') (snd <$> v) in
      r = Ok v' ∧ current layout s' = Some m'.

(** One round up to its swap: the manifest that was read, the count and
    the floor it leads to. *)
Lemma change_round fuel grow (w : world S) :
  Forall tenant_civil (w_env w) → tenant_ok (w_store w) → fits 8 (w_ms w / 1000) →
  ∃ d v m, cas_view (w_store (meddle w)) mkey = Some (d, v) ∧ from_json d = Ok m ∧
  match next_count grow (m_shards m) with
  | Ok to => ∃ w2 at_, onward (meddle w) w2 ∧ fits 8 at_ ∧
      (∀ shard, 0 ≤ shard < as_u16 (m_shards m) → floor_covered m (w_store w2) at_ shard) ∧
      let m' := resized m to at_ (w_ms w / 1000) in
      exec w (change (Datatypes.S fuel) tenant_ref grow) =
      exec w2 (Put mkey (to_json m') (Some v) (λ r,
        match r with
        | Ok _ => put_absent (manifest_history layout (m_epoch m') (w_ms w / 1000))
            (to_json (with_lease None m')) (λ r, match r with Panic => Ret Panic | _ => mret m' end)
        | Err (Conflict _) => change fuel tenant_ref grow
        | Err e => Ret (Err (SStore e))
        | Panic => Ret Panic
        end))
  | Err e => exec w (change (Datatypes.S fuel) tenant_ref grow) = (meddle w, Some (Err e))
  | Panic => False
  end.
Proof.
  intros F T Fu. destruct (meddle_onward w F T) as [On _]. destruct (onward_ok _ _ On) as [T1 F1].
  destruct T1 as (I1 & [m Cm] & Sv). assert (Cm' := Cm). unfold current in Cm'.
  destruct (cas_view (w_store (meddle w)) mkey) as [[d v]|] eqn:V; [|done].
  destruct (from_json d) as [m1| |] eqn:J; try done. injection Cm' as ->.
  exists d, v, m. split; [done|]. split; [done|].
  pose proof (from_json_readable _ _ J) as R.
  assert (E : exec w (change (Datatypes.S fuel) tenant_ref grow) =
    exec (meddle w) (to ← Ret (next_count grow (m_shards m));
          at_ ← era_floor layout m;
          Now (λ unix,
          let manifest := resized m to at_ unix in
          Put mkey (to_json manifest) (Some v) (λ r,
            match r with
            | Ok _ =>
                let history := manifest_history layout (m_epoch manifest) unix in
                put_absent history (to_json (with_lease None manifest)) (λ r,
                  match r with Panic => Ret Panic | _ => mret manifest end)
            | Err (Conflict _) => change fuel tenant_ref grow
            | Err e => Ret (Err (SStore e))
            | Panic => Ret Panic
            end)))).
  { cbn [change]. rewrite exec_bind. unfold get_. destruct w as [s ms env]. rewrite exec_get by done.
    cbn [exec map_err]. rewrite V. rewrite exec_bind. cbn [exec]. by rewrite J. }
  rewrite exec_bind in E. cbn [exec] in E.
  destruct (next_count grow (m_shards m)) as [to|e|] eqn:Nc; [|done|by apply next_count_no_panic in Nc].
  destruct (floor_loop_covers m (seqZ 0 (as_u16 (m_shards m))) None (meddle w)) as (w2 & at_ & Ex & On2 & Fa & _ & Cv);
    [done|done|done|done|].
  exists w2, at_. split_and!; [done|done| |].
  - intros shard Hs. apply Cv. apply elem_of_seqZ. lia.
  - rewrite E, exec_bind. unfold era_floor. rewrite Ex. cbn [exec on_now world_handler].
    destruct On2 as (_ & _ & -> & _). destruct On as (_ & _ & -> & _). done.
Qed.

Lemma shard_key_not_manifest shard : shard_manifest layout shard ≠ mkey.
Proof.
  unfold shard_manifest, shard_prefix, manifest_key. rewrite <-!app_assoc. by intros E%app_inv_head.
Qed.
(** Replacing the manifest by a readable one disturbs no shard. *)
Lemma tenant_ok_swapped s s' m' v' :
  tenant_ok s → cas_inv s' → cas_view s' mkey = Some (to_json m', v') → readable m' →
  (∀ key, key ≠ mkey → cas_view s' key = cas_view s key) →
  tenant_ok s' ∧ current layout s' = Some m'.
Proof.
  intros (I & _ & Sv) I' V R O. assert (C : current layout s' = Some m') by by eapply current_json.
  split; [|done]. split_and!; [done|by exists m'|]. intros shard. split; [done|].
  intros d v. rewrite O by apply shard_key_not_manifest. apply (Sv shard).
Qed.

(** Whatever the history snapshot meets, the resize has happened. *)
Lemma history_put (w : world S) history data (m' : Manifest) :
  Forall tenant_civil (w_env w) → tenant_ok (w_store w) →
  ∃ w', exec w (put_absent history data (λ r,
    match r with Panic => Ret Panic | _ => mret m' end) : prog ShardError Manifest) = (w', Some (Ok m')).
Proof.
  intros F T. destruct (meddle_onward w F T) as [On _]. destruct (onward_ok _ _ On) as [[I _] _].
  unfold put_absent. cbn [exec on_put world_handler].
  pose proof (put_if_match_ok (w_store (meddle w)) history data None I) as P.
  destruct (put_if_match _ _ _ _) as [s1 r]. destruct P as [_ P].
  destruct (bool_decide _); [destruct P as (v & -> & _)|destruct P as [-> _]]; by eexists.
Qed.

Lemma change_atomic fuel grow (w : world S) :
  Forall tenant_civil (w_env w) → tenant_ok (w_store w) → fits 8 (w_ms w / 1000) →
  (length (w_env w) < fuel)%nat →
  match exec w (change fuel tenant_ref grow) with
  | (_, Some (Ok m')) => resize_published grow (w_ms w / 1000) m'
  | (_, Some (Err e)) => ∃ s m, tenant_ok s ∧ current layout s = Some m ∧ next_count grow (m_shards m) = Err e
  | _ => False
  end.
Proof.
  revert w. induction fuel as [|fuel IH]; intros w F T Fu L; [lia|].
  destruct (meddle_onward w F T) as [On1 Lt1]. destruct (onward_ok _ _ On1) as [T1 F1].
  destruct (change_round fuel grow w F T Fu) as (d & v & m & V & J & Rd).
  assert (C1 : current layout (w_store (meddle w)) = Some m) by (unfold current; by rewrite V, J).
  destruct (next_count grow (m_shards m)) as [to|e|] eqn:Nc; [|rewrite Rd; eauto|done].
  destruct Rd as (w2 & at_ & On2 & Fa & Cv & E). cbv zeta in E. rewrite E. clear E.
  set (m' := resized m to at_ (w_ms w / 1000)).
  destruct (onward_ok _ _ On2) as [T2 F2]. destruct (meddle_onward w2 F2 T2) as [On3 _].
  destruct (onward_ok _ _ On3) as [T3 F3]. pose proof (onward_trans _ _ _ On2 On3) as On13.
  cbn [exec on_put world_handler]. set (w3 := meddle w2) in *.
  pose proof (put_if_match_ok (w_store w3) mkey (to_json m') (Some v) (proj1 T3)) as P.
  destruct (put_if_match (w_store w3) mkey (to_json m') (Some v)) as [s' r] eqn:Ep. destruct P as [I' P].
  case_bool_decide as C.
  - destruct P as (v' & -> & V' & O).
    assert (R' : readable m') by (eapply readable_resized; eauto using from_json_readable).
    destruct (tenant_ok_swapped _ _ _ _ T3 I' V' R' O) as [T' C'].
    assert (V3 : cas_view (w_store w3) mkey = Some (d, v)).
    { destruct (cas_view (w_store w3) mkey) as [[d3 v3]|] eqn:V3; [|done]. cbn in C. simplify_eq.
      destruct On13 as ((_ & Sn & _) & _). assert (d3 = d) as ->; [|done].
      eapply cas_snap_use; [exact (proj1 T3)| |exact V3]. apply Sn, cas_snap_get; [exact (proj1 T1)|done]. }
    destruct (history_put (mkWorld s' (w_ms w3) (w_env w3)) (manifest_history layout (m_epoch m') (w_ms w / 1000))
      (to_json (with_lease None m')) m') as [w' ->]; [done|done|].
    exists (w_store w3), m, to, at_. split_and!; [done|unfold current; by rewrite V3, J|done..|by eapply resized_eras| |].
    + intros shard Hs. eapply floor_covered_onward; [apply On3|reflexivity|by apply Cv].
    + exists (Some (d, v)), v'. split; [done|]. cbn [fmap option_fmap option_map snd]. by rewrite Ep.
  - destruct P as [-> ->]. assert (w_ms w3 = w_ms w) as Ems.
    { destruct On13 as (_ & _ & -> & _). by destruct On1 as (_ & _ & -> & _). }
    assert (N : w_env w ≠ []).
    { intros Ew. assert (w3 = w) as E3.
      { pose proof (onward_trans _ _ _ On1 On13) as (_ & _ & _ & _ & N). by apply N. }
      assert (meddle w = w) as E1 by (destruct On1 as (_ & _ & _ & _ & N); by apply N).
      rewrite E1 in V. rewrite E3, V in C. by apply C. }
    specialize (Lt1 N). destruct On13 as (_ & _ & _ & L13 & _).
    assert (mkWorld (w_store w3) (w_ms w3) (w_env w3) = w3) as -> by by destruct w3.
    rewrite <-Ems. apply IH; [done|done|by rewrite Ems|lia].
Qed.


End resize.

(** ** Concrete resizes *)
Module ShardsWitness.
Import Concrete ManifestConcrete ShardWitness.
Definition history : list ShardChange := [mkChange 1 2 100 7; mkChange 2 4 200 8; mkChange 4 2 300 9].
Lemma serving_shards_complete_witness :
  ∃ l, @serving_shards ShardError (shard_of (key_page 1663 5 16400 0 123456789) 2) 2 history = Ok l ∧
    shard_of (key_page 1663 5 16400 0 123456789) 4 ∈ l.
Proof.
  destruct (serving_shards_complete (key_page 1663 5 16400 0 123456789) 2 history) as (l & E & _ & A & _).
  - repeat constructor; try (by exists 0%nat; split; [lia|]); try (by exists 1%nat; split; [lia|]);
      by exists 2%nat; split; [lia|].
  - exists l. split; [exact E|]. apply (A 4). apply (bool_decide_unpack _). by vm_compute.
Defined.

Definition m0 : Manifest := manifest_new (str "t1") 18.
Definition s0 : MemStore := (put_if_absent ms_new (manifest_key (layout_new (str "t1"))) (to_json m0)).1.
Definition w0 : world MemStore := mkWorld s0 1700000000000 [id; id].
Lemma s0_view shard : cas_view s0 (shard_manifest (layout_new (str "t1")) shard) = None.
Proof.
  unfold s0, put_if_absent. cbn [put_if_match mem_cas]. rewrite ms_put_cases. cbn [ms_new ms_objects bt_get fmap option_fmap option_map].
  rewrite bool_decide_true by done. cbn [fst cas_view mem_cas_ok ms_objects bt_insert bt_get].
  by rewrite oeqb_ne by apply shard_key_not_manifest.
Qed.
Lemma w0_ok : tenant_ok (str "t1") s0.
Proof.
  split_and!; [exact (put_if_absent_inv ms_new _ _ ms_new_ok)|exists m0; by vm_compute|].
  intros shard. split; [exact (put_if_absent_inv ms_new _ _ ms_new_ok)|]. intros d v. by rewrite s0_view.
Qed.
End ShardsWitness.
