(* ===== verification/Segment.v ===== *)
(** * Segment: landing segments (crates/zou-log/src/segment.rs)

    One batch window of frames of many tenants, with a footer that says for
    each tenant which byte runs its frames occupy.  Consolidation reads the
    runs the footer names and nothing else, so the footer must be exact. *)
From S2P Require Import Prelude Order Text Lsn Externals Frame.

Definition SEGMENT_MAGIC : bytes := str "ZSEG".
Definition FOOTER_MAGIC : bytes := str "ZSGF".
Definition SEGMENT_VERSION : Z := 1.
Definition SEG_HEADER_LEN : Z := 4 + 2 + 2 + 4 + 8 + 8.
Definition SEG_TAIL_LEN : Z := 4 + 4 + 4.
Definition SUMMARY_FIXED_LEN : Z := 16 + 8 + 8 + 4 + 4.
Definition RUN_LEN : Z := 8 + 8.

Inductive SegmentKind := Landing | Seal.
Record SegmentHeader := mkSegHeader {
  sh_kind : SegmentKind; sh_shard : Z; sh_seq : Z; sh_prev_digest : Z
}.
Record TenantRun := mkRun { run_offset : Z; run_len : Z }.
Record TenantSummary := mkSummary {
  ts_tenant : Z; ts_min_lsn : Lsn; ts_max_lsn : Lsn; ts_frames : Z; ts_runs : list TenantRun
}.
Record SegmentFooter := mkSegFooter { sf_frame_count : Z; sf_tenants : list TenantSummary }.

Inductive SegmentDecodeError :=
  | SegTruncated (have need : Z)
  | SegBadMagic
  | SegUnsupportedVersion (found : Z)
  | SegUnknownKind (found : Z)
  | SegCorrupt
  | SegFrame (index : Z) (source : Frame2DecodeError).

Section segment.
Context `{Crc, Lz4}.
Abbreviation sres := (res SegmentDecodeError).

(** [tenants_digest] *)
Definition tenants_digest (tenants : list TenantSummary) : Z :=
  let b := concat ((λ t, le_bytes 16 (ts_tenant t) ++ le_bytes 8 (ts_max_lsn t)) <$> tenants) in
  Z.lor (Z.shiftl (zlen tenants) 32 mod 2 ^ 64) (crc32c b).

(** ** Building *)
Record SummaryAcc := mkAcc {
  sa_min_lsn : Lsn; sa_max_lsn : Lsn; sa_frames : Z; sa_runs : list TenantRun
}.
Record SegmentBuilder := mkSegBuilder {
  sb_buf : bytes;
  sb_tenants : list (Z * SummaryAcc);
  sb_frame_count : Z
}.

Definition kind_code (k : SegmentKind) : Z := match k with Landing => 0 | Seal => 1 end.
Definition encode_seg_header (h : SegmentHeader) : bytes :=
  SEGMENT_MAGIC ++ le_bytes 2 SEGMENT_VERSION ++ le_bytes 2 (kind_code (sh_kind h)) ++
  le_bytes 4 (sh_shard h) ++ le_bytes 8 (sh_seq h) ++ le_bytes 8 (sh_prev_digest h).
(** [SegmentBuilder::new] *)
Definition segment_new (h : SegmentHeader) : SegmentBuilder := mkSegBuilder (encode_seg_header h) [] 0.

(** The last run grows when the frame follows it, otherwise a run starts. *)
Definition add_run (runs : list TenantRun) (offset len : Z) : list TenantRun :=
  match last runs with
  | Some run =>
      if run_offset run + run_len run =? offset
      then removelast runs ++ [mkRun (run_offset run) (run_len run + len)]
      else runs ++ [mkRun offset len]
  | None => runs ++ [mkRun offset len]
  end.
(** A [u32] counter. *)
Definition incr32 {E} (n : Z) : res E Z := if n + 1 <=? u32_max then Ok (n + 1) else Panic.

(** [SegmentBuilder::push_encoded] *)
Definition push_encoded {E} (b : SegmentBuilder) (tenant : Z) (start_lsn end_lsn : Lsn) (wire : bytes) :
    res E SegmentBuilder :=
  let offset := zlen (sb_buf b) in
  let buf := sb_buf b ++ wire in
  count ← incr32 (sb_frame_count b);
  let acc := default (mkAcc start_lsn end_lsn 0 []) (bt_get tenant (sb_tenants b)) in
  frames ← incr32 (sa_frames acc);
  let acc := mkAcc (Z.min (sa_min_lsn acc) start_lsn) (Z.max (sa_max_lsn acc) end_lsn) frames
               (add_run (sa_runs acc) offset (zlen wire)) in
  mret (mkSegBuilder buf (bt_insert tenant acc (sb_tenants b)) count).

Definition encode_run (r : TenantRun) : bytes := le_bytes 8 (run_offset r) ++ le_bytes 8 (run_len r).
Definition encode_summary (t : TenantSummary) : bytes :=
  le_bytes 16 (ts_tenant t) ++ le_bytes 8 (ts_min_lsn t) ++ le_bytes 8 (ts_max_lsn t) ++
  le_bytes 4 (ts_frames t) ++ le_bytes 4 (zlen (ts_runs t)) ++ concat (encode_run <$> ts_runs t).
Definition encode_seg_footer (f : SegmentFooter) : bytes :=
  le_bytes 4 (zlen (sf_tenants f)) ++ concat (encode_summary <$> sf_tenants f) ++
  le_bytes 4 (sf_frame_count f).
Definition summaries (m : list (Z * SummaryAcc)) : list TenantSummary :=
  (λ e, mkSummary e.1 (sa_min_lsn e.2) (sa_max_lsn e.2) (sa_frames e.2) (sa_runs e.2)) <$> m.
(** [SegmentBuilder::finish] *)
Definition segment_finish {E} (b : SegmentBuilder) : res E (bytes * list TenantSummary) :=
  let footer_start := zlen (sb_buf b) in
  let tenants := summaries (sb_tenants b) in
  let buf := sb_buf b ++ encode_seg_footer (mkSegFooter (sb_frame_count b) tenants) in
  let footer_len := as_u32 (zlen buf - footer_start) in
  let buf := buf ++ le_bytes 4 footer_len in
  hdr ← slice buf 0 SEG_HEADER_LEN;
  body ← slice buf footer_start (footer_start + footer_len);
  let crc := crc32c_append (crc32c hdr) body in
  mret (buf ++ le_bytes 4 crc ++ FOOTER_MAGIC, tenants).

(** ** Decoding *)
(** [parse_header] *)
Definition parse_seg_header (buf : bytes) : sres SegmentHeader :=
  _ ← guard_err (zlen buf <? SEG_HEADER_LEN + SEG_TAIL_LEN)
        (SegTruncated (zlen buf) (SEG_HEADER_LEN + SEG_TAIL_LEN));
  magic ← slice buf 0 4;
  _ ← guard_err (negb (bool_decide (magic = SEGMENT_MAGIC))) SegBadMagic;
  version ← le_at 2 buf 4;
  _ ← guard_err (negb (version =? SEGMENT_VERSION)) (SegUnsupportedVersion version);
  k ← le_at 2 buf 6;
  kind ← (if k =? 0 then Ok Landing else if k =? 1 then Ok Seal else Err (SegUnknownKind k));
  shard ← le_at 4 buf 8;
  seq ← le_at 8 buf 12;
  prev ← le_at 8 buf 20;
  mret (mkSegHeader kind shard seq prev).

Fixpoint read_runs (n : nat) (rest : bytes) : sres (list TenantRun * bytes) :=
  match n with
  | O => mret ([], rest)
  | S n =>
      '(r, rest) ← take_n SegCorrupt RUN_LEN rest;
      '(runs, rest) ← read_runs n rest;
      mret (mkRun (le_val (sub r 0 8)) (le_val (sub r 8 16)) :: runs, rest)
  end.
Definition read_summary (rest : bytes) : sres (TenantSummary * bytes) :=
  '(fixed, rest) ← take_n SegCorrupt SUMMARY_FIXED_LEN rest;
  let run_count := le_val (sub fixed 36 40) in
  _ ← guard_err (zlen rest / RUN_LEN <? run_count) SegCorrupt;
  '(runs, rest) ← read_runs (Z.to_nat run_count) rest;
  mret (mkSummary (le_val (sub fixed 0 16)) (le_val (sub fixed 16 24)) (le_val (sub fixed 24 32))
          (le_val (sub fixed 32 36)) runs, rest).
Fixpoint read_summaries (n : nat) (rest : bytes) : sres (list TenantSummary * bytes) :=
  match n with
  | O => mret ([], rest)
  | S n =>
      '(t, rest) ← read_summary rest;
      '(ts, rest) ← read_summaries n rest;
      mret (t :: ts, rest)
  end.
(** The footer body of [parse_shell]. *)
Definition parse_seg_footer (body : bytes) : sres SegmentFooter :=
  '(c, rest) ← take_n SegCorrupt 4 body;
  let tenant_count := le_val c in
  _ ← guard_err (zlen body / SUMMARY_FIXED_LEN <? tenant_count) SegCorrupt;
  '(tenants, rest) ← read_summaries (Z.to_nat tenant_count) rest;
  '(n, rest) ← take_n SegCorrupt 4 rest;
  _ ← guard_err (negb (bool_decide (rest = []))) SegCorrupt;
  mret (mkSegFooter (le_val n) tenants).
(** [parse_shell] *)
Definition parse_seg_shell (buf : bytes) : sres (SegmentHeader * SegmentFooter * Z) :=
  header ← parse_seg_header buf;
  magic ← slice buf (zlen buf - 4) (zlen buf);
  _ ← guard_err (negb (bool_decide (magic = FOOTER_MAGIC))) SegBadMagic;
  tail_at ← usub (zlen buf) SEG_TAIL_LEN;
  footer_len ← le_at 4 buf tail_at;
  stored_crc ← le_at 4 buf (tail_at + 4);
  room ← usub tail_at SEG_HEADER_LEN;
  _ ← guard_err (room <? footer_len) SegCorrupt;
  footer_start ← usub tail_at footer_len;
  hdr ← slice buf 0 SEG_HEADER_LEN;
  body ← slice buf footer_start tail_at;
  let crc := crc32c_append (crc32c hdr) body in
  _ ← guard_err (negb (crc =? stored_crc)) SegCorrupt;
  footer ← parse_seg_footer body;
  mret (header, footer, footer_start).
(** [read_footer] *)
Definition read_seg_footer (buf : bytes) : sres (SegmentHeader * SegmentFooter) :=
  '(header, footer, _) ← parse_seg_shell buf; mret (header, footer).

(** Frames of a stream up to its first error. *)
Fixpoint collect_frames (items : list (res Frame2DecodeError Frame2)) (frames : list Frame2) :
    sres (list Frame2) :=
  match items with
  | [] => mret frames
  | Ok f :: items => collect_frames items (frames ++ [f])
  | Err source :: _ => Err (SegFrame (zlen frames) source)
  | Panic :: _ => Panic
  end.
(** [decode_segment] *)
Definition decode_segment (buf : bytes) : sres (SegmentHeader * list Frame2 * SegmentFooter) :=
  '(header, footer, footer_start) ← parse_seg_shell buf;
  region ← slice buf SEG_HEADER_LEN footer_start;
  frames ← collect_frames (frame_stream region) [];
  _ ← guard_err (negb (zlen frames =? sf_frame_count footer)) SegCorrupt;
  mret (header, frames, footer).
End segment.

(** ** Arbitrary bytes *)
Section seg_garbage.
Context `{Crc, Lz4}.

Lemma no_panic_read_runs n rest : no_panic (read_runs n rest).
Proof.
  revert rest. induction n as [|n IH]; intros rest; cbn [read_runs]; [done|]. np_step.
  apply no_panic_bind; [apply IH|]. by intros [runs r] _.
Qed.
Lemma no_panic_read_summaries n rest : no_panic (read_summaries n rest).
Proof.
  revert rest. induction n as [|n IH]; intros rest; cbn [read_summaries]; [done|].
  apply no_panic_bind.
  - unfold read_summary. np_step. np_step. apply no_panic_bind; [apply no_panic_read_runs|]. by intros [? ?] _.
  - intros [t r] _. apply no_panic_bind; [apply IH|]. by intros [ts r'] _.
Qed.
Lemma no_panic_seg_footer body : no_panic (parse_seg_footer body).
Proof.
  unfold parse_seg_footer. np_step. np_step. apply no_panic_bind; [apply no_panic_read_summaries|].
  intros [ts r] _. repeat np_step.
Qed.
Lemma no_panic_seg_header buf : no_panic (parse_seg_header buf).
Proof.
  unfold parse_seg_header, SEG_HEADER_LEN, SEG_TAIL_LEN. np_step. np_step. np_step. np_step. np_step. np_step.
  apply no_panic_bind; [destruct (_ =? 0); [done|]; by destruct (_ =? 1)|]. intros kind _. repeat np_step.
Qed.
Lemma seg_header_len buf h : parse_seg_header buf = Ok h → 40 ≤ zlen buf.
Proof. unfold parse_seg_header. intros E. bind_inv E. unfold SEG_HEADER_LEN, SEG_TAIL_LEN in *. lia. Qed.
Lemma no_panic_seg_shell buf : no_panic (parse_seg_shell buf).
Proof.
  unfold parse_seg_shell. apply no_panic_bind; [apply no_panic_seg_header|]. intros h L%seg_header_len.
  unfold SEG_HEADER_LEN, SEG_TAIL_LEN. do 11 np_step.
  apply no_panic_bind; [apply no_panic_seg_footer|]. done.
Qed.
(** The frame region lies between the header and the footer. *)
Lemma seg_shell_region buf h f start :
  parse_seg_shell buf = Ok (h, f, start) → SEG_HEADER_LEN ≤ start ≤ zlen buf.
Proof.
  unfold parse_seg_shell. intros E. apply bind_ok in E as (h' & Eh & E).
  bind_inv E. bind_inv E. bind_inv E. apply bind_ok in E as (fl & Efl & E). apply bind_ok in E as (? & _ & E).
  bind_inv E. bind_inv E. bind_inv E. bind_inv E. bind_inv E. bind_inv E.
  apply bind_ok in E as (f' & Ef & E). apply (inj Ok) in E. injection E as <- <- <-.
  unfold le_at in Efl. bind_inv Efl. apply (inj Ok) in Efl as <-.
  match goal with |- context [le_val ?l] => pose proof (le_val_fits l) as F end.
  unfold fits, SEG_HEADER_LEN, SEG_TAIL_LEN in *. lia.
Qed.
Lemma no_panic_collect items frames :
  Forall no_panic items → no_panic (collect_frames items frames).
Proof.
  intros F. revert frames. induction F as [|r items N F IH]; intros frames; cbn; [done|].
  destruct r; [apply IH|done|done].
Qed.
Lemma stream_np fuel buf : Forall no_panic (stream fuel buf).
Proof.
  revert buf. induction fuel as [|fuel IH]; intros buf; cbn [stream]; [done|].
  unfold stream_next. case_bool_decide; [done|]. pose proof (decode_np buf) as N.
  destruct (decode buf) as [[f n]|e|]; [constructor; [done|apply IH]..|done].
Qed.

(** No bytes make the segment decoders panic; what is accepted has
    its frame region between the header and the footer. *)
Theorem segment_decoders_never_panic (buf : bytes) :
  no_panic (decode_segment buf) ∧ no_panic (read_seg_footer buf) ∧
  match parse_seg_shell buf with Ok (_, _, start) => SEG_HEADER_LEN ≤ start ≤ zlen buf | _ => True end.
Proof.
  split_and!.
  - unfold decode_segment. apply no_panic_bind; [apply no_panic_seg_shell|]. intros [[h f] start] P.
    apply seg_shell_region in P. unfold SEG_HEADER_LEN in *. apply np_slice; [lia|lia|].
    apply no_panic_bind; [apply no_panic_collect, stream_np|]. intros frames _. repeat np_step.
  - unfold read_seg_footer. apply no_panic_bind; [apply no_panic_seg_shell|]. by intros [[h f] start] _.
  - destruct (parse_seg_shell buf) as [[[h f] start]| |] eqn:P; try done. by eapply seg_shell_region.
Qed.
End seg_garbage.

(** ** What is written reads back *)
Definition header_fits (h : SegmentHeader) : Prop :=
  fits 4 (sh_shard h) ∧ fits 8 (sh_seq h) ∧ fits 8 (sh_prev_digest h).
Definition run_fits (r : TenantRun) : Prop := fits 8 (run_offset r) ∧ fits 8 (run_len r).
Definition summary_fits (t : TenantSummary) : Prop :=
  fits 16 (ts_tenant t) ∧ fits 8 (ts_min_lsn t) ∧ fits 8 (ts_max_lsn t) ∧ fits 4 (ts_frames t) ∧
  fits 4 (zlen (ts_runs t)) ∧ Forall run_fits (ts_runs t).
Definition seg_footer_fits (f : SegmentFooter) : Prop :=
  fits 4 (zlen (sf_tenants f)) ∧ Forall summary_fits (sf_tenants f) ∧ fits 4 (sf_frame_count f).

(** Solve [sub buf a b = m] when the concatenation [buf] has [m] at [a]. *)
Ltac sub_here :=
  first
    [ apply sub_prefix; zlen_lia | apply sub_mid; zlen_lia | apply sub_suffix; zlen_lia
    | rewrite app_assoc; sub_here ].

Section seg_codec.
Context `{CrcOk, Lz4Ok}.

Lemma zlen_encode_run r : zlen (encode_run r) = 16.
Proof. unfold encode_run. by autorewrite with len. Qed.
Lemma zlen_encode_runs rs : zlen (concat (encode_run <$> rs)) = 16 * zlen rs.
Proof.
  induction rs as [|r rs IH]; [done|]. rewrite fmap_cons. cbn [concat].
  rewrite zlen_app, zlen_encode_run, IH, zlen_cons. lia.
Qed.
Lemma zlen_encode_summary t : zlen (encode_summary t) = 40 + 16 * zlen (ts_runs t).
Proof. unfold encode_summary. autorewrite with len. rewrite zlen_encode_runs. lia. Qed.
Lemma zlen_encode_summaries ts : 40 * zlen ts ≤ zlen (concat (encode_summary <$> ts)).
Proof.
  induction ts as [|t ts IH]; [done|]. rewrite fmap_cons. cbn [concat].
  rewrite zlen_app, zlen_encode_summary, zlen_cons. pose proof (zlen_nonneg (ts_runs t)). lia.
Qed.

Lemma read_runs_encoded rs rest :
  Forall run_fits rs → read_runs (length rs) (concat (encode_run <$> rs) ++ rest) = Ok (rs, rest).
Proof.
  intros F. induction F as [|r rs [F1 F2] F IH]; [done|]. cbn [length read_runs fmap list_fmap concat].
  rewrite <-app_assoc. rewrite (take_n_app _ _ (encode_run r)) by by rewrite zlen_encode_run.
  rewrite bind_run. cbn [fmap list_fmap] in IH. rewrite IH, bind_run. destruct r as [o l]. cbn in *.
  unfold mret, res_ret. do 3 f_equal. unfold encode_run. cbn [run_offset run_len]. f_equal.
  - assert (sub (le_bytes 8 o ++ le_bytes 8 l) 0 8 = le_bytes 8 o) as -> by sub_here. by apply le_val_bytes.
  - assert (sub (le_bytes 8 o ++ le_bytes 8 l) 8 16 = le_bytes 8 l) as -> by sub_here. by apply le_val_bytes.
Qed.
Lemma read_summary_encoded t rest :
  summary_fits t → read_summary (encode_summary t ++ rest) = Ok (t, rest).
Proof.
  intros (F1 & F2 & F3 & F4 & F5 & F6). unfold read_summary, SUMMARY_FIXED_LEN.
  set (fixed := le_bytes 16 (ts_tenant t) ++ le_bytes 8 (ts_min_lsn t) ++ le_bytes 8 (ts_max_lsn t) ++
    le_bytes 4 (ts_frames t) ++ le_bytes 4 (zlen (ts_runs t))).
  assert (E : encode_summary t ++ rest = fixed ++ concat (encode_run <$> ts_runs t) ++ rest).
  { unfold encode_summary, fixed. by rewrite <-!app_assoc. }
  rewrite E, (take_n_app _ _ fixed) by (unfold fixed; zlen_lia). rewrite bind_run.
  assert (sub fixed 36 40 = le_bytes 4 (zlen (ts_runs t))) as -> by (unfold fixed; sub_here).
  assert (sub fixed 0 16 = le_bytes 16 (ts_tenant t)) as -> by (unfold fixed; sub_here).
  assert (sub fixed 16 24 = le_bytes 8 (ts_min_lsn t)) as -> by (unfold fixed; sub_here).
  assert (sub fixed 24 32 = le_bytes 8 (ts_max_lsn t)) as -> by (unfold fixed; sub_here).
  assert (sub fixed 32 36 = le_bytes 4 (ts_frames t)) as -> by (unfold fixed; sub_here).
  rewrite !le_val_bytes by done. cbv zeta. rewrite guard_run; cycle 1.
  { apply Z.ltb_ge. rewrite zlen_app, zlen_encode_runs. unfold RUN_LEN.
    apply Z.div_le_lower_bound; [lia|]. pose proof (zlen_nonneg rest). lia. }
  rewrite to_nat_zlen, read_runs_encoded, bind_run by done. by destruct t.
Qed.
Lemma read_summaries_encoded ts rest :
  Forall summary_fits ts →
  read_summaries (length ts) (concat (encode_summary <$> ts) ++ rest) = Ok (ts, rest).
Proof.
  intros F. induction F as [|t ts Ft F IH]; [done|]. cbn [length read_summaries fmap list_fmap concat].
  rewrite <-app_assoc, read_summary_encoded, bind_run by done. cbn [fmap list_fmap] in IH. by rewrite IH, bind_run.
Qed.
Lemma parse_seg_footer_encoded f :
  seg_footer_fits f → parse_seg_footer (encode_seg_footer f) = Ok f.
Proof.
  intros (F1 & F2 & F3). unfold parse_seg_footer. set (body := encode_seg_footer f) at 1.
  assert (L : 40 * zlen (sf_tenants f) ≤ zlen body).
  { unfold body, encode_seg_footer. rewrite !zlen_app, !zlen_le_bytes.
    pose proof (zlen_encode_summaries (sf_tenants f)). lia. }
  clearbody body. unfold encode_seg_footer. rewrite (take_n_app _ _ (le_bytes 4 _)) by zlen_lia.
  rewrite bind_run, le_val_bytes by done. cbv zeta. rewrite guard_run; cycle 1.
  { apply Z.ltb_ge. apply Z.div_le_lower_bound; unfold SUMMARY_FIXED_LEN; lia. }
  rewrite to_nat_zlen, <-(app_nil_r (le_bytes 4 (sf_frame_count f))), read_summaries_encoded, bind_run by done.
  cbv iota beta. rewrite (take_n_app _ _ (le_bytes 4 _) []) by zlen_lia.
  rewrite bind_run, guard_run by by rewrite bool_decide_true.
  rewrite le_val_bytes by done. by destruct f.
Qed.

Lemma zlen_seg_header h : zlen (encode_seg_header h) = 28.
Proof. unfold encode_seg_header. by autorewrite with len. Qed.
Lemma zlen_seg_magic : zlen SEGMENT_MAGIC = 4.
Proof. done. Qed.
Hint Rewrite zlen_seg_header zlen_seg_magic : len.
Lemma parse_seg_header_encoded h rest :
  header_fits h → 12 ≤ zlen rest → parse_seg_header (encode_seg_header h ++ rest) = Ok h.
Proof.
  intros (F1 & F2 & F3) L. unfold parse_seg_header, SEG_HEADER_LEN, SEG_TAIL_LEN.
  rewrite guard_run by (zbool; zlen_lia). rewrite slice_run by zlen_lia.
  unfold encode_seg_header. rewrite <-!app_assoc.
  rewrite sub_prefix by done. rewrite guard_run by by rewrite bool_decide_true.
  assert (F4 : fits 2 SEGMENT_VERSION) by (unfold fits, SEGMENT_VERSION; lia).
  assert (F5 : fits 2 (kind_code (sh_kind h))) by (unfold fits; destruct (sh_kind h); cbn; lia).
  do 2 (match goal with |- context [le_at ?n ?b ?a] =>
    let R := fresh in eassert (R : @le_at SegmentDecodeError n b a = Ok _) by field;
    rewrite R, bind_run; clear R end; try rewrite guard_run by done).
  assert (K : (if kind_code (sh_kind h) =? 0 then Ok Landing else if kind_code (sh_kind h) =? 1
    then Ok Seal else Err (SegUnknownKind (kind_code (sh_kind h)))) = Ok (sh_kind h)) by by destruct (sh_kind h).
  rewrite K, bind_run. do 3 (match goal with |- context [le_at ?n ?b ?a] =>
    let R := fresh in eassert (R : @le_at SegmentDecodeError n b a = Ok _) by field;
    rewrite R, bind_run; clear R end).
  by destruct h.
Qed.

(** The footer body, its length, the checksum over header and body, magic. *)
Definition seg_tail (h : SegmentHeader) (f : SegmentFooter) : bytes :=
  let body := encode_seg_footer f in
  body ++ le_bytes 4 (zlen body) ++
  le_bytes 4 (crc32c_append (crc32c (encode_seg_header h)) body) ++ FOOTER_MAGIC.
Lemma zlen_seg_tail h f : zlen (seg_tail h f) = zlen (encode_seg_footer f) + 12.
Proof. unfold seg_tail. rewrite !zlen_app, !zlen_le_bytes. change (zlen FOOTER_MAGIC) with 4. lia. Qed.
Hint Rewrite zlen_seg_tail : len.

Lemma parse_seg_shell_encoded h mid f :
  header_fits h → seg_footer_fits f → fits 4 (zlen (encode_seg_footer f)) →
  parse_seg_shell (encode_seg_header h ++ mid ++ seg_tail h f) = Ok (h, f, 28 + zlen mid).
Proof.
  intros Fh Ff Fl. unfold parse_seg_shell. pose proof (zlen_nonneg mid). pose proof (zlen_nonneg (encode_seg_footer f)).
  rewrite parse_seg_header_encoded, bind_run by (done || zlen_lia). unfold SEG_HEADER_LEN, SEG_TAIL_LEN.
  pose proof (crc32c_append_fits (crc32c (encode_seg_header h)) (encode_seg_footer f)) as Fc.
  set (obj := encode_seg_header h ++ mid ++ seg_tail h f).
  assert (L : zlen obj = 28 + zlen mid + zlen (encode_seg_footer f) + 12) by (unfold obj; zlen_lia).
  assert (M4 : zlen FOOTER_MAGIC = 4) by done.
  assert (T1 : sub obj (zlen obj - 4) (zlen obj) = FOOTER_MAGIC).
  { rewrite L. unfold obj, seg_tail. rewrite !app_assoc. apply sub_suffix; zlen_lia. }
  assert (T2 : @le_at SegmentDecodeError 4 obj (zlen obj - 12) = Ok (zlen (encode_seg_footer f))).
  { rewrite L. unfold obj, seg_tail. field. }
  assert (T3 : @le_at SegmentDecodeError 4 obj (zlen obj - 12 + 4) =
    Ok (crc32c_append (crc32c (encode_seg_header h)) (encode_seg_footer f))).
  { rewrite L. unfold obj, seg_tail. field. }
  assert (T4 : sub obj 0 28 = encode_seg_header h) by (unfold obj; sub_here).
  assert (T5 : sub obj (28 + zlen mid) (zlen obj - 12) = encode_seg_footer f).
  { rewrite L. unfold obj, seg_tail. rewrite app_assoc. apply sub_mid; zlen_lia. }
  clearbody obj. change (4 + 2 + 2 + 4 + 8 + 8) with 28. change (4 + 4 + 4) with 12.
  rewrite slice_run by lia. rewrite T1, guard_run by by rewrite bool_decide_true.
  rewrite usub_run by lia. rewrite T2, bind_run, T3, bind_run. rewrite usub_run by lia.
  rewrite guard_run by (zbool; lia). rewrite usub_run by lia. rewrite slice_run by lia.
  replace (zlen obj - 12 - zlen (encode_seg_footer f)) with (28 + zlen mid) by lia.
  rewrite slice_run by lia. rewrite T4, T5. cbv zeta. rewrite guard_run by (zbool; done).
  by rewrite parse_seg_footer_encoded, bind_run by done.
Qed.

Lemma collect_frames_ok fs acc : collect_frames (Ok <$> fs) acc = Ok (acc ++ fs).
Proof.
  revert acc. induction fs as [|f fs IH]; intros acc; cbn; [by rewrite app_nil_r|].
  change (list_fmap _ _ Ok fs) with (@Ok Frame2DecodeError Frame2 <$> fs). by rewrite IH, <-app_assoc.
Qed.
(** A region of encoded frames streams back as those frames. *)
Lemma frame_stream_encoded fs wires :
  Forall frame_ok fs → mapM (encode (E := Frame2DecodeError)) fs = Ok wires →
  frame_stream (concat wires) = Ok <$> fs.
Proof.
  intros F W. pose proof (mapM_encode_length fs wires F W) as L. unfold frame_stream.
  rewrite <-(app_nil_r (concat wires)) at 2. rewrite (stream_encoded _ fs wires []) by (done || lia).
  by destruct (_ - _)%nat; rewrite app_nil_r.
Qed.
Lemma decode_segment_encoded h fs wires f :
  header_fits h → seg_footer_fits f → fits 4 (zlen (encode_seg_footer f)) →
  Forall frame_ok fs → mapM (encode (E := Frame2DecodeError)) fs = Ok wires → sf_frame_count f = zlen fs →
  decode_segment (encode_seg_header h ++ concat wires ++ seg_tail h f) = Ok (h, fs, f).
Proof.
  intros Fh Ff Fl F W C. unfold decode_segment. rewrite parse_seg_shell_encoded, bind_run by done.
  pose proof (zlen_nonneg (concat wires)). pose proof (zlen_nonneg (encode_seg_footer f)).
  unfold SEG_HEADER_LEN. rewrite slice_run by zlen_lia. rewrite sub_mid by zlen_lia.
  rewrite (frame_stream_encoded fs wires F W), collect_frames_ok, bind_run. cbn [app].
  by rewrite guard_run by (zbool; done).
Qed.
End seg_codec.
#[export] Hint Rewrite @zlen_seg_header @zlen_seg_tail : len.

(** ** The builder *)
(** Frames with their wire forms, as the sequencer hands them over. *)
Abbreviation item := (Frame2 * bytes)%type.
Fixpoint push_all {E} (b : SegmentBuilder) (items : list item) : res E SegmentBuilder :=
  match items with
  | [] => mret b
  | (f, wire) :: items =>
      b ← push_encoded b (tenant f) (start_lsn f) (end_lsn f) wire;
      push_all b items
  end.
Definition of_tenant (t : Z) (items : list item) : list item := filter (λ i, tenant i.1 = t) items.
Definition wires_of (items : list item) : bytes := concat (snd <$> items).

(** The run holds exactly the wire forms of the group [g]. *)
Definition run_bytes (buf : bytes) (r : TenantRun) : bytes :=
  sub buf (run_offset r) (run_offset r + run_len r).
Definition run_holds (buf : bytes) (r : TenantRun) (g : list item) : Prop :=
  0 ≤ run_offset r ∧ 0 ≤ run_len r ∧ run_offset r + run_len r ≤ zlen buf ∧ g ≠ [] ∧
  run_bytes buf r = wires_of g.
(** The extent of the frames: the least start, the greatest end. *)
Definition extent_of (its : list item) (lo hi : Lsn) : Prop :=
  (∀ i, i ∈ its → lo ≤ start_lsn i.1 ∧ end_lsn i.1 ≤ hi) ∧
  (∃ i, i ∈ its ∧ start_lsn i.1 = lo) ∧ (∃ i, i ∈ its ∧ end_lsn i.1 = hi).
(** What the accounting of a tenant says of the tenant's frames so far. *)
Record acc_ok (buf : bytes) (mine : list item) (a : SummaryAcc) : Prop := {
  ao_frames : sa_frames a = zlen mine;
  ao_extent : extent_of mine (sa_min_lsn a) (sa_max_lsn a);
  ao_runs : ∃ gs, Forall2 (run_holds buf) (sa_runs a) gs ∧ concat gs = mine
}.
Record builder_ok (h : SegmentHeader) (its : list item) (b : SegmentBuilder) : Prop := {
  bo_buf : sb_buf b = encode_seg_header h ++ wires_of its;
  bo_count : sb_frame_count b = zlen its;
  bo_wf : bt_wf (sb_tenants b);
  bo_tenants : ∀ t, match bt_get t (sb_tenants b) with
                    | None => of_tenant t its = []
                    | Some a => acc_ok (sb_buf b) (of_tenant t its) a
                    end
}.

Lemma wires_of_app a b : wires_of (a ++ b) = wires_of a ++ wires_of b.
Proof. unfold wires_of. by rewrite fmap_app, concat_app. Qed.
Lemma run_holds_app buf k r g : run_holds buf r g → run_holds (buf ++ k) r g.
Proof.
  intros (A & B & C & D & S). unfold run_holds, run_bytes in *. pose proof (zlen_nonneg k).
  rewrite sub_app_l by lia. split_and!; [done|done|zlen_lia|done|done].
Qed.
Lemma runs_hold_app buf k rs gs : Forall2 (run_holds buf) rs gs → Forall2 (run_holds (buf ++ k)) rs gs.
Proof. intros F. eapply Forall2_impl; [exact F|]. intros r g. apply run_holds_app. Qed.
Lemma run_holds_new buf (i : item) : run_holds (buf ++ i.2) (mkRun (zlen buf) (zlen i.2)) [i].
Proof.
  pose proof (zlen_nonneg buf). pose proof (zlen_nonneg i.2). unfold run_holds, run_bytes, wires_of.
  cbn [run_offset run_len]. split_and!; [lia|lia|zlen_lia|done|].
  cbn. rewrite app_nil_r. apply sub_suffix; zlen_lia.
Qed.
Lemma run_holds_grow buf r g (i : item) :
  run_holds buf r g → run_offset r + run_len r = zlen buf →
  run_holds (buf ++ i.2) (mkRun (run_offset r) (run_len r + zlen i.2)) (g ++ [i]).
Proof.
  intros (A & B & C & D & S) E. pose proof (zlen_nonneg i.2). unfold run_holds, run_bytes in *.
  cbn [run_offset run_len]. split_and!; [lia|lia|zlen_lia|by destruct g|].
  rewrite (sub_split _ _ (zlen buf)) by zlen_lia. rewrite sub_app_l by lia. rewrite <-E, S, E.
  rewrite wires_of_app. f_equal. unfold wires_of. cbn. rewrite app_nil_r. apply sub_suffix; zlen_lia.
Qed.
Lemma add_run_holds buf rs gs (i : item) :
  Forall2 (run_holds buf) rs gs →
  ∃ gs', Forall2 (run_holds (buf ++ i.2)) (add_run rs (zlen buf) (zlen i.2)) gs' ∧
         concat gs' = concat gs ++ [i].
Proof.
  intros F. pose proof (runs_hold_app buf i.2 _ _ F) as F'. unfold add_run.
  assert (New : ∃ gs', Forall2 (run_holds (buf ++ i.2)) (rs ++ [mkRun (zlen buf) (zlen i.2)]) gs' ∧
    concat gs' = concat gs ++ [i]).
  { exists (gs ++ [[i]]). split; [|by rewrite concat_app].
    apply Forall2_app; [done|]. constructor; [apply run_holds_new|done]. }
  destruct (last rs) as [r|] eqn:La; [|done]. destruct (_ =? _) eqn:C; [|done]. zbool.
  apply last_Some in La as [rs' ->]. apply Forall2_app_inv_l in F as (gs1 & gs2 & F1 & F2 & ->).
  apply Forall2_cons_inv_l in F2 as (g & gs3 & Hr & N & ->). apply Forall2_nil_inv_l in N as ->.
  exists (gs1 ++ [g ++ [i]]). rewrite removelast_last, !concat_app. cbn. rewrite !app_nil_r, app_assoc.
  split; [|done]. apply Forall2_app; [by apply runs_hold_app|]. constructor; [|done]. by apply run_holds_grow.
Qed.

Lemma of_tenant_snoc t its i :
  of_tenant t (its ++ [i]) = of_tenant t its ++ (if tenant i.1 =? t then [i] else []).
Proof.
  unfold of_tenant. rewrite filter_app. f_equal. destruct (_ =? _) eqn:C; zbool.
  - by rewrite filter_cons_True.
  - by rewrite filter_cons_False.
Qed.
Lemma zlen_of_tenant t its : zlen (of_tenant t its) ≤ zlen its.
Proof. unfold zlen, of_tenant. pose proof (length_filter (λ i : item, tenant i.1 = t) its). lia. Qed.
Lemma extent_snoc its i lo hi :
  extent_of its lo hi → extent_of (its ++ [i]) (Z.min lo (start_lsn i.1)) (Z.max hi (end_lsn i.1)).
Proof.
  intros (A & (x & X1 & X2) & (y & Y1 & Y2)). split_and!.
  - intros j [J| ->%list_elem_of_singleton]%elem_of_app; [apply A in J|]; lia.
  - destruct (Z.min_spec lo (start_lsn i.1)) as [[_ ->]|[_ ->]]; [exists x|exists i]; set_solver.
  - destruct (Z.max_spec hi (end_lsn i.1)) as [[_ ->]|[_ ->]]; [exists i|exists y]; set_solver.
Qed.
Lemma extent_one (i : item) : extent_of [i] (start_lsn i.1) (end_lsn i.1).
Proof. split_and!; [|set_solver..]. intros j ->%list_elem_of_singleton. lia. Qed.
Lemma acc_ok_app buf k mine a : acc_ok buf mine a → acc_ok (buf ++ k) mine a.
Proof. intros [F X (gs & G1 & G2)]. split; [done..|]. exists gs. split; [by apply runs_hold_app|done]. Qed.
Lemma incr32_run {E B} n (f : Z → res E B) : n < u32_max → (incr32 n ≫= f) = f (n + 1).
Proof. intros L. unfold incr32. by rewrite (proj2 (Z.leb_le (n + 1) u32_max)) by lia. Qed.
(** The accounting of the tenant of the frame that is pushed. *)
Lemma acc_push buf mine (a0 : option SummaryAcc) (i : item) :
  match a0 with None => mine = [] | Some a => acc_ok buf mine a end →
  let a := default (mkAcc (start_lsn i.1) (end_lsn i.1) 0 []) a0 in
  sa_frames a = zlen mine ∧
  acc_ok (buf ++ i.2) (mine ++ [i])
    (mkAcc (Z.min (sa_min_lsn a) (start_lsn i.1)) (Z.max (sa_max_lsn a) (end_lsn i.1)) (sa_frames a + 1)
       (add_run (sa_runs a) (zlen buf) (zlen i.2))).
Proof.
  destruct a0 as [a|]; cbn [default].
  - intros [F X (gs & G1 & <-)]. split; [done|]. split; cbn.
    + rewrite F. zlen_lia.
    + by apply extent_snoc.
    + destruct (add_run_holds buf _ _ i G1) as (gs' & H1 & H2). eauto.
  - intros ->. split; [done|]. cbn. split; cbn.
    + done.
    + rewrite Z.min_id, Z.max_id. apply extent_one.
    + destruct (add_run_holds buf [] [] i) as (gs' & H1 & H2); [constructor|]. eauto.
Qed.
Lemma push_encoded_ok {E} h its b (i : item) :
  builder_ok h its b → zlen its < u32_max →
  ∃ b', @push_encoded E b (tenant i.1) (start_lsn i.1) (end_lsn i.1) i.2 = Ok b' ∧
        builder_ok h (its ++ [i]) b'.
Proof.
  intros [B C W T] L. unfold push_encoded. rewrite incr32_run by (rewrite C; done).
  destruct (acc_push (sb_buf b) _ _ i (T (tenant i.1))) as [F A].
  pose proof (zlen_of_tenant (tenant i.1) its). rewrite incr32_run by lia.
  eexists. split; [reflexivity|]. split; cbn [sb_buf sb_tenants sb_frame_count].
  - rewrite B, wires_of_app, <-app_assoc. do 2 f_equal. unfold wires_of. cbn. by rewrite app_nil_r.
  - rewrite C. zlen_lia.
  - by apply bt_insert_wf.
  - intros t. rewrite bt_get_insert by done. rewrite of_tenant_snoc. destruct (oeqb t (tenant i.1)) eqn:Et.
    + apply oeqb_spec in Et as ->. by rewrite Z.eqb_refl.
    + destruct (tenant i.1 =? t) eqn:Ez; zbool; [by rewrite Ez, oeqb_refl in Et|]. rewrite app_nil_r.
      specialize (T t). destruct (bt_get t _); [by apply acc_ok_app|done].
Qed.
Lemma push_all_ok {E} h its its' b :
  builder_ok h its b → zlen its + zlen its' ≤ u32_max →
  ∃ b', @push_all E b its' = Ok b' ∧ builder_ok h (its ++ its') b'.
Proof.
  revert its b. induction its' as [|i its' IH]; intros its b B L.
  - exists b. rewrite app_nil_r. done.
  - rewrite zlen_cons in L. pose proof (zlen_nonneg its').
    destruct (push_encoded_ok (E := E) h its b i B) as (b1 & P & B1); [lia|].
    destruct (IH (its ++ [i]) b1 B1) as (b2 & P2 & B2); [zlen_lia|]. exists b2.
    rewrite <-app_assoc in B2. split; [|done]. destruct i as [f w]. cbn [push_all fst snd] in *. by rewrite P, bind_run.
Qed.
Lemma segment_new_ok h : builder_ok h [] (segment_new h).
Proof. split; cbn; [by rewrite app_nil_r|done|done|]. done. Qed.

(** ** The footer fits its widths *)
Lemma zlen_groups buf rs gs : Forall2 (run_holds buf) rs gs → zlen rs ≤ zlen (concat gs).
Proof.
  induction 1 as [|r g rs gs (_ & _ & _ & N & _) F IH]; [done|]. cbn [concat].
  destruct g as [|i g]; [done|]. pose proof (zlen_nonneg g). zlen_lia.
Qed.
Lemma of_tenant_other t u its : t ≠ u → of_tenant u (filter (λ i, tenant i.1 ≠ t) its) = of_tenant u its.
Proof. intros N. unfold of_tenant. rewrite list_filter_filter_l; [done|]. intros i <-. congruence. Qed.
Lemma of_tenant_split t its :
  zlen its = zlen (of_tenant t its) + zlen (filter (λ i : item, tenant i.1 ≠ t) its).
Proof.
  induction its as [|i its IH]; [done|]. unfold of_tenant in *. rewrite zlen_cons, IH.
  destruct (decide (tenant i.1 = t)) as [Et|Et].
  - rewrite filter_cons_True, filter_cons_False by naive_solver. rewrite zlen_cons. lia.
  - rewrite filter_cons_False, filter_cons_True by naive_solver. rewrite zlen_cons. lia.
Qed.
(** Tenants share no frame, so all summaries together are no longer than a
    summary with one run for every frame. *)
Lemma zlen_summaries (m : list (Z * SummaryAcc)) its :
  bt_wf m →
  (∀ e, e ∈ m → 1 ≤ zlen (of_tenant e.1 its) ∧ zlen (sa_runs e.2) ≤ zlen (of_tenant e.1 its)) →
  zlen (concat (encode_summary <$> summaries m)) ≤ 56 * zlen its.
Proof.
  revert its. induction m as [|e m IH]; intros its W A; [pose proof (zlen_nonneg its); cbn; zlen_lia|].
  destruct W as [W1 W2]. unfold summaries in *. rewrite !fmap_cons. cbn [concat].
  rewrite zlen_app, zlen_encode_summary. cbn [ts_runs]. rewrite (of_tenant_split e.1 its).
  destruct (A e) as [A1 A2]; [set_solver|].
  assert (R : ∀ e', e' ∈ m → of_tenant e'.1 (filter (λ i, tenant i.1 ≠ e.1) its) = of_tenant e'.1 its).
  { intros e' He. apply of_tenant_other. apply W1 in He. by apply olt_ne in He. }
  enough (zlen (concat (encode_summary <$> summaries m)) ≤
    56 * zlen (filter (λ i : item, tenant i.1 ≠ e.1) its)) by (unfold summaries in *; lia).
  apply IH; [done|]. intros e' He. rewrite R by done. apply A. set_solver.
Qed.

Section seg_round_trip.
Context `{CrcOk, Lz4Ok}.

(** The error type of the caller does not matter. *)
Lemma encode_any {E F} f wire : encode (E := E) f = Ok wire → encode (E := F) f = Ok wire.
Proof.
  unfold encode, assert. destruct (zlen (payload f) <=? _); cbn; [|done]. destruct (zlen (hints f) <=? _); cbn; [|done].
  destruct (pack _). by intros ->%(inj Ok).
Qed.
(** A frame next to its wire form. *)
Definition wired (i : item) : Prop := frame_ok i.1 ∧ encode (E := Frame2DecodeError) i.1 = Ok i.2.

Lemma wired_mapM its :
  Forall wired its → mapM (encode (E := Frame2DecodeError)) (fst <$> its) = Ok (snd <$> its).
Proof.
  induction 1 as [|i its [_ W] F IH]; [done|]. rewrite !fmap_cons. cbn [mapM]. by rewrite W, bind_run, IH.
Qed.
Lemma wired_ok its : Forall wired its → Forall frame_ok (fst <$> its).
Proof. intros F. rewrite Forall_fmap. eapply Forall_impl; [exact F|]. by intros i []. Qed.
Lemma wired_len its : Forall wired its → zlen (wires_of its) ≤ 2 ^ 32 * zlen its.
Proof.
  unfold wires_of. induction 1 as [|i its [Ok_ W] F IH]; [done|]. rewrite fmap_cons. cbn [concat].
  destruct (encode_ok (E := Frame2DecodeError) i.1 Ok_) as (raw & body & _ & W' & _ & Fi).
  rewrite W in W'. apply (inj Ok) in W'. rewrite zlen_app, zlen_cons, W'. unfold fits in Fi. zlen_lia.
Qed.
Lemma wired_stream g : Forall wired g → frame_stream (wires_of g) = Ok <$> (fst <$> g).
Proof. intros F. apply frame_stream_encoded; [by apply wired_ok|by apply wired_mapM]. Qed.
Lemma runs_stream buf rs gs :
  Forall2 (run_holds buf) rs gs → Forall wired (concat gs) →
  concat ((λ r, frame_stream (run_bytes buf r)) <$> rs) = Ok <$> (fst <$> concat gs).
Proof.
  induction 1 as [|r g rs gs (_ & _ & _ & _ & R) F IH]; [done|]. cbn [concat].
  intros [Fg Fs]%Forall_app. rewrite fmap_cons. cbn [concat]. rewrite !fmap_app, R, wired_stream, IH by done. done.
Qed.

(** The most frames a segment may hold for its footer length to be a [u32]. *)
Definition MAX_SEG_FRAMES : Z := 2 ^ 26.
Lemma builder_elem h its b e :
  builder_ok h its b → e ∈ sb_tenants b → acc_ok (sb_buf b) (of_tenant e.1 its) e.2.
Proof.
  intros [_ _ W T] He. specialize (T e.1). destruct e as [t a]. apply bt_get_elem in He; [|done].
  cbn [fst snd] in *. by rewrite He in T.
Qed.
Lemma acc_runs_le buf mine a : acc_ok buf mine a → 1 ≤ zlen mine ∧ zlen (sa_runs a) ≤ zlen mine.
Proof.
  intros [_ (_ & (x & X & _) & _) (gs & G & <-)]. split; [|by eapply zlen_groups].
  destruct (concat gs); [set_solver|]. rewrite zlen_cons. pose proof (zlen_nonneg l). lia.
Qed.
Lemma wired_of_tenant t its : Forall wired its → Forall wired (of_tenant t its).
Proof. rewrite !Forall_forall. intros F i [_ Hi]%list_elem_of_filter. by apply F. Qed.
Lemma zlen_builder_footer h its b :
  builder_ok h its b →
  zlen (encode_seg_footer (mkSegFooter (sb_frame_count b) (summaries (sb_tenants b)))) ≤ 8 + 56 * zlen its.
Proof.
  intros B. unfold encode_seg_footer. cbn [sf_tenants sf_frame_count]. rewrite !zlen_app, !zlen_le_bytes.
  assert (zlen (concat (encode_summary <$> summaries (sb_tenants b))) ≤ 56 * zlen its); [|lia].
  apply zlen_summaries; [apply B|]. intros e He. eapply acc_runs_le, builder_elem; done.
Qed.
Lemma summary_of_fits buf mine t a :
  acc_ok buf mine a → Forall wired mine → zlen mine ≤ MAX_SEG_FRAMES → zlen buf < 2 ^ 64 →
  (∀ i, i ∈ mine → tenant i.1 = t) →
  summary_fits (mkSummary t (sa_min_lsn a) (sa_max_lsn a) (sa_frames a) (sa_runs a)).
Proof.
  intros A W L Lb T. destruct (acc_runs_le _ _ _ A) as [_ Lr].
  destruct A as [F (_ & (x & X & <-) & (y & Y & <-)) (gs & G & _)].
  rewrite Forall_forall in W. destruct (W x X) as [(Ft & _ & Fs & _) _]. destruct (W y Y) as [(_ & _ & _ & Fe & _) _].
  pose proof (zlen_nonneg (sa_runs a)). pose proof (zlen_nonneg mine). unfold MAX_SEG_FRAMES in *.
  split_and!; cbn; [by rewrite <-(T x X)|done|done|rewrite F; unfold fits; lia|unfold fits; lia|].
  clear -G Lb. induction G as [|r g rs gs (A & B & C & _) G IH]; constructor; [|done]. unfold run_fits, fits. lia.
Qed.
Lemma builder_footer_fits h its b :
  builder_ok h its b → Forall wired its → zlen its ≤ MAX_SEG_FRAMES →
  let f := mkSegFooter (sb_frame_count b) (summaries (sb_tenants b)) in
  seg_footer_fits f ∧ fits 4 (zlen (encode_seg_footer f)).
Proof.
  intros B W L f. pose proof (zlen_builder_footer h its b B) as Lf. fold f in Lf.
  pose proof (zlen_nonneg (encode_seg_footer f)). pose proof (zlen_nonneg its). pose proof (wired_len its W).
  assert (Lt : 40 * zlen (sf_tenants f) ≤ zlen (encode_seg_footer f)).
  { unfold encode_seg_footer. rewrite !zlen_app, !zlen_le_bytes.
    pose proof (zlen_encode_summaries (sf_tenants f)). lia. }
  pose proof (zlen_nonneg (sf_tenants f)). unfold MAX_SEG_FRAMES in *.
  split; [|unfold fits; lia]. split_and!; [unfold fits; lia| |cbn; rewrite (bo_count _ _ _ B); unfold fits; lia].
  unfold f, summaries. cbn [sf_tenants]. apply Forall_fmap, Forall_forall. intros e He.
  eapply summary_of_fits; [by eapply builder_elem|by apply wired_of_tenant| | |].
  - pose proof (zlen_of_tenant e.1 its). unfold MAX_SEG_FRAMES. lia.
  - rewrite (bo_buf _ _ _ B). zlen_lia.
  - unfold of_tenant. intros i [? _]%list_elem_of_filter. done.
Qed.
Lemma segment_finish_run {E} h its b :
  builder_ok h its b →
  let f := mkSegFooter (sb_frame_count b) (summaries (sb_tenants b)) in
  fits 4 (zlen (encode_seg_footer f)) →
  @segment_finish _ E b = Ok (encode_seg_header h ++ wires_of its ++ seg_tail h f, sf_tenants f).
Proof.
  intros B f F. unfold segment_finish. fold f. rewrite (bo_buf _ _ _ B). cbv zeta.
  set (pre := encode_seg_header h ++ wires_of its).
  assert (Lp : 28 ≤ zlen pre) by (pose proof (zlen_nonneg (wires_of its)); unfold pre; zlen_lia).
  replace (zlen (pre ++ encode_seg_footer f) - zlen pre) with (zlen (encode_seg_footer f)) by zlen_lia.
  rewrite as_u32_small by done. unfold SEG_HEADER_LEN. pose proof (zlen_nonneg (encode_seg_footer f)).
  rewrite slice_run by zlen_lia. rewrite slice_run by zlen_lia. rewrite <-!app_assoc.
  assert (sub (pre ++ encode_seg_footer f ++ le_bytes 4 (zlen (encode_seg_footer f))) 0 (4 + 2 + 2 + 4 + 8 + 8) =
    encode_seg_header h) as -> by (unfold pre; rewrite <-!app_assoc; sub_here).
  rewrite (sub_mid pre (encode_seg_footer f)) by zlen_lia.
  unfold pre, seg_tail. by rewrite <-!app_assoc.
Qed.
(** No tenant with a frame is left out of the footer. *)
Lemma builder_covers h its b i :
  builder_ok h its b → i ∈ its → ∃ s, s ∈ summaries (sb_tenants b) ∧ ts_tenant s = tenant i.1.
Proof.
  intros [_ _ W T] Hi. specialize (T (tenant i.1)). destruct (bt_get _ _) as [a|] eqn:G.
  - apply bt_get_elem in G; [|done]. eexists. split; [by apply list_elem_of_fmap_2; exact G|done].
  - assert (N : i ∈ of_tenant (tenant i.1) its) by by apply list_elem_of_filter. rewrite T in N. set_solver.
Qed.
End seg_round_trip.

(** A segment of encoded frames decodes to its header and its frames
    in order, and its footer is exact: every tenant with a frame has a
    summary, and each summary counts the tenant's frames, gives their least
    start and greatest end LSN, and names byte runs of the object that
    stream back as the tenant's frames, in order and no others. *)
Theorem segment_round_trip `{CrcOk, Lz4Ok} (h : SegmentHeader) (its : list item) :
  header_fits h → Forall wired its → zlen its ≤ MAX_SEG_FRAMES →
  ∃ b obj ts,
    push_all (E := SegmentDecodeError) (segment_new h) its = Ok b ∧
    segment_finish (E := SegmentDecodeError) b = Ok (obj, ts) ∧
    decode_segment obj = Ok (h, fst <$> its, mkSegFooter (zlen its) ts) ∧
    read_seg_footer obj = Ok (h, mkSegFooter (zlen its) ts) ∧
    (∀ i, i ∈ its → ∃ s, s ∈ ts ∧ ts_tenant s = tenant i.1) ∧
    ∀ s, s ∈ ts →
      let mine := of_tenant (ts_tenant s) its in
      ts_frames s = zlen mine ∧ extent_of mine (ts_min_lsn s) (ts_max_lsn s) ∧
      concat ((λ r, frame_stream (run_bytes obj r)) <$> ts_runs s) = Ok <$> (fst <$> mine).
Proof.
  intros Fh W L. assert (MAX_SEG_FRAMES ≤ u32_max) by (unfold MAX_SEG_FRAMES, u32_max; lia).
  destruct (push_all_ok (E := SegmentDecodeError) h [] its _ (segment_new_ok h)) as (b & P & B); [rewrite zlen_nil; lia|].
  cbn [app] in B. destruct (builder_footer_fits h its b B W L) as [Ff Fl].
  pose proof (segment_finish_run (E := SegmentDecodeError) h its b B Fl) as Fin.
  rewrite (bo_count _ _ _ B) in *. cbn [sf_tenants] in Fin.
  exists b. eexists _, _. split_and!; [done|exact Fin| | | |].
  - apply decode_segment_encoded; [done..|by apply wired_ok|by apply wired_mapM|]. unfold zlen. by rewrite length_fmap.
  - unfold read_seg_footer. by rewrite parse_seg_shell_encoded, bind_run by done.
  - intros i Hi. by eapply builder_covers.
  - unfold summaries. intros s (e & -> & He)%list_elem_of_fmap. cbn [ts_tenant ts_frames ts_min_lsn ts_max_lsn ts_runs]. cbv zeta.
    destruct (builder_elem _ _ _ _ B He) as [Cn Ex (gs & G & Gc)]. split_and!; [done|done|].
    rewrite app_assoc, <-(bo_buf _ _ _ B). rewrite <-Gc. apply (runs_stream _ _ gs).
    + by apply runs_hold_app.
    + rewrite Gc. by apply wired_of_tenant.
Qed.

(** ** Witnesses *)
Module SegmentWitness.
Import Concrete FrameWitness.

Definition h9 : SegmentHeader := mkSegHeader Landing 3 9 0xfeed.
(** Tenant 3's frame splits the frames of the other tenant in two runs. *)
Definition frames : list Frame2 := [f1; f2; f1; f1].
Definition wire_of (f : Frame2) : bytes :=
  match encode (E := Frame2DecodeError) f with Ok w => w | _ => [] end.
Definition its : list item := (λ f, (f, wire_of f)) <$> frames.

Lemma its_wired : Forall wired its.
Proof.
  apply Forall_fmap. repeat constructor; try (apply (bool_decide_unpack _); by vm_compute); by vm_compute.
Qed.
Lemma segment_round_trip_witness :
  ∃ b obj ts,
    push_all (E := SegmentDecodeError) (segment_new h9) its = Ok b ∧
    segment_finish (E := SegmentDecodeError) b = Ok (obj, ts) ∧
    decode_segment obj = Ok (h9, frames, mkSegFooter 4 ts).
Proof.
  destruct (segment_round_trip h9 its) as (b & obj & ts & P & F & D & _).
  - unfold header_fits, fits. cbn. lia.
  - apply its_wired.
  - by vm_compute.
  - exists b, obj, ts. split_and!; [done|done|exact D].
Defined.

(** The same segment, run: two runs for the tenant of three frames. *)
Example segment_runs :
  match push_all (E := SegmentDecodeError) (segment_new h9) its with
  | Ok b => match segment_finish (E := SegmentDecodeError) b with
            | Ok (_, ts) => ((λ s, (ts_tenant s, ts_frames s, length (ts_runs s))) <$> ts)
            | _ => []
            end
  | _ => []
  end = [(3, 1, 1%nat); (0xc0ffee, 3, 2%nat)].
Proof. by vm_compute. Qed.
End SegmentWitness.
