(* ===== verification/Media.v ===== *)
(** * Media: code that talks to the media of the landing log

    The landing log lives on one store or on three, and its writer puts to
    several of them from threads of its own.  A function of the log is a
    tree of calls on named media, with threads and the channel they report
    on as calls too.  Trees run alone, for results, and as actors of a
    system in which any actor, any thread, any lost reply and any timeout
    may come next.

    Where a landing segment has to be before its commits are acknowledged.
    In the dual mode three buckets vote: a writer and a sealer each need
    two, so a chain position has one owner whatever races, is lost or is
    late, and a reader sees that owner and nobody else. *)
From S2P Require Import Prelude Order Text Cas.

(** The two Express buckets and the Standard one; a single-bucket cell has
    the Standard one alone. *)
Inductive medium := AZ1 | AZ2 | STD.
#[global] Instance medium_eq_dec : EqDecision medium.
Proof. solve_decision. Defined.

Abbreviation reply := (res CasError Version).

Inductive mprog (E A : Type) : Type :=
  | Done (r : res E A)
  (** The fuel of a loop ran out. *)
  | MStuck
  | MGet (m : medium) (key : bytes) (k : res CasError (option (bytes * Version)) → mprog E A)
  (** [put_if_match(key, data, expected)] *)
  | MPut (m : medium) (key data : bytes) (expected : option Version) (k : reply → mprog E A)
  | MDelete (m : medium) (key : bytes) (k : res CasError () → mprog E A)
  (** The clock, in unix seconds. *)
  | MNow (k : Z → mprog E A)
  (** [thread::spawn] of a [put_if_absent] that reports on the channel. *)
  | MSpawn (ch : nat) (m : medium) (key data : bytes) (k : mprog E A)
  (** [rx.recv()], and [rx.recv_timeout(..)] where [None] is the timeout. *)
  | MRecv (ch : nat) (k : reply → mprog E A)
  | MRecvTimeout (ch : nat) (k : option reply → mprog E A).
Arguments Done {E A}. Arguments MStuck {E A}. Arguments MGet {E A}. Arguments MPut {E A}.
Arguments MDelete {E A}. Arguments MNow {E A}. Arguments MSpawn {E A}. Arguments MRecv {E A}.
Arguments MRecvTimeout {E A}.

(** [match p { ... }]: run [p], then look at its result, errors included. *)
Fixpoint mhandle {E F A B} (p : mprog E A) (f : res E A → mprog F B) : mprog F B :=
  match p with
  | Done r => f r
  | MStuck => MStuck
  | MGet m key k => MGet m key (λ r, mhandle (k r) f)
  | MPut m key data expected k => MPut m key data expected (λ r, mhandle (k r) f)
  | MDelete m key k => MDelete m key (λ r, mhandle (k r) f)
  | MNow k => MNow (λ t, mhandle (k t) f)
  | MSpawn ch m key data k => MSpawn ch m key data (mhandle k f)
  | MRecv ch k => MRecv ch (λ r, mhandle (k r) f)
  | MRecvTimeout ch k => MRecvTimeout ch (λ r, mhandle (k r) f)
  end.

(** [p?] *)
#[global] Instance mprog_ret {E} : MRet (mprog E) := λ A a, Done (Ok a).
#[global] Instance mprog_bind {E} : MBind (mprog E) := λ A B f p,
  mhandle p (λ r, match r with Ok a => f a | Err e => Done (Err e) | Panic => Done Panic end).
(** [p.map_err(wrap)] *)
Definition mmap_err {E F A} (wrap : E → F) (p : mprog E A) : mprog F A :=
  mhandle p (λ r, Done (map_err wrap r)).

(** [store.get(key)?] *)
Definition mget (m : medium) (key : bytes) : mprog CasError (option (bytes * Version)) :=
  MGet m key (λ r, Done r).
(** [store.get(key)?.map(|(bytes, _)| bytes)] *)
Definition mbytes (m : medium) (key : bytes) : mprog CasError (option bytes) :=
  MGet m key (λ r, Done (match r with Ok (Some (data, _)) => Ok (Some data) | Ok None => Ok None
                                    | Err e => Err e | Panic => Panic end)).
(** [store.get_range(key, offset, len)?], the trait's default method. *)
Definition range_reply (offset len : Z) (r : res CasError (option (bytes * Version))) :
    res CasError (option bytes) :=
  cur ← r;
  match cur with
  | Some (data, _) =>
      let start := Z.min offset (zlen data) in
      let stop := Z.min (Z.min (offset + len) u64_max) (zlen data) in
      part ← slice data start stop;
      mret (Some part)
  | None => mret None
  end.
Definition mget_range (m : medium) (key : bytes) (offset len : Z) : mprog CasError (option bytes) :=
  MGet m key (λ r, Done (range_reply offset len r)).
(** [store.put_if_absent(key, data)], the trait's default method. *)
Definition exists_not_conflict (r : reply) : reply :=
  match r with Err (Conflict key) => Err (AlreadyExists key) | other => other end.
Definition mput_absent (m : medium) (key data : bytes) : mprog CasError Version :=
  MPut m key data None (λ r, Done (exists_not_conflict r)).
Definition mput_match (m : medium) (key data : bytes) (expected : option Version) :
    mprog CasError Version := MPut m key data expected (λ r, Done r).
Definition mdelete (m : medium) (key : bytes) : mprog CasError () := MDelete m key (λ r, Done r).

Arguments range_reply : simpl never.
Lemma range_reply_head n cur :
  0 ≤ n ≤ u64_max →
  range_reply 0 n (Ok cur) = Ok ((λ dv, sub dv.1 0 (Z.min n (zlen dv.1))) <$> cur).
Proof.
  intros L. unfold range_reply. rewrite bind_run. destruct cur as [[d v]|]; [|done]. cbv zeta. cbn [fst].
  pose proof (zlen_nonneg d). replace (Z.min 0 (zlen d)) with 0 by lia. rewrite slice_run by lia.
  replace (Z.min (Z.min (0 + n) u64_max) (zlen d)) with (Z.min n (zlen d)) by lia. done.
Qed.

(** ** The stores *)
Record mworld (S : Type) := mkMWorld { mw_az1 : S; mw_az2 : S; mw_std : S; mw_now : Z }.
Arguments mkMWorld {S}. Arguments mw_az1 {S}. Arguments mw_az2 {S}. Arguments mw_std {S}. Arguments mw_now {S}.
Definition store_at {S} (w : mworld S) (m : medium) : S :=
  match m with AZ1 => mw_az1 w | AZ2 => mw_az2 w | STD => mw_std w end.
Definition with_store {S} (w : mworld S) (m : medium) (s : S) : mworld S :=
  match m with
  | AZ1 => mkMWorld s (mw_az2 w) (mw_std w) (mw_now w)
  | AZ2 => mkMWorld (mw_az1 w) s (mw_std w) (mw_now w)
  | STD => mkMWorld (mw_az1 w) (mw_az2 w) s (mw_now w)
  end.

Lemma store_at_with {S} (w : mworld S) m s m' :
  store_at (with_store w m s) m' = if decide (m' = m) then s else store_at w m'.
Proof. by destruct m, m'. Qed.

(** A call can also fail on the way there, or on the way back after it
    took effect. *)
Inductive fault := Works | FailsBefore | FailsAfter.

Section calls.
Context {S : Type} `{CasStore S}.

Definition world_get (w : mworld S) (f : fault) (m : medium) (key : bytes) : res CasError (option (bytes * Version)) :=
  match f with Works => cas_get (store_at w m) key | _ => Err (Io key) end.
Definition world_put (w : mworld S) (f : fault) (m : medium) (key data : bytes) (expected : option Version) :
    mworld S * reply :=
  match f with
  | FailsBefore => (w, Err (Io key))
  | Works => let '(s, r) := put_if_match (store_at w m) key data expected in (with_store w m s, r)
  | FailsAfter => let '(s, _) := put_if_match (store_at w m) key data expected in (with_store w m s, Err (Io key))
  end.
Definition world_delete (w : mworld S) (f : fault) (m : medium) (key : bytes) : mworld S * res CasError () :=
  match f with
  | FailsBefore => (w, Err (Io key))
  | Works => let '(s, r) := cas_delete (store_at w m) key in (with_store w m s, r)
  | FailsAfter => let '(s, _) := cas_delete (store_at w m) key in (with_store w m s, Err (Io key))
  end.

(** ** Alone *)
Abbreviation pool := (list (nat * (medium * bytes * bytes))).
(** Threads run when somebody waits for them, first spawned first. *)
Fixpoint next_of (ch : nat) (threads : pool) : option ((medium * bytes * bytes) * pool) :=
  match threads with
  | [] => None
  | (c, t) :: threads =>
      if Nat.eqb c ch then Some (t, threads)
      else '(u, rest) ← next_of ch threads; Some (u, (c, t) :: rest)
  end.
Fixpoint mexec_pool {E A} (w : mworld S) (threads : pool) (p : mprog E A) :
    mworld S * pool * option (res E A) :=
  match p with
  | Done r => (w, threads, Some r)
  | MStuck => (w, threads, None)
  | MGet m key k => mexec_pool w threads (k (world_get w Works m key))
  | MPut m key data expected k =>
      let '(w, r) := world_put w Works m key data expected in mexec_pool w threads (k r)
  | MDelete m key k => let '(w, r) := world_delete w Works m key in mexec_pool w threads (k r)
  | MNow k => mexec_pool w threads (k (mw_now w))
  | MSpawn ch m key data k => mexec_pool w (threads ++ [(ch, (m, key, data))]) k
  | MRecv ch k =>
      match next_of ch threads with
      | Some ((m, key, data), threads) =>
          let '(w, r) := world_put w Works m key data None in
          mexec_pool w threads (k (exists_not_conflict r))
      | None => (w, threads, None)
      end
  | MRecvTimeout ch k =>
      match next_of ch threads with
      | Some ((m, key, data), threads) =>
          let '(w, r) := world_put w Works m key data None in
          mexec_pool w threads (k (Some (exists_not_conflict r)))
      | None => mexec_pool w threads (k None)
      end
  end.
(** The world afterwards and the result, [None] when the fuel ran out. *)
Definition mexec {E A} (w : mworld S) (p : mprog E A) : mworld S * option (res E A) :=
  let '(w, _, r) := mexec_pool w [] p in (w, r).

Lemma mexec_pool_handle {E F A B} w threads (p : mprog E A) (f : res E A → mprog F B) :
  mexec_pool w threads (mhandle p f) =
  match mexec_pool w threads p with
  | (w, threads, Some r) => mexec_pool w threads (f r)
  | (w, threads, None) => (w, threads, None)
  end.
Proof.
  revert w threads. induction p as [r| |m key k IH|m key data ex k IH|m key k IH|k IH|ch m key data k IH|ch k IH|ch k IH];
    intros w threads; cbn [mhandle mexec_pool]; try done.
  - by destruct (world_put w Works m key data ex).
  - by destruct (world_delete w Works m key).
  - destruct (next_of ch threads) as [[[[m key] data] rest]|]; [|done]. by destruct (world_put w Works m key data None).
  - destruct (next_of ch threads) as [[[[m key] data] rest]|]; [|done]. by destruct (world_put w Works m key data None).
Qed.
(** Nothing but time moves the clock. *)
Lemma world_put_now w f m key data expected : mw_now (world_put w f m key data expected).1 = mw_now w.
Proof. unfold world_put. destruct f; [|done|]; by destruct (put_if_match _ _ _ _), m. Qed.
Lemma world_delete_now w f m key : mw_now (world_delete w f m key).1 = mw_now w.
Proof. unfold world_delete. destruct f; [|done|]; by destruct (cas_delete _ _), m. Qed.
Lemma mexec_pool_now {E A} w threads (p : mprog E A) : mw_now (mexec_pool w threads p).1.1 = mw_now w.
Proof.
  revert w threads. induction p as [r| |m key k IH|m key data ex k IH|m key k IH|k IH|ch m key data k IH|ch k IH|ch k IH];
    intros w threads; cbn [mexec_pool]; try done.
  - pose proof (world_put_now w Works m key data ex). destruct (world_put _ _ _ _ _ _). by rewrite IH.
  - pose proof (world_delete_now w Works m key). destruct (world_delete _ _ _ _). by rewrite IH.
  - destruct (next_of ch threads) as [[[[m key] data] rest]|]; [|done].
    pose proof (world_put_now w Works m key data None). destruct (world_put _ _ _ _ _ _). by rewrite IH.
  - destruct (next_of ch threads) as [[[[m key] data] rest]|]; [|done].
    pose proof (world_put_now w Works m key data None). destruct (world_put _ _ _ _ _ _). by rewrite IH.
Qed.
Lemma mexec_now {E A} w (p : mprog E A) w' r : mexec w p = (w', r) → mw_now w' = mw_now w.
Proof.
  unfold mexec. pose proof (mexec_pool_now w [] p). destruct (mexec_pool w [] p) as [[w1 t] r1]. by intros [= <- <-].
Qed.
(** Code that spawns no threads. *)
Fixpoint unthreaded {E A} (p : mprog E A) : Prop :=
  match p with
  | Done _ | MStuck => True
  | MGet _ _ k => ∀ r, unthreaded (k r)
  | MPut _ _ _ _ k => ∀ r, unthreaded (k r)
  | MDelete _ _ k => ∀ r, unthreaded (k r)
  | MNow k => ∀ t, unthreaded (k t)
  | _ => False
  end.
Lemma mexec_unthreaded {E A} w threads (p : mprog E A) :
  unthreaded p → mexec_pool w threads p = let '(w', r) := mexec w p in (w', threads, r).
Proof.
  unfold mexec. revert w threads. induction p as [r| |m key k IH|m key data ex k IH|m key k IH|k IH| | |];
    intros w threads U; cbn [mexec_pool]; try done.
  - by rewrite IH.
  - destruct (world_put w Works m key data ex). by rewrite IH.
  - destruct (world_delete w Works m key). by rewrite IH.
  - by rewrite IH.
Qed.
Lemma mexec_handle {E F A B} w (p : mprog E A) (f : res E A → mprog F B) :
  unthreaded p →
  mexec w (mhandle p f) =
  match mexec w p with (w, Some r) => mexec w (f r) | (w, None) => (w, None) end.
Proof.
  intros U. unfold mexec at 1. rewrite mexec_pool_handle, mexec_unthreaded by done.
  destruct (mexec w p) as [w' [r|]]; done.
Qed.
Lemma mexec_bind {E A B} w (p : mprog E A) (f : A → mprog E B) :
  unthreaded p →
  mexec w (p ≫= f) =
  match mexec w p with
  | (w, Some (Ok a)) => mexec w (f a)
  | (w, Some (Err e)) => (w, Some (Err e))
  | (w, Some Panic) => (w, Some Panic)
  | (w, None) => (w, None)
  end.
Proof.
  intros U. unfold mbind, mprog_bind. rewrite mexec_handle by done. by destruct (mexec w p) as [? [[]|]].
Qed.
Lemma unthreaded_handle {E F A B} (p : mprog E A) (f : res E A → mprog F B) :
  unthreaded p → (∀ r, unthreaded (f r)) → unthreaded (mhandle p f).
Proof. induction p; cbn; eauto; done. Qed.
Lemma unthreaded_bind {E A B} (p : mprog E A) (f : A → mprog E B) :
  unthreaded p → (∀ a, unthreaded (f a)) → unthreaded (p ≫= f).
Proof. intros Up Uf. apply unthreaded_handle; [done|]. by intros []. Qed.
(** ** Dying anywhere *)
(** The worlds a function without threads has behind it between two calls,
    and so the worlds its death can leave. *)
Fixpoint visits {E A} w (p : mprog E A) (w1 : mworld S) : Prop :=
  w1 = w ∨
  match p with
  | MGet m key k => visits w (k (world_get w Works m key)) w1
  | MPut m key data ex k => let '(w', r) := world_put w Works m key data ex in visits w' (k r) w1
  | MDelete m key k => let '(w', r) := world_delete w Works m key in visits w' (k r) w1
  | MNow k => visits w (k (mw_now w)) w1
  | _ => False
  end.
Lemma visits_handle {E F A B} w (p : mprog E A) (f : res E A → mprog F B) w1 :
  unthreaded p → visits w (mhandle p f) w1 →
  visits w p w1 ∨ ∃ w' r, mexec w p = (w', Some r) ∧ visits w' (f r) w1.
Proof.
  unfold mexec. revert w. induction p as [r| |m key k IH|m key data ex k IH|m key k IH|k IH| | |]; intros w U V; cbn [mhandle] in V; try done.
  - right. by exists w, r.
  - left. exact V.
  - destruct V as [-> |V]; [by left; left|]. destruct (IH _ w (U _) V) as [V'|V']; [left; by right|by right].
  - destruct V as [-> |V]; [by left; left|]. cbn [visits mexec_pool]. destruct (world_put w Works m key data ex) as [w' r].
    destruct (IH _ w' (U _) V) as [V'|V']; [left; by right|by right].
  - destruct V as [-> |V]; [by left; left|]. cbn [visits mexec_pool]. destruct (world_delete w Works m key) as [w' r].
    destruct (IH _ w' (U _) V) as [V'|V']; [left; by right|by right].
  - destruct V as [-> |V]; [by left; left|]. destruct (IH _ w (U _) V) as [V'|V']; [left; by right|by right].
Qed.
Lemma visits_bind {E A B} w (p : mprog E A) (f : A → mprog E B) w1 :
  unthreaded p → visits w (p ≫= f) w1 →
  visits w p w1 ∨ ∃ w' r, mexec w p = (w', Some r) ∧ match r with Ok a => visits w' (f a) w1 | _ => w1 = w' end.
Proof.
  intros U V. apply visits_handle in V as [V|(w' & r & R & V)]; [by left|right|done]. exists w', r. split; [done|].
  destruct r; cbn in V; [done|by destruct V as [->|[]]..].
Qed.
(** Code that only reads. *)
Fixpoint reads_only {E A} (p : mprog E A) : Prop :=
  match p with
  | Done _ | MStuck => True
  | MGet _ _ k => ∀ r, reads_only (k r)
  | MNow k => ∀ t, reads_only (k t)
  | _ => False
  end.
Lemma reads_visits {E A} w (p : mprog E A) w1 : reads_only p → visits w p w1 → w1 = w.
Proof. induction p; cbn; intros R [V|V]; eauto; done. Qed.
Lemma reads_unthreaded {E A} (p : mprog E A) : reads_only p → unthreaded p.
Proof. induction p; cbn; eauto; done. Qed.
Lemma reads_handle {E F A B} (p : mprog E A) (f : res E A → mprog F B) :
  reads_only p → (∀ r, reads_only (f r)) → reads_only (mhandle p f).
Proof. induction p; cbn; eauto; done. Qed.
Lemma reads_bind {E A B} (p : mprog E A) (f : A → mprog E B) :
  reads_only p → (∀ a, reads_only (f a)) → reads_only (p ≫= f).
Proof. intros Up Uf. apply reads_handle; [done|]. by intros []. Qed.
Lemma visits_after {E A B} w (p : mprog E A) (f : A → mprog E B) w1 a :
  reads_only p → mexec w p = (w, Some (Ok a)) → visits w (p ≫= f) w1 → w1 = w ∨ visits w (f a) w1.
Proof.
  intros R X V. apply visits_bind in V as [V|(w' & r & X' & V)]; [left; by eapply reads_visits| |by apply reads_unthreaded].
  rewrite X in X'. injection X' as <- <-. by right.
Qed.
Lemma visits_ok {E A B} w w' (p : mprog E A) (f : A → mprog E B) w1 a :
  unthreaded p → mexec w p = (w', Some (Ok a)) → visits w (p ≫= f) w1 → visits w p w1 ∨ visits w' (f a) w1.
Proof.
  intros U X V. apply visits_bind in V as [V|(w2 & r & X' & V)]; [by left| |done].
  rewrite X in X'. injection X' as <- <-. by right.
Qed.
Lemma visits_done {E A B} w (a : A) (f : A → mprog E B) w1 : visits w ((Done (Ok a) : mprog E A) ≫= f) w1 = visits w (f a) w1.
Proof. done. Qed.
(** A put and what is made of its reply. *)
Lemma visits_put {E A} w m key data ex (f : reply → mprog E A) w1 :
  (∀ r, ∃ x, f r = Done x) → visits w (MPut m key data ex f) w1 → w1 = w ∨ w1 = (mexec w (MPut m key data ex f)).1.
Proof.
  intros D [-> |V]; [by left|right]. unfold mexec. cbn [visits mexec_pool] in *.
  destruct (world_put w Works m key data ex) as [w' r]. destruct (D r) as [x Ex]. rewrite Ex in *. by destruct V as [-> |[]].
Qed.
End calls.

(** ** Together *)
(** A running function, its threads that have not run yet, and the replies
    that wait in its channels. *)
Record actor (E A : Type) := mkActor {
  ac_prog : mprog E A;
  ac_threads : list (nat * (medium * bytes * bytes));
  ac_mail : list (nat * reply)
}.
Arguments mkActor {E A}. Arguments ac_prog {E A}. Arguments ac_threads {E A}. Arguments ac_mail {E A}.
Definition start {E A} (p : mprog E A) : actor E A := mkActor p [] [].

(** What happens next to an actor: its next call, one of its threads, the
    oldest reply of the channel it waits on, or the timeout. *)
Inductive move := Call (f : fault) | Thread (i : nat) (f : fault) | Mail | Timeout.

Fixpoint take_mail (ch : nat) (mail : list (nat * reply)) : option (reply * list (nat * reply)) :=
  match mail with
  | [] => None
  | (c, r) :: mail =>
      if Nat.eqb c ch then Some (r, mail)
      else '(r', rest) ← take_mail ch mail; Some (r', (c, r) :: rest)
  end.

Section actors.
Context {S : Type} `{CasStore S} {E A : Type}.
Implicit Types (w : mworld S) (a : actor E A).

Definition with_prog a (p : mprog E A) : actor E A := mkActor p (ac_threads a) (ac_mail a).
(** The step and the objects it wrote. *)
Definition wrote_at (r : reply) (f : fault) (m : medium) (key : bytes) : list (medium * bytes) :=
  match f, r with FailsBefore, _ => [] | _, Ok _ => [(m, key)] | _, _ => [] end.
Definition actor_step w a (mv : move) : option (mworld S * actor E A * list (medium * bytes)) :=
  match mv, ac_prog a with
  | Call f, MGet m key k => Some (w, with_prog a (k (world_get w f m key)), [])
  | Call f, MPut m key data expected k =>
      let '(w', r) := world_put w f m key data expected in
      Some (w', with_prog a (k r), wrote_at (put_if_match (store_at w m) key data expected).2 f m key)
  | Call f, MDelete m key k =>
      let '(w', r) := world_delete w f m key in Some (w', with_prog a (k r), [])
  | Call _, MNow k => Some (w, with_prog a (k (mw_now w)), [])
  | Call _, MSpawn ch m key data k =>
      Some (w, mkActor k (ac_threads a ++ [(ch, (m, key, data))]) (ac_mail a), [])
  | Thread i f, _ =>
      '(ch, (m, key, data)) ← ac_threads a !! i;
      let '(w', r) := world_put w f m key data None in
      Some (w', mkActor (ac_prog a) (delete i (ac_threads a)) (ac_mail a ++ [(ch, exists_not_conflict r)]),
            wrote_at (put_if_match (store_at w m) key data None).2 f m key)
  | Mail, MRecv ch k =>
      '(r, mail) ← take_mail ch (ac_mail a); Some (w, mkActor (k r) (ac_threads a) mail, [])
  | Mail, MRecvTimeout ch k =>
      '(r, mail) ← take_mail ch (ac_mail a); Some (w, mkActor (k (Some r)) (ac_threads a) mail, [])
  | Timeout, MRecvTimeout ch k => Some (w, with_prog a (k None), [])
  | _, _ => None
  end.

(** Actors over the same media, with the history of who wrote which object. *)
Record msys := mkMSys {
  sy_world : mworld S;
  sy_actors : list (actor E A);
  sy_history : list (nat * (medium * bytes))
}.
Definition msys_step (y : msys) (i : nat) (mv : move) : option msys :=
  a ← sy_actors y !! i;
  '(w, a', objs) ← actor_step (sy_world y) a mv;
  Some (mkMSys w (<[i := a']> (sy_actors y)) (sy_history y ++ ((λ o, (i, o)) <$> objs))).
Definition msys_next (y y' : msys) : Prop := ∃ i mv, msys_step y i mv = Some y'.
End actors.
Arguments msys : clear implicits.

Definition DEFAULT_HEDGE_AFTER_MS : Z := 15.

Inductive DurabilityMode := Standard | ExpressDual.
Inductive SealOutcome := Sealed | Occupied.
#[global] Instance SealOutcome_eq_dec : EqDecision SealOutcome.
Proof. solve_decision. Defined.
(** The stores are the world's; how long a dual writer waits before it
    hedges is the timeout any moment may bring. *)
Inductive WalMedia := Single | Dual.

(** [segment_key] and [manifest_key] of chain.rs *)
Definition segment_key (shard seq : Z) : bytes := str "cellwal/" ++ fmt_hex 4 shard ++ str "/" ++ fmt_hex 16 seq.
Definition manifest_key (shard : Z) : bytes := str "cellwal/" ++ fmt_hex 4 shard ++ str "/manifest".

Arguments segment_key : simpl never.
Arguments manifest_key : simpl never.

(** [WalMedia::manifest_store] *)
Definition manifest_store (media : WalMedia) : medium := match media with Single => STD | Dual => STD end.

(** The loop of [put_quorum]. *)
Fixpoint quorum_loop (fuel ch : nat) (key segment : bytes) (outstanding successes : Z) (hedged : bool)
    (first_err : option CasError) : mprog CasError () :=
  match fuel with
  | O => MStuck
  | S fuel =>
      if 0 <? outstanding then
        let on_result (result : reply) :=
          let outstanding := outstanding - 1 in
          match result with
          | Ok _ =>
              let successes := successes + 1 in
              if 2 <=? successes then mret ()
              else quorum_loop fuel ch key segment outstanding successes hedged first_err
          | Err (AlreadyExists k) => Done (Err (AlreadyExists k))
          | Err e =>
              let first_err := match first_err with None => Some e | some => some end in
              if hedged then quorum_loop fuel ch key segment outstanding successes hedged first_err
              else MSpawn ch STD key segment
                     (quorum_loop fuel ch key segment (outstanding + 1) successes true first_err)
          | Panic => Done Panic
          end in
        if hedged then MRecv ch on_result
        else MRecvTimeout ch (λ got,
          match got with
          | Some result => on_result result
          | None =>
              MSpawn ch STD key segment
                (quorum_loop fuel ch key segment (outstanding + 1) successes true first_err)
          end)
      else Done (match first_err with Some e => Err e | None => Panic end)
  end.
(** Three replies, one timeout, and the test that ends the loop. *)
Definition QUORUM_FUEL : nat := 5.
(** [put_quorum]; [ch] is its channel. *)
Definition put_quorum (ch : nat) (key segment : bytes) : mprog CasError () :=
  MSpawn ch AZ1 key segment (MSpawn ch AZ2 key segment
    (quorum_loop QUORUM_FUEL ch key segment 2 0 false None)).

(** [WalMedia::put_segment] *)
Definition put_segment (media : WalMedia) (ch : nat) (shard seq : Z) (segment : bytes) : mprog CasError () :=
  let key := segment_key shard seq in
  match media with
  | Single => _ ← mput_absent STD key segment; mret ()
  | Dual => put_quorum ch key segment
  end.

(** The two first votes of a seal. *)
Fixpoint seal_votes (stores : list medium) (key seal : bytes) (wins : Z) : mprog CasError Z :=
  match stores with
  | [] => mret wins
  | store :: stores =>
      mhandle (mput_absent store key seal) (λ r,
        match r with
        | Ok _ => seal_votes stores key seal (wins + 1)
        | Err (AlreadyExists _) => seal_votes stores key seal wins
        | Err e => Done (Err e)
        | Panic => Done Panic
        end)
  end.
(** One vote that decides. *)
Definition seal_decides (store : medium) (key seal : bytes) : mprog CasError SealOutcome :=
  mhandle (mput_absent store key seal) (λ r,
    match r with
    | Ok _ => mret Sealed
    | Err (AlreadyExists _) => mret Occupied
    | Err e => Done (Err e)
    | Panic => Done Panic
    end).
(** [WalMedia::seal] *)
Definition seal (media : WalMedia) (shard seq : Z) (seal : bytes) : mprog CasError SealOutcome :=
  let key := segment_key shard seq in
  match media with
  | Single => seal_decides STD key seal
  | Dual =>
      wins ← seal_votes [AZ1; AZ2] key seal 0;
      if wins =? 2 then mret Sealed
      else if wins =? 1 then seal_decides STD key seal
      else mret Occupied
  end.

(** [WalMedia::present] *)
Definition present (media : WalMedia) (shard seq : Z) : mprog CasError bool :=
  let key := segment_key shard seq in
  match media with
  | Single => r ← mget_range STD key 0 1; mret (bool_decide (is_Some r))
  | Dual =>
      a ← mget_range AZ1 key 0 28;
      b ← mget_range AZ2 key 0 28;
      let ask :=
        s ← mget_range STD key 0 28;
        match s with
        | Some s => mret (bool_decide (a = Some s) || bool_decide (b = Some s))
        | None => mret false
        end in
      match a, b with
      | Some x, Some y => if bool_decide (x = y) then mret true else ask
      | None, None => mret false
      | _, _ => ask
      end
  end.

(** [WalMedia::delete_segment] *)
Definition delete_segment (media : WalMedia) (shard seq : Z) : mprog CasError () :=
  let key := segment_key shard seq in
  match media with
  | Single => mdelete STD key
  | Dual => _ ← mdelete AZ1 key; _ ← mdelete AZ2 key; mdelete STD key
  end.

(** [WalMedia::fetch] *)
Definition fetch_segment (media : WalMedia) (shard seq : Z) : mprog CasError (option bytes) :=
  let key := segment_key shard seq in
  match media with
  | Single => mbytes STD key
  | Dual =>
      a ← mbytes AZ1 key;
      b ← mbytes AZ2 key;
      if bool_decide (is_Some a) && bool_decide (is_Some b) && bool_decide (a = b) then mret a
      else if bool_decide (a = None) && bool_decide (b = None) then mret None
      else
        s ← mbytes STD key;
        if bool_decide (is_Some s) && bool_decide (s = a) then mret a
        else if bool_decide (is_Some s) && bool_decide (s = b) then mret b
        else mret None
  end.
