(* ===== verification/MediaProofs.v ===== *)
(** * MediaProofs: one owner per chain position

    Any number of writers and sealers race for chain positions; their
    calls, threads, lost replies and timeouts interleave freely.  Winning
    takes a majority of the media and no object is ever overwritten, so a
    position has at most one winner, every reader sees it, and everybody
    gets an answer. *)
From S2P Require Import Prelude Order Text Cas Media.

Definition media_of (media : WalMedia) : list medium :=
  match media with Single => [STD] | Dual => [AZ1; AZ2; STD] end.
Definition majority (media : WalMedia) : Z := match media with Single => 1 | Dual => 2 end.

(** Somebody who wants a chain position. *)
Record claimant := mkClaimant { cl_seals : bool; cl_shard : Z; cl_seq : Z; cl_bytes : bytes }.
Definition cl_key (c : claimant) : bytes := segment_key (cl_shard c) (cl_seq c).
Arguments cl_key : simpl never.
(** Its program, [true] when it got the position. *)
Definition claim_prog (media : WalMedia) (c : claimant) : mprog CasError bool :=
  if cl_seals c then
    o ← seal media (cl_shard c) (cl_seq c) (cl_bytes c); mret (bool_decide (o = Sealed))
  else
    _ ← put_segment media 0 (cl_shard c) (cl_seq c) (cl_bytes c); mret true.

Definition won (a : actor CasError bool) : Prop := ac_prog a = Done (Ok true).
Definition ok1 (r : reply) : Z := match r with Ok _ => 1 | _ => 0 end.
Definition mail_ok (mail : list (nat * reply)) : Z := foldr (λ e n, ok1 e.2 + n) 0 mail.
Arguments mail_ok : simpl never.

(** ** What a claimant's tree does with its replies *)
Section trees.
Context (media : WalMedia) (key data : bytes).

(** With [n] successful puts so far, it claims the position only with a
    majority, and it only ever puts its own bytes under its key. *)
Fixpoint wins (p : mprog CasError bool) (n : Z) : Prop :=
  match p with
  | Done r => r = Ok true → majority media ≤ n
  | MStuck => True
  | MGet _ _ k => ∀ r, wins (k r) n
  | MPut m key' data' expected k =>
      m ∈ media_of media ∧ key' = key ∧ data' = data ∧ expected = None ∧ ∀ r, wins (k r) (n + ok1 r)
  | MDelete _ _ _ => False
  | MNow k => ∀ t, wins (k t) n
  | MSpawn _ m key' data' k => m ∈ media_of media ∧ key' = key ∧ data' = data ∧ wins k n
  | MRecv _ k => ∀ r, wins (k r) (n + ok1 r)
  | MRecvTimeout _ k => wins (k None) n ∧ ∀ r, wins (k (Some r)) (n + ok1 r)
  end.
(** It ends within [d] calls and never waits for a thread it does not
    have, when [n] replies are out. *)
Fixpoint settles (p : mprog CasError bool) (n d : nat) : Prop :=
  match p, d with
  | Done r, _ => r ≠ Panic
  | MPut _ _ _ _ k, S d => ∀ r, r ≠ Panic → settles (k r) n d
  | MSpawn ch _ _ _ k, S d => ch = 0%nat ∧ settles k (S n) d
  | MRecv ch k, S d =>
      ch = 0%nat ∧ match n with S n => ∀ r, r ≠ Panic → settles (k r) n d | O => False end
  | MRecvTimeout ch k, S d =>
      ch = 0%nat ∧ settles (k None) n d ∧
      match n with S n => ∀ r, r ≠ Panic → settles (k (Some r)) n d | O => True end
  | _, _ => False
  end.
End trees.

(** What a writer's tree does with the result of the quorum. *)
Abbreviation then_true := (λ r : res CasError (),
  match r with Ok _ => mret true | Err e => Done (Err e) | Panic => Done Panic end).

Lemma ok1_nonneg r : 0 ≤ ok1 r ≤ 1.
Proof. destruct r; cbn; lia. Qed.
Lemma quorum_loop_wins fuel ch key data outstanding successes hedged first_err n :
  successes ≤ n →
  wins Dual key data (mhandle (quorum_loop fuel ch key data outstanding successes hedged first_err) then_true) n.
Proof.
  revert outstanding successes hedged first_err n.
  induction fuel as [|fuel IH]; intros o s hedged fe n L; cbn [quorum_loop]; [done|].
  destruct (0 <? o); [|by destruct fe].
  assert (R : ∀ h r, wins Dual key data (mhandle
    match r with
    | Ok _ => if 2 <=? s + 1 then mret () else quorum_loop fuel ch key data (o - 1) (s + 1) h fe
    | Err (AlreadyExists k) => Done (Err (AlreadyExists k))
    | Err e => if h then quorum_loop fuel ch key data (o - 1) s h (match fe with None => Some e | x => x end)
               else MSpawn ch STD key data (quorum_loop fuel ch key data (o - 1 + 1) s true
                      (match fe with None => Some e | x => x end))
    | Panic => Done Panic
    end then_true) (n + ok1 r)).
  { intros h [v|e|]; cbn [ok1].
    - destruct (2 <=? s + 1) eqn:C; zbool; [cbn; intros _; lia|]. apply IH. lia.
    - assert (Hs : ∀ fe', wins Dual key data (mhandle
        (MSpawn ch STD key data (quorum_loop fuel ch key data (o - 1 + 1) s true fe')) then_true) (n + 0)).
      { intros fe'. cbn. split_and!; [set_solver|done|done|]. apply IH. lia. }
      destruct e; try done; destruct h; try apply Hs; apply IH; lia.
    - done. }
  destruct hedged; cbn [mhandle wins].
  - intros r. apply (R true).
  - split; [|intros r; apply (R false)]. cbn. split_and!; [set_solver|done|done|]. by apply IH.
Qed.
Ltac own_put := split_and!; [set_solver|done|done|done|].
Lemma claim_wins media c : wins media (cl_key c) (cl_bytes c) (claim_prog media c) 0.
Proof.
  unfold claim_prog, cl_key. destruct (cl_seals c), media; cbn -[quorum_loop].
  - own_put. intros [v|[]|]; cbn; done.
  - own_put. intros [v1|[]|]; cbn; try done; own_put; intros [v2|[]|]; cbn; try done;
      own_put; intros [v3|[]|]; cbn; done.
  - own_put. intros [v|[]|]; cbn; done.
  - do 2 (split; [set_solver|split; [done|split; [done|]]]). by apply (quorum_loop_wins QUORUM_FUEL 0).
Qed.

Lemma hedged_settles n fuel key data s fe d :
  (n < fuel)%nat → (n ≤ d)%nat → s ≤ 1 → (fe = None → 2 ≤ Z.of_nat n + s) →
  settles (mhandle (quorum_loop fuel 0 key data (Z.of_nat n) s true fe) then_true) n d.
Proof.
  revert fuel s fe d. induction n as [|n IH]; intros [|fuel] s fe d Lf Ld Ls Fe; try lia; cbn [quorum_loop].
  - destruct fe; [by destruct d|]. specialize (Fe eq_refl). lia.
  - rewrite (proj2 (Z.ltb_lt 0 (Z.of_nat (S n)))) by lia. destruct d as [|d]; [lia|].
    cbn [mhandle settles]. split; [done|]. replace (Z.of_nat (S n) - 1) with (Z.of_nat n) by lia.
    intros [v|e|] N; [| |done].
    + destruct (2 <=? s + 1) eqn:C; zbool; [by destruct d|]. apply IH; [lia..|]. intros F. specialize (Fe F). lia.
    + destruct e; try (by destruct d); (apply IH; [lia..|by destruct fe]).
Qed.
Lemma unhedged_settles n fuel key data s d :
  (n + 3 ≤ fuel)%nat → (n + 3 ≤ d)%nat → s ≤ 1 → 2 ≤ Z.of_nat n + s →
  settles (mhandle (quorum_loop fuel 0 key data (Z.of_nat n) s false None) then_true) n d.
Proof.
  revert fuel s d. induction n as [|n IH]; intros [|fuel] s [|[|d]] Lf Ld Ls Fe; try lia.
  cbn [quorum_loop]. rewrite (proj2 (Z.ltb_lt 0 (Z.of_nat (S n)))) by lia.
  cbn [mhandle settles]. split; [done|]. split.
  - split; [done|]. replace (Z.of_nat (S n) + 1) with (Z.of_nat (S (S n))) by lia.
    apply hedged_settles; lia.
  - replace (Z.of_nat (S n) - 1 + 1) with (Z.of_nat (S n)) by lia.
    replace (Z.of_nat (S n) - 1) with (Z.of_nat n) by lia. intros [v|e|] N; [| |done].
    + destruct (2 <=? s + 1) eqn:C; zbool; [done|]. apply IH; lia.
    + destruct e; try done; (cbn [mhandle settles]; split; [done|]; apply hedged_settles; [lia..|done]).
Qed.
(** No claimant, with its threads, makes more moves than this. *)
Definition MAX_MOVES : nat := 14.
Lemma claim_settles media c : settles (claim_prog media c) 0 7.
Proof.
  unfold claim_prog. destruct (cl_seals c), media; cbn -[quorum_loop Nat.sub].
  - intros [v|[]|] ?; done.
  - intros [v1|[]|] ?; cbn; try done; intros [v2|[]|] ?; cbn; try done; intros [v3|[]|] ?; cbn; done.
  - intros [v|[]|] ?; done.
  - split; [done|]. split; [done|]. by apply (unhedged_settles 2 QUORUM_FUEL).
Qed.

(** ** Stores that only grow *)
Section system.
Context {S : Type} `{CasOk S}.
Implicit Types w : mworld S.

Definition lawful w : Prop := ∀ m, cas_inv (store_at w m).
(** Whatever runs leaves lawful stores. *)
Lemma put_lawful w f m key data expected : lawful w → lawful (world_put w f m key data expected).1.
Proof.
  intros L. unfold world_put. pose proof (put_if_match_ok (store_at w m) key data expected (L m)) as P.
  assert (L' : lawful (with_store w m (put_if_match (store_at w m) key data expected).1)).
  { intros md. rewrite store_at_with. destruct (decide (md = m)); [|apply L]. destruct (put_if_match _ _ _ _). apply P. }
  destruct f; [|done|]; destruct (put_if_match _ _ _ _); exact L'.
Qed.
Lemma delete_lawful w f m key : lawful w → lawful (world_delete w f m key).1.
Proof.
  intros L. unfold world_delete. pose proof (cas_delete_ok (store_at w m) key (L m)) as P.
  assert (L' : lawful (with_store w m (cas_delete (store_at w m) key).1)).
  { intros md. rewrite store_at_with. destruct (decide (md = m)); [|apply L]. destruct (cas_delete _ _). apply P. }
  destruct f; [|done|]; destruct (cas_delete _ _); exact L'.
Qed.
Lemma mexec_lawful {E A} w (p : mprog E A) : lawful w → lawful (mexec w p).1.
Proof.
  unfold mexec. generalize (@nil (nat * (medium * bytes * bytes))). revert w.
  induction p as [r| |m key k IH|m key data ex k IH|m key k IH|k IH|ch m key data k IH|ch k IH|ch k IH];
    intros w threads L; cbn [mexec_pool]; try done; try by apply IH.
  - pose proof (put_lawful w Works m key data ex L). destruct (world_put _ _ _ _ _ _). by apply IH.
  - pose proof (delete_lawful w Works m key L). destruct (world_delete _ _ _ _). by apply IH.
  - destruct (next_of ch threads) as [[[[m key] data] rest]|]; [|done].
    pose proof (put_lawful w Works m key data None L). destruct (world_put _ _ _ _ _ _). by apply IH.
  - destruct (next_of ch threads) as [[[[m key] data] rest]|]; [|by apply IH].
    pose proof (put_lawful w Works m key data None L). destruct (world_put _ _ _ _ _ _). by apply IH.
Qed.
(** No object goes away or changes its bytes. *)
Definition grows w w' : Prop :=
  lawful w' ∧ ∀ m key d v, cas_view (store_at w m) key = Some (d, v) →
                           ∃ v', cas_view (store_at w' m) key = Some (d, v').

Lemma grows_refl w : lawful w → grows w w.
Proof. intros L. split; [done|]. eauto. Qed.
Lemma grows_trans w1 w2 w3 : grows w1 w2 → grows w2 w3 → grows w1 w3.
Proof.
  intros [L1 G1] [L2 G2]. split; [done|]. intros m key d v V.
  destruct (G1 _ _ _ _ V) as [v' V']. eauto.
Qed.

(** A [put_if_absent] under any fault writes nothing, or creates the object. *)
Lemma world_put_absent w f m key data :
  lawful w →
  let '(w', r) := world_put w f m key data None in
  let objs := wrote_at (put_if_match (store_at w m) key data None).2 f m key in
  grows w w' ∧ r ≠ Panic ∧
  ((objs = [] ∧ ok1 r = 0) ∨
   (objs = [(m, key)] ∧ cas_view (store_at w m) key = None ∧ ∃ v, cas_view (store_at w' m) key = Some (data, v))).
Proof.
  intros L. pose proof (put_if_match_ok (store_at w m) key data None (L m)) as P. unfold world_put, wrote_at.
  destruct f; [| |]; destruct (put_if_match (store_at w m) key data None) as [s' r']; cbn [fst snd].
  2: { split; [by apply grows_refl|]. split; [done|]. by left. }
  all: destruct P as [I P]; case_bool_decide as C.
  1, 3: destruct P as (v & -> & V & O); destruct (cas_view (store_at w m) key) as [[]|] eqn:N; [done|];
    split; [split|split; [done|right; split_and!; [done|done|exists v]]].
  1, 4: intros m'; rewrite store_at_with; by case_decide.
  1, 3: intros m' key' d v' V'; rewrite store_at_with; case_decide as D; [subst m'|eauto];
    destruct (decide (key' = key)) as [->|Nk]; [congruence|]; rewrite O by done; eauto.
  1, 2: rewrite store_at_with, decide_True by done; done.
  all: destruct P as [-> ->]; split; [split|split; [done|left; done]].
  1, 3: intros m'; rewrite store_at_with; by case_decide.
  1, 2: intros m' key' d v' V'; rewrite store_at_with; case_decide; subst; eauto.
Qed.

(** ** The system *)
Context (media : WalMedia) (cs : list claimant).

Definition claims_start w : msys S CasError bool := mkMSys w (start ∘ claim_prog media <$> cs) [].
Fixpoint claims_run (y : msys S CasError bool) (ls : list (nat * move)) : option (msys S CasError bool) :=
  match ls with
  | [] => Some y
  | (i, mv) :: ls => y' ← msys_step y i mv; claims_run y' ls
  end.
Definition moves_of (i : nat) (ls : list (nat * move)) : nat := length (filter (λ l, l.1 = i) ls).
Definition written_by (i : nat) (h : list (nat * (medium * bytes))) : list (medium * bytes) :=
  snd <$> filter (λ e, e.1 = i) h.

(** A claimant in progress: its puts so far, its threads, its budget. *)
Record actor_ok (c : claimant) (a : actor CasError bool) (n : Z) (d : nat) : Prop := {
  ak_wins : wins media (cl_key c) (cl_bytes c) (ac_prog a) n;
  ak_settles : settles (ac_prog a) (length (ac_threads a) + length (ac_mail a)) d;
  ak_threads : Forall (λ t, t.1 = 0%nat ∧ t.2.1.1 ∈ media_of media ∧
                            t.2.1.2 = cl_key c ∧ t.2.2 = cl_bytes c) (ac_threads a);
  ak_mail : Forall (λ e, e.1 = 0%nat ∧ e.2 ≠ Panic) (ac_mail a)
}.
Record claims_inv (ls : list (nat * move)) (y : msys S CasError bool) : Prop := {
  ci_lawful : lawful (sy_world y);
  ci_written : ∀ i m key, (i, (m, key)) ∈ sy_history y → ∃ c v, cs !! i = Some c ∧ key = cl_key c ∧
    m ∈ media_of media ∧ cas_view (store_at (sy_world y) m) key = Some (cl_bytes c, v);
  ci_once : NoDup (snd <$> sy_history y);
  ci_actors : ∀ i c, cs !! i = Some c → ∃ a n d, sy_actors y !! i = Some a ∧ actor_ok c a n d ∧
    n + mail_ok (ac_mail a) ≤ zlen (written_by i (sy_history y)) ∧
    (moves_of i ls + 2 * d + length (ac_threads a) ≤ MAX_MOVES)%nat;
  ci_only : length (sy_actors y) = length cs
}.

Lemma claims_start_inv w : lawful w → claims_inv [] (claims_start w).
Proof.
  intros L. split; cbn; [done|set_solver|constructor| |by rewrite length_fmap].
  intros i c Hc. exists (start (claim_prog media c)), 0, 7%nat. rewrite list_lookup_fmap, Hc.
  split_and!; [done| |done|done]. split; cbn; [apply claim_wins|apply claim_settles|done|done].
Qed.

Lemma mail_ok_app a b : mail_ok (a ++ b) = mail_ok a + mail_ok b.
Proof.
  induction a as [|e a IH]; [done|].
  change (ok1 e.2 + mail_ok (a ++ b) = ok1 e.2 + mail_ok a + mail_ok b). rewrite IH. lia.
Qed.
Lemma mail_ok_cons ch r mail : mail_ok ((ch, r) :: mail) = ok1 r + mail_ok mail.
Proof. done. Qed.
Lemma ok1_exists r : ok1 (exists_not_conflict r) = ok1 r.
Proof. by destruct r as [|[]|]. Qed.
Lemma exists_not_panic r : r ≠ Panic → exists_not_conflict r ≠ Panic.
Proof. by destruct r as [|[]|]. Qed.
Lemma take_mail_0 mail r rest :
  Forall (λ e, e.1 = 0%nat ∧ e.2 ≠ Panic) mail → take_mail 0 mail = Some (r, rest) → mail = (0%nat, r) :: rest.
Proof.
  destruct 1 as [|[c r'] mail [C _] F]; cbn in *; [done|]. subst c. cbn. by intros [= -> ->].
Qed.
Lemma written_by_app i h h' : written_by i (h ++ h') = written_by i h ++ written_by i h'.
Proof. unfold written_by. by rewrite filter_app, fmap_app. Qed.
Lemma written_by_new i j (objs : list (medium * bytes)) :
  written_by i ((λ o, (j, o)) <$> objs) = if decide (i = j) then objs else [].
Proof.
  unfold written_by. induction objs as [|o objs IH]; [by case_decide|].
  rewrite fmap_cons, filter_cons. cbn [fst]. case_decide as C; case_decide; try congruence.
  by rewrite fmap_cons, IH.
Qed.
Lemma moves_of_snoc i j mv ls : moves_of i (ls ++ [(j, mv)]) = (moves_of i ls + if decide (i = j) then 1 else 0)%nat.
Proof.
  unfold moves_of. rewrite filter_app, length_app, filter_cons. cbn. f_equal. repeat case_decide; try congruence; done.
Qed.

(** One move of one claimant: it stays in order, and what it wrote is its
    own object in a place where there was none. *)
Definition step_ok (c : claimant) (w w' : mworld S) (a a' : actor CasError bool) (n : Z) (d : nat)
    (objs : list (medium * bytes)) : Prop :=
  grows w w' ∧
  (∃ n' d', actor_ok c a' n' d' ∧ n' + mail_ok (ac_mail a') ≤ n + mail_ok (ac_mail a) + zlen objs ∧
     (1 + 2 * d' + length (ac_threads a') ≤ 2 * d + length (ac_threads a))%nat) ∧
  (objs = [] ∨ ∃ m v, objs = [(m, cl_key c)] ∧ m ∈ media_of media ∧
     cas_view (store_at w m) (cl_key c) = None ∧ cas_view (store_at w' m) (cl_key c) = Some (cl_bytes c, v)).
Lemma actor_step_ok c w a mv w' a' objs n d :
  lawful w → actor_ok c a n d → actor_step w a mv = Some (w', a', objs) → step_ok c w w' a a' n d objs.
Proof.
  intros L [W T Th M] E. destruct a as [p threads mail]. cbn [ac_prog ac_threads ac_mail] in *.
  destruct mv as [f|i f| |]; cbn -[world_put wrote_at put_if_match] in E.
  - destruct p as [| | |m key' data' ex k| | |ch m key' data' k| |]; try done; destruct d as [|d]; try done.
    + cbn in W. destruct W as (Hm & -> & -> & -> & W).
      pose proof (world_put_absent w f m (cl_key c) (cl_bytes c) L) as P.
      destruct (world_put w f m (cl_key c) (cl_bytes c) None) as [w1 r].
      destruct P as (G & Np & P). injection E as <- <- <-. split; [done|]. split.
      * exists (n + ok1 r), d. split; [split; cbn; [apply W|by apply T|done|done]|]. cbn.
        destruct P as [[-> ->]|(-> & _)]; [zlen_lia|]. pose proof (ok1_nonneg r). split; [zlen_lia|lia].
      * destruct P as [[-> _]|(-> & N & v & V)]; [by left|right]. exists m, v. done.
    + injection E as <- <- <-. cbn in W, T. destruct W as (Hm & -> & -> & W), T as [-> T].
      split; [by apply grows_refl|]. split; [|by left]. exists n, d. cbn. split; [split; cbn|].
      * done.
      * rewrite length_app. cbn. by replace (_ + 1 + _)%nat with (Datatypes.S (length threads + length mail)) by lia.
      * apply Forall_app. split; [done|]. by constructor.
      * done.
      * rewrite length_app. cbn. split; [zlen_lia|lia].
  - destruct (threads !! i) as [[ch [[m key'] data']]|] eqn:Hi; [|done]. cbn in E.
    destruct (Forall_lookup_1 _ _ _ _ Th Hi) as (C0 & Hm & K & D). cbn in C0, Hm, K, D. subst ch key' data'.
    pose proof (world_put_absent w f m (cl_key c) (cl_bytes c) L) as P.
    destruct (world_put w f m (cl_key c) (cl_bytes c) None) as [w1 r]. destruct P as (G & Np & P).
    injection E as <- <- <-. pose proof (lookup_lt_Some _ _ _ Hi) as Li.
    assert (Ld : length (delete i threads) = (length threads - 1)%nat) by by rewrite length_delete by eauto.
    split; [done|]. split.
    + exists n, d. cbn. rewrite Ld. split; [split; cbn|].
      * done.
      * rewrite Ld, length_app. cbn. by replace (length threads - 1 + (length mail + 1))%nat with (length threads + length mail)%nat by lia.
      * by apply Forall_delete.
      * apply Forall_app. split; [done|]. constructor; [|done]. split; [done|]. by apply exists_not_panic.
      * rewrite mail_ok_app, mail_ok_cons, ok1_exists. change (mail_ok []) with 0.
        destruct P as [[-> ->]|(-> & _)]; [split; [zlen_lia|lia]|]. pose proof (ok1_nonneg r). split; [zlen_lia|lia].
    + destruct P as [[-> _]|(-> & N & v & V)]; [by left|right]. exists m, v. done.
  - assert (Got : ∀ r rest k, mail = (0%nat, r) :: rest → w' = w → objs = [] → a' = mkActor k threads rest →
      wins media (cl_key c) (cl_bytes c) k (n + ok1 r) →
      (∃ d', d = Datatypes.S d' ∧ (r ≠ Panic → settles k (length threads + length rest) d')) →
      step_ok c w w' (mkActor p threads mail) a' n d objs).
    { intros r rest k -> -> -> -> Wk (d' & -> & Tk). apply Forall_cons in M as [[_ Nr] M].
      split; [by apply grows_refl|]. split; [|by left]. exists (n + ok1 r), d'. cbn.
      split; [split; cbn; [done|by apply Tk|done|done]|]. rewrite mail_ok_cons. split; [zlen_lia|lia]. }
    destruct p as [| | | | | | |ch k|ch k]; try done; destruct d as [|d]; try done; cbn in W, T; destruct T as [-> T];
      destruct (take_mail 0 mail) as [[r rest]|] eqn:Tm; try done; apply take_mail_0 in Tm; [|done| |done];
      cbn in E; injection E as <- <- <-; subst mail; cbn in T; rewrite Nat.add_succ_r in T;
      (eapply Got; [done|done|done|done|apply W|exists d; split; [done|by apply T]]).
  - destruct p as [| | | | | | | |ch k]; try done. destruct d as [|d]; try done. injection E as <- <- <-.
    cbn in W, T. split; [by apply grows_refl|]. split; [|by left]. exists n, d. cbn.
    split; [split; cbn; [apply W|apply T|done|done]|]. split; [zlen_lia|lia].
Qed.

Lemma msys_step_inv ls y i mv y' :
  claims_inv ls y → msys_step y i mv = Some y' →
  claims_inv (ls ++ [(i, mv)]) y' ∧ grows (sy_world y) (sy_world y').
Proof.
  intros [L Wr O A Len] E. unfold msys_step in E.
  destruct (sy_actors y !! i) as [a|] eqn:Ha; [|done]. cbn in E.
  destruct (actor_step (sy_world y) a mv) as [[[w' a'] objs]|] eqn:Es; [|done]. injection E as <-.
  pose proof (lookup_lt_Some _ _ _ Ha) as Li. rewrite Len in Li.
  destruct (lookup_lt_is_Some_2 cs i Li) as [c Hc].
  destruct (A i c Hc) as (a0 & n & d & Ha0 & Ok0 & Ln & Lm). rewrite Ha in Ha0. injection Ha0 as <-.
  destruct (actor_step_ok c _ _ _ _ _ _ n d L Ok0 Es) as (G & (n' & d' & Ok' & Ln' & Lm') & Ob).
  split; [|done]. split; cbn [sy_world sy_actors sy_history].
  - apply G.
  - intros j m key [Hj|(o & [= -> <-] & Ho)%list_elem_of_fmap]%elem_of_app.
    + destruct (Wr j m key Hj) as (c' & v & C1 & C2 & C3 & V). destruct (proj2 G _ _ _ _ V) as [v' V']. eauto 8.
    + destruct Ob as [->|(m' & v & -> & Hm & _ & V)]; [set_solver|].
      apply list_elem_of_singleton in Ho as [= -> ->]. eauto 8.
  - assert (F : snd <$> ((λ o, (i, o)) <$> objs) = objs) by (rewrite <-list_fmap_compose; apply list_fmap_id).
    rewrite fmap_app, F. clear F. apply NoDup_app. split; [done|].
    destruct Ob as [->|(m & v & -> & _ & N & _)]; [split; [set_solver|constructor]|].
    split; [|apply NoDup_singleton]. intros o Ho ->%list_elem_of_singleton.
    apply list_elem_of_fmap in Ho as ([j [m' k']] & [= <- <-] & Ho). destruct (Wr j _ _ Ho) as (? & ? & _ & _ & _ & V). congruence.
  - intros j cj Hj. rewrite written_by_app, written_by_new, moves_of_snoc. destruct (decide (j = i)) as [->|N].
    + exists a', n', d'. rewrite list_lookup_insert_eq by lia. replace cj with c by congruence.
      split_and!; [done|done|zlen_lia|lia].
    + destruct (A j cj Hj) as (aj & nj & dj & Hj' & B). exists aj, nj, dj.
      rewrite list_lookup_insert_ne, app_nil_r, Nat.add_0_r by done. done.
  - by rewrite length_insert.
Qed.
Lemma claims_run_inv ls0 ls y y' :
  claims_inv ls0 y → claims_run y ls = Some y' →
  claims_inv (ls0 ++ ls) y' ∧ grows (sy_world y) (sy_world y').
Proof.
  revert ls0 y. induction ls as [|[i mv] ls IH]; intros ls0 y I E; cbn in E.
  - injection E as <-. rewrite app_nil_r. split; [done|]. apply grows_refl, I.
  - destruct (msys_step y i mv) as [y1|] eqn:E1; [|done]. cbn in E.
    destruct (msys_step_inv _ _ _ _ _ I E1) as [I1 G1]. destruct (IH _ _ I1 E) as [I2 G2].
    rewrite <-app_assoc in I2. split; [done|]. by eapply grows_trans.
Qed.

(** ** Majorities meet *)
Lemma written_by_elem i o h : o ∈ written_by i h → (i, o) ∈ h.
Proof.
  unfold written_by. intros ([j o'] & -> & [E1 E2]%list_elem_of_filter)%list_elem_of_fmap. cbn in *. by subst.
Qed.
Lemma written_by_nodup i j h : i ≠ j → NoDup (snd <$> h) → NoDup (written_by i h ++ written_by j h).
Proof.
  intros N D. apply NoDup_app. unfold written_by.
  assert (Sub : ∀ k, NoDup (snd <$> filter (λ e, e.1 = k) h)).
  { intros k. eapply sublist_NoDup; [exact D|]. apply fmap_sublist, sublist_filter. }
  split_and!; [apply Sub| |apply Sub]. intros o Hi Hj.
  apply written_by_elem in Hi, Hj. apply N. clear -D Hi Hj.
  apply list_elem_of_lookup in Hi as [a Ha], Hj as [b Hb].
  assert (a = b) as ->; [|congruence].
  eapply (NoDup_lookup (snd <$> h)); [done| |]; rewrite list_lookup_fmap; [by rewrite Ha|by rewrite Hb].
Qed.
Lemma won_majority ls y i c a :
  claims_inv ls y → cs !! i = Some c → sy_actors y !! i = Some a → won a →
  majority media ≤ zlen (written_by i (sy_history y)).
Proof.
  intros I Hc Ha W. destruct (ci_actors _ _ I i c Hc) as (a' & n & d & Ha' & [Wi _ _ _] & L & _).
  rewrite Ha in Ha'. injection Ha' as <-. unfold won in W. rewrite W in Wi. specialize (Wi eq_refl).
  assert (0 ≤ mail_ok (ac_mail a)); [|lia]. clear. induction (ac_mail a) as [|[ch r] mail IH]; [done|].
  rewrite mail_ok_cons. pose proof (ok1_nonneg r). lia.
Qed.
Lemma one_winner ls y i j ci cj ai aj :
  claims_inv ls y → cs !! i = Some ci → cs !! j = Some cj → cl_key ci = cl_key cj →
  sy_actors y !! i = Some ai → sy_actors y !! j = Some aj → won ai → won aj → i = j.
Proof.
  intros I Hi Hj K Ai Aj Wi Wj. destruct (decide (i = j)) as [|N]; [done|]. exfalso.
  pose proof (won_majority _ _ _ _ _ I Hi Ai Wi). pose proof (won_majority _ _ _ _ _ I Hj Aj Wj).
  set (all := written_by i (sy_history y) ++ written_by j (sy_history y)).
  assert (D : NoDup all) by (apply written_by_nodup; [done|apply I]).
  assert (Inc : all ⊆ (λ m, (m, cl_key ci)) <$> media_of media).
  { intros [m key] [Ho%written_by_elem|Ho%written_by_elem]%elem_of_app;
      apply (ci_written _ _ I) in Ho as (c & v & C & -> & M & _); apply list_elem_of_fmap; exists m.
    - by replace c with ci by congruence.
    - rewrite K. by replace c with cj by congruence. }
  apply NoDup_submseteq in Inc; [|done]. apply submseteq_length in Inc. rewrite length_fmap in Inc.
  unfold all in Inc. rewrite length_app in Inc. unfold zlen in *. destruct media; cbn in *; lia.
Qed.

(** ** Readers *)
(** A read whose calls come one by one while the media grow, each of them
    free to fail. *)
Inductive read_run {E A} : mworld S → mprog E A → res E A → Prop :=
  | rr_done w r : read_run w (Done r) r
  | rr_get w w' f m key k r :
      grows w w' → read_run w' (k (world_get w' f m key)) r → read_run w (MGet m key k) r.

Definition holds w (key data : bytes) (m : medium) : Prop := ∃ v, cas_view (store_at w m) key = Some (data, v).
(** A majority of the media holds these bytes. *)
Definition owned w (key data : bytes) : Prop :=
  ∃ ms, NoDup ms ∧ ms ⊆ media_of media ∧ majority media ≤ zlen ms ∧ Forall (holds w key data) ms.

Lemma holds_grows w w' key data m : grows w w' → holds w key data m → holds w' key data m.
Proof. intros [_ G] [v V]. by apply G in V. Qed.
Lemma won_owned ls y i c a :
  claims_inv ls y → cs !! i = Some c → sy_actors y !! i = Some a → won a →
  owned (sy_world y) (cl_key c) (cl_bytes c).
Proof.
  intros I Hc Ha W. pose proof (won_majority _ _ _ _ _ I Hc Ha W) as M.
  assert (K : ∀ o, o ∈ written_by i (sy_history y) →
    o.2 = cl_key c ∧ o.1 ∈ media_of media ∧ holds (sy_world y) (cl_key c) (cl_bytes c) o.1).
  { intros [m key] Ho%written_by_elem. apply (ci_written _ _ I) in Ho as (c' & v & C & -> & Hm & V).
    replace c' with c in * by congruence. split_and!; [done|done|by exists v]. }
  exists (fst <$> written_by i (sy_history y)). split_and!.
  - apply NoDup_fmap_2_strong.
    + intros [m1 k1] [m2 k2] [K1 _]%K [K2 _]%K Em. cbn in *. congruence.
    + eapply sublist_NoDup; [apply (ci_once _ _ I)|]. apply fmap_sublist, sublist_filter.
  - intros m (o & -> & Ho)%list_elem_of_fmap. by apply K.
  - unfold zlen in *. by rewrite length_fmap.
  - apply Forall_fmap, Forall_forall. intros o Ho. by apply K.
Qed.
(** Two of three, spelled out. *)
Lemma owned_cases w key data :
  owned w key data →
  match media with
  | Single => holds w key data STD
  | Dual => holds w key data AZ1 ∧ holds w key data AZ2 ∨ holds w key data AZ1 ∧ holds w key data STD ∨
            holds w key data AZ2 ∧ holds w key data STD
  end.
Proof.
  intros (ms & D & Sub & M & F). destruct media.
  - destruct ms as [|m ms]; [unfold zlen in M; cbn in M; lia|]. apply Forall_cons in F as [F _].
    assert (m = STD) as -> by (specialize (Sub m); set_solver). done.
  - destruct ms as [|m1 [|m2 ms]]; [unfold zlen in M; cbn in M; lia..|]. apply Forall_cons in F as [F1 F].
    apply Forall_cons in F as [F2 _]. apply NoDup_cons in D as [N _].
    destruct m1, m2; try (exfalso; apply N; by left); auto.
Qed.
Lemma world_get_cases w f m key :
  lawful w → world_get w f m key = Ok (cas_view (store_at w m) key) ∨ ∃ e, world_get w f m key = Err e.
Proof. intros L. destruct f; cbn; [left; by apply cas_get_ok|by right; eexists..]. Qed.
(** The next call of a read: either it fails and with it the read, or it
    answers what the medium holds by then. *)
Lemma read_get {E A} w (p : mprog E A) m key k r (P : res E A → Prop) :
  read_run w p r → p = MGet m key k →
  (∀ e w', read_run w' (k (Err e)) r → P r) →
  (∀ w', grows w w' → read_run w' (k (Ok (cas_view (store_at w' m) key))) r → P r) → P r.
Proof.
  intros R -> Bad Good. inversion R as [|? w' f ? ? ? ? G R']; subst.
  destruct (world_get_cases w' f m key (proj1 G)) as [Eg|[e Eg]]; rewrite Eg in R'; eauto.
Qed.
Definition read_ok {E A} (a : A) (r : res E A) : Prop := r = Ok a ∨ ∃ e, r = Err e.
Lemma read_done {E A} w r (r' : res E A) : read_run w (Done r) r' → r' = r.
Proof. by inversion 1. Qed.


(** Make the next call of a read; [read_known] when the medium is known to
    hold [data], [read_other] when anything may be there. *)
Ltac read_step R :=
  refine (read_get _ _ _ _ _ _ _ R eq_refl _ _); clear R;
  [ intros ? ? R; cbn in R; apply read_done in R as ->; right; eexists; reflexivity
  | let w' := fresh "w" in let G := fresh "G" in intros w' G R;
    repeat match goal with H : holds _ _ _ _ |- _ => apply (holds_grows _ _ _ _ _ G) in H end; clear G ].
Ltac read_known R H := read_step R; let v := fresh "v" in let V := fresh "V" in
  destruct H as [v V]; rewrite V in R; clear V; cbn -[sub] in R.
Ltac read_other R b := read_step R;
  match type of R with context [cas_view ?s ?k] => destruct (cas_view s k) as [[b ?]|] end; cbn -[sub] in R.
Ltac read_end R := apply read_done in R as ->; by left.

Ltac header R := rewrite range_reply_head in R by done; cbn -[sub] in R.

Lemma fetch_owned w shard seq data r :
  owned w (segment_key shard seq) data →
  read_run w (fetch_segment media shard seq) r → read_ok (Some data) r.
Proof.
  intros O%owned_cases R. unfold fetch_segment in R. destruct media; cbn in R.
  - read_known R O. read_end R.
  - assert (T : ∀ x : option bytes, bool_decide (x = x) = true) by (intros x; by apply bool_decide_true).
    destruct O as [[A B]|[[A B]|[A B]]].
    + read_known R A. read_known R B. rewrite T in R. read_end R.
    + read_known R A. read_other R b.
      * case_bool_decide; [read_end R|]. read_known R B. rewrite T in R. read_end R.
      * read_known R B. rewrite T in R. read_end R.
    + read_other R b; read_known R A.
      * case_bool_decide; [simplify_eq; read_end R|]. read_known R B.
        rewrite bool_decide_false, T in R by congruence. read_end R.
      * read_known R B. rewrite T in R. read_end R.
Qed.

Lemma present_owned w shard seq data r :
  owned w (segment_key shard seq) data →
  read_run w (present media shard seq) r → read_ok true r.
Proof.
  intros O%owned_cases R. unfold present in R. destruct media; cbn in R.
  - read_known R O. rewrite range_reply_head in R by done. read_end R.
  - assert (T : ∀ x : option bytes, bool_decide (x = x) = true) by (intros x; by apply bool_decide_true).
    assert (T' : ∀ x : bytes, bool_decide (x = x) = true) by (intros x; by apply bool_decide_true).
    assert (L : 0 ≤ 28 ≤ u64_max) by done.
    destruct O as [[A B]|[[A B]|[A B]]].
    + read_known R A. header R. read_known R B.
      header R. rewrite T' in R. read_end R.
    + read_known R A. header R. read_other R b;
        header R.
      * case_bool_decide; [read_end R|]. read_known R B. header R.
        rewrite T in R. read_end R.
      * read_known R B. header R. rewrite T in R. read_end R.
    + read_other R b; header R; read_known R A;
        header R.
      * case_bool_decide; [read_end R|]. read_known R B. header R.
        rewrite T, orb_true_r in R. read_end R.
      * read_known R B. header R. rewrite T in R. read_end R.
Qed.

(** Whoever has not answered can move, itself or a thread of its own. *)
Lemma actor_moves c a n d w :
  actor_ok c a n d →
  (∃ r, ac_prog a = Done r ∧ r ≠ Panic) ∨ ∃ mv, is_Some (actor_step w a mv).
Proof.
  intros [_ T _ M]. destruct a as [p threads mail]. cbn [ac_prog ac_threads ac_mail] in *.
  destruct p as [r| | |m key data ex k| | |ch m key data k|ch k|ch k]; destruct d as [|d]; try done; try (left; by eauto).
  - right. exists (Call Works). cbn. destruct (put_if_match _ _ _ _). eauto.
  - right. exists (Call Works). eauto.
  - destruct T as [-> T]. right. destruct mail as [|[c0 r] mail].
    + destruct threads as [|[c1 [[m key] data]] threads]; [done|]. exists (Thread 0 Works).
      cbn. destruct (put_if_match _ _ _ _). eauto.
    + apply Forall_cons in M as [[M0 _] _]. cbn in M0. subst c0. exists Mail. cbn. eauto.
  - right. exists Timeout. eauto.
Qed.
End system.

(** C5: a chain position has one owner.  However the calls, threads, lost
    replies and timeouts of any number of writers and sealers interleave,
    on one bucket or on three: of all that race for one position at most
    one is told it got it; from then on every read of that position, with
    the others still writing, answers the winner's bytes or an error; and
    nothing the others do takes an object away. *)
Theorem one_owner_per_seq {S} `{CasOk S} (media : WalMedia) (cs : list claimant) (w0 : mworld S)
    (ls : list (nat * move)) (y : msys S CasError bool) :
  lawful w0 → claims_run (claims_start media cs w0) ls = Some y →
  (∀ i j ci cj ai aj, cs !! i = Some ci → cs !! j = Some cj → cl_key ci = cl_key cj →
     sy_actors y !! i = Some ai → sy_actors y !! j = Some aj → won ai → won aj → i = j) ∧
  (∀ i c a, cs !! i = Some c → sy_actors y !! i = Some a → won a →
     (∀ r, read_run (sy_world y) (fetch_segment media (cl_shard c) (cl_seq c)) r → read_ok (Some (cl_bytes c)) r) ∧
     (∀ r, read_run (sy_world y) (present media (cl_shard c) (cl_seq c)) r → read_ok true r)) ∧
  (∀ ls' y', claims_run y ls' = Some y' → grows (sy_world y) (sy_world y')).
Proof.
  intros L R. destruct (claims_run_inv media cs [] ls _ y (claims_start_inv media cs w0 L) R) as [I _].
  split_and!.
  - intros i j ci cj ai aj. by eapply one_winner.
  - intros i c a Hc Ha W. pose proof (won_owned media cs _ _ _ _ _ I Hc Ha W) as O.
    split; intros r Rr; [by eapply fetch_owned|by eapply present_owned].
  - intros ls' y' R'. by eapply (claims_run_inv media cs).
Qed.

(** Every claim is answered.  Under the same interleavings a writer or
    sealer with its threads makes at most [MAX_MOVES] moves, and as long as
    it has not answered one of them can move; it never panics, and it never
    waits for a reply that no thread owes. *)
Theorem claims_settle {S} `{CasOk S} (media : WalMedia) (cs : list claimant) (w0 : mworld S)
    (ls : list (nat * move)) (y : msys S CasError bool) :
  lawful w0 → claims_run (claims_start media cs w0) ls = Some y →
  ∀ i c, cs !! i = Some c → ∃ a, sy_actors y !! i = Some a ∧ (moves_of i ls ≤ MAX_MOVES)%nat ∧
    ((∃ r, ac_prog a = Done r ∧ r ≠ Panic) ∨ ∃ mv, is_Some (msys_step y i mv)).
Proof.
  intros L R i c Hc. destruct (claims_run_inv media cs [] ls _ y (claims_start_inv media cs w0 L) R) as [I _].
  destruct (ci_actors _ _ _ _ I i c Hc) as (a & n & d & Ha & Ok_ & _ & B). exists a. change ([] ++ ls) with ls in B. split_and!; [done|lia|].
  destruct (actor_moves media c a n d (sy_world y) Ok_) as [|[mv [[[w' a'] objs] Es]]]; [by left|right].
  exists mv. unfold msys_step. rewrite Ha. cbn. rewrite Es. eauto.
Qed.

(** ** Witnesses *)
Module MediaWitness.
Definition w0 : mworld MemStore := mkMWorld ms_new ms_new ms_new 0.
Lemma buckets_lawful : lawful w0.
Proof. intros []; apply ms_new_ok. Qed.
(** A writer and a sealer race for position 7; the sealer gets one bucket,
    the writer's put to the other times out, it hedges, and the reply of
    the hedge is lost: nobody gets the position. *)
Definition cs : list claimant := [mkClaimant false 1 7 (str "window"); mkClaimant true 1 7 (str "seal")].
Definition ls : list (nat * move) :=
  [(0%nat, Call Works); (0%nat, Call Works); (0%nat, Thread 0 Works); (1%nat, Call Works); (1%nat, Call Works);
   (0%nat, Timeout); (0%nat, Call Works); (0%nat, Thread 1 FailsAfter); (1%nat, Call Works); (0%nat, Mail);
   (0%nat, Mail); (0%nat, Thread 0 Works); (0%nat, Mail)].
Definition outcome (ls : list (nat * move)) : option (list (option (res CasError bool))) :=
  (λ y, (λ a, match ac_prog a with Done r => Some r | _ => None end) <$> sy_actors y) <$>
    claims_run (claims_start Dual cs w0) ls.
Example race : outcome ls = Some [Some (Err (AlreadyExists (segment_key 1 7))); Some (Ok false)].
Proof. by vm_compute. Qed.
(** Here the writer is first on both buckets. *)
Definition ls2 : list (nat * move) :=
  [(0%nat, Call Works); (0%nat, Call Works); (0%nat, Thread 1 Works); (0%nat, Thread 0 Works); (1%nat, Call Works);
   (1%nat, Call Works); (0%nat, Mail); (0%nat, Mail)].
Example race2 : outcome ls2 = Some [Some (Ok true); Some (Ok false)].
Proof. by vm_compute. Qed.

Lemma one_owner_per_seq_witness :
  ∃ y, claims_run (claims_start Dual cs w0) ls2 = Some y ∧
    ∀ r, read_run (sy_world y) (fetch_segment Dual 1 7) r → read_ok (Some (str "window")) r.
Proof.
  destruct (claims_run (claims_start Dual cs w0) ls2) as [y|] eqn:R; [|by vm_compute in R].
  exists y. split; [done|]. destruct (one_owner_per_seq Dual cs w0 ls2 y buckets_lawful R) as (_ & F & _).
  pose proof race2 as O. unfold outcome in O. rewrite R in O. cbn in O.
  destruct (sy_actors y) as [|a rest] eqn:Ea; [done|].
  destruct (F 0%nat (mkClaimant false 1 7 (str "window")) a eq_refl) as [G _]; [by rewrite ?Ea| |exact G].
  injection O as O _. unfold won. destruct (ac_prog a); congruence.
Defined.
Lemma claims_settle_witness :
  ∃ y, claims_run (claims_start Dual cs w0) ls = Some y ∧ (moves_of 0 ls ≤ MAX_MOVES)%nat.
Proof.
  destruct (claims_run (claims_start Dual cs w0) ls) as [y|] eqn:R; [|by vm_compute in R].
  exists y. split; [done|].
  destruct (claims_settle Dual cs w0 ls y buckets_lawful R 0 _ eq_refl) as (a & _ & B & _). exact B.
Defined.
End MediaWitness.
