(* ===== verification/Chain.v ===== *)
(** * Chain: the landing segment chain (crates/zou-log/src/chain.rs)

    The chain of fenced objects that is a shard's log: finding its head,
    taking it over, sweeping what a dead writer left behind, and the
    recovery read that follows its links.  [MediaSink] of media.rs, which
    tells a fence from litter, is here too. *)
From S2P Require Import Prelude Order Text Lsn Externals Frame Segment Cas Media.

Definition SHARD_MANIFEST_FORMAT : Z := 1.
Definition MAX_INFLIGHT : Z := 64.
Definition PROBE_WIDTH : Z := 32.

Record RoundRange := mkRounds { rr_first : Z; rr_last : Z }.
#[global] Instance RoundRange_eq_dec : EqDecision RoundRange.
Proof. solve_decision. Defined.
Record ShardManifest := mkLog {
  lm_format : Z;
  lm_shard : Z;
  lm_chain_epoch : Z;
  lm_head : Z;
  lm_consolidated_upto : Z;
  lm_consolidated_digest : Z;
  lm_rounds : option RoundRange;
  lm_gc_round : Z;
  lm_sealed_by : bytes;
  lm_sealed_unix : Z
}.
#[global] Instance ShardManifest_eq_dec : EqDecision ShardManifest.
Proof. solve_decision. Defined.

(** [reason] says which of the two ways a manifest can be bad. *)
Inductive BadReason := NotJson | NewerFormat (format : Z).
Inductive ChainError :=
  | ChainStore (e : CasError)
  | BadManifest (shard : Z) (reason : BadReason)
  | ChainSegmentBad (shard seq : Z) (source : SegmentDecodeError)
  | BrokenLink (shard seq : Z)
  | Contested (shard attempts : Z).
Record Takeover := mkTakeover {
  to_chain_epoch : Z; to_sealed_seq : Z; to_next_seq : Z; to_prev_digest : Z
}.
Record ChainSegment := mkChainSegment {
  cs_seq : Z; cs_header : SegmentHeader; cs_frames : list Frame2; cs_footer : SegmentFooter
}.
Record ChainCursor := mkCursor { cc_seq : Z; cc_prev_digest : Z }.

(** [serde_json] on the shard manifest. *)
Class SerdeLog := {
  log_from_slice : bytes → option ShardManifest;
  log_to_vec_pretty : ShardManifest → bytes
}.
Definition log_fits (m : ShardManifest) : Prop :=
  fits 4 (lm_format m) ∧ fits 4 (lm_shard m) ∧ fits 8 (lm_chain_epoch m) ∧ fits 8 (lm_head m) ∧
  fits 8 (lm_consolidated_upto m) ∧ fits 8 (lm_consolidated_digest m) ∧
  match lm_rounds m with Some r => fits 8 (rr_first r) ∧ fits 8 (rr_last r) | None => True end ∧
  fits 8 (lm_gc_round m) ∧ fits 8 (lm_sealed_unix m).
Class SerdeLogOk `{SerdeLog} : Prop := {
  log_parses : ∀ m, log_fits m → log_from_slice (log_to_vec_pretty m) = Some m;
  log_in_range : ∀ d m, log_from_slice d = Some m → log_fits m
}.

(** Checked [u64] addition in code that talks to the media. *)
Definition madd {E} (a b : Z) : mprog E Z := Done (uadd a b).

Section chain.
Context `{Crc, Lz4, SerdeLog}.
Abbreviation cprog := (mprog ChainError).

(** [ShardManifest::load] *)
Definition log_load (store : medium) (shard : Z) : cprog (option (ShardManifest * Version)) :=
  cur ← mmap_err ChainStore (mget store (manifest_key shard));
  match cur with
  | None => mret None
  | Some (data, version) =>
      manifest ← Done (ok_or (log_from_slice data) (BadManifest shard NotJson));
      _ ← Done (guard_err (SHARD_MANIFEST_FORMAT <? lm_format manifest)
                  (BadManifest shard (NewerFormat (lm_format manifest))));
      mret (Some (manifest, version))
  end.

(** ** The head *)
Definition probe (media : WalMedia) (shard seq : Z) : cprog bool :=
  mmap_err ChainStore (present media shard seq).
(** The doubling loop of [chain_head]: a present position and an absent one
    above it. *)
Fixpoint gallop (fuel : nat) (media : WalMedia) (shard lo step : Z) : cprog (Z * Z) :=
  match fuel with
  | O => MStuck
  | S fuel =>
      let at_ := Z.min (lo + step) u64_max in
      p ← probe media shard at_;
      if negb p then mret (lo, at_)
      else gallop fuel media shard at_ (Z.min (step * 2) u64_max)
  end.
(** The halving loop. *)
Fixpoint bisect (fuel : nat) (media : WalMedia) (shard lo hi : Z) : cprog Z :=
  match fuel with
  | O => MStuck
  | S fuel =>
      if 1 <? hi - lo then
        let mid := lo + (hi - lo) / 2 in
        p ← probe media shard mid;
        if (p : bool) then bisect fuel media shard mid hi else bisect fuel media shard lo mid
      else mret lo
  end.
(** Positions are 64 bits wide, so neither loop makes more rounds. *)
Definition HEAD_FUEL : nat := 66.

(** One chunk of [probe_window]: the probes are made side by side, here in
    the order of their positions, and all of them are made. *)
Fixpoint probe_chunk (media : WalMedia) (shard base : Z) (js : list Z) : cprog (list (res CasError bool)) :=
  match js with
  | [] => mret []
  | i :: js =>
      at_ ← madd base i;
      mhandle (present media shard at_) (λ r,
        slots ← probe_chunk media shard base js; mret (r :: slots))
  end.
Fixpoint probe_chunks (media : WalMedia) (shard from len : Z) (chunks : list Z) : cprog (list (res CasError bool)) :=
  match chunks with
  | [] => mret []
  | chunk :: chunks =>
      base ← madd from (chunk * PROBE_WIDTH);
      let width := Z.min PROBE_WIDTH (len - chunk * PROBE_WIDTH) in
      slots ← probe_chunk media shard base (seqZ 0 width);
      rest ← probe_chunks media shard from len chunks;
      mret (slots ++ rest)
  end.
(** [probe_window] *)
Definition probe_window (media : WalMedia) (shard from len : Z) : cprog (list bool) :=
  if len =? 0 then mret []
  else if len =? 1 then p ← probe media shard from; mret [p]
  else
    out ← probe_chunks media shard from len (seqZ 0 ((len + PROBE_WIDTH - 1) / PROBE_WIDTH));
    Done (mapM (map_err ChainStore) out).
(** The position before the first absent one of the window, if any. *)
Fixpoint first_hole (base : Z) (window : list bool) : option Z :=
  match window with
  | [] => None
  | present :: window => if negb present then Some (base - 1) else first_hole (base + 1) window
  end.
(** [chain_head] *)
Definition chain_head (media : WalMedia) (shard floor : Z) : cprog Z :=
  lo ← madd floor 1;
  p ← probe media shard lo;
  if negb p then mret floor
  else
    '(lo, hi) ← gallop HEAD_FUEL media shard lo 1;
    lo ← bisect HEAD_FUEL media shard lo hi;
    let base := Z.max (floor + 1) (sat_sub lo MAX_INFLIGHT) in
    window ← probe_window media shard base (lo - base + 1);
    match first_hole base window with Some head => mret head | None => mret lo end.

(** [digest_of_segment] *)
Definition digest_of_segment (media : WalMedia) (shard seq : Z) : cprog Z :=
  if seq =? 0 then mret 0
  else
    found ← mmap_err ChainStore (fetch_segment media shard seq);
    data ← Done (ok_or found (BrokenLink shard seq));
    '(_, footer) ← Done (map_err (ChainSegmentBad shard seq) (read_seg_footer data));
    mret (tenants_digest (sf_tenants footer)).

(** ** Litter *)
(** [straggler_at] *)
Definition straggler_at (media : WalMedia) (shard seq sealed_seq : Z) : cprog bool :=
  if sealed_seq =? 0 then mret false
  else
    found ← mmap_err ChainStore (fetch_segment media shard seq);
    match found with
    | None => mret false
    | Some data =>
        '(header, _) ← Done (map_err (ChainSegmentBad shard seq) (read_seg_footer data));
        match sh_kind header with
        | Landing =>
            cur ← log_load (manifest_store media) shard;
            let head := match cur with Some (m, _) => lm_head m | None => 0 end in
            mret (head =? sealed_seq)
        | Seal => mret false
        end
    end.

(** The walk over one window of [sweep_stragglers]: the position and the
    gap it ends with, and whether the sweep is over. *)
Fixpoint sweep_window (media : WalMedia) (shard base : Z) (window : list bool) (seq gap : Z) :
    cprog (Z * Z * bool) :=
  match window with
  | [] => mret (seq, gap, false)
  | present :: window =>
      let seq := base in
      if negb present then
        let gap := gap + 1 in
        if MAX_INFLIGHT <=? gap then mret (seq, gap, true)
        else sweep_window media shard (base + 1) window seq gap
      else
        let gap := 0 in
        found ← mmap_err ChainStore (fetch_segment media shard seq);
        match found with
        | None => sweep_window media shard (base + 1) window seq gap
        | Some data =>
            '(header, _) ← Done (map_err (ChainSegmentBad shard seq) (read_seg_footer data));
            match sh_kind header with
            | Landing =>
                _ ← mmap_err ChainStore (delete_segment media shard seq);
                sweep_window media shard (base + 1) window seq gap
            | Seal => mret (seq, gap, true)
            end
        end
  end.
Fixpoint sweep_loop (fuel : nat) (media : WalMedia) (shard seq gap : Z) : cprog () :=
  match fuel with
  | O => MStuck
  | S fuel =>
      if gap <? MAX_INFLIGHT then
        base ← madd seq 1;
        window ← probe_window media shard base PROBE_WIDTH;
        '(seq, gap, over) ← sweep_window media shard base window seq gap;
        if (over : bool) then mret () else sweep_loop fuel media shard seq gap
      else mret ()
  end.
(** [sweep_stragglers] *)
Definition sweep_stragglers (fuel : nat) (media : WalMedia) (shard sealed_seq : Z) : cprog () :=
  sweep_loop fuel media shard sealed_seq 0.

(** ** Takeover *)
(** The seal: a segment without frames. *)
Definition build_seal (shard seq prev_digest : Z) : res ChainError (bytes * list TenantSummary) :=
  segment_finish (segment_new (mkSegHeader Seal shard seq prev_digest)).
Definition MAX_ATTEMPTS : Z := 8.
(** [attempts] rounds of [take_over]; [fuel] bounds the sweep. *)
Fixpoint take_over_loop (fuel attempts : nat) (media : WalMedia) (shard : Z) (node : bytes) : cprog Takeover :=
  match attempts with
  | O => Done (Err (Contested shard MAX_ATTEMPTS))
  | S attempts =>
      let store := manifest_store media in
      loaded ← log_load store shard;
      let manifest := fst <$> loaded in
      let version := snd <$> loaded in
      let floor := from_option (λ m, Z.max (lm_head m) (lm_consolidated_upto m)) 0 manifest in
      head ← chain_head media shard floor;
      prev_digest ←
        (match manifest with
         | Some m => if head =? lm_consolidated_upto m then mret (lm_consolidated_digest m)
                     else digest_of_segment media shard head
         | None => digest_of_segment media shard head
         end);
      sealed_seq ← madd head 1;
      '(seal_bytes, summaries) ← Done (build_seal shard sealed_seq prev_digest);
      outcome ← mmap_err ChainStore (seal media shard sealed_seq seal_bytes);
      match outcome with
      | Occupied => take_over_loop fuel attempts media shard node
      | Sealed =>
          chain_epoch ← madd (from_option lm_chain_epoch 0 manifest) 1;
          MNow (λ now,
          let next := mkLog SHARD_MANIFEST_FORMAT shard chain_epoch sealed_seq
                        (from_option lm_consolidated_upto 0 manifest)
                        (from_option lm_consolidated_digest 0 manifest)
                        (manifest ≫= lm_rounds) (from_option lm_gc_round 0 manifest) node now in
          mhandle (mput_match store (manifest_key shard) (log_to_vec_pretty next) version) (λ r,
            match r with
            | Ok _ =>
                _ ← sweep_stragglers fuel media shard sealed_seq;
                next_seq ← madd sealed_seq 1;
                mret (mkTakeover chain_epoch sealed_seq next_seq (tenants_digest summaries))
            | Err (Conflict _) => take_over_loop fuel attempts media shard node
            | Err e => Done (Err (ChainStore e))
            | Panic => Done Panic
            end))
      end
  end.
(** [take_over] *)
Definition take_over (fuel : nat) (media : WalMedia) (shard : Z) (node : bytes) : cprog Takeover :=
  take_over_loop fuel (Z.to_nat MAX_ATTEMPTS) media shard node.

(** ** Reading *)
Section walk.
Context {E T : Type} (wrap : T → ChainError → E) (sink : T → ChainSegment → res E (T * bool)).
(** [walk_chain_linked]; the sink threads a state of type [T], which an
    error of the walk finds as the sink left it. *)
Fixpoint walk_chain_linked (fuel : nat) (media : WalMedia) (shard : Z) (cursor : ChainCursor) (t : T) :
    mprog E (ChainCursor * T) :=
  match fuel with
  | O => MStuck
  | S fuel =>
      let seq := cc_seq cursor in
      found ← mmap_err (wrap t ∘ ChainStore) (fetch_segment media shard seq);
      match found with
      | None => mret (cursor, t)
      | Some data =>
          '(header, frames, footer) ← Done (map_err (wrap t ∘ ChainSegmentBad shard seq) (decode_segment data));
          if negb (sh_shard header =? shard) || negb (sh_seq header =? seq)
          then Done (Err (wrap t (BrokenLink shard seq)))
          else if negb (sh_prev_digest header =? cc_prev_digest cursor) then
            cur ← mmap_err (wrap t) (log_load (manifest_store media) shard);
            let head := match cur with Some (m, _) => lm_head m | None => 0 end in
            if seq <=? head then Done (Err (wrap t (BrokenLink shard seq)))
            else mret (cursor, t)
          else
            let prev_digest := tenants_digest (sf_tenants footer) in
            '(t, keep_going) ← Done (sink t (mkChainSegment seq header frames footer));
            seq ← madd seq 1;
            if (keep_going : bool) then walk_chain_linked fuel media shard (mkCursor seq prev_digest) t
            else mret (mkCursor seq prev_digest, t)
      end
  end.
End walk.
(** [read_chain_linked] and [read_chain] *)
Definition read_chain_linked (fuel : nat) (media : WalMedia) (shard from prev_digest : Z) :
    cprog (list ChainSegment) :=
  seq ← madd from 1;
  '(_, out) ← walk_chain_linked (λ _, id) (λ out segment, Ok (out ++ [segment], true)) fuel media shard
                (mkCursor seq prev_digest) [];
  mret out.
Definition read_chain (fuel : nat) (media : WalMedia) (shard from : Z) : cprog (list ChainSegment) :=
  prev_digest ← digest_of_segment media shard from;
  read_chain_linked fuel media shard from prev_digest.

(** ** The sink *)
Record MediaSink := mkSink { sk_media : WalMedia; sk_shard : Z; sk_sealed_seq : Z }.
(** [MediaSink::put_segment]; the second put has a channel of its own. *)
Definition sink_put_segment (sink : MediaSink) (seq : Z) (segment : bytes) : mprog CasError () :=
  mhandle (put_segment (sk_media sink) 0 (sk_shard sink) seq segment) (λ r,
    match r with
    | Err (AlreadyExists key) =>
        mhandle (straggler_at (sk_media sink) (sk_shard sink) seq (sk_sealed_seq sink)) (λ s,
          match s with
          | Ok true =>
              _ ← delete_segment (sk_media sink) (sk_shard sink) seq;
              put_segment (sk_media sink) 1 (sk_shard sink) seq segment
          | Ok false => Done (Err (AlreadyExists key))
          | Err _ => Done (Err (AlreadyExists key))
          | Panic => Done Panic
          end)
    | other => Done other
    end).
End chain.
