(* ===== verification/ChainHead.v ===== *)
(** * ChainHead: the head search is exact

    Doubling, halving and a bounded look back find the first hole of the
    chain although positions past the hole may be taken. *)
From S2P Require Import Prelude Order Text Lsn Externals Frame Segment Cas Media MediaProofs Chain.

(** ** Running calls that only look *)
Create HintDb unthreaded discriminated.
Lemma unthreaded_map_err {E F A} (wrap : E → F) (p : mprog E A) : unthreaded p → unthreaded (mmap_err wrap p).
Proof. intros U. by apply unthreaded_handle. Qed.
Lemma unthreaded_present media shard seq : unthreaded (present media shard seq).
Proof.
  destruct media; cbn; [intros r; by destruct (range_reply 0 1 r)|]. intros r1. destruct (range_reply 0 28 r1) as [a| |]; try done.
  cbn. intros r2. destruct (range_reply 0 28 r2) as [b| |]; try done. cbn.
  destruct a, b; cbn; try case_bool_decide; cbn; try done; intros r3; destruct (range_reply 0 28 r3) as [[]| |]; done.
Qed.
Lemma unthreaded_fetch media shard seq : unthreaded (fetch_segment media shard seq).
Proof.
  destruct media; cbn; [done|]. intros r1. destruct r1 as [[[]|]| |]; try done; cbn; intros r2;
    destruct r2 as [[[]|]| |]; try done; cbn; try case_bool_decide; cbn; try done; intros r3;
    destruct r3 as [[[]|]| |]; cbn; repeat case_bool_decide; done.
Qed.
#[export] Hint Resolve unthreaded_map_err unthreaded_present unthreaded_fetch unthreaded_handle : unthreaded.
Ltac quiet :=
  repeat first
    [ progress (intros; eauto with unthreaded) | apply unthreaded_bind | apply unthreaded_handle | done
    | match goal with |- unthreaded (match ?x with _ => _ end) => destruct x end ].

Lemma unthreaded_gallop fuel media shard lo step : unthreaded (gallop fuel media shard lo step).
Proof. revert lo step. induction fuel as [|fuel IH]; intros lo step; cbn [gallop]; quiet. Qed.
Lemma unthreaded_bisect fuel media shard lo hi : unthreaded (bisect fuel media shard lo hi).
Proof. revert lo hi. induction fuel as [|fuel IH]; intros lo hi; cbn [bisect]; quiet. Qed.
Lemma unthreaded_probe_chunk media shard base js : unthreaded (probe_chunk media shard base js).
Proof. induction js as [|i js IH]; cbn [probe_chunk]; quiet. Qed.
#[export] Hint Resolve unthreaded_gallop unthreaded_bisect unthreaded_probe_chunk : unthreaded.
Lemma unthreaded_probe_chunks media shard from len cs : unthreaded (probe_chunks media shard from len cs).
Proof. induction cs as [|c cs IH]; cbn [probe_chunks]; quiet. Qed.
#[export] Hint Resolve unthreaded_probe_chunks : unthreaded.
Lemma unthreaded_probe_window media shard from len : unthreaded (probe_window media shard from len).
Proof. unfold probe_window. quiet. Qed.
#[export] Hint Resolve unthreaded_probe_window : unthreaded.
Lemma mexec_map_err {S} `{CasStore S} {E F A} (wrap : E → F) w (p : mprog E A) :
  unthreaded p → mexec w (mmap_err wrap p) = let '(w', r) := mexec w p in (w', map_err wrap <$> r).
Proof. intros U. unfold mmap_err. rewrite mexec_handle by done. by destruct (mexec w p) as [w' [r|]]. Qed.
Lemma mexec_ok {S} `{CasStore S} {E A B} w w' (p : mprog E A) (f : A → mprog E B) a :
  unthreaded p → mexec w p = (w', Some (Ok a)) → mexec w (p ≫= f) = mexec w' (f a).
Proof. intros U R. rewrite mexec_bind by done. by rewrite R. Qed.
Lemma mexec_done_ok {S} `{CasStore S} {E A B} w (a : A) (f : A → mprog E B) :
  mexec w ((Done (Ok a) : mprog E A) ≫= f) = mexec w (f a).
Proof. done. Qed.
Lemma madd_run {S} `{CasStore S} {E B} w a b (f : Z → mprog E B) :
  a + b ≤ u64_max → mexec w (madd a b ≫= f) = mexec w (f (a + b)).
Proof.
  intros L. unfold madd, uadd. change (2 ^ 64 - 1) with u64_max. by rewrite (proj2 (Z.leb_le _ _) L).
Qed.

Section still.
Context {S : Type} `{CasOk S}.
Implicit Types w : mworld S.

Lemma mget_range_run {B} w m key n (f : option bytes → mprog CasError B) :
  lawful w → 0 ≤ n ≤ u64_max →
  mexec w (mget_range m key 0 n ≫= f) =
  mexec w (f ((λ dv, sub dv.1 0 (Z.min n (zlen dv.1))) <$> cas_view (store_at w m) key)).
Proof.
  intros L Ln. apply mexec_ok; [done|]. unfold mexec, mget_range. cbn [mexec_pool world_get].
  rewrite (cas_get_ok _ _ (L m)). by rewrite range_reply_head.
Qed.
Lemma mbytes_run {B} w m key (f : option bytes → mprog CasError B) :
  lawful w → mexec w (mbytes m key ≫= f) = mexec w (f (fst <$> cas_view (store_at w m) key)).
Proof.
  intros L. apply mexec_ok; [done|]. unfold mexec, mbytes. cbn [mexec_pool world_get].
  rewrite (cas_get_ok _ _ (L m)). by destruct (cas_view _ _) as [[]|].
Qed.

(** What the presence rule answers when nobody acts. *)
Definition present_at w (media : WalMedia) (shard seq : Z) : bool :=
  match (mexec w (present media shard seq)).2 with Some (Ok p) => p | _ => false end.
Lemma mexec_present w media shard seq :
  lawful w → mexec w (present media shard seq) = (w, Some (Ok (present_at w media shard seq))).
Proof.
  intros L. unfold present_at.
  assert (R : ∃ p, mexec w (present media shard seq) = (w, Some (Ok p))); [|by destruct R as [p ->]].
  unfold present. destruct media; rewrite mget_range_run by done; [by eexists|]. rewrite mget_range_run by done. cbv zeta.
  destruct (_ <$> _), (_ <$> _); try case_bool_decide; try (by eexists); rewrite mget_range_run by done;
    destruct (_ <$> cas_view (store_at w STD) _); by eexists.
Qed.

(** ** The head *)
Context (w : mworld S) (L : lawful w) (media : WalMedia) (shard : Z).
Abbreviation P := (present_at w media shard).

Lemma probe_run {B} seq (f : bool → mprog ChainError B) :
  mexec w (probe media shard seq ≫= f) = mexec w (f (P seq)).
Proof.
  apply mexec_ok; [apply unthreaded_map_err, unthreaded_present|]. unfold probe.
  rewrite mexec_map_err by apply unthreaded_present. by rewrite mexec_present.
Qed.

Section search.
(** Nothing is present above [top]. *)
Context (top : Z) (Top : ∀ s, P s = true → s ≤ top) (Ltop : top < 2 ^ 63).

Lemma gallop_run fuel j lo :
  let step := 2 ^ Z.of_nat j in
  (66 ≤ fuel + j)%nat → 0 ≤ lo → P lo = true → step ≤ lo + 1 →
  ∃ lo' hi', mexec w (gallop fuel media shard lo step) = (w, Some (Ok (lo', hi'))) ∧
    lo ≤ lo' ∧ lo' < hi' ∧ hi' - lo' ≤ 2 ^ 63 ∧ P lo' = true ∧ P hi' = false.
Proof.
  revert j lo. induction fuel as [|fuel IH]; intros j lo step Lf L0 Pl Ls; unfold step in *; clear step.
  - apply Top in Pl. assert (2 ^ 66 ≤ 2 ^ Z.of_nat j) by (apply Z.pow_le_mono_r; lia). lia.
  - apply Top in Pl as Tl. assert (0 < 2 ^ Z.of_nat j) by (apply Z.pow_pos_nonneg; lia).
    cbn [gallop]. rewrite probe_run. rewrite (Z.min_l (lo + 2 ^ Z.of_nat j)) by (unfold u64_max; lia).
    destruct (P (lo + 2 ^ Z.of_nat j)) eqn:Pn; cbn [negb].
    + apply Top in Pn as Tn. assert (E : Z.min (2 ^ Z.of_nat j * 2) u64_max = 2 ^ Z.of_nat (Datatypes.S j)).
      { rewrite Nat2Z.inj_succ, Z.pow_succ_r by lia. unfold u64_max. lia. }
      rewrite E. destruct (IH (Datatypes.S j) (lo + 2 ^ Z.of_nat j)) as (lo' & hi' & R & A & B); [lia|lia|done| |].
      { rewrite Nat2Z.inj_succ, Z.pow_succ_r by lia. lia. }
      exists lo', hi'. rewrite R. split; [done|]. split; [lia|done].
    + exists lo, (lo + 2 ^ Z.of_nat j). split_and!; [done|lia..|done|done].
Qed.
End search.

Lemma bisect_run fuel lo hi :
  0 ≤ lo < hi → hi - lo ≤ 2 ^ Z.of_nat fuel → P lo = true → P hi = false →
  ∃ at_, mexec w (bisect (Datatypes.S fuel) media shard lo hi) = (w, Some (Ok at_)) ∧
    lo ≤ at_ < hi ∧ P at_ = true ∧ P (at_ + 1) = false.
Proof.
  revert lo hi. induction fuel as [|fuel IH]; intros lo hi L0 D Pl Ph; cbn [bisect].
  - rewrite (proj2 (Z.ltb_ge 1 (hi - lo))) by (cbn in D; lia). exists lo.
    replace (lo + 1) with hi by (cbn in D; lia). split_and!; [done|lia..|done|done].
  - rewrite Nat2Z.inj_succ, Z.pow_succ_r in D by lia. destruct (1 <? hi - lo) eqn:C; zbool.
    + rewrite probe_run. pose proof (Z.div_mod (hi - lo) 2 ltac:(lia)) as Dm.
      pose proof (Z.mod_pos_bound (hi - lo) 2 ltac:(lia)) as Mb.
      destruct (P (lo + (hi - lo) / 2)) eqn:Pm.
      * destruct (IH (lo + (hi - lo) / 2) hi) as (a & R & B & Q); [lia|lia|done|done|].
        exists a. split; [exact R|]. split; [lia|done].
      * destruct (IH lo (lo + (hi - lo) / 2)) as (a & R & B & Q); [lia|lia|done|done|].
        exists a. split; [exact R|]. split; [lia|done].
    + exists lo. replace (lo + 1) with hi by lia. split_and!; [done|lia..|done|done].
Qed.

(** ** A window of probes *)
Lemma probe_chunk_run base js :
  (∀ j, j ∈ js → base + j ≤ u64_max) →
  mexec w (probe_chunk media shard base js) = (w, Some (Ok ((λ j, Ok (P (base + j))) <$> js))).
Proof.
  induction js as [|j js IH]; intros B; cbn [probe_chunk]; [done|].
  rewrite madd_run by (apply B; set_solver). rewrite mexec_handle by apply unthreaded_present.
  rewrite mexec_present by done. erewrite mexec_ok; [|quiet|apply IH; set_solver]. done.
Qed.
Lemma probe_chunks_run from len cs :
  (∀ c j, c ∈ cs → j ∈ seqZ 0 (Z.min PROBE_WIDTH (len - c * PROBE_WIDTH)) → from + c * PROBE_WIDTH + j ≤ u64_max) →
  (∀ c, c ∈ cs → from + c * PROBE_WIDTH ≤ u64_max) →
  mexec w (probe_chunks media shard from len cs) =
  (w, Some (Ok (concat ((λ c, (λ j, Ok (P (from + c * PROBE_WIDTH + j))) <$>
    seqZ 0 (Z.min PROBE_WIDTH (len - c * PROBE_WIDTH))) <$> cs)))).
Proof.
  induction cs as [|c cs IH]; intros B B'; cbn [probe_chunks]; [done|].
  rewrite madd_run by (apply B'; set_solver). cbv zeta.
  erewrite mexec_ok; [|quiet|apply probe_chunk_run; intros j Hj; apply B; [set_solver|done]].
  erewrite mexec_ok; [done|quiet|apply IH; set_solver].
Qed.

Lemma seqZ_shift {A} (g : Z → A) b k : (λ j, g (b + j)) <$> seqZ 0 k = g <$> seqZ b k.
Proof.
  transitivity (g <$> (Z.add b <$> seqZ 0 k)); [by rewrite <-list_fmap_compose|].
  by rewrite fmap_add_seqZ, Z.add_0_r.
Qed.
(** The chunks cut the window without gaps. *)
Lemma chunks_cover {A} (g : Z → A) n c len :
  0 ≤ c → (match n with O => len = c * PROBE_WIDTH | Datatypes.S k =>
             (c + Z.of_nat k) * PROBE_WIDTH < len ≤ (c + Z.of_nat n) * PROBE_WIDTH end) →
  concat ((λ c, (λ j, g (c * PROBE_WIDTH + j)) <$> seqZ 0 (Z.min PROBE_WIDTH (len - c * PROBE_WIDTH))) <$>
    seqZ c (Z.of_nat n)) = g <$> seqZ (c * PROBE_WIDTH) (len - c * PROBE_WIDTH).
Proof.
  unfold PROBE_WIDTH. revert c. induction n as [|n IH]; intros c Hc Hn.
  - subst len. rewrite seqZ_nil by lia. rewrite seqZ_nil by lia. done.
  - rewrite seqZ_cons by lia. rewrite fmap_cons. cbn [concat].
    replace (Z.pred (Z.of_nat (Datatypes.S n))) with (Z.of_nat n) by lia. replace (Z.succ c) with (c + 1) by lia.
    rewrite seqZ_shift. destruct n as [|n].
    + rewrite (seqZ_nil (c + 1)) by lia. cbn. rewrite app_nil_r. rewrite Z.min_r by lia. done.
    + rewrite Z.min_l by lia. rewrite IH by lia. rewrite <-fmap_app. f_equal.
      replace (len - c * 32) with (32 + (len - (c + 1) * 32)) by lia.
      rewrite seqZ_app by lia. f_equal. f_equal. lia.
Qed.
Lemma mapM_ok {A} (l : list A) : mapM (map_err ChainStore) (Ok <$> l) = Ok l.
Proof. induction l as [|a l IH]; [done|]. rewrite fmap_cons. cbn [mapM map_err]. by rewrite bind_run, IH. Qed.
Lemma probe_window_run from len :
  0 ≤ from → 0 ≤ len → from + len ≤ u64_max →
  mexec w (probe_window media shard from len) = (w, Some (Ok (P <$> seqZ from len))).
Proof.
  intros F0 Ll B. unfold probe_window. destruct (len =? 0) eqn:E0; zbool; [subst; by rewrite seqZ_nil by lia|].
  destruct (len =? 1) eqn:E1; zbool.
  - subst. rewrite probe_run. rewrite seqZ_cons, seqZ_nil by lia. done.
  - set (n := (len + PROBE_WIDTH - 1) / PROBE_WIDTH).
    assert (N : (n - 1) * PROBE_WIDTH < len ≤ n * PROBE_WIDTH).
    { unfold n, PROBE_WIDTH. pose proof (Z.div_mod (len + 32 - 1) 32 ltac:(lia)).
      pose proof (Z.mod_pos_bound (len + 32 - 1) 32 ltac:(lia)). lia. }
    unfold PROBE_WIDTH in N.
    erewrite mexec_ok; [|quiet|apply probe_chunks_run; unfold PROBE_WIDTH].
    + pose proof (chunks_cover (λ j, (Ok (P (from + j)) : res CasError bool)) (Z.to_nat n) 0 len) as C.
      rewrite Z2Nat.id in C by lia. replace (0 * PROBE_WIDTH) with 0 in C by lia. rewrite Z.sub_0_r in C.
      match goal with |- context [mapM _ (concat ?l)] => assert (Cl : concat l = Ok <$> (P <$> seqZ from len)) end;
        [|by rewrite Cl, mapM_ok].
      etransitivity; [|etransitivity; [apply C; [lia|]|]].
      * f_equal. apply list_fmap_ext. intros i c _. apply list_fmap_ext. intros k j _. do 2 f_equal. lia.
      * destruct (Z.to_nat n) as [|k] eqn:Ek; unfold PROBE_WIDTH; lia.
      * rewrite (seqZ_shift (λ s, (Ok (P s) : res CasError bool))). by rewrite <-list_fmap_compose.
    + intros c j Hc%elem_of_seqZ Hj%elem_of_seqZ. lia.
    + intros c Hc%elem_of_seqZ. lia.
Qed.

(** The first hole of a window of answers. *)
Lemma first_hole_run base n h :
  base ≤ h + 1 → (∀ s, base ≤ s ≤ h → P s = true) → P (h + 1) = false →
  first_hole base (P <$> seqZ base (Z.of_nat n)) = if h + 1 <? base + Z.of_nat n then Some h else None.
Proof.
  revert base. induction n as [|n IH]; intros base B In Out.
  - rewrite seqZ_nil by lia. cbn. destruct (h + 1 <? _) eqn:C; zbool; [lia|done].
  - rewrite seqZ_cons by lia. rewrite fmap_cons. cbn [first_hole].
    replace (Z.pred (Z.of_nat (Datatypes.S n))) with (Z.of_nat n) by lia. replace (Z.succ base) with (base + 1) by lia.
    destruct (decide (base = h + 1)) as [->|Ne].
    + rewrite Out. cbn. rewrite (proj2 (Z.ltb_lt _ _)) by lia. f_equal. lia.
    + rewrite In by lia. cbn [negb]. rewrite IH; [|lia|intros s Hs; apply In; lia|done].
      replace (base + 1 + Z.of_nat n) with (base + Z.of_nat (Datatypes.S n)) by lia. done.
Qed.

Lemma chain_head_run floor h :
  0 ≤ floor ≤ h → h < 2 ^ 62 → (∀ s, floor < s ≤ h → P s = true) → P (h + 1) = false →
  (∀ s, P s = true → s ≤ h + 1 + MAX_INFLIGHT) →
  mexec w (chain_head media shard floor) = (w, Some (Ok h)).
Proof.
  intros F Bh In Out Far. unfold MAX_INFLIGHT in Far. unfold chain_head. rewrite madd_run by (unfold u64_max; lia).
  rewrite probe_run. destruct (P (floor + 1)) eqn:P1; cbn [negb].
  2:{ assert (h = floor) as ->; [|done]. destruct (decide (h = floor)); [done|]. rewrite In in P1 by lia. done. }
  destruct (gallop_run (h + 65) ltac:(intros s Ps; apply Far in Ps; lia) ltac:(lia) HEAD_FUEL 0 (floor + 1))
    as (lo & hi & R & L1 & L2 & L3 & Pl & Ph); [unfold HEAD_FUEL; lia|lia|done|cbn; lia|].
  erewrite mexec_ok; [|quiet|exact R].
  destruct (bisect_run 65 lo hi) as (a & R2 & A1 & Pa & Pn); [lia|cbn; lia|done|done|].
  erewrite mexec_ok; [|apply (unthreaded_bisect HEAD_FUEL)|exact R2].
  pose proof (Far a Pa) as La. set (base := Z.max (floor + 1) (sat_sub a MAX_INFLIGHT)).
  assert (Lb : floor + 1 ≤ base ≤ a ∧ base ≤ h + 1).
  { unfold base, sat_sub, MAX_INFLIGHT. split; [lia|]. destruct (decide (a ≤ h)); lia. }
  cbv zeta. erewrite mexec_ok; [|quiet|apply probe_window_run; unfold u64_max; lia].
  rewrite <-(Z2Nat.id (a - base + 1)) by lia. rewrite (first_hole_run base _ h); [|lia|intros s Hs; apply In; lia|done].
  rewrite Z2Nat.id by lia. destruct (h + 1 <? base + (a - base + 1)) eqn:C; zbool; [done|].
  assert (a = h) as ->; [|done]. destruct (decide (a = h)); [done|]. rewrite In in Pn by lia. done.
Qed.
End still.

(** The head search is exact.  When nobody else acts and the positions
    from the floor to [h] are taken, the next one is not, and whatever a
    dead pipelined writer left behind lies at most [MAX_INFLIGHT] past that
    hole, [chain_head] answers [h], within its fuel, and changes nothing:
    litter past the hole is never taken for the chain. *)
Theorem chain_head_exact {S} `{CasOk S} (w : mworld S) (media : WalMedia) (shard floor h : Z) :
  lawful w → 0 ≤ floor ≤ h → h < 2 ^ 62 →
  (∀ s, floor < s ≤ h → present_at w media shard s = true) → present_at w media shard (h + 1) = false →
  (∀ s, present_at w media shard s = true → s ≤ h + 1 + MAX_INFLIGHT) →
  mexec w (chain_head media shard floor) = (w, Some (Ok h)).
Proof. intros L. by apply chain_head_run. Qed.
