(* ===== verification/ChainProofs.v ===== *)
(** * ChainProofs: recovery reads and takeovers are exact

    What the recovery read returns on a linked chain, and what a takeover
    nobody disturbs does to one: it seals the first free position, names
    itself in the manifest and clears the litter behind the seal. *)
From S2P Require Import Prelude Order Text Lsn Externals Frame Segment Cas Media MediaProofs Chain ChainHead.

(** ** Keys *)
Lemma segment_key_inj shard a b : 0 ≤ a → 0 ≤ b → segment_key shard a = segment_key shard b → a = b.
Proof. unfold segment_key. intros A B E. repeat apply app_inv_head in E. by eapply fmt_hex_inj. Qed.
Lemma segment_not_manifest shard seq : segment_key shard seq ≠ manifest_key shard.
Proof.
  unfold segment_key, manifest_key. intros E. do 2 apply app_inv_head in E.
  apply (f_equal length) in E. unfold fmt_hex, fmt_radix in E. rewrite length_app, length_fix_digits in E.
  cbn in E. lia.
Qed.

(** ** The media as they are *)
Section views.
Context {S : Type} `{CasOk S}.
Implicit Types w : mworld S.

Definition view w (key : bytes) (m : medium) : option (bytes * Version) := cas_view (store_at w m) key.
Definition has w (key : bytes) (m : medium) : option bytes := fst <$> view w key m.
(** [fetch] and [present] as functions of what the media hold. *)
Definition fetch_of (media : WalMedia) (h : medium → option bytes) : option bytes :=
  match media with
  | Single => h STD
  | Dual =>
      if bool_decide (is_Some (h AZ1)) && bool_decide (is_Some (h AZ2)) && bool_decide (h AZ1 = h AZ2) then h AZ1
      else if bool_decide (h AZ1 = None) && bool_decide (h AZ2 = None) then None
      else if bool_decide (is_Some (h STD)) && bool_decide (h STD = h AZ1) then h AZ1
      else if bool_decide (is_Some (h STD)) && bool_decide (h STD = h AZ2) then h AZ2
      else None
  end.
Definition head28 (d : bytes) : bytes := sub d 0 (Z.min 28 (zlen d)).
Definition present_of (media : WalMedia) (h : medium → option bytes) : bool :=
  match media with
  | Single => bool_decide (is_Some (h STD))
  | Dual =>
      let a := head28 <$> h AZ1 in let b := head28 <$> h AZ2 in
      let ask := match head28 <$> h STD with
                 | Some s => bool_decide (a = Some s) || bool_decide (b = Some s)
                 | None => false
                 end in
      match a, b with
      | Some x, Some y => if bool_decide (x = y) then true else ask
      | None, None => false
      | _, _ => ask
      end
  end.
Definition fetch_at w (media : WalMedia) (shard seq : Z) : option bytes :=
  fetch_of media (has w (segment_key shard seq)).

Lemma mexec_fetch w media shard seq :
  lawful w → mexec w (fetch_segment media shard seq) = (w, Some (Ok (fetch_at w media shard seq))).
Proof.
  intros L. unfold fetch_segment, fetch_at, fetch_of, has, view. destruct media.
  - unfold mexec, mbytes. cbn [mexec_pool world_get]. rewrite (cas_get_ok _ _ (L STD)).
    by destruct (cas_view _ _) as [[]|].
  - rewrite mbytes_run by done. rewrite mbytes_run by done.
    destruct (bool_decide (is_Some _) && _ && _); [done|]. destruct (bool_decide _ && _); [done|].
    rewrite mbytes_run by done. destruct (bool_decide (is_Some _) && _); [done|]. by destruct (bool_decide (is_Some _) && _).
Qed.
Lemma present_at_of w media shard seq :
  lawful w → present_at w media shard seq = present_of media (has w (segment_key shard seq)).
Proof.
  intros L. unfold present_at, present, present_of, has, view.
  assert (Fm : ∀ n m, (λ dv : bytes * Version, sub dv.1 0 (Z.min n (zlen dv.1))) <$>
    cas_view (store_at w m) (segment_key shard seq) = (λ d, sub d 0 (Z.min n (zlen d))) <$>
    (fst <$> cas_view (store_at w m) (segment_key shard seq))) by (intros n m; by destruct (cas_view _ _) as [[]|]).
  destruct media; rewrite mget_range_run by done.
  - rewrite Fm. by destruct (fst <$> _).
  - rewrite mget_range_run by done. rewrite !Fm. fold head28. cbv zeta.
    assert (Ask : ∀ a b : option bytes, match (mexec w (s ← mget_range STD (segment_key shard seq) 0 28;
      match s with Some s => mret (bool_decide (a = Some s) || bool_decide (b = Some s)) | None => mret false end)).2
      with Some (Ok p) => p | _ => false end =
      match head28 <$> (fst <$> cas_view (store_at w STD) (segment_key shard seq)) with
      | Some s => bool_decide (a = Some s) || bool_decide (b = Some s) | None => false end).
    { intros a b. rewrite mget_range_run, Fm by done. fold head28. by destruct (head28 <$> _). }
    destruct (head28 <$> (fst <$> cas_view (store_at w AZ1) _)), (head28 <$> (fst <$> cas_view (store_at w AZ2) _));
      try case_bool_decide; try done; apply Ask.
Qed.
(** What can be read is present: equal objects have equal heads. *)
Lemma fetch_present media h d : fetch_of media h = Some d → present_of media h = true.
Proof.
  destruct media; cbn; [intros ->; done|].
  destruct (h AZ1) as [a|], (h AZ2) as [b|], (h STD) as [s|]; cbn;
    repeat (case_bool_decide; cbn; simplify_eq); try done; naive_solver.
Qed.
Lemma present_none media h : (∀ m, h m = None) → present_of media h = false ∧ fetch_of media h = None.
Proof. intros N. destruct media; cbn; rewrite !N; done. Qed.
End views.

(** ** Reading a chain *)
Section reading.
Context {S : Type} `{CasOk S} `{Crc, Lz4, SerdeLog}.
Implicit Types w : mworld S.

(** The segment at its position, as the recovery read wants it. *)
Definition stored w (media : WalMedia) (shard : Z) (s : ChainSegment) : Prop :=
  sh_shard (cs_header s) = shard ∧ sh_seq (cs_header s) = cs_seq s ∧
  ∃ data, fetch_at w media shard (cs_seq s) = Some data ∧
          decode_segment data = Ok (cs_header s, cs_frames s, cs_footer s).
Definition digest_of (s : ChainSegment) : Z := tenants_digest (sf_tenants (cs_footer s)).
(** A linked run of segments from [seq] on, [prev] the digest before it. *)
Fixpoint linked w (media : WalMedia) (shard seq prev : Z) (segs : list ChainSegment) : Prop :=
  match segs with
  | [] => True
  | s :: segs => cs_seq s = seq ∧ sh_prev_digest (cs_header s) = prev ∧ stored w media shard s ∧
                 linked w media shard (seq + 1) (digest_of s) segs
  end.
Definition end_digest (prev : Z) (segs : list ChainSegment) : Z :=
  from_option digest_of prev (last segs).

Lemma end_digest_cons prev s segs : end_digest (digest_of s) segs = end_digest prev (s :: segs).
Proof.
  unfold end_digest. destruct segs as [|s' segs]; [done|]. rewrite last_cons_cons.
  by destruct (last (s' :: segs)) eqn:E; [|apply last_None in E].
Qed.

(** The manifest as [load] finds it. *)
Definition loads w (media : WalMedia) (shard : Z) (m : option (ShardManifest * Version)) : Prop :=
  match m with
  | None => view w (manifest_key shard) STD = None
  | Some (m, v) => ∃ data, view w (manifest_key shard) STD = Some (data, v) ∧ log_from_slice data = Some m ∧
                           lm_format m ≤ SHARD_MANIFEST_FORMAT
  end.
Lemma unthreaded_load m shard : unthreaded (log_load m shard).
Proof. unfold log_load. apply unthreaded_bind; [quiet|]. intros [[]|]; quiet. Qed.
Hint Resolve unthreaded_load : unthreaded.
Lemma log_load_run w media shard m :
  lawful w → loads w media shard m → mexec w (log_load (manifest_store media) shard) = (w, Some (Ok m)).
Proof.
  intros L Lo. unfold log_load. assert (G : mexec w (mmap_err ChainStore (mget (manifest_store media) (manifest_key shard))) =
    (w, Some (Ok (view w (manifest_key shard) STD)))).
  { unfold mexec, mmap_err, mget. cbn. destruct media; cbn; by rewrite (cas_get_ok _ _ (L STD)). }
  erewrite mexec_ok; [|quiet|exact G]. destruct m as [[m v]|]; cbn in Lo.
  - destruct Lo as (data & -> & -> & F). cbn [ok_or]. rewrite mexec_done_ok.
    unfold guard_err. by rewrite (proj2 (Z.ltb_ge _ _) F).
  - by rewrite Lo.
Qed.
Lemma unthreaded_walk {E T} (wrap : T → ChainError → E) (sink : T → ChainSegment → res E (T * bool)) fuel media shard cur t :
  unthreaded (walk_chain_linked wrap sink fuel media shard cur t).
Proof.
  revert cur t. induction fuel as [|fuel IH]; intros cur t; cbn [walk_chain_linked]; [done|].
  apply unthreaded_bind; [quiet|]. intros [data|]; [|done]. apply unthreaded_bind; [done|]. intros [[hd fr] ft].
  destruct (_ || _); [done|]. destruct (negb _); [apply unthreaded_bind; quiet|].
  apply unthreaded_bind; [done|]. intros [t' go]. apply unthreaded_bind; [done|]. intros q. destruct go; [apply IH|done].
Qed.
Definition head_of (m : option (ShardManifest * Version)) : Z := from_option (λ mv, lm_head mv.1) 0 m.

(** A sink that keeps the segments and says after how many to go on. *)
Definition keep (go : nat → bool) : list ChainSegment → ChainSegment → res ChainError (list ChainSegment * bool) :=
  λ out s, Ok (out ++ [s], go (length out + 1)%nat).
Lemma walk_step {E T} (wrap : T → ChainError → E) w media shard cur (sink : T → ChainSegment → res E (T * bool)) fuel t s t' go :
  lawful w → cs_seq s = cc_seq cur → sh_prev_digest (cs_header s) = cc_prev_digest cur → stored w media shard s →
  cc_seq cur + 1 ≤ u64_max → sink t s = Ok (t', go) →
  mexec w (walk_chain_linked wrap sink (Datatypes.S fuel) media shard cur t) =
  if (go : bool) then mexec w (walk_chain_linked wrap sink fuel media shard (mkCursor (cc_seq cur + 1) (digest_of s)) t')
  else (w, Some (Ok (mkCursor (cc_seq cur + 1) (digest_of s), t'))).
Proof.
  intros L Hs Hp (Hsh & Hsq & data & F & D) B Sk. cbn [walk_chain_linked]. cbv zeta.
  erewrite mexec_ok; [|quiet|rewrite mexec_map_err by quiet; by rewrite mexec_fetch].
  rewrite <-Hs in *. rewrite F. cbn [map_err compose]. rewrite D. cbn [map_err]. rewrite mexec_done_ok.
  rewrite Hsh, Hsq, Hp, !Z.eqb_refl. cbn [negb orb]. destruct s as [sq hd fr ft]. cbn [cs_seq cs_header cs_frames cs_footer] in *.
  rewrite Sk, mexec_done_ok, madd_run by done. by destruct go.
Qed.
(** Where the chain ends, and the error if that is not how a chain ends. *)
Inductive chain_end w (media : WalMedia) (shard seq prev head : Z) : option ChainError → Prop :=
  | end_empty : fetch_at w media shard seq = None → chain_end w media shard seq prev head None
  | end_corrupt data e :
      fetch_at w media shard seq = Some data → decode_segment data = Err e →
      chain_end w media shard seq prev head (Some (ChainSegmentBad shard seq e))
  | end_foreign header frames footer data :
      fetch_at w media shard seq = Some data → decode_segment data = Ok (header, frames, footer) →
      sh_shard header ≠ shard ∨ sh_seq header ≠ seq →
      chain_end w media shard seq prev head (Some (BrokenLink shard seq))
  | end_unlinked header frames footer data :
      fetch_at w media shard seq = Some data → decode_segment data = Ok (header, frames, footer) →
      sh_shard header = shard → sh_seq header = seq → sh_prev_digest header ≠ prev →
      chain_end w media shard seq prev head (if seq <=? head then Some (BrokenLink shard seq) else None).
Lemma walk_end {E T} (wrap : T → ChainError → E) w media shard cur (sink : T → ChainSegment → res E (T * bool)) fuel t m e :
  lawful w → loads w media shard m → chain_end w media shard (cc_seq cur) (cc_prev_digest cur) (head_of m) e →
  mexec w (walk_chain_linked wrap sink (Datatypes.S fuel) media shard cur t) =
  (w, Some (match e with None => Ok (cur, t) | Some e => Err (wrap t e) end)).
Proof.
  intros L Lo En. cbn [walk_chain_linked]. cbv zeta.
  erewrite mexec_ok; [|quiet|rewrite mexec_map_err by quiet; by rewrite mexec_fetch].
  destruct En as [F|data e F D|hd fr ft data F D N|hd fr ft data F D Hsh Hsq Hp]; rewrite F; [done|..];
    cbn [map_err]; rewrite D; cbn [map_err]; [done|rewrite mexec_done_ok..].
  - assert (negb (sh_shard hd =? shard) || negb (sh_seq hd =? cc_seq cur) = true) as ->; [|done].
    destruct N as [N|N]; rewrite (proj2 (Z.eqb_neq _ _) N); [done|apply orb_true_r].
  - rewrite Hsh, Hsq, !Z.eqb_refl. cbn [negb orb]. rewrite (proj2 (Z.eqb_neq _ _) Hp). cbn [negb].
    erewrite mexec_ok; [|quiet|rewrite mexec_map_err by quiet; by erewrite log_load_run]. cbn [map_err].
    replace (match m with Some (m, _) => lm_head m | None => 0 end) with (head_of m) by by destruct m as [[]|].
    by destruct (_ <=? _).
Qed.
Lemma walk_linked w media shard segs fuel seq prev go out :
  lawful w → linked w media shard seq prev segs → seq + zlen segs ≤ u64_max →
  (length segs ≤ fuel)%nat → (∀ n, (length out < n ≤ length out + length segs)%nat → go n = true) →
  mexec w (walk_chain_linked (λ _, id) (keep go) fuel media shard (mkCursor seq prev) out) =
  mexec w (walk_chain_linked (λ _, id) (keep go) (fuel - length segs) media shard
             (mkCursor (seq + zlen segs) (end_digest prev segs)) (out ++ segs)).
Proof.
  revert fuel seq prev out. induction segs as [|s segs IH]; intros fuel seq prev out L Li B Lf Hk.
  - rewrite zlen_nil, Z.add_0_r, app_nil_r, Nat.sub_0_r. done.
  - destruct Li as (Hs & Hp & St & Li). cbn [length] in *. rewrite zlen_cons in *. pose proof (zlen_nonneg segs).
    destruct fuel as [|fuel]; [lia|].
    erewrite (walk_step (λ _, id) w media shard (mkCursor seq prev) (keep go) fuel out s); [|done|done|done|done|cbn; lia|done].
    rewrite Hk by lia. cbn [cc_seq]. rewrite IH; [|done|done|lia|lia|rewrite length_app; cbn; intros n Hn; apply Hk; lia].
    cbn [Nat.sub]. replace (seq + 1 + zlen segs) with (seq + (1 + zlen segs)) by lia.
    rewrite <-app_assoc. cbn [app]. by rewrite (end_digest_cons prev).
Qed.
(** A walk to the end of the chain. *)
Lemma walk_all w media shard segs fuel seq prev out m e :
  lawful w → loads w media shard m → linked w media shard seq prev segs → seq + zlen segs ≤ u64_max →
  (length segs < fuel)%nat →
  chain_end w media shard (seq + zlen segs) (end_digest prev segs) (head_of m) e →
  mexec w (walk_chain_linked (λ _, id) (keep (λ _, true)) fuel media shard (mkCursor seq prev) out) =
  (w, Some (match e with
            | None => Ok (mkCursor (seq + zlen segs) (end_digest prev segs), out ++ segs)
            | Some e => Err e
            end)).
Proof.
  intros L Lo Li B Lf En. rewrite walk_linked with (segs := segs) by (done || lia).
  destruct (fuel - length segs)%nat as [|f] eqn:Ef; [lia|]. by erewrite walk_end.
Qed.
Lemma linked_app w media shard seq prev a b :
  linked w media shard seq prev (a ++ b) ↔
  linked w media shard seq prev a ∧ linked w media shard (seq + zlen a) (end_digest prev a) b.
Proof.
  revert seq prev. induction a as [|s a IH]; intros seq prev; cbn [app linked].
  - rewrite zlen_nil, Z.add_0_r. naive_solver.
  - rewrite IH, zlen_cons. replace (seq + 1 + zlen a) with (seq + (1 + zlen a)) by lia.
    rewrite (end_digest_cons prev). naive_solver.
Qed.
Lemma end_digest_app prev a b : end_digest prev (a ++ b) = end_digest (end_digest prev a) b.
Proof.
  unfold end_digest. destruct b as [|s b _] using rev_ind; [by rewrite app_nil_r|].
  by rewrite app_assoc, !last_snoc.
Qed.
(** A walk its sink stops after the segments [a]. *)
Lemma walk_stopped w media shard a fuel seq prev :
  lawful w → linked w media shard seq prev a → seq + zlen a ≤ u64_max → (length a ≤ fuel)%nat → a ≠ [] →
  mexec w (walk_chain_linked (λ _, id) (keep (λ n, negb (n =? length a)%nat)) fuel media shard (mkCursor seq prev) []) =
  (w, Some (Ok (mkCursor (seq + zlen a) (end_digest prev a), a))).
Proof.
  intros L Li B Lf N. destruct a as [|s a _] using rev_ind; [done|]. clear N.
  apply linked_app in Li as [Li (Hs & Hp & St & _)]. rewrite length_app in *. cbn [length] in *.
  rewrite zlen_app in *. change (zlen [s]) with 1 in *. pose proof (zlen_nonneg a).
  rewrite (walk_linked w media shard a) ; [|done|done|lia|lia|].
  2:{ cbn. intros n Hn. apply negb_true_iff, Nat.eqb_neq. lia. }
  destruct (fuel - length a)%nat as [|f] eqn:Ef; [lia|].
  erewrite (walk_step (λ _, id) w media shard _ _ f _ s); [|done|done|done|done|cbn; lia|done]. cbn [app].
  rewrite Nat.eqb_refl. cbn [negb cc_seq]. rewrite end_digest_app. cbn [end_digest last from_option].
  by replace (seq + (zlen a + 1)) with (seq + zlen a + 1) by lia.
Qed.
End reading.
#[export] Hint Resolve unthreaded_load : unthreaded.

(** ** Writing *)
Section writing.
Context {S : Type} `{CasOk S} `{CrcOk, Lz4Ok, SerdeLogOk}.
Implicit Types w : mworld S.

(** Lawful, and the same but under these keys. *)
Definition same_but (K : bytes → Prop) w w' : Prop :=
  lawful w' ∧ ∀ key m, ¬ K key → view w' key m = view w key m.
Lemma same_but_refl K w : lawful w → same_but K w w.
Proof. by split. Qed.
Lemma same_but_trans (K1 K2 K : bytes → Prop) w1 w2 w3 :
  same_but K1 w1 w2 → same_but K2 w2 w3 → (∀ k, K1 k → K k) → (∀ k, K2 k → K k) → same_but K w1 w3.
Proof. intros [L1 E1] [L2 E2] I1 I2. split; [done|]. intros key m N. rewrite E2, E1; [done|auto..]. Qed.

Lemma put_run w m key data expected :
  lawful w → expected = snd <$> view w key m →
  ∃ w' v, world_put w Works m key data expected = (w', Ok v) ∧ lawful w' ∧ view w' key m = Some (data, v) ∧
    ∀ key' m', (key', m') ≠ (key, m) → view w' key' m' = view w key' m'.
Proof.
  intros L Ex. unfold world_put. pose proof (put_if_match_ok (store_at w m) key data expected (L m)) as P.
  destruct (put_if_match _ _ _ _) as [s r]. destruct P as [I P]. unfold view in *. rewrite bool_decide_true in P by done.
  destruct P as (v & -> & V & O). exists (with_store w m s), v. split_and!; [done| | |].
  - intros m'. rewrite store_at_with. by case_decide.
  - by rewrite store_at_with, decide_True.
  - intros key' m' N. rewrite store_at_with. case_decide; [subst|done]. apply O. congruence.
Qed.
Lemma delete_run w m key :
  lawful w →
  ∃ w', world_delete w Works m key = (w', Ok ()) ∧ lawful w' ∧ view w' key m = None ∧
    ∀ key' m', (key', m') ≠ (key, m) → view w' key' m' = view w key' m'.
Proof.
  intros L. unfold world_delete. pose proof (cas_delete_ok (store_at w m) key (L m)) as P.
  destruct (cas_delete _ _) as [s r]. destruct P as (I & -> & V & O). unfold view. exists (with_store w m s).
  split_and!; [done| | |].
  - intros m'. rewrite store_at_with. by case_decide.
  - by rewrite store_at_with, decide_True.
  - intros key' m' N. rewrite store_at_with. case_decide; [subst|done]. apply O. congruence.
Qed.

Lemma seal_run w media shard seq data :
  lawful w → (∀ m, view w (segment_key shard seq) m = None) →
  ∃ w', mexec w (seal media shard seq data) = (w', Some (Ok Sealed)) ∧
    same_but (λ k, k = segment_key shard seq) w w' ∧ fetch_at w' media shard seq = Some data.
Proof.
  intros L N. unfold seal, fetch_at. set (key := segment_key shard seq) in *. destruct media.
  - destruct (put_run w STD key data None L) as (w' & v & R & L' & V & O); [by rewrite N|].
    exists w'. unfold mexec. cbn [seal_decides mput_absent mhandle mexec_pool]. rewrite R. cbn. split_and!; [done| |].
    + split; [done|]. intros key' m Nk. apply O. congruence.
    + unfold has. by rewrite V.
  - destruct (put_run w AZ1 key data None L) as (w1 & v1 & R1 & L1 & V1 & O1); [by rewrite N|].
    destruct (put_run w1 AZ2 key data None L1) as (w2 & v2 & R2 & L2 & V2 & O2); [by rewrite O1, N|].
    exists w2. unfold mexec. cbn [seal_votes mput_absent mhandle mbind mprog_bind mexec_pool]. rewrite R1.
    cbn [exists_not_conflict mhandle mexec_pool seal_votes mput_absent]. rewrite R2. cbn. split_and!; [done| |].
    + split; [done|]. intros key' m Nk. rewrite O2, O1 by congruence. done.
    + unfold has. rewrite V2, O2, V1 by congruence. cbn. by rewrite bool_decide_true.
Qed.
(** Gone from every medium of the mode. *)
Lemma delete_segment_run w media shard seq :
  lawful w →
  ∃ w', mexec w (delete_segment media shard seq) = (w', Some (Ok ())) ∧
    same_but (λ k, k = segment_key shard seq) w w' ∧ present_at w' media shard seq = false.
Proof.
  intros L. unfold delete_segment. set (key := segment_key shard seq) in *. destruct media.
  - destruct (delete_run w STD key L) as (w' & R & L' & V & O). exists w'. unfold mexec. cbn [mdelete mexec_pool]. rewrite R.
    split_and!; [done| |].
    + split; [done|]. intros key' m N. apply O. congruence.
    + rewrite present_at_of by done. fold key. unfold has. cbn. by rewrite V.
  - destruct (delete_run w AZ1 key L) as (w1 & R1 & L1 & V1 & O1).
    destruct (delete_run w1 AZ2 key L1) as (w2 & R2 & L2 & V2 & O2).
    destruct (delete_run w2 STD key L2) as (w3 & R3 & L3 & V3 & O3).
    exists w3. unfold mexec. cbn [mdelete mhandle mbind mprog_bind mexec_pool]. rewrite R1. cbn [mhandle mexec_pool]. rewrite R2.
    cbn [mdelete mhandle mexec_pool]. rewrite R3. split_and!; [done| |].
    + split; [done|]. intros key' m N. rewrite O3, O2, O1 by congruence. done.
    + rewrite present_at_of by done. fold key. unfold has. cbn.
      by rewrite (O3 key AZ2), V2, (O3 key AZ1), (O2 key AZ1), V1 by congruence.
Qed.
Lemma present_at_same w w' media shard seq K :
  lawful w → same_but K w w' → ¬ K (segment_key shard seq) →
  present_at w' media shard seq = present_at w media shard seq ∧
  fetch_at w' media shard seq = fetch_at w media shard seq.
Proof.
  intros L [L' E] N. rewrite !present_at_of by done. unfold fetch_at.
  assert (F : ∀ m, has w' (segment_key shard seq) m = has w (segment_key shard seq) m) by (intros m; unfold has; by rewrite E).
  unfold present_of, fetch_of. by rewrite !F.
Qed.

(** ** The sweep *)
Context (media : WalMedia) (shard : Z).
Abbreviation at_or_past a := (λ k, ∃ s, a ≤ s ∧ k = segment_key shard s).

(** Everything readable from [a] on is a landing segment, up to [far]. *)
Definition only_litter w (a far : Z) : Prop :=
  ∀ s, a ≤ s → present_at w media shard s = true → s ≤ far ∧
    ∃ data header footer, fetch_at w media shard s = Some data ∧
      read_seg_footer data = Ok (header, footer) ∧ sh_kind header = Landing.
(** Positions below [a] are untouched by changes past it. *)
Lemma past_before a s : 0 ≤ s < a → ¬ at_or_past a (segment_key shard s).
Proof. intros Hs (t & Ht & E). apply segment_key_inj in E; lia. Qed.
Lemma only_litter_next w w' a far :
  0 ≤ a → lawful w → only_litter w a far → same_but (λ k, k = segment_key shard a) w w' → only_litter w' (a + 1) far.
Proof.
  intros A L O Sb s Hs. destruct (present_at_same w w' media shard s _ L Sb) as [-> ->]; [|apply O; lia].
  intros E%segment_key_inj; lia.
Qed.

Lemma sweep_window_run n base seq gap far w :
  lawful w → 0 ≤ base → base = seq + 1 → 0 ≤ gap < MAX_INFLIGHT → only_litter w base far → seq - far ≤ gap →
  ∃ w' seq' gap' over,
    mexec w (sweep_window media shard base (present_at w media shard <$> seqZ base (Z.of_nat n)) seq gap) =
      (w', Some (Ok (seq', gap', over))) ∧
    same_but (at_or_past base) w w' ∧ (∀ s, base ≤ s ≤ seq' → present_at w' media shard s = false) ∧
    only_litter w' (seq' + 1) far ∧ gap' - gap ≤ seq' - seq ∧ seq' - far ≤ gap' ∧ seq ≤ seq' ∧ 0 ≤ gap' ∧
    (if (over : bool) then gap' = MAX_INFLIGHT else seq' = seq + Z.of_nat n ∧ gap' < MAX_INFLIGHT).
Proof.
  revert base seq gap w. induction n as [|n IH]; intros base seq gap w L B0 -> G O Fg.
  - rewrite seqZ_nil by lia. exists w, seq, gap, false. split_and!; (done || lia || by apply same_but_refl).
  - rewrite seqZ_cons by lia. rewrite fmap_cons. cbn [sweep_window]. cbv zeta.
    replace (Z.pred (Z.of_nat (Datatypes.S n))) with (Z.of_nat n) by lia. replace (Z.succ (seq + 1)) with (seq + 1 + 1) by lia.
    destruct (present_at w media shard (seq + 1)) eqn:P; cbn [negb].
    + destruct (O (seq + 1)) as (Lf & data & hd & ft & F & R & K); [lia|done|].
      erewrite mexec_ok; [|quiet|rewrite mexec_map_err by quiet; by rewrite mexec_fetch]. rewrite F. cbn [map_err].
      rewrite R. cbn [map_err]. rewrite mexec_done_ok, K.
      destruct (delete_segment_run w media shard (seq + 1) L) as (w1 & D & Sb & Ab).
      erewrite mexec_ok; [|destruct media; quiet|rewrite mexec_map_err by (destruct media; quiet); by rewrite D].
      assert (W : present_at w media shard <$> seqZ (seq + 1 + 1) (Z.of_nat n) =
        present_at w1 media shard <$> seqZ (seq + 1 + 1) (Z.of_nat n)).
      { apply list_fmap_ext. intros i s Hs. apply lookup_seqZ in Hs as [-> _]. symmetry.
        apply (present_at_same w w1 media shard _ _ L Sb). intros E%segment_key_inj; lia. }
      rewrite W. destruct (IH (seq + 1 + 1) (seq + 1) 0 w1) as (w' & seq' & gap' & over & Rn & Sb' & Ab' & O' & G1 & G2 & G3 & G4 & Ov);
        [apply Sb|lia|done|unfold MAX_INFLIGHT; lia|by eapply only_litter_next|lia|].
      exists w', seq', gap', over. rewrite Rn. split_and!; [done| | |done|lia|lia|lia|lia|].
      * eapply same_but_trans; [exact Sb|exact Sb'|intros k ->; by exists (seq + 1)|].
        intros k (s & Hs & ->). exists s. split; [lia|done].
      * intros s Hs. destruct (decide (s = seq + 1)) as [->|N]; [|apply Ab'; lia].
        by rewrite (proj1 (present_at_same w1 w' media shard _ _ (proj1 Sb) Sb' (past_before (seq + 1 + 1) (seq + 1) ltac:(lia)))).
      * destruct over; [done|]. split; [lia|apply Ov].
    + destruct (MAX_INFLIGHT <=? gap + 1) eqn:C; zbool.
      * exists w, (seq + 1), (gap + 1), true. split_and!; try done; try lia.
        -- intros s Hs. by replace s with (seq + 1) by lia.
        -- intros s Hs. apply O. lia.
      * destruct (IH (seq + 1 + 1) (seq + 1) (gap + 1) w) as (w' & seq' & gap' & over & Rn & Sb' & Ab' & O' & G1 & G2 & G3 & G4 & Ov);
          [done|lia|done|lia|intros s Hs; apply O; lia|lia|].
        exists w', seq', gap', over. rewrite Rn. split_and!; [done| | |done|lia|lia|lia|lia|].
        -- eapply same_but_trans; [apply (same_but_refl (λ _, False) w L)|exact Sb'|done|].
           intros k (s & Hs & ->). exists s. split; [lia|done].
        -- intros s Hs. destruct (decide (s = seq + 1)) as [->|N]; [|apply Ab'; lia].
           by rewrite (proj1 (present_at_same w w' media shard _ _ L Sb' (past_before (seq + 1 + 1) (seq + 1) ltac:(lia)))).
        -- destruct over; [done|]. split; [lia|apply Ov].
Qed.
Lemma unthreaded_sweep_window base window seq gap : unthreaded (sweep_window media shard base window seq gap).
Proof.
  revert base seq gap. induction window as [|p window IH]; intros base seq gap; cbn [sweep_window]; [done|].
  destruct (negb p); [by destruct (_ <=? _)|]. apply unthreaded_bind; [quiet|]. intros [data|]; [|done].
  apply unthreaded_bind; [done|]. intros [hd ft]. destruct (sh_kind hd); [|done].
  apply unthreaded_bind; [|intros; apply IH]. apply unthreaded_map_err. destruct media; quiet.
Qed.

Lemma sweep_run fuel sealed seq gap far w :
  lawful w → 0 ≤ sealed ≤ seq → far = sealed + MAX_INFLIGHT → 0 ≤ gap ≤ seq - sealed →
  only_litter w (seq + 1) far → seq - far ≤ gap → far + 200 ≤ u64_max →
  far + MAX_INFLIGHT - seq ≤ 32 * Z.of_nat fuel →
  ∃ w', mexec w (sweep_loop (Datatypes.S fuel) media shard seq gap) = (w', Some (Ok ())) ∧
    same_but (at_or_past (seq + 1)) w w' ∧ ∀ s, seq < s → present_at w' media shard s = false.
Proof.
  revert seq gap w. unfold MAX_INFLIGHT. induction fuel as [|fuel IH]; intros seq gap w L A Fr G O Fg Bd Hf; cbn [sweep_loop].
  all: unfold MAX_INFLIGHT; destruct (gap <? 64) eqn:C; zbool.
  1: lia.
  1, 3: exists w; split_and!; [done|by apply same_but_refl|]; intros s Hs;
    destruct (present_at w media shard s) eqn:P; [|done]; apply O in P as [P _]; lia.
  rewrite madd_run by lia. erewrite mexec_ok; [|quiet|apply probe_window_run; [done|lia|done|unfold PROBE_WIDTH; lia]].
  destruct (sweep_window_run 32 (seq + 1) seq gap far w)
    as (w1 & seq' & gap' & over & R & Sb & Ab & O1 & G1 & G2 & G3 & G4 & Ov); [done|lia|done|unfold MAX_INFLIGHT; lia|done|done|].
  erewrite mexec_ok; [|apply unthreaded_sweep_window|exact R].
  assert (Past : ∀ s, seq' < s → 64 ≤ gap' → present_at w1 media shard s = false).
  { intros s Hs Hg. destruct (present_at w1 media shard s) eqn:P; [|done]. apply O1 in P as [P _]; lia. }
  destruct over.
  - exists w1. split_and!; [done|done|]. intros s Hs. destruct (decide (s ≤ seq')); [apply Ab; lia|].
    apply Past; [lia|]. unfold MAX_INFLIGHT in Ov. lia.
  - destruct Ov as [-> Og]. unfold MAX_INFLIGHT in Og.
    destruct (IH (seq + 32) gap' w1) as (w' & R' & Sb' & Ab'); [apply Sb|lia|done|lia|done|lia|lia|lia|].
    exists w'. change (Z.of_nat 32) with 32 in *. split_and!; [exact R'| |].
    + eapply same_but_trans; [exact Sb|exact Sb'|done|]. intros k (s & Hs & ->). exists s. split; [lia|done].
    + intros s Hs. destruct (decide (s ≤ seq + 32)); [|apply Ab'; lia].
      rewrite (proj1 (present_at_same w1 w' media shard _ _ (proj1 Sb) Sb' (past_before (seq + 32 + 1) s ltac:(lia)))). apply Ab. lia.
Qed.

(** ** A takeover *)
Lemma lor_fits a b n : fits n a → fits n b → fits n (Z.lor a b).
Proof.
  unfold fits. intros [A1 A2] [B1 B2]. split; [by apply Z.lor_nonneg|].
  destruct (decide (Z.lor a b = 0)) as [->|N]; [apply Z.pow_pos_nonneg; lia|].
  apply Z.log2_lt_pow2; [pose proof (proj2 (Z.lor_nonneg a b)); lia|]. rewrite Z.log2_lor by done.
  assert (Lg : ∀ x, 0 ≤ x < 2 ^ (8 * Z.of_nat n) → (0 < n)%nat → Z.log2 x < 8 * Z.of_nat n).
  { intros x Hx Hn. destruct (decide (x = 0)) as [->|]; [cbn; lia|]. apply Z.log2_lt_pow2; lia. }
  destruct n as [|n]; [cbn in *; assert (a = 0) as -> by lia; assert (b = 0) as -> by lia; done|].
  apply Z.max_lub_lt; apply Lg; lia.
Qed.
Lemma tenants_digest_fits ts : fits 8 (tenants_digest ts).
Proof.
  unfold tenants_digest. apply lor_fits.
  - unfold fits. apply Z.mod_pos_bound. lia.
  - pose proof (crc32c_fits (concat ((λ t, le_bytes 16 (ts_tenant t) ++ le_bytes 8 (ts_max_lsn t)) <$> ts))) as F.
    unfold fits in *. cbn in *. lia.
Qed.

Definition upto_of (m : option (ShardManifest * Version)) : Z := from_option (λ mv, lm_consolidated_upto mv.1) 0 m.
Definition digest_at (m : option (ShardManifest * Version)) : Z := from_option (λ mv, lm_consolidated_digest mv.1) 0 m.
Definition epoch_of (m : option (ShardManifest * Version)) : Z := from_option (λ mv, lm_chain_epoch mv.1) 0 m.
(** A shard a takeover can find: a linked chain from the consolidated
    boundary to [h], the next position free, and past it nothing but what a
    dead writer left. *)
Record takeable w (m : option (ShardManifest * Version)) (segs : list ChainSegment) (h : Z) : Prop := {
  tk_lawful : lawful w;
  tk_loads : loads w media shard m;
  tk_linked : linked w media shard (upto_of m + 1) (digest_at m) segs;
  tk_head : h = upto_of m + zlen segs ∧ head_of m ≤ h ∧ h < 2 ^ 62;
  tk_free : ∀ md, view w (segment_key shard (h + 1)) md = None;
  tk_litter : only_litter w (h + 2) (h + 1 + MAX_INFLIGHT);
  tk_widths : fits 4 shard ∧ epoch_of m < u64_max ∧ fits 8 (mw_now w)
}.
(** The seal as it reads back, and the manifest that names it. *)
Definition seal_segment (seq prev : Z) : ChainSegment :=
  mkChainSegment seq (mkSegHeader Seal shard seq prev) [] (mkSegFooter 0 []).
Definition sealed_manifest w (m : option (ShardManifest * Version)) (seq : Z) (node : bytes) : ShardManifest :=
  mkLog SHARD_MANIFEST_FORMAT shard (epoch_of m + 1) seq (upto_of m) (digest_at m)
    ((fst <$> m) ≫= lm_rounds) (from_option (λ mv, lm_gc_round mv.1) 0 m) node (mw_now w).

Lemma build_seal_run seq prev :
  fits 4 shard → fits 8 seq → fits 8 prev →
  ∃ data, build_seal shard seq prev = Ok (data, []) ∧
    decode_segment data = Ok (mkSegHeader Seal shard seq prev, [], mkSegFooter 0 []).
Proof.
  intros F1 F2 F3. set (hd := mkSegHeader Seal shard seq prev).
  destruct (builder_footer_fits hd [] (segment_new hd) (segment_new_ok hd)) as [Ff Fl]; [done|done|].
  eexists. split; [by apply (segment_finish_run hd [] (segment_new hd) (segment_new_ok hd))|].
  apply (decode_segment_encoded hd [] []); done.
Qed.
Lemma linked_present w seq prev segs s :
  lawful w → linked w media shard seq prev segs → seq ≤ s < seq + zlen segs → present_at w media shard s = true.
Proof.
  intros L. revert seq prev. induction segs as [|g segs IH]; intros seq prev Li B; [rewrite zlen_nil in B; lia|].
  destruct Li as (Hs & _ & (_ & _ & data & F & _) & Li). rewrite zlen_cons in B.
  destruct (decide (s = seq)) as [->|N]; [|eapply IH; [exact Li|lia]].
  rewrite present_at_of by done. rewrite Hs in F. by eapply fetch_present.
Qed.
Lemma linked_same w w' K seq prev segs :
  lawful w → same_but K w w' → (∀ s, seq ≤ s < seq + zlen segs → ¬ K (segment_key shard s)) →
  linked w media shard seq prev segs → linked w' media shard seq prev segs.
Proof.
  intros L Sb. revert seq prev. induction segs as [|g segs IH]; intros seq prev N Li; [done|].
  rewrite zlen_cons in N. pose proof (zlen_nonneg segs). destruct Li as (Hs & Hp & (A & B & data & F & D) & Li).
  split_and!; [done|done| |apply IH; [intros s Hs'; apply N; lia|done]].
  split_and!; [done|done|]. exists data. split; [|done]. rewrite Hs in *.
  rewrite (proj2 (present_at_same w w' media shard seq K L Sb (N seq ltac:(lia)))). done.
Qed.
Lemma loads_fits w m v : loads w media shard (Some (m, v)) → log_fits m.
Proof. intros (data & _ & P & _). by eapply log_in_range. Qed.
Lemma linked_last w seq prev segs g :
  linked w media shard seq prev segs → last segs = Some g → cs_seq g = seq + zlen segs - 1 ∧ stored w media shard g.
Proof.
  revert seq prev. induction segs as [|s segs IH]; intros seq prev Li La; [done|].
  destruct Li as (Hs & _ & St & Li). rewrite zlen_cons. destruct segs as [|s' segs].
  - injection La as <-. rewrite zlen_nil. split; [lia|done].
  - rewrite last_cons_cons in La. destruct (IH _ _ Li La) as [E St']. split; [lia|done].
Qed.
Lemma decode_read_footer data hd fs ft : decode_segment data = Ok (hd, fs, ft) → read_seg_footer data = Ok (hd, ft).
Proof.
  unfold decode_segment, read_seg_footer. intros E. apply bind_ok in E as ([[hd' ft'] start] & P & E).
  rewrite P, bind_run. apply bind_ok in E as (region & _ & E). apply bind_ok in E as (frames & _ & E).
  apply bind_ok in E as (u & _ & E). apply (inj Ok) in E. by injection E as -> -> ->.
Qed.
Lemma upto_range w m : loads w media shard m → 0 ≤ upto_of m ∧ fits 8 (digest_at m) ∧ 0 ≤ epoch_of m.
Proof.
  destruct m as [[m v]|]; intros Lo; cbn; [|unfold fits; lia].
  destruct (loads_fits w m v Lo) as (_ & _ & F1 & _ & F2 & F3 & _). unfold fits in *. lia.
Qed.
Lemma end_digest_fits prev segs : fits 8 prev → fits 8 (end_digest prev segs).
Proof. intros F. unfold end_digest. destruct (last segs); [apply tenants_digest_fits|done]. Qed.
Lemma prev_digest_run w m segs h :
  takeable w m segs h →
  mexec w (match fst <$> m with
           | Some m => if h =? lm_consolidated_upto m then mret (lm_consolidated_digest m)
                       else digest_of_segment media shard h
           | None => digest_of_segment media shard h
           end) = (w, Some (Ok (end_digest (digest_at m) segs))).
Proof.
  intros [L Lo Li (Hh & _) _ _ _]. destruct (upto_range w m Lo) as (U & _). unfold end_digest.
  destruct (last segs) as [g|] eqn:La.
  - destruct (linked_last w _ _ _ g Li La) as (Sg & _ & _ & data & F & D).
    assert (0 < zlen segs) by (destruct segs; [done|rewrite zlen_cons; pose proof (zlen_nonneg segs); lia]).
    assert (R : mexec w (digest_of_segment media shard h) = (w, Some (Ok (digest_of g)))).
    { unfold digest_of_segment. rewrite (proj2 (Z.eqb_neq _ _)) by lia.
      replace (cs_seq g) with h in F by lia.
      erewrite mexec_ok; [|quiet|rewrite mexec_map_err by quiet; by rewrite mexec_fetch]. rewrite F. cbn [map_err ok_or].
      rewrite mexec_done_ok, (decode_read_footer _ _ _ _ D). done. }
    cbn [from_option]. destruct m as [[m v]|]; cbn in *; [|done]. by rewrite (proj2 (Z.eqb_neq _ _)) by lia.
  - apply last_None in La as ->. rewrite zlen_nil, Z.add_0_r in Hh. subst h. cbn [from_option].
    destruct m as [[m v]|]; cbn; [by rewrite Z.eqb_refl|done].
Qed.

Lemma sealed_fits w m segs h node :
  takeable w m segs h → log_fits (sealed_manifest w m (h + 1) node).
Proof.
  intros [L Lo Li (Hh & _ & Hb) _ _ (F1 & F2 & F3)]. destruct (upto_range w m Lo) as (U & Fd & Ep).
  pose proof (zlen_nonneg segs). unfold log_fits, sealed_manifest, u64_max in *. cbn -[fits].
  assert (R : match (fst <$> m) ≫= lm_rounds with
    | Some r => fits 8 (rr_first r) ∧ fits 8 (rr_last r) | None => True end ∧
    fits 8 (from_option (λ mv, lm_gc_round mv.1) 0 m)).
  { destruct m as [[m v]|]; [|done]. destruct (loads_fits w m v Lo) as (_ & _ & _ & _ & _ & _ & G1 & G2 & _). done. }
  destruct R as [R1 R2]. split_and!; [done|done|unfold fits; lia..|done| |done|done].
  by destruct m as [[]|].
Qed.
Lemma unthreaded_sweep fuel seq gap : unthreaded (sweep_loop fuel media shard seq gap).
Proof.
  revert seq gap. induction fuel as [|fuel IH]; intros seq gap; cbn [sweep_loop]; [done|].
  destruct (_ <? _); [|done]. apply unthreaded_bind; [done|]. intros base. apply unthreaded_bind; [quiet|].
  intros window. apply unthreaded_bind; [apply unthreaded_sweep_window|]. intros [[s g] []]; [done|apply IH].
Qed.
Lemma take_over_run w m segs h node n :
  takeable w m segs h →
  ∃ w', mexec w (take_over_loop 5 (Datatypes.S n) media shard node) =
      (w', Some (Ok (mkTakeover (epoch_of m + 1) (h + 1) (h + 2) (tenants_digest [])))) ∧
    lawful w' ∧ (∃ v, loads w' media shard (Some (sealed_manifest w m (h + 1) node, v))) ∧
    linked w' media shard (upto_of m + 1) (digest_at m) (segs ++ [seal_segment (h + 1) (end_digest (digest_at m) segs)]) ∧
    ∀ s, h + 1 < s → present_at w' media shard s = false.
Proof.
  intros T. pose proof T as [L Lo Li (Hh & Hd & Hb) Fr Li2 (F1 & F2 & F3)].
  destruct (upto_range w m Lo) as (U & Fd & Ep). pose proof (zlen_nonneg segs).
  cbn [take_over_loop]. cbv zeta. erewrite mexec_ok; [|quiet|by erewrite log_load_run].
  assert (Fl : from_option (λ m0, Z.max (lm_head m0) (lm_consolidated_upto m0)) 0 (fst <$> m) =
    Z.max (head_of m) (upto_of m)) by by destruct m as [[]|].
  rewrite Fl. assert (Hm0 : 0 ≤ head_of m).
  { destruct m as [[m' v]|]; cbn; [|lia]. destruct (loads_fits w m' v Lo) as (_ & _ & _ & Fh & _). unfold fits in Fh. lia. }
  assert (Pn : present_at w media shard (h + 1) = false).
  { rewrite present_at_of by done. apply present_none. intros md. unfold has. by rewrite Fr. }
  erewrite mexec_ok; [|unfold chain_head; quiet|apply (chain_head_run w L media shard _ h); [lia|lia| |done|]].
  2:{ intros s Hs. apply (linked_present w (upto_of m + 1) (digest_at m) segs s L Li). lia. }
  2:{ intros s Ps. destruct (decide (s ≤ h + 1)); [unfold MAX_INFLIGHT; lia|]. apply Li2 in Ps; lia. }
  erewrite mexec_ok; [| |by apply prev_digest_run].
  2:{ unfold digest_of_segment. destruct (fst <$> m); repeat case_match; quiet. }
  rewrite madd_run by (unfold u64_max; lia).
  destruct (build_seal_run (h + 1) (end_digest (digest_at m) segs)) as (data & Bs & Ds);
    [done|unfold fits; lia|by apply end_digest_fits|]. rewrite Bs, mexec_done_ok.
  destruct (seal_run w media shard (h + 1) data L Fr) as (w1 & Sr & Sb & Fs).
  erewrite mexec_ok; [| |rewrite mexec_map_err; [by rewrite Sr|]].
  2, 3: unfold seal, seal_decides; destruct media; quiet.
  replace (from_option lm_chain_epoch 0 (fst <$> m)) with (epoch_of m) by by destruct m as [[]|].
  rewrite madd_run by (unfold u64_max in *; lia). change (mexec w1 (MNow ?k)) with (mexec w1 (k (mw_now w1))).
  rewrite (mexec_now _ _ _ _ Sr). set (next := mkLog _ _ _ _ _ _ _ _ _ _).
  assert (En : next = sealed_manifest w m (h + 1) node) by (unfold next; by destruct m as [[]|]).
  assert (Ver : snd <$> m = snd <$> view w1 (manifest_key shard) STD).
  { rewrite (proj2 Sb) by (intros E; symmetry in E; by apply segment_not_manifest in E).
    destruct m as [[m' v]|]; cbn in Lo; [by destruct Lo as (? & -> & _)|by rewrite Lo]. }
  destruct (put_run w1 STD (manifest_key shard) (log_to_vec_pretty next) (snd <$> m) (proj1 Sb) Ver)
    as (w2 & v2 & R2 & L2 & V2 & O2).
  assert (Sb2 : same_but (λ k, k = manifest_key shard) w1 w2).
  { split; [done|]. intros key md N. apply O2. congruence. }
  rewrite mexec_handle by done. unfold mput_match at 1. unfold mexec at 1. cbn [mexec_pool].
  replace (manifest_store media) with STD by by destruct media. rewrite R2.
  assert (Lit : only_litter w2 (h + 1 + 1) (h + 1 + MAX_INFLIGHT)).
  { intros s Hs. assert (N1 : segment_key shard s ≠ segment_key shard (h + 1)) by (intros E%segment_key_inj; lia).
    destruct (present_at_same w1 w2 media shard s _ (proj1 Sb) Sb2 ltac:(apply segment_not_manifest)) as [-> ->].
    destruct (present_at_same w w1 media shard s _ L Sb N1) as [-> ->]. apply Li2. lia. }
  destruct (sweep_run 4 (h + 1) (h + 1) 0 (h + 1 + MAX_INFLIGHT) w2) as (w3 & R3 & Sb3 & Ab3);
    [done|lia|done|lia|done|unfold MAX_INFLIGHT, u64_max; lia..|].
  erewrite mexec_ok; [|apply unthreaded_sweep|exact R3]. rewrite madd_run by (unfold u64_max; lia).
  exists w3. split_and!; [by replace (h + 1 + 1) with (h + 2) by lia|apply Sb3| | |].
  - exists v2. cbn. exists (log_to_vec_pretty next). rewrite (proj2 Sb3) by (intros (s & _ & E); symmetry in E; by apply segment_not_manifest in E).
    rewrite <-En. split_and!; [done| |done]. apply log_parses. rewrite En. by apply sealed_fits with segs.
  - apply linked_app. assert (Old : ∀ s, upto_of m + 1 ≤ s < h + 1 → ¬ at_or_past (h + 1 + 1) (segment_key shard s)).
    { intros s Hs. apply past_before. lia. }
    replace (upto_of m + 1 + zlen segs) with (h + 1) by lia. split.
    + apply (linked_same w2 w3 _ _ _ _ L2 Sb3); [intros s Hs; apply Old; lia|].
      apply (linked_same w1 w2 _ _ _ _ (proj1 Sb) Sb2); [intros s Hs; apply segment_not_manifest|].
      apply (linked_same w w1 _ _ _ _ L Sb); [|done]. intros s Hs E%segment_key_inj; lia.
    + cbn [linked seal_segment]. split_and!; [done|done| |done]. split_and!; [done|done|].
      exists data. split; [|done]. change (fetch_at w3 media shard (h + 1) = Some data).
      rewrite (proj2 (present_at_same w2 w3 media shard (h + 1) _ L2 Sb3 (past_before (h + 1 + 1) (h + 1) ltac:(lia)))).
      by rewrite (proj2 (present_at_same w1 w2 media shard (h + 1) _ (proj1 Sb) Sb2 (segment_not_manifest shard (h + 1)))).
  - done.
Qed.
End writing.

(** C7: the recovery read follows the links and nothing else.  On media at
    rest that hold a linked run of segments, a walk returns exactly that
    run: it stops quietly at an empty position and at one past the recorded
    head that links elsewhere, and it fails on a corrupt or foreign segment
    and on a broken link at or below the head, so nobody recovers half a
    chain by accident.  A walk its sink stops leaves a cursor from which
    the rest is read, no more and no less. *)
Theorem chain_read_exact {S} `{CasOk S} `{CrcOk, Lz4Ok, SerdeLog} (w : mworld S) (media : WalMedia)
    (shard seq prev : Z) (a b : list ChainSegment) (m : option (ShardManifest * Version)) (e : option ChainError) (fuel : nat) :
  lawful w → loads w media shard m → linked w media shard seq prev (a ++ b) → seq + zlen (a ++ b) ≤ u64_max →
  chain_end w media shard (seq + zlen (a ++ b)) (end_digest prev (a ++ b)) (head_of m) e →
  (length (a ++ b) < fuel)%nat →
  let walk := λ go c out, mexec w (walk_chain_linked (λ _, id) (keep go) fuel media shard c out) in
  let last := mkCursor (seq + zlen (a ++ b)) (end_digest prev (a ++ b)) in
  let mid := mkCursor (seq + zlen a) (end_digest prev a) in
  walk (λ _, true) (mkCursor seq prev) [] = (w, Some (match e with None => Ok (last, a ++ b) | Some e => Err e end)) ∧
  (a ≠ [] → walk (λ n, negb (n =? length a)%nat) (mkCursor seq prev) [] = (w, Some (Ok (mid, a)))) ∧
  walk (λ _, true) mid a = (w, Some (match e with None => Ok (last, a ++ b) | Some e => Err e end)).
Proof.
  intros L Lo Li B En Lf walk last mid. unfold walk, last, mid. clear walk last mid.
  pose proof Li as [La Lb]%linked_app. pose proof B as B'. rewrite zlen_app in B'.
  pose proof (zlen_nonneg a). pose proof (zlen_nonneg b). split_and!.
  - by apply (walk_all w media shard (a ++ b) fuel seq prev [] m e).
  - intros N. apply walk_stopped; [done|done|lia| |done]. rewrite length_app in Lf. lia.
  - pose proof (walk_all w media shard b fuel (seq + zlen a) (end_digest prev a) a m e L Lo Lb) as R.
    rewrite zlen_app, Z.add_assoc, end_digest_app in *. rewrite length_app in Lf. apply R; [lia|lia|done].
Qed.

