(* ===== verification/ChainRuns.v ===== *)
(** * ChainRuns: concrete shards

    A concrete codec for the shard manifest, small chains to try the
    theorems on, and runs that show where the protocol gets stuck. *)
From S2P Require Import Prelude Order Text Lsn Externals Frame Segment Cas Media MediaProofs Manifest Chain ChainHead ChainProofs.

Module ChainConcrete.
#[export] Instance rounds_countable : Countable RoundRange.
Proof. refine (inj_countable' (λ r, (rr_first r, rr_last r)) (λ '(a, b), mkRounds a b) _). by intros []. Defined.
#[export] Instance log_countable : Countable ShardManifest.
Proof.
  refine (inj_countable (λ m, [countable.encode (lm_format m); countable.encode (lm_shard m);
      countable.encode (lm_chain_epoch m); countable.encode (lm_head m); countable.encode (lm_consolidated_upto m);
      countable.encode (lm_consolidated_digest m); countable.encode (lm_rounds m); countable.encode (lm_gc_round m);
      countable.encode (lm_sealed_by m); countable.encode (lm_sealed_unix m)])
    (λ l, match l with
          | [a; b; c; d; e; f; g; h; i; j] =>
              a ← countable.decode a; b ← countable.decode b; c ← countable.decode c; d ← countable.decode d;
              e ← countable.decode e; f ← countable.decode f; g ← countable.decode g; h ← countable.decode h;
              i ← countable.decode i; j ← countable.decode j; Some (mkLog a b c d e f g h i j)
          | _ => None
          end) _).
  intros []. cbn. by rewrite !countable.decode_encode.
Defined.
#[export] Instance log_fits_dec m : Decision (log_fits m).
Proof. unfold log_fits. destruct (lm_rounds m); apply _. Defined.
Definition parse_log (d : bytes) : option ShardManifest :=
  m ← countable.decode (ManifestConcrete.of_bits d); if decide (log_fits m) then Some m else None.
#[export] Instance serde_log : SerdeLog := {
  log_from_slice := parse_log;
  log_to_vec_pretty m := ManifestConcrete.bits_of (countable.encode m)
}.
#[export] Instance serde_log_ok : SerdeLogOk.
Proof.
  split; cbn [log_from_slice log_to_vec_pretty serde_log]; unfold parse_log.
  - intros m F. rewrite ManifestConcrete.of_bits_bare, countable.decode_encode. cbn. by rewrite decide_True.
  - intros d m. destruct (countable.decode (ManifestConcrete.of_bits d)); [|done]. cbn. case_decide; naive_solver.
Qed.
End ChainConcrete.

Module ChainWitness.
Import Concrete ChainConcrete FrameWitness.

Definition w0 : mworld MemStore := mkMWorld ms_new ms_new ms_new 1000.
(** A landing segment of shard 1 and the digest the next one carries. *)
Definition window (seq prev : Z) (fs : list Frame2) : bytes * Z :=
  match (b ← push_all (E := ChainError) (segment_new (mkSegHeader Landing 1 seq prev))
               ((λ f, (f, SegmentWitness.wire_of f)) <$> fs); segment_finish b) with
  | Ok (o, ts) => (o, tenants_digest ts)
  | _ => ([], 0)
  end.
Definition land (media : WalMedia) (w : mworld MemStore) (seq : Z) (o : bytes) : mworld MemStore :=
  (mexec w (put_segment media 0 1 seq o)).1.
Definition s1 : bytes * Z := window 1 0 [f1; f2].
Definition s2 : bytes * Z := window 2 s1.2 [f2].
Definition s3 : bytes * Z := window 3 s2.2 [f1].
Definition s4 : bytes * Z := window 4 s3.2 [f2].
(** A pipelined writer died: its third put never landed, its fourth did. *)
Definition crashed (media : WalMedia) : mworld MemStore := land media (land media (land media w0 1 s1.1) 2 s2.1) 4 s4.1.

Definition chain_seqs (media : WalMedia) (w : mworld MemStore) : option (list Z + ChainError) :=
  match (mexec w (read_chain_linked 20 media 1 0 0)).2 with
  | Some (Ok l) => Some (inl (cs_seq <$> l))
  | Some (Err e) => Some (inr e)
  | _ => None
  end.
Definition take (media : WalMedia) (w : mworld MemStore) : mworld MemStore * option (res ChainError Takeover) :=
  mexec w (take_over 5 media 1 (str "b")).

Example takeover_sweeps :
  (take Dual (crashed Dual)).2 = Some (Ok (mkTakeover 1 3 4 0)) ∧
  chain_seqs Dual (take Dual (crashed Dual)).1 = Some (inl [1; 2; 3]).
Proof. by vm_compute. Qed.

(** The same writer, and a successor that sealed position 3 and died before
    it swept.  The next takeover finds positions 1 to 4 taken, takes the
    dead writer's window at 4 for the head and seals 5: the chain can no
    longer be read. *)
Definition sealed_only (media : WalMedia) : mworld MemStore :=
  match build_seal 1 3 s2.2 with Ok (o, _) => (mexec (crashed media) (seal media 1 3 o)).1 | _ => w0 end.
Example crash_before_sweep_wedges :
  chain_seqs Single (sealed_only Single) = Some (inl [1; 2; 3]) ∧
  (take Single (sealed_only Single)).2 = Some (Ok (mkTakeover 1 5 6 0)) ∧
  chain_seqs Single (take Single (sealed_only Single)).1 = Some (inr (BrokenLink 1 4)).
Proof. by vm_compute. Qed.

(** A window that reached one bucket, and a seal that reached the other and
    died there: nobody owns position 3 and every seal of it is refused, so
    every takeover ends as contested. *)
Definition half_and_half : mworld MemStore :=
  let w := land Dual (land Dual w0 1 s1.1) 2 s2.1 in
  let w := (world_put w Works AZ1 (segment_key 1 3) s3.1 None).1 in
  match build_seal 1 3 s2.2 with Ok (o, _) => (world_put w Works AZ2 (segment_key 1 3) o None).1 | _ => w end.
Example half_seal_wedges :
  (take Dual half_and_half).2 = Some (Err (Contested 1 8)) ∧
  chain_seqs Dual (take Dual half_and_half).1 = Some (inl [1; 2]).
Proof. by vm_compute. Qed.

(** Two different objects with the same header: present, but nobody's. *)
Definition same_header : mworld MemStore :=
  (world_put (world_put w0 Works AZ1 (segment_key 1 1) s1.1 None).1 Works AZ2 (segment_key 1 1) (window 1 0 [f1]).1 None).1.
Example present_without_owner :
  (mexec same_header (present Dual 1 1)).2 = Some (Ok true) ∧
  (mexec same_header (fetch_segment Dual 1 1)).2 = Some (Ok None).
Proof. by vm_compute. Qed.

(** ** Witnesses *)
Lemma w0_lawful : lawful w0.
Proof. intros []; apply ms_new_ok. Qed.
Lemma land_view w seq o :
  lawful w → lawful (land Single w seq o) ∧
  ∀ key md, is_Some (view (land Single w seq o) key md) → (key = segment_key 1 seq ∧ md = STD) ∨ is_Some (view w key md).
Proof.
  intros L. assert (land Single w seq o = (world_put w Works STD (segment_key 1 seq) o None).1) as ->.
  { unfold land, mexec, put_segment, mput_absent. cbn [mbind mprog_bind mhandle mexec_pool].
    by destruct (world_put _ _ _ _ _ _) as [w' [v|[]|]]. }
  unfold world_put, view. pose proof (put_if_match_ok (store_at w STD) (segment_key 1 seq) o None (L STD)) as P.
  destruct (put_if_match _ _ _ _) as [s r]. destruct P as [I P]. cbn [fst]. split.
  - intros md. rewrite store_at_with. destruct (decide (md = STD)); [done|apply L].
  - intros key md. rewrite store_at_with. destruct (decide (md = STD)) as [-> |]; [|by right]. case_bool_decide.
    + destruct P as (v & _ & _ & O). destruct (decide (key = segment_key 1 seq)); [by left|]. rewrite O by done. by right.
    + destruct P as [_ ->]. by right.
Qed.
Lemma crashed_lawful : lawful (crashed Single).
Proof. unfold crashed. do 3 apply land_view. apply w0_lawful. Qed.
Lemma crashed_keys key md :
  is_Some (view (crashed Single) key md) → ∃ s, (s = 1 ∨ s = 2 ∨ s = 4) ∧ key = segment_key 1 s.
Proof.
  intros V. unfold crashed in V. pose proof w0_lawful as L0. destruct (land_view w0 1 s1.1 L0) as [L1 V1].
  destruct (land_view _ 2 s2.1 L1) as [L2 V2]. destruct (land_view _ 4 s4.1 L2) as [L3 V3].
  apply V3 in V as [[-> _]|V]; [exists 4; split; [lia|done]|].
  apply V2 in V as [[-> _]|V]; [exists 2; split; [lia|done]|].
  apply V1 in V as [[-> _]|V]; [exists 1; split; [lia|done]|]. destruct md, V; done.
Qed.
Lemma crashed_present s : 0 ≤ s → present_at (crashed Single) Single 1 s = true → s = 1 ∨ s = 2 ∨ s = 4.
Proof.
  intros S0. rewrite present_at_of by apply crashed_lawful. cbn. intros P%bool_decide_eq_true.
  apply fmap_is_Some in P. destruct (crashed_keys (segment_key 1 s) STD P) as (t & In & E).
  apply segment_key_inj in E as ->; lia.
Qed.
Definition segment_of (seq : Z) (o : bytes) : ChainSegment :=
  match decode_segment o with
  | Ok (header, frames, footer) => mkChainSegment seq header frames footer
  | _ => mkChainSegment seq (mkSegHeader Landing 0 0 0) [] (mkSegFooter 0 [])
  end.
Definition g1 : ChainSegment := segment_of 1 s1.1.
Definition g2 : ChainSegment := segment_of 2 s2.1.
Lemma crashed_linked : linked (crashed Single) Single 1 1 0 [g1; g2].
Proof.
  assert (St1 : stored (crashed Single) Single 1 g1).
  { split_and!; [by vm_compute|by vm_compute|]. exists s1.1. split; by vm_compute. }
  assert (St2 : stored (crashed Single) Single 1 g2).
  { split_and!; [by vm_compute|by vm_compute|]. exists s2.1. split; by vm_compute. }
  refine (conj _ (conj _ (conj St1 (conj _ (conj _ (conj St2 I)))))); by vm_compute.
Qed.

Lemma chain_head_exact_witness : mexec (crashed Single) (chain_head Single 1 0) = (crashed Single, Some (Ok 2)).
Proof.
  apply (chain_head_exact (crashed Single) Single 1 0 2).
  - apply crashed_lawful.
  - lia.
  - lia.
  - intros s Hs. assert (s = 1 ∨ s = 2) as [-> | ->] by lia; by vm_compute.
  - by vm_compute.
  - intros s P. unfold MAX_INFLIGHT. destruct (decide (0 ≤ s)) as [L|]; [|lia]. pose proof (crashed_present s L P). lia.
Defined.
Lemma chain_read_exact_witness :
  mexec (crashed Single) (walk_chain_linked (λ _, id) (keep (λ n, negb (n =? 1)%nat)) 3 Single 1 (mkCursor 1 0) []) =
    (crashed Single, Some (Ok (mkCursor 2 s1.2, [g1]))) ∧
  mexec (crashed Single) (walk_chain_linked (λ _, id) (keep (λ _, true)) 3 Single 1 (mkCursor 2 s1.2) [g1]) =
    (crashed Single, Some (Ok (mkCursor 3 s2.2, [g1; g2]))).
Proof.
  destruct (chain_read_exact (crashed Single) Single 1 1 0 [g1] [g2] None None 3) as (_ & A & B).
  - apply crashed_lawful.
  - by vm_compute.
  - exact crashed_linked.
  - by vm_compute.
  - apply end_empty. by vm_compute.
  - cbn. lia.
  - split; [exact (A ltac:(done))|exact B].
Defined.
End ChainWitness.
