(* ===== verification/Backpressure.v ===== *)
(** * Backpressure: the lag bounds (crates/zou-log/src/backpressure.rs)

    The gauge board the roles report into and the sequencer asks at
    admission.  Seen from outside the board is its history of reports, the
    last one of each tenant and each WAL shard counting; the theorem says
    what admission answers in those terms. *)
From S2P Require Import Prelude Order.

Definition INGEST_BEHIND_BYTES : Z := Z.shiftl 1 30.
Definition INGEST_BEHIND_SECS : Z := 10.
Definition CONSOLIDATION_BEHIND_BYTES : Z := Z.shiftl 2 30.

Record LagBounds := mkBounds { ingest_bytes : Z; ingest_secs : Z; consolidation_bytes : Z }.
Definition default_bounds : LagBounds :=
  mkBounds INGEST_BEHIND_BYTES INGEST_BEHIND_SECS CONSOLIDATION_BEHIND_BYTES.
Record IngestLag := mkLag { lag_bytes : Z; lag_secs : Z }.
#[global] Instance IngestLag_eq_dec : EqDecision IngestLag.
Proof. solve_decision. Defined.
Definition no_lag : IngestLag := mkLag 0 0.

Inductive Throttle :=
  | IngestBytes (lag bound : Z)
  | IngestSecs (lag bound : Z)
  | Consolidation (shard backlog bound : Z).
#[global] Instance Throttle_eq_dec : EqDecision Throttle.
Proof. solve_decision. Defined.

(** The hash map of the tenants is only looked up, so its order does not
    matter; the B-tree of the shards is walked in key order. *)
Record Gauges := mkGauges { g_ingest : gmap Z IngestLag; g_consolidation : list (Z * Z) }.
Record Backpressure := mkBackpressure { bp_bounds : LagBounds; bp_gauges : Gauges }.

Definition bp_new (bounds : LagBounds) : Backpressure := mkBackpressure bounds (mkGauges ∅ []).
Definition report_ingest (b : Backpressure) (tenant : Z) (lag : IngestLag) : Backpressure :=
  let g := bp_gauges b in
  mkBackpressure (bp_bounds b)
    (mkGauges (if bool_decide (lag = no_lag) then delete tenant (g_ingest g) else <[tenant := lag]> (g_ingest g))
       (g_consolidation g)).
Definition report_consolidation (b : Backpressure) (shard backlog : Z) : Backpressure :=
  let g := bp_gauges b in
  mkBackpressure (bp_bounds b)
    (mkGauges (g_ingest g)
       (if backlog =? 0 then bt_remove shard (g_consolidation g) else bt_insert shard backlog (g_consolidation g))).

(** [Iterator::max_by_key] on the backlog: of equals the last. *)
Definition max_by_backlog (l : list (Z * Z)) : option (Z * Z) :=
  foldl (λ best e, match best with
                   | Some b => if e.2 <? b.2 then Some b else Some e
                   | None => Some e
                   end) None l.
Definition worst_consolidation (b : Backpressure) : option (Z * Z) :=
  max_by_backlog (g_consolidation (bp_gauges b)).
Definition alarmed (b : Backpressure) : option (Z * Z) :=
  max_by_backlog (filter (λ e, consolidation_bytes (bp_bounds b) < e.2) (g_consolidation (bp_gauges b))).

Definition admit_cell (b : Backpressure) : res Throttle () :=
  let bound := consolidation_bytes (bp_bounds b) in
  match (e ← max_by_backlog (g_consolidation (bp_gauges b)); if bound <? e.2 then Some e else None) with
  | Some (shard, backlog) => Err (Consolidation shard backlog bound)
  | None => Ok ()
  end.
(** [Backpressure::admit] *)
Definition bp_admit (b : Backpressure) (tenant : Z) : res Throttle () :=
  let bounds := bp_bounds b in
  _ ← (match g_ingest (bp_gauges b) !! tenant with
       | Some lag =>
           _ ← guard_err (ingest_bytes bounds <? lag_bytes lag) (IngestBytes (lag_bytes lag) (ingest_bytes bounds));
           guard_err (ingest_secs bounds <? lag_secs lag) (IngestSecs (lag_secs lag) (ingest_secs bounds))
       | None => Ok ()
       end);
  admit_cell b.

(** ** The board as a history of reports *)
Inductive report := RIngest (tenant : Z) (lag : IngestLag) | RConsolidation (shard backlog : Z).
Definition bp_report (b : Backpressure) (r : report) : Backpressure :=
  match r with
  | RIngest tenant lag => report_ingest b tenant lag
  | RConsolidation shard backlog => report_consolidation b shard backlog
  end.
Definition board (bounds : LagBounds) (h : list report) : Backpressure := foldl bp_report (bp_new bounds) h.
(** The last word of a tenant and of a shard; silence is no lag. *)
Definition last_ingest (h : list report) (tenant : Z) : IngestLag :=
  foldl (λ l r, match r with RIngest t lag => if t =? tenant then lag else l | _ => l end) no_lag h.
Definition last_consolidation (h : list report) (shard : Z) : Z :=
  foldl (λ l r, match r with RConsolidation s backlog => if s =? shard then backlog else l | _ => l end) 0 h.
(** Backlogs are unsigned. *)
Definition report_ok (r : report) : Prop :=
  match r with RIngest _ lag => fits 8 (lag_bytes lag) ∧ fits 8 (lag_secs lag) | RConsolidation s n => fits 4 s ∧ fits 8 n end.

Record board_ok (h : list report) (b : Backpressure) : Prop := {
  bo_wf : bt_wf (g_consolidation (bp_gauges b));
  bo_ingest : ∀ t, default no_lag (g_ingest (bp_gauges b) !! t) = last_ingest h t;
  bo_consolidation : ∀ s, default 0 (bt_get s (g_consolidation (bp_gauges b))) = last_consolidation h s;
  bo_nonzero : ∀ s n, bt_get s (g_consolidation (bp_gauges b)) = Some n → n ≠ 0
}.
Lemma board_step h b r : board_ok h b → board_ok (h ++ [r]) (bp_report b r).
Proof.
  intros [W I C N]. destruct b as [bd [gi gc]]. destruct r as [t lag|s n]; cbn in *; split; cbn; try done.
  - intros t'. unfold last_ingest. rewrite foldl_snoc. fold (last_ingest h t'). destruct (t =? t') eqn:E; zbool; subst.
    + case_bool_decide; subst; by rewrite ?lookup_delete_eq, ?lookup_insert_eq.
    + case_bool_decide; by rewrite ?lookup_delete_ne, ?lookup_insert_ne by done.
  - intros s. unfold last_consolidation. by rewrite foldl_snoc.
  - destruct (n =? 0); [by apply bt_remove_wf|by apply bt_insert_wf].
  - intros t. unfold last_ingest. by rewrite foldl_snoc.
  - intros s'. unfold last_consolidation. rewrite foldl_snoc. fold (last_consolidation h s').
    assert (Q : oeqb s' s = (s =? s')).
    { destruct (s =? s') eqn:E; zbool; [subst; apply oeqb_refl|apply oeqb_ne; congruence]. }
    destruct (n =? 0) eqn:Z0; zbool; rewrite ?bt_get_remove, ?bt_get_insert, Q by done; by destruct (s =? s').
  - intros s' m. destruct (n =? 0) eqn:Z0; zbool; rewrite ?bt_get_remove, ?bt_get_insert by done;
      destruct (oeqb s' s); naive_solver.
Qed.
Lemma board_run bounds h : board_ok h (board bounds h) ∧ bp_bounds (board bounds h) = bounds.
Proof.
  unfold board. induction h as [|r h [IH B]] using rev_ind; [by split; split|].
  rewrite foldl_snoc. split; [by apply board_step|]. by destruct r.
Qed.

(** The maximum: an entry of the list, none bigger, and of equals the one
    with the greatest key. *)
Lemma max_by_backlog_spec l :
  match max_by_backlog l with
  | None => l = []
  | Some e => ∃ l1 l2, l = l1 ++ e :: l2 ∧ Forall (λ x, x.2 ≤ e.2) l1 ∧ Forall (λ x, x.2 < e.2) l2
  end.
Proof.
  unfold max_by_backlog. induction l as [|x l IH] using rev_ind; [done|]. rewrite foldl_snoc.
  destruct (foldl _ None l) as [e|]; [|subst; by exists [], []].
  destruct IH as (l1 & l2 & -> & F1 & F2). destruct (x.2 <? e.2) eqn:C; zbool.
  - exists l1, (l2 ++ [x]). rewrite <-app_assoc. split_and!; [done|done|]. apply Forall_app. by rewrite Forall_singleton.
  - exists (l1 ++ e :: l2), []. split_and!; [done| |done]. rewrite Forall_app, Forall_cons.
    split_and!; [|lia|]; (eapply Forall_impl; [eassumption|]); cbn; lia.
Qed.
Lemma max_by_backlog_filter l bound :
  max_by_backlog (filter (λ e, bound < e.2) l) =
  (e ← max_by_backlog l; if bound <? e.2 then Some e else None).
Proof.
  unfold max_by_backlog. induction l as [|x l IH] using rev_ind; [done|]. rewrite foldl_snoc, filter_app.
  destruct (decide (bound < x.2)) as [B|B].
  - rewrite filter_cons_True, filter_nil, foldl_snoc, IH by done.
    destruct (foldl _ None l) as [e|]; cbn; repeat (case_match; zbool; cbn in *; simplify_eq); try done; try lia.
  - rewrite filter_cons_False, filter_nil, app_nil_r, IH by done.
    destruct (foldl _ None l) as [e|]; cbn; repeat (case_match; zbool; cbn in *; simplify_eq); try done; try lia.
Qed.
Lemma bt_get_split s n m1 m2 (l : list (Z * Z)) :
  bt_wf l → l = m1 ++ (s, n) :: m2 → bt_get s l = Some n ∧ (∀ e, e ∈ m1 → e.1 < s).
Proof.
  intros W ->. split; [apply bt_get_elem; [done|set_solver]|].
  induction m1 as [|x m1 IH]; [set_solver|]. destruct W as [Lt W]. intros e [-> |He]%elem_of_cons; [|by apply IH].
  specialize (Lt (s, n) ltac:(set_solver)). unfold olt, oltb, ocmp, Z_ord in Lt. cbn in Lt. by destruct (_ ?= _) eqn:C.
Qed.
(** The worst shard in terms of the reports. *)
Definition worst_of (h : list report) (s n : Z) : Prop :=
  last_consolidation h s = n ∧ n ≠ 0 ∧
  ∀ s', last_consolidation h s' ≤ n ∧ (last_consolidation h s' = n → s' ≤ s).
Lemma last_consolidation_range h s : Forall report_ok h → 0 ≤ last_consolidation h s.
Proof.
  intros F. unfold last_consolidation. induction h as [|r h IH] using rev_ind; [done|]. rewrite foldl_snoc.
  apply Forall_app in F as [F R]. rewrite Forall_singleton in R. specialize (IH F).
  destruct r as [t l|s' n]; cbn in R; [done|]. destruct (s' =? s); [|done]. apply R.
Qed.
Lemma worst_spec bounds h :
  Forall report_ok h →
  match worst_consolidation (board bounds h) with
  | Some (s, n) => worst_of h s n
  | None => ∀ s, last_consolidation h s = 0
  end.
Proof.
  intros F. destruct (board_run bounds h) as [[W _ C N] _]. unfold worst_consolidation.
  pose proof (max_by_backlog_spec (g_consolidation (bp_gauges (board bounds h)))) as M.
  destruct (max_by_backlog _) as [[s n]|]; [|intros s; rewrite <-C, M; done].
  destruct M as (l1 & l2 & E & F1 & F2). destruct (bt_get_split s n l1 l2 _ W E) as [G Lt].
  unfold worst_of. rewrite <-(C s), G. split_and!; [done|by eapply N|].
  intros s'. pose proof (last_consolidation_range h s' F) as R. pose proof (last_consolidation_range h s F) as Rs.
  rewrite <-(C s), G in Rs. cbn in Rs. rewrite <-C in *.
  destruct (bt_get s' _) as [n'|] eqn:G'; cbn in *; [|pose proof (N s n G); lia].
  apply bt_get_elem in G'; [|done]. rewrite E in G'.
  apply elem_of_app in G' as [I|[[= -> ->]|I]%elem_of_cons]; [|lia|].
  - rewrite Forall_forall in F1. specialize (F1 _ I). apply Lt in I. cbn in *. lia.
  - rewrite Forall_forall in F2. specialize (F2 _ I). cbn in *. lia.
Qed.
Lemma admit_cell_alarmed b :
  admit_cell b = match alarmed b with
                 | Some (s, n) => Err (Consolidation s n (consolidation_bytes (bp_bounds b)))
                 | None => Ok ()
                 end.
Proof. unfold admit_cell, alarmed. by rewrite max_by_backlog_filter. Qed.

Lemma admit_cell_spec bounds h :
  Forall report_ok h → 0 ≤ consolidation_bytes bounds →
  match admit_cell (board bounds h) with
  | Ok _ => alarmed (board bounds h) = None ∧ ∀ s, last_consolidation h s ≤ consolidation_bytes bounds
  | Err (Consolidation s n b) =>
      b = consolidation_bytes bounds ∧ b < n ∧ worst_of h s n ∧ alarmed (board bounds h) = Some (s, n)
  | _ => False
  end.
Proof.
  intros F B. rewrite admit_cell_alarmed. pose proof (worst_spec bounds h F) as Ws. revert Ws.
  unfold alarmed, worst_consolidation. rewrite max_by_backlog_filter, (proj2 (board_run bounds h)).
  destruct (max_by_backlog _) as [[s n]|]; cbn; intros Ws.
  - destruct (_ <? n) eqn:Cn; zbool; cbn; [done|]. split; [done|].
    intros s'. destruct Ws as (_ & _ & Ws). specialize (Ws s'). lia.
  - split; [done|]. intros s. rewrite Ws. lia.
Qed.

(** Admission in terms of the reports.  A tenant whose last ingest
    report is over a bound is refused for it, bytes before seconds, with
    the numbers of that report; otherwise everybody is refused exactly when
    some WAL shard's last backlog is over the bound, and then the refusal
    names the alarmed shard, the deepest and of equals the highest; nobody
    else is refused.  What one tenant reports never touches another. *)
Theorem admission_exact (bounds : LagBounds) (h : list report) (tenant : Z) :
  Forall report_ok h → 0 ≤ ingest_bytes bounds → 0 ≤ ingest_secs bounds → 0 ≤ consolidation_bytes bounds →
  let lag := last_ingest h tenant in
  match bp_admit (board bounds h) tenant with
  | Ok _ => lag_bytes lag ≤ ingest_bytes bounds ∧ lag_secs lag ≤ ingest_secs bounds ∧
            alarmed (board bounds h) = None ∧ ∀ s, last_consolidation h s ≤ consolidation_bytes bounds
  | Err (IngestBytes n b) => n = lag_bytes lag ∧ b = ingest_bytes bounds ∧ b < n
  | Err (IngestSecs n b) => n = lag_secs lag ∧ b = ingest_secs bounds ∧ b < n ∧ lag_bytes lag ≤ ingest_bytes bounds
  | Err (Consolidation s n b) =>
      b = consolidation_bytes bounds ∧ b < n ∧ worst_of h s n ∧ alarmed (board bounds h) = Some (s, n) ∧
      lag_bytes lag ≤ ingest_bytes bounds ∧ lag_secs lag ≤ ingest_secs bounds
  | Panic => False
  end ∧
  ∀ t lag', t ≠ tenant → bp_admit (board bounds (h ++ [RIngest t lag'])) tenant = bp_admit (board bounds h) tenant.
Proof.
  intros F B1 B2 B3 lag. destruct (board_run bounds h) as [[W I C N] Bd]. split.
  - unfold bp_admit. specialize (I tenant). fold lag in I. rewrite Bd. pose proof (admit_cell_spec bounds h F B3) as Cell.
    destruct (g_ingest _ !! tenant) as [l|]; cbn in I.
    + subst l. unfold guard_err. destruct (_ <? lag_bytes lag) eqn:C1; zbool; [done|]. rewrite bind_run.
      destruct (_ <? lag_secs lag) eqn:C2; zbool; [done|]. rewrite bind_run.
      destruct (admit_cell _) as [|[]|]; naive_solver.
    + rewrite bind_run, <-I. cbn [lag_bytes lag_secs no_lag]. destruct (admit_cell _) as [|[]|]; naive_solver.
  - intros t lag' Ne. unfold board at 1. rewrite foldl_snoc. fold (board bounds h). unfold bp_admit, bp_report, report_ingest.
    cbn [bp_bounds bp_gauges g_ingest]. case_bool_decide; by rewrite ?lookup_delete_ne, ?lookup_insert_ne by done.
Qed.

Module BackpressureWitness.
Definition tight : LagBounds := mkBounds 100 10 1000.
Definition h : list report :=
  [RIngest 7 (mkLag 500 1); RIngest 8 (mkLag 100 11); RConsolidation 1 2000; RConsolidation 3 2000; RConsolidation 2 5].
Lemma admission_exact_witness :
  bp_admit (board tight h) 7 = Err (IngestBytes 500 100) ∧ bp_admit (board tight h) 8 = Err (IngestSecs 11 10) ∧
  bp_admit (board tight h) 9 = Err (Consolidation 3 2000 1000) ∧ worst_of h 3 2000.
Proof.
  split_and!; [by vm_compute..|].
  destruct (admission_exact tight h 9) as [A _]; [|vm_compute; congruence..|by destruct A as (_ & _ & A & _)].
  repeat constructor; by vm_compute.
Defined.
(** The bound itself is still admitted, and a report of zero clears. *)
Example boundary : bp_admit (board tight [RIngest 7 (mkLag 100 10); RConsolidation 1 1000]) 7 = Ok () ∧
  bp_admit (board tight (h ++ [RIngest 7 no_lag; RConsolidation 1 0; RConsolidation 3 0])) 7 = Ok ().
Proof. by vm_compute. Qed.
End BackpressureWitness.
