(* ===== verification/Tee.v ===== *)
(** * Tee: the fan out of durable windows (crates/zou-log/src/tee.rs)

    Filters, subscriptions with a byte budget, publishing and receiving.
    The catch up half of the file is in CatchUp. *)
From S2P Require Import Prelude Order Lsn Externals Frame.

Definition DEFAULT_TEE_BUFFER : Z := Z.shiftl 64 20.

Inductive TeeFilter :=
  | TeeTenant (t : Z)
  | TeePageShard (tenant shard shard_count : Z).
Inductive TeeEvent :=
  | Window (seq : Z) (frames : list Frame2)
  | Lagged (next_seq : Z).

Fixpoint event_bytes (frames : list Frame2) : Z :=
  match frames with [] => 0 | f :: frames => zlen (payload f) + 64 + event_bytes frames end.

(** A channel with the byte count its two ends share.  [ch_held] is what
    the receiver has taken out and not yet subtracted. *)
Record Chan := mkChan { ch_queue : list TeeEvent; ch_used : Z; ch_held : Z; ch_rx : bool }.
Record SubEntry := mkSub { se_filter : TeeFilter; se_tx : nat; se_budget : Z }.
Record Tee := mkTee { tee_subs : list SubEntry; tee_chans : list Chan }.
Definition tee_new : Tee := mkTee [] [].

Section tee.
Context `{Crc}.

Definition filter_tenant (f : TeeFilter) : Z := match f with TeeTenant t => t | TeePageShard t _ _ => t end.
Definition filter_matches (f : TeeFilter) (frame : Frame2) : bool :=
  match f with
  | TeeTenant t => tenant frame =? t
  | TeePageShard t shard shard_count =>
      (tenant frame =? t) &&
      (bool_decide (hints frame = []) || existsb (λ h, page_shard h shard_count =? shard) (hints frame))
  end.

(** [Tee::subscribe]; the subscription is the number of its channel. *)
Definition subscribe (t : Tee) (f : TeeFilter) (budget : Z) : Tee * nat :=
  let c := length (tee_chans t) in
  (mkTee (tee_subs t ++ [mkSub f c budget]) (tee_chans t ++ [mkChan [] 0 0 true]), c).
Definition subscriber_count (t : Tee) : nat := length (tee_subs t).

(** [Sender::send]: fails once the receiver is gone. *)
Definition chan_send (ch : Chan) (e : TeeEvent) : Chan * bool :=
  if ch_rx ch then (mkChan (ch_queue ch ++ [e]) (ch_used ch) (ch_held ch) true, true) else (ch, false).
(** One subscription's turn, and whether it is retained. *)
Definition publish_one (seq : Z) (frames : list Frame2) (sub : SubEntry) (ch : Chan) : Chan * bool :=
  let matching := filter (λ f, filter_matches (se_filter sub) f = true) frames in
  if bool_decide (matching = []) then (ch, true)
  else
    let bytes := event_bytes matching in
    if se_budget sub <? ch_used ch + bytes then ((chan_send ch (Lagged seq)).1, false)
    else
      let ch := mkChan (ch_queue ch) (ch_used ch + bytes) (ch_held ch) (ch_rx ch) in
      chan_send ch (Window seq matching).
(** [Tee::publish]; [Vec::retain] goes through the subscriptions in order. *)
Fixpoint publish_loop (seq : Z) (frames : list Frame2) (subs : list SubEntry) (chans : list Chan) :
    list SubEntry * list Chan :=
  match subs with
  | [] => ([], chans)
  | sub :: subs =>
      match chans !! se_tx sub with
      | Some ch =>
          let '(ch, keep) := publish_one seq frames sub ch in
          let '(kept, chans) := publish_loop seq frames subs (<[se_tx sub := ch]> chans) in
          ((if (keep : bool) then sub :: kept else kept), chans)
      | None => publish_loop seq frames subs chans
      end
  end.
Definition publish (t : Tee) (seq : Z) (frames : list Frame2) : Tee :=
  let '(subs, chans) := publish_loop seq frames (tee_subs t) (tee_chans t) in mkTee subs chans.

Inductive received := Blocked | Disconnected | Received (e : TeeEvent).
Definition window_bytes (e : TeeEvent) : Z := match e with Window _ frames => event_bytes frames | Lagged _ => 0 end.
(** The two halves of [TeeSubscription::recv]: take the event out of the
    channel, then give its bytes back.  A publish can come in between. *)
Definition recv_take (t : Tee) (c : nat) : Tee * received :=
  match tee_chans t !! c with
  | Some (mkChan (e :: q) used held rx) =>
      (mkTee (tee_subs t) (<[c := mkChan q used (held + window_bytes e) rx]> (tee_chans t)), Received e)
  | _ => (t, if existsb (λ s, Nat.eqb (se_tx s) c) (tee_subs t) then Blocked else Disconnected)
  end.
Definition recv_release (t : Tee) (c : nat) : Tee :=
  match tee_chans t !! c with
  | Some ch => mkTee (tee_subs t) (<[c := mkChan (ch_queue ch) (ch_used ch - ch_held ch) 0 (ch_rx ch)]> (tee_chans t))
  | None => t
  end.
Definition recv (t : Tee) (c : nat) : Tee * received :=
  match recv_take t c with
  | (t, Received e) => (recv_release t c, Received e)
  | other => other
  end.
Definition try_recv (t : Tee) (c : nat) : Tee * option TeeEvent :=
  match recv t c with (t, Received e) => (t, Some e) | (t, _) => (t, None) end.
(** Dropping the subscription drops its receiver and what was queued. *)
Definition drop_subscription (t : Tee) (c : nat) : Tee :=
  match tee_chans t !! c with
  | Some ch => mkTee (tee_subs t) (<[c := mkChan [] (ch_used ch) (ch_held ch) false]> (tee_chans t))
  | None => t
  end.

(** ** Everything that can happen to a tee *)
Inductive tee_op :=
  | TSubscribe (f : TeeFilter) (budget : Z)
  | TPublish (seq : Z) (frames : list Frame2)
  | TTake (c : nat)
  | TRelease (c : nat)
  | TDrop (c : nat).
(** The tee afterwards, and the event somebody took. *)
Definition tee_step (t : Tee) (op : tee_op) : Tee * list (nat * TeeEvent) :=
  match op with
  | TSubscribe f budget => ((subscribe t f budget).1, [])
  | TPublish seq frames => (publish t seq frames, [])
  | TTake c => let '(t, r) := recv_take t c in (t, match r with Received e => [(c, e)] | _ => [] end)
  | TRelease c => (recv_release t c, [])
  | TDrop c => (drop_subscription t c, [])
  end.
Fixpoint tee_run (t : Tee) (ops : list tee_op) : Tee * list (nat * TeeEvent) :=
  match ops with
  | [] => (t, [])
  | op :: ops =>
      let '(t, out) := tee_step t op in
      let '(t, outs) := tee_run t ops in (t, out ++ outs)
  end.
Definition taken (c : nat) (outs : list (nat * TeeEvent)) : list TeeEvent :=
  snd <$> filter (λ o, o.1 = c) outs.
(** What a subscription should see of a run. *)
Definition wanted (f : TeeFilter) (seq : Z) (frames : list Frame2) : list TeeEvent :=
  let m := filter (λ x, filter_matches f x = true) frames in
  if bool_decide (m = []) then [] else [Window seq m].
Definition due (f : TeeFilter) (ops : list tee_op) : list TeeEvent :=
  concat ((λ op, match op with TPublish seq frames => wanted f seq frames | _ => [] end) <$> ops).
Definition event_seq (e : TeeEvent) : Z := match e with Window seq _ => seq | Lagged seq => seq end.
Fixpoint queue_bytes (q : list TeeEvent) : Z :=
  match q with [] => 0 | e :: q => window_bytes e + queue_bytes q end.

Record tee_ok (t : Tee) : Prop := {
  to_nodup : NoDup (se_tx <$> tee_subs t);
  to_range : Forall (λ s, (se_tx s < length (tee_chans t))%nat) (tee_subs t)
}.
(** Subscription [c] has been handed [got] (taken or queued) of [ms], the
    windows due to it. *)
Record sub_ok (t : Tee) (c : nat) (f : TeeFilter) (budget : Z) (got ms : list TeeEvent) (q : list TeeEvent)
    (used held : Z) (cut : bool) : Prop := {
  so_chan : tee_chans t !! c = Some (mkChan q used held true);
  so_used : used = queue_bytes q + held ∧ 0 ≤ held;
  so_budget : used ≤ budget;
  so_state : if cut then c ∉ se_tx <$> tee_subs t ∧
                         ∃ pre e rest, ms = pre ++ e :: rest ∧ got = pre ++ [Lagged (event_seq e)] ∧ budget < queue_bytes ms
             else mkSub f c budget ∈ tee_subs t ∧ got = ms ∧ queue_bytes q + held ≤ queue_bytes ms
}.

Lemma queue_bytes_app a b : queue_bytes (a ++ b) = queue_bytes a + queue_bytes b.
Proof. induction a as [|e a IH]; cbn; [done|]. rewrite IH. lia. Qed.
Lemma event_bytes_nonneg fs : 0 ≤ event_bytes fs.
Proof. induction fs as [|f fs IH]; cbn; [done|]. pose proof (zlen_nonneg (payload f)). lia. Qed.
Lemma window_bytes_nonneg e : 0 ≤ window_bytes e.
Proof. destruct e; [apply event_bytes_nonneg|done]. Qed.
Lemma queue_bytes_nonneg q : 0 ≤ queue_bytes q.
Proof. induction q as [|e q IH]; cbn; [done|]. pose proof (window_bytes_nonneg e). lia. Qed.

(** ** One publish *)
Lemma publish_loop_spec seq frames subs chans kept chans' :
  NoDup (se_tx <$> subs) → publish_loop seq frames subs chans = (kept, chans') →
  length chans' = length chans ∧ (∀ s, s ∈ kept → s ∈ subs) ∧ NoDup (se_tx <$> kept) ∧
  (∀ c, c ∉ se_tx <$> subs → chans' !! c = chans !! c) ∧
  (∀ s ch, s ∈ subs → chans !! se_tx s = Some ch →
     chans' !! se_tx s = Some (publish_one seq frames s ch).1 ∧
     if (publish_one seq frames s ch).2 then s ∈ kept else se_tx s ∉ se_tx <$> kept).
Proof.
  revert chans kept. induction subs as [|s subs IH]; intros chans kept N; cbn [publish_loop].
  { intros [= <- <-]. split_and!; [done|done|done|done|set_solver]. }
  rewrite fmap_cons in *. apply NoDup_cons in N as [Nin N]. destruct (chans !! se_tx s) as [ch|] eqn:E.
  - destruct (publish_one seq frames s ch) as [ch' kp] eqn:P.
    destruct (publish_loop seq frames subs _) as [kept' chans''] eqn:R. intros [= <- <-].
    destruct (IH _ _ N R) as (L & I & Nk & O & Q). rewrite length_insert in L.
    assert (Sub : ∀ c, c ∈ se_tx <$> kept' → c ∈ se_tx <$> subs).
    { intros c (x & -> & Hx)%list_elem_of_fmap. apply list_elem_of_fmap. eauto. }
    split_and!.
    + done.
    + destruct kp; set_solver.
    + destruct kp; [|done]. rewrite fmap_cons. apply NoDup_cons. split; [|done]. intros C. by apply Nin, Sub.
    + intros c Nc. apply not_elem_of_cons in Nc as [Nc1 Nc2]. rewrite O by done. by rewrite list_lookup_insert_ne.
    + intros s' ch1 [-> |Hs']%elem_of_cons E'.
      * rewrite E in E'. injection E' as <-. rewrite P. cbn. rewrite O by done.
        rewrite list_lookup_insert_eq by (by eapply lookup_lt_Some). split; [done|].
        destruct kp; [by left|]. intros C. by apply Nin, Sub.
      * assert (Ne : se_tx s ≠ se_tx s') by (intros Eq; apply Nin; rewrite Eq; apply list_elem_of_fmap; eauto).
        destruct (Q s' ch1 Hs') as [Q1 Q2]; [by rewrite list_lookup_insert_ne|]. split; [done|].
        destruct (publish_one seq frames s' ch1).2; destruct kp; try done; [by right|].
        rewrite fmap_cons. apply not_elem_of_cons. done.
  - intros R. destruct (IH _ _ N R) as (L & I & Nk & O & Q). split_and!; [done|set_solver|done| |].
    + intros c Nc. apply not_elem_of_cons in Nc as [_ Nc]. by apply O.
    + intros s' ch1 [-> |Hs']%elem_of_cons E'; [congruence|by apply Q].
Qed.

Lemma tee_step_ok t op : tee_ok t → tee_ok (tee_step t op).1.
Proof.
  intros [N R]. destruct op as [f b|seq frames|c|c|c]; cbn.
  - split; cbn.
    + rewrite fmap_app. apply NoDup_app. split_and!; [done| |apply NoDup_singleton].
      intros c (x & Ex & Hx)%list_elem_of_fmap Ec%list_elem_of_singleton. rewrite Forall_forall in R. apply R in Hx.
      cbn in *. lia.
    + rewrite Forall_app, Forall_singleton, length_app. cbn. split; [|lia]. eapply Forall_impl; [done|]. cbn. lia.
  - unfold publish. destruct (publish_loop _ _ _ _) as [kept chans] eqn:P.
    destruct (publish_loop_spec _ _ _ _ _ _ N P) as (L & I & Nk & _). split; cbn; [done|].
    rewrite Forall_forall in *. intros s Hs. rewrite L. auto.
  - unfold recv_take. destruct (tee_chans t !! c) as [[[|e q] u h rx]|]; try done. split; cbn; [done|].
    by rewrite length_insert.
  - unfold recv_release. destruct (tee_chans t !! c) as [ch|]; [|done]. split; cbn; [done|]. by rewrite length_insert.
  - unfold drop_subscription. destruct (tee_chans t !! c) as [ch|]; [|done]. split; cbn; [done|]. by rewrite length_insert.
Qed.

(** ** One subscription over a run *)
Abbreviation out_of c r := (taken c (match r with Received e => [(c, e)] | _ => [] end)).
Lemma taken_cons c o outs : taken c (o :: outs) = (if decide (o.1 = c) then [o.2] else []) ++ taken c outs.
Proof. unfold taken. rewrite filter_cons. by destruct (decide (o.1 = c)). Qed.
Lemma taken_app c a b : taken c (a ++ b) = taken c a ++ taken c b.
Proof. unfold taken. by rewrite filter_app, fmap_app. Qed.

(** The state of a subscription whose receiver is alive: taken and queued,
    in that order, is what was due, up to a cut. *)
Definition sub_state (t : Tee) (c : nat) (f : TeeFilter) (budget : Z) (tk ms : list TeeEvent) : Prop :=
  ∃ q used held cut, sub_ok t c f budget (tk ++ q) ms q used held cut.

Lemma sub_publish t c f budget tk ms seq frames :
  tee_ok t → sub_state t c f budget tk ms → sub_state (publish t seq frames) c f budget tk (ms ++ wanted f seq frames).
Proof.
  intros [N R] (q & u & h & cut & [Ch [U Hh] B St]). unfold publish.
  destruct (publish_loop _ _ _ _) as [kept chans] eqn:P.
  destruct (publish_loop_spec _ _ _ _ _ _ N P) as (L & I & Nk & O & Q). destruct cut.
  - destruct St as (Nc & pre & e & rest & -> & Eg & Bq). exists q, u, h, true. split; [by rewrite <-Ch, <-O|done|done|].
    split; [intros (x & -> & Hx)%list_elem_of_fmap; apply Nc; apply list_elem_of_fmap; eauto|].
    exists pre, e, (rest ++ wanted f seq frames). pose proof (queue_bytes_nonneg (wanted f seq frames)).
    rewrite queue_bytes_app. split_and!; [by rewrite <-app_assoc|done|lia].
  - destruct St as (Hs & Eg & Lq). destruct (Q _ _ Hs Ch) as [Q1 Q2]. revert Q1 Q2. unfold publish_one, wanted. cbn [se_filter se_tx se_budget].
    set (m := filter _ frames). case_bool_decide as Em; cbn [fst snd]; intros Q1 Q2.
    { exists q, u, h, false. rewrite app_nil_r. by split. }
    cbn [ch_used] in *. pose proof (event_bytes_nonneg m). destruct (budget <? u + event_bytes m) eqn:Bb; zbool; cbn in Q1, Q2.
    + exists (q ++ [Lagged seq]), u, h, true. split; [done|rewrite queue_bytes_app; cbn; lia|done|]. split; [done|].
      exists ms, (Window seq m), []. rewrite app_assoc, Eg. split_and!; [done|done|]. rewrite queue_bytes_app. cbn. lia.
    + exists (q ++ [Window seq m]), (u + event_bytes m), h, false.
      split; [done|rewrite queue_bytes_app; cbn; lia|done|]. split_and!; [done|by rewrite app_assoc, Eg|rewrite !queue_bytes_app; cbn; lia].
Qed.
Lemma sub_other t t' c f budget tk ms :
  sub_state t c f budget tk ms → tee_subs t' = tee_subs t → tee_chans t' !! c = tee_chans t !! c →
  sub_state t' c f budget tk ms.
Proof.
  intros (q & u & h & cut & [Ch U B St]) Es Ec. exists q, u, h, cut. split; [by rewrite Ec|done|done|by rewrite Es].
Qed.
Lemma sub_step t c f budget tk ms op :
  tee_ok t → sub_state t c f budget tk ms → op ≠ TDrop c →
  let '(t', outs) := tee_step t op in
  sub_state t' c f budget (tk ++ taken c outs) (ms ++ due f [op]).
Proof.
  intros T St Nd. destruct op as [f' b'|seq frames|c'|c'|c']; unfold due; cbn; rewrite ?app_nil_r.
  - destruct St as (q & u & h & cut & [Ch U B St]). exists q, u, h, cut. split; [|done|done|].
    + cbn. by rewrite lookup_app_l by (by eapply lookup_lt_Some).
    + cbn. destruct cut; [|set_solver]. destruct St as [Nc St]. split; [|done]. rewrite fmap_app. cbn.
      apply lookup_lt_Some in Ch. intros [C|C%list_elem_of_singleton]%elem_of_app; [done|lia].
  - by apply sub_publish.
  - unfold recv_take. destruct (tee_chans t !! c') as [[[|e q] u h rx]|] eqn:Ec; cbn [fst snd];
      [destruct (existsb _ _); cbn; by rewrite app_nil_r| |destruct (existsb _ _); cbn; by rewrite app_nil_r].
    rewrite taken_cons. cbn [fst snd]. destruct (decide (c' = c)) as [-> |Nc].
    + destruct St as (q' & u' & h' & cut & [Ch [U Hh] B St]). rewrite Ec in Ch. injection Ch as <- <- <- ->.
      cbn in U. pose proof (window_bytes_nonneg e). exists q, u, (h + window_bytes e), cut. cbn [taken fmap list_fmap filter app].
      rewrite <-app_assoc. cbn [app]. split.
      * cbn. by rewrite list_lookup_insert_eq by (by eapply lookup_lt_Some).
      * lia.
      * done.
      * destruct cut; [done|]. cbn. destruct St as (S1 & S2 & S3). cbn in S3. split_and!; [done|done|lia].
    + cbn. rewrite app_nil_r. apply (sub_other t); [done|done|]. cbn. by rewrite list_lookup_insert_ne.
  - unfold recv_release. destruct (tee_chans t !! c') as [ch|] eqn:Ec; [|done]. destruct (decide (c' = c)) as [-> |Nc].
    + destruct St as (q & u & h & cut & [Ch [U Hh] B St]). rewrite Ec in Ch. injection Ch as ->. cbn.
      exists q, (u - h), 0, cut. split; cbn; [by rewrite list_lookup_insert_eq by (by eapply lookup_lt_Some)|lia|lia|].
      destruct cut; [done|]. destruct St as (S1 & S2 & S3). split_and!; [done|done|lia].
    + apply (sub_other t); [done|done|]. cbn. by rewrite list_lookup_insert_ne.
  - unfold drop_subscription. destruct (tee_chans t !! c') as [ch|] eqn:Ec; [|done].
    apply (sub_other t); [done|done|]. cbn. rewrite list_lookup_insert_ne; [done|congruence].
Qed.
Lemma sub_run ops t c f budget tk ms :
  tee_ok t → sub_state t c f budget tk ms → TDrop c ∉ ops →
  let '(t', outs) := tee_run t ops in
  sub_state t' c f budget (tk ++ taken c outs) (ms ++ due f ops).
Proof.
  revert t tk ms. induction ops as [|op ops IH]; intros t tk ms T St Nd; cbn [tee_run].
  { unfold due. cbn. by rewrite !app_nil_r. }
  apply not_elem_of_cons in Nd as [N1 N2]. pose proof (sub_step t c f budget tk ms op T St ltac:(congruence)) as Ss.
  pose proof (tee_step_ok t op T) as T'. destruct (tee_step t op) as [t1 out]. specialize (IH t1 _ _ T' Ss N2).
  destruct (tee_run t1 ops) as [t2 outs]. rewrite taken_app, app_assoc. unfold due in *. cbn in *.
  rewrite app_nil_r in IH. by rewrite (app_assoc ms).
Qed.
End tee.


Module TeeWitness.
Import Concrete FrameWitness.
(** A page shard's subscription with room for one frame of the two windows
    it wants: the second cuts it. *)
Definition ops : list tee_op :=
  [TPublish 5 [f1]; TTake 0; TPublish 6 [f2; f1]; TSubscribe (TeeTenant (tenant f2)) 1000; TPublish 7 [f1]].
Example cut_and_told :
  (tee_run (subscribe tee_new (TeeTenant (tenant f1)) (event_bytes [f1; f1] - 1)).1 ops).1 =
  mkTee [mkSub (TeeTenant (tenant f2)) 1 1000]
    [mkChan [Lagged 6] (event_bytes [f1]) (event_bytes [f1]) true; mkChan [] 0 0 true].
Proof. by vm_compute. Qed.
End TeeWitness.
