(* ===== verification/Sequencer.v ===== *)
(** * Sequencer: group commit for one WAL shard (crates/zou-log/src/sequencer.rs)

    The sequencer is a state machine of an appending side, one flusher and
    [inflight] put workers that share two mutexes and a bounded channel.
    A step is what one thread does between two points where another can
    come in: an append, a turn of the flusher's loop, a window built, a
    slot claimed, a put returned, one window resolved under the lander's
    lock.  Time, the sink's answers and the order of the threads are
    labels, so a theorem about runs holds for every schedule.  The commit
    timings the code notes for its statistics are left out. *)
From S2P Require Import Prelude Order Lsn Externals Frame Segment Cas Chain Backpressure Tee.

Record SequencerConfig := mkSeqConfig {
  sc_window : Z; sc_batch_bytes : Z; sc_batch_frames : Z; sc_inflight : Z; sc_tee : option Tee; sc_gate : option Backpressure
}.
(** [SequencerConfig::default], the window in milliseconds. *)
Definition seq_config_default : SequencerConfig := mkSeqConfig 3 (4 * 1024 * 1024) 4096 16 None None.

Inductive AppendError :=
  | WrongEpoch (tenant current : Z)
  | Throttled (tenant : Z) (reason : Throttle)
  | StoreFailed (source : CasError)
  | Poisoned
  | Closed.

(** A ticket is the number of its append; [sq_tickets] holds the results. *)
Abbreviation ticket := nat.
Abbreviation ticket_result := (res AppendError Lsn).

Record Batch := mkBatch { b_frames : list (Frame2 * bytes); b_bytes : Z; b_opened : Z; b_tickets : list (ticket * Lsn) }.
Record SeqState := mkSeqState {
  st_batch : option Batch; st_epochs : gmap Z Z; st_next_seq : Z; st_prev_digest : Z;
  st_poisoned : bool; st_shutdown : bool
}.
Record Dispatch := mkDispatch {
  d_seq : Z; d_segment : bytes; d_frames : list Frame2; d_tickets : list (ticket * Lsn)
}.
Record LanderState := mkLander {
  ls_next_ack : Z; ls_parked : list (Z * (Dispatch * res CasError ())); ls_failed : bool; ls_outstanding : Z
}.

(** Where the flusher is in its loop, with what it carries. *)
Inductive flusher :=
  | FLoop
  | FBuild (batch : Batch) (seq prev_digest : Z)
  | FAdmit (d : Dispatch)
  | FSend (d : Dispatch)
  | FDrain
  | FDone
  | FPanicked (tickets : list (ticket * Lsn)).
(** Where a put worker is; [WResolve] is the loop in [Lander::complete],
    under the lander's lock. *)
Inductive worker :=
  | WIdle
  | WPut (d : Dispatch)
  | WPark (d : Dispatch) (outcome : res CasError ())
  | WResolve
  | WGone
  | WPanicked (d : Dispatch).

(** The whole sequencer.  [sq_appended] and [sq_built] and [sq_puts] are
    its history: the frames of each ticket, the windows closed, and what
    the sink has answered. *)
Record Seqr := mkSeqr {
  sq_shard : Z; sq_config : SequencerConfig; sq_now : Z;
  sq_state : SeqState; sq_lander : LanderState; sq_chan : list Dispatch; sq_tx : bool;
  sq_flusher : flusher; sq_workers : list worker;
  sq_tickets : list (option ticket_result); sq_gate : option Backpressure; sq_tee : option Tee;
  sq_appended : list (list Frame2); sq_built : list (list (Frame2 * bytes) * Dispatch);
  sq_puts : list (Z * bytes * res CasError ())
}.

(** ** Updates *)
Definition set_state (f : SeqState → SeqState) (s : Seqr) : Seqr :=
  mkSeqr (sq_shard s) (sq_config s) (sq_now s) (f (sq_state s)) (sq_lander s) (sq_chan s) (sq_tx s) (sq_flusher s)
    (sq_workers s) (sq_tickets s) (sq_gate s) (sq_tee s) (sq_appended s) (sq_built s) (sq_puts s).
Definition set_lander (f : LanderState → LanderState) (s : Seqr) : Seqr :=
  mkSeqr (sq_shard s) (sq_config s) (sq_now s) (sq_state s) (f (sq_lander s)) (sq_chan s) (sq_tx s) (sq_flusher s)
    (sq_workers s) (sq_tickets s) (sq_gate s) (sq_tee s) (sq_appended s) (sq_built s) (sq_puts s).
Definition set_chan (c : list Dispatch) (s : Seqr) : Seqr :=
  mkSeqr (sq_shard s) (sq_config s) (sq_now s) (sq_state s) (sq_lander s) c (sq_tx s) (sq_flusher s)
    (sq_workers s) (sq_tickets s) (sq_gate s) (sq_tee s) (sq_appended s) (sq_built s) (sq_puts s).
Definition set_flusher (f : flusher) (s : Seqr) : Seqr :=
  mkSeqr (sq_shard s) (sq_config s) (sq_now s) (sq_state s) (sq_lander s) (sq_chan s)
    (match f with FDrain | FDone | FPanicked _ => false | _ => sq_tx s end) f
    (sq_workers s) (sq_tickets s) (sq_gate s) (sq_tee s) (sq_appended s) (sq_built s) (sq_puts s).
Definition set_worker (i : nat) (x : worker) (s : Seqr) : Seqr :=
  mkSeqr (sq_shard s) (sq_config s) (sq_now s) (sq_state s) (sq_lander s) (sq_chan s) (sq_tx s) (sq_flusher s)
    (<[i := x]> (sq_workers s)) (sq_tickets s) (sq_gate s) (sq_tee s) (sq_appended s) (sq_built s) (sq_puts s).
Definition set_tickets (f : list (option ticket_result) → list (option ticket_result)) (s : Seqr) : Seqr :=
  mkSeqr (sq_shard s) (sq_config s) (sq_now s) (sq_state s) (sq_lander s) (sq_chan s) (sq_tx s) (sq_flusher s)
    (sq_workers s) (f (sq_tickets s)) (sq_gate s) (sq_tee s) (sq_appended s) (sq_built s) (sq_puts s).
Definition set_tee (f : option Tee → option Tee) (s : Seqr) : Seqr :=
  mkSeqr (sq_shard s) (sq_config s) (sq_now s) (sq_state s) (sq_lander s) (sq_chan s) (sq_tx s) (sq_flusher s)
    (sq_workers s) (sq_tickets s) (sq_gate s) (f (sq_tee s)) (sq_appended s) (sq_built s) (sq_puts s).

(** [resolve] for every ticket of a window. *)
Definition resolve_all (tks : list (ticket * Lsn)) (r : Lsn → ticket_result) (ts : list (option ticket_result)) :
    list (option ticket_result) :=
  foldl (λ ts t, <[t.1 := Some (r t.2)]> ts) ts tks.

Section sequencer.
Context `{Crc, Lz4}.

(** [Sequencer::resume] *)
Definition resume {E} (shard : Z) (config : SequencerConfig) (next_seq prev_digest now : Z) : res E Seqr :=
  _ ← assert ((1 <=? sc_inflight config) && (sc_inflight config <=? MAX_INFLIGHT));
  mret (mkSeqr shard config now (mkSeqState None ∅ next_seq prev_digest false false)
          (mkLander next_seq [] false 0) [] true FLoop (replicate (Z.to_nat (sc_inflight config)) WIdle)
          [] (sc_gate config) (sc_tee config) [] [] []).
(** [Sequencer::start] *)
Definition start {E} (shard : Z) (config : SequencerConfig) (now : Z) : res E Seqr := resume shard config 1 0 now.

(** ** Append *)
Definition stage_frame {E} (f : Frame2) : res E (Frame2 * bytes) := wire ← encode f; mret (f, wire).
Definition max_end_lsn (l : list Frame2) : option Lsn :=
  foldl (λ best f, match best with Some b => Some (Z.max b (end_lsn f)) | None => Some (end_lsn f) end) None l.
Fixpoint check_epochs (epochs : gmap Z Z) (staged : list Frame2) : res AppendError () :=
  match staged with
  | [] => mret ()
  | f :: staged =>
      match epochs !! tenant f with
      | Some current => if writer_epoch f <? current then Err (WrongEpoch (tenant f) current) else check_epochs epochs staged
      | None => check_epochs epochs staged
      end
  end.
Fixpoint check_gate (gate : Backpressure) (staged : list Frame2) : res AppendError () :=
  match staged with
  | [] => mret ()
  | f :: staged => _ ← map_err (Throttled (tenant f)) (bp_admit gate (tenant f)); check_gate gate staged
  end.
Definition note_epochs (epochs : gmap Z Z) (staged : list Frame2) : gmap Z Z :=
  foldl (λ m f, <[tenant f := Z.max (default (writer_epoch f) (m !! tenant f)) (writer_epoch f)]> m) epochs staged.
Definition stage_batch (now : Z) (b : option Batch) (staged : list (Frame2 * bytes)) (t : ticket) (durable_lsn : Lsn) : Batch :=
  let b := default (mkBatch [] 0 now []) b in
  mkBatch (b_frames b ++ staged) (b_bytes b + foldr (λ i n, zlen i.2 + n) 0 staged) (b_opened b)
    (b_tickets b ++ [(t, durable_lsn)]).

(** [Sequencer::append]: the sequencer with the append staged and its
    ticket.  A refusal stages nothing. *)
Definition append (s : Seqr) (frames : list Frame2) : res AppendError (Seqr * ticket) :=
  _ ← assert (negb (bool_decide (frames = [])));
  staged ← mapM stage_frame frames;
  durable_lsn ← expect (max_end_lsn frames);
  let st := sq_state s in
  _ ← guard_err (st_shutdown st) Closed;
  _ ← guard_err (st_poisoned st) Poisoned;
  _ ← check_epochs (st_epochs st) frames;
  _ ← (match sq_gate s with Some gate => check_gate gate frames | None => mret () end);
  let t := length (sq_tickets s) in
  let st := mkSeqState (Some (stage_batch (sq_now s) (st_batch st) staged t durable_lsn)) (note_epochs (st_epochs st) frames)
              (st_next_seq st) (st_prev_digest st) (st_poisoned st) (st_shutdown st) in
  mret (mkSeqr (sq_shard s) (sq_config s) (sq_now s) st (sq_lander s) (sq_chan s) (sq_tx s) (sq_flusher s) (sq_workers s)
          (sq_tickets s ++ [None]) (sq_gate s) (sq_tee s) (sq_appended s ++ [frames]) (sq_built s) (sq_puts s), t).
Definition tenant_epoch (s : Seqr) (tenant : Z) : option Z := st_epochs (sq_state s) !! tenant.
(** [AppendTicket::try_wait] *)
Definition try_wait (s : Seqr) (t : ticket) : option ticket_result := mjoin (sq_tickets s !! t).
Definition begin_shutdown : Seqr → Seqr :=
  set_state (λ st, mkSeqState (st_batch st) (st_epochs st) (st_next_seq st) (st_prev_digest st) (st_poisoned st) true).

(** ** The lander *)
Definition resolving (w : worker) : bool := match w with WResolve => true | _ => false end.
(** Nobody is inside [Lander::complete]. *)
Definition lander_free (s : Seqr) : bool := negb (existsb resolving (sq_workers s)).
Definition poison (s : Seqr) : Seqr :=
  set_state (λ st, mkSeqState (st_batch st) (st_epochs st) (st_next_seq st) (st_prev_digest st) true (st_shutdown st)) s.
(** [Lander::complete], first half: park the outcome. *)
Definition lander_park (d : Dispatch) (outcome : res CasError ()) : Seqr → Seqr :=
  set_lander (λ l, mkLander (ls_next_ack l) (bt_insert (d_seq d) (d, outcome) (ls_parked l)) (ls_failed l) (ls_outstanding l)).
(** One turn of its loop: resolve the first parked window if it is the
    next one, [None] when the loop ends. *)
Definition lander_turn (s : Seqr) : option Seqr :=
  let l := sq_lander s in
  match ls_parked l with
  | [] => None
  | (seq, (d, outcome)) :: parked =>
      if negb (seq =? ls_next_ack l) then None
      else
        let next failed := set_lander (λ l, mkLander (seq + 1) parked failed (ls_outstanding l - 1)) in
        Some
          (if ls_failed l then next true (set_tickets (resolve_all (d_tickets d) (λ _, Err Poisoned)) s)
           else match outcome with
                | Ok _ =>
                    next false (set_tee (fmap (λ tee, publish tee seq (d_frames d)))
                                  (set_tickets (resolve_all (d_tickets d) Ok) s))
                | Err e => next true (set_tickets (resolve_all (d_tickets d) (λ _, Err (StoreFailed e))) (poison s))
                | Panic => s
                end)
  end.

(** ** The flusher *)
Definition close_now (s : Seqr) (b : Batch) : bool :=
  st_shutdown (sq_state s) || (sc_window (sq_config s) <=? sq_now s - b_opened b)
  || (sc_batch_bytes (sq_config s) <=? b_bytes b) || (sc_batch_frames (sq_config s) <=? zlen (b_frames b)).
Definition take_batch : Seqr → Seqr :=
  set_state (λ st, mkSeqState None (st_epochs st) (st_next_seq st) (st_prev_digest st) (st_poisoned st) (st_shutdown st)).
(** Build the segment outside the lock. *)
Definition build_window {E} (shard : Z) (frames : list (Frame2 * bytes)) (seq prev_digest : Z) :
    res E (bytes * list TenantSummary) :=
  builder ← push_all (segment_new (mkSegHeader Landing shard seq prev_digest)) frames;
  segment_finish builder.
Definition worker_alive (w : worker) : bool := match w with WGone | WPanicked _ => false | _ => true end.

(** One step of [flusher_loop]; [None] while it waits. *)
Definition flusher_step (s : Seqr) : option Seqr :=
  let st := sq_state s in
  match sq_flusher s with
  | FLoop =>
      match st_batch st with
      | None => if st_shutdown st then Some (set_flusher FDrain s) else None
      | Some b =>
          if negb (close_now s b) then None
          else if st_poisoned st then Some (set_tickets (resolve_all (b_tickets b) (λ _, Err Poisoned)) (take_batch s))
          else Some (set_flusher (FBuild b (st_next_seq st) (st_prev_digest st)) (take_batch s))
      end
  | FBuild b seq prev_digest =>
      match ('(segment, summaries) ← build_window (E := ()) (sq_shard s) (b_frames b) seq prev_digest;
             next_seq ← uadd seq 1; mret (segment, summaries, next_seq)) with
      | Ok (segment, summaries, next_seq) =>
          let d := mkDispatch seq segment (if sq_tee s then fst <$> b_frames b else []) (b_tickets b) in
          let s := set_state (λ st, mkSeqState (st_batch st) (st_epochs st) next_seq (tenants_digest summaries)
                                       (st_poisoned st) (st_shutdown st)) s in
          Some (mkSeqr (sq_shard s) (sq_config s) (sq_now s) (sq_state s) (sq_lander s) (sq_chan s) (sq_tx s) (FAdmit d)
                  (sq_workers s) (sq_tickets s) (sq_gate s) (sq_tee s) (sq_appended s) (sq_built s ++ [(b_frames b, d)]) (sq_puts s))
      | _ => Some (set_flusher (FPanicked (b_tickets b)) s)
      end
  | FAdmit d =>
      let l := sq_lander s in
      if lander_free s && (ls_outstanding l <? sc_inflight (sq_config s))
      then Some (set_flusher (FSend d)
             (set_lander (λ l, mkLander (ls_next_ack l) (ls_parked l) (ls_failed l) (ls_outstanding l + 1)) s))
      else None
  | FSend d =>
      if negb (existsb worker_alive (sq_workers s)) then
        if lander_free s then
          Some (set_flusher FLoop (poison
            (set_lander (λ l, mkLander (ls_next_ack l) (ls_parked l) true (ls_outstanding l - 1))
               (set_tickets (resolve_all (d_tickets d) (λ _, Err Poisoned)) s))))
        else None
      else if zlen (sq_chan s) <? sc_inflight (sq_config s)
      then Some (set_flusher FLoop (set_chan (sq_chan s ++ [d]) s))
      else None
  | FDrain => if lander_free s && (ls_outstanding (sq_lander s) <=? 0) then Some (set_flusher FDone s) else None
  | FDone | FPanicked _ => None
  end.

(** ** The put workers *)
Definition log_put (d : Dispatch) (outcome : res CasError ()) (s : Seqr) : Seqr :=
  mkSeqr (sq_shard s) (sq_config s) (sq_now s) (sq_state s) (sq_lander s) (sq_chan s) (sq_tx s) (sq_flusher s)
    (sq_workers s) (sq_tickets s) (sq_gate s) (sq_tee s) (sq_appended s) (sq_built s)
    (sq_puts s ++ [(d_seq d, d_segment d, outcome)]).
(** One step of worker [i]; the label says what the sink did, [Panic] being
    a panic of the sink. *)
Definition worker_step (i : nat) (outcome : res CasError ()) (s : Seqr) : option Seqr :=
  w ← sq_workers s !! i;
  match w with
  | WIdle =>
      match sq_chan s with
      | d :: c => Some (set_worker i (WPut d) (set_chan c s))
      | [] => if sq_tx s then None else Some (set_worker i WGone s)
      end
  | WPut d =>
      Some (match outcome with
            | Panic => set_worker i (WPanicked d) s
            | _ => set_worker i (WPark d outcome) (log_put d outcome s)
            end)
  | WPark d outcome => if lander_free s then Some (set_worker i WResolve (lander_park d outcome s)) else None
  | WResolve => Some (match lander_turn s with Some s => s | None => set_worker i WIdle s end)
  | WGone | WPanicked _ => None
  end.

(** ** Runs *)
Inductive seq_label :=
  | LAppend (frames : list Frame2)
  | LShutdown
  | LTick (dt : Z)
  | LReport (r : report)
  | LTee (op : tee_op)
  | LFlush
  | LWorker (i : nat) (outcome : res CasError ()).
Definition seq_step (s : Seqr) (l : seq_label) : option Seqr :=
  match l with
  | LAppend frames => Some (match append s frames with Ok (s, _) => s | _ => s end)
  | LShutdown => Some (begin_shutdown s)
  | LTick dt => if dt <? 0 then None else
      Some (mkSeqr (sq_shard s) (sq_config s) (sq_now s + dt) (sq_state s) (sq_lander s) (sq_chan s) (sq_tx s) (sq_flusher s)
              (sq_workers s) (sq_tickets s) (sq_gate s) (sq_tee s) (sq_appended s) (sq_built s) (sq_puts s))
  | LReport r =>
      Some (mkSeqr (sq_shard s) (sq_config s) (sq_now s) (sq_state s) (sq_lander s) (sq_chan s) (sq_tx s) (sq_flusher s)
              (sq_workers s) (sq_tickets s) ((λ b, bp_report b r) <$> sq_gate s) (sq_tee s) (sq_appended s) (sq_built s) (sq_puts s))
  | LTee (TPublish _ _) => None
  | LTee op => Some (set_tee (fmap (λ t, (tee_step t op).1)) s)
  | LFlush => flusher_step s
  | LWorker i outcome => worker_step i outcome s
  end.
Fixpoint seq_run (s : Seqr) (ls : list seq_label) : option Seqr :=
  match ls with [] => Some s | l :: ls => s ← seq_step s l; seq_run s ls end.
(** [Sequencer::close] has joined every thread. *)
Definition closed (s : Seqr) : Prop :=
  st_shutdown (sq_state s) = true ∧ sq_flusher s = FDone ∧ Forall (λ w, w = WGone) (sq_workers s).
End sequencer.
