(* ===== verification/SequencerProofs.v ===== *)
(** * SequencerProofs: the invariant of the sequencer

    Every window in flight is in one place, the windows in flight are the
    consecutive positions from the next to acknowledge on, every ticket not
    yet resolved waits in one place, and the windows built form a chain. *)
From S2P Require Import Prelude Order Lsn Externals Frame Segment Cas Media MediaProofs Chain ChainHead ChainProofs Backpressure Tee Sequencer.
From Stdlib Require Import Permutation.

(** ** Places *)
Definition worker_dispatch (w : worker) : list Dispatch :=
  match w with WPut d | WPark d _ | WPanicked d => [d] | _ => [] end.
Definition working (ws : list worker) : list Dispatch := concat (worker_dispatch <$> ws).
Definition parked_of (l : LanderState) : list Dispatch := (λ e, e.2.1) <$> ls_parked l.
Definition sending (f : flusher) : list Dispatch := match f with FSend d => [d] | _ => [] end.
Definition admitting (f : flusher) : list Dispatch := match f with FAdmit d => [d] | _ => [] end.
(** Dispatched and not resolved. *)
Definition flying (s : Seqr) : list Dispatch :=
  parked_of (sq_lander s) ++ working (sq_workers s) ++ sq_chan s ++ sending (sq_flusher s).
Definition held_tickets (f : flusher) : list (ticket * Lsn) :=
  match f with FBuild b _ _ => b_tickets b | FPanicked ts => ts | _ => [] end.
Definition batch_tickets (b : option Batch) : list (ticket * Lsn) := from_option b_tickets [] b.
(** Staged and not resolved. *)
Definition pending (s : Seqr) : list (ticket * Lsn) :=
  batch_tickets (st_batch (sq_state s)) ++ held_tickets (sq_flusher s) ++
  ((admitting (sq_flusher s) ++ flying s) ≫= d_tickets).
Definition building (f : flusher) : list (Frame2 * bytes) := match f with FBuild b _ _ => b_frames b | _ => [] end.
Definition batch_frames (b : option Batch) : list (Frame2 * bytes) := from_option b_frames [] b.
(** The loop still has its end of the channel. *)
Definition running (f : flusher) : bool := match f with FDrain | FDone | FPanicked _ => false | _ => true end.

Arguments flying : simpl never. Arguments working : simpl never. Arguments pending : simpl never. Arguments lander_free : simpl never.

Section steps.
Context `{Crc, Lz4}.

(** ** The steps one by one *)
Abbreviation st := sq_state.
Inductive turn : Seqr → Seqr → Prop :=
  | t_idle s s' :
      sq_shard s' = sq_shard s → sq_config s' = sq_config s → st_batch (st s') = st_batch (st s) →
      st_epochs (st s') = st_epochs (st s) → st_next_seq (st s') = st_next_seq (st s) →
      st_prev_digest (st s') = st_prev_digest (st s) → st_poisoned (st s') = st_poisoned (st s) →
      (st_shutdown (st s) = true → st_shutdown (st s') = true) →
      sq_lander s' = sq_lander s → sq_chan s' = sq_chan s → sq_tx s' = sq_tx s → sq_flusher s' = sq_flusher s →
      sq_workers s' = sq_workers s → sq_tickets s' = sq_tickets s → sq_appended s' = sq_appended s →
      sq_built s' = sq_built s → sq_puts s' = sq_puts s → turn s s'
  | t_append s s' t frames : append s frames = Ok (s', t) → turn s s'
  | t_end s : sq_flusher s = FLoop → st_batch (st s) = None → st_shutdown (st s) = true → turn s (set_flusher FDrain s)
  | t_drop s b :
      sq_flusher s = FLoop → st_batch (st s) = Some b → st_poisoned (st s) = true →
      turn s (set_tickets (resolve_all (b_tickets b) (λ _, Err Poisoned)) (take_batch s))
  | t_take s b :
      sq_flusher s = FLoop → st_batch (st s) = Some b → st_poisoned (st s) = false →
      turn s (set_flusher (FBuild b (st_next_seq (st s)) (st_prev_digest (st s))) (take_batch s))
  | t_build s b seq prev segment sums d :
      sq_flusher s = FBuild b seq prev → build_window (E := ()) (sq_shard s) (b_frames b) seq prev = Ok (segment, sums) →
      seq + 1 ≤ u64_max → d = mkDispatch seq segment (if sq_tee s then fst <$> b_frames b else []) (b_tickets b) →
      turn s (mkSeqr (sq_shard s) (sq_config s) (sq_now s)
        (mkSeqState (st_batch (st s)) (st_epochs (st s)) (seq + 1) (tenants_digest sums) (st_poisoned (st s)) (st_shutdown (st s)))
        (sq_lander s) (sq_chan s) (sq_tx s) (FAdmit d) (sq_workers s) (sq_tickets s) (sq_gate s) (sq_tee s) (sq_appended s)
        (sq_built s ++ [(b_frames b, d)]) (sq_puts s))
  | t_die s b seq prev : sq_flusher s = FBuild b seq prev → turn s (set_flusher (FPanicked (b_tickets b)) s)
  | t_admit s d :
      sq_flusher s = FAdmit d → lander_free s = true → ls_outstanding (sq_lander s) < sc_inflight (sq_config s) →
      turn s (set_flusher (FSend d)
        (set_lander (λ l, mkLander (ls_next_ack l) (ls_parked l) (ls_failed l) (ls_outstanding l + 1)) s))
  | t_send_fails s d s' : sq_flusher s = FSend d → existsb worker_alive (sq_workers s) = false → turn s s'
  | t_send s d :
      sq_flusher s = FSend d → turn s (set_flusher FLoop (set_chan (sq_chan s ++ [d]) s))
  | t_done s : sq_flusher s = FDrain → ls_outstanding (sq_lander s) ≤ 0 → turn s (set_flusher FDone s)
  | t_recv s i l1 l2 d c :
      sq_workers s = l1 ++ WIdle :: l2 → length l1 = i → sq_chan s = d :: c → turn s (set_worker i (WPut d) (set_chan c s))
  | t_gone s i l1 l2 :
      sq_workers s = l1 ++ WIdle :: l2 → length l1 = i → sq_chan s = [] → sq_tx s = false → turn s (set_worker i WGone s)
  | t_sink_panics s i l1 l2 d :
      sq_workers s = l1 ++ WPut d :: l2 → length l1 = i → turn s (set_worker i (WPanicked d) s)
  | t_put s i l1 l2 d outcome :
      sq_workers s = l1 ++ WPut d :: l2 → length l1 = i → outcome ≠ Panic →
      turn s (set_worker i (WPark d outcome) (log_put d outcome s))
  | t_park s i l1 l2 d outcome :
      sq_workers s = l1 ++ WPark d outcome :: l2 → length l1 = i → lander_free s = true →
      turn s (set_worker i WResolve (lander_park d outcome s))
  | t_resolve s i l1 l2 s' :
      sq_workers s = l1 ++ WResolve :: l2 → length l1 = i → lander_turn s = Some s' → turn s s'
  | t_leave s i l1 l2 :
      sq_workers s = l1 ++ WResolve :: l2 → length l1 = i → lander_turn s = None → turn s (set_worker i WIdle s).

Lemma worker_split {A} (ws : list A) i w : ws !! i = Some w → ∃ l1 l2, ws = l1 ++ w :: l2 ∧ length l1 = i.
Proof.
  intros E. exists (take i ws), (drop (S i) ws). split; [by rewrite take_drop_middle|].
  apply lookup_lt_Some in E. rewrite length_take. lia.
Qed.
Lemma insert_split {A} (l1 l2 : list A) x y i : length l1 = i → <[i := y]> (l1 ++ x :: l2) = l1 ++ y :: l2.
Proof. intros <-. replace (length l1) with (length l1 + 0)%nat by lia. by rewrite insert_app_r. Qed.

Lemma step_turn s l s' : seq_step s l = Some s' → turn s s'.
Proof.
  destruct l as [frames| |dt|r|op| |i outcome]; cbn [seq_step].
  - destruct (append s frames) as [[s1 t]| |] eqn:A; intros [= <-]; [by eapply t_append|by apply t_idle..].
  - intros [= <-]. by apply t_idle.
  - destruct (_ <? _); [done|]. intros [= <-]. by apply t_idle.
  - intros [= <-]. by apply t_idle.
  - destruct op; [| done | ..]; intros [= <-]; by apply t_idle.
  - unfold flusher_step. cbv zeta. destruct (sq_flusher s) as [|b seq prev|d|d| | |ts] eqn:F; try done.
    + destruct (st_batch (st s)) as [b|] eqn:B.
      * destruct (negb _); [done|]. destruct (st_poisoned (st s)) eqn:P; intros [= <-]; [by apply t_drop|by apply t_take].
      * destruct (st_shutdown (st s)) eqn:Sd; [|done]. intros [= <-]. by apply t_end.
    + destruct (build_window _ _ _ _) as [[segment sums]| |] eqn:Bw; cbn.
      * unfold uadd. destruct (_ <=? _) eqn:L; cbn; intros [= <-]; [|by eapply t_die].
        zbool. eapply t_build; [done|done|unfold u64_max; lia|done].
      * intros [= <-]. by eapply t_die.
      * intros [= <-]. by eapply t_die.
    + destruct (lander_free s) eqn:Lf; [|done]. cbn. destruct (_ <? _) eqn:L; [|done]. intros [= <-]. zbool. by apply t_admit.
    + destruct (existsb worker_alive _) eqn:Al; cbn.
      * destruct (_ <? _); [|done]. intros [= <-]. by apply t_send.
      * destruct (lander_free s); [|done]. intros [= <-]. by eapply t_send_fails.
    + destruct (lander_free s); [|done]. cbn. destruct (_ <=? _) eqn:L; [|done]. intros [= <-]. zbool. by apply t_done.
  - unfold worker_step. destruct (sq_workers s !! i) as [w|] eqn:W; [|done]. cbn.
    destruct (worker_split _ _ _ W) as (l1 & l2 & E & L). destruct w as [|d|d o| | |d]; try done.
    + destruct (sq_chan s) as [|d c] eqn:C; [destruct (sq_tx s) eqn:T; [done|]|]; intros [= <-]; [by eapply t_gone|by eapply t_recv].
    + destruct outcome; intros [= <-]; [by eapply t_put..|by eapply t_sink_panics].
    + destruct (lander_free s) eqn:Lf; [|done]. intros [= <-]. by eapply t_park.
    + destruct (lander_turn s) as [s1|] eqn:T; intros [= <-]; [by eapply t_resolve|by eapply t_leave].
Qed.
Lemma append_ok s frames s' t :
  append s frames = Ok (s', t) →
  ∃ staged lsn, mapM (stage_frame (E := AppendError)) frames = Ok staged ∧ max_end_lsn frames = Some lsn ∧ frames ≠ [] ∧
    st_shutdown (st s) = false ∧ st_poisoned (st s) = false ∧ check_epochs (st_epochs (st s)) frames = Ok () ∧
    (∀ gate, sq_gate s = Some gate → check_gate gate frames = Ok ()) ∧ t = length (sq_tickets s) ∧
    s' = mkSeqr (sq_shard s) (sq_config s) (sq_now s)
      (mkSeqState (Some (stage_batch (sq_now s) (st_batch (st s)) staged t lsn)) (note_epochs (st_epochs (st s)) frames)
         (st_next_seq (st s)) (st_prev_digest (st s)) (st_poisoned (st s)) (st_shutdown (st s)))
      (sq_lander s) (sq_chan s) (sq_tx s) (sq_flusher s) (sq_workers s) (sq_tickets s ++ [None]) (sq_gate s) (sq_tee s)
      (sq_appended s ++ [frames]) (sq_built s) (sq_puts s).
Proof.
  unfold append. intros E. apply bind_ok in E as (u & A & E). apply bind_ok in E as (staged & M & E).
  apply bind_ok in E as (lsn & X & E). apply bind_ok in E as (u1 & G1%guard_ok & E).
  apply bind_ok in E as (u2 & G2%guard_ok & E). apply bind_ok in E as ([] & C & E).
  apply bind_ok in E as ([] & G & E). apply (inj Ok) in E. injection E as <- <-. exists staged, lsn.
  split_and!; [done|by destruct (max_end_lsn frames); [injection X as ->|]| |done|done|done| |done|done].
  - intros ->. done.
  - intros gate Eg. by rewrite Eg in G.
Qed.
Lemma lander_turn_some s s' :
  lander_turn s = Some s' →
  ∃ d outcome parked, ls_parked (sq_lander s) = (ls_next_ack (sq_lander s), (d, outcome)) :: parked ∧
    let next failed := set_lander (λ l, mkLander (ls_next_ack l + 1) parked failed (ls_outstanding l - 1)) in
    s' = if ls_failed (sq_lander s) then next true (set_tickets (resolve_all (d_tickets d) (λ _, Err Poisoned)) s)
         else match outcome with
              | Ok _ => next false (set_tee (fmap (λ tee, publish tee (ls_next_ack (sq_lander s)) (d_frames d)))
                                      (set_tickets (resolve_all (d_tickets d) Ok) s))
              | Err e => next true (set_tickets (resolve_all (d_tickets d) (λ _, Err (StoreFailed e))) (poison s))
              | Panic => s
              end.
Proof.
  unfold lander_turn. cbv zeta. destruct (ls_parked _) as [|[seq [d o]] parked]; [done|].
  destruct (seq =? _) eqn:E; cbn [negb]; [|done]. zbool. subst seq. intros [= <-]. by exists d, o, parked.
Qed.
Lemma lander_turn_none s :
  lander_turn s = None → match ls_parked (sq_lander s) with [] => True | e :: _ => e.1 ≠ ls_next_ack (sq_lander s) end.
Proof.
  unfold lander_turn. cbv zeta. destruct (ls_parked _) as [|[seq [d o]] parked]; [done|]. cbn.
  destruct (seq =? _) eqn:E; cbn [negb]; [done|]. by zbool.
Qed.
End steps.

(** ** Every window in one place *)
Lemma bt_insert_perm {K V} `{OrdOk K} (k : K) (v : V) m : k ∉ m.*1 → bt_insert k v m ≡ₚ (k, v) :: m.
Proof.
  induction m as [|[k' v'] m IH]; cbn; [done|]. intros N. apply not_elem_of_cons in N as [N1 N2].
  destruct (ocmp k k') eqn:C; [|done|].
  - apply ocmp_eq in C. done.
  - rewrite IH by done. apply Permutation_swap.
Qed.
Lemma seqZ_snoc m n : 0 ≤ n → seqZ m (n + 1) = seqZ m n ++ [m + n].
Proof. intros. rewrite seqZ_app by lia. f_equal. Qed.
Lemma working_app a b : working (a ++ b) = working a ++ working b.
Proof. unfold working. by rewrite fmap_app, concat_app. Qed.
Lemma working_cons w ws : working (w :: ws) = worker_dispatch w ++ working ws.
Proof. done. Qed.

(** The windows in flight, those of one worker first. *)
Definition others (s : Seqr) (l1 l2 : list worker) : list Dispatch :=
  parked_of (sq_lander s) ++ working l1 ++ working l2 ++ sq_chan s ++ sending (sq_flusher s).
Lemma flying_split s l1 l2 w : sq_workers s = l1 ++ w :: l2 → flying s ≡ₚ worker_dispatch w ++ others s l1 l2.
Proof.
  intros E. unfold flying, others. rewrite E, working_app, working_cons, <-!app_assoc.
  rewrite (Permutation_app_swap_app (working l1)). apply Permutation_app_swap_app.
Qed.
(** Permutations of integers by counting. *)
Ltac by_count :=
  apply (Permutation_count_occ Z.eq_dec); let x := fresh in intros x;
  rewrite ?fmap_app, ?count_occ_app; cbn; rewrite ?fmap_app, ?count_occ_app; cbn; repeat case_match; lia.

Record placed (s : Seqr) : Prop := {
  pl_flying : d_seq <$> flying s ≡ₚ seqZ (ls_next_ack (sq_lander s)) (ls_outstanding (sq_lander s));
  pl_out : 0 ≤ ls_outstanding (sq_lander s) ≤ sc_inflight (sq_config s);
  pl_admit : Forall (λ d, d_seq d = ls_next_ack (sq_lander s) + ls_outstanding (sq_lander s)) (admitting (sq_flusher s));
  pl_next : st_next_seq (sq_state s) =
    ls_next_ack (sq_lander s) + ls_outstanding (sq_lander s) + zlen (admitting (sq_flusher s));
  pl_build : match sq_flusher s with
             | FBuild _ seq prev => seq = st_next_seq (sq_state s) ∧ prev = st_prev_digest (sq_state s)
             | _ => True
             end;
  pl_parked : bt_wf (ls_parked (sq_lander s)) ∧
    Forall (λ e, e.1 = d_seq e.2.1 ∧ e.2.2 ≠ Panic) (ls_parked (sq_lander s));
  pl_workers : zlen (sq_workers s) = sc_inflight (sq_config s);
  pl_outcomes : ∀ d o, WPark d o ∈ sq_workers s → o ≠ Panic;
  pl_quiet : lander_free s = true → ls_next_ack (sq_lander s) ∉ (ls_parked (sq_lander s)).*1;
  pl_tx : sq_tx s = running (sq_flusher s);
  pl_gone : WGone ∈ sq_workers s → sq_tx s = false ∧ sq_chan s = []
}.

Section placed.
Context `{Crc, Lz4}.

Lemma flying_range s d : placed s → d ∈ flying s →
  ls_next_ack (sq_lander s) ≤ d_seq d < ls_next_ack (sq_lander s) + ls_outstanding (sq_lander s).
Proof.
  intros P Hd. apply elem_of_seqZ. rewrite <-(pl_flying s P). by apply list_elem_of_fmap_2.
Qed.
Lemma zlen_flying s : placed s → zlen (flying s) = ls_outstanding (sq_lander s).
Proof.
  intros P. pose proof (Permutation_length (pl_flying s P)) as E. rewrite length_fmap, length_seqZ in E.
  pose proof (pl_out s P). unfold zlen. lia.
Qed.
(** A panic of the sink leaves its window outstanding, so the last worker
    cannot die with a window to send. *)
Lemma sender_has_workers s d : placed s → sq_flusher s = FSend d → existsb worker_alive (sq_workers s) = true.
Proof.
  intros P F. destruct (existsb _ _) eqn:E; [done|]. exfalso.
  assert (A : ∀ ws, existsb worker_alive ws = false → WGone ∉ ws → length (working ws) = length ws).
  { induction ws as [|w ws IH]; [done|]. cbn [existsb]. rewrite orb_false_iff. intros [Ew Es] N.
    apply not_elem_of_cons in N as [N1 N2]. rewrite working_cons, length_app, IH by done. destruct w; done. }
  assert (G : WGone ∉ sq_workers s).
  { intros G. destruct (pl_gone s P G) as [T _]. rewrite (pl_tx s P), F in T. done. }
  pose proof (A _ E G) as L. pose proof (zlen_flying s P) as Z. pose proof (pl_out s P). pose proof (pl_workers s P).
  revert Z. unfold flying. rewrite !zlen_app, F. unfold zlen in *. cbn. lia.
Qed.

Lemma free_split l1 l2 w x :
  resolving w = false → negb (existsb resolving (l1 ++ x :: l2)) = true → negb (existsb resolving (l1 ++ w :: l2)) = true.
Proof. intros E. rewrite !existsb_app. cbn. rewrite E. destruct (existsb _ l1), (resolving x); done. Qed.
Lemma worker_elem (l1 l2 : list worker) w x y : x ∈ l1 ++ w :: l2 → x = w ∨ x ∈ l1 ++ y :: l2.
Proof. rewrite !elem_of_app, !elem_of_cons. tauto. Qed.
Lemma zlen_split {A} (l1 l2 : list A) x y : zlen (l1 ++ x :: l2) = zlen (l1 ++ y :: l2).
Proof. by rewrite !zlen_app, !zlen_cons. Qed.

(** A worker moves on with what it holds. *)
Lemma placed_worker s s' i l1 l2 w x :
  placed s → sq_workers s = l1 ++ w :: l2 → length l1 = i → s' = set_worker i x s →
  worker_dispatch x = worker_dispatch w →
  (∀ d o, x = WPark d o → o ≠ Panic) → resolving x = false → resolving w = false →
  (x = WGone → sq_tx s = false ∧ sq_chan s = []) → placed s'.
Proof.
  intros P W L -> E O R1 R2 G. destruct P. split; cbn; try done.
  - etransitivity; [|exact pl_flying0]. rewrite (flying_split s _ _ _ W).
    rewrite (flying_split _ l1 l2 x) by (cbn; by rewrite W, insert_split). by rewrite E.
  - rewrite W, insert_split by done. rewrite <-pl_workers0, W. apply zlen_split.
  - intros d o. rewrite W, insert_split by done. intros [E1|E1]%(worker_elem _ _ _ _ w); [by eapply O|].
    apply (pl_outcomes0 d). by rewrite W.
  - unfold lander_free in *. cbn. rewrite W, insert_split by done. intros F. apply pl_quiet0. rewrite W. by eapply free_split.
  - rewrite W, insert_split by done. intros [E1|E1]%(worker_elem _ _ _ _ w); [by apply G|]. apply pl_gone0. by rewrite W.
Qed.
Lemma park_fresh s l1 l2 d outcome :
  placed s → sq_workers s = l1 ++ WPark d outcome :: l2 → d_seq d ∉ (ls_parked (sq_lander s)).*1.
Proof.
  intros [] W (e & Ee & He)%list_elem_of_fmap. pose proof (NoDup_seqZ (ls_next_ack (sq_lander s)) (ls_outstanding (sq_lander s))) as Nd.
  rewrite <-pl_flying0, (flying_split s _ _ _ W) in Nd. unfold others in Nd. cbn in Nd. apply NoDup_cons in Nd as [Nd _]. apply Nd.
  rewrite fmap_app. apply elem_of_app. left. destruct pl_parked0 as [_ Fp]. rewrite Forall_forall in Fp.
  destruct (Fp e He) as [Ek _]. rewrite Ee, Ek. apply list_elem_of_fmap_2. unfold parked_of. by apply (list_elem_of_fmap_2 (λ e, e.2.1)).
Qed.
Lemma placed_park s i l1 l2 d outcome :
  placed s → sq_workers s = l1 ++ WPark d outcome :: l2 → length l1 = i →
  placed (set_worker i WResolve (lander_park d outcome s)).
Proof.
  intros P W L. pose proof (flying_split s _ _ _ W) as Fl. pose proof P as P0. destruct P.
  pose proof (park_fresh s l1 l2 d outcome P0 W) as N.
  split; cbn; try done.
  - etransitivity; [|exact pl_flying0]. rewrite Fl.
    rewrite (flying_split _ l1 l2 WResolve) by (cbn; by rewrite W, insert_split). unfold others, parked_of. cbn.
    by rewrite (bt_insert_perm _ (d, outcome) _ N).
  - destruct pl_parked0 as [Wf Fp]. split; [by apply bt_insert_wf|]. rewrite Forall_forall in *.
    intros e [-> |He]%bt_insert_elem; [cbn|by apply Fp]. split; [done|]. apply (pl_outcomes0 d). rewrite W. set_solver.
  - rewrite W, insert_split by done. rewrite <-pl_workers0, W. apply zlen_split.
  - intros d' o. rewrite W, insert_split by done. intros [E1|E1]%(worker_elem _ _ _ _ (WPark d outcome)); [done|].
    apply (pl_outcomes0 d'). by rewrite W.
  - unfold lander_free. cbn. rewrite W, insert_split by done. rewrite existsb_app. cbn. by rewrite orb_true_r.
  - rewrite W, insert_split by done. intros [E1|E1]%(worker_elem _ _ _ _ (WPark d outcome)); [done|]. apply pl_gone0. by rewrite W.
Qed.
(** The first parked window leaves. *)
Lemma placed_resolve s s' l1 l2 d o parked failed :
  placed s → sq_workers s = l1 ++ WResolve :: l2 → ls_parked (sq_lander s) = (ls_next_ack (sq_lander s), (d, o)) :: parked →
  sq_lander s' = mkLander (ls_next_ack (sq_lander s) + 1) parked failed (ls_outstanding (sq_lander s) - 1) →
  sq_config s' = sq_config s → st_next_seq (sq_state s') = st_next_seq (sq_state s) →
  st_prev_digest (sq_state s') = st_prev_digest (sq_state s) → sq_chan s' = sq_chan s → sq_tx s' = sq_tx s →
  sq_flusher s' = sq_flusher s → sq_workers s' = sq_workers s → placed s'.
Proof.
  intros P W Ep El Ec En Ed Eh Et Ef Ew. pose proof P as P0. destruct P.
  assert (Fl : flying s = d :: flying s').
  { unfold flying, parked_of. rewrite Ep, El, Eh, Ew, Ef. done. }
  assert (Sq : d_seq d = ls_next_ack (sq_lander s)).
  { destruct pl_parked0 as [_ Fp]. rewrite Ep, Forall_cons in Fp. by destruct Fp as [[] _]. }
  assert (O1 : 0 < ls_outstanding (sq_lander s)).
  { rewrite <-(zlen_flying s P0), Fl, zlen_cons. pose proof (zlen_nonneg (flying s')). lia. }
  split; rewrite ?El, ?Ec, ?En, ?Ed, ?Eh, ?Et, ?Ef, ?Ew; cbn; try done; try lia.
  - rewrite Fl, seqZ_cons, fmap_cons, Sq in pl_flying0 by lia. apply Permutation_cons_inv in pl_flying0.
    by rewrite <-Z.sub_1_r, <-Z.add_1_r in pl_flying0.
  - eapply Forall_impl; [exact pl_admit0|]. cbn. lia.
  - rewrite Ep in pl_parked0. destruct pl_parked0 as [Wf Fp]. apply Forall_cons in Fp as [_ Fp]. split; [by eapply bt_wf_tail|done].
  - unfold lander_free. rewrite Ew, W, existsb_app. cbn. by rewrite orb_true_r.
Qed.
Lemma placed_leave s i l1 l2 :
  placed s → sq_workers s = l1 ++ WResolve :: l2 → length l1 = i → lander_turn s = None → placed (set_worker i WIdle s).
Proof.
  intros P W L T%lander_turn_none. pose proof P as P0. destruct P. split; cbn; try done.
  - etransitivity; [|exact pl_flying0]. rewrite (flying_split s _ _ _ W).
    by rewrite (flying_split _ l1 l2 WIdle) by (cbn; by rewrite W, insert_split).
  - rewrite W, insert_split by done. rewrite <-pl_workers0, W. apply zlen_split.
  - intros d' o. rewrite W, insert_split by done. intros [E1|E1]%(worker_elem _ _ _ _ WResolve); [done|].
    apply (pl_outcomes0 d'). by rewrite W.
  - intros _. destruct pl_parked0 as [Wf Fp]. destruct (ls_parked (sq_lander s)) as [|e m] eqn:Ep; [set_solver|].
    rewrite fmap_cons. apply not_elem_of_cons. split; [done|]. intros (e' & E' & He')%list_elem_of_fmap.
    destruct Wf as [Lt _]. specialize (Lt e' He'). rewrite Forall_cons in Fp. destruct Fp as [[Ek _] _].
    destruct (flying_range s e.2.1 P0) as [R _]; [unfold flying, parked_of; rewrite Ep; left|].
    rewrite <-E', Ek in Lt. unfold olt, oltb, ocmp, Z_ord in Lt. destruct (_ ?= _) eqn:C in Lt; [done| |done].
    rewrite Z.compare_lt_iff in C. lia.
  - rewrite W, insert_split by done. intros [E1|E1]%(worker_elem _ _ _ _ WResolve); [done|]. apply pl_gone0. by rewrite W.
Qed.
Lemma flying_admitting s : flying s = parked_of (sq_lander s) ++ working (sq_workers s) ++ sq_chan s ++ sending (sq_flusher s).
Proof. done. Qed.
(** The flusher moves on and the rest stays. *)
Lemma placed_flusher s s' f :
  placed s → sq_flusher s' = f → sq_config s' = sq_config s → sq_lander s' = sq_lander s → sq_chan s' = sq_chan s →
  sq_workers s' = sq_workers s → sq_tx s' = running f → (running f = true → sq_tx s = true) →
  sending f = sending (sq_flusher s) → Forall (λ d, d_seq d = ls_next_ack (sq_lander s) + ls_outstanding (sq_lander s)) (admitting f) →
  st_next_seq (sq_state s') = ls_next_ack (sq_lander s) + ls_outstanding (sq_lander s) + zlen (admitting f) →
  match f with FBuild _ seq prev => seq = st_next_seq (sq_state s') ∧ prev = st_prev_digest (sq_state s') | _ => True end →
  placed s'.
Proof.
  intros P <- Ec El Eh Ew Et Tx Es Ea En Eb. destruct P.
  split; rewrite ?flying_admitting in *; unfold lander_free in *; rewrite ?Ec, ?El, ?Eh, ?Ew, ?Et, ?Es; try done.
  intros G. destruct (pl_gone0 G) as [A B]. split; [|done]. destruct (running (sq_flusher s')); [|done]. specialize (Tx eq_refl). congruence.
Qed.
Lemma placed_turn s s' : placed s → turn s s' → placed s'.
Proof.
  intros P T. pose proof P as P0. destruct T as
    [s s' E1 E2 E3 E4 E5 E6 E7 E8 E9 E10 E11 E12 E13 E14 E15 E16 E17|s s' t frames A|s F B Sd|s b F B Po|s b F B Po
    |s b seq prev segment sums d F Bw L Ed|s b seq prev F|s d F Lf Lo|s d s' F Al|s d F|s F O
    |s i l1 l2 d c W L C|s i l1 l2 W L C Tx|s i l1 l2 d W L|s i l1 l2 d o W L No|s i l1 l2 d o W L Lf
    |s i l1 l2 s' W L T|s i l1 l2 W L T].
  - destruct P. split; rewrite ?flying_admitting in *; unfold lander_free in *; rewrite ?E2, ?E5, ?E6, ?E9, ?E10, ?E11, ?E12, ?E13; done.
  - apply append_ok in A as (staged & lsn & _ & _ & _ & _ & _ & _ & _ & _ & ->). by destruct P.
  - apply (placed_flusher s _ FDrain P); cbn; try done; destruct P; rewrite F in *; done.
  - by destruct P.
  - apply (placed_flusher s _ (FBuild b (st_next_seq (sq_state s)) (st_prev_digest (sq_state s))) P); cbn; try done;
      destruct P; rewrite F in *; done.
  - destruct P. rewrite F in *. destruct pl_build0 as [E1 E2].
    apply (placed_flusher s _ (FAdmit d) P0); cbn; try done; rewrite ?F; try done.
    + apply Forall_singleton. subst d seq. cbn in *. rewrite zlen_nil in pl_next0. lia.
    + cbn in pl_next0. rewrite zlen_nil in pl_next0. change (zlen [d]) with 1. lia.
  - apply (placed_flusher s _ (FPanicked (b_tickets b)) P); cbn; try done; destruct P; rewrite F in *; done.
  - destruct P. rewrite F in *. cbn in *. rewrite Forall_singleton in pl_admit0. split; cbn; try done; try lia.
    + rewrite flying_admitting in *. rewrite F in pl_flying0. cbn in *. rewrite app_nil_r in pl_flying0.
      rewrite seqZ_snoc, !app_assoc, fmap_app by lia.
      rewrite app_assoc in pl_flying0. rewrite pl_flying0. cbn. by rewrite pl_admit0.
    + change (zlen [d]) with 1 in pl_next0. rewrite zlen_nil. lia.
  - pose proof (sender_has_workers s d P F). congruence.
  - destruct P. rewrite F in *. cbn in *. split; cbn; try done.
    + rewrite flying_admitting in *. rewrite F in pl_flying0. cbn in *. by rewrite app_nil_r.
    + intros G. destruct (pl_gone0 G). congruence.
  - apply (placed_flusher s _ FDone P); cbn; try done; destruct P; rewrite F in *; done.
  - pose proof (flying_split s _ _ _ W) as Fl. destruct P. split; cbn; try done.
    + etransitivity; [|exact pl_flying0]. rewrite Fl.
      rewrite (flying_split _ l1 l2 (WPut d)) by (cbn; by rewrite W, insert_split). apply fmap_Permutation.
      unfold others. cbn. rewrite C. rewrite !app_assoc, <-Permutation_middle. done.
    + rewrite W, insert_split by done. rewrite <-pl_workers0, W. apply zlen_split.
    + intros d' o. rewrite W, insert_split by done. intros [E1|E1]%(worker_elem _ _ _ _ WIdle); [done|].
      apply (pl_outcomes0 d'). by rewrite W.
    + unfold lander_free in *. cbn. rewrite W, insert_split by done. intros Fr. apply pl_quiet0. rewrite W. by eapply free_split.
    + rewrite W, insert_split by done. intros [E1|E1]%(worker_elem _ _ _ _ WIdle); [done|].
      destruct pl_gone0 as [_ G]; [by rewrite W|]. congruence.
  - by apply (placed_worker s _ i l1 l2 WIdle WGone P W L).
  - by apply (placed_worker s _ i l1 l2 (WPut d) (WPanicked d) P W L).
  - assert (P1 : placed (log_put d o s)) by by destruct P.
    apply (placed_worker (log_put d o s) _ i l1 l2 (WPut d) (WPark d o) P1 W L); try done. congruence.
  - by eapply placed_park.
  - apply lander_turn_some in T as (d & o & parked & Ep & ->). cbv zeta.
    destruct (ls_failed _); [|destruct o; [..|exact P]];
      (eapply (placed_resolve s _ l1 l2 d _ parked _ P W Ep); cbn; reflexivity).
  - by eapply placed_leave.
Qed.
End placed.

(** ** Every ticket waits in one place *)
Section tickets.
Context `{Crc, Lz4}.

(** What a step does to the tickets. *)
Inductive ticket_change (s s' : Seqr) : Prop :=
  | tc_same : pending s' ≡ₚ pending s → sq_tickets s' = sq_tickets s → sq_appended s' = sq_appended s → ticket_change s s'
  | tc_append lsn frames :
      pending s' ≡ₚ (length (sq_tickets s), lsn) :: pending s → sq_tickets s' = sq_tickets s ++ [None] →
      sq_appended s' = sq_appended s ++ [frames] → ticket_change s s'
  | tc_fail g r :
      pending s ≡ₚ g ++ pending s' → sq_tickets s' = resolve_all g r (sq_tickets s) → sq_appended s' = sq_appended s →
      (∀ lsn, ∃ e, r lsn = Err e) → ticket_change s s'
  | tc_ack d u parked :
      pending s ≡ₚ d_tickets d ++ pending s' → sq_tickets s' = resolve_all (d_tickets d) Ok (sq_tickets s) →
      sq_appended s' = sq_appended s → ls_parked (sq_lander s) = (ls_next_ack (sq_lander s), (d, Ok u)) :: parked →
      ls_failed (sq_lander s) = false → ticket_change s s'.

Lemma pending_by s s' :
  st_batch (sq_state s') = st_batch (sq_state s) → held_tickets (sq_flusher s') = held_tickets (sq_flusher s) →
  admitting (sq_flusher s') ++ flying s' ≡ₚ admitting (sq_flusher s) ++ flying s → pending s' ≡ₚ pending s.
Proof. intros E1 E2 E3. unfold pending. by rewrite E1, E2, E3. Qed.
Lemma pending_worker s s' l1 l2 w x :
  sq_workers s = l1 ++ w :: l2 → sq_workers s' = l1 ++ x :: l2 → worker_dispatch x ++ parked_of (sq_lander s') ++ sq_chan s' ≡ₚ
    worker_dispatch w ++ parked_of (sq_lander s) ++ sq_chan s →
  sq_state s' = sq_state s → sq_flusher s' = sq_flusher s → pending s' ≡ₚ pending s.
Proof.
  intros W W' E Es Ef. apply pending_by; [by rewrite Es|by rewrite Ef|]. rewrite Ef.
  rewrite (flying_split s' _ _ _ W'), (flying_split s _ _ _ W). unfold others. rewrite Ef. f_equiv.
  assert (A : ∀ x p a b c f : list Dispatch, x ++ p ++ a ++ b ++ c ++ f ≡ₚ (x ++ p ++ c) ++ a ++ b ++ f).
  { intros. rewrite <-!app_assoc. do 2 f_equiv. rewrite (Permutation_app_swap_app c a), (Permutation_app_swap_app c b). done. }
  by rewrite !A, E.
Qed.
Lemma pending_cons s s' d o parked :
  ls_parked (sq_lander s) = (ls_next_ack (sq_lander s), (d, o)) :: parked → ls_parked (sq_lander s') = parked →
  st_batch (sq_state s') = st_batch (sq_state s) → sq_flusher s' = sq_flusher s → sq_workers s' = sq_workers s →
  sq_chan s' = sq_chan s → pending s ≡ₚ d_tickets d ++ pending s'.
Proof.
  intros Ep Ep' Eb Ef Ew Ec. unfold pending. rewrite !flying_admitting. unfold parked_of. rewrite Ep, Ep', Eb, Ef, Ew, Ec.
  rewrite fmap_cons. cbn [fst snd app]. rewrite <-Permutation_middle. rewrite bind_cons.
  by rewrite (Permutation_app_swap_app _ (d_tickets d)), (Permutation_app_swap_app _ (d_tickets d)).
Qed.
Lemma turn_tickets s s' : placed s → turn s s' → ticket_change s s'.
Proof.
  intros P T. destruct T as
    [s s' E1 E2 E3 E4 E5 E6 E7 E8 E9 E10 E11 E12 E13 E14 E15 E16 E17|s s' t frames A|s F B Sd|s b F B Po|s b F B Po
    |s b seq prev segment sums d F Bw L Ed|s b seq prev F|s d F Lf Lo|s d s' F Al|s d F|s F O
    |s i l1 l2 d c W L C|s i l1 l2 W L C Tx|s i l1 l2 d W L|s i l1 l2 d o W L No|s i l1 l2 d o W L Lf
    |s i l1 l2 s' W L T|s i l1 l2 W L T].
  - apply tc_same; [|done|done]. unfold pending. rewrite !flying_admitting. by rewrite E3, E9, E10, E12, E13.
  - apply append_ok in A as (staged & lsn & _ & _ & _ & _ & _ & _ & _ & -> & ->).
    apply (tc_append _ _ lsn frames); [|done|done]. unfold pending. cbn. rewrite !flying_admitting. cbn.
    destruct (st_batch (sq_state s)) as [b|]; cbn; [|done]. rewrite <-app_assoc. cbn. symmetry. apply Permutation_middle.
  - apply tc_same; [|done|done]. unfold pending. rewrite !flying_admitting. cbn. by rewrite F.
  - apply (tc_fail _ _ (b_tickets b) (λ _, Err Poisoned)); [|done|done|eauto]. unfold pending. rewrite !flying_admitting. cbn.
    by rewrite F, B.
  - apply tc_same; [|done|done]. unfold pending. rewrite !flying_admitting. cbn. by rewrite F, B.
  - apply tc_same; [|done|done]. unfold pending. rewrite !flying_admitting. cbn. rewrite F. subst d. cbn.
    done.
  - apply tc_same; [|done|done]. unfold pending. rewrite !flying_admitting. cbn. by rewrite F.
  - apply tc_same; [|done|done]. apply pending_by; cbn; [done|by rewrite F|]. rewrite !flying_admitting. cbn. rewrite F. cbn.
    rewrite app_nil_r, !app_assoc. by rewrite <-Permutation_cons_append.
  - pose proof (sender_has_workers s d P F). congruence.
  - apply tc_same; [|done|done]. apply pending_by; cbn; [done|by rewrite F|]. rewrite !flying_admitting. cbn. rewrite F. cbn.
    by rewrite app_nil_r.
  - apply tc_same; [|done|done]. unfold pending. rewrite !flying_admitting. cbn. by rewrite F.
  - apply tc_same; [|done|done]. eapply (pending_worker s _ l1 l2 _ (WPut d) W); cbn; [by rewrite W, insert_split| |done|done].
    rewrite C. by rewrite Permutation_middle.
  - apply tc_same; [|done|done]. eapply (pending_worker s _ l1 l2 _ WGone W); cbn; [by rewrite W, insert_split|done..].
  - apply tc_same; [|done|done]. eapply (pending_worker s _ l1 l2 _ (WPanicked d) W); cbn; [by rewrite W, insert_split|done..].
  - apply tc_same; [|done|done]. eapply (pending_worker s _ l1 l2 _ (WPark d o) W); cbn; [by rewrite W, insert_split|done..].
  - apply tc_same; [|done|done]. eapply (pending_worker s _ l1 l2 _ WResolve W); cbn; [by rewrite W, insert_split| |done|done].
    unfold parked_of. cbn. by rewrite (bt_insert_perm _ (d, o) _ (park_fresh s l1 l2 d o P W)).
  - apply lander_turn_some in T as (d & o & parked & Ep & ->). cbv zeta.
    destruct (ls_failed (sq_lander s)) eqn:Fa; [|destruct o as [u|e|]; [| |by apply tc_same]].
    + eapply (tc_fail _ _ (d_tickets d) (λ _, Err Poisoned)); [|done|done|eauto]. by apply (pending_cons s _ d _ parked Ep).
    + eapply (tc_ack _ _ d u parked); [|done|done|done|done]. by apply (pending_cons s _ d _ parked Ep).
    + eapply (tc_fail _ _ (d_tickets d) (λ _, Err (StoreFailed e))); [|done|done|eauto]. by apply (pending_cons s _ d _ parked Ep).
  - apply tc_same; [|done|done]. eapply (pending_worker s _ l1 l2 _ WIdle W); cbn; [by rewrite W, insert_split|done..].
Qed.

Lemma resolve_all_length g r ts : length (resolve_all g r ts) = length ts.
Proof. unfold resolve_all. revert ts. induction g as [|t g IH]; intros ts; cbn; [done|]. by rewrite IH, length_insert. Qed.
Lemma resolve_all_other g r ts t : t ∉ g.*1 → resolve_all g r ts !! t = ts !! t.
Proof.
  unfold resolve_all. revert ts. induction g as [|x g IH]; intros ts N; cbn; [done|].
  rewrite fmap_cons in N. apply not_elem_of_cons in N as [N1 N2]. by rewrite IH, list_lookup_insert_ne.
Qed.
Lemma resolve_all_in g r ts t lsn :
  NoDup g.*1 → (t, lsn) ∈ g → is_Some (ts !! t) → resolve_all g r ts !! t = Some (Some (r lsn)).
Proof.
  unfold resolve_all. revert ts. induction g as [|x g IH]; intros ts N; [set_solver|]. rewrite fmap_cons in N.
  apply NoDup_cons in N as [N1 N2]. intros [<- |Hg]%elem_of_cons Hs; cbn.
  - fold (resolve_all g r (<[t := Some (r lsn)]> ts)). rewrite resolve_all_other by done.
    apply list_lookup_insert_eq. by apply lookup_lt_is_Some.
  - apply IH; [done|done|]. apply lookup_lt_is_Some. rewrite length_insert. by apply lookup_lt_is_Some.
Qed.

Record ticketed (s : Seqr) : Prop := {
  tk_nodup : NoDup (pending s).*1;
  tk_pending : ∀ t, t ∈ (pending s).*1 ↔ sq_tickets s !! t = Some None;
  tk_len : length (sq_appended s) = length (sq_tickets s)
}.
Lemma ticketed_resolve s s' g r :
  ticketed s → pending s ≡ₚ g ++ pending s' → sq_tickets s' = resolve_all g r (sq_tickets s) →
  sq_appended s' = sq_appended s → ticketed s'.
Proof.
  intros [N I L] Pe Et Ea. assert (N' : NoDup (g.*1 ++ (pending s').*1)) by by rewrite <-fmap_app, <-Pe.
  apply NoDup_app in N' as (Ng & D & Np). split; [done| |by rewrite Ea, Et, resolve_all_length].
  intros t. rewrite Et. assert (Iff : t ∈ (pending s).*1 ↔ t ∈ g.*1 ∨ t ∈ (pending s').*1) by by rewrite Pe, fmap_app, elem_of_app.
  destruct (decide (t ∈ g.*1)) as [Hg|Hg].
  - split; [intros Hp; by apply (D t Hg) in Hp|]. pose proof Hg as ([t' lsn] & -> & Hl)%list_elem_of_fmap. cbn.
    rewrite (resolve_all_in g r _ t' lsn); [done|done|done|]. exists None. apply I, Iff. by left.
  - rewrite resolve_all_other, <-I, Iff by done. tauto.
Qed.
Lemma ticketed_step s s' : ticketed s → ticket_change s s' → ticketed s'.
Proof.
  intros T C. destruct C as [Pe Et Ea|lsn frames Pe Et Ea|g r Pe Et Ea _|d u parked Pe Et Ea _ _].
  - destruct T as [N I L]. split; [by rewrite Pe|intros t; rewrite Pe, Et; apply I|by rewrite Et, Ea].
  - destruct T as [N I L]. assert (F : length (sq_tickets s) ∉ (pending s).*1).
    { rewrite I. intros E%lookup_lt_Some. lia. }
    split; [rewrite Pe; by apply NoDup_cons| |rewrite Et, Ea, !length_app, L; done].
    intros t. rewrite Pe, Et, fmap_cons, elem_of_cons, I. cbn. split.
    + intros [-> |E]; [by rewrite lookup_app_r, Nat.sub_diag by lia|]. by apply lookup_app_l_Some.
    + intros [E|[Le E]]%lookup_app_Some; [by right|]. apply list_lookup_singleton_Some in E as [E _].
      left. cbn in *. lia.
  - by eapply ticketed_resolve.
  - by eapply ticketed_resolve.
Qed.
(** A result, once there, stays. *)
Lemma results_stay s s' t r :
  ticketed s → ticket_change s s' → sq_tickets s !! t = Some (Some r) → sq_tickets s' !! t = Some (Some r).
Proof.
  intros T C E. assert (Np : ∀ g p, pending s ≡ₚ g ++ p → t ∉ g.*1).
  { intros g p Pe Hg. assert (Hp : t ∈ (pending s).*1) by (rewrite Pe, fmap_app; set_solver).
    apply (tk_pending s T) in Hp. congruence. }
  destruct C as [Pe Et Ea|lsn frames Pe Et Ea|g r' Pe Et Ea _|d u parked Pe Et Ea _ _]; rewrite Et; [done| |..].
  - by apply lookup_app_l_Some.
  - by rewrite resolve_all_other by (by eapply Np).
  - by rewrite resolve_all_other by (by eapply Np).
Qed.
End tickets.
