(* ===== verification/SequencerChain.v ===== *)
(** * SequencerChain: what the sequencer has written

    The windows built form a chain of linked segments, an acknowledged
    window has its whole prefix landed, and every window holds the frames
    of its tickets, in the order they were admitted. *)
From S2P Require Import Prelude Order Lsn Externals Frame Segment Cas Media MediaProofs Chain ChainHead ChainProofs Backpressure Tee Sequencer SequencerProofs.
From Stdlib Require Import Permutation.

Section history.
Context `{Crc, Lz4}.

(** Windows built one on the other, from a position and a digest to the
    next ones. *)
Inductive chained (shard : Z) : Z → Z → list (list (Frame2 * bytes) * Dispatch) → Z → Z → Prop :=
  | chained_nil seq prev : chained shard seq prev [] seq prev
  | chained_snoc seq prev l seq' prev' its d sums :
      chained shard seq prev l seq' prev' → build_window (E := ()) shard its seq' prev' = Ok (d_segment d, sums) →
      d_seq d = seq' → seq' + 1 ≤ u64_max → chained shard seq prev (l ++ [(its, d)]) (seq' + 1) (tenants_digest sums).
Definition landed (s : Seqr) (d : Dispatch) : Prop := (d_seq d, d_segment d, Ok ()) ∈ sq_puts s.
Definition windows (s : Seqr) : list Dispatch := (sq_built s).*2.

Record recorded (start prev : Z) (s : Seqr) : Prop := {
  rc_chain : chained (sq_shard s) start prev (sq_built s) (st_next_seq (sq_state s)) (st_prev_digest (sq_state s));
  rc_known : ∀ d, d ∈ admitting (sq_flusher s) ++ flying s → d ∈ windows s;
  rc_parked : ∀ seq d, (seq, (d, Ok ())) ∈ ls_parked (sq_lander s) → landed s d;
  rc_working : ∀ d, WPark d (Ok ()) ∈ sq_workers s → landed s d;
  rc_poison : st_poisoned (sq_state s) = ls_failed (sq_lander s);
  rc_prefix : ls_failed (sq_lander s) = false →
    ∀ d, d ∈ windows s → d_seq d < ls_next_ack (sq_lander s) → landed s d;
  rc_acked : ∀ t lsn, sq_tickets s !! t = Some (Some (Ok lsn)) →
    ∃ d, d ∈ windows s ∧ (t, lsn) ∈ d_tickets d ∧ ∀ d', d' ∈ windows s → d_seq d' ≤ d_seq d → landed s d'
}.

Lemma chained_range shard seq prev l seq' prev' :
  chained shard seq prev l seq' prev' → seq ≤ seq' ∧ ∀ d, d ∈ l.*2 → seq ≤ d_seq d < seq'.
Proof.
  induction 1 as [|seq prev l seq' prev' its d sums C [IH1 IH2] B E L]; [split; [lia|set_solver]|].
  split; [lia|]. intros d'. rewrite fmap_app, elem_of_app. intros [Hd|Hd]; [apply IH2 in Hd; lia|].
  apply list_elem_of_singleton in Hd as ->. cbn. lia.
Qed.
Lemma chained_unique shard seq prev l seq' prev' i j its its' d d' :
  chained shard seq prev l seq' prev' → l !! i = Some (its, d) → l !! j = Some (its', d') → d_seq d = d_seq d' → i = j.
Proof.
  intros C. assert (A : ∀ i its d, l !! i = Some (its, d) → d_seq d = seq + Z.of_nat i); [|intros Hi%A Hj%A; lia].
  assert (Ln : seq' = seq + zlen l).
  { clear i j its its' d d'. induction C; [rewrite zlen_nil; lia|]. rewrite zlen_app. change (zlen [_]) with 1. lia. }
  clear -C. induction C as [|seq prev l seq' prev' its0 d0 sums C IH B E L]; intros i its d; [done|].
  assert (Ln : seq' = seq + zlen l).
  { clear -C. induction C; [rewrite zlen_nil; lia|]. rewrite zlen_app. change (zlen [_]) with 1. lia. }
  intros [Hi|[Le Hi]]%lookup_app_Some; [by eapply IH|]. apply list_lookup_singleton_Some in Hi as [Hi [= <- <-]].
  unfold zlen in Ln. lia.
Qed.

(** Everything recorded, when only what nobody looks at changes. *)
Lemma recorded_by start prev s s' :
  recorded start prev s → sq_shard s' = sq_shard s → sq_built s' = sq_built s →
  st_next_seq (sq_state s') = st_next_seq (sq_state s) → st_prev_digest (sq_state s') = st_prev_digest (sq_state s) →
  st_poisoned (sq_state s') = st_poisoned (sq_state s) → ls_failed (sq_lander s') = ls_failed (sq_lander s) →
  ls_next_ack (sq_lander s') = ls_next_ack (sq_lander s) →
  (∀ d, d ∈ admitting (sq_flusher s') ++ flying s' → d ∈ admitting (sq_flusher s) ++ flying s) →
  (∀ seq d, (seq, (d, Ok ())) ∈ ls_parked (sq_lander s') → landed s' d) →
  (∀ d, WPark d (Ok ()) ∈ sq_workers s' → landed s' d) →
  (∀ x, x ∈ sq_puts s → x ∈ sq_puts s') →
  (∀ t lsn, sq_tickets s' !! t = Some (Some (Ok lsn)) → sq_tickets s !! t = Some (Some (Ok lsn))) →
  recorded start prev s'.
Proof.
  intros [] E1 E2 E3 E4 E5 E6 E7 E8 E9 E10 E11 E12. assert (Ld : ∀ d, landed s d → landed s' d) by (intros d; apply E11).
  split; unfold windows in *; rewrite ?E1, ?E2, ?E3, ?E4, ?E5, ?E6, ?E7; auto.
  intros t lsn Et. destruct (rc_acked0 t lsn (E12 _ _ Et)) as (d & A & B & C). eauto 10.
Qed.
(** A failing resolution makes no acknowledgement. *)
Lemma resolve_all_ok g r ts t lsn :
  (∀ l, ∃ e, r l = Err e) → resolve_all g r ts !! t = Some (Some (Ok lsn)) → ts !! t = Some (Some (Ok lsn)).
Proof.
  intros R. unfold resolve_all. revert ts. induction g as [|x g IH]; intros ts; cbn; [done|].
  intros E%IH. apply list_lookup_insert_Some in E as [(_ & E & _)|[_ E]]; [|done]. destruct (R x.2). congruence.
Qed.
Lemma resolve_all_only g r ts t x : resolve_all g r ts !! t = Some x → ts !! t = Some x ∨ ∃ lsn, (t, lsn) ∈ g ∧ x = Some (r lsn).
Proof.
  unfold resolve_all. revert ts. induction g as [|y g IH]; intros ts; cbn; [by left|].
  intros [E|(lsn & Hg & E)]%IH; [|right; exists lsn; split; [by right|done]].
  apply list_lookup_insert_Some in E as [(<- & <- & _)|[_ E]]; [|by left]. right. exists y.2. split; [destruct y; left|done].
Qed.
Lemma windows_flying s d : d ∈ flying s → d ∈ admitting (sq_flusher s) ++ flying s.
Proof. rewrite elem_of_app. tauto. Qed.
Lemma same_window start prev s d d' :
  recorded start prev s → d ∈ windows s → d' ∈ windows s → d_seq d = d_seq d' → d = d'.
Proof.
  intros R (x & -> & [i Hi]%list_elem_of_lookup_1)%list_elem_of_fmap (y & -> & [j Hj]%list_elem_of_lookup_1)%list_elem_of_fmap E.
  destruct x as [its d], y as [its' d']. cbn in *.
  pose proof (chained_unique _ _ _ _ _ _ i j its its' d d' (rc_chain _ _ _ R) Hi Hj E) as ->. congruence.
Qed.
Lemma flying_worker s s' l1 l2 w x d :
  sq_workers s = l1 ++ w :: l2 → sq_workers s' = l1 ++ x :: l2 → sq_flusher s' = sq_flusher s →
  (∀ d, d ∈ worker_dispatch x ++ parked_of (sq_lander s') ++ sq_chan s' → d ∈ worker_dispatch w ++ parked_of (sq_lander s) ++ sq_chan s) →
  d ∈ admitting (sq_flusher s') ++ flying s' → d ∈ admitting (sq_flusher s) ++ flying s.
Proof.
  intros W W' Ef E. rewrite Ef, (flying_split s' _ _ _ W'), (flying_split s _ _ _ W). unfold others. rewrite Ef.
  specialize (E d). revert E. rewrite !elem_of_app. tauto.
Qed.
Lemma parked_elem d o k (l : LanderState) : (k, (d, o)) ∈ ls_parked l → d ∈ parked_of l.
Proof. intros He. by apply (list_elem_of_fmap_2 (λ e, e.2.1) _ (k, (d, o))). Qed.

(** One more window. *)
Lemma recorded_build start prev s b seq pd segment sums d f :
  placed s → recorded start prev s → sq_flusher s = FBuild b seq pd →
  build_window (E := ()) (sq_shard s) (b_frames b) seq pd = Ok (segment, sums) → seq + 1 ≤ u64_max →
  d = mkDispatch seq segment f (b_tickets b) →
  recorded start prev (mkSeqr (sq_shard s) (sq_config s) (sq_now s)
    (mkSeqState (st_batch (sq_state s)) (st_epochs (sq_state s)) (seq + 1) (tenants_digest sums) (st_poisoned (sq_state s))
       (st_shutdown (sq_state s)))
    (sq_lander s) (sq_chan s) (sq_tx s) (FAdmit d) (sq_workers s) (sq_tickets s) (sq_gate s) (sq_tee s) (sq_appended s)
    (sq_built s ++ [(b_frames b, d)]) (sq_puts s)).
Proof.
  intros P [] F Bw L ->. pose proof (pl_build s P) as Pb. rewrite F in Pb. destruct Pb as [-> ->].
  pose proof (pl_next s P) as Pn. rewrite F in Pn. cbn in Pn. rewrite zlen_nil in Pn. pose proof (pl_out s P).
  split; cbn; try done.
  - by eapply chained_snoc.
  - intros x. unfold windows. cbn. rewrite fmap_app, elem_of_app, elem_of_cons. cbn.
    intros [-> |Hx]; [right; set_solver|]. left. apply rc_known0. rewrite F. cbn. rewrite flying_admitting in *. cbn in *. by rewrite F.
  - intros Nf x. unfold windows. cbn. rewrite fmap_app, elem_of_app. intros [Hx|Hx]; [by apply rc_prefix0|].
    apply list_elem_of_singleton in Hx as ->. cbn. lia.
  - intros t lsn Et. destruct (rc_acked0 t lsn Et) as (x & Hx & Ht & A). exists x. unfold windows. cbn.
    rewrite fmap_app. split_and!; [set_solver|done|]. intros x'. rewrite elem_of_app. intros [Hx'|Hx']; [by apply A|].
    apply list_elem_of_singleton in Hx' as ->. cbn. apply (proj2 (chained_range _ _ _ _ _ _ rc_chain0)) in Hx. lia.
Qed.
(** The next window in chain order is resolved. *)
Lemma recorded_ack start prev s s' d parked :
  placed s → recorded start prev s → ls_parked (sq_lander s) = (ls_next_ack (sq_lander s), (d, Ok ())) :: parked →
  ls_failed (sq_lander s) = false →
  s' = set_lander (λ l, mkLander (ls_next_ack l + 1) parked false (ls_outstanding l - 1))
         (set_tee (fmap (λ tee, publish tee (ls_next_ack (sq_lander s)) (d_frames d)))
            (set_tickets (resolve_all (d_tickets d) Ok) s)) →
  recorded start prev s'.
Proof.
  intros P R Ep Nf ->. pose proof R as R0. destruct R.
  assert (Sq : d_seq d = ls_next_ack (sq_lander s)).
  { destruct (pl_parked s P) as [_ Fp]. rewrite Ep, Forall_cons in Fp. by destruct Fp as [[] _]. }
  assert (Kd : d ∈ windows s).
  { apply rc_known0, windows_flying. rewrite flying_admitting. apply elem_of_app. left. unfold parked_of. rewrite Ep. left. }
  assert (Ld : landed s d) by (apply (rc_parked0 (ls_next_ack (sq_lander s))); rewrite Ep; left).
  assert (Pre : ∀ x, x ∈ windows s → d_seq x ≤ d_seq d → landed s x).
  { intros x Hx Le. destruct (decide (d_seq x = d_seq d)) as [E|]; [by rewrite (same_window _ _ _ _ _ R0 Hx Kd E)|].
    apply rc_prefix0; [done|done|lia]. }
  split; cbn; try done.
  - intros x Hx. apply rc_known0. revert Hx. rewrite flying_admitting. cbn. rewrite flying_admitting. unfold parked_of. cbn. rewrite Ep.
    set_solver.
  - intros seq x Hx. apply (rc_parked0 seq). rewrite Ep. by right.
  - by rewrite rc_poison0.
  - intros _ x Hx Lx. apply Pre; [done|lia].
  - intros t lsn [Et|(l & Hl & [= <-])]%resolve_all_only; [by apply rc_acked0|]. by exists d.
Qed.
(** Everything recorded so far. *)
Lemma recorded_failed start prev s s' parked failed :
  recorded start prev s → ls_parked (sq_lander s) = parked →
  sq_lander s' = mkLander (ls_next_ack (sq_lander s) + 1) (tail parked) true failed → st_poisoned (sq_state s') = true →
  sq_shard s' = sq_shard s → sq_built s' = sq_built s →
  st_next_seq (sq_state s') = st_next_seq (sq_state s) → st_prev_digest (sq_state s') = st_prev_digest (sq_state s) →
  sq_flusher s' = sq_flusher s → sq_workers s' = sq_workers s → sq_chan s' = sq_chan s → sq_puts s' = sq_puts s →
  (∀ t lsn, sq_tickets s' !! t = Some (Some (Ok lsn)) → sq_tickets s !! t = Some (Some (Ok lsn))) →
  recorded start prev s'.
Proof.
  intros [] Ep El Epo Es Eb En Ed Ef Ew Ec Eu Et. assert (Tl : ∀ x, x ∈ tail parked → x ∈ parked) by (destruct parked; set_solver).
  assert (Ld : ∀ d, landed s d → landed s' d) by (intros d; unfold landed; by rewrite Eu).
  split; unfold windows in *; rewrite ?Es, ?Eb, ?En, ?Ed, ?El, ?Epo, ?Ef, ?Ew, ?Ec; cbn; auto.
  - intros d Hd. apply rc_known0. revert Hd. rewrite !flying_admitting. unfold parked_of. rewrite El, Ef, Ew, Ec, Ep. cbn.
    rewrite !elem_of_app. intros [Hd|[Hd|Hd]]; [tauto| |tauto]. right. left.
    apply list_elem_of_fmap in Hd as (e & -> & He). apply (list_elem_of_fmap_2 (λ e, e.2.1)). auto.
  - intros seq d Hd. rewrite Ep in rc_parked0. eauto.
  - done.
  - intros t lsn Hr. destruct (rc_acked0 t lsn (Et _ _ Hr)) as (d & A & B & C). eauto 10.
Qed.
Lemma recorded_worker start prev s s' l1 l2 w x :
  recorded start prev s → sq_workers s = l1 ++ w :: l2 → sq_workers s' = l1 ++ x :: l2 →
  (∀ d, x = WPark d (Ok ()) → landed s' d) →
  (∀ d, d ∈ worker_dispatch x ++ parked_of (sq_lander s') ++ sq_chan s' → d ∈ worker_dispatch w ++ parked_of (sq_lander s) ++ sq_chan s) →
  (∀ seq d, (seq, (d, Ok ())) ∈ ls_parked (sq_lander s') → landed s' d) →
  (∀ y, y ∈ sq_puts s → y ∈ sq_puts s') →
  sq_shard s' = sq_shard s → sq_built s' = sq_built s → sq_state s' = sq_state s → sq_flusher s' = sq_flusher s →
  ls_failed (sq_lander s') = ls_failed (sq_lander s) → ls_next_ack (sq_lander s') = ls_next_ack (sq_lander s) →
  sq_tickets s' = sq_tickets s → recorded start prev s'.
Proof.
  intros R W W' Lx E Pk Pu Es Eb Est Ef Efa En Et.
  apply (recorded_by start prev s s' R); rewrite ?Est, ?Et; try done.
  - intros d. by apply (flying_worker s s' l1 l2 w x d).
  - intros d. rewrite W'. intros [Hd|Hd]%(worker_elem _ _ _ _ w); [by apply Lx|].
    apply Pu. apply (rc_working _ _ _ R). by rewrite W.
Qed.
Lemma recorded_turn start prev s s' : placed s → recorded start prev s → turn s s' → recorded start prev s'.
Proof.
  intros P R T. destruct T as
    [s s' E1 E2 E3 E4 E5 E6 E7 E8 E9 E10 E11 E12 E13 E14 E15 E16 E17|s s' t frames A|s F B Sd|s b F B Po|s b F B Po
    |s b seq pd segment sums d F Bw L Ed|s b seq pd F|s d F Lf Lo|s d s' F Al|s d F|s F O
    |s i l1 l2 d c W L C|s i l1 l2 W L C Tx|s i l1 l2 d W L|s i l1 l2 d o W L No|s i l1 l2 d o W L Lf
    |s i l1 l2 s' W L T|s i l1 l2 W L T].
  - apply (recorded_by start prev s s' R); try done; rewrite ?E9, ?E13, ?E14; try done.
    + intros d. rewrite !flying_admitting, E9, E10, E12, E13. done.
    + intros seq d Hd. unfold landed. rewrite E17. by apply (rc_parked _ _ _ R) in Hd.
    + intros d Hd. unfold landed. rewrite E17. by apply (rc_working _ _ _ R) in Hd.
    + by rewrite E17.
  - apply append_ok in A as (staged & lsn & _ & _ & _ & _ & _ & _ & _ & -> & ->).
    apply (recorded_by start prev s _ R); try done; cbn; [apply R..|].
    intros t l [Et|[_ Et]]%lookup_app_Some; [done|]. by apply list_lookup_singleton_Some in Et as [_ ?].
  - apply (recorded_by start prev s _ R); try done; cbn; [|apply R..]. intros d. rewrite !flying_admitting. cbn. by rewrite F.
  - apply (recorded_by start prev s _ R); try done; cbn; [apply R..|]. intros t l. apply resolve_all_ok. eauto.
  - apply (recorded_by start prev s _ R); try done; cbn; [|apply R..]. intros d. rewrite !flying_admitting. cbn. by rewrite F.
  - by eapply recorded_build.
  - apply (recorded_by start prev s _ R); try done; cbn; [|apply R..]. intros d. rewrite !flying_admitting. cbn. by rewrite F.
  - apply (recorded_by start prev s _ R); try done; cbn; [|apply R..]. intros x. rewrite !flying_admitting. cbn. rewrite F. cbn. set_solver.
  - pose proof (sender_has_workers s d P F). congruence.
  - apply (recorded_by start prev s _ R); try done; cbn; [|apply R..]. intros x. rewrite !flying_admitting. cbn. rewrite F. cbn. set_solver.
  - apply (recorded_by start prev s _ R); try done; cbn; [|apply R..]. intros d. rewrite !flying_admitting. cbn. by rewrite F.
  - eapply (recorded_worker start prev s _ l1 l2 _ (WPut d) R W); cbn; try done; [by rewrite W, insert_split| |apply R].
    intros x. rewrite C. set_solver.
  - eapply (recorded_worker start prev s _ l1 l2 _ WGone R W); cbn; try done; [by rewrite W, insert_split|apply R].
  - eapply (recorded_worker start prev s _ l1 l2 _ (WPanicked d) R W); cbn; try done; [by rewrite W, insert_split|apply R].
  - assert (Pu : ∀ y, y ∈ sq_puts s → y ∈ sq_puts (set_worker i (WPark d o) (log_put d o s))) by (cbn; set_solver).
    eapply (recorded_worker start prev s _ l1 l2 _ (WPark d o) R W); cbn; try done.
    + by rewrite W, insert_split.
    + intros x [= -> ->]. unfold landed. cbn. set_solver.
    + intros seq x Hx. apply Pu. by apply (rc_parked _ _ _ R) in Hx.
  - eapply (recorded_worker start prev s _ l1 l2 _ WResolve R W); cbn; try done.
    + by rewrite W, insert_split.
    + intros x. unfold parked_of. cbn. rewrite (bt_insert_perm _ (d, o) _ (park_fresh s l1 l2 d o P W)). done.
    + intros seq x [[= -> -> <-]|Hx]%bt_insert_elem; [|by apply (rc_parked _ _ _ R) in Hx].
      apply (rc_working _ _ _ R). rewrite W. set_solver.
  - apply lander_turn_some in T as (d & o & parked & Ep & ->). cbv zeta.
    destruct (ls_failed (sq_lander s)) eqn:Fa; [|destruct o as [[]|e|]; [| |done]].
    + eapply (recorded_failed start prev s _ _ _ R Ep); try done; cbn; [|intros t l; apply resolve_all_ok; eauto].
      by rewrite (rc_poison _ _ _ R).
    + by eapply recorded_ack.
    + eapply (recorded_failed start prev s _ _ _ R Ep); try done. cbn. intros t l. apply resolve_all_ok. eauto.
  - eapply (recorded_worker start prev s _ l1 l2 _ WIdle R W); cbn; try done; [by rewrite W, insert_split|apply R].
Qed.
End history.

(** ** The frames *)
Section contents.
Context `{Crc, Lz4}.

(** The append of ticket [t] is whole among [its], acknowledged with [lsn]. *)
Definition holds (appended : list (list Frame2)) (its : list (Frame2 * bytes)) (tks : list (ticket * Lsn)) : Prop :=
  ∀ t lsn, (t, lsn) ∈ tks → ∃ frames a b, appended !! t = Some frames ∧ frames ≠ [] ∧ max_end_lsn frames = Some lsn ∧
    its.*1 = a ++ frames ++ b.
Definition built_items (s : Seqr) : list (Frame2 * bytes) := concat (sq_built s).*1.
Record contents (s : Seqr) : Prop := {
  ct_enc : Forall (λ i, encode (E := Frame2DecodeError) i.1 = Ok i.2)
    (built_items s ++ building (sq_flusher s) ++ batch_frames (st_batch (sq_state s)));
  ct_built : ∀ its d, (its, d) ∈ sq_built s → holds (sq_appended s) its (d_tickets d);
  ct_building : match sq_flusher s with FBuild b _ _ => holds (sq_appended s) (b_frames b) (b_tickets b) | _ => True end;
  ct_batch : holds (sq_appended s) (batch_frames (st_batch (sq_state s))) (batch_tickets (st_batch (sq_state s)));
  ct_order : st_poisoned (sq_state s) = false → running (sq_flusher s) = true →
    (built_items s ++ building (sq_flusher s) ++ batch_frames (st_batch (sq_state s))).*1 = concat (sq_appended s);
  ct_prefix : (built_items s ++ building (sq_flusher s)).*1 `prefix_of` concat (sq_appended s);
  ct_epochs : ∀ f, f ∈ concat (sq_appended s) → ∃ e, st_epochs (sq_state s) !! tenant f = Some e ∧ writer_epoch f ≤ e;
  ct_fenced : ∀ l1 fr l2, sq_appended s = l1 ++ fr :: l2 →
    ∀ f g, f ∈ concat l1 → g ∈ fr → tenant f = tenant g → writer_epoch f ≤ writer_epoch g
}.

Lemma contents_by s s' :
  contents s → sq_built s' = sq_built s → sq_appended s' = sq_appended s → st_batch (sq_state s') = st_batch (sq_state s) →
  st_epochs (sq_state s') = st_epochs (sq_state s) → (st_poisoned (sq_state s') = false → st_poisoned (sq_state s) = false) →
  (running (sq_flusher s') = true → running (sq_flusher s) = true) → building (sq_flusher s') = building (sq_flusher s) →
  match sq_flusher s' with FBuild b _ _ => holds (sq_appended s) (b_frames b) (b_tickets b) | _ => True end → contents s'.
Proof.
  intros [] E1 E2 E3 E4 E5 E6 E7 E8. unfold built_items in *.
  split; unfold built_items; rewrite ?E1, ?E2, ?E3, ?E4, ?E7; try done. auto.
Qed.
Lemma holds_nil appended its : holds appended its [].
Proof. intros t lsn Ht. set_solver. Qed.
Lemma holds_more appended frames its its' tks :
  holds appended its tks → holds (appended ++ [frames]) (its ++ its') tks.
Proof.
  intros Hd t lsn Ht. destruct (Hd t lsn Ht) as (fs & a & b & A & B & C & D). exists fs, a, (b ++ its'.*1).
  split_and!; [by apply lookup_app_l_Some|done|done|]. rewrite fmap_app, D. by rewrite <-!app_assoc.
Qed.
Lemma stage_encoded frames staged :
  mapM (stage_frame (E := AppendError)) frames = Ok staged →
  staged.*1 = frames ∧ Forall (λ i, encode (E := Frame2DecodeError) i.1 = Ok i.2) staged.
Proof.
  revert staged. induction frames as [|f frames IH]; intros staged; cbn [mapM]; [intros [= <-]%(inj Ok); done|].
  intros E. apply bind_ok in E as (x & Sf & E). apply bind_ok in E as (xs & M & E). apply (inj Ok) in E as <-.
  unfold stage_frame in Sf. apply bind_ok in Sf as (wire & En & Sf). apply (inj Ok) in Sf as <-.
  destruct (IH _ M) as [A B]. split; [by rewrite fmap_cons, A|]. constructor; [|done]. by eapply encode_any.
Qed.
Lemma note_epochs_spec frames epochs f :
  (∃ e, epochs !! tenant f = Some e ∧ writer_epoch f ≤ e) ∨ f ∈ frames →
  ∃ e, note_epochs epochs frames !! tenant f = Some e ∧ writer_epoch f ≤ e.
Proof.
  unfold note_epochs. revert epochs. induction frames as [|g frames IH]; intros epochs; cbn; [intros [?|?]; [done|set_solver]|].
  intros Hf. apply IH. rewrite elem_of_cons in Hf. destruct (decide (tenant g = tenant f)) as [E|N].
  - rewrite E, lookup_insert_eq. destruct Hf as [(e & Ee & Le)|[-> |Hf]]; [left|left|by right].
    + rewrite Ee. cbn. eexists. split; [done|lia].
    + eexists. split; [done|lia].
  - rewrite lookup_insert_ne by done. naive_solver.
Qed.
Lemma check_epochs_ok epochs frames f e :
  check_epochs epochs frames = Ok () → f ∈ frames → epochs !! tenant f = Some e → e ≤ writer_epoch f.
Proof.
  induction frames as [|g frames IH]; [set_solver|]. cbn. intros C [-> |Hf]%elem_of_cons Ee.
  - rewrite Ee in C. destruct (_ <? e) eqn:L; [done|]. by zbool.
  - apply IH; [|done|done]. destruct (epochs !! tenant g) as [e'|]; [by destruct (_ <? e')|done].
Qed.
Lemma contents_append s s' t frames : contents s → append s frames = Ok (s', t) → ticketed s → contents s'.
Proof.
  intros Ct A T. apply append_ok in A as (staged & lsn & M & X & Nn & _ & Po & Ce & _ & -> & ->).
  destruct (stage_encoded _ _ M) as [Sf Se]. pose proof (tk_len s T) as Ln. destruct Ct. unfold built_items in *.
  assert (Bf : ∀ t lsn, batch_frames (Some (stage_batch (sq_now s) (st_batch (sq_state s)) staged t lsn)) =
    batch_frames (st_batch (sq_state s)) ++ staged) by (intros; by destruct (st_batch (sq_state s))).
  assert (Bt : ∀ t lsn, batch_tickets (Some (stage_batch (sq_now s) (st_batch (sq_state s)) staged t lsn)) =
    batch_tickets (st_batch (sq_state s)) ++ [(t, lsn)]) by (intros; by destruct (st_batch (sq_state s))).
  split; unfold built_items; cbn [sq_built sq_flusher sq_state st_batch sq_appended st_poisoned st_epochs].
  - rewrite Bf, !app_assoc. apply Forall_app. split; [by rewrite <-app_assoc|done].
  - intros its d Hd. rewrite <-(app_nil_r its). by apply holds_more, ct_built0.
  - destruct (sq_flusher s); try done. rewrite <-(app_nil_r (b_frames batch)). by apply holds_more.
  - rewrite Bf, Bt. intros t l [Ht|Ht]%elem_of_app; [by apply (holds_more _ frames _ staged _ ct_batch0)|].
    apply list_elem_of_singleton in Ht as [= -> ->]. exists frames, (batch_frames (st_batch (sq_state s))).*1, [].
    split_and!; [by rewrite lookup_app_r, <-Ln, Nat.sub_diag by lia|done|done|]. by rewrite fmap_app, app_nil_r, Sf.
  - intros _ Ru. rewrite Bf, !app_assoc, fmap_app, Sf, concat_app. cbn. rewrite app_nil_r, <-app_assoc. by rewrite ct_order0.
  - rewrite concat_app. by apply prefix_app_r.
  - intros f. rewrite concat_app. cbn. rewrite app_nil_r, elem_of_app. intros Hf. apply note_epochs_spec. naive_solver.
  - intros l1 fr l2 E f g Hf Hg Eq. destruct l2 as [|x l2 _] using rev_ind.
    + apply app_inj_tail in E as [<- <-]. destruct (ct_epochs0 f Hf) as (e & Ee & Le). rewrite Eq in Ee.
      pose proof (check_epochs_ok _ _ _ _ Ce Hg Ee). lia.
    + rewrite app_comm_cons, app_assoc in E. apply app_inj_tail in E as [E _]. by eapply ct_fenced0.
Qed.
Lemma contents_turn s s' : placed s → ticketed s → contents s → turn s s' → contents s'.
Proof.
  intros P Tk Ct T. destruct T as
    [s s' E1 E2 E3 E4 E5 E6 E7 E8 E9 E10 E11 E12 E13 E14 E15 E16 E17|s s' t frames A|s F B Sd|s b F B Po|s b F B Po
    |s b seq pd segment sums d F Bw L Ed|s b seq pd F|s d F Lf Lo|s d s' F Al|s d F|s F O
    |s i l1 l2 d c W L C|s i l1 l2 W L C Tx|s i l1 l2 d W L|s i l1 l2 d o W L No|s i l1 l2 d o W L Lf
    |s i l1 l2 s' W L T|s i l1 l2 W L T];
    try (apply (contents_by s _ Ct); cbn; rewrite ?F; try done; by apply Ct).
  - apply (contents_by s s' Ct); rewrite ?E7, ?E12; try done. apply Ct.
  - by eapply contents_append.
  - destruct Ct. rewrite F in *. split; unfold built_items in *; cbn in *; rewrite ?F; cbn; try done.
    + rewrite B in ct_enc0. cbn in *. apply Forall_app in ct_enc0 as [A _]. apply Forall_app. by split.
    + apply holds_nil.
    + congruence.
  - destruct Ct. rewrite F, B in *. split; unfold built_items in *; cbn in *; rewrite ?app_nil_r in *; try done.
    + apply holds_nil.
    + rewrite <-ct_order0 by done. done.
  - destruct Ct. rewrite F in *. unfold built_items in *.
    assert (Bi : concat (sq_built s ++ [(b_frames b, d)]).*1 = concat (sq_built s).*1 ++ b_frames b).
    { rewrite fmap_app, concat_app. cbn. by rewrite app_nil_r. }
    split; unfold built_items; cbn [sq_built sq_flusher sq_state sq_appended st_batch st_poisoned st_epochs building running];
      rewrite ?Bi; cbn [app]; rewrite ?app_nil_r, <-?app_assoc; try done.
    intros its x [Hd|Hd]%elem_of_app; [by eapply ct_built0|]. apply list_elem_of_singleton in Hd as [= -> ->]. by subst d.
  - destruct Ct. rewrite F in *. split; unfold built_items in *; cbn in *; try done.
    + apply Forall_app in ct_enc0 as [A1 A2]. apply Forall_app in A2 as [_ A2]. apply Forall_app. by split.
    + rewrite fmap_app in ct_prefix0. rewrite app_nil_r. etransitivity; [|done]. by apply prefix_app_r.
  - pose proof (sender_has_workers s d P F). congruence.
  - apply lander_turn_some in T as (d & o & parked & Ep & ->). cbv zeta.
    destruct (ls_failed (sq_lander s)) eqn:Fa; [|destruct o as [[]|e|]; [| |done]];
      (apply (contents_by s _ Ct); cbn; try done; apply Ct).
Qed.
End contents.

(** ** Runs *)
Section runs.
Context `{Crc, Lz4}.

Record sound (start prev : Z) (s : Seqr) : Prop := {
  so_placed : placed s;
  so_ticketed : ticketed s;
  so_recorded : recorded start prev s;
  so_contents : contents s
}.
Lemma sound_start {E} shard config start prev now s :
  resume (E := E) shard config start prev now = Ok s → sound start prev s.
Proof.
  unfold resume, assert. destruct (1 <=? sc_inflight config) eqn:I1, (sc_inflight config <=? MAX_INFLIGHT) eqn:I2; cbn; try done.
  intros <-%(inj Ok). zbool. assert (W0 : working (replicate (Z.to_nat (sc_inflight config)) WIdle) = []).
  { induction (Z.to_nat _); [done|]. by rewrite replicate_S, working_cons. }
  split.
  - split; cbn; try done; try lia.
    + rewrite flying_admitting. cbn. by rewrite W0.
    + change (zlen _) with 0. lia.
    + rewrite zlen_replicate. lia.
    + intros d o Hd. by apply elem_of_replicate_inv in Hd.
    + intros _. set_solver.
    + intros Hd. by apply elem_of_replicate_inv in Hd.
  - split; cbn; try done; unfold pending; cbn; rewrite flying_admitting; cbn; rewrite W0; [constructor|]. set_solver.
  - split; cbn; try done.
    + constructor.
    + intros d. rewrite flying_admitting. cbn. rewrite W0. set_solver.
    + set_solver.
    + intros d Hd. by apply elem_of_replicate_inv in Hd.
    + set_solver.
  - split; cbn; try done; try (intros; set_solver).
    + apply holds_nil.
    + intros l1 fr l2 E'. by destruct l1.
Qed.
Lemma sound_step start prev s l s' : sound start prev s → seq_step s l = Some s' → sound start prev s'.
Proof.
  intros [P T R C] St%step_turn. split.
  - by eapply placed_turn.
  - eapply ticketed_step; [done|by apply turn_tickets].
  - by eapply recorded_turn.
  - by eapply contents_turn.
Qed.
Lemma sound_run start prev s ls s' : sound start prev s → seq_run s ls = Some s' → sound start prev s'.
Proof.
  revert s. induction ls as [|l ls IH]; intros s So; cbn; [by intros [= <-]|].
  destruct (seq_step s l) as [s1|] eqn:E; [|done]. cbn. apply IH. by eapply sound_step.
Qed.
Lemma shard_turn s s' : placed s → turn s s' → sq_shard s' = sq_shard s ∧ sq_config s' = sq_config s.
Proof.
  intros P T. destruct T as [| s s' t frames A | | | | | | | s d s' F Al | | | | | | | | s i l1 l2 s' W L T |]; try done.
  - by apply append_ok in A as (? & ? & _ & _ & _ & _ & _ & _ & _ & _ & ->).
  - pose proof (sender_has_workers s d P F). congruence.
  - apply lander_turn_some in T as (d & o & parked & _ & ->). by destruct (ls_failed _), o.
Qed.
Lemma shard_run start prev s ls s' :
  sound start prev s → seq_run s ls = Some s' → sq_shard s' = sq_shard s ∧ sq_config s' = sq_config s.
Proof.
  revert s. induction ls as [|l ls IH]; intros s So; cbn; [by intros [= <-]|].
  destruct (seq_step s l) as [s1|] eqn:E; [|done]. cbn. intros R%IH; [|by eapply sound_step].
  destruct R as [-> ->]. apply shard_turn; [apply So|by eapply step_turn].
Qed.
End runs.
