(* ===== verification/SequencerSpec.v ===== *)
(** * SequencerSpec: what the sequencer promises

    An acknowledged append is in the chain recovery reads; what a crash can
    leave past the first hole is bounded; a stale writer's frames never
    follow a newer writer's; and every ticket is resolved once the threads
    have had their turns.

    The threads' steps use up a measure, so they come to rest, and at rest
    no ticket is left waiting but those of an open window that is not due;
    after a shutdown none at all, and every thread has ended.

    Small runs of the sequencer, as inputs for the theorems and to show
    what a panic of the sink does to the committers behind it. *)
From S2P Require Import Prelude Order Text Lsn Externals Frame Cas Manifest Segment Media MediaProofs Chain ChainHead ChainProofs ChainRuns Backpressure Tee Sequencer SequencerProofs SequencerChain.
From Stdlib Require Import Permutation.

Lemma resume_ok {E} `{Crc, Lz4} shard config start prev now s :
  resume (E := E) shard config start prev now = Ok s →
  sq_shard s = shard ∧ sq_config s = config ∧ 1 ≤ sc_inflight config ≤ MAX_INFLIGHT ∧
  ls_failed (sq_lander s) = false ∧ sq_flusher s = FLoop.
Proof.
  unfold resume, assert. destruct (1 <=? _) eqn:I1, (_ <=? MAX_INFLIGHT) eqn:I2; cbn; try done. intros <-%(inj Ok). by zbool.
Qed.

(** ** Recovery *)
Section recovery.
Context {S : Type} `{CasOk S} `{CrcOk, Lz4Ok, SerdeLog}.

(** The sink's promise: what it acknowledged can be read. *)
Definition sink_keeps (w : mworld S) (media : WalMedia) (shard : Z) (puts : list (Z * bytes * res CasError ())) : Prop :=
  ∀ seq segment, (seq, segment, Ok ()) ∈ puts → fetch_at w media shard seq = Some segment.

Lemma build_window_decodes {E} shard its seq prev segment sums :
  fits 4 shard → fits 8 seq → fits 8 prev → Forall wired its → zlen its ≤ MAX_SEG_FRAMES →
  build_window (E := E) shard its seq prev = Ok (segment, sums) →
  decode_segment segment = Ok (mkSegHeader Landing shard seq prev, its.*1, mkSegFooter (zlen its) sums).
Proof.
  intros F1 F2 F3 W L. unfold build_window. set (h := mkSegHeader Landing shard seq prev).
  destruct (push_all_ok (E := E) h [] its _ (segment_new_ok h)) as (b & P & B).
  { rewrite zlen_nil. unfold MAX_SEG_FRAMES, u32_max in *. lia. }
  rewrite P, bind_run. cbn [app] in B. destruct (builder_footer_fits h its b B W L) as [Ff Fl].
  rewrite (segment_finish_run h its b B Fl), (bo_count _ _ _ B) in *. intros [= <- <-]%(inj Ok).
  apply decode_segment_encoded; [done..|by apply wired_ok|by apply wired_mapM|]. unfold zlen. by rewrite length_fmap.
Qed.
Lemma chained_prefix shard seq prev l1 l2 seq' prev' :
  chained shard seq prev (l1 ++ l2) seq' prev' → ∃ seq1 prev1, chained shard seq prev l1 seq1 prev1.
Proof.
  revert seq' prev'. induction l2 as [|x l2 IH] using rev_ind; intros seq' prev' C; [rewrite app_nil_r in C; eauto|].
  rewrite app_assoc in C. inversion C as [|? ? l ? ? ? ? ? C1]; [by destruct (l1 ++ l2)|]. subst.
  match goal with E : _ ++ [_] = _ ++ [_] |- _ => apply app_inj_tail in E as [-> _] end. by eapply IH.
Qed.
Lemma chained_top shard seq prev l seq' prev' : chained shard seq prev l seq' prev' → l ≠ [] → seq' ≤ u64_max.
Proof. destruct 1; done. Qed.
(** Windows that can be read are a linked run of segments. *)
Lemma chained_linked w media shard seq prev l seq' prev' :
  chained shard seq prev l seq' prev' → fits 4 shard → 0 ≤ seq → fits 8 prev →
  (∀ its d, (its, d) ∈ l → Forall wired its ∧ zlen its ≤ MAX_SEG_FRAMES ∧ fetch_at w media shard (d_seq d) = Some (d_segment d)) →
  ∃ segs, linked w media shard seq prev segs ∧ seq' = seq + zlen segs ∧ end_digest prev segs = prev' ∧ fits 8 prev' ∧
    Forall2 (λ x g, cs_frames g = x.1.*1) l segs.
Proof.
  intros C F4 S0 F8. induction C as [seq prev|seq prev l seq' prev' its d sums C IH Bw Es Le]; intros A.
  - exists []. rewrite zlen_nil, Z.add_0_r. split_and!; done.
  - destruct (IH S0 F8) as (segs & Li & En & Ed & Fp & Fr); [intros x y Hx; apply A; set_solver|].
    destruct (A its d) as (Wi & Sz & Fe); [set_solver|]. subst seq'.
    pose proof (zlen_nonneg segs). assert (F8' : fits 8 (d_seq d)) by (unfold fits, u64_max in *; lia).
    pose proof (build_window_decodes shard its _ prev' _ sums F4 F8' Fp Wi Sz Bw) as D.
    exists (segs ++ [mkChainSegment (d_seq d) (mkSegHeader Landing shard (d_seq d) prev') its.*1 (mkSegFooter (zlen its) sums)]).
    split_and!.
    + apply linked_app. split; [done|]. rewrite <-En, Ed. cbn. split_and!; [done|done| |done]. split_and!; [done|done|].
      exists (d_segment d). by split.
    + rewrite zlen_app. change (zlen [_]) with 1. lia.
    + rewrite end_digest_app. done.
    + apply tenants_digest_fits.
    + apply Forall2_app; [done|]. by repeat constructor.
Qed.
(** A walk only adds to what it has. *)
Lemma walk_extends w media shard fuel cur out w' c l :
  lawful w → mexec w (walk_chain_linked (λ _, id) (keep (λ _, true)) fuel media shard cur out) = (w', Some (Ok (c, l))) →
  out `prefix_of` l.
Proof.
  intros L. revert cur out. induction fuel as [|fuel IH]; intros cur out; cbn [walk_chain_linked]; [done|]. cbv zeta.
  erewrite mexec_ok; [|quiet|rewrite mexec_map_err by quiet; by rewrite mexec_fetch].
  destruct (fetch_at _ _ _ _) as [data|]; [|by intros [= <- <- <-]].
  cbn [map_err]. destruct (decode_segment data) as [[[hd fr] ft]| |]; cbn [map_err]; [|done|done]. rewrite mexec_done_ok.
  destruct (_ || _); [done|]. destruct (negb _).
  - rewrite mexec_bind by quiet. destruct (mexec w (mmap_err id _)) as [w1 [[m| |]|]]; try done. cbv zeta.
    destruct (_ <=? _); [done|]. by intros [= <- <- <-].
  - erewrite mexec_ok; [|done|reflexivity]. unfold madd, uadd. destruct (_ <=? _); [|done]. rewrite mexec_done_ok. intros E%IH.
    etransitivity; [|exact E]. by apply prefix_app_r.
Qed.
(** The windows up to an acknowledged one have all landed. *)
Lemma acked_windows start prev s t lsn :
  sound start prev s → try_wait s t = Some (Ok lsn) →
  ∃ frames its d l1 l2 a b, sq_built s = (l1 ++ [(its, d)]) ++ l2 ∧ sq_appended s !! t = Some frames ∧ frames ≠ [] ∧
    max_end_lsn frames = Some lsn ∧ its.*1 = a ++ frames ++ b ∧ ∀ x, x ∈ (l1 ++ [(its, d)]).*2 → landed s x.
Proof.
  intros [P T R C] Tw. unfold try_wait in Tw. destruct (sq_tickets s !! t) as [o|] eqn:Et; [|done]. cbn in Tw. subst o.
  destruct (rc_acked _ _ _ R t lsn Et) as (d & Hd & Ht & Pre).
  apply list_elem_of_fmap in Hd as ([its d'] & -> & Hd). cbn [snd] in *.
  destruct (ct_built _ C its d' Hd t lsn Ht) as (frames & a & b & Ea & Nn & X & Ei).
  apply list_elem_of_split in Hd as (l1 & l2 & El). pose proof (rc_chain _ _ _ R) as Ch. rewrite El in Ch.
  replace (l1 ++ (its, d') :: l2) with ((l1 ++ [(its, d')]) ++ l2) in * by by rewrite <-app_assoc.
  destruct (chained_prefix _ _ _ _ _ _ _ Ch) as (seq1 & prev1 & Ch1).
  exists frames, its, d', l1, l2, a, b. split_and!; [done..|]. intros x Hx. apply Pre.
  - unfold windows. rewrite El, fmap_app. apply elem_of_app. by left.
  - inversion Ch1 as [|? ? l' s1 ? ? ? ? C1 Bw Es Le]; [by destruct l1|]. subst.
    match goal with E : _ ++ [_] = _ ++ [_] |- _ => apply app_inj_tail in E as [-> [= -> ->]] end.
    rewrite fmap_app, elem_of_app in Hx. destruct Hx as [Hx|Hx]; [apply (proj2 (chained_range _ _ _ _ _ _ C1)) in Hx; lia|].
    apply list_elem_of_singleton in Hx as ->. done.
Qed.
Lemma built_wired s its d :
  contents s → Forall frame_ok (concat (sq_appended s)) → (its, d) ∈ sq_built s → Forall wired its.
Proof.
  intros C Fo Hb. rewrite Forall_forall in *. intros i Hi. assert (Hc : i ∈ built_items s).
  { apply elem_of_concat. exists its. split; [done|]. by apply (list_elem_of_fmap_2 fst _ (its, d)). }
  pose proof (ct_enc _ C) as En. rewrite Forall_app in En. destruct En as [En _]. rewrite Forall_forall in En.
  split; [|by apply En]. rewrite Forall_forall in Fo. apply Fo. destruct (ct_prefix _ C) as [k Ek]. rewrite Ek.
  rewrite fmap_app, !elem_of_app. left. left. by apply list_elem_of_fmap_2.
Qed.
End recovery.

(** C1: an acknowledged append is recoverable.  Over any schedule of
    appends, flushes, puts, failures and panics, when a ticket has resolved
    with an LSN, that is the highest end LSN of the append's frames, and on
    any media that kept what the sink acknowledged there is a linked run of
    segments from the sequencer's first position on whose last segment
    holds the whole append: acknowledgements go in chain order, so nothing
    before it is missing.  A recovery read that returns, returns that run
    first. *)
Theorem acked_is_recoverable {S} `{CasOk S} `{CrcOk, Lz4Ok, SerdeLog} (w : mworld S) (media : WalMedia)
    (shard start prev now : Z) (config : SequencerConfig) (s0 s : Seqr) (ls : list seq_label) (t : ticket) (lsn : Lsn) :
  resume (E := ()) shard config start prev now = Ok s0 → seq_run s0 ls = Some s →
  fits 4 shard → 0 < start → fits 8 prev → Forall frame_ok (concat (sq_appended s)) →
  (∀ its d, (its, d) ∈ sq_built s → zlen its ≤ MAX_SEG_FRAMES) →
  lawful w → sink_keeps w media shard (sq_puts s) →
  try_wait s t = Some (Ok lsn) →
  ∃ frames segs g a b, sq_appended s !! t = Some frames ∧ frames ≠ [] ∧ max_end_lsn frames = Some lsn ∧
    linked w media shard start prev (segs ++ [g]) ∧ cs_frames g = a ++ frames ++ b ∧
    ∀ fuel l, (length segs < fuel)%nat →
      mexec w (read_chain_linked fuel media shard (start - 1) prev) = (w, Some (Ok l)) → segs ++ [g] `prefix_of` l.
Proof.
  intros Re Ru F4 S0 F8 Fo Sz L Sk Tw. pose proof (sound_start _ _ _ _ _ _ Re) as So0.
  destruct (resume_ok _ _ _ _ _ _ Re) as (Sh & _). rewrite <-(proj1 (shard_run _ _ _ _ _ So0 Ru)) in Sh.
  pose proof (sound_run _ _ _ _ _ So0 Ru) as So.
  destruct (acked_windows _ _ s t lsn So Tw) as (frames & its & d & l1 & l2 & a & b & El & Ea & Nn & X & Ei & La).
  pose proof (rc_chain _ _ _ (so_recorded _ _ _ So)) as Ch. rewrite Sh, El in Ch.
  destruct (chained_prefix _ _ _ _ _ _ _ Ch) as (seq1 & prev1 & Ch1).
  destruct (chained_linked w media shard start prev _ _ _ Ch1 F4 ltac:(lia) F8) as (segs & Li & Ln & _ & _ & Fr).
  { intros its0 d0 Hx. assert (Hb : (its0, d0) ∈ sq_built s) by (rewrite El; apply elem_of_app; by left).
    split_and!; [by eapply built_wired; [apply So|..]|by eapply Sz|]. apply Sk, La.
    by apply (list_elem_of_fmap_2 snd _ (its0, d0)). }
  apply Forall2_app_inv_l in Fr as (sg & gl & F1 & F2 & ->).
  apply Forall2_cons_inv_l in F2 as (g & gr & Eg & F2 & ->). apply Forall2_nil_inv_l in F2 as ->.
  exists frames, sg, g, a, b. split_and!; [done..|cbn in Eg; by rewrite Eg|].
  intros fuel l Lf. unfold read_chain_linked. pose proof (chained_top _ _ _ _ _ _ Ch1 ltac:(by destruct l1)) as Tp.
  pose proof (zlen_nonneg (sg ++ [g])). rewrite madd_run by lia. replace (start - 1 + 1) with start by lia.
  rewrite mexec_bind by apply unthreaded_walk. fold (keep (λ _, true)).
  rewrite (walk_linked w media shard (sg ++ [g]) fuel start prev (λ _, true) [] L Li); [|lia|rewrite length_app; cbn; lia|done].
  destruct (mexec w _) as [w' [[[c out]| |]|]] eqn:E; try done. cbn. intros [= <- <-].
  by apply walk_extends in E.
Qed.

(** ** What a crash leaves behind *)
Section stragglers.
Context `{Crc, Lz4}.

(** One past the last position the flusher has taken. *)
Definition claimed (s : Seqr) : Z :=
  st_next_seq (sq_state s) + match sq_flusher s with FBuild _ _ _ => 1 | _ => 0 end.
(** Once a put has failed at [g] nothing is claimed far past it. *)
Definition bounded (s : Seqr) : Prop :=
  ls_failed (sq_lander s) = true →
  ∃ g, g ≤ ls_next_ack (sq_lander s) ∧ (∀ d, d ∈ windows s → d_seq d < g → landed s d) ∧
       claimed s ≤ g + sc_inflight (sq_config s) + 1.
Lemma claimed_range s : placed s → claimed s ≤ ls_next_ack (sq_lander s) + sc_inflight (sq_config s) + 1.
Proof.
  intros P. unfold claimed. rewrite (pl_next s P). pose proof (pl_out s P).
  destruct (sq_flusher s); cbn [admitting]; rewrite ?zlen_nil; try change (zlen [_]) with 1; lia.
Qed.
Lemma bounded_by s s' :
  bounded s → ls_failed (sq_lander s') = ls_failed (sq_lander s) → ls_next_ack (sq_lander s) ≤ ls_next_ack (sq_lander s') →
  sq_config s' = sq_config s → (ls_failed (sq_lander s) = true → claimed s' ≤ claimed s) → (∀ x, x ∈ sq_puts s → x ∈ sq_puts s') →
  (∀ d, d ∈ windows s' → d ∈ windows s ∨ ls_next_ack (sq_lander s) ≤ d_seq d) → bounded s'.
Proof.
  intros B Ef En Ec Cl Pu Wi F. rewrite Ef in F. destruct (B F) as (g & G1 & G2 & G3). exists g. rewrite Ec.
  specialize (Cl F). split_and!; [lia| |lia]. intros d Hd Lt. destruct (Wi d Hd) as [Ho|]; [|lia]. by apply Pu, G2.
Qed.
Lemma bounded_turn start prev s s' : placed s → recorded start prev s → bounded s → turn s s' → bounded s'.
Proof.
  intros P R B T. destruct T as
    [s s' E1 E2 E3 E4 E5 E6 E7 E8 E9 E10 E11 E12 E13 E14 E15 E16 E17|s s' t frames A|s F Eb Sd|s b F Eb Po|s b F Eb Po
    |s b seq pd segment sums d F Bw L Ed|s b seq pd F|s d F Lf Lo|s d s' F Al|s d F|s F O
    |s i l1 l2 d c W L C|s i l1 l2 W L C Tx|s i l1 l2 d W L|s i l1 l2 d o W L No|s i l1 l2 d o W L Lf
    |s i l1 l2 s' W L T|s i l1 l2 W L T];
    try (apply (bounded_by s _ B); unfold claimed, windows; cbn; rewrite ?F; try done; try lia; by left).
  - apply (bounded_by s _ B); unfold claimed, windows; rewrite ?E9, ?E5, ?E12, ?E16, ?E17; try done. by left.
  - apply append_ok in A as (staged & lsn & _ & _ & _ & _ & _ & _ & _ & -> & ->). apply (bounded_by s _ B); try done. by left.
  - apply (bounded_by s _ B); unfold claimed; cbn; rewrite ?F; try done; [|by left].
    rewrite <-(rc_poison _ _ _ R), Po. done.
  - pose proof (pl_build s P) as Pb. rewrite F in Pb. destruct Pb as [-> ->]. pose proof (pl_next s P) as Pn. rewrite F in Pn.
    apply (bounded_by s _ B); unfold claimed, windows; cbn; rewrite ?F; try done; try lia.
    intros x. rewrite fmap_app, elem_of_app. intros [Hx|Hx]; [by left|right].
    apply list_elem_of_singleton in Hx as ->. subst d. cbn in *. pose proof (pl_out s P). pose proof (zlen_nonneg (@nil Dispatch)). lia.
  - pose proof (sender_has_workers s d P F). congruence.
  - apply (bounded_by s _ B); cbn; try done; [set_solver|by left].
  - apply lander_turn_some in T as (d & o & parked & Ep & ->). cbv zeta.
    destruct (ls_failed (sq_lander s)) eqn:Fa; [|destruct o as [[]|e|]; [done| |done]].
    + apply (bounded_by s _ B); cbn; try done; [lia|by left].
    + intros _. exists (ls_next_ack (sq_lander s)). cbn. split_and!; [lia|by apply (rc_prefix _ _ _ R)|exact (claimed_range s P)].
Qed.
Lemma bounded_run start prev s ls s' : sound start prev s → bounded s → seq_run s ls = Some s' → bounded s'.
Proof.
  revert s. induction ls as [|l ls IH]; intros s So B; cbn; [by intros [= <-]|].
  destruct (seq_step s l) as [s1|] eqn:E; [|done]. cbn. apply IH; [by eapply sound_step|].
  eapply bounded_turn; [apply So|apply So|done|by eapply step_turn].
Qed.
End stragglers.

(** A crash leaves stragglers at most [MAX_INFLIGHT] past a hole.  In
    every reachable state, however puts end and wherever the sequencer dies,
    a window it has built lies at most [inflight], so at most
    [MAX_INFLIGHT], past any built position whose put was not acknowledged;
    [chain_head_exact] and [takeover_exact] assume just that. *)
Theorem stragglers_bounded `{Crc, Lz4} (shard start prev now : Z) (config : SequencerConfig) (s0 s : Seqr)
    (ls : list seq_label) (d hole : Dispatch) :
  resume (E := ()) shard config start prev now = Ok s0 → seq_run s0 ls = Some s →
  d ∈ windows s → hole ∈ windows s → ¬ landed s hole →
  d_seq d ≤ d_seq hole + sc_inflight config ∧ sc_inflight config ≤ MAX_INFLIGHT.
Proof.
  intros Re Ru Hd Hh Nl. pose proof (sound_start _ _ _ _ _ _ Re) as So0. destruct (resume_ok _ _ _ _ _ _ Re) as (_ & Ec & Mi & Nf & _).
  split; [|lia]. pose proof (sound_run _ _ _ _ _ So0 Ru) as [P T R C]. destruct (shard_run _ _ _ _ _ So0 Ru) as [_ Ec'].
  rewrite Ec in Ec'. assert (B : bounded s).
  { eapply bounded_run; [done| |done]. intros F. congruence. }
  pose proof (proj2 (proj2 (chained_range _ _ _ _ _ _ (rc_chain _ _ _ R)) d Hd)) as Ld.
  assert (Cl : d_seq d < claimed s) by (unfold claimed; destruct (sq_flusher s); lia).
  destruct (ls_failed (sq_lander s)) eqn:Fa.
  - destruct (B Fa) as (g & _ & G2 & G3). rewrite Ec' in G3. destruct (decide (d_seq hole < g)) as [Lt|]; [|lia].
    by destruct (Nl (G2 _ Hh Lt)).
  - pose proof (claimed_range s P) as Cr. rewrite Ec' in Cr.
    destruct (decide (d_seq hole < ls_next_ack (sq_lander s))) as [Lt|]; [|lia].
    by destruct (Nl (rc_prefix _ _ _ R Fa _ Hh Lt)).
Qed.

(** A fenced writer never gets back in.  The frames of the windows
    built are, in chain order, a prefix of the admitted appends in the order
    they were admitted, and no frame of a later append carries a lower
    writer epoch than a frame of the same tenant in an earlier one. *)
Theorem epochs_never_regress `{Crc, Lz4} (shard start prev now : Z) (config : SequencerConfig) (s0 s : Seqr)
    (ls : list seq_label) :
  resume (E := ()) shard config start prev now = Ok s0 → seq_run s0 ls = Some s →
  (built_items s).*1 `prefix_of` concat (sq_appended s) ∧
  ∀ l1 frames l2 f g, sq_appended s = l1 ++ frames :: l2 → f ∈ concat l1 → g ∈ frames → tenant f = tenant g →
    writer_epoch f ≤ writer_epoch g.
Proof.
  intros Re Ru. pose proof (sound_run _ _ _ _ _ (sound_start _ _ _ _ _ _ Re) Ru) as [P T R C]. split.
  - etransitivity; [|apply (ct_prefix _ C)]. rewrite fmap_app. by apply prefix_app_r.
  - intros l1 frames l2 f g E. by eapply ct_fenced.
Qed.

From Stdlib Require Import Permutation.

(** The steps of the sequencer's own threads. *)
Definition thread_label (l : seq_label) : Prop := match l with LFlush | LWorker _ _ => True | _ => False end.
Definition flusher_weight (f : flusher) : Z :=
  match f with FLoop => 2 | FBuild _ _ _ => 11 | FAdmit _ => 10 | FSend _ => 9 | FDrain => 1 | FDone | FPanicked _ => 0 end.
Definition worker_weight (w : worker) : Z :=
  match w with WIdle => 1 | WPut _ => 6 | WPark _ _ => 5 | WResolve => 2 | WGone | WPanicked _ => 0 end.
Fixpoint workers_weight (ws : list worker) : Z :=
  match ws with [] => 0 | w :: ws => worker_weight w + workers_weight ws end.
(** What is left to do. *)
Definition work_left (s : Seqr) : Z :=
  (if st_batch (sq_state s) then 10 else 0) + flusher_weight (sq_flusher s) + 6 * zlen (sq_chan s) +
  workers_weight (sq_workers s) + 2 * zlen (ls_parked (sq_lander s)).

Section live.
Context `{Crc, Lz4}.

Lemma workers_weight_app a b : workers_weight (a ++ b) = workers_weight a + workers_weight b.
Proof. induction a as [|w a IH]; cbn; [done|]. rewrite IH. lia. Qed.
Lemma work_left_nonneg s : 0 ≤ work_left s.
Proof.
  unfold work_left. assert (W : ∀ ws, 0 ≤ workers_weight ws) by (induction ws as [|[] ws IH]; cbn; lia).
  pose proof (W (sq_workers s)). pose proof (zlen_nonneg (sq_chan s)). pose proof (zlen_nonneg (ls_parked (sq_lander s))).
  destruct (st_batch _), (sq_flusher s); cbn; lia.
Qed.
Lemma zlen_bt_insert {V} (k : Z) (v : V) m : k ∉ m.*1 → zlen (bt_insert k v m) = 1 + zlen m.
Proof. intros N. unfold zlen. rewrite (Permutation_length (bt_insert_perm k v m N)). cbn [length]. lia. Qed.
Lemma work_decreases s l s' : placed s → thread_label l → seq_step s l = Some s' → work_left s' < work_left s.
Proof.
  intros P Tl. destruct l as [frames| |dt|r|op| |i outcome]; try done; cbn [seq_step].
  - unfold flusher_step. cbv zeta. unfold work_left. destruct (sq_flusher s) as [|b seq prev|d|d| | |ts] eqn:F; try done.
    + destruct (st_batch (sq_state s)) as [b|] eqn:B.
      * destruct (negb _); [done|]. destruct (st_poisoned (sq_state s)); intros [= <-]; cbn; rewrite ?F; cbn; lia.
      * destruct (st_shutdown (sq_state s)); [|done]. intros [= <-]. cbn. rewrite B. lia.
    + destruct (build_window _ _ _ _) as [[segment sums]| |]; cbn; [unfold uadd; destruct (_ <=? _); cbn|..];
        intros [= <-]; cbn; lia.
    + destruct (lander_free s); [|done]. cbn. destruct (_ <? _); [|done]. intros [= <-]. cbn. lia.
    + rewrite (sender_has_workers s d P F). cbn. destruct (_ <? _); [|done]. intros [= <-]. cbn. rewrite zlen_app.
      change (zlen [d]) with 1. lia.
    + destruct (lander_free s); [|done]. cbn. destruct (_ <=? _); [|done]. intros [= <-]. cbn. lia.
  - unfold worker_step. destruct (sq_workers s !! i) as [w|] eqn:W; [|done]. cbn.
    destruct (worker_split _ _ _ W) as (l1 & l2 & E & L). unfold work_left. destruct w as [|d|d o| | |d]; try done.
    + destruct (sq_chan s) as [|d c] eqn:C; [destruct (sq_tx s); [done|]|]; intros [= <-]; cbn; rewrite ?C, E, insert_split by done;
        rewrite !workers_weight_app, ?zlen_cons; cbn; lia.
    + destruct outcome; intros [= <-]; cbn; rewrite E, insert_split by done; rewrite !workers_weight_app; cbn; lia.
    + destruct (lander_free s); [|done]. intros [= <-]. cbn. rewrite E, insert_split by done.
      rewrite zlen_bt_insert by (by eapply park_fresh). rewrite !workers_weight_app. cbn. lia.
    + destruct (lander_turn s) as [s1|] eqn:T; intros [= <-].
      * apply lander_turn_some in T as (d & o & parked & Ep & ->). cbv zeta.
        assert (No : o ≠ Panic) by (destruct (pl_parked s P) as [_ Fp]; rewrite Ep, Forall_cons in Fp; by destruct Fp as [[] _]).
        destruct (ls_failed _); [|destruct o; [..|done]]; cbn; rewrite Ep, zlen_cons; lia.
      * cbn. rewrite E, insert_split by done. rewrite !workers_weight_app. cbn. lia.
Qed.

(** The loop ends only once nothing can be staged any more. *)
Definition drained (s : Seqr) : Prop :=
  match sq_flusher s with
  | FDrain | FDone => st_batch (sq_state s) = None ∧ st_shutdown (sq_state s) = true
  | _ => True
  end.
Lemma drained_turn s s' : placed s → drained s → turn s s' → drained s'.
Proof.
  intros P D T. unfold drained in *. destruct T as
    [s s' E1 E2 E3 E4 E5 E6 E7 E8 E9 E10 E11 E12 E13 E14 E15 E16 E17|s s' t frames A|s F Eb Sd|s b F Eb Po|s b F Eb Po
    |s b seq pd segment sums d F Bw L Ed|s b seq pd F|s d F Lf Lo|s d s' F Al|s d F|s F O
    |s i l1 l2 d c W L C|s i l1 l2 W L C Tx|s i l1 l2 d W L|s i l1 l2 d o W L No|s i l1 l2 d o W L Lf
    |s i l1 l2 s' W L T|s i l1 l2 W L T]; cbn in *; rewrite ?F in *; try done.
  - rewrite E12, E3. destruct (sq_flusher s); try done; destruct D; auto.
  - apply append_ok in A as (staged & lsn & _ & _ & _ & Sd & _ & _ & _ & -> & ->). cbn.
    destruct (sq_flusher s); try done; destruct D; congruence.
  - pose proof (sender_has_workers s d P F). congruence.
  - apply lander_turn_some in T as (d & o & parked & Ep & ->). by destruct (ls_failed _), o.
Qed.

(** ** At rest *)
Definition at_rest (s : Seqr) : Prop := ∀ l, thread_label l → seq_step s l = None.
Definition no_thread_died (s : Seqr) : Prop :=
  (∀ ts, sq_flusher s ≠ FPanicked ts) ∧ ∀ d, WPanicked d ∉ sq_workers s.
Lemma rest_workers s :
  placed s → at_rest s → no_thread_died s → 1 ≤ sc_inflight (sq_config s) →
  sq_chan s = [] ∧ lander_free s = true ∧ ∀ w, w ∈ sq_workers s → (w = WIdle ∧ sq_tx s = true) ∨ w = WGone.
Proof.
  intros P Re [_ Np] In. assert (St : ∀ w, w ∈ sq_workers s → ∃ i, sq_workers s !! i = Some w ∧ worker_step i (Ok ()) s = None).
  { intros w [i Hi]%list_elem_of_lookup_1. exists i. split; [done|]. by apply (Re (LWorker i (Ok ()))). }
  assert (Nr : lander_free s = true).
  { unfold lander_free. apply negb_true_iff. destruct (existsb _ _) eqn:E; [|done]. apply existsb_exists in E as (w & Hw & Ew).
    apply list_elem_of_In in Hw. destruct (St w Hw) as (i & Hi & Hs). unfold worker_step in Hs. rewrite Hi in Hs. by destruct w. }
  assert (All : ∀ w, w ∈ sq_workers s → (w = WIdle ∧ sq_chan s = [] ∧ sq_tx s = true) ∨ w = WGone).
  { intros w Hw. destruct (St w Hw) as (i & Hi & Hs). unfold worker_step in Hs. rewrite Hi in Hs. cbn in Hs.
    destruct w as [|d|d o| | |d]; try done; [|by rewrite Nr in Hs|by right|by apply Np in Hw].
    left. destruct (sq_chan s); [|done]. by destruct (sq_tx s). }
  split_and!; [|done|intros w Hw; destruct (All w Hw) as [(? & _ & ?)|?]; auto].
  pose proof (pl_workers s P) as Lw. destruct (sq_workers s) as [|w ws] eqn:Ew; [rewrite zlen_nil in Lw; lia|].
  destruct (All w ltac:(left)) as [(_ & ? & _)|Eg]; [done|]. apply (pl_gone s P). rewrite Ew, Eg. left.
Qed.
Lemma rest_nothing_flies s :
  placed s → at_rest s → no_thread_died s → 1 ≤ sc_inflight (sq_config s) →
  flying s = [] ∧ ls_outstanding (sq_lander s) = 0 ∧ (sq_flusher s = FLoop ∨ sq_flusher s = FDone).
Proof.
  intros P Re Np In. destruct (rest_workers s P Re Np In) as (Ch & Fr & Wk). pose proof (Re LFlush I) as Fs. cbn in Fs.
  assert (W0 : working (sq_workers s) = []).
  { clear -Wk. induction (sq_workers s) as [|w ws IH]; [done|]. rewrite working_cons, IH by set_solver.
    destruct (Wk w ltac:(left)) as [[-> _]| ->]; done. }
  assert (Se : sending (sq_flusher s) = []).
  { destruct (sq_flusher s) as [|b seq prev|d|d| | |ts] eqn:F; try done. unfold flusher_step in Fs. cbv zeta in Fs.
    rewrite F, (sender_has_workers s d P F), Ch in Fs. cbn in Fs. rewrite (proj2 (Z.ltb_lt _ _)) in Fs; [done|]. change (zlen []) with 0. lia. }
  assert (Fl : flying s = parked_of (sq_lander s)) by (rewrite flying_admitting, W0, Ch, Se; by rewrite !app_nil_r).
  assert (O0 : ls_outstanding (sq_lander s) = 0).
  { pose proof (pl_out s P). destruct (decide (ls_outstanding (sq_lander s) = 0)) as [|N]; [done|]. exfalso.
    apply (pl_quiet s P Fr). assert (Hn : ls_next_ack (sq_lander s) ∈ d_seq <$> flying s).
    { rewrite (pl_flying s P). apply elem_of_seqZ. lia. }
    rewrite Fl in Hn. apply list_elem_of_fmap in Hn as (d & -> & Hd). apply list_elem_of_fmap in Hd as (e & -> & He).
    apply list_elem_of_fmap. exists e. split; [|done]. destruct (pl_parked s P) as [_ Fp]. rewrite Forall_forall in Fp.
    by destruct (Fp e He). }
  pose proof (zlen_flying s P) as Zf. rewrite O0 in Zf. apply zlen_0_inv in Zf. split_and!; [done|done|].
  destruct (sq_flusher s) as [|b seq prev|d|d| | |ts] eqn:F; try (by auto); unfold flusher_step in Fs; cbv zeta in Fs; rewrite F in Fs.
  - exfalso. destruct (build_window _ _ _ _) as [[]| |]; cbn in Fs; [|done|done]. unfold uadd in Fs. by destruct (_ <=? _).
  - exfalso. rewrite Fr, O0, (proj2 (Z.ltb_lt _ _)) in Fs; [done|lia].
  - exfalso. by rewrite Fr, O0 in Fs.
  - exfalso. destruct Np as [Np _]. by eapply Np.
Qed.
Lemma drained_run start prev s ls s' : sound start prev s → drained s → seq_run s ls = Some s' → drained s'.
Proof.
  revert s. induction ls as [|l ls IH]; intros s So D; cbn; [by intros [= <-]|].
  destruct (seq_step s l) as [s1|] eqn:E; [|done]. cbn. apply IH; [by eapply sound_step|].
  eapply drained_turn; [apply So|done|by eapply step_turn].
Qed.
Lemma thread_run start prev s ls s' :
  sound start prev s → Forall thread_label ls → seq_run s ls = Some s' → zlen ls + work_left s' ≤ work_left s.
Proof.
  revert s. induction ls as [|l ls IH]; intros s So F; cbn; [intros [= <-]; rewrite zlen_nil; lia|].
  apply Forall_cons in F as [Fl F]. destruct (seq_step s l) as [s1|] eqn:E; [|done]. cbn. intros R.
  pose proof (work_decreases s l s1 (so_placed _ _ _ So) Fl E). pose proof (IH s1 (sound_step _ _ _ _ _ So E) F R).
  rewrite zlen_cons. lia.
Qed.
End live.

(** C38: the sequencer drains.  From any reachable state its threads take
    at most [work_left] steps, whatever the sink answers and however they
    interleave, before something from outside is needed.  At rest, if no
    thread has died, a ticket is still waiting only in the open window and
    only because that window is not due; and after a shutdown every ticket
    is resolved and every thread has ended, so [close] returns. *)
Theorem sequencer_drains `{Crc, Lz4} (shard start prev now : Z) (config : SequencerConfig) (s0 s : Seqr) (ls : list seq_label) :
  resume (E := ()) shard config start prev now = Ok s0 → seq_run s0 ls = Some s →
  (∀ ls' s', Forall thread_label ls' → seq_run s ls' = Some s' → zlen ls' ≤ work_left s) ∧
  (at_rest s → no_thread_died s →
   (∀ t, (t < length (sq_tickets s))%nat → try_wait s t = None →
      ∃ b, st_batch (sq_state s) = Some b ∧ t ∈ (b_tickets b).*1 ∧ close_now s b = false) ∧
   (st_shutdown (sq_state s) = true →
      closed s ∧ ∀ t, (t < length (sq_tickets s))%nat → is_Some (try_wait s t))).
Proof.
  intros Re Ru. pose proof (sound_start _ _ _ _ _ _ Re) as So0. pose proof (sound_run _ _ _ _ _ So0 Ru) as So.
  destruct (resume_ok _ _ _ _ _ _ Re) as (_ & Ec & Mi & _ & F0). split.
  { intros ls' s' F R. pose proof (thread_run _ _ _ _ _ So F R). pose proof (work_left_nonneg s'). lia. }
  intros Rest Np. pose proof So as [P T R C]. assert (In : 1 ≤ sc_inflight (sq_config s)).
  { rewrite (proj2 (shard_run _ _ _ _ _ So0 Ru)), Ec. lia. }
  destruct (rest_nothing_flies s P Rest Np In) as (Fl & _ & Ff). pose proof (Rest LFlush I) as Fs. cbn in Fs.
  unfold flusher_step in Fs. cbv zeta in Fs.
  assert (Dr : drained s).
  { apply (drained_run _ _ s0 ls s So0); [|done]. unfold drained. by rewrite F0. }
  assert (Wait : ∀ t, (t < length (sq_tickets s))%nat → try_wait s t = None →
    ∃ b, st_batch (sq_state s) = Some b ∧ t ∈ (b_tickets b).*1 ∧ close_now s b = false).
  { intros t [o Ho]%lookup_lt_is_Some Tw. unfold try_wait in Tw. rewrite Ho in Tw. cbn in Tw. subst o.
    apply (tk_pending s T) in Ho. unfold pending in Ho. rewrite Fl in Ho. unfold drained in Dr.
    destruct Ff as [F|F]; rewrite F in *; cbn in Ho; rewrite app_nil_r in Ho.
    - destruct (st_batch (sq_state s)) as [b|]; cbn in Ho; [|set_solver]. exists b. split_and!; [done|done|].
      destruct (close_now s b); [|done]. cbn in Fs. by destruct (st_poisoned _).
    - destruct Dr as [Eb _]. rewrite Eb in Ho. set_solver. }
  split; [done|]. intros Sd. assert (F : sq_flusher s = FDone).
  { destruct Ff as [F|F]; [|done]. rewrite F in Fs. destruct (st_batch (sq_state s)) as [b|] eqn:Eb; [|by rewrite Sd in Fs].
    assert (close_now s b = true) as Cn by (unfold close_now; by rewrite Sd). rewrite Cn in Fs. cbn in Fs. by destruct (st_poisoned _). }
  unfold drained in Dr. rewrite F in Dr. destruct Dr as [Eb _]. split.
  - split_and!; [done|done|]. apply Forall_forall. intros w Hw. destruct (rest_workers s P Rest Np In) as (_ & _ & Wk).
    destruct (Wk w Hw) as [[_ Tx]|]; [|done]. by rewrite (pl_tx s P), F in Tx.
  - intros t Lt. destruct (try_wait s t) eqn:Tw; [done|]. destruct (Wait t Lt Tw) as (b & Eb' & _). congruence.
Qed.

Module SequencerWitness.
Import Concrete ChainConcrete FrameWitness ChainWitness.

Definition config : SequencerConfig := mkSeqConfig 3 1000000 4096 2 None None.
Definition begin : Seqr :=
  match resume (E := ()) 1 config 1 0 1000 with Ok s => s | _ => mkSeqr 0 config 0 (mkSeqState None ∅ 0 0 false false)
    (mkLander 0 [] false 0) [] true FLoop [] [] None None [] [] [] end.
Definition run (ls : list seq_label) : Seqr := default begin (seq_run begin ls).
Abbreviation flush n := (replicate n LFlush).
Abbreviation turns i n := (replicate n (LWorker i (Ok ()))).

(** Two windows in flight; the second lands first and waits for the first. *)
Definition first_half : list seq_label :=
  [LAppend [f1; f2]; LTick 3] ++ flush 4 ++ [LAppend [f2]; LTick 3] ++ flush 4 ++ turns 0 1 ++ turns 1 4.
Definition two_windows : list seq_label := first_half ++ turns 0 5.
Example in_chain_order :
  (try_wait (run first_half) 0, try_wait (run first_half) 1) = (None, None) ∧
  (try_wait (run two_windows) 0, try_wait (run two_windows) 1) = (Some (Ok 0x8B004010), Some (Ok 0x8B004010)) ∧
  sq_puts (run two_windows) = [(2, s2.1, Ok ()); (1, s1.1, Ok ())].
Proof. vm_compute. done. Qed.
(** The put of the first window fails: the second has landed and is still
    no acknowledgement. *)
Definition first_fails : list seq_label := first_half ++ [LWorker 0 (Err (Io (str "x")))] ++ turns 0 4 ++ [LAppend [f1]].
Example nothing_past_the_hole :
  (try_wait (run first_fails) 0, try_wait (run first_fails) 1) =
    (Some (Err (StoreFailed (Io (str "x")))), Some (Err Poisoned)) ∧
  zlen (sq_appended (run first_fails)) = 2.
Proof. vm_compute. done. Qed.
(** A panic of the sink: the window stays outstanding for good, the window
    behind it stays parked, and after a shutdown the flusher waits for
    both; nobody is told. *)
Definition sink_panics : list seq_label := first_half ++ [LWorker 0 Panic; LShutdown; LFlush; LWorker 1 (Ok ())].
Example sink_panic_hangs :
  (try_wait (run sink_panics) 0, try_wait (run sink_panics) 1) = (None, None) ∧
  sq_flusher (run sink_panics) = FDrain ∧
  (seq_step (run sink_panics) LFlush, seq_step (run sink_panics) (LWorker 0 (Ok ())),
   seq_step (run sink_panics) (LWorker 1 (Ok ()))) = (None, None, None).
Proof. vm_compute. done. Qed.
(** An append is checked against the epochs of earlier appends only: a
    lower epoch behind a higher one in the same append is staged. *)
Definition old_f2 : Frame2 := mkFrame2 3 7 0x8B004010 0x8B004020 false false [] (str "old").
Example lower_epoch_in_one_append :
  sq_appended (run [LAppend [f2; old_f2]]) = [[f2; old_f2]] ∧ tenant_epoch (run [LAppend [f2; old_f2]]) 3 = Some 8 ∧
  sq_appended (run [LAppend [f2]; LAppend [old_f2]]) = [[f2]].
Proof. vm_compute. done. Qed.

(** ** Witnesses *)
Lemma begins : resume (E := ()) 1 config 1 0 1000 = Ok begin.
Proof. done. Qed.
Lemma two_windows_run : seq_run begin two_windows = Some (run two_windows).
Proof. unfold run. by destruct (seq_run begin two_windows) eqn:E; [|vm_compute in E]. Qed.
Definition kept : mworld MemStore := land Single (land Single w0 1 s1.1) 2 s2.1.
Lemma second_append : sq_appended (run two_windows) !! 1%nat = Some [f2].
Proof. by vm_compute. Qed.
Lemma triple_inv {A B C} (a a' : A) (b b' : B) (c c' : C) : (a, b, c) = (a', b', c') → a = a' ∧ b = b'.
Proof. by intros [= -> -> ->]. Qed.
Lemma acked_is_recoverable_witness :
  ∃ segs g a b, linked kept Single 1 1 0 (segs ++ [g]) ∧ cs_frames g = a ++ [f2] ++ b ∧
    (∀ fuel l, (length segs < fuel)%nat →
      mexec kept (read_chain_linked fuel Single 1 (1 - 1) 0) = (kept, Some (Ok l)) → segs ++ [g] `prefix_of` l).
Proof.
  destruct (acked_is_recoverable kept Single 1 1 0 1000 config begin (run two_windows) two_windows 1 0x8B004010)
    as (frames & segs & g & a & b & Ea & _ & _ & Li & Eg & Rd).
  - exact begins.
  - exact two_windows_run.
  - by vm_compute.
  - lia.
  - by vm_compute.
  - apply (bool_decide_unpack _). by vm_compute.
  - intros its d Hd. assert (F : forallb (λ x, zlen x.1 <=? MAX_SEG_FRAMES) (sq_built (run two_windows)) = true) by by vm_compute.
    rewrite forallb_forall in F. apply list_elem_of_In in Hd. apply F in Hd. by apply Z.leb_le in Hd.
  - unfold kept. do 2 apply land_view. apply w0_lawful.
  - intros seq segment. destruct in_chain_order as (_ & _ & ->).
    rewrite !elem_of_cons.
    intros [[-> ->]%triple_inv|[[-> ->]%triple_inv|Hin]]; [by vm_compute|by vm_compute|by apply not_elem_of_nil in Hin].
  - by vm_compute.
  - rewrite second_append in Ea. apply (inj Some) in Ea. subst frames.
    exists segs, g, a, b. exact (conj Li (conj Eg Rd)).
Defined.
Definition win1 : Dispatch := mkDispatch 1 s1.1 [] [(0%nat, 0x8B004010)].
Definition win2 : Dispatch := mkDispatch 2 s2.1 [] [(1%nat, 0x8B004010)].
Lemma windows_run : windows (run first_fails) = [win1; win2].
Proof. by vm_compute. Qed.
Lemma first_fails_run : seq_run begin first_fails = Some (run first_fails).
Proof. by vm_compute. Qed.
Lemma first_not_landed : ¬ landed (run first_fails) win1.
Proof.
  unfold landed. intros Hin. assert (F : forallb (λ x, negb (x.1.1 =? 1) || match x.2 with Ok _ => false | _ => true end)
    (sq_puts (run first_fails)) = true) by by vm_compute.
  rewrite forallb_forall in F. apply list_elem_of_In, F in Hin. done.
Qed.
Lemma stragglers_bounded_witness :
  win2 ∈ windows (run first_fails) ∧ d_seq win2 ≤ d_seq win1 + sc_inflight config.
Proof.
  assert (H2 : win2 ∈ windows (run first_fails)) by (rewrite windows_run; right; left). split; [exact H2|].
  apply (stragglers_bounded 1 1 0 1000 config begin (run first_fails) first_fails win2 win1 begins first_fails_run H2).
  - rewrite windows_run. left.
  - exact first_not_landed.
Defined.
Lemma epochs_never_regress_witness :
  (built_items (run two_windows)).*1 = [f1; f2; f2] ∧ [f1; f2; f2] `prefix_of` concat (sq_appended (run two_windows)).
Proof.
  assert (B : (built_items (run two_windows)).*1 = [f1; f2; f2]) by by vm_compute. split; [done|]. rewrite <-B.
  apply (epochs_never_regress 1 1 0 1000 config begin (run two_windows) two_windows begins two_windows_run).
Defined.
Definition shut : list seq_label := two_windows ++ [LShutdown; LFlush; LFlush; LWorker 0 (Ok ()); LWorker 1 (Ok ())].
Lemma shut_run : seq_run begin shut = Some (run shut).
Proof. by vm_compute. Qed.
Lemma shut_workers : sq_workers (run shut) = [WGone; WGone].
Proof. by vm_compute. Qed.
Lemma shut_flusher : sq_flusher (run shut) = FDone.
Proof. by vm_compute. Qed.
Lemma shut_flag : st_shutdown (sq_state (run shut)) = true.
Proof. by vm_compute. Qed.
Lemma shut_tickets : length (sq_tickets (run shut)) = 2%nat.
Proof. by vm_compute. Qed.
Lemma shut_at_rest : at_rest (run shut).
Proof.
  intros [| | | | | |i o] Hl; try done. cbn [seq_step]. unfold worker_step. rewrite shut_workers. by destruct i as [|[|i]].
Qed.
Lemma shut_no_death : no_thread_died (run shut).
Proof.
  split; [intros ts; by rewrite shut_flusher|]. intros d. rewrite shut_workers.
  by intros [|[|?%not_elem_of_nil]%elem_of_cons]%elem_of_cons.
Qed.
Lemma sequencer_drains_witness : closed (run shut) ∧ is_Some (try_wait (run shut) 1).
Proof.
  destruct (sequencer_drains 1 1 0 1000 config begin (run shut) shut begins shut_run) as [_ D].
  destruct (D shut_at_rest shut_no_death) as [_ E]. destruct (E shut_flag) as [C T].
  split; [exact C|]. apply T. rewrite shut_tickets. lia.
Defined.
End SequencerWitness.
