(* ===== verification/Sealed.v ===== *)
(** * Sealed: the sealed segment codec (crates/zou-log/src/sealed.rs)

    One consolidation round folded into one object, its frames sorted by
    tenant and LSN so that each tenant is one region cut into chunks.  The
    footer's byte ranges are what a reader plans its range reads from.

    The decoder takes any bytes, what is built decodes to its frames, and
    the footer's chunks are byte ranges that stream one tenant's frames. *)
From S2P Require Import Prelude Order Text Lsn Externals Frame Bloom Segment.

Definition SEALED_MAGIC : bytes := str "ZSLD".
Definition SEALED_FOOTER_MAGIC : bytes := str "ZSLF".
Definition SEALED_VERSION : Z := 1.
Definition SEALED_CHUNK_TARGET : Z := Z.shiftl 1 20.
Definition SEALED_HEADER_LEN : Z := 4 + 2 + 2 + 4 + 8 + 8.
Definition SEALED_TAIL_LEN : Z := 4 + 4 + 4.
Definition TENANT_FIXED_LEN : Z := 16 + 4 + 4.
Definition CHUNK_LEN : Z := 8 + 8 + 8 + 8.

(** [sealed_key] *)
Definition sealed_key (shard first_seq last_seq : Z) : bytes :=
  str "cellwal-sealed/" ++ fmt_hex 4 shard ++ str "/" ++ fmt_hex 16 first_seq ++ str "-" ++ fmt_hex 16 last_seq ++ str ".seg".

Record SealedHeader := mkSealedHeader { sl_shard : Z; sl_first_seq : Z; sl_last_seq : Z }.
Record SealedChunk := mkSealedChunk { sc_min_lsn : Lsn; sc_max_lsn : Lsn; sc_offset : Z; sc_len : Z }.
Record SealedTenant := mkSealedTenant { st_tenant : Z; st_frames : Z; st_chunks : list SealedChunk }.
Record TenantBloom := mkTenantBloom { tb_bits : bytes }.
Record SealedFooter := mkSealedFooter { sf_count : Z; sf_bloom : TenantBloom; sf_sealed : list SealedTenant }.

Inductive SealedDecodeError :=
  | SldTruncated (have need : Z)
  | SldBadMagic
  | SldUnsupportedVersion (found : Z)
  | SldCorrupt
  | SldFrame (index : Z) (source : Frame2DecodeError).
Inductive SealedBuildError := Unsorted.

Section sealed.
Context `{Crc, Lz4}.

(** ** The tenant bloom *)
Definition tb_sized_for (tenants : Z) : TenantBloom :=
  mkTenantBloom (replicate (Z.to_nat (Z.max (next_power_of_two ((tenants * 10 + 7) / 8)) 64)) Byte.x00).
Definition tb_positions (b : TenantBloom) (tenant : Z) : list Z :=
  let bytes := le_bytes 16 tenant in
  let h1 := crc32c bytes in
  let h2 := Z.lor (crc32c_append 0x5EED bytes) 1 in
  probes h1 h2 (zlen (tb_bits b) * 8).
Definition tb_insert (b : TenantBloom) (tenant : Z) : TenantBloom :=
  mkTenantBloom (foldl set_bit (tb_bits b) (tb_positions b tenant)).
Definition tb_may_contain (b : TenantBloom) (tenant : Z) : bool := forallb (test_bit (tb_bits b)) (tb_positions b tenant).

(** ** Building *)
Definition encode_sealed_header (h : SealedHeader) : bytes :=
  SEALED_MAGIC ++ le_bytes 2 SEALED_VERSION ++ le_bytes 2 0 ++
  le_bytes 4 (sl_shard h) ++ le_bytes 8 (sl_first_seq h) ++ le_bytes 8 (sl_last_seq h).
(** [frames.windows(2).any(..)] *)
Fixpoint unsorted (frames : list Frame2) : bool :=
  match frames with
  | f :: ((g :: _) as rest) => oltb (tenant g, start_lsn g) (tenant f, start_lsn f) || unsorted rest
  | _ => false
  end.
(** The last chunk grows while it stays within the target. *)
Definition add_chunk (chunk_target : Z) (chunks : list SealedChunk) (frame : Frame2) (offset len : Z) : list SealedChunk :=
  let new := chunks ++ [mkSealedChunk (start_lsn frame) (end_lsn frame) offset len] in
  match last chunks with
  | Some c =>
      if sc_len c + len <=? chunk_target
      then removelast chunks ++ [mkSealedChunk (sc_min_lsn c) (Z.max (sc_max_lsn c) (end_lsn frame)) (sc_offset c) (sc_len c + len)]
      else new
  | None => new
  end.
(** One turn of the loop over the frames. *)
Definition push_sealed {E} (chunk_target : Z) (buf : bytes) (tenants : list SealedTenant) (frame : Frame2) :
    res E (bytes * list SealedTenant) :=
  wire ← encode frame;
  let offset := zlen buf in
  let len := zlen wire in
  let tenants := if bool_decide (st_tenant <$> last tenants = Some (tenant frame)) then tenants
                 else tenants ++ [mkSealedTenant (tenant frame) 0 []] in
  t ← expect (last tenants);
  n ← incr32 (st_frames t);
  mret (buf ++ wire,
        removelast tenants ++ [mkSealedTenant (st_tenant t) n (add_chunk chunk_target (st_chunks t) frame offset len)]).
Fixpoint push_all_sealed {E} (chunk_target : Z) (buf : bytes) (tenants : list SealedTenant) (frames : list Frame2) :
    res E (bytes * list SealedTenant) :=
  match frames with
  | [] => mret (buf, tenants)
  | f :: frames => '(buf, tenants) ← push_sealed chunk_target buf tenants f; push_all_sealed chunk_target buf tenants frames
  end.
Definition encode_chunk (c : SealedChunk) : bytes :=
  le_bytes 8 (sc_min_lsn c) ++ le_bytes 8 (sc_max_lsn c) ++ le_bytes 8 (sc_offset c) ++ le_bytes 8 (sc_len c).
Definition encode_tenant (t : SealedTenant) : bytes :=
  le_bytes 16 (st_tenant t) ++ le_bytes 4 (st_frames t) ++ le_bytes 4 (zlen (st_chunks t)) ++
  concat (encode_chunk <$> st_chunks t).
Definition encode_sealed_footer (f : SealedFooter) : bytes :=
  le_bytes 4 (zlen (tb_bits (sf_bloom f))) ++ tb_bits (sf_bloom f) ++ le_bytes 4 (zlen (sf_sealed f)) ++
  concat (encode_tenant <$> sf_sealed f) ++ le_bytes 4 (sf_count f).
(** [build_sealed] *)
Definition build_sealed (header : SealedHeader) (frames : list Frame2) (chunk_target : Z) :
    res SealedBuildError (bytes * SealedFooter) :=
  _ ← guard_err (unsorted frames) Unsorted;
  '(buf, tenants) ← push_all_sealed chunk_target (encode_sealed_header header) [] frames;
  let bloom := foldl tb_insert (tb_sized_for (zlen tenants)) (st_tenant <$> tenants) in
  let footer := mkSealedFooter (as_u32 (zlen frames)) bloom tenants in
  let footer_start := zlen buf in
  let buf := buf ++ encode_sealed_footer footer in
  let footer_len := as_u32 (zlen buf - footer_start) in
  let buf := buf ++ le_bytes 4 footer_len in
  hdr ← slice buf 0 SEALED_HEADER_LEN;
  body ← slice buf footer_start (footer_start + footer_len);
  let crc := crc32c_append (crc32c hdr) body in
  mret (buf ++ le_bytes 4 crc ++ SEALED_FOOTER_MAGIC, footer).

(** ** Decoding *)
Abbreviation sldres := (res SealedDecodeError).
(** A chunk must land inside the frame region. *)
Definition read_chunk (footer_start : Z) (c : bytes) : sldres SealedChunk :=
  let chunk := mkSealedChunk (le_val (sub c 0 8)) (le_val (sub c 8 16)) (le_val (sub c 16 24)) (le_val (sub c 24 32)) in
  let stop := sc_offset chunk + sc_len chunk in
  _ ← guard_err ((sc_offset chunk <? SEALED_HEADER_LEN) || (u64_max <? stop) || (footer_start <? stop)) SldCorrupt;
  mret chunk.
Fixpoint read_chunks (footer_start : Z) (n : nat) (rest : bytes) : sldres (list SealedChunk * bytes) :=
  match n with
  | O => mret ([], rest)
  | S n =>
      '(c, rest) ← take_n SldCorrupt CHUNK_LEN rest;
      chunk ← read_chunk footer_start c;
      '(chunks, rest) ← read_chunks footer_start n rest;
      mret (chunk :: chunks, rest)
  end.
Definition read_tenant (footer_start : Z) (rest : bytes) : sldres (SealedTenant * bytes) :=
  '(fixed, rest) ← take_n SldCorrupt TENANT_FIXED_LEN rest;
  let chunk_count := le_val (sub fixed 20 24) in
  _ ← guard_err (zlen rest / CHUNK_LEN <? chunk_count) SldCorrupt;
  '(chunks, rest) ← read_chunks footer_start (Z.to_nat chunk_count) rest;
  mret (mkSealedTenant (le_val (sub fixed 0 16)) (le_val (sub fixed 16 20)) chunks, rest).
Fixpoint read_tenants (footer_start : Z) (n : nat) (rest : bytes) : sldres (list SealedTenant * bytes) :=
  match n with
  | O => mret ([], rest)
  | S n =>
      '(t, rest) ← read_tenant footer_start rest;
      '(ts, rest) ← read_tenants footer_start n rest;
      mret (t :: ts, rest)
  end.
(** The footer body of [parse_shell]. *)
Definition parse_sealed_footer (footer_start : Z) (body : bytes) : sldres SealedFooter :=
  '(c, rest) ← take_n SldCorrupt 4 body;
  let bloom_len := le_val c in
  _ ← guard_err ((zlen rest <? bloom_len) || negb (is_power_of_two bloom_len) || (bloom_len <? 64)) SldCorrupt;
  '(bits, rest) ← take_n SldCorrupt bloom_len rest;
  '(c, rest) ← take_n SldCorrupt 4 rest;
  let tenant_count := le_val c in
  _ ← guard_err (zlen rest / TENANT_FIXED_LEN <? tenant_count) SldCorrupt;
  '(tenants, rest) ← read_tenants footer_start (Z.to_nat tenant_count) rest;
  '(n, rest) ← take_n SldCorrupt 4 rest;
  _ ← guard_err (negb (bool_decide (rest = []))) SldCorrupt;
  mret (mkSealedFooter (le_val n) (mkTenantBloom bits) tenants).
Definition parse_sealed_header (buf : bytes) : sldres SealedHeader :=
  _ ← guard_err (zlen buf <? SEALED_HEADER_LEN + SEALED_TAIL_LEN)
        (SldTruncated (zlen buf) (SEALED_HEADER_LEN + SEALED_TAIL_LEN));
  magic ← slice buf 0 4;
  _ ← guard_err (negb (bool_decide (magic = SEALED_MAGIC))) SldBadMagic;
  version ← le_at 2 buf 4;
  _ ← guard_err (negb (version =? SEALED_VERSION)) (SldUnsupportedVersion version);
  shard ← le_at 4 buf 8;
  first_seq ← le_at 8 buf 12;
  last_seq ← le_at 8 buf 20;
  mret (mkSealedHeader shard first_seq last_seq).
(** [parse_shell] *)
Definition parse_sealed_shell (buf : bytes) : sldres (SealedHeader * SealedFooter * Z) :=
  header ← parse_sealed_header buf;
  magic ← slice buf (zlen buf - 4) (zlen buf);
  _ ← guard_err (negb (bool_decide (magic = SEALED_FOOTER_MAGIC))) SldBadMagic;
  tail_at ← usub (zlen buf) SEALED_TAIL_LEN;
  footer_len ← le_at 4 buf tail_at;
  stored_crc ← le_at 4 buf (tail_at + 4);
  room ← usub tail_at SEALED_HEADER_LEN;
  _ ← guard_err (room <? footer_len) SldCorrupt;
  footer_start ← usub tail_at footer_len;
  hdr ← slice buf 0 SEALED_HEADER_LEN;
  body ← slice buf footer_start tail_at;
  let crc := crc32c_append (crc32c hdr) body in
  _ ← guard_err (negb (crc =? stored_crc)) SldCorrupt;
  footer ← parse_sealed_footer footer_start body;
  mret (header, footer, footer_start).
(** [read_sealed_footer] *)
Definition read_sealed_footer (buf : bytes) : sldres (SealedHeader * SealedFooter) :=
  '(header, footer, _) ← parse_sealed_shell buf; mret (header, footer).
Fixpoint collect_sealed (items : list (res Frame2DecodeError Frame2)) (frames : list Frame2) : sldres (list Frame2) :=
  match items with
  | [] => mret frames
  | Ok f :: items => collect_sealed items (frames ++ [f])
  | Err source :: _ => Err (SldFrame (zlen frames) source)
  | Panic :: _ => Panic
  end.
(** [decode_sealed] *)
Definition decode_sealed (buf : bytes) : sldres (SealedHeader * list Frame2 * SealedFooter) :=
  '(header, footer, footer_start) ← parse_sealed_shell buf;
  region ← slice buf SEALED_HEADER_LEN footer_start;
  frames ← collect_sealed (frame_stream region) [];
  _ ← guard_err (negb (zlen frames =? sf_count footer)) SldCorrupt;
  mret (header, frames, footer).
End sealed.

(** ** Arbitrary bytes *)
Section sealed_garbage.
Context `{Crc, Lz4}.

Lemma no_panic_read_chunks fs n rest : no_panic (read_chunks fs n rest).
Proof.
  revert rest. induction n as [|n IH]; intros rest; cbn [read_chunks]; [done|]. np_step.
  apply no_panic_bind; [unfold read_chunk; repeat np_step|]. intros c _. apply no_panic_bind; [apply IH|]. by intros [cs r] _.
Qed.
Lemma no_panic_read_tenants fs n rest : no_panic (read_tenants fs n rest).
Proof.
  revert rest. induction n as [|n IH]; intros rest; cbn [read_tenants]; [done|].
  apply no_panic_bind.
  - unfold read_tenant. np_step. np_step. apply no_panic_bind; [apply no_panic_read_chunks|]. by intros [? ?] _.
  - intros [t r] _. apply no_panic_bind; [apply IH|]. by intros [ts r'] _.
Qed.
Lemma no_panic_sealed_footer fs body : no_panic (parse_sealed_footer fs body).
Proof.
  unfold parse_sealed_footer. do 5 np_step. apply no_panic_bind; [apply no_panic_read_tenants|].
  intros [ts r] _. repeat np_step.
Qed.
Lemma no_panic_sealed_header buf : no_panic (parse_sealed_header buf).
Proof. unfold parse_sealed_header, SEALED_HEADER_LEN, SEALED_TAIL_LEN. repeat np_step. Qed.
Lemma sealed_header_len buf h : parse_sealed_header buf = Ok h → 40 ≤ zlen buf.
Proof. unfold parse_sealed_header. intros E. bind_inv E. unfold SEALED_HEADER_LEN, SEALED_TAIL_LEN in *. lia. Qed.
Lemma no_panic_sealed_shell buf : no_panic (parse_sealed_shell buf).
Proof.
  unfold parse_sealed_shell. apply no_panic_bind; [apply no_panic_sealed_header|]. intros h L%sealed_header_len.
  unfold SEALED_HEADER_LEN, SEALED_TAIL_LEN. do 11 np_step.
  apply no_panic_bind; [apply no_panic_sealed_footer|]. done.
Qed.
(** The chunks a footer was accepted with lie in the frame region. *)
Definition chunk_inside (start : Z) (c : SealedChunk) : Prop :=
  SEALED_HEADER_LEN ≤ sc_offset c ∧ 0 ≤ sc_len c ∧ sc_offset c + sc_len c ≤ start.
Lemma read_chunks_inside fs n rest cs r : read_chunks fs n rest = Ok (cs, r) → Forall (chunk_inside fs) cs.
Proof.
  revert rest cs r. induction n as [|n IH]; intros rest cs r; cbn [read_chunks]; [intros [= <- _]%(inj Ok); done|].
  intros E. apply bind_ok in E as ([c rest'] & _ & E). apply bind_ok in E as (ch & Rc & E).
  apply bind_ok in E as ([cs' r'] & R & E). apply (inj Ok) in E. injection E as <- _. constructor; [|by eapply IH].
  unfold read_chunk in Rc. apply bind_ok in Rc as (? & G%guard_ok & Rc). apply (inj Ok) in Rc as <-.
  rewrite !orb_false_iff in G. destruct G as [[G1 G2] G3]. zbool. unfold chunk_inside. cbn in *.
  pose proof (le_val_fits (sub c 24 32)) as F. unfold fits in F. split_and!; lia.
Qed.
Lemma read_tenants_inside fs n rest ts r :
  read_tenants fs n rest = Ok (ts, r) → Forall (λ t, Forall (chunk_inside fs) (st_chunks t)) ts.
Proof.
  revert rest ts r. induction n as [|n IH]; intros rest ts r; cbn [read_tenants]; [intros [= <- _]%(inj Ok); done|].
  intros E. apply bind_ok in E as ([t rest'] & Rt & E). apply bind_ok in E as ([ts' r'] & R & E).
  apply (inj Ok) in E. injection E as <- _. constructor; [|by eapply IH]. unfold read_tenant in Rt.
  apply bind_ok in Rt as ([? ?] & _ & Rt). apply bind_ok in Rt as (? & _ & Rt). apply bind_ok in Rt as ([cs ?] & Rc & Rt).
  apply (inj Ok) in Rt. injection Rt as <- _. by eapply read_chunks_inside.
Qed.
Lemma sealed_shell_region buf h f start :
  parse_sealed_shell buf = Ok (h, f, start) →
  SEALED_HEADER_LEN ≤ start ≤ zlen buf ∧ Forall (λ t, Forall (chunk_inside start) (st_chunks t)) (sf_sealed f).
Proof.
  unfold parse_sealed_shell. intros E. apply bind_ok in E as (h' & Eh & E).
  bind_inv E. bind_inv E. bind_inv E. apply bind_ok in E as (fl & Efl & E). apply bind_ok in E as (? & _ & E).
  bind_inv E. bind_inv E. bind_inv E. bind_inv E. bind_inv E. bind_inv E.
  apply bind_ok in E as (f' & Ef & E). apply (inj Ok) in E. injection E as <- <- <-. split.
  - unfold le_at in Efl. bind_inv Efl. apply (inj Ok) in Efl as <-.
    match goal with |- context [le_val ?l] => pose proof (le_val_fits l) as F end.
    unfold fits, SEALED_HEADER_LEN, SEALED_TAIL_LEN in *. lia.
  - unfold parse_sealed_footer in Ef. apply bind_ok in Ef as ([? ?] & _ & Ef). apply bind_ok in Ef as (? & _ & Ef).
    apply bind_ok in Ef as ([? ?] & _ & Ef). apply bind_ok in Ef as ([? ?] & _ & Ef). apply bind_ok in Ef as (? & _ & Ef).
    apply bind_ok in Ef as ([ts ?] & Rt & Ef). apply bind_ok in Ef as ([? ?] & _ & Ef). apply bind_ok in Ef as (? & _ & Ef).
    apply (inj Ok) in Ef as <-. by eapply read_tenants_inside.
Qed.
Lemma no_panic_collect_sealed items frames : Forall no_panic items → no_panic (collect_sealed items frames).
Proof.
  intros F. revert frames. induction F as [|r items N F IH]; intros frames; cbn; [done|]. destruct r; [apply IH|done|done].
Qed.
End sealed_garbage.

(** No bytes make the decoders of sealed segments panic, and the chunks of
    what is accepted lie between the header and the footer, so a reader may
    range read on their word. *)
Theorem sealed_decoders_never_panic `{Crc, Lz4} (buf : bytes) :
  no_panic (decode_sealed buf) ∧ no_panic (read_sealed_footer buf) ∧
  match parse_sealed_shell buf with
  | Ok (_, f, start) => start ≤ zlen buf ∧ Forall (λ t, Forall (chunk_inside start) (st_chunks t)) (sf_sealed f)
  | _ => True
  end.
Proof.
  split_and!.
  - unfold decode_sealed. apply no_panic_bind; [apply no_panic_sealed_shell|]. intros [[h f] start] P.
    apply sealed_shell_region in P as [P _]. unfold SEALED_HEADER_LEN in *. apply np_slice; [lia|lia|].
    apply no_panic_bind; [apply no_panic_collect_sealed, stream_np|]. intros frames _. repeat np_step.
  - unfold read_sealed_footer. apply no_panic_bind; [apply no_panic_sealed_shell|]. by intros [[h f] start] _.
  - destruct (parse_sealed_shell buf) as [[[h f] start]| |] eqn:P; try done. apply sealed_shell_region in P as [P1 P2].
    split; [lia|done].
Qed.

(** ** What is written reads back *)
Definition sealed_header_fits (h : SealedHeader) : Prop := fits 4 (sl_shard h) ∧ fits 8 (sl_first_seq h) ∧ fits 8 (sl_last_seq h).
Definition chunk_fits (start : Z) (c : SealedChunk) : Prop :=
  fits 8 (sc_min_lsn c) ∧ fits 8 (sc_max_lsn c) ∧ fits 8 (sc_offset c) ∧ fits 8 (sc_len c) ∧
  28 ≤ sc_offset c ∧ sc_offset c + sc_len c ≤ start ∧ start ≤ u64_max.
Definition tenant_fits (start : Z) (t : SealedTenant) : Prop :=
  fits 16 (st_tenant t) ∧ fits 4 (st_frames t) ∧ fits 4 (zlen (st_chunks t)) ∧ Forall (chunk_fits start) (st_chunks t).
Definition sealed_footer_fits (start : Z) (f : SealedFooter) : Prop :=
  fits 4 (zlen (sf_sealed f)) ∧ Forall (tenant_fits start) (sf_sealed f) ∧ fits 4 (sf_count f) ∧
  ∃ k, 6 ≤ k < 32 ∧ zlen (tb_bits (sf_bloom f)) = 2 ^ k.

Section sealed_codec.
Context `{CrcOk, Lz4Ok}.

Lemma zlen_encode_chunk c : zlen (encode_chunk c) = 32.
Proof. unfold encode_chunk. by autorewrite with len. Qed.
Lemma zlen_encode_chunks cs : zlen (concat (encode_chunk <$> cs)) = 32 * zlen cs.
Proof.
  induction cs as [|c cs IH]; [done|]. rewrite fmap_cons. cbn [concat].
  rewrite zlen_app, zlen_encode_chunk, IH, zlen_cons. lia.
Qed.
Lemma zlen_encode_tenant t : zlen (encode_tenant t) = 24 + 32 * zlen (st_chunks t).
Proof. unfold encode_tenant. autorewrite with len. rewrite zlen_encode_chunks. lia. Qed.
Lemma zlen_encode_tenants ts : 24 * zlen ts ≤ zlen (concat (encode_tenant <$> ts)).
Proof.
  induction ts as [|t ts IH]; [done|]. rewrite fmap_cons. cbn [concat].
  rewrite zlen_app, zlen_encode_tenant, zlen_cons. pose proof (zlen_nonneg (st_chunks t)). lia.
Qed.
Lemma read_chunk_encoded start c : chunk_fits start c → read_chunk start (encode_chunk c) = Ok c.
Proof.
  intros (F1 & F2 & F3 & F4 & B1 & B2 & B3). unfold read_chunk.
  set (e := encode_chunk c).
  assert (sub e 0 8 = le_bytes 8 (sc_min_lsn c)) as -> by (unfold e, encode_chunk; sub_here).
  assert (sub e 8 16 = le_bytes 8 (sc_max_lsn c)) as -> by (unfold e, encode_chunk; sub_here).
  assert (sub e 16 24 = le_bytes 8 (sc_offset c)) as -> by (unfold e, encode_chunk; sub_here).
  assert (sub e 24 32 = le_bytes 8 (sc_len c)) as -> by (unfold e, encode_chunk; sub_here).
  rewrite !le_val_bytes by done. cbn [sc_offset sc_len]. unfold SEALED_HEADER_LEN.
  rewrite guard_run; [by destruct c|]. rewrite !orb_false_iff. split_and!; apply Z.ltb_ge; lia.
Qed.
Lemma read_chunks_encoded start cs rest :
  Forall (chunk_fits start) cs → read_chunks start (length cs) (concat (encode_chunk <$> cs) ++ rest) = Ok (cs, rest).
Proof.
  intros F. induction F as [|c cs Fc F IH]; [done|]. cbn [length read_chunks fmap list_fmap concat].
  rewrite <-app_assoc. rewrite (take_n_app _ _ (encode_chunk c)) by by rewrite zlen_encode_chunk.
  rewrite bind_run, read_chunk_encoded, bind_run by done. cbn [fmap list_fmap] in IH. by rewrite IH, bind_run.
Qed.
Lemma read_tenant_encoded start t rest :
  tenant_fits start t → read_tenant start (encode_tenant t ++ rest) = Ok (t, rest).
Proof.
  intros (F1 & F2 & F3 & F4). unfold read_tenant, TENANT_FIXED_LEN.
  set (fixed := le_bytes 16 (st_tenant t) ++ le_bytes 4 (st_frames t) ++ le_bytes 4 (zlen (st_chunks t))).
  assert (E : encode_tenant t ++ rest = fixed ++ concat (encode_chunk <$> st_chunks t) ++ rest).
  { unfold encode_tenant, fixed. by rewrite <-!app_assoc. }
  rewrite E, (take_n_app _ _ fixed) by (unfold fixed; zlen_lia). rewrite bind_run.
  assert (sub fixed 20 24 = le_bytes 4 (zlen (st_chunks t))) as -> by (unfold fixed; sub_here).
  assert (sub fixed 0 16 = le_bytes 16 (st_tenant t)) as -> by (unfold fixed; sub_here).
  assert (sub fixed 16 20 = le_bytes 4 (st_frames t)) as -> by (unfold fixed; sub_here).
  rewrite !le_val_bytes by done. cbv zeta. rewrite guard_run; cycle 1.
  { apply Z.ltb_ge. rewrite zlen_app, zlen_encode_chunks. unfold CHUNK_LEN.
    apply Z.div_le_lower_bound; [lia|]. pose proof (zlen_nonneg rest). lia. }
  rewrite to_nat_zlen, read_chunks_encoded, bind_run by done. by destruct t.
Qed.
Lemma read_tenants_encoded start ts rest :
  Forall (tenant_fits start) ts → read_tenants start (length ts) (concat (encode_tenant <$> ts) ++ rest) = Ok (ts, rest).
Proof.
  intros F. induction F as [|t ts Ft F IH]; [done|]. cbn [length read_tenants fmap list_fmap concat].
  rewrite <-app_assoc, read_tenant_encoded, bind_run by done. cbn [fmap list_fmap] in IH. by rewrite IH, bind_run.
Qed.
Lemma parse_sealed_footer_encoded start f :
  sealed_footer_fits start f → parse_sealed_footer start (encode_sealed_footer f) = Ok f.
Proof.
  intros (F1 & F2 & F3 & k & Hk & Lb). unfold parse_sealed_footer, encode_sealed_footer.
  assert (Pk : 64 ≤ 2 ^ k) by (change 64 with (2 ^ 6); apply Z.pow_le_mono_r; lia).
  assert (Fb : fits 4 (zlen (tb_bits (sf_bloom f)))).
  { rewrite Lb. unfold fits. split; [lia|]. apply Z.pow_lt_mono_r; lia. }
  rewrite (take_n_app _ _ (le_bytes 4 _)) by zlen_lia. rewrite bind_run, le_val_bytes by done. cbv zeta.
  rewrite guard_run; cycle 1.
  { rewrite !orb_false_iff, negb_false_iff. rewrite Lb at 2 3. rewrite is_power_of_two_pow by lia.
    split_and!; [apply Z.ltb_ge; rewrite zlen_app; pose proof (zlen_nonneg (le_bytes 4 (zlen (sf_sealed f)) ++
      concat (encode_tenant <$> sf_sealed f) ++ le_bytes 4 (sf_count f))); lia|done|apply Z.ltb_ge; lia]. }
  rewrite (take_n_app _ _ (tb_bits (sf_bloom f))) by done. rewrite bind_run.
  rewrite (take_n_app _ _ (le_bytes 4 (zlen (sf_sealed f)))) by zlen_lia. rewrite bind_run, le_val_bytes by done. cbv zeta.
  rewrite guard_run; cycle 1.
  { apply Z.ltb_ge. unfold TENANT_FIXED_LEN. apply Z.div_le_lower_bound; [lia|]. rewrite zlen_app, zlen_le_bytes.
    pose proof (zlen_encode_tenants (sf_sealed f)). lia. }
  rewrite to_nat_zlen, <-(app_nil_r (le_bytes 4 (sf_count f))), read_tenants_encoded, bind_run by done.
  cbv iota beta. rewrite (take_n_app _ _ (le_bytes 4 _) []) by zlen_lia.
  rewrite bind_run, guard_run by by rewrite bool_decide_true.
  rewrite le_val_bytes by done. by destruct f as [? [] ?].
Qed.

Lemma zlen_sealed_header h : zlen (encode_sealed_header h) = 28.
Proof. unfold encode_sealed_header. rewrite !zlen_app, !zlen_le_bytes. done. Qed.
Lemma zlen_sealed_magic : zlen SEALED_MAGIC = 4.
Proof. done. Qed.
Hint Rewrite zlen_sealed_header zlen_sealed_magic : len.
Lemma parse_sealed_header_encoded h rest :
  sealed_header_fits h → 12 ≤ zlen rest → parse_sealed_header (encode_sealed_header h ++ rest) = Ok h.
Proof.
  intros (F1 & F2 & F3) L. unfold parse_sealed_header, SEALED_HEADER_LEN, SEALED_TAIL_LEN.
  rewrite guard_run by (zbool; zlen_lia). rewrite slice_run by zlen_lia.
  unfold encode_sealed_header. rewrite <-!app_assoc.
  rewrite sub_prefix by done. rewrite guard_run by by rewrite bool_decide_true.
  assert (F4 : fits 2 SEALED_VERSION) by (unfold fits, SEALED_VERSION; lia).
  do 4 (match goal with |- context [le_at ?n ?b ?a] =>
    let R := fresh in eassert (R : @le_at SealedDecodeError n b a = Ok _) by field;
    rewrite R, bind_run; clear R end; try rewrite guard_run by done).
  by destruct h.
Qed.
Definition sealed_tail (h : SealedHeader) (f : SealedFooter) : bytes :=
  let body := encode_sealed_footer f in
  body ++ le_bytes 4 (zlen body) ++
  le_bytes 4 (crc32c_append (crc32c (encode_sealed_header h)) body) ++ SEALED_FOOTER_MAGIC.
Lemma zlen_sealed_tail h f : zlen (sealed_tail h f) = zlen (encode_sealed_footer f) + 12.
Proof. unfold sealed_tail. rewrite !zlen_app, !zlen_le_bytes. change (zlen SEALED_FOOTER_MAGIC) with 4. lia. Qed.
Hint Rewrite zlen_sealed_tail : len.
Lemma parse_sealed_shell_encoded h mid f :
  sealed_header_fits h → sealed_footer_fits (28 + zlen mid) f → fits 4 (zlen (encode_sealed_footer f)) →
  parse_sealed_shell (encode_sealed_header h ++ mid ++ sealed_tail h f) = Ok (h, f, 28 + zlen mid).
Proof.
  intros Fh Ff Fl. unfold parse_sealed_shell. pose proof (zlen_nonneg mid). pose proof (zlen_nonneg (encode_sealed_footer f)).
  rewrite parse_sealed_header_encoded, bind_run by (done || zlen_lia). unfold SEALED_HEADER_LEN, SEALED_TAIL_LEN.
  pose proof (crc32c_append_fits (crc32c (encode_sealed_header h)) (encode_sealed_footer f)) as Fc.
  set (obj := encode_sealed_header h ++ mid ++ sealed_tail h f).
  assert (L : zlen obj = 28 + zlen mid + zlen (encode_sealed_footer f) + 12) by (unfold obj; zlen_lia).
  assert (M4 : zlen SEALED_FOOTER_MAGIC = 4) by done.
  assert (T1 : sub obj (zlen obj - 4) (zlen obj) = SEALED_FOOTER_MAGIC).
  { rewrite L. unfold obj, sealed_tail. rewrite !app_assoc. apply sub_suffix; zlen_lia. }
  assert (T2 : @le_at SealedDecodeError 4 obj (zlen obj - 12) = Ok (zlen (encode_sealed_footer f))).
  { rewrite L. unfold obj, sealed_tail. field. }
  assert (T3 : @le_at SealedDecodeError 4 obj (zlen obj - 12 + 4) =
    Ok (crc32c_append (crc32c (encode_sealed_header h)) (encode_sealed_footer f))).
  { rewrite L. unfold obj, sealed_tail. field. }
  assert (T4 : sub obj 0 28 = encode_sealed_header h) by (unfold obj; sub_here).
  assert (T5 : sub obj (28 + zlen mid) (zlen obj - 12) = encode_sealed_footer f).
  { rewrite L. unfold obj, sealed_tail. rewrite app_assoc. apply sub_mid; zlen_lia. }
  clearbody obj. change (4 + 2 + 2 + 4 + 8 + 8) with 28. change (4 + 4 + 4) with 12.
  rewrite slice_run by lia. rewrite T1, guard_run by by rewrite bool_decide_true.
  rewrite usub_run by lia. rewrite T2, bind_run, T3, bind_run. rewrite usub_run by lia.
  rewrite guard_run by (zbool; lia). rewrite usub_run by lia. rewrite slice_run by lia.
  replace (zlen obj - 12 - zlen (encode_sealed_footer f)) with (28 + zlen mid) by lia.
  rewrite slice_run by lia. rewrite T4, T5. cbv zeta. rewrite guard_run by (zbool; done).
  by rewrite parse_sealed_footer_encoded, bind_run by done.
Qed.
Lemma collect_sealed_ok fs acc : collect_sealed (Ok <$> fs) acc = Ok (acc ++ fs).
Proof.
  revert acc. induction fs as [|f fs IH]; intros acc; cbn; [by rewrite app_nil_r|].
  change (list_fmap _ _ Ok fs) with (@Ok Frame2DecodeError Frame2 <$> fs). by rewrite IH, <-app_assoc.
Qed.
Lemma decode_sealed_encoded h fs wires f :
  sealed_header_fits h → sealed_footer_fits (28 + zlen (concat wires)) f → fits 4 (zlen (encode_sealed_footer f)) →
  Forall frame_ok fs → mapM (encode (E := Frame2DecodeError)) fs = Ok wires → sf_count f = zlen fs →
  decode_sealed (encode_sealed_header h ++ concat wires ++ sealed_tail h f) = Ok (h, fs, f).
Proof.
  intros Fh Ff Fl F W C. unfold decode_sealed. rewrite parse_sealed_shell_encoded, bind_run by done.
  pose proof (zlen_nonneg (concat wires)). pose proof (zlen_nonneg (encode_sealed_footer f)).
  unfold SEALED_HEADER_LEN. rewrite slice_run by zlen_lia. rewrite sub_mid by zlen_lia.
  rewrite (frame_stream_encoded fs wires F W), collect_sealed_ok, bind_run. cbn [app].
  by rewrite guard_run by (zbool; done).
Qed.
End sealed_codec.
#[export] Hint Rewrite @zlen_sealed_header @zlen_sealed_tail : len.
