(* ===== verification/SealedBuild.v ===== *)
(** * SealedBuild: the regions of a sealed segment

    Each tenant of a sealed segment is one region, its chunks cut it
    without gaps, and the tenant bloom has no false negatives. *)
From S2P Require Import Prelude Order Text Lsn Externals Frame Bloom Segment Sealed.

Section building.
Context `{CrcOk, Lz4Ok}.

(** The chunk is the wire forms of [g], within its LSN range. *)
Definition chunk_run (c : SealedChunk) : TenantRun := mkRun (sc_offset c) (sc_len c).
Record chunk_holds (target : Z) (buf : bytes) (c : SealedChunk) (g : list item) : Prop := {
  ch_run : run_holds buf (chunk_run c) g;
  ch_first : start_lsn <$> (fst <$> head g) = Some (sc_min_lsn c);
  ch_above : ∀ i, i ∈ g → end_lsn i.1 ≤ sc_max_lsn c;
  ch_reached : ∃ i, i ∈ g ∧ end_lsn i.1 = sc_max_lsn c;
  ch_target : sc_len c ≤ target ∨ length g = 1%nat;
  ch_start : 28 ≤ sc_offset c
}.
Record tenant_holds (target : Z) (buf : bytes) (t : SealedTenant) (g : list item) : Prop := {
  th_some : g ≠ [];
  th_tenant : Forall (λ i, tenant i.1 = st_tenant t) g;
  th_frames : st_frames t = zlen g;
  th_chunks : ∃ cgs, Forall2 (chunk_holds target buf) (st_chunks t) cgs ∧ concat cgs = g
}.
(** Where the last chunk of the last tenant ends. *)
Definition open_end (tenants : list SealedTenant) : option Z :=
  t ← last tenants; c ← last (st_chunks t); Some (sc_offset c + sc_len c).
Record sealed_ok (target : Z) (h : SealedHeader) (its : list item) (buf : bytes) (tenants : list SealedTenant) : Prop := {
  sk_buf : buf = encode_sealed_header h ++ wires_of its;
  sk_groups : ∃ gs, Forall2 (tenant_holds target buf) tenants gs ∧ concat gs = its;
  sk_end : its ≠ [] → open_end tenants = Some (zlen buf);
  sk_sorted : StronglySorted Z.lt (st_tenant <$> tenants)
}.

Lemma chunk_holds_app target buf k c g : chunk_holds target buf c g → chunk_holds target (buf ++ k) c g.
Proof. intros []. split; try done. by apply run_holds_app. Qed.
Lemma tenant_holds_app target buf k t g : tenant_holds target buf t g → tenant_holds target (buf ++ k) t g.
Proof.
  intros [A B C (cgs & F & E)]. split; try done. exists cgs. split; [|done].
  eapply Forall2_impl; [exact F|]. intros c g'. apply chunk_holds_app.
Qed.
(** The last chunk grows or a chunk starts, and holds the frame. *)
Lemma add_chunk_holds target buf cs cgs (i : item) :
  Forall2 (chunk_holds target buf) cs cgs → 28 ≤ zlen buf →
  (∀ c, last cs = Some c → sc_offset c + sc_len c = zlen buf) →
  let cs' := add_chunk target cs i.1 (zlen buf) (zlen i.2) in
  (∃ cgs', Forall2 (chunk_holds target (buf ++ i.2)) cs' cgs' ∧ concat cgs' = concat cgs ++ [i]) ∧
  ∃ c, last cs' = Some c ∧ sc_offset c + sc_len c = zlen (buf ++ i.2).
Proof.
  intros F L28 En. cbv zeta. unfold add_chunk.
  assert (F' : Forall2 (chunk_holds target (buf ++ i.2)) cs cgs).
  { eapply Forall2_impl; [exact F|]. intros c g. apply chunk_holds_app. }
  assert (New : (∃ cgs', Forall2 (chunk_holds target (buf ++ i.2))
      (cs ++ [mkSealedChunk (start_lsn i.1) (end_lsn i.1) (zlen buf) (zlen i.2)]) cgs' ∧ concat cgs' = concat cgs ++ [i]) ∧
    ∃ c, last (cs ++ [mkSealedChunk (start_lsn i.1) (end_lsn i.1) (zlen buf) (zlen i.2)]) = Some c ∧
      sc_offset c + sc_len c = zlen (buf ++ i.2)).
  { split.
    - exists (cgs ++ [[i]]). split; [|by rewrite concat_app]. apply Forall2_app; [done|]. constructor; [|done].
      split; cbn; [apply run_holds_new|done|intros j ->%list_elem_of_singleton; lia|exists i; set_solver|by right|done].
    - eexists. rewrite last_snoc. split; [done|]. cbn. zlen_lia. }
  destruct (last cs) as [c|] eqn:La; [|exact New]. destruct (_ <=? _) eqn:Cm; [|exact New]. zbool. clear New.
  specialize (En c eq_refl). apply last_Some in La as [cs' ->].
  apply Forall2_app_inv_l in F as (g1 & g2 & F1 & F2 & ->). apply Forall2_cons_inv_l in F2 as (g & g3 & Hc & N & ->).
  apply Forall2_nil_inv_l in N as ->. rewrite removelast_last. split.
  - exists (g1 ++ [g ++ [i]]). rewrite !concat_app. cbn. rewrite !app_nil_r, app_assoc. split; [|done].
    apply Forall2_app; [by eapply Forall2_app_inv_l in F' as (? & ? & ? & ? & ?); eapply Forall2_impl; [exact F1|]; intros ? ?; apply chunk_holds_app|].
    constructor; [|done]. destruct Hc as [R Fi Ab (j & Hj & Ej) _ St]. split; cbn.
    + by apply (run_holds_grow buf (chunk_run c) g i).
    + by destruct g.
    + intros x [Hx|Hx]%elem_of_app; [specialize (Ab x Hx); lia|]. apply list_elem_of_singleton in Hx as ->. lia.
    + destruct (decide (sc_max_lsn c ≤ end_lsn i.1)); [exists i; split; [set_solver|lia]|exists j; split; [set_solver|lia]].
    + by left.
    + done.
  - eexists. rewrite last_snoc. split; [done|]. cbn. zlen_lia.
Qed.
Lemma unsorted_tenants fs : unsorted fs = false → StronglySorted Z.le (tenant <$> fs).
Proof.
  intros U. apply Sorted_StronglySorted; [intros x y z; lia|]. induction fs as [|f [|g fs] IH]; [constructor|by repeat constructor|].
  cbn [unsorted] in U. apply orb_false_iff in U as [U1 U2]. rewrite fmap_cons. constructor; [by apply IH|]. constructor.
  apply oltb_false in U1. unfold ole, oleb, ocmp, prod_ord, lexc, ocmp, Z_ord in U1. cbn in U1.
  destruct (tenant f ?= tenant g) eqn:C; [rewrite Z.compare_eq_iff in C; lia|rewrite Z.compare_lt_iff in C; lia|done].
Qed.
Lemma wires_snoc its (i : item) : wires_of (its ++ [i]) = wires_of its ++ i.2.
Proof. rewrite wires_of_app. f_equal. unfold wires_of. cbn. by rewrite app_nil_r. Qed.

(** One frame more. *)
Lemma push_sealed_ok {E} target h its buf tenants (i : item) :
  sealed_ok target h its buf tenants → wired i → zlen its < u32_max → Forall (λ j, tenant j.1 ≤ tenant i.1) its →
  ∃ tenants', push_sealed (E := E) target buf tenants i.1 = Ok (buf ++ i.2, tenants') ∧
    sealed_ok target h (its ++ [i]) (buf ++ i.2) tenants'.
Proof.
  intros [Eb (gs & G & Eg) En So] [Fo W] L Le. unfold push_sealed.
  assert (We : encode (E := E) i.1 = Ok i.2) by by by eapply encode_any. rewrite We, bind_run. cbv zeta.
  assert (L28 : 28 ≤ zlen buf) by (rewrite Eb; pose proof (zlen_nonneg (wires_of its)); zlen_lia).
  assert (G' : Forall2 (tenant_holds target (buf ++ i.2)) tenants gs).
  { eapply Forall2_impl; [exact G|]. intros t g. apply tenant_holds_app. }
  case_bool_decide as Sm.
  - destruct (last tenants) as [t|] eqn:La; [|done]. cbn in Sm. injection Sm as Sm. cbn [expect]. rewrite bind_run.
    apply last_Some in La as [ts ->]. apply Forall2_app_inv_l in G as (g1 & g2 & G1 & G2 & ->).
    apply Forall2_cons_inv_l in G2 as (g & g3 & Ht & N & ->). apply Forall2_nil_inv_l in N as ->.
    apply Forall2_app_inv_l in G' as (g1' & g2' & G1' & _ & Eg'). rewrite concat_app in Eg. cbn in Eg. rewrite app_nil_r in Eg.
    assert (g1' = g1) as ->.
    { pose proof (Forall2_length _ _ _ G1). pose proof (Forall2_length _ _ _ G1'). apply app_inj_1 in Eg' as [-> _]; [done|lia]. }
    destruct Ht as [Sm' Tn Fr (cgs & Fc & Ec)]. rewrite removelast_last. subst its.
    rewrite incr32_run by (rewrite Fr; revert L; rewrite zlen_app; pose proof (zlen_nonneg (concat g1)); lia).
    eexists. split; [reflexivity|].
    destruct (add_chunk_holds target buf (st_chunks t) cgs i Fc L28) as [(cgs' & Fc' & Ec') (c & Lc & Ce)].
    { intros c Lc. specialize (En ltac:(by destruct (concat g1), g)). unfold open_end in En. rewrite last_snoc in En. cbn in En.
      rewrite Lc in En. cbn in En. congruence. }
    split.
    + by rewrite Eb, wires_snoc, <-app_assoc.
    + exists (g1 ++ [g ++ [i]]). split; [|rewrite !concat_app; cbn; by rewrite app_nil_r, app_assoc].
      apply Forall2_app; [done|]. constructor; [|done]. split; cbn; [by destruct g| | |].
      * apply Forall_app. split; [done|]. by constructor.
      * rewrite Fr, zlen_app. done.
      * exists cgs'. split; [done|]. by rewrite Ec', Ec.
    + intros _. unfold open_end. rewrite last_snoc. cbn. rewrite Lc. cbn. by rewrite Ce.
    + rewrite fmap_app in *. done.
  - rewrite last_snoc. cbn [expect]. rewrite bind_run, removelast_last. cbn [st_frames st_tenant st_chunks]. rewrite incr32_run by (unfold u32_max; lia).
    eexists. split; [reflexivity|].
    destruct (add_chunk_holds target buf [] [] i) as [(cgs' & Fc' & Ec') (c & Lc & Ce)]; [done|done|done|].
    split.
    + by rewrite Eb, wires_snoc, <-app_assoc.
    + exists (gs ++ [[i]]). split; [|by rewrite concat_app, Eg]. apply Forall2_app; [done|]. constructor; [|done].
      split; cbn; [done|by constructor|done|]. by exists cgs'.
    + intros _. unfold open_end. rewrite last_snoc. cbn [mbind option_bind st_chunks]. rewrite Lc. cbn. by rewrite Ce.
    + rewrite fmap_app. change (st_tenant <$> [_]) with [tenant i.1]. apply (sorted_snoc Z.lt); [exact So|].
      intros p Lp. rewrite fmap_last, fmap_Some in Lp.
      destruct Lp as (t & Lt & ->). rewrite Lt in Sm. cbn in Sm. cbn. assert (Ne : st_tenant t ≠ tenant i.1) by congruence.
      apply last_Some in Lt as [ts ->]. apply Forall2_app_inv_l in G as (g1 & g2 & G1 & G2 & ->).
      apply Forall2_cons_inv_l in G2 as (g & g3 & [Sg Tg _ _] & _ & ->). destruct g as [|j g]; [done|].
      apply Forall_cons in Tg as [Tj _]. rewrite Forall_forall in Le. specialize (Le j). rewrite <-Tj in *.
      assert (tenant j.1 ≤ tenant i.1); [|lia]. apply Le. rewrite <-Eg, concat_app. set_solver.
Qed.
Lemma push_all_sealed_ok {E} target h its its' buf tenants :
  sealed_ok target h its buf tenants → Forall wired its' → zlen its + zlen its' ≤ u32_max →
  StronglySorted Z.le (tenant <$> (fst <$> (its ++ its'))) →
  ∃ tenants', push_all_sealed (E := E) target buf tenants (fst <$> its') = Ok (buf ++ wires_of its', tenants') ∧
    sealed_ok target h (its ++ its') (buf ++ wires_of its') tenants'.
Proof.
  revert its buf tenants. induction its' as [|i its' IH]; intros its buf tenants O W L So.
  - exists tenants. unfold wires_of. cbn. by rewrite !app_nil_r.
  - rewrite zlen_cons in L. pose proof (zlen_nonneg its'). apply Forall_cons in W as [Wi W].
    assert (Le : Forall (λ j, tenant j.1 ≤ tenant i.1) its).
    { apply Forall_forall. intros j Hj. rewrite !fmap_app in So. eapply StronglySorted_app_1_elem_of; [exact So|..].
      - by do 2 apply list_elem_of_fmap_2.
      - left. }
    destruct (push_sealed_ok (E := E) target h its buf tenants i O Wi) as (t1 & P & O1); [lia|done|].
    destruct (IH (its ++ [i]) _ t1 O1 W) as (t2 & P2 & O2); [zlen_lia|by rewrite <-app_assoc|].
    exists t2. rewrite fmap_cons. cbn [push_all_sealed]. rewrite P, bind_run. rewrite <-(app_assoc its), <-(app_assoc buf) in O2. rewrite <-(app_assoc buf) in P2.
    assert (wires_of (i :: its') = i.2 ++ wires_of its') as -> by done. split; [exact P2|exact O2].
Qed.

(** ** The bloom *)
Lemma tb_insert_len b t : zlen (tb_bits (tb_insert b t)) = zlen (tb_bits b).
Proof. unfold tb_insert, zlen. cbn [tb_bits]. by rewrite length_set_bits. Qed.
Lemma tb_inserts_len b ts : zlen (tb_bits (foldl tb_insert b ts)) = zlen (tb_bits b).
Proof. revert b. induction ts as [|t ts IH]; intros b; cbn; [done|]. by rewrite IH, tb_insert_len. Qed.
Lemma tb_positions_len b b' t : zlen (tb_bits b) = zlen (tb_bits b') → tb_positions b t = tb_positions b' t.
Proof. unfold tb_positions. by intros ->. Qed.
Lemma tb_insert_keeps b t t' : 0 < zlen (tb_bits b) → t = t' ∨ tb_may_contain b t' = true → tb_may_contain (tb_insert b t) t' = true.
Proof.
  intros Pb D. unfold tb_may_contain in *. rewrite (tb_positions_len _ b) by apply tb_insert_len.
  apply forallb_forall. intros q Hq. apply list_elem_of_In in Hq.
  assert (R : ∀ t p, p ∈ tb_positions b t → 0 ≤ p < zlen (tb_bits b) * 8).
  { intros t0 p Hp. unfold tb_positions in Hp. apply probes_range in Hp; lia. }
  unfold tb_insert. cbn [tb_bits]. apply test_set_bits; [apply R|by apply (R t')|].
  destruct D as [-> |D]; [by left|right]. rewrite forallb_forall in D. apply D. by apply list_elem_of_In.
Qed.
Lemma tb_no_false_negatives b ts t : 0 < zlen (tb_bits b) → t ∈ ts ∨ tb_may_contain b t = true → tb_may_contain (foldl tb_insert b ts) t = true.
Proof.
  revert b. induction ts as [|x ts IH]; intros b Pb D; cbn; [destruct D; [set_solver|done]|].
  apply IH; [by rewrite tb_insert_len|]. destruct D as [[-> |D]%elem_of_cons|D]; [right|by left|right]; apply tb_insert_keeps; auto.
Qed.
Definition MAX_SEALED_FRAMES : Z := 2 ^ 26.
Lemma tb_sized n : 0 ≤ n ≤ MAX_SEALED_FRAMES → ∃ k, 6 ≤ k ≤ 27 ∧ zlen (tb_bits (tb_sized_for n)) = 2 ^ k.
Proof.
  intros N. destruct (sized_for_len n) as (k & Hk & E). change (zlen (tb_bits (tb_sized_for n)) = 2 ^ k) in E.
  exists k. split; [|done]. split; [done|]. apply (Z.pow_le_mono_r_iff 2); [lia..|]. rewrite <-E. unfold tb_sized_for. cbn [tb_bits].
  rewrite zlen_replicate. assert (D : (n * 10 + 7) / 8 ≤ 2 ^ 27) by (apply Z.div_le_upper_bound; unfold MAX_SEALED_FRAMES in *; lia).
  assert (P : next_power_of_two ((n * 10 + 7) / 8) ≤ 2 ^ 27).
  { unfold next_power_of_two. destruct (_ <=? 1) eqn:C; [lia|]. zbool. apply Z.pow_le_mono_r; [lia|].
    rewrite <-(Z.log2_up_pow2 27) by lia. by apply Z.log2_up_le_mono. }
  lia.
Qed.

(** ** One tenant's frames *)
Lemma group_of_tenant target buf ts gs t :
  Forall2 (tenant_holds target buf) ts gs → StronglySorted Z.lt (st_tenant <$> ts) → t ∈ ts →
  ∃ g, tenant_holds target buf t g ∧ of_tenant (st_tenant t) (concat gs) = g.
Proof.
  intros F. induction F as [|t' g ts gs Ht F IH]; intros So; [set_solver|]. rewrite fmap_cons in So.
  apply StronglySorted_cons in So as [Lt So]. rewrite Forall_forall in Lt. cbn [concat]. unfold of_tenant in *. rewrite filter_app.
  assert (None_ : ∀ n l, Forall (λ i, tenant i.1 ≠ n) l → filter (λ i : item, tenant i.1 = n) l = []).
  { intros n l Fl. induction Fl as [|i l Ni Fl IHl]; [done|]. by rewrite filter_cons_False. }
  assert (All_ : ∀ n l, Forall (λ i, tenant i.1 = n) l → filter (λ i : item, tenant i.1 = n) l = l).
  { intros n l Fl. induction Fl as [|i l Ni Fl IHl]; [done|]. by rewrite filter_cons_True, IHl. }
  intros [-> |Hin]%elem_of_cons.
  - exists g. split; [done|]. rewrite (All_ _ g) by apply Ht. rewrite None_; [by rewrite app_nil_r|].
    apply Forall_forall. intros i (l & Hi & Hl)%elem_of_concat. apply list_elem_of_lookup_1 in Hl as [j Hj].
    destruct (Forall2_lookup_r _ _ _ _ _ F Hj) as (u & Hu & Hh). pose proof (th_tenant _ _ _ _ Hh) as Tu. rewrite Forall_forall in Tu.
    rewrite (Tu i Hi). specialize (Lt (st_tenant u) ltac:(apply list_elem_of_fmap_2; by eapply list_elem_of_lookup_2)). lia.
  - destruct (IH So Hin) as (g' & Hg & Eg). exists g'. split; [done|]. rewrite Eg, None_; [done|].
    eapply Forall_impl; [apply (th_tenant _ _ _ _ Ht)|]. cbn. intros i ->.
    specialize (Lt (st_tenant t) ltac:(by apply list_elem_of_fmap_2)). lia.
Qed.
(** ** The footer fits its widths *)
Lemma chunks_le target buf cs cgs : Forall2 (chunk_holds target buf) cs cgs → zlen cs ≤ zlen (concat cgs).
Proof.
  induction 1 as [|c g cs cgs [(_ & _ & _ & N & _) _ _ _ _ _] F IH]; [done|]. cbn [concat].
  destruct g as [|i g]; [done|]. pose proof (zlen_nonneg g). zlen_lia.
Qed.
Lemma tenants_le target buf ts gs :
  Forall2 (tenant_holds target buf) ts gs →
  zlen ts ≤ zlen (concat gs) ∧ zlen (concat (encode_tenant <$> ts)) ≤ 56 * zlen (concat gs).
Proof.
  induction 1 as [|t g ts gs [N _ _ (cgs & Fc & Ec)] F [IH1 IH2]]; [done|]. rewrite fmap_cons. cbn [concat].
  pose proof (chunks_le _ _ _ _ Fc) as Lc. rewrite Ec in Lc. rewrite !zlen_app, zlen_encode_tenant, zlen_cons.
  destruct g as [|i g]; [done|]. rewrite zlen_cons in *. pose proof (zlen_nonneg g). lia.
Qed.
Lemma chunk_fits_of target buf c g :
  chunk_holds target buf c g → Forall wired g → zlen buf ≤ u64_max → chunk_fits (zlen buf) c.
Proof.
  intros [(A & B & C & N & _) Fi _ (j & Hj & Ej) _ St] W L. cbn in *. rewrite Forall_forall in W.
  destruct (W j Hj) as [(_ & _ & _ & Fe & _) _]. destruct g as [|i g]; [done|]. cbn in Fi. injection Fi as Fi.
  destruct (W i ltac:(left)) as [(_ & _ & Fs & _) _]. unfold chunk_fits. rewrite <-Fi, <-Ej.
  assert (U : u64_max < 2 ^ (8 * Z.of_nat 8)) by (unfold u64_max; cbn; lia).
  split_and!; [done|done|unfold fits; lia|unfold fits; lia|done|done|done].
Qed.
Lemma tenant_fits_of target buf t g :
  tenant_holds target buf t g → Forall wired g → zlen buf ≤ u64_max → zlen g ≤ MAX_SEALED_FRAMES → tenant_fits (zlen buf) t.
Proof.
  intros [N Tn Fr (cgs & Fc & Ec)] W L Lg. pose proof (chunks_le _ _ _ _ Fc) as Lc. rewrite Ec in Lc. unfold MAX_SEALED_FRAMES in *.
  pose proof (zlen_nonneg (st_chunks t)). pose proof (zlen_nonneg g). split_and!.
  - destruct g as [|i g]; [done|]. apply Forall_cons in Tn as [<- _]. apply Forall_cons in W as [[(Ft & _) _] _]. done.
  - rewrite Fr. unfold fits. lia.
  - unfold fits. lia.
  - rewrite <-Ec in W. clear -Fc W L. induction Fc as [|c g cs cgs Hc Fc IH]; [constructor|]. cbn in W. apply Forall_app in W as [W1 W2].
    constructor; [by eapply chunk_fits_of|by apply IH].
Qed.
Lemma sealed_footer_ok target h its buf tenants :
  sealed_ok target h its buf tenants → Forall wired its → zlen its ≤ MAX_SEALED_FRAMES →
  let f := mkSealedFooter (as_u32 (zlen its)) (foldl tb_insert (tb_sized_for (zlen tenants)) (st_tenant <$> tenants)) tenants in
  sealed_footer_fits (28 + zlen (wires_of its)) f ∧ fits 4 (zlen (encode_sealed_footer f)) ∧ sf_count f = zlen its.
Proof.
  intros [Eb (gs & G & Eg) _ _] W L f. pose proof (zlen_nonneg its). pose proof (zlen_nonneg tenants). pose proof (wired_len its W) as Wl.
  destruct (tenants_le _ _ _ _ G) as [Lt Le]. rewrite Eg in Lt, Le. unfold MAX_SEALED_FRAMES in *.
  destruct (tb_sized (zlen tenants)) as (k & Hk & Ek); [unfold MAX_SEALED_FRAMES; lia|].
  assert (Pk : 2 ^ k ≤ 2 ^ 27) by (apply Z.pow_le_mono_r; lia).
  assert (Lb : zlen (tb_bits (sf_bloom f)) = 2 ^ k) by (unfold f; cbn [sf_bloom]; by rewrite tb_inserts_len).
  assert (Cn : sf_count f = zlen its) by (unfold f; cbn; apply as_u32_small; unfold fits; lia).
  assert (Bl : zlen buf = 28 + zlen (wires_of its)) by (rewrite Eb; zlen_lia).
  split_and!; [|unfold encode_sealed_footer; rewrite !zlen_app, !zlen_le_bytes, Lb|done].
  - rewrite <-Bl. split_and!; [cbn; unfold fits; lia| |rewrite Cn; unfold fits; lia|exists k; split; [lia|done]].
    cbn [sf_sealed f]. subst its. clear -G W L Bl Wl. assert (Lu : zlen buf ≤ u64_max) by (unfold u64_max; lia). clear Bl Wl.
    induction G as [|t g ts gs Ht G IH]; [constructor|]. cbn in W, L. apply Forall_app in W as [W1 W2]. rewrite zlen_app in L.
    pose proof (zlen_nonneg g). pose proof (zlen_nonneg (concat gs)).
    constructor; [eapply tenant_fits_of; [done|done|done|unfold MAX_SEALED_FRAMES; lia]|apply IH; (done || lia)].
  - unfold fits. cbn [f sf_sealed]. pose proof (zlen_nonneg (concat (encode_tenant <$> tenants))). lia.
Qed.
Lemma build_sealed_run target h its :
  Forall wired its → zlen its ≤ MAX_SEALED_FRAMES → unsorted (fst <$> its) = false →
  ∃ tenants, let f := mkSealedFooter (as_u32 (zlen its)) (foldl tb_insert (tb_sized_for (zlen tenants)) (st_tenant <$> tenants)) tenants in
    let buf := encode_sealed_header h ++ wires_of its in
    build_sealed h (fst <$> its) target = Ok (encode_sealed_header h ++ wires_of its ++ sealed_tail h f, f) ∧
    sealed_ok target h its buf tenants.
Proof.
  intros W L U. assert (O0 : sealed_ok target h [] (encode_sealed_header h) []).
  { split; [by rewrite app_nil_r|by exists []|done|constructor]. }
  destruct (push_all_sealed_ok (E := SealedBuildError) target h [] its _ [] O0 W) as (ts & P & O).
  { rewrite zlen_nil. unfold MAX_SEALED_FRAMES, u32_max in *. lia. }
  { by apply unsorted_tenants. }
  cbn [app] in O. exists ts. cbv zeta. split; [|done]. destruct (sealed_footer_ok _ _ _ _ _ O W L) as (_ & Fl & _).
  unfold build_sealed. rewrite guard_run by done. rewrite P, bind_run. cbv iota beta zeta. unfold SEALED_HEADER_LEN.
  replace (zlen (fst <$> its)) with (zlen its) by (unfold zlen; by rewrite length_fmap).
  set (f := mkSealedFooter _ _ _) in *. set (pre := encode_sealed_header h ++ wires_of its).
  assert (Lp : 28 ≤ zlen pre) by (pose proof (zlen_nonneg (wires_of its)); unfold pre; zlen_lia).
  replace (zlen (pre ++ encode_sealed_footer f) - zlen pre) with (zlen (encode_sealed_footer f)) by zlen_lia.
  rewrite as_u32_small by done. pose proof (zlen_nonneg (encode_sealed_footer f)).
  rewrite slice_run by zlen_lia. rewrite slice_run by zlen_lia. rewrite <-!app_assoc.
  assert (sub (pre ++ encode_sealed_footer f ++ le_bytes 4 (zlen (encode_sealed_footer f))) 0 (4 + 2 + 2 + 4 + 8 + 8) =
    encode_sealed_header h) as -> by (unfold pre; rewrite <-!app_assoc; sub_here).
  rewrite (sub_mid pre (encode_sealed_footer f)) by zlen_lia.
  unfold pre, sealed_tail. by rewrite <-!app_assoc.
Qed.
End building.

(** What a reader gets from one chunk of the object: a range inside it that
    streams back as the frames [g], within the chunk's LSN range, no longer
    than the target unless one frame is. *)
Definition chunk_reads `{Crc, Lz4} (target : Z) (obj : bytes) (c : SealedChunk) (g : list item) : Prop :=
  (0 ≤ sc_offset c ∧ 0 ≤ sc_len c ∧ sc_offset c + sc_len c ≤ zlen obj) ∧
  frame_stream (run_bytes obj (chunk_run c)) = Ok <$> (fst <$> g) ∧
  start_lsn <$> (fst <$> head g) = Some (sc_min_lsn c) ∧
  (∀ i, i ∈ g → end_lsn i.1 ≤ sc_max_lsn c) ∧
  (sc_len c ≤ target ∨ length g = 1%nat).
Lemma chunks_read `{CrcOk, Lz4Ok} target buf k cs cgs :
  Forall2 (chunk_holds target buf) cs cgs → Forall wired (concat cgs) → Forall2 (chunk_reads target (buf ++ k)) cs cgs.
Proof.
  induction 1 as [|c g cs cgs Hc F IH]; intros W; [constructor|]. cbn in W. apply Forall_app in W as [Wg W].
  constructor; [|by apply IH]. destruct Hc as [R Fi Ab _ Tg St]. apply (run_holds_app _ k) in R. split_and!; try done.
  - lia.
  - by destruct R as (_ & ? & _).
  - by destruct R as (_ & _ & ? & _).
  - pose proof (runs_stream (buf ++ k) [chunk_run c] [g]) as S1. cbn in S1. rewrite !app_nil_r in S1. apply S1; [|done].
    by constructor.
Qed.

(** What is built from sorted frames. *)
Record sealed_exact `{Crc, Lz4} (target : Z) (h : SealedHeader) (its : list item) (obj : bytes) (footer : SealedFooter) : Prop := {
  se_decodes : decode_sealed obj = Ok (h, fst <$> its, footer);
  se_footer : read_sealed_footer obj = Ok (h, footer);
  se_sorted : StronglySorted Z.lt (st_tenant <$> sf_sealed footer);
  se_named : ∀ i, i ∈ its → tenant i.1 ∈ st_tenant <$> sf_sealed footer ∧ tb_may_contain (sf_bloom footer) (tenant i.1) = true;
  se_tenant : ∀ t, t ∈ sf_sealed footer →
    let mine := of_tenant (st_tenant t) its in
    mine ≠ [] ∧ st_frames t = zlen mine ∧
    ∃ cgs, Forall2 (chunk_reads target obj) (st_chunks t) cgs ∧ concat cgs = mine;
  se_count : foldr (λ t n, st_frames t + n) 0 (sf_sealed footer) = zlen its
}.
Lemma build_sealed_exact `{CrcOk, Lz4Ok} target h its :
  sealed_header_fits h → Forall wired its → zlen its ≤ MAX_SEALED_FRAMES → unsorted (fst <$> its) = false →
  ∃ obj footer, build_sealed h (fst <$> its) target = Ok (obj, footer) ∧ sealed_exact target h its obj footer ∧
    ∃ start, Forall (tenant_fits start) (sf_sealed footer).
Proof.
  intros Fh W L U. destruct (build_sealed_run target h its W L U) as (ts & Bd & O). cbv zeta in Bd.
  destruct (sealed_footer_ok _ _ _ _ _ O W L) as (Ff & Fl & Cn). set (f := mkSealedFooter _ _ _) in *.
  destruct O as [_ (gs & G & Eg) _ So]. eexists _, f. split_and!; [exact Bd| |eexists; apply Ff]. split.
  - apply decode_sealed_encoded; [done..|by apply wired_ok|by apply wired_mapM|]. rewrite Cn. unfold zlen. by rewrite length_fmap.
  - unfold read_sealed_footer. by rewrite parse_sealed_shell_encoded, bind_run by done.
  - exact So.
  - intros i Hi. assert (Ti : tenant i.1 ∈ st_tenant <$> ts).
    { rewrite <-Eg in Hi. apply elem_of_concat in Hi as (g & Hi & [j Hj]%list_elem_of_lookup_1).
      destruct (Forall2_lookup_r _ _ _ _ _ G Hj) as (t & Ht & Hh). pose proof (th_tenant _ _ _ _ Hh) as Tg.
      rewrite Forall_forall in Tg. rewrite (Tg i Hi). apply list_elem_of_fmap_2. by eapply list_elem_of_lookup_2. }
    split; [exact Ti|]. apply tb_no_false_negatives; [|by left]. destruct (tenants_le _ _ _ _ G) as [Lt _]. rewrite Eg in Lt.
    pose proof (zlen_nonneg ts). destruct (tb_sized (zlen ts)) as (k & Hk & ->); [lia|]. apply Z.pow_pos_nonneg; lia.
  - intros t Ht. cbv zeta. destruct (group_of_tenant _ _ _ _ t G So Ht) as (g & [N _ Fr (cgs & Fc & Ec)] & Eo).
    rewrite Eg in Eo. rewrite Eo. split_and!; [done|done|]. exists cgs. split; [|done]. rewrite app_assoc.
    apply chunks_read; [done|]. rewrite Ec, <-Eo. by apply wired_of_tenant.
  - rewrite <-Eg. clear -G. cbn [f sf_sealed]. induction G as [|t g ts gs Ht G IH]; [done|]. cbn.
    rewrite IH, zlen_app, (th_frames _ _ _ _ Ht). done.
Qed.

(** C39: sorted frames build into an object that decodes to its header, its
    frames in order and the footer the builder returned.  The footer names
    its tenants in increasing order and no others, the bloom passes each of
    them, and a tenant's chunks cut its frames, in order, into byte ranges
    of the object that stream back as exactly those frames, within the
    chunk's LSN range and target.  Unsorted frames are refused. *)
Theorem sealed_round_trip `{CrcOk, Lz4Ok} (h : SealedHeader) (its : list item) (target : Z) :
  sealed_header_fits h → Forall wired its → zlen its ≤ MAX_SEALED_FRAMES →
  if unsorted (fst <$> its) then build_sealed h (fst <$> its) target = Err Unsorted else
  ∃ obj footer,
    build_sealed h (fst <$> its) target = Ok (obj, footer) ∧
    decode_sealed obj = Ok (h, fst <$> its, footer) ∧
    read_sealed_footer obj = Ok (h, footer) ∧
    StronglySorted Z.lt (st_tenant <$> sf_sealed footer) ∧
    (∀ i, i ∈ its → tenant i.1 ∈ st_tenant <$> sf_sealed footer ∧ tb_may_contain (sf_bloom footer) (tenant i.1) = true) ∧
    ∀ t, t ∈ sf_sealed footer →
      let mine := of_tenant (st_tenant t) its in
      mine ≠ [] ∧ st_frames t = zlen mine ∧
      ∃ cgs, Forall2 (chunk_reads target obj) (st_chunks t) cgs ∧ concat cgs = mine.
Proof.
  intros Fh W L. destruct (unsorted _) eqn:U; [unfold build_sealed; by rewrite U|].
  destruct (build_sealed_exact target h its Fh W L U) as (obj & f & Bd & [] & _). by exists obj, f.
Qed.

(** ** Witnesses *)
Module SealedWitness.
Import Concrete FrameWitness SegmentWitness.

Definition h_round : SealedHeader := mkSealedHeader 3 9 12.
(** Tenant 3's frame first, then the other tenant's, twice. *)
Definition sealed_its : list item := (λ f, (f, wire_of f)) <$> [f2; f1; f1].
Definition chunk_small : Z := 60.

Lemma sealed_its_wired : Forall wired sealed_its.
Proof.
  apply Forall_fmap. repeat constructor; try (apply (bool_decide_unpack _); by vm_compute); by vm_compute.
Qed.
Lemma sealed_round_trip_witness :
  ∃ obj footer,
    build_sealed h_round [f2; f1; f1] chunk_small = Ok (obj, footer) ∧
    decode_sealed obj = Ok (h_round, [f2; f1; f1], footer) ∧ read_sealed_footer obj = Ok (h_round, footer).
Proof.
  pose proof (sealed_round_trip h_round sealed_its chunk_small) as R.
  assert (U : unsorted (fst <$> sealed_its) = false) by by vm_compute. rewrite U in R.
  destruct R as (obj & footer & B & D & F & _).
  - unfold sealed_header_fits, fits. cbn. lia.
  - apply sealed_its_wired.
  - by vm_compute.
  - exists obj, footer. split_and!; [exact B|exact D|exact F].
Defined.

(** The same round, run: the target cuts the second tenant in two chunks. *)
Example sealed_runs :
  match build_sealed h_round [f2; f1; f1] chunk_small with
  | Ok (_, f) => ((λ t, (st_tenant t, st_frames t, length (st_chunks t))) <$> sf_sealed f)
  | _ => []
  end = [(3, 1, 1%nat); (0xc0ffee, 2, 2%nat)].
Proof. by vm_compute. Qed.
(** One target for all: one chunk each. *)
Example sealed_runs_whole :
  match build_sealed h_round [f2; f1; f1] SEALED_CHUNK_TARGET with
  | Ok (_, f) => ((λ t, (st_tenant t, st_frames t, length (st_chunks t))) <$> sf_sealed f)
  | _ => []
  end = [(3, 1, 1%nat); (0xc0ffee, 2, 1%nat)].
Proof. by vm_compute. Qed.
Example sealed_refuses_unsorted : build_sealed h_round [f1; f2] SEALED_CHUNK_TARGET = Err Unsorted.
Proof. by vm_compute. Qed.
End SealedWitness.
