(* ===== verification/Consolidate.v ===== *)
(** * Consolidate: rounds (crates/zou-log/src/consolidate.rs)

    A round folds the landing segments past the consolidated boundary into
    one sealed segment, publishes an index of where each tenant's frames
    went, and moves the boundary by swapping the shard manifest. *)
From S2P Require Import Prelude Order Text Lsn Externals Frame Segment Cas Media Chain Sealed.

Definition ROUND_INDEX_FORMAT : Z := 1.
(** [round_key] *)
Definition round_key (shard round : Z) : bytes :=
  str "cellwal-rounds/" ++ fmt_hex 4 shard ++ str "/" ++ fmt_hex 8 round ++ str ".idx".

Record RoundChunk := mkRoundChunk { rc_min_lsn : Z; rc_max_lsn : Z; rc_offset : Z; rc_len : Z }.
#[global] Instance RoundChunk_eq_dec : EqDecision RoundChunk.
Proof. solve_decision. Defined.
Record RoundTenant := mkRoundTenant { rt_tenant : Z; rt_watermark : Z; rt_frames : Z; rt_chunks : list RoundChunk }.
#[global] Instance RoundTenant_eq_dec : EqDecision RoundTenant.
Proof. solve_decision. Defined.
Record RoundIndex := mkRoundIndex {
  ri_format : Z;
  ri_shard : Z;
  ri_round : Z;
  ri_first_seq : Z;
  ri_last_seq : Z;
  ri_sealed : bytes;
  ri_unix : Z;
  ri_tenants : list RoundTenant
}.
#[global] Instance RoundIndex_eq_dec : EqDecision RoundIndex.
Proof. solve_decision. Defined.

(** [reason] says why a round is unusable. *)
Inductive RoundReason :=
  | RoundNotJson
  | RoundNewerFormat (format : Z)
  | RoundCovers (first_seq last_seq consolidated_upto : Z)
  | NewestIndexMissing
  | RetainedIndexMissing
  | SealedMissing (sealed : bytes)
  | ChunkCorrupt (offset : Z) (source : Frame2DecodeError).
Inductive ConsolidateError :=
  | CoChain (e : ChainError)
  | CoStore (e : CasError)
  | BadRound (shard round : Z) (reason : RoundReason)
  | Discontinuity (tenant expect found : Z)
  | Raced (shard : Z).
Record ConsolidateOutcome := mkOutcome {
  oc_round : Z; oc_first_seq : Z; oc_last_seq : Z; oc_frames : Z; oc_sealed : bytes; oc_adopted : bool
}.

(** [serde_json] on a round index. *)
Class SerdeRound := {
  round_from_slice : bytes → option RoundIndex;
  round_to_vec : RoundIndex → bytes
}.
Definition round_chunk_fits (c : RoundChunk) : Prop :=
  fits 8 (rc_min_lsn c) ∧ fits 8 (rc_max_lsn c) ∧ fits 8 (rc_offset c) ∧ fits 8 (rc_len c).
Definition round_tenant_fits (t : RoundTenant) : Prop :=
  fits 16 (rt_tenant t) ∧ fits 8 (rt_watermark t) ∧ fits 4 (rt_frames t) ∧ Forall round_chunk_fits (rt_chunks t).
Definition round_fits (r : RoundIndex) : Prop :=
  fits 4 (ri_format r) ∧ fits 4 (ri_shard r) ∧ fits 8 (ri_round r) ∧ fits 8 (ri_first_seq r) ∧ fits 8 (ri_last_seq r) ∧
  fits 8 (ri_unix r) ∧ Forall round_tenant_fits (ri_tenants r).
Class SerdeRoundOk `{SerdeRound} : Prop := {
  round_parses : ∀ r, round_fits r → round_from_slice (round_to_vec r) = Some r;
  round_in_range : ∀ d r, round_from_slice d = Some r → round_fits r
}.

(** ** The fold *)
(** The key frames are sorted by. *)
Definition fold_key (f : Frame2) : Z * (Z * Z) := (tenant f, (start_lsn f, end_lsn f)).
Definition sort_frames (frames : list Frame2) : list Frame2 := sort_by (λ f g, oleb (fold_key f) (fold_key g)) frames.
(** The loop over the sorted frames: the watermarks and the frames kept. *)
Fixpoint fold_watermarks (watermarks : list (Z * Z)) (kept frames : list Frame2) :
    res ConsolidateError (list (Z * Z) * list Frame2) :=
  match frames with
  | [] => mret (watermarks, kept)
  | frame :: frames =>
      let push := fold_watermarks (bt_insert (tenant frame) (end_lsn frame) watermarks) (kept ++ [frame]) frames in
      match bt_get (tenant frame) watermarks with
      | Some w =>
          if end_lsn frame <=? w then fold_watermarks watermarks kept frames
          else if negb (start_lsn frame =? w) then Err (Discontinuity (tenant frame) w (start_lsn frame))
          else push
      | None => push
      end
  end.
Definition watermarks_of (tenants : list RoundTenant) : list (Z * Z) :=
  foldl (λ m t, bt_insert (rt_tenant t) (rt_watermark t) m) [] tenants.
Definition round_chunk (c : SealedChunk) : RoundChunk := mkRoundChunk (sc_min_lsn c) (sc_max_lsn c) (sc_offset c) (sc_len c).
Definition per_tenant (tenants : list SealedTenant) : list (Z * (Z * list RoundChunk)) :=
  foldl (λ m t, bt_insert (st_tenant t) (st_frames t, round_chunk <$> st_chunks t) m) [] tenants.
(** Every watermark with what the round sealed for its tenant. *)
Fixpoint index_tenants (watermarks : list (Z * Z)) (sealed : list (Z * (Z * list RoundChunk))) : list RoundTenant :=
  match watermarks with
  | [] => []
  | (t, w) :: watermarks =>
      let '(frames, chunks) := default (0, []) (bt_get t sealed) in
      mkRoundTenant t w frames chunks :: index_tenants watermarks (bt_remove t sealed)
  end.
(** [sum()] of [u64]s. *)
Fixpoint usum {E} (l : list Z) : res E Z :=
  match l with [] => mret 0 | n :: l => s ← usum l; uadd n s end.

Section consolidate.
Context `{Crc, Lz4, SerdeLog, SerdeRound}.
Abbreviation coprog := (mprog ConsolidateError).

(** [RoundIndex::load] *)
Definition round_load (store : medium) (shard round : Z) : coprog (option RoundIndex) :=
  cur ← mmap_err CoStore (mget store (round_key shard round));
  match cur with
  | None => mret None
  | Some (data, _) =>
      index ← Done (ok_or (round_from_slice data) (BadRound shard round RoundNotJson));
      _ ← Done (guard_err (ROUND_INDEX_FORMAT <? ri_format index) (BadRound shard round (RoundNewerFormat (ri_format index))));
      mret (Some index)
  end.
(** The same, where the index must be there. *)
Definition round_must_load (missing : RoundReason) (store : medium) (shard round : Z) : coprog RoundIndex :=
  found ← round_load store shard round;
  Done (ok_or found (BadRound shard round missing)).

(** [publish]: the commit point. *)
Definition published (manifest : ShardManifest) (upto digest round : Z) : ShardManifest :=
  mkLog SHARD_MANIFEST_FORMAT (lm_shard manifest) (lm_chain_epoch manifest) (lm_head manifest) upto digest
    (Some (mkRounds (from_option rr_first round (lm_rounds manifest)) round))
    (lm_gc_round manifest) (lm_sealed_by manifest) (lm_sealed_unix manifest).
(** Swap the manifest; a conflict is a lost race. *)
Definition swap_log (store : medium) (shard : Z) (next : ShardManifest) (version : Version) : coprog () :=
  mhandle (mput_match store (manifest_key shard) (log_to_vec_pretty next) (Some version)) (λ r,
    match r with
    | Ok _ => mret ()
    | Err (Conflict _) => Done (Err (Raced shard))
    | Err e => Done (Err (CoStore e))
    | Panic => Done Panic
    end).
Definition publish_round (store : medium) (manifest : ShardManifest) (version : Version) (upto digest round : Z) : coprog () :=
  let next := published manifest upto digest round in
  swap_log store (lm_shard next) next version.

(** A create only put; [taken] says what an object already there means. *)
Definition create (store : medium) (key data : bytes) (taken : res ConsolidateError ()) : coprog () :=
  mhandle (mput_absent store key data) (λ r,
    match r with
    | Ok _ => mret ()
    | Err (AlreadyExists _) => Done taken
    | Err e => Done (Err (CoStore e))
    | Panic => Done Panic
    end).

(** The adoption of a round a dead run left unpublished. *)
Definition adopt (media : WalMedia) (shard : Z) (manifest : ShardManifest) (version : Version) (round : Z)
    (existing : RoundIndex) : coprog ConsolidateOutcome :=
  first ← madd (lm_consolidated_upto manifest) 1;
  _ ← Done (guard_err (negb (ri_first_seq existing =? first))
        (BadRound shard round (RoundCovers (ri_first_seq existing) (ri_last_seq existing) (lm_consolidated_upto manifest))));
  digest ← mmap_err CoChain (digest_of_segment media shard (ri_last_seq existing));
  _ ← publish_round (manifest_store media) manifest version (ri_last_seq existing) digest round;
  frames ← Done (usum (rt_frames <$> ri_tenants existing));
  mret (mkOutcome round (ri_first_seq existing) (ri_last_seq existing) frames (ri_sealed existing) true).

(** The previous round's watermarks, the baseline of the fold. *)
Definition baseline (store : medium) (shard : Z) (manifest : ShardManifest) : coprog (list (Z * Z)) :=
  match lm_rounds manifest with
  | None => mret []
  | Some rounds =>
      prev ← round_must_load NewestIndexMissing store shard (rr_last rounds);
      mret (watermarks_of (ri_tenants prev))
  end.

(** Folding the segments into round [round]. *)
Definition fold_round (media : WalMedia) (shard : Z) (manifest : ShardManifest) (version : Version) (round : Z)
    (segments : list ChainSegment) (last_ : ChainSegment) : coprog ConsolidateOutcome :=
  let store := manifest_store media in
  let from := lm_consolidated_upto manifest in
  let last_seq := cs_seq last_ in
  let last_digest := tenants_digest (sf_tenants (cs_footer last_)) in
  watermarks ← baseline store shard manifest;
  let frames := sort_frames (concat (cs_frames <$> segments)) in
  '(watermarks, kept) ← Done (fold_watermarks watermarks [] frames);
  first ← madd from 1;
  '(data, footer) ← Done (match build_sealed (mkSealedHeader shard first last_seq) kept SEALED_CHUNK_TARGET with
                          | Ok built => Ok built
                          | _ => Panic
                          end);
  let skey := sealed_key shard first last_seq in
  _ ← create store skey data (Ok ());
  MNow (λ now,
  let index := mkRoundIndex ROUND_INDEX_FORMAT shard round first last_seq skey now
                 (index_tenants watermarks (per_tenant (sf_sealed footer))) in
  _ ← create store (round_key shard round) (round_to_vec index) (Err (Raced shard));
  _ ← publish_round store manifest version last_seq last_digest round;
  mret (mkOutcome round first last_seq (zlen kept) skey false)).

(** [consolidate]; [fuel] bounds the walk along the chain. *)
Definition consolidate (fuel : nat) (media : WalMedia) (shard : Z) : coprog (option ConsolidateOutcome) :=
  let store := manifest_store media in
  loaded ← mmap_err CoChain (log_load store shard);
  match loaded with
  | None => mret None
  | Some (manifest, version) =>
      round ← (match lm_rounds manifest with None => mret 1 | Some r => madd (rr_last r) 1 end);
      existing ← round_load store shard round;
      match existing with
      | Some existing => out ← adopt media shard manifest version round existing; mret (Some out)
      | None =>
          segments ← mmap_err CoChain (read_chain_linked fuel media shard (lm_consolidated_upto manifest)
                                         (lm_consolidated_digest manifest));
          match last segments with
          | None => mret None
          | Some last_ => out ← fold_round media shard manifest version round segments last_; mret (Some out)
          end
      end
  end.

(** ** The backlog *)
Fixpoint backlog_loop (media : WalMedia) (shard : Z) (seqs : list Z) (backlog : Z) : coprog Z :=
  match seqs with
  | [] => mret backlog
  | seq :: seqs =>
      found ← mmap_err CoStore (fetch_segment media shard seq);
      backlog ← (match found with Some data => madd backlog (zlen data) | None => mret backlog end);
      backlog_loop media shard seqs backlog
  end.
(** [landing_backlog] *)
Definition landing_backlog (media : WalMedia) (shard : Z) : coprog Z :=
  loaded ← mmap_err CoChain (log_load (manifest_store media) shard);
  match loaded with
  | None => mret 0
  | Some (manifest, _) =>
      let floor := Z.max (lm_head manifest) (lm_consolidated_upto manifest) in
      head ← mmap_err CoChain (chain_head media shard floor);
      first ← madd (lm_consolidated_upto manifest) 1;
      backlog_loop media shard (seqZ first (head - first + 1)) 0
  end.

(** ** Garbage collection *)
Fixpoint delete_seqs (media : WalMedia) (shard : Z) (seqs : list Z) (deleted : Z) : coprog Z :=
  match seqs with
  | [] => mret deleted
  | seq :: seqs =>
      _ ← mmap_err CoStore (delete_segment media shard seq);
      deleted ← madd deleted 1;
      delete_seqs media shard seqs deleted
  end.
(** The loop over the rounds, which breaks at the first one still in its
    grace: what was deleted and the last round done. *)
Fixpoint gc_rounds (media : WalMedia) (shard grace now : Z) (rounds : list Z) (deleted gc_round : Z) : coprog (Z * Z) :=
  match rounds with
  | [] => mret (deleted, gc_round)
  | round :: rounds =>
      index ← round_must_load RetainedIndexMissing (manifest_store media) shard round;
      if now <? Z.min (ri_unix index + grace) u64_max then mret (deleted, gc_round)
      else
        deleted ← delete_seqs media shard (seqZ (ri_first_seq index) (ri_last_seq index - ri_first_seq index + 1)) deleted;
        gc_rounds media shard grace now rounds deleted round
  end.
Definition with_gc_round (gc_round : Z) (m : ShardManifest) : ShardManifest :=
  mkLog (lm_format m) (lm_shard m) (lm_chain_epoch m) (lm_head m) (lm_consolidated_upto m) (lm_consolidated_digest m)
    (lm_rounds m) gc_round (lm_sealed_by m) (lm_sealed_unix m).
(** [gc_landing]; the grace in seconds. *)
Definition gc_landing (media : WalMedia) (shard grace : Z) : coprog Z :=
  let store := manifest_store media in
  loaded ← mmap_err CoChain (log_load store shard);
  match loaded with
  | None => mret 0
  | Some (manifest, version) =>
      match lm_rounds manifest with
      | None => mret 0
      | Some rounds =>
          MNow (λ now,
          from ← madd (lm_gc_round manifest) 1;
          let from := Z.max from (rr_first rounds) in
          '(deleted, gc_round) ← gc_rounds media shard grace now (seqZ from (rr_last rounds - from + 1)) 0 (lm_gc_round manifest);
          if negb (gc_round =? lm_gc_round manifest) then
            _ ← swap_log store shard (with_gc_round gc_round manifest) version; mret deleted
          else mret deleted)
      end
  end.

(** ** Reading a round *)
(** [round_chunks] *)
Definition round_tenant (index : RoundIndex) (t : Z) : option RoundTenant :=
  head (filter (λ r, rt_tenant r = t) (ri_tenants index)).
Definition round_chunks (index : RoundIndex) (t : Z) : list RoundChunk := from_option rt_chunks [] (round_tenant index t).
Fixpoint collect_chunk (index : RoundIndex) (offset : Z) (items : list (res Frame2DecodeError Frame2)) (out : list Frame2) :
    res ConsolidateError (list Frame2) :=
  match items with
  | [] => mret out
  | Ok f :: items => collect_chunk index offset items (out ++ [f])
  | Err source :: _ => Err (BadRound (ri_shard index) (ri_round index) (ChunkCorrupt offset source))
  | Panic :: _ => Panic
  end.
(** [read_round_chunk] *)
Definition read_round_chunk (store : medium) (index : RoundIndex) (chunk : RoundChunk) : coprog (list Frame2) :=
  found ← mmap_err CoStore (mget_range store (ri_sealed index) (rc_offset chunk) (rc_len chunk));
  data ← Done (ok_or found (BadRound (ri_shard index) (ri_round index) (SealedMissing (ri_sealed index))));
  Done (collect_chunk index (rc_offset chunk) (frame_stream data) []).
Fixpoint read_chunks_of (store : medium) (index : RoundIndex) (chunks : list RoundChunk) (out : list Frame2) : coprog (list Frame2) :=
  match chunks with
  | [] => mret out
  | chunk :: chunks =>
      frames ← read_round_chunk store index chunk;
      read_chunks_of store index chunks (out ++ frames)
  end.
(** [read_round_tenant] *)
Definition read_round_tenant (store : medium) (index : RoundIndex) (t : Z) : coprog (list Frame2) :=
  read_chunks_of store index (round_chunks index t) [].
End consolidate.
