(* ===== verification/ConsolidateRound.v ===== *)
(** * ConsolidateRound: what a round keeps

    The frames a round keeps tile each tenant's stream from watermark to
    watermark; a round that ends well publishes an index from which every
    tenant's frames read back, and a run that dies anywhere is finished by
    the next.

    What [consolidate] does to the store, from the manifest it loads to the
    manifest it publishes, and what its death at any point leaves for the
    next run. *)
From S2P Require Import Prelude Order Text Lsn Externals Frame Bloom Cas Segment Media MediaProofs Chain ChainHead ChainProofs Sealed SealedBuild Consolidate.

(** ** What is decoded can be encoded *)
Section decoded.
Context `{Crc, Lz4}.

Lemma decode_hints_ok buf at_ n hs :
  decode_hints buf at_ n = Ok hs → Forall blockref_ok hs ∧ length hs = n.
Proof.
  revert at_ hs. induction n as [|n IH]; intros at_ hs D; cbn [decode_hints] in D; [by injection D as <-|].
  bind_all D. injection D as <-. edestruct IH as [F L]; [done|]. split; [|by cbn; rewrite L].
  constructor; [|done]. split_and!; cbn [relfilenode fork block]; [by eapply le_at_fits|apply bval_range|by eapply le_at_fits].
Qed.
Lemma decode_frame_ok buf f n : decode buf = Ok (f, n) → frame_ok f.
Proof.
  unfold decode. intros R. bind_all R. injection R as <- <-.
  match goal with D : read_hints _ _ _ = Ok (?l, _), U : unpack _ _ ?n = Ok ?p |- _ =>
    rename D into Hr; rename U into Hu; set (hs := l) in *; set (pl := p) in * end. clearbody hs pl.
  assert (Hh : Forall blockref_ok hs ∧ zlen hs ≤ MAX_HINTS).
  { unfold read_hints in Hr. match type of Hr with (if ?b then _ else _) = _ => destruct b end; [|unfold mret, res_ret in Hr; by injection Hr as <- <-]. bind_all Hr. unfold mret, res_ret in Hr. injection Hr as <- <-.
    match goal with D : decode_hints _ _ _ = Ok _ |- _ => apply decode_hints_ok in D as [F L] end. split; [done|].
    match goal with D : le_at 2 _ _ = Ok ?c |- _ => apply le_at_fits in D; unfold fits in D; unfold zlen; rewrite L end. zbool. lia. }
  split_and!; cbn; try (by eapply le_at_fits); try apply Hh.
  zbool. unfold unpack in Hu. match type of Hu with (if ?b then _ else _) = _ => destruct b end.
  - bind_all Hu. injection Hu as <-. zbool. lia.
  - destruct (lz4_decompress _ _) as [p|]; [|done]. destruct (zlen p =? _) eqn:Ep; [|done]. injection Hu as <-. zbool. lia.
Qed.
Lemma stream_ok fuel buf f : Ok f ∈ stream fuel buf → frame_ok f.
Proof.
  revert buf. induction fuel as [|fuel IH]; intros buf; cbn [stream]; [set_solver|]. unfold stream_next.
  case_bool_decide; [set_solver|]. destruct (decode buf) as [[g n]| |] eqn:D.
  - intros [E|E]%elem_of_cons; [|by eapply IH]. injection E as ->. by eapply decode_frame_ok.
  - intros [E|E]%elem_of_cons; [done|by eapply IH].
  - intros [E|E]%elem_of_cons; [done|by eapply IH].
Qed.
Lemma collect_frames_items items acc fs : collect_frames items acc = Ok fs → ∃ l, items = Ok <$> l ∧ fs = acc ++ l.
Proof.
  revert acc. induction items as [|[f| |] items IH]; intros acc E; cbn in E; [|apply IH in E as (l & -> & ->)|done..].
  - injection E as <-. exists []. by rewrite app_nil_r.
  - exists (f :: l). split; [done|]. by rewrite <-app_assoc.
Qed.
Lemma decode_segment_ok data h fs ft : decode_segment data = Ok (h, fs, ft) → Forall frame_ok fs.
Proof.
  unfold decode_segment. intros E. bind_all E. injection E as <- <- <-.
  match goal with D : collect_frames _ _ = Ok _ |- _ => apply collect_frames_items in D as (l & Es & ->) end.
  apply Forall_forall. intros f Hf. unfold frame_stream in Es.
  match type of Es with stream ?n ?b = _ => apply (stream_ok n b) end. rewrite Es. by apply list_elem_of_fmap_2.
Qed.
End decoded.

(** ** The fold *)
Definition tenants_frames (t : Z) (fs : list Frame2) : list Frame2 := filter (λ f, tenant f = t) fs.
(** The frames go on from one watermark to the next without a gap. *)
Fixpoint tiles (from : option Z) (fs : list Frame2) (upto : option Z) : Prop :=
  match fs with
  | [] => upto = from
  | f :: fs => from_option (λ w, start_lsn f = w ∧ w < end_lsn f) True from ∧ tiles (Some (end_lsn f)) fs upto
  end.
Lemma tiles_snoc from fs upto f :
  tiles from fs upto → from_option (λ w, start_lsn f = w ∧ w < end_lsn f) True upto → tiles from (fs ++ [f]) (Some (end_lsn f)).
Proof.
  revert from. induction fs as [|g fs IH]; intros from T Hf; cbn in *; [by subst|]. destruct T as [A T]. split; [done|by apply IH].
Qed.
Lemma tenants_frames_snoc t fs f :
  tenants_frames t (fs ++ [f]) = tenants_frames t fs ++ (if decide (tenant f = t) then [f] else []).
Proof. unfold tenants_frames. by rewrite filter_app, filter_cons. Qed.

(** What the loop has done after the frames [fs], from the watermarks [ws0]. *)
Record folded (ws0 : list (Z * Z)) (fs : list Frame2) (ws : list (Z * Z)) (kept : list Frame2) : Prop := {
  fd_wf : bt_wf ws;
  fd_kept : kept `sublist_of` fs;
  fd_tiles : ∀ t, tiles (bt_get t ws0) (tenants_frames t kept) (bt_get t ws);
  fd_covers : ∀ f, f ∈ fs → ∃ w, bt_get (tenant f) ws = Some w ∧ end_lsn f ≤ w
}.
(** Where it stopped: a frame that is not covered and does not start at the
    watermark. *)
Definition gap_at (ws0 : list (Z * Z)) (fs : list Frame2) (e : ConsolidateError) : Prop :=
  ∃ pre f post ws kept w, fs = pre ++ f :: post ∧ folded ws0 pre ws kept ∧ bt_get (tenant f) ws = Some w ∧
    start_lsn f ≠ w ∧ w < end_lsn f ∧ e = Discontinuity (tenant f) w (start_lsn f).
Lemma folded_start ws : bt_wf ws → folded ws [] ws [].
Proof. intros W. split; [done|done|done|set_solver]. Qed.
Lemma folded_drop ws0 fs ws kept f w :
  folded ws0 fs ws kept → bt_get (tenant f) ws = Some w → end_lsn f ≤ w → folded ws0 (fs ++ [f]) ws kept.
Proof.
  intros [W K T C] G L. split; [done| |done|].
  - by apply sublist_inserts_r.
  - intros g [Hg|Hg]%elem_of_app; [by apply C|]. apply list_elem_of_singleton in Hg as ->. eauto.
Qed.
Lemma folded_push ws0 fs ws kept f :
  folded ws0 fs ws kept → from_option (λ w, start_lsn f = w ∧ w < end_lsn f) True (bt_get (tenant f) ws) →
  folded ws0 (fs ++ [f]) (bt_insert (tenant f) (end_lsn f) ws) (kept ++ [f]).
Proof.
  intros [W K T C] Hf. split.
  - by apply bt_insert_wf.
  - by apply sublist_app.
  - intros t. rewrite bt_get_insert, tenants_frames_snoc by done. case_decide as E.
    + subst t. rewrite oeqb_refl. by eapply tiles_snoc.
    + rewrite app_nil_r, oeqb_ne by congruence. apply T.
  - intros g Hg. rewrite bt_get_insert by done. destruct (oeqb _ _) eqn:E.
    + apply oeqb_spec in E. eexists. split; [done|]. apply elem_of_app in Hg as [Hg|Hg].
      * destruct (C g Hg) as (w & Gw & Lw). rewrite E in Gw. rewrite Gw in Hf. cbn in Hf. lia.
      * apply list_elem_of_singleton in Hg as ->. lia.
    + apply elem_of_app in Hg as [Hg|Hg]; [by apply C|]. apply list_elem_of_singleton in Hg as ->. by rewrite oeqb_refl in E.
Qed.
Lemma fold_watermarks_spec ws0 pre fs ws kept :
  folded ws0 pre ws kept →
  match fold_watermarks ws kept fs with
  | Ok (ws', kept') => folded ws0 (pre ++ fs) ws' kept'
  | Err e => gap_at ws0 (pre ++ fs) e
  | Panic => False
  end.
Proof.
  revert pre ws kept. induction fs as [|f fs IH]; intros pre ws kept F; cbn [fold_watermarks]; [by rewrite app_nil_r|].
  cbv zeta. rewrite (app_assoc pre [f] fs : pre ++ f :: fs = _).
  destruct (bt_get (tenant f) ws) as [w|] eqn:G.
  - destruct (end_lsn f <=? w) eqn:L; zbool; [apply IH; by eapply folded_drop|].
    destruct (start_lsn f =? w) eqn:E; cbn [negb]; zbool.
    + apply IH. apply folded_push; [done|]. rewrite G. cbn. lia.
    + rewrite <-app_assoc. exists pre, f, fs, ws, kept, w. split_and!; done.
  - apply IH. apply folded_push; [done|]. by rewrite G.
Qed.
(** Frames that already tile every tenant's stream are all kept. *)
Lemma fold_watermarks_clean fs ws kept :
  bt_wf ws → (∀ t, ∃ w, tiles (bt_get t ws) (tenants_frames t fs) w) →
  ∃ ws', fold_watermarks ws kept fs = Ok (ws', kept ++ fs).
Proof.
  revert ws kept. induction fs as [|f fs IH]; intros ws kept W T; cbn [fold_watermarks]; [exists ws; by rewrite app_nil_r|]. cbv zeta.
  assert (T' : ∀ t, ∃ w, tiles (bt_get t (bt_insert (tenant f) (end_lsn f) ws)) (tenants_frames t fs) w).
  { intros t. destruct (T t) as [w Tw]. unfold tenants_frames in *. rewrite filter_cons in Tw. rewrite bt_get_insert by done.
    case_decide as E; [subst; rewrite oeqb_refl; exists w; apply Tw|]. rewrite oeqb_ne by congruence. by exists w. }
  destruct (IH (bt_insert (tenant f) (end_lsn f) ws) (kept ++ [f])) as [ws' E]; [by apply bt_insert_wf|done|].
  rewrite <-app_assoc in E. exists ws'. destruct (T (tenant f)) as [w Tw]. unfold tenants_frames in Tw. rewrite filter_cons in Tw.
  rewrite decide_True in Tw by done. destruct Tw as [Hf _]. destruct (bt_get (tenant f) ws) as [v|]; [|done]. cbn in Hf.
  rewrite (proj2 (Z.leb_gt _ _)) by lia. rewrite (proj2 (Z.eqb_eq _ _)) by lia. done.
Qed.
Lemma sorted_by_sublist {A} (leb : A → A → bool) l k : k `sublist_of` l → sorted_by leb l → sorted_by leb k.
Proof.
  induction 1 as [|x k l Sl IH|x k l Sl IH]; [done| |].
  - cbn. intros [Hx So]. split; [|by apply IH]. intros y Hy. apply Hx. by eapply elem_of_sublist.
  - cbn. intros [_ So]. by apply IH.
Qed.
Lemma sort_frames_sorted fs : sorted_by (λ f g, oleb (fold_key f) (fold_key g)) (sort_frames fs).
Proof. apply sort_by_sorted; [intros f g; apply ole_total|intros f g h; apply ole_trans]. Qed.
Lemma sorted_unsorted fs : sorted_by (λ f g, oleb (fold_key f) (fold_key g)) fs → unsorted fs = false.
Proof.
  induction fs as [|f [|g fs] IH]; [done|done|]. intros [Hf So]. specialize (IH So). cbn [unsorted] in *. rewrite IH, orb_false_r.
  specialize (Hf g ltac:(left)). apply oltb_false. unfold ole, oleb, ocmp, prod_ord, lexc, ocmp, Z_ord, fold_key in *. cbn in *.
  by destruct (tenant f ?= tenant g), (start_lsn f ?= start_lsn g).
Qed.
Lemma kept_sorted fs kept : kept `sublist_of` sort_frames fs → unsorted kept = false.
Proof. intros Sl. apply sorted_unsorted. eapply sorted_by_sublist; [done|apply sort_frames_sorted]. Qed.

(** C13: a round neither loses nor invents a stretch of a stream.  From the
    watermarks of the round before, in any order of the landed frames: the
    frames kept of each tenant are in order and go on, one where the other
    ends, from the tenant's old watermark to its new one; every landed frame
    ends at or below the new watermark, so what was dropped was covered; the
    round is refused exactly at a frame that leaves a gap or overlaps in
    part; and frames without gap or overlap are all kept. *)
Theorem rounds_continuous (ws : list (Z * Z)) (frames : list Frame2) :
  bt_wf ws →
  match fold_watermarks ws [] (sort_frames frames) with
  | Ok (ws', kept) =>
      bt_wf ws' ∧ kept `sublist_of` sort_frames frames ∧ unsorted kept = false ∧
      (∀ t, tiles (bt_get t ws) (tenants_frames t kept) (bt_get t ws')) ∧
      ∀ f, f ∈ frames → ∃ w, bt_get (tenant f) ws' = Some w ∧ end_lsn f ≤ w
  | Err e => gap_at ws (sort_frames frames) e
  | Panic => False
  end ∧
  ((∀ t, ∃ w, tiles (bt_get t ws) (tenants_frames t (sort_frames frames)) w) →
   ∃ ws', fold_watermarks ws [] (sort_frames frames) = Ok (ws', sort_frames frames)).
Proof.
  intros W. split; [|by apply fold_watermarks_clean].
  pose proof (fold_watermarks_spec ws [] (sort_frames frames) ws [] (folded_start ws W)) as Sp. cbn [app] in Sp.
  destruct (fold_watermarks _ _ _) as [[ws' kept]| |]; [|done..]. destruct Sp as [W' K T C]. split_and!; try done.
  - by eapply kept_sorted.
  - intros f Hf. apply C. unfold sort_frames. by rewrite sort_by_elem.
Qed.

(** ** The index *)
(** Inserting the entries of an ordered map one by one gives that map. *)
Lemma bt_inserts_id {V} (l : list (Z * V)) : bt_wf l → foldl (λ m e, bt_insert e.1 e.2 m) [] l = l.
Proof.
  assert (Wf : ∀ l m : list (Z * V), bt_wf m → bt_wf (foldl (λ m e, bt_insert e.1 e.2 m) m l)).
  { clear l. intros l. induction l as [|e l IH]; intros m Wm; [done|]. cbn. by apply IH, bt_insert_wf. }
  assert (Gt : ∀ (l m : list (Z * V)) t, bt_wf l → bt_wf m →
    bt_get t (foldl (λ m e, bt_insert e.1 e.2 m) m l) = match bt_get t l with Some w => Some w | None => bt_get t m end).
  { clear l. intros l. induction l as [|[k w] l IH]; intros m t Wl Wm; [done|]. destruct Wl as [Lt Wl]. cbn [foldl fst snd].
    rewrite IH by (done || by apply bt_insert_wf). cbn [bt_get]. rewrite bt_get_insert by done.
    destruct (oeqb t k) eqn:E; [|done]. apply oeqb_spec in E as ->. rewrite bt_get_head_lt; [done|]. intros e He. by apply Lt. }
  intros W. apply bt_ext; [by apply Wf|done|]. intros t. rewrite Gt by done. by destruct (bt_get t l).
Qed.
Lemma index_tenants_get ws sealed t :
  bt_wf ws → bt_wf sealed →
  head (filter (λ r, rt_tenant r = t) (index_tenants ws sealed)) =
  (λ w, let '(n, cs) := default (0, []) (bt_get t sealed) in mkRoundTenant t w n cs) <$> bt_get t ws.
Proof.
  revert sealed. induction ws as [|[k w] ws IH]; intros sealed W Ws; [done|]. cbn [index_tenants bt_get]. destruct W as [Lt W].
  destruct (default (0, []) (bt_get k sealed)) as [n cs] eqn:G. rewrite filter_cons. cbn [rt_tenant]. case_decide as E.
  - subst. rewrite oeqb_refl. cbn. by rewrite G.
  - rewrite oeqb_ne by congruence. rewrite IH by (done || by apply bt_remove_wf). rewrite bt_get_remove by done.
    by rewrite oeqb_ne by congruence.
Qed.
Lemma index_tenants_watermarks ws sealed : bt_wf ws → watermarks_of (index_tenants ws sealed) = ws.
Proof.
  intros W. etransitivity; [|by apply bt_inserts_id]. unfold watermarks_of. generalize (@nil (Z * Z)). clear W.
  revert sealed. induction ws as [|[k w] ws IH]; intros sealed m; [done|]. cbn [index_tenants]. destruct (default _ _). cbn. apply IH.
Qed.
Definition tenant_entry (t : SealedTenant) : Z * (Z * list RoundChunk) := (st_tenant t, (st_frames t, round_chunk <$> st_chunks t)).
Lemma tenant_entries_wf ts : StronglySorted Z.lt (st_tenant <$> ts) → bt_wf (tenant_entry <$> ts).
Proof.
  induction ts as [|t ts IH]; [done|]. rewrite !fmap_cons. intros [So Lt]%StronglySorted_inv. cbn. split; [|by apply IH].
  intros e (u & -> & Hu)%list_elem_of_fmap. rewrite Forall_forall in Lt. apply olt_Z. apply (Lt (st_tenant u)). by apply list_elem_of_fmap_2.
Qed.
Lemma per_tenant_entries ts : StronglySorted Z.lt (st_tenant <$> ts) → per_tenant ts = tenant_entry <$> ts.
Proof.
  intros So. etransitivity; [|by apply bt_inserts_id, tenant_entries_wf]. unfold per_tenant.
  generalize (@nil (Z * (Z * list RoundChunk))). clear So. induction ts as [|t ts IH]; intros m; [done|]. cbn. apply IH.
Qed.

(** ** The keys *)
Lemma sealed_not_log shard a b key : key = manifest_key shard ∨ (∃ s, key = segment_key shard s) ∨ (∃ r, key = round_key shard r) → sealed_key shard a b ≠ key.
Proof. by intros [-> |[[s ->]|[r ->]]]. Qed.
Lemma round_not_log shard r key : key = manifest_key shard ∨ (∃ s, key = segment_key shard s) → round_key shard r ≠ key.
Proof. by intros [-> |[s ->]]. Qed.
Lemma round_key_inj shard a b : 0 ≤ a → 0 ≤ b → round_key shard a = round_key shard b → a = b.
Proof.
  unfold round_key. intros A B E. do 3 apply app_inv_head in E. apply app_inv_tail in E. by eapply fmt_hex_inj.
Qed.

(** ** What a round holds *)
(** A chunk of the sealed object [data] that reads as the frames [g]. *)
Definition chunk_gives `{Crc, Lz4} (data : bytes) (c : RoundChunk) (g : list Frame2) : Prop :=
  0 ≤ rc_offset c ∧ 0 ≤ rc_len c ∧ rc_offset c + rc_len c ≤ zlen data ∧ rc_offset c + rc_len c ≤ u64_max ∧
  frame_stream (sub data (rc_offset c) (rc_offset c + rc_len c)) = Ok <$> g ∧ ∀ f, f ∈ g → end_lsn f ≤ rc_max_lsn c.
Section index.
Context `{CrcOk, Lz4Ok}.

Lemma tiles_some w fs o : tiles (Some w) fs o → is_Some o.
Proof. revert w. induction fs as [|f fs IH]; intros w T; cbn in T; [by subst|]. eapply IH, T. Qed.
Lemma tiles_none o fs : tiles o fs None → fs = [].
Proof. destruct fs as [|f fs]; [done|]. intros [_ T]. by apply tiles_some in T as [? ?]. Qed.
Lemma wires_for fs : Forall frame_ok fs → ∃ its, fst <$> its = fs ∧ Forall wired its.
Proof.
  induction 1 as [|f fs Hf F (its & <- & W)]; [by exists []|]. destruct (encode_decode f [] Hf) as (wire & E & _).
  exists ((f, wire) :: its). split; [done|]. by constructor.
Qed.
Lemma of_tenant_fst t its : fst <$> of_tenant t its = tenants_frames t (fst <$> its).
Proof.
  unfold of_tenant, tenants_frames. induction its as [|i its IH]; [done|]. rewrite fmap_cons, !filter_cons.
  case_decide; cbn; [f_equal|]; apply IH.
Qed.
(** Each tenant's chunks of the index read as the frames kept of it. *)
Lemma index_chunks target h its obj footer start ws0 fs ws t :
  sealed_exact target h its obj footer → Forall (tenant_fits start) (sf_sealed footer) →
  folded ws0 fs ws (fst <$> its) →
  let chunks := from_option rt_chunks [] (head (filter (λ r, rt_tenant r = t) (index_tenants ws (per_tenant (sf_sealed footer))))) in
  ∃ gs, Forall2 (chunk_gives obj) chunks gs ∧ concat gs = tenants_frames t (fst <$> its).
Proof.
  intros [_ _ So Nm Tn _] Ft [W _ Ti _]. cbv zeta. rewrite per_tenant_entries by done. pose proof (tenant_entries_wf _ So) as We.
  rewrite index_tenants_get by done. specialize (Ti t). destruct (bt_get t ws) as [w|] eqn:G; cbn.
  2:{ exists []. split; [constructor|]. by rewrite (tiles_none _ _ Ti). }
  clear Ti. destruct (bt_get t (tenant_entry <$> sf_sealed footer)) as [[n cs]|] eqn:Gs; cbn.
  - apply bt_get_elem in Gs; [|done]. apply list_elem_of_fmap in Gs as (u & Eu & Hu). injection Eu as -> -> ->.
    destruct (Tn u Hu) as (_ & _ & cgs & Fc & Ec). exists ((λ g : list item, fst <$> g) <$> cgs).
    rewrite <-of_tenant_fst, <-Ec. split; [|symmetry; apply (List.concat_map fst)].
    rewrite Forall_forall in Ft. destruct (Ft u Hu) as (_ & _ & _ & Fch). clear -Fc Fch.
    induction Fc as [|c g cs cgs Hc Fc IH]; [constructor|]. apply Forall_cons in Fch as [Hf Fch]. rewrite !fmap_cons.
    constructor; [|by apply IH]. destruct Hc as ((A & B & C) & St & _ & Ab & _). destruct Hf as (_ & _ & _ & _ & _ & D & E).
    split_and!; cbn; try done; [lia|]. intros f (i & -> & Hi)%list_elem_of_fmap. by apply Ab.
  - exists []. split; [constructor|]. cbn. symmetry. rewrite <-of_tenant_fst.
    destruct (of_tenant t its) as [|i l] eqn:Eo; [done|]. exfalso.
    assert (Hi : i ∈ of_tenant t its) by (rewrite Eo; left). apply list_elem_of_filter in Hi as [Et Hi].
    destruct (Nm i Hi) as [Hn _]. rewrite Et in Hn. apply list_elem_of_fmap in Hn as (u & -> & Hu).
    assert (In_ : bt_get (st_tenant u) (tenant_entry <$> sf_sealed footer) = Some (tenant_entry u).2).
    { apply bt_get_elem; [done|]. by apply (list_elem_of_fmap_2 tenant_entry). }
    by rewrite Gs in In_.
Qed.
End index.

(** ** Counting *)
Definition sum_frames (l : list Z) : Z := foldr Z.add 0 l.
Lemma usum_run {E} l : Forall (λ n, 0 ≤ n) l → sum_frames l ≤ u64_max → usum (E := E) l = Ok (sum_frames l).
Proof.
  induction 1 as [|n l Hn F IH]; intros L; [done|]. cbn [usum sum_frames foldr] in *. fold (sum_frames l) in *.
  rewrite IH by lia. rewrite bind_run. unfold uadd. change (2 ^ 64 - 1) with u64_max. by rewrite (proj2 (Z.leb_le _ _)) by lia.
Qed.
Lemma sum_remove t (m : list (Z * (Z * list RoundChunk))) :
  bt_wf m → sum_frames ((λ e, e.2.1) <$> m) =
  from_option fst 0 (bt_get t m) + sum_frames ((λ e, e.2.1) <$> bt_remove t m).
Proof.
  induction m as [|[k [n cs]] m IH]; intros W; [done|]. destruct W as [Lt W]. cbn [bt_get bt_remove fst].
  destruct (oeqb t k) eqn:E; [done|]. rewrite !fmap_cons. cbn. unfold sum_frames in IH. rewrite IH by done. lia.
Qed.
Lemma index_sum ws sealed :
  bt_wf ws → bt_wf sealed → (∀ t, is_Some (bt_get t sealed) → is_Some (bt_get t ws)) →
  sum_frames (rt_frames <$> index_tenants ws sealed) = sum_frames ((λ e, e.2.1) <$> sealed).
Proof.
  revert sealed. induction ws as [|[t w] ws IH]; intros sealed W Ws Sub.
  - destruct sealed as [|[k x] m]; [done|]. destruct (Sub k) as [? ?]; [cbn; by rewrite oeqb_refl|done].
  - destruct W as [Lt W]. cbn [index_tenants]. rewrite (sum_remove t) by done.
    destruct (default (0, []) (bt_get t sealed)) as [n cs] eqn:G. rewrite fmap_cons. cbn. fold (sum_frames).
    unfold sum_frames in IH. rewrite IH.
    + destruct (bt_get t sealed) as [[]|]; cbn in *; by injection G as <- <-.
    + done.
    + by apply bt_remove_wf.
    + intros t'. rewrite bt_get_remove by done. destruct (oeqb t' t) eqn:E; [intros [? ?]; done|]. intros Hs%Sub.
      cbn in Hs. by rewrite E in Hs.
Qed.

(** ** Widths *)
Definition marks_fit (ws : list (Z * Z)) : Prop := ∀ e, e ∈ ws → fits 16 e.1 ∧ fits 8 e.2.
Lemma marks_insert ws t w : marks_fit ws → fits 16 t → fits 8 w → marks_fit (bt_insert t w ws).
Proof. intros M Ft Fw e He. apply bt_insert_elem in He as [-> |He]; [done|by apply M]. Qed.
Lemma watermarks_fit ts : Forall round_tenant_fits ts → marks_fit (watermarks_of ts).
Proof.
  unfold watermarks_of. assert (G : ∀ m, marks_fit m → Forall round_tenant_fits ts →
    marks_fit (foldl (λ m t, bt_insert (rt_tenant t) (rt_watermark t) m) m ts)).
  { induction ts as [|t ts IH]; intros m M F; [done|]. apply Forall_cons in F as [(A & B & _) F]. cbn. apply IH; [|done].
    by apply marks_insert. }
  intros F. apply G; [|done]. intros e He. set_solver.
Qed.
Lemma watermarks_wf ts : bt_wf (watermarks_of ts).
Proof.
  unfold watermarks_of. generalize (I : bt_wf (@nil (Z * Z))). generalize (@nil (Z * Z)).
  induction ts as [|t ts IH]; intros m W; [done|]. cbn. by apply IH, bt_insert_wf.
Qed.
Lemma fold_marks_fit fs ws kept ws' kept' :
  fold_watermarks ws kept fs = Ok (ws', kept') → marks_fit ws → Forall frame_ok fs → marks_fit ws'.
Proof.
  revert ws kept. induction fs as [|f fs IH]; intros ws kept E M F; cbn [fold_watermarks] in E; [by injection E as <- _|].
  apply Forall_cons in F as [(Ft & _ & _ & Fe & _) F]. cbv zeta in E.
  repeat case_match; try done; (eapply IH; [exact E|by try apply marks_insert|done]).
Qed.
Lemma index_fits ws sealed :
  marks_fit ws → bt_wf sealed → (∀ e, e ∈ sealed → fits 4 e.2.1 ∧ Forall round_chunk_fits e.2.2) →
  Forall round_tenant_fits (index_tenants ws sealed).
Proof.
  revert sealed. induction ws as [|[t w] ws IH]; intros sealed M W F; [constructor|]. cbn [index_tenants].
  destruct (M (t, w) ltac:(left)) as [Ft Fw]. destruct (default (0, []) (bt_get t sealed)) as [n cs] eqn:G. constructor.
  - destruct (bt_get t sealed) as [[n' cs']|] eqn:Gt; cbn in G; injection G as <- <-.
    + apply bt_get_elem in Gt; [|done]. destruct (F _ Gt) as [F1 F2]. done.
    + done.
  - apply IH; [intros e He; apply M; by right|by apply bt_remove_wf|]. intros e He. apply F. by eapply bt_remove_elem.
Qed.

(** ** Reading rounds *)
Create HintDb reads.
Ltac reading :=
  repeat first
    [ progress (intros; eauto with reads) | apply reads_bind | apply reads_handle | done
    | match goal with |- reads_only (match ?x with _ => _ end) => destruct x end ].
Lemma reads_map_err {E F A} (wrap : E → F) (p : mprog E A) : reads_only p → reads_only (mmap_err wrap p).
Proof. intros R. unfold mmap_err. by apply reads_handle. Qed.
#[export] Hint Resolve reads_map_err : reads.
Lemma reads_fetch media shard seq : reads_only (fetch_segment media shard seq).
Proof. unfold fetch_segment, mbytes. destruct media; repeat (intros; cbn; repeat case_match; try done). Qed.
#[export] Hint Resolve reads_fetch : reads.
Lemma reads_log_load `{SerdeLog} m shard : reads_only (log_load m shard).
Proof. unfold log_load. apply reads_bind; [reading|]. intros [[]|]; reading. Qed.
#[export] Hint Resolve reads_log_load : reads.
Lemma reads_walk `{Crc, Lz4, SerdeLog} {E T} (wrap : T → ChainError → E) sink fuel media shard cur t :
  reads_only (walk_chain_linked wrap sink fuel media shard cur t).
Proof.
  revert cur t. induction fuel as [|fuel IH]; intros cur t; cbn [walk_chain_linked]; [done|].
  apply reads_bind; [reading|]. intros [data|]; [|done]. apply reads_bind; [done|]. intros [[hd fr] ft].
  destruct (_ || _); [done|]. destruct (negb _); [apply reads_bind; reading|].
  apply reads_bind; [done|]. intros [t' go]. apply reads_bind; [done|]. intros q. destruct go; [apply IH|done].
Qed.
#[export] Hint Resolve reads_walk : reads.
Lemma reads_chain `{Crc, Lz4, SerdeLog} fuel media shard from prev : reads_only (read_chain_linked fuel media shard from prev).
Proof. unfold read_chain_linked. apply reads_bind; [done|]. intros seq. apply reads_bind; [reading|]. by intros []. Qed.
#[export] Hint Resolve reads_chain : reads.
Lemma reads_digest `{Crc, Lz4, SerdeLog} media shard seq : reads_only (digest_of_segment media shard seq).
Proof. unfold digest_of_segment. destruct (_ =? _); reading. Qed.
#[export] Hint Resolve reads_digest : reads.
Lemma reads_round_load `{SerdeRound} store shard round : reads_only (round_load store shard round).
Proof. unfold round_load. apply reads_bind; [reading|]. intros [[]|]; reading. Qed.
#[export] Hint Resolve reads_round_load : reads.
Lemma reads_must_load `{SerdeRound} missing store shard round : reads_only (round_must_load missing store shard round).
Proof. unfold round_must_load. reading. Qed.
#[export] Hint Resolve reads_must_load : reads.
Lemma reads_baseline `{SerdeRound} store shard m : reads_only (baseline store shard m).
Proof. unfold baseline. destruct (lm_rounds m); reading. Qed.
#[export] Hint Resolve reads_baseline : reads.
Lemma reads_chunk `{Crc, Lz4} store index c : reads_only (read_round_chunk store index c).
Proof. unfold read_round_chunk. reading. Qed.
#[export] Hint Resolve reads_chunk : reads.
#[export] Hint Resolve reads_unthreaded : unthreaded.

Section rounds.
Context {S : Type} `{CasOk S} `{CrcOk, Lz4Ok, SerdeLogOk, SerdeRoundOk} (media : WalMedia) (shard : Z).
Implicit Types w : mworld S.

Lemma log_store : manifest_store media = STD.
Proof. by destruct media. Qed.
Definition round_at w (round : Z) (index : RoundIndex) : Prop :=
  ∃ data v, view w (round_key shard round) STD = Some (data, v) ∧ round_from_slice data = Some index ∧
    ri_format index ≤ ROUND_INDEX_FORMAT.
(** The round is there, its watermarks are [ws], and its frames [kept]. *)
Record round_holds w (round : Z) (index : RoundIndex) (ws : list (Z * Z)) (kept : list Frame2) : Prop := {
  rh_at : round_at w round index;
  rh_wf : bt_wf ws;
  rh_marks : ∀ t, rt_watermark <$> round_tenant index t = bt_get t ws;
  rh_base : watermarks_of (ri_tenants index) = ws;
  rh_sealed : ∃ data v, view w (ri_sealed index) STD = Some (data, v) ∧
    ∀ t, ∃ gs, Forall2 (chunk_gives data) (round_chunks index t) gs ∧ concat gs = tenants_frames t kept
}.

Lemma mget_std_run w {E} (wrap : CasError → E) key :
  lawful w → mexec w (mmap_err wrap (mget (manifest_store media) key)) = (w, Some (Ok (view w key STD))).
Proof. intros L. rewrite log_store. unfold mexec, mmap_err, mget. cbn. by rewrite (cas_get_ok _ _ (L STD)). Qed.
Lemma round_load_run w round index :
  lawful w → round_at w round index → mexec w (round_load (manifest_store media) shard round) = (w, Some (Ok (Some index))).
Proof.
  intros L (data & v & V & P & Fo). unfold round_load. erewrite mexec_ok; [|quiet|by apply mget_std_run]. rewrite V, P.
  cbn [ok_or]. rewrite mexec_done_ok. unfold guard_err. by rewrite (proj2 (Z.ltb_ge _ _) Fo).
Qed.
Lemma round_load_none w round :
  lawful w → view w (round_key shard round) STD = None →
  mexec w (round_load (manifest_store media) shard round) = (w, Some (Ok None)).
Proof. intros L V. unfold round_load. erewrite mexec_ok; [|quiet|by apply mget_std_run]. by rewrite V. Qed.
Lemma round_must_run w missing round index :
  lawful w → round_at w round index → mexec w (round_must_load missing (manifest_store media) shard round) = (w, Some (Ok index)).
Proof. intros L R. unfold round_must_load. by erewrite mexec_ok; [|quiet|by apply round_load_run]. Qed.
Lemma collect_chunk_ok index off g acc : collect_chunk index off (Ok <$> g) acc = Ok (acc ++ g).
Proof.
  revert acc. induction g as [|f g IH]; intros acc; cbn; [by rewrite app_nil_r|].
  change (list_fmap _ _ Ok g) with (@Ok Frame2DecodeError Frame2 <$> g). by rewrite IH, <-app_assoc.
Qed.
Lemma read_chunk_run w index data v c g :
  lawful w → view w (ri_sealed index) STD = Some (data, v) → chunk_gives data c g →
  mexec w (read_round_chunk (manifest_store media) index c) = (w, Some (Ok g)).
Proof.
  intros L V (A & B & C & D & St & _). unfold read_round_chunk.
  assert (R : mexec w (mmap_err CoStore (mget_range (manifest_store media) (ri_sealed index) (rc_offset c) (rc_len c))) =
    (w, Some (Ok (Some (sub data (rc_offset c) (rc_offset c + rc_len c)))))).
  { rewrite log_store. unfold mexec, mmap_err, mget_range. cbn [mhandle mexec_pool world_get]. unfold world_get.
    rewrite (cas_get_ok _ _ (L STD)). unfold view in V. rewrite V. unfold range_reply. rewrite bind_run. cbv zeta beta iota.
    rewrite slice_run by lia. rewrite !Z.min_l by lia. done. }
  erewrite mexec_ok; [|quiet|exact R]. cbn [ok_or]. rewrite mexec_done_ok, St, collect_chunk_ok. done.
Qed.
Lemma read_chunks_run w index data v cs gs out :
  lawful w → view w (ri_sealed index) STD = Some (data, v) → Forall2 (chunk_gives data) cs gs →
  mexec w (read_chunks_of (manifest_store media) index cs out) = (w, Some (Ok (out ++ concat gs))).
Proof.
  intros L V F. revert out. induction F as [|c g cs gs Hc F IH]; intros out; cbn [read_chunks_of]; [by cbn; rewrite app_nil_r|].
  erewrite mexec_ok; [|quiet|by eapply read_chunk_run]. rewrite IH. cbn. by rewrite <-app_assoc.
Qed.
Lemma round_reads w round index ws kept t :
  lawful w → round_holds w round index ws kept →
  mexec w (read_round_tenant (manifest_store media) index t) = (w, Some (Ok (tenants_frames t kept))).
Proof.
  intros L [_ _ _ _ (data & v & V & G)]. destruct (G t) as (gs & F & <-). exact (read_chunks_run w index data v _ gs [] L V F).
Qed.

(** ** Writing *)
Lemma create_run w key data taken :
  lawful w → view w key STD = None →
  ∃ w' v, mexec w (create (manifest_store media) key data taken) = (w', Some (Ok ())) ∧
    same_but (λ k, k = key) w w' ∧ view w' key STD = Some (data, v).
Proof.
  intros L V. destruct (put_run w STD key data None L) as (w' & v & R & L' & V' & O); [by rewrite V|]. exists w', v.
  rewrite log_store. unfold create, mexec, mput_absent. cbn [mhandle mexec_pool]. rewrite R. split_and!; [done| |done].
  split; [done|]. intros key' m N. apply O. congruence.
Qed.
Lemma create_taken w key data taken dv :
  lawful w → view w key STD = Some dv → mexec w (create (manifest_store media) key data taken) = (w, Some taken).
Proof.
  intros L V. rewrite log_store. unfold create, mexec, mput_absent. cbn [mhandle mexec_pool]. unfold world_put.
  pose proof (put_if_match_ok (store_at w STD) key data None (L STD)) as P. unfold view in V. rewrite V in P.
  rewrite bool_decide_false in P by done. destruct (put_if_match _ _ _ _) as [s r]. destruct P as [_ [-> ->]].
  assert (with_store w STD (store_at w STD) = w) as -> by by destruct w. done.
Qed.
Lemma swap_log_run w next v data :
  lawful w → view w (manifest_key shard) STD = Some (data, v) →
  ∃ w' v', mexec w (swap_log (manifest_store media) shard next v) = (w', Some (Ok ())) ∧
    same_but (λ k, k = manifest_key shard) w w' ∧ view w' (manifest_key shard) STD = Some (log_to_vec_pretty next, v').
Proof.
  intros L V. destruct (put_run w STD (manifest_key shard) (log_to_vec_pretty next) (Some v) L) as (w' & v' & R & L' & V' & O); [by rewrite V|].
  exists w', v'. rewrite log_store. unfold swap_log, mexec, mput_match. cbn [mhandle mexec_pool]. rewrite R. split_and!; [done| |done].
  split; [done|]. intros key' m N. apply O. congruence.
Qed.

(** ** One round *)
Definition next_round (m : ShardManifest) : Z := from_option (λ r, rr_last r + 1) 1 (lm_rounds m).
Definition frames_of (segs : list ChainSegment) : list Frame2 := concat (cs_frames <$> segs).
(** The watermarks a round starts from. *)
Definition baseline_at w (m : ShardManifest) (ws : list (Z * Z)) : Prop :=
  match lm_rounds m with
  | None => ws = []
  | Some r => ∃ prev, round_at w (rr_last r) prev ∧ ws = watermarks_of (ri_tenants prev)
  end.
(** A shard at rest with the segments [segs] past its boundary. *)
Record foldable w (m : ShardManifest) (v : Version) (segs : list ChainSegment) (ws : list (Z * Z)) : Prop := {
  fo_lawful : lawful w;
  fo_loads : loads w media shard (Some (m, v));
  fo_shard : lm_shard m = shard;
  fo_linked : linked w media shard (lm_consolidated_upto m + 1) (lm_consolidated_digest m) segs;
  fo_end : chain_end w media shard (lm_consolidated_upto m + 1 + zlen segs) (end_digest (lm_consolidated_digest m) segs) (lm_head m) None;
  fo_base : baseline_at w m ws;
  fo_room : next_round m ≤ u64_max ∧ lm_consolidated_upto m + 1 + zlen segs ≤ u64_max;
  fo_size : zlen (frames_of segs) ≤ MAX_SEALED_FRAMES;
  fo_now : fits 8 (mw_now w)
}.
Definition last_folded (m : ShardManifest) (segs : list ChainSegment) : Z := lm_consolidated_upto m + zlen segs.
Definition round_sealed_key (m : ShardManifest) (segs : list ChainSegment) : bytes :=
  sealed_key shard (lm_consolidated_upto m + 1) (last_folded m segs).
Definition after_round (m : ShardManifest) (segs : list ChainSegment) : ShardManifest :=
  published m (last_folded m segs) (end_digest (lm_consolidated_digest m) segs) (next_round m).

Lemma baseline_run w m ws :
  lawful w → baseline_at w m ws → mexec w (baseline (manifest_store media) shard m) = (w, Some (Ok ws)).
Proof.
  intros L B. unfold baseline, baseline_at in *. destruct (lm_rounds m) as [r|]; [|by subst]. destruct B as (prev & R & ->).
  by erewrite mexec_ok; [|quiet|by apply round_must_run].
Qed.
Lemma baseline_fit w m ws : baseline_at w m ws → bt_wf ws ∧ marks_fit ws.
Proof.
  unfold baseline_at. destruct (lm_rounds m); [|intros ->; split; [done|intros e He; set_solver]].
  intros (prev & (data & v & _ & P & _) & ->). split; [apply watermarks_wf|]. apply watermarks_fit.
  by apply round_in_range in P as (_ & _ & _ & _ & _ & _ & F).
Qed.
Lemma linked_frames w seq prev segs : linked w media shard seq prev segs → Forall frame_ok (frames_of segs).
Proof.
  revert seq prev. induction segs as [|s segs IH]; intros seq prev Li; [constructor|].
  destruct Li as (_ & _ & (_ & _ & data & _ & D) & Li). unfold frames_of. cbn. apply Forall_app. split; [|by eapply IH].
  by eapply decode_segment_ok.
Qed.
Lemma read_all_run w m v segs ws fuel :
  foldable w m v segs ws → (length segs < fuel)%nat →
  mexec w (read_chain_linked fuel media shard (lm_consolidated_upto m) (lm_consolidated_digest m)) = (w, Some (Ok segs)).
Proof.
  intros [L Lo Sh Li En Ba (Nr & Ro) Si Nw] Lf. pose proof (zlen_nonneg segs). unfold read_chain_linked.
  rewrite madd_run by lia. erewrite mexec_ok; [| |apply (walk_all w media shard segs fuel _ _ [] (Some (m, v)) None); done].
  - done.
  - apply reads_unthreaded, reads_walk.
Qed.
End rounds.
