(* ===== verification/ConsolidateRun.v ===== *)
(** * ConsolidateRun: a round from beginning to end

    [consolidate] on a shard at rest, and after the death of a run at any of
    its calls: the same round is published either way.

    Garbage collection deletes exactly the landing segments of the rounds
    whose grace is over, and leaves everything a reader needs. *)
From S2P Require Import Prelude Order Text Lsn Externals Frame Bloom Cas Segment Media MediaProofs Chain ChainHead ChainProofs Sealed SealedBuild Consolidate ConsolidateRound.

Section run.
Context {S : Type} `{CasOk S} `{CrcOk, Lz4Ok, SerdeLogOk, SerdeRoundOk} (media : WalMedia) (shard : Z).
Implicit Types w : mworld S.
Abbreviation foldable := (foldable media shard).

(** ** Writes elsewhere *)
Definition elsewhere (K : bytes → Prop) : Prop := ∀ k, K k → ∃ a b, k = sealed_key shard a b.
Lemma elsewhere_not K key :
  elsewhere K → key = manifest_key shard ∨ (∃ s, key = segment_key shard s) ∨ (∃ r, key = round_key shard r) → ¬ K key.
Proof. intros El Hk Kk. destruct (El key Kk) as (a & b & E). by eapply (sealed_not_log shard a b key). Qed.
Lemma loads_same w w' K m : same_but K w w' → ¬ K (manifest_key shard) → loads w media shard m → loads w' media shard m.
Proof. intros [_ E] N. unfold loads. destruct m as [[m v]|]; by rewrite E. Qed.
Lemma round_at_same w w' K r i : same_but K w w' → ¬ K (round_key shard r) → round_at shard w r i → round_at shard w' r i.
Proof. intros [_ E] N. unfold round_at. by rewrite E. Qed.
Lemma chain_end_same w w' K seq prev head e :
  lawful w → same_but K w w' → ¬ K (segment_key shard seq) → chain_end w media shard seq prev head e → chain_end w' media shard seq prev head e.
Proof.
  intros L Sb N En. destruct (present_at_same w w' media shard seq K L Sb N) as [_ F].
  destruct En as [Fe|data e Fe D|hd fr ft data Fe D Ne|hd fr ft data Fe D A B C];
    [apply end_empty; by rewrite F|eapply end_corrupt; [by rewrite F|done]|eapply end_foreign; [by rewrite F|done|done]|
     eapply end_unlinked; [by rewrite F|done..]].
Qed.
Lemma foldable_same w w' K m v segs ws :
  same_but K w w' → elsewhere K → fits 8 (mw_now w') → foldable w m v segs ws → foldable w' m v segs ws.
Proof.
  intros Sb El Nw [L Lo Sh Li En Ba Ro Si _]. split; try done.
  - apply Sb.
  - eapply loads_same; [done|apply elsewhere_not; auto|done].
  - eapply linked_same; [done|done| |done]. intros s _. apply elsewhere_not; eauto.
  - eapply chain_end_same; [done|done|apply elsewhere_not; eauto|done].
  - unfold baseline_at in *. destruct (lm_rounds m); [|done]. destruct Ba as (prev & R & ->). exists prev. split; [|done].
    eapply round_at_same; [done|apply elsewhere_not; eauto|done].
Qed.
Lemma round_holds_same w w' K r i ws kept :
  same_but K w w' → ¬ K (round_key shard r) → ¬ K (ri_sealed i) → round_holds shard w r i ws kept → round_holds shard w' r i ws kept.
Proof.
  intros Sb N1 N2 [A B C D (data & v & V & G)]. split; try done.
  - by eapply round_at_same.
  - exists data, v. split; [|done]. by rewrite (proj2 Sb).
Qed.

(** ** The three writes of a round *)
Section fold.
Context (m : ShardManifest) (v : Version) (segs : list ChainSegment) (ws ws' : list (Z * Z)) (kept : list Frame2) (obj : bytes) (footer : SealedFooter).
Context (Fold : fold_watermarks ws [] (sort_frames (frames_of segs)) = Ok (ws', kept)).
Context (Built : build_sealed (mkSealedHeader shard (lm_consolidated_upto m + 1) (last_folded m segs)) kept SEALED_CHUNK_TARGET = Ok (obj, footer)).
Abbreviation skey := (round_sealed_key shard m segs).
Abbreviation rkey := (round_key shard (next_round m)).
Abbreviation mkey := (manifest_key shard).

(** The sealed object is written, with these very bytes. *)
Record sealed_put w : Prop := {
  sp_fold : foldable w m v segs ws;
  sp_fresh : view w rkey STD = None;
  sp_sealed : ∃ sv, view w skey STD = Some (obj, sv)
}.
(** The index is there too. *)
Record index_put w (index : RoundIndex) : Prop := {
  ip_lawful : lawful w;
  ip_loads : loads w media shard (Some (m, v));
  ip_holds : round_holds shard w (next_round m) index ws' kept;
  ip_range : ri_first_seq index = lm_consolidated_upto m + 1 ∧ ri_last_seq index = last_folded m segs ∧ ri_sealed index = skey;
  ip_sum : sum_frames (rt_frames <$> ri_tenants index) = zlen kept ∧ Forall (λ n, 0 ≤ n) (rt_frames <$> ri_tenants index);
  ip_linked : linked w media shard (lm_consolidated_upto m + 1) (lm_consolidated_digest m) segs;
  ip_end : chain_end w media shard (lm_consolidated_upto m + 1 + zlen segs) (end_digest (lm_consolidated_digest m) segs) (lm_head m) None
}.
(** And the manifest names it. *)
Record round_done w (index : RoundIndex) : Prop := {
  dn_lawful : lawful w;
  dn_loads : ∃ v', loads w media shard (Some (after_round m segs, v'));
  dn_holds : round_holds shard w (next_round m) index ws' kept;
  dn_range : ri_first_seq index = lm_consolidated_upto m + 1 ∧ ri_last_seq index = last_folded m segs;
  dn_linked : linked w media shard (lm_consolidated_upto m + 1) (lm_consolidated_digest m) segs;
  dn_end : chain_end w media shard (lm_consolidated_upto m + 1 + zlen segs) (end_digest (lm_consolidated_digest m) segs) (lm_head m) None
}.
Lemma fold_facts w : foldable w m v segs ws → folded ws (sort_frames (frames_of segs)) ws' kept ∧ Forall frame_ok kept ∧ zlen kept ≤ MAX_SEALED_FRAMES ∧ marks_fit ws'.
Proof.
  intros Fo. destruct (baseline_fit shard w m ws (fo_base _ _ _ _ _ _ _ Fo)) as [W M].
  pose proof (fold_watermarks_spec ws [] (sort_frames (frames_of segs)) ws [] (folded_start ws W)) as Sp. rewrite Fold in Sp. cbn [app] in Sp.
  pose proof (linked_frames media shard w _ _ _ (fo_linked _ _ _ _ _ _ _ Fo)) as Fr.
  assert (Fs : Forall frame_ok (sort_frames (frames_of segs))).
  { rewrite Forall_forall in *. intros f Hf. apply Fr. unfold sort_frames in Hf. by rewrite sort_by_elem in Hf. }
  split_and!; [done| | |by eapply fold_marks_fit].
  - rewrite Forall_forall in *. intros f Hf. apply Fs. eapply elem_of_sublist; [done|apply Sp].
  - pose proof (sublist_length _ _ (fd_kept _ _ _ _ Sp)) as Le. unfold sort_frames in Le. rewrite sort_by_length in Le.
    pose proof (fo_size _ _ _ _ _ _ _ Fo). unfold zlen in *. lia.
Qed.

Definition the_index (now : Z) : RoundIndex :=
  mkRoundIndex ROUND_INDEX_FORMAT shard (next_round m) (lm_consolidated_upto m + 1) (last_folded m segs) skey now
    (index_tenants ws' (per_tenant (sf_sealed footer))).
Lemma manifest_ranges w : foldable w m v segs ws →
  fits 4 shard ∧ 0 ≤ lm_consolidated_upto m ∧ fits 8 (next_round m) ∧ 0 ≤ last_folded m segs ≤ u64_max - 1 ∧ log_fits m.
Proof.
  intros [L Lo Sh Li En Ba (Nr & Ro) Si Nw]. pose proof (loads_fits media shard w m v Lo) as Fm. pose proof (zlen_nonneg segs).
  destruct Fm as (F1 & F2 & F3 & F4 & F5 & F6 & F7 & F8 & F9). split; [by rewrite <-Sh|].
  assert (0 ≤ lm_consolidated_upto m) by (unfold fits in F5; lia). split; [done|]. split_and!.
  - unfold next_round, u64_max in *. destruct (lm_rounds m) as [r|]; cbn in *; unfold fits in *; lia.
  - unfold last_folded. lia.
  - unfold last_folded. lia.
  - by apply (loads_fits media shard w m v).
Qed.
Lemma built_facts w : foldable w m v segs ws →
  ∃ its, fst <$> its = kept ∧ sealed_exact SEALED_CHUNK_TARGET (mkSealedHeader shard (lm_consolidated_upto m + 1) (last_folded m segs)) its obj footer ∧
    ∃ start, Forall (tenant_fits start) (sf_sealed footer).
Proof.
  intros Fo. destruct (fold_facts w Fo) as (Fd & Fk & Lk & _). destruct (manifest_ranges w Fo) as (F1 & U & _ & Lf & _).
  destruct (wires_for kept Fk) as (its & <- & W). exists its. split; [done|].
  destruct (build_sealed_exact SEALED_CHUNK_TARGET (mkSealedHeader shard (lm_consolidated_upto m + 1) (last_folded m segs)) its)
    as (obj' & footer' & B & X & T).
  - pose proof (fo_room _ _ _ _ _ _ _ Fo) as [_ Ro]. pose proof (zlen_nonneg segs). unfold sealed_header_fits, fits, u64_max in *. cbn. split_and!; try done; lia.
  - done.
  - revert Lk. unfold zlen. by rewrite length_fmap.
  - eapply kept_sorted, Fd.
  - rewrite Built in B. injection B as <- <-. done.
Qed.

Lemma sealed_covered w its :
  foldable w m v segs ws → fst <$> its = kept → sealed_exact SEALED_CHUNK_TARGET (mkSealedHeader shard (lm_consolidated_upto m + 1) (last_folded m segs)) its obj footer →
  ∀ t, is_Some (bt_get t (tenant_entry <$> sf_sealed footer)) → is_Some (bt_get t ws').
Proof.
  intros Fo Ek X t [x G]. destruct (fold_facts w Fo) as (Fd & _). pose proof (tenant_entries_wf _ (se_sorted _ _ _ _ _ X)) as We.
  apply bt_get_elem in G; [|done]. apply list_elem_of_fmap in G as (u & Eu & Hu). injection Eu as -> _.
  destruct (se_tenant _ _ _ _ _ X u Hu) as (N & _). destruct (bt_get (st_tenant u) ws') eqn:Gw; [done|].
  pose proof (fd_tiles _ _ _ _ Fd (st_tenant u)) as T. rewrite Gw in T. apply tiles_none in T.
  rewrite <-Ek, <-of_tenant_fst in T. by destruct (of_tenant _ its).
Qed.
Lemma index_ok w now :
  foldable w m v segs ws → fits 8 now →
  round_fits (the_index now) ∧
  sum_frames (rt_frames <$> ri_tenants (the_index now)) = zlen kept ∧
  (∀ w', round_at shard w' (next_round m) (the_index now) → (∃ sv, view w' skey STD = Some (obj, sv)) →
     round_holds shard w' (next_round m) (the_index now) ws' kept).
Proof.
  intros Fo Fn. destruct (fold_facts w Fo) as (Fd & Fk & Lk & Mf). destruct (manifest_ranges w Fo) as (F1 & U & Fnr & Lf & _).
  destruct (built_facts w Fo) as (its & Ek & X & start & Ft). pose proof (tenant_entries_wf _ (se_sorted _ _ _ _ _ X)) as We.
  pose proof (per_tenant_entries _ (se_sorted _ _ _ _ _ X)) as Ep. pose proof (fd_wf _ _ _ _ Fd) as W'. split_and!.
  - split_and!; cbn -[fits]; try done.
    + unfold fits, u64_max in *. pose proof (zlen_nonneg segs). unfold last_folded in *. lia.
    + unfold fits, u64_max in *. lia.
    + rewrite Ep. apply index_fits; [done|done|]. intros e (t & -> & Ht)%list_elem_of_fmap. rewrite Forall_forall in Ft.
      destruct (Ft t Ht) as (_ & A & _ & B). cbn -[fits]. split; [done|]. apply Forall_fmap. eapply Forall_impl; [exact B|].
      intros c (C1 & C2 & C3 & C4 & _). done.
  - cbn [the_index ri_tenants]. rewrite Ep, index_sum; [|done|done|by eapply sealed_covered].
    replace (zlen kept) with (zlen its) by (rewrite <-Ek; unfold zlen; by rewrite length_fmap).
    rewrite <-(se_count _ _ _ _ _ X). clear. induction (sf_sealed footer) as [|t ts IH]; [done|]. cbn. unfold sum_frames in IH. by rewrite IH.
  - intros w' R (sv & V). split; [done|done| |by apply index_tenants_watermarks|].
    + intros t. unfold round_tenant. cbn [the_index ri_tenants]. rewrite Ep, index_tenants_get by done.
      destruct (bt_get t ws') as [x|]; [|done]. cbn. by destruct (default _ _).
    + exists obj, sv. split; [done|]. intros t.
      pose proof (index_chunks _ _ its obj footer start ws (sort_frames (frames_of segs)) ws' t X Ft) as Q.
      rewrite Ek in Q. exact (Q Fd).
Qed.

(** Writing the index. *)
Lemma put_index_run w :
  sealed_put w →
  ∃ w', mexec w (create (manifest_store media) rkey (round_to_vec (the_index (mw_now w))) (Err (Raced shard))) = (w', Some (Ok ())) ∧
    index_put w' (the_index (mw_now w)) ∧ same_but (λ k, k = rkey) w w'.
Proof.
  intros [Fo Fr (sv & V)]. destruct (create_run media w rkey (round_to_vec (the_index (mw_now w))) (Err (Raced shard)) (fo_lawful _ _ _ _ _ _ _ Fo) Fr)
    as (w' & rv & R & Sb & Vr). exists w'. destruct (index_ok w (mw_now w) Fo (fo_now _ _ _ _ _ _ _ Fo)) as (Fi & Su & Ho).
  pose proof Fo as [L Lo Sh Li En Ba Ro Si Nw]. split_and!; [done| |done]. split.
  - apply Sb.
  - eapply loads_same; [done| |done]. intros E. symmetry in E. revert E. apply round_not_log. auto.
  - apply Ho.
    + exists (round_to_vec (the_index (mw_now w))), rv. split_and!; [done|by apply round_parses|done].
    + exists sv. rewrite (proj2 Sb); [done|]. intros E. revert E. apply sealed_not_log. eauto.
  - done.
  - split; [done|]. destruct Fi as (_ & _ & _ & _ & _ & _ & Ft). apply Forall_fmap. eapply Forall_impl; [exact Ft|].
    intros t (_ & _ & Fr' & _). cbn. unfold fits in Fr'. lia.
  - eapply linked_same; [done|done| |done]. intros s _ E. symmetry in E. revert E. apply round_not_log. eauto.
  - eapply chain_end_same; [done|done| |done]. intros E. symmetry in E. revert E. apply round_not_log. eauto.
Qed.
(** Publishing it. *)
Lemma publish_run w index :
  lm_shard m = shard → fits 8 (next_round m) → fits 8 (last_folded m segs) → index_put w index →
  ∃ w', mexec w (publish_round (manifest_store media) m v (last_folded m segs) (end_digest (lm_consolidated_digest m) segs) (next_round m)) =
      (w', Some (Ok ())) ∧ round_done w' index ∧ same_but (λ k, k = mkey) w w'.
Proof.
  intros Sh Fn Fl [L Lo Ho (R1 & R2 & R3) _ Li En]. unfold publish_round. cbv zeta. change (lm_shard (published m _ _ _)) with (lm_shard m). rewrite Sh.
  destruct Lo as (data & V & P & Fm). destruct (swap_log_run media shard w (after_round m segs) v data L V) as (w' & v' & R & Sb & Vm).
  exists w'. split_and!; [exact R| |done]. pose proof (log_in_range _ _ P) as Fits. split.
  - apply Sb.
  - exists v', (log_to_vec_pretty (after_round m segs)). split_and!; [done| |done]. apply log_parses.
    destruct Fits as (F1 & F2 & F3 & F4 & F5 & F6 & F7 & F8 & F9). split_and!; cbn -[fits]; try done.
    + by apply end_digest_fits.
    + split; [|done]. destruct (lm_rounds m); [apply F7|done].
  - eapply round_holds_same; [done| | |done].
    + apply round_not_log. auto.
    + rewrite R3. intros E. revert E. apply sealed_not_log. auto.
  - done.
  - eapply linked_same; [done|done| |done]. intros s _. apply segment_not_manifest.
  - eapply chain_end_same; [done|done| |done]. apply segment_not_manifest.
Qed.

Lemma create_visits w key data taken w1 :
  visits w (create (manifest_store media) key data taken) w1 →
  w1 = w ∨ w1 = (mexec w (create (manifest_store media) key data taken)).1.
Proof. apply visits_put. intros [x|[]|]; eexists; reflexivity. Qed.
Lemma publish_visits w w' upto digest round r w1 :
  mexec w (publish_round (manifest_store media) m v upto digest round) = (w', r) →
  visits w (publish_round (manifest_store media) m v upto digest round) w1 → w1 = w ∨ w1 = w'.
Proof.
  intros R V. unfold publish_round in V. apply visits_put in V as [-> | ->]; [by left| |intros [x|[]|]; eexists; reflexivity].
  right. unfold publish_round in R. cbv zeta in R. by rewrite (R : mexec w (MPut _ _ _ _ _) = _).
Qed.
Lemma unthreaded_create key data taken : unthreaded (create (manifest_store media) key data taken).
Proof. unfold create. apply unthreaded_handle; [done|]. by intros [x|[]|]. Qed.
Lemma unthreaded_publish upto digest round : unthreaded (publish_round (manifest_store media) m v upto digest round).
Proof. unfold publish_round, swap_log. apply unthreaded_handle; [done|]. by intros [x|[]|]. Qed.

(** A world a run can leave behind. *)
Abbreviation ours := (λ k, k = skey ∨ k = rkey ∨ k = mkey).
Definition left_behind w w1 : Prop :=
  same_but ours w w1 ∧ (w1 = w ∨ sealed_put w1 ∨ (∃ index, index_put w1 index) ∨ ∃ index, round_done w1 index).
Lemma put_sealed_run w :
  foldable w m v segs ws → view w rkey STD = None → (view w skey STD = None ∨ ∃ sv, view w skey STD = Some (obj, sv)) →
  ∃ w', mexec w (create (manifest_store media) skey obj (Ok ())) = (w', Some (Ok ())) ∧ sealed_put w' ∧ same_but (λ k, k = skey) w w'.
Proof.
  intros Fo Fr Vs. pose proof (fo_lawful _ _ _ _ _ _ _ Fo) as L. destruct Vs as [V|(sv & V)].
  - destruct (create_run media w skey obj (Ok ()) L V) as (w' & sv & R & Sb & V'). exists w'. split_and!; [done| |done]. split.
    + eapply foldable_same; [done| | |done].
      * intros k ->. unfold round_sealed_key. eauto.
      * rewrite (mexec_now _ _ _ _ R). apply (fo_now _ _ _ _ _ _ _ Fo).
    + rewrite (proj2 Sb); [done|]. intros E. symmetry in E. revert E. apply sealed_not_log. eauto.
    + by exists sv.
  - exists w. rewrite (create_taken media w skey obj (Ok ()) _ L V). split_and!; [done| |by apply same_but_refl].
    split; [done|done|by exists sv].
Qed.
Lemma fold_round_run w g :
  foldable w m v segs ws → last segs = Some g → view w rkey STD = None →
  (view w skey STD = None ∨ ∃ sv, view w skey STD = Some (obj, sv)) →
  (∃ w' index, mexec w (fold_round media shard m v (next_round m) segs g) =
      (w', Some (Ok (mkOutcome (next_round m) (lm_consolidated_upto m + 1) (last_folded m segs) (zlen kept) skey false))) ∧
    round_done w' index ∧ same_but ours w w') ∧
  (∀ w1, visits w (fold_round media shard m v (next_round m) segs g) w1 → left_behind w w1).
Proof.
  intros Fo La Fr Vs. destruct (manifest_ranges w Fo) as (F1 & U & Fnr & Lf & Fm). pose proof Fo as [L Lo Sh Li En Ba (Nr & Ro) Si Nw].
  destruct (linked_last media shard w _ _ _ g Li La) as (Sg & _). assert (Lg : cs_seq g = last_folded m segs) by (unfold last_folded; lia).
  assert (Dg : tenants_digest (sf_tenants (cs_footer g)) = end_digest (lm_consolidated_digest m) segs) by (unfold end_digest; by rewrite La).
  pose proof (baseline_run media shard w m ws L Ba) as Rb.
  destruct (put_sealed_run w Fo Fr Vs) as (w1 & R1 & P1 & S1). destruct (put_index_run w1 P1) as (w2 & R2 & P2 & S2).
  assert (Fl : fits 8 (last_folded m segs)) by (unfold fits, u64_max in *; lia).
  destruct (publish_run w2 _ Sh Fnr Fl P2) as (w3 & R3 & P3 & S3).
  unfold fold_round. cbv zeta. rewrite Lg, Dg. fold (frames_of segs).
  assert (Ad : uadd (E := ConsolidateError) (lm_consolidated_upto m) 1 = Ok (lm_consolidated_upto m + 1)).
  { unfold uadd. change (2 ^ 64 - 1) with u64_max. pose proof (zlen_nonneg segs). by rewrite (proj2 (Z.leb_le _ _)) by lia. }
  assert (S01 : same_but ours w w1) by (eapply same_but_trans; [exact S1|apply (same_but_refl (λ _, False)), S1|by auto|by auto]).
  assert (S02 : same_but ours w w2) by (eapply same_but_trans; [exact S01|exact S2|by auto|by auto]).
  assert (S03 : same_but ours w w3) by (eapply same_but_trans; [exact S02|exact S3|by auto|by auto]).
  assert (S00 : same_but ours w w) by by apply same_but_refl.
  split.
  - exists w3, (the_index (mw_now w1)). split_and!; [|done|done].
    erewrite mexec_ok; [|apply reads_unthreaded, reads_baseline|exact Rb]. rewrite Fold, mexec_done_ok. unfold madd.
    rewrite Ad, mexec_done_ok, Built, mexec_done_ok.
    erewrite mexec_ok; [|apply unthreaded_create|exact R1]. change (mexec w1 (MNow ?k)) with (mexec w1 (k (mw_now w1))). cbv beta.
    erewrite mexec_ok; [|apply unthreaded_create|exact R2]. erewrite mexec_ok; [|apply unthreaded_publish|exact R3]. done.
  - assert (B0 : left_behind w w) by (split; auto). assert (B1 : left_behind w w1) by (split; auto).
    assert (B2 : left_behind w w2) by (split; eauto). assert (B3 : left_behind w w3) by (split; [done|]; right; right; right; eauto).
    intros x V. apply visits_after with (a := ws) in V as [-> |V]; [done| |apply reads_baseline|exact Rb].
    rewrite Fold, visits_done in V. unfold madd in V. rewrite Ad, visits_done, Built, visits_done in V.
    change (sealed_key shard (lm_consolidated_upto m + 1) (last_folded m segs)) with skey in V.
    apply (visits_ok w w1 _ _ x ()) in V as [V|V]; [| |apply unthreaded_create|exact R1].
    { apply create_visits in V as [-> | ->]; [done|]. by rewrite R1. }
    destruct V as [-> |V]; [done|]. cbv beta in V. fold (the_index (mw_now w1)) in V.
    apply (visits_ok w1 w2 _ _ x ()) in V as [V|V]; [| |apply unthreaded_create|exact R2].
    { apply create_visits in V as [-> | ->]; [done|]. by rewrite R2. }
    apply (visits_ok w2 w3 _ _ x ()) in V as [V|V]; [| |apply unthreaded_publish|exact R3].
    { by apply (publish_visits w2 w3 _ _ _ _ x R3) in V as [-> | ->]. }
    by destruct V as [-> |[]].
Qed.

(** ** Adoption *)
Lemma digest_run w g :
  lawful w → stored w media shard g → 0 < cs_seq g → mexec w (digest_of_segment media shard (cs_seq g)) = (w, Some (Ok (digest_of g))).
Proof.
  intros L (_ & _ & data & F & D) P. unfold digest_of_segment. rewrite (proj2 (Z.eqb_neq _ _)) by lia.
  erewrite mexec_ok; [|quiet|rewrite mexec_map_err by quiet; by rewrite mexec_fetch]. rewrite F. cbn [ok_or map_err].
  rewrite mexec_done_ok, (decode_read_footer _ _ _ _ D). done.
Qed.
Lemma adopt_run w index g :
  lm_shard m = shard → 0 ≤ lm_consolidated_upto m → fits 8 (next_round m) → last_folded m segs < u64_max → zlen kept ≤ u64_max →
  last segs = Some g → index_put w index →
  (∃ w', mexec w (adopt media shard m v (next_round m) index) =
      (w', Some (Ok (mkOutcome (next_round m) (lm_consolidated_upto m + 1) (last_folded m segs) (zlen kept) skey true))) ∧
    round_done w' index ∧ same_but (λ k, k = mkey) w w').
Proof.
  intros Sh U Fn Ll Lk La Ip. pose proof Ip as [L Lo Ho (R1 & R2 & R3) (Su & Nn) Li En]. destruct (linked_last media shard w _ _ _ g Li La) as (Sg & St).
  assert (Ne : 0 < zlen segs) by (destruct segs; [done|rewrite zlen_cons; pose proof (zlen_nonneg l); lia]).
  assert (Lg : cs_seq g = last_folded m segs) by (unfold last_folded; lia).
  destruct (publish_run w index Sh Fn) as (w' & P & Dn & Sb); [unfold fits, last_folded, u64_max in *; lia|done|].
  exists w'. split_and!; [|done|done]. unfold adopt. rewrite madd_run by (unfold last_folded in *; lia). rewrite R1, R2, R3.
  rewrite Z.eqb_refl. cbn [negb guard_err]. rewrite mexec_done_ok. rewrite <-Lg at 1.
  erewrite mexec_ok; [| |rewrite mexec_map_err by (apply reads_unthreaded, reads_digest); rewrite digest_run; [reflexivity|done|done|unfold last_folded in *; lia]].
  2:{ apply reads_unthreaded, reads_map_err, reads_digest. }
  replace (digest_of g) with (end_digest (lm_consolidated_digest m) segs) by (unfold end_digest; by rewrite La).
  erewrite mexec_ok; [|apply unthreaded_publish|exact P]. rewrite usum_run by (done || lia). rewrite mexec_done_ok, Su. done.
Qed.
End fold.

(** ** The whole run *)
Lemma unthreaded_fold m v round segs g : unthreaded (fold_round media shard m v round segs g).
Proof.
  unfold fold_round. cbv zeta. apply unthreaded_bind; [apply reads_unthreaded, reads_baseline|]. intros marks.
  apply unthreaded_bind; [done|]. intros [marks' kept]. apply unthreaded_bind; [done|]. intros first.
  apply unthreaded_bind; [done|]. intros [data footer]. apply unthreaded_bind; [apply unthreaded_create|]. intros _ now.
  apply unthreaded_bind; [apply unthreaded_create|]. intros _. apply unthreaded_bind; [apply unthreaded_publish|]. done.
Qed.
Lemma round_number w m (f : Z → mprog ConsolidateError (option ConsolidateOutcome)) :
  next_round m ≤ u64_max →
  mexec w ((match lm_rounds m with None => mret 1 | Some r => madd (rr_last r) 1 end) ≫= f) = mexec w (f (next_round m)) ∧
  ∀ x, visits w ((match lm_rounds m with None => mret 1 | Some r => madd (rr_last r) 1 end) ≫= f) x = visits w (f (next_round m)) x.
Proof.
  unfold next_round. destruct (lm_rounds m) as [r|]; cbn [from_option]; intros L; [|done]. unfold madd, uadd.
  change (2 ^ 64 - 1) with u64_max. by rewrite (proj2 (Z.leb_le _ _)) by lia.
Qed.
Lemma load_run w m v :
  lawful w → loads w media shard (Some (m, v)) →
  mexec w (mmap_err CoChain (log_load (manifest_store media) shard)) = (w, Some (Ok (Some (m, v)))).
Proof. intros L Lo. rewrite mexec_map_err by (apply reads_unthreaded, reads_log_load). by erewrite log_load_run. Qed.
Lemma reads_load : reads_only (mmap_err CoChain (log_load (manifest_store media) shard)).
Proof. apply reads_map_err, reads_log_load. Qed.
Lemma unthreaded_adopt m v round index : unthreaded (adopt media shard m v round index).
Proof.
  unfold adopt. apply unthreaded_bind; [done|]. intros first. apply unthreaded_bind; [done|]. intros _.
  apply unthreaded_bind; [apply reads_unthreaded, reads_map_err, reads_digest|]. intros digest.
  apply unthreaded_bind; [apply unthreaded_publish|]. intros _. by apply unthreaded_bind.
Qed.
Lemma consolidate_folds w m v segs ws g fuel :
  foldable w m v segs ws → last segs = Some g → view w (round_key shard (next_round m)) STD = None → (length segs < fuel)%nat →
  let rest := out ← fold_round media shard m v (next_round m) segs g; mret (Some out) in
  mexec w (consolidate fuel media shard) = mexec w rest ∧ ∀ x, visits w (consolidate fuel media shard) x → x = w ∨ visits w rest x.
Proof.
  intros Fo La Fr Lf. cbv zeta. pose proof Fo as [L Lo Sh Li En Ba (Nr & Ro) Si Nw]. unfold consolidate.
  pose proof (load_run w m v L Lo) as R1. pose proof (round_load_none media shard w _ L Fr) as R2.
  pose proof (read_all_run media shard w m v segs ws fuel Fo Lf) as R3.
  assert (R3' : mexec w (mmap_err CoChain (read_chain_linked fuel media shard (lm_consolidated_upto m) (lm_consolidated_digest m))) = (w, Some (Ok segs))).
  { rewrite mexec_map_err by (apply reads_unthreaded, reads_chain). by rewrite R3. }
  cbv zeta. split.
  - erewrite mexec_ok; [|apply reads_unthreaded, reads_load|exact R1]. cbv beta iota. rewrite (proj1 (round_number w m _ Nr)).
    erewrite mexec_ok; [|apply reads_unthreaded, reads_round_load|exact R2]. cbv beta iota.
    erewrite mexec_ok; [|apply reads_unthreaded, reads_map_err, reads_chain|exact R3']. by rewrite La.
  - intros x V. apply (visits_after w _ _ x _ reads_load R1) in V as [-> |V]; [by left|]. cbv beta iota in V. rewrite (proj2 (round_number w m _ Nr)) in V.
    apply (visits_after w _ _ x _ (reads_round_load _ _ _) R2) in V as [-> |V]; [by left|]. cbv beta iota in V.
    apply (visits_after w _ _ x _ (reads_map_err _ _ (reads_chain _ _ _ _ _)) R3') in V as [-> |V]; [by left|]. rewrite La in V. by right.
Qed.
Lemma consolidate_adopts w m v index fuel :
  lawful w → loads w media shard (Some (m, v)) → next_round m ≤ u64_max → round_at shard w (next_round m) index →
  mexec w (consolidate fuel media shard) = mexec w (out ← adopt media shard m v (next_round m) index; mret (Some out)).
Proof.
  intros L Lo Nr R. unfold consolidate. cbv zeta. erewrite mexec_ok; [|apply reads_unthreaded, reads_load|by apply load_run].
  cbv beta iota. rewrite (proj1 (round_number w m _ Nr)). by erewrite mexec_ok; [|apply reads_unthreaded, reads_round_load|by apply round_load_run].
Qed.
Lemma consolidate_idle w m v fuel :
  lawful w → loads w media shard (Some (m, v)) → next_round m ≤ u64_max → view w (round_key shard (next_round m)) STD = None →
  lm_consolidated_upto m + 1 ≤ u64_max → chain_end w media shard (lm_consolidated_upto m + 1) (lm_consolidated_digest m) (lm_head m) None →
  (0 < fuel)%nat → mexec w (consolidate fuel media shard) = (w, Some (Ok None)).
Proof.
  intros L Lo Nr Fr Ro En Lf. unfold consolidate. cbv zeta. erewrite mexec_ok; [|apply reads_unthreaded, reads_load|by apply load_run].
  cbv beta iota. rewrite (proj1 (round_number w m _ Nr)). erewrite mexec_ok; [|apply reads_unthreaded, reads_round_load|by apply round_load_none]. cbv beta iota.
  assert (R3 : mexec w (mmap_err CoChain (read_chain_linked fuel media shard (lm_consolidated_upto m) (lm_consolidated_digest m))) = (w, Some (Ok []))).
  { rewrite mexec_map_err by (apply reads_unthreaded, reads_chain). unfold read_chain_linked. rewrite madd_run by done.
    erewrite mexec_ok; [| |apply (walk_all w media shard [] fuel _ _ [] (Some (m, v)) None); try done].
    - done.
    - apply reads_unthreaded, reads_walk.
    - rewrite zlen_nil. lia.
    - by rewrite zlen_nil, Z.add_0_r. }
  by erewrite mexec_ok; [|apply reads_unthreaded, reads_map_err, reads_chain|exact R3].
Qed.

(** ** After it *)
(** A published round, as any reader finds it. *)
Definition published_round w (m : ShardManifest) (segs : list ChainSegment) (ws' : list (Z * Z)) (kept : list Frame2) : Prop :=
  ∃ index v',
    mexec w (log_load (manifest_store media) shard) = (w, Some (Ok (Some (after_round m segs, v')))) ∧
    mexec w (round_load (manifest_store media) shard (next_round m)) = (w, Some (Ok (Some index))) ∧
    ri_first_seq index = lm_consolidated_upto m + 1 ∧ ri_last_seq index = last_folded m segs ∧
    (∀ t, rt_watermark <$> round_tenant index t = bt_get t ws') ∧
    (∀ t, mexec w (read_round_tenant (manifest_store media) index t) = (w, Some (Ok (tenants_frames t kept)))) ∧
    (∀ fuel, (0 < fuel)%nat →
       mexec w (read_chain_linked fuel media shard (last_folded m segs) (end_digest (lm_consolidated_digest m) segs)) = (w, Some (Ok []))).
Lemma round_done_published w m segs ws' kept index :
  lm_consolidated_upto m + 1 + zlen segs ≤ u64_max →
  round_done m segs ws' kept w index → published_round w m segs ws' kept.
Proof.
  intros Ro [L (v' & Lo) Ho (R1 & R2) Li En]. exists index, v'. split_and!; try done.
  - by erewrite log_load_run.
  - apply round_load_run; [done|apply Ho].
  - apply Ho.
  - intros t. by eapply round_reads.
  - intros fuel Lf. unfold read_chain_linked. rewrite madd_run by (unfold last_folded; lia).
    erewrite mexec_ok; [| |apply (walk_all w media shard [] fuel _ _ [] (Some (after_round m segs, v')) None); try done].
    + done.
    + apply reads_unthreaded, reads_walk.
    + rewrite zlen_nil. unfold last_folded. lia.
    + rewrite zlen_nil, Z.add_0_r. unfold last_folded.
      by replace (lm_consolidated_upto m + zlen segs + 1) with (lm_consolidated_upto m + 1 + zlen segs) by lia.
Qed.
Lemma build_exists w m v segs ws ws' kept :
  foldable w m v segs ws → fold_watermarks ws [] (sort_frames (frames_of segs)) = Ok (ws', kept) →
  ∃ obj footer, build_sealed (mkSealedHeader shard (lm_consolidated_upto m + 1) (last_folded m segs)) kept SEALED_CHUNK_TARGET = Ok (obj, footer).
Proof.
  intros Fo Fd. destruct (fold_facts m v segs ws ws' kept Fd w Fo) as (Fd' & Fk & Lk & _). destruct (manifest_ranges m v segs ws w Fo) as (F1 & U & _ & Lf & _).
  destruct (wires_for kept Fk) as (its & <- & W).
  destruct (build_sealed_exact SEALED_CHUNK_TARGET (mkSealedHeader shard (lm_consolidated_upto m + 1) (last_folded m segs)) its)
    as (obj' & footer' & B & _); [|done| |eapply kept_sorted, Fd'|eauto].
  - pose proof (fo_room _ _ _ _ _ _ _ Fo) as [_ Ro]. pose proof (zlen_nonneg segs). unfold sealed_header_fits, fits, u64_max in *. cbn. split_and!; try done; lia.
  - revert Lk. unfold zlen. by rewrite length_fmap.
Qed.
(** The same stores at another time. *)
Definition restart w (now : Z) : mworld S := mkMWorld (mw_az1 w) (mw_az2 w) (mw_std w) now.
Lemma restart_same w now : lawful w → same_but (λ _, False) w (restart w now).
Proof. intros L. split; [intros md; specialize (L md); by destruct md|]. intros key md _. by destruct md. Qed.

(** Whatever a dead run left, the next one ends with the round published. *)
Lemma rerun w w1 now m v segs ws ws' kept obj footer g fuel :
  foldable w m v segs ws → last segs = Some g → (length segs < fuel)%nat → next_round m < u64_max →
  view w (round_key shard (next_round m + 1)) STD = None →
  fold_watermarks ws [] (sort_frames (frames_of segs)) = Ok (ws', kept) →
  build_sealed (mkSealedHeader shard (lm_consolidated_upto m + 1) (last_folded m segs)) kept SEALED_CHUNK_TARGET = Ok (obj, footer) →
  view w (round_key shard (next_round m)) STD = None → view w (round_sealed_key shard m segs) STD = None →
  fits 8 now → left_behind m v segs ws ws' kept obj w w1 →
  ∃ w' out, mexec (restart w1 now) (consolidate fuel media shard) = (w', Some (Ok out)) ∧ published_round w' m segs ws' kept.
Proof.
  intros Fo La Lf Nx Fr2 Fd B Fr Fs Fn [Sb Cs]. destruct (manifest_ranges m v segs ws w Fo) as (F1 & U & Fnr & Ll & _).
  destruct (fold_facts m v segs ws ws' kept Fd w Fo) as (_ & _ & Lk & _). pose proof Fo as [L Lo Sh Li En Ba (Nr & Ro) Si Nw].
  pose proof (restart_same w1 now (proj1 Sb)) as Sr.
  assert (Vr : ∀ key md, view (restart w1 now) key md = view w1 key md) by by intros key [].
  pose proof (sealed_not_log shard (lm_consolidated_upto m + 1) (last_folded m segs)) as Ns.
  assert (Folds : ∀ w2, foldable w2 m v segs ws → view w2 (round_key shard (next_round m)) STD = None →
    (view w2 (round_sealed_key shard m segs) STD = None ∨ ∃ sv, view w2 (round_sealed_key shard m segs) STD = Some (obj, sv)) →
    ∃ w' out, mexec w2 (consolidate fuel media shard) = (w', Some (Ok out)) ∧ published_round w' m segs ws' kept).
  { intros w2 Fo2 Fr' Vs. destruct (consolidate_folds w2 m v segs ws g fuel Fo2 La Fr' Lf) as [R _].
    destruct (fold_round_run m v segs ws ws' kept obj footer Fd B w2 g Fo2 La Fr' Vs) as [(w' & index & Rf & Dn & _) _].
    eexists w', _. split; [|by eapply round_done_published]. rewrite R. erewrite mexec_ok; [reflexivity|apply unthreaded_fold|exact Rf]. }
  destruct Cs as [-> |[[Fo1 Fr1 (sv & V1)]|[(index & Ip)|(index & Dn)]]].
  - apply Folds; [eapply foldable_same; [exact Sr|by intros k []|done|exact Fo]|by rewrite Vr|left; by rewrite Vr].
  - apply Folds; [eapply foldable_same; [exact Sr|by intros k []|done|exact Fo1]|by rewrite Vr|right; exists sv; by rewrite Vr].
  - pose proof Ip as [L1 Lo1 Ho1 Rg1 Su1 Li1 En1].
    assert (Ip' : index_put m v segs ws' kept (restart w1 now) index).
    { split; [apply Sr|eapply loads_same; [exact Sr|by intros []|done]|eapply round_holds_same; [exact Sr|by intros []|by intros []|done]|done|done| |].
      - eapply linked_same; [exact L1|exact Sr|by intros s _ []|done].
      - eapply chain_end_same; [exact L1|exact Sr|by intros []|done]. }
    destruct (adopt_run m v segs ws ws' kept obj footer Fd B (restart w1 now) index g) as (w' & Ra & Dn & _); try done; [lia|unfold MAX_SEALED_FRAMES, u64_max in *; lia|].
    eexists w', _. split; [|by eapply round_done_published].
    rewrite (consolidate_adopts (restart w1 now) m v index); [|apply Ip'|apply Ip'|done|apply Ip'].
    erewrite mexec_ok; [reflexivity| |exact Ra]. apply unthreaded_adopt.
  - pose proof Dn as [L1 (v' & Lo1) Ho1 Rg1 Li1 En1].
    assert (Dn' : round_done m segs ws' kept (restart w1 now) index).
    { split; [apply Sr|exists v'; eapply loads_same; [exact Sr|by intros []|done]|eapply round_holds_same; [exact Sr|by intros []|by intros []|done]|done| |].
      - eapply linked_same; [exact L1|exact Sr|by intros s _ []|done].
      - eapply chain_end_same; [exact L1|exact Sr|by intros []|done]. }
    eexists (restart w1 now), _. split; [|by eapply round_done_published].
    apply (consolidate_idle (restart w1 now) (after_round m segs) v').
    + apply Dn'.
    + eapply loads_same; [exact Sr|by intros []|done].
    + unfold next_round at 1. cbn. lia.
    + rewrite Vr. unfold next_round at 1. cbn [after_round published lm_rounds from_option rr_last].
      rewrite (proj2 Sb); [done|]. intros [E|[E|E]].
      * symmetry in E. revert E. apply Ns. eauto.
      * apply round_key_inj in E; unfold fits in Fnr; lia.
      * revert E. apply round_not_log. auto.
    + cbn. lia.
    + cbn. replace (last_folded m segs + 1) with (lm_consolidated_upto m + 1 + zlen segs) by (unfold last_folded; lia). apply Dn'.
    + lia.
Qed.
End run.

(** C11: consolidation does what it says.  On a shard at rest with segments
    past its boundary, it refuses exactly when the fold does, writing
    nothing; otherwise it publishes one round: the manifest has the boundary
    at the last segment with its digest, the round's index covers exactly
    those segments and carries every tenant's watermark, every tenant's kept
    frames read back from byte ranges of the sealed object, nothing is left
    to consolidate, and no landing segment or older round was touched. *)
Theorem consolidate_exact {S} `{CasOk S} `{CrcOk, Lz4Ok, SerdeLogOk, SerdeRoundOk} (w : mworld S) (media : WalMedia)
    (shard : Z) (m : ShardManifest) (v : Version) (segs : list ChainSegment) (ws : list (Z * Z)) (fuel : nat) :
  foldable media shard w m v segs ws → segs ≠ [] → (length segs < fuel)%nat →
  view w (round_key shard (next_round m)) STD = None → view w (round_sealed_key shard m segs) STD = None →
  match fold_watermarks ws [] (sort_frames (frames_of segs)) with
  | Ok (ws', kept) => ∃ w',
      mexec w (consolidate fuel media shard) =
        (w', Some (Ok (Some (mkOutcome (next_round m) (lm_consolidated_upto m + 1) (last_folded m segs) (zlen kept)
                               (round_sealed_key shard m segs) false)))) ∧
      published_round media shard w' m segs ws' kept ∧
      same_but (λ k, k = round_sealed_key shard m segs ∨ k = round_key shard (next_round m) ∨ k = manifest_key shard) w w'
  | Err e => mexec w (consolidate fuel media shard) = (w, Some (Err e))
  | Panic => False
  end.
Proof.
  intros Fo Ne Lf Fr Fs. destruct (last segs) as [g|] eqn:La; [|by apply last_None in La].
  destruct (consolidate_folds media shard w m v segs ws g fuel Fo La Fr Lf) as [R _]. rewrite R.
  pose proof Fo as [L Lo Sh Li En Ba (Nr & Ro) Si Nw]. pose proof (baseline_run media shard w m ws L Ba) as Rb.
  destruct (baseline_fit shard w m ws Ba) as [W _].
  pose proof (fold_watermarks_spec ws [] (sort_frames (frames_of segs)) ws [] (folded_start ws W)) as Sp.
  destruct (fold_watermarks ws [] (sort_frames (frames_of segs))) as [[ws' kept]|e|] eqn:Fd; [| |done].
  - destruct (build_exists media shard w m v segs ws ws' kept Fo Fd) as (obj & footer & B).
    destruct (fold_round_run media shard m v segs ws ws' kept obj footer Fd B w g Fo La Fr (or_introl Fs)) as [(w' & index & Rf & Dn & Sb) _].
    exists w'. split_and!; [|by eapply round_done_published|done]. erewrite mexec_ok; [done| |exact Rf]. apply unthreaded_fold.
  - erewrite mexec_bind; [|apply unthreaded_fold]. unfold fold_round. cbv zeta.
    erewrite mexec_ok; [|apply reads_unthreaded, reads_baseline|exact Rb]. fold (frames_of segs). by rewrite Fd.
Qed.

(** C10: consolidation survives its own death.  Let a run die between any two
    of its calls and a second one start later on what it left: the second
    run ends well and the round is published, with the same boundary, the
    same watermarks and the same frames as if nothing had happened. *)
Theorem consolidate_survives_crash {S} `{CasOk S} `{CrcOk, Lz4Ok, SerdeLogOk, SerdeRoundOk} (w w1 : mworld S) (media : WalMedia)
    (shard now : Z) (m : ShardManifest) (v : Version) (segs : list ChainSegment) (ws ws' : list (Z * Z)) (kept : list Frame2) (fuel : nat) :
  foldable media shard w m v segs ws → segs ≠ [] → (length segs < fuel)%nat → next_round m < u64_max →
  view w (round_key shard (next_round m)) STD = None → view w (round_key shard (next_round m + 1)) STD = None →
  view w (round_sealed_key shard m segs) STD = None →
  fold_watermarks ws [] (sort_frames (frames_of segs)) = Ok (ws', kept) →
  visits w (consolidate fuel media shard) w1 → fits 8 now →
  ∃ w' out, mexec (restart w1 now) (consolidate fuel media shard) = (w', Some (Ok out)) ∧
    published_round media shard w' m segs ws' kept.
Proof.
  intros Fo Ne Lf Nx Fr Fr2 Fs Fd V Fn. destruct (last segs) as [g|] eqn:La; [|by apply last_None in La].
  destruct (build_exists media shard w m v segs ws ws' kept Fo Fd) as (obj & footer & B).
  destruct (consolidate_folds media shard w m v segs ws g fuel Fo La Fr Lf) as [_ Vs].
  destruct (fold_round_run media shard m v segs ws ws' kept obj footer Fd B w g Fo La Fr (or_introl Fs)) as [(w2 & index & Rf & Dn & Sb) Lb].
  eapply (rerun media shard w w1); try done. specialize (Vs w1 V) as [-> |V']; [split; [apply same_but_refl, Fo|by left]|].
  apply visits_bind in V' as [V'|(w3 & r & X & V')]; [by apply Lb| |apply unthreaded_fold]. rewrite Rf in X. injection X as <- <-.
  destruct V' as [-> |[]]. split; [done|]. right. right. right. by exists index.
Qed.

Section gc.
Context {S : Type} `{CasOk S} `{CrcOk, Lz4Ok, SerdeLogOk, SerdeRoundOk} (media : WalMedia) (shard : Z).
Implicit Types w : mworld S.

(** The key of a landing position at or below [upto]. *)
Definition folded_key (upto : Z) (k : bytes) : Prop := ∃ s, 0 ≤ s ≤ upto ∧ k = segment_key shard s.
Lemma unthreaded_delete seq : unthreaded (mmap_err CoStore (delete_segment media shard seq)).
Proof. apply unthreaded_map_err. unfold delete_segment. destruct media; quiet. Qed.
Lemma present_stays w w' upto s :
  lawful w → same_but (folded_key upto) w w' → upto < s → present_at w' media shard s = present_at w media shard s.
Proof.
  intros L Sb Hs. destruct (present_at_same w w' media shard s _ L Sb) as [E _]; [|done].
  intros (t & Ht & E%segment_key_inj); lia.
Qed.
Lemma unthreaded_delete_seqs seqs n : unthreaded (delete_seqs media shard seqs n).
Proof.
  revert n. induction seqs as [|seq seqs IH]; intros n; [done|]. apply unthreaded_bind; [apply unthreaded_delete|]. intros _.
  by apply unthreaded_bind.
Qed.
(** Positions once deleted stay deleted while others are. *)
Definition gone w (P : Z → Prop) : Prop := ∀ s, P s → present_at w media shard s = false.
Lemma delete_one w seq P :
  lawful w → 0 ≤ seq → (∀ s, P s → 0 ≤ s) → gone w P →
  ∃ w', mexec w (delete_segment media shard seq) = (w', Some (Ok ())) ∧
    same_but (λ k, k = segment_key shard seq) w w' ∧ gone w' (λ s, P s ∨ s = seq).
Proof.
  intros L Hs Pp G. destruct (delete_segment_run w media shard seq L) as (w' & R & Sb & Pr). exists w'. split_and!; [done|done|].
  intros s Hp. destruct (decide (s = seq)) as [->|N]; [done|]. destruct Hp as [Hp| ->]; [|done].
  destruct (present_at_same w w' media shard s _ L Sb) as [E _]; [intros E%segment_key_inj; [done|auto|done]|]. rewrite E. by apply G.
Qed.
Lemma delete_seqs_run w seqs n upto (P : Z → Prop) :
  lawful w → Forall (λ s, 0 ≤ s ≤ upto) seqs → n + zlen seqs ≤ u64_max → (∀ s, P s → 0 ≤ s) → gone w P →
  ∃ w', mexec w (delete_seqs media shard seqs n) = (w', Some (Ok (n + zlen seqs))) ∧
    same_but (folded_key upto) w w' ∧ gone w' (λ s, P s ∨ s ∈ seqs).
Proof.
  revert w n P. induction seqs as [|seq seqs IH]; intros w n P L F Ln Pp G; cbn [delete_seqs].
  - exists w. rewrite zlen_nil, Z.add_0_r. split_and!; [done|by apply same_but_refl|]. intros s [Hs|Hs]; [by apply G|set_solver].
  - apply Forall_cons in F as [Hs F]. rewrite zlen_cons in *. pose proof (zlen_nonneg seqs).
    destruct (delete_one w seq P L ltac:(lia) Pp G) as (w1 & R1 & S1 & G1).
    destruct (IH w1 (n + 1) (λ s, P s ∨ s = seq)) as (w2 & R2 & S2 & G2);
      [apply S1|done|lia|intros s [Hp| ->]; [by apply Pp|lia]|done|].
    exists w2. split_and!.
    + erewrite mexec_ok; [|apply unthreaded_delete|rewrite mexec_map_err by (unfold delete_segment; destruct media; quiet); by rewrite R1].
      rewrite madd_run by lia. rewrite R2. by replace (n + 1 + zlen seqs) with (n + (1 + zlen seqs)) by lia.
    + eapply same_but_trans; [exact S1|exact S2| |by auto]. intros k ->. exists seq. split; [lia|done].
    + intros s [Hp|Hp]; [apply G2; auto|]. apply G2. apply elem_of_cons in Hp as [-> |Hp]; auto.
Qed.

Lemma round_at_unique w r i j : round_at shard w r i → round_at shard w r j → i = j.
Proof. intros (d & v & V & P & _) (d' & v' & V' & P' & _). congruence. Qed.
(** The rounds fold the positions from [a] to just before [b], one after the
    other. *)
Fixpoint rounds_cover w (a : Z) (rounds : list Z) (b : Z) : Prop :=
  match rounds with
  | [] => a = b
  | r :: rounds => ∃ index, round_at shard w r index ∧ ri_first_seq index = a ∧ a ≤ ri_last_seq index + 1 ∧
                            rounds_cover w (ri_last_seq index + 1) rounds b
  end.
Lemma rounds_cover_le w a rounds b : rounds_cover w a rounds b → a ≤ b.
Proof. revert a. induction rounds as [|r rounds IH]; intros a Rc; [cbn in Rc; lia|]. destruct Rc as (i & _ & _ & L & Rc%IH). lia. Qed.
Lemma rounds_cover_same w w' K a rounds b :
  same_but K w w' → (∀ r, ¬ K (round_key shard r)) → rounds_cover w a rounds b → rounds_cover w' a rounds b.
Proof.
  intros Sb N. revert a. induction rounds as [|r rounds IH]; intros a; [done|]. intros (i & R & F & L & Rc). exists i.
  split_and!; [by eapply round_at_same|done|done|by apply IH].
Qed.
(** The grace of a round is over. *)
Definition grace_over w (grace now r : Z) : Prop :=
  ∃ index, round_at shard w r index ∧ Z.min (ri_unix index + grace) u64_max ≤ now.
Lemma folded_not_round upto r : ¬ folded_key upto (round_key shard r).
Proof. intros (s & _ & E). revert E. apply round_not_log. eauto. Qed.
Lemma gc_rounds_run w grace now rounds a b n g (P : Z → Prop) :
  lawful w → rounds_cover w a rounds b → 0 ≤ a → n + (b - a) ≤ u64_max → (∀ s, P s → 0 ≤ s) → gone w P →
  ∃ w' dn rest mid, rounds = dn ++ rest ∧ rounds_cover w a dn mid ∧ mid ≤ b ∧
    mexec w (gc_rounds media shard grace now rounds n g) = (w', Some (Ok (n + (mid - a), default g (last dn)))) ∧
    same_but (folded_key (b - 1)) w w' ∧ gone w' (λ s, P s ∨ a ≤ s < mid) ∧
    Forall (grace_over w grace now) dn ∧ (∀ r, head rest = Some r → ¬ grace_over w grace now r).
Proof.
  revert w a n g P. induction rounds as [|r rounds IH]; intros w a n g P L Rc A Ln Pp G; cbn [gc_rounds].
  - cbn in Rc. subst b. exists w, [], [], a. replace (n + (a - a)) with n by lia. split_and!; try done.
    intros s [Hs|Hs]; [by apply G|lia].
  - destruct Rc as (i & R & Fi & Le & Rc). pose proof (rounds_cover_le _ _ _ _ Rc) as Lb.
    assert (Rm : mexec w (round_must_load RetainedIndexMissing (manifest_store media) shard r) = (w, Some (Ok i))) by by apply round_must_run.
    assert (Uniq : ∀ j, round_at shard w r j → j = i).
    { destruct R as (d & u & V & Ps & _). intros j (d' & u' & V' & Ps' & _). congruence. }
    destruct (now <? Z.min (ri_unix i + grace) u64_max) eqn:Gr; zbool.
    + exists w, [], (r :: rounds), a. replace (n + (a - a)) with n by lia. split_and!; try done; [lia| | |].
      * erewrite mexec_ok; [|apply reads_unthreaded, reads_must_load|exact Rm]. by rewrite (proj2 (Z.ltb_lt _ _) Gr).
      * intros s [Hs|Hs]; [by apply G|lia].
      * intros r' [= <-] (j & Rj & Lj). rewrite (Uniq j Rj) in Lj. lia.
    + set (seqs := seqZ (ri_first_seq i) (ri_last_seq i - ri_first_seq i + 1)).
      assert (Zs : zlen seqs = ri_last_seq i - a + 1) by (unfold seqs, zlen; rewrite length_seqZ; lia).
      destruct (delete_seqs_run w seqs n (b - 1) P L) as (w1 & R1 & S1 & G1); [|lia|done|done|].
      { apply Forall_forall. intros s Hs. unfold seqs in Hs. apply elem_of_seqZ in Hs. lia. }
      assert (Nr : ∀ q, ¬ folded_key (b - 1) (round_key shard q)) by apply folded_not_round.
      destruct (IH w1 (ri_last_seq i + 1) (n + zlen seqs) r (λ s, P s ∨ s ∈ seqs)) as (w2 & dn & rest & mid & Er & Rc2 & Lm & R2 & S2 & G2 & Go & Sp).
      * apply S1.
      * by eapply rounds_cover_same.
      * lia.
      * lia.
      * intros s [Hs|Hs]; [by apply Pp|]. unfold seqs in Hs. apply elem_of_seqZ in Hs. lia.
      * done.
      * assert (Back : ∀ q j, round_at shard w1 q j ↔ round_at shard w q j).
        { intros q j. unfold round_at. by rewrite (proj2 S1 _ STD (Nr q)). }
        exists w2, (r :: dn), rest, mid. split_and!.
        -- by rewrite Er.
        -- exists i. split_and!; [done|done|done|]. clear -Rc2 Back. revert Rc2. generalize (ri_last_seq i + 1).
           induction dn as [|q dn IHd]; intros z; [done|]. intros (j & Rj & F & Lj & Rj2). exists j. split_and!; [by apply Back|done|done|by apply IHd].
        -- done.
        -- erewrite mexec_ok; [|apply reads_unthreaded, reads_must_load|exact Rm]. rewrite (proj2 (Z.ltb_ge _ _)) by lia. fold seqs.
           erewrite mexec_ok; [| |exact R1]; [|apply unthreaded_delete_seqs]. rewrite R2.
           replace (n + zlen seqs + (mid - (ri_last_seq i + 1))) with (n + (mid - a)) by lia. do 3 f_equal. rewrite last_cons. by destruct (last dn).
        -- by eapply same_but_trans; [exact S1|exact S2|auto|auto].
        -- intros s [Hs|Hs]; apply G2; [auto|]. destruct (decide (s < ri_last_seq i + 1)); [left; right|right; lia].
           unfold seqs. apply elem_of_seqZ. lia.
        -- constructor; [exists i; split; [done|lia]|]. eapply Forall_impl; [exact Go|]. intros q (j & Rj & Lj). exists j. split; [by apply Back|done].
        -- intros q Hq (j & Rj & Lj). apply (Sp q Hq). exists j. split; [by apply Back|done].
Qed.
Lemma unthreaded_gc grace now rounds n g : unthreaded (gc_rounds media shard grace now rounds n g).
Proof.
  revert n g. induction rounds as [|r rounds IH]; intros n g; [done|]. apply unthreaded_bind; [apply reads_unthreaded, reads_must_load|].
  intros i. destruct (_ <? _); [done|]. apply unthreaded_bind; [apply unthreaded_delete_seqs|]. intros n'. apply IH.
Qed.
Lemma unthreaded_swap next v : unthreaded (swap_log (manifest_store media) shard next v).
Proof. unfold swap_log. apply unthreaded_handle; [done|]. by intros [x|[]|]. Qed.
End gc.

Lemma with_gc_round_id m : with_gc_round (lm_gc_round m) m = m.
Proof. by destruct m. Qed.

