(* ===== verification/CatchUp.v ===== *)
(** * CatchUp: reading a tenant's stream out of storage (crates/zou-log/src/tee.rs)

    The sealed rounds first, planned from their indexes, then the landing
    tail past the consolidated boundary.  A call can stop after any chunk,
    round or segment and the next one goes on from its cursor. *)
From S2P Require Import Prelude Order Text Lsn Externals Frame Segment Cas Media Chain Sealed Consolidate Tee.

Record CatchUpCursor := mkCatchUpCursor { cu_round : option Z; cu_chunk : Z; cu_chain : option ChainCursor }.
Definition cursor_default : CatchUpCursor := mkCatchUpCursor None 0 None.
Record CatchUp := mkCatchUp {
  ca_caught_up : bool; ca_end : option Lsn; ca_rounds : Z; ca_chunks : Z; ca_segments : Z; ca_frames : Z
}.
Definition catch_up_default : CatchUp := mkCatchUp false None 0 0 0 0.
Definition set_end (e : option Lsn) (o : CatchUp) : CatchUp :=
  mkCatchUp (ca_caught_up o) e (ca_rounds o) (ca_chunks o) (ca_segments o) (ca_frames o).
Definition set_caught_up (b : bool) (o : CatchUp) : CatchUp :=
  mkCatchUp b (ca_end o) (ca_rounds o) (ca_chunks o) (ca_segments o) (ca_frames o).
(** [out.rounds += 1] and the like. *)
Definition count_round {E} (o : CatchUp) : res E CatchUp :=
  n ← incr32 (ca_rounds o); mret (mkCatchUp (ca_caught_up o) (ca_end o) n (ca_chunks o) (ca_segments o) (ca_frames o)).
Definition count_chunk {E} (o : CatchUp) : res E CatchUp :=
  n ← incr32 (ca_chunks o); mret (mkCatchUp (ca_caught_up o) (ca_end o) (ca_rounds o) n (ca_segments o) (ca_frames o)).
Definition count_segment {E} (o : CatchUp) : res E CatchUp :=
  n ← incr32 (ca_segments o); mret (mkCatchUp (ca_caught_up o) (ca_end o) (ca_rounds o) (ca_chunks o) n (ca_frames o)).
Definition count_frame {E} (o : CatchUp) : res E CatchUp :=
  n ← uadd (ca_frames o) 1; mret (mkCatchUp (ca_caught_up o) (ca_end o) (ca_rounds o) (ca_chunks o) (ca_segments o) n).
(** [Option::max]: no lsn is below every lsn. *)
Definition opt_max (a b : option Lsn) : option Lsn :=
  match a, b with Some x, Some y => Some (Z.max x y) | Some x, None => Some x | None, b => b end.

Section catching_up.
Context `{Crc, Lz4, SerdeLog, SerdeRound}.

Section resuming.
(** The caller's error type, and its two closures over a state they share:
    the sink, which may fail, and the question whether to go on. *)
Context {E T : Type} (wrap : ConsolidateError → E) (sink : T → Frame2 → T * res E bool) (more : T → T * bool).
Context (media : WalMedia) (wal_shard : Z) (filter_ : TeeFilter) (applied : Lsn).
(** An error finds the caller's state and cursor as they are by then. *)
Abbreviation cuprog := (mprog (E * T * CatchUpCursor)).

(** The frames of one chunk, handed to the sink. *)
Fixpoint deliver (frames : list Frame2) (out : CatchUp) (keep : bool) (t : T) : res (E * T) (CatchUp * bool * T) :=
  match frames with
  | [] => mret (out, keep, t)
  | frame :: frames =>
      if (applied <? end_lsn frame) && filter_matches filter_ frame then
        out ← count_frame out;
        let '(t, r) := sink t frame in
        match r with
        | Ok k => deliver frames out (keep && k) t
        | Err e => Err (e, t)
        | Panic => Panic
        end
      else deliver frames out keep t
  end.
(** [!keep || !more()], which asks only while the sink wants more. *)
Definition stop_now (keep : bool) (t : T) : T * bool :=
  if keep then let '(t, m) := more t in (t, negb m) else (t, true).
(** The chunks of a round from the [i]-th on; [Some] is the chunk to resume
    at after a stop. *)
Fixpoint chunk_loop (index : RoundIndex) (cursor : CatchUpCursor) (i : Z) (chunks : list RoundChunk)
    (out : CatchUp) (keep : bool) (t : T) : cuprog (CatchUp * bool * T * option Z) :=
  match chunks with
  | [] => mret (out, keep, t, None)
  | chunk :: chunks =>
      if rc_max_lsn chunk <=? applied then chunk_loop index cursor (i + 1) chunks out keep t
      else
        out ← Done (count_chunk out);
        frames ← mmap_err (λ e, (wrap e, t, cursor)) (read_round_chunk (manifest_store media) index chunk);
        '(out, keep, t) ← Done (map_err (λ et, (et.1, et.2, cursor)) (deliver frames out keep t));
        let '(t, stop) := stop_now keep t in
        if stop then
          resume_chunk ← Done (incr32 (as_u32 i));
          mret (out, keep, t, Some resume_chunk)
        else chunk_loop index cursor (i + 1) chunks out keep t
  end.
(** The loop over the sealed rounds: where it ended, the chunk to resume at,
    and whether it was stopped. *)
Fixpoint round_loop (fuel : nat) (cursor : CatchUpCursor) (last_ at_ skip : Z) (out : CatchUp) (keep : bool) (t : T) :
    cuprog (Z * Z * CatchUp * bool * bool * T) :=
  match fuel with
  | O => MStuck
  | S fuel =>
      if at_ <=? last_ then
        index ← mmap_err (λ e, (wrap e, t, cursor))
                  (round_must_load RetainedIndexMissing (manifest_store media) wal_shard at_);
        out ← Done (count_round out);
        let tenant := filter_tenant filter_ in
        let watermark := rt_watermark <$> round_tenant index tenant in
        let out := set_end (opt_max (ca_end out) watermark) out in
        '(out, keep, t, stopped) ←
          (if from_option (λ w, applied <? w) false watermark
           then chunk_loop index cursor skip (drop (Z.to_nat skip) (round_chunks index tenant)) out keep t
           else mret (out, keep, t, None));
        match stopped with
        | Some resume_chunk => mret (at_, resume_chunk, out, keep, true, t)
        | None =>
            at_ ← madd at_ 1;
            let '(t, m) := more t in
            if negb m then mret (at_, 0, out, keep, true, t)
            else round_loop fuel cursor last_ at_ 0 out keep t
        end
      else mret (at_, 0, out, keep, false, t)
  end.

(** The frames of one segment of the tail. *)
Fixpoint deliver_tail (frames : list Frame2) (out : CatchUp) (keep : bool) (t : T) : res (E * T) (CatchUp * bool * T) :=
  match frames with
  | [] => mret (out, keep, t)
  | frame :: frames =>
      if tenant frame =? filter_tenant filter_ then
        let out := set_end (opt_max (ca_end out) (Some (end_lsn frame))) out in
        if (applied <? end_lsn frame) && filter_matches filter_ frame then
          out ← count_frame out;
          let '(t, r) := sink t frame in
          match r with
          | Ok k => deliver_tail frames out (keep && k) t
          | Err e => Err (e, t)
          | Panic => Panic
          end
        else deliver_tail frames out keep t
      else deliver_tail frames out keep t
  end.
(** What the walk along the tail does with a segment. *)
Record tail_state := mkTail { ts_out : CatchUp; ts_keep : bool; ts_stopped : bool; ts_t : T }.
Definition tail_sink (cursor : CatchUpCursor) (s : tail_state) (segment : ChainSegment) :
    res (E * T * CatchUpCursor) (tail_state * bool) :=
  out ← count_segment (ts_out s);
  '(out, keep, t) ← map_err (λ et, (et.1, et.2, cursor)) (deliver_tail (cs_frames segment) out (ts_keep s) (ts_t s));
  let '(t, stop) := stop_now keep t in
  mret (mkTail out keep (ts_stopped s || stop) t, negb stop).

(** The landing tail, from the cursor or from the boundary. *)
Definition catch_up_tail (fuel : nat) (manifest : ShardManifest) (cursor : CatchUpCursor) (out : CatchUp) (keep : bool) (t : T) :
    cuprog (CatchUp * T * CatchUpCursor) :=
  let boundary :=
    seq ← madd (lm_consolidated_upto manifest) 1; mret (mkCursor seq (lm_consolidated_digest manifest)) in
  start ← (match cu_chain cursor with
           | Some c => if lm_consolidated_upto manifest <? cc_seq c then mret c else boundary
           | None => boundary
           end);
  '(end_, s) ← walk_chain_linked (λ s e, (wrap (CoChain e), ts_t s, cursor)) (tail_sink cursor) fuel media wal_shard start
                 (mkTail out keep false t);
  mret (set_caught_up (negb (ts_stopped s)) (ts_out s), ts_t s, mkCatchUpCursor (cu_round cursor) (cu_chunk cursor) (Some end_)).

(** [catch_up_resuming]; [fuel] bounds the walk along the tail. *)
Definition catch_up_resuming (fuel : nat) (cursor : CatchUpCursor) (t : T) : cuprog (CatchUp * T * CatchUpCursor) :=
  loaded ← mmap_err (λ e, (wrap (CoChain e), t, cursor)) (log_load (manifest_store media) wal_shard);
  match loaded with
  | None => mret (set_caught_up true catch_up_default, t, cursor)
  | Some (manifest, _) =>
      match lm_rounds manifest with
      | None => catch_up_tail fuel manifest cursor catch_up_default true t
      | Some rounds =>
          let at_ := Z.max (default (rr_first rounds) (cu_round cursor)) (rr_first rounds) in
          let skip := if bool_decide (cu_round cursor = Some at_) then cu_chunk cursor else 0 in
          '(at_, resume_chunk, out, keep, stopped, t) ←
            round_loop (S (Z.to_nat (rr_last rounds - at_ + 1))) cursor (rr_last rounds) at_ skip catch_up_default true t;
          let cursor := mkCatchUpCursor (Some at_) resume_chunk (cu_chain cursor) in
          if negb keep || stopped then mret (out, t, cursor)
          else catch_up_tail fuel manifest cursor out keep t
      end
  end.
End resuming.

(** [catch_up_with]: everything, from a fresh cursor. *)
Definition catch_up_with {E T} (wrap : ConsolidateError → E) (sink : T → Frame2 → T * res E ()) (fuel : nat) (media : WalMedia)
    (wal_shard : Z) (filter_ : TeeFilter) (applied : Lsn) (t : T) : mprog (E * T) T :=
  mhandle (catch_up_resuming wrap (λ t f, let '(t, r) := sink t f in (t, _ ← r; mret true)) (λ t, (t, true))
             media wal_shard filter_ applied fuel cursor_default t) (λ r,
    match r with
    | Ok (_, t, _) => mret t
    | Err (e, t, _) => Done (Err (e, t))
    | Panic => Done Panic
    end).
(** [catch_up] *)
Definition catch_up (fuel : nat) (media : WalMedia) (wal_shard : Z) (filter_ : TeeFilter) (applied : Lsn) :
    mprog ConsolidateError (list Frame2) :=
  mmap_err fst (catch_up_with id (λ out f, (out ++ [f], Ok ())) fuel media wal_shard filter_ applied []).

(** ** The durable end *)
Definition end_sink (tenant_ : Z) (end_ : option Lsn) (segment : ChainSegment) : res ConsolidateError (option Lsn * bool) :=
  mret (foldl (λ e f, if (tenant f =? tenant_) && from_option (λ x, x <? end_lsn f) true e then Some (end_lsn f) else e)
          end_ (cs_frames segment), true).
(** The last matching entry of the index wins. *)
Definition index_end (tenant_ : Z) (index : RoundIndex) : option Lsn :=
  foldl (λ e t, if rt_tenant t =? tenant_ then Some (rt_watermark t) else e) None (ri_tenants index).
(** [stream_end] *)
Definition stream_end (fuel : nat) (media : WalMedia) (wal_shard tenant_ : Z) : mprog ConsolidateError (option Lsn) :=
  loaded ← mmap_err CoChain (log_load (manifest_store media) wal_shard);
  match loaded with
  | None => mret None
  | Some (manifest, _) =>
      end_ ← (match lm_rounds manifest with
              | None => mret None
              | Some rounds =>
                  index ← round_must_load RetainedIndexMissing (manifest_store media) wal_shard (rr_last rounds);
                  mret (index_end tenant_ index)
              end);
      seq ← madd (lm_consolidated_upto manifest) 1;
      '(_, end_) ← walk_chain_linked (λ _, CoChain) (end_sink tenant_) fuel media wal_shard
                     (mkCursor seq (lm_consolidated_digest manifest)) end_;
      mret end_
  end.
End catching_up.
