(* ===== verification/CatchUpProofs.v ===== *)
(** * CatchUpProofs: nothing missed, nothing twice

    On a log at rest, a catch up read to the end delivers exactly the
    tenant's durable frames above what was applied; stopped anywhere any
    number of times and resumed from its cursor, it delivers the same.

    The two guarantees a reader of the log has, and that the rounds
    consolidation writes are rounds it can read. *)
From S2P Require Import Prelude Order Text Lsn Externals Frame Bloom Cas Segment Media MediaProofs Chain ChainHead ChainProofs Tee Sealed SealedBuild Consolidate ConsolidateRound ConsolidateRun CatchUp.

(** What the caller's closures may do: the sink keeps every frame it is
    handed and does not fail; either may ask for a stop at any time. *)
Record keeps {T E} (got : T → list Frame2) (sink : T → Frame2 → T * res E bool) (more : T → T * bool) : Prop := {
  ks_sink t f : ∃ t' k, sink t f = (t', Ok k) ∧ got t' = got t ++ [f];
  ks_more t : got (more t).1 = got t
}.
(** Closures that never ask for a stop. *)
Record eager {T E} (sink : T → Frame2 → T * res E bool) (more : T → T * bool) : Prop := {
  eg_sink t f t' k : sink t f = (t', Ok k) → k = true;
  eg_more t : (more t).2 = true
}.

(** One round as the log holds it: its index, its watermarks, its frames,
    and the groups of the tenant's frames in its chunks. *)
Record sealed_round := mkSealedRound {
  sr_index : RoundIndex; sr_marks : list (Z * Z); sr_kept : list Frame2; sr_groups : list (list Frame2)
}.

Section reading.
Context {S : Type} `{CasOk S} `{CrcOk, Lz4Ok, SerdeLogOk, SerdeRoundOk} (media : WalMedia) (shard : Z).
Context (filter_ : TeeFilter) (applied : Lsn).
Implicit Types w : mworld S.
Abbreviation tn := (filter_tenant filter_).

(** What the caller does not have yet. *)
Definition wanted (f : Frame2) : bool := (applied <? end_lsn f) && filter_matches filter_ f.
Definition wanted_of (l : list Frame2) : list Frame2 := filter (λ f, wanted f = true) l.
Lemma wanted_app a b : wanted_of (a ++ b) = wanted_of a ++ wanted_of b.
Proof. apply filter_app. Qed.
Lemma wanted_none l : (∀ f, f ∈ l → end_lsn f ≤ applied) → wanted_of l = [].
Proof.
  induction l as [|f l IH]; intros N; [done|]. unfold wanted_of in *. rewrite filter_cons_False.
  - apply IH. intros g Hg. apply N. by right.
  - unfold wanted. rewrite (proj2 (Z.ltb_ge _ _)); [done|]. apply N. left.
Qed.
Lemma matches_tenant f : filter_matches filter_ f = true → tenant f = tn.
Proof. destruct filter_; cbn; intros M; [by zbool|]. apply andb_true_iff in M as [M _]. by zbool. Qed.
Lemma wanted_tenant l : wanted_of (tenants_frames tn l) = wanted_of l.
Proof.
  unfold wanted_of, tenants_frames. rewrite list_filter_filter. apply list_filter_iff. intros f. split; [tauto|].
  intros Wf. split; [done|]. unfold wanted in Wf. apply andb_true_iff in Wf as [_ M]. by apply matches_tenant.
Qed.

(** ** Delivering *)
Context {T : Type} (got : T → list Frame2) (sink : T → Frame2 → T * res ConsolidateError bool) (more : T → T * bool).
Context (Ks : keeps got sink more).

(** The counters after some more was counted. *)
Definition counted (o o' : CatchUp) (r c s f : Z) : Prop :=
  ca_rounds o' = ca_rounds o + r ∧ ca_chunks o' = ca_chunks o + c ∧ ca_segments o' = ca_segments o + s ∧
  ca_frames o' = ca_frames o + f ∧ ca_caught_up o' = ca_caught_up o.
Ltac counting :=
  unfold counted in *; cbn [ca_rounds ca_chunks ca_segments ca_frames ca_caught_up set_end] in *;
  try change (zlen (wanted_of [])) with 0 in *; try change (zlen (@nil Frame2)) with 0 in *; destruct_and?; split_and!; first [lia | congruence | idtac].
Lemma count_frame_run {E} o : ca_frames o < u64_max → ∃ o', count_frame (E := E) o = Ok o' ∧ counted o o' 0 0 0 1.
Proof.
  intros L. unfold count_frame, uadd. change (2 ^ 64 - 1) with u64_max. rewrite (proj2 (Z.leb_le _ _)) by lia.
  eexists. split; [done|]. counting.
Qed.
Lemma counted_trans o1 o2 o3 r r' c c' s s' f f' :
  counted o1 o2 r c s f → counted o2 o3 r' c' s' f' → counted o1 o3 (r + r') (c + c') (s + s') (f + f').
Proof. intros A B. counting. Qed.
Lemma deliver_run frames out kp t :
  ca_frames out + zlen (wanted_of frames) ≤ u64_max →
  ∃ out' kp' t', deliver sink filter_ applied frames out kp t = Ok (out', kp', t') ∧ got t' = got t ++ wanted_of frames ∧
    counted out out' 0 0 0 (zlen (wanted_of frames)) ∧ (eager sink more → kp' = kp).
Proof.
  revert out kp t. induction frames as [|f frames IH]; intros out kp t L; cbn [deliver].
  - exists out, kp, t. rewrite app_nil_r. split_and!; [done|done|by counting|done].
  - change ((applied <? end_lsn f) && filter_matches filter_ f) with (wanted f). unfold wanted_of in *. rewrite filter_cons in *.
    destruct (wanted f) eqn:Wf; [rewrite decide_True in * by done|rewrite decide_False in * by done; by apply IH].
    rewrite zlen_cons in *. pose proof (zlen_nonneg (filter (λ g, wanted g = true) frames)).
    destruct (count_frame_run (E := ConsolidateError * T) out) as (o1 & -> & C1); [lia|]. rewrite bind_run.
    destruct (ks_sink _ _ _ Ks t f) as (t1 & k1 & Sk & G1). rewrite Sk.
    destruct (IH o1 (kp && k1) t1) as (out' & kp' & t' & R & G & C & Eg); [unfold counted in *; lia|].
    exists out', kp', t'. rewrite R, G, G1, <-app_assoc. split_and!; [done|done|exact (counted_trans _ _ _ _ _ _ _ _ _ _ _ C1 C)|].
    intros Ea. rewrite (Eg Ea), (eg_sink _ _ Ea _ _ _ _ Sk). apply andb_true_r.
Qed.
Lemma counted_end o o' e r c s f : counted (set_end e o) o' r c s f → counted o o' r c s f.
Proof. by intros C. Qed.
Lemma deliver_tail_run frames out kp t :
  ca_frames out + zlen (wanted_of frames) ≤ u64_max →
  ∃ out' kp' t', deliver_tail sink filter_ applied frames out kp t = Ok (out', kp', t') ∧ got t' = got t ++ wanted_of frames ∧
    counted out out' 0 0 0 (zlen (wanted_of frames)) ∧ (eager sink more → kp' = kp).
Proof.
  revert out kp t. induction frames as [|f frames IH]; intros out kp t L; cbn [deliver_tail].
  - exists out, kp, t. rewrite app_nil_r. split_and!; [done|done|by counting|done].
  - change ((applied <? end_lsn f) && filter_matches filter_ f) with (wanted f). unfold wanted_of in *. rewrite filter_cons in *.
    destruct (tenant f =? tn) eqn:Tf; zbool.
    + set (o0 := set_end _ out). destruct (wanted f) eqn:Wf; [rewrite decide_True in * by done|rewrite decide_False in * by done].
      * rewrite zlen_cons in *. pose proof (zlen_nonneg (filter (λ g, wanted g = true) frames)).
        destruct (count_frame_run (E := ConsolidateError * T) o0) as (o1 & -> & C1); [cbn; lia|]. rewrite bind_run.
        apply counted_end in C1. destruct (ks_sink _ _ _ Ks t f) as (t1 & k1 & Sk & G1). rewrite Sk.
        destruct (IH o1 (kp && k1) t1) as (out' & kp' & t' & R & G & C & Eg); [unfold counted in *; lia|].
        exists out', kp', t'. rewrite R, G, G1, <-app_assoc. split_and!; [done|done|exact (counted_trans _ _ _ _ _ _ _ _ _ _ _ C1 C)|].
        intros Ea. rewrite (Eg Ea), (eg_sink _ _ Ea _ _ _ _ Sk). apply andb_true_r.
      * destruct (IH o0 kp t L) as (out' & kp' & t' & R & G & C & Eg). by exists out', kp', t'.
    + assert (Nw : wanted f ≠ true) by (unfold wanted; intros [_ M%matches_tenant]%andb_true_iff; done).
      rewrite decide_False in * by done. by apply IH.
Qed.
Lemma stop_now_run kp t :
  ∃ t' stop, stop_now more kp t = (t', stop) ∧ got t' = got t ∧ (stop = false → kp = true) ∧ (eager sink more → stop = negb kp).
Proof.
  unfold stop_now. destruct kp; [|by exists t, true]. destruct (more t) as [t' b] eqn:M. exists t', (negb b).
  split_and!; [done| |done|].
  - change t' with ((t', b).1). rewrite <-M. apply (ks_more _ _ _ Ks).
  - intros Ea. pose proof (eg_more _ _ Ea t) as Eb. rewrite M in Eb. cbn in Eb. by rewrite Eb.
Qed.
Lemma incr32_ok {E} n : n < u32_max → incr32 (E := E) n = Ok (n + 1).
Proof. intros L. unfold incr32. by rewrite (proj2 (Z.leb_le _ _)) by lia. Qed.
Lemma count_chunk_run {E} o : ca_chunks o < u32_max → ∃ o', count_chunk (E := E) o = Ok o' ∧ counted o o' 0 1 0 0.
Proof. intros L. unfold count_chunk. rewrite incr32_ok by done. eexists. split; [done|]. counting. Qed.
Lemma count_round_run {E} o : ca_rounds o < u32_max → ∃ o', count_round (E := E) o = Ok o' ∧ counted o o' 1 0 0 0.
Proof. intros L. unfold count_round. rewrite incr32_ok by done. eexists. split; [done|]. counting. Qed.
Lemma count_segment_run {E} o : ca_segments o < u32_max → ∃ o', count_segment (E := E) o = Ok o' ∧ counted o o' 0 0 1 0.
Proof. intros L. unfold count_segment. rewrite incr32_ok by done. eexists. split; [done|]. counting. Qed.

(** The chunks of one round. *)
Lemma chunk_loop_run w index data v cursor cs gs i out t :
  lawful w → view w (ri_sealed index) STD = Some (data, v) → Forall2 (chunk_gives data) cs gs →
  0 ≤ i → i + zlen cs ≤ u32_max → ca_chunks out + zlen cs ≤ u32_max →
  ca_frames out + zlen (wanted_of (concat gs)) ≤ u64_max →
  ∃ out' kp' t' d stop n,
    mexec w (chunk_loop id sink more media filter_ applied index cursor i cs out true t) =
      (w, Some (Ok (out', kp', t', stop))) ∧ got t' = got t ++ d ∧
    counted out out' 0 n 0 (zlen d) ∧ 0 ≤ n ≤ zlen cs ∧ (eager sink more → stop = None) ∧
    match stop with
    | None => d = wanted_of (concat gs) ∧ kp' = true
    | Some j => i < j ≤ i + zlen cs ∧ wanted_of (concat gs) = d ++ wanted_of (concat (drop (Z.to_nat (j - i)) gs))
    end.
Proof.
  intros L V F. revert i out t. induction F as [|c g cs gs Hc F IH]; intros i out t I0 Li Lc Lf; cbn [chunk_loop].
  - exists out, true, t, [], None, 0. rewrite app_nil_r. split_and!; [done|done|by counting|done..].
  - rewrite zlen_cons in *. pose proof (zlen_nonneg cs). cbn [concat] in *. rewrite wanted_app in *. rewrite zlen_app in Lf.
    pose proof (zlen_nonneg (wanted_of g)). pose proof (zlen_nonneg (wanted_of (concat gs))).
    destruct (rc_max_lsn c <=? applied) eqn:Sk; zbool.
    + assert (Wg : wanted_of g = []) by (apply wanted_none; intros f Hf; destruct Hc as (_ & _ & _ & _ & _ & Ab); specialize (Ab f Hf); lia).
      rewrite Wg in *. destruct (IH (i + 1) out t) as (out' & kp' & t' & d & stop & n & R & G & C & Ln & Eg & St); [lia|lia|lia|cbn in *; lia|].
      exists out', kp', t', d, stop, n. split_and!; [done|done|done|lia|lia|done|]. destruct stop as [j|]; [|done]. destruct St as [Lj E].
      split; [lia|]. cbn [app]. rewrite E. replace (Z.to_nat (j - i)) with (Datatypes.S (Z.to_nat (j - (i + 1)))) by lia. done.
    + destruct (count_chunk_run (E := ConsolidateError * T * CatchUpCursor) out) as (o1 & C1 & N1); [lia|].
      rewrite C1, mexec_done_ok.
      erewrite mexec_ok; [|apply reads_unthreaded, reads_map_err, reads_chunk|
        rewrite mexec_map_err by (apply reads_unthreaded, reads_chunk); by erewrite read_chunk_run]. cbn [map_err].
      destruct (deliver_run g o1 true t) as (o2 & kp2 & t2 & D2 & G2 & N2 & E2); [unfold counted in *; lia|]. rewrite D2. cbn [map_err]. rewrite mexec_done_ok. cbv beta iota.
      destruct (stop_now_run kp2 t2) as (t3 & stop & Sn & G3 & Kp & E3). rewrite Sn. cbv beta iota.
      pose proof (counted_trans _ _ _ _ _ _ _ _ _ _ _ N1 N2) as N12. destruct stop.
      * rewrite as_u32_small by (unfold fits, u32_max in *; lia). rewrite incr32_ok, mexec_done_ok by lia.
        exists o2, kp2, t3, (wanted_of g), (Some (i + 1)), 1. split_and!; [done|by rewrite G3|exact N12|lia|lia| |lia|lia|].
        -- intros Ea. rewrite (E2 Ea) in E3. by specialize (E3 Ea).
        -- replace (Z.to_nat (i + 1 - i)) with 1%nat by lia. done.
      * specialize (Kp eq_refl) as ->.
        destruct (IH (i + 1) o2 t3) as (out' & kp' & t' & d & stop & n & R & G & C & Ln & Eg & St); [lia|lia|unfold counted in *; lia|unfold counted in *; lia|].
        exists out', kp', t', (wanted_of g ++ d), stop, (1 + n). split_and!; [by rewrite R|by rewrite G, G3, G2, <-app_assoc| |lia|lia|done|].
        -- rewrite zlen_app. exact (counted_trans _ _ _ _ _ _ _ _ _ _ _ N12 C).
        -- destruct stop as [j|]; [|by destruct St as [-> ->]]. destruct St as [Lj E]. split; [lia|].
           rewrite <-app_assoc, E. by replace (Z.to_nat (j - i)) with (Datatypes.S (Z.to_nat (j - (i + 1)))) by lia.
Qed.

(** ** The rounds *)
(** Round [q] of the log, and what it holds of the tenant. *)
Record round_ok w (q : Z) (x : sealed_round) : Prop := {
  ro_at : round_at shard w q (sr_index x);
  ro_mark : rt_watermark <$> round_tenant (sr_index x) tn = bt_get tn (sr_marks x);
  ro_sealed : ∃ data v, view w (ri_sealed (sr_index x)) STD = Some (data, v) ∧
    Forall2 (chunk_gives data) (round_chunks (sr_index x) tn) (sr_groups x);
  ro_groups : concat (sr_groups x) = tenants_frames tn (sr_kept x);
  ro_below : ∀ f, f ∈ concat (sr_groups x) → ∃ mk, bt_get tn (sr_marks x) = Some mk ∧ end_lsn f ≤ mk
}.
(** What is still to come from the [s]-th chunk of a round on, and from the
    rounds [xs] on. *)
Definition rest_of (x : sealed_round) (s : nat) : list Frame2 := wanted_of (concat (drop s (sr_groups x))).
Definition rounds_left (xs : list sealed_round) (s : nat) : list Frame2 :=
  match xs with [] => [] | x :: xs => rest_of x s ++ concat ((λ x, rest_of x 0) <$> xs) end.
Lemma rounds_left_0 xs : rounds_left xs 0 = concat ((λ x, rest_of x 0) <$> xs).
Proof. by destruct xs. Qed.
Definition chunks_of (xs : list sealed_round) : Z := foldr (λ x n, zlen (sr_groups x) + n) 0 xs.
Lemma chunks_of_nonneg xs : 0 ≤ chunks_of xs.
Proof. induction xs as [|x xs IH]; cbn; [done|]. pose proof (zlen_nonneg (sr_groups x)). unfold chunks_of in IH. lia. Qed.
Lemma rest_below w q x s mk :
  round_ok w q x → mk ≤ applied → (∀ k, bt_get tn (sr_marks x) = Some k → k ≤ mk) → rest_of x s = [].
Proof.
  intros Ro Lm Hm. apply wanted_none. intros f (g & Hf & Hg)%elem_of_concat. destruct (ro_below _ _ _ Ro f) as (k & Gk & Lk).
  { apply elem_of_concat. exists g. split; [done|]. eapply elem_of_sublist; [exact Hg|]. apply sublist_drop. }
  specialize (Hm k Gk). lia.
Qed.
(** One round of the loop, up to the question whether to go on. *)
Lemma reads_chunks index cursor i cs out kp t :
  reads_only (chunk_loop (T := T) id sink more media filter_ applied index cursor i cs out kp t).
Proof.
  revert i out kp t. induction cs as [|c cs IH]; intros i out kp t; cbn [chunk_loop]; [done|]. destruct (_ <=? _); [apply IH|].
  apply reads_bind; [done|]. intros o. apply reads_bind; [reading|]. intros fs. apply reads_bind; [done|]. intros [[o2 k2] t2].
  destruct (stop_now more k2 t2) as [t3 stop]. destruct stop; [apply reads_bind; [done|]; done|apply IH].
Qed.
Lemma round_body_run w q x cursor s out t :
  lawful w → round_ok w q x → (s ≤ length (sr_groups x))%nat → zlen (sr_groups x) ≤ u32_max →
  ca_chunks out + zlen (sr_groups x) ≤ u32_max → ca_frames out + zlen (rest_of x s) ≤ u64_max →
  let watermark := rt_watermark <$> round_tenant (sr_index x) tn in
  ∃ out' kp' t' d stop n,
    mexec w (if from_option (λ mk, applied <? mk) false watermark
             then chunk_loop id sink more media filter_ applied (sr_index x) cursor (Z.of_nat s)
                    (drop (Z.to_nat (Z.of_nat s)) (round_chunks (sr_index x) tn)) out true t
             else mret (out, true, t, None)) = (w, Some (Ok (out', kp', t', stop))) ∧ got t' = got t ++ d ∧
    counted out out' 0 n 0 (zlen d) ∧ 0 ≤ n ≤ zlen (sr_groups x) ∧ (eager sink more → stop = None) ∧
    match stop with
    | None => d = rest_of x s ∧ kp' = true
    | Some j => ∃ j', j = Z.of_nat j' ∧ (s < j' ≤ length (sr_groups x))%nat ∧ rest_of x s = d ++ rest_of x j'
    end.
Proof.
  intros L Ro Ls Lx Lc Lf. cbv zeta. rewrite (ro_mark _ _ _ Ro). rewrite Nat2Z.id. destruct (ro_sealed _ _ _ Ro) as (data & v & V & F).
  destruct (from_option _ false (bt_get tn (sr_marks x))) eqn:Mk.
  - pose proof (Forall2_drop _ _ _ s F) as Fd. pose proof (Forall2_length _ _ _ F) as Ln.
    assert (Zd : zlen (drop s (round_chunks (sr_index x) tn)) = zlen (sr_groups x) - Z.of_nat s).
    { unfold zlen. rewrite length_drop. lia. }
    destruct (chunk_loop_run w (sr_index x) data v cursor _ _ (Z.of_nat s) out t L V Fd) as (o & kp & t' & d & stop & n & R & G & C & N & Eg & St);
      [lia|lia|lia|done|]. exists o, kp, t', d, stop, n. rewrite Zd in *. split_and!; [exact R|done|done|lia|lia|done|]. destruct stop as [j|]; [|done].
    destruct St as [Lj E]. exists (Z.to_nat j). split_and!; [lia|lia|unfold zlen in *; lia|]. unfold rest_of. rewrite E, drop_drop.
    f_equal. f_equal. f_equal. f_equal. lia.
  - exists out, true, t, [], None, 0. rewrite app_nil_r. split_and!; [done|done|by counting|lia|by apply zlen_nonneg|done|symmetry|done].
    eapply (rest_below w q x s applied); [done|lia|]. intros k Gk. rewrite Gk in Mk. cbn in Mk. zbool. lia.
Qed.
(** The rounds [xs] of the log, from number [q] on. *)
Fixpoint rounds_from w (q : Z) (xs : list sealed_round) : Prop :=
  match xs with [] => True | x :: xs => round_ok w q x ∧ rounds_from w (q + 1) xs end.
(** A chunk to resume at in the first of the rounds left. *)
Definition skip_ok (xs : list sealed_round) (s : nat) : Prop :=
  match xs with [] => s = 0%nat | x :: _ => (s ≤ length (sr_groups x))%nat end.
(** The stops a caller can make in the rounds left. *)
Definition units_of (xs : list sealed_round) : nat := foldr (λ x n, (1 + length (sr_groups x) + n)%nat) 0%nat xs.
Lemma units_cons x xs : units_of (x :: xs) = (1 + length (sr_groups x) + units_of xs)%nat.
Proof. done. Qed.
Lemma skip_units xs s : skip_ok xs s → (s ≤ units_of xs)%nat.
Proof. destruct xs as [|x xs]; cbn; lia. Qed.
Lemma rounds_drop w q xs k : rounds_from w q xs → rounds_from w (q + Z.of_nat k) (drop k xs).
Proof.
  revert q xs. induction k as [|k IH]; intros q xs R; [by rewrite Z.add_0_r|]. destruct xs as [|x xs]; [done|].
  destruct R as [_ R]. cbn [drop]. replace (q + Z.of_nat (Datatypes.S k)) with (q + 1 + Z.of_nat k) by lia. by apply IH.
Qed.
Lemma round_loop_run w xs cursor last_ fuel at_ s out t :
  lawful w → rounds_from w at_ xs → skip_ok xs s → at_ + zlen xs = last_ + 1 → last_ + 1 ≤ u64_max → (length xs < fuel)%nat →
  ca_rounds out + zlen xs ≤ u32_max → ca_chunks out + chunks_of xs ≤ u32_max → 0 ≤ ca_chunks out →
  ca_frames out + zlen (rounds_left xs s) ≤ u64_max →
  ∃ k s' out' kp t' d stopped nr nc,
    mexec w (round_loop id sink more media shard filter_ applied fuel cursor last_ at_ (Z.of_nat s) out true t) =
      (w, Some (Ok (at_ + Z.of_nat k, Z.of_nat s', out', kp, stopped, t'))) ∧ got t' = got t ++ d ∧
    rounds_left xs s = d ++ rounds_left (drop k xs) s' ∧ (k ≤ length xs)%nat ∧ skip_ok (drop k xs) s' ∧
    counted out out' nr nc 0 (zlen d) ∧ (eager sink more → stopped = false) ∧
    if (stopped : bool) then (units_of (drop k xs) - s' < units_of xs - s)%nat
    else k = length xs ∧ s' = 0%nat ∧ kp = true.
Proof.
  intros L. revert at_ s fuel out t. induction xs as [|x xs IH]; intros at_ s fuel out t Rf So Ea Lu Lf Lr Lc C0 Lg;
    (destruct fuel as [|fuel]; [cbn in Lf; lia|]); cbn [round_loop].
  - change (zlen (@nil sealed_round)) with 0 in *. rewrite (proj2 (Z.leb_gt _ _)) by lia. cbn in So. subst s.
    exists 0%nat, 0%nat, out, true, t, [], false, 0, 0. rewrite app_nil_r, Z.add_0_r.
    split_and!; [done|done|done|done|done|by counting|done|done|done|done].
  - rewrite zlen_cons in *. pose proof (zlen_nonneg xs). destruct Rf as [Ro Rf]. rewrite (proj2 (Z.leb_le _ _)) by lia.
    erewrite mexec_ok; [|apply reads_unthreaded, reads_map_err, reads_must_load|
      rewrite mexec_map_err by (apply reads_unthreaded, reads_must_load); erewrite round_must_run; [done|done|apply Ro]]. cbn [map_err].
    destruct (count_round_run (E := ConsolidateError * T * CatchUpCursor) out) as (o1 & C1 & N1); [lia|]. rewrite C1, mexec_done_ok. cbv zeta.
    set (o2 := set_end _ o1). assert (N2 : counted out o2 1 0 0 0) by exact N1. clearbody o2. cbn [rounds_left] in Lg |- *.
    rewrite zlen_app in Lg. set (more_ := concat _) in Lg |- *. pose proof (zlen_nonneg more_). pose proof (zlen_nonneg (rest_of x s)).
    pose proof (chunks_of_nonneg xs). cbn [chunks_of foldr] in Lc. fold (chunks_of xs) in Lc. pose proof (zlen_nonneg (sr_groups x)).
    assert (Fr2 : ca_frames o2 = ca_frames out ∧ ca_chunks o2 = ca_chunks out ∧ ca_rounds o2 = ca_rounds out + 1) by (unfold counted in N2; lia).
    destruct (round_body_run w at_ x cursor s o2 t) as (o3 & kp3 & t3 & d & stop & n & R & G & N3 & Ln & Eg & St); [done..|lia|lia|lia|].
    erewrite mexec_ok; [| |exact R]; [|match goal with |- unthreaded (if ?b then _ else _) => destruct b end; [apply reads_unthreaded, reads_chunks|done]]. cbv beta iota.
    pose proof (counted_trans _ _ _ _ _ _ _ _ _ _ _ N2 N3) as N23. destruct stop as [j|].
    + destruct St as (j' & -> & Lj & E). exists 0%nat, j', o3, kp3, t3, d, true, (1 + 0), (0 + n). rewrite Z.add_0_r. cbn [drop rounds_left].
      split_and!; [done|done|by rewrite E, <-app_assoc|lia|cbn; lia|done| |rewrite ?units_cons; cbn in So; lia]. intros Ea'. by specialize (Eg Ea').
    + destruct St as [-> ->]. rewrite madd_run by lia. destruct (more t3) as [t4 b] eqn:Mo.
      assert (G4 : got t4 = got t3) by (change t4 with ((t4, b).1); rewrite <-Mo; apply (ks_more _ _ _ Ks)). destruct b; cbn [negb].
      * destruct (IH (at_ + 1) 0%nat fuel o3 t4) as (k & s' & o5 & kp & t5 & d5 & stopped & nr & nc & R5 & G5 & E5 & Lk & So5 & N5 & Eg5 & St5).
        -- done.
        -- destruct xs; cbn; lia.
        -- lia.
        -- lia.
        -- cbn in Lf. lia.
        -- unfold counted in *. lia.
        -- unfold counted in *. lia.
        -- unfold counted in *. lia.
        -- rewrite rounds_left_0. fold more_. unfold counted in *. lia.
        -- exists (Datatypes.S k), s', o5, kp, t5, (rest_of x s ++ d5), stopped, (1 + 0 + nr), (0 + n + nc). cbn [drop].
           change (Z.of_nat 0) with 0 in R5.
           split_and!; [|by rewrite G5, G4, G, <-app_assoc| |cbn; lia|done| |done|].
           ++ rewrite R5. by replace (at_ + 1 + Z.of_nat k) with (at_ + Z.of_nat (Datatypes.S k)) by lia.
           ++ rewrite <-app_assoc. rewrite rounds_left_0 in E5. fold more_ in E5. by rewrite E5.
           ++ rewrite zlen_app. exact (counted_trans _ _ _ _ _ _ _ _ _ _ _ N23 N5).
           ++ destruct stopped; [rewrite units_cons; cbn in So; lia|cbn; by destruct St5 as (-> & -> & ->)].
      * exists 1%nat, 0%nat, o3, true, t4, (rest_of x s), true, (1 + 0), (0 + n).
        rewrite units_cons. change (drop 1 (x :: xs)) with xs. cbn in So.
        split_and!; [done|by rewrite G4|by rewrite rounds_left_0|cbn; lia|destruct xs; cbn; lia|done| |lia].
        intros Ea'. pose proof (eg_more _ _ Ea' t3) as Eb. by rewrite Mo in Eb.
Qed.
Lemma reads_rounds fuel cursor last_ at_ skip out kp t :
  reads_only (round_loop (T := T) id sink more media shard filter_ applied fuel cursor last_ at_ skip out kp t).
Proof.
  revert at_ skip out kp t. induction fuel as [|fuel IH]; intros at_ skip out kp t; cbn [round_loop]; [done|].
  destruct (_ <=? _); [|done]. apply reads_bind; [reading|]. intros index. apply reads_bind; [done|]. intros o. cbv zeta.
  apply reads_bind.
  - match goal with |- reads_only (if ?b then _ else _) => destruct b end; [apply reads_chunks|done].
  - intros [[[o2 k2] t2] [j|]]; [done|]. apply reads_bind; [done|]. intros q. destruct (more t2) as [t3 b]. destruct b; [apply IH|done].
Qed.
(** ** The tail *)
Lemma frames_cons sg segs : frames_of (sg :: segs) = cs_frames sg ++ frames_of segs.
Proof. done. Qed.
Lemma tail_sink_run cursor out t sg :
  ca_segments out < u32_max → ca_frames out + zlen (wanted_of (cs_frames sg)) ≤ u64_max →
  ∃ out' kp t' stop, tail_sink sink more filter_ applied cursor (mkTail out true false t) sg = Ok (mkTail out' kp stop t', negb stop) ∧
    got t' = got t ++ wanted_of (cs_frames sg) ∧ counted out out' 0 0 1 (zlen (wanted_of (cs_frames sg))) ∧
    (stop = false → kp = true) ∧ (eager sink more → stop = false).
Proof.
  intros Ls Lf. unfold tail_sink. cbn [ts_out ts_keep ts_stopped ts_t].
  destruct (count_segment_run (E := ConsolidateError * T * CatchUpCursor) out Ls) as (o1 & -> & N1). rewrite bind_run.
  destruct (deliver_tail_run (cs_frames sg) o1 true t) as (o2 & kp & t2 & D & G & N2 & Eg); [unfold counted in *; lia|].
  rewrite D. cbn [map_err]. rewrite bind_run. destruct (stop_now_run kp t2) as (t3 & stop & -> & G3 & Kp & E3).
  exists o2, kp, t3, stop. split_and!; [done|by rewrite G3|exact (counted_trans _ _ _ _ _ _ _ _ _ _ _ N1 N2)|done|].
  intros Ea. rewrite (E3 Ea), (Eg Ea). done.
Qed.
Lemma tail_run w (wrap : tail_state → ChainError → ConsolidateError * T * CatchUpCursor) cursor segs m fuel seq prev out t :
  lawful w → loads w media shard m → linked w media shard seq prev segs →
  chain_end w media shard (seq + zlen segs) (end_digest prev segs) (head_of m) None →
  seq + zlen segs ≤ u64_max → (length segs < fuel)%nat →
  ca_segments out + zlen segs ≤ u32_max → ca_frames out + zlen (wanted_of (frames_of segs)) ≤ u64_max →
  ∃ j out' kp t' d stop ns,
    mexec w (walk_chain_linked wrap (tail_sink sink more filter_ applied cursor) fuel media shard (mkCursor seq prev) (mkTail out true false t)) =
      (w, Some (Ok (mkCursor (seq + Z.of_nat j) (end_digest prev (take j segs)), mkTail out' kp stop t'))) ∧ got t' = got t ++ d ∧
    (j ≤ length segs)%nat ∧ wanted_of (frames_of segs) = d ++ wanted_of (frames_of (drop j segs)) ∧
    counted out out' 0 0 ns (zlen d) ∧ (eager sink more → stop = false) ∧ (if (stop : bool) then (0 < j)%nat else j = length segs).
Proof.
  intros L Lo. revert fuel seq prev out t. induction segs as [|sg segs IH]; intros fuel seq prev out t Li En B Lf Ls Lg;
    (destruct fuel as [|fuel]; [cbn in Lf; lia|]).
  - change (zlen (@nil ChainSegment)) with 0 in *. rewrite Z.add_0_r in *. exists 0%nat, out, true, t, [], false, 0.
    rewrite app_nil_r, Z.add_0_r. split_and!; [|done|done|done|by counting|done|done].
    by rewrite (walk_end wrap w media shard (mkCursor seq prev) _ _ _ m None L Lo En).
  - rewrite zlen_cons in *. pose proof (zlen_nonneg segs). destruct Li as (Hs & Hp & St & Li). rewrite frames_cons, wanted_app, zlen_app in Lg.
    pose proof (zlen_nonneg (wanted_of (cs_frames sg))). pose proof (zlen_nonneg (wanted_of (frames_of segs))).
    destruct (tail_sink_run cursor out t sg) as (o1 & kp1 & t1 & stop1 & Sk & G1 & N1 & Kp1 & Eg1); [lia|lia|].
    erewrite walk_step; [|done|done|done|done|cbn; lia|exact Sk]. cbn [cc_seq]. rewrite frames_cons, wanted_app. destruct stop1; cbn [negb].
    + exists 1%nat, o1, kp1, t1, (wanted_of (cs_frames sg)), true, 1.
      split_and!; [by replace (seq + Z.of_nat 1) with (seq + 1) by lia|done|cbn; lia|done|done|done|lia].
    + specialize (Kp1 eq_refl) as ->.
      destruct (IH fuel (seq + 1) (digest_of sg) o1 t1) as (j & o2 & kp & t2 & d & stop & ns & R & G & Lj & E & N & Eg & Sp).
      * done.
      * rewrite (end_digest_cons prev). by replace (seq + 1 + zlen segs) with (seq + (1 + zlen segs)) by lia.
      * lia.
      * cbn in Lf. lia.
      * unfold counted in *. lia.
      * unfold counted in *. lia.
      * exists (Datatypes.S j), o2, kp, t2, (wanted_of (cs_frames sg) ++ d), stop, (1 + ns). cbn [take drop length].
        split_and!; [|by rewrite G, G1, <-app_assoc|lia|by rewrite E, <-app_assoc| |done|destruct stop; lia].
        -- rewrite R, (end_digest_cons prev). by replace (seq + 1 + Z.of_nat j) with (seq + Z.of_nat (Datatypes.S j)) by lia.
        -- rewrite zlen_app. exact (counted_trans _ _ _ _ _ _ _ _ _ _ _ N1 N).
Qed.
(** ** One call *)
(** A log at rest: its rounds, and the segments past the boundary. *)
Record log_at w (m : ShardManifest) (v : Version) (xs : list sealed_round) (segs : list ChainSegment) : Prop := {
  lg_lawful : lawful w;
  lg_loads : loads w media shard (Some (m, v));
  lg_rounds : match lm_rounds m with
              | None => xs = []
              | Some r => rr_first r + zlen xs = rr_last r + 1 ∧ rr_last r + 1 ≤ u64_max ∧ rounds_from w (rr_first r) xs
              end;
  lg_linked : linked w media shard (lm_consolidated_upto m + 1) (lm_consolidated_digest m) segs;
  lg_end : chain_end w media shard (lm_consolidated_upto m + 1 + zlen segs) (end_digest (lm_consolidated_digest m) segs) (lm_head m) None;
  lg_room : lm_consolidated_upto m + 1 + zlen segs ≤ u64_max;
  lg_counts : zlen xs ≤ u32_max ∧ chunks_of xs ≤ u32_max ∧ zlen segs ≤ u32_max;
  lg_frames : zlen (wanted_of (concat (sr_kept <$> xs) ++ frames_of segs)) ≤ u64_max
}.
(** The cursor [c] stands at chunk [s] of the [k]-th round and at the [j]-th
    segment of the tail. *)
Record cursor_at (m : ShardManifest) (xs : list sealed_round) (segs : list ChainSegment) (c : CatchUpCursor) (k s j : nat) : Prop := {
  ct_round : match lm_rounds m, cu_round c with
             | Some r, Some q => q = rr_first r + Z.of_nat k ∧ cu_chunk c = Z.of_nat s
             | _, _ => k = 0%nat ∧ s = 0%nat
             end;
  ct_k : (k ≤ length xs)%nat;
  ct_s : skip_ok (drop k xs) s;
  ct_chain : match cu_chain c with
             | Some cc => cc = mkCursor (lm_consolidated_upto m + 1 + Z.of_nat j) (end_digest (lm_consolidated_digest m) (take j segs))
             | None => j = 0%nat
             end;
  ct_j : (j ≤ length segs)%nat
}.
Definition remaining (xs : list sealed_round) (segs : list ChainSegment) (k s j : nat) : list Frame2 :=
  rounds_left (drop k xs) s ++ wanted_of (frames_of (drop j segs)).
Definition units_left (xs : list sealed_round) (segs : list ChainSegment) (k s j : nat) : nat :=
  (units_of (drop k xs) - s + (length segs - j))%nat.

Lemma catch_up_tail_run w m v xs segs fuel c k s j out t :
  log_at w m v xs segs → cursor_at m xs segs c k s j → (length segs < fuel)%nat →
  ca_segments out + zlen segs ≤ u32_max → ca_frames out + zlen (wanted_of (frames_of (drop j segs))) ≤ u64_max →
  ∃ j' out' t' d c',
    mexec w (catch_up_tail id sink more media shard filter_ applied fuel m c out true t) = (w, Some (Ok (out', t', c'))) ∧
    got t' = got t ++ d ∧ cursor_at m xs segs c' k s j' ∧
    wanted_of (frames_of (drop j segs)) = d ++ wanted_of (frames_of (drop j' segs)) ∧
    (eager sink more → ca_caught_up out' = true) ∧ (if ca_caught_up out' then j' = length segs else (j < j')%nat).
Proof.
  intros [L Lo Rn Li En Ro Co Fr] [Ct Ck Cs Cc Cj] Lf Ls Lg. unfold catch_up_tail. cbv zeta.
  pose proof (zlen_nonneg segs). pose proof (loads_fits media shard w m v Lo) as Fm.
  assert (U0 : 0 ≤ lm_consolidated_upto m) by (unfold log_fits, fits in Fm; lia).
  set (start := mkCursor (lm_consolidated_upto m + 1 + Z.of_nat j) (end_digest (lm_consolidated_digest m) (take j segs))).
  match goal with |- context [mexec w (?p ≫= _)] => assert (P : mexec w p = (w, Some (Ok start)) ∧ unthreaded p) end.
  { subst start. destruct (cu_chain c) as [cc|].
    - subst cc. cbn [cc_seq]. rewrite (proj2 (Z.ltb_lt _ _)) by lia. done.
    - subst j. rewrite madd_run by lia. cbn [take]. rewrite Z.add_0_r. split; [done|]. by apply unthreaded_bind. }
  destruct P as [P1 P2]. erewrite mexec_ok; [|exact P2|exact P1]. clear P1 P2. subst start.
  rewrite <-(take_drop j segs) in Li. apply linked_app in Li as [_ Li].
  assert (Zt : zlen (take j segs) = Z.of_nat j) by (unfold zlen; rewrite length_take; lia). rewrite Zt in Li.
  assert (Zd : zlen (drop j segs) = zlen segs - Z.of_nat j) by (unfold zlen; rewrite length_drop; lia).
  destruct (tail_run w (λ s e, (id (CoChain e), ts_t s, c)) c (drop j segs) (Some (m, v)) fuel _ _ out t L Lo Li)
    as (i & o & kp & t' & d & stop & ns & R & G & Lij & E & N & Eg & St).
  - rewrite <-end_digest_app, take_drop, Zd. by replace (lm_consolidated_upto m + 1 + Z.of_nat j + (zlen segs - Z.of_nat j)) with (lm_consolidated_upto m + 1 + zlen segs) by lia.
  - lia.
  - rewrite length_drop. lia.
  - lia.
  - done.
  - erewrite mexec_ok; [|apply reads_unthreaded, reads_walk|exact R]. cbv beta iota. cbn [ts_out ts_stopped ts_t].
    rewrite length_drop in *. rewrite drop_drop in E. eexists (j + i)%nat, _, t', d, _. split; [done|]. cbn [ca_caught_up set_caught_up].
    split_and!; [done| |done|by intros ->%Eg|destruct stop; cbn; lia].
    split; cbn [cu_round cu_chunk cu_chain]; [done|done|done| |lia].
    rewrite <-end_digest_app, <-take_take_drop. f_equal. lia.
Qed.
Lemma rest_suffix x s : ∃ pre, rest_of x 0 = pre ++ rest_of x s.
Proof. exists (wanted_of (concat (take s (sr_groups x)))). unfold rest_of. by rewrite drop_0, <-wanted_app, <-concat_app, take_drop. Qed.
Lemma rounds_suffix xs k s : skip_ok (drop k xs) s → ∃ pre, rounds_left xs 0 = pre ++ rounds_left (drop k xs) s.
Proof.
  revert k. induction xs as [|x xs IH]; intros k So; [exists []; by destruct k|]. destruct k as [|k]; cbn [drop] in *.
  - destruct (rest_suffix x s) as [pre E]. exists pre. cbn [rounds_left]. by rewrite E, <-app_assoc.
  - destruct (IH k So) as [pre E]. exists (rest_of x 0 ++ pre). cbn [rounds_left]. by rewrite <-rounds_left_0, E, <-app_assoc.
Qed.
(** What the rounds hold for the caller. *)
Lemma rounds_hold w q xs : rounds_from w q xs → rounds_left xs 0 = wanted_of (concat (sr_kept <$> xs)).
Proof.
  revert q. induction xs as [|x xs IH]; intros q R; [done|]. destruct R as [Ro R]. cbn [rounds_left fmap list_fmap concat].
  rewrite <-rounds_left_0, (IH _ R), wanted_app. f_equal. unfold rest_of. by rewrite drop_0, (ro_groups _ _ _ Ro), wanted_tenant.
Qed.
Lemma log_holds w m v xs segs : log_at w m v xs segs → remaining xs segs 0 0 0 = wanted_of (concat (sr_kept <$> xs) ++ frames_of segs).
Proof.
  intros Lg. unfold remaining. rewrite !drop_0, wanted_app. f_equal. pose proof (lg_rounds _ _ _ _ _ Lg) as R.
  destruct (lm_rounds m) as [r|]; [|by subst]. eapply rounds_hold, R.
Qed.
Lemma chunks_drop xs k : chunks_of (drop k xs) ≤ chunks_of xs.
Proof.
  revert k. induction xs as [|x xs IH]; intros [|k]; cbn [drop]; try done. etrans; [apply IH|]. cbn. unfold chunks_of.
  pose proof (zlen_nonneg (sr_groups x)). lia.
Qed.
Lemma left_fits w m v xs segs k s j :
  log_at w m v xs segs → skip_ok (drop k xs) s →
  zlen (rounds_left (drop k xs) s) + zlen (wanted_of (frames_of (drop j segs))) ≤ u64_max.
Proof.
  intros Lg So. pose proof (lg_frames _ _ _ _ _ Lg) as F. rewrite <-(log_holds _ _ _ _ _ Lg) in F. unfold remaining in F.
  rewrite !drop_0, zlen_app in F. destruct (rounds_suffix xs k s So) as [pre E]. rewrite E, zlen_app in F.
  rewrite <-(take_drop j segs) in F. unfold frames_of in *. rewrite fmap_app, concat_app, wanted_app, zlen_app in F.
  pose proof (zlen_nonneg pre). match type of F with context [zlen (wanted_of (concat (cs_frames <$> take j segs)))] =>
    pose proof (zlen_nonneg (wanted_of (concat (cs_frames <$> take j segs)))) end. lia.
Qed.
Lemma units_suffix xs k s : skip_ok (drop k xs) s → (units_of (drop k xs) - s ≤ units_of xs)%nat.
Proof.
  intros _. enough (units_of (drop k xs) ≤ units_of xs)%nat by lia. revert k.
  induction xs as [|x xs IH]; intros [|k]; cbn [drop]; try done. etrans; [apply IH|]. rewrite units_cons. lia.
Qed.

Lemma call_run w m v xs segs fuel c k s j t :
  log_at w m v xs segs → cursor_at m xs segs c k s j → (length segs < fuel)%nat →
  ∃ k' s' j' out' t' d c',
    mexec w (catch_up_resuming id sink more media shard filter_ applied fuel c t) = (w, Some (Ok (out', t', c'))) ∧
    got t' = got t ++ d ∧ cursor_at m xs segs c' k' s' j' ∧
    remaining xs segs k s j = d ++ remaining xs segs k' s' j' ∧
    (eager sink more → ca_caught_up out' = true) ∧
    if ca_caught_up out' then remaining xs segs k' s' j' = []
    else (units_left xs segs k' s' j' < units_left xs segs k s j)%nat.
Proof.
  intros Lg Ct Lf. pose proof Lg as [L Lo Rn Li En Ro (Cx & Cc & Cg) Fr]. unfold catch_up_resuming.
  erewrite mexec_ok; [|apply reads_unthreaded, reads_map_err, reads_log_load|rewrite mexec_map_err by quiet; by erewrite log_load_run]. cbn [map_err].
  pose proof (left_fits w m v xs segs k s j Lg (ct_s _ _ _ _ _ _ _ Ct)) as Lfit.
  pose proof (zlen_nonneg (rounds_left (drop k xs) s)). pose proof (zlen_nonneg (wanted_of (frames_of (drop j segs)))).
  assert (Tl : ∀ c1 k1 s1 o t1 d1, cursor_at m xs segs c1 k1 s1 j → drop k1 xs = [] → s1 = 0%nat → got t1 = got t ++ d1 →
    rounds_left (drop k xs) s = d1 → ca_segments o = 0 → ca_frames o = zlen d1 →
    ∃ k' s' j' out' t' d c',
      mexec w (catch_up_tail id sink more media shard filter_ applied fuel m c1 o true t1) = (w, Some (Ok (out', t', c'))) ∧
      got t' = got t ++ d ∧ cursor_at m xs segs c' k' s' j' ∧ remaining xs segs k s j = d ++ remaining xs segs k' s' j' ∧
      (eager sink more → ca_caught_up out' = true) ∧
      if ca_caught_up out' then remaining xs segs k' s' j' = []
      else (units_left xs segs k' s' j' < units_left xs segs k s j)%nat).
  { intros c1 k1 s1 o t1 d1 Ct1 Dr -> G1 E1 S1 F1. subst d1.
    destruct (catch_up_tail_run w m v xs segs fuel c1 k1 0 j o t1 Lg Ct1 Lf) as (j' & o2 & t2 & d & c2 & R & G & Ct2 & E & Eg & St); [lia|lia|].
    exists k1, 0%nat, j', o2, t2, (rounds_left (drop k xs) s ++ d), c2. unfold remaining, units_left. rewrite Dr, E.
    split_and!; [done|by rewrite G, G1, <-app_assoc|done|by rewrite <-app_assoc|done|]. destruct (ca_caught_up o2).
    - subst j'. by rewrite drop_all.
    - pose proof (ct_j _ _ _ _ _ _ _ Ct2). cbn. lia. }
  destruct Ct as [Cr Ck Cs Cn Cj]. pose proof (loads_fits media shard w m v Lo) as Fm.
  destruct (lm_rounds m) as [r|] eqn:Lm.
  - destruct Rn as (Rl & Ru & Rf). assert (R0 : 0 ≤ rr_first r) by (unfold log_fits, fits in Fm; rewrite Lm in Fm; cbn in Fm; lia).
    set (at_ := Z.max _ _). assert (At : at_ = rr_first r + Z.of_nat k ∧ (if bool_decide (cu_round c = Some at_) then cu_chunk c else 0) = Z.of_nat s).
    { subst at_. destruct (cu_round c) as [q|]; cbn [from_option id].
      - destruct Cr as [-> ->]. rewrite Z.max_l by lia. by rewrite bool_decide_true.
      - destruct Cr as [-> ->]. rewrite Z.max_id. split; [lia|]. by rewrite bool_decide_false. }
    destruct At as [-> ->]. pose proof (chunks_drop xs k). assert (Zd : zlen (drop k xs) = zlen xs - Z.of_nat k) by (unfold zlen; rewrite length_drop; lia).
    destruct (round_loop_run w (drop k xs) c (rr_last r) (Datatypes.S (Z.to_nat (rr_last r - (rr_first r + Z.of_nat k) + 1))) (rr_first r + Z.of_nat k) s catch_up_default t)
      as (i & s' & o & kp & t1 & d & stopped & nr & nc & R & G & E & Lk & So & N & Eg & St);
      [done|by apply rounds_drop|done|lia|lia|unfold zlen in *; lia|cbn; lia|cbn; lia|done|cbn; lia|].
    erewrite mexec_ok; [|apply reads_unthreaded, reads_rounds|exact R]. cbv beta iota zeta. rewrite drop_drop in *. rewrite length_drop in *.
    assert (Ct' : cursor_at m xs segs (mkCatchUpCursor (Some (rr_first r + Z.of_nat k + Z.of_nat i)) (Z.of_nat s') (cu_chain c)) (k + i) s' j).
    { split; cbn [cu_round cu_chunk cu_chain]; [rewrite Lm; split; [lia|done]|lia|done|done|done]. }
    destruct stopped.
    + rewrite orb_true_r. exists (k + i)%nat, s', j, o, t1, d. eexists. split; [done|].
      assert (ca_caught_up o = false) as -> by apply N. split_and!; [done|done|unfold remaining; by rewrite E, <-app_assoc|by intros ?%Eg|].
      unfold units_left. lia.
    + destruct St as (-> & -> & ->). cbn [negb orb]. assert (Dr : drop (k + (length xs - k)) xs = []) by (apply drop_ge; lia).
      rewrite Dr in *. cbn [rounds_left] in E. rewrite app_nil_r in E.
      apply (Tl _ (k + (length xs - k))%nat 0%nat o t1 d); [exact Ct'|exact Dr|done|done|done|unfold counted in N; cbn in N; lia|unfold counted in N; cbn in N; lia].
  - subst xs. destruct Cr as [-> ->]. apply (Tl c 0%nat 0%nat catch_up_default t []); try done.
    + split; [by rewrite Lm|done|done|done|done].
    + by rewrite app_nil_r.
Qed.
End reading.

Section resume.
Context {S : Type} `{CasOk S} `{CrcOk, Lz4Ok, SerdeLogOk, SerdeRoundOk} (media : WalMedia) (shard : Z).
Context (filter_ : TeeFilter) (applied : Lsn).
Implicit Types w : mworld S.

(** A fresh cursor stands at the beginning. *)
Lemma cursor_start m xs segs : cursor_at m xs segs cursor_default 0 0 0.
Proof. split; cbn; [by destruct (lm_rounds m)|lia|destruct xs; cbn; lia|done|lia]. Qed.

Section policy.
Context {T : Type} (sink : T → Frame2 → T * res ConsolidateError bool) (more : T → T * bool).
(** A reader that calls again from its cursor until it has caught up, at
    most [n] times. *)
Fixpoint poll (n fuel : nat) (cursor : CatchUpCursor) (t : T) :
    mprog (ConsolidateError * T * CatchUpCursor) (bool * T * CatchUpCursor) :=
  match n with
  | O => mret (false, t, cursor)
  | Datatypes.S n =>
      '(out, t, cursor) ← catch_up_resuming id sink more media shard filter_ applied fuel cursor t;
      if ca_caught_up out then mret (true, t, cursor) else poll n fuel cursor t
  end.
End policy.

Lemma reads_resuming {T} (sink : T → Frame2 → T * res ConsolidateError bool) (more : T → T * bool) fuel c t :
  reads_only (catch_up_resuming id sink more media shard filter_ applied fuel c t).
Proof.
  assert (Tl : ∀ m c o k t, reads_only (catch_up_tail id sink more media shard filter_ applied fuel m c o k t)).
  { intros m c' o k t'. unfold catch_up_tail. cbv zeta. apply reads_bind.
    - destruct (cu_chain c') as [cc|]; [destruct (_ <? _); [done|]|]; by apply reads_bind.
    - intros start. apply reads_bind; [apply reads_walk|]. by intros []. }
  unfold catch_up_resuming. apply reads_bind; [reading|]. intros [[m v]|]; [|done]. destruct (lm_rounds m); [|apply Tl]. cbv zeta.
  apply reads_bind; [apply reads_rounds|]. intros [[[[[a b] o] k] st] t']. destruct (_ || _); [done|apply Tl].
Qed.
Lemma poll_run {T} (got : T → list Frame2) sink more w m v xs segs n fuel c k s j t :
  keeps got sink more → log_at media shard filter_ applied w m v xs segs → cursor_at m xs segs c k s j →
  (length segs < fuel)%nat → (units_left xs segs k s j < n)%nat →
  ∃ t' c', mexec w (poll sink more n fuel c t) = (w, Some (Ok (true, t', c'))) ∧
    got t' = got t ++ remaining filter_ applied xs segs k s j.
Proof.
  intros Ks Lg Ct Lf. revert c k s j t Ct. induction n as [|n IH]; intros c k s j t Ct Ln; [lia|]. cbn [poll].
  destruct (call_run media shard filter_ applied got sink more Ks w m v xs segs fuel c k s j t Lg Ct Lf)
    as (k' & s' & j' & o & t1 & d & c1 & R & G & Ct1 & E & _ & St).
  erewrite mexec_ok; [|apply reads_unthreaded, reads_resuming|exact R]. cbv beta iota. destruct (ca_caught_up o).
  - exists t1, c1. split; [done|]. by rewrite G, E, St, app_nil_r.
  - destruct (IH c1 k' s' j' t1 Ct1) as (t' & c' & R' & G'); [lia|]. exists t', c'. split; [done|]. by rewrite G', G, E, <-app_assoc.
Qed.

(** ** The rounds consolidation writes *)
Lemma tiles_ends from fs upto f : tiles from fs upto → f ∈ fs → ∃ mk, upto = Some mk ∧ end_lsn f ≤ mk.
Proof.
  revert from. induction fs as [|g fs IH]; intros from Ti Hf; [set_solver|]. destruct Ti as [_ Ti].
  assert (Le : ∀ a l, tiles (Some a) l upto → ∃ mk, upto = Some mk ∧ a ≤ mk).
  { intros a l. revert a. induction l as [|h l IHl]; intros a Tl; cbn in Tl; [subst; eauto with lia|].
    destruct Tl as [[<- Lt] Tl]. apply IHl in Tl as (mk & -> & L). exists mk. split; [done|]. cbn in Lt. lia. }
  apply elem_of_cons in Hf as [-> |Hf]; [by eapply Le|by eapply IH].
Qed.
(** A round that holds what was folded is a round a catch up can read. *)
Lemma folded_round_ok w q index ws0 fs ws kept :
  round_holds shard w q index ws kept → folded ws0 fs ws kept →
  ∃ gs, round_ok shard filter_ w q (mkSealedRound index ws kept gs).
Proof.
  intros [At _ Mk _ (data & v & V & G)] Fd. destruct (G (filter_tenant filter_)) as (gs & Fg & Eg). exists gs.
  split; cbn [sr_index sr_marks sr_kept sr_groups]; [done|apply Mk|by exists data, v|done|].
  intros f Hf. rewrite Eg in Hf. eapply tiles_ends; [apply Fd|exact Hf].
Qed.
End resume.

(** C8: catching up finds everything.  On a log at rest, [catch_up] returns
    exactly the frames of the tenant that match the filter and end above what
    was applied, each once, in stream order: those of the sealed rounds
    first, then those of the landing tail past the boundary. *)
Theorem catch_up_exact {S} `{CasOk S} `{CrcOk, Lz4Ok, SerdeLogOk, SerdeRoundOk} (w : mworld S) (media : WalMedia)
    (shard : Z) (filter_ : TeeFilter) (applied : Lsn) (m : ShardManifest) (v : Version) (xs : list sealed_round)
    (segs : list ChainSegment) (fuel : nat) :
  log_at media shard filter_ applied w m v xs segs → (length segs < fuel)%nat →
  mexec w (catch_up fuel media shard filter_ applied) =
    (w, Some (Ok (wanted_of filter_ applied (concat (sr_kept <$> xs) ++ frames_of segs)))).
Proof.
  intros Lg Lf. unfold catch_up, catch_up_with.
  set (sink := λ (t : list Frame2) f, (t ++ [f], (_ ← (Ok () : res ConsolidateError ()); mret true) : res ConsolidateError bool)).
  set (more := λ t : list Frame2, (t, true)).
  assert (Ks : keeps id sink more) by (split; [intros t f; by exists (t ++ [f]), true|done]).
  assert (Eg : eager sink more) by (split; [by intros t f t' k [= <- <-]|done]).
  destruct (call_run media shard filter_ applied id sink more Ks w m v xs segs fuel cursor_default 0 0 0 [] Lg (cursor_start m xs segs) Lf)
    as (k' & s' & j' & o & t1 & d & c1 & R & G & _ & E & Ea & St).
  rewrite (Ea Eg) in St. rewrite St, app_nil_r in E. cbn [id app] in G. unfold id in G. subst t1.
  pose proof (reads_resuming media shard filter_ applied sink more fuel cursor_default []) as Rd.
  rewrite mexec_map_err by (apply unthreaded_handle; [by apply reads_unthreaded|by intros [[[]]|[[]]|]]).
  rewrite mexec_handle by by apply reads_unthreaded.
  match goal with |- context [mexec w ?p] => change (mexec w p) with (mexec w (catch_up_resuming id sink more media shard filter_ applied fuel cursor_default [])) end.
  rewrite R. cbn. rewrite <-E. by erewrite log_holds.
Qed.

(** C9: stopping costs nothing.  A reader whose closures stop it after any
    frames and after any chunks, rounds and segments, and which calls again
    from its cursor each time, has caught up after at most one call more than
    there are places to stop; by then it was handed every frame it did not
    have, in order, none of them twice. *)
Theorem catch_up_resumes {S} `{CasOk S} `{CrcOk, Lz4Ok, SerdeLogOk, SerdeRoundOk} {T} (got : T → list Frame2)
    (sink : T → Frame2 → T * res ConsolidateError bool) (more : T → T * bool) (w : mworld S) (media : WalMedia)
    (shard : Z) (filter_ : TeeFilter) (applied : Lsn) (m : ShardManifest) (v : Version) (xs : list sealed_round)
    (segs : list ChainSegment) (fuel : nat) (t : T) :
  keeps got sink more → log_at media shard filter_ applied w m v xs segs → (length segs < fuel)%nat →
  ∃ t' c', mexec w (poll media shard filter_ applied sink more (1 + units_of xs + length segs) fuel cursor_default t) =
      (w, Some (Ok (true, t', c'))) ∧
    got t' = got t ++ wanted_of filter_ applied (concat (sr_kept <$> xs) ++ frames_of segs).
Proof.
  intros Ks Lg Lf. erewrite <-(log_holds media shard filter_ applied); [|exact Lg].
  eapply poll_run; [done|done|apply cursor_start|done|unfold units_left; rewrite drop_0; lia].
Qed.
