(* ===== verification/ConsolidateRuns.v ===== *)
(** * ConsolidateRuns: a shard from takeover to collection

    A concrete codec for round indexes, and one small shard taken through
    its life: a takeover, two landed windows, a round, another window, a
    catch up and a collection. *)
From S2P Require Import Prelude Order Text Lsn Externals Frame Segment Cas Media MediaProofs Manifest Chain ChainHead ChainProofs ChainRuns Sealed Consolidate ConsolidateRound ConsolidateRun Tee CatchUp CatchUpProofs.

Module ConsolidateConcrete.
#[export] Instance chunk_countable : Countable RoundChunk.
Proof. refine (inj_countable' (λ c, (rc_min_lsn c, rc_max_lsn c, rc_offset c, rc_len c)) (λ '(a, b, c, d), mkRoundChunk a b c d) _). by intros []. Defined.
#[export] Instance tenant_countable : Countable RoundTenant.
Proof. refine (inj_countable' (λ c, (rt_tenant c, rt_watermark c, rt_frames c, rt_chunks c)) (λ '(a, b, c, d), mkRoundTenant a b c d) _). by intros []. Defined.
#[export] Instance index_countable : Countable RoundIndex.
Proof.
  refine (inj_countable' (λ r, (ri_format r, ri_shard r, ri_round r, ri_first_seq r, ri_last_seq r, ri_sealed r, ri_unix r, ri_tenants r))
    (λ '(a, b, c, d, e, f, g, h), mkRoundIndex a b c d e f g h) _). by intros [].
Defined.
#[export] Instance chunk_fits_dec c : Decision (round_chunk_fits c).
Proof. unfold round_chunk_fits. apply _. Defined.
#[export] Instance tenant_fits_dec c : Decision (round_tenant_fits c).
Proof. unfold round_tenant_fits. apply _. Defined.
#[export] Instance round_fits_dec c : Decision (round_fits c).
Proof. unfold round_fits. apply _. Defined.
Definition parse_round (d : bytes) : option RoundIndex :=
  r ← countable.decode (ManifestConcrete.of_bits d); if decide (round_fits r) then Some r else None.
#[export] Instance serde_round : SerdeRound := {
  round_from_slice := parse_round;
  round_to_vec r := ManifestConcrete.bits_of (countable.encode r)
}.
#[export] Instance serde_round_ok : SerdeRoundOk.
Proof.
  split; cbn [round_from_slice round_to_vec serde_round]; unfold parse_round.
  - intros r F. rewrite ManifestConcrete.of_bits_bare, countable.decode_encode. cbn. by rewrite decide_True.
  - intros d r. destruct (countable.decode (ManifestConcrete.of_bits d)); [|done]. cbn. case_decide; naive_solver.
Qed.
End ConsolidateConcrete.

Module ConsolidateWitness.
Import Concrete ChainConcrete FrameWitness ChainWitness ConsolidateConcrete.

Definition after {E A} (w : mworld MemStore) (p : mprog E A) : mworld MemStore := (mexec w p).1.
Definition f3 : Frame2 := mkFrame2 3 8 0x8B004010 0x8B004020 false true [] (str "next").
Definition f4 : Frame2 := mkFrame2 3 8 0x8B004020 0x8B004030 false true [] (str "tail").
(** The shard after its takeover, and with two windows more, the second of
    which repeats a frame of the first. *)
Definition taken : mworld MemStore := after w0 (take_over 5 Single 1 (str "b")).
Definition a2 : bytes * Z := window 2 (digest_of (seal_segment 1 1 0)) [f2; f1].
Definition a3 : bytes * Z := window 3 a2.2 [f2; f3].
Definition a4 : bytes * Z := window 4 a3.2 [f4].
Definition landed : mworld MemStore := land Single (land Single taken 2 a2.1) 3 a3.1.
Definition m0 : ShardManifest := mkLog 1 1 1 1 0 0 None 0 (str "b") 1000.
Definition segs : list ChainSegment := [seal_segment 1 1 0; segment_of 2 a2.1; segment_of 3 a3.1].
Lemma folds_run :
  fold_watermarks [] [] (sort_frames (frames_of segs)) = Ok ([(3, 0x8B004020); (0xc0ffee, 0x8B004000)], [f2; f3; f1]).
Proof. by vm_compute. Qed.

Lemma taken_lawful : lawful taken.
Proof. apply mexec_lawful, w0_lawful. Qed.
Lemma landed_lawful : lawful landed.
Proof. do 2 apply mexec_lawful. apply taken_lawful. Qed.
Definition object_at (w : mworld MemStore) (seq : Z) : bytes := default [] (fetch_at w Single 1 seq).
Lemma landed_linked : linked landed Single 1 1 0 segs.
Proof.
  assert (St1 : stored landed Single 1 (seal_segment 1 1 0)).
  { split_and!; [by vm_compute|by vm_compute|]. exists (object_at landed 1). split; by vm_compute. }
  assert (St2 : stored landed Single 1 (segment_of 2 a2.1)).
  { split_and!; [by vm_compute|by vm_compute|]. exists a2.1. split; by vm_compute. }
  assert (St3 : stored landed Single 1 (segment_of 3 a3.1)).
  { split_and!; [by vm_compute|by vm_compute|]. exists a3.1. split; by vm_compute. }
  refine (conj _ (conj _ (conj St1 (conj _ (conj _ (conj St2 (conj _ (conj _ (conj St3 I))))))))); by vm_compute.
Qed.
Lemma landed_loads : loads landed Single 1 (Some (m0, [Byte.x32])).
Proof. exists (log_to_vec_pretty m0). split_and!; by vm_compute. Qed.
Lemma landed_foldable : foldable Single 1 landed m0 [Byte.x32] segs [].
Proof.
  split.
  - apply landed_lawful.
  - exact landed_loads.
  - done.
  - exact landed_linked.
  - apply end_empty. by vm_compute.
  - done.
  - split; by vm_compute.
  - by vm_compute.
  - by vm_compute.
Qed.

Lemma rounds_continuous_witness : tiles None [f2; f3] (Some 0x8B004020).
Proof.
  pose proof (rounds_continuous [] (frames_of segs) I) as [X _]. rewrite folds_run in X.
  exact (proj1 (proj2 (proj2 (proj2 X))) 3).
Defined.
Lemma consolidate_exact_witness :
  ∃ w', mexec landed (consolidate 5 Single 1) = (w', Some (Ok (Some (mkOutcome 1 1 3 3 (sealed_key 1 1 3) false)))) ∧
    published_round Single 1 w' m0 segs [(3, 0x8B004020); (0xc0ffee, 0x8B004000)] [f2; f3; f1].
Proof.
  pose proof (consolidate_exact landed Single 1 m0 [Byte.x32] segs [] 5 landed_foldable ltac:(done) ltac:(cbn; lia)
                ltac:(by vm_compute) ltac:(by vm_compute)) as X.
  rewrite folds_run in X. destruct X as (w' & R & P & _). exists w'. split; [exact R|exact P].
Defined.
(** The worlds a run passes through, counted in calls. *)
Fixpoint cut {E A} (n : nat) (w : mworld MemStore) (p : mprog E A) : mworld MemStore :=
  match n, p with
  | Datatypes.S n, MGet m key k => cut n w (k (world_get w Works m key))
  | Datatypes.S n, MPut m key data ex k => let '(w, r) := world_put w Works m key data ex in cut n w (k r)
  | Datatypes.S n, MDelete m key k => let '(w, r) := world_delete w Works m key in cut n w (k r)
  | Datatypes.S n, MNow k => cut n w (k (mw_now w))
  | _, _ => w
  end.
Lemma cut_visits {E A} n w (p : mprog E A) : visits w p (cut n w p).
Proof.
  revert w p. induction n as [|n IH]; intros w p; [destruct p; by left|].
  destruct p as [r| |m key k|m key data ex k|m key k|k|ch m key data k|ch k|ch k]; cbn [cut visits]; try by left; try by (right; apply IH).
  - right. apply IH.
  - right. destruct (world_put _ _ _ _ _ _). apply IH.
  - right. destruct (world_delete _ _ _ _). apply IH.
  - right. apply IH.
Qed.
(** A run that died after it had written the sealed object and the index. *)
Definition died : mworld MemStore := cut 9 landed (consolidate 5 Single 1).
Example died_halfway :
  is_Some (view died (sealed_key 1 1 3) STD) ∧ is_Some (view died (round_key 1 1) STD) ∧
  view died (manifest_key 1) STD = view landed (manifest_key 1) STD.
Proof. split_and!; [eexists; by vm_compute|eexists; by vm_compute|by vm_compute]. Qed.
Lemma consolidate_survives_crash_witness :
  ∃ w' out, mexec (restart died 2000) (consolidate 5 Single 1) = (w', Some (Ok out)) ∧
    published_round Single 1 w' m0 segs [(3, 0x8B004020); (0xc0ffee, 0x8B004000)] [f2; f3; f1].
Proof.
  apply (consolidate_survives_crash landed died Single 1 2000 m0 [Byte.x32] segs [] _ _ 5 landed_foldable).
  - done.
  - cbn. lia.
  - by vm_compute.
  - by vm_compute.
  - by vm_compute.
  - by vm_compute.
  - exact folds_run.
  - apply cut_visits.
  - by vm_compute.
Defined.

(** ** After the round *)
Definition folded_world : mworld MemStore := after landed (consolidate 5 Single 1).
(** One more window landed behind the boundary. *)
Definition grown : mworld MemStore := land Single folded_world 4 a4.1.
Definition m1 : ShardManifest := after_round m0 segs.
Definition index1 : RoundIndex :=
  match (mexec grown (round_load STD 1 1)).2 with
  | Some (Ok (Some index)) => index
  | _ => mkRoundIndex 0 0 0 0 0 [] 0 []
  end.
Definition x1 : sealed_round := mkSealedRound index1 [(3, 0x8B004020); (0xc0ffee, 0x8B004000)] [f2; f3; f1] [[f2; f3]].
Lemma folded_lawful : lawful folded_world.
Proof. apply mexec_lawful, landed_lawful. Qed.
Lemma grown_lawful : lawful grown.
Proof. apply mexec_lawful, folded_lawful. Qed.
Definition bytes_at (w : mworld MemStore) (key : bytes) : bytes := from_option fst [] (view w key STD).
Definition version_at (w : mworld MemStore) (key : bytes) : Version := from_option snd [] (view w key STD).
Definition chunk1 : RoundChunk := default (mkRoundChunk 0 0 0 0) (head (round_chunks index1 3)).
Definition sealed1 : bytes := bytes_at grown (sealed_key 1 1 3).
Lemma chunk1_gives : chunk_gives sealed1 chunk1 [f2; f3].
Proof.
  refine (conj _ (conj _ (conj _ (conj _ (conj _ _))))).
  1-5: by vm_compute.
  intros f Hf. apply elem_of_cons in Hf as [-> |Hf]; [by vm_compute|]. apply list_elem_of_singleton in Hf as ->. by vm_compute.
Qed.
Lemma index1_at : round_at 1 grown 1 index1.
Proof. exists (bytes_at grown (round_key 1 1)), (version_at grown (round_key 1 1)). split_and!; by vm_compute. Qed.
Lemma x1_ok : round_ok 1 (TeeTenant 3) grown 1 x1.
Proof.
  split.
  - exact index1_at.
  - by vm_compute.
  - exists sealed1, (version_at grown (sealed_key 1 1 3)). split; [by vm_compute|].
    assert (Ch : round_chunks (sr_index x1) (filter_tenant (TeeTenant 3)) = [chunk1]) by by vm_compute.
    rewrite Ch. constructor; [exact chunk1_gives|constructor].
  - by vm_compute.
  - intros f Hf. exists 0x8B004020. split; [by vm_compute|].
    repeat (apply elem_of_cons in Hf as [-> |Hf]; [by vm_compute|]). by apply not_elem_of_nil in Hf.
Qed.
Lemma grown_log : log_at Single 1 (TeeTenant 3) 0x8B004010 grown m1 (version_at grown (manifest_key 1)) [x1] [segment_of 4 a4.1].
Proof.
  split.
  - apply grown_lawful.
  - exists (bytes_at grown (manifest_key 1)). split_and!; by vm_compute.
  - change (lm_rounds m1) with (Some (mkRounds 1 1)). cbv iota. split_and!; [by vm_compute|by vm_compute|exact (conj x1_ok I)].
  - assert (St : stored grown Single 1 (segment_of 4 a4.1)).
    { split_and!; [by vm_compute|by vm_compute|]. exists a4.1. split; by vm_compute. }
    refine (conj _ (conj _ (conj St I))); by vm_compute.
  - apply end_empty. by vm_compute.
  - by vm_compute.
  - split_and!; by vm_compute.
  - by vm_compute.
Qed.
(** Reading from the middle of the round on. *)
Lemma catch_up_exact_witness : mexec grown (catch_up 3 Single 1 (TeeTenant 3) 0x8B004010) = (grown, Some (Ok [f3; f4])).
Proof.
  assert (W : wanted_of (TeeTenant 3) 0x8B004010 (concat (sr_kept <$> [x1]) ++ frames_of [segment_of 4 a4.1]) = [f3; f4]) by by vm_compute.
  rewrite <-W. exact (catch_up_exact grown Single 1 (TeeTenant 3) 0x8B004010 m1 _ [x1] [segment_of 4 a4.1] 3 grown_log ltac:(cbn; lia)).
Defined.
(** A reader that stops after every frame, and says so twice. *)
Definition lazy_sink (t : list Frame2) (f : Frame2) : list Frame2 * res ConsolidateError bool := (t ++ [f], Ok false).
Definition lazy_more (t : list Frame2) : list Frame2 * bool := (t, false).
Lemma lazy_keeps : keeps id lazy_sink lazy_more.
Proof. split; [intros t f; by exists (t ++ [f]), false|done]. Qed.
Lemma catch_up_resumes_witness :
  ∃ t c, mexec grown (poll Single 1 (TeeTenant 3) 0x8B004010 lazy_sink lazy_more 4 3 cursor_default []) =
      (grown, Some (Ok (true, t, c))) ∧ t = [f3; f4].
Proof.
  assert (W : wanted_of (TeeTenant 3) 0x8B004010 (concat (sr_kept <$> [x1]) ++ frames_of [segment_of 4 a4.1]) = [f3; f4]) by by vm_compute.
  rewrite <-W.
  apply (catch_up_resumes id lazy_sink lazy_more grown Single 1 (TeeTenant 3) 0x8B004010 m1 (version_at grown (manifest_key 1)) [x1] [segment_of 4 a4.1] 3 []).
  - exact lazy_keeps.
  - exact grown_log.
  - cbn. lia.
Defined.
(** Such a reader needs a fourth call, which finds nothing: it has caught up
    and is told of no end. *)
Definition polled (n : nat) : option (bool * option Lsn) :=
  match (mexec grown ('(_, _, c) ← poll Single 1 (TeeTenant 3) 0x8B004010 lazy_sink lazy_more n 3 cursor_default [];
                      catch_up_resuming id lazy_sink lazy_more Single 1 (TeeTenant 3) 0x8B004010 3 c [])).2 with
  | Some (Ok (out, _, _)) => Some (ca_caught_up out, ca_end out)
  | _ => None
  end.
Example caught_up_without_end : polled 3 = Some (true, None).
Proof. by vm_compute. Qed.
Lemma index1_last : ri_last_seq index1 = 3.
Proof. by vm_compute. Qed.
Lemma index1_first : ri_first_seq index1 = 1.
Proof. by vm_compute. Qed.
Lemma index1_order : 1 ≤ ri_last_seq index1 + 1.
Proof. by rewrite index1_last. Qed.
Lemma index1_next : ri_last_seq index1 + 1 = lm_consolidated_upto m1 + 1.
Proof. by rewrite index1_last. Qed.
Lemma index1_grace : Z.min (ri_unix index1 + 0) u64_max ≤ mw_now grown.
Proof. by vm_compute. Qed.
End ConsolidateWitness.
