(* ===== verification/Utf8.v ===== *)
(** * Utf8: strings

    A Rust [str] is UTF-8, its slices panic off character boundaries, and
    [String::from_utf8] refuses anything else.  Here are those rules on
    bytes, with the facts that let a parser cut at ASCII delimiters. *)
From S2P Require Import Prelude Order Text.

(** ** Definitions *)
(** A byte inside a character. *)
Definition is_cont (b : byte) : bool := (0x80 <=? bval b) && (bval b <? 0xC0).
(** The ranges the bytes after a leading byte must lie in. *)
Definition lead (b : byte) : option (list (Z * Z)) :=
  let c := bval b in
  if c <? 0x80 then Some []
  else if c <? 0xC2 then None
  else if c <? 0xE0 then Some [(0x80, 0xBF)]
  else if c =? 0xE0 then Some [(0xA0, 0xBF); (0x80, 0xBF)]
  else if c =? 0xED then Some [(0x80, 0x9F); (0x80, 0xBF)]
  else if c <? 0xF0 then Some [(0x80, 0xBF); (0x80, 0xBF)]
  else if c =? 0xF0 then Some [(0x90, 0xBF); (0x80, 0xBF); (0x80, 0xBF)]
  else if c <? 0xF4 then Some [(0x80, 0xBF); (0x80, 0xBF); (0x80, 0xBF)]
  else if c =? 0xF4 then Some [(0x80, 0x8F); (0x80, 0xBF); (0x80, 0xBF)]
  else None.
Fixpoint utf8_run (pending : list (Z * Z)) (s : bytes) : bool :=
  match s with
  | [] => bool_decide (pending = [])
  | b :: s =>
      match pending with
      | (lo, hi) :: pending => (lo <=? bval b) && (bval b <=? hi) && utf8_run pending s
      | [] => match lead b with Some pending => utf8_run pending s | None => false end
      end
  end.
(** [std::str::from_utf8(s).is_ok()] *)
Definition utf8_valid (s : bytes) : bool := utf8_run [] s.
(** What every Rust [str] and [String] is. *)
Definition utf8 (s : bytes) : Prop := utf8_valid s = true.

(** [s.is_char_boundary(i)] *)
Definition is_char_boundary (s : bytes) (i : nat) : bool :=
  match s !! i with
  | Some b => (i =? 0)%nat || negb (is_cont b)
  | None => (i =? length s)%nat
  end.
(** [&s[a..b]] of a [str] *)
Definition str_slice {E} (s : bytes) (a b : nat) : res E bytes :=
  if (a <=? b)%nat && is_char_boundary s a && is_char_boundary s b
  then Ok (take (b - a) (drop a s)) else Panic.
(** [s.chars().next()]; a character is kept as its bytes. *)
Definition char_width (b : byte) : nat :=
  if bval b <? 0x80 then 1 else if bval b <? 0xE0 then 2 else if bval b <? 0xF0 then 3 else 4.
Definition first_char (s : bytes) : option bytes :=
  match s with [] => None | b :: _ => Some (take (char_width b) s) end.

(** [s.trim_matches([' ', '\t'])] *)
Definition is_blank (b : byte) : bool := bool_decide (b = Byte.x20) || bool_decide (b = Byte.x09).
Fixpoint trim_start (s : bytes) : bytes :=
  match s with b :: r => if is_blank b then trim_start r else s | [] => [] end.
Definition trim (s : bytes) : bytes := rev (trim_start (rev (trim_start s))).
(** [parts.join(sep)] *)
Fixpoint join (sep : bytes) (parts : list bytes) : bytes :=
  match parts with
  | [] => []
  | [p] => p
  | p :: parts => p ++ sep ++ join sep parts
  end.
(** [s.contains(w)] *)
Fixpoint contains (s w : bytes) : bool :=
  starts_with s w || match s with [] => false | _ :: s => contains s w end.
(** [s.to_ascii_lowercase()] and [s.to_ascii_uppercase()] *)
Definition lower_byte (b : byte) : byte :=
  if (65 <=? bval b) && (bval b <=? 90) then byte_of_Z (bval b + 32) else b.
Definition upper_byte (b : byte) : byte :=
  if (97 <=? bval b) && (bval b <=? 122) then byte_of_Z (bval b - 32) else b.
Definition to_ascii_lowercase (s : bytes) : bytes := lower_byte <$> s.
Definition to_ascii_uppercase (s : bytes) : bytes := upper_byte <$> s.
(** [b.is_ascii_digit()] *)
Definition is_digit (b : byte) : bool := (48 <=? bval b) && (bval b <=? 57).
(** [s.parse::<i64>()] and its printing *)
Definition i64_min : Z := - 2 ^ 63.
Definition i64_max : Z := 2 ^ 63 - 1.
Definition parse_i64 (s : bytes) : option Z :=
  match s with
  | [] => None
  | b :: r =>
      if decide (b = Byte.x2d) then
        match r with [] => None | _ => n ← parse_digits 10 (2 ^ 63) 0 r; Some (- n) end
      else from_str_radix 10 i64_max s
  end.
Definition fmt_i64 (n : Z) : bytes := if n <? 0 then Byte.x2d :: fmt_dec 0 (- n) else fmt_dec 0 n.

(** ** Validity *)
Definition ascii (b : byte) : Prop := bval b < 0x80.
(** Nothing, or the beginning of a character. *)
Definition starts_ok (s : bytes) : Prop := match s with [] => True | b :: _ => is_cont b = false end.
Definition inside (r : Z * Z) : Prop := 0x80 ≤ r.1 ∧ r.2 ≤ 0xBF.
Lemma lead_inside b p : lead b = Some p → Forall inside p.
Proof. unfold lead, inside. cbv zeta. repeat case_match; intros [= <-]; repeat constructor; cbn; lia. Qed.
Lemma ascii_not_cont b : ascii b → is_cont b = false.
Proof. unfold ascii, is_cont. intros A. by rewrite (proj2 (Z.leb_gt _ _)) by lia. Qed.
Lemma lead_ascii b : ascii b → lead b = Some [].
Proof. unfold ascii, lead. intros A. by rewrite (proj2 (Z.ltb_lt _ _)) by lia. Qed.
Lemma utf8_ascii_cons b s : ascii b → utf8 (b :: s) ↔ utf8 s.
Proof. intros A. unfold utf8, utf8_valid. cbn. by rewrite lead_ascii. Qed.
Lemma utf8_ascii s : Forall ascii s → utf8 s.
Proof. induction 1; [done|]. by apply utf8_ascii_cons. Qed.
Lemma utf8_run_app p a b : utf8_run p a = true → utf8_run p (a ++ b) = utf8_run [] b.
Proof.
  revert p. induction a as [|x a IH]; intros p E; cbn in *; [by apply bool_decide_eq_true in E as ->|].
  destruct p as [|[lo hi] p]; [destruct (lead x); [by apply IH|done]|]. apply andb_true_iff in E as [-> E]. by rewrite IH.
Qed.
Lemma utf8_app a b : utf8 a → utf8 b → utf8 (a ++ b).
Proof. unfold utf8, utf8_valid. intros A B. by rewrite utf8_run_app. Qed.
Lemma utf8_run_split p a b :
  Forall inside p → starts_ok b → utf8_run p (a ++ b) = true → utf8_run p a = true ∧ utf8_run [] b = true.
Proof.
  revert p. induction a as [|x a IH]; intros p Fp Sb E; cbn [app utf8_run] in *.
  - destruct p as [|[lo hi] p]; [done|]. destruct b as [|y b]; cbn in *; [done|]. apply Forall_cons in Fp as [[L H] _]. cbn in *.
    unfold is_cont in Sb. rewrite !andb_true_iff in E. lia.
  - destruct p as [|[lo hi] p].
    + destruct (lead x) as [p|] eqn:Lx; [|done]. apply IH; [by eapply lead_inside|done|done].
    + apply Forall_cons in Fp as [_ Fp]. apply andb_true_iff in E as [-> E]. by apply IH.
Qed.
Lemma utf8_split a b : starts_ok b → utf8 (a ++ b) → utf8 a ∧ utf8 b.
Proof. intros Sb U. by apply utf8_run_split. Qed.
Lemma utf8_starts s : utf8 s → starts_ok s.
Proof.
  destruct s as [|b s]; [done|]. unfold utf8, utf8_valid. cbn. unfold lead, is_cont. cbv zeta.
  repeat case_match; try done; intros _; zbool; lia.
Qed.
Lemma starts_app a b : utf8 a → starts_ok b → starts_ok (a ++ b).
Proof. destruct a; [done|]. intros U _. by apply utf8_starts in U. Qed.
Create HintDb utf8.
#[export] Hint Resolve utf8_app utf8_starts starts_app ascii_not_cont : utf8.

(** ** Slices *)
Lemma boundary_app a b : starts_ok b → is_char_boundary (a ++ b) (length a) = true.
Proof.
  intros Sb. unfold is_char_boundary. destruct b as [|y b]; cbn in Sb.
  - rewrite app_nil_r, lookup_ge_None_2 by lia. apply Nat.eqb_refl.
  - rewrite list_lookup_middle by done. by rewrite Sb, orb_true_r.
Qed.
Lemma str_slice_mid {E} a b c :
  starts_ok (b ++ c) → starts_ok c → str_slice (E := E) (a ++ b ++ c) (length a) (length a + length b) = Ok b.
Proof.
  intros S1 S2. unfold str_slice. rewrite (proj2 (Nat.leb_le _ _)) by lia. rewrite boundary_app by done.
  replace (length a + length b)%nat with (length (a ++ b)) by by rewrite length_app. rewrite app_assoc, boundary_app by done.
  cbn [andb]. rewrite <-app_assoc, drop_app_length, length_app. replace (length a + length b - length a)%nat with (length b) by lia.
  by rewrite take_app_length.
Qed.
Lemma str_slice_tail {E} a b : starts_ok b → str_slice (E := E) (a ++ b) (length a) (length (a ++ b)) = Ok b.
Proof.
  intros Sb. rewrite length_app. rewrite <-(app_nil_r b) at 1. apply str_slice_mid; [by rewrite app_nil_r|done].
Qed.
