(* ===== verification/RestScan.v ===== *)
(** * RestScan: the cursor of the query grammars (crates/zou-rest/src/scan.rs)

    The byte cursor, the errors with their positions and expectations, bare
    and quoted names, json arrow paths, and the escaping that renders them
    back. *)
From S2P Require Import Prelude Order Text Utf8.

(** ** Errors *)
Inductive Found := FEnd | FToken (c : bytes) | FLeftover (c : bytes).
Record Error := mkError { e_found : Found; e_expecting : list bytes; e_at : nat }.
(** [Failure]: [what] failed on [input]. *)
Record Failure := mkFailure { fl_what : bytes; fl_input : bytes; fl_skew : nat; fl_error : Error }.
#[global] Instance Found_eq_dec : EqDecision Found.
Proof. solve_decision. Defined.
#[global] Instance Error_eq_dec : EqDecision Error.
Proof. solve_decision. Defined.
#[global] Instance Failure_eq_dec : EqDecision Failure.
Proof. solve_decision. Defined.

(** The characters the grammars give a meaning. *)
Definition QUOTE : byte := Byte.x22.
Definition LPAREN : byte := Byte.x28.
Definition RPAREN : byte := Byte.x29.
Definition COMMA_ : byte := Byte.x2c.
Definition DASH : byte := Byte.x2d.
Definition DOT : byte := Byte.x2e.
Definition COLON : byte := Byte.x3a.
Definition BANG : byte := Byte.x21.
Definition GT : byte := Byte.x3e.
Definition BACKSLASH : byte := Byte.x5c.
Definition LBRACE : byte := Byte.x7b.
Definition RBRACE : byte := Byte.x7d.

Definition word (s : bytes) : bytes := QUOTE :: s ++ [QUOTE].
Definition FIELD_NAME : bytes := str "field name (" ++ str "* or [a..z0..9_$])".
Definition JSON_KEY : bytes := str "any non reserved character different from: .,>()".
Definition DELIMITER : bytes := str "delimiter (.)".
Definition END : bytes := str "end of input".
Definition DIGIT : bytes := str "digit".

(** [Display for Found] *)
Definition found_fmt (f : Found) : bytes :=
  match f with
  | FEnd => str "end of input"
  | FToken c => QUOTE :: c ++ [QUOTE]
  | FLeftover c => str "'" ++ c ++ str "'"
  end.
(** [Error::label] *)
Definition label (e : Error) (start : nat) (expecting : list bytes) : Error :=
  if (e_at e =? start)%nat then mkError (e_found e) expecting (e_at e) else e.
(** [Display for Error]: what was wanted, each once, as a list. *)
Fixpoint dedup (seen wants : list bytes) : list bytes :=
  match wants with
  | [] => seen
  | w :: wants => dedup (if bool_decide (w ∈ seen) then seen else seen ++ [w]) wants
  end.
Fixpoint list_wants (i n : nat) (wants : list bytes) : bytes :=
  match wants with
  | [] => []
  | w :: wants =>
      (match i with
       | O => str " expecting "
       | _ => if (i + 1 =? n)%nat then str " or " else str ", "
       end) ++ w ++ list_wants (S i) n wants
  end.
Definition error_fmt (e : Error) : bytes :=
  let seen := dedup [] (e_expecting e) in
  str "unexpected " ++ found_fmt (e_found e) ++ list_wants 0 (length seen) seen.
(** [Display for Failure] *)
Definition failure_fmt (f : Failure) : bytes :=
  str "failed to parse " ++ fl_what f ++ str " (" ++ fl_input f ++ str "): " ++ error_fmt (fl_error f).

(** ** The cursor *)
Record Cur := mkCur { c_s : bytes; c_pos : nat }.
Definition cur_new (s : bytes) : Cur := mkCur s 0.
(** The bytes not read yet. *)
Definition rest (cur : Cur) : bytes := drop (c_pos cur) (c_s cur).
Definition seek (pos : nat) (cur : Cur) : Cur := mkCur (c_s cur) pos.
Definition peek (cur : Cur) : option byte := c_s cur !! c_pos cur.
Definition bump (cur : Cur) : Cur := seek (S (c_pos cur)) cur.
Definition cur_done (cur : Cur) : bool := (length (c_s cur) <=? c_pos cur)%nat.
Definition at_byte (b : byte) (cur : Cur) : bool := bool_decide (peek cur = Some b).
Definition eat (b : byte) (cur : Cur) : bool * Cur := if at_byte b cur then (true, bump cur) else (false, cur).
Definition starts (cur : Cur) (w : bytes) : bool := starts_with (rest cur) w.
Definition eat_str (w : bytes) (cur : Cur) : bool * Cur :=
  if starts cur w then (true, seek (c_pos cur + length w) cur) else (false, cur).
Fixpoint blanks (s : bytes) : nat := match s with b :: s => if is_blank b then S (blanks s) else O | [] => O end.
Definition skip_spaces (cur : Cur) : Cur := seek (c_pos cur + blanks (rest cur)) cur.
Definition skip_spaces_before (b : byte) (cur : Cur) : Cur :=
  let at_ := (c_pos cur + blanks (rest cur))%nat in
  if bool_decide (c_s cur !! at_ = Some b) then seek at_ cur else cur.

(** A parser takes the cursor on; after an error only the place it started
    at is of use. *)
Abbreviation parser A := (Cur → res Error (A * Cur)).

Definition found (cur : Cur) (at_ : nat) : res Error Found :=
  tail_ ← str_slice (c_s cur) (at_ `min` length (c_s cur)) (length (c_s cur));
  mret (match first_char tail_ with None => FEnd | Some c => FToken c end).
Definition err_at {A} (cur : Cur) (at_ : nat) (expecting : list bytes) : res Error A :=
  f ← found cur at_; Err (mkError f expecting at_).
Definition err {A} (cur : Cur) (expecting : list bytes) : res Error A := err_at cur (c_pos cur) expecting.
(** How far the alternatives get. *)
Fixpoint common (a b : bytes) : nat :=
  match a, b with x :: a, y :: b => if decide (x = y) then S (common a b) else O | _, _ => O end.
Definition reach (rest_ : bytes) (words : list bytes) : nat := foldr (λ w n, common w rest_ `max` n)%nat O words.
Definition err_word {A} (cur : Cur) (at_ : nat) (words expecting : list bytes) : res Error A :=
  tail_ ← str_slice (c_s cur) (at_ `min` length (c_s cur)) (length (c_s cur));
  first ← (match words with [] => Panic | w :: _ => Ok [w] end);
  f ← found cur (at_ + reach tail_ first);
  Err (mkError f expecting at_).
Definition err_ci_word {A} (cur : Cur) (at_ : nat) (words expecting : list bytes) : res Error A :=
  tail_ ← str_slice (c_s cur) (at_ `min` length (c_s cur)) (length (c_s cur));
  err_at cur (at_ + reach (to_ascii_lowercase tail_) words) expecting.
Definition leftover {A} (cur : Cur) (expecting : list bytes) : res Error A :=
  f ← found cur (c_pos cur);
  Err (mkError (match f with FToken c => FLeftover c | f => f end) expecting (c_pos cur)).
Definition expect_as (b : byte) (expecting : list bytes) : parser () := λ cur,
  let '(eaten, cur) := eat b cur in if eaten then mret ((), cur) else err cur expecting.
Definition cur_expect (b : byte) : parser () := expect_as b [word [b]].
Definition take_rest (cur : Cur) : res Error (bytes * Cur) :=
  out ← str_slice (c_s cur) (c_pos cur) (length (c_s cur)); mret (out, seek (length (c_s cur)) cur).

(** ** Names *)
Definition ARROW : bytes := str "->".
Fixpoint name_len (brk : byte → bool) (s : bytes) : nat :=
  match s with
  | [] => O
  | b :: r => if brk b || (bool_decide (b = DASH) && starts_with s ARROW) then O else S (name_len brk r)
  end.
Definition scan_name (brk : byte → bool) : parser bytes := λ cur,
  let pos := (c_pos cur + name_len brk (rest cur))%nat in
  name ← str_slice (c_s cur) (c_pos cur) pos; mret (name, seek pos cur).
(** The loop of [scan_quoted]: the position it failed at, or what was read
    and the position after the closing quote. *)
Fixpoint quoted_loop (s out : bytes) (pos : nat) : nat + bytes * nat :=
  match s with
  | [] => inl pos
  | b :: s =>
      if decide (b = QUOTE) then inr (out, S pos)
      else if decide (b = BACKSLASH) then
        match s with [] => inl (S pos) | c :: s => quoted_loop s (out ++ [c]) (S (S pos)) end
      else quoted_loop s (out ++ [b]) (S pos)
  end.
Definition scan_quoted : parser bytes := λ cur,
  '(_, cur) ← cur_expect QUOTE cur;
  match quoted_loop (rest cur) [] (c_pos cur) with
  | inl pos => err (seek pos cur) [word [QUOTE]]
  | inr (out, pos) => if utf8_valid out then mret (out, seek pos cur) else Panic
  end.

(** ** Json paths *)
Inductive JsonKey := JName (n : bytes) | JIndex (i : Z).
Record JsonStep := mkStep { js_text : bool; js_key : JsonKey }.
#[global] Instance JsonKey_eq_dec : EqDecision JsonKey.
Proof. solve_decision. Defined.
#[global] Instance JsonStep_eq_dec : EqDecision JsonStep.
Proof. solve_decision. Defined.

Definition json_key_break (b : byte) : bool := bool_decide (b ∈ [LPAREN; RPAREN; COLON; DOT; COMMA_; GT]).
Fixpoint digits_len (s : bytes) : nat := match s with b :: s => if is_digit b then S (digits_len s) else O | [] => O end.
(** What may follow an index. *)
Definition index_ends (s : bytes) : bool :=
  bool_decide (s = []) || starts_with s ARROW || starts_with s (str "::") || starts_with s (str ".") || starts_with s (str ",").
Definition json_index (cur : Cur) : res Error (option (Z * Cur)) :=
  let sign := if at_byte DASH cur then 1%nat else 0%nat in
  let digits := (c_pos cur + sign)%nat in
  let at_ := (digits + digits_len (drop digits (c_s cur)))%nat in
  if (at_ =? digits)%nat then mret None
  else
    tail_ ← str_slice (c_s cur) at_ (length (c_s cur));
    if negb (index_ends tail_) then mret None
    else
      text ← str_slice (c_s cur) (c_pos cur) at_;
      mret (match parse_i64 text with Some n => Some (n, seek at_ cur) | None => None end).
(** The pieces of a bare key, each trimmed. *)
Fixpoint piece_len (s : bytes) : nat :=
  match s with
  | b :: s => if json_key_break b || bool_decide (b = DASH) then O else S (piece_len s)
  | [] => O
  end.
Fixpoint key_loop (fuel : nat) (parts : list bytes) (cur : Cur) : res Error (JsonKey * Cur) :=
  match fuel with
  | O => Panic
  | S fuel =>
      let start := c_pos cur in
      let cur := seek (start + piece_len (rest cur)) cur in
      if (c_pos cur =? start)%nat then
        match parts with
        | [] => err cur [word [DASH]; DIGIT; JSON_KEY]
        | _ => err cur []
        end
      else
        piece ← str_slice (c_s cur) start (c_pos cur);
        let parts := parts ++ [trim piece] in
        if at_byte DASH cur && negb (starts cur ARROW) then key_loop fuel parts (bump cur)
        else mret (JName (join [DASH] parts), cur)
  end.
Definition parse_json_key : parser JsonKey := λ cur,
  found_index ← json_index cur;
  match found_index with
  | Some (n, cur) => mret (JIndex n, cur)
  | None =>
      if at_byte DASH cur then
        let digits := S (c_pos cur) in
        let at_ := (digits + digits_len (drop digits (c_s cur)))%nat in
        if (at_ =? digits)%nat then err_at cur digits [DIGIT]
        else err_at cur at_ [DIGIT; word ARROW; word (str "::"); word [DOT]; word [COMMA_]; END]
      else if at_byte QUOTE cur then
        '(n, cur) ← scan_quoted cur; mret (JName n, cur)
      else key_loop (S (length (rest cur))) [] cur
  end.
Fixpoint path_loop (fuel : nat) (path : list JsonStep) (cur : Cur) : res Error (list JsonStep * Cur) :=
  match fuel with
  | O => Panic
  | S fuel =>
      let '(arrow, cur) := eat_str ARROW cur in
      if arrow then
        let '(text, cur) := eat GT cur in
        '(key, cur) ← parse_json_key cur;
        path_loop fuel (path ++ [mkStep text key]) cur
      else mret (path, cur)
  end.
Definition parse_json_path : parser (list JsonStep) := λ cur, path_loop (S (length (rest cur))) [] cur.

(** ** Rendering *)
Definition key_needs_quotes (s : bytes) : bool :=
  existsb (λ b, json_key_break b || bool_decide (b = QUOTE) || bool_decide (b = BACKSLASH)) s ||
  existsb (λ p, bool_decide (p = []) || negb (bool_decide (trim p = p))) (split DASH s) ||
  forallb is_digit s.
Fixpoint escape (s : bytes) : bytes :=
  match s with
  | [] => []
  | b :: s => (if bool_decide (b = QUOTE) || bool_decide (b = BACKSLASH) then [BACKSLASH; b] else [b]) ++ escape s
  end.
Definition write_escaped (s : bytes) : bytes := QUOTE :: escape s ++ [QUOTE].
Definition fmt_key (k : JsonKey) : bytes :=
  match k with
  | JName n => if key_needs_quotes n then write_escaped n else n
  | JIndex i => fmt_i64 i
  end.
Definition fmt_step (s : JsonStep) : bytes := ARROW ++ (if js_text s then [GT] else []) ++ fmt_key (js_key s).
Definition fmt_path (path : list JsonStep) : bytes := concat (fmt_step <$> path).
