(* ===== verification/RestScanProofs.v ===== *)
(** * RestScanProofs: what the scanners take and leave

    For each scanner two facts: on any string it takes a prefix and leaves
    the cursor between characters, never panicking; and it reads back what
    the renderer wrote. *)
From S2P Require Import Prelude Order Text Utf8 RestScan.

(** ** A cursor between what was read and what was not *)
Definition C (pre suf : bytes) : Cur := mkCur (pre ++ suf) (length pre).
Lemma cur_new_C s : cur_new s = C [] s.
Proof. done. Qed.
Lemma rest_C pre suf : rest (C pre suf) = suf.
Proof. unfold rest. cbn. apply drop_app_length. Qed.
Lemma peek_C pre suf : peek (C pre suf) = head suf.
Proof. unfold peek. cbn. destruct suf; [rewrite app_nil_r; apply lookup_ge_None_2; lia|by apply list_lookup_middle]. Qed.
Lemma seek_C pre a b : seek (length pre + length a) (C pre (a ++ b)) = C (pre ++ a) b.
Proof. unfold seek, C. cbn. by rewrite <-app_assoc, length_app. Qed.
Lemma seek_here pre suf : seek (length pre) (C pre suf) = C pre suf.
Proof. done. Qed.
Lemma bump_C pre b s : bump (C pre (b :: s)) = C (pre ++ [b]) s.
Proof. unfold bump. change (b :: s) with ([b] ++ s). rewrite <-seek_C. f_equal. cbn. lia. Qed.
Lemma at_byte_C b pre suf : at_byte b (C pre suf) = bool_decide (head suf = Some b).
Proof. unfold at_byte. by rewrite peek_C. Qed.
Lemma starts_C pre suf w : starts (C pre suf) w = starts_with suf w.
Proof. unfold starts. by rewrite rest_C. Qed.
Lemma cur_done_C pre suf : cur_done (C pre suf) = bool_decide (suf = []).
Proof.
  unfold cur_done, C. cbn [c_s c_pos]. rewrite length_app. case_bool_decide as E; [subst; apply Nat.leb_le; cbn; lia|].
  apply Nat.leb_gt. destruct suf; cbn; [done|lia].
Qed.
Lemma eat_yes b pre suf : eat b (C pre (b :: suf)) = (true, C (pre ++ [b]) suf).
Proof. unfold eat. rewrite at_byte_C, bool_decide_true by done. by rewrite bump_C. Qed.
Lemma eat_no b pre suf : head suf ≠ Some b → eat b (C pre suf) = (false, C pre suf).
Proof. intros N. unfold eat. by rewrite at_byte_C, bool_decide_false. Qed.
Lemma eat_str_yes w pre suf : eat_str w (C pre (w ++ suf)) = (true, C (pre ++ w) suf).
Proof. unfold eat_str. rewrite starts_C, starts_with_app. f_equal. apply seek_C. Qed.
Lemma eat_str_no w pre suf : starts_with suf w = false → eat_str w (C pre suf) = (false, C pre suf).
Proof. intros N. unfold eat_str. by rewrite starts_C, N. Qed.
Lemma starts_with_inv s w : starts_with s w = true → ∃ r, s = w ++ r.
Proof. unfold starts_with. destruct (strip_prefix w s) eqn:E; [|done]. intros _. apply strip_prefix_inv in E. eauto. Qed.
Lemma expect_as_yes b wants pre suf : expect_as b wants (C pre (b :: suf)) = Ok ((), C (pre ++ [b]) suf).
Proof. unfold expect_as. by rewrite eat_yes. Qed.
Lemma blanks_0 s : from_option is_blank false (head s) = false → blanks s = 0%nat.
Proof. destruct s as [|b s]; [done|]. cbn. by intros ->. Qed.
Lemma skip_spaces_none pre suf : from_option is_blank false (head suf) = false → skip_spaces (C pre suf) = C pre suf.
Proof. intros N. unfold skip_spaces. rewrite rest_C, blanks_0 by done. unfold seek, C. cbn. by rewrite Nat.add_0_r. Qed.

(** ** What a scanner does with any string *)
(** It fails, or takes a prefix that ends between characters; it does not
    panic. *)
Definition spec {A} (r : res Error (A * Cur)) (pre suf : bytes) (Q : A → bytes → bytes → Prop) : Prop :=
  match r with
  | Ok (v, c) => ∃ used left, suf = used ++ left ∧ c = C (pre ++ used) left ∧ utf8 used ∧ utf8 left ∧ Q v used left
  | Err _ => True
  | Panic => False
  end.
Definition fails {A} (r : res Error A) : Prop := match r with Err _ => True | _ => False end.
Lemma fails_spec {A} (r : res Error (A * Cur)) pre suf Q : fails r → spec r pre suf Q.
Proof. by destruct r. Qed.
Lemma fails_bind {A B} (r : res Error A) (k : A → res Error B) : fails r → fails (r ≫= k).
Proof. by destruct r. Qed.
Lemma spec_ret {A} (v : A) pre suf (Q : A → bytes → bytes → Prop) : utf8 suf → Q v [] suf → spec (Ok (v, C pre suf)) pre suf Q.
Proof. intros U q. exists [], suf. by rewrite app_nil_r. Qed.
Lemma spec_mono {A} (r : res Error (A * Cur)) pre suf (Q R : A → bytes → bytes → Prop) :
  spec r pre suf Q → (∀ v used left, suf = used ++ left → utf8 used → utf8 left → Q v used left → R v used left) → spec r pre suf R.
Proof. destruct r as [[v c]| |]; [|done..]. intros (used & left & -> & -> & U1 & U2 & q) Im. exists used, left. split_and!; auto. Qed.
Lemma spec_bind {A B} (r : res Error (A * Cur)) (k : A * Cur → res Error (B * Cur)) pre suf Q R :
  spec r pre suf Q →
  (∀ v used left, suf = used ++ left → utf8 used → utf8 left → Q v used left →
     spec (k (v, C (pre ++ used) left)) (pre ++ used) left (λ x used2 left2, R x (used ++ used2) left2)) →
  spec (r ≫= k) pre suf R.
Proof.
  destruct r as [[v c]| |]; [|done..]. intros (used & left & -> & -> & U1 & U2 & q) K. cbn.
  specialize (K v used left eq_refl U1 U2 q). destruct (k (v, C (pre ++ used) left)) as [[x c2]| |]; [|done..].
  destruct K as (used2 & left2 & -> & -> & V1 & V2 & qx). exists (used ++ used2), left2. rewrite <-!app_assoc.
  split_and!; [done|done|by apply utf8_app|done|done].
Qed.
(** Going on after some was taken already. *)
Lemma spec_skip {A} (r : res Error (A * Cur)) pre used left (Q : A → bytes → bytes → Prop) :
  utf8 used → spec r (pre ++ used) left (λ v used2 left2, Q v (used ++ used2) left2) → spec r pre (used ++ left) Q.
Proof.
  intros U. destruct r as [[v c]| |]; [|done..]. intros (u2 & l2 & -> & -> & V1 & V2 & q). exists (used ++ u2), l2.
  rewrite <-!app_assoc. split_and!; [done|done|by apply utf8_app|done|done].
Qed.

Lemma found_C pre a b : starts_ok b → ∃ f, found (C pre (a ++ b)) (length pre + length a) = Ok f.
Proof.
  intros Sb. unfold found. cbn [c_s C]. rewrite app_assoc. replace (length pre + length a)%nat with (length (pre ++ a)) by by rewrite length_app.
  rewrite Nat.min_l by (rewrite !length_app; lia). rewrite str_slice_tail by done. by eexists.
Qed.
Lemma err_at_fails {A} pre a b wants : starts_ok b → fails (err_at (A := A) (C pre (a ++ b)) (length pre + length a) wants).
Proof. intros Sb. unfold err_at. by destruct (found_C pre a b Sb) as [f ->]. Qed.
Lemma err_fails {A} pre suf wants : starts_ok suf → fails (err (A := A) (C pre suf) wants).
Proof. intros Sb. unfold err. pose proof (err_at_fails (A := A) pre [] suf wants Sb) as F. cbn in *. by rewrite Nat.add_0_r in F. Qed.
Lemma leftover_fails {A} pre suf wants : starts_ok suf → fails (leftover (A := A) (C pre suf) wants).
Proof.
  intros Sb. unfold leftover. destruct (found_C pre [] suf Sb) as [f E]. cbn in *. rewrite Nat.add_0_r in E. by rewrite E.
Qed.
Lemma expect_as_spec b wants pre suf :
  ascii b → utf8 suf → spec (expect_as b wants (C pre suf)) pre suf (λ _ used left, used = [b]).
Proof.
  intros A U. unfold expect_as. destruct suf as [|c s].
  - rewrite eat_no by done. apply fails_spec, err_fails. done.
  - destruct (decide (c = b)) as [-> |N].
    + rewrite eat_yes. exists [b], s. split_and!; try done; [by apply utf8_ascii; constructor|by eapply utf8_ascii_cons].
    + rewrite eat_no by (cbn; congruence). apply fails_spec, err_fails. by apply utf8_starts.
Qed.

(** ** Bare names *)
(** A name that can be scanned bare, and where a bare name stops. *)
Definition clean (brk : byte → bool) (n : bytes) : Prop := Forall (λ b, brk b = false) n ∧ contains n ARROW = false.
Definition name_stop (brk : byte → bool) (s : bytes) : Prop :=
  head s ≠ Some GT ∧ match s with [] => True | b :: _ => brk b = true ∨ starts_with s ARROW = true end.
Definition ascii_breaks (brk : byte → bool) : Prop := ∀ b, brk b = true → ascii b.
Lemma starts_arrow b s : starts_with (b :: s) ARROW = bool_decide (b = DASH) && bool_decide (head s = Some GT).
Proof.
  unfold starts_with, ARROW. cbn. destruct (decide (Byte.x2d = b)) as [<- |N].
  - rewrite bool_decide_true by done. destruct s as [|c s]; [done|]. cbn. destruct (decide (Byte.x3e = c)) as [<- |Nc].
    + by rewrite bool_decide_true.
    + rewrite bool_decide_false; [done|]. intros [= ->]. by apply Nc.
  - rewrite bool_decide_false; [done|]. intros ->. by apply N.
Qed.
Lemma contains_cons b s w : contains (b :: s) w = starts_with (b :: s) w || contains s w.
Proof. done. Qed.
Lemma name_len_app brk n s : clean brk n → name_stop brk s → name_len brk (n ++ s) = length n.
Proof.
  induction n as [|b n IH]; intros [F Co] [Ng St]; cbn [app length].
  - destruct s as [|c s]; [done|]. cbn [name_len]. destruct St as [-> |E]; [done|]. rewrite E.
    rewrite starts_arrow in E. apply andb_true_iff in E as [-> _]. by rewrite orb_true_r.
  - apply Forall_cons in F as [Fb F]. rewrite contains_cons in Co. apply orb_false_iff in Co as [Cb Co]. cbn [name_len]. rewrite Fb.
    assert (starts_with (b :: n ++ s) ARROW = false) as ->.
    { rewrite starts_arrow in *. destruct n as [|c n]; [|done]. cbn [app]. apply andb_false_iff. right. by apply bool_decide_eq_false. }
    rewrite andb_false_r. cbn [orb]. by rewrite IH.
Qed.
Lemma clean_nil brk : clean brk [].
Proof. by split; [constructor|]. Qed.
Lemma name_len_spec brk s :
  ∃ n l, s = n ++ l ∧ name_len brk s = length n ∧ clean brk n ∧ (match l with [] => True | b :: _ => brk b = true ∨ starts_with l ARROW = true end).
Proof.
  induction s as [|b s (n & l & -> & E & [F Co] & St)]; [by exists [], []|]. cbn [name_len].
  destruct (brk b) eqn:Bb; [exists [], (b :: n ++ l); split_and!; [done|done|apply clean_nil|by left]|]. cbn [orb].
  destruct (starts_with (b :: n ++ l) ARROW) eqn:Ar.
  - pose proof Ar as Ar'. rewrite starts_arrow in Ar'. apply andb_true_iff in Ar' as [-> _]. exists [], (b :: n ++ l). split_and!; [done|done|apply clean_nil|by right].
  - rewrite andb_false_r. exists (b :: n), l. split_and!; [done|by rewrite E| |done]. split; [by constructor|].
    rewrite contains_cons, Co, orb_false_r. rewrite starts_arrow in *. destruct n as [|c n]; [|done]. cbn. apply andb_false_r.
Qed.
Lemma arrow_starts_ok s : starts_with s ARROW = true → starts_ok s.
Proof. intros [r ->]%starts_with_inv. done. Qed.
Lemma scan_name_spec brk pre suf :
  ascii_breaks brk → utf8 suf →
  ∃ n l, suf = n ++ l ∧ scan_name brk (C pre suf) = Ok (n, C (pre ++ n) l) ∧ utf8 n ∧ utf8 l ∧ clean brk n ∧
    match l with [] => True | b :: _ => brk b = true ∨ starts_with l ARROW = true end.
Proof.
  intros As U. destruct (name_len_spec brk suf) as (n & l & -> & E & Cl & St).
  assert (Sl : starts_ok l).
  { destruct l as [|b l]; [done|]. destruct St as [Hb|Ar]; [by apply ascii_not_cont, As|by apply arrow_starts_ok]. }
  destruct (utf8_split _ _ Sl U) as [Un Ul]. exists n, l. split_and!; try done. unfold scan_name. rewrite rest_C, E. cbn [c_pos C c_s].
  rewrite str_slice_mid by (done || by apply utf8_starts). cbn. f_equal. f_equal. apply seek_C.
Qed.
Lemma scan_name_app brk pre n suf :
  clean brk n → utf8 n → name_stop brk suf → starts_ok suf → scan_name brk (C pre (n ++ suf)) = Ok (n, C (pre ++ n) suf).
Proof.
  intros Cl U St Ss. unfold scan_name. rewrite rest_C, name_len_app by done. cbn [c_pos C c_s].
  rewrite str_slice_mid by (done || by apply starts_app). cbn. f_equal. f_equal. apply seek_C.
Qed.

(** ** Quoted names *)
(** Where the loop over [s] from [pos] may end. *)
Definition quoted_post (s : bytes) (pos : nat) (r : nat + bytes * nat) : Prop :=
  match r with
  | inl q => q = (pos + length s)%nat
  | inr (o, q) => ∃ a b, s = a ++ b ∧ q = (pos + length a)%nat ∧ utf8 o ∧ starts_ok b
  end.
Lemma quoted_post_shift used s pos r : quoted_post s (pos + length used) r → quoted_post (used ++ s) pos r.
Proof.
  destruct r as [q|[o q]]; cbn; [intros ->; rewrite length_app; lia|]. intros (a & b & -> & -> & Uo & Sb).
  exists (used ++ a), b. rewrite <-app_assoc, length_app. split_and!; [done|lia|done|done].
Qed.
Lemma run_ascii p c r : Forall inside p → ascii c → utf8_run p (c :: r) = true → p = [] ∧ utf8_run [] r = true.
Proof.
  intros Ip Ac Ur. destruct p as [|[lo hi] p]; cbn in Ur; [by rewrite lead_ascii in Ur|].
  apply Forall_cons in Ip as [[L _] _]. cbn in L. unfold ascii in Ac. rewrite !andb_true_iff in Ur. lia.
Qed.
Lemma run_step p c r :
  Forall inside p → utf8_run p (c :: r) = true →
  ∃ p', utf8_run p' r = true ∧ Forall inside p' ∧ ∀ k, utf8_run p (c :: k) = utf8_run p' k.
Proof.
  intros Ip U. destruct p as [|[lo hi] p]; cbn in U.
  - destruct (lead c) as [p'|] eqn:Lc; [|done]. exists p'. split_and!; [done|by eapply lead_inside|]. intros k. cbn. by rewrite Lc.
  - apply andb_true_iff in U as [Rg U]. exists p. split_and!; [done|by apply Forall_cons in Ip as [_ Ip]|]. intros k. cbn. by rewrite Rg.
Qed.
(** The state of the decoder in [s] is the one after [out]. *)
Lemma quoted_loop_spec n p s out pos :
  (length s ≤ n)%nat → utf8_run p s = true → (∀ k, utf8_run [] (out ++ k) = utf8_run p k) → Forall inside p →
  quoted_post s pos (quoted_loop s out pos).
Proof.
  revert p s out pos. induction n as [|n IH]; intros p s out pos Ln U O Ip.
  { destruct s; [|cbn in Ln; lia]. cbn. lia. }
  destruct s as [|b s]; [cbn; lia|]. cbn [quoted_loop length] in *.
  assert (Step : ∀ p c r q, (∀ k, utf8_run [] (out ++ k) = utf8_run p k) → Forall inside p → utf8_run p (c :: r) = true →
    (length r ≤ n)%nat → quoted_post r q (quoted_loop r (out ++ [c]) q)).
  { clear p O Ip U. intros p c r q O Ip U Lr. destruct (run_step p c r Ip U) as (p' & U' & Ip' & E). apply (IH p'); [done|done| |done].
    intros k. rewrite <-app_assoc, O. apply E. }
  destruct (decide (b = QUOTE)) as [-> |Nq].
  - destruct (run_ascii p QUOTE s Ip ltac:(done) U) as [-> Us]. exists [QUOTE], s. split_and!; [done|cbn; lia| |by apply utf8_starts].
    unfold utf8, utf8_valid. rewrite <-(app_nil_r out), O. done.
  - destruct (decide (b = BACKSLASH)) as [-> |Nb].
    + destruct (run_ascii p BACKSLASH s Ip ltac:(done) U) as [-> Us]. destruct s as [|c s]; [cbn; lia|].
      apply (quoted_post_shift [BACKSLASH; c]). cbn [length]. replace (pos + 2)%nat with (S (S pos)) by lia.
      eapply Step; [done|done|done|cbn in Ln; lia].
    + apply (quoted_post_shift [b]). cbn [length]. replace (pos + 1)%nat with (S pos) by lia. eapply Step; [done|done|done|lia].
Qed.
Lemma scan_quoted_spec pre suf : utf8 suf → spec (scan_quoted (C pre suf)) pre suf (λ v used _, utf8 v ∧ used ≠ []).
Proof.
  intros U. unfold scan_quoted. eapply spec_bind; [by apply expect_as_spec|]. intros [] used left -> Uu Ul ->. rewrite rest_C.
  pose proof (quoted_loop_spec (length left) [] left [] (length (pre ++ [QUOTE])) ltac:(done) Ul ltac:(done) ltac:(done)) as Sp.
  change (c_pos (C (pre ++ [QUOTE]) left)) with (length (pre ++ [QUOTE])). destruct (quoted_loop _ _ _) as [q|[o q]]; cbn in Sp.
  - subst q. apply fails_spec. rewrite <-(app_nil_r left) at 2. rewrite seek_C. by apply err_fails.
  - destruct Sp as (a & b & -> & -> & Uo & Sb). unfold utf8 in Uo. rewrite Uo, seek_C. destruct (utf8_split _ _ Sb Ul) as [Ua Ub].
    by exists a, b.
Qed.
Lemma quoted_loop_escape n suf out pos :
  quoted_loop (escape n ++ QUOTE :: suf) out pos = inr (out ++ n, (pos + length (escape n ++ [QUOTE]))%nat).
Proof.
  revert out pos. induction n as [|b n IH]; intros out pos; cbn [escape app].
  - cbn. by rewrite app_nil_r, Nat.add_1_r.
  - destruct (bool_decide (b = QUOTE) || bool_decide (b = BACKSLASH)) eqn:E; cbn [app quoted_loop].
    + rewrite IH, <-app_assoc. cbn. f_equal. f_equal. lia.
    + apply orb_false_iff in E as [E1%bool_decide_eq_false E2%bool_decide_eq_false]. rewrite !decide_False by done.
      rewrite IH, <-app_assoc. cbn. f_equal. f_equal. lia.
Qed.
Lemma scan_quoted_app pre n suf :
  utf8 n → scan_quoted (C pre (write_escaped n ++ suf)) = Ok (n, C (pre ++ write_escaped n) suf).
Proof.
  intros U. unfold scan_quoted, write_escaped. cbn [app]. rewrite <-app_assoc. cbn [app]. unfold cur_expect.
  rewrite expect_as_yes, bind_run, rest_C, quoted_loop_escape. cbn [app]. unfold utf8 in U. rewrite U.
  cbn [c_pos C]. change (QUOTE :: suf) with ([QUOTE] ++ suf). rewrite app_assoc, seek_C, <-app_assoc. done.
Qed.

(** ** Trimming and joining *)
Lemma blank_ascii b : is_blank b = true → ascii b.
Proof. unfold is_blank. intros [->%bool_decide_eq_true| ->%bool_decide_eq_true]%orb_true_iff; done. Qed.
Lemma trim_start_spec s : ∃ a, s = a ++ trim_start s ∧ Forall (λ b, is_blank b = true) a.
Proof.
  induction s as [|b s (a & E & F)]; [by exists []|]. cbn. destruct (is_blank b) eqn:B; [|by exists []].
  exists (b :: a). split; [cbn; by rewrite <-E|by constructor].
Qed.
Lemma trim_spec s : ∃ a b, s = a ++ trim s ++ b ∧ Forall (λ b, is_blank b = true) (a ++ b).
Proof.
  destruct (trim_start_spec s) as (a & E & Fa). destruct (trim_start_spec (rev (trim_start s))) as (b & E' & Fb).
  exists a, (rev b). split.
  - rewrite E at 1. f_equal. unfold trim. rewrite <-rev_app_distr, <-E'. by rewrite rev_involutive.
  - apply Forall_app. split; [done|]. by apply Forall_rev.
Qed.
Lemma utf8_drop_ascii a s : Forall ascii a → utf8 (a ++ s) ↔ utf8 s.
Proof. induction 1 as [|x a Hx F IH]; [done|]. cbn. by rewrite utf8_ascii_cons. Qed.
Lemma blanks_ascii a : Forall (λ b, is_blank b = true) a → Forall ascii a.
Proof. intros F. eapply Forall_impl; [exact F|]. apply blank_ascii. Qed.
Lemma ascii_starts s : Forall ascii s → starts_ok s.
Proof. destruct s; [done|]. intros [A _]%Forall_cons. by apply ascii_not_cont. Qed.
Lemma utf8_trim s : utf8 s → utf8 (trim s).
Proof.
  intros U. destruct (trim_spec s) as (a & b & E & [Fa Fb]%Forall_app). rewrite E in U.
  apply utf8_drop_ascii in U; [|by apply blanks_ascii]. apply (utf8_split (trim s) b); [|done]. by apply ascii_starts, blanks_ascii.
Qed.
Lemma utf8_join sep parts : utf8 sep → Forall utf8 parts → utf8 (join sep parts).
Proof.
  intros Us. induction 1 as [|p parts Hp F IH]; [done|]. cbn. destruct parts as [|q parts]; [done|]. by repeat apply utf8_app.
Qed.
Lemma join_cons sep p q parts : join sep (p :: q :: parts) = p ++ sep ++ join sep (q :: parts).
Proof. done. Qed.

(** ** Numbers *)
Definition i64 (n : Z) : Prop := i64_min ≤ n ≤ i64_max.
Lemma digit_ascii b : is_digit b = true → ascii b.
Proof. unfold is_digit, ascii. rewrite andb_true_iff. lia. Qed.
Lemma is_digit_dec d : 0 ≤ d < 10 → is_digit (digit_lower d) = true.
Proof.
  revert d. apply small_digits. intros n Hn. do 10 (destruct n as [|n]; [by vm_compute|]). exfalso. vm_compute in Hn. lia.
Qed.
Lemma fmt_dec_digits n : Forall (λ b, is_digit b = true) (fmt_dec 0 n).
Proof. apply fix_digits_forall; [lia|]. apply is_digit_dec. Qed.
Lemma fmt_dec_nonempty n : 0 ≤ n → ∃ b s, fmt_dec 0 n = b :: s ∧ is_digit b = true.
Proof.
  intros N. pose proof (fmt_dec_digits n) as F. unfold fmt_dec, fmt_radix in *. rewrite Nat.max_0_l in *.
  destruct (ndigits_ok 10 ltac:(lia) n N) as [_ Pos].
  destruct (fix_digits_head digit_lower 10 ltac:(lia) (ndigits 10 n) n N Pos) as (d & s & Hd & E).
  exists (digit_lower d), s. split; [done|by apply is_digit_dec].
Qed.
Lemma parse_digits_bound base max acc s n :
  0 < base → 0 ≤ acc ≤ max → parse_digits base max acc s = Some n → 0 ≤ n ≤ max.
Proof.
  intros Hb. revert acc. induction s as [|b s IH]; intros acc Ha; cbn; [by intros [= <-]|].
  destruct (to_digit base b) as [d|] eqn:D; [|done]. cbn. destruct (_ <=? _) eqn:L; [|done]. zbool. apply IH.
  assert (0 ≤ d) by (unfold to_digit in D; cbv zeta in D; repeat case_match; simplify_eq; lia). nia.
Qed.
Lemma parse_i64_range s n : parse_i64 s = Some n → i64 n.
Proof.
  unfold parse_i64, i64, i64_min, i64_max. destruct s as [|b s]; [done|]. case_decide.
  - destruct s; [done|]. destruct (parse_digits _ _ _ _) as [k|] eqn:E; [|done]. intros [= <-]. apply parse_digits_bound in E; lia.
  - unfold from_str_radix. case_match; [case_match; [done|]|]; intros E; apply parse_digits_bound in E; lia.
Qed.
Lemma parse_i64_fmt n : i64 n → parse_i64 (fmt_i64 n) = Some n.
Proof.
  unfold i64, i64_min, i64_max, fmt_i64. intros N. destruct (n <? 0) eqn:S; zbool.
  - cbn [parse_i64]. rewrite decide_True by done. destruct (fmt_dec_nonempty (- n)) as (b & s & E & _); [lia|].
    pose proof (from_str_fmt digit_lower 10 ltac:(lia) good_dec (2 ^ 63) 0 (- n) ltac:(lia)) as P. unfold fmt_dec in *. rewrite E in *.
    unfold from_str_radix in P. destruct (bval b =? 43) eqn:B.
    + exfalso. assert (is_digit b = true) as Db.
      { pose proof (fmt_dec_digits (- n)) as F. unfold fmt_dec in F. rewrite E in F. by apply Forall_cons in F as [? _]. }
      unfold is_digit in Db. rewrite andb_true_iff in Db. lia.
    + rewrite P. cbn. f_equal. lia.
  - destruct (fmt_dec_nonempty n) as (b & s & E & Db); [lia|].
    pose proof (from_str_fmt digit_lower 10 ltac:(lia) good_dec (2 ^ 63 - 1) 0 n ltac:(lia)) as P. unfold fmt_dec in *. rewrite E in *.
    cbn [parse_i64]. rewrite decide_False; [done|]. intros ->. done.
Qed.
Lemma digits_len_app ds s :
  Forall (λ b, is_digit b = true) ds → from_option is_digit false (head s) = false → digits_len (ds ++ s) = length ds.
Proof. induction 1 as [|b ds Hb F IH]; intros N; cbn; [destruct s; [done|]; cbn in *; by rewrite N|]. by rewrite Hb, IH. Qed.
Lemma digits_len_spec s :
  ∃ ds l, s = ds ++ l ∧ digits_len s = length ds ∧ Forall (λ b, is_digit b = true) ds ∧ from_option is_digit false (head l) = false.
Proof.
  induction s as [|b s (ds & l & -> & E & F & N)]; [by exists [], []|]. cbn. destruct (is_digit b) eqn:D.
  - exists (b :: ds), l. split_and!; [done|cbn; by rewrite E|by constructor|done].
  - by exists [], (b :: ds ++ l).
Qed.

(** ** Json keys *)
Definition key_ok (k : JsonKey) : Prop := match k with JName n => utf8 n | JIndex i => i64 i end.
Definition is_index (k : JsonKey) : bool := match k with JIndex _ => true | _ => false end.
(** An index is followed by what ends one. *)
Definition key_then (k : JsonKey) (left : bytes) : Prop := is_index k = true → index_ends left = true.
Lemma index_ends_head s : index_ends s = true → from_option is_digit false (head s) = false ∧ starts_ok s ∧ head s ≠ Some QUOTE.
Proof.
  unfold index_ends. rewrite !orb_true_iff, bool_decide_eq_true.
  intros [[[[-> |E]|E]|E]|E]; [done|apply starts_with_inv in E as [r ->]; done..].
Qed.
(** The sign, the digits and what is left, as [json_index] sees them. *)
Lemma index_parts pre suf :
  ∃ sg ds l, suf = sg ++ ds ++ l ∧ Forall ascii (sg ++ ds) ∧ Forall (λ b, is_digit b = true) ds ∧
    (if at_byte DASH (C pre suf) then 1%nat else 0%nat) = length sg ∧
    digits_len (drop (length pre + length sg) (pre ++ suf)) = length ds ∧
    sg = (if at_byte DASH (C pre suf) then [DASH] else []).
Proof.
  rewrite at_byte_C. case_bool_decide as D.
  - destruct suf as [|b s]; [done|]. injection D as ->. destruct (digits_len_spec s) as (ds & l & -> & E & F & _).
    exists [DASH], ds, l. split_and!; try done.
    + constructor; [done|]. eapply Forall_impl; [exact F|]. apply digit_ascii.
    + change (DASH :: ds ++ l) with ([DASH] ++ ds ++ l). rewrite app_assoc. rewrite <-length_app, drop_app_length. done.
  - destruct (digits_len_spec suf) as (ds & l & -> & E & F & _). exists [], ds, l. split_and!; try done.
    + eapply Forall_impl; [exact F|]. apply digit_ascii.
    + cbn [length]. by rewrite Nat.add_0_r, drop_app_length.
Qed.
Lemma json_index_spec pre suf :
  utf8 suf →
  match json_index (C pre suf) with
  | Ok None => True
  | Ok (Some (n, c)) => ∃ used left, suf = used ++ left ∧ c = C (pre ++ used) left ∧ utf8 used ∧ utf8 left ∧ i64 n ∧ index_ends left = true
  | _ => False
  end.
Proof.
  intros U. unfold json_index. destruct (index_parts pre suf) as (sg & ds & l & E & Fa & Fd & Es & Ed & _). cbv zeta.
  rewrite Es. cbn [c_pos c_s C]. rewrite Ed. destruct (_ =? _)%nat eqn:Z0; [done|].
  subst suf. rewrite app_assoc in U. pose proof (proj1 (utf8_drop_ascii _ _ Fa) U) as Ul.
  replace (length pre + length sg + length ds)%nat with (length (pre ++ sg ++ ds)) by (rewrite !length_app; lia).
  assert (Sl : str_slice (E := Error) (pre ++ sg ++ ds ++ l) (length (pre ++ sg ++ ds)) (length (pre ++ sg ++ ds ++ l)) = Ok l).
  { replace (pre ++ sg ++ ds ++ l) with ((pre ++ sg ++ ds) ++ l) by by rewrite <-!app_assoc. apply str_slice_tail. by apply utf8_starts. }
  rewrite Sl, bind_run. destruct (index_ends l) eqn:Ie; [|done]. cbn [negb].
  assert (Sm : str_slice (E := Error) (pre ++ sg ++ ds ++ l) (length pre) (length (pre ++ sg ++ ds)) = Ok (sg ++ ds)).
  { rewrite length_app. replace (pre ++ sg ++ ds ++ l) with (pre ++ (sg ++ ds) ++ l) by by rewrite <-!app_assoc.
    apply str_slice_mid; [|by apply utf8_starts]. by apply utf8_starts. }
  rewrite Sm, bind_run. destruct (parse_i64 (sg ++ ds)) as [n|] eqn:P; [|done]. exists (sg ++ ds), l. split_and!; try done.
  - by rewrite <-app_assoc.
  - rewrite length_app. replace (sg ++ ds ++ l) with ((sg ++ ds) ++ l) by by rewrite <-app_assoc. apply seek_C.
  - by apply utf8_ascii.
  - by eapply parse_i64_range.
Qed.
Lemma piece_len_spec s :
  ∃ p l, s = p ++ l ∧ piece_len s = length p ∧ starts_ok l ∧ (match l with [] => True | b :: _ => json_key_break b = true ∨ b = DASH end).
Proof.
  induction s as [|b s (p & l & -> & E & So & St)]; [by exists [], []|]. cbn [piece_len].
  destruct (json_key_break b || bool_decide (b = DASH)) eqn:B.
  - exists [], (b :: p ++ l). apply orb_true_iff in B as [B|B%bool_decide_eq_true].
    + split_and!; [done|done| |by left]. unfold json_key_break in B. apply bool_decide_eq_true in B. cbn.
      repeat (apply elem_of_cons in B as [-> |B]; [done|]). by apply not_elem_of_nil in B.
    + subst b. split_and!; [done|done|done|by right].
  - exists (b :: p), l. split_and!; [done|cbn; by rewrite E|done|done].
Qed.
Lemma key_loop_spec fuel parts pre suf :
  (length suf < fuel)%nat → utf8 suf → Forall utf8 parts →
  spec (key_loop fuel parts (C pre suf)) pre suf (λ k _ _, key_ok k ∧ is_index k = false).
Proof.
  revert parts pre suf. induction fuel as [|fuel IH]; intros parts pre suf Lf U Fp; [lia|]. cbn [key_loop]. rewrite rest_C.
  destruct (piece_len_spec suf) as (p & l & -> & E & So & St). rewrite E. cbn [c_pos C c_s]. rewrite seek_C. cbn [c_pos C].
  destruct (utf8_split _ _ So U) as [Up Ul]. destruct (_ =? _)%nat eqn:Z0; [apply Nat.eqb_eq in Z0|apply Nat.eqb_neq in Z0].
  - assert (p = []) as -> by (apply length_zero_iff_nil; rewrite length_app in Z0; lia).
    apply fails_spec. destruct parts; by apply err_fails.
  - cbn [c_s C]. rewrite <-app_assoc, length_app, str_slice_mid, bind_run by (done || by apply utf8_starts).
    assert (Fp' : Forall utf8 (parts ++ [trim p])) by (apply Forall_app; split; [done|apply Forall_singleton; by apply utf8_trim]).
    apply spec_skip; [done|]. destruct (at_byte DASH (C (pre ++ p) l) && _) eqn:D.
    + apply andb_true_iff in D as [D _]. rewrite at_byte_C in D. apply bool_decide_eq_true in D. destruct l as [|b l]; [done|].
      injection D as ->. rewrite bump_C. apply (spec_skip _ (pre ++ p) [DASH] l); [done|]. apply IH; [|by apply (utf8_ascii_cons DASH l) in Ul|done].
      rewrite length_app in Lf. cbn in Lf. lia.
    + apply spec_ret; [done|]. split; [|done]. cbn. by apply utf8_join.
Qed.
Lemma parse_json_key_spec pre suf :
  utf8 suf → spec (parse_json_key (C pre suf)) pre suf (λ k _ left, key_ok k ∧ key_then k left).
Proof.
  intros U. unfold parse_json_key. pose proof (json_index_spec pre suf U) as Ji.
  destruct (json_index (C pre suf)) as [[[n c]|]| |]; [| |done..]; rewrite bind_run.
  { destruct Ji as (used & left & -> & -> & Uu & Ul & R & Ie). exists used, left. split_and!; try done. by intros _. }
  destruct (at_byte DASH (C pre suf)) eqn:D.
  - destruct (index_parts pre suf) as (sg & ds & l & E & Fa & Fd & Es & Ed & Sg). rewrite D in *. subst sg suf.
    rewrite app_assoc in U. pose proof (proj1 (utf8_drop_ascii _ _ Fa) U) as Ul. cbn [c_pos C c_s].
    replace (S (length pre)) with (length pre + length [DASH])%nat by (cbn; lia). rewrite Ed. apply fails_spec.
    destruct (_ =? _)%nat eqn:Z0; [apply Nat.eqb_eq in Z0|apply Nat.eqb_neq in Z0].
    + assert (ds = []) as -> by (apply length_zero_iff_nil; lia). by apply err_at_fails, utf8_starts.
    + replace (length pre + length [DASH] + length ds)%nat with (length pre + length ([DASH] ++ ds))%nat by (rewrite length_app; lia).
      rewrite app_assoc. by apply err_at_fails, utf8_starts.
  - destruct (at_byte QUOTE (C pre suf)).
    + eapply spec_bind; [by apply scan_quoted_spec|]. intros v used left -> Uu Ul [Uv _]. by apply spec_ret.
    + rewrite rest_C. eapply spec_mono; [apply key_loop_spec; [lia|done|constructor]|]. intros v used left _ _ _ [Ok_ Ni].
      split; [done|]. intros I. congruence.
Qed.

(** ** Json paths *)
Definition path_ok (path : list JsonStep) : Prop := Forall (λ s, key_ok (js_key s)) path.
(** The last step of the path, if it is an index, is followed by what ends
    one. *)
Definition path_then (path : list JsonStep) (left : bytes) : Prop := ∀ s, last path = Some s → key_then (js_key s) left.
Lemma path_loop_spec fuel path pre suf :
  (length suf < fuel)%nat → utf8 suf → path_ok path → path_then path suf →
  spec (path_loop fuel path (C pre suf)) pre suf
    (λ p _ left, path_ok p ∧ path_then p left ∧ starts_with left ARROW = false).
Proof.
  revert path pre suf. induction fuel as [|fuel IH]; intros path pre suf Lf U Ok_ Th; [lia|]. cbn [path_loop].
  destruct (starts_with suf ARROW) eqn:Ar; [|rewrite eat_str_no by done; by apply spec_ret].
  apply starts_with_inv in Ar as [s ->]. rewrite eat_str_yes. cbv beta iota. rewrite length_app in Lf. cbn [length ARROW str] in Lf.
  apply utf8_drop_ascii in U; [|by repeat constructor]. apply spec_skip; [by apply utf8_ascii; repeat constructor|].
  assert (Go : ∀ text pre s, utf8 s → (length s < fuel)%nat → spec ('(key, cur) ← parse_json_key (C pre s); path_loop fuel (path ++ [mkStep text key]) cur) pre s
     (λ p _ left, path_ok p ∧ path_then p left ∧ starts_with left ARROW = false)).
  { clear pre s Lf U Th. intros text pre s U Lf. eapply spec_bind; [by apply parse_json_key_spec|]. intros k used left -> Uu Ul [Kk Kt].
    eapply spec_mono; [apply IH|by auto].
    - rewrite length_app in Lf. lia.
    - done.
    - apply Forall_app. split; [done|]. by apply Forall_singleton.
    - intros st. rewrite last_snoc. intros [= <-]. done. }
  destruct s as [|b s]; [rewrite eat_no by done; apply Go; [done|cbn in *; lia]|]. destruct (decide (b = GT)) as [-> |N].
  - rewrite eat_yes. apply (spec_skip _ (pre ++ ARROW) [GT] s); [done|]. apply Go; [by apply (utf8_ascii_cons GT s) in U|cbn in *; lia].
  - rewrite eat_no by (cbn; congruence). apply Go; [done|cbn in *; lia].
Qed.
Lemma parse_json_path_spec pre suf :
  utf8 suf → spec (parse_json_path (C pre suf)) pre suf (λ p _ left, path_ok p ∧ path_then p left ∧ starts_with left ARROW = false).
Proof. intros U. unfold parse_json_path. rewrite rest_C. apply path_loop_spec; [lia|done|constructor|done]. Qed.

(** ** Reading a rendered key back *)
(** Where a bare key stops. *)
Definition key_stop (s : bytes) : Prop :=
  match s with [] => True | b :: _ => json_key_break b = true ∧ b ≠ GT ∨ starts_with s ARROW = true end.
Lemma key_break_ascii b : json_key_break b = true → ascii b.
Proof.
  unfold json_key_break. rewrite bool_decide_eq_true. intros B.
  repeat (apply elem_of_cons in B as [-> |B]; [done|]). by apply not_elem_of_nil in B.
Qed.
Lemma key_stop_starts s : key_stop s → starts_ok s.
Proof.
  destruct s as [|b s]; [done|]. intros [[B _]|Ar]; [by apply ascii_not_cont, key_break_ascii|by apply arrow_starts_ok].
Qed.
(** A piece of a bare key. *)
Definition piece_ok (p : bytes) : Prop :=
  p ≠ [] ∧ trim p = p ∧ utf8 p ∧ Forall (λ b, json_key_break b = false ∧ b ≠ DASH) p.
Lemma piece_len_app p s :
  Forall (λ b, json_key_break b = false ∧ b ≠ DASH) p → (match s with [] => True | b :: _ => json_key_break b = true ∨ b = DASH end) →
  piece_len (p ++ s) = length p.
Proof.
  induction 1 as [|b p [Hb Hd] F IH]; intros St; cbn [app piece_len length].
  - destruct s as [|b s]; [done|]. cbn. destruct St as [-> | ->]; [done|]. by rewrite bool_decide_true, orb_true_r.
  - rewrite Hb, bool_decide_false by done. cbn. by rewrite IH.
Qed.
Lemma key_loop_app fuel parts ps pre suf :
  ps ≠ [] → Forall piece_ok ps → key_stop suf → (length ps ≤ fuel)%nat →
  key_loop fuel parts (C pre (join [DASH] ps ++ suf)) = Ok (JName (join [DASH] (parts ++ ps)), C (pre ++ join [DASH] ps) suf).
Proof.
  intros Np F St. revert fuel parts pre Np. induction F as [|p ps (Ne & Tr & Up & Fp) F IH]; intros fuel parts pre Np Lf; [done|].
  destruct fuel as [|fuel]; [cbn in Lf; lia|]. cbn [key_loop]. rewrite rest_C.
  set (tail_ := match ps with [] => suf | _ => DASH :: join [DASH] ps ++ suf end).
  assert (Ej : join [DASH] (p :: ps) ++ suf = p ++ tail_) by (destruct ps; [done|]; rewrite join_cons, <-!app_assoc; done).
  assert (Stt : starts_ok tail_ ∧ match tail_ with [] => True | b :: _ => json_key_break b = true ∨ b = DASH end).
  { destruct ps as [|q ps]; [|split; [done|by right]]. split; [by apply key_stop_starts|]. unfold tail_. destruct suf as [|b s]; [done|].
    destruct St as [[B _]|Ar]; [by left|]. rewrite starts_arrow in Ar. apply andb_true_iff in Ar as [->%bool_decide_eq_true _]. by right. }
  destruct Stt as [Sot Stt]. rewrite Ej, piece_len_app by done. cbn [c_pos C]. rewrite seek_C. cbn [c_pos C c_s].
  rewrite (proj2 (Nat.eqb_neq _ _)) by (rewrite length_app; destruct p; [done|cbn; lia]).
  rewrite <-app_assoc, length_app, str_slice_mid, bind_run by (done || by apply starts_app). rewrite Tr, at_byte_C, starts_C.
  destruct ps as [|q ps].
  - assert (bool_decide (head tail_ = Some DASH) && negb (starts_with tail_ ARROW) = false) as ->; [|done].
    unfold tail_. destruct suf as [|b s]; [done|]. destruct St as [[B _]| ->]; [|apply andb_false_r].
    apply andb_false_iff. left. apply bool_decide_eq_false. intros [= ->]. done.
  - subst tail_. cbn [head]. rewrite bool_decide_true by done. rewrite starts_arrow.
    assert (head (join [DASH] (q :: ps) ++ suf) ≠ Some GT) as Ng.
    { apply Forall_cons in F as [(Nq & _ & _ & Fq) _]. destruct q as [|b q]; [done|]. apply Forall_cons in Fq as [[Bq _] _].
      destruct ps; cbn; intros [= ->]; done. }
    rewrite (bool_decide_eq_false_2 _ Ng), andb_false_r. cbn [negb andb]. rewrite bump_C, IH by (done || cbn in *; lia).
    rewrite <-app_assoc. cbn [app]. rewrite join_cons, <-!app_assoc. done.
Qed.
Lemma json_index_none pre ds l :
  head (ds ++ l) ≠ Some DASH → Forall (λ b, is_digit b = true) ds → from_option is_digit false (head l) = false → starts_ok l →
  ds = [] ∨ index_ends l = false → json_index (C pre (ds ++ l)) = Ok None.
Proof.
  intros Nd Fd Nl Sl En. unfold json_index. cbv zeta. rewrite at_byte_C, bool_decide_false by done. cbn [c_pos c_s C].
  rewrite Nat.add_0_r, drop_app_length, digits_len_app by done.
  destruct En as [-> |En]; [cbn [length]; by rewrite Nat.add_0_r, Nat.eqb_refl|].
  destruct (_ =? _)%nat; [done|]. rewrite app_assoc, <-length_app, str_slice_tail, bind_run by done. by rewrite En.
Qed.
Lemma json_index_app pre i suf :
  i64 i → index_ends suf = true → json_index (C pre (fmt_i64 i ++ suf)) = Ok (Some (i, C (pre ++ fmt_i64 i) suf)).
Proof.
  intros R En. destruct (index_ends_head suf En) as (Nd & So & _).
  assert (∃ sg ds, fmt_i64 i = sg ++ ds ∧ Forall (λ b, is_digit b = true) ds ∧ ds ≠ [] ∧
    (if at_byte DASH (C pre (fmt_i64 i ++ suf)) then 1%nat else 0%nat) = length sg ∧ Forall ascii sg) as (sg & ds & Ef & Fd & Nds & Es & As).
  { rewrite at_byte_C. unfold fmt_i64. destruct (i <? 0) eqn:S; zbool.
    - exists [DASH], (fmt_dec 0 (- i)). split_and!; [done|apply fmt_dec_digits| |done|by repeat constructor].
      destruct (fmt_dec_nonempty (- i)) as (b & s & -> & _); [lia|done].
    - destruct (fmt_dec_nonempty i) as (b & s & E & Db); [lia|]. exists [], (fmt_dec 0 i).
      split_and!; [done|apply fmt_dec_digits|by rewrite E| |done]. rewrite E. cbn. rewrite bool_decide_false; [done|]. intros [= ->]. done. }
  unfold json_index. cbv zeta. rewrite Es. cbn [c_pos c_s C].
  assert (Dl : digits_len (drop (length pre + length sg) (pre ++ fmt_i64 i ++ suf)) = length ds).
  { rewrite Ef, <-length_app, <-app_assoc, app_assoc, drop_app_length. by apply digits_len_app. }
  rewrite Dl. rewrite (proj2 (Nat.eqb_neq _ _)) by (destruct ds; [done|cbn; lia]).
  replace (length pre + length sg + length ds)%nat with (length pre + length (fmt_i64 i))%nat by (rewrite Ef, length_app; lia).
  assert (Fi : starts_ok (fmt_i64 i ++ suf)).
  { rewrite Ef. apply starts_app; [|done]. apply utf8_ascii, Forall_app. split; [done|]. eapply Forall_impl; [exact Fd|]. apply digit_ascii. }
  assert (Sl : str_slice (E := Error) (pre ++ fmt_i64 i ++ suf) (length pre + length (fmt_i64 i)) (length (pre ++ fmt_i64 i ++ suf)) = Ok suf).
  { rewrite app_assoc, <-length_app. by apply str_slice_tail. }
  rewrite Sl, bind_run, En. cbn [negb]. rewrite str_slice_mid, bind_run, parse_i64_fmt by done. rewrite seek_C. done.
Qed.
(** A key that is written bare: its pieces. *)
Lemma split_join c s : join [c] (split c s) = s ∧ split c s ≠ [] ∧ Forall (λ p, c ∉ p) (split c s).
Proof.
  induction s as [|b s (E & N & F)]; cbn; [split_and!; [done|done|repeat constructor; set_solver]|].
  destruct (decide (b = c)) as [-> |Nb].
  - split_and!; [|done|constructor; [set_solver|done]]. destruct (split c s) as [|w ws]; [done|]. by rewrite join_cons, E.
  - destruct (split c s) as [|w ws]; [done|]. apply Forall_cons in F as [Fw F]. split_and!; [|done|constructor; [set_solver|done]].
    destruct ws as [|q ws]; cbn in *; by rewrite E.
Qed.
Lemma join_forall (P : byte → Prop) sep parts : Forall P (join sep parts) → Forall (Forall P) parts.
Proof.
  induction parts as [|p parts IH]; intros F; [done|]. destruct parts as [|q parts]; [by repeat constructor|].
  rewrite join_cons in F. apply Forall_app in F as [Fp F]. apply Forall_app in F as [_ F]. constructor; [done|by apply IH].
Qed.
Lemma utf8_pieces c parts : ascii c → utf8 (join [c] parts) → Forall utf8 parts.
Proof.
  intros Ac. induction parts as [|p parts IH]; intros U; [done|]. destruct parts as [|q parts]; [by repeat constructor|].
  rewrite join_cons in U. apply utf8_split in U as [Up U]; [|by apply ascii_not_cont]. constructor; [done|]. apply IH.
  by apply (utf8_ascii_cons c (join [c] (q :: parts)) Ac) in U.
Qed.
Lemma bare_pieces n :
  utf8 n → key_needs_quotes n = false →
  Forall piece_ok (split DASH n) ∧ Forall (λ b, json_key_break b = false ∧ b ≠ QUOTE) n ∧ forallb is_digit n = false.
Proof.
  intros U Nq. unfold key_needs_quotes in Nq. apply orb_false_iff in Nq as [Nq Nd]. apply orb_false_iff in Nq as [Nb Np].
  assert (Fb : Forall (λ b, json_key_break b = false ∧ b ≠ QUOTE) n).
  { apply Forall_forall. intros b Hb. rewrite <-not_true_iff_false, existsb_exists in Nb.
    assert (¬ (json_key_break b || bool_decide (b = QUOTE) || bool_decide (b = BACKSLASH) = true)) as N.
    { intros E. apply Nb. exists b. split; [by apply list_elem_of_In|done]. }
    apply not_true_iff_false in N. apply orb_false_iff in N as [N _]. apply orb_false_iff in N as [N1 N2%bool_decide_eq_false]. done. }
  split_and!; [|done|done]. destruct (split_join DASH n) as (E & _ & Fd). rewrite <-E in U, Fb.
  pose proof (utf8_pieces DASH _ ltac:(done) U) as Fu. pose proof (join_forall _ _ _ Fb) as Ff. apply Forall_forall. intros p Hp.
  rewrite Forall_forall in Fd, Fu, Ff. specialize (Fd p Hp). specialize (Fu p Hp). specialize (Ff p Hp).
  rewrite <-not_true_iff_false, existsb_exists in Np.
  assert (N : ¬ (bool_decide (p = []) || negb (bool_decide (trim p = p)) = true)).
  { intros Ep. apply Np. exists p. split; [by apply list_elem_of_In|done]. }
  apply not_true_iff_false, orb_false_iff in N as [Np1%bool_decide_eq_false Np2%negb_false_iff%bool_decide_eq_true].
  split_and!; try done. rewrite Forall_forall in *. intros b Hb. split; [by apply Ff|]. intros ->. done.
Qed.
(** The bytes of the pieces put together again. *)
Lemma pieces_head ps suf : ps ≠ [] → Forall piece_ok ps → ∃ b, head (join [DASH] ps ++ suf) = Some b ∧ json_key_break b = false ∧ b ≠ DASH.
Proof.
  intros N F. destruct ps as [|p ps]; [done|]. apply Forall_cons in F as [(Np & _ & _ & Fp) _].
  destruct p as [|x p]; [done|]. apply Forall_cons in Fp as [[Bx Nx] _]. exists x. by destruct ps.
Qed.
Lemma pieces_last ps : ps ≠ [] → Forall piece_ok ps → ∃ b, last (join [DASH] ps) = Some b ∧ b ≠ DASH.
Proof.
  intros N F. induction F as [|p ps (Np & _ & _ & Fp) F IH]; [done|]. destruct ps as [|q ps].
  - cbn. destruct (last p) as [b|] eqn:L; [|by apply last_None in L]. exists b. split; [done|].
    rewrite Forall_forall in Fp. by apply last_Some_elem_of, Fp in L as [_ ?].
  - destruct IH as (b & L & Nb); [done|]. exists b. split; [|done]. by rewrite join_cons, !last_app, L.
Qed.
(** A bare key does not read as an index. *)
Lemma bare_not_index pre n suf :
  utf8 n → key_needs_quotes n = false → key_stop suf → json_index (C pre (n ++ suf)) = Ok None.
Proof.
  intros U Nq St. destruct (bare_pieces n U Nq) as (Fp & Fb & Nd). destruct (split_join DASH n) as (E & Ns & _).
  destruct (pieces_head _ suf Ns Fp) as (h & Hh & _ & Nh). destruct (pieces_last _ Ns Fp) as (e & Le & Ne). rewrite E in *.
  clear E Ns Fp. destruct (digits_len_spec n) as (ds & l & -> & _ & Fd & Nl). destruct l as [|b l].
  { rewrite app_nil_r in Nd. exfalso. apply not_true_iff_false in Nd. apply Nd, forallb_forall. intros x Hx.
    rewrite Forall_forall in Fd. by apply Fd, list_elem_of_In. }
  apply Forall_app in Fb as [Fds Fb]. apply Forall_cons in Fb as [[Bb _] Fb].
  rewrite <-app_assoc in *. apply json_index_none; [rewrite Hh; congruence|done|done| |right].
  - apply utf8_drop_ascii in U; [|eapply Forall_impl; [exact Fd|apply digit_ascii]]. by apply utf8_starts in U.
  - unfold index_ends. cbn [app]. rewrite !orb_false_iff, bool_decide_eq_false. unfold json_key_break in Bb. apply bool_decide_eq_false in Bb.
    rewrite starts_arrow. split_and!; [done| |unfold starts_with; cbn; destruct (decide _) as [<-|]; [set_solver|done]..].
    apply andb_false_iff. destruct (decide (b = DASH)) as [-> |]; [right|left; by apply bool_decide_eq_false].
    apply bool_decide_eq_false. destruct l as [|c l]; [|apply Forall_cons in Fb as [[Bc _] _]; cbn; intros [= ->]; done].
    rewrite last_app in Le. cbn in Le. congruence.
Qed.
Lemma parse_json_key_app pre k suf :
  key_ok k → key_stop suf → key_then k suf →
  parse_json_key (C pre (fmt_key k ++ suf)) = Ok (k, C (pre ++ fmt_key k) suf) ∧ head (fmt_key k ++ suf) ≠ Some GT.
Proof.
  intros Ok_ St Th. destruct k as [n|i]; cbn [fmt_key key_ok] in *.
  - destruct (key_needs_quotes n) eqn:Nq.
    + split; [|done]. unfold parse_json_key.
      pose proof (json_index_none pre [] (write_escaped n ++ suf) ltac:(done) ltac:(done) ltac:(done) ltac:(done) ltac:(by left)) as Ji.
      cbn [app] in Ji. rewrite Ji.
      rewrite bind_run, !at_byte_C, bool_decide_false, bool_decide_true by done. by rewrite scan_quoted_app, bind_run.
    + destruct (bare_pieces n Ok_ Nq) as (Fp & Fb & _). destruct (split_join DASH n) as (E & Ns & _).
      destruct (pieces_head _ suf Ns Fp) as (h & Hh & Bh & Nh). rewrite E in Hh. split.
      * unfold parse_json_key. rewrite bare_not_index, bind_run, !at_byte_C by done. rewrite Hh.
        rewrite !bool_decide_false; [| |congruence].
        2:{ intros [= ->]. destruct n as [|x n]; [by destruct suf|]. injection Hh as ->. apply Forall_cons in Fb as [[_ ?] _]. done. }
        rewrite rest_C. pose proof (key_loop_app (S (length (n ++ suf))) [] (split DASH n) pre suf Ns Fp St) as K. rewrite E in K.
        cbn [app] in K. rewrite E in K. apply K. rewrite length_app. assert (Ls : (length (split DASH n) ≤ S (length n))%nat); [|lia].
        clear. induction n as [|b n IH]; [done|]. cbn. destruct (decide _); cbn; [lia|]. destruct (split DASH n); cbn in *; lia.
      * rewrite Hh. intros [= ->]. done.
  - specialize (Th eq_refl). unfold parse_json_key. rewrite json_index_app, bind_run by done. split; [done|].
    unfold fmt_i64. destruct (i <? 0) eqn:S; [done|]. zbool. destruct (fmt_dec_nonempty i) as (b & s & -> & Db); [lia|].
    cbn. intros [= ->]. done.
Qed.
(** The path after a column, and what it stops at. *)
Lemma fmt_path_cons st path : fmt_path (st :: path) = ARROW ++ (if js_text st then [GT] else []) ++ fmt_key (js_key st) ++ fmt_path path.
Proof. unfold fmt_path. cbn. unfold fmt_step. by rewrite <-!app_assoc. Qed.
Lemma path_loop_app fuel done_ path pre suf :
  path_ok path → key_stop suf → path_then path suf → starts_with suf ARROW = false → (length path < fuel)%nat →
  path_loop fuel done_ (C pre (fmt_path path ++ suf)) = Ok (done_ ++ path, C (pre ++ fmt_path path) suf).
Proof.
  intros Ok_ St Th Na. revert fuel done_ pre Th. induction Ok_ as [|st path Ks Ok_ IH]; intros fuel done_ pre Th Lf;
    (destruct fuel as [|fuel]; [lia|]); cbn [path_loop].
  - cbn [fmt_path fmap list_fmap concat app]. rewrite eat_str_no by done. by rewrite !app_nil_r.
  - rewrite fmt_path_cons, <-!app_assoc, eat_str_yes. cbv beta iota.
    assert (Tl : key_stop (fmt_path path ++ suf) ∧ key_then (js_key st) (fmt_path path ++ suf)).
    { destruct path as [|st' path]; [split; [done|by apply Th]|]. rewrite fmt_path_cons, <-!app_assoc. split; [right|intros _]; done. }
    destruct Tl as [Ts Tt]. assert (Th' : path_then path suf).
    { intros s Ls. apply Th. rewrite last_cons, Ls. done. }
    destruct st as [text k]. cbn [js_text js_key] in *.
    destruct (parse_json_key_app ((pre ++ ARROW) ++ (if text then [GT] else [])) k (fmt_path path ++ suf) Ks Ts Tt) as [Pk Ng].
    assert (Ea : eat GT (C (pre ++ ARROW) ((if text then [GT] else []) ++ fmt_key k ++ fmt_path path ++ suf)) =
                 (text, C ((pre ++ ARROW) ++ (if text then [GT] else [])) (fmt_key k ++ fmt_path path ++ suf))).
    { destruct text; [apply eat_yes|]. cbn [app]. rewrite eat_no by done. by rewrite app_nil_r. }
    rewrite Ea. rewrite Pk, bind_run, IH by (done || cbn in Lf; lia). by rewrite <-!app_assoc.
Qed.
Lemma length_fmt_path path : (length path ≤ length (fmt_path path))%nat.
Proof. induction path as [|st path IH]; [done|]. rewrite fmt_path_cons, !length_app. cbn in *. lia. Qed.
Lemma parse_json_path_app pre path suf :
  path_ok path → key_stop suf → path_then path suf → starts_with suf ARROW = false →
  parse_json_path (C pre (fmt_path path ++ suf)) = Ok (path, C (pre ++ fmt_path path) suf).
Proof.
  intros. unfold parse_json_path. rewrite rest_C. apply (path_loop_app _ []); try done.
  rewrite length_app. pose proof (length_fmt_path path). lia.
Qed.
Lemma path_name_stop brk path suf : name_stop brk suf → name_stop brk (fmt_path path ++ suf).
Proof. intros St. destruct path as [|st path]; [done|]. rewrite fmt_path_cons, <-!app_assoc. split; [done|by right]. Qed.
Lemma path_starts path suf : starts_ok suf → starts_ok (fmt_path path ++ suf).
Proof. destruct path; [done|]. by rewrite fmt_path_cons. Qed.
Lemma fmt_path_head path suf : head (fmt_path path ++ suf) = if path is [] then head suf else Some DASH.
Proof. destruct path; [done|]. by rewrite fmt_path_cons. Qed.

(** ** Errors stand between characters *)
Lemma err_at_cut {A} cur a b wants : c_s cur = a ++ b → starts_ok b → fails (err_at (A := A) cur (length a) wants).
Proof.
  intros E Sb. unfold err_at, found. rewrite E, Nat.min_l by (rewrite length_app; lia). by rewrite str_slice_tail.
Qed.
Lemma common_ascii w t : Forall ascii w → ∃ a b, t = a ++ b ∧ length a = common w t ∧ Forall ascii a.
Proof.
  revert t. induction w as [|x w IH]; intros t F; [by exists [], t|]. apply Forall_cons in F as [Fx F].
  destruct t as [|y t]; [by exists [], []|]. cbn. destruct (decide (x = y)) as [-> |]; [|by exists [], (y :: t)].
  destruct (IH t F) as (a & b & -> & E & Fa). exists (y :: a), b. split_and!; [done|cbn; by rewrite E|by constructor].
Qed.
Lemma reach_ascii words t : Forall (Forall ascii) words → ∃ a b, t = a ++ b ∧ length a = reach t words ∧ Forall ascii a.
Proof.
  induction 1 as [|w words Fw F (a & b & E & L & Fa)]; [by exists [], t|]. cbn. fold (reach t words).
  destruct (Nat.max_spec (common w t) (reach t words)) as [[_ ->]|[_ ->]]; [by exists a, b|by apply common_ascii].
Qed.
Lemma err_word_cut {A} cur a b words wants :
  c_s cur = a ++ b → utf8 b → words ≠ [] → Forall (Forall ascii) words → fails (err_word (A := A) cur (length a) words wants).
Proof.
  intros E U Nw Fw. unfold err_word. rewrite E, Nat.min_l by (rewrite length_app; lia). rewrite str_slice_tail, bind_run by by apply utf8_starts.
  destruct words as [|w words]; [done|]. rewrite bind_run. apply Forall_cons in Fw as [Fw _].
  destruct (reach_ascii [w] b) as (x & y & Eb & L & Fx); [by repeat constructor|]. rewrite <-L, <-length_app.
  unfold found. rewrite E, Eb, app_assoc, Nat.min_l by (rewrite !length_app; lia). rewrite str_slice_tail; [done|].
  subst b. apply utf8_drop_ascii in U; [by apply utf8_starts|done].
Qed.
Lemma lower_ascii b : ascii (lower_byte b) → ascii b.
Proof.
  unfold lower_byte, ascii. destruct (_ && _) eqn:E; [|done]. apply andb_true_iff in E as [? ?]. zbool. lia.
Qed.
Lemma err_ci_word_cut {A} cur a b words wants :
  c_s cur = a ++ b → utf8 b → Forall (Forall ascii) words → fails (err_ci_word (A := A) cur (length a) words wants).
Proof.
  intros E U Fw. unfold err_ci_word. rewrite E, Nat.min_l by (rewrite length_app; lia). rewrite str_slice_tail, bind_run by by apply utf8_starts.
  destruct (reach_ascii words (to_ascii_lowercase b) Fw) as (x & y & Eb & L & Fx). rewrite <-L.
  unfold to_ascii_lowercase in Eb. apply fmap_app_inv in Eb as (x' & y' & -> & -> & ->). rewrite length_fmap, <-length_app.
  apply (err_at_cut cur (a ++ x') y'); [by rewrite E, <-app_assoc|]. apply utf8_drop_ascii in U; [by apply utf8_starts|].
  rewrite Forall_fmap in Fx. eapply Forall_impl; [exact Fx|]. intros z. apply lower_ascii.
Qed.
Lemma str_ascii s : forallb (λ b, bval b <? 128) (str s) = true → Forall ascii (str s).
Proof. rewrite forallb_forall. intros F. apply Forall_forall. intros b Hb. apply Z.ltb_lt, F. by apply list_elem_of_In. Qed.
Lemma starts_cut t w : starts_with t w = true → utf8 t → Forall ascii w → ∃ r, t = w ++ r ∧ utf8 r.
Proof. intros [r ->]%starts_with_inv U Fw. exists r. split; [done|]. by apply utf8_drop_ascii in U. Qed.
Ltac asciis := repeat constructor.

(** ** Spaces and lists *)
Lemma ret_bind {E A B} (x : A) (k : A → res E B) : mret x ≫= k = k x.
Proof. done. Qed.
Lemma skip_spaces_spec pre suf :
  utf8 suf → ∃ bl l, suf = bl ++ l ∧ skip_spaces (C pre suf) = C (pre ++ bl) l ∧ utf8 bl ∧ utf8 l ∧ from_option is_blank false (head l) = false.
Proof.
  intros U. assert (∃ bl l, suf = bl ++ l ∧ blanks suf = length bl ∧ Forall (λ b, is_blank b = true) bl ∧ from_option is_blank false (head l) = false)
    as (bl & l & -> & E & F & N).
  { clear U. induction suf as [|b s (bl & l & -> & E & F & N)]; [by exists [], []|]. cbn. destruct (is_blank b) eqn:B.
    - exists (b :: bl), l. split_and!; [done|cbn; by rewrite E|by constructor|done].
    - by exists [], (b :: bl ++ l). }
  exists bl, l. split_and!; [done| |by apply utf8_ascii, blanks_ascii| |done].
  - unfold skip_spaces. rewrite rest_C, E. apply seek_C.
  - apply utf8_drop_ascii in U; [done|by apply blanks_ascii].
Qed.
(** A trimmed name does not begin with a blank. *)
Lemma bare_blank n : trim n = n → from_option is_blank false (head n) = false.
Proof.
  intros T. destruct n as [|b n]; [done|]. cbn. apply not_true_iff_false. intros B. apply (f_equal (@length _)) in T.
  unfold trim in T. rewrite length_rev in T. cbn [trim_start] in T. rewrite B in T.
  assert (L : ∀ s, (length (trim_start s) ≤ length s)%nat) by (clear; intros s; induction s as [|x s IH]; cbn; [lia|]; destruct (is_blank x); cbn; lia).
  pose proof (L (rev (trim_start n))) as L1. rewrite length_rev in L1. pose proof (L n). cbn in T. lia.
Qed.
Lemma length_join sep parts : Forall (λ p, p ≠ []) parts → (length parts ≤ length (join sep parts))%nat.
Proof.
  induction 1 as [|p parts Np F IH]; [done|]. destruct parts as [|q parts]; [destruct p; [done|cbn; lia]|].
  rewrite join_cons, !length_app. destruct p; [done|]. cbn in *. lia.
Qed.
