(* ===== verification/RestFilter.v ===== *)
(** * RestFilter: the filter grammar (crates/zou-rest/src/filter.rs)

    A query pair such as [age=not.gte.18] or [or=(a.eq.1,b.eq.2)] parsed
    into a tree, and the canonical pair a tree renders to. *)
From S2P Require Import Prelude Order Text Utf8 RestScan.

(** ** Operators *)
Inductive Op :=
  | OpEq | OpNeq | OpGt | OpGte | OpLt | OpLte | OpLike | OpIlike | OpMatch | OpImatch | OpIn | OpIs | OpIsDistinct
  | OpFts | OpPlfts | OpPhfts | OpWfts | OpCs | OpCd | OpOv | OpSl | OpSr | OpNxl | OpNxr | OpAdj.
#[global] Instance Op_eq_dec : EqDecision Op.
Proof. solve_decision. Defined.
(** The order upstream tries the words in. *)
Definition OPERATORS : list bytes :=
  str <$> ["in"; "is"; "isdistinct"; "fts"; "plfts"; "phfts"; "wfts"; "neq"; "cs"; "cd"; "ov"; "sl"; "sr"; "nxr"; "nxl"; "adj";
           "eq"; "gte"; "gt"; "lte"; "lt"; "like"; "ilike"; "match"; "imatch"]%string.
Definition OPERATOR : bytes := str "operator (eq, gt, ...)".
Definition IS_VALUES : list bytes := str <$> ["null"; "not_null"; "true"; "false"; "unknown"]%string.
Definition IS_VAL : bytes := str "isVal: (null, not_null, true, false, unknown)".
Definition NOT_WORD : bytes := word (str "not").
(** [Op::parse] and [Op::name] *)
Definition op_table : list (bytes * Op) :=
  [(str "eq", OpEq); (str "neq", OpNeq); (str "gt", OpGt); (str "gte", OpGte); (str "lt", OpLt); (str "lte", OpLte);
   (str "like", OpLike); (str "ilike", OpIlike); (str "match", OpMatch); (str "imatch", OpImatch); (str "in", OpIn);
   (str "is", OpIs); (str "isdistinct", OpIsDistinct); (str "fts", OpFts); (str "plfts", OpPlfts); (str "phfts", OpPhfts);
   (str "wfts", OpWfts); (str "cs", OpCs); (str "cd", OpCd); (str "ov", OpOv); (str "sl", OpSl); (str "sr", OpSr);
   (str "nxl", OpNxl); (str "nxr", OpNxr); (str "adj", OpAdj)].
Definition op_parse (s : bytes) : option Op := snd <$> find (λ e, bool_decide (e.1 = s)) op_table.
Definition op_name (o : Op) : bytes :=
  match o with
  | OpEq => str "eq" | OpNeq => str "neq" | OpGt => str "gt" | OpGte => str "gte" | OpLt => str "lt" | OpLte => str "lte"
  | OpLike => str "like" | OpIlike => str "ilike" | OpMatch => str "match" | OpImatch => str "imatch" | OpIn => str "in"
  | OpIs => str "is" | OpIsDistinct => str "isdistinct" | OpFts => str "fts" | OpPlfts => str "plfts" | OpPhfts => str "phfts"
  | OpWfts => str "wfts" | OpCs => str "cs" | OpCd => str "cd" | OpOv => str "ov" | OpSl => str "sl" | OpSr => str "sr"
  | OpNxl => str "nxl" | OpNxr => str "nxr" | OpAdj => str "adj"
  end.
Definition quantifiable (o : Op) : bool :=
  match o with OpEq | OpGt | OpGte | OpLt | OpLte | OpLike | OpIlike | OpMatch | OpImatch => true | _ => false end.
Definition is_fts (o : Op) : bool := match o with OpFts | OpPlfts | OpPhfts | OpWfts => true | _ => false end.

(** ** Trees *)
Inductive Quant := QAny | QAll.
Inductive LogicOp := LAnd | LOr.
Definition logic_name (o : LogicOp) : bytes := match o with LAnd => str "and" | LOr => str "or" end.
Record Field := mkField { fd_embed : list bytes; fd_column : bytes; fd_path : list JsonStep }.
Inductive Value := Lit (s : bytes) | VList (l : list bytes) | VArray (l : list bytes).
Record Cond := mkCond {
  cd_field : Field; cd_negated : bool; cd_op : Op; cd_quant : option Quant; cd_config : option bytes; cd_value : Value
}.
Inductive Node := NGroup (op : LogicOp) (negated : bool) (kids : list Node) | NCond (c : Cond).
Inductive Parsed :=
  | PFilter (c : Cond)
  | PLogic (embed : list bytes) (op : LogicOp) (negated : bool) (kids : list Node).

(** ** Names and values *)
Definition name_break (b : byte) : bool := bool_decide (b ∈ [DOT; COMMA_; LPAREN; RPAREN; QUOTE; LBRACE; RBRACE]).
Record Seg := mkSeg { sg_name : bytes; sg_path : list JsonStep; sg_quoted : bool }.
Definition parse_segment : parser Seg := λ cur,
  let quoted := at_byte QUOTE cur in
  '(name, cur) ← (if quoted then scan_quoted cur else '(n, cur) ← scan_name name_break cur; mret (trim n, cur));
  match name with
  | [] => err cur [FIELD_NAME]
  | _ => '(path, cur) ← parse_json_path cur; mret (mkSeg name path quoted, cur)
  end.
(** One literal in a delimited context. *)
Fixpoint elem_len (terms : list byte) (s : bytes) : nat :=
  match s with b :: s => if bool_decide (b ∈ terms) then O else S (elem_len terms s) | [] => O end.
Definition bare_element (terms : list byte) : parser bytes := λ cur,
  let pos := (c_pos cur + elem_len terms (rest cur))%nat in
  s ← str_slice (c_s cur) (c_pos cur) pos; mret (s, seek pos cur).
Definition scan_element (terms : list byte) : parser bytes := λ cur,
  if at_byte QUOTE cur then
    match scan_quoted cur with
    | Ok (s, cur') => if from_option (λ b, bool_decide (b ∈ terms)) true (peek cur') then mret (s, cur') else bare_element terms cur
    | Err _ => bare_element terms cur
    | Panic => Panic
    end
  else bare_element terms cur.
Fixpoint elements_loop (fuel : nat) (close : byte) (out : list bytes) (cur : Cur) : res Error (list bytes * Cur) :=
  match fuel with
  | O => Panic
  | S fuel =>
      '(e, cur) ← scan_element [COMMA_; close] cur;
      let out := out ++ [e] in
      let '(comma, cur) := eat COMMA_ cur in
      if comma then elements_loop fuel close out cur
      else '(_, cur) ← expect_as close [word [COMMA_]; word [close]] cur; mret (out, cur)
  end.
Definition parse_elements (close : byte) : parser (list bytes) := λ cur, elements_loop (S (length (rest cur))) close [] cur.
(** A postgres array literal, braces without nesting. *)
Fixpoint braces_len (s : bytes) : nat :=
  match s with b :: s => if bool_decide (b = LBRACE) || bool_decide (b = RBRACE) then O else S (braces_len s) | [] => O end.
Definition scan_array (cur : Cur) : res Error (option (bytes * Cur)) :=
  if at_byte LBRACE cur then
    let at_ := (S (c_pos cur) + braces_len (drop (S (c_pos cur)) (c_s cur)))%nat in
    if bool_decide (c_s cur !! at_ = Some RBRACE) then
      s ← str_slice (c_s cur) (c_pos cur) (S at_); mret (Some (s, seek (S at_) cur))
    else mret None
  else mret None.

(** ** Conditions *)
Definition slot (negated : bool) (at_ p : nat) : list bytes :=
  if negb negated && (p =? at_)%nat then [NOT_WORD; OPERATOR] else [OPERATOR].
(** What is said when no operator could be read at [at_]. *)
Definition op_error {A} (cur : Cur) (negated : bool) (at_ : nat) : res Error A :=
  tail_ ← str_slice (c_s cur) (at_ `min` length (c_s cur)) (length (c_s cur));
  if negb negated && starts_with tail_ (str "not") then err_at cur (at_ + 3) [DELIMITER]
  else
    match foldr (λ w p, if starts_with tail_ w then Some (default O p `max` (at_ + length w))%nat else p) None OPERATORS with
    | Some p => err_at cur p (slot negated at_ p)
    | None => err_word cur at_ [if negated then str "in" else str "not"] (slot negated at_ at_)
    end.
(** The bracket after an operator that takes one. *)
Definition parse_modifier (op : Op) (negated : bool) (at_ : nat) : parser (option Quant * option bytes) := λ cur,
  if at_byte LPAREN cur && (is_fts op || quantifiable op) then
    let cur := bump cur in
    let modifier := c_pos cur in
    '(m, cur) ← scan_name name_break cur;
    qc ← (if is_fts op && negb (bool_decide (m = [])) then Ok (None, Some m)
          else if bool_decide (m = str "any") && quantifiable op then Ok (Some QAny, None)
          else if bool_decide (m = str "all") && quantifiable op then Ok (Some QAll, None)
          else err_at cur modifier (slot negated at_ modifier));
    let '(closed, cur) := eat RPAREN cur in
    if closed then mret (qc, cur) else err_at cur (c_pos cur) (slot negated at_ (c_pos cur))
  else mret ((None, None), cur).
(** The value, in the shape its operator takes. *)
Definition parse_value (op : Op) (quant : option Quant) (in_tree : bool) : parser Value := λ cur,
  if decide (op = OpIn) then
    '(_, cur) ← cur_expect LPAREN (skip_spaces cur);
    '(l, cur) ← parse_elements RPAREN (skip_spaces cur); mret (VList l, cur)
  else if quant then
    '(_, cur) ← cur_expect LBRACE cur;
    let '(empty_, cur) := eat RBRACE cur in
    if empty_ then mret (VArray [], cur)
    else '(l, cur) ← parse_elements RBRACE cur; mret (VArray l, cur)
  else if in_tree then
    a ← scan_array cur;
    match a with
    | Some (s, cur) => mret (Lit s, cur)
    | None => '(s, cur) ← scan_element [COMMA_; RPAREN] cur; mret (Lit s, cur)
    end
  else '(s, cur) ← take_rest cur; mret (Lit s, cur).
Definition check_is (op : Op) (literal : nat) (value : Value) (cur : Cur) : res Error Value :=
  if decide (op = OpIs) then
    match value with
    | Lit s =>
        let lower := to_ascii_lowercase s in
        if bool_decide (lower ∈ IS_VALUES) then mret (Lit lower) else err_ci_word cur literal IS_VALUES [IS_VAL]
    | _ => Panic
    end
  else mret value.
Definition parse_cond_rhs (field : Field) (in_tree : bool) : parser Cond := λ cur,
  let '(negated, cur) := eat_str (str "not.") cur in
  let at_ := c_pos cur in
  '(opname, cur) ← scan_name name_break cur;
  match op_parse opname with
  | None => op_error cur negated at_
  | Some op =>
      '((quant, config), cur) ← parse_modifier op negated at_ cur;
      let '(dot, cur) := eat DOT cur in
      if dot then
        let literal := c_pos cur in
        '(value, cur) ← parse_value op quant in_tree cur;
        value ← check_is op literal value cur;
        mret (mkCond field negated op quant config value, cur)
      else err_at cur (c_pos cur) (slot negated at_ (c_pos cur))
  end.
(** [is_operator] *)
Definition is_operator (value : bytes) : res Error bool :=
  match parse_cond_rhs (mkField [] [] []) false (cur_new value) with Ok _ => mret true | Err _ => mret false | Panic => Panic end.

(** ** Keys *)
Inductive Key := KField (f : Field) | KLogic (embed : list bytes) (op : LogicOp) (negated : bool).
Fixpoint segs_loop (fuel : nat) (segs : list Seg) (kc : Cur) : res Error (list Seg * Cur) :=
  match fuel with
  | O => Panic
  | S fuel =>
      '(seg, kc) ← parse_segment kc;
      let had_path := negb (bool_decide (sg_path seg = [])) in
      let segs := segs ++ [seg] in
      let '(dot, kc) := eat DOT kc in
      if dot then if had_path then err kc [END] else segs_loop fuel segs kc
      else if cur_done kc then mret (segs, kc)
      else leftover kc [END]
  end.
Fixpoint embed_names (kc : Cur) (segs : list Seg) : res Error (list bytes) :=
  match segs with
  | [] => mret []
  | s :: segs =>
      if bool_decide (sg_path s = []) then out ← embed_names kc segs; mret (sg_name s :: out) else err kc [END]
  end.
(** A bare segment without a path that spells [w]. *)
Definition is_word (w : bytes) (s : Seg) : bool :=
  negb (sg_quoted s) && bool_decide (sg_path s = []) && bool_decide (sg_name s = w).
Definition parse_key (key : bytes) : res Error Key :=
  let kc := cur_new key in
  '(segs, kc) ← segs_loop (S (length key)) [] kc;
  match rev segs with
  | [] => Panic
  | last_ :: front =>
      let logic := if is_word (str "or") last_ then Some LOr else if is_word (str "and") last_ then Some LAnd else None in
      match logic with
      | Some op =>
          match front with
          | s :: front' =>
              if is_word (str "not") s then embed ← embed_names kc (rev front'); mret (KLogic embed op true)
              else embed ← embed_names kc (rev front); mret (KLogic embed op false)
          | [] => mret (KLogic [] op false)
          end
      | None => embed ← embed_names kc (rev front); mret (KField (mkField embed (sg_name last_) (sg_path last_)))
      end
  end.

(** ** Logic trees *)
Definition group_head (cur : Cur) : res Error (option (LogicOp * bool * Cur)) :=
  let '(negated, cur) := eat_str (str "not.") cur in
  '(name, cur) ← scan_name name_break cur;
  let name := trim name in
  let op := if bool_decide (name = str "and") then Some LAnd else if bool_decide (name = str "or") then Some LOr else None in
  match op with
  | None => mret None
  | Some op => let cur := skip_spaces cur in mret (if at_byte LPAREN cur then Some (op, negated, cur) else None)
  end.
Definition parse_condition : parser Node := λ cur,
  '(seg, cur) ← parse_segment cur;
  '(_, cur) ← expect_as DOT [DELIMITER] cur;
  '(c, cur) ← parse_cond_rhs (mkField [] (sg_name seg) (sg_path seg)) true cur;
  mret (NCond c, cur).
(** What is said of an item that is neither a group nor a condition;
    [failed] is the complaint of the condition. *)
Definition item_error {A} (start : nat) (cur : Cur) (failed : Error) : res Error A :=
  let '(negated, cur) := eat_str (str "not.") cur in
  tail_ ← str_slice (c_s cur) (c_pos cur) (length (c_s cur));
  let head_ := if starts_with tail_ (str "and") then Some (str "and") else if starts_with tail_ (str "or") then Some (str "or") else None in
  match head_ with
  | Some w => err (skip_spaces (seek (c_pos cur + length w) cur)) [word [LPAREN]]
  | None =>
      if negated then err cur [str "logic operator (and, or)"]
      else if starts_with tail_ (str "o") && (1 <? length tail_)%nat then err_word cur (c_pos cur) [str "or"] [word (str "or")]
      else Err (label failed start [FIELD_NAME; str "negation operator (not)"; str "logic operator (and, or)"])
  end.
Fixpoint parse_group_body (fuel : nat) (cur : Cur) {struct fuel} : res Error (list Node * Cur) :=
  match fuel with
  | O => Panic
  | S fuel => '(_, cur) ← cur_expect LPAREN (skip_spaces cur); items_loop fuel [] (skip_spaces cur)
  end
with items_loop (fuel : nat) (kids : list Node) (cur : Cur) {struct fuel} : res Error (list Node * Cur) :=
  match fuel with
  | O => Panic
  | S fuel =>
      '(kid, cur) ← parse_item fuel cur;
      let kids := kids ++ [kid] in
      let '(comma, cur) := eat COMMA_ (skip_spaces cur) in
      if comma then items_loop fuel kids (skip_spaces cur)
      else '(_, cur) ← expect_as RPAREN [word [COMMA_]; word [RPAREN]] cur; mret (kids, skip_spaces cur)
  end
with parse_item (fuel : nat) (cur : Cur) {struct fuel} : res Error (Node * Cur) :=
  match fuel with
  | O => Panic
  | S fuel =>
      h ← group_head cur;
      match h with
      | Some (op, negated, cur) => '(kids, cur) ← parse_group_body fuel cur; mret (NGroup op negated kids, cur)
      | None =>
          match parse_condition cur with
          | Ok node => Ok node
          | Err failed => item_error (c_pos cur) cur failed
          | Panic => Panic
          end
      end
  end.
(** Enough for a value of this many bytes. *)
Definition tree_fuel (n : nat) : nat := (3 * n + 3)%nat.

(** [parse_pair] *)
Definition parse_pair (key value : bytes) : res Failure Parsed :=
  let last_piece := default [] (last (split DOT key)) in
  let logic_key := bool_decide (last_piece = str "and") || bool_decide (last_piece = str "or") in
  k ← map_err (mkFailure (if logic_key then str "logic path" else str "tree path") key 0) (parse_key key);
  match k with
  | KLogic embed op negated =>
      let skew := (length (logic_name op) + if negated then 4 else 0)%nat in
      '(kids, _) ← map_err (mkFailure (str "logic tree") value skew) (parse_group_body (tree_fuel (length value)) (cur_new value));
      mret (PLogic embed op negated kids)
  | KField field =>
      '(cond, _) ← map_err (mkFailure (str "filter") value 0) (parse_cond_rhs field false (cur_new value));
      mret (PFilter cond)
  end.

(** ** Rendering *)
Definition name_needs_quotes (s : bytes) : bool :=
  bool_decide (s = []) || existsb (λ b, name_break b || bool_decide (b = BACKSLASH)) s || contains s ARROW ||
  negb (bool_decide (trim s = s)) || bool_decide (s = str "or") || bool_decide (s = str "and") || bool_decide (s = str "not").
Definition element_special (b : byte) : bool :=
  bool_decide (b ∈ [COMMA_; LPAREN; RPAREN; QUOTE; LBRACE; RBRACE; BACKSLASH]).
Definition element_needs_quotes (s : bytes) : bool :=
  bool_decide (s = []) || from_option is_blank false (head s) || existsb element_special s.
Definition name_fmt (s : bytes) : bytes := if name_needs_quotes s then write_escaped s else s.
Definition element_fmt (s : bytes) : bytes := if element_needs_quotes s then write_escaped s else s.
Definition dotted (embed : list bytes) : bytes := concat ((λ e, name_fmt e ++ [DOT]) <$> embed).
Definition field_fmt (f : Field) : bytes := dotted (fd_embed f) ++ name_fmt (fd_column f) ++ fmt_path (fd_path f).
Definition fmt_rhs (c : Cond) (top : bool) : bytes :=
  (if cd_negated c then str "not." else []) ++ op_name (cd_op c) ++
  from_option (λ cfg, [LPAREN] ++ cfg ++ [RPAREN]) [] (cd_config c) ++
  (match cd_quant c with Some QAny => str "(any)" | Some QAll => str "(all)" | None => [] end) ++ [DOT] ++
  match cd_value c with
  | Lit s => if top then s else element_fmt s
  | VList l => [LPAREN] ++ join [COMMA_] (element_fmt <$> l) ++ [RPAREN]
  | VArray l => [LBRACE] ++ join [COMMA_] (element_fmt <$> l) ++ [RBRACE]
  end.
Fixpoint node_fmt (n : Node) : bytes :=
  match n with
  | NGroup op negated kids =>
      (if negated then str "not." else []) ++ logic_name op ++ [LPAREN] ++ join [COMMA_] (map node_fmt kids) ++ [RPAREN]
  | NCond c => field_fmt (cd_field c) ++ [DOT] ++ fmt_rhs c false
  end.
(** [Parsed::render] *)
Definition render (p : Parsed) : bytes * bytes :=
  match p with
  | PFilter c => (field_fmt (cd_field c), fmt_rhs c true)
  | PLogic embed op negated kids =>
      (dotted embed ++ (if negated then str "not." else []) ++ logic_name op,
       [LPAREN] ++ join [COMMA_] (map node_fmt kids) ++ [RPAREN])
  end.
