(* ===== verification/RestFilterProofs.v ===== *)
(** * RestFilterProofs: every pair reads, and reads back

    No query string makes the filter parser panic, and the canonical pair of
    what it parsed parses to the same tree. *)
From S2P Require Import Prelude Order Text Utf8 RestScan RestScanProofs RestFilter.

(** ** What the parser makes *)
Definition name_ok (n : bytes) : Prop := utf8 n ∧ n ≠ [].
Definition field_ok (f : Field) : Prop := Forall name_ok (fd_embed f) ∧ name_ok (fd_column f) ∧ path_ok (fd_path f).
Definition config_ok (op : Op) (quant : option Quant) (config : option bytes) : Prop :=
  (quant = None ∨ quantifiable op = true ∧ config = None) ∧
  ∀ m, config = Some m → is_fts op = true ∧ m ≠ [] ∧ utf8 m ∧ clean name_break m.
Definition value_ok (op : Op) (quant : option Quant) (v : Value) : Prop :=
  match v with
  | Lit s => utf8 s ∧ op ≠ OpIn ∧ quant = None ∧ (op = OpIs → s ∈ IS_VALUES)
  | VList l => op = OpIn ∧ l ≠ [] ∧ Forall utf8 l ∧ quant = None
  | VArray l => quant ≠ None ∧ Forall utf8 l
  end.
Definition rhs_ok (c : Cond) : Prop :=
  config_ok (cd_op c) (cd_quant c) (cd_config c) ∧ value_ok (cd_op c) (cd_quant c) (cd_value c).
Fixpoint node_ok (n : Node) : Prop :=
  match n with
  | NGroup _ _ kids => kids ≠ [] ∧ foldr (λ k P, node_ok k ∧ P) True kids
  | NCond c => fd_embed (cd_field c) = [] ∧ field_ok (cd_field c) ∧ rhs_ok c
  end.
Definition nodes_ok (kids : list Node) : Prop := foldr (λ k P, node_ok k ∧ P) True kids.
Definition parsed_ok (p : Parsed) : Prop :=
  match p with
  | PFilter c => field_ok (cd_field c) ∧ rhs_ok c
  | PLogic embed _ _ kids => Forall name_ok embed ∧ kids ≠ [] ∧ nodes_ok kids
  end.
Lemma nodes_ok_app a b : nodes_ok (a ++ b) ↔ nodes_ok a ∧ nodes_ok b.
Proof. unfold nodes_ok. induction a as [|n a IH]; cbn; [tauto|]. rewrite IH. tauto. Qed.


Lemma name_break_ascii : ascii_breaks name_break.
Proof.
  intros b. unfold name_break. rewrite bool_decide_eq_true. intros B.
  repeat (apply elem_of_cons in B as [-> |B]; [done|]). by apply not_elem_of_nil in B.
Qed.

(** ** Any string *)
Lemma parse_segment_spec pre suf :
  utf8 suf → spec (parse_segment (C pre suf)) pre suf (λ sg used _, name_ok (sg_name sg) ∧ path_ok (sg_path sg) ∧ used ≠ []).
Proof.
  intros U. unfold parse_segment. eapply (spec_bind _ _ _ _ (λ n used _, utf8 n ∧ (n ≠ [] → used ≠ []))).
  - destruct (at_byte QUOTE (C pre suf)).
    + eapply spec_mono; [by apply scan_quoted_spec|]. by intros v used left E _ _ [Uv Nu].
    + destruct (scan_name_spec name_break pre suf name_break_ascii U) as (n & l & -> & -> & Un & Ul & Cl & _). rewrite bind_run.
      exists n, l. split_and!; try done; [by apply utf8_trim|]. intros N ->. done.
  - intros n used left -> Uu Ul [Un Nu]. destruct n as [|b n]; [apply fails_spec, err_fails; by apply utf8_starts|].
    eapply spec_bind; [by apply parse_json_path_spec|]. intros path u2 l2 -> _ U2 (Pp & _). apply spec_ret; [done|].
    cbn. split_and!; try done. rewrite app_nil_r. intros [-> _]%app_nil. by apply Nu.
Qed.
Lemma elem_len_spec terms s :
  Forall ascii terms → ∃ e l, s = e ++ l ∧ elem_len terms s = length e ∧ starts_ok l.
Proof.
  intros Ft. induction s as [|b s (e & l & -> & E & So)]; [by exists [], []|]. cbn. case_bool_decide as B.
  - exists [], (b :: e ++ l). split_and!; try done. cbn. rewrite Forall_forall in Ft. by apply ascii_not_cont, Ft.
  - exists (b :: e), l. split_and!; [done|cbn; by rewrite E|done].
Qed.
Lemma bare_element_spec terms pre suf :
  Forall ascii terms → utf8 suf → spec (bare_element terms (C pre suf)) pre suf (λ v _ _, utf8 v).
Proof.
  intros Ft U. unfold bare_element. rewrite rest_C. destruct (elem_len_spec terms suf Ft) as (e & l & -> & -> & So). cbv zeta.
  destruct (utf8_split _ _ So U) as [Ue Ul]. cbn [c_pos C c_s]. rewrite str_slice_mid, bind_run by (done || by apply utf8_starts).
  rewrite seek_C. by exists e, l.
Qed.
Lemma scan_element_spec terms pre suf :
  Forall ascii terms → utf8 suf → spec (scan_element terms (C pre suf)) pre suf (λ v _ _, utf8 v).
Proof.
  intros Ft U. unfold scan_element. pose proof (bare_element_spec terms pre suf Ft U) as Sb. destruct (at_byte _ _); [|done].
  pose proof (scan_quoted_spec pre suf U) as Sq. destruct (scan_quoted (C pre suf)) as [[v c]| |]; [|done..].
  destruct (from_option _ _ _); [|done]. eapply spec_mono; [exact Sq|]. by intros ? ? ? _ _ _ [? _].
Qed.
Lemma elements_loop_spec fuel close out pre suf :
  ascii close → (length suf < fuel)%nat → utf8 suf → Forall utf8 out →
  spec (elements_loop fuel close out (C pre suf)) pre suf (λ l _ _, l ≠ [] ∧ Forall utf8 l).
Proof.
  intros Ac. revert out pre suf. induction fuel as [|fuel IH]; intros out pre suf Lf U Fo; [lia|]. cbn [elements_loop].
  eapply spec_bind; [apply scan_element_spec; [by asciis|done]|]. intros e used left -> Uu Ul Ue. cbv zeta.
  assert (Fo' : Forall utf8 (out ++ [e])) by (apply Forall_app; split; [done|by apply Forall_singleton]).
  assert (Cl : spec ('(_, cur) ← expect_as close [word [COMMA_]; word [close]] (C (pre ++ used) left); mret (out ++ [e], cur))
                 (pre ++ used) left (λ l _ _, l ≠ [] ∧ Forall utf8 l)).
  { eapply spec_bind; [by apply expect_as_spec|]. intros [] u2 l2 -> _ U2 _. apply spec_ret; [done|]. split; [by destruct out|done]. }
  destruct left as [|b left]; [rewrite eat_no by done; exact Cl|]. destruct (decide (b = COMMA_)) as [-> |N]; [|rewrite eat_no by (cbn; congruence); exact Cl].
  rewrite eat_yes. apply (spec_skip _ (pre ++ used) [COMMA_] left); [done|]. apply IH; [|by apply (utf8_ascii_cons COMMA_ left) in Ul|done].
  rewrite length_app in Lf. cbn in Lf. lia.
Qed.
Lemma parse_elements_spec close pre suf :
  ascii close → utf8 suf → spec (parse_elements close (C pre suf)) pre suf (λ l _ _, l ≠ [] ∧ Forall utf8 l).
Proof. intros. unfold parse_elements. rewrite rest_C. by apply elements_loop_spec; [|lia|..]. Qed.
Lemma scan_array_spec pre suf :
  utf8 suf →
  match scan_array (C pre suf) with
  | Ok None => True
  | Ok (Some vc) => spec (Ok vc) pre suf (λ v _ _, utf8 v)
  | _ => False
  end.
Proof.
  intros U. unfold scan_array. rewrite at_byte_C. case_bool_decide as B; [|done]. destruct suf as [|b s]; [done|]. injection B as ->.
  assert (Hs : ∃ e l, s = e ++ l ∧ braces_len s = length e).
  { clear. induction s as [|b s (e & l & -> & E)]; [by exists [], []|]. cbn. destruct (_ || _); [by exists [], (b :: e ++ l)|].
    exists (b :: e), l. split; [done|]. cbn. by rewrite E. }
  destruct Hs as (e & l & -> & E). cbv zeta. cbn [c_pos c_s C].
  replace (drop (S (length pre)) (pre ++ LBRACE :: e ++ l)) with (e ++ l).
  2:{ change (LBRACE :: e ++ l) with ([LBRACE] ++ e ++ l). rewrite app_assoc. replace (S (length pre)) with (length (pre ++ [LBRACE])) by (rewrite length_app; cbn; lia).
      by rewrite drop_app_length. }
  rewrite E. case_bool_decide as Lk; [|done].
  assert (El : ∃ l', l = RBRACE :: l').
  { destruct l as [|c l].
    - rewrite app_nil_r in Lk. apply lookup_lt_Some in Lk. rewrite length_app in Lk. cbn in Lk. lia.
    - exists l. f_equal. change (pre ++ LBRACE :: e ++ c :: l) with (pre ++ (LBRACE :: e) ++ c :: l) in Lk. rewrite app_assoc in Lk.
      rewrite list_lookup_middle in Lk by (rewrite length_app; cbn; lia). congruence. }
  destruct El as [l' ->]. change (LBRACE :: e ++ RBRACE :: l') with ([LBRACE] ++ e ++ [RBRACE] ++ l') in *.
  replace ([LBRACE] ++ e ++ [RBRACE] ++ l') with (([LBRACE] ++ e ++ [RBRACE]) ++ l') in * by by rewrite <-!app_assoc.
  replace (S (S (length pre) + length e))%nat with (length pre + length ([LBRACE] ++ e ++ [RBRACE]))%nat by (rewrite !length_app; cbn; lia).
  assert (So : starts_ok l').
  { rewrite <-!app_assoc in U. apply (proj1 (utf8_drop_ascii [LBRACE] _ ltac:(by asciis))) in U.
    apply utf8_split in U as [_ U]; [|done]. apply (proj1 (utf8_drop_ascii [RBRACE] _ ltac:(by asciis))) in U. by apply utf8_starts. }
  rewrite str_slice_mid, bind_run by (done || by apply utf8_starts). rewrite seek_C. destruct (utf8_split _ _ So U) as [U1 U2].
  by exists ([LBRACE] ++ e ++ [RBRACE]), l'.
Qed.
Lemma operators_ascii : Forall (Forall ascii) OPERATORS.
Proof. repeat constructor. Qed.
Lemma deepest_spec t at_ words p :
  foldr (λ w p, if starts_with t w then Some (default O p `max` (at_ + length w))%nat else p) None words = Some p →
  ∃ w, w ∈ words ∧ starts_with t w = true ∧ p = (at_ + length w)%nat.
Proof.
  revert p. induction words as [|w words IH]; intros p; [done|]. cbn. destruct (starts_with t w) eqn:S.
  - intros [= <-]. destruct (foldr _ _ _) as [q|]; cbn.
    + destruct (Nat.max_spec q (at_ + length w)) as [[_ ->]|[_ ->]]; [exists w; split_and!; [left|done|done]|].
      destruct (IH q eq_refl) as (w' & I & S' & ->). exists w'. split_and!; [by right|done|done].
    + exists w. split_and!; [left|done|done].
  - intros E. destruct (IH p E) as (w' & I & S' & ->). exists w'. split_and!; [by right|done|done].
Qed.
Lemma op_error_fails {A} cur negated a b : c_s cur = a ++ b → utf8 b → fails (op_error (A := A) cur negated (length a)).
Proof.
  intros E U. unfold op_error. rewrite E, Nat.min_l by (rewrite length_app; lia). rewrite str_slice_tail, bind_run by by apply utf8_starts.
  assert (Cut : ∀ w wants, starts_with b w = true → Forall ascii w → fails (err_at (A := A) cur (length a + length w) wants)).
  { intros w wants S Fw. destruct (starts_cut _ _ S U Fw) as (r & -> & Ur). rewrite <-length_app.
    apply (err_at_cut cur (a ++ w) r); [by rewrite E, <-app_assoc|by apply utf8_starts]. }
  destruct (negb negated && starts_with b (str "not")) eqn:Nt.
  - apply andb_true_iff in Nt as [_ Nt]. apply (Cut (str "not")); [done|by asciis].
  - destruct (foldr _ _ _) as [p|] eqn:D.
    + apply deepest_spec in D as (w & I & S & ->). apply Cut; [done|]. pose proof operators_ascii as F. rewrite Forall_forall in F. by apply F.
    + apply (err_word_cut cur a b); [done|done|done|]. destruct negated; by repeat constructor.
Qed.
Lemma parse_modifier_spec op negated at_ pre suf :
  utf8 suf → spec (parse_modifier op negated at_ (C pre suf)) pre suf (λ qc _ _, config_ok op qc.1 qc.2).
Proof.
  intros U. unfold parse_modifier. rewrite at_byte_C. case_bool_decide as B; cbn [andb].
  2:{ apply spec_ret; [done|]. split; [by left|done]. }
  destruct (is_fts op || quantifiable op) eqn:Tk; [|by apply spec_ret; [|split; [by left|]]].
  destruct suf as [|b s]; [done|]. injection B as ->. rewrite bump_C. apply (utf8_ascii_cons LPAREN s) in U; [|done].
  apply (spec_skip _ pre [LPAREN] s); [done|]. cbn [c_pos C]. set (pre' := pre ++ [LPAREN]).
  destruct (scan_name_spec name_break pre' s name_break_ascii U) as (n & l & -> & -> & Un & Ul & Cl & _). rewrite bind_run.
  apply spec_skip; [done|].
  match goal with |- spec (?m ≫= ?k) _ _ _ => assert (M : fails m ∨ ∃ qc, m = Ok qc ∧ config_ok op qc.1 qc.2) end.
  { destruct (is_fts op && negb (bool_decide (n = []))) eqn:Fts.
    - right. eexists. split; [done|]. apply andb_true_iff in Fts as [Ft Nn%negb_true_iff%bool_decide_eq_false].
      split; [by left|]. cbn. intros m [= <-]. done.
    - destruct (bool_decide (n = str "any") && quantifiable op) eqn:Any.
      { right. eexists. split; [done|]. apply andb_true_iff in Any as [_ Qu]. split; [by right|done]. }
      destruct (bool_decide (n = str "all") && quantifiable op) eqn:All.
      { right. eexists. split; [done|]. apply andb_true_iff in All as [_ Qu]. split; [by right|done]. }
      left. apply (err_at_cut (C (pre' ++ n) l) pre' (n ++ l)); [cbn; by rewrite <-app_assoc|by apply utf8_starts]. }
  destruct M as [M|(qc & -> & Co)]; [by apply fails_spec, fails_bind|]. rewrite bind_run.
  destruct l as [|c l]; [rewrite eat_no by done; apply fails_spec, (err_at_cut _ (pre' ++ n) []); done|].
  destruct (decide (c = RPAREN)) as [-> |N].
  - rewrite eat_yes. exists [RPAREN], l. split_and!; try done.
  - rewrite eat_no by (cbn; congruence). apply fails_spec, (err_at_cut _ (pre' ++ n) (c :: l)); [done|by apply utf8_starts].
Qed.
Lemma parse_value_spec op quant in_tree pre suf :
  utf8 suf → (quant ≠ None → op ≠ OpIn) →
  spec (parse_value op quant in_tree (C pre suf)) pre suf
    (λ v _ _, value_ok op quant v ∨ ∃ s, v = Lit s ∧ op = OpIs ∧ utf8 s ∧ quant = None).
Proof.
  intros U Nq. unfold parse_value. destruct (decide (op = OpIn)) as [-> |No].
  - assert (quant = None) as -> by (destruct quant; [by destruct Nq|done]).
    destruct (skip_spaces_spec pre suf U) as (bl & l & -> & -> & Ub & Ul & _). apply spec_skip; [done|].
    eapply spec_bind; [by apply expect_as_spec|]. intros [] u2 l2 -> _ U2 _.
    destruct (skip_spaces_spec ((pre ++ bl) ++ u2) l2 U2) as (bl3 & l3 & -> & -> & Ub3 & Ul3 & _). apply spec_skip; [done|].
    eapply spec_bind; [by apply parse_elements_spec|]. intros v u4 l4 -> _ U4 [Ne F]. apply spec_ret; [done|]. by left.
  - destruct quant as [q|].
    + eapply spec_bind; [by apply expect_as_spec|]. intros [] u2 l2 -> _ U2 _.
      assert (Go : spec ('(l, cur) ← parse_elements RBRACE (C (pre ++ u2) l2); mret (VArray l, cur)) (pre ++ u2) l2
         (λ v _ _, value_ok op (Some q) v ∨ ∃ s, v = Lit s ∧ op = OpIs ∧ utf8 s ∧ Some q = None)).
      { eapply spec_bind; [by apply parse_elements_spec|]. intros v u4 l4 -> _ U4 [Ne F]. apply spec_ret; [done|]. by left. }
      destruct l2 as [|b l2]; [rewrite eat_no by done; exact Go|]. destruct (decide (b = RBRACE)) as [-> |N].
      * rewrite eat_yes. exists [RBRACE], l2. split_and!; try done. by left.
      * rewrite eat_no by (cbn; congruence). exact Go.
    + assert (Lk : ∀ s, utf8 s → value_ok op None (Lit s) ∨ ∃ s', Lit s = Lit s' ∧ op = OpIs ∧ utf8 s' ∧ @None Quant = None).
      { intros s Us. destruct (decide (op = OpIs)) as [-> |Ni]; [right; by exists s|left]. cbn. split_and!; try done. }
      destruct in_tree.
      * pose proof (scan_array_spec pre suf U) as Sa. destruct (scan_array (C pre suf)) as [[[v c]|]| |]; [| |done..]; rewrite bind_run.
        { eapply spec_mono; [exact (spec_bind _ (λ vc : bytes * Cur, Ok (Lit vc.1, vc.2)) _ _ _ (λ v _ _, ∃ s, v = Lit s ∧ utf8 s) Sa ltac:(intros v' u2 l2 -> _ U2 Uv; apply spec_ret; eauto))|].
          intros v' u2 l2 _ _ _ (s & -> & Us). by apply Lk. }
        eapply spec_bind; [apply scan_element_spec; [by asciis|done]|]. intros v u2 l2 -> _ U2 Uv. apply spec_ret; [done|]. by apply Lk.
      * unfold take_rest. cbn [c_s c_pos C]. rewrite str_slice_tail, !bind_run by by apply utf8_starts.
        exists suf, []. rewrite app_nil_r. split_and!; try done; [unfold seek, C; by rewrite app_nil_r|by apply Lk].
Qed.
Lemma is_values_ascii : Forall (Forall ascii) IS_VALUES.
Proof. repeat constructor. Qed.
Lemma utf8_lower s : Forall ascii (to_ascii_lowercase s) → utf8 (to_ascii_lowercase s).
Proof. apply utf8_ascii. Qed.
Lemma config_quant op q cfg : config_ok op q cfg → q ≠ None → op ≠ OpIn.
Proof. intros [[-> |[Qu _]] _] N; [done|]. by intros ->. Qed.
Lemma parse_cond_rhs_spec field in_tree pre suf :
  utf8 suf → spec (parse_cond_rhs field in_tree (C pre suf)) pre suf (λ c used _, cd_field c = field ∧ rhs_ok c).
Proof.
  intros U. unfold parse_cond_rhs.
  assert (Go : ∀ negated pre suf, utf8 suf → spec (
    '(opname, cur) ← scan_name name_break (C pre suf);
    match op_parse opname with
    | None => op_error cur negated (c_pos (C pre suf))
    | Some op =>
        '((quant, config), cur) ← parse_modifier op negated (c_pos (C pre suf)) cur;
        let '(dot, cur) := eat DOT cur in
        if dot then
          '(value, cur0) ← parse_value op quant in_tree cur;
          value ← check_is op (c_pos cur) value cur0;
          mret (mkCond field negated op quant config value, cur0)
        else err_at cur (c_pos cur) (slot negated (c_pos (C pre suf)) (c_pos cur))
    end) pre suf (λ c _ _, cd_field c = field ∧ rhs_ok c)).
  { clear pre suf U. intros negated pre suf U.
    destruct (scan_name_spec name_break pre suf name_break_ascii U) as (n & l & -> & -> & Un & Ul & Cl & _). rewrite bind_run.
    destruct (op_parse n) as [op|].
    2:{ apply fails_spec. apply (op_error_fails _ _ pre (n ++ l)); [cbn; by rewrite <-app_assoc|done]. }
    apply spec_skip; [done|]. eapply spec_bind; [by apply parse_modifier_spec|]. intros [q cfg] u2 l2 -> Uu U2 Co. cbn in Co.
    set (pre2 := (pre ++ n) ++ u2). destruct l2 as [|b l2]; [rewrite eat_no by done; apply fails_spec, (err_at_cut _ pre2 []); done|].
    destruct (decide (b = DOT)) as [-> |N].
    2:{ rewrite eat_no by (cbn; congruence). apply fails_spec, (err_at_cut _ pre2 (b :: l2)); [done|by apply utf8_starts]. }
    rewrite eat_yes. apply (spec_skip _ pre2 [DOT] l2); [done|]. apply (utf8_ascii_cons DOT l2) in U2; [|done].
    eapply spec_bind; [apply parse_value_spec; [done|by eapply config_quant]|]. intros v u3 l3 -> Uu3 U3 Vk. cbn [c_pos C].
    unfold check_is. destruct (decide (op = OpIs)) as [-> |Ni].
    - assert (∃ s, v = Lit s ∧ utf8 s ∧ q = None) as (s & -> & Us & ->).
      { destruct Vk as [Vk|(s & -> & _ & Us & ->)]; [|by exists s]. destruct v as [s|l|l]; cbn in Vk.
        - destruct Vk as (Us & _ & -> & _). by exists s.
        - by destruct Vk.
        - destruct Vk as [Nq _]. destruct Co as [[-> |[Qu _]] _]; done. }
      case_bool_decide as Iv.
      + apply spec_ret; [done|]. split; [done|]. split; [done|]. cbn. split_and!; try done.
        apply utf8_lower. pose proof is_values_ascii as F. rewrite Forall_forall in F. by apply F.
      + apply fails_spec, fails_bind. apply (err_ci_word_cut _ (pre2 ++ [DOT]) (u3 ++ l3)); [cbn; by rewrite <-!app_assoc|by apply utf8_app|apply is_values_ascii].
    - cbn [mret res_ret mbind res_bind]. apply spec_ret; [done|]. split; [done|]. split; [done|]. destruct Vk as [Vk|(s & _ & -> & _)]; done. }
  destruct (starts_with suf (str "not.")) eqn:Nt.
  - destruct (starts_cut _ _ Nt U ltac:(by asciis)) as (r & -> & Ur). rewrite eat_str_yes. apply spec_skip; [by apply utf8_ascii; asciis|].
    exact (Go true _ r Ur).
  - rewrite eat_str_no by done. exact (Go false pre suf U).
Qed.

(** ** Keys *)
Definition seg_ok (sg : Seg) : Prop := name_ok (sg_name sg) ∧ path_ok (sg_path sg).
Lemma segs_loop_spec fuel segs pre suf :
  (length suf < fuel)%nat → utf8 suf → Forall seg_ok segs →
  spec (segs_loop fuel segs (C pre suf)) pre suf (λ l _ left, l ≠ [] ∧ Forall seg_ok l).
Proof.
  revert segs pre suf. induction fuel as [|fuel IH]; intros segs pre suf Lf U Fs; [lia|]. cbn [segs_loop].
  eapply spec_bind; [by apply parse_segment_spec|]. intros sg used left -> Uu Ul (Nk & Pk & Nu). cbv zeta.
  assert (Fs' : Forall seg_ok (segs ++ [sg])) by (apply Forall_app; split; [done|by apply Forall_singleton]).
  destruct left as [|b left].
  - rewrite eat_no by done. rewrite cur_done_C, bool_decide_true by done. apply spec_ret; [done|]. split; [by destruct segs|done].
  - destruct (decide (b = DOT)) as [-> |N].
    + rewrite eat_yes. apply (utf8_ascii_cons DOT left) in Ul; [|done]. destruct (negb _); [by apply fails_spec, err_fails, utf8_starts|].
      apply (spec_skip _ (pre ++ used) [DOT] left); [done|]. apply IH; [|done|done]. rewrite length_app in Lf. cbn in Lf. lia.
    + rewrite eat_no by (cbn; congruence). rewrite cur_done_C, bool_decide_false by done. by apply fails_spec, leftover_fails, utf8_starts.
Qed.
Lemma embed_names_spec pre suf segs :
  utf8 suf → Forall seg_ok segs →
  match embed_names (C pre suf) segs with Ok l => Forall name_ok l | Err _ => True | Panic => False end.
Proof.
  intros U. induction 1 as [|s segs [Ns _] F IH]; cbn [embed_names]; [constructor|]. case_bool_decide.
  - destruct (embed_names (C pre suf) segs); cbn; [by constructor|done|done].
  - pose proof (err_fails (A := list bytes) pre suf [END] (utf8_starts _ U)) as Fe. by destruct (err _ _).
Qed.
Definition key_parsed_ok (k : Key) : Prop :=
  match k with KField f => field_ok f | KLogic embed _ _ => Forall name_ok embed end.
Lemma parse_key_spec key :
  utf8 key → match parse_key key with Ok k => key_parsed_ok k | Err _ => True | Panic => False end.
Proof.
  intros U. unfold parse_key. cbv zeta. rewrite cur_new_C. pose proof (segs_loop_spec (S (length key)) [] [] key ltac:(lia) U ltac:(done)) as Sp.
  destruct (segs_loop _ _ _) as [[segs c]| |]; [|done..]. destruct Sp as (used & left & -> & -> & _ & Ul & Ne & Fs). rewrite bind_run.
  assert (Fr : Forall seg_ok (rev segs)) by by apply Forall_rev.
  destruct (rev segs) as [|last_ front] eqn:Er.
  { apply (f_equal (@rev Seg)) in Er. rewrite rev_involutive in Er. done. }
  apply Forall_cons in Fr as [[Nl Pl] Ff].
  assert (Em : ∀ l (k : list bytes → Key), Forall seg_ok l → (∀ e, Forall name_ok e → key_parsed_ok (k e)) →
    match embed_names (C ([] ++ used) left) (rev l) ≫= (λ e, mret (k e)) with Ok k => key_parsed_ok k | Err _ => True | Panic => False end).
  { intros l k Fl Hk. pose proof (embed_names_spec ([] ++ used) left (rev l) Ul ltac:(by apply Forall_rev)) as Se.
    destruct (embed_names _ _); cbn; [by apply Hk|done|done]. }
  destruct (if is_word _ _ then _ else _) as [op|].
  - destruct front as [|s front]; [constructor|]. apply Forall_cons in Ff as [Fs' Ff].
    destruct (is_word _ s); apply Em; [done|by intros|by constructor|by intros].
  - apply Em; [done|]. intros e Fe. by split_and!.
Qed.

(** ** Trees *)
Lemma group_head_spec pre suf :
  utf8 suf →
  match group_head (C pre suf) with
  | Ok None => True
  | Ok (Some (op, negated, c)) => ∃ used left, suf = used ++ left ∧ c = C (pre ++ used) left ∧ utf8 used ∧ utf8 left ∧ used ≠ []
  | _ => False
  end.
Proof.
  intros U. unfold group_head.
  assert (Go : ∀ negated pre suf, utf8 suf →
    match (('(name, cur) ← scan_name name_break (C pre suf);
           let name := trim name in
           let op := if bool_decide (name = str "and") then Some LAnd else if bool_decide (name = str "or") then Some LOr else None in
           match op with
           | None => mret None
           | Some op => let cur := skip_spaces cur in mret (if at_byte LPAREN cur then Some (op, negated, cur) else None)
           end) : res Error (option (LogicOp * bool * Cur))) with
    | Ok None => True
    | Ok (Some (op, negated, c)) => ∃ used left, suf = used ++ left ∧ c = C (pre ++ used) left ∧ utf8 used ∧ utf8 left ∧ used ≠ []
    | _ => False
    end).
  { clear pre suf U. intros negated pre suf U.
    destruct (scan_name_spec name_break pre suf name_break_ascii U) as (n & l & -> & -> & Un & Ul & _). rewrite bind_run. cbv zeta.
    destruct (if bool_decide _ then _ else _) as [op|] eqn:Eo; [|done].
    assert (Nn : n ≠ []) by (intros ->; done). destruct (skip_spaces_spec (pre ++ n) l Ul) as (bl & l2 & -> & -> & Ub & U2 & _).
    cbn. destruct (at_byte _ _); [|done]. exists (n ++ bl), l2. rewrite <-!app_assoc. split_and!; [done|done|by apply utf8_app|done|by destruct n]. }
  destruct (starts_with suf (str "not.")) eqn:Nt.
  - destruct (starts_cut _ _ Nt U ltac:(by asciis)) as (r & -> & Ur). rewrite eat_str_yes. cbv beta iota. specialize (Go true (pre ++ str "not.") r Ur).
    destruct (_ ≫= _) as [[[[op ng] c]|]| |]; [|done..]. destruct Go as (used & left & -> & -> & U1 & U2 & N).
    exists (str "not." ++ used), left. rewrite <-!app_assoc. split_and!; [done|done|by apply utf8_app|done|done].
  - rewrite eat_str_no by done. exact (Go false pre suf U).
Qed.
Lemma parse_condition_spec pre suf :
  utf8 suf → spec (parse_condition (C pre suf)) pre suf (λ n used _, node_ok n ∧ used ≠ []).
Proof.
  intros U. unfold parse_condition. eapply spec_bind; [by apply parse_segment_spec|]. intros sg used left -> _ Ul (Nk & Pk & Nu).
  eapply spec_bind; [by apply expect_as_spec|]. intros [] u2 l2 -> _ U2 _. eapply spec_bind; [by apply parse_cond_rhs_spec|].
  intros c u3 l3 -> _ U3 [Ef Rk]. apply spec_ret; [done|]. split; [|by destruct used]. cbn. rewrite Ef. split_and!; try done; apply Rk.
Qed.
Lemma item_error_fails {A} start pre suf e : utf8 suf → fails (item_error (A := A) start (C pre suf) e).
Proof.
  intros U. unfold item_error.
  assert (Go : ∀ (negated : bool) pre suf, utf8 suf → fails (
    tail_ ← str_slice (c_s (C pre suf)) (c_pos (C pre suf)) (length (c_s (C pre suf)));
    let head_ := if starts_with tail_ (str "and") then Some (str "and") else if starts_with tail_ (str "or") then Some (str "or") else None in
    match head_ with
    | Some w => err (A := A) (skip_spaces (seek (c_pos (C pre suf) + length w) (C pre suf))) [word [LPAREN]]
    | None =>
        if negated then err (C pre suf) [str "logic operator (and, or)"]
        else if starts_with tail_ (str "o") && (1 <? length tail_)%nat then err_word (C pre suf) (c_pos (C pre suf)) [str "or"] [word (str "or")]
        else Err (label e start [FIELD_NAME; str "negation operator (not)"; str "logic operator (and, or)"])
    end)).
  { clear pre suf U. intros negated pre suf U. cbn [c_s c_pos C]. rewrite str_slice_tail, bind_run by by apply utf8_starts. cbv zeta.
    assert (Hd : ∀ w, starts_with suf w = true → Forall ascii w → fails (err (A := A) (skip_spaces (seek (length pre + length w) (C pre suf))) [word [LPAREN]])).
    { intros w S Fw. destruct (starts_cut _ _ S U Fw) as (r & -> & Ur). rewrite seek_C.
      destruct (skip_spaces_spec (pre ++ w) r Ur) as (bl & l & -> & -> & _ & Ul & _). by apply err_fails, utf8_starts. }
    destruct (starts_with suf (str "and")) eqn:Ea; [by apply Hd; [|asciis]|].
    destruct (starts_with suf (str "or")) eqn:Eo; [by apply Hd; [|asciis]|].
    destruct negated; [by apply err_fails, utf8_starts|]. destruct (_ && _); [|done].
    apply (err_word_cut _ pre suf); [done|done|done|by repeat constructor]. }
  destruct (starts_with suf (str "not.")) eqn:Nt.
  - destruct (starts_cut _ _ Nt U ltac:(by asciis)) as (r & -> & Ur). rewrite eat_str_yes. exact (Go true _ r Ur).
  - rewrite eat_str_no by done. exact (Go false pre suf U).
Qed.
Lemma tree_spec fuel :
  (∀ pre suf, (3 * length suf + 1 ≤ fuel)%nat → utf8 suf →
     spec (parse_group_body fuel (C pre suf)) pre suf (λ kids _ _, kids ≠ [] ∧ nodes_ok kids)) ∧
  (∀ kids pre suf, (3 * length suf + 3 ≤ fuel)%nat → utf8 suf → nodes_ok kids →
     spec (items_loop fuel kids (C pre suf)) pre suf (λ l _ _, l ≠ [] ∧ nodes_ok l)) ∧
  (∀ pre suf, (3 * length suf + 2 ≤ fuel)%nat → utf8 suf →
     spec (parse_item fuel (C pre suf)) pre suf (λ n used _, node_ok n ∧ used ≠ [])).
Proof.
  induction fuel as [|fuel (IHg & IHl & IHi)]; [split_and!; intros; lia|]. split_and!.
  - intros pre suf Lf U. cbn [parse_group_body]. destruct (skip_spaces_spec pre suf U) as (bl & l & -> & -> & Ub & Ul & _).
    apply spec_skip; [done|]. eapply spec_bind; [by apply expect_as_spec|]. intros [] u2 l2 -> _ U2 ->.
    destruct (skip_spaces_spec ((pre ++ bl) ++ [LPAREN]) l2 U2) as (b2 & l3 & -> & -> & Ub2 & U3 & _). apply spec_skip; [done|].
    apply IHl; [|done|done]. rewrite !length_app in Lf. cbn in Lf. lia.
  - intros kids pre suf Lf U Nk. cbn [items_loop]. eapply spec_bind; [apply IHi; [lia|done]|]. intros kid used left -> _ Ul [Kk Nu]. cbv zeta.
    destruct (skip_spaces_spec (pre ++ used) left Ul) as (bl & l & -> & -> & Ub & U2 & _). apply spec_skip; [done|].
    assert (Nk' : nodes_ok (kids ++ [kid])) by by apply nodes_ok_app.
    assert (Cl : spec ('(_, cur) ← expect_as RPAREN [word [COMMA_]; word [RPAREN]] (C ((pre ++ used) ++ bl) l); mret (kids ++ [kid], skip_spaces cur))
                   ((pre ++ used) ++ bl) l (λ l _ _, l ≠ [] ∧ nodes_ok l)).
    { eapply spec_bind; [by apply expect_as_spec|]. intros [] u3 l3 -> _ U3 _.
      destruct (skip_spaces_spec (((pre ++ used) ++ bl) ++ u3) l3 U3) as (b4 & l4 & -> & -> & Ub4 & U4 & _). apply spec_skip; [done|].
      apply spec_ret; [done|]. split; [by destruct kids|done]. }
    destruct l as [|b l]; [rewrite eat_no by done; exact Cl|].
    destruct (decide (b = COMMA_)) as [-> |N]; [|rewrite eat_no by (cbn; congruence); exact Cl].
    rewrite eat_yes. apply (spec_skip _ ((pre ++ used) ++ bl) [COMMA_] l); [done|]. apply (utf8_ascii_cons COMMA_ l) in U2; [|done].
    destruct (skip_spaces_spec (((pre ++ used) ++ bl) ++ [COMMA_]) l U2) as (b5 & l5 & -> & -> & Ub5 & U5 & _). apply spec_skip; [done|].
    apply IHl; [|done|done]. rewrite !length_app in Lf. cbn in Lf. rewrite !length_app in Lf. lia.
  - intros pre suf Lf U. cbn [parse_item]. pose proof (group_head_spec pre suf U) as Gh.
    destruct (group_head (C pre suf)) as [[[[op ng] c]|]| |]; [| |done..]; rewrite bind_run.
    + destruct Gh as (used & left & -> & -> & Uu & Ul & Nu). apply spec_skip; [done|]. eapply spec_bind; [apply IHg; [|done]|].
      * rewrite length_app in Lf. destruct used; [done|cbn in Lf; lia].
      * intros kids u2 l2 -> _ U2 [Nn Kk]. apply spec_ret; [done|]. split; [done|by destruct used].
    + pose proof (parse_condition_spec pre suf U) as Pc. destruct (parse_condition (C pre suf)) as [nc|e|]; [exact Pc| |done].
      by apply fails_spec, item_error_fails.
Qed.
Lemma parse_pair_spec key value :
  utf8 key → utf8 value → match parse_pair key value with Ok p => parsed_ok p | Err _ => True | Panic => False end.
Proof.
  intros Uk Uv. unfold parse_pair. cbv zeta. pose proof (parse_key_spec key Uk) as Pk. destruct (parse_key key) as [k| |]; [|done..].
  cbn [map_err]. rewrite bind_run. rewrite cur_new_C. destruct k as [f|embed op negated]; cbn in Pk.
  - pose proof (parse_cond_rhs_spec f false [] value Uv) as Pc. destruct (parse_cond_rhs f false (C [] value)) as [[c cur]| |]; [|done..].
    destruct Pc as (_ & _ & _ & _ & _ & _ & <- & Rk). done.
  - destruct (tree_spec (tree_fuel (length value))) as [Tg _]. specialize (Tg [] value ltac:(unfold tree_fuel; lia) Uv).
    destruct (parse_group_body _ _) as [[kids cur]| |]; [|done..]. destruct Tg as (_ & _ & _ & _ & _ & _ & Nn & Kk). done.
Qed.
