(* ===== verification/RestFilterRound.v ===== *)
(** * RestFilterRound: the canonical pair parses to the tree it renders

    Each scanner of the filter grammar, run on what the renderer writes for
    a value, gives that value back and stops right behind it. *)
From S2P Require Import Prelude Order Text Utf8 RestScan RestScanProofs RestFilter RestFilterProofs.

(** ** Segments *)
(** A segment ends the key or is followed by a dot. *)
Definition seg_stop (s : bytes) : Prop := s = [] ∨ head s = Some DOT.
Lemma seg_stop_key s : seg_stop s → key_stop s ∧ (∀ path, path_then path s) ∧ starts_with s ARROW = false ∧ name_stop name_break s.
Proof.
  intros [-> |E]; [by split_and!|]. destruct s as [|b s]; [done|]. injection E as ->.
  split_and!; [left; by split|by intros path st _ _|done|by split; [|left]].
Qed.
Lemma fmt_path_stop path suf : seg_stop suf → name_stop name_break (fmt_path path ++ suf).
Proof.
  intros St. destruct path as [|st path]; [by apply seg_stop_key|]. rewrite fmt_path_cons, <-!app_assoc. split; [done|by right].
Qed.
Lemma bare_name n :
  name_needs_quotes n = false →
  n ≠ [] ∧ clean name_break n ∧ trim n = n ∧ n ∉ [str "or"; str "and"; str "not"] ∧ head n ≠ Some QUOTE.
Proof.
  unfold name_needs_quotes. rewrite !orb_false_iff, !bool_decide_eq_false, negb_false_iff, bool_decide_eq_true.
  intros ((((((Nn & Ex) & Co) & Tr) & No) & Na) & Nt).
  assert (F : Forall (λ b, name_break b = false) n).
  { apply Forall_forall. intros b Hb. apply not_true_iff_false. intros B. apply not_true_iff_false in Ex. apply Ex, existsb_exists.
    exists b. split; [by apply list_elem_of_In|]. by rewrite B. }
  split_and!; try done.
  - intros [->|[->|[->|[]%not_elem_of_nil]%elem_of_cons]%elem_of_cons]%elem_of_cons; done.
  - destruct n as [|b n]; [done|]. apply Forall_cons in F as [F _]. by intros [= ->].
Qed.
Lemma parse_segment_bare pre n path suf :
  utf8 n → n ≠ [] → clean name_break n → trim n = n → head n ≠ Some QUOTE → path_ok path → seg_stop suf →
  parse_segment (C pre (n ++ fmt_path path ++ suf)) = Ok (mkSeg n path false, C (pre ++ n ++ fmt_path path) suf).
Proof.
  intros U Nn Cl Tr Nq Pk St. destruct (seg_stop_key suf St) as (Ks & Pt & Na & _). unfold parse_segment.
  rewrite at_byte_C, bool_decide_false by (destruct n; [done|by cbn in *]).
  assert (So : starts_ok (fmt_path path ++ suf)).
  { destruct path as [|st path]; [by apply key_stop_starts|]. by rewrite fmt_path_cons, <-!app_assoc. }
  rewrite scan_name_app, bind_run by (done || by apply fmt_path_stop). rewrite ret_bind, Tr.
  destruct n as [|b n]; [done|]. rewrite parse_json_path_app, bind_run by done. by rewrite <-app_assoc.
Qed.
Lemma parse_segment_app pre n path suf :
  name_ok n → path_ok path → seg_stop suf →
  parse_segment (C pre (name_fmt n ++ fmt_path path ++ suf)) = Ok (mkSeg n path (name_needs_quotes n), C (pre ++ name_fmt n ++ fmt_path path) suf).
Proof.
  intros [U Nn] Pk St. unfold name_fmt. destruct (name_needs_quotes n) eqn:Nq.
  - destruct (seg_stop_key suf St) as (Ks & Pt & Na & _). unfold parse_segment. rewrite at_byte_C, bool_decide_true by done.
    rewrite scan_quoted_app, bind_run by done. destruct n as [|b n]; [done|]. rewrite parse_json_path_app, bind_run by done. by rewrite <-app_assoc.
  - destruct (bare_name n Nq) as (_ & Cl & Tr & _ & Hq). by apply parse_segment_bare.
Qed.

(** ** Keys *)
Definition seg_of (n : bytes) : Seg := mkSeg n [] (name_needs_quotes n).
Lemma dotted_cons e embed : dotted (e :: embed) = name_fmt e ++ [DOT] ++ dotted embed.
Proof. unfold dotted. cbn. by rewrite <-app_assoc. Qed.
Lemma length_dotted embed : (length embed ≤ length (dotted embed))%nat.
Proof. induction embed as [|e embed IH]; [done|]. rewrite dotted_cons, !length_app. cbn in *. lia. Qed.
Lemma segs_loop_dotted embed : Forall name_ok embed → ∀ fuel segs pre w,
  segs_loop (length embed + fuel) segs (C pre (dotted embed ++ w)) = segs_loop fuel (segs ++ (seg_of <$> embed)) (C (pre ++ dotted embed) w).
Proof.
  induction 1 as [|e embed Ne F IH]; intros fuel segs pre w; [by rewrite !app_nil_r|].
  rewrite dotted_cons, <-!app_assoc. cbn [length plus segs_loop].
  pose proof (parse_segment_app pre e [] ([DOT] ++ dotted embed ++ w) Ne ltac:(constructor) ltac:(by right)) as Ps. cbn [fmt_path fmap list_fmap concat app] in Ps.
  cbn [app]. rewrite Ps, bind_run. cbv zeta. cbn [sg_path]. rewrite app_nil_r, eat_yes, bool_decide_true by done. cbn [negb].
  rewrite IH. f_equal; [by rewrite <-app_assoc|]. by rewrite <-!app_assoc.
Qed.
Lemma segs_loop_last fuel segs sg pre w :
  parse_segment (C pre w) = Ok (sg, C (pre ++ w) []) →
  segs_loop (S fuel) segs (C pre w) = Ok (segs ++ [sg], C (pre ++ w) []).
Proof. intros E. cbn [segs_loop]. rewrite E, bind_run. cbv zeta. rewrite eat_no by done. by rewrite cur_done_C, bool_decide_true. Qed.
Lemma embed_names_of kc embed : embed_names kc (seg_of <$> embed) = Ok embed.
Proof. induction embed as [|e embed IH]; [done|]. cbn. by rewrite IH. Qed.
Lemma is_word_no w n path q : (n = w → q = true) → is_word w (mkSeg n path q) = false.
Proof.
  intros Q. unfold is_word. cbn. destruct (decide (n = w)) as [E|N]; [by rewrite Q|]. rewrite (bool_decide_false (n = w)) by done. by rewrite !andb_false_r.
Qed.
Lemma is_word_of w n path : w ∈ [str "or"; str "and"; str "not"] → is_word w (mkSeg n path (name_needs_quotes n)) = false.
Proof.
  intros W. apply is_word_no. intros ->. apply not_false_iff_true. intros Nq. by apply bare_name in Nq as (_ & _ & _ & ? & _).
Qed.
Lemma parse_key_field f : field_ok f → parse_key (field_fmt f) = Ok (KField f).
Proof.
  intros (Fe & Nc & Pk). unfold parse_key, field_fmt. cbv zeta. rewrite cur_new_C.
  set (w := name_fmt _ ++ fmt_path _).
  pose proof (parse_segment_app (dotted (fd_embed f)) _ _ [] Nc Pk ltac:(by left)) as Ps. rewrite app_nil_r in Ps. fold w in Ps.
  pose proof (length_dotted (fd_embed f)) as Ld.
  replace (S (length (dotted (fd_embed f) ++ w))) with (length (fd_embed f) + S (length (dotted (fd_embed f) ++ w) - length (fd_embed f)))%nat
    by (rewrite length_app; lia).
  rewrite segs_loop_dotted by done. cbn [app]. erewrite segs_loop_last by exact Ps. rewrite bind_run, rev_app_distr. cbn [rev app].
  rewrite !is_word_of by set_solver. by rewrite rev_involutive, embed_names_of, bind_run; destruct f.
Qed.
Lemma logic_bare op : utf8 (logic_name op) ∧ logic_name op ≠ [] ∧ clean name_break (logic_name op) ∧ trim (logic_name op) = logic_name op.
Proof. destruct op; split_and!; try done; by (split; [repeat constructor|]). Qed.
Lemma not_bare : clean name_break (str "not").
Proof. split; [repeat constructor|done]. Qed.
Lemma parse_key_logic embed op (negated : bool) :
  Forall name_ok embed →
  parse_key (dotted embed ++ (if negated then str "not." else []) ++ logic_name op) = Ok (KLogic embed op negated).
Proof.
  intros Fe. unfold parse_key. cbv zeta. rewrite cur_new_C. set (w := (if negated then str "not." else []) ++ logic_name op).
  pose proof (length_dotted embed) as Ld. assert (Lw : (2 ≤ length w)%nat) by (subst w; destruct negated, op; cbn; lia).
  replace (S (length (dotted embed ++ w))) with (length embed + S (S (length (dotted embed ++ w) - length embed - 1)))%nat
    by (rewrite length_app in *; lia).
  rewrite segs_loop_dotted by done. cbn [app]. destruct (logic_bare op) as (Uo & No & Co & To).
  assert (Po : ∀ pre, parse_segment (C pre (logic_name op)) = Ok (mkSeg (logic_name op) [] false, C (pre ++ logic_name op) [])).
  { intros pre. pose proof (parse_segment_bare pre (logic_name op) [] [] Uo No Co To ltac:(by destruct op) ltac:(constructor) ltac:(by left)) as P.
    cbn in P. by rewrite !app_nil_r in P. }
  subst w. destruct negated; cbn [app].
  - replace (str "not." ++ logic_name op) with (str "not" ++ DOT :: logic_name op) by done. set (fu := S (_ - _)). cbn [segs_loop].
    pose proof (parse_segment_bare (dotted embed) (str "not") [] (DOT :: logic_name op) ltac:(done) ltac:(done) not_bare ltac:(done) ltac:(done) ltac:(constructor) ltac:(by right)) as Ps.
    cbn [fmt_path fmap list_fmap concat] in Ps. rewrite !app_nil_r, app_nil_l in Ps. rewrite Ps, bind_run. cbv zeta. rewrite eat_yes. cbn [sg_path].
    rewrite bool_decide_true by done. cbn [negb]. subst fu. erewrite segs_loop_last by apply Po. rewrite bind_run, !rev_app_distr.
    cbn [rev app]. destruct op; cbn -[seg_of embed_names]; by rewrite rev_involutive, embed_names_of.
  - erewrite segs_loop_last by apply Po. rewrite bind_run, !rev_app_distr. cbn [rev app].
    assert (Ea : (if is_word (str "or") (mkSeg (logic_name op) [] false) then Some LOr
                  else if is_word (str "and") (mkSeg (logic_name op) [] false) then Some LAnd else None) = Some op) by by destruct op.
    rewrite Ea. pose proof (rev_involutive (seg_of <$> embed)) as Er. destruct (rev (seg_of <$> embed)) as [|s front] eqn:R.
    + destruct embed; [done|]. cbn in Er. done.
    + assert (In s (seg_of <$> embed)) as (n & -> & _)%list_elem_of_In%list_elem_of_fmap.
      { rewrite in_rev, R. by left. }
      unfold seg_of at 1. rewrite is_word_of by set_solver. rewrite Er. by rewrite embed_names_of.
Qed.

(** ** Values *)
Lemma bare_elem s :
  element_needs_quotes s = false → s ≠ [] ∧ from_option is_blank false (head s) = false ∧ Forall (λ b, element_special b = false) s.
Proof.
  unfold element_needs_quotes. rewrite !orb_false_iff, bool_decide_eq_false. intros [[Nn Nb] Ex]. split_and!; [done|done|].
  apply Forall_forall. intros b Hb. apply not_true_iff_false. intros B. apply not_true_iff_false in Ex. apply Ex, existsb_exists.
  exists b. split; [by apply list_elem_of_In|done].
Qed.
(** An element stops at a terminator. *)
Definition ends_with (terms : list byte) (s : bytes) : Prop := match s with [] => False | b :: _ => b ∈ terms end.
Definition special (terms : list byte) : Prop := Forall (λ b, element_special b = true) terms.
Lemma special_ascii b : element_special b = true → ascii b.
Proof.
  unfold element_special. rewrite bool_decide_eq_true. intros B.
  repeat (apply elem_of_cons in B as [-> |B]; [done|]). by apply not_elem_of_nil in B.
Qed.
Lemma ends_starts terms s : special terms → ends_with terms s → starts_ok s.
Proof. destruct s as [|b s]; [done|]. cbn. intros Sp I. unfold special in Sp. rewrite Forall_forall in Sp. by apply ascii_not_cont, special_ascii, Sp. Qed.
Lemma elem_len_app terms s suf :
  special terms → Forall (λ b, element_special b = false) s → ends_with terms suf → elem_len terms (s ++ suf) = length s.
Proof.
  intros Sp F En. induction F as [|b s Fb F IH]; cbn.
  - destruct suf as [|c suf]; [done|]. cbn in *. by rewrite bool_decide_true.
  - rewrite bool_decide_false; [by rewrite IH|]. intros I. unfold special in Sp. rewrite Forall_forall in Sp. apply Sp in I. congruence.
Qed.
Lemma scan_element_app terms pre s suf :
  special terms → utf8 s → ends_with terms suf →
  scan_element terms (C pre (element_fmt s ++ suf)) = Ok (s, C (pre ++ element_fmt s) suf).
Proof.
  intros Sp U En. unfold scan_element, element_fmt. rewrite at_byte_C. destruct (element_needs_quotes s) eqn:Nq.
  - rewrite bool_decide_true, scan_quoted_app by done. rewrite peek_C. destruct suf as [|c suf]; [done|]. cbn in *. by rewrite bool_decide_true.
  - destruct (bare_elem s Nq) as (Nn & _ & F). pose proof (ends_starts _ _ Sp En) as So. rewrite bool_decide_false.
    + unfold bare_element. rewrite rest_C, elem_len_app by done. cbv zeta. cbn [c_s c_pos C].
      rewrite str_slice_mid, bind_run by (done || by apply starts_app). by rewrite seek_C.
    + destruct s as [|b s]; [done|]. apply Forall_cons in F as [Fb _]. by intros [= ->].
Qed.
Lemma element_head s suf : from_option is_blank false (head (element_fmt s ++ suf)) = false ∧ head (element_fmt s ++ suf) ∉ [Some LBRACE; Some RBRACE].
Proof.
  unfold element_fmt. destruct (element_needs_quotes s) eqn:Nq; [split; [done|cbn; set_solver]|].
  destruct (bare_elem s Nq) as (Nn & Bl & F). destruct s as [|b s]; [done|]. split; [done|]. apply Forall_cons in F as [Fb _]. cbn.
  rewrite !elem_of_cons, elem_of_nil. intros [[= ->]|[[= ->]|[]]]; done.
Qed.
Lemma elements_loop_app fuel close out l pre suf :
  element_special close = true → close ≠ COMMA_ → l ≠ [] → Forall utf8 l → (length l ≤ fuel)%nat →
  elements_loop fuel close out (C pre (join [COMMA_] (element_fmt <$> l) ++ close :: suf)) =
  Ok (out ++ l, C (pre ++ join [COMMA_] (element_fmt <$> l) ++ [close]) suf).
Proof.
  intros Sc Nc Nl F. revert fuel out pre. induction F as [|e l Ue F IH]; intros fuel out pre Lf; [done|].
  assert (Sp : special [COMMA_; close]) by by repeat constructor.
  destruct fuel as [|fuel]; [cbn in Lf; lia|]. cbn [elements_loop]. destruct l as [|e2 l].
  - cbn [fmap list_fmap join]. rewrite scan_element_app, bind_run by (done || cbn; set_solver). cbv zeta.
    rewrite eat_no by (cbn; congruence). rewrite expect_as_yes, bind_run. by rewrite <-app_assoc.
  - cbn [fmap list_fmap] in *. rewrite join_cons, <-!app_assoc. rewrite scan_element_app, bind_run by (done || cbn; set_solver). cbv zeta.
    cbn [app]. rewrite eat_yes. rewrite IH by (done || cbn in *; lia). by rewrite <-!app_assoc.
Qed.
Lemma element_fmt_nonempty s : element_fmt s ≠ [].
Proof. unfold element_fmt. destruct (element_needs_quotes s) eqn:Nq; [done|]. by apply bare_elem in Nq as [? _]. Qed.
Lemma parse_elements_app close l pre suf :
  element_special close = true → close ≠ COMMA_ → l ≠ [] → Forall utf8 l →
  parse_elements close (C pre (join [COMMA_] (element_fmt <$> l) ++ close :: suf)) =
  Ok (l, C (pre ++ join [COMMA_] (element_fmt <$> l) ++ [close]) suf).
Proof.
  intros Sc Nc Nl F. unfold parse_elements. rewrite rest_C. apply (elements_loop_app _ _ []); try done. rewrite length_app.
  pose proof (length_join [COMMA_] (element_fmt <$> l)) as L. rewrite length_fmap in L. specialize (L ltac:(apply Forall_fmap, Forall_true; intros; apply element_fmt_nonempty)). lia.
Qed.

(** ** Conditions *)
(** What may follow a condition at the top and in a tree. *)
Definition cond_stop (in_tree : bool) (s : bytes) : Prop := if in_tree then ends_with [COMMA_; RPAREN] s else s = [].
Lemma tree_special : special [COMMA_; RPAREN].
Proof. by repeat constructor. Qed.
Definition fmt_modifier (config : option bytes) (quant : option Quant) : bytes :=
  from_option (λ cfg, [LPAREN] ++ cfg ++ [RPAREN]) [] config ++
  match quant with Some QAny => str "(any)" | Some QAll => str "(all)" | None => [] end.
Definition fmt_value (v : Value) (top : bool) : bytes :=
  match v with
  | Lit s => if top then s else element_fmt s
  | VList l => [LPAREN] ++ join [COMMA_] (element_fmt <$> l) ++ [RPAREN]
  | VArray l => [LBRACE] ++ join [COMMA_] (element_fmt <$> l) ++ [RBRACE]
  end.
Lemma fmt_rhs_parts c top :
  fmt_rhs c top = (if cd_negated c then str "not." else []) ++ op_name (cd_op c) ++ fmt_modifier (cd_config c) (cd_quant c) ++ [DOT] ++ fmt_value (cd_value c) top.
Proof. unfold fmt_rhs, fmt_modifier, fmt_value. by rewrite <-!app_assoc. Qed.
Lemma rparen_stop s : name_stop name_break (RPAREN :: s).
Proof. split; [done|by left]. Qed.
Lemma quantifiable_fts op : quantifiable op = true → is_fts op = false.
Proof. by destruct op. Qed.
Lemma parse_modifier_app op negated at_ quant config pre suf :
  config_ok op quant config →
  parse_modifier op negated at_ (C pre (fmt_modifier config quant ++ DOT :: suf)) = Ok ((quant, config), C (pre ++ fmt_modifier config quant) (DOT :: suf)).
Proof.
  intros [Q Cf]. unfold parse_modifier, fmt_modifier. destruct config as [m|].
  - destruct Q as [-> |[_ ?]]; [|done]. destruct (Cf m eq_refl) as (Ft & Nm & Um & Cm). cbn [from_option]. rewrite !app_nil_r, <-!app_assoc.
    cbn [app]. rewrite at_byte_C, bool_decide_true, Ft by done. cbn [orb andb]. rewrite bump_C. cbv zeta.
    rewrite scan_name_app, bind_run by (done || apply rparen_stop). rewrite bool_decide_false by done. cbn [negb]. rewrite bind_run, eat_yes.
    cbv beta iota. by rewrite <-!app_assoc.
  - cbn [from_option app]. destruct quant as [q|].
    + destruct Q as [|[Qu _]]; [done|]. pose proof (quantifiable_fts op Qu) as Nf.
      assert (K : ∀ w, clean name_break w → utf8 w → w ≠ [] → (w = str "any" ∧ q = QAny ∨ w = str "all" ∧ q = QAll) →
        parse_modifier op negated at_ (C pre (LPAREN :: w ++ RPAREN :: DOT :: suf)) = Ok ((Some q, None), C (pre ++ LPAREN :: w ++ [RPAREN]) (DOT :: suf))).
      { intros w Cw Uw Nw W. unfold parse_modifier. rewrite at_byte_C, bool_decide_true, Qu by done. rewrite orb_true_r, Nf. cbn [andb]. rewrite bump_C. cbv zeta.
        rewrite scan_name_app, bind_run by (done || apply rparen_stop).
        destruct W as [[-> ->]|[-> ->]].
        - rewrite bool_decide_true by done. cbn [andb]. rewrite bind_run, eat_yes. cbv beta iota. by rewrite <-!app_assoc.
        - rewrite bool_decide_false, bool_decide_true by done. cbn [andb]. rewrite bind_run, eat_yes. cbv beta iota. by rewrite <-!app_assoc. }
      destruct q; [apply (K (str "any"))|apply (K (str "all"))]; try done; try (split; [repeat constructor|done]); [by left|by right].
    + rewrite at_byte_C, bool_decide_false by done. by rewrite app_nil_r.
Qed.
Lemma scan_array_none pre suf : head suf ≠ Some LBRACE → scan_array (C pre suf) = Ok None.
Proof. intros N. unfold scan_array. by rewrite at_byte_C, bool_decide_false. Qed.
Lemma parse_value_app op quant in_tree v pre suf :
  value_ok op quant v → cond_stop in_tree suf → (quant ≠ None → op ≠ OpIn) →
  parse_value op quant in_tree (C pre (fmt_value v (negb in_tree) ++ suf)) = Ok (v, C (pre ++ fmt_value v (negb in_tree)) suf).
Proof.
  intros Vk St Nq. unfold parse_value. destruct v as [s|l|l]; cbn [value_ok fmt_value] in *.
  - destruct Vk as (Us & No & -> & _). rewrite decide_False by done. destruct in_tree; cbn [negb cond_stop] in *.
    + destruct (element_head s suf) as [_ Hd]. rewrite scan_array_none, bind_run by set_solver.
      by rewrite (scan_element_app _ _ _ _ tree_special), bind_run.
    + subst suf. rewrite app_nil_r. unfold take_rest. cbn [c_s c_pos C]. rewrite str_slice_tail by by apply utf8_starts. rewrite !bind_run, ret_bind.
      unfold seek, C. cbn. by rewrite app_nil_r.
  - destruct Vk as (-> & Nl & F & ->). rewrite decide_True by done. rewrite <-!app_assoc. cbn [app]. rewrite skip_spaces_none by done.
    unfold cur_expect. rewrite expect_as_yes, bind_run.
    assert (Hb : from_option is_blank false (head (join [COMMA_] (element_fmt <$> l) ++ RPAREN :: suf)) = false).
    { destruct l as [|e [|e2 l]]; [done|..]; cbn [fmap list_fmap]; [apply element_head|]. rewrite join_cons, <-!app_assoc. apply element_head. }
    rewrite skip_spaces_none by done. rewrite parse_elements_app, bind_run by done. by rewrite <-!app_assoc.
  - destruct Vk as [Nn F]. rewrite decide_False by by apply Nq. destruct quant as [q|]; [|done]. rewrite <-!app_assoc. cbn [app].
    unfold cur_expect. rewrite expect_as_yes, bind_run. destruct l as [|e l].
    + cbn [fmap list_fmap join app]. rewrite eat_yes. by rewrite <-!app_assoc.
    + rewrite eat_no. 2:{ destruct l as [|e2 l]; cbn [fmap list_fmap]; [pose proof (element_head e (RBRACE :: suf)) as [_ H]; set_solver|].
        rewrite join_cons, <-!app_assoc. pose proof (element_head e ([COMMA_] ++ join [COMMA_] (element_fmt e2 :: (element_fmt <$> l)) ++ RBRACE :: suf)) as [_ H]. set_solver. }
      rewrite parse_elements_app, bind_run by done. by rewrite <-!app_assoc.
Qed.
Lemma is_values_lower s : s ∈ IS_VALUES → to_ascii_lowercase s = s.
Proof. intros I. unfold IS_VALUES in I. cbn in I. repeat (apply elem_of_cons in I as [-> |I]; [by vm_compute|]). by apply not_elem_of_nil in I. Qed.
Lemma check_is_ok op quant v literal cur : value_ok op quant v → config_ok op quant None ∨ quant = None → check_is op literal v cur = Ok v.
Proof.
  intros Vk Co. unfold check_is. case_decide as E; [|done]. destruct v as [s|l|l]; cbn in Vk.
  - destruct Vk as (_ & _ & _ & Is). specialize (Is E). rewrite is_values_lower, bool_decide_true by done. done.
  - destruct Vk as [-> _]. done.
  - destruct Vk as [Nn _]. destruct Co as [[[-> |[Qu _]] _]| ->]; [done|by subst op|done].
Qed.
Lemma op_name_ok op :
  utf8 (op_name op) ∧ clean name_break (op_name op) ∧ op_parse (op_name op) = Some op ∧ ∀ s, starts_with (op_name op ++ s) (str "not.") = false.
Proof. destruct op; split_and!; try done; split; try done; repeat constructor. Qed.
Lemma parse_cond_rhs_app field in_tree c pre suf :
  cd_field c = field → rhs_ok c → cond_stop in_tree suf →
  parse_cond_rhs field in_tree (C pre (fmt_rhs c (negb in_tree) ++ suf)) = Ok (c, C (pre ++ fmt_rhs c (negb in_tree)) suf).
Proof.
  intros <- [Co Vk] St. rewrite fmt_rhs_parts. destruct c as [field negated op quant config v]. cbn [cd_field cd_negated cd_op cd_config cd_quant cd_value] in *.
  destruct (op_name_ok op) as (Uo & Cl & Po & Nn). unfold parse_cond_rhs. rewrite <-!app_assoc.
  assert (Ea : eat_str (str "not.") (C pre ((if negated then str "not." else []) ++ op_name op ++ fmt_modifier config quant ++ [DOT] ++ fmt_value v (negb in_tree) ++ suf)) =
               (negated, C (pre ++ if negated then str "not." else []) (op_name op ++ fmt_modifier config quant ++ [DOT] ++ fmt_value v (negb in_tree) ++ suf))).
  { destruct negated; [apply eat_str_yes|]. rewrite app_nil_r. by apply eat_str_no. }
  rewrite Ea. cbv zeta. cbn [app].
  assert (Ms : name_stop name_break (fmt_modifier config quant ++ DOT :: fmt_value v (negb in_tree) ++ suf) ∧ starts_ok (fmt_modifier config quant ++ DOT :: fmt_value v (negb in_tree) ++ suf)).
  { unfold fmt_modifier. destruct config; [|destruct quant as [[]|]]; cbn [from_option app]; (split; [split; [done|by left]|done]). }
  rewrite scan_name_app, bind_run by (done || apply Ms). rewrite Po, parse_modifier_app, bind_run by done. rewrite eat_yes.
  rewrite parse_value_app, bind_run by (done || by eapply config_quant).
  rewrite (check_is_ok _ quant), bind_run; [by rewrite <-!app_assoc|done|]. destruct Co as [[-> |[Qu ->]] _]; [by right|left]. split; [by right|done].
Qed.

(** ** Trees *)
Definition tree_stop (s : bytes) : Prop := match s with [] => True | b :: _ => b ∈ [COMMA_; RPAREN] end.
Lemma ends_tree s : ends_with [COMMA_; RPAREN] s → tree_stop s.
Proof. by destruct s. Qed.
Lemma tree_stop_blank s : tree_stop s → from_option is_blank false (head s) = false.
Proof. destruct s as [|b s]; [done|]. cbn. intros [-> |[-> |[]%not_elem_of_nil]%elem_of_cons]%elem_of_cons; done. Qed.
Lemma not_prefix n s : clean name_break n → n ≠ str "not" → name_stop name_break s → starts_with (n ++ s) (str "not.") = false.
Proof.
  intros [F _] N [_ St]. apply not_true_iff_false. intros [r E]%starts_with_inv.
  assert (K : ∀ a b c : bytes, a ++ b = c ++ r → Forall (λ x, name_break x = false) a → (length c ≤ length a)%nat → ∃ d, a = c ++ d).
  { clear. intros a b c E F L. apply app_eq_inv in E as [(k & -> & _)|(k & -> & _)]; [by exists k|]. rewrite length_app in L.
    destruct k; [exists []; by rewrite !app_nil_r|cbn in L; lia]. }
  destruct (decide (length n < 4)%nat) as [L|L].
  - destruct n as [|b1 [|b2 [|b3 [|b4 n]]]]; cbn in L; try lia; cbn in E; clear L K.
    + subst s. cbn in St. destruct St as [?|?]; done.
    + injection E as -> ->. cbn in St. destruct St as [?|?]; done.
    + injection E as -> -> ->. cbn in St. destruct St as [?|?]; done.
    + injection E as -> -> -> _. done.
  - destruct (K n s (str "not.") E F ltac:(cbn; lia)) as [d ->]. apply Forall_app in F as [F _]. unfold str in F. cbn in F.
    do 3 apply Forall_cons in F as [_ F]. by apply Forall_cons in F as [F _].
Qed.
Lemma group_head_cond pre n path suf :
  name_ok n → group_head (C pre (name_fmt n ++ fmt_path path ++ DOT :: suf)) = Ok None.
Proof.
  intros [U Nn]. unfold group_head, name_fmt. destruct (name_needs_quotes n) eqn:Nq.
  - rewrite eat_str_no by done. pose proof (scan_name_app name_break pre [] (write_escaped n ++ fmt_path path ++ DOT :: suf) (clean_nil _) ltac:(done)) as Sn.
    cbn [app] in Sn. rewrite Sn, bind_run; [done|by split; [|left]|done].
  - destruct (bare_name n Nq) as (_ & Cl & Tr & Nw & Hq).
    pose proof (fmt_path_stop path (DOT :: suf) ltac:(by right)) as St.
    rewrite eat_str_no by (apply not_prefix; [done|set_solver|done]). cbv beta iota.
    assert (So : starts_ok (fmt_path path ++ DOT :: suf)) by (destruct path; [done|by rewrite fmt_path_cons]).
    rewrite scan_name_app, bind_run by done. cbv zeta. rewrite Tr, !bool_decide_false by set_solver. done.
Qed.
Lemma group_head_group pre op (negated : bool) suf :
  group_head (C pre ((if negated then str "not." else []) ++ logic_name op ++ LPAREN :: suf)) =
  Ok (Some (op, negated, C (pre ++ (if negated then str "not." else []) ++ logic_name op) (LPAREN :: suf))).
Proof.
  unfold group_head. destruct (logic_bare op) as (Uo & No & Co & To).
  assert (Ea : eat_str (str "not.") (C pre ((if negated then str "not." else []) ++ logic_name op ++ LPAREN :: suf)) =
               (negated, C (pre ++ if negated then str "not." else []) (logic_name op ++ LPAREN :: suf))).
  { destruct negated; [apply eat_str_yes|]. rewrite app_nil_r. apply eat_str_no. by destruct op. }
  rewrite Ea. cbv beta iota. rewrite scan_name_app, bind_run; [|done|done|by split; [|left]|done]. cbv zeta. rewrite To.
  assert (Eo : (if bool_decide (logic_name op = str "and") then Some LAnd else if bool_decide (logic_name op = str "or") then Some LOr else None) = Some op) by by destruct op.
  rewrite Eo, skip_spaces_none by done. rewrite at_byte_C, bool_decide_true by done. by rewrite <-app_assoc.
Qed.
Lemma parse_condition_app pre c suf :
  fd_embed (cd_field c) = [] → field_ok (cd_field c) → rhs_ok c → ends_with [COMMA_; RPAREN] suf →
  parse_condition (C pre (node_fmt (NCond c) ++ suf)) = Ok (NCond c, C (pre ++ node_fmt (NCond c)) suf).
Proof.
  intros Ee (_ & Nc & Pk) Rk St. cbn [node_fmt]. unfold field_fmt, parse_condition. rewrite Ee. cbn [dotted fmap list_fmap concat app]. rewrite <-!app_assoc. cbn [app].
  rewrite parse_segment_app, bind_run by (done || by right). rewrite expect_as_yes, bind_run. cbn [sg_name sg_path].
  assert (Ef : mkField [] (fd_column (cd_field c)) (fd_path (cd_field c)) = cd_field c) by (destruct (cd_field c); cbn in *; by subst).
  rewrite Ef. rewrite (parse_cond_rhs_app (cd_field c) true), bind_run by done. by rewrite <-!app_assoc.
Qed.
Lemma node_head n suf : node_ok n → from_option is_blank false (head (node_fmt n ++ suf)) = false ∧ node_fmt n ≠ [].
Proof.
  intros Nk. destruct n as [op negated kids|c]; [destruct negated, op; split; done|].
  destruct Nk as (Ee & (_ & [_ Nc] & _) & _). cbn [node_fmt]. unfold field_fmt. rewrite Ee. cbn [dotted fmap list_fmap concat app]. unfold name_fmt.
  destruct (name_needs_quotes _) eqn:Nq; [by split|]. destruct (bare_name _ Nq) as (_ & _ & Tr & _). apply bare_blank in Tr.
  destruct (fd_column _); [done|]. split; done.
Qed.
Definition kids_fmt (kids : list Node) : bytes := join [COMMA_] (map node_fmt kids).
Lemma tree_app fuel :
  (∀ pre kids suf, kids ≠ [] → nodes_ok kids → (3 * length (kids_fmt kids) + 4 ≤ fuel)%nat → tree_stop suf →
     parse_group_body fuel (C pre ([LPAREN] ++ kids_fmt kids ++ RPAREN :: suf)) = Ok (kids, C (pre ++ [LPAREN] ++ kids_fmt kids ++ [RPAREN]) suf)) ∧
  (∀ pre before kids suf, kids ≠ [] → nodes_ok kids → (3 * length (kids_fmt kids) + 3 ≤ fuel)%nat → tree_stop suf →
     items_loop fuel before (C pre (kids_fmt kids ++ RPAREN :: suf)) = Ok (before ++ kids, C (pre ++ kids_fmt kids ++ [RPAREN]) suf)) ∧
  (∀ pre n suf, node_ok n → (3 * length (node_fmt n) + 2 ≤ fuel)%nat → ends_with [COMMA_; RPAREN] suf →
     parse_item fuel (C pre (node_fmt n ++ suf)) = Ok (n, C (pre ++ node_fmt n) suf)).
Proof.
  induction fuel as [|fuel (IHg & IHl & IHi)]; [split_and!; intros; lia|]. split_and!.
  - intros pre kids suf Nn Nk Lf St. cbn [parse_group_body app]. rewrite skip_spaces_none by done. unfold cur_expect. rewrite expect_as_yes, bind_run.
    rewrite skip_spaces_none, IHl by (done || lia || (destruct kids as [|k [|k2 kids]]; [done| |unfold kids_fmt; cbn [map]; rewrite join_cons, <-!app_assoc]; apply node_head, Nk)).
    by rewrite <-!app_assoc.
  - intros pre before kids suf Nn Nk Lf St. destruct kids as [|kid kids]; [done|]. destruct Nk as [Kk Nk]. cbn [items_loop].
    destruct kids as [|k2 kids].
    + unfold kids_fmt in *. cbn [map join] in *. rewrite IHi, bind_run by (done || lia || by right; left). cbv zeta.
      rewrite skip_spaces_none, eat_no by done. rewrite expect_as_yes, bind_run, skip_spaces_none by by apply tree_stop_blank. by rewrite <-!app_assoc.
    + unfold kids_fmt in *. cbn [map] in *. rewrite join_cons, !length_app in *. rewrite <-!app_assoc. cbn [length] in Lf.
      rewrite IHi, bind_run by (done || lia || by left). cbv zeta. rewrite skip_spaces_none by done. cbn [app]. rewrite eat_yes.
      rewrite skip_spaces_none.
      * change (node_fmt k2 :: map node_fmt kids) with (map node_fmt (k2 :: kids)) in *. rewrite IHl by (done || lia). by rewrite <-!app_assoc.
      * destruct Nk as [K2 _]. destruct kids as [|k3 kids]; cbn [map]; [|rewrite join_cons, <-!app_assoc]; by apply node_head.
  - intros pre n suf Nk Lf En. cbn [parse_item]. destruct n as [op negated kids|c].
    + cbn [node_fmt] in *. fold (kids_fmt kids) in *. rewrite <-!app_assoc. cbn [app]. rewrite group_head_group, bind_run. destruct Nk as [Nn Nk].
      assert (Ll : (2 ≤ length (logic_name op))%nat) by (destruct op; cbn; lia). rewrite !length_app in Lf. cbn [length] in Lf.
      change (LPAREN :: kids_fmt kids ++ RPAREN :: suf) with ([LPAREN] ++ kids_fmt kids ++ RPAREN :: suf).
      rewrite IHg, bind_run by (done || lia || by apply ends_tree). by rewrite <-!app_assoc.
    + destruct Nk as (Ee & Fk & Rk). pose proof Fk as (_ & Nc & Pk). 
      pose proof (group_head_cond pre (fd_column (cd_field c)) (fd_path (cd_field c)) (fmt_rhs c false ++ suf) Nc) as Gh.
      assert (Et : node_fmt (NCond c) ++ suf = name_fmt (fd_column (cd_field c)) ++ fmt_path (fd_path (cd_field c)) ++ DOT :: fmt_rhs c false ++ suf).
      { cbn [node_fmt]. unfold field_fmt. rewrite Ee. cbn [dotted fmap list_fmap concat app]. by rewrite <-!app_assoc. }
      rewrite Et, Gh, bind_run, <-Et. by rewrite parse_condition_app.
Qed.

(** ** Pairs *)
Lemma render_back p : parsed_ok p → parse_pair (render p).1 (render p).2 = Ok p.
Proof.
  intros Pk. unfold parse_pair. cbv zeta. destruct p as [c|embed op negated kids]; cbn [render fst snd].
  - destruct Pk as [Fk Rk]. rewrite parse_key_field by done. cbn [map_err]. rewrite bind_run, cur_new_C.
    pose proof (parse_cond_rhs_app _ false c [] [] eq_refl Rk eq_refl) as Pc. cbn [negb] in Pc. rewrite !app_nil_r in Pc. by rewrite Pc.
  - destruct Pk as (Fe & Nn & Nk). rewrite parse_key_logic by done. cbn [map_err]. rewrite bind_run, cur_new_C. fold (kids_fmt kids).
    set (value := [LPAREN] ++ kids_fmt kids ++ [RPAREN]).
    destruct (tree_app (tree_fuel (length value))) as [Tg _]. specialize (Tg [] kids [] Nn Nk).
    subst value. rewrite Tg; [done| |done]. unfold tree_fuel. rewrite !length_app. cbn. lia.
Qed.
(** C31: no query pair makes the filter parser panic, and when it accepts one,
    the canonical key and value of what it parsed parse to that very tree:
    embeds, json paths, negation, quantifiers, text search configurations,
    lists, arrays and logic trees of any depth.  Quoting decides what
    survives: a name that holds a delimiter, an arrow, a backslash or an
    outer blank, or spells a keyword of the grammar, and an element with a
    delimiter or a leading blank. *)
Theorem filter_round_trip key value :
  utf8 key → utf8 value →
  match parse_pair key value with
  | Ok p => parse_pair (render p).1 (render p).2 = Ok p
  | Err _ => True
  | Panic => False
  end.
Proof.
  intros Uk Uv. pose proof (parse_pair_spec key value Uk Uv) as Sp. destruct (parse_pair key value) as [p| |]; [|done|done].
  by apply render_back.
Qed.
Lemma filter_round_trip_witness :
  let key := str "post.data->0->>tags" in
  let value := str "not.in.(1,(a b),x)" in
  parse_pair key value = Ok (PFilter (mkCond (mkField [str "post"] (str "data") [mkStep false (JIndex 0); mkStep true (JName (str "tags"))]) true OpIn None None
                                (VList [str "1"; str "(a b"]))) ∧
  match parse_pair key value with Ok p => parse_pair (render p).1 (render p).2 = Ok p | Err _ => True | Panic => False end.
Proof. split; [by vm_compute|]. apply filter_round_trip; by vm_compute. Defined.
