(* ===== verification/RestOrder.v ===== *)
(** * RestOrder: the order grammar (crates/zou-rest/src/order.rs)

    [order=clients(name).desc.nullslast,data->>age] parsed into sort terms
    and rendered back. *)
From S2P Require Import Prelude Order Text Utf8 RestScan RestScanProofs.

(** ** Terms *)
Inductive Direction := Asc | Desc.
Inductive Nulls := NullsFirst | NullsLast.
Definition direction_name (d : Direction) : bytes := match d with Asc => str "asc" | Desc => str "desc" end.
Definition nulls_name (n : Nulls) : bytes := match n with NullsFirst => str "nullsfirst" | NullsLast => str "nullslast" end.
Record Term := mkTerm {
  tm_relation : option bytes; tm_name : bytes; tm_path : list JsonStep; tm_direction : option Direction; tm_nulls : option Nulls
}.
Definition COMMA_WORD : bytes := word [COMMA_].
Definition name_break (b : byte) : bool := bool_decide (b ∈ [DOT; COMMA_; LPAREN; RPAREN; QUOTE; LBRACE; RBRACE]).
Definition parse_field : parser bytes := λ cur,
  '(name, cur) ← (if at_byte QUOTE cur then scan_quoted cur else scan_name name_break cur);
  match name with [] => err cur [FIELD_NAME] | _ => mret (name, cur) end.
(** The words a modifier may be, and the first that is there. *)
Definition modifier_words (direction : option Direction) : list bytes :=
  (if direction then [] else [str "asc"; str "desc"]) ++ [str "nullsfirst"; str "nullslast"].
Definition take_word (words : list bytes) (cur : Cur) : option bytes := find (starts cur) words.
Fixpoint modifiers (fuel : nat) (direction : option Direction) (cur : Cur) : res Error ((option Direction * option Nulls) * Cur) :=
  match fuel with
  | O => Panic
  | S fuel =>
      let '(dot, cur) := eat DOT cur in
      if dot then
        let at_ := c_pos cur in
        let words := modifier_words direction in
        match take_word words cur with
        | Some w =>
            let '(_, cur) := eat_str w cur in
            if decide (w = str "asc") then modifiers fuel (Some Asc) cur
            else if decide (w = str "desc") then modifiers fuel (Some Desc) cur
            else if decide (w = str "nullsfirst") then mret ((direction, Some NullsFirst), cur)
            else mret ((direction, Some NullsLast), cur)
        | None => err_word cur at_ words (word <$> words)
        end
      else mret ((direction, None), cur)
  end.
Definition parse_term : parser Term := λ cur,
  '(name, cur) ← parse_field cur;
  let '(paren, cur) := eat LPAREN cur in
  '((relation, name), cur) ← (if paren then '(column, cur) ← parse_field cur; mret ((Some name, column), cur) else mret ((None, name), cur));
  '(path, cur) ← parse_json_path cur;
  '(_, cur) ← (match relation with Some _ => cur_expect RPAREN cur | None => mret ((), cur) end);
  '((direction, nulls), cur) ← modifiers 3 None cur;
  if negb (cur_done cur) && negb (at_byte COMMA_ cur) then
    leftover cur ((match nulls with None => [DELIMITER] | Some _ => [] end) ++ [COMMA_WORD; END])
  else mret (mkTerm relation name path direction nulls, cur).
Fixpoint terms_loop (fuel : nat) (terms : list Term) (cur : Cur) : res Error (list Term * Cur) :=
  match fuel with
  | O => Panic
  | S fuel =>
      '(term, cur) ← parse_term cur;
      let terms := terms ++ [term] in
      let '(comma, cur) := eat COMMA_ cur in
      if comma then terms_loop fuel terms cur
      else if cur_done cur then mret (terms, cur) else leftover cur [COMMA_WORD; END]
  end.
Definition parse (value : bytes) : res Error (list Term) :=
  '(terms, _) ← terms_loop (S (length value)) [] (cur_new value); mret terms.

(** ** Rendering *)
Definition name_needs_quotes (s : bytes) : bool :=
  bool_decide (s = []) || existsb (λ b, name_break b || bool_decide (b = BACKSLASH)) s || contains s ARROW.
Definition write_name (s : bytes) : bytes := if name_needs_quotes s then write_escaped s else s.
Definition term_fmt (t : Term) : bytes :=
  from_option (λ rel, write_name rel ++ [LPAREN]) [] (tm_relation t) ++ write_name (tm_name t) ++ fmt_path (tm_path t) ++
  from_option (λ _, [RPAREN]) [] (tm_relation t) ++
  from_option (λ d, DOT :: direction_name d) [] (tm_direction t) ++ from_option (λ n, DOT :: nulls_name n) [] (tm_nulls t).
Definition render (terms : list Term) : bytes := join [COMMA_] (term_fmt <$> terms).

(** ** What the parser makes *)
Definition name_ok (n : bytes) : Prop := utf8 n ∧ n ≠ [].
(** Inside the parentheses of a relation a path does not end in an index,
    since a closing parenthesis does not end one. *)
Definition term_ok (t : Term) : Prop :=
  name_ok (tm_name t) ∧ path_ok (tm_path t) ∧
  ∀ rel, tm_relation t = Some rel → name_ok rel ∧ ∀ s, last (tm_path t) = Some s → is_index (js_key s) = false.
Lemma order_break_ascii : ascii_breaks name_break.
Proof.
  intros b. unfold name_break. rewrite bool_decide_eq_true. intros B.
  repeat (apply elem_of_cons in B as [-> |B]; [done|]). by apply not_elem_of_nil in B.
Qed.

(** ** Any string *)
Lemma parse_field_spec pre suf : utf8 suf → spec (parse_field (C pre suf)) pre suf (λ n used _, name_ok n ∧ used ≠ []).
Proof.
  intros U. unfold parse_field. eapply (spec_bind _ _ _ _ (λ n used _, utf8 n ∧ (n ≠ [] → used ≠ []))).
  - destruct (at_byte QUOTE (C pre suf)).
    + eapply spec_mono; [by apply scan_quoted_spec|]. by intros v used left E _ _ [Uv Nu].
    + destruct (scan_name_spec name_break pre suf order_break_ascii U) as (n & l & -> & -> & Un & Ul & Cl & _). by exists n, l.
  - intros n used left -> Uu Ul [Un Nu]. destruct n as [|b n]; [by apply fails_spec, err_fails, utf8_starts|].
    apply spec_ret; [done|]. rewrite app_nil_r. split; [done|by apply Nu].
Qed.
Lemma modifier_words_ascii d : Forall (Forall ascii) (modifier_words d) ∧ modifier_words d ≠ [].
Proof. destruct d; split; try done; repeat constructor. Qed.
Lemma modifiers_spec fuel d pre suf :
  (from_option (λ _, 1) 2 d ≤ fuel)%nat → utf8 suf → spec (modifiers fuel d (C pre suf)) pre suf (λ _ _ _, True).
Proof.
  revert d pre suf. induction fuel as [|fuel IH]; intros d pre suf Lf U; [destruct d; cbn in Lf; lia|]. cbn [modifiers].
  destruct suf as [|b s]; [rewrite eat_no by done; by apply spec_ret|].
  destruct (decide (b = DOT)) as [-> |N]; [|rewrite eat_no by (cbn; congruence); by apply spec_ret].
  rewrite eat_yes. apply (spec_skip _ pre [DOT] s); [done|]. apply (utf8_ascii_cons DOT s) in U; [|done]. cbv zeta.
  destruct (modifier_words_ascii d) as [Fw Nw]. destruct (take_word _ _) as [w|] eqn:Tw.
  - apply find_some in Tw as [Iw Sw]. apply list_elem_of_In in Iw. rewrite starts_C in Sw.
    assert (Aw : Forall ascii w) by (rewrite Forall_forall in Fw; by apply Fw).
    destruct (starts_cut _ _ Sw U Aw) as (r & -> & Ur). rewrite eat_str_yes. apply spec_skip; [by apply utf8_ascii|].
    destruct d as [d|]; cbn in Iw, Lf.
    + rewrite !elem_of_cons, elem_of_nil in Iw. destruct Iw as [-> |[-> |[]]]; by apply spec_ret.
    + repeat case_decide; [apply IH; [cbn; lia|done]..|by apply spec_ret|by apply spec_ret].
  - apply fails_spec, (err_word_cut _ (pre ++ [DOT]) s); done.
Qed.
Lemma parse_term_spec pre suf : utf8 suf → spec (parse_term (C pre suf)) pre suf (λ t used _, term_ok t ∧ used ≠ []).
Proof.
  intros U. unfold parse_term. eapply spec_bind; [by apply parse_field_spec|]. intros n used left -> _ Ul [Nk Nu].
  match goal with |- context [eat LPAREN ?c] => destruct (eat LPAREN c) as [paren cur] eqn:Ea end.
  assert (Hp : ∃ u l, left = u ++ l ∧ utf8 u ∧ utf8 l ∧ cur = C ((pre ++ used) ++ u) l).
  { destruct left as [|b left].
    - rewrite eat_no in Ea by done. injection Ea as <- <-. exists [], []. split_and!; [done..|]. by rewrite (app_nil_r (pre ++ used)).
    - destruct (decide (b = LPAREN)) as [-> |N].
      + rewrite eat_yes in Ea. injection Ea as <- <-. exists [LPAREN], left. split_and!; try done.
      + rewrite eat_no in Ea by (cbn; congruence). injection Ea as <- <-. exists [], (b :: left). split_and!; [done..|]. by rewrite (app_nil_r (pre ++ used)). }
  destruct Hp as (u & l & -> & Uu & Ul' & ->). clear Ea Ul. apply spec_skip; [done|].
  eapply (spec_bind _ _ _ _ (λ rn _ _, name_ok rn.2 ∧ ∀ rel, rn.1 = Some rel → name_ok rel)).
  { destruct paren; [|by apply spec_ret]. eapply spec_bind; [by apply parse_field_spec|]. intros c u2 l2 -> _ U2 [Ck _].
    apply spec_ret; [done|]. split; [done|]. by intros rel [= <-]. }
  intros [relation name] u2 l2 -> _ U2 [Nn Nr]. cbn [fst snd] in *.
  eapply spec_bind; [by apply parse_json_path_spec|]. intros path u3 l3 -> _ U3 (Pk & Pt & _).
  eapply (spec_bind _ _ _ _ (λ _ _ _, relation = None ∨ head l3 = Some RPAREN)).
  { destruct relation; [|by apply spec_ret; [|left]]. eapply spec_mono; [by apply expect_as_spec|]. intros [] u4 l4 -> _ _ ->. by right. }
  intros [] u4 l4 -> _ U4 Hr. eapply spec_bind; [by apply modifiers_spec; [cbn; lia|]|]. intros [d nl] u5 l5 -> _ U5 _.
  destruct (negb _ && negb _); [by apply fails_spec, leftover_fails, utf8_starts|]. apply spec_ret; [done|]. split; [|by destruct used].
  split_and!; [done..|]. cbn. intros rel Er. split; [by apply Nr|]. intros s Ls. destruct Hr as [-> |Hr]; [done|].
  specialize (Pt s Ls). apply not_true_iff_false. intros Ix. specialize (Pt Ix). unfold index_ends in Pt.
  destruct (u4 ++ u5 ++ l5) as [|b r]; [done|]. injection Hr as ->. done.
Qed.
Lemma terms_loop_spec fuel terms pre suf :
  (length suf < fuel)%nat → utf8 suf → Forall term_ok terms →
  spec (terms_loop fuel terms (C pre suf)) pre suf (λ l _ _, l ≠ [] ∧ Forall term_ok l).
Proof.
  revert terms pre suf. induction fuel as [|fuel IH]; intros terms pre suf Lf U Fs; [lia|]. cbn [terms_loop].
  eapply spec_bind; [by apply parse_term_spec|]. intros t used left -> Uu Ul (Tk & Nu). cbv zeta.
  assert (Fs' : Forall term_ok (terms ++ [t])) by (apply Forall_app; split; [done|by apply Forall_singleton]).
  destruct left as [|b left].
  - rewrite eat_no by done. rewrite cur_done_C, bool_decide_true by done. apply spec_ret; [done|]. split; [by destruct terms|done].
  - destruct (decide (b = COMMA_)) as [-> |N].
    + rewrite eat_yes. apply (utf8_ascii_cons COMMA_ left) in Ul; [|done].
      apply (spec_skip _ (pre ++ used) [COMMA_] left); [done|]. apply IH; [|done|done]. rewrite length_app in Lf. cbn in Lf. lia.
    + rewrite eat_no by (cbn; congruence). rewrite cur_done_C, bool_decide_false by done. by apply fails_spec, leftover_fails, utf8_starts.
Qed.

(** ** Reading back *)
Definition term_stop (s : bytes) : Prop := s = [] ∨ head s = Some COMMA_.
Lemma bare_field n : name_needs_quotes n = false → clean name_break n ∧ head n ≠ Some QUOTE.
Proof.
  unfold name_needs_quotes. rewrite !orb_false_iff, !bool_decide_eq_false. intros [[Nn Ex] Co].
  assert (F : Forall (λ b, name_break b = false) n).
  { apply Forall_forall. intros b Hb. apply not_true_iff_false. intros B. apply not_true_iff_false in Ex. apply Ex, existsb_exists.
    exists b. split; [by apply list_elem_of_In|]. by rewrite B. }
  split; [done|]. destruct n as [|b n]; [done|]. apply Forall_cons in F as [F _]. by intros [= ->].
Qed.
Lemma parse_field_app pre n suf :
  name_ok n → name_stop name_break suf → starts_ok suf → parse_field (C pre (write_name n ++ suf)) = Ok (n, C (pre ++ write_name n) suf).
Proof.
  intros [U Nn] St So. unfold parse_field, write_name. rewrite at_byte_C. destruct (name_needs_quotes n) eqn:Nq.
  - rewrite bool_decide_true, scan_quoted_app, bind_run by done. by destruct n.
  - destruct (bare_field n Nq) as [Cl Hq]. rewrite bool_decide_false by by destruct n. rewrite scan_name_app, bind_run by done. by destruct n.
Qed.
Lemma modifiers_app d nl pre suf :
  term_stop suf →
  modifiers 3 None (C pre (from_option (λ d, DOT :: direction_name d) [] d ++ from_option (λ n, DOT :: nulls_name n) [] nl ++ suf)) =
  Ok ((d, nl), C (pre ++ from_option (λ d, DOT :: direction_name d) [] d ++ from_option (λ n, DOT :: nulls_name n) [] nl) suf).
Proof.
  intros St. assert (Nd : head suf ≠ Some DOT) by (by destruct St as [-> | ->]).
  assert (Nl : ∀ fuel d pre, modifiers (S fuel) d (C pre (from_option (λ n, DOT :: nulls_name n) [] nl ++ suf)) =
    Ok ((d, nl), C (pre ++ from_option (λ n, DOT :: nulls_name n) [] nl) suf)).
  { clear pre. intros fuel d' pre. cbn [modifiers]. destruct nl as [n|]; cbn [from_option app].
    - rewrite eat_yes. cbv zeta. unfold take_word.
      assert (Ef : find (starts (C (pre ++ [DOT]) (nulls_name n ++ suf))) (modifier_words d') = Some (nulls_name n)).
      { destruct d', n; cbn [modifier_words app find]; rewrite ?starts_C; reflexivity. }
      rewrite Ef, eat_str_yes. rewrite <-app_assoc. by destruct n.
    - rewrite eat_no by done. by rewrite app_nil_r. }
  destruct d as [d|]; [|apply Nl]. cbn [from_option app]. remember 2%nat as f eqn:Hf. cbn [modifiers]. rewrite eat_yes. cbv zeta. unfold take_word.
  assert (Ef : ∀ s, find (starts (C (pre ++ [DOT]) (direction_name d ++ s))) (modifier_words None) = Some (direction_name d)).
  { intros s. destruct d; cbn [modifier_words app find]; rewrite ?starts_C; reflexivity. }
  rewrite Ef, eat_str_yes. pose proof (Nl 1%nat (Some d) ((pre ++ [DOT]) ++ direction_name d)) as Nl'. rewrite <-Hf in Nl'.
  destruct d; cbn [direction_name] in *; rewrite Nl'; by rewrite <-!app_assoc.
Qed.
(** What follows the column of a term outside parentheses. *)
Definition column_stop (s : bytes) : Prop := s = [] ∨ head s = Some COMMA_ ∨ head s = Some DOT.
Lemma column_stop_ok s :
  column_stop s → name_stop name_break s ∧ starts_ok s ∧ key_stop s ∧ (∀ path, path_then path s) ∧ starts_with s ARROW = false ∧ head s ≠ Some LPAREN.
Proof.
  intros [-> |E]; [by split_and!|]. destruct s as [|b s]; [by destruct E|].
  destruct E as [[= ->]|[= ->]]; (split_and!; [by split; [|left]|done|by left|by intros path st _ _|done|done]).
Qed.
Lemma rparen_ok s : name_stop name_break (RPAREN :: s) ∧ starts_ok (RPAREN :: s) ∧ key_stop (RPAREN :: s) ∧ starts_with (RPAREN :: s) ARROW = false.
Proof. split_and!; [by split; [|left]|done|by left|done]. Qed.
Lemma parse_term_app pre t suf :
  term_ok t → term_stop suf → parse_term (C pre (term_fmt t ++ suf)) = Ok (t, C (pre ++ term_fmt t) suf).
Proof.
  intros (Nk & Pk & Rk) St. destruct t as [relation name path d nl]. unfold term_fmt, parse_term. cbn [tm_relation tm_name tm_path tm_direction tm_nulls] in *.
  set (mods := from_option (λ d, DOT :: direction_name d) [] d ++ from_option (λ n, DOT :: nulls_name n) [] nl).
  assert (Em : ∀ s, mods ++ s = from_option (λ d, DOT :: direction_name d) [] d ++ from_option (λ n, DOT :: nulls_name n) [] nl ++ s) by (intros; unfold mods; by rewrite <-app_assoc).
  assert (Ms : column_stop (mods ++ suf)).
  { subst mods. destruct d; [by right; right|]. destruct nl; [by right; right|]. cbn. by destruct St; [left|right; left]. }
  assert (Fin : ∀ pre, ('((direction, nulls), cur) ← modifiers 3 None (C pre (mods ++ suf));
      if negb (cur_done cur) && negb (at_byte COMMA_ cur) then
        leftover cur ((match nulls with None => [DELIMITER] | Some _ => [] end) ++ [COMMA_WORD; END])
      else mret (mkTerm relation name path direction nulls, cur)) = Ok (mkTerm relation name path d nl, C (pre ++ mods) suf)).
  { intros pre'. rewrite Em, modifiers_app, bind_run by done. rewrite cur_done_C, at_byte_C.
    destruct St as [-> |Hs]; [by rewrite bool_decide_true|]. rewrite (bool_decide_true (_ = Some _)) by done. by rewrite andb_false_r. }
  destruct relation as [rel|]; cbn [from_option]; rewrite <-!app_assoc; fold mods; cbn [app].
  - destruct (Rk rel eq_refl) as [Rn Nx]. destruct (rparen_ok (mods ++ suf)) as (Ns & So & Ks & Na).
    rewrite parse_field_app, bind_run; [|done|by split; [|left]|done]. rewrite eat_yes.
    rewrite parse_field_app, !bind_run; [|done|by apply path_name_stop|by apply path_starts]. rewrite ret_bind.
    rewrite parse_json_path_app, bind_run; [|done|done|intros s Ls Ix; by rewrite Nx in Ix|done].
    unfold cur_expect. rewrite expect_as_yes, bind_run, Fin. by rewrite <-!app_assoc.
  - destruct (column_stop_ok _ Ms) as (Ns & So & Ks & Pt & Na & Np).
    rewrite parse_field_app, bind_run; [|done|by apply path_name_stop|by apply path_starts].
    rewrite eat_no by (rewrite fmt_path_head; by destruct path). rewrite ret_bind.
    rewrite parse_json_path_app, bind_run by done. rewrite ret_bind, Fin. by rewrite <-!app_assoc.
Qed.
Lemma terms_loop_app fuel before terms pre :
  terms ≠ [] → Forall term_ok terms → (length terms ≤ fuel)%nat →
  terms_loop fuel before (C pre (render terms)) = Ok (before ++ terms, C (pre ++ render terms) []).
Proof.
  intros Nn F. revert fuel before pre. induction F as [|t terms Tk F IH]; intros fuel before pre Lf; [done|].
  destruct fuel as [|fuel]; [cbn in Lf; lia|]. cbn [terms_loop]. unfold render in *. destruct terms as [|t2 terms].
  - cbn [fmap list_fmap join]. rewrite <-(app_nil_r (term_fmt t)) at 1. rewrite parse_term_app, bind_run by (done || by left). cbv zeta.
    rewrite eat_no by done. by rewrite cur_done_C, bool_decide_true.
  - cbn [fmap list_fmap] in *. rewrite join_cons. rewrite parse_term_app, bind_run by (done || by right). cbv zeta. cbn [app].
    rewrite eat_yes. rewrite IH by (done || cbn in *; lia). by rewrite <-!app_assoc.
Qed.
Lemma term_fmt_nonempty t : term_ok t → term_fmt t ≠ [].
Proof.
  intros ([_ Nn] & _ & Rk) E. unfold term_fmt in E.
  assert (Nw : write_name (tm_name t) ≠ []) by (unfold write_name; by destruct (name_needs_quotes _)).
  destruct (from_option _ _ (tm_relation t)); [|done]. cbn in E. by destruct (write_name (tm_name t)).
Qed.
Lemma order_back terms : terms ≠ [] → Forall term_ok terms → parse (render terms) = Ok terms.
Proof.
  intros Nn F. unfold parse. rewrite cur_new_C, (terms_loop_app _ []), bind_run; [done|done|done|].
  pose proof (length_join [COMMA_] (term_fmt <$> terms)) as L. rewrite length_fmap in L. unfold render.
  specialize (L ltac:(apply Forall_fmap; eapply Forall_impl; [exact F|apply term_fmt_nonempty])). lia.
Qed.
(** No order value makes the parser panic, and when it accepts one the
    canonical value of its terms parses to those very terms, in order:
    relations, columns, json paths, directions and the placement of nulls,
    with every name that would not read back bare written in quotes. *)
Theorem order_round_trip value :
  utf8 value →
  match parse value with Ok terms => parse (render terms) = Ok terms | Err _ => True | Panic => False end.
Proof.
  intros U. pose proof (terms_loop_spec (S (length value)) [] [] value ltac:(lia) U ltac:(done)) as Sp. unfold parse at 1. rewrite cur_new_C.
  destruct (terms_loop _ _ _) as [[terms c]| |]; [|done..]. destruct Sp as (_ & _ & _ & _ & _ & _ & Nn & F). by apply order_back.
Qed.
Lemma order_round_trip_witness :
  let value := str "clients(data->0).desc.nullslast,asc,my col->-7.nullsfirst" in
  (parse value = Ok [mkTerm (Some (str "clients")) (str "data") [mkStep false (JName (str "0"))] (Some Desc) (Some NullsLast);
                     mkTerm None (str "asc") [] None None;
                     mkTerm None (str "my col") [mkStep false (JIndex (-7))] None (Some NullsFirst)]) ∧
  match parse value with Ok terms => parse (render terms) = Ok terms | Err _ => True | Panic => False end.
Proof. split; [by vm_compute|]. apply order_round_trip. by vm_compute. Defined.
