(* ===== verification/RestSelect.v ===== *)
(** * RestSelect: the select grammar (crates/zou-rest/src/select.rs)

    [select=id,name:full_name::text,...stats!inner(views.sum())] parsed into
    a tree of items and rendered back. *)
From S2P Require Import Prelude Order Text Utf8 RestScan RestScanProofs.

(** ** Items *)
Definition AGGREGATES : list bytes := str <$> ["sum"; "avg"; "count"; "max"; "min"]%string.
Inductive Agg := Sum | Avg | Max | Min | Count.
Definition agg_parse (s : bytes) : option Agg :=
  if bool_decide (s = str "sum") then Some Sum
  else if bool_decide (s = str "avg") then Some Avg
  else if bool_decide (s = str "max") then Some Max
  else if bool_decide (s = str "min") then Some Min
  else if bool_decide (s = str "count") then Some Count
  else None.
Definition agg_name (a : Agg) : bytes :=
  match a with Sum => str "sum" | Avg => str "avg" | Max => str "max" | Min => str "min" | Count => str "count" end.
Inductive Join := Inner | Left.
Record FieldSel := mkFieldSel { fs_name : bytes; fs_path : list JsonStep; fs_cast : option bytes }.
Record Col := mkCol { cl_alias : option bytes; cl_field : option FieldSel; cl_agg : option Agg; cl_agg_cast : option bytes }.
Inductive Item :=
  | Star
  | ICol (c : Col)
  | IEmbed (e : Embed)
  | ISpread (e : Embed)
with Embed :=
  | mkEmbed (alias : option bytes) (relation : bytes) (hint : option bytes) (join_ : option Join) (items : list Item).
Definition em_items (e : Embed) : list Item := let '(mkEmbed _ _ _ _ items) := e in items.

(** [aggregates] *)
Fixpoint item_aggregates (i : Item) : bool :=
  match i with
  | Star => false
  | ICol c => bool_decide (cl_agg c ≠ None)
  | IEmbed e | ISpread e => embed_aggregates e
  end
with embed_aggregates (e : Embed) : bool :=
  let '(mkEmbed _ _ _ _ items) := e in existsb item_aggregates items.
Definition aggregates (items : list Item) : bool := existsb item_aggregates items.
#[global] Instance Agg_eq_dec : EqDecision Agg.
Proof. solve_decision. Defined.

(** ** Names *)
Definition name_break (b : byte) : bool :=
  bool_decide (b ∈ [DOT; COMMA_; LPAREN; RPAREN; QUOTE; LBRACE; RBRACE; COLON; BANG]).
Definition parse_raw_name : parser (bytes * bool) := λ cur,
  let quoted := at_byte QUOTE cur in
  '(name, cur) ← (if quoted then scan_quoted cur else scan_name name_break cur);
  match name with [] => err cur [FIELD_NAME] | _ => mret ((name, quoted), cur) end.
Definition parse_name : parser (bytes * bool) := λ cur,
  '((name, quoted), cur) ← parse_raw_name cur;
  let name := if (quoted : bool) then name else trim name in
  match name with [] => err cur [FIELD_NAME] | _ => mret ((name, quoted), cur) end.
Definition parse_cast : parser (option bytes) := λ cur,
  let '(cast, cur) := eat_str (str "::") cur in
  if cast then
    '(name, cur) ← scan_name name_break cur;
    let name := trim name in
    match name with [] => err cur [str "letter"; DIGIT] | _ => mret (Some name, cur) end
  else mret (None, cur).
Definition parse_agg : parser (option Agg * option bytes) := λ cur,
  let '(dot, cur) := eat DOT cur in
  if dot then
    let at_ := c_pos cur in
    '(name, cur) ← scan_name name_break cur;
    match agg_parse name with
    | None => err_word cur at_ AGGREGATES (word <$> AGGREGATES)
    | Some agg =>
        let '(parens, cur) := eat_str (str "()") cur in
        if parens then '(cast, cur) ← parse_cast cur; mret ((Some agg, cast), cur)
        else err cur [word (str "()")]
    end
  else mret ((None, None), cur).
(** [columns] *)
Fixpoint columns_loop (fuel : nat) (out : list bytes) (cur : Cur) : res Error (list bytes) :=
  match fuel with
  | O => Panic
  | S fuel =>
      '((name, _), cur) ← parse_name cur;
      let out := out ++ [name] in
      let '(comma, cur) := eat COMMA_ (skip_spaces cur) in
      if comma then columns_loop fuel out (skip_spaces cur)
      else if cur_done cur then mret out else leftover cur [word [COMMA_]; END]
  end.
Definition columns (value : bytes) : res Error (list bytes) := columns_loop (S (length value)) [] (cur_new value).

(** ** Items *)
(** The flags of an embed, each at most once. *)
Fixpoint flags_loop (fuel : nat) (hint : option bytes) (join_ : option Join) (cur : Cur) : res Error ((option bytes * option Join) * Cur) :=
  match fuel with
  | O => Panic
  | S fuel =>
      let '(bang, cur) := eat BANG cur in
      if bang then
        let at_ := c_pos cur in
        '((raw, fq), cur) ← parse_raw_name cur;
        let flag_join := if fq : bool then None else if bool_decide (raw = str "inner") then Some Inner
                         else if bool_decide (raw = str "left") then Some Left else None in
        let flag := if fq : bool then raw else trim raw in
        match flag with
        | [] => err cur [FIELD_NAME]
        | _ =>
            let taken := match flag_join with Some _ => bool_decide (is_Some join_) | None => bool_decide (is_Some hint) end in
            if taken then err_word cur at_ [str "inner"; str "left"] [word (str "inner"); word (str "left"); word [LPAREN]]
            else
              match flag_join with
              | Some j => flags_loop fuel hint (Some j) cur
              | None => flags_loop fuel (Some flag) join_ cur
              end
        end
      else mret ((hint, join_), cur)
  end.
Definition is_embed (i : Item) : bool := match i with IEmbed _ | ISpread _ => true | _ => false end.
(** The name an item begins with, behind its alias, and where it stands. *)
Definition item_head : parser (option bytes * nat * bytes * bool) := λ cur,
  '((first, fq), cur) ← parse_name cur;
  if at_byte COLON cur && negb (starts cur (str "::")) then
    let cur := bump cur in
    let named_at := c_pos cur in
    '((name, quoted), cur) ← parse_name cur; mret ((Some first, named_at, name, quoted), cur)
  else mret ((None, c_pos cur, first, fq), cur).
Fixpoint parse_items (fuel : nat) (cur : Cur) {struct fuel} : res Error (list Item * Cur) :=
  match fuel with
  | O => Panic
  | S fuel => if cur_done cur || at_byte RPAREN cur then mret ([], cur) else items_loop fuel [] cur
  end
with items_loop (fuel : nat) (out : list Item) (cur : Cur) {struct fuel} : res Error (list Item * Cur) :=
  match fuel with
  | O => Panic
  | S fuel =>
      '(item, cur) ← parse_item fuel cur;
      let cur := if is_embed item then skip_spaces_before COMMA_ cur else cur in
      let out := out ++ [item] in
      let '(comma, cur) := eat COMMA_ cur in
      if comma then items_loop fuel out cur else mret (out, cur)
  end
with parse_item (fuel : nat) (cur : Cur) {struct fuel} : res Error (Item * Cur) :=
  match fuel with
  | O => Panic
  | S fuel =>
      let '(spread, cur) := eat_str (str "...") cur in
      if spread then
        '((relation, _), cur) ← parse_name cur;
        '(embed, cur) ← parse_embed_tail fuel None relation cur;
        mret (ISpread embed, cur)
      else
        '((alias, named_at, name, quoted), cur) ← item_head cur;
        if bool_decide (name = str "*") && negb quoted then
          match alias with Some _ => err_at cur named_at [] | None => mret (Star, cur) end
        else
          let '(count, cur) := if bool_decide (name = str "count") && negb quoted then eat_str (str "()") cur else (false, cur) in
          if count then '(agg_cast, cur) ← parse_cast cur; mret (ICol (mkCol alias None (Some Count) agg_cast), cur)
          else if at_byte BANG cur || at_byte LPAREN cur then
            '(embed, cur) ← parse_embed_tail fuel alias name cur; mret (IEmbed embed, cur)
          else
            '(path, cur) ← parse_json_path cur;
            '(cast, cur) ← parse_cast cur;
            '((agg, agg_cast), cur) ← parse_agg cur;
            mret (ICol (mkCol alias (Some (mkFieldSel name path cast)) agg agg_cast), cur)
  end
with parse_embed_tail (fuel : nat) (alias : option bytes) (relation : bytes) (cur : Cur) {struct fuel} : res Error (Embed * Cur) :=
  match fuel with
  | O => Panic
  | S fuel =>
      '((hint, join_), cur) ← flags_loop (S (length (rest cur))) None None cur;
      '(_, cur) ← cur_expect LPAREN cur;
      '(items, cur) ← parse_items fuel cur;
      '(_, cur) ← expect_as RPAREN [word [COMMA_]; word [RPAREN]] cur;
      mret (mkEmbed alias relation hint join_ items, cur)
  end.
(** Enough for a value of this many bytes. *)
Definition select_fuel (n : nat) : nat := (4 * n + 5)%nat.
(** [parse]; what follows the list is not read. *)
Definition parse (value : bytes) : res Error (list Item) :=
  '(items, _) ← parse_items (select_fuel (length value)) (cur_new value); mret items.

(** ** Rendering *)
Definition name_needs_quotes (s : bytes) : bool :=
  bool_decide (s = []) || bool_decide (s = str "*") || existsb (λ b, name_break b || bool_decide (b = BACKSLASH)) s || contains s ARROW ||
  from_option is_blank false (head s) || from_option is_blank false (last s).
Definition name_fmt (s : bytes) : bytes := if name_needs_quotes s then write_escaped s else s.
Definition alias_fmt (alias : option bytes) : bytes := from_option (λ a, name_fmt a ++ [COLON]) [] alias.
Definition cast_fmt (cast : option bytes) : bytes := from_option (λ c, str "::" ++ c) [] cast.
Definition col_fmt (c : Col) : bytes :=
  alias_fmt (cl_alias c) ++
  from_option (λ f, name_fmt (fs_name f) ++ fmt_path (fs_path f) ++ cast_fmt (fs_cast f)) [] (cl_field c) ++
  from_option (λ a, (if cl_field c then [DOT] else []) ++ agg_name a ++ str "()" ++ cast_fmt (cl_agg_cast c)) [] (cl_agg c).
Definition hint_fmt (h : bytes) : bytes := if bool_decide (h = str "inner") || bool_decide (h = str "left") then write_escaped h else name_fmt h.
Definition join_fmt (j : option Join) : bytes := match j with Some Inner => str "!inner" | Some Left => str "!left" | None => [] end.
Definition relation_fmt (relation : bytes) (hint : option bytes) (join_ : option Join) (items : list Item) : bytes :=
  let ambiguous := bool_decide (relation = str "count") && bool_decide (hint = None) && (if join_ then false else true) && (if items then true else false) in
  if ambiguous then write_escaped relation else name_fmt relation.
Fixpoint item_fmt (i : Item) : bytes :=
  match i with
  | Star => str "*"
  | ICol c => col_fmt c
  | IEmbed e => embed_fmt e
  | ISpread e => str "..." ++ embed_fmt e
  end
with embed_fmt (e : Embed) : bytes :=
  let '(mkEmbed alias relation hint join_ items) := e in
  alias_fmt alias ++ relation_fmt relation hint join_ items ++ from_option (λ h, BANG :: hint_fmt h) [] hint ++ join_fmt join_ ++
  [LPAREN] ++ join [COMMA_] (map item_fmt items) ++ [RPAREN].
Definition render (items : list Item) : bytes := join [COMMA_] (map item_fmt items).
