(* ===== verification/RestSelectProofs.v ===== *)
(** * RestSelectProofs: every select value reads, and reads back

    No select value makes the parser panic, and the canonical value of the
    items it parsed parses to the same items. *)
From S2P Require Import Prelude Order Text Utf8 RestScan RestScanProofs RestSelect.

(** ** What the parser makes *)
Definition name_ok (n : bytes) : Prop := utf8 n ∧ n ≠ [].
Definition opt_ok {A} (P : A → Prop) (o : option A) : Prop := match o with Some x => P x | None => True end.
Definition cast_ok (c : bytes) : Prop := utf8 c ∧ c ≠ [] ∧ clean name_break c ∧ trim c = c.
Definition col_ok (c : Col) : Prop :=
  opt_ok name_ok (cl_alias c) ∧
  match cl_field c with
  | Some f => name_ok (fs_name f) ∧ path_ok (fs_path f) ∧ opt_ok cast_ok (fs_cast f)
  | None => cl_agg c = Some Count
  end ∧
  match cl_agg c with Some _ => opt_ok cast_ok (cl_agg_cast c) | None => cl_agg_cast c = None end.
(** A column whose text ends in a json index: only a comma or the end of the
    value may follow. *)
Definition open_item (i : Item) : bool :=
  match i with
  | ICol (mkCol _ (Some (mkFieldSel _ path None)) None _) => from_option (λ s, is_index (js_key s)) false (last path)
  | _ => false
  end.
Definition closed_list (items : list Item) : Prop := ∀ i, last items = Some i → open_item i = false.
Fixpoint item_ok (i : Item) : Prop :=
  match i with
  | Star => True
  | ICol c => col_ok c
  | IEmbed e => embed_ok e
  | ISpread e => embed_ok e ∧ match e with mkEmbed alias _ _ _ _ => alias = None end
  end
with embed_ok (e : Embed) : Prop :=
  let '(mkEmbed alias relation hint _ items) := e in
  opt_ok name_ok alias ∧ name_ok relation ∧ opt_ok name_ok hint ∧ foldr (λ i P, item_ok i ∧ P) True items ∧ closed_list items.
Definition items_ok (items : list Item) : Prop := foldr (λ i P, item_ok i ∧ P) True items.
Lemma items_ok_app a b : items_ok (a ++ b) ↔ items_ok a ∧ items_ok b.
Proof. unfold items_ok. induction a as [|n a IH]; cbn; [tauto|]. rewrite IH. tauto. Qed.
Lemma select_break_ascii : ascii_breaks name_break.
Proof.
  intros b. unfold name_break. rewrite bool_decide_eq_true. intros B.
  repeat (apply elem_of_cons in B as [-> |B]; [done|]). by apply not_elem_of_nil in B.
Qed.

(** ** Any string *)
Lemma parse_raw_name_spec pre suf :
  utf8 suf → spec (parse_raw_name (C pre suf)) pre suf (λ nq used _, name_ok nq.1 ∧ used ≠ []).
Proof.
  intros U. unfold parse_raw_name. cbv zeta. eapply (spec_bind _ _ _ _ (λ n used _, utf8 n ∧ (n ≠ [] → used ≠ []))).
  - destruct (at_byte QUOTE (C pre suf)).
    + eapply spec_mono; [by apply scan_quoted_spec|]. by intros v used left E _ _ [Uv Nu].
    + destruct (scan_name_spec name_break pre suf select_break_ascii U) as (n & l & -> & -> & Un & Ul & Cl & _). by exists n, l.
  - intros n used left -> Uu Ul [Un Nu]. destruct n as [|b n]; [by apply fails_spec, err_fails, utf8_starts|].
    apply spec_ret; [done|]. rewrite app_nil_r. split; [done|by apply Nu].
Qed.
Lemma parse_name_spec pre suf : utf8 suf → spec (parse_name (C pre suf)) pre suf (λ nq used _, name_ok nq.1 ∧ used ≠ []).
Proof.
  intros U. unfold parse_name. eapply spec_bind; [by apply parse_raw_name_spec|]. intros [n q] used left -> _ Ul [[Un _] Nu]. cbn [fst] in *. cbv zeta.
  assert (Ut : utf8 (if q then n else trim n)) by (destruct q; [done|by apply utf8_trim]).
  destruct (if q then n else trim n); [by apply fails_spec, err_fails, utf8_starts|]. apply spec_ret; [done|]. by rewrite app_nil_r.
Qed.
Lemma trim_start_idem s : trim_start (trim_start s) = trim_start s.
Proof. induction s as [|b s IH]; [done|]. cbn. destruct (is_blank b) eqn:B; [done|]. cbn. by rewrite B. Qed.
Lemma trim_start_rev s : from_option is_blank false (head s) = false → from_option is_blank false (head (rev (trim_start (rev s)))) = false.
Proof.
  intros Hd. destruct (trim_start_spec (rev s)) as (a & E & _). apply (f_equal (@rev _)) in E. rewrite rev_involutive, rev_app_distr in E.
  destruct (rev (trim_start (rev s))) as [|x r]; [done|]. rewrite E in Hd. done.
Qed.
Lemma trim_start_none s : from_option is_blank false (head s) = false → trim_start s = s.
Proof. destruct s as [|b s]; [done|]. cbn. by intros ->. Qed.
Lemma trim_start_head s : from_option is_blank false (head (trim_start s)) = false.
Proof. induction s as [|b s IH]; [done|]. cbn. destruct (is_blank b) eqn:B; [done|]. cbn. by rewrite B. Qed.
Lemma trim_idem s : trim (trim s) = trim s.
Proof.
  unfold trim at 1. rewrite (trim_start_none (trim s)) by apply trim_start_rev, trim_start_head. unfold trim. by rewrite rev_involutive, trim_start_idem.
Qed.
Lemma contains_app_l a b w : contains (a ++ b) w = false → contains a w = false.
Proof.
  revert b. induction a as [|x a IH]; intros b E.
  - destruct w; [destruct b; done|]. done.
  - cbn [app] in E. rewrite contains_cons in *. apply orb_false_iff in E as [E1 E2]. apply orb_false_iff. split; [|by eapply IH].
    apply not_true_iff_false. intros [r Er]%starts_with_inv. apply not_true_iff_false in E1. apply E1.
    change (x :: a ++ b) with ((x :: a) ++ b). rewrite Er, <-app_assoc. apply starts_with_app.
Qed.
Lemma contains_app_r a b w : contains (a ++ b) w = false → contains b w = false.
Proof. induction a as [|x a IH]; [done|]. cbn [app]. rewrite contains_cons. intros [_ E]%orb_false_iff. by apply IH. Qed.
Lemma clean_trim brk s : clean brk s → clean brk (trim s).
Proof.
  intros [F Co]. destruct (trim_spec s) as (a & b & E & _). rewrite E in F, Co. split.
  - by apply Forall_app in F as [_ [F _]%Forall_app].
  - by eapply contains_app_l, contains_app_r.
Qed.
Lemma parse_cast_spec pre suf : utf8 suf → spec (parse_cast (C pre suf)) pre suf (λ c _ left, opt_ok cast_ok c ∧ (c = None → left = suf)).
Proof.
  intros U. unfold parse_cast. destruct (starts_with suf (str "::")) eqn:St; [|rewrite eat_str_no by done; by apply spec_ret].
  destruct (starts_cut _ _ St U ltac:(by asciis)) as (r & -> & Ur). rewrite eat_str_yes. apply spec_skip; [done|].
  destruct (scan_name_spec name_break (pre ++ str "::") r select_break_ascii Ur) as (n & l & -> & -> & Un & Ul & Cl & _). rewrite bind_run.
  apply spec_skip; [done|]. cbv zeta. pose proof (utf8_trim n Un) as Ut. pose proof (clean_trim _ _ Cl) as Ct. pose proof (trim_idem n) as Ti.
  destruct (trim n) eqn:E; [by apply fails_spec, err_fails, utf8_starts|]. by apply spec_ret.
Qed.
Lemma aggregates_ascii : Forall (Forall ascii) AGGREGATES.
Proof. repeat constructor. Qed.
Lemma parse_agg_spec pre suf :
  utf8 suf → spec (parse_agg (C pre suf)) pre suf (λ ac _ left, match ac.1 with Some _ => opt_ok cast_ok ac.2 | None => ac.2 = None ∧ left = suf end).
Proof.
  intros U. unfold parse_agg. destruct suf as [|b s]; [rewrite eat_no by done; by apply spec_ret|].
  destruct (decide (b = DOT)) as [-> |N]; [|rewrite eat_no by (cbn; congruence); by apply spec_ret].
  rewrite eat_yes. apply (spec_skip _ pre [DOT] s); [done|]. apply (utf8_ascii_cons DOT s) in U; [|done]. cbv zeta.
  destruct (scan_name_spec name_break (pre ++ [DOT]) s select_break_ascii U) as (n & l & -> & -> & Un & Ul & Cl & _). rewrite bind_run.
  destruct (agg_parse n) as [agg|].
  - apply spec_skip; [done|]. destruct (starts_with l (str "()")) eqn:St; [|rewrite eat_str_no by done; by apply fails_spec, err_fails, utf8_starts].
    destruct (starts_cut _ _ St Ul ltac:(by asciis)) as (r & -> & Ur). rewrite eat_str_yes. apply spec_skip; [done|].
    eapply spec_bind; [by apply parse_cast_spec|]. intros c u2 l2 -> _ U2 [Ck _]. by apply spec_ret.
  - apply fails_spec. apply (err_word_cut _ (pre ++ [DOT]) (n ++ l)); [cbn; by rewrite <-!app_assoc|done|done|apply aggregates_ascii].
Qed.
Lemma flags_loop_spec fuel hint j pre suf :
  (length suf < fuel)%nat → utf8 suf → opt_ok name_ok hint →
  spec (flags_loop fuel hint j (C pre suf)) pre suf (λ hj _ _, opt_ok name_ok hj.1).
Proof.
  revert hint j pre suf. induction fuel as [|fuel IH]; intros hint j pre suf Lf U Hk; [lia|]. cbn [flags_loop].
  destruct suf as [|b s]; [rewrite eat_no by done; by apply spec_ret|].
  destruct (decide (b = BANG)) as [-> |N]; [|rewrite eat_no by (cbn; congruence); by apply spec_ret].
  rewrite eat_yes. apply (spec_skip _ pre [BANG] s); [done|]. apply (utf8_ascii_cons BANG s) in U; [|done]. cbv zeta.
  eapply spec_bind; [by apply parse_raw_name_spec|]. intros [raw fq] used left -> Uu Ul [[Ur Nr] Nu]. cbn [fst] in *.
  assert (Uf : utf8 (if fq then raw else trim raw)) by (destruct fq; [done|by apply utf8_trim]).
  destruct (if fq then raw else trim raw) as [|b flag] eqn:Ef; [by apply fails_spec, err_fails, utf8_starts|].
  destruct (match _ with Some _ => _ | None => _ end) eqn:Tk.
  { apply fails_spec, (err_word_cut _ (pre ++ [BANG]) (used ++ left)); [cbn; by rewrite <-!app_assoc|by apply utf8_app|done|repeat constructor]. }
  rewrite length_cons, length_app in Lf. destruct (if fq then None else _); (apply IH; [lia|done|done]).
Qed.
Lemma skip_spaces_before_spec b pre suf :
  utf8 suf → ∃ bl l, suf = bl ++ l ∧ skip_spaces_before b (C pre suf) = C (pre ++ bl) l ∧ utf8 bl ∧ utf8 l.
Proof.
  intros U. unfold skip_spaces_before. cbv zeta. destruct (skip_spaces_spec pre suf U) as (bl & l & -> & E & Ub & Ul & _).
  unfold skip_spaces in E. case_bool_decide; [exists bl, l; by rewrite E|]. exists [], (bl ++ l). split_and!; [done| |done|by apply utf8_app].
  by rewrite app_nil_r.
Qed.
Definition embed_alias (e : Embed) : option bytes := let '(mkEmbed alias _ _ _ _) := e in alias.
(** The alias and the name of an item, and where the name stood. *)
Lemma item_head_spec pre suf :
  utf8 suf →
  spec (item_head (C pre suf)) pre suf
    (λ v used left, opt_ok name_ok v.1.1.1 ∧ name_ok v.1.2 ∧ used ≠ [] ∧ ∃ a b, pre ++ suf = a ++ b ∧ v.1.1.2 = length a ∧ starts_ok b).
Proof.
  intros U. unfold item_head. eapply spec_bind; [by apply parse_name_spec|]. intros [first fq] used left -> Uu Ul [Fk Nu]. cbn [fst] in Fk.
  rewrite at_byte_C. set (pre' := pre ++ used).
  assert (Rt : spec (mret ((None, c_pos (C pre' left), first, fq), C pre' left)) pre' left (λ v used2 _, opt_ok name_ok v.1.1.1 ∧ name_ok v.1.2 ∧ used ++ used2 ≠ [] ∧
     ∃ a b, pre ++ used ++ left = a ++ b ∧ v.1.1.2 = length a ∧ starts_ok b)).
  { apply spec_ret; [done|]. split_and!; try apply Fk; [done|by destruct used|]. exists pre', left. subst pre'. split_and!; [by rewrite <-app_assoc|done|by apply utf8_starts]. }
  case_bool_decide as Hc; cbn [andb]; [|exact Rt]. destruct (negb _); [|exact Rt]. clear Rt.
  destruct left as [|b s]; [done|]. injection Hc as ->. cbv zeta. rewrite bump_C. apply (utf8_ascii_cons COLON s) in Ul; [|done].
  apply (spec_skip _ pre' [COLON] s); [done|]. eapply spec_bind; [by apply parse_name_spec|]. intros [n q] u2 l2 -> _ U2 [Nk _].
  apply spec_ret; [done|]. cbn [fst snd c_pos C] in *. split_and!; try apply Nk; try apply Fk; [by destruct used|]. exists (pre' ++ [COLON]), (u2 ++ l2).
  subst pre'. split_and!; [by rewrite <-!app_assoc|done|by apply utf8_starts].
Qed.
Lemma index_ends_paren s : index_ends s = true → head s ≠ Some RPAREN.
Proof. intros I H. destruct s as [|b s]; [done|]. injection H as ->. done. Qed.
Lemma column_spec pre suf alias name :
  utf8 suf → opt_ok name_ok alias → name_ok name →
  spec ('(path, cur) ← parse_json_path (C pre suf);
        '(cast, cur) ← parse_cast cur;
        '((agg, agg_cast), cur) ← parse_agg cur;
        mret (ICol (mkCol alias (Some (mkFieldSel name path cast)) agg agg_cast), cur)) pre suf
    (λ i _ left, item_ok i ∧ (open_item i = true → head left ≠ Some RPAREN)).
Proof.
  intros U Ak Nk. eapply spec_bind; [by apply parse_json_path_spec|]. intros path u1 l1 -> _ U1 (Pk & Pt & _).
  eapply spec_bind; [by apply parse_cast_spec|]. intros cast u2 l2 -> _ U2 [Ck Cn].
  eapply spec_bind; [by apply parse_agg_spec|]. intros [agg ac] u3 l3 -> _ U3 Hagg. cbn [fst snd] in Hagg. apply spec_ret; [done|]. split.
  - cbn. split_and!; try done. destruct agg; [done|by destruct Hagg].
  - cbn. destruct cast; [done|]. destruct agg; [done|]. destruct Hagg as [_ El]. specialize (Cn eq_refl).
    destruct (last path) as [st|] eqn:Lp; [|done]. cbn. intros Ix. specialize (Pt st Lp Ix). rewrite <-Cn, <-El in Pt.
    by apply index_ends_paren.
Qed.
Lemma closed_snoc items i left :
  (open_item i = true → head left ≠ Some RPAREN) → head left = Some RPAREN → closed_list (items ++ [i]).
Proof. intros Op Hd j. rewrite last_app. cbn. intros [= <-]. apply not_true_iff_false. intros O. by apply Op in O. Qed.
Lemma embed_not_open i : is_embed i = true → open_item i = false.
Proof. by destruct i. Qed.
Definition tail_spec (fuel : nat) : Prop :=
  ∀ alias relation pre suf, (4 * length suf + 2 ≤ fuel)%nat → utf8 suf → opt_ok name_ok alias → name_ok relation →
    spec (parse_embed_tail fuel alias relation (C pre suf)) pre suf (λ e _ _, embed_ok e ∧ embed_alias e = alias).
Lemma parse_item_spec fuel pre suf :
  tail_spec fuel → (4 * length suf + 3 ≤ S fuel)%nat → utf8 suf →
  spec (parse_item (S fuel) (C pre suf)) pre suf (λ i used left, item_ok i ∧ used ≠ [] ∧ (open_item i = true → head left ≠ Some RPAREN)).
Proof.
  intros IHe Lf U. cbn [parse_item]. destruct (starts_with suf (str "...")) eqn:St.
  - destruct (starts_cut _ _ St U ltac:(by asciis)) as (r & -> & Ur). rewrite eat_str_yes. apply spec_skip; [done|]. rewrite length_app in Lf. cbn [str] in Lf.
    eapply spec_bind; [by apply parse_name_spec|]. intros [n q] used left -> _ Ul [Nk Nu]. cbn [fst] in Nk.
    eapply spec_bind; [apply IHe; [|done|done|done]|].
    { rewrite length_app in Lf. cbn in Lf. lia. }
    intros e u2 l2 -> _ U2 [Ek Ea]. apply spec_ret; [done|]. split_and!; [|done|done]. split; [done|]. by destruct e.
  - rewrite eat_str_no by done. eapply spec_bind; [by apply item_head_spec|].
    intros [[[alias named_at] name] quoted] used l2 -> _ U2 (Ak & Nk & Nu & a & b & Ec & En & Sb). cbn [fst snd] in Ak, Nk, En. subst named_at.
    assert (Lt : (4 * length l2 + 6 ≤ fuel)%nat).
    { rewrite !length_app in Lf. assert (length used ≠ 0%nat) by (by destruct used). lia. }
    destruct (bool_decide (name = str "*") && negb quoted).
    { destruct alias; [apply fails_spec; apply (err_at_cut _ a b); [|done]; cbn; by rewrite <-app_assoc|]. apply spec_ret; [done|]. split_and!; [done|by destruct used|done]. }
    match goal with |- spec (let '(_, _) := ?x in _) _ _ _ => assert (Ct : ∃ ct u3 l3, x = (ct, C ((pre ++ used) ++ u3) l3) ∧ l2 = u3 ++ l3 ∧ utf8 u3 ∧ utf8 l3) end.
    { destruct (bool_decide _ && _); [|exists false, [], l2; split_and!; [by rewrite app_nil_r|done|done|done]].
      destruct (starts_with l2 (str "()")) eqn:Sp; [|exists false, [], l2; rewrite eat_str_no by done; split_and!; [by rewrite app_nil_r|done|done|done]].
      destruct (starts_cut _ _ Sp U2 ltac:(by asciis)) as (r & -> & Ur). exists true, (str "()"), r. by rewrite eat_str_yes. }
    destruct Ct as (ct & u3 & l3 & -> & -> & Uu3 & U3). apply spec_skip; [done|].
    assert (Ne : ∀ x : bytes, used ++ u3 ++ x ≠ []) by (intros x; by destruct used).
    eapply (spec_mono _ _ _ (λ i _ left, item_ok i ∧ (open_item i = true → head left ≠ Some RPAREN))).
    2:{ intros i u l _ _ _ [Ik Op]. split_and!; [done|apply Ne|done]. }
    destruct ct.
    { eapply spec_bind; [by apply parse_cast_spec|]. intros c u4 l4 -> _ U4 [Ck _]. apply spec_ret; [done|]. by split. }
    destruct (_ || _).
    { eapply spec_bind; [apply IHe; [rewrite length_app in Lt; lia|done|done|done]|]. intros e u4 l4 -> _ U4 [Ek _]. by apply spec_ret. }
    by apply column_spec.
Qed.
Lemma select_spec fuel :
  (∀ pre suf, (4 * length suf + 5 ≤ fuel)%nat → utf8 suf →
     spec (parse_items fuel (C pre suf)) pre suf (λ l _ left, items_ok l ∧ (head left = Some RPAREN → closed_list l))) ∧
  (∀ out pre suf, (4 * length suf + 4 ≤ fuel)%nat → utf8 suf → items_ok out →
     spec (items_loop fuel out (C pre suf)) pre suf (λ l _ left, items_ok l ∧ (head left = Some RPAREN → closed_list l))) ∧
  (∀ pre suf, (4 * length suf + 3 ≤ fuel)%nat → utf8 suf →
     spec (parse_item fuel (C pre suf)) pre suf (λ i used left, item_ok i ∧ used ≠ [] ∧ (open_item i = true → head left ≠ Some RPAREN))) ∧
  tail_spec fuel.
Proof.
  induction fuel as [|fuel (IHs & IHl & IHi & IHe)]; [split_and!; intros ?; intros; lia|]. split_and!.
  - intros pre suf Lf U. cbn [parse_items]. destruct (_ || _); [by apply spec_ret|]. apply IHl; [lia|done|done].
  - intros out pre suf Lf U Ok_. cbn [items_loop]. eapply spec_bind; [apply IHi; [lia|done]|]. intros i used left -> _ Ul (Ik & Nu & Op). cbv zeta.
    assert (Ok' : items_ok (out ++ [i])) by by apply items_ok_app.
    assert (Sk : ∃ bl l, left = bl ++ l ∧ (if is_embed i then skip_spaces_before COMMA_ (C (pre ++ used) left) else C (pre ++ used) left) = C ((pre ++ used) ++ bl) l ∧ utf8 bl ∧ utf8 l ∧
      (open_item i = true → head l ≠ Some RPAREN)).
    { destruct (is_embed i) eqn:Em; [|exists [], left; split_and!; [done|by rewrite app_nil_r|done|done|done]].
      destruct (skip_spaces_before_spec COMMA_ (pre ++ used) left Ul) as (bl & l & -> & -> & Ub & U2). exists bl, l. split_and!; try done.
      by rewrite embed_not_open. }
    destruct Sk as (bl & l & -> & -> & Ub & U2 & Op'). apply spec_skip; [done|]. clear Op.
    assert (Rt : spec (mret (out ++ [i], C ((pre ++ used) ++ bl) l)) ((pre ++ used) ++ bl) l (λ l0 _ left, items_ok l0 ∧ (head left = Some RPAREN → closed_list l0))).
    { apply spec_ret; [done|]. split; [done|]. by apply closed_snoc. }
    destruct l as [|b l]; [rewrite eat_no by done; exact Rt|].
    destruct (decide (b = COMMA_)) as [-> |N]; [|rewrite eat_no by (cbn; congruence); exact Rt].
    rewrite eat_yes. apply (spec_skip _ ((pre ++ used) ++ bl) [COMMA_] l); [done|]. apply (utf8_ascii_cons COMMA_ l) in U2; [|done].
    apply IHl; [|done|done]. rewrite !length_app in Lf. cbn in Lf. lia.
  - intros pre suf Lf U. by apply parse_item_spec.
  - intros alias relation pre suf Lf U Ak Rk. cbn [parse_embed_tail]. rewrite rest_C.
    eapply spec_bind; [apply flags_loop_spec; [lia|done|done]|]. intros [hint j] u1 l1 -> _ U1 Hk. cbn [fst] in Hk.
    eapply spec_bind; [by apply expect_as_spec|]. intros [] u2 l2 -> _ U2 ->.
    eapply spec_bind; [apply IHs; [rewrite !length_app in Lf; cbn in Lf; lia|done]|]. intros items u3 l3 -> _ U3 [Ok_ Cl].
    eapply spec_bind; [by apply expect_as_spec|]. intros [] u4 l4 -> _ U4 ->. apply spec_ret; [done|]. split; [|done].
    cbn. split_and!; try done; try apply Rk. by apply Cl.
Qed.

(** ** Reading back: names *)
(** What follows an item. *)
Definition item_stop (s : bytes) : Prop := s = [] ∨ head s = Some COMMA_ ∨ head s = Some RPAREN.
Lemma head_of_rev (s : bytes) : head (rev s) = last s.
Proof. destruct s as [|b s] using rev_ind; [done|]. by rewrite rev_app_distr, last_app. Qed.
Lemma trim_ends s : from_option is_blank false (head s) = false → from_option is_blank false (last s) = false → trim s = s.
Proof.
  intros H L. unfold trim. rewrite (trim_start_none s) by done. rewrite trim_start_none; [by rewrite rev_involutive|]. by rewrite head_of_rev.
Qed.
Lemma bare_select n :
  name_needs_quotes n = false → n ≠ [] ∧ clean name_break n ∧ trim n = n ∧ n ≠ str "*" ∧ head n ≠ Some QUOTE.
Proof.
  unfold name_needs_quotes. rewrite !orb_false_iff, !bool_decide_eq_false. intros (((((Nn & Ns) & Ex) & Co) & Hb) & Lb).
  assert (F : Forall (λ b, name_break b = false) n).
  { apply Forall_forall. intros b Hi. apply not_true_iff_false. intros B. apply not_true_iff_false in Ex. apply Ex, existsb_exists.
    exists b. split; [by apply list_elem_of_In|]. by rewrite B. }
  split_and!; try done; [by apply trim_ends|]. destruct n as [|b n]; [done|]. apply Forall_cons in F as [F _]. by intros [= ->].
Qed.
Lemma parse_raw_name_quoted pre n suf :
  name_ok n → parse_raw_name (C pre (write_escaped n ++ suf)) = Ok ((n, true), C (pre ++ write_escaped n) suf).
Proof.
  intros [U Nn]. unfold parse_raw_name. cbv zeta. rewrite at_byte_C, bool_decide_true by done. rewrite scan_quoted_app, bind_run by done. by destruct n.
Qed.
Lemma parse_raw_name_bare pre n suf :
  utf8 n → n ≠ [] → clean name_break n → head n ≠ Some QUOTE → name_stop name_break suf → starts_ok suf →
  parse_raw_name (C pre (n ++ suf)) = Ok ((n, false), C (pre ++ n) suf).
Proof.
  intros U Nn Cl Hq St So. unfold parse_raw_name. cbv zeta. rewrite at_byte_C, bool_decide_false by by destruct n.
  rewrite scan_name_app, bind_run by done. by destruct n.
Qed.
Lemma parse_name_quoted pre n suf :
  name_ok n → parse_name (C pre (write_escaped n ++ suf)) = Ok ((n, true), C (pre ++ write_escaped n) suf).
Proof. intros Nk. unfold parse_name. rewrite parse_raw_name_quoted, bind_run by done. cbv zeta. destruct Nk. by destruct n. Qed.
Lemma parse_name_bare pre n suf :
  utf8 n → n ≠ [] → clean name_break n → trim n = n → head n ≠ Some QUOTE → name_stop name_break suf → starts_ok suf →
  parse_name (C pre (n ++ suf)) = Ok ((n, false), C (pre ++ n) suf).
Proof. intros. unfold parse_name. rewrite parse_raw_name_bare, bind_run by done. cbv zeta. replace (trim n) with n. by destruct n. Qed.
Lemma parse_name_app pre n suf :
  name_ok n → name_stop name_break suf → starts_ok suf →
  parse_name (C pre (name_fmt n ++ suf)) = Ok ((n, name_needs_quotes n), C (pre ++ name_fmt n) suf).
Proof.
  intros Nk St So. unfold name_fmt. destruct (name_needs_quotes n) eqn:Nq; [by apply parse_name_quoted|].
  destruct (bare_select n Nq) as (Nn & Cl & Tr & _ & Hq). destruct Nk. by apply parse_name_bare.
Qed.
Lemma stop_byte b s : name_break b = true → ascii b → name_stop name_break (b :: s) ∧ starts_ok (b :: s).
Proof. intros B A. split; [split; [|by left]|by apply ascii_not_cont]. cbn. intros [= ->]. done. Qed.

(** ** Reading back: columns *)
Definition cast_stop (s : bytes) : Prop := item_stop s ∨ head s = Some DOT.
Lemma cast_stop_ok s :
  cast_stop s → name_stop name_break s ∧ starts_ok s ∧ starts_with s (str "::") = false ∧ key_stop s ∧ starts_with s ARROW = false ∧
    head s ∉ [Some COLON; Some BANG; Some LPAREN].
Proof.
  intros St. destruct s as [|b s]; [split_and!; try done; set_solver|]. unfold cast_stop, item_stop in St. cbn [head] in St.
  assert (b = COMMA_ ∨ b = RPAREN ∨ b = DOT) as [-> |[-> | ->]] by naive_solver;
    (split_and!; [by split; [|left]|done|done|by left|done|cbn; set_solver]).
Qed.
Lemma parse_cast_app pre cast suf :
  opt_ok cast_ok cast → cast_stop suf → parse_cast (C pre (cast_fmt cast ++ suf)) = Ok (cast, C (pre ++ cast_fmt cast) suf).
Proof.
  intros Ck St. destruct (cast_stop_ok suf St) as (Ns & So & Nc & _). unfold parse_cast, cast_fmt. destruct cast as [c|]; cbn [from_option].
  - destruct Ck as (U & Nn & Cl & Tr). rewrite <-app_assoc, eat_str_yes. cbv beta iota. rewrite scan_name_app, bind_run by done. cbv zeta. rewrite Tr.
    rewrite <-app_assoc. by destruct c.
  - cbn [app]. rewrite eat_str_no by done. by rewrite app_nil_r.
Qed.
Definition agg_fmt (agg : option Agg) (agg_cast : option bytes) : bytes :=
  from_option (λ a, [DOT] ++ agg_name a ++ str "()" ++ cast_fmt agg_cast) [] agg.
Lemma agg_name_ok a : utf8 (agg_name a) ∧ clean name_break (agg_name a) ∧ agg_parse (agg_name a) = Some a.
Proof. destruct a; split_and!; try done; split; try done; repeat constructor. Qed.
Lemma item_cast s : item_stop s → cast_stop s.
Proof. by left. Qed.
Lemma parse_agg_app pre agg ac suf :
  match agg with Some _ => opt_ok cast_ok ac | None => ac = None end → item_stop suf →
  parse_agg (C pre (agg_fmt agg ac ++ suf)) = Ok ((agg, ac), C (pre ++ agg_fmt agg ac) suf).
Proof.
  intros Ak St. unfold parse_agg, agg_fmt. destruct agg as [a|]; cbn [from_option].
  - destruct (agg_name_ok a) as (U & Cl & Pa). rewrite <-!app_assoc. cbn [app]. rewrite eat_yes. cbv zeta.
    rewrite scan_name_app, bind_run; [|done|done|by split; [|left]|done]. rewrite Pa, eat_str_yes.
    rewrite parse_cast_app, bind_run by (done || by apply item_cast). by rewrite <-!app_assoc.
  - subst ac. cbn [app]. rewrite eat_no; [by rewrite app_nil_r|]. by destruct St as [-> |[-> | ->]].
Qed.
(** The text of a name begins with a quote or a byte of a bare name. *)
Definition name_text (s : bytes) : Prop := match s with [] => False | b :: _ => b = QUOTE ∨ name_break b = false end.
Lemma name_fmt_text n : name_text (name_fmt n).
Proof.
  unfold name_fmt. destruct (name_needs_quotes n) eqn:Nq; [by left|]. destruct (bare_select n Nq) as (Nn & [F _] & _).
  destruct n as [|b n]; [done|]. apply Forall_cons in F as [F _]. by right.
Qed.
Lemma name_text_head s suf b : name_text s → name_break b = true → b ≠ QUOTE → head (s ++ suf) ≠ Some b.
Proof. destruct s as [|c s]; [done|]. cbn. intros [-> |N] B Q [= E]; congruence. Qed.
Lemma alias_text alias s : name_text s → name_text (alias_fmt alias ++ s).
Proof.
  intros N. destruct alias as [a|]; [|done]. cbn. pose proof (name_fmt_text a) as Ha. destruct (name_fmt a); [done|exact Ha].
Qed.
Lemma not_dots s suf : name_text s → starts_with (s ++ suf) (str "...") = false.
Proof.
  intros N. apply not_true_iff_false. intros [r E]%starts_with_inv. apply (name_text_head s suf DOT N); [done|done|]. by rewrite E.
Qed.
(** The name behind its alias. *)
Lemma item_head_app alias N n q pre suf :
  opt_ok name_ok alias → name_text N → (head suf ≠ Some COLON ∨ starts_with suf (str "::") = true) →
  (∀ pre, parse_name (C pre (N ++ suf)) = Ok ((n, q), C (pre ++ N) suf)) →
  ∃ named_at, item_head (C pre ((alias_fmt alias ++ N) ++ suf)) = Ok ((alias, named_at, n, q), C (pre ++ alias_fmt alias ++ N) suf).
Proof.
  intros Ak Tn Hs Pn. unfold item_head. destruct alias as [a|]; cbn [alias_fmt from_option].
  - eexists. rewrite <-!app_assoc. cbn [app]. destruct (stop_byte COLON (N ++ suf) ltac:(done) ltac:(done)) as [Ns So].
    rewrite parse_name_app, bind_run by done. rewrite at_byte_C, bool_decide_true by done. rewrite starts_C.
    assert (Nc : starts_with (COLON :: N ++ suf) (str "::") = false).
    { apply not_true_iff_false. intros [r E]%starts_with_inv. apply (name_text_head N suf COLON Tn); [done|done|]. injection E as E. by rewrite E. }
    rewrite Nc. cbn [andb negb]. cbv zeta. rewrite bump_C, Pn, bind_run. by rewrite <-!app_assoc.
  - eexists. cbn [app]. rewrite Pn, bind_run. rewrite at_byte_C, starts_C.
    assert (Nc : bool_decide (head suf = Some COLON) && negb (starts_with suf (str "::")) = false).
    { destruct Hs as [Hs| ->]; [by rewrite bool_decide_false|by rewrite andb_false_r]. }
    by rewrite Nc.
Qed.
Definition item_then (i : Item) (s : bytes) : Prop := item_stop s ∧ (open_item i = true → head s ≠ Some RPAREN).
Lemma agg_stop agg ac s : item_stop s → cast_stop (agg_fmt agg ac ++ s).
Proof. intros St. destruct agg; [by right|by left]. Qed.
Lemma cast_key_stop cast s : cast_stop s → key_stop (cast_fmt cast ++ s) ∧ name_stop name_break (cast_fmt cast ++ s) ∧ starts_ok (cast_fmt cast ++ s) ∧
  starts_with (cast_fmt cast ++ s) ARROW = false ∧ head (cast_fmt cast ++ s) ∉ [Some BANG; Some LPAREN] ∧
  (head (cast_fmt cast ++ s) ≠ Some COLON ∨ starts_with (cast_fmt cast ++ s) (str "::") = true).
Proof.
  intros St. destruct cast as [c|].
  - cbn [cast_fmt from_option]. split_and!; [by left|by split; [|left]|done|done|cbn; set_solver|by right].
  - cbn [cast_fmt from_option app]. destruct (cast_stop_ok s St) as (Ns & So & _ & Ks & Na & Hs). split_and!; try done; [set_solver|left; set_solver].
Qed.
Lemma field_col_app fuel pre alias name path cast agg ac suf :
  let c := mkCol alias (Some (mkFieldSel name path cast)) agg ac in
  col_ok c → item_then (ICol c) suf →
  parse_item (S fuel) (C pre (col_fmt c ++ suf)) = Ok (ICol c, C (pre ++ col_fmt c) suf).
Proof.
  intros c (Ak & (Nk & Pk & Ck) & Gk) [St Op]. subst c. cbn [cl_alias cl_field cl_agg cl_agg_cast fs_name fs_path fs_cast] in *.
  assert (Et : col_fmt (mkCol alias (Some (mkFieldSel name path cast)) agg ac) = (alias_fmt alias ++ name_fmt name) ++ fmt_path path ++ cast_fmt cast ++ agg_fmt agg ac).
  { unfold col_fmt. cbn [cl_alias cl_field cl_agg cl_agg_cast fs_name fs_path fs_cast from_option]. by rewrite <-!app_assoc. }
  rewrite Et. cbn [parse_item]. pose proof (agg_stop agg ac suf St) as Cs. destruct (cast_key_stop cast _ Cs) as (Ks & Ns & So & Na & Hb & Hc).
  rewrite <-app_assoc. pose proof (alias_text alias _ (name_fmt_text name)) as Tx. rewrite eat_str_no by by apply not_dots.
  set (tail_ := (fmt_path path ++ cast_fmt cast ++ agg_fmt agg ac) ++ suf).
  assert (Etl : tail_ = fmt_path path ++ cast_fmt cast ++ agg_fmt agg ac ++ suf) by (unfold tail_; by rewrite <-!app_assoc).
  assert (Hl : head tail_ ∉ [Some BANG; Some LPAREN] ∧ (head tail_ ≠ Some COLON ∨ starts_with tail_ (str "::") = true)).
  { rewrite Etl. destruct path as [|st path]; [done|]. rewrite fmt_path_cons, <-!app_assoc. split; [cbn; set_solver|by left]. }
  destruct Hl as [Hl Hcl]. destruct (item_head_app alias (name_fmt name) name (name_needs_quotes name) pre tail_) as [na Eh];
    [done|apply name_fmt_text|done|intros pre'; apply parse_name_app; [done|rewrite Etl; by apply path_name_stop|rewrite Etl; by apply path_starts]|].
  rewrite Eh, bind_run.
  assert (Nst : bool_decide (name = str "*") && negb (name_needs_quotes name) = false).
  { case_bool_decide as E; [|done]. by subst. }
  rewrite Nst.
  assert (Nct : (if bool_decide (name = str "count") && negb (name_needs_quotes name) then eat_str (str "()") (C (pre ++ alias_fmt alias ++ name_fmt name) tail_)
                 else (false, C (pre ++ alias_fmt alias ++ name_fmt name) tail_)) = (false, C (pre ++ alias_fmt alias ++ name_fmt name) tail_)).
  { destruct (bool_decide (name = str "count") && negb (name_needs_quotes name)); [|done]. apply eat_str_no, not_true_iff_false. intros [r E]%starts_with_inv. apply Hl. rewrite E. cbn. set_solver. }
  rewrite Nct, !at_byte_C, !bool_decide_false by set_solver. cbn [orb]. rewrite Etl.
  assert (Pt : path_then path (cast_fmt cast ++ agg_fmt agg ac ++ suf)).
  { intros s Ls Ix. destruct cast as [cst|]; [done|]. destruct agg as [a|]; [done|]. cbn [cast_fmt agg_fmt from_option app].
    cbn in Op. rewrite Ls in Op. cbn in Op. specialize (Op Ix). destruct St as [-> |[Hs|Hs]]; [done| |done]. destruct suf as [|b suf]; [done|]. by injection Hs as ->. }
  rewrite parse_json_path_app, bind_run by done. rewrite parse_cast_app, bind_run by done. rewrite parse_agg_app, bind_run by done. by rewrite <-!app_assoc.
Qed.
Lemma count_col_app fuel pre alias ac suf :
  let c := mkCol alias None (Some Count) ac in
  col_ok c → item_stop suf → parse_item (S fuel) (C pre (col_fmt c ++ suf)) = Ok (ICol c, C (pre ++ col_fmt c) suf).
Proof.
  intros c (Ak & _ & Ck) St. subst c. cbn [cl_alias cl_field cl_agg cl_agg_cast] in *.
  assert (Et : col_fmt (mkCol alias None (Some Count) ac) = (alias_fmt alias ++ str "count") ++ str "()" ++ cast_fmt ac) by (unfold col_fmt; cbn [cl_alias cl_field cl_agg cl_agg_cast from_option]; by rewrite <-!app_assoc).
  rewrite Et. cbn [parse_item]. rewrite <-(app_assoc (alias_fmt alias ++ str "count")), <-(app_assoc (str "()")).
  assert (Tx : name_text (alias_fmt alias ++ str "count")) by (apply alias_text; by right). rewrite eat_str_no by by apply not_dots.
  destruct (item_head_app alias (str "count") (str "count") false pre (str "()" ++ cast_fmt ac ++ suf)) as [na Eh]; [done|by right|by left| |].
  { intros pre'. apply parse_name_bare; try done; [split; [repeat constructor|done]|by split; [|left]]. }
  rewrite Eh, bind_run. rewrite bool_decide_false, bool_decide_true by done. cbn [andb negb]. rewrite eat_str_yes.
  rewrite parse_cast_app, bind_run by (done || by apply item_cast). by rewrite <-!app_assoc.
Qed.
Lemma item_stop_ok s : item_stop s → name_stop name_break s ∧ starts_ok s ∧ head s ≠ Some COLON.
Proof. intros St. destruct (cast_stop_ok s) as (Ns & So & _ & _ & _ & Hd); [by left|]. split_and!; [done|done|set_solver]. Qed.
Lemma star_app fuel pre suf : item_stop suf → parse_item (S fuel) (C pre (str "*" ++ suf)) = Ok (Star, C (pre ++ str "*") suf).
Proof.
  intros St. destruct (item_stop_ok suf St) as (Ns & So & Hc). cbn [parse_item]. rewrite eat_str_no by done.
  destruct (item_head_app None (str "*") (str "*") false pre suf) as [na Eh]; [done|by right|by left| |].
  { intros pre'. apply parse_name_bare; try done. split; [repeat constructor|done]. }
  cbn [alias_fmt from_option app] in *. by rewrite Eh, bind_run.
Qed.

(** ** Reading back: embeds *)
Definition flags_fmt (hint : option bytes) (j : option Join) : bytes := from_option (λ h, BANG :: hint_fmt h) [] hint ++ join_fmt j.
Lemma flags_stop fuel h j pre s : flags_loop (S fuel) h j (C pre (LPAREN :: s)) = Ok ((h, j), C pre (LPAREN :: s)).
Proof. cbn [flags_loop]. by rewrite eat_no. Qed.
Lemma flags_join fuel h j pre s :
  name_stop name_break s → starts_ok s →
  flags_loop (S fuel) h None (C pre (join_fmt (Some j) ++ s)) = flags_loop fuel h (Some j) (C (pre ++ join_fmt (Some j)) s).
Proof.
  intros St So. assert (Ej : join_fmt (Some j) = [BANG] ++ match j with Inner => str "inner" | Left => str "left" end) by by destruct j.
  rewrite Ej, <-app_assoc. cbn [flags_loop app]. rewrite eat_yes. cbv zeta.
  rewrite parse_raw_name_bare, bind_run; [|by destruct j|by destruct j|destruct j; (split; [repeat constructor|done])|by destruct j|done|done].
  rewrite <-app_assoc. by destruct j.
Qed.
Lemma flags_hint fuel h j pre s :
  name_ok h → name_stop name_break s → starts_ok s →
  flags_loop (S fuel) None j (C pre ((BANG :: hint_fmt h) ++ s)) = flags_loop fuel (Some h) j (C (pre ++ BANG :: hint_fmt h) s).
Proof.
  intros Nk St So. cbn [flags_loop app]. rewrite eat_yes. cbv zeta.
  assert (Pr : ∃ q, parse_raw_name (C (pre ++ [BANG]) (hint_fmt h ++ s)) = Ok ((h, q), C ((pre ++ [BANG]) ++ hint_fmt h) s) ∧
    (q = false → trim h = h ∧ h ≠ str "inner" ∧ h ≠ str "left")).
  { unfold hint_fmt. destruct (bool_decide (h = str "inner") || bool_decide (h = str "left")) eqn:W.
    { exists true. split; [by apply parse_raw_name_quoted|done]. }
    apply orb_false_iff in W as [W1%bool_decide_eq_false W2%bool_decide_eq_false]. unfold name_fmt. destruct (name_needs_quotes h) eqn:Nq.
    { exists true. split; [by apply parse_raw_name_quoted|done]. }
    destruct (bare_select h Nq) as (Nn & Cl & Tr & _ & Hq). exists false. destruct Nk. split; [by apply parse_raw_name_bare|done]. }
  destruct Pr as (q & -> & Hq). rewrite bind_run, <-app_assoc. cbn [app]. destruct Nk as [_ Nn]. destruct q.
  - destruct h; [done|]. by rewrite bool_decide_false by by intros [].
  - destruct (Hq eq_refl) as (Tr & N1 & N2). rewrite (bool_decide_false _ N1), (bool_decide_false _ N2), Tr. destruct h; [done|].
    by rewrite bool_decide_false by by intros [].
Qed.
Lemma flags_app hint j pre s :
  opt_ok name_ok hint →
  flags_loop (S (length (flags_fmt hint j ++ LPAREN :: s))) None None (C pre (flags_fmt hint j ++ LPAREN :: s)) =
  Ok ((hint, j), C (pre ++ flags_fmt hint j) (LPAREN :: s)).
Proof.
  intros Hk. destruct (stop_byte LPAREN s ltac:(done) ltac:(done)) as [Ns So]. unfold flags_fmt.
  assert (Js : ∀ j, name_stop name_break (join_fmt j ++ LPAREN :: s) ∧ starts_ok (join_fmt j ++ LPAREN :: s)).
  { intros [[]|]; [by apply (stop_byte BANG)..|done]. }
  assert (Fin : ∀ h fuel pre, (2 ≤ fuel)%nat → flags_loop fuel h None (C pre (join_fmt j ++ LPAREN :: s)) = Ok ((h, j), C (pre ++ join_fmt j) (LPAREN :: s))).
  { intros h fuel pre' Lf. destruct fuel as [|[|fuel]]; [lia|lia|]. destruct j as [j|]; [by rewrite flags_join, flags_stop|].
    cbn [join_fmt app]. by rewrite flags_stop, app_nil_r. }
  destruct hint as [h|]; cbn [from_option].
  - rewrite <-app_assoc. rewrite flags_hint by (done || apply Js). rewrite Fin; [by rewrite <-app_assoc|]. rewrite !length_app. cbn. lia.
  - cbn [app]. apply Fin. rewrite length_app. cbn. lia.
Qed.
Lemma embed_fmt_parts alias relation hint j items :
  embed_fmt (mkEmbed alias relation hint j items) =
  (alias_fmt alias ++ relation_fmt relation hint j items) ++ flags_fmt hint j ++ [LPAREN] ++ render items ++ [RPAREN].
Proof. cbn [embed_fmt]. unfold flags_fmt, render. by rewrite <-!app_assoc. Qed.
Lemma relation_text relation hint j items : name_text (relation_fmt relation hint j items).
Proof. unfold relation_fmt. destruct (_ && _); [by left|apply name_fmt_text]. Qed.
(** No item begins with the bracket that closes its list. *)
Lemma item_text i s : item_ok i → head (item_fmt i ++ s) ≠ Some RPAREN ∧ item_fmt i ≠ [].
Proof.
  intros Ik. assert (K : ∀ t u : bytes, name_text t → head ((t ++ u) ++ s) ≠ Some RPAREN ∧ t ++ u ≠ []).
  { intros t u T. rewrite <-app_assoc. split; [by apply name_text_head|]. by destruct t. }
  destruct i as [|c|e|e]; cbn [item_fmt].
  - done.
  - destruct c as [alias [[name path cast]|] agg ac]; unfold col_fmt; cbn [cl_alias cl_field cl_agg cl_agg_cast fs_name fs_path fs_cast from_option].
    + pose proof (alias_text alias _ (name_fmt_text name)) as T. rewrite <-!app_assoc, (app_assoc (alias_fmt alias)) in *. destruct (K _ (fmt_path path ++ cast_fmt cast ++ from_option (λ a, [DOT] ++ agg_name a ++ str "()" ++ cast_fmt ac) [] agg) T) as [K1 K2].
      rewrite <-!app_assoc in *. done.
    + destruct Ik as (_ & Ea & _). cbn in Ea. subst agg. cbn [from_option app].
      pose proof (alias_text alias (agg_name Count) ltac:(by right)) as T. rewrite app_assoc. by apply K.
  - destruct e as [alias relation hint j items]. rewrite embed_fmt_parts. apply K, alias_text, relation_text.
  - done.
Qed.
Lemma relation_app relation hint j items suf :
  name_ok relation → items_ok items →
  let s := flags_fmt hint j ++ LPAREN :: render items ++ RPAREN :: suf in
  ∃ q, (∀ pre, parse_name (C pre (relation_fmt relation hint j items ++ s)) = Ok ((relation, q), C (pre ++ relation_fmt relation hint j items) s)) ∧
    (relation = str "*" → q = true) ∧ (relation = str "count" → q = true ∨ starts_with s (str "()") = false).
Proof.
  intros Nk Ok_ s. assert (Ss : name_stop name_break s ∧ starts_ok s).
  { subst s. unfold flags_fmt. destruct hint; [by apply (stop_byte BANG)|]. destruct j as [[]|]; [by apply (stop_byte BANG)..|by apply (stop_byte LPAREN)]. }
  destruct Ss as [Ns So]. unfold relation_fmt. cbv zeta. destruct (_ && _ && _ && _) eqn:Am.
  - exists true. split_and!; [intros pre; by apply parse_name_quoted|done|by left].
  - exists (name_needs_quotes relation). split_and!; [intros pre; by apply parse_name_app|by intros ->|].
    intros ->. right. rewrite bool_decide_true in Am by done. subst s. unfold flags_fmt. destruct hint as [h|]; [done|].
    destruct j as [[]|]; [done|done|]. destruct items as [|i items]; [done|]. cbn [from_option join_fmt app]. destruct Ok_ as [Ik _].
    apply not_true_iff_false. intros [r E]%starts_with_inv. apply (f_equal (@tl byte)) in E. cbn [tl] in E. change (tl (str "()" ++ r)) with (RPAREN :: r) in E. unfold render in E.
    assert (Hd : head (join [COMMA_] (map item_fmt (i :: items)) ++ RPAREN :: suf) ≠ Some RPAREN).
    { cbn [map]. destruct items as [|i2 items]; [by apply item_text|]. cbn [map]. rewrite join_cons, <-!app_assoc. by apply item_text. }
    apply Hd. by rewrite E.
Qed.
Definition list_stop (s : bytes) : Prop := s = [] ∨ head s = Some RPAREN.
Definition tail_app (fuel : nat) : Prop :=
  ∀ alias relation hint j items pre suf, opt_ok name_ok hint → items_ok items → closed_list items →
    let t := flags_fmt hint j ++ LPAREN :: render items ++ [RPAREN] in
    (4 * length t + 2 ≤ fuel)%nat →
    parse_embed_tail fuel alias relation (C pre (t ++ suf)) = Ok (mkEmbed alias relation hint j items, C (pre ++ t) suf).
Lemma embed_app fuel pre alias relation hint j items suf :
  tail_app fuel → let e := mkEmbed alias relation hint j items in
  embed_ok e → (4 * length (embed_fmt e) + 3 ≤ S fuel)%nat →
  parse_item (S fuel) (C pre (embed_fmt e ++ suf)) = Ok (IEmbed e, C (pre ++ embed_fmt e) suf).
Proof.
  intros Ta e (Ak & Rk & Hk & Ok_ & Cl) Lf. subst e. rewrite embed_fmt_parts in *. set (t := flags_fmt hint j ++ LPAREN :: render items ++ [RPAREN]).
  change (flags_fmt hint j ++ [LPAREN] ++ render items ++ [RPAREN]) with t in *.
  assert (Et : t ++ suf = flags_fmt hint j ++ LPAREN :: render items ++ RPAREN :: suf) by (unfold t; rewrite <-!app_assoc; cbn; by rewrite <-!app_assoc).
  destruct (relation_app relation hint j items suf Rk Ok_) as (q & Pn & Ps & Pc). rewrite <-Et in Pn, Pc.
  assert (Hb : head (t ++ suf) = Some BANG ∨ head (t ++ suf) = Some LPAREN).
  { rewrite Et. unfold flags_fmt. destruct hint; [by left|]. destruct j as [[]|]; [by left..|by right]. }
  cbn [parse_item]. rewrite <-app_assoc, eat_str_no by by apply not_dots, alias_text, relation_text.
  destruct (item_head_app alias _ relation q pre (t ++ suf) Ak (relation_text _ _ _ _) ltac:(left; destruct Hb as [-> | ->]; done) Pn) as [na Eh].
  rewrite Eh, bind_run. assert (Nst : bool_decide (relation = str "*") && negb q = false) by (case_bool_decide as E; [by rewrite Ps|done]).
  rewrite Nst. clear Nst. set (cur := C _ (t ++ suf)).
  assert (Nct : (if bool_decide (relation = str "count") && negb q then eat_str (str "()") cur else (false, cur)) = (false, cur)).
  { destruct (decide (relation = str "count")) as [E|E]; [|by rewrite bool_decide_false]. destruct (Pc E) as [-> |Ns]; [by rewrite andb_false_r|]. destruct (bool_decide _ && negb q); [by apply eat_str_no|done]. }
  rewrite Nct. subst cur. rewrite !at_byte_C.
  assert (Or : bool_decide (head (t ++ suf) = Some BANG) || bool_decide (head (t ++ suf) = Some LPAREN) = true).
  { destruct Hb as [-> | ->]; done. }
  assert (Lt : (4 * length t + 2 ≤ fuel)%nat).
  { rewrite !length_app in Lf. pose proof (relation_text relation hint j items) as Tx. destruct (relation_fmt relation hint j items); [done|]. cbn in Lf. lia. }
  pose proof (Ta alias relation hint j items (pre ++ alias_fmt alias ++ relation_fmt relation hint j items) suf Hk Ok_ Cl Lt) as Tt. fold t in Tt.
  rewrite Or, Tt, bind_run.
  by rewrite <-!app_assoc.
Qed.
Lemma tail_text hint j items suf :
  (flags_fmt hint j ++ LPAREN :: render items ++ [RPAREN]) ++ suf = flags_fmt hint j ++ LPAREN :: render items ++ RPAREN :: suf.
Proof. rewrite <-!app_assoc. cbn. by rewrite <-!app_assoc. Qed.
Lemma spread_app fuel pre relation hint j items suf :
  tail_app fuel → let e := mkEmbed None relation hint j items in
  embed_ok e → (4 * length (embed_fmt e) + 3 ≤ S fuel)%nat →
  parse_item (S fuel) (C pre ((str "..." ++ embed_fmt e) ++ suf)) = Ok (ISpread e, C (pre ++ str "..." ++ embed_fmt e) suf).
Proof.
  intros Ta e (_ & Rk & Hk & Ok_ & Cl) Lf. subst e. rewrite embed_fmt_parts in *. cbn [alias_fmt from_option] in *. rewrite app_nil_l in *.
  set (t := flags_fmt hint j ++ LPAREN :: render items ++ [RPAREN]). change (flags_fmt hint j ++ [LPAREN] ++ render items ++ [RPAREN]) with t in *.
  destruct (relation_app relation hint j items suf Rk Ok_) as (q & Pn & _). rewrite <-(tail_text hint j items suf) in Pn. fold t in Pn.
  cbn [parse_item]. rewrite <-!app_assoc, eat_str_yes. cbv beta iota. rewrite Pn, bind_run.
  assert (Lt : (4 * length t + 2 ≤ fuel)%nat) by (rewrite length_app in Lf; lia).
  pose proof (Ta None relation hint j items ((pre ++ str "...") ++ relation_fmt relation hint j items) suf Hk Ok_ Cl Lt) as Tt. fold t in Tt.
  rewrite Tt, bind_run. by rewrite <-!app_assoc.
Qed.
Lemma parse_item_app fuel pre i suf :
  tail_app fuel → item_ok i → (4 * length (item_fmt i) + 3 ≤ S fuel)%nat → item_then i suf →
  parse_item (S fuel) (C pre (item_fmt i ++ suf)) = Ok (i, C (pre ++ item_fmt i) suf).
Proof.
  intros Ta Ik Lf Th. destruct i as [|c|e|e]; cbn [item_fmt] in *.
  - apply star_app, Th.
  - destruct c as [alias [[name path cast]|] agg ac]; [by apply field_col_app|]. pose proof Ik as (_ & Ea & _). cbn in Ea. subst agg. by apply count_col_app; [|apply Th].
  - destruct e. by apply embed_app.
  - destruct Ik as [Ek Ea]. destruct e. subst alias. apply spread_app; [done|done|]. rewrite length_app in Lf. lia.
Qed.
Lemma skip_before_none pre s : item_stop s → skip_spaces_before COMMA_ (C pre s) = C pre s.
Proof.
  intros St. unfold skip_spaces_before. cbv zeta. rewrite rest_C, blanks_0 by (by destruct St as [-> |[-> | ->]]). rewrite Nat.add_0_r.
  cbn [c_pos C c_s]. by case_bool_decide.
Qed.
Lemma select_app fuel :
  (∀ pre items suf, items_ok items → (head suf = Some RPAREN → closed_list items) → list_stop suf → (4 * length (render items) + 5 ≤ fuel)%nat →
     parse_items fuel (C pre (render items ++ suf)) = Ok (items, C (pre ++ render items) suf)) ∧
  (∀ pre out items suf, items ≠ [] → items_ok items → (head suf = Some RPAREN → closed_list items) → list_stop suf → (4 * length (render items) + 4 ≤ fuel)%nat →
     items_loop fuel out (C pre (render items ++ suf)) = Ok (out ++ items, C (pre ++ render items) suf)) ∧
  (∀ pre i suf, item_ok i → (4 * length (item_fmt i) + 3 ≤ fuel)%nat → item_then i suf →
     parse_item fuel (C pre (item_fmt i ++ suf)) = Ok (i, C (pre ++ item_fmt i) suf)) ∧
  tail_app fuel.
Proof.
  induction fuel as [|fuel (IHs & IHl & IHi & IHe)]; [split_and!; intros ?; intros; lia|]. split_and!.
  - intros pre items suf Ok_ Cl St Lf. cbn [parse_items]. rewrite cur_done_C, at_byte_C. destruct items as [|i items].
    + unfold render. cbn [map join app]. rewrite app_nil_r. destruct St as [-> |Hs]; [by rewrite bool_decide_true|].
      rewrite (bool_decide_true (head suf = _)) by done. by rewrite orb_true_r.
    + assert (Hd : head (render (i :: items) ++ suf) ≠ Some RPAREN ∧ render (i :: items) ≠ []).
      { destruct Ok_ as [Ik _]. unfold render. cbn [map]. destruct items as [|i2 items]; cbn [map]; [by apply item_text|].
        rewrite join_cons, <-!app_assoc. pose proof (item_text i) as T. split; [by apply T|]. destruct (T [] Ik) as [_ Ne]. by destruct (item_fmt i). }
      rewrite !bool_decide_false by (try apply Hd; intros [? _]%app_nil; by apply Hd). cbn [orb]. apply (IHl _ []); [done|done|done|done|lia].
  - intros pre out items suf Nn Ok_ Cl St Lf. destruct items as [|i items]; [done|]. destruct Ok_ as [Ik Ok_]. cbn [items_loop].
    assert (Sk : ∀ s, item_stop s → (if is_embed i then skip_spaces_before COMMA_ (C (pre ++ item_fmt i) s) else C (pre ++ item_fmt i) s) = C (pre ++ item_fmt i) s).
    { intros s Hs. destruct (is_embed i); [by apply skip_before_none|done]. }
    destruct items as [|i2 items]; unfold render in *; cbn [map] in *.
    + cbn [join] in *. assert (Is : item_stop suf) by (destruct St; [by left|by right; right]).
      rewrite IHi, bind_run; [|done|lia|]. 2:{ split; [done|]. intros Op Hs. specialize (Cl Hs i eq_refl). congruence. }
      cbv zeta. rewrite Sk by done. rewrite eat_no; [done|]. by destruct St as [-> | ->].
    + rewrite join_cons, !length_app in *. rewrite <-!app_assoc. cbn [length] in Lf.
      rewrite IHi, bind_run; [|done|lia|by split; [right; left|]]. cbv zeta. rewrite Sk by (by right; left). cbn [app]. rewrite eat_yes.
      change (item_fmt i2 :: map item_fmt items) with (map item_fmt (i2 :: items)) in *. rewrite IHl by (done || lia).
      by rewrite <-!app_assoc.
  - intros pre i suf Ik Lf Th. by apply parse_item_app.
  - intros alias relation hint j items pre suf Hk Ok_ Cl t Lf. cbn [parse_embed_tail]. rewrite rest_C. subst t. rewrite tail_text.
    rewrite flags_app, bind_run by done. unfold cur_expect. rewrite expect_as_yes, bind_run. rewrite !length_app in Lf. cbn in Lf. rewrite length_app in Lf. cbn in Lf.
    rewrite IHs, bind_run; [|done|done|by right|lia]. rewrite expect_as_yes, bind_run. by rewrite <-!app_assoc.
Qed.

(** ** Values *)
Lemma select_back items : items_ok items → parse (render items) = Ok items.
Proof.
  intros Ok_. unfold parse. rewrite cur_new_C. destruct (select_app (select_fuel (length (render items)))) as [Sa _].
  pose proof (Sa [] items [] Ok_ ltac:(done) ltac:(by left) ltac:(unfold select_fuel; lia)) as E. rewrite app_nil_r in E. by rewrite E.
Qed.
(** C32: no select value makes the parser panic, and when it accepts one the
    canonical value of its items parses to those very items: columns with
    alias, json path, casts and aggregates, the bare count, embeds with
    hint and join flag nested to any depth, spreads and stars.  Quoting and
    the empty embed of a relation named count are what keeps the two
    spellings apart. *)
Theorem select_round_trip value :
  utf8 value → match parse value with Ok items => parse (render items) = Ok items | Err _ => True | Panic => False end.
Proof.
  intros U. destruct (select_spec (select_fuel (length value))) as [Ss _]. specialize (Ss [] value ltac:(unfold select_fuel; lia) U).
  unfold parse at 1. rewrite cur_new_C. destruct (parse_items _ _) as [[items c]| |]; [|done..].
  destruct Ss as (_ & _ & _ & _ & _ & _ & Ok_ & _). by apply select_back.
Qed.
Lemma select_round_trip_witness :
  let value := str "id, n:name::text,data->0,p!inner!fk (c->1, count()),...s(x.sum())" in
  match parse value with
  | Ok items => render items = str "id,n:name::text,data->0,p!fk!inner(c->1,count()),...s(x.sum())"
  | _ => False
  end ∧
  match parse value with Ok items => parse (render items) = Ok items | Err _ => True | Panic => False end.
Proof. split; [by vm_compute|]. apply select_round_trip. by vm_compute. Defined.
