(* ===== verification/RestSql.v ===== *)
(** * RestSql: filter trees to parameterized SQL (crates/zou-rest/src/sql.rs)

    The compiler that turns the trees of RestFilter into one WHERE fragment
    with $n placeholders and the list of what they stand for; the columns it
    looks up are those of catalog.rs.

    Postgres reads a statement token by token.  [lex] is that reading, as far
    as quoting goes: quoted identifiers and strings with their doubled
    quotes, placeholders, every other byte for itself, and no comments.  The
    specification of the compiler is in tokens, where a name is one token
    whatever is in it; the theorem is that the text lexes to exactly those
    tokens. *)
From S2P Require Import Prelude Order Text Utf8 RestScan RestScanProofs RestFilter RestFilterProofs.

(** ** Relations (catalog.rs) *)
Record Column := mkColumn {
  co_name : bytes; co_type_name : bytes; co_base_type : bytes;
  co_to_json : option bytes; co_from_text : option bytes; co_from_json : option bytes; co_default_expr : option bytes
}.
Record Relation := mkRelation { rl_name : bytes; rl_columns : list Column; rl_keys : list bytes }.
Definition column (rel : Relation) (name : bytes) : option Column := find (λ c, bool_decide (co_name c = name)) (rl_columns rel).
Definition has (rel : Relation) (name : bytes) : bool := bool_decide (is_Some (column rel name)).
Definition represented (rel : Relation) : bool := existsb (λ c, bool_decide (is_Some (co_to_json c))) (rl_columns rel).
Definition steps_as_json (rel : Relation) (name : bytes) : bool :=
  match column rel name with
  | Some c => negb (bool_decide (co_type_name c = str "json") || bool_decide (co_type_name c = str "jsonb"))
  | None => true
  end.
Definition searches_as_text (rel : Relation) (name : bytes) : bool :=
  match column rel name with Some c => negb (bool_decide (co_base_type c = str "tsvector")) | None => false end.

(** ** Fragments *)
Record CompileError := mkCompileError { ce_message : bytes }.
Record Sql := mkSql { sq_text : bytes; sq_params : list bytes }.
Record EmbedTest := mkEmbedTest { et_key : bytes; et_present : bytes; et_absent : bytes }.
(** The fixed part of [Compiler]; its parameters are threaded. *)
Record Compiler := mkCompiler { cp_qualifier : option bytes; cp_rel : option Relation; cp_embeds : list EmbedTest }.
Definition APOS : byte := Byte.x27.
Definition DOLLAR : byte := Byte.x24.
Definition STAR : byte := Byte.x2a.
Definition PERCENT : byte := Byte.x25.

Definition quote_ident (name : bytes) : bytes :=
  [QUOTE] ++ concat ((λ b, if decide (b = QUOTE) then [QUOTE; QUOTE] else [b]) <$> name) ++ [QUOTE].
Definition step_expr (s : JsonStep) : bytes :=
  (if js_text s then str "->>" else str "->") ++
  match js_key s with
  | JName n => [APOS] ++ concat ((λ b, if decide (b = APOS) then [APOS; APOS] else [b]) <$> n) ++ [APOS]
  | JIndex i => fmt_i64 i
  end.
Definition path_expr (base : bytes) (path : list JsonStep) (to_json : bool) : bytes :=
  let wrap := to_json && negb (bool_decide (path = [])) in
  (if wrap then str "to_jsonb(" else []) ++ base ++ (if wrap then str ")" else []) ++ concat (step_expr <$> path).
Definition field_expr (qualifier : option bytes) (col : bytes) (path : list JsonStep) (to_json : bool) : bytes :=
  path_expr (from_option (λ q, quote_ident q ++ [DOT]) [] qualifier ++ quote_ident col) path to_json.
Definition wild (patterns : bool) (b : byte) : byte := if patterns && bool_decide (b = STAR) then PERCENT else b.
Definition array_elem (patterns : bool) (e : bytes) : bytes :=
  [QUOTE] ++ concat ((λ b, let b := wild patterns b in if decide (b = QUOTE ∨ b = BACKSLASH) then [BACKSLASH; b] else [b]) <$> e) ++ [QUOTE].
Definition array_literal (elems : list bytes) (patterns : bool) : bytes :=
  [LBRACE] ++ join [COMMA_] (array_elem patterns <$> elems) ++ [RBRACE].
Definition pattern_op (op : Op) : bool := match op with OpLike | OpIlike => true | _ => false end.
Definition plain_symbol (op : Op) : option bytes :=
  match op with
  | OpEq => Some (str "=") | OpNeq => Some (str "<>") | OpGt => Some (str ">") | OpGte => Some (str ">=") | OpLt => Some (str "<")
  | OpLte => Some (str "<=") | OpLike => Some (str "LIKE") | OpIlike => Some (str "ILIKE") | OpMatch => Some (str "~")
  | OpImatch => Some (str "~*") | OpCs => Some (str "@>") | OpCd => Some (str "<@") | OpOv => Some (str "&&") | OpSl => Some (str "<<")
  | OpSr => Some (str ">>") | OpNxr => Some (str "&<") | OpNxl => Some (str "&>") | OpAdj => Some (str "-|-")
  | OpIn | OpIs | OpIsDistinct | OpFts | OpPlfts | OpPhfts | OpWfts => None
  end.
Definition fts_func (op : Op) : bytes :=
  match op with
  | OpPlfts => str "plainto_tsquery" | OpPhfts => str "phraseto_tsquery" | OpWfts => str "websearch_to_tsquery" | _ => str "to_tsquery"
  end.

(** ** The compiler *)
Abbreviation compile A := (list bytes → res CompileError (A * list bytes)).
Definition hole (n : nat) : bytes := DOLLAR :: fmt_dec 0 (Z.of_nat n).
Definition bind_ (value : bytes) (params : list bytes) : bytes * list bytes :=
  let params := params ++ [value] in (hole (length params), params).
Definition read_fmt (read : option bytes) (h : bytes) : bytes := from_option (λ f, f ++ [LPAREN] ++ h ++ [RPAREN]) h read.
Definition bind_read (read : option bytes) (value : bytes) (params : list bytes) : bytes * list bytes :=
  let '(h, params) := bind_ value params in (read_fmt read h, params).
Fixpoint bind_all (read : option bytes) (values : list bytes) (params : list bytes) : list bytes * list bytes :=
  match values with
  | [] => ([], params)
  | v :: values =>
      let '(h, params) := bind_read read v params in
      let '(hs, params) := bind_all read values params in (h :: hs, params)
  end.
Definition read_cast (cp : Compiler) (c : Cond) : option bytes :=
  if pattern_op (cd_op c) || bool_decide (cd_op c = OpIsDistinct) || negb (bool_decide (fd_path (cd_field c) = [])) then None
  else rel ← cp_rel cp; col ← column rel (fd_column (cd_field c)); co_from_text col.
Definition embed_test (cp : Compiler) (c : Cond) : option bytes :=
  if negb (bool_decide (cd_op c = OpIs)) || negb (bool_decide (fd_path (cd_field c) = [])) || (match cd_quant c with Some _ => true | None => false end) then None
  else
    match cd_value c with
    | Lit w =>
        if negb (bool_decide (w = str "null")) then None
        else t ← find (λ e, bool_decide (et_key e = fd_column (cd_field c))) (cp_embeds cp);
             Some (if cd_negated c then et_present t else et_absent t)
    | _ => None
    end.
Definition lit_value (v : Value) : res CompileError bytes := match v with Lit s => Ok s | _ => Panic end.
Definition lhs (cp : Compiler) (c : Cond) : bytes :=
  field_expr (cp_qualifier cp) (fd_column (cd_field c)) (fd_path (cd_field c))
    (from_option (λ r, steps_as_json r (fd_column (cd_field c))) true (cp_rel cp)).
Definition quant_expr (cp : Compiler) (c : Cond) (q : Quant) : compile bytes := λ params,
  match cd_value c, plain_symbol (cd_op c) with
  | VArray elems, Some sym =>
      let '(h, params) := bind_read (read_cast cp c) (array_literal elems (pattern_op (cd_op c))) params in
      Ok (lhs cp c ++ str " " ++ sym ++ str " " ++ (match q with QAny => str "ANY" | QAll => str "ALL" end) ++ [LPAREN] ++ h ++ [RPAREN], params)
  | _, _ => Panic
  end.
Definition in_expr (cp : Compiler) (c : Cond) : compile bytes := λ params,
  match cd_value c with
  | VList [[]] => Ok (lhs cp c ++ str " = ANY('{}')", params)
  | VList elems =>
      let '(holes, params) := bind_all (read_cast cp c) elems params in
      Ok (lhs cp c ++ str " IN (" ++ join (str ", ") holes ++ [RPAREN], params)
  | _ => Panic
  end.
Definition is_expr (cp : Compiler) (c : Cond) : compile bytes := λ params,
  match cd_value c with
  | Lit w =>
      Ok (if bool_decide (w = str "not_null") then lhs cp c ++ str " IS NOT NULL" else lhs cp c ++ str " IS " ++ to_ascii_uppercase w, params)
  | _ => Panic
  end.
Definition fts_expr (cp : Compiler) (c : Cond) : compile bytes := λ params,
  let '(searched, params) :=
    if from_option (λ r, searches_as_text r (fd_column (cd_field c))) false (cp_rel cp) then
      match cd_config c with
      | Some cfg => let '(h, params) := bind_ cfg params in (str "to_tsvector(" ++ h ++ str "::regconfig, " ++ lhs cp c ++ [RPAREN], params)
      | None => (str "to_tsvector(" ++ lhs cp c ++ [RPAREN], params)
      end
    else (lhs cp c, params) in
  match cd_config c with
  | Some cfg =>
      let '(hc, params) := bind_ cfg params in
      value ← lit_value (cd_value c);
      let '(hq, params) := bind_ value params in
      Ok (searched ++ str " @@ " ++ fts_func (cd_op c) ++ [LPAREN] ++ hc ++ str "::regconfig, " ++ hq ++ [RPAREN], params)
  | None =>
      value ← lit_value (cd_value c);
      let '(hq, params) := bind_ value params in
      Ok (searched ++ str " @@ " ++ fts_func (cd_op c) ++ [LPAREN] ++ hq ++ [RPAREN], params)
  end.
Definition plain_expr (cp : Compiler) (c : Cond) : compile bytes := λ params,
  match plain_symbol (cd_op c) with
  | Some sym =>
      lit ← lit_value (cd_value c);
      let '(h, params) := bind_read (read_cast cp c) (wild (pattern_op (cd_op c)) <$> lit) params in
      Ok (lhs cp c ++ str " " ++ sym ++ str " " ++ h, params)
  | None => Panic
  end.
(** [Compiler::cond] *)
Definition cond (cp : Compiler) (c : Cond) : compile bytes := λ params,
  if negb (bool_decide (fd_embed (cd_field c) = [])) then
    Err (mkCompileError (str "a filter on the embedded resource (" ++ join [DOT] (fd_embed (cd_field c)) ++ str ") needs the embedding planner"))
  else
    match embed_test cp c with
    | Some test => Ok (test, params)
    | None =>
        '(expr, params) ←
          (match cd_quant c with
           | Some q => quant_expr cp c q params
           | None =>
               match cd_op c with
               | OpIn => in_expr cp c params
               | OpIs => is_expr cp c params
               | OpIsDistinct =>
                   lit ← lit_value (cd_value c);
                   let '(h, params) := bind_read (read_cast cp c) lit params in
                   Ok (lhs cp c ++ str " IS DISTINCT FROM " ++ h, params)
               | OpFts | OpPlfts | OpPhfts | OpWfts => fts_expr cp c params
               | _ => plain_expr cp c params
               end
           end);
        Ok (if cd_negated c then str "NOT (" ++ expr ++ str ")" else expr, params)
    end.
(** [Compiler::node]; the parts are compiled from the left, each going on
    with the parameters the ones before it bound. *)
Fixpoint node (cp : Compiler) (n : Node) (params : list bytes) {struct n} : res CompileError (bytes * list bytes) :=
  match n with
  | NCond c => cond cp c params
  | NGroup op negated kids =>
      match kids with
      | [] => Err (mkCompileError (str "an empty logic group"))
      | _ =>
          '(parts, params) ←
            (fix go (kids : list Node) (params : list bytes) : res CompileError (list bytes * list bytes) :=
               match kids with
               | [] => Ok ([], params)
               | kid :: kids => '(part, params) ← node cp kid params; '(parts, params) ← go kids params; Ok (part :: parts, params)
               end) kids params;
          let body := join (match op with LAnd => str " AND " | LOr => str " OR " end) parts in
          Ok (if negated then str "NOT (" ++ body ++ str ")" else str "(" ++ body ++ str ")", params)
      end
  end.
Fixpoint nodes_ (cp : Compiler) (kids : list Node) (params : list bytes) : res CompileError (list bytes * list bytes) :=
  match kids with
  | [] => Ok ([], params)
  | kid :: kids => '(part, params) ← node cp kid params; '(parts, params) ← nodes_ cp kids params; Ok (part :: parts, params)
  end.
Definition where_clause_over (nodes : list Node) (qualifier : option bytes) (params : list bytes) (rel : option Relation) (embeds : list EmbedTest)
    : res CompileError Sql :=
  match nodes with
  | [] => Err (mkCompileError (str "nothing to compile"))
  | _ =>
      '(parts, params) ← nodes_ (mkCompiler qualifier rel embeds) nodes params;
      Ok (mkSql (join (str " AND ") parts) params)
  end.
Definition where_clause_from (nodes : list Node) (qualifier : option bytes) (params : list bytes) (rel : option Relation) : res CompileError Sql :=
  where_clause_over nodes qualifier params rel [].
Definition where_clause (nodes : list Node) : res CompileError Sql := where_clause_from nodes None [] None.

(** ** Reading SQL *)
Inductive Tok := TByte (b : byte) | TIdent (s : bytes) | TStr (s : bytes) | THole (n : Z).
#[global] Instance Tok_eq_dec : EqDecision Tok.
Proof. solve_decision. Defined.
Inductive Mode :=
  | MPlain (last_ : option byte)  (** the last byte, where a comment may begin with it *)
  | MQuoted (q : byte) (acc : bytes)
  | MClosing (q : byte) (acc : bytes)  (** after a quote that ends it or is doubled *)
  | MHole (acc : bytes).
Definition dec_value (ds : bytes) : Z := foldl (λ a b, a * 10 + (bval b - 48)) 0 ds.
Definition quoted_tok (q : byte) (s : bytes) : Tok := if decide (q = QUOTE) then TIdent s else TStr s.
Definition opens_comment (last_ : option byte) (b : byte) : bool :=
  bool_decide (last_ = Some DASH ∧ b = DASH) || bool_decide (last_ = Some Byte.x2f ∧ b = STAR).
Definition remember_byte (b : byte) : option byte := if bool_decide (b = DASH) || bool_decide (b = Byte.x2f) then Some b else None.
(** One byte outside quotes; [k] goes on in the mode it is given. *)
Definition plain_step (k : Mode → option (list Tok)) (last_ : option byte) (b : byte) : option (list Tok) :=
  if opens_comment last_ b then None
  else if decide (b = QUOTE) then k (MQuoted QUOTE [])
  else if decide (b = APOS) then k (MQuoted APOS [])
  else if decide (b = DOLLAR) then k (MHole [])
  else cons (TByte b) <$> k (MPlain (remember_byte b)).
Fixpoint lex (m : Mode) (s : bytes) : option (list Tok) :=
  match s with
  | [] =>
      match m with
      | MPlain _ => Some []
      | MQuoted _ _ => None
      | MClosing q acc => Some [quoted_tok q acc]
      | MHole [] => None
      | MHole acc => Some [THole (dec_value acc)]
      end
  | b :: s =>
      match m with
      | MPlain last_ => plain_step (λ m, lex m s) last_ b
      | MQuoted q acc => if decide (b = q) then lex (MClosing q acc) s else lex (MQuoted q (acc ++ [b])) s
      | MClosing q acc =>
          if decide (b = q) then lex (MQuoted q (acc ++ [q])) s
          else cons (quoted_tok q acc) <$> plain_step (λ m, lex m s) None b
      | MHole acc =>
          if is_digit b then lex (MHole (acc ++ [b])) s
          else match acc with [] => None | _ => cons (THole (dec_value acc)) <$> plain_step (λ m, lex m s) None b end
      end
  end.
Definition read_sql (s : bytes) : option (list Tok) := lex (MPlain None) s.

(** ** The specification *)
Definition kw (t : bytes) : list Tok := TByte <$> t.
Definition sp (t : String.string) : list Tok := kw (str t).
Definition step_toks (s : JsonStep) : list Tok :=
  (if js_text s then sp "->>" else sp "->") ++ match js_key s with JName n => [TStr n] | JIndex i => kw (fmt_i64 i) end.
Definition field_toks (qualifier : option bytes) (col : bytes) (path : list JsonStep) (to_json : bool) : list Tok :=
  let wrap := to_json && negb (bool_decide (path = [])) in
  (if wrap then sp "to_jsonb(" else []) ++ from_option (λ q, TIdent q :: sp ".") [] qualifier ++ [TIdent col] ++
  (if wrap then sp ")" else []) ++ concat (step_toks <$> path).
Definition lhs_toks (cp : Compiler) (c : Cond) : list Tok :=
  field_toks (cp_qualifier cp) (fd_column (cd_field c)) (fd_path (cd_field c))
    (from_option (λ r, steps_as_json r (fd_column (cd_field c))) true (cp_rel cp)).
(** The hole of parameter [n], through the cast its column reads text with;
    [n] counts from one. *)
Definition hole_toks (read : option bytes) (n : nat) : list Tok :=
  from_option (λ f, default [] (read_sql f) ++ sp "(" ++ [THole (Z.of_nat n)] ++ sp ")") [THole (Z.of_nat n)] read.
Fixpoint list_toks (sep : list Tok) (parts : list (list Tok)) : list Tok :=
  match parts with [] => [] | [p] => p | p :: parts => p ++ sep ++ list_toks sep parts end.
Definition is_word_toks (w : bytes) : list Tok := if bool_decide (w = str "not_null") then sp "NOT NULL" else kw (to_ascii_uppercase w).
Definition lit (v : Value) : bytes := match v with Lit s => s | _ => [] end.
Definition elems (v : Value) : list bytes := match v with Lit s => [] | VList l | VArray l => l end.
(** What a condition binds. *)
Definition fts_searched (cp : Compiler) (c : Cond) : bool := from_option (λ r, searches_as_text r (fd_column (cd_field c))) false (cp_rel cp).
Definition cond_values (cp : Compiler) (c : Cond) : list bytes :=
  match embed_test cp c, cd_quant c, cd_op c with
  | Some _, _, _ => []
  | None, Some _, op => [array_literal (elems (cd_value c)) (pattern_op op)]
  | None, None, OpIn => if decide (elems (cd_value c) = [[]]) then [] else elems (cd_value c)
  | None, None, OpIs => []
  | None, None, (OpFts | OpPlfts | OpPhfts | OpWfts) =>
      match cd_config c with
      | Some cfg => (if fts_searched cp c then [cfg] else []) ++ [cfg; lit (cd_value c)]
      | None => [lit (cd_value c)]
      end
  | None, None, op => [wild (pattern_op op) <$> lit (cd_value c)]
  end.
(** What a condition says, its first parameter being number [n + 1]. *)
Definition expr_toks (cp : Compiler) (c : Cond) (n : nat) : list Tok :=
  let l := lhs_toks cp c in
  let h := hole_toks (read_cast cp c) in
  match cd_quant c, cd_op c with
  | Some q, op => l ++ sp " " ++ kw (default [] (plain_symbol op)) ++ sp " " ++ (match q with QAny => sp "ANY(" | QAll => sp "ALL(" end) ++ h (S n) ++ sp ")"
  | None, OpIn =>
      if decide (elems (cd_value c) = [[]]) then l ++ sp " = ANY(" ++ [TStr (str "{}")] ++ sp ")"
      else l ++ sp " IN (" ++ list_toks (sp ", ") (h <$> seq (S n) (length (elems (cd_value c)))) ++ sp ")"
  | None, OpIs => l ++ sp " IS " ++ is_word_toks (lit (cd_value c))
  | None, OpIsDistinct => l ++ sp " IS DISTINCT FROM " ++ h (S n)
  | None, (OpFts | OpPlfts | OpPhfts | OpWfts) as op =>
      let '(searched, n) :=
        if fts_searched cp c then
          match cd_config c with
          | Some _ => (sp "to_tsvector(" ++ hole_toks None (S n) ++ sp "::regconfig, " ++ l ++ sp ")", S n)
          | None => (sp "to_tsvector(" ++ l ++ sp ")", n)
          end
        else (l, n) in
      searched ++ sp " @@ " ++ kw (fts_func op) ++ sp "(" ++
      (match cd_config c with
       | Some _ => hole_toks None (S n) ++ sp "::regconfig, " ++ hole_toks None (S (S n))
       | None => hole_toks None (S n)
       end) ++ sp ")"
  | None, op => l ++ sp " " ++ kw (default [] (plain_symbol op)) ++ sp " " ++ h (S n)
  end.
Definition cond_toks (cp : Compiler) (c : Cond) (n : nat) : list Tok :=
  match embed_test cp c with
  | Some test => default [] (read_sql test)
  | None => if cd_negated c then sp "NOT (" ++ expr_toks cp c n ++ sp ")" else expr_toks cp c n
  end.
Fixpoint node_values (cp : Compiler) (n : Node) : list bytes :=
  match n with NCond c => cond_values cp c | NGroup _ _ kids => concat (map (node_values cp) kids) end.
Fixpoint node_toks (cp : Compiler) (n : Node) (k : nat) {struct n} : list Tok :=
  match n with
  | NCond c => cond_toks cp c k
  | NGroup op negated kids =>
      sp (if negated then "NOT (" else "(") ++
      list_toks (match op with LAnd => sp " AND " | LOr => sp " OR " end)
        ((fix go (kids : list Node) (k : nat) : list (list Tok) :=
            match kids with [] => [] | kid :: kids => node_toks cp kid k :: go kids (k + length (node_values cp kid))%nat end) kids k) ++
      sp ")"
  end.
Fixpoint nodes_toks (cp : Compiler) (kids : list Node) (k : nat) : list (list Tok) :=
  match kids with [] => [] | kid :: kids => node_toks cp kid k :: nodes_toks cp kids (k + length (node_values cp kid))%nat end.
Definition nodes_values (cp : Compiler) (kids : list Node) : list bytes := concat (map (node_values cp) kids).
