(* ===== verification/RestSqlProofs.v ===== *)
(** * RestSqlProofs: the text lexes to the specification

    Fragments of text compose: a chunk reads the same whatever follows it, a
    fragment whatever follows it that is no digit and no quote. *)
From S2P Require Import Prelude Order Text Utf8 RestScan RestScanProofs RestFilter RestFilterProofs RestSql.

(** ** Fragments *)
Abbreviation L0 := (lex (MPlain None)).
Definition sep (rest : bytes) : Prop :=
  match rest with [] => True | b :: _ => b ≠ QUOTE ∧ b ≠ APOS ∧ is_digit b = false end.
Definition chunk (t : bytes) (k : list Tok) : Prop := ∀ rest, L0 (t ++ rest) = app k <$> L0 rest.
Definition frag (t : bytes) (k : list Tok) : Prop := ∀ rest, sep rest → L0 (t ++ rest) = app k <$> L0 rest.
Lemma app_fmap (a b : list Tok) (o : option (list Tok)) : app a <$> (app b <$> o) = app (a ++ b) <$> o.
Proof. destruct o; cbn; [|done]. by rewrite app_assoc. Qed.
Lemma chunk_frag t k : chunk t k → frag t k.
Proof. intros C rest _. apply C. Qed.
Lemma chunk_app t1 k1 t2 k2 : chunk t1 k1 → chunk t2 k2 → chunk (t1 ++ t2) (k1 ++ k2).
Proof. intros C1 C2 rest. by rewrite <-app_assoc, C1, C2, app_fmap. Qed.
Lemma chunk_frag_app t1 k1 t2 k2 : chunk t1 k1 → frag t2 k2 → frag (t1 ++ t2) (k1 ++ k2).
Proof. intros C1 F2 rest Sr. by rewrite <-app_assoc, C1, F2, app_fmap. Qed.
Lemma frag_chunk_app t1 k1 t2 k2 : frag t1 k1 → chunk t2 k2 → (∀ rest, sep (t2 ++ rest)) → chunk (t1 ++ t2) (k1 ++ k2).
Proof. intros F1 C2 St rest. by rewrite <-app_assoc, F1, C2, app_fmap. Qed.
Lemma chunk_nil : chunk [] [].
Proof. intros rest. cbn. by destruct (L0 rest). Qed.
Lemma chunk_if (b : bool) t1 k1 t2 k2 : chunk t1 k1 → chunk t2 k2 → chunk (if b then t1 else t2) (if b then k1 else k2).
Proof. by destruct b. Qed.
(** Plain text: what it leaves to be remembered, if it reads at all. *)
Fixpoint plain_run (last_ : option byte) (t : bytes) : option (option byte) :=
  match t with
  | [] => Some last_
  | b :: t =>
      if opens_comment last_ b || bool_decide (b ∈ [QUOTE; APOS; DOLLAR]) then None else plain_run (remember_byte b) t
  end.
Lemma plain_run_lex last_ t out rest : plain_run last_ t = Some out → lex (MPlain last_) (t ++ rest) = app (kw t) <$> lex (MPlain out) rest.
Proof.
  revert last_. induction t as [|b t IH]; intros last_ E; cbn [plain_run app] in *; [injection E as ->; by destruct (lex _ rest)|].
  destruct (opens_comment last_ b || _) eqn:O; [done|]. apply orb_false_iff in O as [O Nb%bool_decide_eq_false].
  cbn [lex]. unfold plain_step. rewrite O, !decide_False by set_solver. rewrite (IH _ E). by destruct (lex _ rest).
Qed.
Lemma plain_chunk t : plain_run None t = Some None → chunk t (kw t).
Proof. intros E rest. by apply plain_run_lex. Qed.
Lemma digits_run last_ t : Forall (λ b, is_digit b = true) t → t ≠ [] → plain_run last_ t = Some None.
Proof.
  intros F. revert last_. induction F as [|b t Db F IH]; intros last_ Nn; [done|]. cbn [plain_run].
  assert (Nb : ∀ x, is_digit x = false → b ≠ x) by (intros x Dx ->; congruence).
  assert (O : opens_comment last_ b = false).
  { unfold opens_comment. rewrite !bool_decide_false; [done|..]; intros [_ E]; by eapply Nb in E. }
  rewrite O, bool_decide_false.
  2:{ rewrite !elem_of_cons, elem_of_nil. intros [E|[E|[E|[]]]]; by eapply Nb in E. }
  assert (R : remember_byte b = None).
  { unfold remember_byte. rewrite !bool_decide_false by (by apply Nb). done. }
  rewrite R. cbn [orb]. destruct t as [|c t]; [done|]. by apply IH.
Qed.
Lemma fmt_i64_chunk i : chunk (fmt_i64 i) (kw (fmt_i64 i)).
Proof.
  apply plain_chunk. unfold fmt_i64. destruct (i <? 0) eqn:S; zbool.
  - cbn. destruct (fmt_dec_nonempty (- i)) as (b & s & E & _); [lia|]. apply digits_run; [apply fmt_dec_digits|by rewrite E].
  - destruct (fmt_dec_nonempty i) as (b & s & E & _); [lia|]. apply digits_run; [apply fmt_dec_digits|by rewrite E].
Qed.

(** ** Quotes and holes *)
Definition doubled (q : byte) (s : bytes) : bytes := concat ((λ b, if decide (b = q) then [q; q] else [b]) <$> s).
Lemma lex_doubled q s acc rest : lex (MQuoted q acc) (doubled q s ++ rest) = lex (MQuoted q (acc ++ s)) rest.
Proof.
  revert acc. induction s as [|b s IH]; intros acc; [by rewrite app_nil_r|]. unfold doubled in *. cbn [fmap list_fmap concat].
  rewrite <-app_assoc. case_decide as E.
  - subst b. cbn [app lex]. rewrite !decide_True by done. by rewrite IH, <-app_assoc.
  - cbn [app lex]. rewrite decide_False by done. by rewrite IH, <-app_assoc.
Qed.
Lemma quoted_frag q s : q = QUOTE ∨ q = APOS → frag ([q] ++ doubled q s ++ [q]) [quoted_tok q s].
Proof.
  intros Q rest Sr. rewrite <-!app_assoc.
  assert (Op : ∀ x, L0 ([q] ++ x) = lex (MQuoted q []) x) by (intros x; destruct Q as [-> | ->]; done).
  rewrite Op, lex_doubled. cbn [app lex]. rewrite decide_True by done. destruct rest as [|b rest]; [done|]. cbn [lex].
  destruct Sr as (N1 & N2 & _). rewrite decide_False by (destruct Q as [-> | ->]; done). by destruct (plain_step _ _ _).
Qed.
Lemma ident_frag name : frag (quote_ident name) [TIdent name].
Proof. apply (quoted_frag QUOTE). by left. Qed.
Lemma string_frag s : frag ([APOS] ++ concat ((λ b, if decide (b = APOS) then [APOS; APOS] else [b]) <$> s) ++ [APOS]) [TStr s].
Proof. apply (quoted_frag APOS). by right. Qed.
Lemma lex_digits ds acc rest :
  Forall (λ b, is_digit b = true) ds → lex (MHole acc) (ds ++ rest) = lex (MHole (acc ++ ds)) rest.
Proof.
  intros F. revert acc. induction F as [|b ds Db F IH]; intros acc; [by rewrite app_nil_r|]. cbn [app lex]. rewrite Db, IH. by rewrite <-app_assoc.
Qed.
Lemma dec_value_run max acc s n :
  Forall (λ b, is_digit b = true) s → parse_digits 10 max acc s = Some n → foldl (λ a b, a * 10 + (bval b - 48)) acc s = n.
Proof.
  intros F. revert acc. induction F as [|b s Db F IH]; intros acc; cbn; [by intros [= ->]|].
  unfold to_digit. unfold is_digit in Db. rewrite Db. clear Db. cbv zeta. destruct (_ <? 10); [|done]. cbn. destruct (_ <=? _); [|done]. apply IH.
Qed.
Lemma dec_value_fmt n : 0 ≤ n → dec_value (fmt_dec 0 n) = n.
Proof.
  intros N. apply (dec_value_run n); [apply fmt_dec_digits|]. pose proof (from_str_fmt digit_lower 10 ltac:(lia) good_dec n 0 n ltac:(lia)) as P.
  destruct (fmt_dec_nonempty n N) as (b & s & E & Db). unfold fmt_dec in *. rewrite E in *. unfold from_str_radix in P.
  destruct (bval b =? 43) eqn:B; [|done]. unfold is_digit in Db. rewrite andb_true_iff in Db. zbool. lia.
Qed.
Lemma hole_frag n : frag (hole n) [THole (Z.of_nat n)].
Proof.
  intros rest Sr. unfold hole. cbn [app]. change (L0 (DOLLAR :: fmt_dec 0 (Z.of_nat n) ++ rest)) with (lex (MHole []) (fmt_dec 0 (Z.of_nat n) ++ rest)).
  rewrite lex_digits by apply fmt_dec_digits. cbn [app]. destruct (fmt_dec_nonempty (Z.of_nat n)) as (b & s & E & _); [lia|].
  pose proof (dec_value_fmt (Z.of_nat n) ltac:(lia)) as V. rewrite E in *. destruct rest as [|c rest]; cbn [lex]; rewrite V; [done|].
  destruct Sr as (_ & _ & ->). by destruct (plain_step _ _ _).
Qed.
Lemma frag_app t1 k1 t2 k2 : frag t1 k1 → frag t2 k2 → (∀ rest, sep (t2 ++ rest)) → frag (t1 ++ t2) (k1 ++ k2).
Proof. intros F1 F2 St rest Sr. by rewrite <-app_assoc, F1, F2, app_fmap. Qed.
(** Text the compiler is handed: it reads by itself, and what it reads to does
    not depend on what follows. *)
Definition trusted (t : bytes) : Prop := ∃ k, read_sql t = Some k ∧ frag t k.
Lemma trusted_frag t : trusted t → frag t (default [] (read_sql t)).
Proof. by intros (k & -> & F). Qed.
(** Names the way postgres quotes them. *)
Lemma qualified_trusted a b : trusted (quote_ident a ++ [DOT] ++ quote_ident b).
Proof.
  assert (F : frag (quote_ident a ++ [DOT] ++ quote_ident b) ([TIdent a] ++ sp "." ++ [TIdent b])).
  { apply frag_app; [apply ident_frag|apply chunk_frag_app; [by apply (plain_chunk [DOT])|apply ident_frag]|done]. }
  exists ([TIdent a] ++ sp "." ++ [TIdent b]). split; [|done]. unfold read_sql. specialize (F [] I). rewrite app_nil_r in F. rewrite F. done.
Qed.
Record compiler_ok (cp : Compiler) : Prop := {
  casts_read : ∀ r c f, cp_rel cp = Some r → c ∈ rl_columns r → co_from_text c = Some f → trusted f;
  embeds_read : ∀ e, e ∈ cp_embeds cp → trusted (et_present e) ∧ trusted (et_absent e)
}.
Ltac plain := apply plain_chunk; by vm_compute.
Lemma step_frag s : frag (step_expr s) (step_toks s) ∧ ∀ rest, sep (step_expr s ++ rest).
Proof.
  split; [|by destruct s as [[] k]]. unfold step_expr, step_toks. apply chunk_frag_app.
  - destruct (js_text s); plain.
  - destruct (js_key s) as [n|i]; [apply string_frag|apply chunk_frag, fmt_i64_chunk].
Qed.
Lemma steps_frag t k path : frag t k → frag (t ++ concat (step_expr <$> path)) (k ++ concat (step_toks <$> path)).
Proof.
  revert t k. induction path as [|s path IH]; intros t k F; cbn [fmap list_fmap concat]; [by rewrite !app_nil_r|].
  rewrite !app_assoc. apply IH. by apply frag_app; [|apply step_frag..].
Qed.
Lemma field_frag q col path to_json : frag (field_expr q col path to_json) (field_toks q col path to_json).
Proof.
  unfold field_expr, path_expr, field_toks. cbv zeta. set (wrap := to_json && _).
  assert (B : frag (from_option (λ q, quote_ident q ++ [DOT]) [] q ++ quote_ident col) (from_option (λ q, TIdent q :: sp ".") [] q ++ [TIdent col])).
  { apply chunk_frag_app; [|apply ident_frag]. destruct q as [q|]; [|apply chunk_nil]. cbn [from_option].
    change (TIdent q :: sp ".") with ([TIdent q] ++ sp "."). apply frag_chunk_app; [apply ident_frag|by apply (plain_chunk [DOT])|done]. }
  destruct wrap.
  - apply chunk_frag_app; [plain|]. rewrite !app_assoc. apply steps_frag. apply chunk_frag.
    apply frag_chunk_app; [exact B|plain|done].
  - cbv iota. rewrite !app_nil_l, (app_assoc _ [TIdent col]). by apply steps_frag.
Qed.
Lemma lhs_frag cp c : frag (lhs cp c) (lhs_toks cp c).
Proof. apply field_frag. Qed.
Lemma column_elem r name c : column r name = Some c → c ∈ rl_columns r.
Proof. unfold column. intros [E _]%find_some. by apply list_elem_of_In. Qed.
Lemma read_cast_trusted cp c f : compiler_ok cp → read_cast cp c = Some f → trusted f.
Proof.
  intros Ok_ E. unfold read_cast in E. destruct (_ || _ || _); [done|]. destruct (cp_rel cp) as [r|] eqn:R; [|done]. cbn in E.
  destruct (column r _) as [col|] eqn:Co; [|done]. cbn in E. eapply casts_read; [done|done|by eapply column_elem|done].
Qed.
Lemma read_frag cp c n : compiler_ok cp → frag (read_fmt (read_cast cp c) (hole n)) (hole_toks (read_cast cp c) n).
Proof.
  intros Ok_. unfold read_fmt, hole_toks. destruct (read_cast cp c) as [f|] eqn:R; cbn [from_option]; [|apply hole_frag].
  apply frag_app; [by eapply trusted_frag, read_cast_trusted| |done]. apply chunk_frag, chunk_app; [by apply (plain_chunk [LPAREN])|].
  apply frag_chunk_app; [apply hole_frag|by apply (plain_chunk [RPAREN])|done].
Qed.
(** Parts with something plain between them. *)
Lemma join_frag t k parts toks :
  chunk t k → (∀ rest, sep (t ++ rest)) → Forall2 frag parts toks → parts ≠ [] → frag (join t parts) (list_toks k toks).
Proof.
  intros Ct St. induction 1 as [|p ks parts toks F F2 IH]; [done|]. intros _. destruct F2 as [|q qs parts toks G F2]; [done|].
  rewrite join_cons. cbn [list_toks]. apply frag_app; [done| |intros rest; rewrite <-app_assoc; apply St]. apply chunk_frag_app; [done|]. by apply IH.
Qed.

(** ** Conditions *)
Lemma bind_all_spec read values params :
  bind_all read values params =
  ((λ n, read_fmt read (hole n)) <$> seq (S (length params)) (length values), params ++ values).
Proof.
  revert params. induction values as [|v values IH]; intros params; [by rewrite app_nil_r|]. cbn [bind_all]. unfold bind_read, bind_.
  rewrite IH. rewrite length_app. cbn [length seq fmap list_fmap]. rewrite Nat.add_1_r, <-app_assoc. done.
Qed.
Lemma symbol_chunk op sym : plain_symbol op = Some sym → chunk (str " " ++ sym ++ str " ") (sp " " ++ kw sym ++ sp " ") ∧ ∀ rest, sep ((str " " ++ sym ++ str " ") ++ rest).
Proof. intros E. split; [|done]. destruct op; try done; injection E as <-; plain. Qed.
(** What a condition of the grammar compiles to: [k] parameters bound after
    those already there, and a text that reads as the tokens of the
    specification. *)
Definition compiles (r : res CompileError (bytes * list bytes)) (params values : list bytes) (toks : list Tok) : Prop :=
  ∃ text, r = Ok (text, params ++ values) ∧ frag text toks.
Lemma quant_compiles cp c q params :
  compiler_ok cp → rhs_ok c → cd_quant c = Some q →
  compiles (quant_expr cp c q params) params [array_literal (elems (cd_value c)) (pattern_op (cd_op c))] (expr_toks cp c (length params)).
Proof.
  intros Ok_ [Co Vk] Q. unfold quant_expr, expr_toks. rewrite Q in *. cbv zeta.
  destruct (cd_value c) as [s|l|l]; cbn in Vk; [by destruct Vk as (_ & _ & ? & _)|by destruct Vk as (_ & _ & _ & ?)|].
  destruct Co as [[?|[Qu _]] _]; [done|]. destruct (plain_symbol (cd_op c)) as [sym|] eqn:Sy; [|by destruct (cd_op c)].
  unfold bind_read, bind_. eexists. split; [done|]. cbn [default from_option elems]. rewrite length_app. cbn [length]. rewrite Nat.add_1_r.
  destruct (symbol_chunk _ _ Sy) as [Sc St].
  assert (F : chunk ((lhs cp c ++ str " " ++ sym ++ str " ") ++ (match q with QAny => str "ANY" | QAll => str "ALL" end) ++ [LPAREN])
                    ((lhs_toks cp c ++ sp " " ++ kw sym ++ sp " ") ++ (match q with QAny => sp "ANY(" | QAll => sp "ALL(" end))).
  { apply chunk_app; [by apply frag_chunk_app; [apply lhs_frag|..]|destruct q; plain]. }
  pose proof (frag_chunk_app _ _ [RPAREN] (sp ")") (chunk_frag_app _ _ _ _ F (read_frag cp c (S (length params)) Ok_)) ltac:(by apply (plain_chunk [RPAREN])) ltac:(done)) as G.
  rewrite <-!app_assoc in G. by apply chunk_frag.
Qed.
Lemma in_compiles cp c params :
  compiler_ok cp → rhs_ok c → cd_quant c = None → cd_op c = OpIn →
  compiles (in_expr cp c params) params (if decide (elems (cd_value c) = [[]]) then [] else elems (cd_value c)) (expr_toks cp c (length params)).
Proof.
  intros Ok_ [_ Vk] Q Op. unfold in_expr, expr_toks. rewrite Q, Op in *. cbv zeta.
  destruct (cd_value c) as [s|l|l]; cbn in Vk; [by destruct Vk as (_ & ? & _)| |by destruct Vk]. destruct Vk as (_ & Nl & _). cbn [elems].
  destruct (decide (l = [[]])) as [-> |N].
  - eexists. rewrite app_nil_r. split; [done|]. apply chunk_frag. apply frag_chunk_app; [apply lhs_frag| |done].
    change (str " = ANY('{}')") with (str " = ANY(" ++ ([APOS] ++ str "{}" ++ [APOS]) ++ [RPAREN]). apply chunk_app; [plain|].
    apply frag_chunk_app; [apply (string_frag (str "{}"))|by apply (plain_chunk [RPAREN])|done].
  - assert (E : (match l with [[]] => Ok (lhs cp c ++ str " = ANY('{}')", params) | elems => let '(holes, params) := bind_all (read_cast cp c) elems params in
        Ok (lhs cp c ++ str " IN (" ++ join (str ", ") holes ++ [RPAREN], params) end : res CompileError (bytes * list bytes)) =
        Ok (lhs cp c ++ str " IN (" ++ join (str ", ") ((λ n, read_fmt (read_cast cp c) (hole n)) <$> seq (S (length params)) (length l)) ++ [RPAREN], params ++ l)).
    { destruct l as [|[|b s] [|l]]; try done; cbv iota; by rewrite bind_all_spec. }
    rewrite E. eexists. split; [done|].
    assert (Js : frag (join (str ", ") ((λ n, read_fmt (read_cast cp c) (hole n)) <$> seq (S (length params)) (length l)))
                      (list_toks (sp ", ") (hole_toks (read_cast cp c) <$> seq (S (length params)) (length l)))).
    { apply join_frag; [plain|done| |by destruct l]. apply Forall2_fmap_l, Forall2_fmap_r, Forall_Forall2_diag, Forall_true. intros n. by apply read_frag. }
    apply chunk_frag. apply frag_chunk_app; [apply lhs_frag| |done]. apply chunk_app; [plain|]. apply frag_chunk_app; [done|by apply (plain_chunk [RPAREN])|done].
Qed.
Lemma is_compiles cp c params :
  rhs_ok c → cd_quant c = None → cd_op c = OpIs → compiles (is_expr cp c params) params [] (expr_toks cp c (length params)).
Proof.
  intros [_ Vk] Q Op. unfold is_expr, expr_toks, is_word_toks. rewrite Q, Op in *. cbv zeta.
  destruct (cd_value c) as [s|l|l]; cbn in Vk; [|by destruct Vk|by destruct Vk]. destruct Vk as (_ & _ & _ & Is). specialize (Is eq_refl). cbn [lit].
  assert (W : chunk (str " IS " ++ if bool_decide (s = str "not_null") then str "NOT NULL" else to_ascii_uppercase s)
                    (sp " IS " ++ if bool_decide (s = str "not_null") then sp "NOT NULL" else kw (to_ascii_uppercase s)) ∧
              ∀ rest, sep ((str " IS " ++ if bool_decide (s = str "not_null") then str "NOT NULL" else to_ascii_uppercase s) ++ rest)).
  { split; [|done]. unfold IS_VALUES in Is. cbn in Is. repeat (apply elem_of_cons in Is as [-> |Is]; [by apply chunk_app; plain|]). by apply not_elem_of_nil in Is. }
  destruct W as [W St]. eexists. rewrite app_nil_r. split; [done|]. apply chunk_frag.
  pose proof (frag_chunk_app _ _ _ _ (lhs_frag cp c) W St) as G. by case_bool_decide.
Qed.
Lemma plain_compiles cp c params :
  compiler_ok cp → rhs_ok c → cd_quant c = None → (is_Some (plain_symbol (cd_op c))) →
  compiles (plain_expr cp c params) params [wild (pattern_op (cd_op c)) <$> lit (cd_value c)] (expr_toks cp c (length params)).
Proof.
  intros Ok_ [_ Vk] Q [sym Sy]. unfold plain_expr. rewrite Sy.
  assert (Ev : ∃ s, cd_value c = Lit s).
  { destruct (cd_value c) as [s|l|l]; cbn in Vk; [by exists s| |destruct Vk as [Nn _]; congruence]. destruct Vk as [E _]. by rewrite E in Sy. }
  destruct Ev as [s Ev]. rewrite Ev. cbn [lit_value lit]. rewrite bind_run. unfold bind_read, bind_. eexists. split; [done|]. rewrite length_app. cbn [length]. rewrite Nat.add_1_r.
  assert (Et : expr_toks cp c (length params) = lhs_toks cp c ++ sp " " ++ kw sym ++ sp " " ++ hole_toks (read_cast cp c) (S (length params))).
  { unfold expr_toks. rewrite Q. destruct (cd_op c); try done; by injection Sy as <-. }
  rewrite Et. destruct (symbol_chunk _ _ Sy) as [Sc St].
  pose proof (chunk_frag_app _ _ _ _ (frag_chunk_app _ _ _ _ (lhs_frag cp c) Sc St) (read_frag cp c (S (length params)) Ok_)) as G. by rewrite <-!app_assoc in G.
Qed.
Lemma distinct_compiles cp c params :
  compiler_ok cp → rhs_ok c → cd_quant c = None → cd_op c = OpIsDistinct →
  compiles (lit ← lit_value (cd_value c); let '(h, params) := bind_read (read_cast cp c) lit params in Ok (lhs cp c ++ str " IS DISTINCT FROM " ++ h, params))
    params [lit (cd_value c)] (expr_toks cp c (length params)).
Proof.
  intros Ok_ [_ Vk] Q Op. unfold expr_toks. rewrite Q, Op in *. cbv zeta.
  destruct (cd_value c) as [s|l|l]; cbn in Vk; [|by destruct Vk|by destruct Vk]. cbn [lit_value lit]. rewrite bind_run.
  unfold bind_read, bind_. eexists. split; [done|]. rewrite length_app. cbn [length]. rewrite Nat.add_1_r.
  pose proof (chunk_frag_app _ _ _ _ (frag_chunk_app _ _ (str " IS DISTINCT FROM ") (sp " IS DISTINCT FROM ") (lhs_frag cp c) ltac:(plain) ltac:(done)) (read_frag cp c (S (length params)) Ok_)) as G.
  by rewrite <-!app_assoc in G.
Qed.
Lemma fts_func_chunk op : chunk (fts_func op ++ [LPAREN]) (kw (fts_func op) ++ sp "(").
Proof. destruct op; plain. Qed.
Lemma hole_then n t k : chunk t k → (∀ rest, sep (t ++ rest)) → chunk (hole n ++ t) (hole_toks None n ++ k).
Proof. intros Ct St. by apply frag_chunk_app; [apply hole_frag|..]. Qed.
Lemma rparen_chunk : chunk [RPAREN] (sp ")").
Proof. plain. Qed.
(** The vector searched, and the parameter it takes. *)
Definition searched (cp : Compiler) (c : Cond) (params : list bytes) : bytes * list bytes :=
  if fts_searched cp c then
    match cd_config c with
    | Some cfg => let '(h, params) := bind_ cfg params in (str "to_tsvector(" ++ h ++ str "::regconfig, " ++ lhs cp c ++ [RPAREN], params)
    | None => (str "to_tsvector(" ++ lhs cp c ++ [RPAREN], params)
    end
  else (lhs cp c, params).
Definition searched_toks (cp : Compiler) (c : Cond) (n : nat) : list Tok * nat :=
  if fts_searched cp c then
    match cd_config c with
    | Some _ => (sp "to_tsvector(" ++ hole_toks None (S n) ++ sp "::regconfig, " ++ lhs_toks cp c ++ sp ")", S n)
    | None => (sp "to_tsvector(" ++ lhs_toks cp c ++ sp ")", n)
    end
  else (lhs_toks cp c, n).
Lemma searched_spec cp c params :
  ∃ text toks, searched cp c params = (text, params ++ (if fts_searched cp c then (match cd_config c with Some cfg => [cfg] | None => [] end) else [])) ∧
    searched_toks cp c (length params) = (toks, length (params ++ (if fts_searched cp c then (match cd_config c with Some cfg => [cfg] | None => [] end) else []))) ∧ frag text toks.
Proof.
  unfold searched, searched_toks. destruct (fts_searched cp c).
  - destruct (cd_config c) as [cfg|]; cbv iota.
    + do 2 eexists. unfold bind_. split; [done|]. rewrite !length_app. cbn [length]. rewrite Nat.add_1_r. split; [done|].
      apply chunk_frag, chunk_app; [plain|]. apply hole_then; [|done]. apply chunk_app; [plain|]. apply frag_chunk_app; [apply lhs_frag|apply rparen_chunk|done].
    + do 2 eexists. rewrite app_nil_r. split; [done|]. split; [done|]. apply chunk_frag, chunk_app; [plain|]. apply frag_chunk_app; [apply lhs_frag|apply rparen_chunk|done].
  - do 2 eexists. rewrite app_nil_r. split; [done|]. split; [done|]. apply lhs_frag.
Qed.
Lemma fts_compiles cp c params :
  rhs_ok c → cd_quant c = None → is_fts (cd_op c) = true →
  compiles (fts_expr cp c params) params (cond_values cp c) (expr_toks cp c (length params)).
Proof.
  intros [_ Vk] Q Ft.
  assert (Ev : ∃ s, cd_value c = Lit s).
  { destruct (cd_value c) as [s|l|l]; cbn in Vk; [by exists s| |destruct Vk as [Nn _]; congruence]. destruct Vk as [E _]. by rewrite E in Ft. }
  destruct Ev as [s Ev].
  assert (En : embed_test cp c = None) by (unfold embed_test; destruct (cd_op c); done).
  assert (Evs : cond_values cp c = (if fts_searched cp c then (match cd_config c with Some cfg => [cfg] | None => [] end) else []) ++ (match cd_config c with Some cfg => [cfg] | None => [] end) ++ [s]).
  { unfold cond_values. rewrite En, Q, Ev. cbn [lit]. destruct (cd_op c), (cd_config c), (fts_searched cp c); done. }
  assert (Et : expr_toks cp c (length params) = let '(k, n) := searched_toks cp c (length params) in
     k ++ sp " @@ " ++ kw (fts_func (cd_op c)) ++ sp "(" ++
      (match cd_config c with Some _ => hole_toks None (S n) ++ sp "::regconfig, " ++ hole_toks None (S (S n)) | None => hole_toks None (S n) end) ++ sp ")").
  { unfold expr_toks, searched_toks. rewrite Q. destruct (cd_op c); done. }
  destruct (searched_spec cp c params) as (text & toks & Es & Ek & F). rewrite Et, Ek, Evs. unfold fts_expr. fold (fts_searched cp c). fold (searched cp c params).
  rewrite Es, Ev. set (p1 := params ++ _). clear Es Ek Et Evs En. cbn [lit_value].
  assert (G : chunk (text ++ str " @@ " ++ fts_func (cd_op c) ++ [LPAREN]) (toks ++ sp " @@ " ++ kw (fts_func (cd_op c)) ++ sp "(")).
  { apply frag_chunk_app; [done| |done]. apply chunk_app; [plain|apply fts_func_chunk]. }
  destruct (cd_config c) as [cfg|]; unfold bind_; rewrite bind_run.
  - assert (Ep : params ++ (if fts_searched cp c then [cfg] else []) ++ [cfg] ++ [s] = (p1 ++ [cfg]) ++ [s]) by (subst p1; by rewrite <-!app_assoc).
    eexists. rewrite Ep. split; [done|]. rewrite !(length_app p1), !(length_app (p1 ++ [cfg])), !(length_app p1). cbn [length]. rewrite !Nat.add_1_r.
    pose proof (chunk_app _ _ _ _ G (hole_then (S (length p1)) (str "::regconfig, " ++ hole (S (S (length p1))) ++ [RPAREN]) _
      (chunk_app _ _ _ _ ltac:(by apply (plain_chunk (str "::regconfig, "))) (hole_then (S (S (length p1))) _ _ rparen_chunk ltac:(done))) ltac:(done))) as H.
    rewrite <-!app_assoc in H. rewrite <-!app_assoc. by apply chunk_frag.
  - assert (Ep : params ++ (if fts_searched cp c then [] else []) ++ [] ++ [s] = p1 ++ [s]) by (subst p1; by rewrite <-!app_assoc).
    eexists. rewrite Ep. split; [done|]. rewrite !(length_app p1). cbn [length]. rewrite !Nat.add_1_r.
    pose proof (chunk_app _ _ _ _ G (hole_then (S (length p1)) _ _ rparen_chunk ltac:(done))) as H.
    rewrite <-!app_assoc in H. by apply chunk_frag.
Qed.
Lemma expr_compiles cp c params :
  compiler_ok cp → rhs_ok c → embed_test cp c = None →
  compiles (match cd_quant c with
            | Some q => quant_expr cp c q params
            | None =>
                match cd_op c with
                | OpIn => in_expr cp c params
                | OpIs => is_expr cp c params
                | OpIsDistinct =>
                    lit ← lit_value (cd_value c);
                    let '(h, params) := bind_read (read_cast cp c) lit params in
                    Ok (lhs cp c ++ str " IS DISTINCT FROM " ++ h, params)
                | OpFts | OpPlfts | OpPhfts | OpWfts => fts_expr cp c params
                | _ => plain_expr cp c params
                end
            end) params (cond_values cp c) (expr_toks cp c (length params)).
Proof.
  intros Ok_ Rk En. destruct (cd_quant c) as [q|] eqn:Q.
  { pose proof (quant_compiles cp c q params Ok_ Rk Q) as G. unfold cond_values. by rewrite En, Q. }
  assert (Pl : is_Some (plain_symbol (cd_op c)) → compiles (plain_expr cp c params) params [wild (pattern_op (cd_op c)) <$> lit (cd_value c)] (expr_toks cp c (length params)))
    by by apply plain_compiles.
  pose proof (in_compiles cp c params Ok_ Rk Q) as In_. pose proof (is_compiles cp c params Rk Q) as Is_. pose proof (fts_compiles cp c params Rk Q) as Ft.
  pose proof (distinct_compiles cp c params Ok_ Rk Q) as Di.
  destruct (cd_op c) eqn:Op; (try by apply Ft); unfold cond_values; rewrite En, Q, Op; (try by apply Pl; eexists); [by apply In_|by apply Is_|].
  assert (Ew : wild (pattern_op OpIsDistinct) <$> lit (cd_value c) = lit (cd_value c)) by exact (list_fmap_id (lit (cd_value c))).
  rewrite Ew. by apply Di.
Qed.
Lemma embed_test_trusted cp c t : compiler_ok cp → embed_test cp c = Some t → trusted t.
Proof.
  intros Ok_ E. unfold embed_test in E. destruct (_ || _ || _); [done|]. destruct (cd_value c) as [w| |]; [|done..]. destruct (negb _); [done|].
  destruct (find _ _) as [e|] eqn:F; [|done]. cbn in E. injection E as <-. apply find_some in F as [I _]. apply list_elem_of_In in I.
  destruct (embeds_read cp Ok_ e I). by destruct (cd_negated c).
Qed.
Lemma cond_compiles cp c params :
  compiler_ok cp → fd_embed (cd_field c) = [] → rhs_ok c → compiles (cond cp c params) params (cond_values cp c) (cond_toks cp c (length params)).
Proof.
  intros Ok_ Ee Rk. unfold cond, cond_toks. rewrite Ee, bool_decide_true by done. cbn [negb]. destruct (embed_test cp c) as [t|] eqn:Et.
  - exists t. unfold cond_values. rewrite Et, app_nil_r. split; [done|]. by eapply trusted_frag, embed_test_trusted.
  - destruct (expr_compiles cp c params Ok_ Rk Et) as (text & -> & F). rewrite bind_run. eexists. split; [done|].
    destruct (cd_negated c); [|done]. apply chunk_frag, chunk_app; [plain|]. apply frag_chunk_app; [done|apply rparen_chunk|done].
Qed.

(** ** Trees *)
Lemma nodes_go cp kids params :
  (fix go (kids : list Node) (params : list bytes) : res CompileError (list bytes * list bytes) :=
     match kids with
     | [] => Ok ([], params)
     | kid :: kids => '(part, params) ← node cp kid params; '(parts, params) ← go kids params; Ok (part :: parts, params)
     end) kids params = nodes_ cp kids params.
Proof. revert params. induction kids as [|kid kids IH]; intros params; [done|]. cbn. destruct (node cp kid params) as [[]| |]; [|done..]. cbn. by rewrite IH. Qed.
Lemma toks_go cp kids k :
  (fix go (kids : list Node) (k : nat) : list (list Tok) :=
     match kids with [] => [] | kid :: kids => node_toks cp kid k :: go kids (k + length (node_values cp kid))%nat end) kids k = nodes_toks cp kids k.
Proof. revert k. induction kids as [|kid kids IH]; intros k; [done|]. cbn. by rewrite IH. Qed.
Lemma node_induction (P : Node → Prop) :
  (∀ op negated kids, Forall P kids → P (NGroup op negated kids)) → (∀ c, P (NCond c)) → ∀ n, P n.
Proof.
  intros Hg Hc. fix IH 1. intros [op negated kids|c]; [|apply Hc]. apply Hg. induction kids as [|n kids IHk]; constructor; [apply IH|done].
Qed.
Lemma nodes_of_node cp kids :
  Forall (λ n, ∀ params, compiles (node cp n params) params (node_values cp n) (node_toks cp n (length params))) kids →
  ∀ params, ∃ parts, nodes_ cp kids params = Ok (parts, params ++ nodes_values cp kids) ∧ Forall2 frag parts (nodes_toks cp kids (length params)).
Proof.
  induction 1 as [|n kids Hn F IH]; intros params; [exists []; unfold nodes_values; cbn; by rewrite app_nil_r|]. cbn [nodes_ nodes_toks].
  destruct (Hn params) as (text & -> & Ft). rewrite bind_run. destruct (IH (params ++ node_values cp n)) as (parts & -> & Fp). rewrite bind_run.
  exists (text :: parts). unfold nodes_values. cbn [map concat]. rewrite <-app_assoc. split; [done|]. constructor; [done|]. by rewrite <-length_app.
Qed.
Lemma nodes_ok_forall kids : nodes_ok kids ↔ Forall node_ok kids.
Proof. unfold nodes_ok. induction kids as [|n kids IH]; cbn; [split; constructor|]. rewrite IH. by rewrite Forall_cons. Qed.
Lemma nodes_toks_join cp kids k parts t ks :
  kids ≠ [] → Forall2 frag parts (nodes_toks cp kids k) → chunk t ks → (∀ rest, sep (t ++ rest)) → frag (join t parts) (list_toks ks (nodes_toks cp kids k)).
Proof. intros Nn F Ct St. apply join_frag; try done. intros ->. inversion F as [E|]. by destruct kids. Qed.
Lemma node_compiles cp n : compiler_ok cp → node_ok n → ∀ params, compiles (node cp n params) params (node_values cp n) (node_toks cp n (length params)).
Proof.
  intros Ok_. induction n as [op negated kids IH|c] using node_induction; intros Nk params.
  2:{ destruct Nk as (Ee & _ & Rk). by apply cond_compiles. }
  destruct Nk as [Nn Nk]. fold (nodes_ok kids) in Nk. apply nodes_ok_forall in Nk.
  assert (Fk : Forall (λ n, ∀ params, compiles (node cp n params) params (node_values cp n) (node_toks cp n (length params))) kids).
  { rewrite Forall_forall in *. intros x Hx. by apply IH, Nk. }
  destruct (nodes_of_node cp kids Fk params) as (parts & Ep & Fp). cbn [node node_toks node_values]. rewrite nodes_go, toks_go, Ep.
  destruct kids as [|k0 kids0] eqn:Ek; [done|]. rewrite <-Ek in *. rewrite bind_run. eexists. split; [done|].
  assert (J : frag (join (match op with LAnd => str " AND " | LOr => str " OR " end) parts)
                   (list_toks (match op with LAnd => sp " AND " | LOr => sp " OR " end) (nodes_toks cp kids (length params)))).
  { apply nodes_toks_join; [done|done| |]; destruct op; (plain || done). }
  apply chunk_frag. destruct negated; (apply chunk_app; [plain|]); (apply frag_chunk_app; [done|apply rparen_chunk|done]).
Qed.
Lemma where_clause_compiles nodes qualifier params rel embeds :
  let cp := mkCompiler qualifier rel embeds in
  compiler_ok cp → nodes ≠ [] → nodes_ok nodes →
  ∃ sql, where_clause_over nodes qualifier params rel embeds = Ok sql ∧
    sq_params sql = params ++ nodes_values cp nodes ∧
    read_sql (sq_text sql) = Some (list_toks (sp " AND ") (nodes_toks cp nodes (length params))).
Proof.
  intros cp Ok_ Nn Nk. apply nodes_ok_forall in Nk.
  assert (Fk : Forall (λ n, ∀ params, compiles (node cp n params) params (node_values cp n) (node_toks cp n (length params))) nodes).
  { eapply Forall_impl; [exact Nk|]. intros n Hn. by apply node_compiles. }
  destruct (nodes_of_node cp nodes Fk params) as (parts & Ep & Fp).
  pose proof (nodes_toks_join cp nodes (length params) parts (str " AND ") (sp " AND ") Nn Fp ltac:(plain) ltac:(done)) as J.
  unfold where_clause_over. fold cp. rewrite Ep. destruct nodes as [|n0 nodes0]; [done|]. rewrite bind_run. eexists. split; [done|]. split; [done|].
  cbn [sq_text]. specialize (J [] I). rewrite app_nil_r in J. unfold read_sql. rewrite J. cbn. by rewrite app_nil_r.
Qed.
(** C30: the SQL a filter compiles to reads exactly as specified.  For every
    tree the parser makes, with column casts and embed predicates that read
    by themselves, compiling succeeds, the values are appended to the
    parameters in order, and the text, read with the quoting rules of
    postgres, is the token sequence of the specification: every name a
    client sent is one identifier or one string token holding that very
    name, every value is a numbered placeholder, and the rest is fixed by the
    shape of the tree.  No comment begins and no quote is left open. *)
Theorem where_clause_reads nodes qualifier params rel embeds :
  let cp := mkCompiler qualifier rel embeds in
  compiler_ok cp → nodes ≠ [] → nodes_ok nodes →
  ∃ sql, where_clause_over nodes qualifier params rel embeds = Ok sql ∧
    sq_params sql = params ++ nodes_values cp nodes ∧
    read_sql (sq_text sql) = Some (list_toks (sp " AND ") (nodes_toks cp nodes (length params))).
Proof. apply where_clause_compiles. Qed.
