(* ===== verification/RestSqlSafety.v ===== *)
(** * RestSqlSafety: what the reading of the text gives

    Placeholders are dense and in order, the structure of a statement is
    decided by the shape of the tree alone, and whatever the filter parser
    accepts the compiler takes. *)
From S2P Require Import Prelude Order Text Utf8 RestScan RestScanProofs RestFilter RestFilterProofs RestSql RestSqlProofs.

(** ** Placeholders *)
Definition holes (toks : list Tok) : list Z := omap (λ t, match t with THole n => Some n | _ => None end) toks.
Lemma holes_app a b : holes (a ++ b) = holes a ++ holes b.
Proof. apply omap_app. Qed.
Lemma holes_kw t : holes (kw t) = [].
Proof. unfold holes, kw. induction t; [done|]. by cbn. Qed.
Lemma holes_sp t : holes (sp t) = [].
Proof. apply holes_kw. Qed.
Lemma holes_steps path : holes (concat (step_toks <$> path)) = [].
Proof.
  induction path as [|s path IH]; [done|]. cbn [fmap list_fmap concat]. rewrite holes_app, IH, app_nil_r. unfold step_toks. rewrite holes_app.
  destruct (js_text s), (js_key s); rewrite !holes_sp, ?holes_kw; done.
Qed.
Lemma holes_lhs cp c : holes (lhs_toks cp c) = [].
Proof.
  unfold lhs_toks, field_toks. cbv zeta. rewrite !holes_app, holes_steps, app_nil_r.
  assert (I : ∀ (b : bool) t, holes (if b then sp t else []) = []) by (intros [] t; [apply holes_sp|done]). rewrite !I, app_nil_r, app_nil_l.
  by destruct (cp_qualifier cp).
Qed.
(** Neither the casts nor the predicates of the embeds hold placeholders. *)
Definition no_holes (t : bytes) : Prop := holes (default [] (read_sql t)) = [].
Record closed_compiler (cp : Compiler) : Prop := {
  casts_closed : ∀ r c f, cp_rel cp = Some r → c ∈ rl_columns r → co_from_text c = Some f → no_holes f;
  embeds_closed : ∀ e, e ∈ cp_embeds cp → no_holes (et_present e) ∧ no_holes (et_absent e)
}.
Lemma read_cast_inv cp c f : read_cast cp c = Some f → ∃ r col, cp_rel cp = Some r ∧ col ∈ rl_columns r ∧ co_from_text col = Some f.
Proof.
  intros E. unfold read_cast in E. destruct (_ || _ || _); [done|]. destruct (cp_rel cp) as [r|] eqn:R; [|done]. cbn in E.
  destruct (column r _) as [col|] eqn:Co; [|done]. exists r, col. split_and!; [done|by eapply column_elem|done].
Qed.
Lemma holes_hole cp c n : closed_compiler cp → holes (hole_toks (read_cast cp c) n) = [Z.of_nat n].
Proof.
  intros Cl. unfold hole_toks. destruct (read_cast cp c) as [f|] eqn:R; [|done]. cbn [from_option]. rewrite !holes_app, !holes_sp.
  apply read_cast_inv in R as (r & col & Er & Ic & Ef). pose proof (casts_closed cp Cl r col f Er Ic Ef) as N. unfold no_holes in N. by rewrite N.
Qed.
Definition numbers (n k : nat) : list Z := Z.of_nat <$> seq n k.
Lemma numbers_app n a b : numbers n (a + b) = numbers n a ++ numbers (n + a) b.
Proof. unfold numbers. by rewrite seq_app, fmap_app. Qed.
Lemma holes_list cp c sep_ ns : closed_compiler cp → holes sep_ = [] → holes (list_toks sep_ (hole_toks (read_cast cp c) <$> ns)) = Z.of_nat <$> ns.
Proof.
  intros Cl Hs. induction ns as [|n [|m ns] IH]; [done|by apply holes_hole|]. cbn [fmap list_fmap list_toks] in *.
  rewrite !holes_app, IH, Hs, holes_hole by done. done.
Qed.
Lemma holes_expr cp c n : closed_compiler cp → embed_test cp c = None → holes (expr_toks cp c n) = numbers (S n) (length (cond_values cp c)).
Proof.
  intros Cl En. unfold expr_toks, cond_values, numbers. rewrite En. cbv zeta.
  destruct (cd_quant c) as [q|]; [|destruct (cd_op c)].
  1: { destruct q; rewrite !holes_app, holes_lhs, !holes_sp, holes_kw, holes_hole by done; done. }
  all: try (rewrite !holes_app, holes_lhs, !holes_sp, ?holes_kw, holes_hole by done; done).
  1: { destruct (decide _); [by rewrite !holes_app, holes_lhs, !holes_sp|]. rewrite !holes_app, holes_lhs, !holes_sp, holes_list by (done || apply holes_sp).
       by rewrite app_nil_r. }
  1: { rewrite !holes_app, holes_lhs, !holes_sp. unfold is_word_toks. case_bool_decide; [by rewrite holes_sp|by rewrite holes_kw]. }
  all: destruct (fts_searched cp c), (cd_config c); cbv iota beta; by rewrite !holes_app, ?holes_lhs, ?holes_sp, ?holes_kw.
Qed.
Lemma holes_cond cp c n : closed_compiler cp → holes (cond_toks cp c n) = numbers (S n) (length (cond_values cp c)).
Proof.
  intros Cl. unfold cond_toks. destruct (embed_test cp c) as [t|] eqn:Et.
  - assert (no_holes t) as N.
    { unfold embed_test in Et. destruct (_ || _ || _); [done|]. destruct (cd_value c) as [w| |]; [|done..]. destruct (negb _); [done|].
      destruct (find _ _) as [e|] eqn:F; [|done]. injection Et as <-. apply find_some in F as [I _]. apply list_elem_of_In in I.
      destruct (embeds_closed cp Cl e I). by destruct (cd_negated c). }
    unfold cond_values. rewrite Et. exact N.
  - destruct (cd_negated c); rewrite ?holes_app, ?holes_sp, ?app_nil_r, holes_expr by done; done.
Qed.
Lemma holes_nodes cp kids k sep_ :
  holes sep_ = [] → Forall (λ n, ∀ k, holes (node_toks cp n k) = numbers (S k) (length (node_values cp n))) kids →
  holes (list_toks sep_ (nodes_toks cp kids k)) = numbers (S k) (length (nodes_values cp kids)).
Proof.
  intros Hs F. revert k. induction F as [|n kids Hn F IH]; intros k; [done|]. unfold nodes_values in *. cbn [map concat nodes_toks]. rewrite length_app, numbers_app.
  destruct kids as [|n2 kids]; [cbn; by rewrite Hn, app_nil_r|]. specialize (IH (k + length (node_values cp n))%nat). cbn [nodes_toks list_toks] in *.
  by rewrite !holes_app, Hn, Hs, IH.
Qed.
Lemma holes_node cp n : closed_compiler cp → ∀ k, holes (node_toks cp n k) = numbers (S k) (length (node_values cp n)).
Proof.
  intros Cl. induction n as [op negated kids IH|c] using node_induction; intros k; [|by apply holes_cond].
  cbn [node_toks node_values]. rewrite toks_go. fold (nodes_values cp kids). rewrite !holes_app, !holes_sp, holes_nodes; [by rewrite app_nil_r| |done].
  destruct op; apply holes_sp.
Qed.
(** The placeholders of a compiled fragment are dense.  Read from left to
    right they are numbered from one past the parameters that were there
    already, without gaps or repeats, one for each value the fragment bound,
    so that the fragments of one statement can share a parameter list. *)
Theorem where_clause_dense nodes qualifier params rel embeds :
  let cp := mkCompiler qualifier rel embeds in
  compiler_ok cp → closed_compiler cp → nodes ≠ [] → nodes_ok nodes →
  ∃ sql toks, where_clause_over nodes qualifier params rel embeds = Ok sql ∧ read_sql (sq_text sql) = Some toks ∧
    params `prefix_of` sq_params sql ∧
    holes toks = numbers (S (length params)) (length (sq_params sql) - length params).
Proof.
  intros cp Ok_ Cl Nn Nk. destruct (where_clause_compiles nodes qualifier params rel embeds Ok_ Nn Nk) as (sql & E & Ep & Er).
  exists sql. eexists. split_and!; [done|exact Er|rewrite Ep; by apply prefix_app_r|]. fold cp in Ep |- *.
  rewrite Ep, length_app. replace (length params + length (nodes_values cp nodes) - length params)%nat with (length (nodes_values cp nodes)) by lia.
  apply holes_nodes; [apply holes_sp|]. apply Forall_true. intros n. by apply holes_node.
Qed.

(** ** Structure *)
(** A token with the client's name taken out. *)
Definition erase (t : Tok) : Tok := match t with TIdent _ => TIdent [] | TStr _ => TStr [] | t => t end.
Definition step_shape (s : JsonStep) : bool * option Z := (js_text s, match js_key s with JName _ => None | JIndex i => Some i end).
(** Two conditions that ask for the same and whose columns are looked up to
    the same. *)
Record cond_alike (cp : Compiler) (c d : Cond) : Prop := {
  alike_op : cd_op c = cd_op d;
  alike_negated : cd_negated c = cd_negated d;
  alike_quant : cd_quant c = cd_quant d;
  alike_config : is_Some (cd_config c) ↔ is_Some (cd_config d);
  alike_path : step_shape <$> fd_path (cd_field c) = step_shape <$> fd_path (cd_field d);
  alike_elems : length (elems (cd_value c)) = length (elems (cd_value d));
  alike_empty : elems (cd_value c) = [[]] ↔ elems (cd_value d) = [[]];
  alike_is : cd_op c = OpIs → cd_value c = cd_value d;
  alike_json : from_option (λ r, steps_as_json r (fd_column (cd_field c))) true (cp_rel cp) = from_option (λ r, steps_as_json r (fd_column (cd_field d))) true (cp_rel cp);
  alike_read : read_cast cp c = read_cast cp d;
  alike_searched : fts_searched cp c = fts_searched cp d;
  alike_test : embed_test cp c = embed_test cp d
}.
Inductive node_alike (cp : Compiler) : Node → Node → Prop :=
  | alike_cond c d : cond_alike cp c d → node_alike cp (NCond c) (NCond d)
  | alike_group op negated kids kids' : Forall2 (node_alike cp) kids kids' → node_alike cp (NGroup op negated kids) (NGroup op negated kids').
Lemma erase_lhs cp c d : cond_alike cp c d → erase <$> lhs_toks cp c = erase <$> lhs_toks cp d.
Proof.
  intros A. unfold lhs_toks, field_toks. cbv zeta. rewrite (alike_json _ _ _ A). pose proof (alike_path _ _ _ A) as P.
  assert (Ep : bool_decide (fd_path (cd_field c) = []) = bool_decide (fd_path (cd_field d) = [])).
  { destruct (fd_path (cd_field c)), (fd_path (cd_field d)); done. }
  rewrite Ep, !fmap_app. do 4 f_equal. clear A Ep. revert P. generalize (fd_path (cd_field d)).
  induction (fd_path (cd_field c)) as [|s l IH]; intros [|t m]; try done. intros [= E1 E2 E3]. cbn [fmap list_fmap concat]. rewrite !fmap_app, (IH m E3). f_equal.
  unfold step_toks. rewrite !fmap_app, E1. f_equal. destruct (js_key s), (js_key t); try done. by injection E2 as ->.
Qed.
Lemma erase_expr cp c d n : cond_alike cp c d → erase <$> expr_toks cp c n = erase <$> expr_toks cp d n.
Proof.
  intros A. pose proof (erase_lhs cp c d A) as El. unfold expr_toks. cbv zeta.
  rewrite (alike_quant _ _ _ A), (alike_op _ _ _ A), (alike_read _ _ _ A), (alike_searched _ _ _ A), (alike_elems _ _ _ A).
  destruct (cd_quant d) as [q|]; [by rewrite !fmap_app, El|].
  pose proof (alike_config _ _ _ A) as Cf. pose proof (alike_is _ _ _ A) as Is. rewrite (alike_op _ _ _ A) in Is.
  destruct (cd_op d) eqn:Op; try (by rewrite !fmap_app, El).
  1: { pose proof (alike_empty _ _ _ A) as Em. destruct (decide (elems (cd_value c) = _)), (decide (elems (cd_value d) = _)); try tauto; by rewrite !fmap_app, El. }
  1: { by rewrite Is, !fmap_app, El. }
  all: destruct (cd_config c) as [x|], (cd_config d) as [y|]; [|exfalso; by apply (is_Some_None (A := bytes)), Cf; eexists|exfalso; by apply (is_Some_None (A := bytes)), Cf; eexists|];
    destruct (fts_searched cp d); by rewrite !fmap_app, ?El.
Qed.
Lemma cond_values_alike cp c d : cond_alike cp c d → length (cond_values cp c) = length (cond_values cp d).
Proof.
  intros A. unfold cond_values. rewrite (alike_test _ _ _ A), (alike_quant _ _ _ A), (alike_op _ _ _ A), (alike_searched _ _ _ A).
  destruct (embed_test cp d); [done|]. destruct (cd_quant d); [done|]. pose proof (alike_config _ _ _ A) as Cf.
  destruct (cd_op d); try done.
  1: { pose proof (alike_empty _ _ _ A) as Em. destruct (decide (elems (cd_value c) = _)), (decide (elems (cd_value d) = _)); first [tauto|done|apply (alike_elems _ _ _ A)]. }
  all: destruct (cd_config c) as [x|], (cd_config d) as [y|]; [|exfalso; by apply (is_Some_None (A := bytes)), Cf; eexists|exfalso; by apply (is_Some_None (A := bytes)), Cf; eexists|];
    by destruct (fts_searched cp d).
Qed.
Lemma erase_cond cp c d n : cond_alike cp c d → erase <$> cond_toks cp c n = erase <$> cond_toks cp d n.
Proof.
  intros A. unfold cond_toks. rewrite (alike_test _ _ _ A), (alike_negated _ _ _ A). destruct (embed_test cp d); [done|].
  pose proof (erase_expr cp c d n A). destruct (cd_negated d); [|done]. rewrite !fmap_app. by f_equal; [..|f_equal].
Qed.
Definition alike_reads (cp : Compiler) (m n : Node) : Prop :=
  length (node_values cp m) = length (node_values cp n) ∧ ∀ k, erase <$> node_toks cp m k = erase <$> node_toks cp n k.
Lemma erase_list sep_ ps qs : Forall2 (λ p q, erase <$> p = erase <$> q) ps qs → erase <$> list_toks sep_ ps = erase <$> list_toks sep_ qs.
Proof.
  induction 1 as [|p q ps qs E F IH]; [done|]. destruct F as [|p2 q2 ps qs E2 F]; [done|]. cbn [list_toks] in *. rewrite !fmap_app, E, IH. done.
Qed.
Lemma erase_nodes cp ms ns : Forall2 (alike_reads cp) ms ns →
  length (nodes_values cp ms) = length (nodes_values cp ns) ∧ ∀ k, Forall2 (λ p q, erase <$> p = erase <$> q) (nodes_toks cp ms k) (nodes_toks cp ns k).
Proof.
  induction 1 as [|m n ms ns [El Et] F [IHl IHt]]; [by split|]. unfold nodes_values in *. cbn [map concat nodes_toks]. rewrite !length_app, El, IHl. split; [done|].
  intros k. constructor; [apply Et|apply IHt].
Qed.
Lemma node_alike_reads cp m n : node_alike cp m n → alike_reads cp m n.
Proof.
  revert n. induction m as [op negated kids IH|c] using node_induction; intros n A; inversion A as [? d Ac|? ? ? kids' F]; subst.
  - destruct (erase_nodes cp kids kids') as [El Et].
    { clear A. induction F as [|a b l l' Hab F IHF]; [constructor|]. apply Forall_cons in IH as [Ha IH]. constructor; [by apply Ha|by apply IHF]. }
    split; [exact El|]. intros k. cbn [node_toks]. rewrite !toks_go, !fmap_app. f_equal. f_equal. by apply erase_list.
  - split; [by apply cond_values_alike|]. intros k. by apply erase_cond.
Qed.
(** C29: what a client sends does not change what a statement does.  Two
    filters of the same shape, with columns the catalog answers alike, compile
    to texts that read to the same tokens, one by one, except for the names
    inside identifier and string tokens: no name, literal, list element,
    pattern or search configuration can add, remove or alter anything else,
    and both bind the same number of parameters. *)
Theorem where_clause_structure nodes nodes' qualifier params rel embeds :
  let cp := mkCompiler qualifier rel embeds in
  compiler_ok cp → nodes ≠ [] → nodes_ok nodes → nodes_ok nodes' → Forall2 (node_alike cp) nodes nodes' →
  ∃ sql sql' toks toks',
    where_clause_over nodes qualifier params rel embeds = Ok sql ∧ where_clause_over nodes' qualifier params rel embeds = Ok sql' ∧
    read_sql (sq_text sql) = Some toks ∧ read_sql (sq_text sql') = Some toks' ∧
    erase <$> toks = erase <$> toks' ∧ length (sq_params sql) = length (sq_params sql').
Proof.
  intros cp Ok_ Nn Nk Nk' A. assert (Nn' : nodes' ≠ []) by (by destruct A).
  destruct (where_clause_compiles nodes qualifier params rel embeds Ok_ Nn Nk) as (sql & E & Ep & Er).
  destruct (where_clause_compiles nodes' qualifier params rel embeds Ok_ Nn' Nk') as (sql' & E' & Ep' & Er').
  destruct (erase_nodes cp nodes nodes') as [El Et].
  { eapply Forall2_impl; [exact A|]. intros m n. apply node_alike_reads. }
  exists sql, sql'. do 2 eexists. split_and!; [done|done|exact Er|exact Er'|by apply erase_list|]. rewrite Ep, Ep', !length_app. fold cp. by rewrite El.
Qed.

(** ** Parsed filters *)
Definition filter_node (p : Parsed) : Node := match p with PFilter c => NCond c | PLogic _ op negated kids => NGroup op negated kids end.
Definition filter_embed (p : Parsed) : list bytes := match p with PFilter c => fd_embed (cd_field c) | PLogic _ _ _ _ => [] end.
Lemma parsed_node_ok p : parsed_ok p → filter_embed p = [] → node_ok (filter_node p).
Proof. destruct p as [c|embed op negated kids]; cbn; [by intros [Fk Rk] Ee|by intros (_ & Nn & Nk) _]. Qed.
Lemma bare_compiler_ok : compiler_ok (mkCompiler None None []).
Proof. split; [done|]. intros e []%not_elem_of_nil. Qed.
(** C33: the compiler takes whatever the filter parser accepts.  The places
    where it relies on the grammar, an array behind a quantifier, a list
    behind [in], a keyword behind [is], a plain operator, are never missed:
    a parsed pair compiles, except for a filter that reaches into an embed,
    which is refused as an error. *)
Theorem parsed_filters_compile key value :
  utf8 key → utf8 value →
  match parse_pair key value with
  | Ok p =>
      match where_clause [filter_node p] with
      | Ok sql => filter_embed p = [] ∧ is_Some (read_sql (sq_text sql))
      | Err e => filter_embed p ≠ []
      | Panic => False
      end
  | Err _ => True
  | Panic => False
  end.
Proof.
  intros Uk Uv. pose proof (parse_pair_spec key value Uk Uv) as Sp. destruct (parse_pair key value) as [p| |]; [|done|done].
  destruct (decide (filter_embed p = [])) as [Ee|Ne].
  - pose proof (where_clause_compiles [filter_node p] None [] None [] bare_compiler_ok ltac:(done)) as W.
    destruct W as (sql & E & _ & Er); [split; [by apply parsed_node_ok|done]|]. unfold where_clause, where_clause_from. rewrite E. split; [done|]. by rewrite Er.
  - destruct p as [c|embed op negated kids]; [|done]. cbn [filter_node filter_embed] in *. unfold where_clause, where_clause_from, where_clause_over. cbn [nodes_ node].
    unfold cond. by rewrite bool_decide_false.
Qed.

(** ** On a concrete request *)
Module SqlWitness.
Definition cast : bytes := quote_ident (str "app") ++ [DOT] ++ quote_ident (str "color_in").
Definition rel : Relation := mkRelation (str "cars") [mkColumn (str "color") (str "color") (str "text") None (Some cast) None None] [].
Definition parsed (key value : bytes) : list Node := match parse_pair key value with Ok p => [filter_node p] | _ => [] end.
(** A column whose name tries to end the identifier, and one that does not. *)
Definition hostile_key : bytes := QUOTE :: str "a" ++ [BACKSLASH; QUOTE] ++ str " or 1=1 --" ++ [QUOTE].
Definition hostile : list Node :=
  parsed (str "color") (str "not.in.(red,'; drop table cars; --)") ++ parsed hostile_key (str "eq.1") ++
  parsed (str "or") (str "(x->>it's->0.like.*a*,d.fts(en).cat,n.is.null)").
Definition tame : list Node :=
  parsed (str "color") (str "not.in.(tin,gold)") ++ parsed (str "b") (str "eq.2") ++
  parsed (str "or") (str "(y->>plain->0.like.b,e.fts(fr).dog,m.is.null)").
Definition cp : Compiler := mkCompiler (Some (str "cars")) (Some rel) [].
Lemma cp_ok : compiler_ok cp.
Proof.
  split; [|intros e []%not_elem_of_nil]. intros r c f [= <-] Ic Ef. apply list_elem_of_singleton in Ic as ->. injection Ef as <-. apply qualified_trusted.
Qed.
Lemma cp_closed : closed_compiler cp.
Proof.
  split; [|intros e []%not_elem_of_nil]. intros r c f [= <-] Ic Ef. apply list_elem_of_singleton in Ic as ->. injection Ef as <-. by vm_compute.
Qed.
Lemma parsed_ok_list key value : utf8 key → utf8 value →
  match parse_pair key value with Ok p => bool_decide (filter_embed p = []) | _ => true end = true → nodes_ok (parsed key value).
Proof.
  intros Uk Uv B. unfold parsed. pose proof (parse_pair_spec key value Uk Uv) as Sp. destruct (parse_pair key value) as [p| |]; [|done..].
  apply bool_decide_eq_true in B. by split; [apply parsed_node_ok|].
Qed.
Lemma hostile_ok : nodes_ok hostile.
Proof. unfold hostile. rewrite !nodes_ok_app. split_and!; apply parsed_ok_list; by vm_compute. Qed.
Lemma tame_ok : nodes_ok tame.
Proof. unfold tame. rewrite !nodes_ok_app. split_and!; apply parsed_ok_list; by vm_compute. Qed.
Lemma hostile_tame : Forall2 (node_alike cp) hostile tame.
Proof.
  assert (E : hostile = ltac:(let x := eval vm_compute in hostile in exact x)) by by vm_compute.
  assert (E' : tame = ltac:(let x := eval vm_compute in tame in exact x)) by by vm_compute.
  rewrite E, E'. clear E E'. repeat constructor; cbn; try done; try by (split; intros [? [=]]).
Qed.
Lemma where_clause_reads_witness :
  compiler_ok cp ∧
  ∃ sql, where_clause_over hostile (Some (str "cars")) [str "p"] (Some rel) [] = Ok sql ∧
    sq_params sql = [str "p"] ++ nodes_values cp hostile ∧
    read_sql (sq_text sql) = Some (list_toks (sp " AND ") (nodes_toks cp hostile 1)).
Proof.
  split; [exact cp_ok|].
  exact (where_clause_reads hostile (Some (str "cars")) [str "p"] (Some rel) [] cp_ok ltac:(by vm_compute) hostile_ok).
Defined.
Lemma where_clause_dense_witness :
  nodes_ok hostile ∧
  ∃ sql toks, where_clause_over hostile (Some (str "cars")) [str "p"] (Some rel) [] = Ok sql ∧ read_sql (sq_text sql) = Some toks ∧
    [str "p"] `prefix_of` sq_params sql ∧ holes toks = numbers 2 (length (sq_params sql) - 1).
Proof.
  split; [exact hostile_ok|].
  exact (where_clause_dense hostile (Some (str "cars")) [str "p"] (Some rel) [] cp_ok cp_closed ltac:(by vm_compute) hostile_ok).
Defined.
Lemma where_clause_structure_witness :
  Forall2 (node_alike cp) hostile tame ∧
  ∃ sql sql' toks toks',
    where_clause_over hostile (Some (str "cars")) [] (Some rel) [] = Ok sql ∧ where_clause_over tame (Some (str "cars")) [] (Some rel) [] = Ok sql' ∧
    read_sql (sq_text sql) = Some toks ∧ read_sql (sq_text sql') = Some toks' ∧
    erase <$> toks = erase <$> toks' ∧ length (sq_params sql) = length (sq_params sql').
Proof.
  split; [exact hostile_tame|].
  exact (where_clause_structure hostile tame (Some (str "cars")) [] (Some rel) [] cp_ok ltac:(by vm_compute) hostile_ok tame_ok hostile_tame).
Defined.
Lemma parsed_filters_compile_witness :
  let value := str "not.eq(any).{1,2}" in
  match parse_pair hostile_key value with
  | Ok p =>
      match where_clause [filter_node p] with
      | Ok sql => filter_embed p = [] ∧ is_Some (read_sql (sq_text sql))
      | Err e => filter_embed p ≠ []
      | Panic => False
      end
  | Err _ => True
  | Panic => False
  end.
Proof. apply parsed_filters_compile; by vm_compute. Defined.
(** The text of the hostile request, as it is sent. *)
Example hostile_text :
  (λ sql, (sq_text sql, sq_params sql)) <$> (match where_clause_over hostile None [] (Some rel) [] with Ok sql => Some sql | _ => None end) =
  Some (str "NOT (" ++ quote_ident (str "color") ++ str " IN (" ++ cast ++ str "($1), " ++ cast ++ str "($2))) AND " ++
        (QUOTE :: str "a" ++ [QUOTE; QUOTE] ++ str " or 1=1 --" ++ [QUOTE]) ++ str " = $3 AND (to_jsonb(" ++
        quote_ident (str "x") ++ str ")->>'it''s'->0 LIKE $4 OR " ++ quote_ident (str "d") ++ str " @@ to_tsquery($5::regconfig, $6) OR " ++
        quote_ident (str "n") ++ str " IS NULL)",
        [str "red"; str "'; drop table cars; --"; str "1"; str "%a%"; str "en"; str "cat"]).
Proof. by vm_compute. Qed.
End SqlWitness.
