(* ===== verification/RestCsv.v ===== *)
(** * RestCsv: csv bodies and ranges (crates/zou-rest/src/csv.rs and page.rs)

    Limits, offsets and ranges of page.rs.

    The reader of csv request bodies, with [String::from_utf8_lossy] in front
    of it, and the writer whose output it is proved to read back. *)
From S2P Require Import Prelude Order Text Utf8 RestScan RestScanProofs.

Record Range := mkRange { rg_first : Z; rg_last : option Z }.
(** [Range::offset] and [Range::limit]; the subtraction overflows when the
    range ends before it starts. *)
Definition offset (r : Range) : Z := rg_first r.
Definition limit (r : Range) : res Error (option Z) :=
  match rg_last r with
  | None => Ok None
  | Some l => if l <? rg_first r then Panic else Ok (Some ((l - rg_first r + 1) `min` u64_max))
  end.
Definition signed (value : bytes) : res Error Z :=
  let cur := cur_new value in
  let sign := bool_decide (head value = Some DASH) in
  let at_ := if sign then 1%nat else 0%nat in
  tail_ ← str_slice value at_ (length value);
  let taken := digits_len tail_ in
  if (taken =? 0)%nat then err_at cur at_ (if sign then [DIGIT] else [word [DASH]; DIGIT])
  else if (at_ + taken <? length value)%nat then err_at cur (at_ + taken) [DIGIT; END]
  else
    match parse_i64 value with
    | Some n => Ok n
    | None => f ← found cur 0; Err (mkError f [str "an integer that fits in 64 bits"] 0)
    end.
Definition parse_limit (value : bytes) : res Error Z := signed value.
Definition parse_offset (value : bytes) : res Error Z := signed value.
Definition number (s : bytes) : option Z :=
  if bool_decide (s = []) || negb (forallb is_digit s) then None else from_str_radix 10 u64_max s.
(** A str cut at a dash, which is a character boundary. *)
Definition parse_range (header : bytes) : option Range :=
  '(before, after) ← split_once DASH header;
  first ← number before;
  last_ ← (match after with [] => Some None | _ => Some <$> number after end);
  if from_option (λ l, l <? first) false last_ then None else Some (mkRange first last_).

(** ** Parameters *)
Lemma signed_sign value : head value = Some DASH → ∃ r, value = DASH :: r.
Proof. destruct value as [|b r]; [done|]. intros [= ->]. by exists r. Qed.
(** No value makes the parser of a parameter panic, and what it accepts fits
    in 64 bits. *)
Theorem signed_total value : utf8 value → match signed value with Ok n => i64 n | Err _ => True | Panic => False end.
Proof.
  intros U. unfold signed. cbv zeta. set (at_ := if bool_decide _ then 1%nat else 0%nat).
  assert (Cut : ∃ a b, value = a ++ b ∧ length a = at_ ∧ utf8 b).
  { subst at_. case_bool_decide as H; [|by exists [], value]. apply signed_sign in H as [r ->]. exists [DASH], r. by apply (utf8_ascii_cons DASH r) in U. }
  destruct Cut as (a & b & Ev & La & Ub). rewrite Ev, <-La, str_slice_tail, bind_run by by apply utf8_starts.
  destruct (digits_len_spec b) as (ds & l & Eb & Ed & Fd & _). rewrite Ed.
  assert (Ul : utf8 l). { subst b. apply utf8_drop_ascii in Ub; [done|]. eapply Forall_impl; [exact Fd|apply digit_ascii]. }
  destruct (length ds =? 0)%nat.
  { pose proof (err_at_cut (A := Z) (cur_new (a ++ b)) a b) as F. set (wants := if bool_decide _ then _ else _). specialize (F wants eq_refl ltac:(by apply utf8_starts)).
    by destruct (err_at _ _ _). }
  destruct (_ <? _)%nat.
  { pose proof (err_at_cut (A := Z) (cur_new (a ++ b)) (a ++ ds) l [DIGIT; END]) as F. rewrite length_app in F. specialize (F ltac:(subst b; by rewrite <-app_assoc) ltac:(by apply utf8_starts)).
    by destruct (err_at _ _ _). }
  destruct (parse_i64 (a ++ b)) as [n|] eqn:Pn; [by eapply parse_i64_range|]. rewrite <-Ev. rewrite cur_new_C.
  pose proof (found_C [] [] value ltac:(by apply utf8_starts)) as [f Ef]. cbn in Ef. by rewrite Ef.
Qed.
Lemma fmt_i64_parts n : i64 n → ∃ ds, fmt_i64 n = (if n <? 0 then [DASH] else []) ++ ds ∧ Forall (λ b, is_digit b = true) ds ∧ ds ≠ [].
Proof.
  intros _. unfold fmt_i64. destruct (n <? 0) eqn:S; zbool.
  - exists (fmt_dec 0 (- n)). split_and!; [done|apply fmt_dec_digits|]. destruct (fmt_dec_nonempty (- n)) as (b & s & -> & _); [lia|done].
  - exists (fmt_dec 0 n). split_and!; [done|apply fmt_dec_digits|]. destruct (fmt_dec_nonempty n) as (b & s & -> & _); [lia|done].
Qed.
(** A number of 64 bits, as it is printed, is read as itself. *)
Theorem signed_fmt n : i64 n → signed (fmt_i64 n) = Ok n.
Proof.
  intros N. destruct (fmt_i64_parts n N) as (ds & E & Fd & Nn). unfold signed. cbv zeta.
  assert (Hs : bool_decide (head (fmt_i64 n) = Some DASH) = (n <? 0)).
  { rewrite E. destruct (n <? 0); [done|]. apply bool_decide_eq_false. destruct ds as [|b ds]; [done|]. apply Forall_cons in Fd as [Db _]. by intros [= ->]. }
  rewrite Hs. set (a := if n <? 0 then [DASH] else []) in E.
  assert (La : (if n <? 0 then 1%nat else 0%nat) = length a) by (subst a; by destruct (n <? 0)). rewrite La, E.
  assert (So : starts_ok ds) by (by apply ascii_starts; eapply Forall_impl; [exact Fd|apply digit_ascii]).
  rewrite str_slice_tail, bind_run by done.
  assert (Dl : digits_len ds = length ds) by (pose proof (digits_len_app ds [] Fd eq_refl) as D; by rewrite app_nil_r in D). rewrite Dl.
  assert (length ds ≠ 0%nat) as Nl by (by destruct ds). rewrite (proj2 (Nat.eqb_neq _ _) Nl), length_app, Nat.ltb_irrefl, <-E.
  by rewrite parse_i64_fmt.
Qed.

(** ** Ranges *)
Definition range_ok (r : Range) : Prop := 0 ≤ rg_first r ≤ u64_max ∧ from_option (λ l, rg_first r ≤ l ≤ u64_max) True (rg_last r).
Definition range_fmt (r : Range) : bytes := fmt_dec 0 (rg_first r) ++ [DASH] ++ from_option (fmt_dec 0) [] (rg_last r).
Lemma number_fmt n : 0 ≤ n ≤ u64_max → number (fmt_dec 0 n) = Some n.
Proof.
  intros N. unfold number. destruct (fmt_dec_nonempty n) as (b & s & E & _); [lia|].
  assert (F : forallb is_digit (fmt_dec 0 n) = true).
  { apply forallb_forall. intros x Hx. pose proof (fmt_dec_digits n) as F. rewrite Forall_forall in F. by apply F, list_elem_of_In. }
  rewrite F, bool_decide_false by by rewrite E. cbn [negb orb]. apply (from_str_fmt digit_lower 10 ltac:(lia) good_dec u64_max 0 n N).
Qed.
Lemma number_range s n : number s = Some n → 0 ≤ n ≤ u64_max.
Proof.
  unfold number. destruct (_ || _); [done|]. unfold from_str_radix. destruct s as [|b s]; [done|].
  unfold u64_max. case_match; [destruct s; [done|]|]; intros E; apply parse_digits_bound in E; lia.
Qed.
(** Ranges as clients write them are read as they are meant. *)
Theorem range_round_trip r : range_ok r → parse_range (range_fmt r) = Some r.
Proof.
  intros [Rf Rl]. unfold parse_range, range_fmt.
  assert (Nd : DASH ∉ fmt_dec 0 (rg_first r)).
  { intros I. pose proof (fmt_dec_digits (rg_first r)) as F. rewrite Forall_forall in F. by specialize (F _ I). }
  cbn [app]. rewrite split_once_app by done. cbn. rewrite number_fmt by done. cbn. destruct r as [f [l|]]; cbn in *; [|done].
  destruct (fmt_dec_nonempty l) as (b & s & E & _); [lia|]. rewrite E, <-E, number_fmt by lia. cbn. by rewrite (proj2 (Z.ltb_ge _ _)) by lia.
Qed.
(** What is accepted is a window: its limit is there, and is the number of
    rows from its first to its last, but for the one range of 2^64 rows. *)
Theorem range_window header r :
  parse_range header = Some r →
  range_ok r ∧ match rg_last r with
               | None => limit r = Ok None
               | Some l => ∃ k, limit r = Ok (Some k) ∧ 1 ≤ k ≤ u64_max ∧ (k = l - offset r + 1 ∨ offset r = 0 ∧ l = u64_max)
               end.
Proof.
  unfold parse_range. destruct (split_once _ _) as [[before after]|]; [|done]. cbn. destruct (number before) as [f|] eqn:Nf; [|done]. cbn.
  apply number_range in Nf.
  assert (K : ∀ last_, from_option (λ l, 0 ≤ l ≤ u64_max) True last_ → (if from_option (λ l, l <? f) false last_ then None else Some (mkRange f last_)) = Some r →
    range_ok r ∧ match rg_last r with None => limit r = Ok None | Some l => ∃ k, limit r = Ok (Some k) ∧ 1 ≤ k ≤ u64_max ∧ (k = l - offset r + 1 ∨ offset r = 0 ∧ l = u64_max) end).
  { intros [l|] Rl; cbn in *; [|by intros [= <-]]. destruct (l <? f) eqn:Lt; [done|]. intros [= <-]. zbool. split; [split; cbn; lia|]. cbn. unfold limit. cbn.
    rewrite (proj2 (Z.ltb_ge _ _)) by lia. eexists. split; [done|]. unfold offset, u64_max in *. cbn. lia. }
  destruct after as [|b s]; [by apply (K None)|]. destruct (number (b :: s)) as [l|] eqn:Nl; [|done]. apply number_range in Nl. by apply (K (Some l)).
Qed.

(** ** [String::from_utf8_lossy] *)
(** U+FFFD *)
Definition REPLACEMENT : bytes := [Byte.xef; Byte.xbf; Byte.xbd].
(** [buf] is the part of a character read so far and [pending] what may
    follow it; a byte that does not fit is looked at again on its own. *)
Definition lossy_lead (k : list (Z * Z) → bytes → bytes) (b : byte) : bytes :=
  match lead b with
  | None => REPLACEMENT ++ k [] []
  | Some [] => b :: k [] []
  | Some pending => k pending [b]
  end.
Fixpoint lossy_run (pending : list (Z * Z)) (buf s : bytes) : bytes :=
  match s with
  | [] => if bool_decide (buf = []) then [] else REPLACEMENT
  | b :: s =>
      match pending with
      | [] => lossy_lead (λ p buf, lossy_run p buf s) b
      | (lo, hi) :: pending =>
          if (lo <=? bval b) && (bval b <=? hi) then
            match pending with
            | [] => buf ++ [b] ++ lossy_run [] [] s
            | _ => lossy_run pending (buf ++ [b]) s
            end
          else REPLACEMENT ++ lossy_lead (λ p buf, lossy_run p buf s) b
      end
  end.
Definition from_utf8_lossy (s : bytes) : bytes := lossy_run [] [] s.

(** ** The reader *)
Definition CR : byte := Byte.x0d.
Definition LF : byte := Byte.x0a.
Definition NULL : bytes := str "NULL".
Record Table := mkTable { tb_header : list bytes; tb_rows : list (list (option bytes)) }.
Definition not_enough (rest : bytes) : bytes := str "parse error (not enough input) at " ++ [QUOTE] ++ rest ++ [QUOTE].
(** The loop of [split]; everything it looks for is ASCII, so the characters
    of the source are the bytes here. *)
Fixpoint split_loop (s : bytes) (records : list (list bytes)) (record : list bytes) (field : bytes) (quoted : bool) : bytes + list (list bytes) :=
  match s with
  | [] =>
      if quoted then inl (not_enough field)
      else if negb (bool_decide (field = [])) || negb (bool_decide (record = [])) then inr (records ++ [record ++ [field]])
      else inr records
  | c :: s' =>
      if quoted then
        if decide (c = QUOTE) then
          match s' with
          | d :: s'' => if decide (d = QUOTE) then split_loop s'' records record (field ++ [QUOTE]) true else split_loop s' records record field false
          | [] => split_loop s' records record field false
          end
        else split_loop s' records record (field ++ [c]) true
      else if decide (c = QUOTE ∧ field = []) then split_loop s' records record field true
      else if decide (c = COMMA_) then split_loop s' records (record ++ [field]) [] false
      else if decide (c = LF) then split_loop s' (records ++ [record ++ [field]]) [] [] false
      else if decide (c = CR) then
        match s' with
        | d :: s'' =>
            if decide (d = LF) then split_loop s'' (records ++ [record ++ [field]]) [] [] false
            else split_loop s' (records ++ [record ++ [field]]) [] [] false
        | [] => split_loop s' (records ++ [record ++ [field]]) [] [] false
        end
      else split_loop s' records record (field ++ [c]) false
  end.
(** [split] of csv.rs *)
Definition split_csv (text : bytes) : bytes + list (list bytes) := split_loop text [] [] [] false.
Definition value_of (f : bytes) : option bytes := if bool_decide (f = NULL) then None else Some f.
Fixpoint csv_rows (width : nat) (records : list (list bytes)) : bytes + list (list (option bytes)) :=
  match records with
  | [] => inr []
  | r :: records =>
      if (length r <? width)%nat then inl (str "All lines must have same number of fields")
      else match csv_rows width records with inl e => inl e | inr rows => inr ((value_of <$> take width r) :: rows) end
  end.
(** [read] *)
Definition read (input : bytes) : bytes + Table :=
  match split_csv (from_utf8_lossy input) with
  | inl e => inl e
  | inr [] => inl (not_enough [])
  | inr (header :: records) => match csv_rows (length header) records with inl e => inl e | inr rows => inr (mkTable header rows) end
  end.

(** ** A writer *)
(** Every value in quotes, null as the bare word, a line end after every
    record. *)
Definition csv_quote (s : bytes) : bytes := [QUOTE] ++ concat ((λ b, if decide (b = QUOTE) then [QUOTE; QUOTE] else [b]) <$> s) ++ [QUOTE].
Definition csv_value (v : option bytes) : bytes := from_option csv_quote NULL v.
Definition csv_line (eol : bytes) (fields : list bytes) : bytes := join [COMMA_] fields ++ eol.
Definition csv_row (eol : bytes) (r : list (option bytes)) : bytes := csv_line eol (csv_value <$> r).
Definition csv_write (eol : bytes) (t : Table) : bytes :=
  csv_line eol (csv_quote <$> tb_header t) ++ concat (csv_row eol <$> tb_rows t).

(** ** Lossy reading keeps what is valid *)
Lemma lossy_valid pending buf s :
  Forall inside pending → (pending = [] → buf = []) → utf8_run pending s = true → lossy_run pending buf s = buf ++ s.
Proof.
  revert pending buf. induction s as [|b s IH]; intros pending buf F Pb U; cbn [lossy_run].
  - cbn in U. apply bool_decide_eq_true in U. rewrite (Pb U). done.
  - destruct pending as [|[lo hi] pending]; cbn [utf8_run] in U.
    + unfold lossy_lead. rewrite (Pb eq_refl). destruct (lead b) as [p|] eqn:Lb; [|done]. pose proof (lead_inside b p Lb) as Fp.
      destruct p as [|r p]; [by rewrite IH|]. by rewrite IH.
    + apply andb_true_iff in U as [-> U]. apply Forall_cons in F as [_ F]. destruct pending as [|r p]; [by rewrite IH|].
      rewrite IH by done. by rewrite <-app_assoc.
Qed.
Lemma from_utf8_lossy_valid s : utf8 s → from_utf8_lossy s = s.
Proof. intros U. by apply (lossy_valid [] []). Qed.

(** ** Reading back *)
Definition doubling (s : bytes) : bytes := concat ((λ b, if decide (b = QUOTE) then [QUOTE; QUOTE] else [b]) <$> s).
Lemma doubling_utf8 p s : Forall inside p → utf8_run p s = true → utf8_run p (doubling s) = true.
Proof.
  unfold doubling. revert p. induction s as [|b s IH]; intros p F U; [done|]. cbn [fmap list_fmap concat]. destruct (decide (b = QUOTE)) as [-> |N].
  - destruct (run_ascii p QUOTE s F ltac:(done) U) as [-> Us]. cbn. by apply IH.
  - destruct (run_step p b s F U) as (p' & U' & F' & E). cbn [app]. rewrite E. by apply IH.
Qed.
Lemma csv_quote_utf8 s : utf8 s → utf8 (csv_quote s).
Proof.
  intros U. unfold csv_quote. fold (doubling s). apply utf8_app; [done|]. apply utf8_app; [by apply doubling_utf8|done].
Qed.
Lemma quoted_body s recs rec acc rest :
  head rest ≠ Some QUOTE → split_loop (doubling s ++ QUOTE :: rest) recs rec acc true = split_loop rest recs rec (acc ++ s) false.
Proof.
  intros Hr. unfold doubling. revert acc. induction s as [|b s IH]; intros acc; cbn [fmap list_fmap concat app].
  - cbn [split_loop]. rewrite decide_True by done. rewrite app_nil_r. destruct rest as [|d rest]; [done|]. by rewrite decide_False by (intros ->; done).
  - destruct (decide (b = QUOTE)) as [-> |N]; cbn [app split_loop].
    + rewrite !decide_True by done. by rewrite IH, <-app_assoc.
    + rewrite decide_False by done. by rewrite IH, <-app_assoc.
Qed.
(** A field as it is written, and what it is read as. *)
Definition reads_as (t v : bytes) : Prop :=
  ∀ recs rec rest, head rest ≠ Some QUOTE → split_loop (t ++ rest) recs rec [] false = split_loop rest recs rec v false.
Lemma quote_reads s : reads_as (csv_quote s) s.
Proof.
  intros recs rec rest Hr. unfold csv_quote. fold (doubling s). rewrite <-!app_assoc. cbn [app split_loop]. rewrite decide_True by done. by rewrite quoted_body.
Qed.
Lemma null_reads : reads_as NULL NULL.
Proof. intros recs rec rest Hr. done. Qed.
Lemma value_reads v : reads_as (csv_value v) (from_option id NULL v).
Proof. destruct v; [apply quote_reads|apply null_reads]. Qed.
Definition eol_ok (eol : bytes) : Prop := eol = [LF] ∨ eol = [CR; LF] ∨ eol = [CR].
Lemma eol_reads eol recs rec field rest :
  eol_ok eol → head rest ≠ Some LF → split_loop (eol ++ rest) recs rec field false = split_loop rest (recs ++ [rec ++ [field]]) [] [] false.
Proof.
  intros [-> |[-> | ->]] Hr; cbn [app split_loop].
  - rewrite decide_False by (by intros []). done.
  - rewrite decide_False by (by intros []). done.
  - rewrite decide_False by (by intros []). rewrite !decide_False, decide_True by done. destruct rest as [|d rest]; [done|]. by rewrite decide_False by (intros ->; done).
Qed.
Lemma line_reads eol ts vs recs rec rest :
  eol_ok eol → head rest ≠ Some LF → Forall2 reads_as ts vs → ts ≠ [] →
  split_loop (csv_line eol ts ++ rest) recs rec [] false = split_loop rest (recs ++ [rec ++ vs]) [] [] false.
Proof.
  intros Eo Hr F. unfold csv_line. revert rec. induction F as [|t v ts vs R F IH]; intros rec Nn; [done|]. destruct F as [|t2 v2 ts vs R2 F].
  - cbn [join]. rewrite <-app_assoc, R by (destruct Eo as [-> |[-> | ->]]; done). by apply eol_reads.
  - rewrite join_cons, <-!app_assoc, R by done. cbn [app split_loop]. rewrite decide_False by (by intros []). rewrite decide_True by done.
    rewrite app_assoc, IH by done. by rewrite <-app_assoc.
Qed.
Definition value_ok (v : option bytes) : Prop := match v with Some s => utf8 s ∧ s ≠ NULL | None => True end.
Definition table_ok (t : Table) : Prop :=
  tb_header t ≠ [] ∧ Forall utf8 (tb_header t) ∧ Forall (λ r, length r = length (tb_header t) ∧ Forall value_ok r) (tb_rows t).
Definition raw_row (r : list (option bytes)) : list bytes := from_option id NULL <$> r.
Lemma rows_read eol width rows recs :
  eol_ok eol → (0 < width)%nat → Forall (λ r, length r = width ∧ Forall value_ok r) rows →
  split_loop (concat (csv_row eol <$> rows)) recs [] [] false = inr (recs ++ (raw_row <$> rows)).
Proof.
  intros Eo Hw F. revert recs. induction F as [|r rows [Lr _] F IH]; intros recs; cbn [fmap list_fmap concat]; [cbn; by rewrite app_nil_r|].
  unfold csv_row at 1. rewrite (line_reads eol _ (raw_row r)).
  - rewrite IH. by rewrite <-app_assoc.
  - done.
  - destruct rows as [|r2 rows]; [done|]. apply Forall_cons in F as [[L2 _] _]. destruct r2 as [|v r2]; [cbn in L2; lia|]. cbn [fmap list_fmap concat].
    unfold csv_row, csv_line. destruct v as [s|], r2 as [|v2 r2]; done.
  - apply Forall2_fmap_l, Forall2_fmap_r, Forall_Forall2_diag, Forall_true. apply value_reads.
  - destruct r; [cbn in Lr; lia|done].
Qed.
Lemma value_of_ok v : value_ok v → value_of (from_option id NULL v) = v.
Proof. unfold value_of. destruct v as [s|]; [|done]. intros [_ N]. cbn. by rewrite bool_decide_false. Qed.
Lemma csv_rows_ok width rows :
  Forall (λ r, length r = width ∧ Forall value_ok r) rows → csv_rows width (raw_row <$> rows) = inr rows.
Proof.
  induction 1 as [|r rows [Lr Vr] F IH]; [done|]. rewrite fmap_cons. cbn [csv_rows]. rewrite IH. unfold raw_row. rewrite length_fmap, Lr, Nat.ltb_irrefl.
  rewrite take_ge by by rewrite length_fmap, Lr. rewrite <-list_fmap_compose. f_equal. f_equal. clear Lr. induction Vr as [|v r V Vr IHr]; [done|].
  rewrite fmap_cons, IHr. f_equal. by apply value_of_ok.
Qed.
Lemma eol_utf8 eol : eol_ok eol → utf8 eol.
Proof. by intros [-> |[-> | ->]]. Qed.
Lemma csv_write_utf8 eol t : eol_ok eol → table_ok t → utf8 (csv_write eol t).
Proof.
  intros Eo (_ & Fh & Fr). apply eol_utf8 in Eo. unfold csv_write, csv_line. repeat apply utf8_app; [|done|].
  - apply utf8_join; [done|]. apply Forall_fmap. eapply Forall_impl; [exact Fh|]. apply csv_quote_utf8.
  - induction Fr as [|r rows [_ Vr] Fr IH]; [done|]. cbn [fmap list_fmap concat]. apply utf8_app; [|done]. apply utf8_app; [|done].
    apply utf8_join; [done|]. apply Forall_fmap. eapply Forall_impl; [exact Vr|]. intros [s|] V; [by apply csv_quote_utf8, V|done].
Qed.
(** A table written as csv reads back.  With any of the three line ends,
    any text in the header and the values, commas, quotes and line ends
    included, nulls as the bare word, and records as wide as the header, the
    reader gives the very table; the one value that has no spelling is the
    text NULL itself. *)
Theorem csv_round_trip eol t : eol_ok eol → table_ok t → read (csv_write eol t) = inr t.
Proof.
  intros Eo Tk. unfold read. rewrite from_utf8_lossy_valid by by apply csv_write_utf8. destruct Tk as (Nh & _ & Fr). unfold csv_write, split_csv.
  rewrite (line_reads eol _ (tb_header t)).
  - rewrite (rows_read eol (length (tb_header t))); [|done|destruct (tb_header t); [done|cbn; lia]|done]. cbn [app].
    rewrite csv_rows_ok by done. by destruct t.
  - done.
  - destruct Fr as [|r rows [Lr _] Fr]; [done|]. destruct r as [|v r]; [destruct (tb_header t); done|]. cbn [fmap list_fmap concat].
    unfold csv_row, csv_line. destruct v as [s|], r as [|v2 r]; done.
  - apply Forall2_fmap_l, Forall_Forall2_diag, Forall_true. apply quote_reads.
  - by destruct (tb_header t).
Qed.
Lemma csv_round_trip_witness :
  let t := mkTable [str "id"; str "a,b"] [[Some (str "1"); None]; [Some [QUOTE; LF]; Some []]] in
  eol_ok [CR; LF] ∧ read (csv_write [CR; LF] t) = inr t.
Proof.
  split; [by right; left|]. apply csv_round_trip; [by right; left|]. split_and!; [done|by repeat constructor|]. repeat constructor; by vm_compute.
Defined.
(** A last record that is one empty value in quotes and has no line end is
    not there: [a], a line end and two quotes is a table without rows, while
    the same with a line end behind it has one. *)
Theorem csv_last_empty_lost :
  read (str "a" ++ [LF; QUOTE; QUOTE]) = inr (mkTable [str "a"] []) ∧
  read (str "a" ++ [LF; QUOTE; QUOTE; LF]) = inr (mkTable [str "a"] [[Some []]]).
Proof. by vm_compute. Qed.
