(* ===== verification/Branch.v ===== *)
(** * Branch: branches and points in time (crates/zou-store/src/branch.rs)

    A branch is a new tenant whose manifests point into its parent's
    immutable objects.  The functions make several store calls, a listing
    among them, and other nodes act in between; a function is a computation
    on the world of [Prog], whose other actors get a turn before each call. *)
From S2P Require Import Prelude Order Text Lsn Externals Frame Bloom LayerKey Layer LayerMap Cas Layout Prog Manifest ShardManifest Shards.

(** ** Computations on the world *)
(** [None] when a retry loop was cut off. *)
Definition io (S E A : Type) : Type := world S → world S * option (res E A).
#[global] Instance io_ret {S E} : MRet (io S E) := λ A a w, (w, Some (Ok a)).
#[global] Instance io_bind {S E} : MBind (io S E) := λ A B f p w,
  match p w with
  | (w, Some (Ok a)) => f a w
  | (w, Some (Err e)) => (w, Some (Err e))
  | (w, Some Panic) => (w, Some Panic)
  | (w, None) => (w, None)
  end.

Section calls.
Context {S : Type} `{CasStore S} {E : Type}.

Definition pure {A} (r : res E A) : io S E A := λ w, (w, Some r).
(** [p.map_err(wrap)] *)
Definition io_map_err {F A} (wrap : F → E) (p : io S F A) : io S E A := λ w,
  let '(w, r) := p w in (w, map_err wrap <$> r).
Definition run {A} (p : prog E A) : io S E A := λ w, exec w p.
(** [store.list(prefix)?] *)
Definition list_ (wrap : CasError → E) (prefix : bytes) : io S E (list bytes) := λ w,
  let w := meddle w in (w, Some (map_err wrap (cas_list (w_store w) prefix))).
(** [for x in xs { body?; }] *)
Fixpoint for_each {A} (xs : list A) (body : A → io S E ()) : io S E () :=
  match xs with [] => mret () | x :: xs => _ ← body x; for_each xs body end.
End calls.

(** [store.put(key, data)], the trait's default method: each round that
    fails used up an act of others. *)
Fixpoint put_loop (fuel : nat) (key data : bytes) : prog CasError Version :=
  match fuel with
  | O => Stuck
  | S fuel =>
      cur ← get_ id key;
      Put key data (snd <$> cur) (λ r,
        match r with Err (Conflict _) => put_loop fuel key data | other => Ret other end)
  end.
Definition put_ {S} `{CasStore S} {E} (wrap : CasError → E) (key data : bytes) : io S E Version := λ w,
  io_map_err wrap (run (put_loop (Datatypes.S (length (w_env w))) key data)) w.

(** [Iterator::rposition] *)
Fixpoint rposition {A} (f : A → bool) (l : list A) : option nat :=
  match l with
  | [] => None
  | a :: l => match rposition f l with Some i => Some (S i) | None => if f a then Some 0%nat else None end
  end.

(** ** Branching *)
Inductive BranchError :=
  | NoSource (key : bytes)
  | DestinationExists (tenant_ref : bytes)
  | NoCheckpoint
  | AtLsnUnavailable (at_lsn : Lsn)
  | NoHistory (unix_ts : Z)
  | BelowHorizon (at_lsn horizon : Lsn) (shard : Z)
  | BManifest (e : ManifestError)
  | BShard (e : PageShardError)
  | BStore (e : CasError).

Definition owned (src_ref : bytes) (owner : option bytes) : option bytes :=
  match owner with None => Some src_ref | Some o => Some o end.
Definition child_checkpoint (src_ref : bytes) (c : CheckpointRef) : CheckpointRef :=
  mkCheckpoint (cr_id c) (cr_lsn c) (cr_kind c) (owned src_ref (cr_owner c)).

(** [child_of] *)
Definition child_of (parent : Manifest) (src_ref dst_ref : bytes) (at_lsn : option Lsn) (now_unix : Z) :
    res BranchError Manifest :=
  newest ← ok_or (cr_lsn <$> last (m_checkpoints parent)) NoCheckpoint;
  '(upto, at_) ← match at_lsn with
                 | None => mret (length (m_checkpoints parent), newest)
                 | Some at_ =>
                     match rposition (λ c, cr_lsn c =? at_) (m_checkpoints parent) with
                     | Some i => mret (Datatypes.S i, at_)
                     | None => Err (AtLsnUnavailable at_)
                     end
                 end;
  let child := manifest_new dst_ref (pg_version (m_pg parent)) in
  mret (mkManifest (Z.max (m_format child) (m_format parent)) (m_tenant_ref child) (m_epoch child) (m_lease child)
          (mkPg (pg_version (m_pg child)) (pg_timeline (m_pg parent)))
          (child_checkpoint src_ref <$> take upto (m_checkpoints parent))
          (m_folded_upto child) (m_pages_elided_from child) (Some (mkBranchOf src_ref at_))
          (m_shards parent) (m_shard_history parent) (Some now_unix)).
(** [branch_point] *)
Definition branch_point {E} (child : Manifest) : res E Lsn :=
  b ← expect (m_branch_of child); mret (bo_at_lsn b).

(** One listed layer of the parent as the child inherits it, if it does. *)
Definition cut_entry (src_ref : bytes) (at_ : Lsn) (l : LayerEntry) : res PageShardError (option LayerEntry) :=
  desc ← map_err ShardName (desc_parse (le_name l) (le_size l));
  if at_ <? ld_min_lsn desc then mret None
  else
    let upto :=
      if (at_ <? ld_max_lsn desc) || bool_decide (is_Some (le_upto l))
      then Some (match le_upto l with None => at_ | Some u => Z.min u at_ end)
      else le_upto l in
    mret (Some (mkEntry (le_name l) (le_size l) (owned src_ref (le_owner l)) upto)).
(** The child's shard manifest. *)
Definition child_shard (src_ref : bytes) (at_ : Lsn) (parent : PageShardManifest) : res PageShardError PageShardManifest :=
  layers ← mapM (cut_entry src_ref at_) (sm_layers parent);
  mret (mkShard 2 (sm_shard parent) (Z.min (sm_disk_consistent_lsn parent) at_) (omap id layers) None (sm_horizon parent)).

Section branch.
Context {S : Type} `{CasStore S} `{SerdeManifest} `{SerdeShard}.

Definition load_shard (key : bytes) : io S BranchError (option (PageShardManifest * Version)) :=
  io_map_err BShard (run (shard_load key)).
Definition check_horizon (at_ : Lsn) (key : bytes) : io S BranchError () :=
  cur ← load_shard key;
  match cur with
  | None => mret ()
  | Some (parent, _) =>
      match sm_horizon parent with
      | Some horizon => pure (guard_err (at_ <? horizon) (BelowHorizon at_ horizon (sm_shard parent)))
      | None => mret ()
      end
  end.
Definition copy_shard (src_ref dst_ref : bytes) (at_ : Lsn) (key : bytes) : io S BranchError () :=
  cur ← load_shard key;
  match cur with
  | None => mret ()
  | Some (parent, _) =>
      child ← pure (map_err BShard (child_shard src_ref at_ parent));
      _ ← put_ BStore (shard_manifest (layout_new dst_ref) (sm_shard parent)) (shard_encode child);
      mret ()
  end.
(** The keys [branch_shards] walks, from a listing and the shard count. *)
Definition shard_keys (src_ref : bytes) (listing : list bytes) (shards : Z) : list bytes :=
  set_of (filter (λ k, Is_true (ends_with k (str "/SHARD"))) listing ++
              (shard_manifest (layout_new src_ref) <$> seqZ 0 (as_u16 shards))).
(** [branch_shards] *)
Definition branch_shards (src_ref dst_ref : bytes) (at_ : Lsn) (shards : Z) : io S BranchError () :=
  listing ← list_ BStore (shards_dir (layout_new src_ref));
  let keys := shard_keys src_ref listing shards in
  _ ← for_each keys (check_horizon at_);
  for_each keys (copy_shard src_ref dst_ref at_).

(** [publish_child] *)
Definition publish_child (dst_ref : bytes) (child : Manifest) : io S BranchError () :=
  run (Put (manifest_key (layout_new dst_ref)) (to_json child) None (λ r,
    match r with
    | Ok _ => mret ()
    | Err (Conflict _) | Err (AlreadyExists _) => Ret (Err (DestinationExists dst_ref))
    | Err e => Ret (Err (BStore e))
    | Panic => Ret Panic
    end)).

(** The steps [branch] and [materialize_at] share. *)
Definition branch_from (parent : Manifest) (src_ref dst_ref : bytes) (at_lsn : option Lsn) (now_unix : Z) :
    io S BranchError Manifest :=
  child ← pure (child_of parent src_ref dst_ref at_lsn now_unix);
  at_ ← pure (branch_point child);
  _ ← branch_shards src_ref dst_ref at_ (m_shards parent);
  _ ← publish_child dst_ref child;
  mret child.
(** [branch] *)
Definition branch (src_ref dst_ref : bytes) (at_lsn : option Lsn) (now_unix : Z) : io S BranchError Manifest :=
  let key := manifest_key (layout_new src_ref) in
  cur ← run (get_ BStore key);
  '(data, _) ← pure (ok_or cur (NoSource key));
  parent ← pure (map_err BManifest (from_json data));
  branch_from parent src_ref dst_ref at_lsn now_unix.

(** ** Points in time *)
(** [history_unix] *)
Definition history_unix (dir key : bytes) : option Z :=
  name ← strip_prefix dir key; name ← strip_suffix (str ".json") name;
  '(_, unix) ← split_once hyphen name;
  from_str_radix 10 u64_max unix.
(** The search of [snapshot_at]. *)
Definition pick (dir : bytes) (unix_ts : Z) (best : option (Z * bytes)) (key : bytes) : option (Z * bytes) :=
  match history_unix dir key with
  | None => best
  | Some stamp =>
      if (stamp <=? unix_ts) && match best with None => true | Some (b, _) => b <=? stamp end
      then Some (stamp, key) else best
  end.
(** [snapshot_at] *)
Definition snapshot_at (src_ref : bytes) (unix_ts : Z) : io S BranchError Manifest :=
  let dir := manifests_dir (layout_new src_ref) in
  listing ← list_ BStore dir;
  '(_, key) ← pure (ok_or (foldl (pick dir unix_ts) None listing) (NoHistory unix_ts));
  cur ← run (get_ BStore key);
  '(data, _) ← pure (ok_or cur (NoHistory unix_ts));
  pure (map_err BManifest (from_json data)).
(** [materialize_at] *)
Definition materialize_at (src_ref dst_ref : bytes) (unix_ts now_unix : Z) : io S BranchError Manifest :=
  snapshot ← snapshot_at src_ref unix_ts;
  branch_from snapshot src_ref dst_ref None now_unix.

(** ** Lineage *)
(** The loop of [lineage]; [None] when the fuel ran out. *)
Fixpoint lineage_loop (fuel : nat) (chain : list bytes) (at_ : bytes) : io S BranchError (list bytes) :=
  match fuel with
  | O => λ w, (w, None)
  | Datatypes.S fuel =>
      cur ← run (get_ BStore (manifest_key (layout_new at_)));
      match cur with
      | None => mret chain
      | Some (data, _) =>
          m ← pure (map_err BManifest (from_json data));
          match m_branch_of m with
          | None => mret chain
          | Some parent =>
              if bool_decide (bo_ref parent ∈ chain) then mret chain
              else lineage_loop fuel (chain ++ [bo_ref parent]) (bo_ref parent)
          end
      end
  end.
(** [lineage] *)
Definition lineage (fuel : nat) (tenant_ref : bytes) : io S BranchError (list bytes) :=
  lineage_loop fuel [tenant_ref] tenant_ref.
End branch.
