(* ===== verification/BranchReads.v ===== *)
(** * BranchReads: a branch reads its parent's past and nothing else

    The layers a child inherits answer every read with what the parent's
    answer at the branch point or below, whatever the parent's layers hold
    above it. *)
From S2P Require Import Prelude Order Text Lsn Externals Frame Bloom LayerKey Layer LayerBuild LayerRead LayerLookup LayerMap Memtable Cas Layout PageRead PageReadProofs Prog Manifest ShardManifest Shards Branch.

(** ** Inherited descriptors *)
Definition cut_desc (src_ref : bytes) (at_ : Lsn) (d : LayerDesc) : LayerDesc :=
  mkDesc (ld_kind d) (ld_min_key d) (ld_max_key d) (ld_min_lsn d) (ld_max_lsn d) (ld_size d)
    (owned src_ref (ld_owner d))
    (if (at_ <? ld_max_lsn d) || bool_decide (is_Some (ld_upto d))
     then Some (match ld_upto d with None => at_ | Some u => Z.min u at_ end) else ld_upto d)
    (ld_home d).
Definition kept (at_ : Lsn) (ds : list LayerDesc) : list LayerDesc := filter (λ d, ld_min_lsn d ≤ at_) ds.

Lemma cut_entry_desc src_ref at_ l d :
  entry_desc l = Ok d →
  ∃ o, cut_entry src_ref at_ l = Ok o ∧
    match o with
    | Some e => ld_min_lsn d ≤ at_ ∧ entry_desc e = Ok (cut_desc src_ref at_ d)
    | None => at_ < ld_min_lsn d
    end.
Proof.
  unfold entry_desc, cut_entry. destruct (desc_parse (le_name l) (le_size l)) as [p| |] eqn:P; [|done..].
  cbn [map_err]. rewrite !bind_run. intros E. apply (inj Ok) in E as <-. cbn [ld_min_lsn].
  destruct (at_ <? ld_min_lsn p) eqn:C; eexists; (split; [done|]); cbn [ld_min_lsn]; [by apply Z.ltb_lt|]. split; [by apply Z.ltb_ge|].
  cbn [le_name le_size]. rewrite P. done.
Qed.
Lemma mapM_cons {E A B} (f : A → res E B) x l :
  mapM f (x :: l) = y ← f x; k ← mapM f l; mret (y :: k).
Proof. done. Qed.
Lemma cut_entries src_ref at_ ls ds :
  mapM entry_desc ls = Ok ds →
  ∃ os, mapM (cut_entry src_ref at_) ls = Ok os ∧
    mapM entry_desc (omap id os) = Ok (cut_desc src_ref at_ <$> kept at_ ds).
Proof.
  revert ds. induction ls as [|l ls IH]; intros ds E.
  { injection E as <-. by exists []. }
  rewrite mapM_cons in E. apply bind_ok in E as (d & Ed & E). apply bind_ok in E as (ds' & Es & E).
  apply (inj Ok) in E as <-. destruct (IH _ Es) as (os & Eo & Em).
  destruct (cut_entry_desc src_ref at_ _ _ Ed) as (o & Ec & Ho). exists (o :: os).
  rewrite mapM_cons, Ec, bind_run, Eo, bind_run. split; [done|]. unfold kept.
  destruct o as [e|]; cbn [omap list_omap id].
  - destruct Ho as [L He]. rewrite mapM_cons, He, bind_run. setoid_rewrite Em. rewrite bind_run.
    by rewrite filter_cons_True by done.
  - rewrite filter_cons_False by lia. done.
Qed.
Lemma child_shard_layers src_ref at_ m ds :
  mapM entry_desc (sm_layers m) = Ok ds →
  ∃ c, child_shard src_ref at_ m = Ok c ∧ sm_shard c = sm_shard m ∧ sm_horizon c = sm_horizon m ∧
    sm_disk_consistent_lsn c = Z.min (sm_disk_consistent_lsn m) at_ ∧
    mapM entry_desc (sm_layers c) = Ok (cut_desc src_ref at_ <$> kept at_ ds).
Proof.
  intros E. destruct (cut_entries src_ref at_ _ _ E) as (os & Eo & Em).
  unfold child_shard. rewrite Eo, bind_run. eexists. split; [done|]. done.
Qed.

(** ** Maps *)
Lemma map_new_good ls : Forall layer_good ls → ∃ m, map_new ls = Ok m.
Proof.
  intros G. pose proof (check_layers_spec ls) as C. rewrite decide_True in C by done.
  destruct (build_kind_ok ls Image G) as (ti & Bi & _), (build_kind_ok ls Delta G) as (td & Bd & _).
  unfold map_new. rewrite C, bind_run, Bi, bind_run, Bd, bind_run. by eexists.
Qed.
Lemma map_new_inv ls m : map_new ls = Ok m → Forall layer_good ls.
Proof.
  unfold map_new. intros E. apply bind_ok in E as ([] & C & _).
  pose proof (check_layers_spec ls) as Cs. destruct (decide _); [done|]. destruct Cs as (? & _ & _ & [Ce|Ce]); congruence.
Qed.
Lemma cut_good src_ref at_ ds : Forall layer_good ds → Forall layer_good (cut_desc src_ref at_ <$> kept at_ ds).
Proof.
  intros G. apply Forall_fmap, Forall_forall. intros d [_ Hd]%list_elem_of_filter. by eapply Forall_forall in G.
Qed.

(** ** Reads *)
Section inherit.
Context `{CrcOk, Lz4Ok} {S : Type} `{CasOk S}.
Variable store : S.
(** What the objects hold, by layer name. *)
Variable obj : bytes → bytes.
Variable ftr : bytes → LayerFooter.
Variable images : bytes → list ImageEntry.
Variable deltas : bytes → list DeltaEntry.
Abbreviation world_of ds r := (world_ok store ds (λ d, obj (desc_name d)) (λ d, ftr (desc_name d))
  (λ d, images (desc_name d)) (λ d, deltas (desc_name d)) r).
Abbreviation record_of ds := (has_record ds (λ d, deltas (desc_name d))).
Abbreviation image_of ds := (has_image ds (λ d, images (desc_name d))).
Variable src_ref dst_ref : bytes.
Variable at_ : Lsn.
Variable ds : list LayerDesc.
Abbreviation cut := (cut_desc src_ref at_).
Abbreviation inherited := (cut <$> kept at_ ds).

Lemma inherited_elem d' : d' ∈ inherited ↔ ∃ d, d' = cut d ∧ d ∈ ds ∧ ld_min_lsn d ≤ at_.
Proof.
  rewrite list_elem_of_fmap. unfold kept. setoid_rewrite list_elem_of_filter. naive_solver.
Qed.

(** An inherited layer is found where the parent finds it. *)
Lemma inherited_object shard b1 b2 d key :
  object_key (for_shard src_ref shard b1) d (desc_name d) = Ok key →
  object_key (for_shard dst_ref shard b2) (cut d) (desc_name (cut d)) = Ok key.
Proof.
  unfold object_key. cbn [lr_prefix lr_tenant lr_shard for_shard ld_owner ld_home cut_desc owned].
  destruct (ld_owner d), (ld_home d); cbn; intros E; apply (inj Ok) in E as <-; done.
Qed.
Lemma inherited_world shard b1 b2 :
  world_of ds (for_shard src_ref shard b1) → world_of inherited (for_shard dst_ref shard b2).
Proof.
  intros [I O N D M]. split; [done| | | |].
  - intros d' (d & -> & Hd & _)%inherited_elem. destruct (O d Hd) as (key & v & Ek & V & L).
    exists key, v. split; [by eapply inherited_object|done].
  - intros d1' d2' (d1 & -> & H1' & _)%inherited_elem (d2 & -> & H2' & _)%inherited_elem En.
    f_equal. by apply N.
  - intros d' (d & -> & Hd & _)%inherited_elem K. apply (D d Hd K).
  - intros d' (d & -> & Hd & _)%inherited_elem K. apply (M d Hd K).
Qed.

(** The branch cut is a cut: a child's record or image is one the parent
    has at the branch point or below. *)
Lemma clamp_cut d lsn l :
  l ≤ ld_max_lsn d → l ≤ clamp (cut d) lsn ↔ l ≤ clamp d (Z.min lsn at_).
Proof.
  intros L. unfold clamp. cbn [ld_upto cut_desc]. destruct (at_ <? ld_max_lsn d) eqn:C; zbool.
  - cbn [orb]. destruct (ld_upto d); lia.
  - cbn [orb]. destruct (ld_upto d) as [u|].
    + rewrite bool_decide_true by eauto. lia.
    + rewrite bool_decide_false by by intros []. lia.
Qed.
Lemma inherited_record r key lsn l rec :
  world_of ds r → record_of inherited key lsn mem_new l rec ↔ record_of ds key (Z.min lsn at_) mem_new l rec.
Proof.
  intros W.
  assert (B : ∀ d, d ∈ ds → ld_kind d = Delta → mkDelta key l rec ∈ deltas (desc_name d) → ld_min_lsn d ≤ l ≤ ld_max_lsn d).
  { intros d Hd K Hi. destruct (delta_layer_obj _ _ _ _ (wo_delta _ _ _ _ _ _ _ W d Hd K)) as [_ Lb]. by apply Lb in Hi. }
  assert (C : ∀ d, clamp d (Z.min lsn at_) ≤ Z.min lsn at_) by (intros d; unfold clamp; destruct (ld_upto d); lia).
  unfold has_record. split.
  - intros [L [(d' & (d & -> & Hd & Hl)%inherited_elem & K & Hc & Hi)|Hg]]; [|done].
    specialize (B d Hd K Hi). apply clamp_cut in Hc; [|lia]. specialize (C d).
    split; [lia|]. left. by exists d.
  - intros [L [(d & Hd & K & Hc & Hi)|Hg]]; [|done]. specialize (B d Hd K Hi).
    split; [lia|]. left. exists (cut d). split; [apply inherited_elem; exists d; split_and!; (done || lia)|].
    split_and!; [done| |done]. apply clamp_cut; [lia|done].
Qed.
Lemma inherited_image r key lsn p l :
  world_of ds r → Forall layer_good ds →
  image_of inherited key lsn p l ↔ image_of ds key (Z.min lsn at_) p l.
Proof.
  intros W G. rewrite Forall_forall in G. unfold has_image. split.
  - intros (d' & (d & -> & Hd & Hl)%inherited_elem & K & El & Hc & Hi). destruct (G d Hd) as (_ & _ & Gi).
    cbn in K, El. specialize (Gi K). exists d. split_and!; [done..| |done]. apply clamp_cut; [lia|done].
  - intros (d & Hd & K & El & Hc & Hi). destruct (G d Hd) as (_ & _ & Gi). specialize (Gi K).
    exists (cut d). split_and!; [|done|done| |done].
    + apply inherited_elem. exists d. split_and!; [done..|]. unfold clamp in Hc. destruct (ld_upto d); lia.
    + apply clamp_cut; [lia|done].
Qed.

Abbreviation world_reader ds r := (reader_ok store ds (λ d, obj (desc_name d)) (λ d, ftr (desc_name d))
  (λ d, images (desc_name d)) (λ d, deltas (desc_name d)) r).
Lemma fresh_ready ds' t shard b : 0 ≤ b → world_of ds' (for_shard t shard b) → world_reader ds' (for_shard t shard b).
Proof. intros B W. apply fresh_reader_ok; [done|done|by split|done|done]. Qed.

(** Two reads that may use the same images and records give the same. *)
Lemma same_reads (ds1 ds2 : list LayerDesc) m1 m2 r1 r2 key l1 l2 (history picture : Lsn → option bytes) :
  world_reader ds1 r1 → world_reader ds2 r2 → map_new ds1 = Ok m1 → map_new ds2 = Ok m2 → 0 ≤ l1 → 0 ≤ l2 →
  (∀ l rec, record_of ds1 key l1 mem_new l rec ↔ record_of ds2 key l2 mem_new l rec) →
  (∀ p l, image_of ds1 key l1 p l ↔ image_of ds2 key l2 p l) →
  (∀ l rec, record_of ds2 key l2 mem_new l rec → history l = Some rec) →
  (∀ p l, image_of ds2 key l2 p l → picture l = Some p) →
  ∃ r1' r2' rec1 rec2,
    reconstruct store m1 mem_new key l1 r1 = (r1', Ok rec1) ∧ reconstruct store m2 mem_new key l2 r2 = (r2', Ok rec2) ∧
    rc_base rec1 = rc_base rec2 ∧ rc_base_lsn rec1 = rc_base_lsn rec2 ∧ rc_records rec1 = rc_records rec2.
Proof.
  intros R1 R2 M1 M2 L1 L2 Hr Hi Hh Hp.
  destruct (reconstruct_ok _ _ _ _ _ _ r1 m1 mem_new key l1 history R1 M1 mem_new_ok L1)
    as (r1' & rec1 & base1 & E1 & _ & B1 & P1 & S1 & W1 & G1); [intros l rec ?%Hr; by apply Hh|].
  destruct (reconstruct_ok _ _ _ _ _ _ r2 m2 mem_new key l2 history R2 M2 mem_new_ok L2)
    as (r2' & rec2 & base2 & E2 & _ & B2 & P2 & S2 & W2 & G2); [done|].
  assert (base1 = base2) as <-.
  { destruct base1 as [[p1 q1]|], base2 as [[p2 q2]|]; cbn in B1, B2; [|by destruct B1 as [?%Hi _]; destruct (B2 p1 q1)|
      by destruct B2 as [?%Hi _]; destruct (B1 p2 q2)|done].
    destruct B1 as [I1 N1], B2 as [I2 N2]. apply Hi in I1. pose proof (N2 _ _ I1). pose proof (proj2 (Hi _ _) I2) as I2'.
    specialize (N1 _ _ I2'). assert (q1 = q2) as -> by lia. apply Hp in I1, I2. congruence. }
  exists r1', r2', rec1, rec2. split_and!; [done|done|congruence|congruence|].
  apply bt_ext; [done..|]. intros k. apply option_eq. intros v. rewrite !bt_get_elem by done. rewrite G1, G2. by rewrite Hr.
Qed.
End inherit.

(** C17: a branch reads its parent's past and nothing else.  Take a shard of
    the parent as its manifest lists it, its layers in the store as they
    were built, and the records and images of a key agreeing wherever they
    are kept.  Then the child's shard manifest can be made for any branch
    point, its layers make a map, and reading any key through it at any lsn
    gives the base, the base's lsn and the records that the parent's own map
    gives at that lsn or at the branch point, whichever is lower: nothing
    the parent wrote later shows, and nothing below is lost. *)
Theorem branch_reads_parent `{CrcOk, Lz4Ok} {S} `{CasOk S} (store : S)
    (obj : bytes → bytes) (ftr : bytes → LayerFooter) (images : bytes → list ImageEntry)
    (deltas : bytes → list DeltaEntry) (src_ref dst_ref : bytes) (shard b1 b2 : Z) (at_ : Lsn)
    (m : PageShardManifest) (ds : list LayerDesc) (mp : LayerMap) (history picture : LayerKey → Lsn → option bytes) :
  mapM entry_desc (sm_layers m) = Ok ds → layer_map m = Ok mp → 0 ≤ at_ → 0 ≤ b1 → 0 ≤ b2 →
  world_ok store ds (λ d, obj (desc_name d)) (λ d, ftr (desc_name d)) (λ d, images (desc_name d))
    (λ d, deltas (desc_name d)) (for_shard src_ref shard b1) →
  (∀ key l rec, has_record ds (λ d, deltas (desc_name d)) key at_ mem_new l rec → history key l = Some rec) →
  (∀ key p l, has_image ds (λ d, images (desc_name d)) key at_ p l → picture key l = Some p) →
  ∃ c mc, child_shard src_ref at_ m = Ok c ∧ layer_map c = Ok mc ∧
    ∀ key lsn, 0 ≤ lsn → ∃ rc rp recc recp,
      reconstruct store mc mem_new key lsn (for_shard dst_ref shard b2) = (rc, Ok recc) ∧
      reconstruct store mp mem_new key (Z.min lsn at_) (for_shard src_ref shard b1) = (rp, Ok recp) ∧
      rc_base recc = rc_base recp ∧ rc_base_lsn recc = rc_base_lsn recp ∧ rc_records recc = rc_records recp.
Proof.
  intros Ed Em L B1 B2 W Hh Hp. unfold layer_map in *. rewrite Ed, bind_run in Em.
  destruct (map_new ds) as [mp'| |] eqn:Mp; [|done..]. apply (inj Ok) in Em as ->.
  pose proof (map_new_inv _ _ Mp) as G.
  destruct (child_shard_layers src_ref at_ m ds Ed) as (c & Ec & _ & _ & _ & El).
  destruct (map_new_good _ (cut_good src_ref at_ ds G)) as [mc Mc].
  exists c, mc. split; [done|]. split; [by rewrite El, bind_run, Mc|]. intros key lsn Ll.
  assert (C : ∀ d, clamp d (Z.min lsn at_) ≤ clamp d at_) by (intros d; unfold clamp; destruct (ld_upto d); lia).
  eapply (same_reads store obj ftr images deltas _ _ _ _ _ _ key lsn (Z.min lsn at_) (history key) (picture key));
    [by eapply fresh_ready, inherited_world|by apply fresh_ready|done|done|done|lia| | | |].
  - intros l rec. by eapply inherited_record.
  - intros p l. by eapply inherited_image.
  - intros l rec [Ll' [(d & Hd & K & Hc & Hi)|Hg]]; [|done]. apply Hh. split; [lia|]. left. exists d. specialize (C d). split_and!; (done || lia).
  - intros p l (d & Hd & K & El' & Hc & Hi). apply Hp. exists d. specialize (C d). split_and!; (done || lia).
Qed.

Module BranchReadsWitness.
Import Concrete PageReadWitness.
Definition one_of {A} (a b : bytes) (x y : A) (n : bytes) : A := if bool_decide (n = a) then x else y.
Lemma one_of_ok {A} (a b : bytes) (x y : A) : a ≠ b → one_of a b x y a = x ∧ one_of a b x y b = y.
Proof. intros N. unfold one_of. by rewrite bool_decide_true, bool_decide_false by congruence. Qed.
Definition obj : bytes → bytes := one_of (desc_name dI) (desc_name dD) I.1 D.1.
Definition ftr : bytes → LayerFooter := one_of (desc_name dI) (desc_name dD) I.2 D.2.
Lemma world_by_name : world_ok PageReadWitness.store layers (λ d, obj (desc_name d)) (λ d, ftr (desc_name d))
  (λ _, ies) (λ _, des) r0.
Proof.
  destruct (one_of_ok _ _ I.1 D.1 names_differ : obj (desc_name dI) = I.1 ∧ obj (desc_name dD) = D.1) as [Ei Ed].
  destruct (one_of_ok _ _ I.2 D.2 names_differ : ftr (desc_name dI) = I.2 ∧ ftr (desc_name dD) = D.2) as [Fi Fd].
  destruct world as [Wi Wo Wn Wd Wm]. split; [exact Wi| |exact Wn| |].
  - intros d [-> | ->]%in_layers.
    + exists (lr_prefix r0 ++ desc_name dI), (str "1"). split; [done|]. rewrite Ei. split; by vm_compute.
    + exists (lr_prefix r0 ++ desc_name dD), (str "2"). split; [done|]. rewrite Ed. split; by vm_compute.
  - intros d [-> | ->]%in_layers K; [by rewrite dI_image in K|]. rewrite Ed, Fd. apply D_ok.
  - intros d [-> | ->]%in_layers K; [|by rewrite dD_delta in K]. rewrite Ei, Fi. apply I_ok.
Qed.
Definition sm : PageShardManifest :=
  mkShard 1 0 250 [mkEntry (desc_name dI) (zlen I.1) None None; mkEntry (desc_name dD) (zlen D.1) None None] None None.
Lemma sm_descs : mapM entry_desc (sm_layers sm) = Ok layers.
Proof. by vm_compute. Qed.
Lemma sm_map : layer_map sm = Ok m.
Proof. by vm_compute. Qed.
Definition history (_ : LayerKey) (l : Lsn) : option bytes := PageReadWitness.history l.
Definition picture (key : LayerKey) (_ : Lsn) : option bytes :=
  Some (if bool_decide (key = k 1) then page Byte.x01 else page Byte.x02).

(** Between the image at 100 and the record at 200: the child never sees
    the record, the parent does. *)
Lemma branch_reads_parent_witness :
  ∃ c mc, child_shard (str "t") 150 sm = Ok c ∧ layer_map c = Ok mc ∧
    ∃ rc rp recc recp,
      reconstruct PageReadWitness.store mc mem_new (k 1) 700 (for_shard (str "kid") 0 BLOCK_CACHE_BYTES) = (rc, Ok recc) ∧
      reconstruct PageReadWitness.store m mem_new (k 1) 150 r0 = (rp, Ok recp) ∧
      rc_records recc = rc_records recp.
Proof.
  destruct (branch_reads_parent PageReadWitness.store obj ftr (λ _, ies) (λ _, des) (str "t") (str "kid") 0
    BLOCK_CACHE_BYTES BLOCK_CACHE_BYTES 150 sm layers m history picture sm_descs sm_map ltac:(done) ltac:(done) ltac:(done)
    world_by_name) as (c & mc & Ec & Em & R).
  - intros key l rec [_ [(d & _ & _ & _ & Hi)|Hg]]; [|discriminate Hg]. unfold des in Hi. rewrite !elem_of_cons in Hi.
    destruct Hi as [E|[E|E]]; [injection E as -> -> ->; reflexivity..|set_solver].
  - intros key p l (d & _ & _ & _ & _ & Hi). unfold ies in Hi. rewrite !elem_of_cons in Hi.
    destruct Hi as [E|[E|E]]; [injection E as -> ->; by vm_compute..|set_solver].
  - exists c, mc. split; [exact Ec|]. split; [exact Em|].
    destruct (R (k 1) 700 ltac:(done)) as (rc & rp & recc & recp & E1 & E2 & _ & _ & Er).
    exists rc, rp, recc, recp. split; [exact E1|]. split; [exact E2|exact Er].
Defined.
Example later_record_hidden :
  match child_shard (str "t") 150 sm with
  | Ok c => match layer_map c with
            | Ok mc => match reconstruct PageReadWitness.store mc mem_new (k 1) 700 (for_shard (str "kid") 0 BLOCK_CACHE_BYTES),
                             reconstruct PageReadWitness.store m mem_new (k 1) 700 r0 with
                       | (_, Ok a), (_, Ok b) => (rc_base_lsn a, rc_records a, rc_base_lsn b, rc_records b)
                       | _, _ => (None, [], None, [])
                       end
            | _ => (None, [], None, []) end
  | _ => (None, [], None, []) end = (Some 100, [], Some 100, [(200, str "mid")]).
Proof. by vm_compute. Qed.
End BranchReadsWitness.
