(* ===== verification/BranchProofs.v ===== *)
(** * BranchProofs: what a branch does to the store

    On a store at rest a branch writes exactly the child's manifests, and a
    request it refuses up front writes nothing.  The newest snapshot is
    found and the lineage is walked to its end. *)
From S2P Require Import Prelude Order Text Lsn Externals Frame Bloom LayerKey Layer LayerMap Cas Layout Prog Manifest ShardManifest Shards Branch BranchReads.

(** ** Keys *)
Lemma shard_manifest_inj t a b : 0 ≤ a → 0 ≤ b → shard_manifest t a = shard_manifest t b → a = b.
Proof.
  unfold shard_manifest, shard_prefix. rewrite <-!app_assoc. intros A B E%app_inv_head%app_inv_head.
  rewrite !app_assoc in E. apply app_inv_tail in E. apply app_inv_tail in E. by eapply fmt_hex_inj.
Qed.
Lemma shard_manifest_dir t n : starts_with (shard_manifest t n) (shards_dir t) = true.
Proof.
  apply starts_with_spec. unfold shard_manifest, shard_prefix, shards_dir. exists (fmt_hex 4 n ++ str "/" ++ str "SHARD").
  by rewrite <-!app_assoc.
Qed.
Lemma shard_manifest_end t n : ends_with (shard_manifest t n) (str "/SHARD") = true.
Proof.
  unfold ends_with, shard_manifest, shard_prefix.
  replace ((tl_prefix t ++ str "/shards/" ++ fmt_hex 4 n ++ str "/") ++ str "SHARD")
    with ((tl_prefix t ++ str "/shards/" ++ fmt_hex 4 n) ++ str "/SHARD") by by rewrite <-!app_assoc.
  by rewrite strip_suffix_app.
Qed.
Definition under (t key : bytes) : Prop := starts_with key (tl_prefix (layout_new t) ++ str "/") = true.
Lemma under_app t r : under t (tl_prefix (layout_new t) ++ str "/" ++ r).
Proof. unfold under. rewrite app_assoc. apply starts_with_app. Qed.
Lemma under_dir t key : starts_with key (shards_dir (layout_new t)) = true → under t key.
Proof.
  intros [r ->]%starts_with_spec. apply starts_with_spec. exists (str "shards/" ++ r). unfold shards_dir. by rewrite <-!app_assoc.
Qed.
Lemma under_manifest t : under t (manifest_key (layout_new t)).
Proof. apply (under_app t (str "MANIFEST")). Qed.
Lemma under_shard t n : under t (shard_manifest (layout_new t) n).
Proof. apply under_dir, shard_manifest_dir. Qed.
Lemma shard_not_manifest t n : shard_manifest (layout_new t) n ≠ manifest_key (layout_new t).
Proof. unfold shard_manifest, shard_prefix, manifest_key. rewrite <-!app_assoc. intros E%app_inv_head. done. Qed.

(** ** Computations alone *)
Section alone.
Context {S : Type} `{CasSnap S} `{SerdeManifestOk} `{SerdeShardOk}.
Implicit Types s : S.

Lemma io_ok {E A B} (p : io S E A) (f : A → io S E B) w w' a :
  p w = (w', Some (Ok a)) → (p ≫= f) w = f a w'.
Proof. intros R. unfold mbind, io_bind. by rewrite R. Qed.
Lemma io_err {E A B} (p : io S E A) (f : A → io S E B) w w' e :
  p w = (w', Some (Err e)) → (p ≫= f) w = (w', Some (Err e)).
Proof. intros R. unfold mbind, io_bind. by rewrite R. Qed.
Lemma list_alone {E} (wrap : CasError → E) prefix s ms :
  cas_inv s → ∃ keys, list_ wrap prefix (alone s ms) = (alone s ms, Some (Ok keys)) ∧ StronglySorted olt keys ∧
    ∀ key, key ∈ keys ↔ is_Some (cas_view s key) ∧ starts_with key prefix = true.
Proof.
  intros I. destruct (cas_list_ok s prefix I) as (keys & E1 & Srt & El). exists keys. unfold list_. cbn [meddle alone w_env w_store].
  by rewrite E1.
Qed.
Lemma get_alone {E} (wrap : CasError → E) key s ms :
  cas_inv s → run (get_ wrap key) (alone s ms) = (alone s ms, Some (Ok (cas_view s key))).
Proof. intros I. unfold run, get_. by rewrite alone_get. Qed.
Lemma put_alone {E} (wrap : CasError → E) key data s ms :
  cas_inv s → ∃ s' v, put_ wrap key data (alone s ms) = (alone s' ms, Some (Ok v)) ∧ cas_inv s' ∧
    cas_view s' key = Some (data, v) ∧ ∀ key', key' ≠ key → cas_view s' key' = cas_view s key'.
Proof.
  intros I. unfold put_, io_map_err, run. cbn [w_env alone length put_loop].
  set (k := λ r : res CasError Version, match r with Err (Conflict _) => Stuck | other => Ret other end).
  destruct (alone_put s ms key data (snd <$> cas_view s key) k I eq_refl) as (s' & v & _ & I' & V & O & X).
  exists s', v. rewrite exec_bind. unfold get_. rewrite alone_get by done.
  change (exec (alone s ms) (Ret (map_err id (Ok (cas_view s key))))) with (alone s ms, Some (@Ok CasError _ (cas_view s key))).
  cbv beta iota. setoid_rewrite X. done.
Qed.
(** Loading a shard manifest changes nothing; a readable one is read. *)
Lemma load_any key s ms : cas_inv s → ∃ r, load_shard key (alone s ms) = (alone s ms, Some r).
Proof.
  intros I. unfold load_shard, io_map_err, run, shard_load. rewrite exec_bind. unfold get_. rewrite alone_get by done.
  cbn [exec map_err]. destruct (cas_view s key) as [[d v]|]; [|by eexists]. rewrite exec_bind. cbn [exec].
  destruct (shard_decode d); by eexists.
Qed.
Lemma load_alone key s ms :
  served key s → load_shard key (alone s ms) = (alone s ms, Some (Ok (reading key s))).
Proof.
  intros Sv. unfold load_shard, io_map_err, run. by rewrite exec_load.
Qed.
End alone.

(** ** A source at rest *)
Section branching.
Context {S : Type} `{CasSnap S} `{SerdeManifestOk} `{SerdeShardOk}.
Implicit Types s : S.
Variable src_ref dst_ref : bytes.
Abbreviation src_shard := (shard_manifest (layout_new src_ref)).
Abbreviation dst_shard := (shard_manifest (layout_new dst_ref)).

(** The shard manifests of the source are readable and under their own
    keys, and the layer names they list parse. *)
Record source_ok s : Prop := {
  so_inv : cas_inv s;
  so_shards : ∀ key d v, cas_view s key = Some (d, v) →
    starts_with key (shards_dir (layout_new src_ref)) = true → ends_with key (str "/SHARD") = true →
    ∃ m ds, shard_decode d = Ok m ∧ key = src_shard (sm_shard m) ∧ mapM entry_desc (sm_layers m) = Ok ds
}.
Lemma source_served s key :
  source_ok s → starts_with key (shards_dir (layout_new src_ref)) = true → ends_with key (str "/SHARD") = true → served key s.
Proof.
  intros [I R] D E. split; [done|]. intros d v V. destruct (R key d v V D E) as (m & ds & M & _). eauto.
Qed.
Lemma source_shard s key m :
  source_ok s → starts_with key (shards_dir (layout_new src_ref)) = true → ends_with key (str "/SHARD") = true →
  listed key s = Some m →
  key = src_shard (sm_shard m) ∧ 0 ≤ sm_shard m ∧ shard_ok m ∧ ∃ ds, mapM entry_desc (sm_layers m) = Ok ds.
Proof.
  intros [I R] D E L. unfold listed in L. destruct (cas_view s key) as [[d v]|] eqn:V; [|done].
  destruct (R key d v V D E) as (m' & ds & M & K & P). rewrite M in L. injection L as <-.
  pose proof (shard_decode_ok _ _ M) as O. split_and!; [done| |done|eauto].
  destruct O as [(_ & F & _) _]. by destruct F.
Qed.

(** Every key [branch_shards] walks is a shard manifest key of the source,
    and every shard manifest of the source is walked. *)
Lemma shard_keys_ok s listing shards :
  (∀ key, key ∈ listing ↔ is_Some (cas_view s key) ∧ starts_with key (shards_dir (layout_new src_ref)) = true) →
  let keys := shard_keys src_ref listing shards in
  (∀ key, key ∈ keys → starts_with key (shards_dir (layout_new src_ref)) = true ∧ ends_with key (str "/SHARD") = true) ∧
  (∀ n, is_Some (cas_view s (src_shard n)) → src_shard n ∈ keys).
Proof.
  intros L keys. unfold keys, shard_keys. split.
  - intros key. rewrite set_of_elem, elem_of_app. intros [[Q Hk]%list_elem_of_filter|(n & -> & _)%list_elem_of_fmap].
    + apply L in Hk as [_ Hk]. split; [done|by apply Is_true_true].
    + split; [apply shard_manifest_dir|apply shard_manifest_end].
  - intros n V. rewrite set_of_elem. apply elem_of_app. left. apply list_elem_of_filter.
    split; [apply Is_true_true, shard_manifest_end|]. apply L. split; [done|apply shard_manifest_dir].
Qed.

(** The horizons are asked and nothing is written. *)
Lemma check_loop s ms at_ keys :
  source_ok s → (∀ key, key ∈ keys → starts_with key (shards_dir (layout_new src_ref)) = true ∧ ends_with key (str "/SHARD") = true) →
  (∀ key m h, key ∈ keys → listed key s = Some m → sm_horizon m = Some h → h ≤ at_) →
  for_each keys (check_horizon at_) (alone s ms) = (alone s ms, Some (Ok ())).
Proof.
  intros O. induction keys as [|key keys IH]; intros K Hh; [done|]. cbn [for_each].
  assert (C : check_horizon at_ key (alone s ms) = (alone s ms, Some (Ok ()))).
  { destruct (K key ltac:(by left)) as [D E]. pose proof (source_served _ _ O D E) as Sv. unfold check_horizon.
    erewrite io_ok by by apply load_alone. destruct (reading_spec key s Sv) as (_ & Rm & _).
    destruct (reading key s) as [[m v]|]; [|done]. cbn in Rm. destruct (sm_horizon m) as [h|] eqn:Em; [|done].
    unfold pure, guard_err. rewrite (proj2 (Z.ltb_ge _ _)); [done|]. eapply (Hh key m); eauto. by left. }
  erewrite io_ok by exact C. apply IH; [intros; apply K; by right|]. intros key' m h Hk. apply Hh. by right.
Qed.

(** ** The copies *)
Hypothesis no_slash : Lsn.slash ∉ src_ref ∧ Lsn.slash ∉ dst_ref.
Hypothesis distinct : src_ref ≠ dst_ref.
Lemma apart_keys key : under src_ref key → under dst_ref key → False.
Proof. intros A B. apply distinct. eapply tenant_prefixes_disjoint; [apply no_slash..|exact A|exact B]. Qed.

Lemma child_shard_ok at_ m c : shard_ok m → fits 8 at_ → child_shard src_ref at_ m = Ok c → shard_ok c.
Proof.
  intros [(F1 & F2 & F3 & F4 & F5 & F6) L] A E. unfold child_shard in E. apply bind_ok in E as (os & Eo & E). apply (inj Ok) in E as <-.
  split; [|done]. split_and!; [done|done|unfold fits in *; cbn; lia| |done|done]. cbn [sm_layers].
  clear F5 F6 L F1 F2 F3. revert os Eo. induction F4 as [|l ls Fl _ IH]; intros os Eo.
  { apply (inj Ok) in Eo as <-. constructor. }
  rewrite mapM_cons in Eo. apply bind_ok in Eo as (o & E1 & Eo). apply bind_ok in Eo as (os' & E2 & Eo).
  apply (inj Ok) in Eo as <-. specialize (IH _ E2). unfold cut_entry in E1. apply bind_ok in E1 as (d & _ & E1).
  destruct (at_ <? ld_min_lsn d); apply (inj Ok) in E1 as <-; [done|]. cbn [omap list_omap id]. constructor; [|done].
  destruct Fl as [Fs Fu]. split; [done|]. cbn [le_upto]. destruct ((at_ <? ld_max_lsn d) || _) eqn:C; [|done].
  destruct (le_upto l) as [u|]; cbn in *; unfold fits in *; lia.
Qed.

(** The child's manifests appear, one per shard of the source, and nothing
    else changes. *)
Lemma copy_loop s0 ms at_ keys s :
  source_ok s0 → fits 8 at_ → cas_inv s → (∀ key, under src_ref key → cas_view s key = cas_view s0 key) →
  (∀ key, key ∈ keys → starts_with key (shards_dir (layout_new src_ref)) = true ∧ ends_with key (str "/SHARD") = true) →
  ∃ s', for_each keys (copy_shard src_ref dst_ref at_) (alone s ms) = (alone s' ms, Some (Ok ())) ∧ cas_inv s' ∧
    (∀ key m, key ∈ keys → listed key s0 = Some m →
       ∃ c, child_shard src_ref at_ m = Ok c ∧ listed (dst_shard (sm_shard m)) s' = Some c) ∧
    (∀ key', (∀ key m, key ∈ keys → listed key s0 = Some m → key' ≠ dst_shard (sm_shard m)) →
       cas_view s' key' = cas_view s key').
Proof.
  intros O A. revert s. induction keys as [|key keys IH]; intros s I Same K.
  { exists s. split_and!; [done|done| |done]. intros key m Hk. by apply elem_of_nil in Hk. }
  destruct (K key ltac:(by left)) as [D E]. assert (U : under src_ref key) by by apply under_dir.
  assert (K' : ∀ key, key ∈ keys → starts_with key (shards_dir (layout_new src_ref)) = true ∧ ends_with key (str "/SHARD") = true)
    by (intros; apply K; by right).
  assert (Ls : listed key s = listed key s0) by (unfold listed; by rewrite Same).
  assert (Sv : served key s).
  { split; [done|]. intros d v. rewrite Same by done. apply (source_served _ _ O D E). }
  cbn [for_each]. destruct (reading_spec key s Sv) as (_ & Rm & _).
  assert (Hl : load_shard key (alone s ms) = (alone s ms, Some (Ok (reading key s)))) by by apply load_alone.
  destruct (reading key s) as [[m v]|] eqn:Er; cbn in Rm.
  - destruct (source_shard _ _ _ O D E ltac:(by rewrite <-Ls)) as (Ek & N & Om & ds & Ed).
    destruct (child_shard_layers src_ref at_ m ds Ed) as (c & Ec & _).
    destruct (put_alone (E := BranchError) BStore (dst_shard (sm_shard m)) (shard_encode c) s ms I) as (s1 & v1 & Ep & I1 & V1 & O1).
    assert (Cp : copy_shard src_ref dst_ref at_ key (alone s ms) = (alone s1 ms, Some (Ok ()))).
    { unfold copy_shard. erewrite io_ok by exact Hl. cbv beta iota. erewrite io_ok by (unfold pure; by rewrite Ec). by erewrite io_ok by exact Ep. }
    erewrite io_ok by exact Cp.
    destruct (IH s1) as (s' & Ef & I' & A1 & A2); [done| |done|].
    { intros key' Hu. rewrite O1; [by apply Same|]. intros ->. eapply apart_keys; [exact Hu|apply under_shard]. }
    exists s'. split_and!; [done|done| |].
    + intros key1 m1 [->|Hk]%elem_of_cons L1; [|by eapply A1]. assert (m1 = m) as -> by congruence.
      destruct (decide (key ∈ keys)) as [Hk|Hk]; [by eapply A1|]. exists c. split; [done|].
      unfold listed. rewrite A2, V1; [by rewrite shard_decode_encode by by eapply child_shard_ok|].
      intros key2 m2 Hk2 L2 Q. destruct (K' _ Hk2) as [D2 E2]. destruct (source_shard _ _ _ O D2 E2 L2) as (Ek2 & N2 & _).
      apply shard_manifest_inj in Q; [|done..]. apply Hk. by rewrite Ek, Q, <-Ek2.
    + intros key' Hk. rewrite A2 by (intros; eapply Hk; [by right|done]). apply O1. eapply Hk; [by left|]. by rewrite <-Ls.
  - assert (Cp : copy_shard src_ref dst_ref at_ key (alone s ms) = (alone s ms, Some (Ok ()))).
    { unfold copy_shard. by erewrite io_ok by exact Hl. }
    erewrite io_ok by exact Cp. destruct (IH s) as (s' & Ef & I' & A1 & A2); [done..|].
    exists s'. split_and!; [done|done| |].
    + intros key1 m1 [->|Hk]%elem_of_cons L1; [congruence|by eapply A1].
    + intros key' Hk. apply A2. intros; eapply Hk; [by right|done].
Qed.
End branching.

(** ** The child's manifest *)
Lemma rposition_some {A} (f : A → bool) l i :
  rposition f l = Some i → ∃ x, l !! i = Some x ∧ f x = true ∧ ∀ j y, (i < j)%nat → l !! j = Some y → f y = false.
Proof.
  revert i. induction l as [|a l IH]; intros i E; [done|]. cbn in E.
  assert (N : rposition f l = None → ∀ j y, l !! j = Some y → f y = false).
  { clear. induction l as [|b l IH]; intros E j y L; [done|]. cbn in E.
    destruct (rposition f l); [done|]. destruct (f b) eqn:Fb; [done|]. destruct j; [cbn in L; congruence|by eapply IH]. }
  destruct (rposition f l) as [j|].
  - injection E as <-. destruct (IH j eq_refl) as (x & L & Fx & La). exists x. split_and!; [done|done|].
    intros [|j'] y Hj; [lia|]. apply La. lia.
  - destruct (f a) eqn:Fa; [|done]. injection E as <-. exists a. split_and!; [done|done|].
    intros [|j'] y Hj; [lia|]. by apply N.
Qed.
Lemma child_of_spec parent src_ref dst_ref at_lsn now child :
  child_of parent src_ref dst_ref at_lsn now = Ok child →
  ∃ at_ c, m_branch_of child = Some (mkBranchOf src_ref at_) ∧ c ∈ m_checkpoints parent ∧ cr_lsn c = at_ ∧
    match at_lsn with Some a => at_ = a | None => last (m_checkpoints parent) = Some c end ∧
    m_shards child = m_shards parent ∧ m_tenant_ref child = dst_ref ∧ m_lease child = None ∧
    ∃ upto, m_checkpoints child = child_checkpoint src_ref <$> take upto (m_checkpoints parent).
Proof.
  unfold child_of. intros E. apply bind_ok in E as (newest & En & E). unfold ok_or in En.
  destruct (last (m_checkpoints parent)) as [z|] eqn:Ez; [|done]. apply (inj Ok) in En as <-.
  apply bind_ok in E as ([upto at_] & Ea & E). apply (inj Ok) in E as <-. cbn [m_branch_of m_shards m_checkpoints m_tenant_ref m_lease].
  destruct at_lsn as [a|].
  - destruct (rposition _ _) as [i|] eqn:R; [|done]. apply (inj Ok) in Ea. injection Ea as <- <-.
    apply rposition_some in R as (c & L & Lc & _). exists a, c. split_and!; [done| | |done|done|done|done|eauto].
    + by eapply list_elem_of_lookup_2. + by apply Z.eqb_eq.
  - apply (inj Ok) in Ea. injection Ea as <- <-. exists (cr_lsn z), z. split_and!; try done; [|eauto].
    by apply last_Some_elem_of.
Qed.
Lemma child_of_readable parent src_ref dst_ref at_lsn now child :
  readable parent → fits 8 now → child_of parent src_ref dst_ref at_lsn now = Ok child → readable child.
Proof.
  intros [F L] Fn E. pose proof (child_of_spec _ _ _ _ _ _ E) as (at_ & c & Eb & Hc & Ec & _ & _ & _ & _ & upto & _).
  destruct F as (F1 & F2 & F3 & F4 & F5 & F6 & F7 & F8 & F9 & F10 & F11 & F12). rewrite Forall_forall in F6.
  pose proof (F6 _ Hc) as Fa. rewrite Ec in Fa.
  unfold child_of in E. apply bind_ok in E as (newest & _ & E). apply bind_ok in E as ([upto' at'] & _ & E).
  apply (inj Ok) in E as <-. cbn in Eb. injection Eb as ->. split; [|cbn; unfold MANIFEST_FORMAT in *; lia].
  split_and!; cbn; try done; [unfold fits in *; lia|].
  apply Forall_fmap, Forall_forall. intros x Hx. apply (F6 x). eapply elem_of_take in Hx as (i & Hx & _).
  by eapply list_elem_of_lookup_2.
Qed.

(** C18: a branch of a source at rest writes the child and nothing else.  The
    destination does not exist, every shard manifest of the source is
    readable, under its own key and not past the branch point with its
    horizon.  Then [branch] returns the child's manifest, which is in the
    store and reads back; each shard of the source has a shard manifest of
    the child, cut at the branch point; every other object is as before. *)
Theorem branch_exact {S : Type} `{CasSnap S} `{SerdeManifestOk} `{SerdeShardOk} (s : S) (ms : Z)
    (src_ref dst_ref : bytes) (at_lsn : option Lsn) (now : Z) (d : bytes) (v : Version) (parent child : Manifest) (b : BranchOf) :
  Lsn.slash ∉ src_ref ∧ Lsn.slash ∉ dst_ref → src_ref ≠ dst_ref → source_ok src_ref s → fits 8 now →
  cas_view s (manifest_key (layout_new src_ref)) = Some (d, v) → from_json d = Ok parent →
  child_of parent src_ref dst_ref at_lsn now = Ok child → m_branch_of child = Some b →
  cas_view s (manifest_key (layout_new dst_ref)) = None →
  (∀ n m h, listed (shard_manifest (layout_new src_ref) n) s = Some m → sm_horizon m = Some h → h ≤ bo_at_lsn b) →
  ∃ s', branch src_ref dst_ref at_lsn now (alone s ms) = (alone s' ms, Some (Ok child)) ∧ cas_inv s' ∧
    (∃ d' v', cas_view s' (manifest_key (layout_new dst_ref)) = Some (d', v') ∧ from_json d' = Ok child) ∧
    (∀ n m, 0 ≤ n → listed (shard_manifest (layout_new src_ref) n) s = Some m →
       ∃ c, child_shard src_ref (bo_at_lsn b) m = Ok c ∧ listed (shard_manifest (layout_new dst_ref) n) s' = Some c) ∧
    (∀ key, key ≠ manifest_key (layout_new dst_ref) →
       (∀ n m, listed (shard_manifest (layout_new src_ref) n) s = Some m → key ≠ shard_manifest (layout_new dst_ref) n) →
       cas_view s' key = cas_view s key).
Proof.
  intros Ns Ne O Fn V Fj Ec Eb Vd Hh. pose proof (so_inv _ _ O) as I.
  pose proof (from_json_readable _ _ Fj) as Rp. pose proof (child_of_readable _ _ _ _ _ _ Rp Fn Ec) as Rc.
  destruct (child_of_spec _ _ _ _ _ _ Ec) as (at_ & ck & Eb' & Hck & Eck & _ & Es & _). rewrite Eb in Eb'. injection Eb' as ->.
  cbn [bo_at_lsn] in *. assert (Fa : fits 8 at_).
  { destruct Rp as [(_ & _ & _ & _ & _ & F & _) _]. rewrite Forall_forall in F. rewrite <-Eck. by apply F. }
  destruct (list_alone (E := BranchError) BStore (shards_dir (layout_new src_ref)) s ms I) as (listing & El & _ & Hl).
  destruct (shard_keys_ok src_ref s listing (m_shards parent) Hl) as [K1 K2]. set (keys := shard_keys _ _ _) in *.
  assert (Hk : ∀ key m, key ∈ keys → listed key s = Some m → key = shard_manifest (layout_new src_ref) (sm_shard m) ∧ 0 ≤ sm_shard m).
  { intros key m Hk L. destruct (K1 _ Hk) as [D E]. destruct (source_shard _ _ _ _ O D E L) as (? & ? & _). done. }
  assert (Ck : for_each keys (check_horizon at_) (alone s ms) = (alone s ms, Some (Ok ()))).
  { apply (check_loop src_ref); [done..|]. intros key m h Hin L Em. destruct (Hk _ _ Hin L) as [-> _]. by eapply Hh. }
  destruct (copy_loop src_ref dst_ref Ns Ne s ms at_ keys s O Fa I ltac:(done) K1) as (s1 & Ef & I1 & A1 & A2).
  assert (Vd1 : cas_view s1 (manifest_key (layout_new dst_ref)) = None).
  { rewrite A2; [done|]. intros key m _ _ Q. by apply (shard_not_manifest dst_ref (sm_shard m)). }
  edestruct (alone_put (E := BranchError) (A := ()) s1 ms (manifest_key (layout_new dst_ref)) (to_json child) None)
    as (s2 & v2 & _ & I2 & V2 & O2 & X); [done|by rewrite Vd1|].
  exists s2. split_and!; [|done| | |].
  - unfold branch. erewrite io_ok by by apply get_alone. rewrite V. cbn [ok_or]. erewrite io_ok by done. cbv beta iota.
    erewrite io_ok by (unfold pure; by rewrite Fj). unfold branch_from. erewrite io_ok by (unfold pure; by rewrite Ec).
    erewrite io_ok by (unfold pure, branch_point; by rewrite Eb). cbn [bo_at_lsn].
    erewrite io_ok; [|unfold branch_shards; erewrite io_ok by exact El; fold keys; erewrite io_ok by exact Ck; exact Ef].
    erewrite io_ok; [done|]. unfold publish_child, run. etrans; [apply X|]. done.
  - exists (to_json child), v2. split; [done|]. by apply readable_back.
  - intros n m N L. assert (Hin : shard_manifest (layout_new src_ref) n ∈ keys).
    { apply K2. unfold listed in L. destruct (cas_view s (shard_manifest (layout_new src_ref) n)); [by eexists|done]. }
    destruct (Hk _ _ Hin L) as [Q Nm]. apply shard_manifest_inj in Q as ->; [|done..].
    destruct (A1 _ _ Hin L) as (c & Ec' & Lc). exists c. split; [done|]. unfold listed in *.
    by rewrite O2 by apply shard_not_manifest.
  - intros key Hn Hs. rewrite O2 by done. apply A2. intros key' m Hin L. destruct (Hk _ _ Hin L) as [-> _]. by eapply Hs.
Qed.
