(* ===== verification/BranchHistory.v ===== *)
(** * BranchHistory: refusals, snapshots and lineage

    What a refused branch leaves behind, which snapshot a point in time
    gets, where the walk through a branch's ancestors ends, and runs that
    show what can go wrong while others act. *)
From S2P Require Import Prelude Order Text Lsn Externals Frame Bloom LayerKey Layer LayerMap Cas Layout Prog Manifest ShardManifest Shards Branch BranchReads BranchProofs.

(** ** Refusals *)
(** Errors found before anything is written. *)
Definition early (e : BranchError) : Prop :=
  match e with
  | NoSource _ | NoCheckpoint | AtLsnUnavailable _ | BelowHorizon _ _ _ | BManifest _ | NoHistory _ => True
  | _ => False
  end.

Section refusals.
Context {S : Type} `{CasSnap S} `{SerdeManifestOk} `{SerdeShardOk}.
Implicit Types s : S.

(** A computation that leaves the store alone. *)
Definition reads {A} (p : io S BranchError A) : Prop :=
  ∀ s ms, cas_inv s → ∃ r, p (alone s ms) = (alone s ms, Some r).
(** A computation whose errors are not early ones. *)
Definition late {A} (p : io S BranchError A) : Prop :=
  ∀ w w' e, p w = (w', Some (Err e)) → ¬ early e.
(** One that is the first and then the second. *)
Definition refuses_clean {A} (p : io S BranchError A) : Prop :=
  ∀ s ms w e, cas_inv s → p (alone s ms) = (w, Some (Err e)) → early e → w = alone s ms.

Lemma reads_pure {A} (r : res BranchError A) : reads (pure r).
Proof. intros s ms I. by eexists. Qed.
Lemma branch_reads_bind {A B} (p : io S BranchError A) (f : A → io S BranchError B) : reads p → (∀ a, reads (f a)) → reads (p ≫= f).
Proof.
  intros P F s ms I. destruct (P s ms I) as [r E]. unfold mbind, io_bind. rewrite E. destruct r as [a|e|]; [by apply F|by eexists..].
Qed.
Lemma reads_each {A} (xs : list A) body : (∀ x, reads (body x)) → reads (for_each xs body).
Proof. intros B. induction xs; [by apply (reads_pure (Ok ()))|]. apply branch_reads_bind; [apply B|done]. Qed.
Lemma late_bind {A B} (p : io S BranchError A) (f : A → io S BranchError B) : late p → (∀ a, late (f a)) → late (p ≫= f).
Proof.
  intros P F w w' e E. unfold mbind, io_bind in E. destruct (p w) as [w1 [[a|e1|]|]] eqn:Ep; [by eapply F| |done|done].
  injection E as <- <-. by eapply P.
Qed.
Lemma late_each {A} (xs : list A) body : (∀ x, late (body x)) → late (for_each xs body).
Proof. intros B. induction xs; [by intros w w' e [=]|]. apply late_bind; [apply B|done]. Qed.
Lemma late_wrapped {F A} (wrap : F → BranchError) (p : io S F A) : (∀ e, ¬ early (wrap e)) → late (io_map_err wrap p).
Proof.
  intros W w w' e. unfold io_map_err. destruct (p w) as [w1 [[a|e1|]|]]; cbn; try done. intros [= <- <-]. apply W.
Qed.
Lemma clean_then {A B} (p : io S BranchError A) (f : A → io S BranchError B) :
  reads p → (∀ a, refuses_clean (f a)) → refuses_clean (p ≫= f).
Proof.
  intros P F s ms w e I E Ee. destruct (P s ms I) as [r Er]. unfold mbind, io_bind in E. rewrite Er in E.
  destruct r as [a|e1|]; [by eapply F|by injection E|done].
Qed.
Lemma clean_late {A} (p : io S BranchError A) : late p → refuses_clean p.
Proof. intros L s ms w e I E Ee. by apply L in E. Qed.

Lemma branch_reads_load key : reads (load_shard key).
Proof. intros s ms I. by apply load_any. Qed.
Lemma reads_check at_ key : reads (check_horizon at_ key).
Proof.
  apply branch_reads_bind; [apply branch_reads_load|]. intros [[m v]|]; [|apply (reads_pure (Ok ()))].
  destruct (sm_horizon m); [apply reads_pure|apply (reads_pure (Ok ()))].
Qed.
Lemma late_copy src_ref dst_ref at_ key : late (copy_shard src_ref dst_ref at_ key).
Proof.
  apply late_bind; [apply late_wrapped; auto|]. intros [[m v]|]; [|by intros w w' e [=]].
  apply late_bind. { intros w w' e. unfold pure. destruct (child_shard src_ref at_ m); cbn; [done| |done]. intros [= <- <-]. auto. }
  intros c. apply late_bind; [intros w; apply late_wrapped; auto|]. by intros _ w w' e [=].
Qed.
Lemma late_publish dst_ref child : late (publish_child dst_ref child).
Proof.
  intros w w' e. unfold publish_child, run. cbn. destruct (put_if_match _ _ _ _) as [s' [v|[]|]]; cbn;
    intros E; injection E as; subst; auto; done.
Qed.
Lemma branch_from_clean parent src_ref dst_ref at_lsn now : refuses_clean (branch_from parent src_ref dst_ref at_lsn now).
Proof.
  apply clean_then; [apply reads_pure|]. intros child. apply clean_then; [apply reads_pure|]. intros at_.
  intros s ms w e I E Ee. unfold branch_shards in E. destruct (list_alone (E := BranchError) BStore (shards_dir (layout_new src_ref)) s ms I) as (listing & El & _).
  unfold mbind, io_bind in E. rewrite El in E.
  destruct (reads_each (shard_keys src_ref listing (m_shards parent)) _ (reads_check at_) s ms I) as [r Er]. rewrite Er in E.
  destruct r as [[]|e1|]; [|by injection E|done].
  destruct (for_each _ (copy_shard src_ref dst_ref at_) (alone s ms)) as [w1 [[[]|e1|]|]] eqn:Ef; [| |done|done].
  - destruct (publish_child dst_ref child w1) as [w2 [[[]|e2|]|]] eqn:Ep; try done. injection E as <- <-. by apply late_publish in Ep.
  - injection E as <- <-. apply late_each in Ef; [done|]. apply late_copy.
Qed.

(** C19: what is refused for a reason found up front writes nothing.  A
    missing source, a source without checkpoints, a branch point that is no
    checkpoint or is below a shard's horizon, an unreadable manifest or a
    time before all history leave the store as it was. *)
Theorem branch_refuses_clean (s : S) (ms : Z) (src_ref dst_ref : bytes) (at_lsn : option Lsn) (unix_ts now : Z) (w : world S) (e : BranchError) :
  cas_inv s → early e →
  branch src_ref dst_ref at_lsn now (alone s ms) = (w, Some (Err e)) ∨
  materialize_at src_ref dst_ref unix_ts now (alone s ms) = (w, Some (Err e)) →
  w = alone s ms.
Proof.
  intros I Ee [E|E]; revert s ms w e I E Ee.
  - apply clean_then; [intros s ms I; rewrite get_alone by done; by eexists|]. intros cur.
    apply clean_then; [apply reads_pure|]. intros [d v]. apply clean_then; [apply reads_pure|]. intros parent. apply branch_from_clean.
  - apply clean_then; [|intros parent; apply branch_from_clean]. apply branch_reads_bind.
    { intros s ms I. destruct (list_alone (E := BranchError) BStore (manifests_dir (layout_new src_ref)) s ms I) as (l & -> & _). by eexists. }
    intros listing. apply branch_reads_bind; [apply reads_pure|]. intros [b key]. apply branch_reads_bind.
    { intros s ms I. rewrite get_alone by done. by eexists. }
    intros cur. apply branch_reads_bind; [apply reads_pure|]. intros [d v]. apply reads_pure.
Qed.
End refusals.

(** ** Points in time *)
Lemma history_unix_key t epoch unix :
  0 ≤ epoch → 0 ≤ unix ≤ u64_max → history_unix (manifests_dir t) (manifest_history t epoch unix) = Some unix.
Proof.
  intros Ep U. unfold history_unix, manifest_history, manifests_dir.
  replace (tl_prefix t ++ str "/manifests/" ++ fmt_dec 16 epoch ++ str "-" ++ fmt_dec 16 unix ++ str ".json")
    with ((tl_prefix t ++ str "/manifests/") ++ (fmt_dec 16 epoch ++ hyphen :: fmt_dec 16 unix) ++ str ".json")
    by by rewrite <-!app_assoc.
  rewrite strip_prefix_app. cbn [mbind option_bind]. rewrite strip_suffix_app. cbn [mbind option_bind].
  rewrite split_once_app.
  - cbn [mbind option_bind]. by apply (from_str_fmt _ 10 ltac:(lia) good_dec).
  - unfold fmt_dec, fmt_radix. apply (fix_digits_no_sep); try lia. intros d Hd. apply digit_lower_not_hyphen. lia.
Qed.
Lemma history_unix_dir dir key u : history_unix dir key = Some u → starts_with key dir = true.
Proof. unfold history_unix, starts_with. destruct (strip_prefix dir key); [done|]. done. Qed.

Section history.
Context {S : Type} `{CasSnap S} `{SerdeManifestOk} `{SerdeShardOk}.
Implicit Types s : S.

(** A snapshot of the source taken at [stamp]. *)
Definition taken s (src_ref : bytes) (stamp : Z) (key : bytes) : Prop :=
  is_Some (cas_view s key) ∧ history_unix (manifests_dir (layout_new src_ref)) key = Some stamp.

Definition best_of (dir : bytes) (unix_ts : Z) (seen : list bytes) (best : option (Z * bytes)) : Prop :=
  match best with
  | Some (stamp, key) => key ∈ seen ∧ history_unix dir key = Some stamp ∧ stamp ≤ unix_ts ∧
      ∀ key' stamp', key' ∈ seen → history_unix dir key' = Some stamp' → stamp' ≤ unix_ts →
        stamp' < stamp ∨ stamp' = stamp ∧ ole key' key
  | None => ∀ key' stamp', key' ∈ seen → history_unix dir key' = Some stamp' → unix_ts < stamp'
  end.
Lemma pick_best dir unix_ts seen keys best :
  StronglySorted olt (seen ++ keys) → best_of dir unix_ts seen best →
  best_of dir unix_ts (seen ++ keys) (foldl (pick dir unix_ts) best keys).
Proof.
  revert seen best. induction keys as [|key keys IH]; intros seen best Srt B; [by rewrite app_nil_r|].
  cbn [foldl]. replace (seen ++ key :: keys) with ((seen ++ [key]) ++ keys) in * by by rewrite <-app_assoc.
  apply IH; [done|]. assert (Le : ∀ key', key' ∈ seen → ole key' key).
  { intros key' Hk. apply olt_ole. eapply StronglySorted_app_1_elem_of; [eapply StronglySorted_app_1_l, Srt|done|by left]. }
  clear IH Srt. unfold pick. destruct (history_unix dir key) as [stamp|] eqn:Hs; cycle 1.
  { destruct best as [[b bk]|]; cbn in *; [|intros key' st [Hk| ->%list_elem_of_singleton]%elem_of_app; [eauto|congruence]].
    destruct B as (B1 & B2 & B3 & B4). split_and!; [set_solver|done|done|].
    intros key' st [Hk| ->%list_elem_of_singleton]%elem_of_app; [eauto|congruence]. }
  destruct ((stamp <=? unix_ts) && _) eqn:C.
  - apply andb_true_iff in C as [C1 C2]. zbool. cbn. split_and!; [set_solver|done|done|].
    intros key' st [Hk| ->%list_elem_of_singleton]%elem_of_app Hst Lst; [|right; split; [congruence|apply ole_refl]].
    destruct best as [[b bk]|]; cbn in B.
    + destruct B as (_ & _ & _ & B4). zbool. destruct (B4 _ _ Hk Hst Lst) as [?|[? ?]]; [left; lia|].
      destruct (decide (st = stamp)); [right; split; [done|by apply Le]|left; lia].
    + specialize (B _ _ Hk Hst). lia.
  - destruct best as [[b bk]|]; cbn in *.
    + destruct B as (B1 & B2 & B3 & B4). split_and!; [set_solver|done|done|].
      intros key' st [Hk| ->%list_elem_of_singleton]%elem_of_app Hst Lst; [eauto|]. left.
      apply andb_false_iff in C as [C|C]; zbool; assert (st = stamp) by congruence; lia.
    + intros key' st [Hk| ->%list_elem_of_singleton]%elem_of_app Hst; [eauto|]. rewrite andb_true_r in C. zbool. congruence.
Qed.

(** A point in time is the newest snapshot at or before it.  When the
    source has no such snapshot [snapshot_at] says so; otherwise it answers
    with the manifest stored under the latest stamp that is not past the
    time asked for, the greatest key (so the highest epoch) winning among
    equal stamps, and the store is not touched. *)
Theorem snapshot_newest s (ms : Z) (src_ref : bytes) (unix_ts : Z) :
  cas_inv s →
  ((∀ stamp key, taken s src_ref stamp key → unix_ts < stamp) ∧
   snapshot_at src_ref unix_ts (alone s ms) = (alone s ms, Some (Err (NoHistory unix_ts)))) ∨
  (∃ stamp key d v, taken s src_ref stamp key ∧ stamp ≤ unix_ts ∧ cas_view s key = Some (d, v) ∧
     (∀ stamp' key', taken s src_ref stamp' key' → stamp' ≤ unix_ts → stamp' < stamp ∨ stamp' = stamp ∧ ole key' key) ∧
     snapshot_at src_ref unix_ts (alone s ms) = (alone s ms, Some (map_err BManifest (from_json d)))).
Proof.
  intros I. set (dir := manifests_dir (layout_new src_ref)).
  destruct (list_alone (E := BranchError) BStore dir s ms I) as (keys & El & Srt & Hl).
  pose proof (pick_best dir unix_ts [] keys None Srt) as P. cbn [app] in P.
  assert (T : ∀ stamp key, taken s src_ref stamp key ↔ key ∈ keys ∧ history_unix dir key = Some stamp).
  { intros stamp key. unfold taken. fold dir. rewrite Hl. split; [|tauto]. intros [V Hu]. split_and!; [done| |done].
    by eapply history_unix_dir. }
  unfold snapshot_at. fold dir. erewrite io_ok by exact El. cbv zeta.
  destruct (foldl (pick dir unix_ts) None keys) as [[stamp key]|].
  - right. destruct P as (P1 & P2 & P3 & P4); [by intros ? ? ?%elem_of_nil|].
    assert (Tk : taken s src_ref stamp key) by by apply T. destruct (proj1 Tk) as [[d v] V].
    exists stamp, key, d, v. split_and!; [done|done|done|intros st key' [Hk Hs]%T; by apply P4|].
    erewrite io_ok by done. cbv beta iota. erewrite io_ok by by apply get_alone. rewrite V. by erewrite io_ok by done.
  - left. split; [|by erewrite io_err by done]. intros stamp key [Hk Hs]%T.
    eapply P; [by intros ? ? ?%elem_of_nil|done|done].
Qed.
End history.

(** ** Lineage *)
Section lineage.
Context {S : Type} `{CasSnap S} `{SerdeManifestOk} `{SerdeShardOk}.
Implicit Types s : S.

(** The parent a tenant's manifest names. *)
Definition parent_of s (t : bytes) : option bytes :=
  '(d, _) ← cas_view s (manifest_key (layout_new t));
  match from_json d with Ok m => bo_ref <$> m_branch_of m | _ => None end.
Definition manifests_readable s : Prop :=
  ∀ t d v, cas_view s (manifest_key (layout_new t)) = Some (d, v) → ∃ m, from_json d = Ok m.
(** Each tenant of the chain names the next as its parent. *)
Fixpoint linked s (chain : list bytes) : Prop :=
  match chain with
  | a :: (b :: _) as rest => parent_of s a = Some b ∧ linked s rest
  | _ => True
  end.
Lemma linked_snoc s chain a b : linked s (chain ++ [a]) → parent_of s a = Some b → linked s ((chain ++ [a]) ++ [b]).
Proof.
  intros L P. induction chain as [|x chain IH]; [done|]. destruct chain as [|y chain]; cbn in *; [by split_and!; try apply L|].
  destruct L as [L1 L2]. split; [done|by apply IH].
Qed.
Lemma manifest_key_inj a b : manifest_key (layout_new a) = manifest_key (layout_new b) → a = b.
Proof.
  unfold manifest_key, layout_new. cbn [tl_prefix]. rewrite <-!app_assoc. intros E%app_inv_head. by apply app_inv_tail in E.
Qed.
(** All but the last of a linked chain have manifests. *)
Lemma branch_linked_present s chain a t :
  linked s (chain ++ [a]) → t ∈ chain → is_Some (cas_view s (manifest_key (layout_new t))).
Proof.
  revert t. induction chain as [|x chain IH]; intros t L Ht; [by apply elem_of_nil in Ht|].
  assert (∃ y rest, chain ++ [a] = y :: rest) as (y & rest & Ey) by (destruct chain; cbn; eauto).
  cbn in L. rewrite Ey in L. destruct L as [P L]. apply elem_of_cons in Ht as [->|Ht].
  - unfold parent_of in P. destruct (cas_view s _) as [[d v]|]; [by eexists|done].
  - apply IH; [by rewrite Ey|done].
Qed.

Lemma lineage_run s ms keys :
  cas_inv s → manifests_readable s → (∀ t, is_Some (cas_view s (manifest_key (layout_new t))) → manifest_key (layout_new t) ∈ keys) →
  ∀ fuel chain a, NoDup (chain ++ [a]) → linked s (chain ++ [a]) → (length keys < fuel + length chain)%nat →
  ∃ z rest, let full := chain ++ a :: rest in
    lineage_loop fuel (chain ++ [a]) a (alone s ms) = (alone s ms, Some (Ok full)) ∧ NoDup full ∧ linked s full ∧
    last full = Some z ∧ (parent_of s z = None ∨ ∃ p, parent_of s z = Some p ∧ p ∈ full).
Proof.
  intros I R Hk fuel. induction fuel as [|fuel IH]; intros chain a N L F.
  { exfalso. apply NoDup_app in N as (N & _ & _).
    assert (Sub : (λ t, manifest_key (layout_new t)) <$> chain ⊆+ keys).
    { apply NoDup_submseteq.
      - apply NoDup_fmap_2; [|done]. intros x y. apply manifest_key_inj.
      - intros x (t & -> & Ht)%list_elem_of_fmap. apply Hk. by eapply branch_linked_present. }
    apply submseteq_length in Sub. rewrite length_fmap in Sub. lia. }
  cbn [lineage_loop]. erewrite io_ok by by apply get_alone.
  assert (P : parent_of s a = '(d, _) ← cas_view s (manifest_key (layout_new a));
    match from_json d with Ok m => bo_ref <$> m_branch_of m | _ => None end) by done.
  destruct (cas_view s (manifest_key (layout_new a))) as [[d v]|] eqn:V; cbn in P.
  2: { exists a, []. split_and!; [done|done|done|by rewrite last_snoc|by left]. }
  destruct (R a d v V) as [m Em]. rewrite Em in P. erewrite io_ok by (unfold pure; by rewrite Em).
  destruct (m_branch_of m) as [b|]; cbn in P.
  2: { exists a, []. split_and!; [done|done|done|by rewrite last_snoc|by left]. }
  case_bool_decide as C.
  { exists a, []. split_and!; [done|done|done|by rewrite last_snoc|by right; eauto]. }
  destruct (IH (chain ++ [a]) (bo_ref b)) as (z & rest & E & N' & L' & La & Pz).
  - apply NoDup_app. split_and!; [done| |apply NoDup_singleton]. intros x Hx ->%list_elem_of_singleton. done.
  - by apply linked_snoc.
  - rewrite length_app. cbn. lia.
  - exists z, (bo_ref b :: rest). assert (A : (chain ++ [a]) ++ bo_ref b :: rest = chain ++ a :: bo_ref b :: rest) by by rewrite <-app_assoc.
    cbv zeta. rewrite A in E, N', L', La, Pz. done.
Qed.

(** C37: the walk through a branch's ancestors ends and is the lineage.  With
    one turn more than there are objects in the store, [lineage] answers the
    chain that begins with the tenant, in which each names the next as its
    parent and nobody is named twice, and whose last tenant has no parent or
    one already in the chain: a cycle of manifests ends the walk too. *)
Theorem lineage_exact s (ms : Z) (tenant_ref : bytes) (keys : list bytes) (fuel : nat) :
  cas_inv s → manifests_readable s → cas_list s (str "tenants/") = Ok keys → (length keys < fuel)%nat →
  ∃ z rest, let full := tenant_ref :: rest in
    lineage fuel tenant_ref (alone s ms) = (alone s ms, Some (Ok full)) ∧ NoDup full ∧ linked s full ∧
    last full = Some z ∧ (parent_of s z = None ∨ ∃ p, parent_of s z = Some p ∧ p ∈ full).
Proof.
  intros I R El F. destruct (cas_list_ok s (str "tenants/") I) as (keys' & El' & _ & Hl).
  assert (keys' = keys) as -> by congruence.
  assert (Hk : ∀ t, is_Some (cas_view s (manifest_key (layout_new t))) → manifest_key (layout_new t) ∈ keys).
  { intros t V. apply Hl. split; [done|]. unfold manifest_key, layout_new. cbn [tl_prefix]. rewrite <-!app_assoc. apply starts_with_app. }
  refine (lineage_run s ms keys I R Hk fuel [] tenant_ref (NoDup_singleton _) Logic.I _). cbn. lia.
Qed.
End lineage.

(** ** Concrete tenants *)
Module BranchWitness.
Import ManifestConcrete ShardWitness.
Definition p : bytes := str "p".
Definition c : bytes := str "c".
Definition k (b : Z) : LayerKey := key_page 1663 5 16384 0 b.
Definition delta_entry (lo hi : Lsn) : LayerEntry := mkEntry (desc_name (desc_delta (k 0) (k 9) lo hi)) 1000 None None.
Definition image_entry (lsn : Lsn) : LayerEntry := mkEntry (desc_name (desc_image (k 0) (k 9) lsn)) 1000 None None.
Definition parent : Manifest :=
  mkManifest 2 p 3 None (mkPg 18 1) [mkCheckpoint (str "f1") 256 CkFull None; mkCheckpoint (str "d2") 512 CkDelta None]
    (Some 512) None None 1 [] None.
(** An image, a delta before the branch point, one across it, and an image
    past it. *)
Definition shard0 : PageShardManifest :=
  mkShard 1 0 768 [image_entry 256; delta_entry 257 384; delta_entry 240 768; image_entry 640] None None.
Definition mkey (t : bytes) : bytes := manifest_key (layout_new t).
Definition skey (t : bytes) : bytes := shard_manifest (layout_new t) 0.
Definition put (s : MemStore) (key data : bytes) : MemStore := (put_if_absent s key data).1.
Definition store : MemStore := put (put ms_new (mkey p) (to_json parent)) (skey p) (shard_encode shard0).
Definition child : Manifest := match child_of parent p c (Some 512) 5000 with Ok m => m | _ => parent end.

Lemma store_inv : cas_inv store.
Proof. by apply put_if_absent_inv, put_if_absent_inv. Qed.
Lemma put_view s key data key' d v : cas_inv s →
  cas_view (put s key data) key' = Some (d, v) → cas_view s key' = Some (d, v) ∨ key' = key ∧ d = data.
Proof.
  intros I V. unfold put, put_if_absent in V. pose proof (put_if_match_ok s key data None I) as P.
  destruct (put_if_match s key data None) as [s' r]. destruct P as [_ P]. cbn [fst] in V. case_bool_decide.
  - destruct P as (v' & _ & V' & O). destruct (decide (key' = key)) as [->|N]; [right; split; congruence|left]. by rewrite <-O.
  - destruct P as [_ ->]. by left.
Qed.
(** The store holds the two objects and no other. *)
Lemma store_views key d v : cas_view store key = Some (d, v) → key = mkey p ∧ d = to_json parent ∨ key = skey p ∧ d = shard_encode shard0.
Proof.
  intros [[V|V]%put_view|V]%put_view; [done|by left|apply ms_new_ok|by right|by apply put_if_absent_inv].
Qed.
Lemma shard0_decodes : shard_decode (shard_encode shard0) = Ok shard0.
Proof. apply shard_decode_encode. apply (bool_decide_unpack _). by vm_compute. Qed.
Lemma shard0_listed : listed (skey p) store = Some shard0.
Proof. by vm_compute. Qed.
Lemma p_source : source_ok p store.
Proof.
  split; [apply store_inv|]. intros key d v V D E. apply store_views in V as [[-> ->]|[-> ->]].
  - by vm_compute in D.
  - eexists shard0, _. split; [exact shard0_decodes|]. split; [reflexivity|]. by vm_compute.
Qed.
Lemma parent_reads : from_json (to_json parent) = Ok parent.
Proof. apply readable_back. apply (bool_decide_unpack _). by vm_compute. Qed.
Lemma no_horizons n m h : listed (shard_manifest (layout_new p) n) store = Some m → sm_horizon m = Some h → h ≤ 512.
Proof.
  unfold listed. destruct (cas_view store _) as [[d v]|] eqn:V; [|done]. apply store_views in V as [[Q _]|[_ ->]].
  - by apply shard_not_manifest in Q.
  - rewrite shard0_decodes. by intros [= <-].
Qed.

Lemma branch_exact_witness :
  ∃ s', branch p c (Some 512) 5000 (alone store 0) = (alone s' 0, Some (Ok child)) ∧
    ∃ sh, child_shard p 512 shard0 = Ok sh ∧ listed (skey c) s' = Some sh.
Proof.
  destruct (branch_exact store 0 p c (Some 512) 5000 (to_json parent) (str "1") parent child (mkBranchOf p 512))
    as (s' & E & _ & _ & Sh & _).
  - split; apply (bool_decide_unpack _); by vm_compute.
  - done.
  - apply p_source.
  - by vm_compute.
  - by vm_compute.
  - apply parent_reads.
  - by vm_compute.
  - by vm_compute.
  - by vm_compute.
  - exact no_horizons.
  - exists s'. split; [exact E|]. apply (Sh 0 shard0); [done|exact shard0_listed].
Defined.

(** A branch point off the checkpoints is refused. *)
Lemma branch_refuses_clean_witness :
  ∃ w, branch p c (Some 384) 5000 (alone store 0) = (w, Some (Err (AtLsnUnavailable 384))) ∧ w = alone store 0.
Proof.
  destruct (branch p c (Some 384) 5000 (alone store 0)) as [w r] eqn:E. exists w.
  assert (r = Some (Err (AtLsnUnavailable 384))) as ->.
  { assert (Q : (branch p c (Some 384) 5000 (alone store 0)).2 = Some (Err (AtLsnUnavailable 384))) by by vm_compute.
    by rewrite E in Q. }
  split; [reflexivity|]. apply (branch_refuses_clean store 0 p c (Some 384) 0 5000 w (AtLsnUnavailable 384)); [apply store_inv|exact Logic.I|].
  left. exact E.
Defined.

(** Two snapshots, the later one past the time asked for. *)
Definition dated : MemStore :=
  put (put store (manifest_history (layout_new p) 3 1000) (to_json parent)) (manifest_history (layout_new p) 3 3000) (to_json parent).
Lemma snapshot_newest_witness :
  ∃ stamp key, taken dated p stamp key ∧ stamp ≤ 2500 ∧ (snapshot_at p 2500 (alone dated 0)).2 = Some (Ok parent).
Proof.
  destruct (snapshot_newest dated 0 p 2500) as [[N _]|(stamp & key & d & v & T & L & _ & _ & _)].
  - by apply put_if_absent_inv, put_if_absent_inv, store_inv.
  - exfalso. assert (Q : 2500 < 1000); [|lia]. apply (N 1000 (manifest_history (layout_new p) 3 1000)). split; [by eexists; vm_compute|by vm_compute].
  - exists stamp, key. split; [exact T|]. split; [exact L|]. by vm_compute.
Defined.

(** A grandchild's chain, and a cycle. *)
Definition family : MemStore :=
  w_store (branch c (str "g") None 6000 (alone (w_store (branch p c None 5000 (alone store 0)).1) 0)).1.
Example family_lineage :
  (lineage 20 (str "g") (alone family 0)).2 = Some (Ok [str "g"; c; p]) ∧ (lineage 20 p (alone family 0)).2 = Some (Ok [p]).
Proof. split; by vm_compute. Qed.
Definition looped : MemStore :=
  put ms_new (mkey p) (to_json (mkManifest 2 p 0 None (mkPg 18 1) [] None None (Some (mkBranchOf p 0)) 1 [] None)).
Lemma lineage_exact_witness :
  ∃ rest, lineage 3 p (alone looped 0) = (alone looped 0, Some (Ok (p :: rest))) ∧ NoDup (p :: rest).
Proof.
  destruct (lineage_exact looped 0 p [mkey p] 3) as (z & rest & E & N & _).
  - by apply put_if_absent_inv.
  - intros t d v [V|[_ ->]]%put_view; [discriminate V| |apply ms_new_ok].
    eexists. apply readable_back. apply (bool_decide_unpack _). by vm_compute.
  - by vm_compute.
  - cbn. lia.
  - exists rest. split; [exact E|exact N].
Defined.

(** ** What others can do to a branch, and a branch to others *)
Definition layers_of (t : bytes) (s : MemStore) : option (Lsn * list bytes) :=
  (λ m, (sm_disk_consistent_lsn m, le_name <$> sm_layers m)) <$> listed (skey t) s.
(** The destination exists: the branch is refused, after the destination's
    own list of layers was replaced by the source's. *)
Definition occupied : MemStore :=
  put (put store (mkey c) (to_json (manifest_new c 18))) (skey c) (shard_encode (mkShard 1 0 900 [delta_entry 800 900] None None)).
Example refused_branch_overwrites_destination :
  let '(w, r) := branch p c (Some 512) 5000 (alone occupied 0) in
  r = Some (Err (DestinationExists c)) ∧
  layers_of c occupied = Some (900, [le_name (delta_entry 800 900)]) ∧
  layers_of c (w_store w) = Some (512, le_name <$> [image_entry 256; delta_entry 257 384; delta_entry 240 768]).
Proof. by vm_compute. Qed.
(** A merge raises the horizon between the check and the copy: the branch
    succeeds, and the child has no layer left and a horizon past its branch
    point. *)
Definition merging (s : MemStore) : MemStore :=
  w_store (exec (alone s 0) (swap_layers 1 (skey p) 0 (le_name <$> sm_layers shard0) [image_entry 700] None (Some 700))).1.
Example horizon_moves_after_the_check :
  let '(w, r) := branch p c (Some 512) 5000 (mkWorld store 0 [id; id; id; merging]) in
  r = Some (Ok child) ∧ layers_of c (w_store w) = Some (512, []) ∧ (listed (skey c) (w_store w) ≫= sm_horizon) = Some 700.
Proof. by vm_compute. Qed.
End BranchWitness.
