(* ===== verification/Placement.v ===== *)
(** * Placement: which node serves which shard (crates/zou-store/src/placement.rs)

    The shard map is one object swapped through the store.  Rendezvous
    hashing places shards on the roster, pins override it, and a handshake
    of versions between clients and servers finds stale caches. *)
From S2P Require Import Prelude Order Text Externals Lsn Cas Prog Manifest.

Definition MAP_KEY : bytes := str "ctl/MAP".
Definition MAP_FORMAT : Z := 1.
Definition map_history (version : Z) : bytes := str "ctl/maps/" ++ fmt_dec 16 version ++ str ".json".

Inductive PlacementError :=
  | WrongShard (map_version : Z)
  | NoNodes
  | MapJson
  | MapFormatTooNew (found : Z)
  | PlacementStore (e : CasError).

Record Node := mkNode { nd_id : bytes; nd_addr : bytes }.
Record Pin := mkPin { pin_tenant : bytes; pin_shard : Z; pin_node : bytes }.
Record ShardMap := mkMap {
  sp_format : Z; sp_version : Z; sp_nodes : list Node; sp_pins : list Pin; sp_published_unix : option Z
}.
#[global] Instance Node_eq_dec : EqDecision Node.
Proof. solve_decision. Defined.
#[global] Instance Pin_eq_dec : EqDecision Pin.
Proof. solve_decision. Defined.
#[global] Instance ShardMap_eq_dec : EqDecision ShardMap.
Proof. solve_decision. Defined.

(** [ShardMap::empty] *)
Definition map_empty : ShardMap := mkMap MAP_FORMAT 0 [] [] None.

(** [serde_json] on the map. *)
Class SerdeMap := {
  map_peek : bytes → option Z;
  map_from_slice : bytes → option ShardMap;
  map_to_vec_pretty : ShardMap → bytes
}.
Definition map_fits (m : ShardMap) : Prop :=
  fits 4 (sp_format m) ∧ fits 8 (sp_version m) ∧ Forall (λ p, fits 2 (pin_shard p)) (sp_pins m) ∧
  match sp_published_unix m with Some u => fits 8 u | None => True end.
#[global] Instance map_fits_dec m : Decision (map_fits m).
Proof. unfold map_fits. destruct (sp_published_unix m); apply _. Defined.

Section map.
Context `{SerdeMap, Sha}.

(** [ShardMap::to_json], [ShardMap::from_json] *)
Definition map_to_json (m : ShardMap) : bytes := map_to_vec_pretty m ++ [Byte.x0a].
Definition map_from_json (data : bytes) : res PlacementError ShardMap :=
  format ← ok_or (map_peek data) MapJson;
  _ ← guard_err (MAP_FORMAT <? format) (MapFormatTooNew format);
  ok_or (map_from_slice data) MapJson.

(** [score]: the first eight bytes of the digest, big endian. *)
Definition score (node_id tenant_ref : bytes) (shard : Z) : Z :=
  le_val (rev (take 8 (sha256 (node_id ++ [Byte.x00] ++ tenant_ref ++ [Byte.x00] ++ le_bytes 2 shard)))).
(** [ShardMap::rank] *)
Definition by_score (a b : Z * Node) : bool := b.1 <=? a.1.
Definition rank (m : ShardMap) (tenant_ref : bytes) (shard : Z) : list Node :=
  snd <$> sort_by by_score ((λ n, (score (nd_id n) tenant_ref shard, n)) <$> sp_nodes m).
(** [ShardMap::node_for] *)
Definition pinned (m : ShardMap) (tenant_ref : bytes) (shard : Z) : option Node :=
  pin ← find (λ p, bool_decide (pin_tenant p = tenant_ref) && (pin_shard p =? shard)) (sp_pins m);
  find (λ n, bool_decide (nd_id n = pin_node pin)) (sp_nodes m).
Definition node_for (m : ShardMap) (tenant_ref : bytes) (shard : Z) : option Node :=
  match pinned m tenant_ref shard with Some n => Some n | None => head (rank m tenant_ref shard) end.

(** [load] *)
Definition load_map : prog PlacementError ShardMap :=
  cur ← get_ PlacementStore MAP_KEY;
  match cur with Some (data, _) => Ret (map_from_json data) | None => mret map_empty end.

(** [publish]; the edit may change anything. *)
Fixpoint publish (fuel : nat) (edit : ShardMap → ShardMap) : prog PlacementError ShardMap :=
  match fuel with
  | O => Stuck
  | S fuel =>
      cur ← get_ PlacementStore MAP_KEY;
      '(m, version) ← match cur with
                      | Some (data, version) => m ← Ret (map_from_json data); mret (m, Some version)
                      | None => mret (map_empty, None)
                      end;
      let m := edit m in
      v ← Ret (uadd (sp_version m) 1);
      Now (λ now,
        let m := mkMap (sp_format m) v (sp_nodes m) (sp_pins m) (Some now) in
        let after (r : res CasError Version) :=
          match r with
          | Ok _ => put_absent (map_history (sp_version m)) (map_to_json m)
                      (λ r, match r with Panic => Ret Panic | _ => mret m end)
          | Err (Conflict _) | Err (AlreadyExists _) => publish fuel edit
          | Err e => Ret (Err (PlacementStore e))
          | Panic => Ret Panic
          end in
        match version with
        | Some v => Put MAP_KEY (map_to_json m) (Some v) after
        | None => put_absent MAP_KEY (map_to_json m) after
        end)
  end.

(** ** The handshake *)
(** [MapClient::route], [MapClient::absorb], [MapServer::admit]: the cached
    map is passed along. *)
Definition route (map : ShardMap) (tenant_ref : bytes) (shard : Z) : res PlacementError Node :=
  ok_or (node_for map tenant_ref shard) NoNodes.
Definition absorb (map : ShardMap) (server_version : Z) : prog PlacementError ShardMap :=
  if sp_version map <? server_version then load_map else mret map.
Definition server_admit (node : bytes) (map : ShardMap) (tenant_ref : bytes) (shard client_version : Z) :
    prog PlacementError (ShardMap * res PlacementError Z) :=
  map ← (if sp_version map <? client_version then load_map else mret map);
  mret (map, match node_for map tenant_ref shard with
             | Some n => if bool_decide (nd_id n = node) then Ok (sp_version map) else Err (WrongShard (sp_version map))
             | None => Err (WrongShard (sp_version map))
             end).
(** [MapClient::new], [MapServer::new], [MapServer::refresh] *)
Definition client_new : prog PlacementError ShardMap := load_map.
Definition server_new (node_id : bytes) : prog PlacementError (bytes * ShardMap) := m ← load_map; mret (node_id, m).
Definition refresh (map : ShardMap) : prog PlacementError ShardMap := load_map.
End map.

(** What is serialized parses back, through the peek as well. *)
Class SerdeMapOk `{SerdeMap} : Prop := {
  map_parses : ∀ m, map_fits m → map_from_slice (map_to_json m) = Some m;
  map_peeks : ∀ m, map_fits m → map_peek (map_to_json m) = Some (sp_format m);
  map_in_range : ∀ d m, map_from_slice d = Some m → map_fits m;
  map_peek_format : ∀ d m f, map_from_slice d = Some m → map_peek d = Some f → f = sp_format m
}.

(** ** Rendezvous hashing *)
(** A stable sort commutes with leaving elements out. *)
Lemma insert_by_filter {A} (leb : A → A → bool) (P : A → Prop) `{!∀ x, Decision (P x)} x l :
  (∀ a b c, leb a b = true → leb b c = true → leb a c = true) → sorted_by leb l →
  filter P (insert_by leb x l) = if decide (P x) then insert_by leb x (filter P l) else filter P l.
Proof.
  intros T. induction l as [|y l IH]; intros Srt; [cbn [insert_by]; rewrite filter_cons; by case_decide|]. destruct Srt as [S1 S2]. cbn [insert_by].
  destruct (leb x y) eqn:C.
  - rewrite (filter_cons P x). case_decide; [|done].
    assert (F : ∀ z, z ∈ filter P (y :: l) → leb x z = true).
    { intros z [_ [->|Hz]%elem_of_cons]%list_elem_of_filter; [done|]. eapply T; [done|by apply S1]. }
    destruct (filter P (y :: l)) as [|z k]; [done|]. cbn. by rewrite F by by left.
  - rewrite !(filter_cons P y), IH by done. do 2 case_decide; cbn [insert_by]; by rewrite ?C.
Qed.
Lemma sort_by_filter {A} (leb : A → A → bool) (P : A → Prop) `{!∀ x, Decision (P x)} l :
  (∀ a b, leb a b = true ∨ leb b a = true) → (∀ a b c, leb a b = true → leb b c = true → leb a c = true) →
  filter P (sort_by leb l) = sort_by leb (filter P l).
Proof.
  intros Tot T. induction l as [|x l IH]; [done|]. cbn [sort_by foldr]. fold (sort_by leb l).
  rewrite insert_by_filter, IH, filter_cons; [|done|by apply sort_by_sorted]. by case_decide.
Qed.

Section placing.
Context `{SerdeMap, Sha}.

(** The map after a node left, and after one joined. *)
Definition without (id : bytes) (m : ShardMap) : ShardMap :=
  mkMap (sp_format m) (sp_version m) (filter (λ n, nd_id n ≠ id) (sp_nodes m)) (sp_pins m) (sp_published_unix m).
Definition joined (n : Node) (m : ShardMap) : ShardMap :=
  mkMap (sp_format m) (sp_version m) (sp_nodes m ++ [n]) (sp_pins m) (sp_published_unix m).

Lemma rank_without id m t shard : rank (without id m) t shard = filter (λ n, nd_id n ≠ id) (rank m t shard).
Proof.
  unfold rank. cbn [sp_nodes without].
  assert (F : ∀ (f : Node → Z) (l : list Node), filter (λ sn : Z * Node, nd_id sn.2 ≠ id) ((λ n, (f n, n)) <$> l) = (λ n, (f n, n)) <$> filter (λ n, nd_id n ≠ id) l).
  { intros f l. induction l as [|n l IH]; [done|]. rewrite fmap_cons, !filter_cons, IH. cbn [snd]. by case_decide. }
  rewrite <-F, <-sort_by_filter.
  - generalize (sort_by by_score ((λ n, (score (nd_id n) t shard, n)) <$> sp_nodes m)) as l.
    induction l as [|[s n] l IH]; [done|]. rewrite fmap_cons, !filter_cons. cbn [snd]. case_decide; by rewrite ?fmap_cons, IH.
  - intros a b. unfold by_score. rewrite !Z.leb_le. lia.
  - intros a b c. unfold by_score. rewrite !Z.leb_le. lia.
Qed.
Lemma find_filter {A} (f : A → bool) (P : A → Prop) `{!∀ x, Decision (P x)} l :
  (∀ x, f x = true → P x) → find f (filter P l) = find f l.
Proof.
  intros FP. induction l as [|x l IH]; [done|]. rewrite filter_cons. cbn. destruct (f x) eqn:C.
  - rewrite decide_True by auto. cbn. by rewrite C.
  - case_decide; cbn; [by rewrite C|done].
Qed.
Lemma leaving_keeps id m t shard n :
  node_for m t shard = Some n → nd_id n ≠ id → node_for (without id m) t shard = Some n.
Proof.
  unfold node_for, pinned. cbn [sp_pins sp_nodes without]. intros E Ne. rewrite rank_without.
  assert (Hd : head (rank m t shard) = Some n → head (filter (λ n, nd_id n ≠ id) (rank m t shard)) = Some n).
  { destruct (rank m t shard); [done|]. intros [= ->]. by rewrite filter_cons_True. }
  destruct (find _ (sp_pins m)) as [pin|]; cbn in *; [|auto].
  destruct (decide (pin_node pin = id)) as [Ei|Ei].
  - assert (N : find (λ n, bool_decide (nd_id n = pin_node pin)) (filter (λ n, nd_id n ≠ id) (sp_nodes m)) = None).
    { destruct (find _ (filter _ _)) as [x|] eqn:F; [|done]. apply find_some in F as [Hx Ex%bool_decide_eq_true].
      apply list_elem_of_In, list_elem_of_filter in Hx as [? _]. congruence. }
    rewrite N. destruct (find _ (sp_nodes m)) as [x|] eqn:F; [|auto]. injection E as ->.
    apply find_some in F as [_ F%bool_decide_eq_true]. congruence.
  - rewrite find_filter; [|intros x Hx%bool_decide_eq_true; congruence].
    destruct (find _ (sp_nodes m)); auto.
Qed.

(** A roster change moves only what it must.  When a node leaves, the
    ranking of the others is as it was with the node struck out, and every
    shard that was not on it, pinned or hashed, stays where it was.  When a
    node with an id of its own joins, every shard is where it was or on the
    new node. *)
Theorem placement_minimal (m : ShardMap) (tenant_ref : bytes) (shard : Z) (id : bytes) (y : Node) :
  nd_id y ∉ nd_id <$> sp_nodes m →
  rank (without id m) tenant_ref shard = filter (λ n, nd_id n ≠ id) (rank m tenant_ref shard) ∧
  (∀ n, node_for m tenant_ref shard = Some n → nd_id n ≠ id → node_for (without id m) tenant_ref shard = Some n) ∧
  (∀ n, node_for (joined y m) tenant_ref shard = Some n → n = y ∨ node_for m tenant_ref shard = Some n).
Proof.
  intros N. split; [apply rank_without|]. split; [intros n; apply leaving_keeps|].
  intros n E. destruct (decide (nd_id n = nd_id y)) as [Ei|Ei].
  - left. assert (Hn : n ∈ sp_nodes (joined y m)).
    { unfold node_for in E. destruct (pinned (joined y m) tenant_ref shard) as [x|] eqn:P.
      - injection E as ->. unfold pinned in P. destruct (find _ (sp_pins _)); [|done]. cbn in P.
        apply find_some in P as [P _]. by apply list_elem_of_In.
      - apply head_Some_elem_of in E. unfold rank in E. apply list_elem_of_fmap in E as ([s x] & -> & E).
        rewrite sort_by_perm in E. apply list_elem_of_fmap in E as (x' & [= -> ->] & E). done. }
    cbn in Hn. apply elem_of_app in Hn as [Hn|Hn%list_elem_of_singleton]; [|done].
    destruct N. rewrite <-Ei. by apply list_elem_of_fmap_2.
  - right. apply (leaving_keeps (nd_id y)) in E; [|done].
    assert (W : without (nd_id y) (joined y m) = m); [|by rewrite W in E].
    destruct m as [f v ns ps pu]. unfold without, joined. cbn in *. f_equal. rewrite filter_app.
    rewrite (filter_cons_False _ y) by tauto. rewrite app_nil_r. clear E.
    induction ns as [|x ns IH]; [done|]. rewrite fmap_cons, not_elem_of_cons in N. destruct N as [N1 N2].
    rewrite filter_cons_True by congruence. f_equal. by apply IH.
Qed.
End placing.

(** ** Publishing *)
Definition map_ok (m : ShardMap) : Prop := map_fits m ∧ sp_format m ≤ MAP_FORMAT.
#[global] Instance map_ok_dec m : Decision (map_ok m).
Proof. unfold map_ok. apply _. Defined.
Lemma map_json_back `{SerdeMapOk} m : map_ok m → map_from_json (map_to_json m) = Ok m.
Proof.
  intros [F L]. unfold map_from_json. rewrite map_peeks by done. cbn [ok_or]. rewrite bind_run, guard_run by lia.
  by rewrite map_parses.
Qed.
Lemma map_json_ok `{SerdeMapOk} d m : map_from_json d = Ok m → map_ok m.
Proof.
  unfold map_from_json. intros E. apply bind_ok in E as (f & Ef & E). unfold ok_or in Ef.
  destruct (map_peek d) as [f'|] eqn:P; [|done]. apply (inj Ok) in Ef as ->. bind_inv E. unfold ok_or in E.
  destruct (map_from_slice d) as [m'|] eqn:M; [|done]. apply (inj Ok) in E as ->. split; [by eapply map_in_range|].
  rewrite <-(map_peek_format _ _ _ M P). lia.
Qed.
Lemma history_not_map v : map_history v ≠ MAP_KEY.
Proof. done. Qed.

Section publishing.
Context {S : Type} `{CasSnap S} `{SerdeMapOk, Sha}.
Implicit Types s : S.

(** The map the store holds, the empty one before the first publish. *)
Definition current s : ShardMap :=
  match cas_view s MAP_KEY with
  | Some (d, _) => match map_from_json d with Ok m => m | _ => map_empty end
  | None => map_empty
  end.
(** A store whose map can be read and still has versions left. *)
Definition mapped s : Prop :=
  cas_inv s ∧ (∀ d v, cas_view s MAP_KEY = Some (d, v) → ∃ m, map_from_json d = Ok m) ∧ sp_version (current s) < u64_max.
Definition map_civil (f : S → S) : Prop :=
  ∀ s, mapped s → mapped (f s) ∧ ∀ d v, cas_snap s MAP_KEY d v → cas_snap (f s) MAP_KEY d v.
Definition stamped (edit : ShardMap → ShardMap) (now : Z) (m : ShardMap) : ShardMap :=
  mkMap (sp_format (edit m)) (sp_version (edit m) + 1) (sp_nodes (edit m)) (sp_pins (edit m)) (Some now).

Lemma current_ok s : mapped s → map_ok (current s).
Proof.
  intros (I & R & _). unfold current. destruct (cas_view s MAP_KEY) as [[d v]|]; [|by apply (bool_decide_unpack _)].
  destruct (R d v eq_refl) as [m E]. rewrite E. by eapply map_json_ok.
Qed.
Lemma mapped_meddle (w : world S) : Forall map_civil (w_env w) → mapped (w_store w) →
  mapped (w_store (meddle w)) ∧ Forall map_civil (w_env (meddle w)) ∧ w_ms (meddle w) = w_ms w ∧
  (∀ d v, cas_snap (w_store w) MAP_KEY d v → cas_snap (w_store (meddle w)) MAP_KEY d v) ∧
  (length (w_env (meddle w)) ≤ length (w_env w))%nat ∧ (w_env w ≠ [] → (length (w_env (meddle w)) < length (w_env w))%nat) ∧
  (w_env w = [] → meddle w = w) ∧ (∃ f, (f = id ∨ f ∈ w_env w) ∧ w_store (meddle w) = f (w_store w)).
Proof.
  destruct w as [s ms [|f env]]; unfold meddle; cbn; intros F Sv; [split_and!; try done; exists id; auto|].
  apply Forall_cons in F as [Cf F]. destruct (Cf s Sv) as [Sf Sn]. split_and!; try done; [lia|lia|]. exists f. split; [right; by left|done].
Qed.
Lemma env_sub (w : world S) f : f ∈ w_env (meddle w) → f ∈ w_env w.
Proof. destruct w as [s ms [|g env]]; cbn; [done|]. intros Hf. by right. Qed.

(** The swap of a round, on the version that was read. *)
Lemma map_swap (w : world S) data {A} (k : res CasError Version → prog PlacementError A) :
  Forall map_civil (w_env w) → mapped (w_store w) →
  let w' := meddle w in
  (∃ v', let s' := (put_if_match (w_store w') MAP_KEY data (snd <$> cas_view (w_store w) MAP_KEY)).1 in
     exec w (Put MAP_KEY data (snd <$> cas_view (w_store w) MAP_KEY) k) = exec (mkWorld s' (w_ms w') (w_env w')) (k (Ok v')) ∧
     current (w_store w') = current (w_store w) ∧ cas_inv s' ∧ cas_view s' MAP_KEY = Some (data, v') ∧
     ∀ key', key' ≠ MAP_KEY → cas_view s' key' = cas_view (w_store w') key') ∨
  (w_env w ≠ [] ∧ exec w (Put MAP_KEY data (snd <$> cas_view (w_store w) MAP_KEY) k) = exec w' (k (Err (Conflict MAP_KEY)))).
Proof.
  intros F Sv w'. destruct (mapped_meddle w F Sv) as (Sv' & _ & _ & Sn & _ & _ & N & _). fold w' in Sv', Sn, N.
  cbn [exec on_put world_handler]. fold w'.
  pose proof (put_if_match_ok (w_store w') MAP_KEY data (snd <$> cas_view (w_store w) MAP_KEY) (proj1 Sv')) as P.
  destruct (put_if_match _ _ _ _) as [s' r]. destruct P as [I' P]. case_bool_decide as C.
  - destruct P as (v' & -> & V' & O). left. exists v'. cbn [fst]. split_and!; try done.
    unfold current. destruct (cas_view (w_store w) MAP_KEY) as [[d v]|] eqn:V,
      (cas_view (w_store w') MAP_KEY) as [[d2 v2]|] eqn:V2; try done.
    cbn in C. simplify_eq. assert (d2 = d) as ->; [|done].
    eapply cas_snap_use; [apply Sv'| |exact V2]. apply Sn, cas_snap_get; [apply Sv|done].
  - destruct P as [-> ->]. right. split; [intros Ew; destruct C; by rewrite N|]. by destruct w'.
Qed.

(** The history copy never fails a publish. *)
Lemma map_history_put (w : world S) v data (m : ShardMap) :
  cas_inv (w_store (meddle w)) →
  exec w (put_absent (map_history v) data (λ r, match r with Panic => Ret Panic | _ => mret (M := prog PlacementError) m end)) =
  (mkWorld (put_if_absent (w_store (meddle w)) (map_history v) data).1 (w_ms (meddle w)) (w_env (meddle w)), Some (Ok m)).
Proof.
  intros I. unfold put_absent, put_if_absent. cbn [exec on_put world_handler].
  pose proof (put_if_match_ok (w_store (meddle w)) (map_history v) data None I) as P.
  destruct (put_if_match _ _ _ _) as [s' r]. destruct P as [_ P]. case_bool_decide; [destruct P as (v' & -> & _)|destruct P as [-> _]]; done.
Qed.

Lemma get_first {E A} (wrap : CasError → E) key (w : world S) (k : option (bytes * Version) → prog E A) :
  cas_inv (w_store (meddle w)) → exec w (get_ wrap key ≫= k) = exec (meddle w) (k (cas_view (w_store (meddle w)) key)).
Proof. intros I. destruct w as [s ms env]. rewrite exec_bind. unfold get_. by rewrite exec_get. Qed.
Lemma ret_first {E A B} (a : A) (w : world S) (k : A → prog E B) : exec w (mret a ≫= k) = exec w (k a).
Proof. done. Qed.
Lemma ret_pair {E A B C} (a : A) (f : A → B) (w : world S) (k : B → prog E C) :
  exec w ((Ret (Ok a) ≫= λ a, mret (f a)) ≫= k) = exec w (k (f a)).
Proof. done. Qed.
Lemma next_version {A} (v : Z) (w : world S) (k : Z → prog PlacementError A) :
  v < u64_max → exec w (Ret (uadd v 1) ≫= k) = exec w (k (v + 1)).
Proof. intros L. unfold uadd. rewrite (proj2 (Z.leb_le _ _)) by (unfold u64_max in L; lia). done. Qed.
(** The two forms of the swap, by whether there was a map. *)
Lemma swap_or_create (w : world S) data (k : res CasError Version → prog PlacementError ShardMap) :
  Forall map_civil (w_env w) → mapped (w_store w) → k (Err (AlreadyExists MAP_KEY)) = k (Err (Conflict MAP_KEY)) →
  let w' := meddle w in
  let call := match snd <$> cas_view (w_store w) MAP_KEY with Some v => Put MAP_KEY data (Some v) | None => put_absent MAP_KEY data end k in
  (∃ v', let s' := (put_if_match (w_store w') MAP_KEY data (snd <$> cas_view (w_store w) MAP_KEY)).1 in
     exec w call = exec (mkWorld s' (w_ms w') (w_env w')) (k (Ok v')) ∧
     current (w_store w') = current (w_store w) ∧ cas_inv s' ∧ cas_view s' MAP_KEY = Some (data, v') ∧
     ∀ key', key' ≠ MAP_KEY → cas_view s' key' = cas_view (w_store w') key') ∨
  (w_env w ≠ [] ∧ exec w call = exec w' (k (Err (Conflict MAP_KEY)))).
Proof.
  intros F Sv Ek w' call.
  destruct (cas_view (w_store w) MAP_KEY) as [[d v]|] eqn:V; cbn in call |- *.
  - destruct (map_swap w data k F Sv) as [(v' & X)|X]; rewrite V in X; [left; by exists v'|by right].
  - destruct (map_swap w data (λ r, k match r with Err (Conflict key) => Err (AlreadyExists key) | other => other end) F Sv)
      as [(v' & X)|X]; rewrite V in X; [left; by exists v'|right]. by rewrite Ek in X.
Qed.

(** A publish that landed: the map it answers is the edit of what the store
    held, one version on, and the store then holds it. *)
Definition landed (edit : ShardMap → ShardMap) (now : Z) (s s1 : S) (m : ShardMap) : Prop :=
  mapped s ∧ m = stamped edit now (current s) ∧ cas_inv s1 ∧ current s1 = m ∧
  ∀ key, key ≠ MAP_KEY → cas_view s1 key = cas_view s key.

(** Publishing lands, and no concurrent publish is lost.  Others may act on
    the store before each call; with one round per such act and one more,
    [publish] returns the edit, one version on, of the map the store held at
    the instant of its swap; after that only one more act of others and the
    history copy follow. *)
Theorem publish_lands (fuel : nat) (edit : ShardMap → ShardMap) (w : world S) :
  (∀ m, map_ok m → map_ok (edit m) ∧ sp_version (edit m) = sp_version m) → fits 8 (w_ms w / 1000) →
  Forall map_civil (w_env w) → (∀ f s, f ∈ w_env w → cas_inv s → cas_inv (f s)) → mapped (w_store w) →
  (length (w_env w) < fuel)%nat →
  ∃ w' m s s1 f, exec w (publish fuel edit) = (w', Some (Ok m)) ∧ landed edit (w_ms w / 1000) s s1 m ∧
    (f = id ∨ f ∈ w_env w) ∧ w_store w' = (put_if_absent (f s1) (map_history (sp_version m)) (map_to_json m)).1.
Proof.
  intros Ke. revert w. induction fuel as [|fuel IH]; intros w Fn F Ci Sv L; [lia|].
  destruct (mapped_meddle w F Sv) as (Sv1 & F1 & T1 & _ & L1 & L1' & N1 & _). set (w1 := meddle w) in *.
  destruct (mapped_meddle w1 F1 Sv1) as (Sv2 & F2 & T2 & _ & L2 & _). set (w2 := meddle w1) in *.
  pose proof (current_ok _ Sv1) as Om. destruct (Ke _ Om) as [Oe Ev]. set (m0 := current (w_store w1)) in *.
  set (m1 := stamped edit (w_ms w / 1000) m0).
  assert (Mv : 0 ≤ sp_version m0 < u64_max) by (destruct Om as [(_ & [] & _) _], Sv1 as (_ & _ & ?); done).
  assert (O1 : map_ok m1).
  { destruct Oe as [(A1 & A2 & A3 & A4) A5]. split; [|done]. split_and!; [done| |done|done].
    cbn. rewrite Ev. unfold fits, u64_max in *. lia. }
  assert (Hr : exec w (publish (Datatypes.S fuel) edit) =
    exec w1 (match snd <$> cas_view (w_store w1) MAP_KEY with
      | Some v => Put MAP_KEY (map_to_json m1) (Some v) | None => put_absent MAP_KEY (map_to_json m1) end
      (λ r, match r with
         | Ok _ => put_absent (map_history (sp_version m1)) (map_to_json m1) (λ r, match r with Panic => Ret Panic | _ => mret m1 end)
         | Err (Conflict _) | Err (AlreadyExists _) => publish fuel edit
         | Err e => Ret (Err (PlacementStore e)) | Panic => Ret Panic end))).
  { cbn [publish]. rewrite get_first by apply Sv1. fold w1. destruct Sv1 as (I1 & R1 & _). unfold m1, m0, stamped, current in *.
    destruct (cas_view (w_store w1) MAP_KEY) as [[d v]|] eqn:V; cbn [fmap option_fmap option_map snd].
    - destruct (R1 d v eq_refl) as [m Em]. rewrite Em in *. rewrite (ret_pair m (λ m, (m, Some v))), next_version by lia. cbn [exec on_now world_handler]. by rewrite T1.
    - rewrite ret_first, next_version by lia. cbn [exec on_now world_handler]. by rewrite T1. }
  rewrite Hr. clear Hr.
  set (k := λ r : res CasError Version, match r with
    | Ok _ => put_absent (map_history (sp_version m1)) (map_to_json m1) (λ r, match r with Panic => Ret Panic | _ => mret (M := prog PlacementError) m1 end)
    | Err (Conflict _) | Err (AlreadyExists _) => publish fuel edit
    | Err e => Ret (Err (PlacementStore e)) | Panic => Ret Panic end).
  destruct (swap_or_create w1 (map_to_json m1) k F1 Sv1 ltac:(done)) as [(v' & -> & Same & I' & V' & O')|[Ne ->]].
  - fold w2 in Same, I', V', O' |- *. set (s1 := (put_if_match (w_store w2) _ _ _).1) in *.
    set (w3 := mkWorld s1 (w_ms w2) (w_env w2)).
    assert (E3 : ∃ f, (f = id ∨ f ∈ w_env w) ∧ w_store (meddle w3) = f s1 ∧ cas_inv (f s1)).
    { unfold w3. destruct (w_env w2) as [|f env] eqn:Ev2; cbn; [exists id; auto|].
      assert (Hf : f ∈ w_env w) by (apply env_sub, env_sub; fold w1 w2; rewrite Ev2; by left). exists f. auto. }
    destruct E3 as (f & Hf & Es & If). cbn [k]. rewrite map_history_put by by rewrite Es.
    eexists _, m1, (w_store w2), s1, f. split; [reflexivity|]. split; [|split; [done|cbn; by rewrite Es]].
    split_and!; [done|unfold m1; by rewrite Same|done| |done]. unfold current. by rewrite V', map_json_back.
  - destruct (IH w2) as (w' & m & s & s1 & f & E & Lm & Hf & Ew).
    + by rewrite T2, T1. + done. + intros f s Hf. apply Ci. by apply env_sub, env_sub. + done.
    + assert (w_env w ≠ []) as Q%L1'; [|lia]. intros Q. apply Ne. by rewrite N1.
    + exists w', m, s, s1, f. split; [exact E|]. rewrite T2, T1 in Lm. split; [done|]. split; [|done].
      destruct Hf as [->|Hf]; [by left|right]. by apply env_sub, env_sub.
Qed.
End publishing.

(** ** Routing *)
Section routing.
Context {S : Type} `{CasSnap S} `{SerdeMapOk, Sha}.
Implicit Types s : S.

(** The caches of the servers, by node id. *)
Definition servers : Type := bytes → ShardMap.
Definition cached (srv : servers) (id : bytes) (m : ShardMap) : servers := λ i, if decide (i = id) then m else srv i.
(** A client's rpc: route by the cached map, ask that server, and after a
    redirect refresh past its version and route again.  The node that
    admitted it and its version are the answer. *)
Fixpoint rpc (tries : nat) (srv : servers) (client : ShardMap) (tenant_ref : bytes) (shard : Z) :
    prog PlacementError (servers * ShardMap * (Node * Z)) :=
  match tries with
  | O => Stuck
  | Datatypes.S tries =>
      n ← Ret (route client tenant_ref shard);
      '(m, answer) ← server_admit (nd_id n) (srv (nd_id n)) tenant_ref shard (sp_version client);
      let srv := cached srv (nd_id n) m in
      match answer with
      | Ok v => client ← absorb client v; mret (srv, client, (n, v))
      | Err (WrongShard v) => client ← absorb client v; rpc tries srv client tenant_ref shard
      | Err e => Ret (Err e)
      | Panic => Ret Panic
      end
  end.

(** The map published under each version; each publish has a version of its
    own.  A map was read from the store at some time, when it is the one of
    its version and no newer than what the store holds. *)
Variable published : Z → ShardMap.
Definition genuine (m x : ShardMap) : Prop := sp_version x ≤ sp_version m ∧ x = published (sp_version x).
Lemma genuine_same m x y : genuine m x → genuine m y → sp_version x = sp_version y → x = y.
Proof. intros [_ Ex] [_ Ey] E. etrans; [exact Ex|]. rewrite E. by symmetry. Qed.

Lemma load_current s ms : mapped s → exec (alone s ms) load_map = (alone s ms, Some (Ok (current s))).
Proof.
  intros (I & R & _). unfold load_map. rewrite get_first by done. cbn [meddle alone w_env w_store]. unfold current.
  destruct (cas_view s MAP_KEY) as [[d v]|]; [|done]. destruct (R d v eq_refl) as [m ->]. done.
Qed.
(** A store with a map that has nodes and was published. *)
Definition settled s : Prop := mapped s ∧ sp_nodes (current s) ≠ [] ∧ current s = published (sp_version (current s)).
(** What a cache becomes when it hears of version [v]. *)
Definition heard s (x : ShardMap) (v : Z) : ShardMap := if sp_version x <? v then current s else x.
Lemma heard_genuine s x v : settled s → genuine (current s) x → genuine (current s) (heard s x v).
Proof. intros (_ & _ & P) G. unfold heard. destruct (_ <? v); [by split|done]. Qed.
Lemma absorb_run s ms x v : settled s → exec (alone s ms) (absorb x v) = (alone s ms, Some (Ok (heard s x v))).
Proof. intros (M & _). unfold absorb, heard. destruct (_ <? v); [by apply load_current|done]. Qed.
Lemma admit_run s ms node x t shard v : settled s →
  exec (alone s ms) (server_admit node x t shard v) = (alone s ms, Some (Ok (heard s x v,
    match node_for (heard s x v) t shard with
    | Some n => if bool_decide (nd_id n = node) then Ok (sp_version (heard s x v)) else Err (WrongShard (sp_version (heard s x v)))
    | None => Err (WrongShard (sp_version (heard s x v)))
    end))).
Proof. intros M. unfold server_admit. rewrite exec_bind. pose proof (absorb_run s ms x v M) as E. unfold absorb in E. by rewrite E. Qed.
Lemma node_for_some m t shard : sp_nodes m ≠ [] → is_Some (node_for m t shard).
Proof.
  intros N. unfold node_for. destruct (pinned m t shard); [by eexists|]. unfold rank.
  pose proof (sort_by_length by_score ((λ n, (score (nd_id n) t shard, n)) <$> sp_nodes m)) as L. rewrite length_fmap in L.
  destruct (sort_by _ _) as [|[z n] l]; [destruct (sp_nodes m); [done|discriminate L]|by eexists].
Qed.

(** The answer names the node under a map the fleet knew. *)
Definition answered s (t : bytes) (shard : Z) (a : Node * Z) : Prop :=
  ∃ x n, genuine (current s) x ∧ node_for x t shard = Some n ∧ nd_id n = nd_id a.1 ∧ a.2 = sp_version x.
(** One attempt: admitted, or redirected by a server that knew more. *)
Lemma attempt s ms tries srv client t shard :
  settled s → sp_nodes client ≠ [] → genuine (current s) client → (∀ id, genuine (current s) (srv id)) →
  (∃ srv' client' a, exec (alone s ms) (rpc (Datatypes.S tries) srv client t shard) = (alone s ms, Some (Ok (srv', client', a))) ∧
     answered s t shard a ∧ genuine (current s) client' ∧ ∀ id, genuine (current s) (srv' id)) ∨
  (sp_version client < sp_version (current s) ∧ ∃ srv', (∀ id, genuine (current s) (srv' id)) ∧
     exec (alone s ms) (rpc (Datatypes.S tries) srv client t shard) = exec (alone s ms) (rpc tries srv' (current s) t shard)).
Proof.
  intros St Nc Gc G. destruct (node_for_some client t shard Nc) as [n En]. set (x := heard s (srv (nd_id n)) (sp_version client)).
  set (answer := match node_for x t shard with
    | Some n' => if bool_decide (nd_id n' = nd_id n) then Ok (sp_version x) else Err (WrongShard (sp_version x))
    | None => Err (WrongShard (sp_version x)) end : res PlacementError Z).
  assert (E : exec (alone s ms) (rpc (Datatypes.S tries) srv client t shard) = exec (alone s ms)
    match answer with
    | Ok v => client ← absorb client v; mret (cached srv (nd_id n) x, client, (n, v))
    | Err (WrongShard v) => client ← absorb client v; rpc tries (cached srv (nd_id n) x) client t shard
    | Err e => Ret (Err e) | Panic => Ret Panic end).
  { cbn [rpc]. unfold route. rewrite En. cbn [ok_or]. rewrite exec_bind. cbn [exec]. rewrite exec_bind, admit_run by done. done. }
  rewrite E. clear E. unfold answer. clear answer.
  assert (Gx : genuine (current s) x) by by apply heard_genuine.
  assert (Gs : ∀ id, genuine (current s) (cached srv (nd_id n) x id)) by (intros id; unfold cached; by case_decide).
  assert (Redirect : (∀ n', node_for x t shard = Some n' → nd_id n' ≠ nd_id n) → sp_version client < sp_version x).
  { intros Nn. assert (sp_version client ≤ sp_version x) as Lx.
    { unfold x, heard. destruct (_ <? _) eqn:C; zbool; [apply Gc|lia]. }
    destruct (decide (sp_version client = sp_version x)) as [Q|]; [|lia].
    rewrite (genuine_same _ _ _ Gc Gx Q) in En. by destruct (Nn n). }
  assert (Again : sp_version client < sp_version x → heard s client (sp_version x) = current s ∧ sp_version client < sp_version (current s)).
  { intros Lx. unfold heard. rewrite (proj2 (Z.ltb_lt _ _)) by done. split; [done|]. destruct Gx. lia. }
  destruct (node_for x t shard) as [n'|] eqn:En'; [case_bool_decide as Q|].
  - left. rewrite exec_bind, absorb_run by done. eexists _, _, _. split; [done|]. split; [by exists x, n'|].
    split; [by apply heard_genuine|done].
  - right. destruct Again as [Ec L]; [apply Redirect; naive_solver|]. split; [done|]. exists (cached srv (nd_id n) x).
    split; [done|]. cbv beta iota zeta. rewrite exec_bind, absorb_run by done. by rewrite Ec.
  - right. destruct Again as [Ec L]; [by apply Redirect|]. split; [done|]. exists (cached srv (nd_id n) x).
    split; [done|]. cbv beta iota zeta. rewrite exec_bind, absorb_run by done. by rewrite Ec.
Qed.

End routing.

(** ** A concrete codec and a small fleet *)
Module PlacementWitness.
Import Concrete.
#[export] Instance node_countable : Countable Node.
Proof. refine (inj_countable' (λ n, (nd_id n, nd_addr n)) (λ '(a, b), mkNode a b) _). by intros []. Defined.
#[export] Instance pin_countable : Countable Pin.
Proof. refine (inj_countable' (λ n, (pin_tenant n, pin_shard n, pin_node n)) (λ '(a, b, c), mkPin a b c) _). by intros []. Defined.
#[export] Instance map_countable : Countable ShardMap.
Proof.
  refine (inj_countable (λ m, [encode (sp_format m); encode (sp_version m); encode (sp_nodes m); encode (sp_pins m);
      encode (sp_published_unix m)])
    (λ l, match l with
          | [a; b; c; d; e] => a ← decode a; b ← decode b; c ← decode c; d ← decode d; e ← decode e; Some (mkMap a b c d e)
          | _ => None
          end) _).
  intros []. cbn. by rewrite !decode_encode.
Defined.
Definition parse (d : bytes) : option ShardMap :=
  m ← decode (ManifestConcrete.of_bits d); if decide (map_fits m) then Some m else None.
#[export] Instance serde : SerdeMap := {
  map_from_slice := parse;
  map_peek d := sp_format <$> parse d;
  map_to_vec_pretty m := ManifestConcrete.bits_of (encode m)
}.
Lemma parse_map m : map_fits m → parse (map_to_json m) = Some m.
Proof.
  intros F. unfold parse, map_to_json. cbn [map_to_vec_pretty serde]. rewrite (ManifestConcrete.of_bits_of (encode m)), decode_encode.
  cbn. by rewrite decide_True.
Qed.
#[export] Instance serde_ok : SerdeMapOk.
Proof.
  split; cbn [map_from_slice map_peek serde].
  - apply parse_map.
  - intros m F. by rewrite parse_map.
  - intros d m. unfold parse. destruct (decode (ManifestConcrete.of_bits d)); [|done]. cbn. case_decide; naive_solver.
  - intros d m f ->. by intros [= <-].
Qed.

Definition named (id : string) : Node := mkNode (str id) (str id).
Definition t : bytes := str "t".
(** Node a left and node c came. *)
Definition m1 : ShardMap := mkMap 1 1 [named "a"; named "b"] [] (Some 10).
Definition m2 : ShardMap := mkMap 1 2 [named "b"; named "c"] [] (Some 20).
Definition fleet : MemStore := (put_if_absent ms_new MAP_KEY (map_to_json m2)).1.
Definition known (v : Z) : ShardMap := if v =? 1 then m1 else m2.
(** Node b has heard of the change. *)
Definition srv (id : bytes) : ShardMap := if bool_decide (id = str "b") then m2 else m1.
Lemma fleet_view : ∃ v, cas_view fleet MAP_KEY = Some (map_to_json m2, v).
Proof.
  unfold fleet, put_if_absent. pose proof (put_if_match_ok ms_new MAP_KEY (map_to_json m2) None ms_new_ok) as P.
  destruct (put_if_match ms_new MAP_KEY (map_to_json m2) None) as [s' r]. destruct P as [_ P].
  rewrite bool_decide_true in P by done. destruct P as (v & _ & V & _). by exists v.
Qed.
Lemma m2_back : map_from_json (map_to_json m2) = Ok m2.
Proof. apply map_json_back. apply (bool_decide_unpack _). by vm_compute. Qed.
Lemma fleet_current : current fleet = m2.
Proof. destruct fleet_view as [v V]. unfold current. by rewrite V, m2_back. Qed.
Lemma fleet_settled : settled known fleet.
Proof.
  unfold settled. rewrite fleet_current. split; [|done]. split; [by apply put_if_absent_inv|]. rewrite fleet_current. split; [|done].
  intros d v V. destruct fleet_view as [v' V']. rewrite V in V'. injection V' as -> _. eexists. exact m2_back.
Qed.
Example redirected_once :
  match (exec (alone fleet 0) (rpc 2 srv m1 t 0)).2 with Some (Ok (_, m, a)) => (sp_version m, a) | _ => (0, (named "z", 0)) end =
  (2, (named "c", 2)) ∧ (exec (alone fleet 0) (rpc 1 srv m1 t 0)).2 = None.
Proof. split; by vm_compute. Qed.
Lemma placement_minimal_witness :
  node_for (without (str "a") m1) t 0 = Some (named "b") ∧ node_for (joined (named "c") m1) t 0 = Some (named "c").
Proof.
  destruct (placement_minimal m1 t 0 (str "a") (named "c")) as (_ & L & J).
  - apply (bool_decide_unpack _). by vm_compute.
  - split; [|by vm_compute]. apply L; [by vm_compute|]. apply (bool_decide_unpack _). by vm_compute.
Defined.

(** A rival joins a node between the read and the swap. *)
Definition rival (s : MemStore) : MemStore := w_store (exec (alone s 0) (publish 1 (joined (named "d")))).1.
Example publish_keeps_rival :
  match (exec (mkWorld fleet 30000 [id; rival]) (publish 3 (without (str "b")))).2 with
  | Some (Ok m) => (sp_version m, nd_id <$> sp_nodes m) | _ => (0, []) end = (4, [str "c"; str "d"]).
Proof. by vm_compute. Qed.
End PlacementWitness.
