(* ===== verification/Gc.v ===== *)
(** * Gc: collecting what no manifest names (crates/zou-pg/src/gc.rs)

    A pass lists every tenant, pins what live manifests, retained snapshots
    and shard manifests name, and deletes the rest in two phases: a key is
    stamped by one run and deleted by a later one.  The pass is a
    computation on a store others act on, as in Branch. *)
From S2P Require Import Prelude Order Text Utf8 Lsn Externals Frame Bloom LayerKey Layer LayerMap Cas Layout Prog Manifest ShardManifest Shards Branch.

Definition CANDIDATES_KEY : bytes := str "gc/CANDIDATES".
Definition LOCK_KEY : bytes := str "gc/LOCK".
Definition DEFAULT_WINDOW_SECS : Z := 24 * 60 * 60.
Definition DEFAULT_RETENTION_SECS : Z := 7 * 24 * 60 * 60.
Definition DEFAULT_LOCK_TTL_SECS : Z := 60 * 60.

Record Policy := mkPolicy {
  po_window_secs : Z; po_retention_secs : Z; po_lock_ttl_secs : Z; po_dry_run : bool; po_force : bool
}.
Definition policy_default : Policy :=
  mkPolicy DEFAULT_WINDOW_SECS DEFAULT_RETENTION_SECS DEFAULT_LOCK_TTL_SECS false false.
Record GcStats := mkStats { gs_tenants : Z; gs_candidates : Z; gs_deleted : Z; gs_doomed : list bytes }.
Inductive Sweep := Ran (stats : GcStats) | Busy (holder : bytes) (until_unix : Z).

(** The messages of the source, by their kind. *)
Inductive GcError :=
  | GStore (e : CasError)
  | GManifest (r : bytes) (e : ManifestError)
  | GHistory (key : bytes) (e : ManifestError)
  | GShard (key : bytes) (e : PageShardError)
  | GNotUtf8
  | GBadLine (line : bytes).

(** ** Text *)
(** What follows the last separator: [s.rsplit(c).next()]. *)
Fixpoint after_last (c : byte) (s : bytes) : bytes :=
  match s with
  | [] => []
  | b :: r => if bool_decide (c ∈ r) then after_last c r else if bool_decide (b = c) then r else s
  end.
(** [s.lines()]: a line end is a line feed with a carriage return before it
    or not, and the last line needs none. *)
Definition CR : byte := Byte.x0d.
Definition strip_cr (s : bytes) : bytes := default s (strip_suffix [CR] s).
Fixpoint lines_from (line s : bytes) : list bytes :=
  match s with
  | [] => match line with [] => [] | _ => [line] end
  | b :: s => if bool_decide (b = newline) then strip_cr line :: lines_from [] s else lines_from (line ++ [b]) s
  end.
Definition lines (s : bytes) : list bytes := lines_from [] s.
(** [s.trim()]: the characters of Unicode's White_Space. *)
Definition WHITE : list bytes :=
  ((λ z, [byte_of_Z z]) <$> [9; 10; 11; 12; 13; 32]) ++
  ((λ z, [Byte.xc2; byte_of_Z z]) <$> [0x85; 0xa0]) ++ [[Byte.xe1; Byte.x9a; Byte.x80]] ++
  ((λ z, [Byte.xe2; Byte.x80; byte_of_Z z]) <$> [0x80; 0x81; 0x82; 0x83; 0x84; 0x85; 0x86; 0x87; 0x88; 0x89; 0x8a; 0xa8; 0xa9; 0xaf]) ++
  [[Byte.xe2; Byte.x81; Byte.x9f]; [Byte.xe3; Byte.x80; Byte.x80]].
Fixpoint strip_white (strip : bytes → bytes → option bytes) (fuel : nat) (s : bytes) : bytes :=
  match fuel with
  | O => s
  | S fuel => match head (omap (λ w, strip w s) WHITE) with Some s => strip_white strip fuel s | None => s end
  end.
Definition trim (s : bytes) : bytes :=
  let s := strip_white strip_prefix (length s) s in strip_white strip_suffix (length s) s.
Definition SPACE : byte := Byte.x20.

(** ** What a pass sees *)
(** [history_stamp] *)
Definition history_stamp (key : bytes) : option Z :=
  name ← strip_suffix (str ".json") (after_last slash key);
  '(_, unix) ← split_once hyphen name;
  from_str_radix 10 u64_max unix.
(** The tenant a key lies under. *)
Definition ref_of (key : bytes) : option bytes :=
  rest ← strip_prefix (str "tenants/") key; '(r, _) ← split_once slash rest; Some r.

(** The prefixes an untagged reference of [r]'s manifest can mean. *)
Definition owners (r : bytes) (parent : option BranchOf) : list bytes :=
  r :: match parent with Some b => [bo_ref b] | None => [] end.
(** What [owner] tags pin: exactly the owner, or every owner. *)
Definition pins_of (os : list bytes) (owner : option bytes) (name : bytes) : list (bytes * bytes) :=
  match owner with Some o => [(o, name)] | None => (λ o, (o, name)) <$> os end.
Definition pin (rm : bytes * Manifest) : list (bytes * bytes) :=
  m_checkpoints rm.2 ≫= λ c, pins_of (owners rm.1 (m_branch_of rm.2)) (cr_owner c) (cr_id c).
Definition pin_layers (os : list bytes) (sm : PageShardManifest) : list (bytes * bytes) :=
  sm_layers sm ≫= λ e, pins_of os (le_owner e) (le_name e).

(** Unpinned checkpoints and layers of one tenant. *)
Definition chk_garbage (pinned : list (bytes * bytes)) (r key : bytes) : bool :=
  match strip_prefix (str "tenants/" ++ r ++ str "/chk/") key with
  | Some rest => match split_once slash rest with
                 | Some (id, _) => negb (bool_decide ((r, id) ∈ pinned))
                 | None => false
                 end
  | None => false
  end.
Definition is_layer (name : bytes) : bool := match desc_parse name 0 with Ok _ => true | _ => false end.
Definition layer_garbage (pinned : list (bytes * bytes)) (r key : bytes) : bool :=
  match strip_prefix (shards_dir (layout_new r)) key with
  | Some rest => match split_once slash rest with
                 | Some (_, name) => is_layer name && negb (bool_decide ((r, name) ∈ pinned))
                 | None => false
                 end
  | None => false
  end.
(** [for r in refs { for key in &keys { if f(r, key) { .. } } }] *)
Definition collect (refs keys : list bytes) (f : bytes → bytes → bool) : list bytes :=
  refs ≫= λ r, filter (λ key, Is_true (f r key)) keys.

(** The lines of the candidates object. *)
Fixpoint parse_lines (ls : list bytes) (state : list (bytes * Z)) : res GcError (list (bytes * Z)) :=
  match ls with
  | [] => mret state
  | line :: ls =>
      '(ts, key) ← ok_or ('(ts, key) ← split_once SPACE line; ts ← from_str_radix 10 u64_max ts; Some (ts, key)) (GBadLine line);
      parse_lines ls (bt_insert key ts state)
  end.
Definition parse_candidates (data : bytes) : res GcError (list (bytes * Z)) :=
  _ ← guard_err (negb (utf8_valid data)) GNotUtf8;
  parse_lines (lines data) [].
Definition render_candidates (next : list (bytes * Z)) : bytes :=
  next ≫= λ e, fmt_dec 1 e.2 ++ [SPACE] ++ e.1 ++ [newline].

(** ** The pass *)
Section gc.
Context {S : Type} `{CasStore S} `{SerdeManifest} `{SerdeShard}.
Abbreviation M := (io S GcError).

(** [store.delete(key)?] *)
Definition delete_ (key : bytes) : M () := λ w,
  let w := meddle w in
  let '(s, r) := cas_delete (w_store w) key in
  (mkWorld s (w_ms w) (w_env w), Some (map_err GStore r)).

Fixpoint load_manifests (refs : list bytes) (manifests : list (bytes * Manifest)) : M (list (bytes * Manifest)) :=
  match refs with
  | [] => mret manifests
  | r :: refs =>
      cur ← run (get_ GStore (manifest_key (layout_new r)));
      match cur with
      | Some (data, _) =>
          m ← pure (map_err (GManifest r) (from_json data));
          load_manifests refs (bt_insert r m manifests)
      | None => load_manifests refs manifests
      end
  end.

(** The snapshots of one tenant: the retained ones and the expired keys. *)
Fixpoint load_history (now_unix retention : Z) (r : bytes) (keys : list bytes)
    (acc : list (bytes * Manifest) * list bytes) : M (list (bytes * Manifest) * list bytes) :=
  match keys with
  | [] => mret acc
  | key :: keys =>
      if starts_with key (str "tenants/" ++ r ++ str "/manifests/") then
        match history_stamp key with
        | None => load_history now_unix retention r keys acc
        | Some stamp =>
            if retention <=? sat_sub now_unix stamp then load_history now_unix retention r keys (acc.1, acc.2 ++ [key])
            else
              cur ← run (get_ GStore key);
              match cur with
              | Some (data, _) =>
                  m ← pure (map_err (GHistory key) (from_json data));
                  load_history now_unix retention r keys (acc.1 ++ [(r, m)], acc.2)
              | None => load_history now_unix retention r keys acc
              end
        end
      else load_history now_unix retention r keys acc
  end.
Fixpoint load_histories (now_unix retention : Z) (refs keys : list bytes)
    (acc : list (bytes * Manifest) * list bytes) : M (list (bytes * Manifest) * list bytes) :=
  match refs with
  | [] => mret acc
  | r :: refs => acc ← load_history now_unix retention r keys acc; load_histories now_unix retention refs keys acc
  end.

(** The layers the shard manifests of one tenant pin. *)
Fixpoint load_pins (r : bytes) (os : list bytes) (keys : list bytes) (pinned : list (bytes * bytes)) : M (list (bytes * bytes)) :=
  match keys with
  | [] => mret pinned
  | key :: keys =>
      if starts_with key (shards_dir (layout_new r)) && ends_with key (str "/SHARD") then
        cur ← run (get_ GStore key);
        match cur with
        | Some (data, _) =>
            sm ← pure (map_err (GShard key) (shard_decode data));
            load_pins r os keys (pinned ++ pin_layers os sm)
        | None => load_pins r os keys pinned
        end
      else load_pins r os keys pinned
  end.
Fixpoint load_all_pins (manifests : list (bytes * Manifest)) (refs keys : list bytes) (pinned : list (bytes * bytes)) :
    M (list (bytes * bytes)) :=
  match refs with
  | [] => mret pinned
  | r :: refs =>
      pinned ← load_pins r (owners r (bt_get r manifests ≫= m_branch_of)) keys pinned;
      load_all_pins manifests refs keys pinned
  end.

(** The scan: how many tenants, and the garbage. *)
Definition scan (now_unix : Z) (policy : Policy) : M (Z * list bytes) :=
  keys ← list_ GStore (str "tenants/");
  let refs := set_of (omap ref_of keys) in
  manifests ← load_manifests refs [];
  let live := fst <$> manifests in
  '(history, expired_history) ← load_histories now_unix (po_retention_secs policy) live keys ([], []);
  let pinned_chk := (manifests ≫= pin) ++ (history ≫= pin) in
  pinned_layer ← load_all_pins manifests refs keys [];
  mret (zlen manifests,
    set_of (expired_history ++ collect live keys (chk_garbage pinned_chk) ++ collect live keys (layer_garbage pinned_layer))).

(** The candidates of earlier runs. *)
Definition load_candidates : M (list (bytes * Z)) :=
  cur ← run (get_ GStore CANDIDATES_KEY);
  match cur with Some (data, _) => pure (parse_candidates data) | None => mret [] end.

(** What becomes of one garbage key. *)
Inductive fate := Delete | Wait (stamp : Z).
Definition fate_of (now_unix : Z) (policy : Policy) (state : list (bytes * Z)) (key : bytes) : fate :=
  let stamp := stamp ← bt_get key state;
    if sat_sub now_unix stamp <? po_retention_secs policy then Some stamp else None in
  match stamp with
  | Some stamp => if po_window_secs policy <=? sat_sub now_unix stamp then Delete else Wait stamp
  | None => Wait now_unix
  end.
Fixpoint act (now_unix : Z) (policy : Policy) (state : list (bytes * Z)) (garbage : list bytes)
    (next : list (bytes * Z)) (deleted : Z) (doomed : list bytes) : M (list (bytes * Z) * Z * list bytes) :=
  match garbage with
  | [] => mret (next, deleted, doomed)
  | key :: garbage =>
      match fate_of now_unix policy state key with
      | Delete =>
          if po_dry_run policy then act now_unix policy state garbage next (deleted + 1) (doomed ++ [key])
          else _ ← delete_ key; act now_unix policy state garbage next (deleted + 1) doomed
      | Wait stamp => act now_unix policy state garbage (bt_insert key stamp next) deleted doomed
      end
  end.

(** [run_with] and [run] *)
Definition run_with (now_unix : Z) (policy : Policy) : M GcStats :=
  '(tenants, garbage) ← scan now_unix policy;
  state ← load_candidates;
  '(next, deleted, doomed) ← act now_unix policy state garbage [] 0 [];
  _ ← (if po_dry_run policy then mret [] else put_ GStore CANDIDATES_KEY (render_candidates next));
  mret (mkStats tenants (zlen next) deleted doomed).
Definition gc_run (now_unix window_secs retention_secs : Z) : M GcStats :=
  run_with now_unix (mkPolicy window_secs retention_secs (po_lock_ttl_secs policy_default) (po_dry_run policy_default)
                       (po_force policy_default)).

(** ** The lock *)
(** [held] *)
Definition held (data : bytes) : option (bytes * Z) :=
  if utf8_valid data then
    '(holder, until) ← split_once SPACE (trim data);
    until ← from_str_radix 10 u64_max until;
    Some (holder, until)
  else None.
Inductive Claimed := Ours (line : bytes) | Theirs (holder : bytes) (until_unix : Z).
(** [lock] *)
Definition lock (holder : bytes) (now_unix : Z) (policy : Policy) : M Claimed :=
  run (current ← get_ GStore LOCK_KEY;
       match (if po_force policy then None else
              '(data, _) ← current; '(holder, until) ← held data;
              if now_unix <? until then Some (holder, until) else None) with
       | Some (holder, until) => mret (Theirs holder until)
       | None =>
           let until := Z.min (now_unix + po_lock_ttl_secs policy) u64_max in
           let line := holder ++ [SPACE] ++ fmt_dec 1 until ++ [newline] in
           Put LOCK_KEY line (snd <$> current) (λ r,
             match r with
             | Ok _ => mret (Ours line)
             | Err (Conflict _) | Err (AlreadyExists _) => mret (Theirs (str "another run") until)
             | Err e => Ret (Err (GStore e))
             | Panic => Ret Panic
             end)
       end).
(** [unlock] *)
Definition unlock (line : bytes) : M () :=
  cur ← run (get_ GStore LOCK_KEY);
  match cur with
  | Some (data, _) => if bool_decide (data = line) then delete_ LOCK_KEY else mret ()
  | None => mret ()
  end.
(** [let out = p; if let Err(e) = q { warn }; out]: errors of [q] are
    dropped and those of [p] kept. *)
Definition finally {A} (p : M A) (q : M ()) : M A := λ w,
  match p w with
  | (w, Some Panic) => (w, Some Panic)
  | (w, None) => (w, None)
  | (w, Some out) =>
      match q w with
      | (w, Some Panic) => (w, Some Panic)
      | (w, None) => (w, None)
      | (w, Some _) => (w, Some out)
      end
  end.
(** [sweep] *)
Definition sweep (holder : bytes) (now_unix : Z) (policy : Policy) : M Sweep :=
  if po_dry_run policy then stats ← run_with now_unix policy; mret (Ran stats)
  else
    claim ← lock holder now_unix policy;
    match claim with
    | Theirs holder until => mret (Busy holder until)
    | Ours line => stats ← finally (run_with now_unix policy) (unlock line); mret (Ran stats)
    end.
End gc.
