(* ===== verification/GcProofs.v ===== *)
(** * GcProofs: a pass deletes exactly what may go

    What the scan finds is stated in terms of what the store holds; a pass
    on a store at rest deletes exactly the garbage whose stamp came of age,
    and everything a manifest, a retained snapshot or a reader needs stays. *)
From S2P Require Import Prelude Order Text Utf8 Lsn Externals Frame Bloom LayerKey Layer LayerBuild LayerRead LayerLookup LayerMap Memtable Cas Layout PageRead PageReadProofs Prog Manifest ShardManifest Shards Branch BranchReads BranchProofs Gc.

(** ** Names *)
Lemma split_once_inv c s a b : split_once c s = Some (a, b) → s = a ++ c :: b ∧ c ∉ a.
Proof.
  revert a b. induction s as [|x s IH]; intros a b E; [done|]. cbn in E. case_decide as D.
  - injection E as <- <-. subst. split; [done|apply not_elem_of_nil].
  - destruct (split_once c s) as [[l r]|]; [|done]. cbn in E. injection E as <- <-.
    destruct (IH l r eq_refl) as [-> N]. split; [done|]. rewrite not_elem_of_cons. auto.
Qed.
Lemma ref_of_spec key r : ref_of key = Some r ↔ slash ∉ r ∧ ∃ rest, key = str "tenants/" ++ r ++ str "/" ++ rest.
Proof.
  unfold ref_of. split.
  - intros E. destruct (strip_prefix _ key) as [rest|] eqn:P; [|done]. cbn in E. apply strip_prefix_inv in P as ->.
    destruct (split_once slash rest) as [[a b]|] eqn:Sp; [|done]. cbn in E. injection E as ->.
    apply split_once_inv in Sp as [-> N]. split; [done|]. by exists b.
  - intros (N & rest & ->). rewrite strip_prefix_app. cbn [mbind option_bind]. change (str "/" ++ rest) with (slash :: rest).
    by rewrite split_once_app.
Qed.
Lemma ref_of_dir r dir rest : slash ∉ r → ref_of ((str "tenants/" ++ r ++ str "/" ++ dir) ++ rest) = Some r.
Proof. intros N. apply ref_of_spec. split; [done|]. exists (dir ++ rest). by rewrite <-!app_assoc. Qed.

Lemma bt_wf_nodup {A B} `{OrdOk A} (m : list (A * B)) : bt_wf m → NoDup (fst <$> m).
Proof.
  induction m as [|[k v] m IH]; intros W; [constructor|]. destruct W as [W1 W2]. rewrite fmap_cons. constructor; [|by apply IH].
  intros (e & E & He)%list_elem_of_fmap. cbn in E. subst. apply W1 in He. by apply olt_irrefl in He.
Qed.
Lemma set_of_nodup {A} `{OrdOk A} (xs : list A) : NoDup (set_of xs).
Proof.
  unfold set_of. apply bt_wf_nodup. assert (W0 : bt_wf ([] : list (A * ()))) by done. revert W0. generalize ([] : list (A * ())) as acc.
  induction xs as [|x xs IH]; intros acc W; [done|]. cbn [foldl]. apply IH. by apply bt_insert_wf.
Qed.
Lemma collect_elem refs keys f key : key ∈ collect refs keys f ↔ key ∈ keys ∧ ∃ r, r ∈ refs ∧ f r key = true.
Proof.
  unfold collect. rewrite list_elem_of_bind. setoid_rewrite list_elem_of_filter. setoid_rewrite Is_true_true. naive_solver.
Qed.

(** ** What the store says *)
Section spec.
Context {S : Type} `{CasSnap S} `{SerdeManifestOk} `{SerdeShardOk}.
Implicit Types s : S.
Variable now_unix : Z.
Variable policy : Policy.

Definition live s (r : bytes) (m : Manifest) : Prop :=
  ∃ d v, cas_view s (manifest_key (layout_new r)) = Some (d, v) ∧ from_json d = Ok m.
Definition history_dir (r : bytes) : bytes := str "tenants/" ++ r ++ str "/manifests/".
(** A snapshot of [r] inside the retention, and a key past it. *)
Definition retained s (r key : bytes) (m : Manifest) : Prop :=
  ∃ stamp d v, starts_with key (history_dir r) = true ∧ history_stamp key = Some stamp ∧
    sat_sub now_unix stamp < po_retention_secs policy ∧ cas_view s key = Some (d, v) ∧ from_json d = Ok m.
Definition expired (r key : bytes) : Prop :=
  ∃ stamp, starts_with key (history_dir r) = true ∧ history_stamp key = Some stamp ∧
    po_retention_secs policy ≤ sat_sub now_unix stamp.
Definition shard_key (r key : bytes) : Prop :=
  starts_with key (shards_dir (layout_new r)) = true ∧ ends_with key (str "/SHARD") = true.
Definition shard_at s (r key : bytes) (sm : PageShardManifest) : Prop :=
  shard_key r key ∧ ∃ d v, cas_view s key = Some (d, v) ∧ shard_decode d = Ok sm.
Definition parent_in s (r : bytes) : option BranchOf :=
  '(d, _) ← cas_view s (manifest_key (layout_new r));
  match from_json d with Ok m => m_branch_of m | _ => None end.

(** A checkpoint, and a layer, that somebody names. *)
Definition names_chk s (r id : bytes) : Prop :=
  ∃ r' m, slash ∉ r' ∧ (live s r' m ∨ (∃ m0, live s r' m0) ∧ ∃ key, retained s r' key m) ∧ (r, id) ∈ pin (r', m).
Definition names_layer s (r name : bytes) : Prop :=
  ∃ r' key sm, slash ∉ r' ∧ shard_at s r' key sm ∧ (r, name) ∈ pin_layers (owners r' (parent_in s r')) sm.

Definition garbage s (key : bytes) : Prop :=
  is_Some (cas_view s key) ∧ ∃ r m, slash ∉ r ∧ live s r m ∧
    (expired r key ∨
     (∃ id rest, slash ∉ id ∧ key = (str "tenants/" ++ r ++ str "/chk/") ++ id ++ slash :: rest ∧ ¬ names_chk s r id) ∨
     (∃ sh name, slash ∉ sh ∧ key = shards_dir (layout_new r) ++ sh ++ slash :: name ∧ is_layer name = true ∧ ¬ names_layer s r name)).

(** Everything a pass reads can be read. *)
Record gc_ok s : Prop := {
  go_inv : cas_inv s;
  go_manifests : ∀ r d v, cas_view s (manifest_key (layout_new r)) = Some (d, v) → ∃ m, from_json d = Ok m;
  go_history : ∀ r key stamp d v, starts_with key (history_dir r) = true → history_stamp key = Some stamp →
    sat_sub now_unix stamp < po_retention_secs policy → cas_view s key = Some (d, v) → ∃ m, from_json d = Ok m;
  go_shards : ∀ r key d v, shard_key r key → cas_view s key = Some (d, v) → ∃ sm, shard_decode d = Ok sm;
  go_candidates : ∀ d v, cas_view s CANDIDATES_KEY = Some (d, v) → ∃ state, parse_candidates d = Ok state
}.

Lemma live_fun s r m m' : live s r m → live s r m' → m = m'.
Proof. intros (d & v & V & E) (d' & v' & V' & E'). rewrite V in V'. simplify_eq. congruence. Qed.
Lemma parent_live s r m : live s r m → parent_in s r = m_branch_of m.
Proof. intros (d & v & V & E). unfold parent_in. rewrite V. cbn. by rewrite E. Qed.

(** ** Loading *)
Lemma load_manifests_run s ms refs acc :
  gc_ok s → bt_wf acc → (∀ r m, bt_get r acc = Some m → live s r m) →
  ∃ out, load_manifests refs acc (alone s ms) = (alone s ms, Some (Ok out)) ∧ bt_wf out ∧
    ∀ r m, bt_get r out = Some m ↔ live s r m ∧ (r ∈ refs ∨ is_Some (bt_get r acc)).
Proof.
  intros O. revert acc. induction refs as [|r refs IH]; intros acc W A; cbn [load_manifests].
  { exists acc. split; [done|]. split; [done|]. intros r m. split; [intros E; split; [auto|right; eauto]|].
    intros [L [N%elem_of_nil|[m' E]]]; [done|]. by rewrite (live_fun _ _ _ _ L (A _ _ E)). }
  erewrite io_ok by by apply get_alone, O.
  destruct (cas_view s (manifest_key (layout_new r))) as [[d v]|] eqn:V.
  - destruct (go_manifests _ O r d v V) as [m Em]. erewrite io_ok by (unfold pure; by rewrite Em).
    assert (Lr : live s r m) by by exists d, v.
    destruct (IH (bt_insert r m acc)) as (out & E & Wo & Ho).
    { by apply bt_insert_wf. }
    { intros r' m'. rewrite bt_get_insert by done. destruct (oeqb r' r) eqn:C; [|apply A]. apply oeqb_spec in C as ->. by intros [= <-]. }
    exists out. split; [exact E|]. split; [done|]. intros r' m'. rewrite Ho, elem_of_cons, bt_get_insert by done.
    destruct (oeqb r' r) eqn:C; [apply oeqb_spec in C as ->; naive_solver|].
    assert (r' ≠ r) by (intros ->; by rewrite oeqb_refl in C). naive_solver.
  - destruct (IH acc W A) as (out & E & Wo & Ho). exists out. split; [exact E|]. split; [done|].
    intros r' m'. rewrite Ho, elem_of_cons. split; [naive_solver|]. intros [L [[->|?]|?]]; [|auto|auto].
    destruct L as (d & v & V' & _). congruence.
Qed.

Lemma load_history_run s ms r keys acc :
  gc_ok s →
  ∃ out, load_history now_unix (po_retention_secs policy) r keys acc (alone s ms) = (alone s ms, Some (Ok out)) ∧
    (∀ x, x ∈ out.1 ↔ x ∈ acc.1 ∨ x.1 = r ∧ ∃ key, key ∈ keys ∧ retained s r key x.2) ∧
    (∀ key, key ∈ out.2 ↔ key ∈ acc.2 ∨ key ∈ keys ∧ expired r key).
Proof.
  intros O. revert acc. induction keys as [|key keys IH]; intros acc; cbn [load_history].
  { exists acc. split; [done|]. split; [|set_solver]. intros x. split; [auto|]. intros [?|(_ & key & N%elem_of_nil & _)]; done. }
  (* a key that neither pins nor expires *)
  assert (Skip : (∀ m, ¬ retained s r key m) → ¬ expired r key →
    ∃ out, load_history now_unix (po_retention_secs policy) r keys acc (alone s ms) = (alone s ms, Some (Ok out)) ∧
      (∀ x, x ∈ out.1 ↔ x ∈ acc.1 ∨ x.1 = r ∧ ∃ key', key' ∈ key :: keys ∧ retained s r key' x.2) ∧
      (∀ key', key' ∈ out.2 ↔ key' ∈ acc.2 ∨ key' ∈ key :: keys ∧ expired r key')).
  { intros Nr Ne. destruct (IH acc) as (out & E & H1' & H2'). exists out. split; [exact E|]. setoid_rewrite elem_of_cons. split.
    - intros x. rewrite H1'. split; [naive_solver|]. intros [?|(-> & key' & [->|?] & R)]; [auto|by destruct (Nr _ R)|eauto 6].
    - intros x. rewrite H2'. split; [naive_solver|]. intros [?|[[->|?] ?]]; [auto|done|auto]. }
  fold (history_dir r). destruct (starts_with key (history_dir r)) eqn:D.
  2: { apply Skip; [intros m (? & ? & ? & ? & _)|intros (? & ? & _)]; congruence. }
  destruct (history_stamp key) as [stamp|] eqn:Hs.
  2: { apply Skip; [intros m (? & ? & ? & _ & ? & _)|intros (? & _ & ? & _)]; congruence. }
  destruct (po_retention_secs policy <=? sat_sub now_unix stamp) eqn:C; zbool.
  - assert (Ex : expired r key) by by exists stamp. assert (Nr : ∀ m, ¬ retained s r key m).
    { intros m (st & ? & ? & _ & Hs' & L & _). rewrite Hs in Hs'. injection Hs' as <-. lia. }
    destruct (IH (acc.1, acc.2 ++ [key])) as (out & E & H1' & H2'). exists out. split; [exact E|]. cbn [fst snd] in *. setoid_rewrite elem_of_cons. split.
    + intros x. rewrite H1'. split; [naive_solver|]. intros [?|(-> & key' & [->|?] & R)]; [auto|by destruct (Nr _ R)|eauto 6].
    + intros x. rewrite H2', elem_of_app, list_elem_of_singleton. naive_solver.
  - assert (Ne : ¬ expired r key). { intros (st & _ & Hs' & L). rewrite Hs in Hs'. injection Hs' as <-. lia. }
    erewrite io_ok by by apply get_alone, O. destruct (cas_view s key) as [[d v]|] eqn:V.
    2: { apply Skip; [|done]. intros m (? & ? & ? & _ & _ & _ & ? & _). congruence. }
    destruct (go_history _ O r key stamp d v D Hs C V) as [m Em]. erewrite io_ok by (unfold pure; by rewrite Em).
    assert (Re : ∀ m', retained s r key m' ↔ m' = m).
    { intros m'. split; [intros (? & d' & v' & _ & _ & _ & V' & E'); congruence|intros ->; by exists stamp, d, v]. }
    destruct (IH (acc.1 ++ [(r, m)], acc.2)) as (out & E & H1' & H2'). exists out. split; [exact E|]. cbn [fst snd] in *. setoid_rewrite elem_of_cons. split.
    + intros [r' m']. rewrite H1', elem_of_app, list_elem_of_singleton. cbn [fst snd]. split.
      * intros [[?|[= -> ->]]|(-> & key' & ? & ?)]; [auto| |eauto 6]. right. split; [done|]. exists key. split; [auto|by apply Re].
      * intros [?|(-> & key' & [->|?] & R)]; [auto|apply Re in R as ->; auto|eauto 6].
    + intros x. rewrite H2'. split; [naive_solver|]. intros [?|[[->|?] ?]]; [auto|done|auto].
Qed.
Lemma load_histories_run s ms refs keys acc :
  gc_ok s →
  ∃ out, load_histories now_unix (po_retention_secs policy) refs keys acc (alone s ms) = (alone s ms, Some (Ok out)) ∧
    (∀ x, x ∈ out.1 ↔ x ∈ acc.1 ∨ x.1 ∈ refs ∧ ∃ key, key ∈ keys ∧ retained s x.1 key x.2) ∧
    (∀ key, key ∈ out.2 ↔ key ∈ acc.2 ∨ key ∈ keys ∧ ∃ r, r ∈ refs ∧ expired r key).
Proof.
  intros O. revert acc. induction refs as [|r refs IH]; intros acc; cbn [load_histories].
  { exists acc. split; [done|]. set_solver. }
  destruct (load_history_run s ms r keys acc O) as (a1 & E1 & H11 & H12). erewrite io_ok by exact E1.
  destruct (IH a1) as (out & E & H1' & H2'). exists out. split; [exact E|]. setoid_rewrite elem_of_cons. split.
  - intros [r' m']. rewrite H1', H11. cbn [fst snd]. naive_solver.
  - intros x. rewrite H2', H12. naive_solver.
Qed.
Lemma load_pins_run s ms r os keys acc :
  gc_ok s →
  ∃ out, load_pins r os keys acc (alone s ms) = (alone s ms, Some (Ok out)) ∧
    ∀ x, x ∈ out ↔ x ∈ acc ∨ ∃ key sm, key ∈ keys ∧ shard_at s r key sm ∧ x ∈ pin_layers os sm.
Proof.
  intros O. revert acc. induction keys as [|key keys IH]; intros acc; cbn [load_pins].
  { exists acc. split; [done|]. intros x. split; [auto|]. intros [?|(key & sm & N%elem_of_nil & _)]; done. }
  assert (Skip : (∀ sm, ¬ shard_at s r key sm) →
    ∃ out, load_pins r os keys acc (alone s ms) = (alone s ms, Some (Ok out)) ∧
    ∀ x, x ∈ out ↔ x ∈ acc ∨ ∃ key' sm, key' ∈ key :: keys ∧ shard_at s r key' sm ∧ x ∈ pin_layers os sm).
  { intros N. destruct (IH acc) as (out & E & Ho). exists out. split; [exact E|]. intros x. rewrite Ho. setoid_rewrite elem_of_cons.
    split; [naive_solver|]. intros [?|(key' & sm & [->|?] & At & ?)]; [auto|by destruct (N _ At)|eauto 8]. }
  destruct (starts_with key _ && ends_with key _) eqn:C.
  2: { apply Skip. intros sm [[D E] _]. by rewrite D, E in C. }
  apply andb_true_iff in C as [D E]. erewrite io_ok by by apply get_alone, O. destruct (cas_view s key) as [[d v]|] eqn:V.
  2: { apply Skip. intros sm [_ (? & ? & V' & _)]. congruence. }
  destruct (go_shards _ O r key d v (conj D E) V) as [sm Em]. erewrite io_ok by (unfold pure; by rewrite Em).
  assert (Re : ∀ sm', shard_at s r key sm' ↔ sm' = sm).
  { intros sm'. split; [intros (_ & d' & v' & V' & E'); congruence|intros ->; split; [done|by exists d, v]]. }
  destruct (IH (acc ++ pin_layers os sm)) as (out & Eo & Ho). exists out. split; [exact Eo|]. intros x.
  rewrite Ho, elem_of_app. setoid_rewrite elem_of_cons. split.
  - intros [[?|?]|(key' & sm' & ? & ? & ?)]; [auto| |eauto 8]. right. exists key, sm. split_and!; [auto|by apply Re|done].
  - intros [?|(key' & sm' & [->|?] & At & ?)]; [auto|apply Re in At as ->; auto|eauto 8].
Qed.
Lemma load_all_pins_run s ms manifests refs keys acc :
  gc_ok s →
  ∃ out, load_all_pins manifests refs keys acc (alone s ms) = (alone s ms, Some (Ok out)) ∧
    ∀ x, x ∈ out ↔ x ∈ acc ∨ ∃ r key sm, r ∈ refs ∧ key ∈ keys ∧ shard_at s r key sm ∧
      x ∈ pin_layers (owners r (bt_get r manifests ≫= m_branch_of)) sm.
Proof.
  intros O. revert acc. induction refs as [|r refs IH]; intros acc; cbn [load_all_pins].
  { exists acc. split; [done|]. intros x. split; [auto|]. intros [?|(r & ? & ? & N%elem_of_nil & _)]; done. }
  destruct (load_pins_run s ms r (owners r (bt_get r manifests ≫= m_branch_of)) keys acc O) as (a1 & E1 & H1').
  erewrite io_ok by exact E1. destruct (IH a1) as (out & E & Ho). exists out. split; [exact E|].
  intros x. rewrite Ho, H1'. setoid_rewrite elem_of_cons. naive_solver.
Qed.

Lemma chk_garbage_spec chk r key :
  chk_garbage chk r key = true ↔
  ∃ id rest, slash ∉ id ∧ key = (str "tenants/" ++ r ++ str "/chk/") ++ id ++ slash :: rest ∧ (r, id) ∉ chk.
Proof.
  unfold chk_garbage. split.
  - destruct (strip_prefix _ key) as [rest|] eqn:P; [|done]. apply strip_prefix_inv in P as ->.
    destruct (split_once slash rest) as [[id b]|] eqn:Sp; [|done]. apply split_once_inv in Sp as [-> N].
    intros E%negb_true_iff%bool_decide_eq_false. by exists id, b.
  - intros (id & rest & N & -> & C). rewrite strip_prefix_app, split_once_app by done. by rewrite bool_decide_false.
Qed.
Lemma layer_garbage_spec layer r key :
  layer_garbage layer r key = true ↔
  ∃ sh name, slash ∉ sh ∧ key = shards_dir (layout_new r) ++ sh ++ slash :: name ∧ is_layer name = true ∧ (r, name) ∉ layer.
Proof.
  unfold layer_garbage. split.
  - destruct (strip_prefix _ key) as [rest|] eqn:P; [|done]. apply strip_prefix_inv in P as ->.
    destruct (split_once slash rest) as [[sh b]|] eqn:Sp; [|done]. apply split_once_inv in Sp as [-> N].
    intros [E1 E2%negb_true_iff%bool_decide_eq_false]%andb_true_iff. by exists sh, b.
  - intros (sh & name & N & -> & L & C). rewrite strip_prefix_app, split_once_app by done. by rewrite L, bool_decide_false.
Qed.

(** The scan finds the garbage, each key once. *)
Lemma scan_run s ms :
  gc_ok s → ∃ n g, scan now_unix policy (alone s ms) = (alone s ms, Some (Ok (n, g))) ∧ NoDup g ∧ ∀ key, key ∈ g ↔ garbage s key.
Proof.
  intros O. destruct (list_alone (E := GcError) GStore (str "tenants/") s ms (go_inv _ O)) as (keys & El & _ & Hk).
  set (refs := set_of (omap ref_of keys)).
  assert (Hr : ∀ r, r ∈ refs ↔ ∃ key, key ∈ keys ∧ ref_of key = Some r) by (intros r; unfold refs; rewrite set_of_elem; apply list_elem_of_omap).
  destruct (load_manifests_run s ms refs [] O) as (manifests & Em & Wm & Hm); [done|done|].
  set (alive := fst <$> manifests).
  assert (Key : ∀ r key rest, slash ∉ r → key = str "tenants/" ++ r ++ str "/" ++ rest → is_Some (cas_view s key) → key ∈ keys ∧ r ∈ refs).
  { intros r key rest N -> V. assert (In : str "tenants/" ++ r ++ str "/" ++ rest ∈ keys) by (apply Hk; split; [done|apply starts_with_app]).
    split; [done|]. apply Hr. eexists. split; [exact In|]. apply ref_of_spec. eauto. }
  assert (Ns : ∀ r, r ∈ refs → slash ∉ r) by (intros r (key & _ & E%ref_of_spec)%Hr; apply E).
  assert (Lv : ∀ r m, slash ∉ r → live s r m → r ∈ refs).
  { intros r m N (d & v & V & _). eapply (Key r _ (str "MANIFEST")); [done| |by rewrite V].
    unfold manifest_key, layout_new. cbn [tl_prefix]. by rewrite <-app_assoc. }
  assert (Ha : ∀ r, r ∈ alive ↔ slash ∉ r ∧ ∃ m, live s r m).
  { intros r. unfold alive. rewrite list_elem_of_fmap. split.
    - intros ([r' m] & -> & E). apply bt_get_elem, Hm in E as [L [Hin|[? ?]]]; [|done|done]. split; [by apply Ns|by exists m].
    - intros [N [m L]]. exists (r, m). split; [done|]. apply bt_get_elem, Hm; [done|]. split; [done|]. left. by eapply Lv. }
  assert (Hg : ∀ r, r ∈ refs → bt_get r manifests ≫= m_branch_of = parent_in s r).
  { intros r Hin. destruct (bt_get r manifests) as [m|] eqn:G; cbn.
    - apply Hm in G as [L _]. by rewrite (parent_live _ _ _ L).
    - unfold parent_in. destruct (cas_view s (manifest_key (layout_new r))) as [[d v]|] eqn:V; [|done]. cbn.
      destruct (go_manifests _ O r d v V) as [m E]. assert (Some m = None); [|done]. rewrite <-G. symmetry. apply Hm. split; [by exists d, v|auto]. }
  destruct (load_histories_run s ms alive keys ([], []) O) as ([hist exp] & Eh & Hh & He). cbn [fst snd] in Hh, He.
  destruct (load_all_pins_run s ms manifests refs keys [] O) as (pinned & Ep & Hp).
  eexists _, _. split; [|split; [apply set_of_nodup|]].
  { unfold scan. erewrite io_ok by exact El. cbv zeta. fold refs. erewrite io_ok by exact Em. fold alive. erewrite io_ok by exact Eh.
    cbv beta iota. erewrite io_ok by exact Ep. reflexivity. }
  assert (Pc : ∀ r id, (r, id) ∈ (manifests ≫= pin) ++ (hist ≫= pin) ↔ names_chk s r id).
  { intros r id. rewrite elem_of_app, !list_elem_of_bind. unfold names_chk. split.
    - intros [([r' m] & Hin & E)|([r' m] & Hin & E)].
      + assert (A : r' ∈ alive) by (apply list_elem_of_fmap; by exists (r', m)). apply bt_get_elem, Hm in E as [L _]; [|done].
        exists r', m. split; [apply Ha; eauto|]. auto.
      + apply Hh in E as [N%elem_of_nil|[A (key & _ & Re)]]; [done|]. cbn in A, Re. apply Ha in A as [N A].
        exists r', m. split; [done|]. split; [|done]. right. split; [done|by exists key].
    - intros (r' & m & N & [L|[A (key & Re)]] & Hin).
      + left. exists (r', m). split; [done|]. apply bt_get_elem, Hm; [done|]. split; [done|]. left. by eapply Lv.
      + right. exists (r', m). split; [done|]. apply Hh. right. cbn. split; [by apply Ha|]. exists key. split; [|done].
        destruct Re as (stamp & d & v & D & _ & _ & V & _). apply starts_with_spec in D as [rest ->]. unfold history_dir in *.
        eapply (Key r' _ (str "manifests/" ++ rest)); [done|by rewrite <-!app_assoc|by rewrite V]. }
  assert (Pl : ∀ r name, (r, name) ∈ pinned ↔ names_layer s r name).
  { intros r name. rewrite Hp. unfold names_layer. split.
    - intros [N%elem_of_nil|(r' & key & sm & Hin & _ & At & E)]; [done|]. rewrite Hg in E by done. exists r', key, sm. auto.
    - intros (r' & key & sm & N & At & E). right. pose proof At as [[D _] (d & v & V & _)]. apply starts_with_spec in D as [rest ->].
      assert (Q : shards_dir (layout_new r') ++ rest ∈ keys ∧ r' ∈ refs).
      { apply (Key r' _ (str "shards/" ++ rest) N); [|by rewrite V]. unfold shards_dir, layout_new. cbn [tl_prefix]. by rewrite <-!app_assoc. }
      destruct Q as [Q1 Q2]. eexists r', _, sm. rewrite Hg by done. done. }
  intros key. rewrite set_of_elem, !elem_of_app, !collect_elem, He. unfold garbage.
  setoid_rewrite Ha. setoid_rewrite chk_garbage_spec. setoid_rewrite layer_garbage_spec. setoid_rewrite Pc. setoid_rewrite Pl.
  split.
  - intros [[N%elem_of_nil|(In & r & [N [m L]] & Ex)]|[(In & r & [N [m L]] & Q)|(In & r & [N [m L]] & Q)]]; [done| | |];
      apply Hk in In as [V _]; (split; [done|]); exists r, m; auto.
  - intros (V & r & m & N & L & [Ex|[Q|Q]]).
    + left. right. split; [|eauto]. destruct Ex as (stamp & D & _). apply starts_with_spec in D as [rest ->]. unfold history_dir in *.
      eapply (Key r _ (str "manifests/" ++ rest)); [done|by rewrite <-!app_assoc|done].
    + right. left. split; [|eauto]. destruct Q as (id & rest & _ & -> & _).
      eapply (Key r _ (str "chk/" ++ id ++ slash :: rest)); [done|by rewrite <-!app_assoc|done].
    + right. right. split; [|eauto]. destruct Q as (sh & name & _ & -> & _).
      eapply (Key r _ (str "shards/" ++ sh ++ slash :: name)); [done| |done]. unfold shards_dir, layout_new. cbn [tl_prefix]. by rewrite <-!app_assoc.
Qed.
End spec.
