(* ===== verification/GcExact.v ===== *)
(** * GcExact: two phases, and nothing that is needed

    Deleting and stamping after the scan, the candidates object from one run
    to the next, and what a pass can never take from a reader.

    What a tenant's manifest, its snapshots inside the retention and its
    shard manifests name survives every pass, under whichever tenant it is
    kept; a dry run writes nothing; one sweep at a time holds the lock. *)
From S2P Require Import Prelude Order Text Lsn Externals Frame Bloom LayerKey Layer LayerBuild LayerRead LayerLookup LayerMap Memtable Cas Layout PageRead PageReadProofs Prog Manifest ShardManifest Shards Utf8 Branch BranchReads BranchProofs Gc GcProofs.

#[global] Instance fate_eq_dec : EqDecision fate.
Proof. solve_decision. Defined.

(** ** The candidates object *)
Lemma strip_cr_clean l : last l ≠ Some CR → strip_cr l = l.
Proof.
  intros N. unfold strip_cr. destruct (strip_suffix [CR] l) as [r|] eqn:E; [|done].
  apply strip_suffix_inv in E as ->. by rewrite last_snoc in N.
Qed.
Lemma lines_from_clean line l s :
  newline ∉ l → last (line ++ l) ≠ Some CR → lines_from line (l ++ newline :: s) = (line ++ l) :: lines s.
Proof.
  revert line. induction l as [|b l IH]; intros line N C.
  - cbn. rewrite app_nil_r in *. by rewrite strip_cr_clean.
  - apply not_elem_of_cons in N as [N1 N2]. cbn. rewrite bool_decide_false by done.
    rewrite IH; [by rewrite <-app_assoc|done|by rewrite <-app_assoc].
Qed.
Lemma digit_lower_10 d : 0 ≤ d < 10 → digit_lower d ≠ SPACE ∧ digit_lower d ≠ newline ∧ ascii (digit_lower d).
Proof.
  revert d. refine (small_digits 10 (λ d, _) _). intros n Hn. do 10 (destruct n as [|n]; [split_and!; (done || by apply (bool_decide_unpack _); vm_compute)|]).
  cbn in Hn. lia.
Qed.
Lemma fmt_dec_plain w z : SPACE ∉ fmt_dec w z ∧ newline ∉ fmt_dec w z ∧ utf8 (fmt_dec w z).
Proof.
  unfold fmt_dec, fmt_radix. split_and!; [apply fix_digits_no_sep; [lia|apply digit_lower_10]..|].
  apply utf8_ascii, fix_digits_forall; [lia|apply digit_lower_10].
Qed.
(** A key the candidates object can hold on a line. *)
Definition plain_key (key : bytes) : Prop := utf8 key ∧ newline ∉ key ∧ key ≠ [] ∧ last key ≠ Some CR.
Lemma parse_rendered next acc :
  Forall (λ e, plain_key e.1 ∧ fits 8 e.2) next →
  parse_lines (lines (render_candidates next)) acc = Ok (foldl (λ acc e, bt_insert e.1 e.2 acc) acc next).
Proof.
  intros F. revert acc. induction F as [|[key ts] next [(U & N & Ne & C) B] F IH]; intros acc; [done|].
  assert (Bt : 0 ≤ ts ≤ u64_max) by (change (0 ≤ ts < 2 ^ 64) in B; unfold u64_max; lia).
  destruct (fmt_dec_plain 1 ts) as (D1 & D2 & _). unfold render_candidates, lines. rewrite bind_cons. cbn [fst snd]. fold (render_candidates next).
  replace ((fmt_dec 1 ts ++ [SPACE] ++ key ++ [newline]) ++ render_candidates next)
    with ((fmt_dec 1 ts ++ [SPACE] ++ key) ++ newline :: render_candidates next) by by rewrite <-!app_assoc.
  rewrite lines_from_clean; cbn [app].
  - cbn [parse_lines]. rewrite (split_once_app SPACE (fmt_dec 1 ts) key) by done. cbn [mbind option_bind].
    rewrite (from_str_fmt _ 10 ltac:(lia) good_dec) by done. apply IH.
  - rewrite not_elem_of_app, not_elem_of_cons. split_and!; [done|done|done].
  - rewrite last_app_cons. destruct key as [|b key]; [done|]. cbn [last] in *. by destruct key.
Qed.
Lemma bt_rebuild {A B} `{OrdOk A} (m acc : list (A * B)) k :
  bt_wf m → bt_wf acc →
  bt_wf (foldl (λ acc e, bt_insert e.1 e.2 acc) acc m) ∧
  bt_get k (foldl (λ acc e, bt_insert e.1 e.2 acc) acc m) = match bt_get k m with Some v => Some v | None => bt_get k acc end.
Proof.
  revert acc. induction m as [|[k' v'] m IH]; intros acc W Wa; [done|]. cbn [foldl fst snd]. destruct W as [W1 W2].
  destruct (IH (bt_insert k' v' acc) W2) as [Wf Gf]; [by apply bt_insert_wf|]. split; [done|]. rewrite Gf, bt_get_insert by done. cbn [bt_get].
  destruct (oeqb k k') eqn:C; [|done]. apply oeqb_spec in C as ->. rewrite bt_get_head_lt; [done|]. intros e He. by apply (W1 e).
Qed.
Lemma candidates_round_trip next :
  bt_wf next → Forall (λ e, plain_key e.1 ∧ fits 8 e.2) next → parse_candidates (render_candidates next) = Ok next.
Proof.
  intros W F. unfold parse_candidates. rewrite guard_run; cycle 1.
  { apply negb_false_iff. change (utf8 (render_candidates next)). clear W. induction F as [|[key ts] next [(U & _) _] F IH]; [done|].
    unfold render_candidates. rewrite bind_cons. apply utf8_app; [|exact IH]. cbn [fst snd].
    apply utf8_app; [apply fmt_dec_plain|]. apply utf8_app; [done|]. by apply utf8_app. }
  rewrite parse_rendered by done. f_equal. destruct (bt_rebuild next [] [] W) as [Wf _]; [done|].
  apply bt_ext; [done..|]. intros k. destruct (bt_rebuild next [] k W) as [_ ->]; [done|]. by destruct (bt_get k next).
Qed.

(** ** Deleting *)
Section acting.
Context {S : Type} `{CasSnap S} `{SerdeManifestOk} `{SerdeShardOk}.
Implicit Types s : S.
Variable now_unix : Z.
Variable policy : Policy.
Abbreviation fate_in := (fate_of now_unix policy).

Lemma delete_alone key s ms :
  cas_inv s → ∃ s', delete_ key (alone s ms) = (alone s' ms, Some (Ok ())) ∧ cas_inv s' ∧ cas_view s' key = None ∧
    ∀ key', key' ≠ key → cas_view s' key' = cas_view s key'.
Proof.
  intros I. unfold delete_. cbn [meddle alone w_env w_store w_ms]. pose proof (cas_delete_ok s key I) as D.
  destruct (cas_delete s key) as [s' r]. destruct D as (I' & -> & V & O). by exists s'.
Qed.
(** The stamps a run leaves. *)
Definition stamped (state : list (bytes * Z)) (g : list bytes) (next next' : list (bytes * Z)) : Prop :=
  bt_wf next' ∧ ∀ key, bt_get key next' = if decide (key ∈ g) then match fate_in state key with Wait st => Some st | Delete => bt_get key next end
                                        else bt_get key next.
Lemma stamped_nil state next : bt_wf next → stamped state [] next next.
Proof. intros W. split; [done|]. intros k. by rewrite decide_False by apply not_elem_of_nil. Qed.
Lemma stamped_cons state g next next' key :
  key ∉ g → stamped state g (match fate_in state key with Wait st => bt_insert key st next | Delete => next end) next' → bt_wf next →
  stamped state (key :: g) next next'.
Proof.
  intros N [W G] Wn. split; [done|]. intros k. rewrite G. destruct (decide (k = key)) as [->|Nk].
  - rewrite decide_False by done. rewrite decide_True by by left. destruct (fate_in state key); [done|].
    by rewrite bt_get_insert, oeqb_refl by done.
  - assert (E : bt_get k (match fate_in state key with Wait st => bt_insert key st next | Delete => next end) = bt_get k next).
    { destruct (fate_in state key); [done|]. rewrite bt_get_insert by done. destruct (oeqb k key) eqn:C; [by apply oeqb_spec in C|done]. }
    rewrite !E. destruct (decide (k ∈ g)) as [In|In]; [rewrite decide_True by by right|rewrite decide_False by (rewrite not_elem_of_cons; done)]; done.
Qed.
Lemma act_run s ms state g next n dm :
  cas_inv s → po_dry_run policy = false → NoDup g → bt_wf next →
  ∃ s' next' n', act now_unix policy state g next n dm (alone s ms) = (alone s' ms, Some (Ok (next', n', dm))) ∧ cas_inv s' ∧
    (∀ key, key ∈ g → fate_in state key = Delete → cas_view s' key = None) ∧
    (∀ key, ¬ (key ∈ g ∧ fate_in state key = Delete) → cas_view s' key = cas_view s key) ∧ stamped state g next next'.
Proof.
  intros I Dr N. revert s next n I. induction N as [|key g Hn N IH]; intros s next n I W; cbn [act].
  { exists s, next, n. split_and!; [done|done|by intros ? ?%elem_of_nil|done|by apply stamped_nil]. }
  destruct (fate_in state key) as [|st] eqn:F.
  - rewrite Dr. destruct (delete_alone key s ms I) as (s1 & E1 & I1 & V1 & O1). erewrite io_ok by exact E1.
    destruct (IH s1 next (n + 1) I1 W) as (s' & next' & n' & E & I' & A & B & St). exists s', next', n'. split; [exact E|].
    split_and!; [done| | |apply stamped_cons; [done|by rewrite F|done]].
    + intros k [->|Hk]%elem_of_cons Fk; [|by apply A]. rewrite B by naive_solver. done.
    + intros k Hk. rewrite elem_of_cons in Hk. rewrite B by naive_solver. apply O1. intros ->. apply Hk. auto.
  - destruct (IH s (bt_insert key st next) n I) as (s' & next' & n' & E & I' & A & B & St); [by apply bt_insert_wf|].
    exists s', next', n'. split; [exact E|]. split_and!; [done| | |apply stamped_cons; [done|by rewrite F|done]].
    + intros k [->|Hk]%elem_of_cons Fk; [congruence|by apply A].
    + intros k Hk. rewrite elem_of_cons in Hk. apply B. naive_solver.
Qed.
(** A dry run tells the same and touches nothing. *)
Lemma act_dry s ms state g next n dm :
  po_dry_run policy = true → NoDup g → bt_wf next →
  ∃ next' n', act now_unix policy state g next n dm (alone s ms) =
    (alone s ms, Some (Ok (next', n', dm ++ filter (λ key, fate_in state key = Delete) g))) ∧ stamped state g next next'.
Proof.
  intros Dr N. revert next n dm. induction N as [|key g Hn N IH]; intros next n dm W; cbn [act].
  { exists next, n. rewrite app_nil_r. split; [done|by apply stamped_nil]. }
  destruct (fate_in state key) as [|st] eqn:F.
  - rewrite Dr. destruct (IH next (n + 1) (dm ++ [key]) W) as (next' & n' & E & St). exists next', n'. split.
    + rewrite E. rewrite filter_cons_True by done. by rewrite <-app_assoc.
    + apply stamped_cons; [done|by rewrite F|done].
  - destruct (IH (bt_insert key st next) n dm) as (next' & n' & E & St); [by apply bt_insert_wf|]. exists next', n'. split.
    + rewrite E. rewrite filter_cons_False by congruence. done.
    + apply stamped_cons; [done|by rewrite F|done].
Qed.
End acting.

(** ** A pass *)
Lemma parsed_fits d state : parse_candidates d = Ok state → Forall (λ e, fits 8 e.2) state ∧ bt_wf state.
Proof.
  unfold parse_candidates. intros E. bind_inv E. revert E.
  assert (F0 : Forall (λ e : bytes * Z, fits 8 e.2) [] ∧ bt_wf ([] : list (bytes * Z))) by done. revert F0.
  generalize ([] : list (bytes * Z)) as acc. induction (lines d) as [|line ls IH]; intros acc [F W] E.
  { by apply (inj Ok) in E as <-. }
  cbn [parse_lines] in E. apply bind_ok in E as ([ts key] & E1 & E). eapply IH; [|exact E]. split; [|by apply bt_insert_wf].
  apply Forall_forall. intros e [->|He]%bt_insert_elem; [|by eapply Forall_forall in F]. cbn [snd].
  unfold ok_or in E1. destruct (split_once SPACE line) as [[x y]|]; [|done]. cbn in E1.
  destruct (from_str_radix 10 u64_max x) as [z|] eqn:R; [|done]. apply (inj Ok) in E1. injection E1 as -> ->.
  apply from_str_radix_range in R; [|unfold u64_max; lia..]. change (0 ≤ ts < 2 ^ 64). unfold u64_max in R. lia.
Qed.

Section pass.
Context {S : Type} `{CasSnap S} `{SerdeManifestOk} `{SerdeShardOk}.
Implicit Types s : S.
Variable now_unix : Z.
Variable policy : Policy.

(** The stamps the candidates object holds. *)
Definition stamps s (state : list (bytes * Z)) : Prop :=
  match cas_view s CANDIDATES_KEY with Some (d, _) => parse_candidates d = Ok state | None => state = [] end.
(** A stamp that came of age and is still to be trusted. *)
Definition ripe (state : list (bytes * Z)) (key : bytes) : Prop :=
  ∃ stamp, bt_get key state = Some stamp ∧ po_window_secs policy ≤ sat_sub now_unix stamp < po_retention_secs policy.
(** The stamp a key that stays garbage carries on with. *)
Definition restamped (state : list (bytes * Z)) (key : bytes) : Z :=
  match bt_get key state with
  | Some stamp => if sat_sub now_unix stamp <? po_retention_secs policy then stamp else now_unix
  | None => now_unix
  end.
Lemma fate_ripe state key :
  (fate_of now_unix policy state key = Delete ↔ ripe state key) ∧
  (fate_of now_unix policy state key = Delete ∨ fate_of now_unix policy state key = Wait (restamped state key)).
Proof.
  unfold fate_of, ripe, restamped. destruct (bt_get key state) as [stamp|]; cbn; [|split; [split; [done|naive_solver]|auto]].
  destruct (sat_sub now_unix stamp <? po_retention_secs policy) eqn:C1; zbool; cbn.
  - destruct (po_window_secs policy <=? sat_sub now_unix stamp) eqn:C2; zbool; (split; [split|auto]); try done; [eauto|].
    intros (st & [= <-] & L). lia.
  - split; [split; [done|]|auto]. intros (st & [= <-] & L). lia.
Qed.
Lemma load_candidates_run s ms state :
  cas_inv s → stamps s state → load_candidates (alone s ms) = (alone s ms, Some (Ok state)).
Proof.
  intros I St. unfold load_candidates. erewrite io_ok by by apply get_alone. unfold stamps in St.
  destruct (cas_view s CANDIDATES_KEY) as [[d v]|]; [unfold pure; by rewrite St|by subst].
Qed.
Lemma garbage_not_candidates s key : garbage now_unix policy s key → key ≠ CANDIDATES_KEY.
Proof.
  intros (_ & r & m & _ & _ & [(st & D & _)|[(id & rest & _ & -> & _)|(sh & name & _ & -> & _)]]) Q; try by vm_compute in Q.
  apply starts_with_spec in D as [rest E]. rewrite Q in E. by vm_compute in E.
Qed.

(** What a pass does, whole. *)
Lemma pass_run s (ms : Z) (state : list (bytes * Z)) :
  gc_ok now_unix policy s → po_dry_run policy = false → stamps s state → fits 8 now_unix →
  (∀ key, garbage now_unix policy s key → plain_key key) →
  ∃ s' stats, run_with now_unix policy (alone s ms) = (alone s' ms, Some (Ok stats)) ∧ cas_inv s' ∧
    (∀ key, garbage now_unix policy s key → ripe state key → cas_view s' key = None) ∧
    (∀ key, key ≠ CANDIDATES_KEY → ¬ (garbage now_unix policy s key ∧ ripe state key) → cas_view s' key = cas_view s key) ∧
    ∃ next, stamps s' next ∧ ∀ key stamp, bt_get key next = Some stamp ↔
      garbage now_unix policy s key ∧ ¬ ripe state key ∧ stamp = restamped state key.
Proof.
  intros O Dr St Fn Pl. pose proof (go_inv _ _ _ O) as I.
  destruct (scan_run now_unix policy s ms O) as (n & g & Es & Nd & Hg).
  destruct (act_run now_unix policy s ms state g [] 0 [] I Dr Nd) as (s1 & next & k & Ea & I1 & A & B & W & G); [done|].
  destruct (put_alone (E := GcError) GStore CANDIDATES_KEY (render_candidates next) s1 ms I1) as (s2 & v & Ep & I2 & V2 & O2).
  assert (Hn : ∀ key stamp, bt_get key next = Some stamp ↔ garbage now_unix policy s key ∧ ¬ ripe state key ∧ stamp = restamped state key).
  { intros key stamp. rewrite G, <-Hg. destruct (fate_ripe state key) as [Fd Fw]. case_decide as In; [|naive_solver].
    destruct Fw as [F|F]; rewrite F in *; [split; [done|tauto]|]. split; [|by intros (_ & _ & ->)]. intros [= <-]. split; [done|]. naive_solver. }
  exists s2. eexists. split; [|split; [done|split_and!]].
  - unfold run_with. erewrite io_ok by exact Es. cbv beta iota. erewrite io_ok by by apply load_candidates_run.
    erewrite io_ok by exact Ea. cbv beta iota. rewrite Dr. erewrite io_ok by exact Ep. reflexivity.
  - intros key Gk R. rewrite O2 by by eapply garbage_not_candidates. apply A; [by apply Hg|by apply fate_ripe].
  - intros key N Nk. rewrite O2 by done. apply B. intros [In F]. apply Nk. split; [by apply Hg|by apply fate_ripe].
  - exists next. split; [|exact Hn]. unfold stamps. rewrite V2. apply candidates_round_trip; [done|].
    apply Forall_forall. intros [key stamp] He. apply bt_get_elem, Hn in He as (Gk & _ & ->); [|done]. split; [by apply Pl|]. cbn [snd].
    unfold restamped. destruct (bt_get key state) as [stamp|] eqn:Gs; [|done]. destruct (_ <? _); [|done].
    unfold stamps in St. destruct (cas_view s CANDIDATES_KEY) as [[d v']|]; [|by subst].
    apply parsed_fits in St as [F Ws]. apply bt_get_elem in Gs; [|done]. rewrite Forall_forall in F. by apply F in Gs.
Qed.

(** C21: a pass deletes exactly the garbage whose stamp came of age.  On a
    store at rest in which everything a pass reads can be read, a run
    returns; the keys it deletes are the garbage with a stamp at least the
    window and less than the retention old, every other object but the
    candidates is as before, and the candidates object then holds exactly
    the remaining garbage, each key with the stamp it had, or with the time
    of this run when it had none or one older than the retention.  So no run
    deletes a key the run before did not find to be garbage too. *)
Theorem gc_pass_exact s (ms : Z) (state : list (bytes * Z)) :
  gc_ok now_unix policy s → po_dry_run policy = false → stamps s state → fits 8 now_unix →
  (∀ key, garbage now_unix policy s key → plain_key key) →
  ∃ s' stats, run_with now_unix policy (alone s ms) = (alone s' ms, Some (Ok stats)) ∧ cas_inv s' ∧
    (∀ key, garbage now_unix policy s key → ripe state key → cas_view s' key = None) ∧
    (∀ key, key ≠ CANDIDATES_KEY → ¬ (garbage now_unix policy s key ∧ ripe state key) → cas_view s' key = cas_view s key) ∧
    ∃ next, stamps s' next ∧ ∀ key stamp, bt_get key next = Some stamp ↔
      garbage now_unix policy s key ∧ ¬ ripe state key ∧ stamp = restamped state key.
Proof. apply pass_run. Qed.
End pass.

Lemma digit_lower_not_slash d : 0 ≤ d < 16 → digit_lower d ≠ slash.
Proof.
  revert d. refine (small_digits 16 (λ d, _) _). intros n Hn. do 16 (destruct n as [|n]; [done|]). cbn in Hn. lia.
Qed.
Lemma fmt_hex_no_slash w z : slash ∉ fmt_hex w z.
Proof. apply fix_digits_no_sep; [lia|]. apply digit_lower_not_slash. Qed.
Lemma object_key_under t n b d key :
  object_key (for_shard t n b) d (desc_name d) = Ok key →
  ∃ shard, key = shard_prefix (layout_new (default t (ld_owner d))) shard ++ desc_name d.
Proof.
  unfold object_key. cbn [lr_prefix lr_tenant lr_shard for_shard].
  destruct (ld_owner d), (ld_home d); cbn; intros E; apply (inj Ok) in E as <-; by eexists.
Qed.

Section reads.
Context `{CrcOk, Lz4Ok} {S : Type} `{CasSnap S} `{SerdeManifestOk} `{SerdeShardOk}.
Implicit Types s : S.
Variable now_unix : Z.
Variable policy : Policy.

Lemma garbage_under s o rest :
  slash ∉ o → garbage now_unix policy s (str "tenants/" ++ o ++ str "/" ++ rest) →
  (∃ rest', rest = str "manifests/" ++ rest' ∧ expired now_unix policy o (str "tenants/" ++ o ++ str "/" ++ rest)) ∨
  (∃ id rest', slash ∉ id ∧ rest = str "chk/" ++ id ++ slash :: rest' ∧ ¬ names_chk now_unix policy s o id) ∨
  (∃ sh name, slash ∉ sh ∧ rest = str "shards/" ++ sh ++ slash :: name ∧ is_layer name = true ∧ ¬ names_layer s o name).
Proof.
  intros N (_ & r & m & Nr & _ & G).
  assert (Same : ∀ dir rest', str "tenants/" ++ o ++ str "/" ++ rest = (str "tenants/" ++ r ++ str "/" ++ dir) ++ rest' → o = r ∧ rest = dir ++ rest').
  { intros dir rest' E. assert (Q : Some o = Some r).
    { rewrite <-(ref_of_dir r dir rest' Nr), <-E. symmetry. apply ref_of_spec. eauto. }
    injection Q as ->. split; [done|]. rewrite <-!app_assoc in E. by apply app_inv_head, app_inv_head, app_inv_head in E. }
  destruct G as [Ex|[(id & rest' & Ni & E & C)|(sh & name & Ns & E & L & C)]].
  - left. destruct Ex as (st & D & Q). pose proof D as D'. apply starts_with_spec in D' as [rest' E].
    apply (Same (str "manifests/")) in E as [-> ->]. exists rest'. split; [done|]. by exists st.
  - right. left. apply (Same (str "chk/")) in E as [-> ->]. by exists id, rest'.
  - right. right. unfold shards_dir, layout_new in E. cbn [tl_prefix] in E. rewrite <-(app_assoc (str "tenants/")) in E.
    rewrite <-app_assoc in E. apply (Same (str "shards/")) in E as [-> ->]. by exists sh, name.
Qed.
(** ** What is kept *)
(** A layer some shard manifest of [t] lists. *)
Definition listed_by s (t : bytes) (d : LayerDesc) : Prop :=
  ∃ key sm e, shard_at s t key sm ∧ e ∈ sm_layers sm ∧ le_name e = desc_name d ∧ le_owner e = ld_owner d ∧
    ∀ o, ld_owner d = Some o → slash ∉ o.
(** A checkpoint the manifest of [t] or a snapshot of it in the retention
    lists, under the tenant that keeps it. *)
Definition checkpoint_of s (t o id : bytes) : Prop :=
  ∃ m c, (live s t m ∨ (∃ m0, live s t m0) ∧ ∃ key, retained now_unix policy s t key m) ∧
    c ∈ m_checkpoints m ∧ cr_id c = id ∧ o = default t (cr_owner c).

Lemma pins_own os t owner name : t ∈ os → (default t owner, name) ∈ pins_of os owner name.
Proof. intros T. destruct owner; cbn; [by left|]. apply list_elem_of_fmap. by exists t. Qed.
Lemma layer_kept s t d shard :
  slash ∉ t → listed_by s t d →
  ¬ garbage now_unix policy s (shard_prefix (layout_new (default t (ld_owner d))) shard ++ desc_name d).
Proof.
  intros N (key & sm & e & At & He & En & Eo & No) G. set (o := default t (ld_owner d)) in *.
  assert (Nso : slash ∉ o) by (unfold o; destruct (ld_owner d); [by apply No|done]).
  replace (shard_prefix (layout_new o) shard ++ desc_name d)
    with (str "tenants/" ++ o ++ str "/" ++ str "shards/" ++ fmt_hex 4 shard ++ slash :: desc_name d) in G
    by (unfold shard_prefix, layout_new; cbn [tl_prefix]; by rewrite <-!app_assoc).
  apply garbage_under in G as [(? & E & _)|[(? & ? & _ & E & _)|(sh & name & Ns & E & _ & C)]]; [discriminate E..| |done].
  apply app_inv_head in E. assert (Q : split_once slash (fmt_hex 4 shard ++ slash :: desc_name d) = split_once slash (sh ++ slash :: name)) by by rewrite E.
  rewrite !split_once_app in Q by (done || apply fmt_hex_no_slash). injection Q as _ <-. apply C.
  exists t, key, sm. split; [done|]. split; [done|]. unfold pin_layers. apply list_elem_of_bind. exists e. split; [|done].
  rewrite En, Eo. apply pins_own. by left.
Qed.
Lemma checkpoint_kept s t o id file :
  slash ∉ t → slash ∉ o → slash ∉ id → checkpoint_of s t o id →
  ¬ garbage now_unix policy s (tl_prefix (layout_new o) ++ str "/chk/" ++ id ++ str "/" ++ file).
Proof.
  intros N No Ni (m & c & L & Hc & Ei & Eo) G.
  replace (tl_prefix (layout_new o) ++ str "/chk/" ++ id ++ str "/" ++ file)
    with (str "tenants/" ++ o ++ str "/" ++ str "chk/" ++ id ++ slash :: file) in G
    by (unfold layout_new; cbn [tl_prefix]; by rewrite <-!app_assoc).
  apply garbage_under in G as [(? & E & _)|[(id' & ? & Ni' & E & C)|(? & ? & _ & E & _)]]; [discriminate E| |discriminate E|done].
  apply app_inv_head in E. assert (Q : split_once slash (id ++ slash :: file) = split_once slash (id' ++ slash :: x)) by by rewrite E.
  rewrite !split_once_app in Q by done. injection Q as <- _. apply C.
  exists t, m. split; [done|]. split; [done|]. unfold pin. apply list_elem_of_bind. exists c. split; [|done].
  cbn [fst snd]. rewrite Ei, Eo. apply pins_own. by left.
Qed.
Lemma manifest_kept s t : slash ∉ t → ¬ garbage now_unix policy s (manifest_key (layout_new t)).
Proof.
  intros N G. replace (manifest_key (layout_new t)) with (str "tenants/" ++ t ++ str "/" ++ str "MANIFEST") in G
    by (unfold manifest_key, layout_new; cbn [tl_prefix]; by rewrite <-!app_assoc).
  by apply garbage_under in G as [(? & E & _)|[(? & ? & _ & E & _)|(? & ? & _ & E & _)]]; [discriminate E..|].
Qed.
Lemma shard_kept s t n : slash ∉ t → ¬ garbage now_unix policy s (shard_manifest (layout_new t) n).
Proof.
  intros N G. replace (shard_manifest (layout_new t) n) with (str "tenants/" ++ t ++ str "/" ++ str "shards/" ++ fmt_hex 4 n ++ slash :: str "SHARD") in G
    by (unfold shard_manifest, shard_prefix, layout_new; cbn [tl_prefix]; by rewrite <-!app_assoc).
  apply garbage_under in G as [(? & E & _)|[(? & ? & _ & E & _)|(sh & name & Ns & E & L & _)]]; [discriminate E..| |done].
  apply app_inv_head in E. assert (Q : split_once slash (fmt_hex 4 n ++ slash :: str "SHARD") = split_once slash (sh ++ slash :: name)) by by rewrite E.
  rewrite !split_once_app in Q by (done || apply fmt_hex_no_slash). injection Q as _ <-. by vm_compute in L.
Qed.

(** C20: a pass takes nothing from a reader.  Whatever else a pass deletes,
    the tenant's manifest and its shard manifests stay as they were, so do
    all files of every checkpoint that its manifest or a snapshot of it
    inside the retention lists, and every layer a shard manifest of the
    tenant lists, of the current shard count or an older one, is where the
    reader finds it with the bytes it had: its own layers, and the ones it
    inherited that are kept under the tenant it was branched from. *)
Theorem gc_keeps_reads s (ms : Z) (state : list (bytes * Z)) (t : bytes) (n b : Z) (ds : list LayerDesc)
    (obj : LayerDesc → bytes) (ftr : LayerDesc → LayerFooter) (images : LayerDesc → list ImageEntry)
    (deltas : LayerDesc → list DeltaEntry) :
  gc_ok now_unix policy s → po_dry_run policy = false → stamps s state → fits 8 now_unix →
  (∀ key, garbage now_unix policy s key → plain_key key) → slash ∉ t →
  Forall (listed_by s t) ds → world_ok s ds obj ftr images deltas (for_shard t n b) →
  ∃ s' stats, run_with now_unix policy (alone s ms) = (alone s' ms, Some (Ok stats)) ∧
    world_ok s' ds obj ftr images deltas (for_shard t n b) ∧
    cas_view s' (manifest_key (layout_new t)) = cas_view s (manifest_key (layout_new t)) ∧
    (∀ i, cas_view s' (shard_manifest (layout_new t) i) = cas_view s (shard_manifest (layout_new t) i)) ∧
    ∀ o id file, slash ∉ o → slash ∉ id → checkpoint_of s t o id →
      let key := tl_prefix (layout_new o) ++ str "/chk/" ++ id ++ str "/" ++ file in cas_view s' key = cas_view s key.
Proof.
  intros O Dr St Fn Pl N F [Wi Wo Wn Wd Wm].
  destruct (pass_run now_unix policy s ms state O Dr St Fn Pl) as (s' & stats & E & I' & _ & K & _).
  assert (Keep : ∀ key, head key = Some (Byte.x74) → ¬ garbage now_unix policy s key → cas_view s' key = cas_view s key).
  { intros key Hd G. apply K; [by intros ->; vm_compute in Hd|]. by intros [? _]. }
  exists s', stats. split; [exact E|]. split_and!.
  - split; [done| |done|done|done]. intros d Hd. destruct (Wo d Hd) as (key & v & Ek & V & L). exists key, v. split; [done|]. split; [|done].
    rewrite <-V. rewrite Forall_forall in F. destruct (object_key_under t n b d key Ek) as [shard ->].
    apply Keep; [done|]. apply layer_kept; [done|by apply F].
  - apply Keep; [done|by apply manifest_kept].
  - intros i. apply Keep; [done|by apply shard_kept].
  - intros o id file No Ni C. apply Keep; [done|by apply (checkpoint_kept s t o id file)].
Qed.
End reads.
