(* ===== verification/GcLock.v ===== *)
(** * GcLock: one sweep at a time, and the command that starts one

    The lock line and what it keeps out (crates/zou-pg/src/gc.rs), and how
    `zou gc` reads its durations (crates/zou/src/gc.rs).

    A small store with a tenant, its layers, an orphan checkpoint stamped
    by an earlier run and one no run has seen yet; and runs that show what
    the lock and the scan do with odd inputs. *)
From S2P Require Import Prelude Order Text Lsn Externals Frame Bloom LayerKey Layer LayerBuild LayerRead LayerLookup LayerMap Memtable Cas Layout PageRead PageReadProofs Prog Manifest ShardManifest Shards Utf8 Branch BranchReads BranchProofs BranchHistory Gc GcProofs GcExact.

(** ** The command *)
Inductive ArgError :=
  | BadDuration (raw : bytes)
  | NeedsValue (flag : bytes)
  | Unexpected (arg : bytes)
  | RetentionTooShort (retention window : Z)
  | NoTarget.
(** The last character of a text that ends in ASCII, and what is before. *)
Definition scaled (raw : bytes) : bytes * Z :=
  match rev raw with
  | b :: front =>
      if bool_decide (b = Byte.x73) then (rev front, 1)
      else if bool_decide (b = Byte.x6d) then (rev front, 60)
      else if bool_decide (b = Byte.x68) then (rev front, 60 * 60)
      else if bool_decide (b = Byte.x64) then (rev front, 24 * 60 * 60)
      else (raw, 1)
  | [] => (raw, 1)
  end.
(** [secs] *)
Definition secs (raw : bytes) : res ArgError Z :=
  let raw := trim raw in
  let '(digits, scale) := scaled raw in
  ok_or (n ← from_str_radix 10 u64_max digits; if n * scale <=? u64_max then Some (n * scale) else None) (BadDuration raw).
(** [span] *)
Definition UNITS : list (bytes * Z) := [(str "d", 24 * 60 * 60); (str "h", 60 * 60); (str "m", 60)].
Definition span (secs : Z) : bytes :=
  match list_find (λ u, u.2 ≤ secs ∧ secs mod u.2 = 0) UNITS with
  | Some (_, (unit, size)) => fmt_dec 1 (secs / size) ++ unit
  | None => fmt_dec 1 secs ++ str "s"
  end.
(** [holder]: of the node id in the environment, or the process id. *)
Definition gc_holder (node_id : option bytes) (pid : Z) : bytes :=
  match node_id with
  | Some (_ :: _ as id) => str "gc-" ++ id
  | _ => str "gc-pid-" ++ fmt_dec 1 pid
  end.
(** [parse] *)
Fixpoint parse_args (argv : list bytes) (target : option bytes) (policy : Policy) : res ArgError (option bytes * Policy) :=
  match argv with
  | [] => mret (target, policy)
  | arg :: argv =>
      if bool_decide (arg = str "--window") then
        match argv with
        | v :: argv => n ← secs v; parse_args argv target (mkPolicy n (po_retention_secs policy) (po_lock_ttl_secs policy) (po_dry_run policy) (po_force policy))
        | [] => Err (NeedsValue arg)
        end
      else if bool_decide (arg = str "--retention") then
        match argv with
        | v :: argv => n ← secs v; parse_args argv target (mkPolicy (po_window_secs policy) n (po_lock_ttl_secs policy) (po_dry_run policy) (po_force policy))
        | [] => Err (NeedsValue arg)
        end
      else if bool_decide (arg = str "--lock-ttl") then
        match argv with
        | v :: argv => n ← secs v; parse_args argv target (mkPolicy (po_window_secs policy) (po_retention_secs policy) n (po_dry_run policy) (po_force policy))
        | [] => Err (NeedsValue arg)
        end
      else if bool_decide (arg = str "--dry-run") then
        parse_args argv target (mkPolicy (po_window_secs policy) (po_retention_secs policy) (po_lock_ttl_secs policy) true (po_force policy))
      else if bool_decide (arg = str "--force") then
        parse_args argv target (mkPolicy (po_window_secs policy) (po_retention_secs policy) (po_lock_ttl_secs policy) (po_dry_run policy) true)
      else if bool_decide (target = None) && negb (starts_with arg (str "-")) then parse_args argv (Some arg) policy
      else Err (Unexpected arg)
  end.
Definition gc_args (argv : list bytes) : res ArgError (bytes * Policy) :=
  '(target, policy) ← parse_args argv None policy_default;
  _ ← guard_err (po_retention_secs policy <=? po_window_secs policy) (RetentionTooShort (po_retention_secs policy) (po_window_secs policy));
  target ← ok_or target NoTarget;
  mret (target, policy).

(** ** Trimming *)
Lemma strip_white_stop strip fuel s : (∀ w, w ∈ WHITE → strip w s = None) → strip_white strip fuel s = s.
Proof.
  intros N. destruct fuel; [done|]. cbn [strip_white]. destruct (head _) as [r|] eqn:E; [|done].
  apply head_Some_elem_of, list_elem_of_omap in E as (w & Hw & E). by rewrite N in E.
Qed.
(** A printable ASCII byte starts and ends no white character. *)
Definition graphic (b : byte) : Prop := 33 ≤ bval b < 127.
Lemma white_not_graphic w : w ∈ WHITE → (∃ b, head w = Some b ∧ ¬ graphic b) ∧ (∃ b, last w = Some b ∧ ¬ graphic b).
Proof.
  assert (F : Forall (λ w, (from_option (λ b, negb ((33 <=? bval b) && (bval b <? 127))) false (head w) &&
                            from_option (λ b, negb ((33 <=? bval b) && (bval b <? 127))) false (last w)) = true) WHITE).
  { apply (bool_decide_unpack _). by vm_compute. }
  rewrite Forall_forall in F. intros Hw. apply F, andb_true_iff in Hw as [A B]. unfold graphic. split.
  - destruct (head w) as [b|]; [|done]. exists b. split; [done|]. cbn in A. lia.
  - destruct (last w) as [b|]; [|done]. exists b. split; [done|]. cbn in B. lia.
Qed.
Lemma trim_clean s e :
  (∃ b r, s = b :: r ∧ graphic b) → (∃ l b, s = l ++ [b] ∧ graphic b) → e = [] ∨ e = [newline] → trim (s ++ e) = s.
Proof.
  intros (b & r & E1 & G1) (l & c & E2 & G2) He. unfold trim. rewrite (strip_white_stop strip_prefix).
  2: { intros w [(b' & Hb & Nb) _]%white_not_graphic. destruct w as [|x w]; [done|]. injection Hb as ->. rewrite E1. cbn. rewrite decide_False; [done|].
       intros ->. done. }
  assert (Stop : ∀ fuel, strip_white strip_suffix fuel s = s).
  { intros fuel. apply strip_white_stop. intros w [_ (b' & Hb & Nb)]%white_not_graphic. destruct (strip_suffix w s) as [x|] eqn:Sx; [|done].
    apply strip_suffix_inv in Sx. rewrite E2 in Sx. destruct w as [|? w]; [done|]. apply (f_equal last) in Sx. rewrite last_snoc, last_app_cons, Hb in Sx.
    by injection Sx as ->. }
  destruct He as [-> | ->]; [by rewrite app_nil_r|]. rewrite length_app, Nat.add_1_r. cbn [strip_white].
  assert (Q : head (omap (λ w, strip_suffix w (s ++ [newline])) WHITE) = Some s); [|by rewrite Q].
  assert (N : ∀ x, x ≠ newline → strip_suffix [x] (s ++ [newline]) = None).
  { intros x Nx. unfold strip_suffix. rewrite rev_app_distr. cbn. by rewrite decide_False by done. }
  assert (∃ W, WHITE = [Byte.x09] :: [newline] :: W) as [W ->] by (eexists; reflexivity).
  change (head (match strip_suffix [Byte.x09] (s ++ [newline]) with
                | Some y => y :: omap (λ w, strip_suffix w (s ++ [newline])) ([newline] :: W)
                | None => omap (λ w, strip_suffix w (s ++ [newline])) ([newline] :: W) end) = Some s).
  rewrite N by done.
  change (head (match strip_suffix [newline] (s ++ [newline]) with
                | Some y => y :: omap (λ w, strip_suffix w (s ++ [newline])) W
                | None => omap (λ w, strip_suffix w (s ++ [newline])) W end) = Some s).
  by rewrite strip_suffix_app.
Qed.
Lemma digit_graphic d : 0 ≤ d < 10 → graphic (digit_lower d).
Proof.
  intros Hd. unfold graphic, digit_lower. destruct (d <? 10) eqn:?; rewrite bval_byte_of_Z, Z.mod_small; lia.
Qed.
Lemma dec_graphic w z : Forall graphic (fmt_dec w z).
Proof. apply fix_digits_forall; [lia|apply digit_graphic]. Qed.
Lemma dec_last z : 0 ≤ z → ∃ l b, fmt_dec 1 z = l ++ [b] ∧ graphic b.
Proof.
  intros Z0. pose proof (dec_graphic 1 z) as F. assert (N : fmt_dec 1 z ≠ []).
  { intros E. assert (Q : from_str_radix 10 (Z.max z u64_max) (fmt_dec 1 z) = Some z)
      by (apply (from_str_fmt _ 10 ltac:(lia) good_dec); lia). by rewrite E in Q. }
  destruct (exists_last N) as (l & b & E). exists l, b. split; [done|]. rewrite E in F. apply Forall_app in F as [_ F]. by inversion F.
Qed.

(** ** The lock *)
(** A holder that can be told from the line it is on. *)
Definition holder_ok (h : bytes) : Prop := utf8 h ∧ SPACE ∉ h ∧ ∃ b r, h = b :: r ∧ graphic b.
Definition lock_line (h : bytes) (until : Z) : bytes := h ++ [SPACE] ++ fmt_dec 1 until ++ [newline].
Lemma held_line h until : holder_ok h → 0 ≤ until ≤ u64_max → held (lock_line h until) = Some (h, until).
Proof.
  intros (U & N & b & r & E & G) L. unfold held, lock_line.
  assert (V : utf8_valid (h ++ [SPACE] ++ fmt_dec 1 until ++ [newline]) = true).
  { apply utf8_app; [done|]. apply utf8_app; [done|]. apply utf8_app; [apply fmt_dec_plain|done]. }
  rewrite V. replace (h ++ [SPACE] ++ fmt_dec 1 until ++ [newline]) with ((h ++ [SPACE] ++ fmt_dec 1 until) ++ [newline])
    by by rewrite <-!app_assoc.
  rewrite trim_clean; [|rewrite E; by eexists b, _| |by right].
  - change ([SPACE] ++ fmt_dec 1 until) with (SPACE :: fmt_dec 1 until). rewrite split_once_app by done. cbn [mbind option_bind].
    by rewrite (from_str_fmt _ 10 ltac:(lia) good_dec) by done.
  - destruct (dec_last until ltac:(lia)) as (l & c & -> & Gc). exists (h ++ [SPACE] ++ l), c. split; [by rewrite <-!app_assoc|done].
Qed.

Section lock.
Context {S : Type} `{CasSnap S} `{SerdeManifestOk} `{SerdeShardOk}.
Implicit Types s : S.

(** Who holds the lock at a time. *)
Definition holds s (now : Z) : option (bytes * Z) :=
  '(d, _) ← cas_view s LOCK_KEY; '(h, until) ← held d; if now <? until then Some (h, until) else None.
Lemma lock_busy s ms h now policy h' until :
  cas_inv s → po_force policy = false → holds s now = Some (h', until) →
  lock h now policy (alone s ms) = (alone s ms, Some (Ok (Theirs h' until))).
Proof.
  intros I F Hd. unfold lock, run. rewrite exec_bind. unfold get_. rewrite alone_get by done. cbn [exec map_err]. rewrite F.
  unfold holds in Hd. by rewrite Hd.
Qed.
Lemma lock_free s ms h now policy :
  cas_inv s → po_force policy = true ∨ holds s now = None →
  let line := lock_line h (Z.min (now + po_lock_ttl_secs policy) u64_max) in
  ∃ s' v, lock h now policy (alone s ms) = (alone s' ms, Some (Ok (Ours line))) ∧ cas_inv s' ∧
    cas_view s' LOCK_KEY = Some (line, v) ∧ ∀ key, key ≠ LOCK_KEY → cas_view s' key = cas_view s key.
Proof.
  intros I F line.
  edestruct (alone_put (E := GcError) (A := Claimed) s ms LOCK_KEY line (snd <$> cas_view s LOCK_KEY))
    as (s' & v & _ & I' & V & O & X); [done|done|].
  exists s', v. split; [|done]. unfold lock, run. rewrite exec_bind. unfold get_. rewrite alone_get by done. cbn [exec map_err].
  assert (Q : (if po_force policy then None else '(d, _) ← cas_view s LOCK_KEY; '(h, until) ← held d; if now <? until then Some (h, until) else None) = None).
  { destruct F as [->|Hd]; [done|]. unfold holds in Hd. rewrite Hd. by destruct (po_force policy). }
  rewrite Q. etrans; [apply X|]. done.
Qed.
Lemma unlock_run s ms line :
  cas_inv s →
  ∃ s', unlock line (alone s ms) = (alone s' ms, Some (Ok ())) ∧ cas_inv s' ∧
    (∀ key, key ≠ LOCK_KEY → cas_view s' key = cas_view s key) ∧
    cas_view s' LOCK_KEY = match cas_view s LOCK_KEY with Some (d, v) => if bool_decide (d = line) then None else Some (d, v) | None => None end.
Proof.
  intros I. unfold unlock. erewrite io_ok by by apply get_alone. destruct (cas_view s LOCK_KEY) as [[d v]|] eqn:V; [|by exists s].
  case_bool_decide; [|by exists s]. destruct (delete_alone LOCK_KEY s ms I) as (s' & E & I' & V' & O). by exists s'.
Qed.

(** One sweep at a time.  On a store whose lock is free a sweep that is
    neither dry nor forced takes it with its own name and the end of its
    time to live.  As long as that lock object stands, every other such
    sweep that starts before the end is told who holds it and until when and
    leaves the store as it is; one that starts at the end or later takes it
    over, and then the release of the first, whenever it comes, leaves the
    new holder's lock where it is. *)
Theorem gc_lock_exclusive s (ms now : Z) (h : bytes) (policy : Policy) :
  cas_inv s → holds s now = None → holder_ok h → 0 ≤ now → 0 ≤ po_lock_ttl_secs policy →
  let until := Z.min (now + po_lock_ttl_secs policy) u64_max in
  ∃ s1, lock h now policy (alone s ms) = (alone s1 ms, Some (Ok (Ours (lock_line h until)))) ∧
    ∀ s2 ms2 h2 now2 policy2, cas_inv s2 → cas_view s2 LOCK_KEY = cas_view s1 LOCK_KEY →
      po_dry_run policy2 = false → po_force policy2 = false →
      if now2 <? until then sweep h2 now2 policy2 (alone s2 ms2) = (alone s2 ms2, Some (Ok (Busy h until)))
      else ∃ s3 line, lock h2 now2 policy2 (alone s2 ms2) = (alone s3 ms2, Some (Ok (Ours line))) ∧
        (line ≠ lock_line h until → ∃ s4, unlock (lock_line h until) (alone s3 ms2) = (alone s4 ms2, Some (Ok ())) ∧
           cas_view s4 LOCK_KEY = cas_view s3 LOCK_KEY ∧ fst <$> cas_view s4 LOCK_KEY = Some line).
Proof.
  intros I Fr Ho N0 T0 until. destruct (lock_free s ms h now policy I (or_intror Fr)) as (s1 & v & E1 & I1 & V1 & _).
  exists s1. split; [exact E1|]. intros s2 ms2 h2 now2 policy2 I2 Vs Dr Fo.
  assert (Hs : holds s2 now2 = if now2 <? until then Some (h, until) else None).
  { unfold holds. rewrite Vs, V1. cbn [mbind option_bind]. fold until. rewrite held_line; [done|done|unfold until, u64_max; lia]. }
  destruct (now2 <? until).
  - unfold sweep. rewrite Dr. by erewrite io_ok by by apply lock_busy.
  - destruct (lock_free s2 ms2 h2 now2 policy2 I2 (or_intror Hs)) as (s3 & v3 & E3 & I3 & V3 & _).
    eexists s3, _. split; [exact E3|]. intros Nl. destruct (unlock_run s3 ms2 (lock_line h until) I3) as (s4 & E4 & _ & _ & V4).
    exists s4. split; [exact E4|]. rewrite V4, V3, bool_decide_false by done. done.
Qed.
End lock.

(** ** Durations *)
(** [secs] reads back what [span] writes. *)
Lemma secs_span n : 0 ≤ n ≤ u64_max → secs (span n) = Ok n.
Proof.
  intros L.
  assert (R : ∀ m unit scale, 0 ≤ m → m * scale = n → 1 ≤ scale → unit ∈ [Byte.x73; Byte.x6d; Byte.x68; Byte.x64] →
    scaled (fmt_dec 1 m ++ [unit]) = (fmt_dec 1 m, scale) → secs (fmt_dec 1 m ++ [unit]) = Ok n).
  { intros m unit scale M E1 Sc Hu E2. unfold secs.
    rewrite <-(app_nil_r (fmt_dec 1 m ++ [unit])), trim_clean; [rewrite E2| | |by left].
    - assert (Mu : 0 ≤ m ≤ u64_max) by nia. rewrite (from_str_fmt _ 10 ltac:(lia) good_dec) by done. cbn [mbind option_bind]. rewrite E1.
      by destruct (Z.leb_spec n u64_max); [|lia].
    - destruct (dec_last m M) as (l & b & E & G). pose proof (dec_graphic 1 m) as F. rewrite E in *.
      destruct l as [|c l]; [by eexists b, _|]. exists c. eexists. split; [done|]. by apply Forall_app in F as [[? _]%Forall_cons _].
    - eexists _, unit. split; [done|]. rewrite !elem_of_cons in Hu. unfold graphic. destruct Hu as [->|[->|[->|[->|Hu]]]]; try (by apply elem_of_nil in Hu);
        change (33 ≤ 115 < 127) || change (33 ≤ 109 < 127) || change (33 ≤ 104 < 127) || change (33 ≤ 100 < 127); lia. }
  assert (Sc : ∀ m unit, scaled (m ++ [unit]) = (if bool_decide (unit = Byte.x73) then (m, 1)
      else if bool_decide (unit = Byte.x6d) then (m, 60) else if bool_decide (unit = Byte.x68) then (m, 60 * 60)
      else if bool_decide (unit = Byte.x64) then (m, 24 * 60 * 60) else (m ++ [unit], 1))).
  { intros m unit. unfold scaled. rewrite rev_app_distr. cbn [rev app]. by rewrite rev_involutive. }
  assert (Dv : ∀ d, 0 < d → n mod d = 0 → 0 ≤ n / d ∧ n / d * d = n).
  { intros d D Md. pose proof (Z.div_mod n d ltac:(lia)). split; [apply Z.div_pos; lia|lia]. }
  unfold span. destruct (list_find _ UNITS) as [[i [unit size]]|] eqn:F.
  - apply list_find_Some in F as (Hu & [Hs Hm] & _). cbn [snd] in *. apply list_elem_of_lookup_2 in Hu.
    unfold UNITS in Hu. rewrite !elem_of_cons in Hu. destruct Hu as [[= -> ->]|[[= -> ->]|[[= -> ->]|Hu]]]; [..|by apply elem_of_nil in Hu];
      (apply Dv in Hm as [D1 D2]; [|lia]); (eapply R; [exact D1|exact D2|lia|set_solver|by rewrite Sc]).
  - eapply (R n _ 1); [lia|lia|lia|set_solver|by rewrite Sc].
Qed.

Module GcWitness.
Import Concrete PageReadWitness ManifestConcrete ShardWitness.
Import BranchReadsWitness.
Definition t : bytes := str "t".
Definition man : Manifest :=
  mkManifest 2 t 3 None (mkPg 18 1) [mkCheckpoint (str "f1") 256 CkFull None] (Some 512) None None 1 [] None.
Definition put (s : MemStore) (key data : bytes) : MemStore := (put_if_absent s key data).1.
Definition old_orphan : bytes := chk_index (layout_new t) (str "x").
Definition new_orphan : bytes := chk_index (layout_new t) (str "y").
Definition state : list (bytes * Z) := [(old_orphan, 950)].
Definition objects : list (bytes * bytes) :=
  [(lr_prefix r0 ++ desc_name dI, I.1); (lr_prefix r0 ++ desc_name dD, D.1);
   (manifest_key (layout_new t), to_json man); (shard_manifest (layout_new t) 0, shard_encode sm);
   (chk_index (layout_new t) (str "f1"), str "named"); (old_orphan, str "orphan"); (new_orphan, str "orphan");
   (CANDIDATES_KEY, render_candidates state)].
Definition store : MemStore := foldl (λ s o, put s o.1 o.2) ms_new objects.
Definition policy : Policy := mkPolicy 10 100 60 false false.

Lemma fill_inv os s : cas_inv s → cas_inv (foldl (λ s o, put s o.1 o.2) s os).
Proof. revert s. induction os as [|o os IH]; intros s I; [done|]. by apply IH, put_if_absent_inv. Qed.
Lemma fill_views os s key d v :
  cas_inv s → cas_view (foldl (λ s o, put s o.1 o.2) s os) key = Some (d, v) → cas_view s key = Some (d, v) ∨ (key, d) ∈ os.
Proof.
  revert s. induction os as [|o os IH]; intros s In V; [by left|]. cbn [foldl] in V.
  apply IH in V as [V|V]; [|by right; right|by apply put_if_absent_inv]. apply BranchWitness.put_view in V as [V|[-> ->]]; [by left| |done].
  right. destruct o. by left.
Qed.
Lemma gc_store_inv : cas_inv store.
Proof. apply fill_inv, ms_new_ok. Qed.
Lemma gc_store_views key d v : cas_view store key = Some (d, v) → (key, d) ∈ objects.
Proof. intros [V|V]%fill_views; [discriminate V|exact V|apply ms_new_ok]. Qed.

Lemma man_reads : from_json (to_json man) = Ok man.
Proof. apply readable_back. apply (bool_decide_unpack _). by vm_compute. Qed.
Lemma sm_decodes : shard_decode (shard_encode sm) = Ok sm.
Proof. apply shard_decode_encode. apply (bool_decide_unpack _). by vm_compute. Qed.
Lemma manifest_last r : ends_with (manifest_key (layout_new r)) (str "/MANIFEST") = true.
Proof. unfold ends_with, manifest_key. by rewrite strip_suffix_app. Qed.

(** The objects a key that passes a test can be among. *)
Lemma object_at (f : bytes → bool) key d v :
  cas_view store key = Some (d, v) → f key = true → ∃ i, f <$> (fst <$> objects) !! i = Some true ∧ objects !! i = Some (key, d).
Proof.
  intros V%gc_store_views E. apply list_elem_of_lookup in V as [i V]. exists i. split; [|done]. rewrite list_lookup_fmap, V. cbn. by rewrite E.
Qed.
Definition passing (f : bytes → bool) : list nat := filter (λ i, f <$> (fst <$> objects) !! i = Some true) (seq 0 8).
Lemma passes (f : bytes → bool) key d v :
  cas_view store key = Some (d, v) → f key = true → ∃ i, i ∈ passing f ∧ objects !! i = Some (key, d).
Proof.
  intros V E. destruct (object_at f key d v V E) as (i & Fi & Oi). exists i. split; [|done]. apply list_elem_of_filter.
  split; [done|]. apply elem_of_seq. apply lookup_lt_Some in Oi. change (length objects) with 8%nat in Oi. lia.
Qed.
Lemma same_data (os : list (bytes * bytes)) i k d key d' : os !! i = Some (k, d) → os !! i = Some (key, d') → d = d'.
Proof. congruence. Qed.
Lemma third : objects !! 2%nat = Some (manifest_key (layout_new t), to_json man).
Proof. reflexivity. Qed.
Lemma fourth : objects !! 3%nat = Some (shard_manifest (layout_new t) 0, shard_encode sm).
Proof. reflexivity. Qed.
Lemma store_gc_ok : gc_ok 1000 policy store.
Proof.
  split.
  - apply gc_store_inv.
  - intros r d v V. apply (passes (λ k, ends_with k (str "/MANIFEST"))) in V as (i & Pi & Oi); [|apply manifest_last].
    assert (Q : passing (λ k, ends_with k (str "/MANIFEST")) = [2%nat]) by by vm_compute. rewrite Q in Pi. apply list_elem_of_singleton in Pi as ->.
    rewrite <-(same_data _ _ _ _ _ _ third Oi). exists man. exact man_reads.
  - intros r key stamp d v D Hs _ V. apply (passes (λ k, bool_decide (is_Some (history_stamp k)))) in V as (i & Pi & Oi); [|by rewrite Hs].
    assert (Q : passing (λ k, bool_decide (is_Some (history_stamp k))) = []) by by vm_compute. rewrite Q in Pi. destruct (not_elem_of_nil i Pi).
  - intros r key d v [_ E] V. apply (passes (λ k, ends_with k (str "/SHARD"))) in V as (i & Pi & Oi); [|done].
    assert (Q : passing (λ k, ends_with k (str "/SHARD")) = [3%nat]) by by vm_compute. rewrite Q in Pi. apply list_elem_of_singleton in Pi as ->.
    rewrite <-(same_data _ _ _ _ _ _ fourth Oi). exists sm. exact sm_decodes.
  - intros d v V. exists state. assert (Q : cas_view store CANDIDATES_KEY = Some (render_candidates state, str "8")) by by vm_compute.
    rewrite Q in V. injection V as <- _. by vm_compute.
Qed.
Lemma store_stamps : stamps store state.
Proof. by vm_compute. Qed.
#[global] Instance plain_key_dec key : Decision (plain_key key).
Proof. unfold plain_key, utf8. apply _. Defined.
Lemma store_plain key : garbage 1000 policy store key → plain_key key.
Proof.
  intros [[[d v] V%gc_store_views] _]. assert (F : Forall (λ o, plain_key o.1) objects).
  { apply (bool_decide_unpack _). by vm_compute. }
  rewrite Forall_forall in F. by apply F in V.
Qed.
Lemma man_live : live store t man.
Proof. exists (to_json man), (str "3"). split; [by vm_compute|exact man_reads]. Qed.
Lemma old_garbage : garbage 1000 policy store old_orphan.
Proof.
  split; [eexists; by vm_compute|]. exists t, man. split; [by apply (bool_decide_unpack _); vm_compute|]. split; [exact man_live|].
  right. left. exists (str "x"), (str "INDEX"). split; [by apply (bool_decide_unpack _); vm_compute|]. split; [by vm_compute|].
  intros (r' & m & N & L & P). assert (m = man ∧ r' = t) as [-> ->].
  { destruct L as [(d & v & V & E)|[(m0 & d & v & V & E) (key & stamp & d' & v' & _ & Hs & _ & V' & _)]].
    - apply (passes (λ k, ends_with k (str "/MANIFEST"))) in V as (i & Pi & Oi); [|apply manifest_last].
      assert (Q : passing (λ k, ends_with k (str "/MANIFEST")) = [2%nat]) by by vm_compute. rewrite Q in Pi. apply list_elem_of_singleton in Pi as ->.
      rewrite <-(same_data _ _ _ _ _ _ third Oi), man_reads in E. split; [by apply (inj Ok) in E|].
      assert (Ek : manifest_key (layout_new t) = manifest_key (layout_new r')) by (pose proof third as T; congruence).
      symmetry. by apply manifest_key_inj in Ek.
    - apply (passes (λ k, bool_decide (is_Some (history_stamp k)))) in V' as (i & Pi & Oi); [|by rewrite Hs].
      assert (Q : passing (λ k, bool_decide (is_Some (history_stamp k))) = []) by by vm_compute. rewrite Q in Pi. destruct (not_elem_of_nil i Pi). }
  assert (Q : pin (t, man) = [(t, str "f1")]) by by vm_compute. rewrite Q in P. apply list_elem_of_singleton in P. discriminate P.
Qed.
Lemma store_world : world_ok store layers (λ d, obj (desc_name d)) (λ d, ftr (desc_name d)) (λ _, ies) (λ _, des) r0.
Proof.
  destruct world_by_name as [_ _ Wn Wd Wm]. split; [apply gc_store_inv| |exact Wn|exact Wd|exact Wm].
  destruct (one_of_ok _ _ I.1 D.1 names_differ : obj (desc_name dI) = I.1 ∧ obj (desc_name dD) = D.1) as [Ei Ed].
  intros d [-> | ->]%in_layers.
  - exists (lr_prefix r0 ++ desc_name dI), (str "1"). split; [done|]. rewrite Ei. split; by vm_compute.
  - exists (lr_prefix r0 ++ desc_name dD), (str "2"). split; [done|]. rewrite Ed. split; by vm_compute.
Qed.
Lemma store_shard : shard_at store t (shard_manifest (layout_new t) 0) sm.
Proof.
  set (key := shard_manifest (layout_new t) 0). split; [by vm_compute|].
  assert (B : bool_decide (is_Some (cas_view store key)) = true) by by vm_compute. apply bool_decide_eq_true in B as [[d v] V].
  exists d, v. split; [exact V|]. apply (passes (λ k, ends_with k (str "/SHARD"))) in V as (i & Pi & Oi); [|by vm_compute].
  assert (Q : passing (λ k, ends_with k (str "/SHARD")) = [3%nat]) by by vm_compute. rewrite Q in Pi. apply list_elem_of_singleton in Pi as ->.
  rewrite <-(same_data _ _ _ _ _ _ fourth Oi). exact sm_decodes.
Qed.
Lemma store_listed : Forall (listed_by store t) layers.
Proof.
  apply Forall_forall. intros d [-> | ->]%in_layers.
  - exists (shard_manifest (layout_new t) 0), sm, (mkEntry (desc_name dI) (zlen I.1) None None).
    split; [exact store_shard|]. split; [apply list_elem_of_here|]. split; [reflexivity|].
    assert (Q : ld_owner dI = None) by by vm_compute. rewrite Q. split; [reflexivity|]. intros o [=].
  - exists (shard_manifest (layout_new t) 0), sm, (mkEntry (desc_name dD) (zlen D.1) None None).
    split; [exact store_shard|]. split; [apply list_elem_of_further, list_elem_of_here|]. split; [reflexivity|].
    assert (Q : ld_owner dD = None) by by vm_compute. rewrite Q. split; [reflexivity|]. intros o [=].
Qed.

Lemma old_ripe : ripe 1000 policy state old_orphan.
Proof. exists 950. split; [by vm_compute|]. split; by vm_compute. Qed.
Lemma new_not_ripe : ¬ ripe 1000 policy state new_orphan.
Proof. intros (st & G & _). by vm_compute in G. Qed.
Lemma new_not_candidates : new_orphan ≠ CANDIDATES_KEY.
Proof. by vm_compute. Qed.

(** The stamped orphan goes; the other stays, stamped. *)
Lemma gc_pass_exact_witness :
  ∃ s' stats, run_with 1000 policy (alone store 0) = (alone s' 0, Some (Ok stats)) ∧ cas_view s' old_orphan = None ∧
    cas_view s' new_orphan = cas_view store new_orphan.
Proof.
  destruct (gc_pass_exact 1000 policy store 0 state) as (s' & stats & E & _ & Del & Keep & _).
  - exact store_gc_ok.
  - reflexivity.
  - exact store_stamps.
  - apply (bool_decide_unpack _). by vm_compute.
  - exact store_plain.
  - exists s', stats. split; [exact E|]. split.
    + exact (Del _ old_garbage old_ripe).
    + apply Keep; [exact new_not_candidates|]. intros [_ R]. exact (new_not_ripe R).
Defined.
Lemma gc_keeps_reads_witness :
  ∃ s' stats, run_with 1000 policy (alone store 0) = (alone s' 0, Some (Ok stats)) ∧
    world_ok s' layers (λ d, obj (desc_name d)) (λ d, ftr (desc_name d)) (λ _, ies) (λ _, des) (for_shard t 0 BLOCK_CACHE_BYTES) ∧
    cas_view s' (chk_index (layout_new t) (str "f1")) = cas_view store (chk_index (layout_new t) (str "f1")).
Proof.
  destruct (gc_keeps_reads 1000 policy store 0 state t 0 BLOCK_CACHE_BYTES layers (λ d, obj (desc_name d)) (λ d, ftr (desc_name d)) (λ _, ies) (λ _, des))
    as (s' & stats & E & W & _ & _ & K).
  - exact store_gc_ok.
  - reflexivity.
  - exact store_stamps.
  - apply (bool_decide_unpack _). by vm_compute.
  - exact store_plain.
  - apply (bool_decide_unpack _). by vm_compute.
  - exact store_listed.
  - exact store_world.
  - exists s', stats. split; [exact E|]. split; [exact W|].
    apply (K t (str "f1") (str "INDEX")); [apply (bool_decide_unpack _); by vm_compute..|].
    exists man. eexists. split; [left; exact man_live|]. split; [by left|]. split; reflexivity.
Defined.
Lemma store_free : holds store 1000 = None.
Proof. by vm_compute. Qed.
Lemma a_holds : holder_ok (str "gc-a").
Proof. split; [by vm_compute|]. split; [by apply (bool_decide_unpack _); vm_compute|]. eexists _, _. split; [reflexivity|]. split; by vm_compute. Qed.
Lemma ttl_positive : 0 ≤ po_lock_ttl_secs policy.
Proof. by vm_compute. Qed.
(** [ttl] past the start: busy just before, free at the end. *)
Lemma gc_lock_exclusive_witness :
  ∃ s1, lock (str "gc-a") 1000 policy (alone store 0) = (alone s1 0, Some (Ok (Ours (lock_line (str "gc-a") 1060)))) ∧
    sweep (str "gc-b") 1059 policy (alone s1 0) = (alone s1 0, Some (Ok (Busy (str "gc-a") 1060))).
Proof.
  destruct (gc_lock_exclusive store 0 1000 (str "gc-a") policy gc_store_inv store_free a_holds ltac:(lia) ttl_positive) as (s1 & E & B).
  exists s1. split; [exact E|]. refine (B s1 0 (str "gc-b") 1059 policy _ eq_refl eq_refl eq_refl).
  destruct (lock_free store 0 (str "gc-a") 1000 policy gc_store_inv (or_intror store_free)) as (s1' & v & E' & I' & _).
  rewrite E' in E. injection E as <-. exact I'.
Defined.

(** ** Odd inputs *)
(** A holder name with a space makes a line nobody reads as a lock, so the
    next sweep takes it over at once: two sweeps run at the same time. *)
Example spaced_holder_excludes_nobody :
  let w := (lock (gc_holder (Some (str "node 7")) 1) 1000 policy (alone ms_new 0)).1 in
  held (match cas_view (w_store w) LOCK_KEY with Some (d, _) => d | None => [] end) = None ∧
  (lock (str "gc-b") 1001 policy w).2 = Some (Ok (Ours (lock_line (str "gc-b") 1061))).
Proof. split; by vm_compute. Qed.
(** One tenant's manifest that cannot be read stops the collection for every
    tenant. *)
Example one_bad_manifest_stops_all :
  ∃ e, (run_with 1000 policy (alone (put (put ms_new (manifest_key (layout_new (str "a"))) (to_json (manifest_new (str "a") 18)))
    (manifest_key (layout_new (str "b"))) (str "junk")) 0)).2 = Some (Err (GManifest (str "b") e)).
Proof. eexists. by vm_compute. Qed.
End GcWitness.
