(* ===== verification/ForkSize.v ===== *)
(** * ForkSize: what a fork's SIZE marker claims (crates/zou-store/src/forksize.rs)

    A block below the watermark [dense] that no tier can produce is lost, so
    the watermark must never cover a block no page reached the store for;
    and it must keep up with pages written in any order.  With the step of
    a drain that moves a marker (crates/zou-pg/src/pending.rs). *)
From S2P Require Import Prelude.

Record ForkSize := mkFork { fs_nblocks : Z; fs_dense : Z; fs_filled : Z }.
#[global] Instance ForkSize_eq_dec : EqDecision ForkSize.
Proof. solve_decision. Defined.
Definition WINDOW : Z := 64.
Definition OLD_LEN : Z := 4.
Definition LEN : Z := 16.
Definition u32_max : Z := 2 ^ 32 - 1.
(** [ForkSize::plain], [ForkSize::default] *)
Definition fs_plain (nblocks : Z) : ForkSize := mkFork nblocks 0 0.
Definition fs_default : ForkSize := mkFork 0 0 0.
(** [u64::trailing_ones] *)
Fixpoint trailing_ones_from (fuel : nat) (f : Z) : Z :=
  match fuel with
  | O => 0
  | S fuel => if Z.testbit f 0 then 1 + trailing_ones_from fuel (Z.shiftr f 1) else 0
  end.
Definition trailing_ones (f : Z) : Z := trailing_ones_from 64 f.
(** [ForkSize::walk] *)
Definition walk (m : ForkSize) : ForkSize :=
  let steps := trailing_ones (fs_filled m) in
  if steps =? 0 then m
  else mkFork (fs_nblocks m) (Z.min (Z.min (fs_dense m + steps) u32_max) (fs_nblocks m))
         (if WINDOW <=? steps then 0 else Z.shiftr (fs_filled m) steps).
(** [ForkSize::decode] *)
Definition fs_decode (b : bytes) : option ForkSize :=
  if zlen b =? OLD_LEN then Some (fs_plain (le_val b))
  else if zlen b =? LEN then
    let nblocks := le_val (sub b 0 4) in
    Some (walk (mkFork nblocks (Z.min (le_val (sub b 4 8)) nblocks) (le_val (sub b 8 16))))
  else None.
(** [ForkSize::encode] *)
Definition fs_encode (m : ForkSize) : bytes := le_bytes 4 (fs_nblocks m) ++ le_bytes 4 (fs_dense m) ++ le_bytes 8 (fs_filled m).
(** [ForkSize::written] *)
Definition fs_written (m : ForkSize) (blk : Z) : bool := blk <? fs_dense m.
(** [ForkSize::fill] *)
Definition fill (m : ForkSize) (blk : Z) : ForkSize :=
  if blk <? fs_dense m then m
  else
    let off := blk - fs_dense m in
    if WINDOW <=? off then m
    else walk (mkFork (fs_nblocks m) (fs_dense m) (Z.lor (fs_filled m) (Z.shiftl 1 off))).
(** [ForkSize::fill_run] *)
Definition fill_run (m : ForkSize) (blk count : Z) : ForkSize :=
  foldl fill m (seqZ blk (Z.min (blk + count) u32_max - blk)).
(** [ForkSize::grow] *)
Definition grow (m : ForkSize) (nblocks : Z) : ForkSize :=
  if fs_nblocks m <? nblocks then mkFork nblocks (fs_dense m) (fs_filled m) else m.
(** [ForkSize::truncate] *)
Definition truncate (m : ForkSize) (nblocks : Z) : ForkSize :=
  if nblocks <? fs_dense m then mkFork nblocks nblocks 0
  else
    let room := nblocks - fs_dense m in
    mkFork nblocks (fs_dense m) (if room <? WINDOW then Z.land (fs_filled m) (Z.shiftl 1 room - 1) else fs_filled m).
(** [ForkSize::merge] *)
Definition merge (a b : ForkSize) : ForkSize :=
  let '(ahead, behind) := if fs_dense b <=? fs_dense a then (a, b) else (b, a) in
  let shift := fs_dense ahead - fs_dense behind in
  let lifted := if WINDOW <=? shift then 0 else Z.shiftr (fs_filled behind) shift in
  let nblocks := Z.max (fs_nblocks a) (fs_nblocks b) in
  walk (mkFork nblocks (Z.min (fs_dense ahead) nblocks) (Z.lor (fs_filled ahead) lifted)).
(** What a drain makes of a marker once the pages are in the store. *)
Definition drained (was : ForkSize) (new_size : Z) (pages : list Z) : ForkSize := foldl fill (grow was new_size) pages.

(** ** Honest markers *)
(** [P] holds of the blocks a page reached the store for. *)
Record Honest (P : Z → Prop) (m : ForkSize) : Prop := {
  ho_count : 0 ≤ fs_nblocks m ≤ u32_max;
  ho_dense : 0 ≤ fs_dense m ≤ fs_nblocks m;
  ho_filled : 0 ≤ fs_filled m < 2 ^ 64;
  ho_written : ∀ b, 0 ≤ b < fs_dense m → P b;
  ho_window : ∀ j, 0 ≤ j → Z.testbit (fs_filled m) j = true → P (fs_dense m + j) ∧ fs_dense m + j < fs_nblocks m
}.
(** At rest the watermark has walked as far as it can. *)
Definition walked (m : ForkSize) : Prop := Z.testbit (fs_filled m) 0 = false.

Lemma trailing_ones_spec fuel f :
  0 ≤ f → 0 ≤ trailing_ones_from fuel f ≤ Z.of_nat fuel ∧
  (∀ j, 0 ≤ j < trailing_ones_from fuel f → Z.testbit f j = true) ∧
  (trailing_ones_from fuel f < Z.of_nat fuel → Z.testbit f (trailing_ones_from fuel f) = false).
Proof.
  revert f. induction fuel as [|fuel IH]; intros f F; cbn [trailing_ones_from]; [split_and!; [lia|lia|intros j; lia|lia]|].
  destruct (Z.testbit f 0) eqn:B; [|split_and!; [lia|lia|intros j; lia|done]].
  destruct (IH (Z.shiftr f 1)) as (L & A & N); [by apply Z.shiftr_nonneg|]. set (t := trailing_ones_from fuel (Z.shiftr f 1)) in *. split_and!; [lia|lia| |].
  - intros j Hj. destruct (decide (j = 0)) as [->|Ne]; [done|]. rewrite <-(A (j - 1)) by lia. rewrite Z.shiftr_spec by lia. f_equal. lia.
  - intros Lt. rewrite <-N by lia. rewrite Z.shiftr_spec by lia. f_equal. lia.
Qed.
Lemma high_bit f j : 0 ≤ f < 2 ^ 64 → 64 ≤ j → Z.testbit f j = false.
Proof. intros F Hj. destruct (decide (f = 0)) as [->|N]; [apply Z.testbit_0_l|]. apply Z.bits_above_log2; [lia|]. assert (Z.log2 f < 64) by (apply Z.log2_lt_pow2; lia). lia. Qed.
Lemma walk_honest P m : Honest P m → Honest P (walk m) ∧ walked (walk m) ∧ fs_dense m ≤ fs_dense (walk m) ∧ fs_nblocks (walk m) = fs_nblocks m ∧
  ∀ b, fs_dense m ≤ b → Z.testbit (fs_filled m) (b - fs_dense m) = true → b < fs_dense (walk m) ∨ Z.testbit (fs_filled (walk m)) (b - fs_dense (walk m)) = true.
Proof.
  intros [C D F Wr Wi]. destruct (trailing_ones_spec 64 (fs_filled m)) as (L & A & N); [lia|]. unfold walk. fold (trailing_ones (fs_filled m)) in *.
  set (t := trailing_ones (fs_filled m)) in *. destruct (Z.eqb_spec t 0) as [E0|N0].
  - split; [by split|]. split; [|split_and!; [lia|done|by right]]. unfold walked. rewrite E0 in N. apply N. lia.
  - destruct (Wi (t - 1)) as [_ Top]; [lia|apply A; lia|]. replace (Z.min (Z.min (fs_dense m + t) u32_max) (fs_nblocks m)) with (fs_dense m + t) by lia.
    assert (Bits : ∀ j, 0 ≤ j → Z.testbit (if WINDOW <=? t then 0 else Z.shiftr (fs_filled m) t) j = Z.testbit (fs_filled m) (j + t)).
    { intros j Hj. unfold WINDOW. destruct (Z.leb_spec 64 t); [rewrite Z.testbit_0_l; symmetry; apply high_bit; lia|]. apply Z.shiftr_spec. lia. }
    split; [split; cbn [fs_nblocks fs_dense fs_filled]; try done|split_and!; cbn [fs_nblocks fs_dense fs_filled]].
    + lia.
    + unfold WINDOW. destruct (64 <=? t); [lia|]. rewrite Z.shiftr_div_pow2 by lia. split; [apply Z.div_pos; lia|].
      apply Z.le_lt_trans with (fs_filled m); [|lia]. apply Z.div_le_upper_bound; [lia|]. nia.
    + intros b Hb. destruct (decide (b < fs_dense m)); [apply Wr; lia|]. replace b with (fs_dense m + (b - fs_dense m)) by lia. apply Wi; [lia|]. apply A. lia.
    + intros j Hj. rewrite Bits by done. intros B. replace (fs_dense m + t + j) with (fs_dense m + (j + t)) by lia. apply Wi; [lia|done].
    + unfold walked. cbn [fs_filled]. rewrite Bits by lia. destruct (decide (t < 64)); [apply N; lia|apply high_bit; lia].
    + lia.
    + done.
    + intros b Hb B. destruct (decide (b < fs_dense m + t)); [by left|]. right. rewrite Bits by lia. rewrite <-B. f_equal. lia.
Qed.
(** What is known of a block, below the watermark or in the window. *)
Definition knows (m : ForkSize) (b : Z) : Prop := b < fs_dense m ∨ Z.testbit (fs_filled m) (b - fs_dense m) = true.
Lemma walk_knows P m b : Honest P m → knows m b → knows (walk m) b.
Proof.
  intros Ho. destruct (walk_honest P m Ho) as (_ & _ & Le & _ & Keep). intros [K|K]; [left; lia|].
  destruct (decide (fs_dense m ≤ b)); [by apply Keep|left; lia].
Qed.
Lemma fill_honest P m blk :
  Honest P m → walked m → P blk → 0 ≤ blk < fs_nblocks m →
  Honest P (fill m blk) ∧ walked (fill m blk) ∧ fs_dense m ≤ fs_dense (fill m blk) ∧ fs_nblocks (fill m blk) = fs_nblocks m ∧
  (∀ b, knows m b → knows (fill m blk) b) ∧ (blk < fs_dense m + 64 → knows (fill m blk) blk).
Proof.
  intros Ho Wk Pb Lt. unfold fill. destruct (Z.ltb_spec blk (fs_dense m)) as [Lo|Hi]; [split_and!; [done|done|lia|done|done|intros _; by left]|].
  unfold WINDOW. destruct (Z.leb_spec 64 (blk - fs_dense m)) as [Far|Near]; [split_and!; [done|done|lia|done|done|lia]|].
  set (off := blk - fs_dense m) in *. set (m1 := mkFork (fs_nblocks m) (fs_dense m) (Z.lor (fs_filled m) (Z.shiftl 1 off))).
  assert (Bit : ∀ j, 0 ≤ j → Z.testbit (Z.shiftl 1 off) j = bool_decide (j = off)).
  { intros j Hj. rewrite Z.shiftl_1_l, Z.pow2_bits_eqb by lia. apply Bool.eq_iff_eq_true. rewrite Z.eqb_eq, bool_decide_eq_true. lia. }
  assert (Ho1 : Honest P m1).
  { destruct Ho as [C D F Wr Wi]. split; cbn [fs_nblocks fs_dense fs_filled m1]; try done.
    - rewrite Z.shiftl_1_l. split; [apply Z.lor_nonneg; lia|]. apply Z.log2_lt_cancel. rewrite Z.log2_pow2, Z.log2_lor by lia.
      rewrite Z.log2_pow2 by lia. destruct (decide (fs_filled m = 0)) as [->|N]; [cbn; lia|].
      assert (Z.log2 (fs_filled m) < 64) by (apply Z.log2_lt_pow2; lia). lia.
    - intros j Hj. rewrite Z.lor_spec, orb_true_iff, Bit by done. intros [B|B%bool_decide_eq_true]; [by apply Wi|]. subst j.
      replace (fs_dense m + off) with blk by lia. split; [done|lia]. }
  destruct (walk_honest P m1 Ho1) as (Ho2 & Wk2 & Le & En & _). split_and!; [done|done|exact Le|exact En| |].
  - intros b K. eapply walk_knows; [exact Ho1|]. destruct K as [K|K]; [by left|]. right. cbn [m1 fs_filled fs_dense]. by rewrite Z.lor_spec, K.
  - intros _. eapply walk_knows; [exact Ho1|]. right. cbn [m1 fs_filled fs_dense]. fold off. rewrite Z.lor_spec, Bit by lia. by rewrite bool_decide_true, orb_true_r.
Qed.
Lemma fills_honest P m blks :
  Honest P m → walked m → Forall (λ b, P b ∧ 0 ≤ b < fs_nblocks m) blks →
  Honest P (foldl fill m blks) ∧ walked (foldl fill m blks) ∧ fs_dense m ≤ fs_dense (foldl fill m blks) ∧
  fs_nblocks (foldl fill m blks) = fs_nblocks m ∧ (∀ b, knows m b → knows (foldl fill m blks) b) ∧
  ∀ b, b ∈ blks → b < fs_dense m + 64 → knows (foldl fill m blks) b.
Proof.
  revert m. induction blks as [|x blks IH]; intros m Ho Wk F; [split_and!; [done|done|done|done|done|by intros b []%elem_of_nil]|].
  apply Forall_cons in F as [[Px Lx] F]. cbn [foldl]. destruct (fill_honest P m x Ho Wk Px Lx) as (Ho1 & Wk1 & Le1 & En1 & K1 & Kx).
  destruct (IH (fill m x) Ho1 Wk1) as (Ho2 & Wk2 & Le2 & En2 & K2 & Ka); [by rewrite En1|]. split_and!; [done|done|lia|congruence|auto|].
  intros b [->|Hb]%elem_of_cons Lt; [by apply K2, Kx|apply Ka; [done|lia]].
Qed.
Lemma grow_honest P m n : Honest P m → n ≤ u32_max → Honest P (grow m n) ∧ (walked m → walked (grow m n)) ∧ fs_nblocks m ≤ fs_nblocks (grow m n) ∧ n ≤ fs_nblocks (grow m n).
Proof.
  intros Ho Le. unfold grow. destruct (Z.ltb_spec (fs_nblocks m) n); [|split_and!; [done|done|lia|lia]]. destruct Ho as [C D F Wr Wi].
  split_and!; [split; cbn; try done; try lia|done|cbn; lia|cbn; lia]. intros j Hj B. destruct (Wi j Hj B). split; [done|lia].
Qed.
Lemma truncate_honest P m n : Honest P m → walked m → 0 ≤ n ≤ u32_max → Honest (λ b, P b ∧ b < n) (truncate m n) ∧ walked (truncate m n).
Proof.
  intros [C D F Wr Wi] Wk L. unfold truncate. destruct (Z.ltb_spec n (fs_dense m)) as [Lo|Hi].
  - split; [|done]. split; cbn; try lia; [|intros j _ B; by rewrite Z.testbit_0_l in B]. intros b Hb. split; [apply Wr; lia|lia].
  - set (room := n - fs_dense m) in *. replace (Z.shiftl 1 room - 1) with (Z.ones room) by (unfold Z.ones; lia). set (f := if room <? WINDOW then _ else _).
    assert (Bits : ∀ j, 0 ≤ j → Z.testbit f j = true → Z.testbit (fs_filled m) j = true ∧ j < room).
    { intros j Hj. unfold f, WINDOW. destruct (Z.ltb_spec room 64).
      - rewrite Z.land_spec, andb_true_iff. intros [B B2]. split; [done|].
        destruct (decide (j < room)); [done|]. rewrite Z.ones_spec_high in B2 by lia. done.
      - intros B. split; [done|]. destruct (decide (j < 64)); [lia|]. rewrite high_bit in B by lia. done. }
    split; [split; cbn; try lia|].
    + unfold f, WINDOW. destruct (Z.ltb_spec room 64); [|done]. rewrite Z.land_ones by lia. pose proof (Z.mod_pos_bound (fs_filled m) (2 ^ room)).
      assert (2 ^ room ≤ 2 ^ 64) by (apply Z.pow_le_mono_r; lia). lia.
    + intros b Hb. split; [apply Wr; lia|lia].
    + intros j Hj [B Lj]%Bits; [|done]. destruct (Wi j Hj B). split; [split; [done|lia]|lia].
    + unfold walked. cbn. destruct (Z.testbit f 0) eqn:B; [|done]. apply Bits in B as [B _]; [|done]. unfold walked in Wk. congruence.
Qed.
Lemma merged_honest P ahead behind n :
  Honest P ahead → Honest P behind → fs_dense behind ≤ fs_dense ahead → n = Z.max (fs_nblocks ahead) (fs_nblocks behind) →
  let shift := fs_dense ahead - fs_dense behind in
  Honest P (mkFork n (Z.min (fs_dense ahead) n) (Z.lor (fs_filled ahead) (if WINDOW <=? shift then 0 else Z.shiftr (fs_filled behind) shift))).
Proof.
  intros Ha Hb Le -> shift. destruct Ha as [C D F Wr Wi], Hb as [C' D' F' Wr' Wi']. rewrite Z.min_l by lia. set (f := if WINDOW <=? shift then _ else _).
  assert (Ff : 0 ≤ f < 2 ^ 64).
  { unfold f, WINDOW. destruct (64 <=? shift); [lia|]. rewrite Z.shiftr_div_pow2 by lia. split; [apply Z.div_pos; lia|].
    apply Z.le_lt_trans with (fs_filled behind); [|lia]. apply Z.div_le_upper_bound; [lia|]. pose proof (Z.pow_pos_nonneg 2 shift). nia. }
  split; cbn [fs_nblocks fs_dense fs_filled]; try lia.
  - split; [apply Z.lor_nonneg; lia|]. destruct (decide (Z.lor (fs_filled ahead) f = 0)) as [->|N]; [lia|].
    assert (0 ≤ Z.lor (fs_filled ahead) f) by (apply Z.lor_nonneg; lia). apply Z.log2_lt_pow2; [lia|]. rewrite Z.log2_lor by lia.
    assert (∀ x, 0 ≤ x < 2 ^ 64 → Z.log2 x < 64) as Lg.
    { intros x Hx. destruct (decide (x = 0)) as [->|]; [cbn; lia|]. apply Z.log2_lt_pow2; lia. }
    pose proof (Lg _ F). pose proof (Lg _ Ff). lia.
  - done.
  - intros j Hj. rewrite Z.lor_spec, orb_true_iff. intros [B|B]; [destruct (Wi j Hj B); split; [done|lia]|].
    unfold f in B. destruct (WINDOW <=? shift); [by rewrite Z.testbit_0_l in B|]. rewrite Z.shiftr_spec in B by done.
    destruct (Wi' (j + shift)) as [Pj Lj]; [lia|done|]. replace (fs_dense ahead + j) with (fs_dense behind + (j + shift)) by lia. split; [done|lia].
Qed.
Lemma merge_honest P a b : Honest P a → Honest P b → Honest P (merge a b) ∧ walked (merge a b).
Proof.
  intros Ha Hb. unfold merge. destruct (Z.leb_spec (fs_dense b) (fs_dense a)); cbv zeta.
  - destruct (walk_honest P _ (merged_honest P a b _ Ha Hb ltac:(lia) eq_refl)) as (? & ? & _). done.
  - destruct (walk_honest P _ (merged_honest P b a (Z.max (fs_nblocks a) (fs_nblocks b)) Hb Ha ltac:(lia) (Z.max_comm _ _))) as (? & ? & _). done.
Qed.
Lemma walk_walked m : walked m → walk m = m.
Proof. intros W. unfold walk, trailing_ones. cbn [trailing_ones_from]. unfold walked in W. by rewrite W. Qed.
Lemma marker_back P m : Honest P m → walked m → fs_decode (fs_encode m) = Some m.
Proof.
  intros [C D F _ _] Wk. unfold u32_max in *.
  assert (F4 : fits 4 (fs_nblocks m)) by (change (0 ≤ fs_nblocks m < 2 ^ 32); lia).
  assert (F4' : fits 4 (fs_dense m)) by (change (0 ≤ fs_dense m < 2 ^ 32); lia).
  assert (F8 : fits 8 (fs_filled m)) by (change (0 ≤ fs_filled m < 2 ^ 64); lia).
  unfold fs_decode. assert (El : zlen (fs_encode m) = 16) by (unfold fs_encode; zlen_lia). rewrite El. cbn [Z.eqb OLD_LEN LEN]. unfold OLD_LEN, LEN. cbn [Z.eqb Pos.eqb].
  assert (E1 : le_val (sub (fs_encode m) 0 4) = fs_nblocks m) by (apply (sub_field [] _ 4); [zlen_lia..|done]).
  assert (E2 : le_val (sub (fs_encode m) 4 8) = fs_dense m) by (apply (sub_field (le_bytes 4 (fs_nblocks m)) _ 4); [zlen_lia..|done]).
  assert (E3 : le_val (sub (fs_encode m) 8 16) = fs_filled m).
  { unfold fs_encode. rewrite app_assoc, <-(app_nil_r (le_bytes 8 _)). apply (sub_field (le_bytes 4 (fs_nblocks m) ++ le_bytes 4 (fs_dense m)) [] 8); [zlen_lia..|done]. }
  rewrite E1, E2, E3, Z.min_l by lia. f_equal. destruct m. by apply walk_walked.
Qed.

(** ** A fork's life *)
(** The markers that can come to be, with the blocks a page reached the
    store for since they were last cut off: pages arrive, markers grow, note
    pages that arrived and that the fork is long enough for, are cut, merged
    with another view of the fork, written and read back. *)
Inductive marks : (Z → Prop) → ForkSize → Prop :=
  | mk_plain P n : 0 ≤ n ≤ u32_max → marks P (fs_plain n)
  | mk_arrived (P Q : Z → Prop) m : marks P m → (∀ b, P b → Q b) → marks Q m
  | mk_grow P m n : marks P m → n ≤ u32_max → marks P (grow m n)
  | mk_fill P m blk : marks P m → P blk → 0 ≤ blk < fs_nblocks m → marks P (fill m blk)
  | mk_run (P : Z → Prop) m blk count :
      marks P m → 0 ≤ blk → blk + count ≤ fs_nblocks m → (∀ b, blk ≤ b < blk + count → P b) → marks P (fill_run m blk count)
  | mk_drained (P : Z → Prop) m n pages :
      marks P m → n ≤ u32_max → (∀ b, b ∈ pages → P b ∧ 0 ≤ b < n) → marks P (drained m n pages)
  | mk_truncate P m n : marks P m → 0 ≤ n ≤ u32_max → marks (λ b, P b ∧ b < n) (truncate m n)
  | mk_merge P m m' : marks P m → marks P m' → marks P (merge m m')
  | mk_read P m m' : marks P m → fs_decode (fs_encode m) = Some m' → marks P m'.
Lemma honest_more (P Q : Z → Prop) m : (∀ b, P b → Q b) → Honest P m → Honest Q m.
Proof. intros S [C D F Wr Wi]. split; auto. intros j Hj B. destruct (Wi j Hj B). auto. Qed.
Lemma marks_honest P m : marks P m → Honest P m ∧ walked m.
Proof.
  induction 1 as [P n L|P Q m _ [Ho Wk] S|P m n _ [Ho Wk] L|P m blk _ [Ho Wk] Pb L|P m blk count _ [Ho Wk] L0 L Pb|P m n pages _ [Ho Wk] L F|P m n _ [Ho Wk] L|P m m' _ [Ho Wk] _ [Ho' Wk']|P m m' _ [Ho Wk] E].
  - split; [|done]. split; cbn; try lia. intros j _ B. by rewrite Z.testbit_0_l in B.
  - split; [by eapply honest_more|done].
  - destruct (grow_honest P m n Ho L) as (? & ? & _). auto.
  - destruct (fill_honest P m blk Ho Wk Pb L) as (? & ? & _). done.
  - destruct (fills_honest P m (seqZ blk (Z.min (blk + count) u32_max - blk)) Ho Wk) as (? & ? & _); [|done].
    apply Forall_forall. intros b Hb%elem_of_seqZ. split; [apply Pb; lia|lia].
  - destruct (grow_honest P m n Ho L) as (Ho1 & Wk1 & _ & Ln). destruct (fills_honest P (grow m n) pages Ho1 (Wk1 Wk)) as (? & ? & _); [|done].
    apply Forall_forall. intros b [Pb Lb]%F. split; [done|lia].
  - by apply truncate_honest.
  - by apply merge_honest.
  - rewrite (marker_back P m Ho Wk) in E. by injection E as <-.
Qed.

(** The watermark keeps up.  When the pages of a run of at most 64
    blocks above the watermark have all been noted, in any order, repeated
    or mixed with others, the watermark has passed the run. *)
Theorem run_caught_up (P : Z → Prop) m n blks :
  marks P m → 0 ≤ n ≤ 64 → fs_dense m + n ≤ fs_nblocks m →
  (∀ b, b ∈ blks → P b ∧ 0 ≤ b < fs_nblocks m) → (∀ b, fs_dense m ≤ b < fs_dense m + n → b ∈ blks) →
  fs_dense m + n ≤ fs_dense (foldl fill m blks).
Proof.
  intros M L Ln F A. destruct (marks_honest P m M) as [Ho Wk].
  destruct (fills_honest P m blks Ho Wk) as (_ & Wk' & Le & _ & _ & K); [by apply Forall_forall|].
  destruct (decide (fs_dense m + n ≤ fs_dense (foldl fill m blks))) as [?|N]; [done|].
  assert (Kd : knows (foldl fill m blks) (fs_dense (foldl fill m blks))) by (apply K; [apply A|]; lia).
  destruct Kd as [Kd|Kd]; [lia|]. rewrite Z.sub_diag in Kd. unfold walked in Wk'. congruence.
Qed.

Module ForkWitness.
Lemma run_caught_up_witness : 3 ≤ fs_dense (foldl fill (fs_plain 3) [2; 0; 2; 1]).
Proof.
  apply (run_caught_up (λ _, True) (fs_plain 3) 3 [2; 0; 2; 1]); [by apply mk_plain; vm_compute|lia|done| |].
  - intros b Hb. split; [done|]. cbn. repeat (apply elem_of_cons in Hb as [->|Hb]; [lia|]). by apply elem_of_nil in Hb.
  - cbn. intros b Hb. assert (b = 0 ∨ b = 1 ∨ b = 2) as [-> | [-> | ->]] by lia; set_solver.
Defined.
(** Pages noted past the end of the fork before it grew: the watermark stops
    at the end, the window moves on as if it had not, and block 3, which no
    page ever reached, is claimed. *)
Example unnoticed_growth_claims :
  let m := foldl fill (grow (foldl fill (fs_plain 1) [1; 2; 5; 0]) 10) [1; 2] in
  fs_written m 3 = true.
Proof. by vm_compute. Qed.
End ForkWitness.
