(* ===== verification/Pending.v ===== *)
(** * Pending: pages on their way to the store (crates/zou-pg/src/pending.rs)

    The write buffer of a process: pages and sizes by fork, how a drain
    puts them in the store and settles the SIZE markers, and what the caller
    in lib.rs does with it.  A drain's puts run in parallel: the order is an
    input, and so is how many are still under way when one fails.  Reads
    through the buffer see the same pages before and after a drain. *)
From S2P Require Import Prelude Order Text Utf8 Lsn Externals Frame Bloom LayerKey Layer LayerMap Cas Layout Prog Manifest ShardManifest Shards Branch BranchReads BranchProofs ForkSize.

Definition ZOU_PAGE_SIZE : Z := 8192.
(** spc, db, rel, fork *)
Abbreviation ForkId := (Z * Z * Z * Z)%type.
Abbreviation PendingPage := (Z * bytes)%type.
Record ForkPending := mkForkPending { fp_pages : list PendingPage; fp_size : option Z }.
Record Pending := mkPending { pd_forks : list (ForkId * ForkPending); pd_bytes : Z; pd_cap : Z }.
(** [Pending::default], by the cap in megabytes *)
Definition pd_new (mb : Z) : Pending := mkPending [] 0 (Z.shiftl mb 20).
Definition enabled (p : Pending) : bool := 0 <? pd_cap p.
(** [Pending::push] *)
Definition pd_push (p : Pending) (fork : ForkId) (blk : Z) (page : bytes) (grow_to : option Z) : Pending * bool :=
  let entry := default (mkForkPending [] None) (bt_get fork (pd_forks p)) in
  let bytes := if bt_get blk (fp_pages entry) is Some _ then pd_bytes p else pd_bytes p + ZOU_PAGE_SIZE in
  let size :=
    match grow_to with
    | Some n => Some (match fp_size entry with Some s => Z.max s n | None => n end)
    | None => fp_size entry
    end in
  (mkPending (bt_insert fork (mkForkPending (bt_insert blk page (fp_pages entry)) size) (pd_forks p)) bytes (pd_cap p), pd_cap p <=? bytes).
(** [Pending::page] *)
Definition pd_page (p : Pending) (fork : ForkId) (blk : Z) : option bytes := fp ← bt_get fork (pd_forks p); bt_get blk (fp_pages fp).
(** [Pending::refresh]; [copy_from_slice] panics on another length. *)
Definition pd_refresh (p : Pending) (fork : ForkId) (blk : Z) (page : bytes) : res () Pending :=
  match bt_get fork (pd_forks p) with
  | Some fp =>
      match bt_get blk (fp_pages fp) with
      | Some slot =>
          if zlen slot =? zlen page
          then Ok (mkPending (bt_insert fork (mkForkPending (bt_insert blk page (fp_pages fp)) (fp_size fp)) (pd_forks p)) (pd_bytes p) (pd_cap p))
          else Panic
      | None => Ok p
      end
  | None => Ok p
  end.
(** [Pending::size], [Pending::is_empty] *)
Definition pd_size (p : Pending) (fork : ForkId) : option Z := fp ← bt_get fork (pd_forks p); fp_size fp.
Definition pd_is_empty (p : Pending) : bool := bool_decide (pd_forks p = []).
Definition page_bytes (fp : ForkPending) : Z := zlen (fp_pages fp) * ZOU_PAGE_SIZE.
(** [Pending::forget] *)
Definition pd_forget (p : Pending) (fork : ForkId) : Pending :=
  match bt_get fork (pd_forks p) with
  | Some fp => mkPending (bt_remove fork (pd_forks p)) (pd_bytes p - page_bytes fp) (pd_cap p)
  | None => p
  end.
(** [Pending::truncate] *)
Definition pd_truncate (p : Pending) (fork : ForkId) (nblocks : Z) : Pending :=
  match bt_get fork (pd_forks p) with
  | Some fp =>
      let kept := filter (λ e : PendingPage, e.1 < nblocks) (fp_pages fp) in
      let bytes := pd_bytes p - (zlen (fp_pages fp) - zlen kept) * ZOU_PAGE_SIZE in
      let size := (λ s, Z.min s nblocks) <$> fp_size fp in
      mkPending (if bool_decide (kept = []) && bool_decide (size = None) then bt_remove fork (pd_forks p)
                 else bt_insert fork (mkForkPending kept size) (pd_forks p)) bytes (pd_cap p)
  | None => p
  end.
(** [Pending::take_fork] *)
Definition take_fork (p : Pending) (fork : ForkId) : Pending * option (list PendingPage * option Z) :=
  match bt_get fork (pd_forks p) with
  | Some fp => (mkPending (bt_remove fork (pd_forks p)) (pd_bytes p - page_bytes fp) (pd_cap p), Some (fp_pages fp, fp_size fp))
  | None => (p, None)
  end.
(** [Pending::take_all] *)
Definition take_all (p : Pending) : Pending * list (ForkId * list PendingPage * option Z) :=
  (mkPending [] 0 (pd_cap p), (λ e : ForkId * ForkPending, (e.1, fp_pages e.2, fp_size e.2)) <$> pd_forks p).

(** ** The drain *)
(** In what order the puts of a drain take effect, and how many of them
    are under way when one has failed. *)
Record Sched := mkSched { sc_order : list nat; sc_more : nat }.
Section drain.
Context {S : Type} `{CasStore S}.
Abbreviation M := (io S ()).
Definition block_key (layout : TenantLayout) (fork : ForkId) (blk : Z) : bytes :=
  let '(spc, db, rel, fk) := fork in pg_block layout spc db rel fk blk.
Definition size_key (layout : TenantLayout) (fork : ForkId) : bytes :=
  let '(spc, db, rel, fk) := fork in pg_size layout spc db rel fk.
(** The threads of [for_each_parallel]: [left] is how many more calls run
    once one has failed. *)
Fixpoint par_loop {A} (op : A → M bool) (items : list A) (more : nat) (order : list nat) (left : option nat) : M bool :=
  match left, order with
  | Some O, _ | Some _, [] => mret false
  | None, [] => mret true
  | _, i :: order =>
      match items !! i with
      | Some x =>
          good ← op x;
          par_loop op items more order (match left with Some n => Some (Nat.pred n) | None => if good : bool then None else Some more end)
      | None => par_loop op items more order left
      end
  end.
(** [for_each_parallel]: one worker is the order of the items. *)
Definition for_each_parallel {A} (sched : Sched) (items : list A) (op : A → M bool) : M bool :=
  par_loop op items (sc_more sched) (sc_order sched) None.
(** [store.put(key, data)] answered by whether it worked. *)
Definition try_put (key data : bytes) : M bool := λ w,
  match put_ (λ _, ()) key data w with
  | (w, Some (Ok _)) => (w, Some (Ok true))
  | (w, Some (Err _)) => (w, Some (Ok false))
  | (w, Some Panic) => (w, Some Panic)
  | (w, None) => (w, None)
  end.
(** The highest block drained, plus one. *)
Fixpoint highest (pages : list PendingPage) : res () (option Z) :=
  match pages with
  | [] => Ok None
  | (blk, _) :: pages => h ← highest pages; if blk <? u32_max then Ok (Some (Z.max (blk + 1) (default 0 h))) else Panic
  end.
Definition settled_size (size highest : option Z) : option Z :=
  match size, highest with Some s, Some h => Some (Z.max s h) | Some s, None => Some s | None, h => h end.
(** [flush_fork]; the answer is the size that goes to the local cache. *)
Definition flush_fork (layout : TenantLayout) (sched : Sched) (fork : ForkId) (pages : list PendingPage) (size : option Z) : M (option Z) :=
  good ← for_each_parallel sched pages (λ e, try_put (block_key layout fork e.1) e.2);
  if negb good then pure (Err ())
  else
    highest ← pure (highest pages);
    match settled_size size highest with
    | None => mret None
    | Some new_size =>
        let key := size_key layout fork in
        cur ← run (get_ (λ _, ()) key);
        was ← pure (match cur with Some (data, _) => ok_or (fs_decode data) () | None => Ok fs_default end);
        let marker := drained was new_size (pages.*1) in
        _ ← if bool_decide (marker = was) then mret () else (_ ← put_ (λ _, ()) key (fs_encode marker); mret ());
        mret (Some (Z.max new_size (fs_nblocks was)))
    end.
(** The fields of [Shim] a drain touches: the buffer, and the lengths the
    local cache holds, written best effort. *)
Record Shim := mkShim { sh_pending : Pending; sh_sizes : option (list (ForkId * ForkSize)) }.
(** [PageCache::save_size] *)
Definition save_size (fork : ForkId) (nblocks : Z) (sizes : list (ForkId * ForkSize)) : list (ForkId * ForkSize) :=
  let fs := default fs_default (bt_get fork sizes) in
  let fs := mkFork nblocks (fs_dense fs) (fs_filled fs) in
  bt_insert fork (if nblocks <? fs_dense fs then truncate fs nblocks else fs) sizes.
(** The loop of [drain_pending]: stops at the first fork that fails. *)
Fixpoint drain_loop (layout : TenantLayout) (sched : ForkId → Sched) (work : list (ForkId * list PendingPage * option Z)) (sh : Shim) : M (Shim * bool) :=
  match work with
  | [] => mret (sh, true)
  | (id, pages, size) :: work => λ w,
      match flush_fork layout (sched id) id pages size w with
      | (w, Some (Ok kept)) =>
          let sizes := match kept with Some n => save_size id n <$> sh_sizes sh | None => sh_sizes sh end in
          drain_loop layout sched work (mkShim (sh_pending sh) sizes) w
      | (w, Some (Err _)) => (w, Some (Ok (sh, false)))
      | (w, Some Panic) => (w, Some Panic)
      | (w, None) => (w, None)
      end
  end.
(** [drain_pending], one fork or all of them *)
Definition drain_pending (layout : TenantLayout) (sched : ForkId → Sched) (which : option ForkId) (sh : Shim) : M (Shim * bool) :=
  let '(p, work) :=
    match which with
    | Some id =>
        let '(p, got) := take_fork (sh_pending sh) id in
        (p, match got with Some (pages, size) => [(id, pages, size)] | None => [] end)
    | None => take_all (sh_pending sh)
    end in
  drain_loop layout sched work (mkShim p (sh_sizes sh)).
End drain.

(** ** The buffer's books *)
Definition fork_ok (fp : ForkPending) : Prop := bt_wf (fp_pages fp).
Definition total (l : list (ForkId * ForkPending)) : Z := foldr (λ e t, page_bytes e.2 + t) 0 l.
(** Sorted maps, and the byte count is what they hold. *)
Definition pd_ok (p : Pending) : Prop := bt_wf (pd_forks p) ∧ Forall (λ e, fork_ok e.2) (pd_forks p) ∧ pd_bytes p = total (pd_forks p).
Inductive PdOp :=
  | PPush (fork : ForkId) (blk : Z) (page : bytes) (grow_to : option Z)
  | PRefresh (fork : ForkId) (blk : Z) (page : bytes)
  | PForget (fork : ForkId)
  | PTruncate (fork : ForkId) (nblocks : Z)
  | PTake (fork : ForkId)
  | PTakeAll.
Definition pd_step (p : Pending) (op : PdOp) : Pending :=
  match op with
  | PPush fork blk page grow_to => (pd_push p fork blk page grow_to).1
  | PRefresh fork blk page => match pd_refresh p fork blk page with Ok p => p | _ => p end
  | PForget fork => pd_forget p fork
  | PTruncate fork nblocks => pd_truncate p fork nblocks
  | PTake fork => (take_fork p fork).1
  | PTakeAll => (take_all p).1
  end.
Lemma total_insert fork fp l : bt_wf l →
  total (bt_insert fork fp l) = total l + page_bytes fp - default 0 (page_bytes <$> bt_get fork l).
Proof.
  induction l as [|[k v] l IH]; intros W; [cbn; lia|]. destruct W as [W1 W2]. cbn [bt_insert bt_get]. unfold oeqb. destruct (ocmp fork k) eqn:C.
  - cbn. lia.
  - cbn [total foldr snd]. rewrite bt_get_head_lt; [cbn; lia|]. intros e He. eapply olt_trans; [|by apply W1]. by apply oltb_spec.
  - cbn [total foldr snd]. unfold total in IH. rewrite IH by done. lia.
Qed.
Lemma total_remove fork l : total (bt_remove fork l) = total l - default 0 (page_bytes <$> bt_get fork l).
Proof.
  unfold total. induction l as [|[k v] l IH]; [done|]. cbn [bt_remove bt_get]. destruct (oeqb fork k); cbn [foldr snd]; [cbn [fmap option_fmap option_map]; cbn; lia|].
  rewrite IH. lia.
Qed.
Lemma zlen_insert (blk : Z) (page : bytes) l : bt_wf l → zlen (bt_insert blk page l) = zlen l + if bt_get blk l is Some _ then 0 else 1.
Proof.
  induction l as [|[k v] l IH]; intros W; [done|]. destruct W as [W1 W2]. cbn [bt_insert bt_get]. unfold oeqb. destruct (ocmp blk k) eqn:C.
  - unfold zlen. cbn [length]. lia.
  - rewrite bt_get_head_lt; [unfold zlen; cbn [length]; lia|]. intros e He. eapply olt_trans; [|by apply W1]. by apply oltb_spec.
  - specialize (IH W2). unfold zlen in *. cbn [length]. destruct (bt_get blk l); lia.
Qed.
Lemma pd_fork_ok p fork fp : pd_ok p → bt_get fork (pd_forks p) = Some fp → fork_ok fp.
Proof. intros (W & F & _) G. apply bt_get_elem in G; [|done]. rewrite Forall_forall in F. by apply (F _ G). Qed.
Lemma all_insert fork fp (l : list (ForkId * ForkPending)) : fork_ok fp → Forall (λ e, fork_ok e.2) l → Forall (λ e, fork_ok e.2) (bt_insert fork fp l).
Proof. rewrite !Forall_forall. intros O F e [->|He]%bt_insert_elem; [done|by apply F]. Qed.
Lemma all_remove fork (l : list (ForkId * ForkPending)) : Forall (λ e, fork_ok e.2) l → Forall (λ e, fork_ok e.2) (bt_remove fork l).
Proof. rewrite !Forall_forall. intros F e He%bt_remove_elem. by apply F. Qed.
Lemma removed_ok p fork fp : pd_ok p → bt_get fork (pd_forks p) = Some fp →
  pd_ok (mkPending (bt_remove fork (pd_forks p)) (pd_bytes p - page_bytes fp) (pd_cap p)).
Proof.
  intros (W & F & B) G. split_and!; cbn; [by apply bt_remove_wf|by apply all_remove|]. rewrite total_remove, G, B. done.
Qed.
Lemma inserted_ok p fork fp bytes : pd_ok p → fork_ok fp →
  bytes = pd_bytes p + page_bytes fp - default 0 (page_bytes <$> bt_get fork (pd_forks p)) →
  pd_ok (mkPending (bt_insert fork fp (pd_forks p)) bytes (pd_cap p)).
Proof. intros (W & F & B) O ->. split_and!; cbn; [by apply bt_insert_wf|by apply all_insert|]. rewrite total_insert, B by done. lia. Qed.
(** Every operation keeps the books. *)
Lemma pd_step_ok p op : pd_ok p → pd_ok (pd_step p op).
Proof.
  intros O. destruct op as [fork blk page grow_to|fork blk page|fork|fork nblocks|fork|]; cbn [pd_step].
  - unfold pd_push. cbn [fst]. set (entry := default (mkForkPending [] None) (bt_get fork (pd_forks p))).
    assert (Oe : fork_ok entry) by (unfold entry; destruct (bt_get fork _) eqn:G; [by eapply pd_fork_ok|done]).
    assert (Eb : default 0 (page_bytes <$> bt_get fork (pd_forks p)) = page_bytes entry) by (unfold entry; by destruct (bt_get fork _)).
    apply inserted_ok; [done|by apply bt_insert_wf|]. rewrite Eb. unfold page_bytes. cbn [fp_pages]. rewrite zlen_insert by done. destruct (bt_get blk _); lia.
  - unfold pd_refresh. destruct (bt_get fork (pd_forks p)) as [fp|] eqn:G; [|done]. destruct (bt_get blk (fp_pages fp)) eqn:Gb; [|done]. destruct (_ =? _); [|done].
    pose proof (pd_fork_ok p fork fp O G) as Of. apply inserted_ok; [done|by apply bt_insert_wf|]. rewrite G. cbn. unfold page_bytes. cbn [fp_pages]. rewrite zlen_insert, Gb by done. lia.
  - unfold pd_forget. destruct (bt_get fork (pd_forks p)) as [fp|] eqn:G; [by apply removed_ok|done].
  - unfold pd_truncate. destruct (bt_get fork (pd_forks p)) as [fp|] eqn:G; [|done]. pose proof (pd_fork_ok p fork fp O G) as Of.
    set (kept := filter _ (fp_pages fp)). set (size := _ <$> fp_size fp). destruct (bool_decide (kept = []) && bool_decide (size = None)) eqn:D.
    + apply andb_true_iff in D as [->%bool_decide_eq_true _]. pose proof (removed_ok p fork fp O G) as R. unfold page_bytes in R. change (zlen []) with 0. by rewrite Z.sub_0_r.
    + apply inserted_ok; [done|by apply bt_filter_wf|]. rewrite G. cbn. unfold page_bytes. cbn [fp_pages]. lia.
  - unfold take_fork. destruct (bt_get fork (pd_forks p)) as [fp|] eqn:G; [by apply removed_ok|done].
  - by split_and!.
Qed.
(** Nothing is left out of a count: it is not below zero. *)
Lemma pd_bytes_pos p : pd_ok p → 0 ≤ pd_bytes p.
Proof.
  intros (_ & _ & ->). unfold total. induction (pd_forks p) as [|e l IH]; [done|]. cbn [foldr]. unfold page_bytes at 1, zlen, ZOU_PAGE_SIZE. lia.
Qed.

(** ** Keys *)
Definition is_u32 (z : Z) : Prop := 0 ≤ z < 2 ^ 32.
Definition fork_u32 (fork : ForkId) : Prop := let '(spc, db, rel, fk) := fork in is_u32 spc ∧ is_u32 db ∧ is_u32 rel ∧ is_u32 fk.
Lemma seg_inj a b r r' : Lsn.slash ∉ a → Lsn.slash ∉ b → a ++ str "/" ++ r = b ++ str "/" ++ r' → a = b ∧ r = r'.
Proof.
  intros Na Nb E. change (str "/") with [Lsn.slash] in E.
  assert (Qa : split_once Lsn.slash (a ++ [Lsn.slash] ++ r) = Some (a, r)) by by apply split_once_app.
  assert (Qb : split_once Lsn.slash (b ++ [Lsn.slash] ++ r') = Some (b, r')) by by apply split_once_app.
  rewrite E, Qb in Qa. by injection Qa as <- <-.
Qed.
Lemma dec_no_slash z : Lsn.slash ∉ fmt_dec 1 z.
Proof.
  apply fix_digits_no_sep; [lia|]. intros d Hd. assert (d = 0 ∨ d = 1 ∨ d = 2 ∨ d = 3 ∨ d = 4 ∨ d = 5 ∨ d = 6 ∨ d = 7 ∨ d = 8 ∨ d = 9) as Q by lia.
  by repeat (destruct Q as [-> | Q]; [by vm_compute|]); subst.
Qed.
Lemma fork_tail_inj layout spc db rel fk spc' db' rel' fk' x x' :
  fork_u32 (spc, db, rel, fk) → fork_u32 (spc', db', rel', fk') →
  pg_fork_prefix layout spc db rel fk ++ str "/" ++ x = pg_fork_prefix layout spc' db' rel' fk' ++ str "/" ++ x' →
  (spc, db, rel, fk) = (spc', db', rel', fk') ∧ x = x'.
Proof.
  intros (U1 & U2 & U3 & U4) (V1 & V2 & V3 & V4). unfold pg_fork_prefix, is_u32 in *. rewrite <-!app_assoc. intros E%app_inv_head%app_inv_head.
  apply seg_inj in E as [E1 E]; [|apply dec_no_slash..]. apply seg_inj in E as [E2 E]; [|apply dec_no_slash..].
  apply seg_inj in E as [E3 E]; [|apply dec_no_slash..]. apply seg_inj in E as [E4 E]; [|apply dec_no_slash..].
  apply fmt_dec_inj in E1, E2, E3, E4; try lia. by subst.
Qed.
Lemma hex_long z : (8 ≤ length (fmt_HEX 8 z))%nat.
Proof. unfold fmt_HEX, fmt_radix. rewrite length_fix_digits. lia. Qed.
Lemma block_key_inj layout fork blk fork' blk' : fork_u32 fork → fork_u32 fork' → 0 ≤ blk → 0 ≤ blk' →
  block_key layout fork blk = block_key layout fork' blk' → fork = fork' ∧ blk = blk'.
Proof.
  destruct fork as [[[? ?] ?] ?], fork' as [[[? ?] ?] ?]. intros U V B B' E. apply fork_tail_inj in E as [-> E]; [|done|done]. split; [done|].
  by apply (fmt_radix_inj _ 16 ltac:(lia) good_HEX) in E.
Qed.
Lemma size_key_inj layout fork fork' : fork_u32 fork → fork_u32 fork' → size_key layout fork = size_key layout fork' → fork = fork'.
Proof.
  destruct fork as [[[? ?] ?] ?], fork' as [[[? ?] ?] ?]. intros U V E. by apply (fork_tail_inj layout _ _ _ _ _ _ _ _ (str "SIZE") (str "SIZE")) in E as [-> _].
Qed.
Lemma block_not_size layout fork blk fork' : fork_u32 fork → fork_u32 fork' → block_key layout fork blk ≠ size_key layout fork'.
Proof.
  destruct fork as [[[? ?] ?] ?], fork' as [[[? ?] ?] ?]. intros U V E. apply (fork_tail_inj layout _ _ _ _ _ _ _ _ _ (str "SIZE")) in E as [_ E]; [|done|done].
  pose proof (hex_long blk) as L. rewrite E in L. cbn in L. lia.
Qed.

(** ** A drain on a store at rest *)
Section rest.
Context {S : Type} `{CasOk S}.
Variable layout : TenantLayout.
Implicit Types s : S.
Abbreviation bk := (block_key layout).
Abbreviation sk := (size_key layout).
(** Object bytes, without their version. *)
Definition object s (key : bytes) : option bytes := fst <$> cas_view s key.
(** Blocks that have an object, the marker of a fork, and markers that
    vouch for no others. *)
Definition has_page s (fork : ForkId) (b : Z) : Prop := 0 ≤ b ∧ is_Some (object s (bk fork b)).
Definition marker_of s (fork : ForkId) : option ForkSize :=
  match object s (sk fork) with Some data => fs_decode data | None => Some fs_default end.
Definition vouched s (fork : ForkId) (m : ForkSize) : Prop := marker_of s fork = Some m ∧ Honest (has_page s fork) m ∧ walked m.
Definition good_markers s : Prop := ∀ fork, fork_u32 fork → ∃ m, vouched s fork m.
(** What one fork's drain may be given. *)
Definition pages_ok (pages : list PendingPage) : Prop := bt_wf pages ∧ Forall (λ e, 0 ≤ e.1 < u32_max) pages.
Definition size_ok (size : option Z) : Prop := match size with Some n => 0 ≤ n ≤ u32_max | None => True end.
Definition sched_ok (sched : Sched) (pages : list PendingPage) : Prop := sc_order sched ≡ₚ seq 0 (length pages).

Lemma try_put_alone key data s ms : cas_inv s →
  ∃ s', try_put key data (alone s ms) = (alone s' ms, Some (Ok true)) ∧ cas_inv s' ∧ object s' key = Some data ∧
    ∀ key', key' ≠ key → object s' key' = object s key'.
Proof.
  intros I. destruct (put_alone (λ _, ()) key data s ms I) as (s' & v & P & I' & V & O). exists s'. unfold try_put. rewrite P.
  split; [done|]. split; [done|]. unfold object. rewrite V. split; [done|]. intros key' N. by rewrite O.
Qed.
Lemma page_unique (pages : list PendingPage) i j blk d d' :
  bt_wf pages → pages !! i = Some (blk, d) → pages !! j = Some (blk, d') → d = d'.
Proof.
  intros W Hi%list_elem_of_lookup_2 Hj%list_elem_of_lookup_2. apply bt_get_elem in Hi, Hj; [|done..]. congruence.
Qed.
Lemma puts_alone fork (pages : list PendingPage) more ms : fork_u32 fork → pages_ok pages → ∀ order s, cas_inv s →
  ∃ s', par_loop (λ e, try_put (bk fork e.1) e.2) pages more order None (alone s ms) = (alone s' ms, Some (@Ok () _ true)) ∧ cas_inv s' ∧
    (∀ i blk d, i ∈ order → pages !! i = Some (blk, d) → object s' (bk fork blk) = Some d) ∧
    (∀ key, (∀ i e, i ∈ order → pages !! i = Some e → key ≠ bk fork e.1) → object s' key = object s key).
Proof.
  intros U [W F]. induction order as [|i order IH]; intros s I; cbn [par_loop].
  - exists s. split_and!; [done|done| |done]. by intros i blk d []%elem_of_nil.
  - destruct (pages !! i) as [[blk d]|] eqn:Ei; cbn [par_loop].
    2: { destruct (IH s I) as (s' & X & I' & A & O). exists s'. split_and!; [done|done| |].
         - intros j blk d [->|Hj]%elem_of_cons Ej; [congruence|by eapply A].
         - intros key Hk. apply O. intros j e Hj. apply Hk. by right. }
    destruct (try_put_alone (bk fork blk) d s ms I) as (s1 & P & I1 & V & O1). destruct (IH s1 I1) as (s' & X & I' & A & O). exists s'.
    split_and!; [by erewrite io_ok by exact P|done| |].
    + intros j blk' d' [->|Hj]%elem_of_cons Ej; [|by eapply A]. rewrite Ei in Ej. injection Ej as <- <-.
      destruct (decide (Exists (λ j, fst <$> pages !! j = Some blk) order)) as [(j & Hj & Ej)%Exists_exists|N].
      * destruct (pages !! j) as [[? d']|] eqn:Q; [|done]. injection Ej as ->. rewrite (A j blk d' Hj Q). f_equal. by eapply page_unique.
      * rewrite O; [done|]. intros j [b dj] Hj Ej E. apply N, Exists_exists. exists j. split; [done|]. rewrite Ej. cbn. f_equal.
        rewrite Forall_forall in F. apply list_elem_of_lookup_2, F in Ej, Ei. cbn in *. apply block_key_inj in E as [_ ->]; try done; lia.
    + intros key Hk. rewrite O; [apply O1, (Hk i (blk, d)); [by left|done]|]. intros j e Hj. apply Hk. by right.
Qed.
(** All of a fork's puts, in whatever order. *)
Lemma pages_land fork pages sched ms s : fork_u32 fork → pages_ok pages → sched_ok sched pages → cas_inv s →
  ∃ s', for_each_parallel sched pages (λ e, try_put (bk fork e.1) e.2) (alone s ms) = (alone s' ms, Some (@Ok () _ true)) ∧ cas_inv s' ∧
    (∀ blk d, (blk, d) ∈ pages → object s' (bk fork blk) = Some d) ∧
    (∀ key, (∀ e, e ∈ pages → key ≠ bk fork e.1) → object s' key = object s key).
Proof.
  intros U Pk Sc I. destruct (puts_alone fork pages (sc_more sched) ms U Pk (sc_order sched) s I) as (s' & X & I' & A & O). exists s'.
  split_and!; [done|done| |].
  - intros blk d [i Hi]%list_elem_of_lookup_1. apply (A i blk d); [|done]. rewrite Sc. apply elem_of_seq. apply lookup_lt_Some in Hi. lia.
  - intros key Hk. apply O. intros i e _ He%list_elem_of_lookup_2. by apply Hk.
Qed.
Lemma highest_spec pages : Forall (λ e : PendingPage, 0 ≤ e.1 < u32_max) pages →
  ∃ h, highest pages = Ok h ∧ size_ok h ∧ match h with Some n => ∀ e, e ∈ pages → e.1 < n | None => pages = [] end.
Proof.
  induction 1 as [|[blk d] pages L F (h & E & Sh & Hh)]; [by exists None|]. cbn [highest]. rewrite E. cbn [mbind res_bind]. cbn in L.
  rewrite (proj2 (Z.ltb_lt blk u32_max)) by lia. eexists. split; [done|]. destruct h as [n|]; cbn in *.
  - split; [lia|]. intros e [->|He]%elem_of_cons; [cbn; lia|]. specialize (Hh e He). lia.
  - subst pages. split; [lia|]. intros e [->|He]%elem_of_cons; [cbn; lia|]. by apply elem_of_nil in He.
Qed.
Lemma object_get key s ms : cas_inv s → ∃ cur, run (get_ (λ _, ()) key) (alone s ms) = (alone s ms, Some (Ok cur)) ∧ fst <$> cur = object s key.
Proof. intros I. exists (cas_view s key). split; [by apply get_alone|done]. Qed.
Lemma settled_size_spec size (pages : list PendingPage) h :
  size_ok size → size_ok h → match h with Some n => ∀ e : PendingPage, e ∈ pages → e.1 < n | None => pages = [] end →
  match settled_size size h with
  | Some n => 0 ≤ n ≤ u32_max ∧ (∀ e, e ∈ pages → e.1 < n) ∧ (∀ k, size = Some k → k ≤ n)
  | None => pages = [] ∧ size = None
  end.
Proof.
  intros Ss Sh Hh. destruct size as [k|], h as [n|]; cbn in *.
  - split; [lia|]. split; [intros e He; specialize (Hh e He); lia|]. intros ? [= <-]. lia.
  - subst pages. split; [lia|]. split; [by intros e []%elem_of_nil|]. intros ? [= <-]. lia.
  - split; [lia|]. done.
  - done.
Qed.
(** More pages in the store never hurt a marker. *)
Lemma has_page_kept s s1 fork (pages : list PendingPage) :
  (∀ blk d, (blk, d) ∈ pages → object s1 (bk fork blk) = Some d) →
  (∀ key, (∀ e : PendingPage, e ∈ pages → key ≠ bk fork e.1) → object s1 key = object s key) →
  ∀ b, has_page s fork b → has_page s1 fork b.
Proof.
  intros A O b [Lb Pb]. split; [done|]. destruct (decide (Exists (λ e : PendingPage, bk fork b = bk fork e.1) pages)) as [([blk d] & He & ->)%Exists_exists|N].
  - cbn [fst]. rewrite (A blk d He). eauto.
  - rewrite O; [done|]. intros e He E. apply N, Exists_exists. eauto.
Qed.
(** What [flush_fork] leaves of one fork. *)
Definition flushed s s' (fork : ForkId) (pages : list PendingPage) (size : option Z) : Prop :=
  (∀ blk d, (blk, d) ∈ pages → object s' (bk fork blk) = Some d) ∧
  (∀ key, key ≠ sk fork → (∀ e, e ∈ pages → key ≠ bk fork e.1) → object s' key = object s key) ∧
  ∃ m, vouched s' fork m ∧ (∀ e, e ∈ pages → e.1 < fs_nblocks m) ∧ (∀ k, size = Some k → k ≤ fs_nblocks m).
Lemma flush_alone fork pages size sched ms s was :
  fork_u32 fork → pages_ok pages → size_ok size → sched_ok sched pages → cas_inv s → vouched s fork was →
  ∃ s' kept, flush_fork layout sched fork pages size (alone s ms) = (alone s' ms, Some (Ok kept)) ∧ cas_inv s' ∧ flushed s s' fork pages size.
Proof.
  intros U Pk Sk Sc I (Mk & Ho & Wk). destruct (pages_land fork pages sched ms s U Pk Sc I) as (s1 & X & I1 & A & O).
  destruct (highest_spec pages (proj2 Pk)) as (h & Eh & Sh & Hh). pose proof (settled_size_spec size pages h Sk Sh Hh) as St.
  assert (Ns : ∀ e, e ∈ pages → sk fork ≠ bk fork e.1) by (intros e _ E; by apply (block_not_size layout fork e.1 fork)).
  assert (Mk1 : marker_of s1 fork = Some was) by (unfold marker_of; by rewrite (O (sk fork)) by exact Ns).
  pose proof (honest_more _ _ _ (has_page_kept s s1 fork pages A O) Ho) as Ho1.
  unfold flush_fork. erewrite io_ok by exact X. cbn [negb]. erewrite io_ok by (unfold pure; by rewrite Eh). cbv beta.
  destruct (settled_size size h) as [n|]; [|exists s1, None; split; [done|]; split; [done|]; destruct St as [-> ->]; split; [done|]; split; [intros; by apply O|]].
  2: { exists was. split; [done|]. split; [by intros e []%elem_of_nil|done]. }
  destruct St as (Ln & Hp & Hs). destruct (object_get (sk fork) s1 ms I1) as (cur & G & Ec). cbv zeta. erewrite io_ok by exact G.
  assert (Ew : match cur with Some (data, _) => ok_or (fs_decode data) () | None => Ok fs_default end = Ok was).
  { unfold marker_of in Mk1. rewrite <-Ec in Mk1. destruct cur as [[data v]|]; cbn in Mk1; [by rewrite Mk1|congruence]. }
  rewrite Ew. erewrite io_ok by done. cbv beta. set (m := drained was n pages.*1).
  destruct (grow_honest _ was n Ho1 ltac:(lia)) as (Ho2 & Wk2 & Lg & Lg').
  destruct (fills_honest _ (grow was n) pages.*1 Ho2 (Wk2 Wk)) as (Ho3 & Wk3 & _ & En & _).
  { apply Forall_forall. intros b ([blk d] & -> & He)%list_elem_of_fmap. cbn. destruct Pk as [_ F]. rewrite Forall_forall in F.
    specialize (F _ He). specialize (Hp _ He). cbn in *. split; [split; [lia|rewrite (A blk d He); eauto]|lia]. }
  fold (drained was n pages.*1) in Ho3, Wk3, En. fold m in Ho3, Wk3, En.
  assert (Fin : ∀ s', (∀ key, key ≠ sk fork → object s' key = object s1 key) → marker_of s' fork = Some m → flushed s s' fork pages size).
  { intros s' O' M'. assert (B : ∀ b, object s' (bk fork b) = object s1 (bk fork b)) by (intros b; apply O'; by apply block_not_size).
    split; [intros blk d He; rewrite B; by apply A|]. split; [intros key Nk Hk; rewrite O' by done; by apply O|]. exists m. split; [split; [done|split; [|done]]|].
    - eapply honest_more; [|exact Ho3]. intros b. unfold has_page. by rewrite B.
    - rewrite En. split; [intros e He; specialize (Hp e He); lia|]. intros k Ek. specialize (Hs k Ek). lia. }
  case_bool_decide as Em.
  - exists s1, (Some (Z.max n (fs_nblocks was))). split; [done|]. split; [done|]. apply Fin; [done|]. by rewrite Em.
  - destruct (put_alone (λ _, ()) (sk fork) (fs_encode m) s1 ms I1) as (s' & v & P & I' & V & O'). exists s', (Some (Z.max n (fs_nblocks was))).
    split; [erewrite io_ok; [done|]; by erewrite io_ok by exact P|]. split; [done|]. apply Fin; [intros key Nk; unfold object; by rewrite O'|].
    unfold marker_of, object. rewrite V. cbn. by eapply marker_back.
Qed.
(** One fork's drain leaves the others alone. *)
Lemma other_fork s s' fork pages size other :
  flushed s s' fork pages size → pages_ok pages → fork_u32 fork → fork_u32 other → other ≠ fork →
  object s' (sk other) = object s (sk other) ∧ ∀ b, 0 ≤ b → object s' (bk other b) = object s (bk other b).
Proof.
  intros (_ & O & _) [_ F] U V N. rewrite Forall_forall in F. split.
  - apply O; [by intros ?%size_key_inj|]. intros e _ E. by apply (block_not_size layout fork e.1 other).
  - intros b Lb. apply O; [by apply block_not_size|]. intros e He E. specialize (F _ He). apply block_key_inj in E as [? _]; try done; lia.
Qed.
Lemma same_vouched s s' fork m :
  object s' (sk fork) = object s (sk fork) → (∀ b, 0 ≤ b → object s' (bk fork b) = object s (bk fork b)) → vouched s fork m → vouched s' fork m.
Proof.
  intros Es Eb (M & Ho & W). split; [unfold marker_of; by rewrite Es|]. split; [|done]. eapply honest_more; [|exact Ho]. intros b [Lb Pb]. split; [done|]. by rewrite Eb.
Qed.
(** What is promised of each fork drained. *)
Definition landed s' (e : ForkId * list PendingPage * option Z) : Prop :=
  (∀ blk d, (blk, d) ∈ e.1.2 → object s' (bk e.1.1 blk) = Some d) ∧
  ∃ m, vouched s' e.1.1 m ∧ (∀ p, p ∈ e.1.2 → p.1 < fs_nblocks m) ∧ (∀ k, e.2 = Some k → k ≤ fs_nblocks m).
Definition work_ok (sched : ForkId → Sched) (e : ForkId * list PendingPage * option Z) : Prop :=
  fork_u32 e.1.1 ∧ pages_ok e.1.2 ∧ size_ok e.2 ∧ sched_ok (sched e.1.1) e.1.2.
Definition spared (work : list (ForkId * list PendingPage * option Z)) (key : bytes) : Prop :=
  ∀ e, e ∈ work → key ≠ sk e.1.1 ∧ ∀ p : PendingPage, p ∈ e.1.2 → key ≠ bk e.1.1 p.1.
Lemma drain_loop_alone sched ms work : ∀ s sh, NoDup ((λ e, e.1.1) <$> work) → Forall (work_ok sched) work → cas_inv s → good_markers s →
  ∃ s' sizes, drain_loop layout sched work sh (alone s ms) = (alone s' ms, Some (Ok (mkShim (sh_pending sh) sizes, true))) ∧
    cas_inv s' ∧ good_markers s' ∧ Forall (landed s') work ∧ ∀ key, spared work key → object s' key = object s key.
Proof.
  induction work as [|[[id pages] size] work IH]; intros s sh N F I G; [exists s, (sh_sizes sh); by destruct sh|].
  apply NoDup_cons in N as [Ni N]. apply Forall_cons in F as [(U & Pk & Sk & Sc) F]. cbn in U, Pk, Sk, Sc, Ni. cbn [drain_loop].
  destruct (G id U) as [was V]. destruct (flush_alone id pages size (sched id) ms s was U Pk Sk Sc I V) as (s1 & kept & X & I1 & Fl). rewrite X.
  pose proof Fl as (A & O & m & Vm & B1 & B2).
  assert (G1 : good_markers s1).
  { intros other Uo. destruct (decide (other = id)) as [->|No]; [eauto|]. destruct (G other Uo) as [mo Vo]. exists mo.
    destruct (other_fork s s1 id pages size other Fl Pk U Uo No). by eapply same_vouched. }
  set (sh1 := mkShim (sh_pending sh) _). destruct (IH s1 sh1 N F I1 G1) as (s' & sizes & Y & I' & G' & L & O'). exists s', sizes.
  split; [exact Y|]. split; [done|]. split; [done|]. split; [constructor; [|done]|].
  - assert (Nw : ∀ key, (key = sk id ∨ ∃ b, 0 ≤ b ∧ key = bk id b) → spared work key).
    { intros key Hk e He. rewrite Forall_forall in F. destruct (F e He) as (Ue & [_ Fe] & _). rewrite Forall_forall in Fe.
      assert (Ne : id ≠ e.1.1) by (intros ->; apply Ni, list_elem_of_fmap; eauto). split.
      - intros E. destruct Hk as [->|(b & Lb & ->)]; [by apply size_key_inj in E|by apply block_not_size in E].
      - intros p Hp E. specialize (Fe p Hp). destruct Hk as [->|(b & Lb & ->)]; [by apply (block_not_size layout e.1.1 p.1 id)|apply block_key_inj in E as [? _]; try done; lia]. }
    assert (Es : object s' (sk id) = object s1 (sk id)) by (apply O', Nw; by left).
    assert (Eb : ∀ b, 0 ≤ b → object s' (bk id b) = object s1 (bk id b)) by (intros b Lb; apply O', Nw; right; eauto).
    split; cbn.
    + intros blk d He. destruct Pk as [_ Fp]. rewrite Forall_forall in Fp. specialize (Fp _ He). cbn in Fp. rewrite Eb by lia. by apply A.
    + exists m. split; [by eapply same_vouched|done].
  - intros key Hk. rewrite O' by (intros e He; apply Hk; by right). destruct (Hk (id, pages, size)) as [K1 K2]; [by left|]. by apply O.
Qed.
End rest.

(** ** Reading through the buffer *)
(** What this process reads of a block. *)
Definition seen {S} `{CasOk S} (layout : TenantLayout) (p : Pending) (s : S) (fork : ForkId) (blk : Z) : option bytes :=
  match pd_page p fork blk with Some page => Some page | None => object s (block_key layout fork blk) end.
Definition in_scope (which : option ForkId) (fork : ForkId) : Prop := match which with Some id => fork = id | None => True end.
#[global] Instance in_scope_dec which fork : Decision (in_scope which fork).
Proof. destruct which; cbn; apply _. Defined.
(** A buffer as pushes leave it, and an order for the puts of each fork. *)
Definition buffered (sched : ForkId → Sched) (p : Pending) : Prop :=
  pd_ok p ∧ ∀ fork fp, bt_get fork (pd_forks p) = Some fp →
    fork_u32 fork ∧ Forall (λ e, 0 ≤ e.1 < u32_max) (fp_pages fp) ∧ size_ok (fp_size fp) ∧ sched_ok (sched fork) (fp_pages fp).
(** What is taken out for a drain. *)
Definition drain_work (which : option ForkId) (p : Pending) : Pending * list (ForkId * list PendingPage * option Z) :=
  match which with
  | Some id => let '(p, got) := take_fork p id in (p, match got with Some (pages, size) => [(id, pages, size)] | None => [] end)
  | None => take_all p
  end.
Lemma wf_nodup {V} (l : list (ForkId * V)) : bt_wf l → NoDup l.*1.
Proof.
  induction l as [|e l IH]; intros W; [constructor|]. destruct W as [W1 W2]. cbn. constructor; [|auto].
  intros (e' & E & He)%list_elem_of_fmap. specialize (W1 e' He). rewrite E in W1. by apply olt_irrefl in W1.
Qed.
Lemma work_spec which p : pd_ok p →
  pd_ok (drain_work which p).1 ∧ NoDup ((λ e, e.1.1) <$> (drain_work which p).2) ∧
  (∀ fork, bt_get fork (pd_forks (drain_work which p).1) = if decide (in_scope which fork) then None else bt_get fork (pd_forks p)) ∧
  ∀ fork pages size, (fork, pages, size) ∈ (drain_work which p).2 ↔ in_scope which fork ∧ bt_get fork (pd_forks p) = Some (mkForkPending pages size).
Proof.
  intros O. destruct which as [id|]; cbn [drain_work in_scope].
  - pose proof (pd_step_ok p (PTake id) O) as Ot. cbn [pd_step] in Ot. unfold take_fork in *. destruct (bt_get id (pd_forks p)) as [fp|] eqn:G; cbn [fst snd] in *.
    + split; [done|]. split; [by apply NoDup_singleton|]. split.
      * intros fork. cbn [pd_forks]. rewrite bt_get_remove by apply O. destruct (decide (fork = id)) as [->|N]; [by rewrite oeqb_refl|by rewrite oeqb_ne].
      * intros fork pages size. rewrite list_elem_of_singleton. split; [intros [= -> -> ->]; by destruct fp|]. intros [-> E]. rewrite G in E. by injection E as ->.
    + split; [done|]. split; [constructor|]. split; [intros fork; destruct (decide (fork = id)) as [->|N]; done|].
      intros fork pages size. split; [by intros []%elem_of_nil|]. intros [-> E]. congruence.
  - unfold take_all. cbn [fst snd pd_forks]. split; [apply (pd_step_ok p PTakeAll O)|]. split; [|split; [done|]].
    + rewrite <-list_fmap_compose. cbn. apply wf_nodup, O.
    + intros fork pages size. rewrite list_elem_of_fmap. split.
      * intros ([k fp] & [= -> -> ->] & He). split; [done|]. apply bt_get_elem; [apply O|]. by destruct fp.
      * intros [_ G%bt_get_elem]; [|apply O]. by exists (fork, mkForkPending pages size).
Qed.


Module PendingWitness.
Definition layout : TenantLayout := layout_new (str "t").
Definition heap : ForkId := (1663, 5, 16384, 0).
Definition fsm : ForkId := (1663, 5, 16384, 1).
Definition buffer : Pending :=
  foldl pd_step (pd_new 8) [PPush heap 2 (str "c") (Some 3); PPush heap 0 (str "a") (Some 1); PPush fsm 0 (str "f") None; PPush heap 0 (str "b") None].
Definition shim : Shim := mkShim buffer (Some []).
Definition sched (fork : ForkId) : Sched := mkSched (if decide (fork = heap) then [1; 0]%nat else [0%nat]) 0.
Lemma empty_good : good_markers layout ms_new.
Proof.
  intros fork _. exists fs_default. split; [done|]. split; [|done]. split; [done|done|done|cbn; intros b; lia|]. intros j _ B. by rewrite Z.testbit_0_l in B.
Qed.
Lemma buffer_ok : buffered sched buffer.
Proof.
  split; [do 4 apply pd_step_ok; by split_and!|]. intros fork fp G%bt_get_elem; [|do 4 apply pd_step_ok; by split_and!].
  apply elem_of_cons in G as [G|G]; [|apply list_elem_of_singleton in G]; apply pair_eq in G as [-> ->];
    (split; [by vm_compute|]; split; [repeat constructor; by vm_compute|]; split; [by vm_compute|]).
  - unfold sched_ok. cbn. apply perm_swap.
  - change ([0%nat] ≡ₚ [0%nat]). done.
Qed.
End PendingWitness.
