(* ===== verification/Registry.v ===== *)
(** * Registry: who is on a store (crates/zou-store/src/registry.rs)

    One object per tenant and one per custom hostname.  A request is routed
    by one read, so the hostnames must say what the entries say; the theorem
    is that every operation on a registry at rest keeps it so.  A run at the
    end shows what an unconditional write does to a deploy beside it. *)
From S2P Require Import Prelude Order Text Utf8 Lsn Externals Frame Bloom LayerKey Layer LayerMap Cas Layout Prog Manifest ShardManifest Shards Branch BranchReads BranchProofs.

Definition REGISTRY_FORMAT : Z := 1.
Definition REF_MAX : Z := 63.
Definition HOST_MAX : Z := 253.
(** Why a ref or a hostname is no good. *)
Inductive Why := WEmpty | WLong (n : Z) | WChar (c : bytes) | WHyphen | WSize | WNoDot | WLabel.
Inductive RegistryError :=
  | FormatTooNew (found : Z)
  | BadRef (tenant_ref : bytes) (why : Why)
  | BadHost (host : bytes) (why : Why)
  | Exists (tenant_ref : bytes)
  | HostTaken (host : bytes)
  | HostElsewhere (host tenant_ref : bytes)
  | Missing (tenant_ref : bytes)
  | RJson (tenant_ref : bytes)
  | RStore (e : CasError).
Record TenantAuth := mkAuth { au_confirm_email : bool; au_site_url : option bytes }.
Record Tenant := mkTenant {
  t_format : Z; t_ref : bytes; t_created_unix : Z; t_jwt_secret : bytes; t_hosts : list bytes;
  t_s3_access_key : bytes; t_s3_secret_key : bytes; t_deployed : Z; t_auth : option TenantAuth
}.
Record Alias := mkAlias { al_format : Z; al_host : bytes; al_ref : bytes }.
(** [Tenant::new], [Tenant::s3] *)
Definition tenant_new (tenant_ref jwt_secret : bytes) (created_unix : Z) : Tenant :=
  mkTenant REGISTRY_FORMAT tenant_ref created_unix jwt_secret [] [] [] 0 None.
Definition tenant_s3 (t : Tenant) : option (bytes * bytes) :=
  if bool_decide (t_s3_access_key t = []) || bool_decide (t_s3_secret_key t = []) then None
  else Some (t_s3_access_key t, t_s3_secret_key t).
Definition with_hosts (hosts : list bytes) (t : Tenant) : Tenant :=
  mkTenant (t_format t) (t_ref t) (t_created_unix t) (t_jwt_secret t) hosts (t_s3_access_key t) (t_s3_secret_key t) (t_deployed t) (t_auth t).
Definition with_s3 (access secret : bytes) (t : Tenant) : Tenant :=
  mkTenant (t_format t) (t_ref t) (t_created_unix t) (t_jwt_secret t) (t_hosts t) access secret (t_deployed t) (t_auth t).
Definition with_deployed (n : Z) (t : Tenant) : Tenant :=
  mkTenant (t_format t) (t_ref t) (t_created_unix t) (t_jwt_secret t) (t_hosts t) (t_s3_access_key t) (t_s3_secret_key t) n (t_auth t).
Definition with_auth (auth : option TenantAuth) (t : Tenant) : Tenant :=
  mkTenant (t_format t) (t_ref t) (t_created_unix t) (t_jwt_secret t) (t_hosts t) (t_s3_access_key t) (t_s3_secret_key t) (t_deployed t) auth.

#[global] Instance TenantAuth_eq_dec : EqDecision TenantAuth.
Proof. solve_decision. Defined.
#[global] Instance Tenant_eq_dec : EqDecision Tenant.
Proof. solve_decision. Defined.
#[global] Instance Alias_eq_dec : EqDecision Alias.
Proof. solve_decision. Defined.

(** ** Names *)
Definition entries_prefix : bytes := str "registry/".
Definition entry_key (tenant_ref : bytes) : bytes := str "registry/" ++ tenant_ref ++ str ".json".
Definition host_key (host : bytes) : bytes := str "hosts/" ++ host ++ str ".json".
Definition HYPHEN : byte := Byte.x2d.
Definition DOT : byte := Byte.x2e.
(** Lower case letters, digits and the hyphen. *)
Definition label_byte (b : byte) : bool := (97 <=? bval b) && (bval b <=? 122) || is_digit b || bool_decide (b = HYPHEN).
(** [chars().find(..)]: everything allowed is one byte long. *)
Fixpoint bad_char (s : bytes) : option bytes :=
  match s with [] => None | b :: s' => if label_byte b then bad_char s' else Some (default [] (first_char s)) end.
Definition hyphened (s : bytes) : bool := starts_with s [HYPHEN] || ends_with s [HYPHEN].
(** [check_ref] *)
Definition check_ref (tenant_ref : bytes) : res RegistryError () :=
  if bool_decide (tenant_ref = []) then Err (BadRef tenant_ref WEmpty)
  else if REF_MAX <? zlen tenant_ref then Err (BadRef tenant_ref (WLong (zlen tenant_ref)))
  else match bad_char tenant_ref with
       | Some c => Err (BadRef tenant_ref (WChar c))
       | None => if hyphened tenant_ref then Err (BadRef tenant_ref WHyphen) else Ok ()
       end.
(** One label of [check_host], and all of them. *)
Definition check_label (host label : bytes) : res RegistryError () :=
  if bool_decide (label = []) || (REF_MAX <? zlen label) then Err (BadHost host WLabel)
  else if hyphened label then Err (BadHost host WHyphen)
  else match bad_char label with Some c => Err (BadHost host (WChar c)) | None => Ok () end.
Fixpoint check_labels (host : bytes) (labels : list bytes) : res RegistryError () :=
  match labels with [] => Ok () | label :: labels => _ ← check_label host label; check_labels host labels end.
(** [check_host] *)
Definition check_host (host : bytes) : res RegistryError () :=
  if bool_decide (host = []) || (HOST_MAX <? zlen host) then Err (BadHost host WSize)
  else if negb (bool_decide (DOT ∈ host)) then Err (BadHost host WNoDot)
  else check_labels host (split DOT host).

(** ** Documents *)
(** serde_json on the two documents. *)
Class SerdeRegistry := {
  tenant_to_vec_pretty : Tenant → bytes;
  tenant_from_slice : bytes → option Tenant;
  alias_to_vec_pretty : Alias → bytes;
  alias_from_slice : bytes → option Alias
}.
Definition tenant_fits (t : Tenant) : Prop :=
  fits 4 (t_format t) ∧ fits 8 (t_created_unix t) ∧ fits 8 (t_deployed t) ∧
  Forall utf8 (t_ref t :: t_jwt_secret t :: t_s3_access_key t :: t_s3_secret_key t :: t_hosts t) ∧
  match t_auth t with Some a => match au_site_url a with Some u => utf8 u | None => True end | None => True end.
Definition alias_fits (a : Alias) : Prop := fits 4 (al_format a) ∧ utf8 (al_host a) ∧ utf8 (al_ref a).
Section documents.
Context `{SerdeRegistry}.
(** [Tenant::to_json], [Tenant::from_json] *)
Definition tenant_json (t : Tenant) : bytes := tenant_to_vec_pretty t ++ [newline].
Definition tenant_parse (tenant_ref data : bytes) : res RegistryError Tenant :=
  entry ← ok_or (tenant_from_slice data) (RJson tenant_ref);
  if REGISTRY_FORMAT <? t_format entry then Err (FormatTooNew (t_format entry)) else Ok entry.
Definition alias_json (a : Alias) : bytes := alias_to_vec_pretty a ++ [newline].
(** What [host_ref] makes of an object. *)
Definition alias_parse (host data : bytes) : res RegistryError bytes :=
  alias ← ok_or (alias_from_slice data) (RJson host);
  if REGISTRY_FORMAT <? al_format alias then Err (FormatTooNew (al_format alias)) else Ok (al_ref alias).
End documents.
Class SerdeRegistryOk `{SerdeRegistry} := {
  tenant_back : ∀ t, tenant_fits t → tenant_from_slice (tenant_json t) = Some t;
  alias_back : ∀ a, alias_fits a → alias_from_slice (alias_json a) = Some a
}.

(** ** Operations *)
Section registry.
Context {S : Type} `{CasStore S} `{SerdeRegistry}.
Abbreviation M := (io S RegistryError).
(** [store.delete(key)?] *)
Definition remove_ (key : bytes) : M () := λ w,
  let w := meddle w in
  let '(s, r) := cas_delete (w_store w) key in
  (mkWorld s (w_ms w) (w_env w), Some (map_err RStore r)).
(** A [put_if_absent] whose refusal is answered by [taken]. *)
Definition claim (key data : bytes) (taken : prog RegistryError ()) : prog RegistryError () :=
  put_absent key data (λ r,
    match r with
    | Ok _ => mret ()
    | Err (Conflict _) | Err (AlreadyExists _) => taken
    | Err e => Ret (Err (RStore e))
    | Panic => Ret Panic
    end).
(** [create] *)
Definition reg_create (entry : Tenant) : prog RegistryError () :=
  _ ← Ret (check_ref (t_ref entry));
  claim (entry_key (t_ref entry)) (tenant_json entry) (Ret (Err (Exists (t_ref entry)))).
(** [get] *)
Definition reg_get (tenant_ref : bytes) : prog RegistryError (option Tenant) :=
  cur ← get_ RStore (entry_key tenant_ref);
  match cur with
  | None => mret None
  | Some (data, _) => entry ← Ret (tenant_parse tenant_ref data); mret (Some entry)
  end.
(** [list] *)
Definition reg_list : M (list bytes) :=
  keys ← list_ RStore entries_prefix;
  mret (sort_by oleb (omap (λ key, strip_prefix entries_prefix key ≫= strip_suffix (str ".json")) keys)).
(** [host_ref] *)
Definition host_ref (host : bytes) : prog RegistryError (option bytes) :=
  cur ← get_ RStore (host_key host);
  match cur with
  | None => mret None
  | Some (data, _) => owner ← Ret (alias_parse host data); mret (Some owner)
  end.
(** The entry of a tenant that must be there. *)
Definition must_get (tenant_ref : bytes) : prog RegistryError Tenant :=
  entry ← reg_get tenant_ref;
  match entry with Some entry => mret entry | None => Ret (Err (Missing tenant_ref)) end.
(** [add_host] *)
Definition add_host (tenant_ref host : bytes) : M () :=
  _ ← pure (check_host host);
  entry ← run (must_get tenant_ref);
  _ ← run (claim (host_key host) (alias_json (mkAlias REGISTRY_FORMAT host tenant_ref))
             (owner ← host_ref host;
              if bool_decide (owner = Some tenant_ref) then mret () else Ret (Err (HostTaken host))));
  if bool_decide (host ∈ t_hosts entry) then mret ()
  else
    _ ← put_ RStore (entry_key tenant_ref) (tenant_json (with_hosts (sort_by oleb (t_hosts entry ++ [host])) entry));
    mret ().
(** [remove_host] *)
Definition remove_host (tenant_ref host : bytes) : M () :=
  owner ← run (host_ref host);
  _ ← match owner with
      | Some owner => if bool_decide (owner = tenant_ref) then remove_ (host_key host) else pure (Err (HostElsewhere host owner))
      | None => mret ()
      end;
  entry ← run (reg_get tenant_ref);
  match entry with
  | Some entry =>
      if bool_decide (host ∈ t_hosts entry) then
        _ ← put_ RStore (entry_key tenant_ref) (tenant_json (with_hosts (filter (λ h, h ≠ host) (t_hosts entry)) entry));
        mret ()
      else mret ()
  | None => mret ()
  end.
(** [set_s3] and [set_auth] *)
Definition rewrite_entry (tenant_ref : bytes) (change : Tenant → Tenant) : M () :=
  entry ← run (must_get tenant_ref);
  _ ← put_ RStore (entry_key tenant_ref) (tenant_json (change entry));
  mret ().
Definition set_s3 (tenant_ref access secret : bytes) : M () := rewrite_entry tenant_ref (with_s3 access secret).
Definition set_auth (tenant_ref : bytes) (auth : option TenantAuth) : M () := rewrite_entry tenant_ref (with_auth auth).
(** [note_deploy] *)
Fixpoint deploy_loop (attempts : nat) (tenant_ref : bytes) : prog RegistryError Z :=
  match attempts with
  | O => Ret (Err (RStore (Conflict (entry_key tenant_ref))))
  | Datatypes.S attempts =>
      cur ← get_ RStore (entry_key tenant_ref);
      match cur with
      | None => Ret (Err (Missing tenant_ref))
      | Some (data, version) =>
          entry ← Ret (tenant_parse tenant_ref data);
          deployed ← Ret (uadd (t_deployed entry) 1);
          Put (entry_key tenant_ref) (tenant_json (with_deployed deployed entry)) (Some version) (λ r,
            match r with
            | Ok _ => mret deployed
            | Err (Conflict _) => deploy_loop attempts tenant_ref
            | Err e => Ret (Err (RStore e))
            | Panic => Ret Panic
            end)
      end
  end.
Definition ATTEMPTS : nat := 5.
Definition note_deploy (tenant_ref : bytes) : prog RegistryError Z := deploy_loop ATTEMPTS tenant_ref.
(** [delete] *)
Definition reg_delete (tenant_ref : bytes) : M () :=
  _ ← run (must_get tenant_ref);
  entry ← run (reg_get tenant_ref);
  _ ← for_each (default [] (t_hosts <$> entry)) (λ host,
        owner ← run (host_ref host);
        if bool_decide (owner = Some tenant_ref) then remove_ (host_key host) else mret ());
  remove_ (entry_key tenant_ref).
End registry.

(** ** The registry as two tables *)
(** The entries by ref and the owners by hostname. *)
Abbreviation Entries := (bytes → option Tenant).
Abbreviation Routes := (bytes → option bytes).
Definition upd {A} (k : bytes) (v : option A) (f : bytes → option A) : bytes → option A := λ x, if decide (x = k) then v else f x.
Lemma upd_eq {A} k (v : option A) f : upd k v f k = v.
Proof. unfold upd. by rewrite decide_True. Qed.
Lemma upd_ne {A} k (v : option A) f k' : k' ≠ k → upd k v f k' = f k'.
Proof. intros. unfold upd. by rewrite decide_False. Qed.
Inductive RegOp :=
  | OCreate (entry : Tenant)
  | OAdd (tenant_ref host : bytes)
  | ORemove (tenant_ref host : bytes)
  | OS3 (tenant_ref access secret : bytes)
  | OAuth (tenant_ref : bytes) (auth : option TenantAuth)
  | ODeploy (tenant_ref : bytes)
  | ODelete (tenant_ref : bytes).
Definition listing (host : bytes) (e : Tenant) : Tenant :=
  if bool_decide (host ∈ t_hosts e) then e else with_hosts (sort_by oleb (t_hosts e ++ [host])) e.
Definition unlisting (host : bytes) (e : Tenant) : Tenant :=
  if bool_decide (host ∈ t_hosts e) then with_hosts (filter (λ h, h ≠ host) (t_hosts e)) e else e.
(** What each operation promises. *)
Definition promised (op : RegOp) (E : Entries) (R : Routes) : (Entries * Routes) * res RegistryError Z :=
  let keep (r : res RegistryError Z) := ((E, R), r) in
  match op with
  | OCreate e =>
      match check_ref (t_ref e), E (t_ref e) with
      | Err why, _ => keep (Err why)
      | Panic, _ => keep Panic
      | Ok _, Some _ => keep (Err (Exists (t_ref e)))
      | Ok _, None => ((upd (t_ref e) (Some e) E, R), Ok 0)
      end
  | OAdd r host =>
      match check_host host, E r, R host with
      | Err why, _, _ => keep (Err why)
      | Panic, _, _ => keep Panic
      | Ok _, None, _ => keep (Err (Missing r))
      | Ok _, Some e, Some owner =>
          if bool_decide (owner = r) then ((upd r (Some (listing host e)) E, R), Ok 0) else keep (Err (HostTaken host))
      | Ok _, Some e, None => ((upd r (Some (listing host e)) E, upd host (Some r) R), Ok 0)
      end
  | ORemove r host =>
      match R host with
      | Some owner =>
          if bool_decide (owner = r) then ((upd r (unlisting host <$> E r) E, upd host None R), Ok 0)
          else keep (Err (HostElsewhere host owner))
      | None => ((upd r (unlisting host <$> E r) E, R), Ok 0)
      end
  | OS3 r access secret =>
      match E r with Some e => ((upd r (Some (with_s3 access secret e)) E, R), Ok 0) | None => keep (Err (Missing r)) end
  | OAuth r auth =>
      match E r with Some e => ((upd r (Some (with_auth auth e)) E, R), Ok 0) | None => keep (Err (Missing r)) end
  | ODeploy r =>
      match E r with
      | Some e =>
          match uadd (t_deployed e) 1 with
          | Ok n => ((upd r (Some (with_deployed n e)) E, R), Ok n)
          | Err why => keep (Err why)
          | Panic => keep Panic
          end
      | None => keep (Err (Missing r))
      end
  | ODelete r =>
      match E r with
      | Some e => ((upd r None E, λ host, if decide (host ∈ t_hosts e ∧ R host = Some r) then None else R host), Ok 0)
      | None => keep (Err (Missing r))
      end
  end.
(** Hostnames say what entries say. *)
Definition consistent (E : Entries) (R : Routes) : Prop :=
  ∀ host r, R host = Some r ↔ ∃ e, E r = Some e ∧ host ∈ t_hosts e.
(** Arguments are text, and a new tenant has no hostnames yet. *)
Definition op_ok (op : RegOp) : Prop :=
  match op with
  | OCreate e => tenant_fits e ∧ t_format e ≤ REGISTRY_FORMAT ∧ t_hosts e = []
  | OAdd r host => utf8 r ∧ utf8 host
  | OS3 _ access secret => utf8 access ∧ utf8 secret
  | OAuth _ (Some a) => match au_site_url a with Some u => utf8 u | None => True end
  | _ => True
  end.

Lemma listing_elem host e h : h ∈ t_hosts (listing host e) ↔ h = host ∨ h ∈ t_hosts e.
Proof.
  unfold listing. case_bool_decide as D; [naive_solver|]. cbn. rewrite sort_by_elem, elem_of_app, list_elem_of_singleton. naive_solver.
Qed.
Lemma unlisting_elem host e h : h ∈ t_hosts (unlisting host e) ↔ h ≠ host ∧ h ∈ t_hosts e.
Proof.
  unfold unlisting. case_bool_decide as D; [|naive_solver]. cbn. by rewrite list_elem_of_filter.
Qed.
Lemma same_hosts E R r e e' :
  consistent E R → E r = Some e → t_hosts e' = t_hosts e → consistent (upd r (Some e') E) R.
Proof.
  intros C Er Eh host r'. rewrite (C host r'). destruct (decide (r' = r)) as [->|N]; [rewrite upd_eq, Er|by rewrite upd_ne].
  split; intros (x & [= <-] & ?); eexists; (split; [done|]); congruence.
Qed.
(** Every promise keeps the two tables in step. *)
Lemma promised_consistent op E R : consistent E R → op_ok op → consistent (promised op E R).1.1 (promised op E R).1.2.
Proof.
  intros C Ok. destruct op as [e|r host|r host|r access secret|r auth|r|r]; cbn [promised].
  - destruct (check_ref (t_ref e)); [|done..]. destruct (E (t_ref e)) eqn:Er; [done|]. destruct Ok as (_ & _ & Nh). cbn. intros host r. rewrite (C host r).
    destruct (decide (r = t_ref e)) as [->|N]; [rewrite upd_eq, Er|by rewrite upd_ne].
    split; [by intros (? & ? & ?)|]. intros (x & [= <-] & M). rewrite Nh in M. by apply elem_of_nil in M.
  - destruct (check_host host); [|done..]. destruct (E r) as [e|] eqn:Er; [|done]. destruct (R host) as [owner|] eqn:Rh.
    + case_bool_decide as D; [subst owner|done]. cbn. apply C in Rh as Rh'. destruct Rh' as (e' & Er' & Hh). rewrite Er in Er'. injection Er' as <-.
      eapply same_hosts; [done|done|]. unfold listing. by rewrite bool_decide_true.
    + cbn. intros h r'. destruct (decide (h = host)) as [->|Nh].
      * rewrite upd_eq. split.
        -- intros [= <-]. exists (listing host e). rewrite upd_eq. split; [done|]. apply listing_elem. by left.
        -- intros (x & Ex & Hx). destruct (decide (r' = r)) as [->|N]; [done|]. rewrite upd_ne in Ex by done.
           assert (R host = Some r') by (apply C; eauto). congruence.
      * rewrite upd_ne by done. rewrite (C h r'). destruct (decide (r' = r)) as [->|N]; [rewrite upd_eq, Er|by rewrite upd_ne].
        split; intros (x & [= <-] & Hx); eexists; (split; [done|]); [apply listing_elem; by right|by apply listing_elem in Hx as [?|?]].
  - assert (Cr : ∀ R', R' host = None → (∀ h, h ≠ host → R' h = R h) → R host = None ∨ R host = Some r →
      consistent (upd r (unlisting host <$> E r) E) R').
    { intros R' Rn Rs Own h r'. destruct (decide (h = host)) as [->|Nh].
      - rewrite Rn. split; [done|]. intros (x & Ex & Hx). destruct (decide (r' = r)) as [->|N].
        + rewrite upd_eq in Ex. destruct (E r); [|done]. injection Ex as <-. by apply unlisting_elem in Hx as [? _].
        + rewrite upd_ne in Ex by done. assert (Rh : R host = Some r') by (apply C; eauto). destruct Own; congruence.
      - rewrite (Rs h Nh), (C h r'). destruct (decide (r' = r)) as [->|N]; [rewrite upd_eq|by rewrite upd_ne].
        split; intros (x & Ex & Hx).
        + exists (unlisting host x). rewrite Ex. split; [done|]. by apply unlisting_elem.
        + destruct (E r) as [e|] eqn:Er; [|done]. injection Ex as <-. apply unlisting_elem in Hx as [_ Hx]. eauto. }
    destruct (R host) as [owner|] eqn:Rh.
    + case_bool_decide as D; [subst owner|done]. cbn. apply Cr; [apply upd_eq|intros; by apply upd_ne|by right].
    + cbn. apply Cr; [done|done|by left].
  - destruct (E r) eqn:Er; [|done]. cbn. by eapply same_hosts.
  - destruct (E r) eqn:Er; [|done]. cbn. by eapply same_hosts.
  - destruct (E r) eqn:Er; [|done]. destruct (uadd _ _); [|done..]. cbn. by eapply same_hosts.
  - destruct (E r) as [e|] eqn:Er; [|done]. cbn. intros h r'. destruct (decide (h ∈ t_hosts e ∧ R h = Some r)) as [[Hh Rh]|Nh].
    + split; [done|]. intros (x & Ex & Hx). destruct (decide (r' = r)) as [->|N]; [by rewrite upd_eq in Ex|]. rewrite upd_ne in Ex by done.
      assert (R h = Some r') by (apply C; eauto). congruence.
    + destruct (decide (r' = r)) as [->|N]; [rewrite upd_eq|rewrite upd_ne by done; apply C].
      split; [|by intros (? & ? & _)]. intros Rh. destruct Nh. split; [|done]. apply C in Rh as (x & Ex & Hx). congruence.
Qed.

(** ** The tables in the store *)
Lemma entry_key_inj r r' : entry_key r = entry_key r' → r = r'.
Proof. unfold entry_key. intros E%app_inv_head. by apply app_inv_tail in E. Qed.
Lemma host_key_inj h h' : host_key h = host_key h' → h = h'.
Proof. unfold host_key. intros E%app_inv_head. by apply app_inv_tail in E. Qed.
Lemma entry_not_host r h : entry_key r ≠ host_key h.
Proof. done. Qed.
#[local] Hint Resolve entry_not_host : core.

Section runs.
Context {S : Type} `{CasOk S} `{SerdeRegistryOk}.
Implicit Types s : S.
Abbreviation M := (io S RegistryError).
(** An operation, with the number it answers or nothing. *)
Definition done_ (p : M ()) : M Z := _ ← p; mret 0.
Definition op_run (op : RegOp) : M Z :=
  match op with
  | OCreate e => done_ (run (reg_create e))
  | OAdd r host => done_ (add_host r host)
  | ORemove r host => done_ (remove_host r host)
  | OS3 r access secret => done_ (set_s3 r access secret)
  | OAuth r auth => done_ (set_auth r auth)
  | ODeploy r => run (note_deploy r)
  | ODelete r => done_ (reg_delete r)
  end.
Definition tenant_good (e : Tenant) : Prop := tenant_fits e ∧ t_format e ≤ REGISTRY_FORMAT.
(** What an object under a key stands for. *)
Definition cell {A} (v : option (bytes * Version)) (parse : bytes → res RegistryError A) (good : A → Prop) (o : option A) : Prop :=
  match o with Some a => ∃ data n, v = Some (data, n) ∧ parse data = Ok a ∧ good a | None => v = None end.
Definition holds s (E : Entries) (R : Routes) : Prop :=
  cas_inv s ∧ (∀ r, cell (cas_view s (entry_key r)) (tenant_parse r) tenant_good (E r)) ∧
  (∀ h, cell (cas_view s (host_key h)) (alias_parse h) utf8 (R h)).
(** Keys that are neither an entry nor a hostname. *)
Definition elsewhere s s' : Prop :=
  ∀ key, (∀ r, key ≠ entry_key r) → (∀ h, key ≠ host_key h) → cas_view s' key = cas_view s key.

Lemma tenant_parse_back r e : tenant_good e → tenant_parse r (tenant_json e) = Ok e.
Proof. intros [F L]. unfold tenant_parse. rewrite tenant_back by done. cbn. destruct (_ <? _) eqn:Q; [lia|done]. Qed.
Lemma alias_parse_back h r : utf8 h → utf8 r → alias_parse h (alias_json (mkAlias REGISTRY_FORMAT h r)) = Ok r.
Proof. intros Uh Ur. unfold alias_parse. by rewrite alias_back. Qed.
Lemma set_entry s s' E R r o :
  holds s E R → cas_inv s' → (∀ key, key ≠ entry_key r → cas_view s' key = cas_view s key) →
  cell (cas_view s' (entry_key r)) (tenant_parse r) tenant_good o → holds s' (upd r o E) R ∧ elsewhere s s'.
Proof.
  intros (_ & He & Hr) I O C. split; [split_and!; [done|intros r'|intros h; by rewrite O by auto]|intros key N _; by apply O].
  destruct (decide (r' = r)) as [->|N]; [by rewrite upd_eq|]. rewrite upd_ne by done. rewrite O; [done|]. by intros ?%entry_key_inj.
Qed.
Lemma set_route s s' E R h o :
  holds s E R → cas_inv s' → (∀ key, key ≠ host_key h → cas_view s' key = cas_view s key) →
  cell (cas_view s' (host_key h)) (alias_parse h) utf8 o → holds s' E (upd h o R) ∧ elsewhere s s'.
Proof.
  intros (_ & He & Hr) I O C. split; [split_and!; [done|intros r; by rewrite O by auto|intros h']|intros key _ N; by apply O].
  destruct (decide (h' = h)) as [->|N]; [by rewrite upd_eq|]. rewrite upd_ne by done. rewrite O; [done|]. by intros ?%host_key_inj.
Qed.
Lemma elsewhere_trans s1 s2 s3 : elsewhere s1 s2 → elsewhere s2 s3 → elsewhere s1 s3.
Proof. intros A B key N1 N2. by rewrite B, A. Qed.

(** *** Each call on a store at rest *)
Lemma get_runs s E R r ms : holds s E R → run (reg_get r) (alone s ms) = (alone s ms, Some (Ok (E r))).
Proof.
  intros (I & He & _). unfold reg_get, run. rewrite exec_bind. pose proof (get_alone RStore (entry_key r) s ms I) as G. unfold run in G. rewrite G.
  specialize (He r). unfold cell in He. destruct (E r) as [e|]; [destruct He as (data & v & -> & P & _)|by rewrite He].
  cbn. by rewrite P.
Qed.
Lemma route_exec s E R h ms : holds s E R → exec (alone s ms) (host_ref h) = (alone s ms, Some (Ok (R h))).
Proof.
  intros (I & _ & Hr). unfold host_ref. rewrite exec_bind. pose proof (get_alone RStore (host_key h) s ms I) as G. unfold run in G. rewrite G.
  specialize (Hr h). unfold cell in Hr. destruct (R h) as [o|]; [destruct Hr as (data & v & -> & P & _)|by rewrite Hr].
  cbn. by rewrite P.
Qed.
Lemma must_runs s E R r ms : holds s E R →
  run (must_get r) (alone s ms) = (alone s ms, Some (match E r with Some e => Ok e | None => Err (Missing r) end)).
Proof.
  intros Hs. unfold must_get, run. rewrite exec_bind. pose proof (get_runs s E R r ms Hs) as G. unfold run in G. rewrite G. by destruct (E r).
Qed.
Lemma put_entry s E R r e ms : holds s E R → tenant_good e →
  ∃ s' v, put_ RStore (entry_key r) (tenant_json e) (alone s ms) = (alone s' ms, Some (Ok v)) ∧ holds s' (upd r (Some e) E) R ∧ elsewhere s s'.
Proof.
  intros Hs G. destruct (put_alone RStore (entry_key r) (tenant_json e) s ms (proj1 Hs)) as (s' & v & P & I' & V & O).
  exists s', v. split; [exact P|]. eapply set_entry; [done..|]. exists (tenant_json e), v. split_and!; [done|by apply tenant_parse_back|done].
Qed.
Lemma remove_alone key s ms : cas_inv s →
  ∃ s', remove_ key (alone s ms) = (alone s' ms, Some (Ok ())) ∧ cas_inv s' ∧ cas_view s' key = None ∧
    ∀ key', key' ≠ key → cas_view s' key' = cas_view s key'.
Proof.
  intros I. pose proof (cas_delete_ok s key I) as D. unfold remove_. cbn [meddle alone w_env w_store w_ms].
  destruct (cas_delete s key) as [s' r]. destruct D as (I' & -> & V & O). by exists s'.
Qed.
Lemma claim_free key data taken s ms : cas_inv s → cas_view s key = None →
  ∃ s' v, run (claim key data taken) (alone s ms) = (alone s' ms, Some (Ok ())) ∧ cas_inv s' ∧ cas_view s' key = Some (data, v) ∧
    ∀ key', key' ≠ key → cas_view s' key' = cas_view s key'.
Proof.
  intros I N. unfold claim, put_absent, run.
  match goal with |- context [Put key data None ?k] => destruct (alone_put s ms key data None k) as (s' & v & _ & I' & V & O & X); [done|by rewrite N|] end. exists s', v. rewrite X. done.
Qed.
Lemma claim_taken key data taken s ms cur : cas_inv s → cas_view s key = Some cur →
  run (claim key data taken) (alone s ms) = exec (alone s ms) taken.
Proof. intros I V. unfold claim, put_absent, run. by rewrite alone_put_conflict by (rewrite ?V; done). Qed.

(** *** Each operation *)
Definition refines (op : RegOp) : Prop := ∀ s E R ms, holds s E R → op_ok op →
  ∃ s', op_run op (alone s ms) = (alone s' ms, Some (promised op E R).2) ∧
    holds s' (promised op E R).1.1 (promised op E R).1.2 ∧ elsewhere s s'.
Lemma cell_some {A} v (parse : bytes → res RegistryError A) good a : cell v parse good (Some a) → is_Some v.
Proof. intros (data & n & -> & _). eauto. Qed.
Lemma refines_create e : refines (OCreate e).
Proof.
  intros s E R ms Hs (F & L & _). cbn [op_run promised]. unfold done_, reg_create.
  destruct (check_ref (t_ref e)) as [[]|why|] eqn:Ck; [|by exists s|by exists s].
  pose proof Hs as (I & He & _). specialize (He (t_ref e)). change (_ ← Ret (Ok ()); ?p) with p.
  destruct (E (t_ref e)) as [e'|] eqn:Er.
  - destruct (cell_some _ _ _ _ He) as [cur V]. exists s. split_and!; [|done|done]. erewrite io_err; [done|]. by erewrite claim_taken by done.
  - destruct (claim_free (entry_key (t_ref e)) (tenant_json e) (Ret (Err (Exists (t_ref e)))) s ms I He) as (s' & v & X & I' & V & O).
    exists s'. split; [by erewrite io_ok by exact X|]. eapply set_entry; [done..|]. exists (tenant_json e), v. split_and!; [done|by apply tenant_parse_back|done].
Qed.
Lemma rewrite_runs change s E R r ms : holds s E R → (∀ e, tenant_good e → tenant_good (change e)) →
  ∃ s', done_ (rewrite_entry r change) (alone s ms) = (alone s' ms, Some (match E r with Some _ => Ok 0 | None => Err (Missing r) end)) ∧
    holds s' (match E r with Some e => upd r (Some (change e)) E | None => E end) R ∧ elsewhere s s'.
Proof.
  intros Hs Gd. unfold done_, rewrite_entry. pose proof (must_runs s E R r ms Hs) as Mr. destruct (E r) as [e|] eqn:Er.
  - pose proof Hs as (_ & He & _). specialize (He r). rewrite Er in He. destruct He as (_ & _ & _ & _ & G).
    destruct (put_entry s E R r (change e) ms Hs (Gd e G)) as (s' & v & P & Hs' & El). exists s'. split; [|done].
    erewrite io_ok; [done|]. erewrite io_ok by exact Mr. cbv beta. by erewrite io_ok by exact P.
  - exists s. split_and!; [|done|done]. erewrite io_err; [done|]. by erewrite io_err by exact Mr.
Qed.
Lemma refines_s3 r access secret : refines (OS3 r access secret).
Proof.
  intros s E R ms Hs [Ua Us]. destruct (rewrite_runs (with_s3 access secret) s E R r ms Hs) as (s' & X & Hs' & El).
  { intros e [(F1 & F2 & F3 & F4 & F5) L]. split; [|done]. split_and!; [done..| |done]. cbn. inversion F4 as [|? ? ? F6]. inversion F6 as [|? ? ? F7].
    inversion F7 as [|? ? ? F8]. inversion F8. by repeat constructor. }
  exists s'. cbn [op_run promised]. unfold set_s3. rewrite X. by destruct (E r).
Qed.
Lemma refines_auth r auth : refines (OAuth r auth).
Proof.
  intros s E R ms Hs U. destruct (rewrite_runs (with_auth auth) s E R r ms Hs) as (s' & X & Hs' & El).
  { intros e [(F1 & F2 & F3 & F4 & _) L]. split; [|done]. split_and!; [done..|]. cbn. by destruct auth. }
  exists s'. cbn [op_run promised]. unfold set_auth. rewrite X. by destruct (E r).
Qed.
Lemma refines_deploy r : refines (ODeploy r).
Proof.
  intros s E R ms Hs _. pose proof Hs as (I & He & _). specialize (He r). cbn [op_run promised]. unfold note_deploy, run.
  change (deploy_loop ATTEMPTS r) with (deploy_loop (Datatypes.S 4) r). cbn [deploy_loop]. rewrite exec_bind.
  pose proof (get_alone RStore (entry_key r) s ms I) as G. unfold run in G. rewrite G. unfold cell in He.
  destruct (E r) as [e|] eqn:Er; [|rewrite He; by exists s]. destruct He as (data & v & V & P & Gd). rewrite V, P. cbn [mbind prog_bind handle].
  unfold mbind, prog_bind. cbn [handle]. destruct (uadd (t_deployed e) 1) as [n|why|] eqn:U; [|by exists s|by exists s].
  match goal with |- context [Put _ _ _ ?k] =>
    destruct (alone_put s ms (entry_key r) (tenant_json (with_deployed n e)) (Some v) k) as (s' & v' & _ & I' & V' & O & X); [done|by rewrite V|] end.
  exists s'. split; [rewrite X; done|]. eapply set_entry; [done..|].
  exists (tenant_json (with_deployed n e)), v'. assert (Gd' : tenant_good (with_deployed n e)); [|split_and!; [done|by apply tenant_parse_back|done]].
  destruct Gd as [(F1 & F2 & F3 & F4 & F5) L]. apply uadd_ok in U as [-> U]. split; [|done]. split_and!; [done..| |done|done].
  change (0 ≤ t_deployed e < 2 ^ 64) in F3. change (0 ≤ t_deployed e + 1 < 2 ^ 64). lia.
Qed.
Lemma good_hosts hs e : tenant_good e → Forall utf8 hs → tenant_good (with_hosts hs e).
Proof.
  intros [(F1 & F2 & F3 & F4 & F5) L] U. split; [|done]. split_and!; [done..| |done]. cbn.
  inversion F4 as [|? ? ? F6]. inversion F6 as [|? ? ? F7]. inversion F7 as [|? ? ? F8]. inversion F8. by repeat constructor.
Qed.
Lemma good_listed e : tenant_good e → Forall utf8 (t_hosts e).
Proof. intros [(_ & _ & _ & F & _) _]. by do 4 apply Forall_inv_tail in F. Qed.
Lemma holds_good s E R r e : holds s E R → E r = Some e → tenant_good e.
Proof. intros (_ & He & _) Er. specialize (He r). rewrite Er in He. by destruct He as (_ & _ & _ & _ & G). Qed.
Lemma same_entry s E R r : holds s E R → holds s (upd r (E r) E) R.
Proof. intros Hs. apply (set_entry s s E R r (E r) Hs); [apply Hs|done|apply Hs]. Qed.
(** The end of [add_host] and of [remove_host]: the entry is written when
    the listing changes it. *)
Lemma list_runs s E R r e host ms : holds s E R → E r = Some e → utf8 host →
  ∃ s', (if bool_decide (host ∈ t_hosts e) then mret ()
         else _ ← put_ RStore (entry_key r) (tenant_json (with_hosts (sort_by oleb (t_hosts e ++ [host])) e)); mret ()) (alone s ms) =
        (alone s' ms, Some (@Ok RegistryError _ ())) ∧ holds s' (upd r (Some (listing host e)) E) R ∧ elsewhere s s'.
Proof.
  intros Hs Er U. pose proof (holds_good s E R r e Hs Er) as G. unfold listing. case_bool_decide.
  - exists s. split_and!; [done| |done]. rewrite <-Er. by apply same_entry.
  - destruct (put_entry s E R r (with_hosts (sort_by oleb (t_hosts e ++ [host])) e) ms Hs) as (s' & v & P & Hs' & El).
    { apply good_hosts; [done|]. rewrite sort_by_perm. apply Forall_app. split; [by apply good_listed|by repeat constructor]. }
    exists s'. split; [|done]. by erewrite io_ok by exact P.
Qed.
Lemma refines_add r host : refines (OAdd r host).
Proof.
  intros s E R ms Hs [Ur Uh]. pose proof Hs as (I & _ & Hr). specialize (Hr host). cbn [op_run promised]. unfold done_, add_host.
  destruct (check_host host) as [[]|why|] eqn:Ck; [|by exists s|by exists s].
  pose proof (must_runs s E R r ms Hs) as Mr. destruct (E r) as [e|] eqn:Er; [|exists s; split_and!; [|done|done]].
  2: { erewrite io_err; [done|]. erewrite io_ok by done. by erewrite io_err by exact Mr. }
  destruct (R host) as [owner|] eqn:Rh.
  - destruct (cell_some _ _ _ _ Hr) as [cur V].
    match goal with |- context [claim ?k ?d ?t] => pose proof (claim_taken k d t s ms cur I V) as Ct end.
    rewrite exec_bind, (route_exec s E R host ms Hs), Rh in Ct. cbv beta iota in Ct. destruct (decide (owner = r)) as [->|D].
    + rewrite bool_decide_true in Ct by done. rewrite (bool_decide_true (r = r)) by done. destruct (list_runs s E R r e host ms Hs Er Uh) as (s' & L & Hs' & El).
      exists s'. split; [|done]. erewrite io_ok; [done|]. erewrite io_ok by done. cbv beta. erewrite io_ok by exact Mr. cbv beta.
      erewrite io_ok by exact Ct. exact L.
    + rewrite bool_decide_false in Ct by congruence. rewrite (bool_decide_false (owner = r)) by done. exists s. split_and!; [|done|done]. erewrite io_err; [done|]. erewrite io_ok by done. cbv beta.
      erewrite io_ok by exact Mr. cbv beta. by erewrite io_err by exact Ct.
  - match goal with |- context [claim ?k ?d ?t] => destruct (claim_free k d t s ms I Hr) as (s1 & v & Cf & I1 & V & O) end.
    destruct (set_route s s1 E R host (Some r) Hs I1 O) as [Hs1 El1]; [eexists _, v; split_and!; [done|by apply alias_parse_back|done]|].
    destruct (list_runs s1 E (upd host (Some r) R) r e host ms Hs1 Er Uh) as (s' & L & Hs' & El). exists s'.
    split_and!; [|done|by eapply elsewhere_trans]. erewrite io_ok; [done|]. erewrite io_ok by done. cbv beta. erewrite io_ok by exact Mr. cbv beta.
    erewrite io_ok by exact Cf. exact L.
Qed.
Lemma unlist_runs s E R r host ms : holds s E R →
  ∃ s', (entry ← run (reg_get r);
         match entry with
         | Some entry =>
             if bool_decide (host ∈ t_hosts entry) then
               _ ← put_ RStore (entry_key r) (tenant_json (with_hosts (filter (λ h, h ≠ host) (t_hosts entry)) entry)); mret ()
             else mret ()
         | None => mret ()
         end) (alone s ms) = (alone s' ms, Some (@Ok RegistryError _ ())) ∧ holds s' (upd r (unlisting host <$> E r) E) R ∧ elsewhere s s'.
Proof.
  intros Hs. destruct (E r) as [e|] eqn:Er.
  2: { exists s. split_and!; [|cbn; rewrite <-Er; by apply same_entry|done]. erewrite io_ok by by eapply get_runs. by rewrite Er. }
  pose proof (holds_good s E R r e Hs Er) as G. cbn [fmap option_fmap option_map]. unfold unlisting. case_bool_decide as D.
  - destruct (put_entry s E R r (with_hosts (filter (λ h, h ≠ host) (t_hosts e)) e) ms Hs) as (s' & v & P & Hs' & El).
    { apply good_hosts; [done|]. apply Forall_forall. intros h [_ Hh]%list_elem_of_filter. by eapply Forall_forall in Hh; [|by apply good_listed]. }
    exists s'. split; [|done]. erewrite io_ok by by eapply get_runs. rewrite Er. cbv beta iota. rewrite bool_decide_true by done. by erewrite io_ok by exact P.
  - exists s. split_and!; [|rewrite <-Er; by apply same_entry|done]. erewrite io_ok by by eapply get_runs. rewrite Er. by rewrite bool_decide_false.
Qed.
Lemma refines_remove r host : refines (ORemove r host).
Proof.
  intros s E R ms Hs _. cbn [op_run promised]. unfold done_, remove_host. pose proof (route_exec s E R host ms Hs) as Rr.
  change (run (host_ref host) (alone s ms) = (alone s ms, Some (Ok (R host)))) in Rr. destruct (R host) as [owner|] eqn:Rh.
  - destruct (decide (owner = r)) as [->|D].
    + rewrite (bool_decide_true (r = r)) by done. destruct (remove_alone (host_key host) s ms (proj1 Hs)) as (s1 & X & I1 & V & O).
      destruct (set_route s s1 E R host None Hs I1 O V) as [Hs1 El1]. destruct (unlist_runs s1 E (upd host None R) r host ms Hs1) as (s' & L & Hs' & El).
      exists s'. split_and!; [|done|by eapply elsewhere_trans]. erewrite io_ok; [done|]. erewrite io_ok by exact Rr. cbv beta iota.
      rewrite bool_decide_true by done. erewrite io_ok by exact X. exact L.
    + rewrite (bool_decide_false (owner = r)) by done. exists s. split_and!; [|done|done]. erewrite io_err; [done|]. erewrite io_ok by exact Rr. cbv beta iota. rewrite bool_decide_false by done. done.
  - destruct (unlist_runs s E R r host ms Hs) as (s' & L & Hs' & El). exists s'. split; [|done].
    erewrite io_ok; [done|]. erewrite io_ok by exact Rr. cbv beta iota. erewrite io_ok by done. exact L.
Qed.
Definition without (r : bytes) (hosts : list bytes) (R : Routes) : Routes := λ h, if decide (h ∈ hosts ∧ R h = Some r) then None else R h.
Lemma holds_ext s E R R' : (∀ h, R h = R' h) → holds s E R → holds s E R'.
Proof. intros X (I & He & Hr). split_and!; [done|done|]. intros h. by rewrite <-X. Qed.
Lemma without_cons r h hosts R : ∀ x, without r hosts (without r [h] R) x = without r (h :: hosts) R x.
Proof.
  intros x. unfold without. destruct (decide (x ∈ [h] ∧ R x = Some r)) as [[A Rx]|N1].
  - apply list_elem_of_singleton in A as ->. rewrite (decide_True (P := h ∈ h :: hosts ∧ _)) by (split; [by left|done]). by destruct (decide _).
  - apply decide_ext. rewrite elem_of_cons. rewrite list_elem_of_singleton in N1. naive_solver.
Qed.
Lemma drop_routes r hosts : ∀ s E R ms, holds s E R →
  ∃ s', for_each hosts (λ host, owner ← run (host_ref host); if bool_decide (owner = Some r) then remove_ (host_key host) else mret ()) (alone s ms) =
        (alone s' ms, Some (@Ok RegistryError _ ())) ∧ holds s' E (without r hosts R) ∧ elsewhere s s'.
Proof.
  induction hosts as [|h hosts IH]; intros s E R ms Hs; cbn [for_each].
  - exists s. split_and!; [done| |done]. eapply holds_ext; [|done]. intros h. unfold without. rewrite decide_False; [done|]. intros [?%elem_of_nil _]. done.
  - assert (Step : ∃ s1, (owner ← run (host_ref h); if bool_decide (owner = Some r) then remove_ (host_key h) else mret ()) (alone s ms) =
      (alone s1 ms, Some (@Ok RegistryError _ ())) ∧ holds s1 E (without r [h] R) ∧ elsewhere s s1).
    { erewrite io_ok by (unfold run; by apply (route_exec s E R)). destruct (decide (R h = Some r)) as [Rh|Rh].
      - rewrite bool_decide_true by done. destruct (remove_alone (host_key h) s ms (proj1 Hs)) as (s1 & X & I1 & V & O). exists s1. split; [done|].
        destruct (set_route s s1 E R h None Hs I1 O V) as [Hs1 El]. split; [|done]. eapply holds_ext; [|exact Hs1]. intros x. unfold upd, without.
        destruct (decide (x = h)) as [->|N]; [rewrite decide_True; [done|split; [by left|done]]|].
        rewrite decide_False; [done|]. by intros [?%list_elem_of_singleton _].
      - rewrite bool_decide_false by done. exists s. split_and!; [done| |done]. eapply holds_ext; [|exact Hs]. intros x. unfold without.
        rewrite decide_False; [done|]. by intros [->%list_elem_of_singleton ?]. }
    destruct Step as (s1 & X & Hs1 & El1). destruct (IH s1 E (without r [h] R) ms Hs1) as (s' & L & Hs' & El). exists s'.
    split_and!; [|eapply holds_ext; [apply without_cons|done]|by eapply elsewhere_trans]. by erewrite io_ok by exact X.
Qed.
Lemma refines_delete r : refines (ODelete r).
Proof.
  intros s E R ms Hs _. cbn [op_run promised]. unfold done_, reg_delete. pose proof (must_runs s E R r ms Hs) as Mr. destruct (E r) as [e|] eqn:Er.
  2: { exists s. split_and!; [|done|done]. erewrite io_err; [done|]. by erewrite io_err by exact Mr. }
  destruct (drop_routes r (t_hosts e) s E R ms Hs) as (s1 & L & Hs1 & El1).
  destruct (remove_alone (entry_key r) s1 ms (proj1 Hs1)) as (s' & X & I' & V & O). destruct (set_entry s1 s' E _ r None Hs1 I' O V) as [Hs' El].
  exists s'. split_and!; [|done|by eapply elsewhere_trans]. erewrite io_ok; [done|]. erewrite io_ok by exact Mr. cbv beta.
  erewrite io_ok by by eapply get_runs. rewrite Er. cbn [fmap option_fmap option_map default]. cbv beta. erewrite io_ok by exact L. exact X.
Qed.
Lemma op_refines op : refines op.
Proof.
  destruct op; [apply refines_create|apply refines_add|apply refines_remove|apply refines_s3|apply refines_auth|apply refines_deploy|apply refines_delete].
Qed.
Lemma list_refines s E R ms : holds s E R →
  ∃ refs, reg_list (alone s ms) = (alone s ms, Some (Ok refs)) ∧ sorted_by oleb refs ∧ ∀ r, r ∈ refs ↔ is_Some (E r).
Proof.
  intros (I & He & _). destruct (list_alone RStore entries_prefix s ms I) as (keys & L & _ & El). eexists.
  split; [unfold reg_list; by erewrite io_ok by exact L|]. split; [apply sort_by_sorted; [intros a b; apply ole_total|intros a b c; apply ole_trans]|].
  intros r. rewrite sort_by_elem, list_elem_of_omap. transitivity (is_Some (cas_view s (entry_key r))).
  - split.
    + intros (key & Hk & Sk). destruct (strip_prefix entries_prefix key) as [name|] eqn:Sp; [|done]. apply strip_prefix_inv in Sp as ->.
      cbn in Sk. apply strip_suffix_inv in Sk as ->. by apply El in Hk as [? _].
    + intros V. exists (entry_key r). split; [apply El; split; [done|apply starts_with_app]|]. unfold entry_key. rewrite strip_prefix_app. cbn. apply strip_suffix_app.
  - specialize (He r). unfold cell in He. destruct (E r); [|rewrite He; split; by intros []]. destruct He as (? & ? & -> & _). split; eauto.
Qed.

(** *** Any run of operations *)
Fixpoint op_runs (ops : list RegOp) (w : world S) : world S * list (option (res RegistryError Z)) :=
  match ops with
  | [] => (w, [])
  | op :: ops => let '(w, r) := op_run op w in let '(w, rs) := op_runs ops w in (w, r :: rs)
  end.
End runs.
Fixpoint promised_all (ops : list RegOp) (E : Entries) (R : Routes) : (Entries * Routes) * list (res RegistryError Z) :=
  match ops with
  | [] => ((E, R), [])
  | op :: ops => let '((E, R), r) := promised op E R in let '((E, R), rs) := promised_all ops E R in ((E, R), r :: rs)
  end.

(** C22: operations on the registry, one after the other on a store nobody
    else writes, answer what the two tables promise, keep every hostname
    routed to the tenant whose entry lists it and to no other, and touch no
    key that is neither an entry nor a hostname, so a tenant's data outlives
    its entry.  Afterwards a lookup, a route and a listing read the tables. *)
Theorem registry_refines {S} `{CasOk S} `{SerdeRegistryOk} (ops : list RegOp) (s : S) (E : Entries) (R : Routes) (ms : Z) :
  holds s E R → consistent E R → Forall op_ok ops →
  let E' := (promised_all ops E R).1.1 in let R' := (promised_all ops E R).1.2 in
  ∃ s', op_runs ops (alone s ms) = (alone s' ms, Some <$> (promised_all ops E R).2) ∧
    consistent E' R' ∧ elsewhere s s' ∧
    (∀ r, run (reg_get r) (alone s' ms) = (alone s' ms, Some (Ok (E' r)))) ∧
    (∀ h, run (host_ref h) (alone s' ms) = (alone s' ms, Some (Ok (R' h)))) ∧
    ∃ refs, reg_list (alone s' ms) = (alone s' ms, Some (Ok refs)) ∧ sorted_by oleb refs ∧ ∀ r, r ∈ refs ↔ is_Some (E' r).
Proof.
  intros Hs C F. cbv zeta. revert s E R Hs C. induction F as [|op ops Ok F IH]; intros s E R Hs C; cbn [promised_all op_runs].
  - exists s. split_and!; [done|done|done| | |by eapply list_refines]; intros; [by eapply get_runs|by eapply route_exec].
  - pose proof (promised_consistent op E R C Ok) as C1. destruct (op_refines op s E R ms Hs Ok) as (s1 & X & Hs1 & El1). rewrite X.
    destruct (promised op E R) as [[E1 R1] r1]. cbn [fst snd] in *. destruct (IH s1 E1 R1 Hs1 C1) as (s' & Y & C' & El & Rest).
    rewrite Y. destruct (promised_all ops E1 R1) as [[E2 R2] rs]. exists s'. split_and!; [done|done|by eapply elsewhere_trans|apply Rest..].
Qed.

(** ** Concrete runs *)
Module RegistryConcrete.
#[export] Instance auth_countable : Countable TenantAuth.
Proof. refine (inj_countable' (λ a, (au_confirm_email a, au_site_url a)) (λ '(a, b), mkAuth a b) _). by intros []. Defined.
#[export] Instance tenant_countable : Countable Tenant.
Proof.
  refine (inj_countable (λ t, [countable.encode (t_format t); countable.encode (t_ref t); countable.encode (t_created_unix t); countable.encode (t_jwt_secret t); countable.encode (t_hosts t);
      countable.encode (t_s3_access_key t); countable.encode (t_s3_secret_key t); countable.encode (t_deployed t); countable.encode (t_auth t)])
    (λ l, match l with
          | [a; b; c; d; e; f; g; h; i] =>
              a ← countable.decode a; b ← countable.decode b; c ← countable.decode c; d ← countable.decode d; e ← countable.decode e; f ← countable.decode f; g ← countable.decode g; h ← countable.decode h; i ← countable.decode i;
              Some (mkTenant a b c d e f g h i)
          | _ => None
          end) _).
  intros []. cbn. by rewrite !countable.decode_encode.
Defined.
#[export] Instance alias_countable : Countable Alias.
Proof. refine (inj_countable' (λ a, (al_format a, al_host a, al_ref a)) (λ '(a, b, c), mkAlias a b c) _). by intros []. Defined.
#[export] Instance serde_registry : SerdeRegistry := {
  tenant_to_vec_pretty t := ManifestConcrete.bits_of (countable.encode t);
  tenant_from_slice d := countable.decode (ManifestConcrete.of_bits d);
  alias_to_vec_pretty a := ManifestConcrete.bits_of (countable.encode a);
  alias_from_slice d := countable.decode (ManifestConcrete.of_bits d)
}.
#[export] Instance serde_registry_ok : SerdeRegistryOk.
Proof.
  split; intros x _; unfold tenant_json, alias_json; cbn [tenant_to_vec_pretty tenant_from_slice alias_to_vec_pretty alias_from_slice serde_registry];
    by rewrite ManifestConcrete.of_bits_of, countable.decode_encode.
Qed.
End RegistryConcrete.

Module RegistryWitness.
Import RegistryConcrete.
Definition acme : Tenant := tenant_new (str "acme") (str "k") 7.
Definition zed : Tenant := tenant_new (str "zed") (str "k") 8.
Definition site : bytes := str "a.io".
Definition script : list RegOp :=
  [OCreate acme; OCreate acme; OCreate zed; OAdd (str "acme") site; OAdd (str "zed") site; ORemove (str "zed") site;
   ODeploy (str "acme"); ODelete (str "acme"); OAdd (str "zed") site; OCreate (tenant_new (str "no_ref") (str "k") 9)].
Lemma nothing_holds : holds ms_new (λ _, None) (λ _, None).
Proof. split_and!; [apply ms_new_ok|done|done]. Qed.
Lemma script_ok : Forall op_ok script.
Proof.
  repeat constructor; first [done | vm_compute; by intuition congruence | idtac].
Qed.
Lemma registry_refines_witness :
  ∃ s', op_runs script (alone ms_new 0) = (alone s' 0,
      Some <$> [Ok 0; Err (Exists (str "acme")); Ok 0; Ok 0; Err (HostTaken site); Err (HostElsewhere site (str "acme")); Ok 1; Ok 0; Ok 0;
                Err (BadRef (str "no_ref") (WChar (str "_")))]) ∧
    run (host_ref site) (alone s' 0) = (alone s' 0, Some (@Ok RegistryError _ (Some (str "zed")))) ∧
    run (reg_get (str "acme")) (alone s' 0) = (alone s' 0, Some (@Ok RegistryError _ None)).
Proof.
  destruct (registry_refines script ms_new (λ _, None) (λ _, None) 0) as (s' & X & _ & _ & G & Rt & _).
  - apply nothing_holds.
  - intros h r. split; [done|]. by intros (? & ? & _).
  - apply script_ok.
  - exists s'. split_and!; [rewrite X; by vm_compute|by rewrite Rt; vm_compute|by rewrite G; vm_compute].
Defined.

(** A deploy that lands between the read and the write of [set_s3]. *)
Definition one : MemStore := w_store (op_runs [OCreate acme] (alone ms_new 0)).1.
Definition deploying (s : MemStore) : MemStore := w_store (run (note_deploy (str "acme")) (alone s 0)).1.
Definition after : world MemStore := (set_s3 (str "acme") (str "a") (str "s") (mkWorld one 0 [id; deploying])).1.
Example deploy_undone :
  (run (note_deploy (str "acme")) (alone one 0)).2 = Some (Ok 1) ∧
  (set_s3 (str "acme") (str "a") (str "s") (mkWorld one 0 [id; deploying])).2 = Some (Ok ()) ∧
  (run (reg_get (str "acme")) after).2 = Some (Ok (Some (with_s3 (str "a") (str "s") acme))) ∧
  t_deployed (with_s3 (str "a") (str "s") acme) = 0 ∧
  (run (note_deploy (str "acme")) after).2 = Some (Ok 1).
Proof. split_and!; by vm_compute. Qed.
End RegistryWitness.
