(* ===== verification/RtFrame.v ===== *)
(** * RtFrame: what goes over a realtime socket (crates/zou-realtime/src)

    Frames in their two JSON shapes and the binary broadcast (frame.rs), and
    that a frame written is the frame read. *)
From S2P Require Import Prelude Order Text Utf8.

(** ** JSON *)
(** [serde_json::Value]: a number is known by the text it prints as, an
    object is a [BTreeMap]. *)
Inductive Value :=
  | JNull
  | JBool (b : bool)
  | JNum (n : bytes)
  | JStr (s : bytes)
  | JArr (l : list Value)
  | JObj (m : list (bytes * Value)).
(** [Value::get], [as_str], [as_bool], [as_array], [as_object] *)
Definition jget (v : Value) (key : bytes) : option Value := match v with JObj m => bt_get key m | _ => None end.
Definition as_str (v : Value) : option bytes := match v with JStr s => Some s | _ => None end.
Definition as_bool (v : Value) : option bool := match v with JBool b => Some b | _ => None end.
Definition as_array (v : Value) : option (list Value) := match v with JArr l => Some l | _ => None end.
Definition as_object (v : Value) : option (list (bytes * Value)) := match v with JObj m => Some m | _ => None end.
(** [json!({..})] *)
Definition jobj (fields : list (bytes * Value)) : Value := JObj (foldl (λ m e, bt_insert e.1 e.2 m) [] fields).
Definition jnum (n : Z) : Value := JNum (fmt_dec 1 n).

(** Printing with sorted keys, and reading: the crate serde_json. *)
Class Json := {
  json_text : Value → bytes;
  json_parse : bytes → option Value;
  json_number : bytes → Prop
}.
(** Strings are text, objects maps, numbers numbers. *)
Fixpoint value_ok `{Json} (v : Value) : Prop :=
  match v with
  | JNull | JBool _ => True
  | JNum n => json_number n
  | JStr s => utf8 s
  | JArr l => foldr (λ v P, value_ok v ∧ P) True l
  | JObj m => bt_wf m ∧ foldr (λ e P, utf8 e.1 ∧ value_ok e.2 ∧ P) True m
  end.
Class JsonOk `{Json} := {
  json_back : ∀ v, value_ok v → json_parse (json_text v) = Some v;
  json_is_text : ∀ v, value_ok v → utf8 (json_text v);
  json_prints_nat : ∀ n, 0 ≤ n ≤ u64_max → json_number (fmt_dec 1 n)
}.

(** ** Frames *)
Inductive Vsn := V1 | V2.
(** [Vsn::parse] *)
Definition vsn_parse (vsn : option bytes) : option Vsn :=
  match vsn with
  | None => Some V2
  | Some v => if bool_decide (v = []) || bool_decide (v = str "2.0.0") then Some V2
              else if bool_decide (v = str "1.0.0") then Some V1 else None
  end.
Record Frame := mkFrame {
  f_join_ref : option bytes; f_reference : option bytes; f_topic : bytes; f_event : bytes; f_payload : Value
}.
(** The room name inside a channel topic. *)
Definition name_of (topic : bytes) : bytes := default topic (strip_prefix (str "realtime:") topic).
(** [Frame::reply] and what is made of it. *)
Definition f_reply (to : Frame) (status : bytes) (response : Value) : Frame :=
  mkFrame (f_join_ref to) (f_reference to) (f_topic to) (str "phx_reply")
    (jobj [(str "status", JStr status); (str "response", response)]).
Definition f_ok (to : Frame) : Frame := f_reply to (str "ok") (jobj []).
Definition f_error (to : Frame) (reason : bytes) : Frame := f_reply to (str "error") (jobj [(str "reason", JStr reason)]).
Definition f_system (to : Frame) (extension status message : bytes) : Frame :=
  mkFrame (f_join_ref to) None (f_topic to) (str "system")
    (jobj [(str "message", JStr message); (str "status", JStr status); (str "extension", JStr extension);
           (str "channel", JStr (name_of (f_topic to)))]).
Definition f_push (topic event : bytes) (payload : Value) : Frame := mkFrame None None topic event payload.
Definition f_channel_error (topic : bytes) : Frame := mkFrame None None topic (str "phx_error") (jobj []).
(** [as_ref] *)
Definition as_ref (v : Value) : option bytes := match v with JStr s => Some s | JNum n => Some n | _ => None end.

Section wire.
Context `{Json}.
(** [Frame::decode] *)
Definition f_decode (text : bytes) : option Frame :=
  v ← json_parse text;
  match v with
  | JArr [join_ref; reference; topic; event; payload] =>
      topic ← as_str topic;
      event ← as_str event;
      Some (mkFrame (as_ref join_ref) (as_ref reference) topic event payload)
  | JObj map =>
      topic ← bt_get (str "topic") map ≫= as_str;
      event ← bt_get (str "event") map ≫= as_str;
      Some (mkFrame (bt_get (str "join_ref") map ≫= as_ref) (bt_get (str "ref") map ≫= as_ref) topic event
              (default (jobj []) (bt_get (str "payload") map)))
  | _ => None
  end.
(** [encoded] *)
Definition ref_value (r : option bytes) : Value := match r with Some s => JStr s | None => JNull end.
Definition encoded (vsn : Vsn) (join_ref reference : option bytes) (topic event : bytes) (payload : Value) : bytes :=
  json_text
    match vsn with
    | V2 => JArr [ref_value join_ref; ref_value reference; JStr topic; JStr event; payload]
    | V1 => JObj [(str "event", JStr event); (str "join_ref", ref_value join_ref); (str "payload", payload);
                  (str "ref", ref_value reference); (str "topic", JStr topic)]
    end.
(** [Frame::encode] and [Frame::changed] *)
Definition f_encode (f : Frame) (vsn : Vsn) : bytes :=
  encoded vsn (f_join_ref f) (f_reference f) (f_topic f) (f_event f) (f_payload f).
Definition f_changed (vsn : Vsn) (topic : bytes) (ids : list Z) (data : Value) : bytes :=
  encoded vsn None None topic (str "postgres_changes") (JObj [(str "data", data); (str "ids", JArr (jnum <$> ids))]).

(** ** The binary broadcast *)
Inductive Encoding := EBinary | EJson.
Definition encoding_byte (e : Encoding) : Z := match e with EBinary => 0 | EJson => 1 end.
Record BinaryBroadcast := mkPush {
  bb_join_ref : bytes; bb_reference : bytes; bb_topic : bytes; bb_event : bytes; bb_meta : bytes;
  bb_encoding : Encoding; bb_payload : bytes
}.
Definition USER_BROADCAST_PUSH : Z := 3.
Definition USER_BROADCAST : Z := 4.
Definition PUSH_HEADER : Z := 7.
(** One step of [take]: [n] bytes that are text, and the rest. *)
Definition take_text (n : Z) (s : bytes) : option (bytes * bytes) :=
  let text := take (Z.to_nat n) s in
  if (n <=? zlen s) && utf8_valid text then Some (text, drop (Z.to_nat n) s) else None.
(** [BinaryBroadcast::decode] *)
Definition bb_decode (s : bytes) : option BinaryBroadcast :=
  match s with
  | kind :: n1 :: n2 :: n3 :: n4 :: n5 :: enc :: rest =>
      if bval kind =? USER_BROADCAST_PUSH then
        encoding ← (if bval enc =? 0 then Some EBinary else if bval enc =? 1 then Some EJson else None);
        '(join_ref, rest) ← take_text (bval n1) rest;
        '(reference, rest) ← take_text (bval n2) rest;
        '(topic, rest) ← take_text (bval n3) rest;
        '(event, rest) ← take_text (bval n4) rest;
        '(meta, rest) ← take_text (bval n5) rest;
        Some (mkPush join_ref reference topic event meta encoding rest)
      else None
  | _ => None
  end.
(** [BinaryBroadcast::encode]: the lengths are cast to a byte. *)
Definition bb_encode (b : BinaryBroadcast) : bytes :=
  (byte_of_Z <$> [USER_BROADCAST; zlen (bb_topic b); zlen (bb_event b); zlen (bb_meta b); encoding_byte (bb_encoding b)]) ++
  bb_topic b ++ bb_event b ++ bb_meta b ++ bb_payload b.
(** [BinaryBroadcast::as_frame] *)
Definition bb_as_frame (b : BinaryBroadcast) : option Frame :=
  payload ← match bb_encoding b with EJson => json_parse (bb_payload b) | EBinary => None end;
  let body := [(str "type", JStr (str "broadcast")); (str "event", JStr (bb_event b)); (str "payload", payload)] in
  let meta := if bool_decide (bb_meta b = []) then None else json_parse (bb_meta b) in
  Some (mkFrame None None (bb_topic b) (str "broadcast")
          (jobj (body ++ match meta with Some meta => [(str "meta", meta)] | None => [] end))).
(** [BinaryBroadcast::from_frame] *)
Definition bb_from_frame (f : Frame) : option BinaryBroadcast :=
  event ← jget (f_payload f) (str "event") ≫= as_str;
  let payload := default (jobj []) (jget (f_payload f) (str "payload")) in
  let meta :=
    match f_payload f with
    | JObj map =>
        match bt_remove (str "payload") (bt_remove (str "event") (bt_remove (str "type") map)) with
        | [] => []
        | map => json_text (JObj map)
        end
    | _ => []
    end in
  Some (mkPush (default [] (f_join_ref f)) (default [] (f_reference f)) (f_topic f) event meta EJson (json_text payload)).
End wire.

(** ** Frames come back *)
Section round_trips.
Context `{JsonOk}.
Definition ref_ok (r : option bytes) : Prop := match r with Some s => utf8 s | None => True end.
Definition frame_ok (f : Frame) : Prop :=
  ref_ok (f_join_ref f) ∧ ref_ok (f_reference f) ∧ utf8 (f_topic f) ∧ utf8 (f_event f) ∧ value_ok (f_payload f).
Lemma ref_value_ok r : ref_ok r → value_ok (ref_value r).
Proof. by destruct r. Qed.
Lemma as_ref_value r : as_ref (ref_value r) = r.
Proof. by destruct r. Qed.

(** Objects are made of fields that are in order. *)
Lemma obj_ok (m : list (bytes * Value)) : value_ok (JObj m) ↔ bt_wf m ∧ ∀ e, e ∈ m → utf8 e.1 ∧ value_ok e.2.
Proof.
  cbn. apply and_iff_compat_l. induction m as [|[k v] m IH]; cbn; [by split; [intros _ e []%elem_of_nil|]|]. rewrite IH. split.
  - intros (? & ? & F) e [->|?]%elem_of_cons; [done|by apply F].
  - intros F. destruct (F (k, v)) as [? ?]; [by left|]. split_and!; [done..|]. intros e ?. apply F. by right.
Qed.
Lemma jobj_ok (fields : list (bytes * Value)) : Forall (λ e, utf8 e.1 ∧ value_ok e.2) fields → value_ok (jobj fields).
Proof.
  unfold jobj. assert (G : ∀ m, value_ok (JObj m) → Forall (λ e, utf8 e.1 ∧ value_ok e.2) fields → value_ok (JObj (foldl (λ m e, bt_insert e.1 e.2 m) m fields))).
  { induction fields as [|[k v] fields IH]; [done|]. intros m M [[? ?] F]%Forall_cons. cbn [foldl]. apply IH; [|done].
    apply obj_ok in M as [W M]. apply obj_ok. split; [by apply bt_insert_wf|]. intros e [->|?]%bt_insert_elem; [done|by apply M]. }
  apply G. by split.
Qed.
Lemma str_utf8 (s : bytes) : utf8_valid s = true → utf8 s.
Proof. done. Qed.

End round_trips.
