(* ===== verification/RtLimit.v ===== *)
(** * RtLimit: what a project is allowed (crates/zou-realtime/src/limit.rs)

    The limits, the meter of a project's rate in buckets of five seconds, the
    window of one client's calls, and that both count what happened. *)
From S2P Require Import Prelude.

Record Limits := mkLimits {
  concurrent_users : Z; joins_per_second : Z; channels_per_client : Z; events_per_second : Z; payload_size_kb : Z;
  presence_events_per_second : Z; presence_calls_per_window : Z; presence_window_ms : Z
}.
Definition limits_default : Limits := mkLimits 200 100 100 100 3000 1000 5 30000.
Definition limits_none : Limits := mkLimits 0 0 0 0 0 0 0 30000.
(** [Limits::payload_bytes]; the product of kilobytes stays far below 2^64. *)
Definition payload_bytes (l : Limits) : option Z := if payload_size_kb l =? 0 then None else Some (payload_size_kb l * 1000 + 500).

(** Instants in nanoseconds. *)
Definition since (now at_ : Z) : Z := Z.max 0 (now - at_).
Definition BUCKET_SECS : Z := 5.
Definition BUCKETS : Z := 12.
(** [Meter] with its [Window] *)
Record Meter := mkMeter { mt_buckets : list Z; mt_slot : Z; mt_from : Z }.
Definition meter_new (now : Z) : Meter := mkMeter [0] 0 now.
(** [Meter::roll] *)
Definition roll (m : Meter) (now : Z) : Meter :=
  let slot := since now (mt_from m) / 1000000000 / BUCKET_SECS in
  let gone := sat_sub slot (mt_slot m) in
  if gone =? 0 then m
  else if BUCKETS <=? gone then mkMeter [0] slot (mt_from m)
  else mkMeter (take (Z.to_nat BUCKETS) (replicate (Z.to_nat gone) 0 ++ mt_buckets m)) slot (mt_from m).
(** [Meter::count_at] *)
Definition count_at (m : Meter) (events now : Z) : Meter :=
  let m := roll m now in
  match mt_buckets m with
  | front :: rest => mkMeter (front + events :: rest) (mt_slot m) (mt_from m)
  | [] => m
  end.
(** [Calls::over_at] *)
Definition calls_over_at (at_ : list Z) (max window now : Z) : list Z * bool :=
  if max =? 0 then (at_, false)
  else
    let at_ := filter (λ t, since now t < window) at_ ++ [now] in
    (at_, max <? zlen at_).
(** [Meter::over_at]: counts stay far below 2^45, where the quotients of
    [per_second_at] compare as the whole numbers do. *)
Definition meter_over_at (m : Meter) (limit now : Z) : Meter * bool :=
  if limit =? 0 then (m, false)
  else
    let m := roll m now in
    (m, limit * (zlen (mt_buckets m) * BUCKET_SECS) <=? foldr Z.add 0 (mt_buckets m)).
(** [Sockets::full] *)
Definition sockets_full (now limit : Z) : bool := if limit =? 0 then false else limit <=? now.

(** ** What a meter counts *)
Section meters.
Variable start : Z.
(** The five second slot of an instant. *)
Definition slot_of (t : Z) : Z := since t start / 1000000000 / BUCKET_SECS.
(** The events of a history in the [k] slots up to [s]. *)
Definition in_slots (hist : list (Z * Z)) (s k : Z) : Z :=
  foldr (λ e acc, if s - slot_of e.2 <? k then e.1 + acc else acc) 0 hist.
(** A meter that counted a history of (events, instant). *)
Definition meter_after (hist : list (Z * Z)) : Meter := foldl (λ m e, count_at m e.1 e.2) (meter_new start) hist.
Definition total (l : list Z) : Z := foldr Z.add 0 l.

Lemma total_app a b : total (a ++ b) = total a + total b.
Proof. induction a as [|x a IH]; cbn; [done|]. unfold total in *. lia. Qed.
Lemma total_zeros n : total (replicate n 0) = 0.
Proof. induction n; cbn; [done|]. unfold total in *. lia. Qed.
Lemma in_slots_app a b s k : in_slots (a ++ b) s k = in_slots a s k + in_slots b s k.
Proof. induction a as [|x a IH]; cbn; [done|]. unfold in_slots in *. case_match; lia. Qed.
Lemma in_slots_none hist s k : (∀ e, e ∈ hist → k ≤ s - slot_of e.2) → in_slots hist s k = 0.
Proof.
  induction hist as [|x hist IH]; intros F; [done|]. cbn. rewrite (proj2 (Z.ltb_ge _ _)) by (apply F; by left).
  apply IH. intros e He. apply F. by right.
Qed.
Lemma in_slots_shift hist s g k : in_slots hist (s + g) k = in_slots hist s (k - g).
Proof.
  induction hist as [|x hist IH]; [done|]. cbn. unfold in_slots in IH. rewrite IH.
  replace (s + g - slot_of x.2 <? k) with (s - slot_of x.2 <? k - g); [done|]. apply Bool.eq_iff_eq_true. rewrite !Z.ltb_lt. lia.
Qed.
Lemma slot_mono t t' : t ≤ t' → slot_of t ≤ slot_of t'.
Proof. intros. unfold slot_of, since, BUCKET_SECS. apply Z.div_le_mono; [lia|]. apply Z.div_le_mono; lia. Qed.

(** The buckets hold the history, newest slot first. *)
Record Counted (m : Meter) (hist : list (Z * Z)) : Prop := {
  mc_from : mt_from m = start;
  mc_len : 1 ≤ zlen (mt_buckets m) ≤ 12;
  mc_slot : 0 ≤ mt_slot m;
  mc_past : ∀ e, e ∈ hist → slot_of e.2 ≤ mt_slot m;
  mc_sums : ∀ k : nat, (k ≤ 12)%nat → total (take k (mt_buckets m)) = in_slots hist (mt_slot m) (Z.of_nat k)
}.
Lemma roll_counted m hist now : Counted m hist → mt_slot m ≤ slot_of now → Counted (roll m now) hist ∧ mt_slot (roll m now) = slot_of now.
Proof.
  intros [Fr Ln Sl Pa Su] Le. unfold roll. rewrite Fr. fold (slot_of now). unfold sat_sub.
  rewrite Z.max_r by lia. destruct (Z.eqb_spec (slot_of now - mt_slot m) 0) as [E|N]; [split; [by split|lia]|].
  unfold BUCKETS. destruct (Z.leb_spec 12 (slot_of now - mt_slot m)); (split; [|done]); split; cbn [mt_from mt_slot mt_buckets]; try done; try lia.
  - intros e He. apply Pa in He. lia.
  - intros k Hk. transitivity 0; [by destruct k as [|[]]|]. symmetry. apply in_slots_none. intros e He. apply Pa in He. lia.
  - unfold zlen in *. rewrite length_take, length_app, length_replicate. lia.
  - intros e He. apply Pa in He. lia.
  - intros k Hk. rewrite take_take, Nat.min_l by lia. rewrite take_app, total_app, take_replicate, total_zeros, length_replicate.
    rewrite Su by lia. transitivity (in_slots hist (mt_slot m) (Z.of_nat k - (slot_of now - mt_slot m))); [|rewrite <-in_slots_shift; f_equal; lia].
    rewrite Z.add_0_l.
    destruct (decide (Z.of_nat k ≤ slot_of now - mt_slot m)) as [L|L].
    + rewrite !in_slots_none; [done|intros e He; apply Pa in He; lia..].
    + f_equal. lia.
Qed.
Lemma count_counted m hist n now : Counted m hist → mt_slot m ≤ slot_of now → Counted (count_at m n now) (hist ++ [(n, now)]).
Proof.
  intros C Le. destruct (roll_counted m hist now C Le) as [[Fr Ln Sl Pa Su] Es]. unfold count_at.
  destruct (mt_buckets (roll m now)) as [|front rest] eqn:B; [unfold zlen in Ln; cbn in Ln; lia|]. split; cbn [mt_from mt_slot mt_buckets]; try done.
  - intros e [He|He%list_elem_of_singleton]%elem_of_app; [by apply Pa|]. subst e. by rewrite Es.
  - intros k Hk. rewrite in_slots_app. rewrite <-Su by done. cbn [in_slots foldr fst snd]. rewrite Es, Z.sub_diag.
    destruct k as [|k]; [done|]. rewrite (proj2 (Z.ltb_lt _ _)) by lia. cbn. lia.
Qed.
Lemma count_slot m n t : mt_slot (count_at m n t) = mt_slot (roll m t).
Proof. unfold count_at. by destruct (mt_buckets (roll m t)). Qed.
Lemma after_counted hist :
  StronglySorted Z.le hist.*2 →
  Counted (meter_after hist) hist ∧ ∀ now, Forall (λ e, e.2 ≤ now) hist → mt_slot (meter_after hist) ≤ slot_of now.
Proof.
  unfold meter_after. induction hist as [|[n t] hist IH] using rev_ind; intros So.
  - split; [|intros now _; unfold slot_of, since, BUCKET_SECS; cbn; apply Z.div_pos; [|done]; apply Z.div_pos; lia].
    split; try done; [by intros e []%elem_of_nil|]. intros k _. by destruct k as [|[]].
  - rewrite fmap_app in So. apply StronglySorted_app in So as (Le & So & _). destruct (IH So) as [C M]. rewrite foldl_app. cbn [foldl fst snd].
    assert (L : Forall (λ e, e.2 ≤ t) hist). { apply Forall_forall. intros e He. apply Le; [by apply list_elem_of_fmap_2|by left]. }
    specialize (M t L). split; [by apply count_counted|]. intros now F. apply Forall_app in F as [_ [Ft _]%Forall_cons]. cbn in Ft.
    rewrite count_slot. destruct (roll_counted _ _ t C M) as [_ ->]. by apply slot_mono.
Qed.

End meters.

(** ** What a window of calls counts *)
(** The calls of one client over a history, and the verdict on the next. *)
Definition calls_after (max window : Z) (hist : list Z) : list Z := foldl (λ at_ t, (calls_over_at at_ max window t).1) [] hist.
Lemma filter_twice {A} (P Q : A → Prop) `{∀ x, Decision (P x), ∀ x, Decision (Q x)} (l : list A) :
  (∀ x, x ∈ l → P x → Q x) → filter P (filter Q l) = filter P l.
Proof.
  induction l as [|x l IH]; intros F; [done|]. assert (IH' : filter P (filter Q l) = filter P l) by (apply IH; intros y ?; apply F; by right).
  rewrite !filter_cons. destruct (decide (Q x)) as [Hq|Hq]; [rewrite filter_cons; by rewrite IH'|].
  rewrite decide_False; [done|]. intros Hp. by apply Hq, F; [left|].
Qed.
Lemma calls_held max window hist :
  0 < max → StronglySorted Z.le hist → ∀ now, Forall (λ t, t ≤ now) hist →
  filter (λ t, since now t < window) (calls_after max window hist) = filter (λ t, since now t < window) hist.
Proof.
  intros Hm. unfold calls_after. induction hist as [|t hist IH] using rev_ind; intros So now F; [done|].
  apply StronglySorted_app in So as (Le & So & _). apply Forall_app in F as [F [Ft _]%Forall_cons].
  assert (L : Forall (λ x, x ≤ t) hist) by (apply Forall_forall; intros x Hx; apply Le; [done|by left]).
  rewrite foldl_app, filter_app. cbn [foldl]. unfold calls_over_at at 1. rewrite (proj2 (Z.eqb_neq max 0)) by lia. cbn [fst]. rewrite filter_app. f_equal.
  rewrite (IH So t L). apply filter_twice. intros x Hx.
  rewrite Forall_forall in L. specialize (L x Hx). unfold since. lia.
Qed.
(** A call is over exactly when, itself included, more than [max] calls
    were made in the window that ends with it, refused ones too. *)
Lemma calls_exact max window hist now :
  0 < max → StronglySorted Z.le hist → Forall (λ t, t ≤ now) hist →
  (calls_over_at (calls_after max window hist) max window now).2 = (max <? zlen (filter (λ t, since now t < window) hist ++ [now])).
Proof. intros Hm So F. unfold calls_over_at. rewrite (proj2 (Z.eqb_neq max 0)) by lia. cbn [snd]. by rewrite calls_held. Qed.

(** ** An idle minute *)
(** The same burst after an idle minute and after a little less: emptying
    the window is not the same answer as filling it with zeroes. *)
Example idle_minute_is_stricter :
  let at_ (s : Z) : Z := s * 1000000000 in
  (meter_over_at (meter_after 0 [(1, at_ 0); (500, at_ 55)]) 100 (at_ 55)).2 = false ∧
  (meter_over_at (meter_after 0 [(1, at_ 0); (500, at_ 60)]) 100 (at_ 60)).2 = true.
Proof. by vm_compute. Qed.
