(* ===== verification/RtSession.v ===== *)
(** * RtSession: one socket's side of the realtime protocol

    crates/zou-realtime/src/session.rs: every message a connection can get
    as a function from the session to a list of actions, and the loop of
    crates/zou-server/src/realtime.rs that carries the actions out and comes
    back with the answers.  What the session asks of the world (counters,
    policies, the reader of changes, the hub, the socket itself) is an
    environment with a state of its own. *)
From S2P Require Import Prelude Order Text Utf8 RtFrame RtLimit.

(** ** Hash maps *)
(** The order in which a [HashMap] is walked is any. *)
Class HashOrder := {
  hash_iter {A : Type} : gmap bytes A → list (bytes * A);
  hash_iter_perm {A : Type} (m : gmap bytes A) : hash_iter m ≡ₚ map_to_list m
}.

(** ** What a session keeps *)
Record Identity := mkIdentity { i_role : bytes; i_claims : Value }.
Record Config := mkConfig {
  c_broadcast_self : bool; c_broadcast_ack : bool; c_presence : bool; c_presence_key : option bytes;
  c_private : bool; c_postgres_changes : list Value; c_join_ref : option bytes
}.
(** [Config::of] *)
Definition config_of (payload : Value) : Config :=
  let config := jget payload (str "config") in
  let flag (group name : bytes) : bool :=
    default false (c ← config; g ← jget c group; b ← jget g name; as_bool b) in
  mkConfig (flag (str "broadcast") (str "self")) (flag (str "broadcast") (str "ack")) (flag (str "presence") (str "enabled"))
    (c ← config; p ← jget c (str "presence"); k ← jget p (str "key"); key ← as_str k; match key with [] => None | _ => Some key end)
    (default false (c ← config; p ← jget c (str "private"); as_bool p))
    (default [] (c ← config; l ← jget c (str "postgres_changes"); as_array l))
    None.
Record Fanout := mkFanout { fo_topic : bytes; fo_push : BinaryBroadcast }.
Inductive Sent := Broadcast (fan : Fanout) | Diff (topic : bytes) (payload : Value).
Definition sent_topic (s : Sent) : bytes := match s with Broadcast fan => fo_topic fan | Diff topic _ => topic end.
Inductive About := AboutJoin | AboutBroadcast | AboutPresence.
Record Ask := mkAsk { a_topic : bytes; a_about : About }.
Record Watched := mkWatched { w_ids : list Z; w_refused : option bytes }.
Record Grant := mkGrant { g_broadcast : bool; g_presence : bool }.
Inductive Action :=
  | Text (text : bytes)
  | Binary (data : bytes)
  | Carry (topic : bytes)
  | Drop (topic : bytes)
  | Fan (fan : Fanout)
  | Track (topic : bytes) (key : option bytes) (payload : Value)
  | Untrack (topic : bytes)
  | State (topic : bytes)
  | AskFor (ask : Ask)
  | Watch (topic : bytes) (wants : list Value)
  | Unwatch (ids : list Z)
  | Rewatch
  | Close.
Record Rights := mkRights { r_presence_read : bool; r_writes : option Grant }.
Definition rights_default : Rights := mkRights false None.
Inductive Pending :=
  | PJoin (frame : Frame)
  | PDo (asked : Frame) (actions : list Action)
  | PRecheck
  | PWatch (frame : Frame).
Record Session := mkSession {
  s_vsn : Vsn; s_identity : Identity; s_bearer : option bytes;
  s_channels : gmap bytes Config; s_rights : gmap bytes Rights; s_pending : gmap bytes Pending;
  s_watched : gmap bytes (list Z); s_limits : Limits; s_presence_calls : list Z
}.
(** [Session::budgeted], [Session::with_bearer] *)
Definition budgeted (vsn : Vsn) (identity : Identity) (limits : Limits) : Session :=
  mkSession vsn identity None ∅ ∅ ∅ ∅ limits [].
Definition with_bearer (s : Session) (token : option bytes) : Session :=
  mkSession (s_vsn s) (s_identity s) token (s_channels s) (s_rights s) (s_pending s) (s_watched s) (s_limits s) (s_presence_calls s).
Definition set_identity (s : Session) (identity : Identity) (token : bytes) : Session :=
  mkSession (s_vsn s) identity (Some token) (s_channels s) (s_rights s) (s_pending s) (s_watched s) (s_limits s) (s_presence_calls s).
Definition set_channels (f : gmap bytes Config → gmap bytes Config) (s : Session) : Session :=
  mkSession (s_vsn s) (s_identity s) (s_bearer s) (f (s_channels s)) (s_rights s) (s_pending s) (s_watched s) (s_limits s) (s_presence_calls s).
Definition set_rights (f : gmap bytes Rights → gmap bytes Rights) (s : Session) : Session :=
  mkSession (s_vsn s) (s_identity s) (s_bearer s) (s_channels s) (f (s_rights s)) (s_pending s) (s_watched s) (s_limits s) (s_presence_calls s).
Definition set_pending (f : gmap bytes Pending → gmap bytes Pending) (s : Session) : Session :=
  mkSession (s_vsn s) (s_identity s) (s_bearer s) (s_channels s) (s_rights s) (f (s_pending s)) (s_watched s) (s_limits s) (s_presence_calls s).
Definition set_watched (f : gmap bytes (list Z) → gmap bytes (list Z)) (s : Session) : Session :=
  mkSession (s_vsn s) (s_identity s) (s_bearer s) (s_channels s) (s_rights s) (s_pending s) (f (s_watched s)) (s_limits s) (s_presence_calls s).
Definition set_calls (calls : list Z) (s : Session) : Session :=
  mkSession (s_vsn s) (s_identity s) (s_bearer s) (s_channels s) (s_rights s) (s_pending s) (s_watched s) (s_limits s) calls.

(** ** Rooms *)
Definition room (topic : bytes) (private : bool) : bytes := if private then str "private:" ++ topic else topic.
Definition topic_of (room : bytes) : bytes := default room (strip_prefix (str "private:") room).
(** [Session::room], [readable_presence], [on_room] *)
Definition room_of (s : Session) (topic : bytes) : bytes :=
  room topic (match s_channels s !! topic with Some c => c_private c | None => false end).
Definition readable_presence (s : Session) (topic : bytes) : bool :=
  match s_rights s !! topic with Some r => r_presence_read r | None => true end.
Definition on_room (s : Session) (r : bytes) : option bytes :=
  let topic := topic_of r in
  config ← s_channels s !! topic;
  if bool_decide (room topic (c_private config) = r) then Some topic else None.

(** ** The environment *)
(** What the session and the loop ask for: [Counters], the socket, and the
    source of topics, changes and answers. *)
Class Env (E : Type) := {
  e_join : E → E * bool;
  e_over_events : E → E * bool;
  e_presence : E → E * bool;
  e_ask : E → option bytes → Identity → Ask → E * (Grant + bytes);
  e_watch : E → option bytes → Identity → list Value → E * (Watched + bytes);
  e_state : E → bytes → E * Value;
  (** A text or binary message down the socket: false when it failed. *)
  e_send : E → Action → E * bool;
  (** Everything else that is carried out: carrying, fanning, tracking. *)
  e_do : E → option bytes → Identity → Action → E
}.

Section session.
Context `{Json, HashOrder} {E : Type} `{Env E}.
(** What can check a token, and the clock of a message. *)
Variable verify : bytes → Identity + bytes.
Variable now : Z.

(** ** Computations that carry the session and the environment *)
Definition ss (A : Type) : Type := Session * E → (Session * E) * A.
#[global] Instance ss_ret : MRet ss := λ A a w, (w, a).
#[global] Instance ss_bind : MBind ss := λ A B f m w, let '(w, a) := m w in f a w.
Definition sget : ss Session := λ w, (w, w.1).
Definition smod (f : Session → Session) : ss () := λ w, ((f w.1, w.2), ()).
Definition asks {A} (f : E → E * A) : ss A := λ w, let '(e, a) := f w.2 in ((w.1, e), a).

Definition send (s : Session) (f : Frame) : Action := Text (f_encode f (s_vsn s)).
Definition opt {A} (o : option A) : list A := match o with Some a => [a] | None => [] end.

(** [Session::unwatch] *)
Definition unwatch (topic : bytes) : ss (list Action) :=
  s ← sget;
  match s_watched s !! topic with
  | Some ids => _ ← smod (set_watched (delete topic)); mret (match ids with [] => [] | _ => [Unwatch ids] end)
  | None => mret []
  end.
(** [Session::after_reply] *)
Definition after_reply (s : Session) (topic : bytes) : option Action :=
  config ← s_channels s !! topic;
  if c_presence config && readable_presence s topic then Some (State (room topic (c_private config))) else None.
(** [Session::unsubscribed] *)
Definition unsubscribed (frame : Frame) (why : bytes) : ss (list Action) :=
  let topic := f_topic frame in
  s ← sget;
  let room := room_of s topic in
  _ ← smod (set_channels (delete topic));
  _ ← smod (set_rights (delete topic));
  gone ← unwatch topic;
  mret ([send s (f_error frame why)] ++ gone ++ [Drop room]).
(** [Session::stopped] and [Session::overrun] *)
Definition stopped (topic message : bytes) : ss (list Action) :=
  s ← sget;
  let room := room_of s topic in
  _ ← smod (set_channels (delete topic));
  _ ← smod (set_rights (delete topic));
  _ ← smod (set_pending (delete topic));
  gone ← unwatch topic;
  mret ([send s (f_push topic (str "system")
           (jobj [(str "extension", JStr (str "system")); (str "status", JStr (str "error"));
                  (str "message", JStr message); (str "channel", JStr (name_of topic))]));
         send s (f_push topic (str "phx_close") (jobj []))] ++ gone ++ [Untrack room; Drop room]).
Definition overrun (topic : bytes) : ss (list Action) := stopped topic (str "Too many messages per second").

(** [Session::joined] *)
Definition joined (frame : Frame) : ss (list Action) :=
  let c := config_of (f_payload frame) in
  let config := mkConfig (c_broadcast_self c) (c_broadcast_ack c) (c_presence c) (c_presence_key c) (c_private c)
                  (c_postgres_changes c) (f_join_ref frame) in
  let topic := f_topic frame in
  let room := room topic (c_private config) in
  let wants := c_postgres_changes config in
  _ ← smod (set_channels <[topic := config]>);
  match wants with
  | _ :: _ =>
      _ ← smod (set_pending <[topic := PWatch frame]>);
      mret [Carry room; Watch topic wants]
  | [] =>
      s ← sget;
      mret ([Carry room; send s (f_reply frame (str "ok") (jobj [(str "postgres_changes", JArr [])]))] ++ opt (after_reply s topic))
  end.
(** [Session::join] *)
Definition join (frame : Frame) : ss (list Action) :=
  s ← sget;
  if negb (starts_with (f_topic frame) (str "realtime:")) then
    mret [send s (f_error frame (str "a channel topic is realtime: and then a name"))]
  else if (0 <? channels_per_client (s_limits s)) && (channels_per_client (s_limits s) <=? Z.of_nat (size (s_channels s))) then
    mret [send s (f_error frame (str "ChannelRateLimitReached: Too many channels"))]
  else
    fits ← asks e_join;
    if negb fits then
      mret [send s (f_error frame (str "ClientJoinRateLimitReached: Too many joins per second")); Close]
    else
      let go :=
        if c_private (config_of (f_payload frame)) then
          let topic := f_topic frame in
          _ ← smod (set_pending <[topic := PJoin frame]>);
          mret [AskFor (mkAsk topic AboutJoin)]
        else joined frame in
      match jget (f_payload frame) (str "access_token") ≫= as_str with
      | Some token =>
          match verify token with
          | inl identity => _ ← smod (λ s, set_identity s identity token); go
          | inr why => mret [send s (f_error frame why)]
          end
      | None => go
      end.

(** The entry of a join reply: the client's own, with its id. *)
Definition echo (want : Value) (id : Z) : Value :=
  match want with JObj m => JObj (bt_insert (str "id") (jnum id) m) | _ => want end.
(** [Session::watching] *)
Definition watching (topic : bytes) (made : Watched + bytes) : ss (list Action) :=
  s ← sget;
  match s_pending s !! topic with
  | Some (PWatch frame) =>
      _ ← smod (set_pending (delete topic));
      match s_channels s !! topic with
      | None => mret []
      | Some config =>
          let wants := c_postgres_changes config in
          match made with
          | inr why => unsubscribed frame why
          | inl made =>
              if negb (bool_decide (length (w_ids made) = length wants)) then
                unsubscribed frame (str "the subscriptions do not match what was asked")
              else
                _ ← smod (match w_refused made with None => set_watched <[topic := w_ids made]> | Some _ => λ s, s end);
                s ← sget;
                mret ([send s (f_reply frame (str "ok") (jobj [(str "postgres_changes", JArr (zip_with echo wants (w_ids made)))]));
                       send s match w_refused made with
                              | Some why => f_system frame (str "postgres_changes") (str "error") why
                              | None => f_system frame (str "postgres_changes") (str "ok") (str "Subscribed to PostgreSQL")
                              end] ++ opt (after_reply s topic))
          end
      end
  | _ => mret []
  end.

(** [Session::refuse] *)
Definition refuse (pending : Pending) (topic why : bytes) : ss (list Action) :=
  s ← sget;
  match pending with
  | PJoin frame => mret [send s (f_error frame why)]
  | PDo asked _ => mret [send s (f_error asked why)]
  | PWatch frame => unsubscribed frame why
  | PRecheck =>
      let room := room_of s topic in
      _ ← smod (set_channels (delete topic));
      _ ← smod (set_rights (delete topic));
      gone ← unwatch topic;
      mret ([send s (f_channel_error topic)] ++ gone ++ [Untrack room; Drop room])
  end.
Definition no_read (topic : bytes) : bytes := str "You do not have permissions to read from this Channel topic: " ++ name_of topic.
Definition no_write (topic : bytes) : bytes := str "You do not have permissions to write to this Channel topic: " ++ name_of topic.
Definition granted_for (about : About) (g : Grant) : bool := match about with AboutPresence => g_presence g | _ => g_broadcast g end.
(** [Session::authorized] *)
Definition authorized (ask : Ask) (granted : Grant + bytes) : ss (list Action) :=
  let topic := a_topic ask in
  s ← sget;
  match s_pending s !! topic with
  | None => mret []
  | Some pending =>
      _ ← smod (set_pending (delete topic));
      match granted with
      | inr why => refuse pending topic why
      | inl granted =>
          let rights := default rights_default (s_rights s !! topic) in
          match a_about ask with
          | AboutJoin =>
              _ ← smod (set_rights <[topic := mkRights (g_presence granted) (r_writes rights)]>);
              if negb (g_broadcast granted) && negb (g_presence granted) then refuse pending topic (no_read topic)
              else match pending with PJoin frame => joined frame | _ => mret [] end
          | about =>
              _ ← smod (set_rights <[topic := mkRights (r_presence_read rights) (Some granted)]>);
              if granted_for about granted then match pending with PDo _ actions => mret actions | _ => mret [] end
              else refuse pending topic (no_write topic)
          end
      end
  end.
(** [Session::gated] *)
Definition gated (topic : bytes) (about : About) (asked : Frame) (actions : list Action) : ss (list Action) :=
  s ← sget;
  match s_rights s !! topic with
  | None => mret actions
  | Some rights =>
      match granted_for about <$> r_writes rights with
      | Some true => mret actions
      | Some false => mret [send s (f_error asked (no_write topic))]
      | None =>
          _ ← smod (set_pending <[topic := PDo asked actions]>);
          mret [AskFor (mkAsk topic about)]
      end
  end.
(** [Session::leave] *)
Definition leave (frame : Frame) : ss (list Action) :=
  let topic := f_topic frame in
  s ← sget;
  match s_channels s !! topic with
  | None => mret [send s (f_error frame (str "this socket is not on that topic"))]
  | Some _ =>
      let room := room_of s topic in
      _ ← smod (set_channels (delete topic));
      _ ← smod (set_rights (delete topic));
      _ ← smod (set_pending (delete topic));
      gone ← unwatch topic;
      mret ([Untrack room; Drop room] ++ gone ++ [send s (f_ok frame)])
  end.

(** ** Messages *)
(** [Session::broadcast_down] *)
Definition broadcast_down (s : Session) (fan : Fanout) : option Action :=
  _ ← on_room s (fo_topic fan);
  match s_vsn s with
  | V2 => Some (Binary (bb_encode (fo_push fan)))
  | V1 => match bb_encoding (fo_push fan) with EJson => send s <$> bb_as_frame (fo_push fan) | EBinary => None end
  end.
(** [too_big], [track_too_big], [oversized] *)
Definition too_big (s : Session) (push : BinaryBroadcast) : bool :=
  match payload_bytes (s_limits s) with
  | Some allowed => allowed <? zlen (bb_payload push) + zlen (bb_event push)
  | None => false
  end.
Definition track_too_big (s : Session) (payload : Value) : bool :=
  match payload_bytes (s_limits s) with Some allowed => allowed <? zlen (json_text payload) | None => false end.
Definition oversized (s : Session) (asked : Frame) (ack : bool) : list Action :=
  if ack then [send s (f_reply asked (str "error") (JStr (str "payload_size_exceeded")))] else [].
(** What [binary] and [broadcast] come to once there is a push. *)
Definition push_out (config : Config) (asked : Frame) (push : BinaryBroadcast) : ss (list Action) :=
  s ← sget;
  let topic := f_topic asked in
  if too_big s push then mret (oversized s asked (c_broadcast_ack config))
  else
    let fan := mkFanout (room topic (c_private config)) push in
    gated topic AboutBroadcast asked
      ((if c_broadcast_self config then opt (broadcast_down s fan) else []) ++ [Fan fan] ++
       (if c_broadcast_ack config then [send s (f_ok asked)] else [])).
Definition not_joined : bytes := str "this socket has not joined that topic".
(** [Session::broadcast] *)
Definition broadcast (frame : Frame) : ss (list Action) :=
  s ← sget;
  match s_channels s !! f_topic frame with
  | None => mret [send s (f_error frame not_joined)]
  | Some config =>
      match bb_from_frame frame with
      | None => mret [send s (f_error frame (str "a broadcast carries an event name and a payload"))]
      | Some push => push_out config frame push
      end
  end.
(** [Session::binary] *)
Definition binary (data : bytes) : ss (list Action) :=
  s ← sget;
  match bb_decode data with
  | None => mret []
  | Some push =>
      let asked := mkFrame (Some (bb_join_ref push)) (Some (bb_reference push)) (bb_topic push) (str "broadcast") (jobj []) in
      match s_channels s !! bb_topic push with
      | None => mret [send s (f_error asked not_joined)]
      | Some config => push_out config asked push
      end
  end.
(** [Session::presence] *)
Definition presence (frame : Frame) : ss (list Action) :=
  let topic := f_topic frame in
  s ← sget;
  match s_channels s !! topic with
  | None => mret [send s (f_error frame not_joined)]
  | Some config =>
      let room := room topic (c_private config) in
      let event := to_ascii_lowercase (default [] (jget (f_payload frame) (str "event") ≫= as_str)) in
      fits ← (if bool_decide (event = str "track") || bool_decide (event = str "untrack") then asks e_presence else mret true);
      if negb fits then stopped topic (str "Too many presence messages per second")
      else if bool_decide (event = str "track") then
        let payload := default (jobj []) (jget (f_payload frame) (str "payload")) in
        match payload with
        | JObj _ =>
            let '(calls, over) := calls_over_at (s_presence_calls s) (presence_calls_per_window (s_limits s))
                                    (presence_window_ms (s_limits s) * 1000000) now in
            _ ← smod (set_calls calls);
            if over then stopped topic (str "Client presence rate limit exceeded")
            else if track_too_big s payload then stopped topic (str "Track message size exceeded")
            else gated topic AboutPresence frame [Track room (c_presence_key config) payload; send s (f_ok frame)]
        | _ => mret [send s (f_error frame (str "a presence track carries an object as its payload"))]
        end
      else if bool_decide (event = str "untrack") then mret [Untrack room; send s (f_ok frame)]
      else mret [send s (f_error frame (event ++ str " is not a presence event, which is track or untrack"))]
  end.

(** The private channels asked again after a new token, one by one. *)
Fixpoint recheck (topics : list bytes) : ss (list Action) :=
  match topics with
  | [] => mret []
  | topic :: topics =>
      _ ← smod (set_rights <[topic := rights_default]>);
      _ ← smod (set_pending <[topic := PRecheck]>);
      rest ← recheck topics;
      mret (AskFor (mkAsk topic AboutJoin) :: rest)
  end.
(** The channels taken down with a refused token. *)
Fixpoint take_down (topics : list bytes) : ss (list Action) :=
  match topics with
  | [] => mret []
  | topic :: topics =>
      s ← sget;
      let room := room_of s topic in
      _ ← smod (set_channels (delete topic));
      _ ← smod (set_rights (delete topic));
      _ ← smod (set_pending (delete topic));
      gone ← unwatch topic;
      rest ← take_down topics;
      mret ([send s (f_channel_error topic)] ++ gone ++ [Untrack room; Drop room] ++ rest)
  end.
(** [Session::refresh] *)
Definition refresh (frame : Frame) : ss (list Action) :=
  let token := default [] (jget (f_payload frame) (str "access_token") ≫= as_str) in
  s ← sget;
  match verify token with
  | inl identity =>
      _ ← smod (λ s, set_identity s identity token);
      asked ← recheck (hash_iter (s_rights s)).*1;
      mret ([send s (f_ok frame)] ++ (if bool_decide (s_watched s = ∅) then [] else [Rewatch]) ++ asked)
  | inr why =>
      gone ← take_down (hash_iter (s_channels s)).*1;
      mret ([send s (f_error frame why)] ++ gone)
  end.
(** [Session::frame] and [Session::text] *)
Definition on_frame (frame : Frame) : ss (list Action) :=
  let event := f_event frame in
  if bool_decide (event = str "heartbeat") then s ← sget; mret [send s (f_ok frame)]
  else if bool_decide (event = str "phx_join") then join frame
  else if bool_decide (event = str "phx_leave") then leave frame
  else if bool_decide (event = str "access_token") then refresh frame
  else if bool_decide (event = str "broadcast") then broadcast frame
  else if bool_decide (event = str "presence") then presence frame
  else s ← sget; mret [send s (f_error frame (event ++ str " is not an event this server answers"))].
Definition text (text : bytes) : ss (list Action) :=
  match f_decode text with Some frame => on_frame frame | None => mret [] end.

(** ** From the hub and the database *)
(** [Session::delivered] *)
Definition delivered (s : Session) (sent : Sent) (mine : bool) : option Action :=
  match sent with
  | Broadcast fan => if mine then None else broadcast_down s fan
  | Diff topic payload =>
      topic ← on_room s topic;
      config ← s_channels s !! topic;
      if c_presence config && readable_presence s topic then Some (send s (f_push topic (str "presence_diff") payload)) else None
  end.
(** [Session::deliver] *)
Definition deliver (sent : Sent) (mine : bool) : ss (list Action) :=
  s ← sget;
  match on_room s (sent_topic sent) with
  | None => mret []
  | Some topic =>
      match sent with
      | Diff _ _ =>
          match delivered s sent mine with
          | None => mret []
          | Some diff =>
              fits ← asks e_presence;
              if (fits : bool) then mret [diff] else stopped topic (str "Too many presence messages per second")
          end
      | Broadcast _ =>
          over ← asks e_over_events;
          if (over : bool) then overrun topic else mret (opt (delivered s sent mine))
      end
  end.
(** [Session::changed] *)
Fixpoint changed_each (mine : list (bytes * list Z)) (data : Value) : ss (list Action) :=
  match mine with
  | [] => mret []
  | (topic, ids) :: mine =>
      over ← asks e_over_events;
      s ← sget;
      one ← (if (over : bool) then overrun topic else mret [Text (f_changed (s_vsn s) topic ids data)]);
      rest ← changed_each mine data;
      mret (one ++ rest)
  end.
Definition changed (ids : list Z) (data : Value) : ss (list Action) :=
  s ← sget;
  changed_each (omap (λ e : bytes * list Z, match filter (λ id, id ∈ ids) e.2 with [] => None | held => Some (e.1, held) end)
                  (hash_iter (s_watched s))) data.
(** [Session::state] *)
Definition state (s : Session) (room : bytes) (there : Value) : Action :=
  let topic := topic_of room in
  send s (mkFrame (s_channels s !! topic ≫= c_join_ref) None topic (str "presence_state") there).

(** ** The loop of the connection *)
(** [act]: what was done, in order, and whether the socket goes on; [None]
    when the questions nest deeper than the fuel. *)
Fixpoint act (fuel : nat) (actions : list Action) : ss (list Action * option bool) :=
  let again (next : ss (list Action)) : ss (list Action * option bool) :=
    match fuel with
    | O => mret ([], None)
    | S fuel => actions ← next; act fuel actions
    end in
  (fix go (actions : list Action) : ss (list Action * option bool) :=
    match actions with
    | [] => mret ([], Some true)
    | action :: actions =>
        s ← sget;
        r ← (match action with
          | Text _ | Binary _ => sent ← asks (λ e, e_send e action); mret ([action], Some sent)
          | State room =>
              there ← asks (λ e, e_state e room);
              sent ← asks (λ e, e_send e (state s room there));
              mret ([action], Some sent)
          | AskFor ask =>
              granted ← asks (λ e, e_ask e (s_bearer s) (s_identity s) ask);
              r ← again (authorized ask granted);
              mret (action :: r.1, r.2)
          | Watch topic wants =>
              ids ← asks (λ e, e_watch e (s_bearer s) (s_identity s) wants);
              r ← again (watching topic ids);
              mret (action :: r.1, r.2)
          | Close => _ ← asks (λ e, e_send e action); mret ([action], Some false)
          | _ => _ ← asks (λ e, (e_do e (s_bearer s) (s_identity s) action, ())); mret ([action], Some true)
          end : ss (list Action * option bool));
        match r.2 with
        | Some true => more ← go actions; mret (r.1 ++ more.1, more.2)
        | _ => mret r
        end
    end) actions.

(** What wakes the loop: the client's messages (pings and pongs are the
    transport's own), deliveries and changes; the client gone or closing, a
    topic that lagged, a gap in the changes or their reader gone. *)
Inductive Heard :=
  | ClientText (text : bytes)
  | ClientBinary (data : bytes)
  | ClientOther
  | ClientGone
  | Fanned (sent : Sent) (mine : bool)
  | Lagged (topic : bytes) (missed : Z)
  | Changed (ids : list Z) (data : Value)
  | ChangesGap
  | ReaderGone.
(** What the loop breaks at. *)
Definition breaks (heard : Heard) : bool :=
  match heard with ClientGone | Lagged _ _ | ChangesGap | ReaderGone => true | _ => false end.
Definition handle (heard : Heard) : ss (list Action) :=
  match heard with
  | ClientText t => text t
  | ClientBinary data => binary data
  | Fanned sent mine => deliver sent mine
  | Changed ids data => changed ids data
  | _ => mret []
  end.
Definition ACT_FUEL : nat := 2.
(** One turn of [run]. *)
Definition turn (heard : Heard) : ss (list Action * option bool) :=
  if breaks heard then mret ([], Some false) else actions ← handle heard; act ACT_FUEL actions.
End session.
