(* ===== verification/RtSessionProofs.v ===== *)
(** * RtSessionProofs: a private channel is private

    What a connection does with the rooms behind the project's policies, on
    every sequence of messages a client, the hub and the database can send:
    nothing is carried, fanned or tracked there, and nothing read from
    there, but what the policies allowed somebody this socket proved to be. *)
From S2P Require Import Prelude Order Text Utf8 RtFrame RtLimit RtSession.

(** ** Policies *)
(** What the policies of the project say to an identity about a topic. *)
Class Policies := {
  allow_read : Identity → bytes → Grant;
  allow_write : Identity → bytes → Grant
}.
(** The source answers questions from the policies, or says why it cannot. *)
Class EnvOk E `{Env E} `{Policies} := {
  e_ask_policy : ∀ (e : E) bearer identity ask e' g,
    e_ask e bearer identity ask = (e', inl g) →
    g = match a_about ask with AboutJoin => allow_read identity (a_topic ask) | _ => allow_write identity (a_topic ask) end
}.
Definition may_read (g : Grant) : bool := g_broadcast g || g_presence g.

Definition plain (a : Action) : Prop := match a with AskFor _ | Watch _ _ => False | _ => True end.
Definition harmless (a : Action) : Prop :=
  match a with AskFor _ | Watch _ _ | Carry _ | Fan _ | Track _ _ _ | State _ => False | _ => True end.
Lemma harmless_plain acts : Forall harmless acts → Forall plain acts.
Proof. intros F. eapply Forall_impl; [exact F|]. by intros []. Qed.

Section policies.
Context `{Policies}.
(** What an action needs of the identities a socket proved. *)
Definition may (ids : list Identity) (a : Action) : Prop :=
  match a with
  | Carry r => ∀ T, r = str "private:" ++ T → ∃ id, id ∈ ids ∧ may_read (allow_read id T) = true
  | State r => ∀ T, r = str "private:" ++ T → ∃ id, id ∈ ids ∧ g_presence (allow_read id T) = true
  | Fan fan => ∀ T, fo_topic fan = str "private:" ++ T → ∃ id, id ∈ ids ∧ g_broadcast (allow_write id T) = true
  | Track r _ _ => ∀ T, r = str "private:" ++ T → ∃ id, id ∈ ids ∧ g_presence (allow_write id T) = true
  | _ => True
  end.
Lemma harmless_may ids acts : Forall harmless acts → Forall (may ids) acts.
Proof. intros F. eapply Forall_impl; [exact F|]. by intros []. Qed.

(** The session between turns. *)
Record Inv (ids : list Identity) (s : Session) : Prop := {
  i_identity : s_identity s ∈ ids;
  i_topics : ∀ T c, s_channels s !! T = Some c → starts_with T (str "realtime:") = true;
  i_rights : ∀ T c, s_channels s !! T = Some c → c_private c = true → is_Some (s_rights s !! T);
  i_read : ∀ T c, s_channels s !! T = Some c → c_private c = true → ∃ id, id ∈ ids ∧ may_read (allow_read id T) = true;
  i_presence : ∀ T r, s_rights s !! T = Some r → r_presence_read r = true → ∃ id, id ∈ ids ∧ g_presence (allow_read id T) = true;
  i_writes : ∀ T r g, s_rights s !! T = Some r → r_writes r = Some g → ∃ id, id ∈ ids ∧ g = allow_write id T;
  i_watched : ∀ T l, s_watched s !! T = Some l → is_Some (s_channels s !! T);
  i_bound : 0 < channels_per_client (s_limits s) → Z.of_nat (size (s_channels s)) ≤ channels_per_client (s_limits s);
  i_pending : s_pending s = ∅
}.

(** ** Rooms *)
Lemma public_room T T' : starts_with T (str "realtime:") = true → room T false = str "private:" ++ T' → False.
Proof. intros [r ->]%starts_with_spec E. discriminate E. Qed.
Lemma private_room T T' : room T true = str "private:" ++ T' → T = T'.
Proof. intros E. by apply app_inv_head in E. Qed.
Lemma room_guard (P : bytes → Prop) T p :
  starts_with T (str "realtime:") = true → (p = true → P T) → ∀ T', room T p = str "private:" ++ T' → P T'.
Proof. intros S HP T' E. destruct p; [apply private_room in E as <-; auto|by apply public_room in E]. Qed.
Lemma topic_of_room T p : starts_with T (str "realtime:") = true → topic_of (room T p) = T.
Proof.
  intros [r ->]%starts_with_spec. unfold topic_of, room. destruct p; [by rewrite strip_prefix_app|]. done.
Qed.
Lemma on_room_some s r T : on_room s r = Some T → ∃ c, s_channels s !! T = Some c ∧ room T (c_private c) = r.
Proof.
  unfold on_room. destruct (s_channels s !! topic_of r) as [c|] eqn:C; [|done]. cbn. case_bool_decide; [|done]. intros [= <-]. by exists c.
Qed.

(** ** Removing a channel *)
Definition without (T : bytes) (s : Session) : Session :=
  set_watched (delete T) (set_rights (delete T) (set_channels (delete T) s)).
Lemma without_inv ids T s : Inv ids s → Inv ids (without T s).
Proof.
  intros []. split; cbn; try done.
  - intros T' c [_ ?]%lookup_delete_Some. eauto.
  - intros T' c [N ?]%lookup_delete_Some ?. rewrite lookup_delete_ne by done. eauto.
  - intros T' c [_ ?]%lookup_delete_Some. eauto.
  - intros T' r [_ ?]%lookup_delete_Some. eauto.
  - intros T' r g [_ ?]%lookup_delete_Some. eauto.
  - intros T' l [N ?]%lookup_delete_Some. rewrite lookup_delete_ne by done. eauto.
  - intros L. rewrite map_size_delete. specialize (i_bound0 L). destruct (s_channels s !! T); cbn; lia.
Qed.
End policies.

(** ** Carrying out *)
Section turns.
Context `{Json, HashOrder} {E : Type} `{EnvOk E}.
Implicit Types (s : Session) (e : E) (ids : list Identity).

Lemma act_nil fuel s e : act fuel [] (s, e) = ((s, e), ([], Some true)).
Proof. by destruct fuel. Qed.
Lemma act_cons_plain fuel a s e :
  plain a → ∃ e' (b : bool), ∀ acts, act fuel (a :: acts) (s, e) =
    if b then let '(w, r) := act fuel acts (s, e') in (w, (a :: r.1, r.2)) else ((s, e'), ([a], Some false)).
Proof.
  intros P.
  assert (Q : ∃ e' (b : bool), (a ≠ Close → True) ∧ ∀ acts, act fuel (a :: acts) (s, e) =
    if b then let '(w, r) := act fuel acts (s, e') in (w, (a :: r.1, r.2)) else ((s, e'), ([a], Some false))).
  { destruct a; try done.
    - destruct (e_send e (Text text)) as [e' b] eqn:Es. exists e', b. split; [done|]. intros acts.
      destruct fuel; cbn; unfold mbind, ss_bind, asks; cbn; rewrite Es; by destruct b.
    - destruct (e_send e (Binary data)) as [e' b] eqn:Es. exists e', b. split; [done|]. intros acts.
      destruct fuel; cbn; unfold mbind, ss_bind, asks; cbn; rewrite Es; by destruct b.
    - eexists _, true. split; [done|]. intros acts. by destruct fuel.
    - eexists _, true. split; [done|]. intros acts. by destruct fuel.
    - eexists _, true. split; [done|]. intros acts. by destruct fuel.
    - eexists _, true. split; [done|]. intros acts. by destruct fuel.
    - eexists _, true. split; [done|]. intros acts. by destruct fuel.
    - destruct (e_state e topic) as [e1 v] eqn:E1. destruct (e_send e1 (state s topic v)) as [e' b] eqn:Es. exists e', b. split; [done|]. intros acts.
      destruct fuel; cbn; unfold mbind, ss_bind, asks; cbn; rewrite E1; cbn; rewrite Es; by destruct b.
    - eexists _, true. split; [done|]. intros acts. by destruct fuel.
    - eexists _, true. split; [done|]. intros acts. by destruct fuel.
    - destruct (e_send e Close) as [e' b] eqn:Es. exists e', false. split; [done|]. intros acts.
      destruct fuel; cbn; unfold mbind, ss_bind, asks; cbn; by rewrite Es. }
  destruct Q as (e' & b & _ & Q). by exists e', b.
Qed.
Lemma act_cons_ask fuel ask acts s e :
  act (S fuel) (AskFor ask :: acts) (s, e) =
    let '(e1, g) := e_ask e (s_bearer s) (s_identity s) ask in
    let '(w, next) := authorized ask g (s, e1) in
    let '(w, r) := act fuel next w in
    match r.2 with
    | Some true => let '(w, m) := act (S fuel) acts w in (w, (AskFor ask :: r.1 ++ m.1, m.2))
    | _ => (w, (AskFor ask :: r.1, r.2))
    end.
Proof.
  cbn. unfold mbind, ss_bind, asks. cbn. destruct (e_ask e _ _ ask) as [e1 g]. cbn. destruct (authorized ask g (s, e1)) as [w next].
  destruct (act fuel next w) as [w1 [d [[]|]]]; reflexivity.
Qed.
Lemma act_cons_watch fuel T wants acts s e :
  act (S fuel) (Watch T wants :: acts) (s, e) =
    let '(e1, ids) := e_watch e (s_bearer s) (s_identity s) wants in
    let '(w, next) := watching T ids (s, e1) in
    let '(w, r) := act fuel next w in
    match r.2 with
    | Some true => let '(w, m) := act (S fuel) acts w in (w, (Watch T wants :: r.1 ++ m.1, m.2))
    | _ => (w, (Watch T wants :: r.1, r.2))
    end.
Proof.
  cbn. unfold mbind, ss_bind, asks. cbn. destruct (e_watch e _ _ wants) as [e1 g]. cbn. destruct (watching T g (s, e1)) as [w next].
  destruct (act fuel next w) as [w1 [d [[]|]]]; reflexivity.
Qed.

Lemma act_plain_run fuel acts s e :
  Forall plain acts → ∃ e' d b, act fuel acts (s, e) = ((s, e'), (d, Some b)) ∧ ∀ a, a ∈ d → a ∈ acts.
Proof.
  intros P. revert e. induction P as [|a acts Pa P IH]; intros e; [rewrite act_nil; by exists e, [], true|].
  destruct (act_cons_plain fuel a s e Pa) as (e' & b & Q). rewrite Q. destruct b.
  - destruct (IH e') as (e2 & d & b & -> & Sub). exists e2, (a :: d), b. split; [done|]. intros x. rewrite !elem_of_cons. naive_solver.
  - exists e', [a], false. split; [done|]. intros x ->%list_elem_of_singleton. by left.
Qed.

(** How a turn should end: not stuck, with nothing done that may not be,
    and with the invariant if the socket goes on. *)
Definition ends ids (out : (Session * E) * (list Action * option bool)) : Prop :=
  out.2.2 ≠ None ∧ Forall (may ids) out.2.1 ∧ (out.2.2 = Some true → Inv ids out.1.1).
Lemma ends_cons_plain ids fuel a acts s e :
  plain a → may ids a → (∀ e', ends ids (act fuel acts (s, e'))) → ends ids (act fuel (a :: acts) (s, e)).
Proof.
  intros P M F. destruct (act_cons_plain fuel a s e P) as (e' & b & Q). rewrite Q. specialize (F e').
  destruct b; [|split; cbn; [done|split; [by constructor|done]]].
  destruct (act fuel acts (s, e')) as [w r]. destruct F as (F1 & F2 & F3). split; [done|]. split; [by constructor|done].
Qed.
Lemma ends_app ids fuel pre acts s e :
  Forall plain pre → Forall (may ids) pre → (∀ e', ends ids (act fuel acts (s, e'))) → ends ids (act fuel (pre ++ acts) (s, e)).
Proof.
  intros P M F. revert e. induction pre as [|a pre IH]; intros e; [apply F|]. apply Forall_cons in P as [Pa P], M as [Ma M].
  cbn [app]. apply ends_cons_plain; [done..|]. intros e'. by apply IH.
Qed.
Lemma ends_plain ids fuel acts s e : Inv ids s → Forall plain acts → Forall (may ids) acts → ends ids (act fuel acts (s, e)).
Proof.
  intros I P M. rewrite <-(app_nil_r acts). apply ends_app; [done..|]. intros e'. rewrite act_nil. by split.
Qed.

(** ** Small steps *)
Lemma unwatch_run T s e : ∃ gone, unwatch T (s, e) = ((set_watched (delete T) s, e), gone) ∧ Forall harmless gone.
Proof.
  unfold unwatch, mbind, ss_bind, sget. cbn. destruct (s_watched s !! T) as [l|] eqn:W.
  - eexists. split; [done|]. destruct l; repeat constructor.
  - exists []. split; [|constructor]. unfold mret, ss_ret. do 2 f_equal. destruct s. cbn in *. unfold set_watched. cbn. f_equal. symmetry. by apply delete_id.
Qed.
Lemma unsubscribed_run frame why s e :
  ∃ acts, unsubscribed frame why (s, e) = ((without (f_topic frame) s, e), acts) ∧ Forall harmless acts.
Proof.
  unfold unsubscribed, mbind, ss_bind, sget, smod. cbn.
  destruct (unwatch_run (f_topic frame) (set_rights (delete (f_topic frame)) (set_channels (delete (f_topic frame)) s)) e) as (gone & E1 & G).
  rewrite E1. eexists. split; [done|]. constructor; [done|]. apply Forall_app. split; [done|by repeat constructor].
Qed.
Lemma stopped_run T message s e :
  s_pending s = ∅ → ∃ acts, stopped T message (s, e) = ((without T s, e), acts) ∧ Forall harmless acts.
Proof.
  intros Pe. unfold stopped, mbind, ss_bind, sget, smod. cbn.
  destruct (unwatch_run T (set_pending (delete T) (set_rights (delete T) (set_channels (delete T) s))) e) as (gone & E1 & G).
  rewrite E1. eexists. split; [unfold mret, ss_ret; do 2 f_equal; destruct s; cbn in *; subst; unfold without, set_watched, set_pending, set_rights, set_channels; cbn; by rewrite delete_empty|].
  do 2 (constructor; [done|]). apply Forall_app. split; [done|by repeat constructor].
Qed.
Lemma after_reply_may ids s T :
  Inv ids s → Forall plain (opt (after_reply s T)) ∧ Forall (may ids) (opt (after_reply s T)).
Proof.
  intros I. unfold after_reply. destruct (s_channels s !! T) as [c|] eqn:C; cbn; [|by repeat constructor].
  destruct (c_presence c && readable_presence s T) eqn:R; cbn; [|by repeat constructor]. split; [by repeat constructor|]. constructor; [|constructor].
  apply andb_true_iff in R as [_ R]. cbn. apply room_guard; [by eapply i_topics|]. intros Pr.
  destruct (i_rights _ _ I T c C Pr) as [r Hr]. unfold readable_presence in R. rewrite Hr in R. by eapply i_presence.
Qed.
Lemma set_pending_back T p s : s_pending s = ∅ → set_pending (delete T) (set_pending <[T := p]> s) = s.
Proof. intros Pe. destruct s. cbn in *. subst. unfold set_pending. cbn. f_equal. by rewrite delete_insert_id. Qed.

(** ** Answers *)
(** The outcome of a computation that waits for nothing. *)
Definition settled ids (out : (Session * E) * list Action) : Prop :=
  Inv ids out.1.1 ∧ Forall plain out.2 ∧ Forall (may ids) out.2.
Lemma ends_settled ids fuel out : settled ids out → ends ids (let '(w, acts) := out in act fuel acts w).
Proof. destruct out as [[s e] acts]. intros (I & P & M). by apply ends_plain. Qed.
Lemma settled_harmless ids s e acts : Inv ids s → Forall harmless acts → settled ids ((s, e), acts).
Proof. intros I F. split; [done|]. split; [by apply harmless_plain|by apply harmless_may]. Qed.

Lemma watched_inv ids T l s c : Inv ids s → s_channels s !! T = Some c → Inv ids (set_watched <[T := l]> s).
Proof. intros [] C. split; cbn; try done. intros T' l' [[-> _]|[_ ?]]%lookup_insert_Some; [by rewrite C|eauto]. Qed.
Lemma watching_settled ids T made frame s e :
  Inv ids s → f_topic frame = T → settled ids (watching T made (set_pending <[T := PWatch frame]> s, e)).
Proof.
  intros I Ft. pose proof (i_pending _ _ I) as Pe. unfold watching, mbind at 1, ss_bind at 1, sget at 1. cbn [fst snd].
  change (s_pending (set_pending <[T := PWatch frame]> s)) with (<[T := PWatch frame]> (s_pending s)). rewrite lookup_insert_eq.
  unfold mbind at 1, ss_bind at 1, smod at 1. cbn [fst snd]. rewrite set_pending_back by done.
  change (s_channels (set_pending <[T := PWatch frame]> s)) with (s_channels s).
  destruct (s_channels s !! T) as [c|] eqn:C; [|by apply settled_harmless].
  assert (Un : ∀ why, settled ids (unsubscribed frame why (s, e))).
  { intros why. destruct (unsubscribed_run frame why s e) as (acts & -> & F). apply settled_harmless; [by apply without_inv|done]. }
  destruct made as [made|why]; [|apply Un]. case_bool_decide; cbn [negb]; [|apply Un].
  unfold mbind at 1, ss_bind at 1, smod. cbn [fst snd]. unfold mbind, ss_bind, sget. cbn.
  assert (I' : Inv ids (match w_refused made with None => set_watched <[T := w_ids made]> | Some _ => λ s, s end s)).
  { destruct (w_refused made); [done|]. by eapply watched_inv. }
  destruct (after_reply_may ids _ T I') as [P M]. split; [done|]. split; (do 2 (constructor; [done|]); done).
Qed.

(** A join that is allowed. *)
Definition fitted (frame : Frame) : Config :=
  let c := config_of (f_payload frame) in
  mkConfig (c_broadcast_self c) (c_broadcast_ack c) (c_presence c) (c_presence_key c) (c_private c) (c_postgres_changes c) (f_join_ref frame).
Lemma joined_inv ids frame s :
  Inv ids s → starts_with (f_topic frame) (str "realtime:") = true →
  (0 < channels_per_client (s_limits s) → Z.of_nat (size (s_channels s)) < channels_per_client (s_limits s)) →
  (c_private (fitted frame) = true → is_Some (s_rights s !! f_topic frame) ∧
     ∃ id, id ∈ ids ∧ may_read (allow_read id (f_topic frame)) = true) →
  Inv ids (set_channels <[f_topic frame := fitted frame]> s).
Proof.
  intros [] St Rm Pr. split; cbn; try done.
  - intros T c [[<- <-]|[_ ?]]%lookup_insert_Some; eauto.
  - intros T c [[<- <-]|[_ ?]]%lookup_insert_Some ?; [by apply Pr|eauto].
  - intros T c [[<- <-]|[_ ?]]%lookup_insert_Some ?; [by apply Pr|eauto].
  - intros T l W. destruct (decide (T = f_topic frame)) as [->|N]; [by rewrite lookup_insert_eq|]. rewrite lookup_insert_ne by done. eauto.
  - intros L. rewrite map_size_insert. specialize (Rm L). destruct (s_channels s !! f_topic frame); cbn; lia.
Qed.
Lemma ends_joined ids fuel frame s e :
  Inv ids s → starts_with (f_topic frame) (str "realtime:") = true →
  (0 < channels_per_client (s_limits s) → Z.of_nat (size (s_channels s)) < channels_per_client (s_limits s)) →
  (c_private (fitted frame) = true → is_Some (s_rights s !! f_topic frame) ∧
     ∃ id, id ∈ ids ∧ may_read (allow_read id (f_topic frame)) = true) →
  ends ids (let '(w, acts) := joined frame (s, e) in act (S fuel) acts w).
Proof.
  intros I St Rm Pr. pose proof (joined_inv ids frame s I St Rm Pr) as I'. set (s1 := set_channels _ s) in I'.
  assert (Mc : may ids (Carry (room (f_topic frame) (c_private (fitted frame))))) by (cbn [may]; apply room_guard; [done|]; intros Q; by apply Pr).
  unfold joined. fold (fitted frame). unfold mbind at 1, ss_bind at 1, smod at 1. cbn [fst snd]. fold s1.
  change (c_postgres_changes (config_of (f_payload frame))) with (c_postgres_changes (fitted frame)).
  destruct (c_postgres_changes (fitted frame)) as [|w ws].
  - unfold mbind, ss_bind, sget. cbn -[act]. destruct (after_reply_may ids s1 (f_topic frame) I') as [P M].
    apply ends_plain; [done|do 2 (constructor; [done|]); done|]. constructor; [done|]. constructor; [done|done].
  - unfold mbind, ss_bind, smod. cbn -[act]. apply ends_cons_plain; [done|done|]. intros e'. rewrite act_cons_watch.
    destruct (e_watch e' _ _ _) as [e1 g]. pose proof (watching_settled ids (f_topic frame) g frame s1 e1 I' eq_refl) as Q.
    destruct (watching _ _ _) as [w1 next]. apply (ends_settled ids fuel) in Q. destruct (act fuel next w1) as [[s2 e2] [d on]].
    destruct Q as (Q1 & Q2 & Q3). cbn [fst snd] in *. destruct on as [[]|]; [|by split; [|split; [constructor|]]|done].
    rewrite act_nil. split; [done|]. split; [by rewrite app_nil_r; constructor|]. intros _. by apply Q3.
Qed.

(** ** Questions *)
(** The refusals. *)
Lemma refuse_settled ids p T why s e : Inv ids s → settled ids (refuse p T why (s, e)).
Proof.
  intros I. unfold refuse, mbind at 1, ss_bind at 1, sget. cbn [fst]. destruct p.
  - apply settled_harmless; [done|by repeat constructor].
  - apply settled_harmless; [done|by repeat constructor].
  - unfold mbind, ss_bind, smod. cbn [fst snd].
    destruct (unwatch_run T (set_rights (delete T) (set_channels (delete T) s)) e) as (gone & -> & G).
    apply settled_harmless; [by apply without_inv|]. constructor; [done|]. apply Forall_app. split; [done|by repeat constructor].
  - destruct (unsubscribed_run frame why s e) as (acts & -> & F). apply settled_harmless; [by apply without_inv|done].
Qed.
Lemma rights_inv ids T r s :
  Inv ids s → (r_presence_read r = true → ∃ id, id ∈ ids ∧ g_presence (allow_read id T) = true) →
  (∀ g, r_writes r = Some g → ∃ id, id ∈ ids ∧ g = allow_write id T) → Inv ids (set_rights <[T := r]> s).
Proof.
  intros [] Hr Hw. split; cbn; try done.
  - intros T' c C P. destruct (decide (T' = T)) as [->|N]; [by rewrite lookup_insert_eq|]. rewrite lookup_insert_ne by done. eauto.
  - intros T' r' [[<- <-]|[_ ?]]%lookup_insert_Some; eauto.
  - intros T' r' g [[<- <-]|[_ ?]]%lookup_insert_Some ?; eauto.
Qed.
Lemma rights_old ids s T : Inv ids s →
  (r_presence_read (default rights_default (s_rights s !! T)) = true → ∃ id, id ∈ ids ∧ g_presence (allow_read id T) = true) ∧
  (∀ g, r_writes (default rights_default (s_rights s !! T)) = Some g → ∃ id, id ∈ ids ∧ g = allow_write id T).
Proof. intros I. destruct (s_rights s !! T) as [r|] eqn:R; cbn; [|done]. split; intros; [by eapply i_presence|by eapply i_writes]. Qed.

Lemma ends_ask_last ids fuel ask s e :
  (∀ e1 g, e_ask e (s_bearer s) (s_identity s) ask = (e1, g) →
     ends ids (let '(w, next) := authorized ask g (s, e1) in act fuel next w)) →
  ends ids (act (S fuel) [AskFor ask] (s, e)).
Proof.
  intros F. rewrite act_cons_ask. destruct (e_ask e _ _ ask) as [e1 g]. specialize (F e1 g eq_refl).
  destruct (authorized ask g (s, e1)) as [w next]. destruct (act fuel next w) as [[s2 e2] [d on]]. destruct F as (F1 & F2 & F3). cbn [fst snd] in *.
  destruct on as [[]|]; [|by split; [|split; [constructor|]]|done].
  rewrite act_nil. split; [done|]. split; [by rewrite app_nil_r; constructor|]. intros _. by apply F3.
Qed.
(** [authorized], once its pending entry is found. *)
Lemma authorized_run T about p g s e :
  s_pending s !! T = Some p →
  authorized (mkAsk T about) g (s, e) =
    let s := set_pending (delete T) s in
    match g with
    | inr why => refuse p T why (s, e)
    | inl granted =>
        let rights := default rights_default (s_rights s !! T) in
        match about with
        | AboutJoin =>
            let s := set_rights <[T := mkRights (g_presence granted) (r_writes rights)]> s in
            if negb (g_broadcast granted) && negb (g_presence granted) then refuse p T (no_read T) (s, e)
            else match p with PJoin frame => joined frame (s, e) | _ => ((s, e), []) end
        | about =>
            let s := set_rights <[T := mkRights (r_presence_read rights) (Some granted)]> s in
            if granted_for about granted then match p with PDo _ actions => ((s, e), actions) | _ => ((s, e), []) end
            else refuse p T (no_write T) (s, e)
        end
    end.
Proof.
  intros Pe. unfold authorized, mbind at 1, ss_bind at 1, sget. cbn [fst snd a_topic a_about]. rewrite Pe.
  unfold mbind at 1, ss_bind at 1, smod at 1. cbn [fst snd]. cbv zeta.
  destruct g as [granted|why]; [|done]. destruct about; unfold mbind, ss_bind, smod; cbn [fst snd].
  - destruct (negb _ && _); [done|]. by destruct p.
  - destruct (granted_for _ _); [by destruct p|done].
  - destruct (granted_for _ _); [by destruct p|done].
Qed.
Lemma ends_ask_join ids frame s e :
  Inv ids s → starts_with (f_topic frame) (str "realtime:") = true →
  (0 < channels_per_client (s_limits s) → Z.of_nat (size (s_channels s)) < channels_per_client (s_limits s)) →
  ends ids (act ACT_FUEL [AskFor (mkAsk (f_topic frame) AboutJoin)] (set_pending <[f_topic frame := PJoin frame]> s, e)).
Proof.
  intros I St Rm. apply ends_ask_last. intros e1 g Eg. erewrite authorized_run by by apply lookup_insert_eq.
  rewrite set_pending_back by apply I. cbv zeta.
  destruct g as [granted|why]; [|apply ends_settled; by apply refuse_settled]. cbv zeta.
  apply e_ask_policy in Eg. cbn [a_about a_topic] in Eg. change (s_identity (set_pending _ s)) with (s_identity s) in Eg.
  pose proof (i_identity _ _ I) as Id. destruct (rights_old ids s (f_topic frame) I) as [_ Ow].
  set (s1 := set_rights _ s). assert (I1 : Inv ids s1).
  { apply rights_inv; [done| |exact Ow]. cbn. intros Q. exists (s_identity s). by rewrite <-Eg. }
  destruct (negb _ && _) eqn:N; [apply ends_settled; by apply refuse_settled|].
  apply ends_joined; [done|done|done|]. intros _. split; [cbn; by rewrite lookup_insert_eq|].
  exists (s_identity s). split; [done|]. rewrite <-Eg. unfold may_read. by destruct (g_broadcast granted), (g_presence granted).
Qed.
(** Something held until the write policies answer. *)
Lemma ends_ask_do ids T about asked acts s e :
  Inv ids s → about ≠ AboutJoin → Forall plain acts →
  (granted_for about (allow_write (s_identity s) T) = true → Forall (may ids) acts) →
  ends ids (act ACT_FUEL [AskFor (mkAsk T about)] (set_pending <[T := PDo asked acts]> s, e)).
Proof.
  intros I Na P M. apply ends_ask_last. intros e1 g Eg. erewrite authorized_run by by apply lookup_insert_eq.
  rewrite set_pending_back by apply I. cbv zeta.
  destruct g as [granted|why]; [|apply ends_settled; by apply refuse_settled]. cbv zeta.
  apply e_ask_policy in Eg. cbn [a_about a_topic] in Eg. change (s_identity (set_pending _ s)) with (s_identity s) in Eg.
  assert (Eg' : granted = allow_write (s_identity s) T) by by destruct about. clear Eg.
  pose proof (i_identity _ _ I) as Id. destruct (rights_old ids s T I) as [Op _].
  set (s1 := set_rights <[T := mkRights (r_presence_read (default rights_default (s_rights s !! T))) (Some granted)]> s).
  assert (I1 : Inv ids s1).
  { apply rights_inv; [done|exact Op|]. cbn. intros g [= <-]. by exists (s_identity s). }
  destruct about; [done|..]; fold s1; (destruct (granted_for _ granted) eqn:G; [|apply ends_settled; by apply refuse_settled]);
    (apply ends_plain; [done|done|]; apply M; by rewrite <-Eg').
Qed.
(** Everything a channel does to its room goes through [gated]. *)
Definition guarded (about : About) (r : bytes) (a : Action) : Prop :=
  harmless a ∨ match about, a with
               | AboutBroadcast, Fan fan => fo_topic fan = r
               | AboutPresence, Track r' _ _ => r' = r
               | _, _ => False
               end.
Lemma guarded_plain about r acts : Forall (guarded about r) acts → Forall plain acts.
Proof. intros F. eapply Forall_impl; [exact F|]. intros a [Ha|Ha]; [by destruct a|]. by destruct about, a. Qed.
Lemma guarded_may ids about T p acts :
  starts_with T (str "realtime:") = true → Forall (guarded about (room T p)) acts →
  (p = true → ∃ id, id ∈ ids ∧ granted_for about (allow_write id T) = true) → Forall (may ids) acts.
Proof.
  intros St F Hp. eapply Forall_impl; [exact F|]. intros a [Ha|Ha]; [by destruct a|].
  destruct about, a; try done; cbn; [rewrite Ha|subst]; by apply room_guard.
Qed.
Lemma ends_gated ids T about asked acts c s e :
  Inv ids s → about ≠ AboutJoin → s_channels s !! T = Some c → Forall (guarded about (room T (c_private c))) acts →
  ends ids (let '(w, acts) := gated T about asked acts (s, e) in act ACT_FUEL acts w).
Proof.
  intros I Na C F. pose proof (i_topics _ _ I T c C) as St. pose proof (guarded_plain _ _ _ F) as P.
  unfold gated, mbind at 1, ss_bind at 1, sget. cbn [fst snd]. destruct (s_rights s !! T) as [r|] eqn:R.
  - destruct (r_writes r) as [g|] eqn:W; cbn [fmap option_fmap option_map].
    + destruct (i_writes _ _ I T r g R W) as (id & Hid & ->). destruct (granted_for about _) eqn:G.
      * apply ends_plain; [done|done|]. eapply guarded_may; [done|done|]. eauto.
      * apply ends_settled, settled_harmless; [done|by repeat constructor].
    + unfold mbind, ss_bind, smod. cbn [fst snd]. apply ends_ask_do; [done..|]. intros G. eapply guarded_may; [done|done|].
      intros _. exists (s_identity s). split; [apply I|done].
  - apply ends_plain; [done|done|]. eapply guarded_may; [done|done|]. intros Pr. destruct (i_rights _ _ I T c C Pr) as [? ?]. congruence.
Qed.

(** ** Asking again after a new token *)
Definition reset (ts : list bytes) s : Session :=
  foldl (λ s t, set_pending <[t := PRecheck]> (set_rights <[t := rights_default]> s)) s ts.
Definition ask_again (ts : list bytes) : list Action := (λ t, AskFor (mkAsk t AboutJoin)) <$> ts.
Lemma recheck_run ts s e : recheck ts (s, e) = ((reset ts s, e), ask_again ts).
Proof.
  revert s. induction ts as [|t ts IH]; intros s; [done|]. cbn [recheck]. unfold mbind, ss_bind, smod. cbn [fst snd].
  by rewrite IH.
Qed.
(** The session while the private channels [ts] still wait. *)
Record Mid (id : Identity) (ts : list bytes) s : Prop := {
  m_identity : s_identity s = id;
  m_topics : ∀ T c, s_channels s !! T = Some c → starts_with T (str "realtime:") = true;
  m_rights : ∀ T c, s_channels s !! T = Some c → c_private c = true → is_Some (s_rights s !! T);
  m_read : ∀ T c, s_channels s !! T = Some c → c_private c = true → T ∈ ts ∨ may_read (allow_read id T) = true;
  m_presence : ∀ T r, s_rights s !! T = Some r → r_presence_read r = true → g_presence (allow_read id T) = true;
  m_writes : ∀ T r g, s_rights s !! T = Some r → r_writes r = Some g → g = allow_write id T;
  m_watched : ∀ T l, s_watched s !! T = Some l → is_Some (s_channels s !! T);
  m_bound : 0 < channels_per_client (s_limits s) → Z.of_nat (size (s_channels s)) ≤ channels_per_client (s_limits s);
  m_pending : ∀ T, s_pending s !! T = if decide (T ∈ ts) then Some PRecheck else None
}.
Lemma mid_done id s : Mid id [] s → Inv [id] s.
Proof.
  intros []. split; try done.
  - by rewrite m_identity0, list_elem_of_singleton.
  - intros T c C P. exists id. rewrite list_elem_of_singleton. split; [done|]. destruct (m_read0 T c C P) as [[]%elem_of_nil|?]; done.
  - intros T r R P. exists id. rewrite list_elem_of_singleton. split; [done|]. by eapply m_presence0.
  - intros T r g R W. exists id. rewrite list_elem_of_singleton. split; [done|]. by eapply m_writes0.
  - apply map_eq. intros T. rewrite m_pending0, lookup_empty. by rewrite decide_False by apply not_elem_of_nil.
Qed.
Lemma reset_lookup ts s T :
  s_channels (reset ts s) = s_channels s ∧ s_watched (reset ts s) = s_watched s ∧ s_limits (reset ts s) = s_limits s ∧
  s_identity (reset ts s) = s_identity s ∧
  s_rights (reset ts s) !! T = (if decide (T ∈ ts) then Some rights_default else s_rights s !! T) ∧
  s_pending (reset ts s) !! T = (if decide (T ∈ ts) then Some PRecheck else s_pending s !! T).
Proof.
  revert s. induction ts as [|t ts IH]; intros s; [done|]. destruct (IH (set_pending <[t := PRecheck]> (set_rights <[t := rights_default]> s))) as (? & ? & ? & ? & Hr & Hp).
  split_and!; try done; [change (reset (t :: ts) s) with (reset ts (set_pending <[t := PRecheck]> (set_rights <[t := rights_default]> s))); rewrite Hr
                        |change (reset (t :: ts) s) with (reset ts (set_pending <[t := PRecheck]> (set_rights <[t := rights_default]> s))); rewrite Hp];
    (destruct (decide (T ∈ ts)) as [?|Nt]; [by rewrite decide_True by by right|]); cbn;
    (destruct (decide (T = t)) as [->|Ne]; [by rewrite decide_True by left; rewrite lookup_insert_eq|]);
    (rewrite lookup_insert_ne by done; rewrite decide_False; [done|rewrite elem_of_cons; naive_solver]).
Qed.
Lemma reset_mid ids s ts id token :
  Inv ids s → (∀ T, is_Some (s_rights s !! T) → T ∈ ts) → Mid id ts (reset ts (set_identity s id token)).
Proof.
  intros I A. set (s0 := set_identity s id token).
  assert (L : ∀ T, _) by (intros T; exact (reset_lookup ts s0 T)).
  destruct (L []) as (Ec & Ew & El & Ei & _ & _).
  assert (Rt : ∀ T r, s_rights (reset ts s0) !! T = Some r → r = rights_default).
  { intros T r. destruct (L T) as (_ & _ & _ & _ & -> & _). case_decide as D; [by intros [= <-]|]. intros R. destruct D. apply A.
    change (s_rights s0) with (s_rights s) in R. by rewrite R. }
  split.
  - done.
  - rewrite Ec. apply I.
  - rewrite Ec. intros T c C P. destruct (L T) as (_ & _ & _ & _ & -> & _). case_decide; [done|]. by eapply (i_rights _ _ I).
  - rewrite Ec. intros T c C P. left. apply A. by eapply (i_rights _ _ I).
  - intros T r R. by apply Rt in R as ->.
  - intros T r g R. by apply Rt in R as ->.
  - rewrite Ew, Ec. apply I.
  - rewrite El, Ec. apply I.
  - intros T. destruct (L T) as (_ & _ & _ & _ & _ & ->). case_decide; [done|]. change (s_pending s0) with (s_pending s). by rewrite (i_pending _ _ I).
Qed.

Lemma refuse_recheck T why s e : ∃ acts, refuse PRecheck T why (s, e) = ((without T s, e), acts) ∧ Forall harmless acts.
Proof.
  unfold refuse, mbind, ss_bind, sget, smod. cbn [fst snd].
  destruct (unwatch_run T (set_rights (delete T) (set_channels (delete T) s)) e) as (gone & -> & G). eexists. split; [done|].
  constructor; [done|]. apply Forall_app. split; [done|by repeat constructor].
Qed.
Lemma without_rights T r s : without T (set_rights <[T := r]> s) = without T s.
Proof. destruct s. unfold without, set_watched, set_rights, set_channels. cbn. by rewrite delete_insert_eq. Qed.
Lemma mid_pending id t ts s T : Mid id (t :: ts) s → t ∉ ts →
  s_pending (set_pending (delete t) s) !! T = if decide (T ∈ ts) then Some PRecheck else None.
Proof.
  intros M Nt. cbn. destruct (decide (T = t)) as [->|Ne]; [by rewrite lookup_delete_eq, decide_False|].
  rewrite lookup_delete_ne by done. rewrite (m_pending _ _ _ M). apply decide_ext. rewrite elem_of_cons. naive_solver.
Qed.
Lemma mid_out id t ts s : Mid id (t :: ts) s → t ∉ ts → Mid id ts (without t (set_pending (delete t) s)).
Proof.
  intros M Nt. pose proof (λ T, mid_pending id t ts s T M Nt) as Pe. destruct M. split; cbn; try done.
  - intros T c [_ ?]%lookup_delete_Some. eauto.
  - intros T c [N ?]%lookup_delete_Some ?. rewrite lookup_delete_ne by done. eauto.
  - intros T c [N C]%lookup_delete_Some P. destruct (m_read0 T c C P) as [[->|?]%elem_of_cons|?]; [done|auto..].
  - intros T r [_ ?]%lookup_delete_Some. eauto.
  - intros T r g [_ ?]%lookup_delete_Some. eauto.
  - intros T l [N ?]%lookup_delete_Some. rewrite lookup_delete_ne by done. eauto.
  - intros L. rewrite map_size_delete. specialize (m_bound0 L). destruct (s_channels s !! t); cbn; lia.
Qed.
Lemma mid_in id t ts s :
  Mid id (t :: ts) s → t ∉ ts → may_read (allow_read id t) = true →
  Mid id ts (set_rights <[t := mkRights (g_presence (allow_read id t)) (r_writes (default rights_default (s_rights s !! t)))]>
               (set_pending (delete t) s)).
Proof.
  intros M Nt Mr. pose proof (λ T, mid_pending id t ts s T M Nt) as Pe. destruct M. split; cbn; try done.
  - intros T c C P. destruct (decide (T = t)) as [->|N]; [by rewrite lookup_insert_eq|]. rewrite lookup_insert_ne by done. eauto.
  - intros T c C P. destruct (m_read0 T c C P) as [[->|?]%elem_of_cons|?]; auto.
  - intros T r [[<- <-]|[_ ?]]%lookup_insert_Some; [done|eauto].
  - intros T r g [[<- <-]|[_ ?]]%lookup_insert_Some W; [|eauto]. cbn in W. destruct (s_rights s !! t) eqn:R; cbn in W; [eauto|done].
Qed.
(** One question of the list, from one state of waiting to the next. *)
Lemma authorized_again id t ts g s e :
  Mid id (t :: ts) s → t ∉ ts → (∀ granted, g = inl granted → granted = allow_read id t) →
  ∃ s' acts, authorized (mkAsk t AboutJoin) g (s, e) = ((s', e), acts) ∧ Mid id ts s' ∧ Forall harmless acts.
Proof.
  intros M Nt Hg. assert (Pe : s_pending s !! t = Some PRecheck) by by rewrite (m_pending _ _ _ M), decide_True by left.
  rewrite (authorized_run _ _ _ _ _ _ Pe). cbv zeta. destruct g as [granted|why].
  - rewrite (Hg granted eq_refl). clear Hg. change (s_rights (set_pending (delete t) s)) with (s_rights s).
    destruct (negb _ && _) eqn:N.
    + match goal with |- context [refuse PRecheck t ?w (?x, e)] => destruct (refuse_recheck t w x e) as (acts & -> & F) end.
      eexists _, acts. split; [done|]. split; [|done]. rewrite without_rights. by apply mid_out.
    + eexists _, []. split; [done|]. split; [|done]. apply mid_in; [done|done|]. unfold may_read.
      by destruct (g_broadcast _), (g_presence _).
  - destruct (refuse_recheck t why (set_pending (delete t) s) e) as (acts & -> & F). eexists _, acts. split; [done|]. split; [by apply mid_out|done].
Qed.
Lemma ends_recheck id ts s e : Mid id ts s → NoDup ts → ends [id] (act ACT_FUEL (ask_again ts) (s, e)).
Proof.
  intros M N. revert s e M. induction N as [|t ts Nt N IH]; intros s e M.
  { apply ends_plain; [by apply mid_done|constructor|constructor]. }
  change (ask_again (t :: ts)) with (AskFor (mkAsk t AboutJoin) :: ask_again ts). unfold ACT_FUEL. rewrite act_cons_ask.
  destruct (e_ask e _ _ _) as [e1 g] eqn:Eg.
  destruct (authorized_again id t ts g s e1 M Nt) as (s' & acts & Ea & M' & F).
  { intros granted ->. apply e_ask_policy in Eg. by rewrite Eg, (m_identity _ _ _ M). }
  rewrite Ea. destruct (act_plain_run 1 acts s' e1) as (e2 & d & b & Ep & Sub); [by apply harmless_plain|].
  rewrite Ep. cbn [fst snd]. assert (Fd : Forall (may [id]) d).
  { apply harmless_may, Forall_forall. intros a Ha. rewrite Forall_forall in F. apply F, Sub, Ha. }
  destruct b; [|split; [done|]; split; [by constructor|done]]. specialize (IH s' e2 M'). unfold ACT_FUEL in IH.
  destruct (act 2 (ask_again ts) (s', e2)) as [w m]. destruct IH as (H1' & H2' & H3'). split; [done|]. split; [|done].
  constructor; [done|]. by apply Forall_app.
Qed.

(** ** Messages *)
Variable verify : bytes → Identity + bytes.
Variable now : Z.
(** A handler that ends well. *)
Abbreviation well ids h s e := (ends ids (let '(w, acts) := h (s, e) in act ACT_FUEL acts w)).

Lemma inv_more ids id s : Inv ids s → Inv (id :: ids) s.
Proof.
  intros []. assert (Up : ∀ P : Identity → Prop, (∃ x, x ∈ ids ∧ P x) → ∃ x, x ∈ id :: ids ∧ P x)
    by (intros P (x & Hx & HP); exists x; rewrite elem_of_cons; auto).
  split; try done; [by right|eauto..].
Qed.
Lemma inv_identity ids id token s : Inv ids s → Inv (id :: ids) (set_identity s id token).
Proof. intros I%(inv_more _ id). destruct I. split; try done. by left. Qed.
Lemma well_harmless ids s e e' acts : Inv ids s → Forall harmless acts → ends ids (act ACT_FUEL acts (s, e')).
Proof. intros I F. apply ends_plain; [done|by apply harmless_plain|by apply harmless_may]. Qed.
Lemma well_one ids s e f : Inv ids s → ends ids (act ACT_FUEL [send s f] (s, e)).
Proof. intros I. apply well_harmless; [done..|by repeat constructor]. Qed.

Lemma leave_well ids frame s e : Inv ids s → well ids (leave frame) s e.
Proof.
  intros I. unfold leave, mbind at 1, ss_bind at 1, sget. cbn [fst snd]. destruct (s_channels s !! f_topic frame) as [c|]; [|by apply well_one].
  unfold mbind, ss_bind, smod. cbn [fst snd]. set (T := f_topic frame).
  destruct (unwatch_run T (set_pending (delete T) (set_rights (delete T) (set_channels (delete T) s))) e) as (gone & E1 & G). rewrite E1.
  apply well_harmless; [done| |].
  - replace (set_watched (delete T) _) with (without T s); [by apply without_inv|]. pose proof (i_pending _ _ I) as Pe. destruct s. cbn in *. subst.
    unfold without, set_watched, set_pending, set_rights, set_channels. cbn. by rewrite delete_empty.
  - do 2 (constructor; [done|]). apply Forall_app. split; [done|by repeat constructor].
Qed.
Lemma stopped_well ids T message s e : Inv ids s → well ids (stopped T message) s e.
Proof.
  intros I. destruct (stopped_run T message s e) as (acts & -> & F); [apply I|]. apply well_harmless; [done|by apply without_inv|done].
Qed.
Lemma down_harmless s fan : Forall harmless (opt (broadcast_down s fan)).
Proof.
  unfold broadcast_down. destruct (on_room s (fo_topic fan)); cbn; [|done]. destruct (s_vsn s); [|by repeat constructor].
  destruct (bb_encoding _); [done|]. destruct (bb_as_frame _); cbn; by repeat constructor.
Qed.
Lemma push_out_well ids c asked push s e :
  Inv ids s → s_channels s !! f_topic asked = Some c → well ids (push_out c asked push) s e.
Proof.
  intros I C. unfold push_out, mbind at 1, ss_bind at 1, sget. cbn [fst snd].
  destruct (too_big s push); [unfold oversized; destruct (c_broadcast_ack c); [by apply well_one|by apply well_harmless]|].
  eapply ends_gated; [done|done|exact C|]. apply Forall_app. split.
  - destruct (c_broadcast_self c); [|constructor]. eapply Forall_impl; [apply down_harmless|]. by left.
  - constructor; [by right|]. destruct (c_broadcast_ack c); [|constructor]. constructor; [by left|constructor].
Qed.
Lemma broadcast_well ids frame s e : Inv ids s → well ids (broadcast frame) s e.
Proof.
  intros I. unfold broadcast, mbind at 1, ss_bind at 1, sget. cbn [fst snd].
  destruct (s_channels s !! f_topic frame) as [c|] eqn:C; [|by apply well_one].
  destruct (bb_from_frame frame) as [push|]; [by apply push_out_well|by apply well_one].
Qed.
Lemma binary_well ids data s e : Inv ids s → well ids (binary data) s e.
Proof.
  intros I. unfold binary, mbind at 1, ss_bind at 1, sget. cbn [fst snd]. destruct (bb_decode data) as [push|]; [|by apply well_harmless].
  destruct (s_channels s !! bb_topic push) as [c|] eqn:C; [by apply push_out_well|by apply well_one].
Qed.
Lemma calls_inv ids calls s : Inv ids s → Inv ids (set_calls calls s).
Proof. by intros []. Qed.
Lemma presence_well ids frame s e : Inv ids s → well ids (presence now frame) s e.
Proof.
  intros I. unfold presence, mbind at 1, ss_bind at 1, sget. cbn [fst snd]. set (T := f_topic frame).
  destruct (s_channels s !! T) as [c|] eqn:C; [|by apply well_one]. cbv zeta.
  set (event := to_ascii_lowercase _).
  assert (Q : ∃ e' fits, (if bool_decide (event = str "track") || bool_decide (event = str "untrack") then asks e_presence else mret true) (s, e) = ((s, e'), fits)).
  { destruct (_ || _); [|by eexists _, _]. unfold asks. cbn. destruct (e_presence e) as [e' b]. by exists e', b. }
  destruct Q as (e' & fits & Q). unfold mbind at 1, ss_bind at 1. rewrite Q. destruct fits; cbn [negb]; [|by apply stopped_well].
  case_bool_decide; [|case_bool_decide; [by apply well_harmless; [..|repeat constructor]|by apply well_one]].
  destruct (default (jobj []) (jget (f_payload frame) (str "payload"))) eqn:Pl; try by apply well_one. destruct (calls_over_at _ _ _ _) as [calls over].
  unfold mbind, ss_bind, smod. cbn [fst snd]. pose proof (calls_inv ids calls s I) as I'.
  destruct over; [by apply stopped_well|]. destruct (track_too_big _ _); [by apply stopped_well|].
  eapply ends_gated; [done|done|exact C|]. constructor; [by right|]. constructor; [by left|constructor].
Qed.
Lemma take_down_run ids ts s e : Inv ids s → ∃ s' acts, take_down ts (s, e) = ((s', e), acts) ∧ Inv ids s' ∧ Forall harmless acts.
Proof.
  revert s. induction ts as [|T ts IH]; intros s I; [by exists s, []|]. cbn [take_down]. unfold mbind, ss_bind, sget, smod. cbn [fst snd].
  destruct (unwatch_run T (set_pending (delete T) (set_rights (delete T) (set_channels (delete T) s))) e) as (gone & -> & G).
  replace (set_watched (delete T) (set_pending (delete T) (set_rights (delete T) (set_channels (delete T) s)))) with (without T s).
  2: { pose proof (i_pending _ _ I) as Pe. destruct s. cbn in *. subst. unfold without, set_watched, set_pending, set_rights, set_channels. cbn. by rewrite delete_empty. }
  destruct (IH (without T s) (without_inv _ _ _ I)) as (s' & acts & -> & I' & F). eexists s', _. split; [done|]. split; [done|].
  constructor; [done|]. apply Forall_app. split; [done|]. do 2 (constructor; [done|]). done.
Qed.

(** Ending well as whoever the handler left the socket. *)
Definition well_as (fresh : bool) ids (out : (Session * E) * list Action) : Prop :=
  ends (if fresh then [s_identity out.1.1] else s_identity out.1.1 :: ids) (act ACT_FUEL out.2 out.1).
Lemma well_as_up ids s out : s_identity out.1.1 = s_identity s → ends (s_identity s :: ids) (let '(w, acts) := out in act ACT_FUEL acts w) → well_as false ids out.
Proof. destruct out as [w acts]. cbn. intros Ei W. unfold well_as. cbn [fst snd]. by rewrite Ei. Qed.
Lemma join_well ids frame s e : Inv ids s → well_as false ids (join verify frame (s, e)).
Proof.
  intros I. pose proof (inv_more _ (s_identity s) _ I) as I0. unfold join, mbind at 1, ss_bind at 1, sget. cbn [fst snd].
  destruct (starts_with (f_topic frame) (str "realtime:")) eqn:St; cbn [negb]; [|apply (well_as_up ids s); [done|by apply well_one]].
  destruct ((0 <? _) && _) eqn:Rm; [apply (well_as_up ids s); [done|by apply well_one]|].
  assert (Room : 0 < channels_per_client (s_limits s) → Z.of_nat (size (s_channels s)) < channels_per_client (s_limits s)).
  { intros L. apply andb_false_iff in Rm as [?|?]; lia. }
  unfold mbind at 1, ss_bind at 1, asks. cbn [fst snd]. destruct (e_join e) as [e' fits]. cbn [fst snd].
  destruct fits; cbn [negb]; [|apply (well_as_up ids s); [done|apply well_harmless; [done..|by repeat constructor]]].
  (* the rest, as whoever the join is made *)
  set (go := if c_private (config_of (f_payload frame)) then _ else joined frame).
  assert (Go : ∀ ids s1, Inv ids s1 → s_channels s1 = s_channels s → s_limits s1 = s_limits s →
    s_identity (go (s1, e')).1.1 = s_identity s1 ∧ ends ids (act ACT_FUEL (go (s1, e')).2 (go (s1, e')).1)).
  { intros ids1 s1 I1 Ec El. unfold go. destruct (c_private (config_of (f_payload frame))) eqn:Pr.
    - split; [done|]. unfold mbind, ss_bind, smod. cbn [fst snd]. apply ends_ask_join; [done|done|]. by rewrite Ec, El.
    - split; [unfold joined, mbind, ss_bind, smod, sget; cbn [fst snd]; by destruct (c_postgres_changes _)|].
      pose proof (ends_joined ids1 1 frame s1 e' I1 St) as W. destruct (joined frame (s1, e')) as [w acts]. apply W; [by rewrite Ec, El|].
      cbn [fitted c_private]. congruence. }
  destruct (jget (f_payload frame) (str "access_token") ≫= as_str) as [token|].
  - destruct (verify token) as [id|why]; [|apply (well_as_up ids s); [done|by apply well_one]]. unfold mbind at 1, ss_bind at 1, smod. cbn [fst snd].
    destruct (Go (id :: ids) (set_identity s id token)) as [Ei W]; [by apply inv_identity|done|done|]. unfold well_as. by rewrite Ei.
  - destruct (Go (s_identity s :: ids) s) as [Ei W]; [done..|]. unfold well_as. by rewrite Ei.
Qed.
Lemma refresh_well ids frame s e :
  Inv ids s →
  well_as (match verify (default [] (jget (f_payload frame) (str "access_token") ≫= as_str)) with inl _ => true | inr _ => false end) ids
    (refresh verify frame (s, e)).
Proof.
  intros I. unfold refresh. set (token := default [] _). unfold mbind at 1, ss_bind at 1, sget. cbn [fst snd].
  destruct (verify token) as [id|why].
  - unfold mbind, ss_bind, smod. cbn [fst snd]. rewrite recheck_run. unfold well_as, mret, ss_ret. cbn [fst snd]. set (ts := (hash_iter (s_rights s)).*1).
    assert (M : Mid id ts (reset ts (set_identity s id token))).
    { eapply reset_mid; [exact I|]. intros T [r R]. unfold ts. rewrite hash_iter_perm. apply elem_of_map_to_list in R. apply list_elem_of_fmap. by exists (T, r). }
    rewrite (m_identity _ _ _ M). apply ends_app; [by repeat constructor..|]. intros e1. apply ends_app.
    + case_bool_decide; by repeat constructor.
    + case_bool_decide; by repeat constructor.
    + intros e2. apply ends_recheck; [done|]. unfold ts. rewrite hash_iter_perm. apply NoDup_fst_map_to_list.
  - unfold mbind, ss_bind. destruct (take_down_run ids (hash_iter (s_channels s)).*1 s e I) as (s' & acts & -> & I' & F). unfold well_as, mret, ss_ret. cbn [fst snd].
    apply well_harmless; [done|by apply inv_more|]. by constructor.
Qed.
Lemma deliver_well ids sent mine s e : Inv ids s → well ids (deliver sent mine) s e.
Proof.
  intros I. unfold deliver, mbind at 1, ss_bind at 1, sget. cbn [fst snd]. destruct (on_room s (sent_topic sent)) as [T|]; [|by apply well_harmless].
  destruct sent as [fan|topic payload].
  - unfold mbind, ss_bind, asks. cbn [fst snd]. destruct (e_over_events e) as [e' over]. destruct over; [by apply stopped_well|].
    apply well_harmless; [done..|]. unfold delivered. destruct mine; [constructor|apply down_harmless].
  - destruct (delivered s (Diff topic payload) mine) as [a|] eqn:D; [|by apply well_harmless].
    assert (Ha : harmless a).
    { unfold delivered in D. destruct (on_room s topic) as [T'|]; [|done]. cbn in D. destruct (s_channels s !! T'); [|done]. cbn in D.
      destruct (_ && _); [|done]. by injection D as <-. }
    unfold mbind, ss_bind, asks. cbn [fst snd]. destruct (e_presence e) as [e' fits]. destruct fits; [|by apply stopped_well].
    apply well_harmless; [done..|by constructor].
Qed.
Lemma changed_each_run ids mine data s e :
  Inv ids s → ∃ s' e' acts, changed_each mine data (s, e) = ((s', e'), acts) ∧ Inv ids s' ∧ s_identity s' = s_identity s ∧ Forall harmless acts.
Proof.
  revert s e. induction mine as [|[T held] mine IH]; intros s e I; [by exists s, e, []|]. cbn [changed_each].
  unfold mbind at 1 2 3, ss_bind at 1 2 3, asks, sget. cbn [fst snd]. destruct (e_over_events e) as [e1 over]. cbn [fst snd].
  assert (Q : ∃ s1 acts, (if over then overrun T else mret [Text (f_changed (s_vsn s) T held data)]) (s, e1) = ((s1, e1), acts) ∧
    Inv ids s1 ∧ s_identity s1 = s_identity s ∧ Forall harmless acts).
  { destruct over.
    - destruct (stopped_run T (str "Too many messages per second") s e1) as (acts & Es & F); [apply I|]. unfold overrun. rewrite Es.
      eexists _, acts. split; [done|]. split; [by apply without_inv|done].
    - eexists s, _. split; [done|]. split; [done|]. split; [done|by repeat constructor]. }
  destruct Q as (s1 & acts & -> & I1 & Ei & F). unfold mbind, ss_bind. destruct (IH s1 e1 I1) as (s' & e' & more & -> & I' & Ei' & F').
  eexists s', e', _. split; [done|]. split; [done|]. split; [congruence|]. by apply Forall_app.
Qed.

(** ** Turns *)
(** The frame of a text message. *)
Definition frame_of (heard : Heard) : option Frame := match heard with ClientText t => f_decode t | _ => None end.
(** A message that gives the socket a new token that is good. *)
Definition refreshed (heard : Heard) : bool :=
  match frame_of heard with
  | Some frame => bool_decide (f_event frame = str "access_token") &&
      match verify (default [] (jget (f_payload frame) (str "access_token") ≫= as_str)) with inl _ => true | inr _ => false end
  | None => false
  end.
(** Who the socket proved to be since its last good refresh. *)
Definition proved (heard : Heard) s e ids : list Identity :=
  let id := s_identity (handle verify now heard (s, e)).1.1 in if refreshed heard then [id] else id :: ids.

Lemma turn_run heard s e :
  breaks heard = false → turn verify now heard (s, e) = let '(w, acts) := handle verify now heard (s, e) in act ACT_FUEL acts w.
Proof. intros B. unfold turn. by rewrite B. Qed.
Lemma changed_well ids l data s e : Inv ids s → well_as false ids (changed l data (s, e)).
Proof.
  intros I. unfold changed, mbind at 1, ss_bind at 1, sget. cbn [fst snd].
  match goal with |- context [changed_each ?m data (s, e)] => destruct (changed_each_run ids m data s e I) as (s' & e' & acts & -> & I' & Ei & F) end.
  apply (well_as_up ids s); [done|]. apply well_harmless; [done|by apply inv_more|done].
Qed.
Lemma ends_more ids id out : ends ids out → (out.2.2 = Some true → Inv (id :: ids) out.1.1) → ends (id :: ids) out.
Proof.
  intros (E1 & E2 & E3) Q. split; [done|]. split; [|done]. eapply Forall_impl; [exact E2|].
  intros a. destruct a; cbn; try done; intros Ha T ET; destruct (Ha T ET) as (x & Hx & HP); exists x; rewrite elem_of_cons; auto.
Qed.
Lemma ends_up ids id out : ends ids out → ends (id :: ids) out.
Proof. intros Q. apply ends_more; [done|]. intros O. apply inv_more, Q, O. Qed.
Lemma well_as_same ids out : ends ids (let '(w, acts) := out in act ACT_FUEL acts w) → well_as false ids out.
Proof. destruct out as [w acts]. intros W. by apply ends_up. Qed.
Lemma turn_ends ids heard s e : Inv ids s → ends (proved heard s e ids) (turn verify now heard (s, e)).
Proof.
  intros I. destruct (breaks heard) eqn:B; [unfold turn; rewrite B; by split; [|split; [constructor|]]|].
  enough (W : well_as (refreshed heard) ids (handle verify now heard (s, e))).
  { rewrite turn_run by done. unfold proved. unfold well_as in W. by destruct (handle verify now heard (s, e)) as [w acts]. }
  destruct heard as [t|data| | |sent mine| |l data| |]; try discriminate B; cbn [handle].
  - unfold text, refreshed, frame_of. destruct (f_decode t) as [frame|]; [|apply well_as_same; by apply well_harmless]. unfold on_frame.
    destruct (bool_decide (f_event frame = str "access_token")) eqn:Ac; cbn [andb].
    + apply bool_decide_eq_true in Ac. rewrite Ac. by apply refresh_well.
    + clear Ac. case_bool_decide; [apply well_as_same; by apply well_one|]. case_bool_decide; [by apply join_well|].
      case_bool_decide; [apply well_as_same; by apply leave_well|]. case_bool_decide; [apply well_as_same; by apply broadcast_well|].
      case_bool_decide; [apply well_as_same; by apply presence_well|]. apply well_as_same. by apply well_one.
  - apply well_as_same. by apply binary_well.
  - apply well_as_same. by apply well_harmless.
  - apply well_as_same. by apply deliver_well.
  - by apply changed_well.
Qed.
End turns.

(** ** Connections *)
Section connections.
Context `{Json, HashOrder} {E : Type} `{EnvOk E}.

(** The sessions of a connection between turns, whatever happens outside
    meanwhile, with who the socket proved to be since its last good refresh. *)
Inductive runs : Session → list Identity → Prop :=
  | runs_new vsn id limits token : runs (with_bearer (budgeted vsn id limits) token) [id]
  | runs_turn verify now heard s (e : E) ids s' e' did :
      runs s ids → turn verify now heard (s, e) = ((s', e'), (did, Some true)) →
      runs s' (proved verify now heard s e ids).
Lemma runs_inv s ids : runs s ids → Inv ids s.
Proof.
  induction 1 as [vsn id limits token|verify now heard s e ids s' e' did _ I T].
  - split; cbn; try (intros; simplify_map_eq; done); [by left|]. intros L. rewrite map_size_empty. lia.
  - pose proof (turn_ends verify now ids heard s e I) as (_ & _ & I'). rewrite T in I'. by apply I'.
Qed.
(** A delivery from a private room that does anything. *)
Lemma heard_private ids s e sent mine T acts w :
  Inv ids s → sent_topic sent = str "private:" ++ T → deliver sent mine (s, e) = (w, acts) → acts ≠ [] →
  ∃ id, id ∈ ids ∧ match sent with Broadcast _ => may_read (allow_read id T) | Diff _ _ => g_presence (allow_read id T) end = true.
Proof.
  intros I Et D Ne. unfold deliver, mbind at 1, ss_bind at 1, sget in D. cbn [fst snd] in D. rewrite Et in D.
  destruct (on_room s (str "private:" ++ T)) as [T'|] eqn:On; [|by injection D as _ <-].
  destruct (on_room_some _ _ _ On) as (c & C & Er). pose proof (i_topics _ _ I T' c C) as St.
  destruct (c_private c) eqn:Pr; [|by apply public_room in Er]. apply private_room in Er as ->.
  destruct sent as [fan|topic payload]; [by eapply i_read|]. cbn [sent_topic] in Et. subst topic.
  destruct (delivered s (Diff (str "private:" ++ T) payload) mine) as [a|] eqn:Dl; [|by injection D as _ <-].
  unfold delivered in Dl. rewrite On in Dl. cbn [mbind option_bind] in Dl. rewrite C in Dl. cbn [mbind option_bind] in Dl.
  destruct (c_presence c && readable_presence s T) eqn:R; [|done]. apply andb_true_iff in R as [_ R].
  destruct (i_rights _ _ I T c C Pr) as [r Hr]. unfold readable_presence in R. rewrite Hr in R. by eapply i_presence.
Qed.

(** C23: a private channel is private.  In a connection the policies answer
    for, whatever messages the client, the hub and the database send and in
    whatever order, a turn comes to its end, and everything it does in a
    private room the policies allow to somebody the socket has proved to be
    since its last good refresh: the room is carried only to a reader,
    messages are fanned there only for somebody who may send and presences
    tracked for somebody who may be seen, the presence of the room is sent
    down only to somebody who may read presence.  And what the hub delivers
    from a private room does nothing to a socket none of whose identities
    may read it. *)
Theorem private_rooms_guarded s ids (verify : bytes → Identity + bytes) (now : Z) (heard : Heard) (e : E) :
  runs s ids →
  let '(_, (did, on)) := turn verify now heard (s, e) in
  on ≠ None ∧ Forall (may (proved verify now heard s e ids)) did ∧
  ∀ sent mine T, heard = Fanned sent mine → sent_topic sent = str "private:" ++ T → did ≠ [] →
    ∃ id, id ∈ ids ∧ match sent with Broadcast _ => may_read (allow_read id T) | Diff _ _ => g_presence (allow_read id T) end = true.
Proof.
  intros R. apply runs_inv in R as I. pose proof (turn_ends verify now ids heard s e I) as (T1 & T2 & _).
  destruct (turn verify now heard (s, e)) as [w [did on]] eqn:Et. split; [done|]. split; [done|].
  intros sent mine T -> Es Ne. rewrite turn_run in Et by done. cbn [handle] in Et. destruct (deliver sent mine (s, e)) as [[s1 e1] acts] eqn:D.
  eapply heard_private; [done|done|exact D|]. intros ->. rewrite act_nil in Et. by injection Et as _ <- _.
Qed.

(** C26: what a connection keeps is in order between turns.  A socket is on
    no more channels than one client may hold, every topic it is on is a
    channel topic, nothing waits for an answer any more, each private
    channel has an entry for its rights, and subscriptions belong to
    channels the socket is on. *)
Theorem session_in_order s ids :
  runs s ids →
  (0 < channels_per_client (s_limits s) → Z.of_nat (size (s_channels s)) ≤ channels_per_client (s_limits s)) ∧
  (∀ T c, s_channels s !! T = Some c → starts_with T (str "realtime:") = true ∧ (c_private c = true → is_Some (s_rights s !! T))) ∧
  s_pending s = ∅ ∧ dom (s_watched s) ⊆ dom (s_channels s).
Proof.
  intros I%runs_inv. split; [apply I|]. split; [intros T c C; split; [by eapply i_topics|by eapply i_rights]|]. split; [apply I|].
  intros T [l W]%elem_of_dom. apply elem_of_dom. by eapply i_watched.
Qed.
End connections.

(** ** Answers *)
(** A list of what was done with exactly one reply to [frame] in it. *)
Section answers.
Context `{Json, HashOrder} {E : Type} `{Env E}.
Implicit Types (s : Session) (e : E).
Definition quiet (v : Vsn) (a : Action) : Prop :=
  match a with Text t => ∃ f, t = f_encode f v ∧ f_event f ≠ str "phx_reply" | _ => True end.
Definition answered (v : Vsn) (frame : Frame) (did : list Action) : Prop :=
  ∃ pre status response post, did = pre ++ Text (f_encode (f_reply frame status response) v) :: post ∧
    Forall (quiet v) pre ∧ Forall (quiet v) post.
Lemma answered_one v frame status response post :
  Forall (quiet v) post → answered v frame (Text (f_encode (f_reply frame status response) v) :: post).
Proof. intros Q. exists [], status, response, post. split_and!; [done|constructor|done]. Qed.
Lemma answered_app v frame pre did post :
  Forall (quiet v) pre → answered v frame did → Forall (quiet v) post → answered v frame (pre ++ did ++ post).
Proof.
  intros Q (p & st & resp & q & -> & Qp & Qq) Q'. exists (pre ++ p), st, resp, (q ++ post). split_and!; [by rewrite <-!app_assoc|by apply Forall_app..].
Qed.
Lemma answered_cons v frame a did : quiet v a → answered v frame did → answered v frame (a :: did).
Proof. intros Qa Q. rewrite <-(app_nil_r did). apply (answered_app _ _ [a]); [by constructor|done|constructor]. Qed.

(** A socket that takes what it is sent. *)
Hypothesis sends : ∀ e a, (e_send e a).2 = true.
Lemma act_cons_sent fuel a s e :
  plain a → a ≠ Close → ∃ e', ∀ acts, act fuel (a :: acts) (s, e) = let '(w, r) := act fuel acts (s, e') in (w, (a :: r.1, r.2)).
Proof.
  intros P Nc. destruct (act_cons_plain fuel a s e P) as (e' & b & Q). destruct b; [by exists e'|]. exfalso. specialize (Q []).
  destruct a; try done; destruct fuel; cbn in Q; unfold mbind, ss_bind, asks in Q; cbn in Q; try done;
    match type of Q with
    | context [e_state ?x ?y] => destruct (e_state x y) as [e1 v1]; cbn in Q; pose proof (sends e1 (state s y v1)) as Sd; destruct (e_send e1 _) as [? []]
    | context [e_send ?x ?y] => pose proof (sends x y) as Sd; destruct (e_send x y) as [? []]
    end; cbn in Q, Sd; done.
Qed.
Lemma act_sent fuel acts s e :
  Forall plain acts → Close ∉ acts → ∃ e', ∀ more, act fuel (acts ++ more) (s, e) = let '(w, r) := act fuel more (s, e') in (w, (acts ++ r.1, r.2)).
Proof.
  intros P. revert e. induction P as [|a acts Pa P IH]; intros e Nc.
  - exists e. intros more. cbn. by destruct (act fuel more (s, e)) as [w []].
  - apply not_elem_of_cons in Nc as [Na Nc]. destruct (act_cons_sent fuel a s e Pa) as [e1 E1]; [done|]. destruct (IH e1 Nc) as [e2 E2].
    exists e2. intros more. cbn [app]. rewrite E1, E2. by destruct (act fuel more (s, e2)) as [w r].
Qed.
Lemma act_sent_all fuel acts s e : Forall plain acts → Close ∉ acts → ∃ e', act fuel acts (s, e) = ((s, e'), (acts, Some true)).
Proof.
  intros P Nc. destruct (act_sent fuel acts s e P Nc) as [e' E1]. specialize (E1 []). rewrite app_nil_r, act_nil in E1. cbn in E1.
  rewrite app_nil_r in E1. by exists e'.
Qed.
Definition tame (v : Vsn) (a : Action) : Prop := plain a ∧ a ≠ Close ∧ quiet v a.
Lemma tame_all v acts : Forall (tame v) acts → Forall plain acts ∧ Close ∉ acts ∧ Forall (quiet v) acts.
Proof.
  intros F. split; [eapply Forall_impl; [exact F|]; by intros a []|]. split; [|eapply Forall_impl; [exact F|]; by intros a (_ & _ & ?)].
  intros Hc. rewrite Forall_forall in F. by apply F in Hc as (_ & ? & _).
Qed.
Lemma act_answer fuel s e frame status response pre post :
  Forall (tame (s_vsn s)) pre → Forall (tame (s_vsn s)) post →
  ∃ e', act fuel (pre ++ send s (f_reply frame status response) :: post) (s, e) =
    ((s, e'), (pre ++ send s (f_reply frame status response) :: post, Some true)) ∧
    answered (s_vsn s) frame (pre ++ send s (f_reply frame status response) :: post).
Proof.
  intros (P1 & C1 & Q1)%tame_all (P2 & C2 & Q2)%tame_all. destruct (act_sent_all fuel (pre ++ send s (f_reply frame status response) :: post) s e) as [e' E1].
  - apply Forall_app. split; [done|by constructor].
  - rewrite not_elem_of_app, not_elem_of_cons. done.
  - exists e'. split; [exact E1|]. by eexists pre, status, response, post.
Qed.
Lemma tame_system v frame ext status message : tame v (Text (f_encode (f_system frame ext status message) v)).
Proof. split; [done|]. split; [done|]. by eexists. Qed.
Lemma after_reply_tame v s T : Forall (tame v) (opt (after_reply s T)).
Proof.
  unfold after_reply. destruct (s_channels s !! T) as [c|]; cbn; [|constructor]. destruct (_ && _); by repeat constructor.
Qed.
Lemma unwatch_tame v T s e : ∃ gone, unwatch T (s, e) = ((set_watched (delete T) s, e), gone) ∧ Forall (tame v) gone.
Proof.
  destruct (unwatch_run T s e) as (gone & E1 & _). exists gone. split; [done|].
  unfold unwatch, mbind, ss_bind, sget in E1. cbn in E1. destruct (s_watched s !! T) as [[]|]; apply (f_equal snd) in E1; cbn in E1; subst gone; by repeat constructor.
Qed.

(** An outcome whose actions, carried out, answer the frame once. *)
Definition replies (v : Vsn) (frame : Frame) (fuel : nat) (out : (Session * E) * list Action) : Prop :=
  answered v frame (act fuel out.2 out.1).2.1.
Lemma replies_send v frame fuel s s0 e pre status response post :
  s_vsn s = v → s_vsn s0 = v → Forall (tame v) pre → Forall (tame v) post →
  replies v frame fuel ((s, e), pre ++ send s0 (f_reply frame status response) :: post).
Proof.
  intros <- Ev P Q. unfold replies. cbn [fst snd]. unfold send. rewrite Ev. fold (send s (f_reply frame status response)).
  by destruct (act_answer fuel s e frame status response pre post P Q) as (e' & -> & A).
Qed.
Lemma unsubscribed_replies fuel frame why s e : replies (s_vsn s) frame fuel (unsubscribed frame why (s, e)).
Proof.
  unfold unsubscribed, mbind, ss_bind, sget, smod. cbn [fst snd].
  match goal with |- context [unwatch ?T (?x, e)] => destruct (unwatch_tame (s_vsn s) T x e) as (gone & -> & G) end.
  apply (replies_send _ _ _ _ s _ [] (str "error")); [done..|]. apply Forall_app. split; [done|by repeat constructor].
Qed.
Lemma watching_replies fuel T made frame s e :
  s_pending s !! T = Some (PWatch frame) → is_Some (s_channels s !! T) →
  replies (s_vsn s) frame fuel (watching T made (s, e)).
Proof.
  intros Pe [c C]. unfold watching, mbind at 1, ss_bind at 1, sget at 1. cbn [fst snd]. rewrite Pe.
  unfold mbind at 1, ss_bind at 1, smod at 1. cbn [fst snd]. rewrite C.
  destruct made as [made|why]; [|apply (unsubscribed_replies _ _ _ (set_pending (delete T) s))].
  case_bool_decide; cbn [negb]; [|apply (unsubscribed_replies _ _ _ (set_pending (delete T) s))].
  unfold mbind, ss_bind, smod, sget. cbn [fst snd]. set (s1 := match w_refused made with None => _ | Some _ => _ end _).
  assert (Ev : s_vsn s1 = s_vsn s) by (unfold s1; by destruct (w_refused made)).
  apply (replies_send _ _ _ s1 s1 _ []); [done|done|constructor|]. constructor; [|apply after_reply_tame].
  unfold send. rewrite Ev. destruct (w_refused made); apply tame_system.
Qed.
Lemma joined_replies fuel frame s e : replies (s_vsn s) frame (S fuel) (joined frame (s, e)).
Proof.
  unfold joined. unfold mbind at 1, ss_bind at 1, smod at 1. cbn [fst snd]. set (s1 := set_channels _ s).
  destruct (c_postgres_changes (config_of (f_payload frame))) as [|w ws]; cbn [c_postgres_changes].
  - unfold mbind, ss_bind, sget. cbn [fst snd]. apply (replies_send _ _ _ s1 s1 _ [Carry _]); [done..|by repeat constructor|]. apply after_reply_tame.
  - unfold mbind, ss_bind, smod. cbn [fst snd]. set (s2 := set_pending _ s1). unfold replies, mret, ss_ret. cbn [fst snd].
    match goal with |- context [act _ (?a :: _) _] => destruct (act_cons_sent (S fuel) a s2 e) as [e' E1]; [done..|]; rewrite E1; clear E1 end. rewrite act_cons_watch.
    destruct (e_watch e' _ _ _) as [e1 g].
    assert (R : replies (s_vsn s) frame fuel (watching (f_topic frame) g (s2, e1))).
    { apply (watching_replies _ _ _ _ s2); cbn; by rewrite lookup_insert_eq. }
    unfold replies in R. destruct (watching _ _ _) as [w1 next]. cbn [fst snd] in R. destruct (act fuel next w1) as [w2 [d on]]. cbn [fst snd] in *.
    destruct on as [[]|]; cbn [fst snd]; try by do 2 (apply answered_cons; [done|]).
    destruct w2 as [s3 e3]. rewrite act_nil. cbn [fst snd]. rewrite app_nil_r. by do 2 (apply answered_cons; [done|]).
Qed.
Lemma ask_join_replies frame s e :
  replies (s_vsn s) frame ACT_FUEL ((set_pending <[f_topic frame := PJoin frame]> s, e), [AskFor (mkAsk (f_topic frame) AboutJoin)]).
Proof.
  unfold replies, ACT_FUEL. cbn [fst snd]. rewrite act_cons_ask. destruct (e_ask e _ _ _) as [e1 g].
  assert (R : replies (s_vsn s) frame 1 (authorized (mkAsk (f_topic frame) AboutJoin) g (set_pending <[f_topic frame := PJoin frame]> s, e1))).
  { erewrite authorized_run by by apply lookup_insert_eq. cbv zeta.
    assert (Re : ∀ why s1, s_vsn s1 = s_vsn s → replies (s_vsn s) frame 1 (refuse (PJoin frame) (f_topic frame) why (s1, e1))).
    { intros why s1 Ev. apply (replies_send _ _ _ s1 s1 _ [] (str "error")); [done..|constructor]. }
    destruct g as [granted|why]; [|by apply Re]. destruct (negb _ && _); [by apply Re|].
    match goal with |- context [joined frame (?x, e1)] => apply (joined_replies 0 frame x) end. }
  unfold replies in R. destruct (authorized _ _ _) as [w next]. cbn [fst snd] in R. destruct (act 1 next w) as [w2 [d on]]. cbn [fst snd] in *.
  destruct on as [[]|]; cbn [fst snd]; try by apply answered_cons.
  destruct w2 as [s3 e3]. rewrite act_nil. cbn [fst snd]. rewrite app_nil_r. by apply answered_cons.
Qed.
Variable verify : bytes → Identity + bytes.
Lemma join_replies frame s e : replies (s_vsn s) frame ACT_FUEL (join verify frame (s, e)).
Proof.
  assert (Er : ∀ why e1, replies (s_vsn s) frame ACT_FUEL ((s, e1), [send s (f_error frame why)])).
  { intros why e1. apply (replies_send _ _ _ s s _ [] (str "error")); [done..|constructor]. }
  unfold join, mbind at 1, ss_bind at 1, sget. cbn [fst snd]. destruct (negb _); [apply Er|]. destruct (_ && _); [apply Er|].
  unfold mbind at 1, ss_bind at 1, asks. cbn [fst snd]. destruct (e_join e) as [e' fits]. destruct fits; cbn [negb].
  2: { unfold replies, mret, ss_ret. cbn [fst snd]. destruct (act_cons_sent ACT_FUEL (send s (f_error frame (str "ClientJoinRateLimitReached: Too many joins per second"))) s e') as [e1 ->]; [done..|].
       destruct (act_plain_run ACT_FUEL [Close] s e1) as (e2 & d & b & -> & Sub); [by repeat constructor|]. cbn [fst snd].
       eapply (answered_one _ _ (str "error")), Forall_forall. intros a Ha%Sub%list_elem_of_singleton. by subst. }
  set (go := if c_private _ then _ else joined frame).
  assert (Go : ∀ s1, s_vsn s1 = s_vsn s → replies (s_vsn s) frame ACT_FUEL (go (s1, e'))).
  { intros s1 <-. unfold go. destruct (c_private _); [apply ask_join_replies|apply joined_replies]. }
  destruct (jget _ _ ≫= as_str) as [token|]; [|by apply Go]. destruct (verify token) as [id|why]; [|apply Er].
  unfold mbind at 1, ss_bind at 1, smod. by apply Go.
Qed.
Lemma leave_replies frame s e : replies (s_vsn s) frame ACT_FUEL (leave frame (s, e)).
Proof.
  unfold leave, mbind at 1, ss_bind at 1, sget. cbn [fst snd]. destruct (s_channels s !! f_topic frame) as [c|].
  - unfold mbind, ss_bind, smod. cbn [fst snd].
    match goal with |- context [unwatch ?T (?x, e)] => destruct (unwatch_tame (s_vsn s) T x e) as (gone & -> & G) end.
    apply (replies_send _ _ _ _ s _ ([Untrack _; Drop _] ++ gone) (str "ok")); [done..| |constructor].
    by repeat (constructor; [by repeat split|]).
  - apply (replies_send _ _ _ s s _ [] (str "error")); [done..|constructor].
Qed.

(** C25: nobody is left waiting.  When the socket takes what it is sent, a
    heartbeat, a join and a leave are answered, in the turn that reads them
    and exactly once, in the version the socket speaks: whatever the limits,
    the policies and the reader of changes say, the turn sends one reply to
    the frame, and every other text it sends is not a reply. *)
Theorem frames_answered (now : Z) (t : bytes) (frame : Frame) s e :
  f_decode t = Some frame → f_event frame ∈ [str "heartbeat"; str "phx_join"; str "phx_leave"] →
  answered (s_vsn s) frame (turn verify now (ClientText t) (s, e)).2.1.
Proof.
  intros D Ev. rewrite turn_run by done. cbn [handle]. unfold text. rewrite D. unfold on_frame.
  enough (R : replies (s_vsn s) frame ACT_FUEL (on_frame verify now frame (s, e))).
  { unfold on_frame, replies in R. by destruct (_ (s, e)) as [w acts]. }
  unfold on_frame. case_bool_decide; [by apply (replies_send _ _ _ s s _ [] (str "ok")); [..|constructor]|].
  case_bool_decide; [apply join_replies|]. case_bool_decide; [apply leave_replies|]. set_solver.
Qed.
End answers.

