(* ===== verification/RtHub.v ===== *)
(** * RtHub: where broadcasts go, and who is on a topic

    crates/zou-realtime/src/hub.rs.  The pipe of a topic is tokio's broadcast
    channel, of which only what the hub uses is known.  Presence is state: a
    client is sent it once and diffs after that, and the theorem here is that
    its copy stays level, with the sockets of a topic changing their
    presence and sending their diffs in any interleaving. *)
From S2P Require Import Prelude Order Text RtFrame RtSession.

(** ** Pipes *)
Definition Delivery : Type := Z * Sent.
Class Pipe (P : Type) := {
  (** [broadcast::channel], with its first receiver *)
  pipe_new : P;
  pipe_subscribe : P → P;
  pipe_send : P → Delivery → option (P * Z);
  receiver_count : P → Z;
  (** A receiver going away. *)
  pipe_drop : P → P;
  (** Everything sent, which a receiver that keeps up hears from where it
      subscribed. *)
  heard : P → list Delivery
}.
Class PipeOk P `{Pipe P} := {
  pipe_new_heard : heard pipe_new = [] ∧ receiver_count pipe_new = 1;
  pipe_subscribe_heard : ∀ p, heard (pipe_subscribe p) = heard p ∧ receiver_count (pipe_subscribe p) = receiver_count p + 1;
  pipe_count : ∀ p, 0 ≤ receiver_count p;
  pipe_drop_heard : ∀ p, 0 < receiver_count p → heard (pipe_drop p) = heard p ∧ receiver_count (pipe_drop p) = receiver_count p - 1;
  pipe_send_none : ∀ p d, receiver_count p = 0 → pipe_send p d = None;
  pipe_send_heard : ∀ p d, 0 < receiver_count p →
    ∃ p', pipe_send p d = Some (p', receiver_count p) ∧ heard p' = heard p ++ [d] ∧ receiver_count p' = receiver_count p
}.

(** ** Presence *)
Record Meta := mkMeta { m_key : bytes; m_ref : bytes; m_payload : Value }.
(** [Meta::as_json] *)
Definition meta_json (m : Meta) : Value :=
  JObj (bt_insert (str "phx_ref") (JStr (m_ref m)) (match m_payload m with JObj fields => fields | _ => [] end)).

Section hub.
Context {P : Type} `{Pipe P}.
Record Hub := mkHub { h_topics : gmap bytes P; h_presence : gmap bytes (list (Z * Meta)); h_next : Z; h_refs : Z }.
Definition hub_new : Hub := mkHub ∅ ∅ 0 0.
Definition set_topics (f : gmap bytes P → gmap bytes P) (h : Hub) : Hub := mkHub (f (h_topics h)) (h_presence h) (h_next h) (h_refs h).
(** [Hub::socket] *)
Definition socket (h : Hub) : Hub * Z := (mkHub (h_topics h) (h_presence h) ((h_next h + 1) mod 2 ^ 64) (h_refs h), h_next h).
(** [Hub::carry] *)
Definition carry (topic : bytes) (h : Hub) : Hub :=
  match h_topics h !! topic with
  | Some sender => set_topics <[topic := pipe_subscribe sender]> h
  | None => set_topics <[topic := pipe_new]> h
  end.
(** [Hub::send], with [Hub::fan] and [Hub::relay] *)
Definition hub_send (from : Z) (sent : Sent) (h : Hub) : Hub * Z :=
  let topic := sent_topic sent in
  match h_topics h !! topic with
  | None => (h, 0)
  | Some sender =>
      match pipe_send sender (from, sent) with
      | Some (sender, reached) => (set_topics <[topic := sender]> h, reached)
      | None => (set_topics (delete topic) h, 0)
      end
  end.
Definition fan (from : Z) (f : Fanout) (h : Hub) : Hub * Z := hub_send from (Broadcast f) h.
Definition relay (from : Z) (sent : Sent) (h : Hub) : Hub * Z := hub_send from sent h.
(** [Hub::diff] *)
Definition diff_entry (meta : option Meta) : Value :=
  match meta with Some m => jobj [(m_key m, jobj [(str "metas", JArr [meta_json m])])] | None => jobj [] end.
Definition diff_json (joined left : option Meta) : Value := jobj [(str "joins", diff_entry joined); (str "leaves", diff_entry left)].
Definition diff (who : Z) (topic : bytes) (joined left : option Meta) (h : Hub) : Hub :=
  (hub_send who (Diff topic (diff_json joined left)) h).1.
(** What [Hub::track] does under the lock: the new meta and the one it replaced. *)
Definition track_in (who : Z) (topic : bytes) (key : option bytes) (payload : Value) (h : Hub) : Hub * (Meta * option Meta) :=
  let meta := mkMeta (default (fmt_dec 1 who) key) (fmt_dec 1 (h_refs h)) payload in
  let on_topic := default [] (h_presence h !! topic) in
  (mkHub (h_topics h) (<[topic := bt_insert who meta on_topic]> (h_presence h)) (h_next h) ((h_refs h + 1) mod 2 ^ 64),
   (meta, bt_get who on_topic)).
(** [Hub::track] *)
Definition track (who : Z) (topic : bytes) (key : option bytes) (payload : Value) (h : Hub) : Hub :=
  let '(h, (meta, replaced)) := track_in who topic key payload h in
  diff who topic (Some meta) replaced h.
(** What [Hub::untrack] does under the lock: the meta that went. *)
Definition untrack_in (who : Z) (topic : bytes) (h : Hub) : Hub * option Meta :=
  match h_presence h !! topic with
  | None => (h, None)
  | Some on_topic =>
      let rest := bt_remove who on_topic in
      (mkHub (h_topics h) (match rest with [] => delete topic (h_presence h) | _ => <[topic := rest]> (h_presence h) end)
         (h_next h) (h_refs h), bt_get who on_topic)
  end.
(** [Hub::untrack] *)
Definition untrack (who : Z) (topic : bytes) (h : Hub) : Hub :=
  let '(h, gone) := untrack_in who topic h in
  match gone with Some _ => diff who topic None gone h | None => h end.
(** [Hub::state] *)
Definition state_add (out : list (bytes * Value)) (m : Meta) : list (bytes * Value) :=
  let entry := default (jobj [(str "metas", JArr [])]) (bt_get (m_key m) out) in
  bt_insert (m_key m)
    match entry with
    | JObj fields =>
        match bt_get (str "metas") fields with
        | Some (JArr metas) => JObj (bt_insert (str "metas") (JArr (metas ++ [meta_json m])) fields)
        | _ => entry
        end
    | _ => entry
    end out.
Definition hub_state (topic : bytes) (h : Hub) : Value :=
  JObj (foldl state_add [] (default [] (h_presence h !! topic)).*2).
(** [Hub::released] *)
Definition released (topic : bytes) (h : Hub) : Hub :=
  match h_topics h !! topic with
  | Some sender =>
      if receiver_count sender =? 0 then mkHub (delete topic (h_topics h)) (delete topic (h_presence h)) (h_next h) (h_refs h) else h
  | None => h
  end.
(** [Hub::topics] *)
Definition topics (h : Hub) : Z := Z.of_nat (size (h_topics h)).
End hub.
Arguments Hub : clear implicits.

(** ** What a client keeps *)
(** The client of the tests: presence keys with their metas, joins replace
    metas of the same ref, leaves take metas out by ref. *)
Definition Client : Type := list (bytes * list Value).
Definition meta_ref (meta : Value) : option bytes := jget meta (str "phx_ref") ≫= as_str.
Definition entry_metas (entry : Value) : list Value := default [] (jget entry (str "metas") ≫= as_array).
Definition fields_of (v : option Value) : list (bytes * Value) := default [] (v ≫= as_object).
Definition without_refs (refs : list (option bytes)) (metas : list Value) : list Value := filter (λ m, meta_ref m ∉ refs) metas.
Definition client_join (c : Client) (e : bytes * Value) : Client :=
  let arriving := meta_ref <$> entry_metas e.2 in
  bt_insert e.1 (without_refs arriving (default [] (bt_get e.1 c)) ++ entry_metas e.2) c.
Definition client_leave (c : Client) (e : bytes * Value) : Client :=
  match bt_get e.1 c with
  | None => c
  | Some metas =>
      match without_refs (meta_ref <$> entry_metas e.2) metas with
      | [] => bt_remove e.1 c
      | metas => bt_insert e.1 metas c
      end
  end.
Definition client_apply (c : Client) (d : Value) : Client :=
  foldl client_leave (foldl client_join c (fields_of (jget d (str "joins")))) (fields_of (jget d (str "leaves"))).
(** The copy a client makes of the state it is sent. *)
Definition client_of (st : Value) : Client := (λ e, (e.1, entry_metas e.2)) <$> fields_of (Some st).
(** Two sides hold the same metas under the same keys: the order of one
    key's metas is not part of the protocol. *)
Definition level (c c' : Client) : Prop :=
  ∀ key, match bt_get key c, bt_get key c' with
         | Some l, Some l' => l ≡ₚ l'
         | None, None => True
         | _, _ => False
         end.

(** ** Metas by reference *)
(** What either side holds, read as a map from references. *)
Abbreviation Contents := (gmap bytes (bytes * Value)).
Definition metas_of (key : bytes) (C : Contents) : list Value := (filter (λ kv, kv.1 = key) (map_to_list C).*2).*2.
Definition refs_ok (C : Contents) : Prop := ∀ a kv, C !! a = Some kv → meta_ref kv.2 = Some a.
Lemma metas_of_elem key C v : v ∈ metas_of key C ↔ ∃ a, C !! a = Some (key, v).
Proof.
  unfold metas_of. rewrite list_elem_of_fmap. setoid_rewrite list_elem_of_filter. setoid_rewrite list_elem_of_fmap. split.
  - intros ([k v'] & -> & E & [a kv] & E2 & M%elem_of_map_to_list). cbn in *. subst. by exists a.
  - intros [a M%elem_of_map_to_list]. exists (key, v). split; [done|]. split; [done|]. by exists (a, (key, v)).
Qed.
Lemma metas_of_insert key a k v C :
  C !! a = None → metas_of key (<[a := (k, v)]> C) ≡ₚ (if decide (k = key) then v :: metas_of key C else metas_of key C).
Proof.
  intros N. unfold metas_of. rewrite map_to_list_insert by done. rewrite fmap_cons, filter_cons. cbn [fst snd]. by destruct (decide (k = key)).
Qed.
Lemma without_refs_all refs l : (∀ v, v ∈ l → meta_ref v ∉ refs) → without_refs refs l = l.
Proof.
  induction l as [|v l IH]; intros F; [done|]. unfold without_refs in *. rewrite filter_cons_True by (apply F; by left). f_equal. apply IH.
  intros w ?. apply F. by right.
Qed.
Lemma metas_of_delete key a C : refs_ok C → metas_of key (delete a C) ≡ₚ without_refs [Some a] (metas_of key C).
Proof.
  intros R. assert (Keep : without_refs [Some a] (metas_of key (delete a C)) = metas_of key (delete a C)).
  { apply without_refs_all. intros v [b [Ne M]%lookup_delete_Some]%metas_of_elem. apply R in M. cbn in M. rewrite M. set_solver. }
  destruct (C !! a) as [[k v]|] eqn:M; [|by rewrite delete_id in Keep |- * by done; rewrite Keep].
  transitivity (without_refs [Some a] (metas_of key (<[a := (k, v)]> (delete a C)))); [|by rewrite insert_delete_id].
  unfold without_refs in *. rewrite metas_of_insert by by rewrite lookup_delete_eq. apply R in M. cbn in M. destruct (decide (k = key)); [|by rewrite Keep].
  rewrite filter_cons_False; [by rewrite Keep|]. rewrite M. set_solver.
Qed.
Lemma metas_of_other key a C : (∀ kv, C !! a = Some kv → kv.1 ≠ key) → metas_of key (delete a C) ≡ₚ metas_of key C.
Proof.
  intros N. destruct (C !! a) as [[k v]|] eqn:M; [|by rewrite delete_id]. rewrite <-(insert_delete_id C a (k, v) M) at 2.
  rewrite metas_of_insert by by rewrite lookup_delete_eq. rewrite decide_False; [done|]. by apply (N (k, v)).
Qed.
Lemma metas_of_put key a k v C :
  metas_of key (<[a := (k, v)]> C) ≡ₚ (if decide (k = key) then v :: metas_of key (delete a C) else metas_of key (delete a C)).
Proof. rewrite <-insert_delete_eq. apply metas_of_insert. by rewrite lookup_delete_eq. Qed.

(** A client that holds those contents. *)
Definition Rep (c : Client) (C : Contents) : Prop :=
  bt_wf c ∧ ∀ key, bt_get key c ≠ Some [] ∧ default [] (bt_get key c) ≡ₚ metas_of key C.
Lemma rep_level c c' C : Rep c C → Rep c' C → level c c'.
Proof.
  intros [_ R] [_ R'] key. destruct (R key) as [N M], (R' key) as [N' M'].
  destruct (bt_get key c) as [l|], (bt_get key c') as [l'|]; cbn in M, M'; [by rewrite M, M'| | |done].
  - rewrite <-M' in M. by apply Permutation_nil_r in M as ->.
  - rewrite <-M in M'. by apply Permutation_nil_r in M' as ->.
Qed.
Definition one_entry (m : Meta) : bytes * Value := (m_key m, JObj [(str "metas", JArr [meta_json m])]).
Definition meta_ok (m : Meta) : Prop := meta_ref (meta_json m) = Some (m_ref m).
Lemma client_joined c C m :
  Rep c C → refs_ok C → meta_ok m → (∀ kv, C !! m_ref m = Some kv → kv.1 = m_key m) →
  Rep (client_join c (one_entry m)) (<[m_ref m := (m_key m, meta_json m)]> C).
Proof.
  intros [W R] Ok Om Ks. unfold client_join, one_entry. cbn [fst snd]. change (entry_metas (JObj [(str "metas", JArr [meta_json m])])) with [meta_json m].
  cbn [fmap list_fmap]. rewrite Om. split; [by apply bt_insert_wf|]. intros key. rewrite bt_get_insert by done. destruct (R key) as [N M].
  destruct (oeqb key (m_key m)) eqn:E.
  - apply oeqb_spec in E as ->. split; [by intros [= []%app_nil]|]. cbn [default]. rewrite metas_of_put, decide_True by done. rewrite metas_of_delete by done.
    rewrite Permutation_app_comm. cbn. constructor. unfold without_refs. by rewrite M.
  - split; [done|]. assert (Nk : m_key m ≠ key) by (intros <-; by rewrite oeqb_refl in E). rewrite metas_of_put, decide_False by done.
    rewrite metas_of_other; [done|]. intros kv Hk%Ks. congruence.
Qed.
Lemma client_left c C m :
  Rep c C → refs_ok C → meta_ok m → (∀ kv, C !! m_ref m = Some kv → kv.1 = m_key m) →
  Rep (client_leave c (one_entry m)) (delete (m_ref m) C).
Proof.
  intros [W R] Ok Om Ks. unfold client_leave, one_entry. cbn [fst snd]. change (entry_metas (JObj [(str "metas", JArr [meta_json m])])) with [meta_json m].
  cbn [fmap list_fmap]. rewrite Om. destruct (R (m_key m)) as [N M].
  assert (Oth : ∀ key, key ≠ m_key m → metas_of key (delete (m_ref m) C) ≡ₚ metas_of key C).
  { intros key Nk. apply metas_of_other. intros kv Hk%Ks. congruence. }
  assert (Own : metas_of (m_key m) (delete (m_ref m) C) ≡ₚ without_refs [Some (m_ref m)] (default [] (bt_get (m_key m) c))).
  { rewrite metas_of_delete by done. unfold without_refs. by rewrite M. }
  assert (Ne : ∀ key, oeqb key (m_key m) = false → key ≠ m_key m) by (intros key E ->; by rewrite oeqb_refl in E).
  destruct (bt_get (m_key m) c) as [metas|] eqn:B.
  - change (default [] (Some metas)) with metas in Own. destruct (without_refs [Some (m_ref m)] metas) as [|x l] eqn:F.
    + split; [by apply bt_remove_wf|]. intros key. rewrite bt_get_remove by done. destruct (oeqb key (m_key m)) eqn:E.
      * apply oeqb_spec in E as ->. split; [done|]. by rewrite Own.
      * rewrite Oth by by apply Ne. apply R.
    + split; [by apply bt_insert_wf|]. intros key. rewrite bt_get_insert by done. destruct (oeqb key (m_key m)) eqn:E.
      * apply oeqb_spec in E as ->. split; [done|]. by rewrite Own.
      * rewrite Oth by by apply Ne. apply R.
  - split; [done|]. intros key. destruct (decide (key = m_key m)) as [->|Nk]; [rewrite B; split; [done|]; by rewrite Own|].
    rewrite Oth by done. apply R.
Qed.

(** ** Diffs on contents *)
Abbreviation Change := (option Meta * option Meta)%type.
Definition kv_of (m : Meta) : bytes * Value := (m_key m, meta_json m).
Definition ap (C : Contents) (d : Change) : Contents :=
  let C := match d.1 with Some m => <[m_ref m := kv_of m]> C | None => C end in
  match d.2 with Some m => delete (m_ref m) C | None => C end.
(** What a change says about a reference, if anything. *)
Definition says (d : Change) (a : bytes) : option (option (bytes * Value)) :=
  match d.2 with
  | Some m => if decide (m_ref m = a) then Some None
              else match d.1 with Some m => if decide (m_ref m = a) then Some (Some (kv_of m)) else None | None => None end
  | None => match d.1 with Some m => if decide (m_ref m = a) then Some (Some (kv_of m)) else None | None => None end
  end.
Fixpoint says_last (ds : list Change) (a : bytes) : option (option (bytes * Value)) :=
  match ds with
  | [] => None
  | d :: ds => match says_last ds a with Some x => Some x | None => says d a end
  end.
Lemma says_last_app ds ds' a : says_last (ds ++ ds') a = match says_last ds' a with Some x => Some x | None => says_last ds a end.
Proof. induction ds as [|d ds IH]; cbn; [by destruct (says_last ds' a)|]. rewrite IH. by destruct (says_last ds' a). Qed.
Lemma ap_lookup C d a : ap C d !! a = match says d a with Some x => x | None => C !! a end.
Proof.
  unfold ap, says. destruct d as [[j|] [l|]]; cbn [fst snd]; repeat (destruct (decide _) as [?|?]; subst);
    rewrite ?lookup_delete_eq, ?lookup_delete_ne, ?lookup_insert_eq, ?lookup_insert_ne by done; done.
Qed.
Lemma fold_lookup ds C a : foldl ap C ds !! a = match says_last ds a with Some x => x | None => C !! a end.
Proof.
  revert C. induction ds as [|d ds IH]; intros C; cbn; [done|]. rewrite IH. destruct (says_last ds a); [done|]. apply ap_lookup.
Qed.

(** ** Who a reference belongs to *)
(** Every meta ever tracked on a topic, by its reference. *)
Abbreviation Issued := (gmap bytes (Z * Meta)).
Definition issued_ok (G : Issued) : Prop := ∀ a who m, G !! a = Some (who, m) → m_ref m = a ∧ meta_ok m.
Definition known (G : Issued) (m : Meta) : Prop := ∃ who, G !! m_ref m = Some (who, m).
Definition contents_ok (G : Issued) (C : Contents) : Prop := ∀ a kv, C !! a = Some kv → ∃ who m, G !! a = Some (who, m) ∧ kv = kv_of m.
Definition change_known (G : Issued) (d : Change) : Prop := (∀ m, d.1 = Some m → known G m) ∧ (∀ m, d.2 = Some m → known G m).
Lemma contents_refs G C : issued_ok G → contents_ok G C → refs_ok C.
Proof. intros Go Co a kv (who & m & M & ->)%Co. by apply Go in M as [<- ?]. Qed.
Lemma contents_key G C m kv : contents_ok G C → known G m → C !! m_ref m = Some kv → kv = kv_of m.
Proof. intros Co [who K] (who' & m' & M & ->)%Co. congruence. Qed.
Lemma ap_rep G c C d :
  issued_ok G → contents_ok G C → change_known G d → Rep c C →
  Rep (client_apply c (diff_json d.1 d.2)) (ap C d) ∧ contents_ok G (ap C d).
Proof.
  intros Go Co [Kj Kl] R. destruct d as [j l]. cbn [fst snd] in *. unfold client_apply, ap. cbn [fst snd].
  change (fields_of (jget (diff_json j l) (str "joins"))) with (fields_of (Some (diff_entry j))).
  change (fields_of (jget (diff_json j l) (str "leaves"))) with (fields_of (Some (diff_entry l))).
  assert (J : Rep (foldl client_join c (fields_of (Some (diff_entry j)))) (match j with Some m => <[m_ref m := kv_of m]> C | None => C end) ∧
    contents_ok G (match j with Some m => <[m_ref m := kv_of m]> C | None => C end)).
  { destruct j as [m|]; [|done]. destruct (Kj m eq_refl) as [who K]. pose proof (Go _ _ _ K) as [_ Om]. split.
    - apply (client_joined c C m R (contents_refs _ _ Go Co) Om). intros kv M. by rewrite (contents_key G C m kv Co (ex_intro _ _ K) M).
    - intros a kv [[<- <-]|[_ M]]%lookup_insert_Some; [eauto|by apply Co]. }
  destruct J as [R' Co']. set (C' := match j with Some m => _ | None => C end) in *. destruct l as [m|]; [|done].
  destruct (Kl m eq_refl) as [who K]. pose proof (Go _ _ _ K) as [_ Om]. split.
  - apply (client_left _ C' m R' (contents_refs _ _ Go Co') Om). intros kv M. by rewrite (contents_key G C' m kv Co' (ex_intro _ _ K) M).
  - intros a kv [_ M]%lookup_delete_Some. by apply Co'.
Qed.
Lemma fold_rep G c C ds :
  issued_ok G → contents_ok G C → Forall (change_known G) ds → Rep c C →
  Rep (foldl (λ c d, client_apply c (diff_json d.1 d.2)) c ds) (foldl ap C ds).
Proof.
  intros Go Co F. revert c C Co. induction F as [|d ds K F IH]; intros c C Co R; [done|]. cbn [foldl].
  destruct (ap_rep G c C d Go Co K R) as [R' Co']. by apply IH.
Qed.

(** ** The state a client is sent *)
Definition contents (on_topic : list (Z * Meta)) : Contents := list_to_map ((λ e, (m_ref e.2, kv_of e.2)) <$> on_topic).
Definition owned (G : Issued) (on_topic : list (Z * Meta)) : Prop := bt_wf on_topic ∧ ∀ who m, (who, m) ∈ on_topic → G !! m_ref m = Some (who, m).
Lemma owned_tail G e l : owned G (e :: l) → owned G l.
Proof. intros [[_ W] F]. split; [done|]. intros who m ?. apply F. by right. Qed.
Lemma owned_nodup G l : owned G l → NoDup (m_ref <$> l.*2).
Proof.
  induction l as [|[who m] l IH]; intros O; [constructor|]. cbn. constructor; [|by eapply IH, owned_tail].
  rewrite list_elem_of_fmap. intros (m' & E & ((who' & m'') & -> & M)%list_elem_of_fmap). cbn in E. destruct O as [[Lt _] F].
  pose proof (F who m (list_elem_of_here _ _)) as G1. pose proof (F who' m'' (list_elem_of_further _ _ _ M)) as G2. rewrite <-E, G1 in G2.
  injection G2 as <- <-. apply Lt in M. by apply olt_irrefl in M.
Qed.
Lemma contents_lookup G l a kv : owned G l → contents l !! a = Some kv ↔ ∃ who m, (who, m) ∈ l ∧ m_ref m = a ∧ kv = kv_of m.
Proof.
  intros O. unfold contents. rewrite <-elem_of_list_to_map.
  - rewrite list_elem_of_fmap. split; [intros ([who m] & [= -> ->] & M); eauto|]. intros (who & m & M & <- & ->). by exists (who, m).
  - replace (((λ e, (m_ref e.2, kv_of e.2)) <$> l).*1) with (m_ref <$> l.*2) by (clear O; induction l; cbn; congruence). by eapply owned_nodup.
Qed.
Lemma contents_issued G l : owned G l → contents_ok G (contents l).
Proof. intros O a kv (who & m & M & <- & ->)%(contents_lookup G l a kv O). exists who, m. split; [by apply O|done]. Qed.
(** One key's metas in the order of the sockets. *)
Definition of_key (key : bytes) (ms : list Meta) : list Value := meta_json <$> filter (λ m, m_key m = key) ms.
Lemma state_fields ms :
  bt_wf (foldl state_add [] ms) ∧
  ∀ key, bt_get key (foldl state_add [] ms) = match of_key key ms with [] => None | l => Some (JObj [(str "metas", JArr l)]) end.
Proof.
  induction ms as [|m ms [W IH]] using rev_ind; [done|]. rewrite foldl_app. cbn [foldl]. unfold state_add at 1 3. split; [by apply bt_insert_wf|].
  intros key. rewrite bt_get_insert by done. unfold of_key. rewrite filter_app, fmap_app. fold (of_key key ms). destruct (oeqb key (m_key m)) eqn:E.
  - apply oeqb_spec in E as ->. rewrite filter_cons_True by done. rewrite IH. by destruct (of_key (m_key m) ms).
  - rewrite filter_cons_False by (intros <-; by rewrite oeqb_refl in E). cbn. rewrite app_nil_r. apply IH.
Qed.
Lemma metas_of_contents G l key : owned G l → metas_of key (contents l) ≡ₚ of_key key l.*2.
Proof.
  induction l as [|[who m] l IH]; intros O; [done|]. pose proof (owned_nodup G _ O) as N. cbn in N. apply NoDup_cons in N as [Nm _].
  change (contents ((who, m) :: l)) with (<[m_ref m := (m_key m, meta_json m)]> (contents l)). rewrite metas_of_insert.
  - unfold of_key. rewrite fmap_cons, filter_cons. cbn [fst snd]. fold (of_key key l.*2). destruct (decide (m_key m = key)); [cbn; constructor|]; by apply IH, (owned_tail G (who, m)).
  - destruct (contents l !! m_ref m) as [kv|] eqn:M; [|done]. apply (contents_lookup G) in M as (who' & m' & M & E & _); [|by eapply owned_tail].
    destruct Nm. rewrite <-E. apply list_elem_of_fmap_2. by apply (list_elem_of_fmap_2 snd) in M.
Qed.
Lemma client_of_get st key : bt_get key (client_of (JObj st)) = entry_metas <$> bt_get key st.
Proof. induction st as [|[k v] st IH]; [done|]. cbn. destruct (oeqb key k); [done|]. apply IH. Qed.
Lemma client_of_wf st : bt_wf st → bt_wf (client_of (JObj st)).
Proof.
  induction st as [|[k v] st IH]; [done|]. intros [L W]. split; [|by apply IH]. intros e (e' & -> & M)%list_elem_of_fmap. by apply (L e').
Qed.
Lemma state_rep G l : owned G l → Rep (client_of (JObj (foldl state_add [] l.*2))) (contents l).
Proof.
  intros O. destruct (state_fields l.*2) as [W F]. split; [by apply client_of_wf|]. intros key. rewrite client_of_get, F.
  rewrite (metas_of_contents G) by done. by destruct (of_key key l.*2).
Qed.

(** ** Sockets at work *)
Definition payload_wf (v : Value) : Prop := match v with JObj fields => bt_wf fields | _ => True end.
Lemma meta_json_ok m : payload_wf (m_payload m) → meta_ok m.
Proof.
  intros W. unfold meta_ok, meta_ref, meta_json. cbn [jget]. rewrite bt_get_insert by by destruct (m_payload m). by rewrite oeqb_refl.
Qed.

Section worlds.
Context {P : Type} `{PipeOk P}.
(** The hub, and the changes made under its lock whose diff is not yet out. *)
Record World := mkWorld { w_hub : Hub P; w_unsent : gmap Z (bytes * Change) }.
(** What can happen while a receiver of [held] is kept.  A socket tells a
    topic of one change before it makes the next, 2^64 tracks do not
    happen, and a topic is released when no socket is in the middle of a
    change to it, since each holds a receiver then. *)
Inductive hop (held : option bytes) : World → World → Prop :=
  | hop_track h u who topic key payload h' m replaced :
      u !! who = None → h_refs h < u64_max → payload_wf payload →
      track_in who topic key payload h = (h', (m, replaced)) →
      hop held (mkWorld h u) (mkWorld h' (<[who := (topic, (Some m, replaced))]> u))
  | hop_untrack h u who topic h' m :
      u !! who = None → untrack_in who topic h = (h', Some m) →
      hop held (mkWorld h u) (mkWorld h' (<[who := (topic, (None, Some m))]> u))
  | hop_untracked h u who topic h' : untrack_in who topic h = (h', None) → hop held (mkWorld h u) (mkWorld h' u)
  | hop_diff h u who topic d :
      u !! who = Some (topic, d) → hop held (mkWorld h u) (mkWorld (diff who topic d.1 d.2 h) (delete who u))
  | hop_socket h u : hop held (mkWorld h u) (mkWorld (socket h).1 u)
  | hop_carry h u topic : hop held (mkWorld h u) (mkWorld (carry topic h) u)
  | hop_fan h u from f : hop held (mkWorld h u) (mkWorld (fan from f h).1 u)
  | hop_released h u topic : (∀ who d, u !! who ≠ Some (topic, d)) → hop held (mkWorld h u) (mkWorld (released topic h) u)
  | hop_gone h u topic p :
      h_topics h !! topic = Some p → (if decide (held = Some topic) then 1 else 0) < receiver_count p →
      hop held (mkWorld h u) (mkWorld (set_topics <[topic := pipe_drop p]> h) u).
Definition world_new : World := mkWorld hub_new ∅.

Variable T : bytes.
Definition there_now (w : World) : list (Z * Meta) := default [] (h_presence (w_hub w) !! T).
Definition pending (w : World) (who : Z) (d : Change) : Prop := w_unsent w !! who = Some (T, d).
Definition mentioned (w : World) (a : bytes) : Prop := ∃ who d, pending w who d ∧ says d a ≠ None.
Record Good (G : Issued) (w : World) : Prop := {
  gd_issued : issued_ok G;
  gd_fresh : ∀ a e, G !! a = Some e → ∃ n, a = fmt_dec 1 n ∧ 0 ≤ n < h_refs (w_hub w);
  gd_refs : 0 ≤ h_refs (w_hub w);
  gd_owned : owned G (there_now w);
  gd_joined : ∀ who d m, pending w who d → d.1 = Some m → G !! m_ref m = Some (who, m) ∧ (who, m) ∈ there_now w;
  gd_left : ∀ who d m, pending w who d → d.2 = Some m → G !! m_ref m = Some (who, m) ∧ (who, m) ∉ there_now w
}.
Lemma good_new : Good ∅ world_new.
Proof.
  split; cbn; try done; intros; try (by simplify_map_eq). unfold there_now. cbn. split; [done|]. by intros who m []%elem_of_nil.
Qed.
Lemma good_says G w who d a x : Good G w → pending w who d → says d a = Some x → contents (there_now w) !! a = x.
Proof.
  intros Gd Pe Sa. pose proof (gd_owned _ _ Gd) as O. pose proof (gd_joined _ _ Gd who d) as J. pose proof (gd_left _ _ Gd who d) as L.
  assert (In : ∀ m, d.1 = Some m → contents (there_now w) !! m_ref m = Some (kv_of m)).
  { intros m Hm. destruct (J m Pe Hm) as [_ M]. apply (contents_lookup G); [done|]. eauto. }
  assert (Out : ∀ m, d.2 = Some m → contents (there_now w) !! m_ref m = None).
  { intros m Hm. destruct (L m Pe Hm) as [K N]. destruct (contents (there_now w) !! m_ref m) as [kv|] eqn:M; [|done].
    apply (contents_lookup G) in M as (who' & m' & M & E & _); [|done]. pose proof (proj2 O _ _ M) as K'. rewrite E, K in K'. by injection K' as <- <-. }
  unfold says in Sa. destruct d as [[j|] [l|]]; cbn [fst snd] in *; repeat (destruct (decide _) as [?|?]; subst); try done; injection Sa as <-; auto.
Qed.

(** A stretch of time, and the changes whose diffs went out in it. *)
Definition payloads (l : list Delivery) : list Value := omap (λ d : Delivery, match d.2 with Diff _ payload => Some payload | _ => None end) l.
Record Watch (w w' : World) (ds : list Change) : Prop := {
  wt_pipe : ∀ p, h_topics (w_hub w) !! T = Some p → 0 < receiver_count p →
    ∃ p' fresh, h_topics (w_hub w') !! T = Some p' ∧ 0 < receiver_count p' ∧ heard p' = heard p ++ fresh ∧
      payloads fresh = (λ d : Change, diff_json d.1 d.2) <$> ds;
  wt_sent : ∀ a, mentioned w a → says_last ds a ≠ None ∨ mentioned w' a;
  wt_said : ∀ a x, ¬ mentioned w' a → says_last ds a = Some x → contents (there_now w') !! a = x;
  wt_kept : ∀ a, ¬ mentioned w' a → says_last ds a = None → contents (there_now w') !! a = contents (there_now w) !! a
}.
Lemma payloads_app a b : payloads (a ++ b) = payloads a ++ payloads b.
Proof. apply omap_app. Qed.
Lemma watch_refl w : Watch w w [].
Proof. split; try done; [|by right]. intros p Hp Lv. exists p, []. by rewrite app_nil_r. Qed.
Lemma watch_trans w w1 w2 ds ds' : Watch w w1 ds → Watch w1 w2 ds' → Watch w w2 (ds ++ ds').
Proof.
  intros [P1 S1 D1 K1] [P2 S2 D2 K2]. split.
  - intros p Hp Lv. destruct (P1 p Hp Lv) as (p1 & f1 & Hp1 & Lv1 & E1 & F1). destruct (P2 p1 Hp1 Lv1) as (p2 & f2 & Hp2 & Lv2 & E2 & F2).
    exists p2, (f1 ++ f2). rewrite E2, E1, payloads_app, F1, F2, fmap_app. by rewrite app_assoc.
  - intros a M. rewrite says_last_app. destruct (S1 a M) as [N|M1]; [left; by destruct (says_last ds' a)|].
    destruct (S2 a M1) as [N|?]; [left; by destruct (says_last ds' a)|by right].
  - intros a x N. rewrite says_last_app. destruct (says_last ds' a) eqn:E; [intros [= ->]; by apply D2|]. intros Sa. rewrite K2 by done. apply D1; [|done].
    intros M. by destruct (S2 a M).
  - intros a N. rewrite says_last_app. destruct (says_last ds' a) eqn:E; [done|]. intros Sa. rewrite K2 by done. apply K1; [|done].
    intros M. by destruct (S2 a M).
Qed.

(** Steps that leave the topic as it is. *)
Definition same_pipe (w w' : World) : Prop :=
  ∀ p, h_topics (w_hub w) !! T = Some p → 0 < receiver_count p →
    ∃ p' fresh, h_topics (w_hub w') !! T = Some p' ∧ 0 < receiver_count p' ∧ heard p' = heard p ++ fresh ∧ payloads fresh = [].
Lemma same_pipe_eq w w' : h_topics (w_hub w') !! T = h_topics (w_hub w) !! T → same_pipe w w'.
Proof. intros E p Hp Lv. exists p, []. by rewrite E, app_nil_r. Qed.
Lemma watch_calm w w' :
  there_now w' = there_now w → (∀ who d, pending w who d → pending w' who d) → same_pipe w w' → Watch w w' [].
Proof.
  intros Ep Pe Sp. split; [exact Sp| |done|].
  - intros a (who & d & M & Sa). right. exists who, d. auto.
  - intros a _ _. by rewrite Ep.
Qed.
Lemma good_calm G w w' :
  Good G w → there_now w' = there_now w → (∀ who d, pending w' who d → pending w who d) → h_refs (w_hub w) ≤ h_refs (w_hub w') → Good G w'.
Proof.
  intros [] Ep Pe Le. split; rewrite ?Ep; try done; eauto; [|lia]. intros a e Ha. destruct (gd_fresh0 a e Ha) as (n & -> & ?). exists n. split; [done|lia].
Qed.
Lemma contents_same G G' l l' a :
  owned G l → owned G' l' → (∀ x y, m_ref y = a → (x, y) ∈ l ↔ (x, y) ∈ l') → contents l !! a = contents l' !! a.
Proof.
  intros O O' E. apply option_eq. intros kv. rewrite (contents_lookup G), (contents_lookup G') by done.
  split; intros (x & y & M & Ea & Ek); exists x, y; (split; [by apply E|done]).
Qed.

(** A track. *)
Lemma insert_elem (who : Z) (m : Meta) l x y : bt_wf l → (x, y) ∈ bt_insert who m l ↔ (x = who ∧ y = m) ∨ (x ≠ who ∧ (x, y) ∈ l).
Proof.
  intros W. rewrite <-(bt_get_elem x y (bt_insert who m l)) by by apply bt_insert_wf. rewrite <-(bt_get_elem x y l) by done. rewrite bt_get_insert by done. destruct (oeqb x who) eqn:E.
  - apply oeqb_spec in E as ->. naive_solver.
  - assert (x ≠ who) by (intros ->; by rewrite oeqb_refl in E). naive_solver.
Qed.
Lemma remove_elem (who : Z) (l : list (Z * Meta)) x y : bt_wf l → (x, y) ∈ bt_remove who l ↔ x ≠ who ∧ (x, y) ∈ l.
Proof.
  intros W. rewrite <-(bt_get_elem x y (bt_remove who l)) by by apply bt_remove_wf. rewrite <-(bt_get_elem x y l) by done. rewrite bt_get_remove by done. destruct (oeqb x who) eqn:E.
  - apply oeqb_spec in E as ->. naive_solver.
  - assert (x ≠ who) by (intros ->; by rewrite oeqb_refl in E). naive_solver.
Qed.
Lemma get_pres (who : Z) (l : list (Z * Meta)) y : bt_wf l → (who, y) ∈ l → bt_get who l = Some y.
Proof. intros W M. by apply bt_get_elem. Qed.

(** A socket changes its presence on the topic to [l'], with a change that
    covers the references that came and went. *)
Lemma change_good G G' h u h' who d :
  Good G (mkWorld h u) → u !! who = None → G ⊆ G' → issued_ok G' →
  (∀ a e, G' !! a = Some e → ∃ n, a = fmt_dec 1 n ∧ 0 ≤ n < h_refs h') → 0 ≤ h_refs h' →
  owned G' (there_now (mkWorld h' u)) →
  (∀ x y, x ≠ who → (x, y) ∈ there_now (mkWorld h' u) ↔ (x, y) ∈ there_now (mkWorld h u)) →
  (∀ m, d.1 = Some m → G' !! m_ref m = Some (who, m) ∧ (who, m) ∈ there_now (mkWorld h' u)) →
  (∀ m, d.2 = Some m → G' !! m_ref m = Some (who, m) ∧ (who, m) ∉ there_now (mkWorld h' u)) →
  Good G' (mkWorld h' (<[who := (T, d)]> u)).
Proof.
  intros Gd Nu Sub Ig Fr Rf O Oth Dj Dl.
  assert (Pe : ∀ x e, pending (mkWorld h' (<[who := (T, d)]> u)) x e → (x = who ∧ e = d) ∨ (x ≠ who ∧ pending (mkWorld h u) x e)).
  { intros x e. unfold pending. cbn. intros [[<- [= <-]]|[? ?]]%lookup_insert_Some; [by left|by right]. }
  split; try done.
  - intros x e m [[-> ->]|[Nx M]]%Pe Hm; [by apply Dj|]. destruct (gd_joined _ _ Gd x e m M Hm) as [K I].
    split; [by eapply lookup_weaken|]. by apply Oth.
  - intros x e m [[-> ->]|[Nx M]]%Pe Hm; [by apply Dl|]. destruct (gd_left _ _ Gd x e m M Hm) as [K I].
    split; [by eapply lookup_weaken|]. by rewrite Oth.
Qed.
Lemma change_watch G G' h u h' who d :
  Good G (mkWorld h u) → u !! who = None → owned G' (there_now (mkWorld h' u)) → h_topics h' = h_topics h →
  (∀ x y, says d (m_ref y) = None → (x, y) ∈ there_now (mkWorld h' u) ↔ (x, y) ∈ there_now (mkWorld h u)) →
  Watch (mkWorld h u) (mkWorld h' (<[who := (T, d)]> u)) [].
Proof.
  intros Gd Nu O Et Same. split; [apply same_pipe_eq; cbn; by rewrite Et| |done|].
  - intros a (x & e & M & Sa). right. exists x, e. split; [|done]. unfold pending in *. cbn in *. rewrite lookup_insert_ne; [done|congruence].
  - intros a N _. eapply contents_same; [exact O|exact (gd_owned _ _ Gd)|]. intros x y <-. apply Same. destruct (says d (m_ref y)) eqn:Sa; [|done].
    destruct N. exists who, d. split; [|congruence]. unfold pending. cbn. by rewrite lookup_insert_eq.
Qed.

(** What a step comes to: more references issued, the invariant again, and a
    stretch of one step where a receiver of the topic is held. *)
Definition live (w : World) : Prop := ∃ p, h_topics (w_hub w) !! T = Some p ∧ 0 < receiver_count p.
Definition stepped (held : option bytes) (G : Issued) (w w' : World) : Prop :=
  ∃ G' ds, G ⊆ G' ∧ Good G' w' ∧ Forall (change_known G') ds ∧ (held = Some T → live w → Watch w w' ds).
Lemma stepped_calm held G w w' :
  Good G w → there_now w' = there_now w → (∀ who d, pending w' who d ↔ pending w who d) → h_refs (w_hub w) ≤ h_refs (w_hub w') →
  (held = Some T → same_pipe w w') → stepped held G w w'.
Proof.
  intros Gd Ep Pe Le Sp. exists G, []. split; [done|]. split; [eapply good_calm; [exact Gd|done|by intros ???%Pe|done]|]. split; [constructor|].
  intros Hh _. apply watch_calm; [done|by intros ???%Pe|by apply Sp].
Qed.
Lemma pending_other h h' u who topic d x e :
  topic ≠ T → u !! who = None → pending (mkWorld h' (<[who := (topic, d)]> u)) x e ↔ pending (mkWorld h u) x e.
Proof.
  intros Nt Nu. unfold pending. cbn. rewrite lookup_insert_Some. split; [intros [[_ [= ? _]]|[_ ?]]; done|]. intros M. right. split; [congruence|done].
Qed.
Lemma refs_up (h : Hub P) : 0 ≤ h_refs h → h_refs h < u64_max → (h_refs h + 1) mod 2 ^ 64 = h_refs h + 1.
Proof. intros. apply Z.mod_small. unfold u64_max in *. lia. Qed.
Lemma fresh_ref G h u : Good G (mkWorld h u) → G !! fmt_dec 1 (h_refs h) = None.
Proof.
  intros Gd. destruct (G !! fmt_dec 1 (h_refs h)) as [e|] eqn:E; [|done]. destruct (gd_fresh _ _ Gd _ _ E) as (n & Eq & L). cbn in L.
  apply fmt_dec_inj in Eq; [lia|apply (gd_refs _ _ Gd)|lia].
Qed.
Lemma track_stepped held G h u who key payload h' m replaced :
  Good G (mkWorld h u) → u !! who = None → h_refs h < u64_max → payload_wf payload →
  track_in who T key payload h = (h', (m, replaced)) →
  stepped held G (mkWorld h u) (mkWorld h' (<[who := (T, (Some m, replaced))]> u)).
Proof.
  intros Gd Nu Lt Pw. unfold track_in. intros [= <- <- <-]. set (m := mkMeta _ _ payload). pose proof (fresh_ref _ _ _ Gd) as Fr.
  change (fmt_dec 1 (h_refs h)) with (m_ref m) in Fr. pose proof (gd_refs _ _ Gd) as Rf. cbn in Rf. pose proof (gd_owned _ _ Gd) as [W Ow].
  change (default [] (h_presence h !! T)) with (there_now (mkWorld h u)). set (l := there_now (mkWorld h u)) in *.
  set (h' := mkHub _ _ _ _). assert (El : ∀ u, there_now (mkWorld h' u) = bt_insert who m l) by (intros u'; unfold there_now, h'; cbn; by rewrite lookup_insert_eq).
  assert (Sub : G ⊆ <[m_ref m := (who, m)]> G) by by apply insert_subseteq.
  assert (O : owned (<[m_ref m := (who, m)]> G) (there_now (mkWorld h' u))).
  { rewrite El. split; [by apply bt_insert_wf|]. intros x y [[-> ->]|[_ M]]%insert_elem; [by rewrite lookup_insert_eq| |done]. eapply lookup_weaken; [by apply Ow|done]. }
  assert (Rep : ∀ m0, bt_get who l = Some m0 → G !! m_ref m0 = Some (who, m0) ∧ m0 ≠ m).
  { intros m0 M%bt_get_elem; [|done]. apply Ow in M. split; [done|]. intros ->. congruence. }
  exists (<[m_ref m := (who, m)]> G), []. split; [done|]. split; [|split; [constructor|]; intros _ _].
  - apply (change_good G _ h u); [done|done|done| | | |done| | |].
    + intros a x y [[<- [= <- <-]]|[_ M]]%lookup_insert_Some; [split; [done|by apply meta_json_ok]|by eapply (gd_issued _ _ Gd)].
    + unfold h'. cbn [h_refs]. rewrite refs_up by done. intros a e [[<- _]|[_ M]]%lookup_insert_Some; [exists (h_refs h); split; [done|lia]|].
      destruct (gd_fresh _ _ Gd a e M) as (n & -> & L). cbn in L. exists n. split; [done|lia].
    + unfold h'. cbn [h_refs]. rewrite refs_up by done. lia.
    + intros x y Nx. rewrite El. rewrite insert_elem by done. naive_solver.
    + cbn [fst]. intros m1 [= <-]. split; [by rewrite lookup_insert_eq|]. rewrite El. apply insert_elem; [done|]. by left.
    + cbn [snd]. intros m0 M. apply Rep in M as [K N]. split; [by eapply lookup_weaken|]. rewrite El. rewrite insert_elem by done. naive_solver.
  - apply (change_watch G _ h u _ _ _ Gd Nu O); [done|]. intros x y Sa. rewrite El. rewrite insert_elem by done. unfold says in Sa. cbn [fst snd] in Sa. split.
    + intros [[-> ->]|[_ M]]; [|done]. destruct (bt_get who l) as [m0|]; repeat (destruct (decide _) as [?|?]); done.
    + intros M. destruct (decide (x = who)) as [->|Nx]; [|by right]. rewrite (get_pres who l y W M) in Sa. by destruct (decide (m_ref y = m_ref y)).
Qed.
Lemma untrack_stepped held G h u who h' m :
  Good G (mkWorld h u) → u !! who = None → untrack_in who T h = (h', Some m) →
  stepped held G (mkWorld h u) (mkWorld h' (<[who := (T, (None, Some m))]> u)).
Proof.
  intros Gd Nu Un. pose proof (gd_owned _ _ Gd) as [W Ow]. set (l := there_now (mkWorld h u)) in *.
  unfold untrack_in in Un. destruct (h_presence h !! T) as [l0|] eqn:El0; [|done]. assert (El : l0 = l) by (unfold l, there_now; cbn; by rewrite El0). subst l0.
  injection Un as Eh Em. assert (Eh' : h_topics h' = h_topics h ∧ h_refs h' = h_refs h) by by rewrite <-Eh.
  assert (El : ∀ u, there_now (mkWorld h' u) = bt_remove who l).
  { intros u'. unfold there_now. rewrite <-Eh. cbn. destruct (bt_remove who l); [by rewrite lookup_delete_eq|by rewrite lookup_insert_eq]. }
  clear Eh. destruct Eh' as [Et Er]. apply bt_get_elem in Em as Mm; [|done].
  assert (O : owned G (there_now (mkWorld h' u))).
  { rewrite El. split; [by apply bt_remove_wf|]. intros x y [_ M]%remove_elem; [by apply Ow|done]. }
  exists G, []. split; [done|]. split; [|split; [constructor|]; intros _ _].
  - apply (change_good G _ h u); [done|done|done| | | |done| |done|]; rewrite ?Er; try apply Gd.
    + intros x y Nx. rewrite El. rewrite remove_elem by done. naive_solver.
    + cbn [snd]. intros m1 [= <-]. split; [by apply Ow|]. rewrite El. rewrite remove_elem by done. naive_solver.
  - apply (change_watch G _ h u _ _ _ Gd Nu O); [done|]. intros x y Sa. rewrite El. rewrite remove_elem by done. split; [by intros [_ ?]|]. intros M. split; [|done].
    intros ->. apply get_pres in M; [|done]. pose proof (eq_trans (eq_sym Em) M) as [= ->]. unfold says in Sa. cbn [fst snd] in Sa. by destruct (decide (m_ref y = m_ref y)).
Qed.

(** Sending. *)
Lemma send_keeps from sent (h : Hub P) :
  h_presence (hub_send from sent h).1 = h_presence h ∧ h_refs (hub_send from sent h).1 = h_refs h ∧
  (sent_topic sent ≠ T → h_topics (hub_send from sent h).1 !! T = h_topics h !! T).
Proof.
  unfold hub_send. destruct (h_topics h !! sent_topic sent) as [p|]; [|done]. destruct (pipe_send p _) as [[p' n]|]; cbn; (split; [done|]); (split; [done|]); intros N.
  - by rewrite lookup_insert_ne.
  - by rewrite lookup_delete_ne.
Qed.
Lemma send_live from sent (h : Hub P) p :
  sent_topic sent = T → h_topics h !! T = Some p → 0 < receiver_count p →
  ∃ p', h_topics (hub_send from sent h).1 !! T = Some p' ∧ 0 < receiver_count p' ∧ heard p' = heard p ++ [(from, sent)].
Proof.
  intros Et Hp Lv. unfold hub_send. rewrite Et, Hp. destruct (pipe_send_heard p (from, sent) Lv) as (p' & -> & Eh & Ec).
  exists p'. cbn. rewrite lookup_insert_eq. split; [done|]. split; [lia|done].
Qed.
Lemma diff_stepped held G h u who d :
  Good G (mkWorld h u) → u !! who = Some (T, d) →
  stepped held G (mkWorld h u) (mkWorld (diff who T d.1 d.2 h) (delete who u)).
Proof.
  intros Gd Pe. destruct (send_keeps who (Diff T (diff_json d.1 d.2)) h) as (Ep & Er & _). set (w' := mkWorld (diff who T d.1 d.2 h) (delete who u)).
  assert (Pr : there_now w' = there_now (mkWorld h u)) by (unfold there_now, w'; cbn [w_hub]; unfold diff; by rewrite Ep).
  assert (Pd : ∀ x e, pending w' x e → pending (mkWorld h u) x e) by (intros x e; unfold pending; cbn; by intros [_ ?]%lookup_delete_Some).
  exists G, [d]. split; [done|]. split; [eapply good_calm; [exact Gd|done|exact Pd|unfold w', diff; cbn [w_hub]; lia]|]. split.
  { constructor; [|constructor]. split; intros m Hm; [destruct (gd_joined _ _ Gd who d m Pe Hm) as [K _]|destruct (gd_left _ _ Gd who d m Pe Hm) as [K _]]; by exists who. }
  intros _ _. split.
  - intros p Hp Lv. destruct (send_live who (Diff T (diff_json d.1 d.2)) h p eq_refl Hp Lv) as (p' & Hp' & Lv' & Eh). by exists p', [(who, Diff T (diff_json d.1 d.2))].
  - intros a (x & e & M & Sa). unfold pending in M. cbn in M. destruct (decide (x = who)) as [->|Nx].
    + left. cbn. congruence.
    + right. exists x, e. split; [|done]. unfold pending, w'. cbn. by rewrite lookup_delete_ne.
  - cbn [says_last]. intros a x _ Sa. rewrite Pr. by eapply good_says.
  - intros a _ _. by rewrite Pr.
Qed.
Lemma untracked_stepped held G h u who topic h' :
  Good G (mkWorld h u) → untrack_in who topic h = (h', None) → stepped held G (mkWorld h u) (mkWorld h' u).
Proof.
  intros Gd Un. unfold untrack_in in Un. destruct (h_presence h !! topic) as [l|] eqn:El; [|injection Un as <-; by apply stepped_calm; [..|intros _; apply same_pipe_eq]].
  injection Un as <- Em. apply stepped_calm; [done| |done|done|intros _; by apply same_pipe_eq].
  assert (Same : ∀ l : list (Z * Meta), bt_get who l = None → bt_remove who l = l).
  { clear. induction l as [|[k v] l IH]; cbn; [done|]. destruct (oeqb who k); [done|]. intros E. by rewrite IH. }
  unfold there_now. cbn. rewrite (Same l Em). destruct (decide (topic = T)) as [->|Nt].
  - rewrite El. destruct l; [by rewrite lookup_delete_eq|by rewrite lookup_insert_eq].
  - destruct l; [by rewrite lookup_delete_ne|by rewrite lookup_insert_ne].
Qed.
Lemma released_stepped held G h u topic :
  Good G (mkWorld h u) → (∀ who d, u !! who ≠ Some (topic, d)) → stepped held G (mkWorld h u) (mkWorld (released topic h) u).
Proof.
  intros Gd Nb. unfold released. destruct (h_topics h !! topic) as [p|] eqn:Hp; [|by apply stepped_calm; [..|intros _; apply same_pipe_eq]].
  destruct (Z.eqb_spec (receiver_count p) 0) as [E0|N0]; [|by apply stepped_calm; [..|intros _; apply same_pipe_eq]].
  set (w' := mkWorld (mkHub _ _ _ _) u). destruct (decide (topic = T)) as [->|Nt].
  - assert (Pr : there_now w' = []) by (unfold there_now; cbn; by rewrite lookup_delete_eq).
    assert (No : ∀ x e, ¬ pending w' x e) by (intros x e; unfold pending; apply Nb).
    exists G, []. split; [done|]. split; [|split; [constructor|]].
    + split; try apply Gd; [rewrite Pr; split; [done|by intros ?? []%elem_of_nil]|by intros ??? ?%No..].
    + intros _ (p' & Hp' & Lv). cbn in Hp'. rewrite Hp in Hp'. injection Hp' as <-. lia.
  - apply stepped_calm; [done|unfold there_now; cbn; by rewrite lookup_delete_ne|done|done|]. intros _. apply same_pipe_eq. cbn. by rewrite lookup_delete_ne.
Qed.
Lemma hop_stepped held G w w' : Good G w → hop held w w' → stepped held G w w'.
Proof.
  intros Gd. destruct 1 as [h u who topic key payload h' m replaced Nu Lt Pw Tr|h u who topic h' m Nu Un|h u who topic h' Un|h u who topic d Pe|h u|h u topic|h u from f|h u topic Nb|h u topic p Hp Lv].
  - destruct (decide (topic = T)) as [->|Nt]; [by eapply track_stepped|]. unfold track_in in Tr. injection Tr as <- <- <-. pose proof (gd_refs _ _ Gd) as Rf. cbn in Rf.
    apply stepped_calm; [done|unfold there_now; cbn; by rewrite lookup_insert_ne|by intros; apply pending_other|cbn [w_hub h_refs]; rewrite refs_up by done; lia|].
    intros _. by apply same_pipe_eq.
  - destruct (decide (topic = T)) as [->|Nt]; [by eapply untrack_stepped|]. unfold untrack_in in Un. destruct (h_presence h !! topic) as [l|]; [|done]. injection Un as <- _.
    apply stepped_calm; [done| |by intros; apply pending_other|done|intros _; by apply same_pipe_eq].
    unfold there_now. cbn. destruct (bt_remove who l); [by rewrite lookup_delete_ne|by rewrite lookup_insert_ne].
  - by eapply untracked_stepped.
  - destruct (decide (topic = T)) as [->|Nt]; [by apply diff_stepped|]. destruct (send_keeps who (Diff topic (diff_json d.1 d.2)) h) as (Ep & Er & Et).
    apply stepped_calm; [done|unfold there_now, diff; cbn [w_hub]; by rewrite Ep| |unfold diff; cbn [w_hub]; lia|intros _; apply same_pipe_eq; by apply Et].
    intros x e. unfold pending. cbn. rewrite lookup_delete_Some. split; [by intros [_ ?]|]. intros M. split; [congruence|done].
  - apply stepped_calm; [done..|intros _; by apply same_pipe_eq].
  - assert (Ep : h_presence (carry topic h) = h_presence h ∧ h_refs (carry topic h) = h_refs h) by (unfold carry; by destruct (h_topics h !! topic)).
    destruct Ep as [Ep Er]. apply stepped_calm; [done|unfold there_now; cbn [w_hub]; by rewrite Ep|done|cbn [w_hub]; lia|]. intros _. destruct (decide (topic = T)) as [->|Nt].
    + intros p Hp Lv. cbn in Hp. unfold carry. cbn [w_hub]. rewrite Hp. destruct (pipe_subscribe_heard p) as [Eh Ec]. exists (pipe_subscribe p), []. cbn. rewrite lookup_insert_eq, app_nil_r.
      split; [done|]. split; [lia|done].
    + apply same_pipe_eq. unfold carry. cbn. destruct (h_topics h !! topic); cbn; by rewrite lookup_insert_ne.
  - unfold fan. destruct (send_keeps from (Broadcast f) h) as (Ep & Er & Et). apply stepped_calm; [done|unfold there_now; cbn [w_hub]; by rewrite Ep|done|cbn [w_hub]; lia|]. intros _.
    destruct (decide (fo_topic f = T)) as [E|Nt]; [|by apply same_pipe_eq, Et]. intros p Hp Lv.
    destruct (send_live from (Broadcast f) h p E Hp Lv) as (p' & Hp' & Lv' & Eh). by exists p', [(from, Broadcast f)].
  - by apply released_stepped.
  - destruct (pipe_drop_heard p) as [Eh Ec]; [by destruct (decide _); lia|]. apply stepped_calm; [done..|]. intros ->. destruct (decide (topic = T)) as [->|Nt].
    + rewrite decide_True in Lv by done. intros p0 Hp0 _. cbn in Hp0. rewrite Hp in Hp0. injection Hp0 as <-. exists (pipe_drop p), []. cbn. rewrite lookup_insert_eq, app_nil_r.
      split; [done|]. split; [lia|done].
    + apply same_pipe_eq. cbn. by rewrite lookup_insert_ne.
Qed.

(** ** Stretches of time *)
Lemma known_more G G' d : G ⊆ G' → change_known G d → change_known G' d.
Proof. intros Sub [J L]. split; intros m Hm; [destruct (J m Hm) as [who K]|destruct (L m Hm) as [who K]]; exists who; by eapply lookup_weaken. Qed.
Lemma watch_live w w' ds : Watch w w' ds → live w → live w'.
Proof. intros [Pp _ _ _] (p & Hp & Lv). destruct (Pp p Hp Lv) as (p' & _ & Hp' & Lv' & _). by exists p'. Qed.
Lemma hops_stepped held G w w' : Good G w → rtc (hop held) w w' → stepped held G w w'.
Proof.
  intros Gd Hs. revert G Gd. induction Hs as [w|w w1 w2 H1 _ IH]; intros G Gd; [exists G, []; split_and!; [done|done|constructor|intros; apply watch_refl]|].
  destruct (hop_stepped _ _ _ _ Gd H1) as (G1 & ds1 & Sub1 & Gd1 & K1 & W1). destruct (IH G1 Gd1) as (G2 & ds2 & Sub2 & Gd2 & K2 & W2).
  exists G2, (ds1 ++ ds2). split; [by transitivity G1|]. split; [done|]. split.
  - apply Forall_app. split; [|done]. eapply Forall_impl; [exact K1|]. intros d. by apply known_more.
  - intros Hh Lv. specialize (W1 Hh Lv). eapply watch_trans; [exact W1|]. apply W2; [done|by eapply watch_live].
Qed.
Lemma apply_payloads c (ds : list Change) :
  foldl client_apply c ((λ d : Change, diff_json d.1 d.2) <$> ds) = foldl (λ c d, client_apply c (diff_json d.1 d.2)) c ds.
Proof. revert c. by induction ds as [|d ds IH]; intros c; [|apply IH]. Qed.
Lemma carry_live w : live (mkWorld (carry T (w_hub w)) (w_unsent w)).
Proof.
  unfold live, carry. cbn. destruct (h_topics (w_hub w) !! T) as [p|].
  - exists (pipe_subscribe p). destruct (pipe_subscribe_heard p) as [_ ->]. pose proof (pipe_count p). cbn. rewrite lookup_insert_eq. split; [done|lia].
  - exists pipe_new. destruct pipe_new_heard as [_ ->]. cbn. by rewrite lookup_insert_eq.
Qed.

(** The calls of the hub are their two halves, one after the other. *)
Lemma track_hops held h u who topic key payload :
  u !! who = None → h_refs h < u64_max → payload_wf payload →
  rtc (hop held) (mkWorld h u) (mkWorld (track who topic key payload h) u).
Proof.
  intros Nu Lt Pw. unfold track. destruct (track_in who topic key payload h) as [h' [m replaced]] eqn:Tr.
  eapply rtc_l; [by eapply hop_track|]. apply rtc_once. rewrite <-(delete_insert_id u who (topic, (Some m, replaced)) Nu) at 2.
  apply (hop_diff _ h' _ who topic (Some m, replaced)). by rewrite lookup_insert_eq.
Qed.
Lemma untrack_hops held h u who topic :
  u !! who = None → rtc (hop held) (mkWorld h u) (mkWorld (untrack who topic h) u).
Proof.
  intros Nu. unfold untrack. destruct (untrack_in who topic h) as [h' [m|]] eqn:Un; [|apply rtc_once; by eapply hop_untracked].
  eapply rtc_l; [by eapply hop_untrack|]. apply rtc_once. rewrite <-(delete_insert_id u who (topic, (None, Some m)) Nu) at 2.
  apply (hop_diff _ h' _ who topic (None, Some m)). by rewrite lookup_insert_eq.
Qed.

(** C24: presence stays level.  A client joins a topic of a hub that sockets
    have used in any way: from the moment its topic is carried it hears the
    diffs, at some later moment it is sent the state, and meanwhile and
    after sockets track, retrack and untrack, their diffs going out in any
    order the scheduler likes.  Whenever no diff is still on its way, the
    state it was sent with every diff it heard folded in, those from before
    the state included, is the state of the hub: the same keys, and under
    each key the same metas. *)
Theorem presence_stays_level (w0 w1 w2 : World) :
  rtc (hop None) world_new w0 →
  rtc (hop (Some T)) (mkWorld (carry T (w_hub w0)) (w_unsent w0)) w1 →
  rtc (hop (Some T)) w1 w2 →
  (∀ who d, w_unsent w2 !! who ≠ Some (T, d)) →
  ∃ p0 p2 fresh, h_topics (carry T (w_hub w0)) !! T = Some p0 ∧ h_topics (w_hub w2) !! T = Some p2 ∧ heard p2 = heard p0 ++ fresh ∧
    level (foldl client_apply (client_of (hub_state T (w_hub w1))) (payloads fresh)) (client_of (hub_state T (w_hub w2))).
Proof.
  intros H0' H1 H2 Quiet. destruct (hops_stepped None ∅ _ _ good_new H0') as (G0 & _ & _ & Gd0 & _ & _).
  destruct (hop_stepped (Some T) G0 w0 (mkWorld (carry T (w_hub w0)) (w_unsent w0)) Gd0) as (G0' & _ & _ & Gd0' & _ & _); [destruct w0; apply hop_carry|].
  destruct (hops_stepped _ _ _ _ Gd0' H1) as (G1 & ds1 & _ & Gd1 & K1 & W1). destruct (hops_stepped _ _ _ _ Gd1 H2) as (G2 & ds2 & Sub2 & Gd2 & K2 & W2).
  specialize (W1 eq_refl (carry_live w0)). specialize (W2 eq_refl (watch_live _ _ _ W1 (carry_live w0))). pose proof (watch_trans _ _ _ _ _ W1 W2) as W.
  destruct (carry_live w0) as (p0 & Hp0 & Lv0). destruct (wt_pipe _ _ _ W p0 Hp0 Lv0) as (p2 & fresh & Hp2 & _ & Eh & Ep).
  exists p0, p2, fresh. split_and!; [done..|]. rewrite Ep, apply_payloads.
  assert (O1 : owned G2 (there_now w1)). { destruct (gd_owned _ _ Gd1) as [Wf F]. split; [done|]. intros who m M. eapply lookup_weaken; [by apply F|done]. }
  apply (rep_level _ _ (contents (there_now w2))); [|exact (state_rep G2 (there_now w2) (gd_owned _ _ Gd2))].
  assert (No : ∀ a, ¬ mentioned w2 a) by (intros a (who & d & M & _); by apply Quiet in M).
  replace (contents (there_now w2)) with (foldl ap (contents (there_now w1)) (ds1 ++ ds2)).
  - apply (fold_rep G2); [apply Gd2|by apply contents_issued| |exact (state_rep G2 (there_now w1) O1)]. apply Forall_app. split; [|done].
    eapply Forall_impl; [exact K1|]. intros d. by apply known_more.
  - apply map_eq. intros a. rewrite fold_lookup. destruct (says_last (ds1 ++ ds2) a) as [x|] eqn:Sa; [symmetry; by apply (wt_said _ _ _ W)|].
    symmetry. apply (wt_kept _ _ _ W2); [done|]. rewrite says_last_app in Sa. by destruct (says_last ds2 a).
Qed.
End worlds.
