(* ===== verification/RtRuns.v ===== *)
(** * RtRuns: realtime connections on concrete messages

    A reader and writer of JSON, an environment with policies, a pipe, and
    what connections do with them; and runs that show what the protocol
    does at its edges. *)
From S2P Require Import Prelude Order Text Utf8 Manifest RtFrame RtLimit RtSession RtSessionProofs RtHub.

Module RtWitness.
(** ** JSON *)
(** Values as trees, and trees as text. *)
Fixpoint to_tree (v : Value) : gen_tree bytes :=
  match v with
  | JNull => GenNode 0 []
  | JBool b => GenNode (if b then 1 else 2) []
  | JNum n => GenNode 3 [GenLeaf n]
  | JStr s => GenNode 4 [GenLeaf s]
  | JArr l => GenNode 5 (map to_tree l)
  | JObj m => GenNode 6 (map (λ e, GenNode 7 [GenLeaf e.1; to_tree e.2]) m)
  end.
Fixpoint of_tree (t : gen_tree bytes) : Value :=
  match t with
  | GenNode 1 _ => JBool true
  | GenNode 2 _ => JBool false
  | GenNode 3 [GenLeaf n] => JNum n
  | GenNode 4 [GenLeaf s] => JStr s
  | GenNode 5 l => JArr (map of_tree l)
  | GenNode 6 m => JObj (map (λ e, match e with GenNode 7 [GenLeaf k; v] => (k, of_tree v) | _ => ([], JNull) end) m)
  | _ => JNull
  end.
Fixpoint of_to_tree (v : Value) : of_tree (to_tree v) = v.
Proof.
  destruct v as [|[]|n|s|l|m]; cbn; [done..| |]; f_equal.
  - induction l as [|v l IH]; cbn; [done|]. f_equal; [apply of_to_tree|exact IH].
  - induction m as [|[k v] m IH]; cbn; [done|]. f_equal; [|exact IH]. f_equal. apply of_to_tree.
Qed.
#[global] Instance json : Json := {|
  json_text v := ManifestConcrete.bits_of (countable.encode (to_tree v));
  json_parse t := of_tree <$> countable.decode (ManifestConcrete.of_bits t);
  json_number _ := True
|}.
Lemma bits_ascii p : Forall ascii (ManifestConcrete.bits_of p).
Proof. induction p; cbn; repeat constructor; done. Qed.
#[global] Instance json_ok : JsonOk.
Proof.
  split; [|intros v _; apply utf8_ascii, bits_ascii|done]. intros v _. cbn. by rewrite ManifestConcrete.of_bits_bare, countable.decode_encode; cbn; rewrite of_to_tree.
Qed.
#[global] Instance hash_order : HashOrder := {| hash_iter A m := map_to_list m; hash_iter_perm A m := Permutation_refl _ |}.

(** ** An environment *)
(** Members may read and write, guests may not; what was done is kept. *)
Definition member : Identity := mkIdentity (str "member") JNull.
Definition guest : Identity := mkIdentity (str "guest") JNull.
Definition grant (id : Identity) : Grant := let b := bool_decide (i_role id = str "member") in mkGrant b b.
#[global] Instance policies : Policies := {| allow_read id _ := grant id; allow_write id _ := grant id |}.
#[global] Instance env : Env (list Action) := {|
  e_join e := (e, true);
  e_over_events e := (e, false);
  e_presence e := (e, true);
  e_ask e _ id _ := (e, inl (grant id));
  e_watch e _ _ wants := (e, inl (mkWatched (Z.of_nat <$> seq 1 (length wants)) None));
  e_state e _ := (e, jobj []);
  e_send e a := (e ++ [a], true);
  e_do e _ _ a := e ++ [a]
|}.
#[global] Instance env_ok : EnvOk (list Action).
Proof. split. intros e bearer identity ask e' g [= <- <-]. by destruct (a_about ask). Qed.
Definition verify (token : bytes) : Identity + bytes :=
  if bool_decide (token = str "member") then inl member else if bool_decide (token = str "guest") then inl guest else inr (str "no such token").

(** ** Messages *)
Definition room_a : bytes := str "realtime:a".
Definition room_b : bytes := str "realtime:b".
Definition says_frame (topic event : bytes) (payload : Value) : Heard :=
  ClientText (f_encode (mkFrame (Some (str "1")) (Some (str "2")) topic event payload) V2).
Definition join_as (topic : bytes) (private : bool) (token : option bytes) : Heard :=
  says_frame topic (str "phx_join")
    (jobj ((str "config", jobj [(str "private", JBool private)]) :: match token with Some t => [(str "access_token", JStr t)] | None => [] end)).
Definition shout (topic : bytes) : Heard :=
  says_frame topic (str "broadcast") (jobj [(str "event", JStr (str "hi")); (str "payload", jobj [])]).
(** What a socket does with messages one after the other, from a guest's. *)
Definition s0 : Session := with_bearer (budgeted V2 guest limits_default) None.
Definition after (s : Session) (heard : Heard) : Session := (turn verify 0 heard (s, [] : list Action)).1.1.
Definition did (s : Session) (heard : Heard) : list Action := (turn verify 0 heard (s, [] : list Action)).2.1.
Lemma runs_after s ids heard :
  runs (E := list Action) s ids → (turn verify 0 heard (s, [] : list Action)).2.2 = Some true →
  runs (E := list Action) (after s heard) (proved verify 0 heard s ([] : list Action) ids).
Proof.
  intros R On. unfold after. destruct (turn verify 0 heard (s, [])) as [[s' e'] [d on]] eqn:Et. cbn in On. subst on.
  by eapply runs_turn.
Qed.
Definition in_a : Session := after s0 (join_as room_a true (Some (str "member"))).
Definition who_in_a : list Identity := proved verify 0 (join_as room_a true (Some (str "member"))) s0 ([] : list Action) [guest].
Lemma in_a_runs : runs (E := list Action) in_a who_in_a.
Proof. apply runs_after; [apply runs_new|by vm_compute]. Qed.

(** ** Witnesses *)
Lemma private_rooms_guarded_witness :
  Forall (may (proved verify 0 (shout room_a) in_a ([] : list Action) who_in_a)) (did in_a (shout room_a)) ∧
  existsb (λ a, match a with Fan fan => bool_decide (fo_topic fan = str "private:" ++ room_a) | _ => false end) (did in_a (shout room_a)) = true.
Proof.
  split; [|by vm_compute]. pose proof (private_rooms_guarded in_a who_in_a verify 0 (shout room_a) ([] : list Action) in_a_runs) as W.
  unfold did. destruct (turn verify 0 (shout room_a) (in_a, [])) as [w [d on]]. by destruct W as (_ & W & _).
Defined.
Lemma session_in_order_witness :
  s_pending in_a = ∅ ∧ (map_to_list (s_channels in_a)).*1 = [room_a] ∧
  ∀ c, s_channels in_a !! room_a = Some c → c_private c = true → is_Some (s_rights in_a !! room_a).
Proof.
  pose proof (session_in_order in_a who_in_a in_a_runs) as (_ & W & Pe & _). split; [exact Pe|]. split; [by vm_compute|].
  intros c C. by destruct (W room_a c C).
Defined.
Lemma frames_answered_witness :
  answered V2 (mkFrame (Some (str "1")) (Some (str "2")) room_b (str "phx_leave") JNull) (did in_a (says_frame room_b (str "phx_leave") JNull)).
Proof.
  refine (frames_answered (λ e a, eq_refl) verify 0 _ (mkFrame (Some (str "1")) (Some (str "2")) room_b (str "phx_leave") JNull) in_a [] _ _); [by vm_compute|].
  do 2 right. by left.
Defined.

(** ** A topic with two sockets and a client *)
#[global] Instance pipe : Pipe (list Delivery * Z) := {|
  pipe_new := ([], 1);
  pipe_subscribe p := (p.1, Z.max 0 p.2 + 1);
  pipe_send p d := if 0 <? p.2 then Some ((p.1 ++ [d], p.2), p.2) else None;
  receiver_count p := Z.max 0 p.2;
  pipe_drop p := (p.1, p.2 - 1);
  heard p := p.1
|}.
#[global] Instance pipe_ok : PipeOk (list Delivery * Z).
Proof.
  split; cbn.
  - done.
  - intros p. split; [done|lia].
  - intros p. lia.
  - intros p L. split; [done|lia].
  - intros p d E. destruct (Z.ltb_spec 0 p.2); [lia|done].
  - intros p d L. destruct (Z.ltb_spec 0 p.2); [|lia]. exists (p.1 ++ [d], p.2). cbn. rewrite Z.max_r by lia. by split_and!.
Qed.
Definition hub0 : Hub (list Delivery * Z) := track 1 room_a (Some (str "ann")) (jobj []) (carry room_a hub_new).
Definition w0 : World := mkWorld hub0 ∅.
Definition w1 : World := mkWorld (track 2 room_a (Some (str "ann")) (jobj [(str "tab", JNum (str "2"))]) (carry room_a hub0)) ∅.
Definition in_1 := track_in 1 room_a (Some (str "bob")) (jobj []) (w_hub w1).
Definition in_2 := untrack_in 2 room_a in_1.1.
(** Both change, and the second's diff goes out first. *)
Definition wa : World := mkWorld in_1.1 {[1 := (room_a, (Some in_1.2.1, in_1.2.2))]}.
Definition wb : World := mkWorld in_2.1 (<[2 := (room_a, (None, in_2.2))]> (w_unsent wa)).
Definition wc : World := mkWorld (diff 2 room_a None in_2.2 in_2.1) (delete 2 (w_unsent wb)).
Definition w2 : World :=
  mkWorld (diff 1 room_a (Some in_1.2.1) in_1.2.2 (w_hub wc)) (delete 1 (w_unsent wc)).
Lemma presence_stays_level_witness :
  ∃ p0 p2 fresh, h_topics (carry room_a hub0) !! room_a = Some p0 ∧ h_topics (w_hub w2) !! room_a = Some p2 ∧ heard p2 = heard p0 ++ fresh ∧
    level (foldl client_apply (client_of (hub_state room_a (w_hub w1))) (payloads fresh)) (client_of (hub_state room_a (w_hub w2))) ∧
    (client_of (hub_state room_a (w_hub w2))).*1 = [str "bob"].
Proof.
  destruct (presence_stays_level room_a w0 w1 w2) as (p0 & p2 & fresh & H0 & H2 & Eh & L).
  - eapply rtc_l; [apply (hop_carry _ hub_new ∅ room_a)|]. apply track_hops; [done|by vm_compute|done].
  - apply track_hops; [done|by vm_compute|]. by split; [intros ? []%elem_of_nil|].
  - apply (rtc_l _ _ wa); [by apply (hop_track _ _ _ 1 room_a (Some (str "bob")) (jobj [])); [..|vm_compute]|].
    apply (rtc_l _ _ wb); [by apply (hop_untrack _ in_1.1 _ 2 room_a); [|vm_compute]|].
    apply (rtc_l _ _ wc); [by apply (hop_diff _ in_2.1 (w_unsent wb) 2 room_a (None, in_2.2))|].
    apply rtc_once. exact (hop_diff _ (w_hub wc) (w_unsent wc) 1 room_a (Some in_1.2.1, in_1.2.2) eq_refl).
  - intros who d. assert (E : w_unsent w2 = ∅) by by vm_compute. by rewrite E, lookup_empty.
  - exists p0, p2, fresh. split_and!; [done..|by vm_compute].
Defined.

(** ** Edges *)
Definition fans (acts : list Action) : bool := existsb (λ a, match a with Fan _ => true | _ => false end) acts.
Definition asked (acts : list Action) : bool := existsb (λ a, match a with AskFor _ => true | _ => false end) acts.
(** A join that brings another token makes the whole socket somebody else,
    and the private channel it was on as a member goes on: what a guest may
    not write is fanned, and nobody is asked.  The same token in a refresh
    takes the channel down. *)
Definition written : Session := after in_a (shout room_a).
Definition now_guest : Session := after written (join_as room_b false (Some (str "guest"))).
Definition refreshed_guest : Session := after written (says_frame room_a (str "access_token") (jobj [(str "access_token", JStr (str "guest"))])).
Example join_keeps_old_rights :
  s_identity now_guest = guest ∧ g_broadcast (allow_write guest room_a) = false ∧
  fans (did now_guest (shout room_a)) = true ∧ asked (did now_guest (shout room_a)) = false ∧
  s_identity refreshed_guest = guest ∧ fans (did refreshed_guest (shout room_a)) = false.
Proof. by vm_compute. Qed.
(** A private join that was refused leaves its rights behind: the public
    channel of the same name, joined afterwards, is asked about and refused. *)
Definition refused : Session := after s0 (join_as room_a true None).
Definition public_a : Session := after refused (join_as room_a false None).
Example refused_join_gates_public :
  (map_to_list (s_channels refused)).*1 = [] ∧ (map_to_list (s_rights refused)).*1 = [room_a] ∧
  (c_private <$> s_channels public_a !! room_a) = Some false ∧ fans (did public_a (shout room_a)) = false ∧
  fans (did (after s0 (join_as room_a false None)) (shout room_a)) = true.
Proof. by vm_compute. Qed.
(** The lengths of a broadcast are cast to a byte, so a topic of 256 bytes
    is written as an empty one: two broadcasts with one encoding. *)
Definition long : bytes := replicate 256 (byte_of_Z 97).
Example long_topic_wraps :
  bb_encode (mkPush [] [] long [] [] EBinary []) = bb_encode (mkPush [] [] [] [] [] EBinary long).
Proof. by vm_compute. Qed.
End RtWitness.
